(* ===== verification/_CoqProject ===== *)
-Q . S2P
Prelude.v
Bits.v
PagedMap.v
PagedMapSpec.v
PagedMapIter.v
PagedHeap.v
PagedCow.v
PagedCowOps.v
PagedTheorems.v
Adjacency.v
AdjacencySpec.v
AdjacencyCompaction.v
GoBytes.v
BinaryCodec.v
BinaryCodecSpec.v
BinaryValue.v
BinaryValueSpec.v
BinaryRecords.v
BinaryRecordsSpec.v
BinaryTheorems.v
GoMaps.v
Values.v
ValuesSpec.v
Properties.v
PageRecords.v
PageRecordsSpec.v
ValueTheorems.v
Streams.v
StreamsSpec.v
StreamLogs.v
StreamStoreSpec.v
StreamPersist.v
StreamPersistSpec.v
StreamTx.v
ChangefeedSpec.v
StreamTxSpec.v
StreamEncoderSpec.v
StreamTheorems.v
PropertyDelta.v
PropertyPatch.v
WalAccumulator.v
WalInvariant.v
WalSteps.v
WalFrames.v
WalFramesSpec.v
DecoderSafety.v
WalApply.v
GraphPersist.v
GraphChanges.v
GraphCommit.v
ShardMap.v
PropertyPostings.v
StringPostings.v
PropertyKeys.v
PropertyIndexes.v
PropertyIndexesSpec.v
IndexUpkeep.v
IndexTheorems.v
RecoveryTheorems.v
GraphTheorems.v
ChangefeedReplay.v
SnapshotSize.v
Search.v
SearchSpec.v
Porter.v
SearchTheorems.v
GraphTx.v
GraphStatement.v
GraphSides.v
GraphTxSpec.v
GraphTxNodes.v
GraphTxRemove.v
GraphStatementSpec.v
GraphMarks.v
GraphEngine.v
GraphEngineSpec.v
IDTheorems.v
TransactionTheorems.v
TransactionExamples.v
