(* ===== verification/Prelude.v ===== *)
(** * latticedb-go, verified

    latticedb-go is an embedded graph database. A write transaction forks an immutable
    graph (tables of nodes and edges, edge lists per node, postings, full text, streams),
    changes its fork through calls and queries, and commits it: the changes are published
    to a change stream, the size of a snapshot is brought up to date, and the change set is
    written to a WAL as a binary delta; recovery decodes snapshots and deltas. This
    development models that path from the calls of an application to the bytes of the log
    and back: [src/internal/store], the transactions, statements, streams, changefeed,
    identifiers and index upkeep of [src/internal/engine], and the tokenizers and stemmer
    of [src/internal/search].

    ** Conventions

    A Go unsigned integer is an [N], a signed one a [Z]; where an operation can wrap, the
    wrap is written out ([u64], [sub64], [u16], [u8]). Byte strings are [list byte]. A
    slice or map that may be nil is an [option]. A Go map is a [gmap] where only lookups
    matter; where the code ranges over it, a list of entries whose order is a parameter
    or is shown not to matter. Errors are values: a sum, an [option error], or the latched
    error field of the encoder and decoder; a panic is a value too where one is possible.
    Mutation is state passing; where sharing is the point there is a heap: of pages with
    handles into it for the paged map, of records with the tables that point to them for
    transactions, whose readers hold the same records. The calls of a transaction are
    written in a state and error monad ([act] of [GraphTx]).

    ** Files and the code they model

    - [Prelude], [Bits]: integers, tactics, hints, list lemmas; bit sets.
    - [PagedMap], [PagedMapSpec], [PagedMapIter]: paged_map.go as a pure radix map: get,
      set, delete, the single-update fork, iteration in map order and in key order.
      [PagedHeap], [PagedCow], [PagedCowOps]: the same file with explicit sharing: forks,
      clone-once marks, in-place writes. [PagedTheorems]: C18, C19.
    - [Adjacency], [AdjacencySpec], [AdjacencyCompaction]: adjacency.go and
      adjacency_compaction.go, edge lists and their stepwise compaction: C20, C37.
    - [GoBytes], [BinaryCodec], [BinaryValue], [BinaryRecords]: binary_payload.go,
      binary_records.go, binary_state.go, binary_delta.go, binary_streams.go and what they
      use of encoding/binary and unicode/utf8. [BinaryCodecSpec] states what one codec
      promises to another as the class [Codec]; [BinaryValueSpec] and [BinaryRecordsSpec]
      discharge it for every record. [BinaryTheorems]: C26.
    - [GoMaps], [Values], [ValuesSpec], [Properties], [PageRecords], [PageRecordsSpec]:
      value normalisation (store.go), entity properties (properties.go) and checksummed
      page records (page_records.go). [ValueTheorems]: C29 to C31.
    - [Streams]: stream.go, the in-memory stream store: chunked logs with skip pointers,
      publication, reads, trimming, byte totals. [StreamsSpec], [StreamLogs],
      [StreamStoreSpec]: chunk chains, logs and the store against lists of records.
    - [StreamPersist], [StreamPersistSpec], [StreamEncoderSpec]: WAL operations, checkpoint
      images, recovery and payload checks of stream.go, stream_value.go and
      binary_streams.go.
    - [StreamTx], [StreamTxSpec], [ChangefeedSpec]: engine/stream.go, the stream calls of a
      transaction and the changefeed published at commit. [StreamTheorems]: C21 to C25.
    - [PropertyDelta], [PropertyPatch]: property_delta.go, patches of stored property maps
      and the element and byte totals kept with them.
    - [WalAccumulator]: the recovery accumulator of recovery.go, built from a snapshot and
      changed by deltas and property deltas. [WalInvariant], [WalSteps]: its invariant,
      what each step does to the maps, and reloading what it writes back.
    - [WalFrames]: the frames of the write-ahead log, replay with its budgets, and the
      writer against a file system that may fail at any call (recovery.go).
      [WalFramesSpec]: reading whole, cut and damaged frames; appends.
    - [DecoderSafety]: the binary decoders and replay on arbitrary bytes; the loop of
      replay turn by turn, without fuel.
      [RecoveryTheorems]: C12 to C15, C27, C28, C38.
    - [GraphPersist]: the snapshot of a graph, the delta of a commit and their appends
      (recovery.go, with GraphState and GraphDelta of store.go). [WalApply]: when replay
      accepts a delta. [GraphChanges], [GraphCommit]: what recovery holds of a graph, what
      a commit's changes say, and the step from one to the other. [GraphTheorems]: C8, C9.
    - [ShardMap], [StringPostings]: the shard map of store.go with its bit sets and short
      list of shards, and the postings of labels and edge types kept in it.
      [PropertyPostings]: the postings of property_index.go as sorted slice, chunks or
      radix table.
    - [PropertyKeys]: the keys values are indexed by, with SHA-256. [PropertyIndexes],
      [PropertyIndexesSpec], [IndexUpkeep]: the in-memory property indexes, and building
      and maintaining them over commits (engine/db.go). [IndexTheorems]: C16, C17, C32,
      C33.
    - [ChangefeedReplay]: what the changefeed publishes is what replay accepts, as long as
      names leave room in a change record: C40 is what happens when they do not.
    - [SnapshotSize]: the size of a snapshot, counted and adjusted (recovery.go).
    - [Search], [SearchSpec], [Porter]: search.go and porter.go, tokens, their charge, edit
      distances and stems. [SearchTheorems]: C34 to C36.
    - [GraphTx]: the write transaction of engine/db.go, compat.go, app_metadata.go and
      vector_index.go: records in a heap shared with readers, copied when first written;
      change marks and tracked property keys; one definition per call. [GraphStatement]:
      the clauses of engine/query.go that write (CREATE of nodes and of edges, SET, REMOVE,
      DELETE) and the fork, merge and discard of a statement around them (compat.go).
    - [GraphSides], [GraphTxSpec], [GraphTxNodes], [GraphTxRemove], [GraphStatementSpec]:
      the invariant [txInv] of a transaction and what every call and clause does to it,
      as [runs], a logic of outcomes over the monad. [GraphMarks]: the marks of removed
      nodes, which nothing takes off.
    - [GraphEngine], [GraphEngineSpec]: starting, committing and rolling back
      (commitInternalContext of engine/db.go), and what a commit means for the log.
      [IDTheorems]: C11. [TransactionTheorems]: C1 to C7, C10, C39. [TransactionExamples]:
      a concrete session with the witnesses.

    ** What the theorems show

    The whole path: a session is any sequence of transactions, of calls and queries that
    may fail, that commit, fail to commit with the outcome known, or roll back; its log
    loads as the graph of the last commit, and however the disk lets one more commit end,
    as the graph before or after that one (C1). A transaction within the limits can always
    commit (C7), and the size the engine keeps is exact (C10). Inside a transaction every
    call does to the graph what its abstract effect says (C2), keeps records, lists,
    postings and change marks in order without a panic (C3), and changes nothing when it
    fails (C4); queries are atomic (C5); readers are not disturbed (C6); identifiers are
    handed out once (C11). The calls are those of [callOK]: arguments are Go values, a
    query is a plan, and a node that is deleted has an identifier that was handed out at
    some time; C39 shows what another one does. Commits are within the formats (below).

    Commits and recovery: a commit that is interrupted anywhere leaves the graph before or
    the graph after (C8); replaying its delta is the step between the graphs it describes
    (C9); a torn log recovers its complete frames (C12), a damaged byte is noticed (C13);
    replay of any bytes ends, with an error or with a state that satisfies the invariant
    (C14) and that reloads to itself when it is written back (C15). Decoding never reserves more than its allowance
    (C27). Property patches reproduce the new map and its totals (C28).

    Refinement of the data structures: paged maps, edge lists, stream stores, properties
    and postings behave, call by call, as finite maps, lists and sets (C19, C20, C21, C29,
    C32), and forks of paged maps do not see each other's writes (C18). Indexes: keys tell
    values apart, up to the sign of zero and SHA-256 (C33); commits, builds and drops keep
    every property index equal to a scan of the graph, and fail only as they should: a
    build when the index exists or its charge is over the budget (C17); so a lookup returns exactly the entities that carry a value (C16). Streams: replay equals the live
    transaction (C22), the changefeed's count is exact (C23), checkpoints are read back
    (C24), byte totals are exact (C25). Round trips and limits: WAL payloads (C26), values
    (C30), damage to page records (C31). Compaction ends (C37). Search: C34 to C36.

    Defects of the code, as theorems: a log torn after a header's first twelve bytes is
    reported ready for appending, and is lost with the next frame (C38); deleting a node
    that does not exist yet hides the node that gets its identifier (C39); a label longer than a stored value is accepted
    and makes the log unreadable (C40); and [writeStream_drops_error] of [StreamTheorems].

    ** Fuel and bounds

    Recursion is structural except: varints (ten bytes, Go's own bound), value nesting
    (the limit of 64 both sides check, plus one level for the check itself), skip
    pointers (one level more than the previous chunk has), bisection (the length of the
    list), record visits and chunk building (the number of records), compaction steps,
    chunks of a posting (the number of identifiers), SHA-256 blocks (the length of the
    message), runes (the length of the string), replay (the length of the file: every
    frame takes bytes off it). Each specification proves that the fuel suffices, so no
    theorem is about a run that stopped early. Histories of a bare stream store are shorter
    than 2^64 - 1 calls so that sequences do not wrap; under a transaction the engine's own
    guard does that. A commit of a session is within the formats ([commitFits]): its frame
    fits in the log, labels, types and keys fit in a change record ([namesFit]), and
    operations and snapshot sizes can be counted in 64 bits.

    ** Not modelled

    The parser, planner and reading half of the query language (engine/query*.go):
    expressions and matched rows are parameters of the clauses that write; MERGE and CREATE
    of whole patterns are left out. Scores and vectors (engine/vector_*.go,
    engine/page_vector*.go, engine/fts_*.go), which are floating-point ranking. The page
    engine (internal/pagestore and the page_*.go files, apart from page records and the
    in-memory half of page_stream.go). The checkpoint files of recovery.go and the choice
    between candidate states, database lifecycle, leases and locking (engine/db.go,
    pathlock*.go), backups, export, embedding and the public wrappers, which are I/O and
    glue over what is modelled. In a commit the upkeep of the derived indexes and the
    pressure of a running checkpoint are reports given with it, there is no backup archive,
    and a transaction creates and drops no property index; the upkeep itself is modelled
    on its own. The Unicode tables are a parameter, with the hypothesis that lower case
    keeps letters letters, digits digits and runes valid. Legacy JSON payloads are decoded
    by encoding/json, a parameter of replay with the hypothesis that a decoded object holds
    a key once. Recovery reuses the backing arrays of the snapshot it was given; the model
    copies, since no caller reads the snapshot again. Shard maps, postings and edge lists
    are values: that forks of them share memory safely is shown for the paged map (C18)
    and the records (C6) only. Property indexes over pages on disk
    (page_property_index.go) and the cost counters the engine keeps for derived indexes are
    left out. Contexts are taken as never cancelled, values as acyclic, and reads that wait
    for a notification are left out. *)
From stdpp Require Export base list list_numbers numbers option gmap sorting fin_maps fin_sets.
From Stdlib Require Export NArith ZArith Lia.

Declare Scope go_scope.
Delimit Scope go_scope with go.
#[global] Open Scope N_scope.

Create HintDb lattice.

(** ** Machine integers

    A Go unsigned integer is an [N] below a power of two; the wrap-around of
    an operation that can overflow is written out with [u64], [u16] or [u8]. *)

Definition u64 (x : N) : N := x mod 2 ^ 64.
Definition u16 (x : N) : N := x mod 2 ^ 16.
Definition u8 (x : N) : N := x mod 2 ^ 8.
Definition max_uint64 : N := 2 ^ 64 - 1.

(** [a << k] and [a - b] on [uint64]. *)
Definition shl64 (x k : N) : N := u64 (N.shiftl x k).
Definition sub64 (x y : N) : N := u64 (x + 2 ^ 64 - y).

Infix "<<64" := shl64 (at level 35, no associativity) : go_scope.

(** [addSaturated] / [snapshotAdd] and [multiplySaturated] / [snapshotMul] of
    recovery.go: the same two bodies under two names each. *)
Definition addSaturated (left right : N) : N :=
  if max_uint64 - left <? right then max_uint64 else left + right.
Definition multiplySaturated (left right : N) : N :=
  if negb (left =? 0) && (max_uint64 / left <? right) then max_uint64
  else u64 (left * right).

(** ** Tactics *)

(** Split every boolean comparison on [N], [Z] or [nat] in the goal. *)
Ltac case_cmp :=
  repeat match goal with
  | |- context [N.eqb ?a ?b] => destruct (N.eqb_spec a b)
  | |- context [N.ltb ?a ?b] => destruct (N.ltb_spec a b)
  | |- context [N.leb ?a ?b] => destruct (N.leb_spec a b)
  | |- context [Z.eqb ?a ?b] => destruct (Z.eqb_spec a b)
  | |- context [Z.ltb ?a ?b] => destruct (Z.ltb_spec a b)
  | |- context [Z.leb ?a ?b] => destruct (Z.leb_spec a b)
  end.

(** The same in a hypothesis. *)
Ltac case_cmp_in H :=
  repeat match type of H with
  | context [N.eqb ?a ?b] => destruct (N.eqb_spec a b)
  | context [N.ltb ?a ?b] => destruct (N.ltb_spec a b)
  | context [N.leb ?a ?b] => destruct (N.leb_spec a b)
  | context [Z.eqb ?a ?b] => destruct (Z.eqb_spec a b)
  | context [Z.ltb ?a ?b] => destruct (Z.ltb_spec a b)
  | context [Z.leb ?a ?b] => destruct (Z.leb_spec a b)
  end.

(** ** Machine-integer lemmas *)

Lemma u64_small x : x < 2 ^ 64 -> u64 x = x.
Proof. intros. unfold u64. by apply N.mod_small. Qed.

Lemma u64_lt x : u64 x < 2 ^ 64.
Proof. unfold u64. by apply N.mod_upper_bound. Qed.

#[export] Hint Resolve u64_lt : lattice.

Lemma addSaturated_spec x y :
  x <= max_uint64 -> y <= max_uint64 -> addSaturated x y = N.min (x + y) max_uint64.
Proof. unfold addSaturated. intros. case_cmp; lia. Qed.

Lemma addSaturated_le x y : x <= max_uint64 -> addSaturated x y <= max_uint64.
Proof. unfold addSaturated. case_cmp; lia. Qed.

Lemma multiplySaturated_spec x y :
  x <= max_uint64 -> y <= max_uint64 ->
  multiplySaturated x y = N.min (x * y) max_uint64.
Proof.
  unfold multiplySaturated. intros Hx Hy.
  destruct (N.eqb_spec x 0) as [->|Hx0]; simpl.
  { by rewrite u64_small, N.mul_0_l, N.min_0_l by (rewrite N.mul_0_l; lia). }
  pose proof (N.Div0.mul_div_le max_uint64 x) as Hle.
  pose proof (N.mul_succ_div_gt max_uint64 x Hx0) as Hgt.
  case_cmp.
  - symmetry. apply N.min_r. nia.
  - rewrite u64_small; [symmetry; apply N.min_l|]; unfold max_uint64 in *; nia.
Qed.

(** ** Fixed-size pointer arrays

    A Go array of pointers is a list of options; [idx] reads a slot ([None] is
    nil) and [upd] writes one. Every index the sources use is in range. *)

Section arrays.
Context {A : Type}.

Definition idx (l : list (option A)) (i : N) : option A := mjoin (l !! N.to_nat i).
Definition upd (l : list (option A)) (i : N) (x : option A) : list (option A) :=
  <[N.to_nat i := x]> l.

Lemma idx_upd_eq l i x : (N.to_nat i < length l)%nat -> idx (upd l i x) i = x.
Proof. intros. unfold idx, upd. by rewrite list_lookup_insert_eq. Qed.

Lemma idx_upd_ne l i j x : i <> j -> idx (upd l i x) j = idx l j.
Proof. intros. unfold idx, upd. rewrite list_lookup_insert_ne; [done|lia]. Qed.

Lemma length_upd l i x : length (upd l i x) = length l.
Proof. apply length_insert. Qed.

Lemma idx_replicate n i : idx (replicate n None) i = None.
Proof.
  unfold idx. destruct (replicate n None !! N.to_nat i) eqn:E; [|done].
  apply lookup_replicate in E as [-> _]. done.
Qed.

Lemma idx_Some l i x : idx l i = Some x <-> l !! N.to_nat i = Some (Some x).
Proof.
  unfold idx. destruct (l !! N.to_nat i) as [[?|]|]; simpl; naive_solver.
Qed.

(** [forallb (== nil)] over an array. *)
Definition all_nil (l : list (option A)) : bool :=
  forallb (fun x => match x with None => true | Some _ => false end) l.

Lemma all_nil_idx l i : all_nil l = true -> idx l i = None.
Proof.
  intros H. unfold idx. destruct (l !! N.to_nat i) as [[x|]|] eqn:E; simpl; try done.
  unfold all_nil in H. rewrite forallb_forall in H.
  specialize (H (Some x)). simpl in H. discriminate H.
  apply list_elem_of_In, list_elem_of_lookup. eauto.
Qed.

Lemma idx_all_nil l : (forall i, idx l i = None) -> all_nil l = true.
Proof.
  intros H. apply forallb_forall. intros x Hx%list_elem_of_In.
  apply list_elem_of_lookup in Hx as [i Hi]. specialize (H (N.of_nat i)).
  unfold idx in H. rewrite Nat2N.id, Hi in H. by destruct x.
Qed.

Lemma all_nil_false l : all_nil l = false -> exists i x, idx l i = Some x.
Proof.
  intros H. destruct (decide (Exists is_Some l)) as [Hex|Hno].
  - apply Exists_exists in Hex as (x & Hx & [y ->]).
    apply list_elem_of_lookup in Hx as [i Hi].
    exists (N.of_nat i), y. apply idx_Some. by rewrite Nat2N.id.
  - exfalso. rewrite idx_all_nil in H; [done|]. intros i.
    destruct (idx l i) as [x|] eqn:E; [|done]. exfalso. apply Hno.
    apply idx_Some in E. apply Exists_exists. exists (Some x).
    split; [apply list_elem_of_lookup; eauto|eauto].
Qed.

End arrays.

(** ** Lists *)

Lemma filter_ext_in {A} (P Q : A -> Prop) `{HP : !forall x, Decision (P x)} `{HQ : !forall x, Decision (Q x)} (l : list A) :
  (forall x, x ∈ l -> P x <-> Q x) -> filter P l = filter Q l.
Proof.
  induction l as [|a l IH]; intros H; [done|].
  rewrite !filter_cons. rewrite IH by (intros; apply H; set_solver).
  specialize (H a ltac:(set_solver)). repeat case_decide; tauto.
Qed.

Lemma filter_none {A} (P : A -> Prop) `{HP : !forall x, Decision (P x)} (l : list A) :
  (forall x, x ∈ l -> ~ P x) -> filter P l = [].
Proof.
  induction l as [|a l IH]; intros H; [done|].
  rewrite filter_cons_False by (apply H; set_solver). apply IH. set_solver.
Qed.

Lemma filter_all {A} (P : A -> Prop) `{HP : !forall x, Decision (P x)} (l : list A) :
  (forall x, x ∈ l -> P x) -> filter P l = l.
Proof.
  induction l as [|a l IH]; intros Hl; [done|].
  rewrite filter_cons_True by (apply Hl; set_solver). f_equal. apply IH. set_solver.
Qed.

Lemma StronglySorted_filter {A} (R : A -> A -> Prop) (P : A -> Prop) `{HP : !forall x, Decision (P x)} (l : list A) :
  StronglySorted R l -> StronglySorted R (filter P l).
Proof.
  induction 1 as [|a l Hl IH Hall]; [constructor|].
  rewrite filter_cons. case_decide; [|done]. constructor; [done|].
  rewrite Forall_forall in *. intros x Hx%list_elem_of_filter. naive_solver.
Qed.

Lemma StronglySorted_nodup {A} (R : A -> A -> Prop) (l : list A) :
  (forall x, ~ R x x) -> StronglySorted R l -> NoDup l.
Proof.
  intros HR. induction 1 as [|a l Hl IH Hall]; constructor; [|done].
  intros Ha. rewrite Forall_forall in Hall. by apply (HR a), Hall.
Qed.

Lemma elem_of_concat {A} (x : A) (ls : list (list A)) :
  x ∈ concat ls <-> exists l, l ∈ ls /\ x ∈ l.
Proof.
  induction ls as [|l ls IH]; simpl; [set_solver|].
  rewrite elem_of_app, IH. setoid_rewrite elem_of_cons. naive_solver.
Qed.

(** ** Go maps

    [range] over a Go map visits its keys in an order the language leaves open.
    A model that ranges over a map takes that order from an instance of
    [MapOrder], and its theorems hold for every instance. [rangeKeys n m] is the
    order of the [n]-th range statement over [m]: two of them may differ. *)

Class MapOrder (A : Type) := {
  rangeKeys : nat -> gmap N A -> list N;
  rangeKeys_perm : forall n m, rangeKeys n m ≡ₚ (map_to_list m).*1 }.

Definition canonicalOrder {A} : MapOrder A :=
  {| rangeKeys := fun _ m => (map_to_list m).*1; rangeKeys_perm := fun _ m => reflexivity _ |}.

Section map_order.
Context `{MapOrder A}.

Lemma elem_of_rangeKeys n (m : gmap N A) k : k ∈ rangeKeys n m <-> is_Some (m !! k).
Proof.
  rewrite rangeKeys_perm, list_elem_of_fmap. split.
  - intros ([k' x] & -> & Hx%elem_of_map_to_list). eauto.
  - intros [x Hx]. exists (k, x). split; [done|]. by apply elem_of_map_to_list.
Qed.

Lemma rangeKeys_nodup n (m : gmap N A) : NoDup (rangeKeys n m).
Proof. rewrite rangeKeys_perm. apply NoDup_fst_map_to_list. Qed.

End map_order.

(** ** Nested loops

    [concat (imap f l)] and [concat (map f l)] are what a loop over [l] with an
    inner loop [f] visits. *)

Lemma sorted_concat_imap {A B} (R : B -> B -> Prop) (f : nat -> A -> list B) (l : list A) :
  (forall i x, l !! i = Some x -> StronglySorted R (f i x)) ->
  (forall i j x y a b, (i < j)%nat -> l !! i = Some x -> l !! j = Some y ->
                       a ∈ f i x -> b ∈ f j y -> R a b) ->
  StronglySorted R (concat (imap f l)).
Proof.
  revert f. induction l as [|x l IH]; intros f Hs Hr; simpl; [constructor|].
  apply StronglySorted_app_2.
  - intros a b Ha (l' & Hl & Hb)%elem_of_concat.
    apply elem_of_lookup_imap in Hl as (j & y & -> & Hy). simpl in Hb.
    eapply (Hr 0%nat (S j)); [lia|done|exact Hy|done|done].
  - apply (Hs 0%nat). done.
  - apply IH.
    + intros i y Hy. apply (Hs (S i)). done.
    + intros i j y z a b Hij Hy Hz. simpl. eapply (Hr (S i) (S j)); [lia|done|done].
Qed.

Lemma elem_of_concat_imap {A B} (f : nat -> A -> list B) (l : list A) b :
  b ∈ concat (imap f l) <-> exists i x, l !! i = Some x /\ b ∈ f i x.
Proof.
  rewrite elem_of_concat. split.
  - intros (l' & (i & x & -> & Hx)%elem_of_lookup_imap & Hb). eauto.
  - intros (i & x & Hx & Hb). exists (f i x). split; [|done].
    apply elem_of_lookup_imap. eauto.
Qed.

Lemma elem_of_concat_map {A B} (f : A -> list B) (l : list A) b :
  b ∈ concat (map f l) <-> exists x, x ∈ l /\ b ∈ f x.
Proof.
  rewrite elem_of_concat. split.
  - intros (l' & (x & -> & Hx)%list_elem_of_fmap & Hb). eauto.
  - intros (x & Hx & Hb). exists (f x). split; [|done]. apply list_elem_of_fmap. eauto.
Qed.

Lemma sorted_concat_map {A B} (R : B -> B -> Prop) (S : A -> A -> Prop) (f : A -> list B) (l : list A) :
  StronglySorted S l ->
  (forall x, x ∈ l -> StronglySorted R (f x)) ->
  (forall x y a b, x ∈ l -> y ∈ l -> S x y -> a ∈ f x -> b ∈ f y -> R a b) ->
  StronglySorted R (concat (map f l)).
Proof.
  induction 1 as [|x l Hl IH Hx]; intros Hs Hr; simpl; [constructor|].
  rewrite Forall_forall in Hx. apply StronglySorted_app_2.
  - intros a b Ha (y & Hy & Hb)%elem_of_concat_map.
    eapply (Hr x y); set_solver.
  - apply Hs. set_solver.
  - apply IH; [set_solver|]. intros y z a b Hy Hz. apply Hr; set_solver.
Qed.

Lemma nodup_concat_map {A B} (f : A -> list B) (l : list A) :
  NoDup l -> (forall x, x ∈ l -> NoDup (f x)) ->
  (forall x y b, x ∈ l -> y ∈ l -> b ∈ f x -> b ∈ f y -> x = y) ->
  NoDup (concat (map f l)).
Proof.
  induction 1 as [|x l Hx Hl IH]; intros Hn Hd; simpl; [constructor|].
  apply NoDup_app. split_and!.
  - apply Hn. set_solver.
  - intros b Hb (y & Hy & Hb')%elem_of_concat_map. apply Hx.
    rewrite (Hd x y b); set_solver.
  - apply IH; [set_solver|]. intros y z b Hy Hz. apply Hd; set_solver.
Qed.

(** ** Sorted lists of keys *)

Lemma sorted_le_lt (l : list N) : StronglySorted N.le l -> NoDup l -> StronglySorted N.lt l.
Proof.
  induction 1 as [|x l Hl IH Hx]; intros Hn; constructor.
  - apply IH. by apply NoDup_cons in Hn as [_ ?].
  - apply NoDup_cons in Hn as [Hn _]. rewrite Forall_forall in *. intros y Hy.
    specialize (Hx y Hy). assert (x <> y) by congruence. lia.
Qed.

Lemma sorted_last_max (l : list N) x :
  StronglySorted N.le l -> list.last l = Some x -> x ∈ l /\ forall y, y ∈ l -> y <= x.
Proof.
  intros Hs Hx. apply last_Some in Hx as [l' ->]. split; [set_solver|].
  intros y [Hy|Hy%list_elem_of_singleton]%elem_of_app; [|lia].
  eapply (StronglySorted_app_1_elem_of N.le l' [x]); [done|done|set_solver].
Qed.

Lemma sorted_unique (l1 l2 : list N) :
  StronglySorted N.lt l1 -> StronglySorted N.lt l2 -> l1 ≡ₚ l2 -> l1 = l2.
Proof.
  intros H1 H2 Hp. eapply (StronglySorted_unique_strong N.lt); [|done|done|done].
  intros x y Hx Hy. lia.
Qed.

Lemma size_delete_Some {A} (g : gmap N A) id v :
  g !! id = Some v -> Z.of_nat (size (delete id g)) = (Z.of_nat (size g) - 1)%Z.
Proof.
  intros Hg. rewrite map_size_delete, Hg.
  assert (size g <> 0%nat); [|lia]. intros E%map_size_empty_inv. by rewrite E in Hg.
Qed.
