(* ===== verification/Bits.v ===== *)
(** * Bit-level facts about 64-bit words

    The page map splits a [uint64] ID into (high, bucket, shard, slot) with shifts
    and masks, keeps an occupancy word per page and walks its set bits with
    TrailingZeros64. This file holds the arithmetic those steps rest on. *)
From S2P Require Import Prelude.

(** ** Splitting a word at a bit position *)

Lemma testbit_split q r s i :
  r < 2 ^ s -> N.testbit (q * 2 ^ s + r) i = if i <? s then N.testbit r i else N.testbit q (i - s).
Proof.
  intros Hr. assert (Hp : 2 ^ s <> 0) by (apply N.pow_nonzero; lia). case_cmp.
  - rewrite <- (N.mod_pow2_bits_low _ s i) by done.
    by rewrite N.add_comm, N.Div0.mod_add, N.mod_small.
  - replace i with ((i - s) + s) at 1 by lia. rewrite <- N.div_pow2_bits.
    by rewrite N.div_add_l, N.div_small, N.add_0_r.
Qed.

Lemma lor_split q r s : r < 2 ^ s -> N.lor (q * 2 ^ s) r = q * 2 ^ s + r.
Proof.
  intros Hr. apply N.bits_inj. intros i. rewrite N.lor_spec, testbit_split by done.
  replace (q * 2 ^ s) with (q * 2 ^ s + 0) by lia.
  rewrite testbit_split by (apply N.neq_0_lt_0, N.pow_nonzero; lia).
  rewrite N.bits_0. case_cmp; simpl; [done|].
  rewrite orb_comm. destruct (N.testbit r i) eqn:E; simpl; [|done].
  exfalso. destruct (N.eq_dec r 0) as [->|Hr0]; [by rewrite N.bits_0 in E|].
  rewrite N.bits_above_log2 in E; [done|].
  apply N.log2_lt_pow2 in Hr; lia.
Qed.

Lemma land_mask x s : N.land x (2 ^ s - 1) = x mod 2 ^ s.
Proof.
  replace (2 ^ s - 1) with (N.ones s) by (rewrite N.ones_equiv; lia). apply N.land_ones.
Qed.

Lemma land_63 x : N.land x 63 = x mod 64.
Proof. apply (land_mask x 6). Qed.

Lemma land_127 x : N.land x 127 = x mod 128.
Proof. apply (land_mask x 7). Qed.

Lemma mod_mod_small x a b : a <> 0 -> b <> 0 -> (x mod (a * b)) mod a = x mod a.
Proof.
  intros. rewrite N.Div0.mod_mul_r, (N.mul_comm a), N.Div0.mod_add.
  by rewrite N.Div0.mod_mod.
Qed.

Lemma land_u8_127 x : N.land (u8 x) 127 = x mod 128.
Proof. rewrite land_127. unfold u8. by apply (mod_mod_small x 128 2). Qed.

Lemma shl64_small x k : x * 2 ^ k < 2 ^ 64 -> shl64 x k = x * 2 ^ k.
Proof. intros. unfold shl64. rewrite N.shiftl_mul_pow2. by apply u64_small. Qed.

Lemma pow2_lt_mono a b : a < b -> 2 ^ a < 2 ^ b.
Proof. intros. apply N.pow_lt_mono_r; lia. Qed.

Lemma shl64_1 slot : slot < 64 -> shl64 1 slot = 2 ^ slot.
Proof.
  intros H. rewrite shl64_small; rewrite N.mul_1_l; [done|].
  by apply pow2_lt_mono.
Qed.

(** ** Single bits *)

Lemma land_pow2_eqb x i : (N.land x (2 ^ i) =? 0) = negb (N.testbit x i).
Proof.
  destruct (N.testbit x i) eqn:E; simpl.
  - apply N.eqb_neq. intros H. apply (f_equal (fun y => N.testbit y i)) in H.
    by rewrite N.land_spec, E, N.pow2_bits_true, N.bits_0 in H.
  - apply N.eqb_eq, N.bits_inj. intros j. rewrite N.land_spec, N.bits_0.
    destruct (N.eq_dec i j) as [->|]; [by rewrite E|].
    by rewrite N.pow2_bits_false, andb_false_r.
Qed.

Lemma testbit_set x i j : N.testbit (N.lor x (2 ^ i)) j = (i =? j) || N.testbit x j.
Proof. by rewrite N.lor_spec, N.pow2_bits_eqb, orb_comm. Qed.

Lemma testbit_clear x i j :
  N.testbit (N.ldiff x (2 ^ i)) j = negb (i =? j) && N.testbit x j.
Proof. by rewrite N.ldiff_spec, N.pow2_bits_eqb, andb_comm. Qed.

(** Bounds on a word by its bits. *)
Lemma testbit_bound x n : (forall i, n <= i -> N.testbit x i = false) -> x < 2 ^ n.
Proof.
  intros H. destruct (N.eq_dec x 0) as [->|Hx].
  { apply N.neq_0_lt_0, N.pow_nonzero. lia. }
  apply N.log2_lt_pow2; [lia|]. destruct (N.lt_ge_cases (N.log2 x) n); [done|].
  specialize (H _ ltac:(eassumption)). by rewrite N.bit_log2 in H.
Qed.

Lemma testbit_above x n i : x < 2 ^ n -> n <= i -> N.testbit x i = false.
Proof.
  intros Hx Hi. destruct (N.eq_dec x 0) as [->|Hx0]; [apply N.bits_0|].
  apply N.bits_above_log2. apply N.log2_lt_pow2 in Hx; lia.
Qed.

Lemma set_bound x i n : x < 2 ^ n -> i < n -> N.lor x (2 ^ i) < 2 ^ n.
Proof.
  intros. apply testbit_bound. intros j Hj. rewrite testbit_set.
  rewrite (testbit_above x n) by done. case_cmp; simpl; [lia|done].
Qed.

Lemma clear_bound x i n : x < 2 ^ n -> N.ldiff x (2 ^ i) < 2 ^ n.
Proof.
  intros. apply testbit_bound. intros j Hj. rewrite testbit_clear.
  by rewrite (testbit_above x n), andb_false_r.
Qed.

Lemma exists_bit x : x <> 0 -> exists i, N.testbit x i = true.
Proof. intros H. exists (N.log2 x). by apply N.bit_log2. Qed.

(** ** Walking the set bits of a word *)

(** [bits.TrailingZeros64] of a non-zero word. *)
Fixpoint trailingZeros (fuel : nat) (x : N) : N :=
  match fuel with
  | O => 0
  | S fuel => if N.odd x then 0 else 1 + trailingZeros fuel (N.div2 x)
  end.

(** [for occupied := occ; occupied != 0; occupied &= occupied - 1] collecting
    [TrailingZeros64(occupied)]; every round clears a bit, so 64 rounds suffice. *)
Fixpoint slotLoop (fuel : nat) (occ : N) : list N :=
  match fuel with
  | O => []
  | S fuel => if occ =? 0 then []
              else trailingZeros 64 occ :: slotLoop fuel (N.land occ (occ - 1))
  end.

Lemma trailingZeros_spec fuel x :
  x <> 0 -> x < 2 ^ N.of_nat fuel ->
  exists q, x = (2 * q + 1) * 2 ^ trailingZeros fuel x.
Proof.
  revert x. induction fuel as [|fuel IH]; intros x Hx Hlt; [simpl in Hlt; lia|].
  simpl. pose proof (N.div2_odd x) as Hd. destruct (N.odd x) eqn:Ho; simpl in Hd.
  - exists (N.div2 x). change (2 ^ 0) with 1. lia.
  - rewrite Nat2N.inj_succ, N.pow_succ_r' in Hlt.
    destruct (IH (N.div2 x)) as [q Hq]; [lia|lia|].
    exists q. rewrite N.pow_add_r, N.pow_1_r. lia.
Qed.

(** [x &= x - 1] clears exactly the lowest set bit. *)
Lemma clear_lowest q t i :
  N.testbit (N.land ((2 * q + 1) * 2 ^ t) ((2 * q + 1) * 2 ^ t - 1)) i =
  (t <? i) && N.testbit ((2 * q + 1) * 2 ^ t) i.
Proof.
  assert (Hp : 0 < 2 ^ t) by (apply N.neq_0_lt_0, N.pow_nonzero; lia).
  replace ((2 * q + 1) * 2 ^ t - 1) with (2 * q * 2 ^ t + (2 ^ t - 1)) by lia.
  replace ((2 * q + 1) * 2 ^ t) with ((2 * q + 1) * 2 ^ t + 0) by lia.
  rewrite N.land_spec, !testbit_split by lia. rewrite N.bits_0.
  case_cmp; simpl; try done; try lia.
  - rewrite andb_comm. destruct (i - t) as [|p] eqn:E; [lia|].
    replace (N.pos p) with (N.succ (i - t - 1)) by lia.
    rewrite N.testbit_even_succ, N.testbit_odd_succ by lia. apply andb_diag.
  - replace (i - t) with 0 by lia. by rewrite N.testbit_even_0, andb_false_r.
Qed.

Lemma lowest_bits q t i : i <= t ->
  N.testbit ((2 * q + 1) * 2 ^ t) i = (i =? t).
Proof.
  intros. replace ((2 * q + 1) * 2 ^ t) with ((2 * q + 1) * 2 ^ t + 0) by lia.
  rewrite testbit_split by (apply N.neq_0_lt_0, N.pow_nonzero; lia).
  rewrite N.bits_0. case_cmp; try done; try lia. subst. rewrite N.sub_diag.
  apply N.testbit_odd_0.
Qed.

(** The slots a word marks, in ascending order. *)
Definition setBits (occ : N) (from n : nat) : list N :=
  filter (fun i => N.testbit occ i = true) (N.of_nat <$> seq from n).

Lemma setBits_ext x y from n :
  (forall i, N.of_nat from <= i -> N.testbit x i = N.testbit y i) ->
  setBits x from n = setBits y from n.
Proof.
  intros H. unfold setBits. apply filter_ext_in.
  intros j (k & -> & Hk%elem_of_seq)%list_elem_of_fmap. by rewrite H by lia.
Qed.

Lemma setBits_skip x from n k :
  (k <= n)%nat -> (forall i, N.of_nat from <= i < N.of_nat (from + k) -> N.testbit x i = false) ->
  setBits x from n = setBits x (from + k) (n - k).
Proof.
  intros Hk H. unfold setBits.
  replace n with (k + (n - k))%nat at 1 by lia.
  rewrite seq_app, fmap_app, filter_app.
  replace (filter _ (N.of_nat <$> seq from k)) with (@nil N); [done|].
  symmetry. apply filter_none.
  intros j (i & -> & Hi%elem_of_seq)%list_elem_of_fmap. by rewrite H by lia.
Qed.

Lemma slotLoop_from k fuel occ :
  (k <= 64)%nat -> (64 - k <= fuel)%nat -> occ < 2 ^ 64 ->
  (forall i, i < N.of_nat k -> N.testbit occ i = false) ->
  slotLoop fuel occ = setBits occ k (64 - k).
Proof.
  revert k occ. induction fuel as [|fuel IH]; intros k occ Hk Hfuel Hocc Hlow.
  { replace (64 - k)%nat with 0%nat by lia. done. }
  cbn [slotLoop]. destruct (N.eqb_spec occ 0) as [->|Hne].
  { unfold setBits. symmetry. apply filter_none. intros j _. by rewrite N.bits_0. }
  destruct (trailingZeros_spec 64 occ Hne Hocc) as [q Hq].
  set (t := trailingZeros 64 occ) in *.
  assert (Hbit : N.testbit occ t = true) by (rewrite Hq, lowest_bits by lia; apply N.eqb_refl).
  assert (Ht : t < 64) by (apply N.nle_gt; intros Hle; by rewrite (testbit_above _ 64) in Hbit).
  assert (Hkt : N.of_nat k <= t) by (apply N.nlt_ge; intros Hlt; by rewrite Hlow in Hbit).
  rewrite (setBits_skip occ k _ (N.to_nat t - k)); [|lia|].
  2:{ intros i Hi. rewrite Hq, lowest_bits by lia. apply N.eqb_neq. lia. }
  replace (k + (N.to_nat t - k))%nat with (N.to_nat t) by lia.
  replace (64 - k - (N.to_nat t - k))%nat with (S (64 - S (N.to_nat t))) by lia.
  unfold setBits at 1. rewrite <- cons_seq, fmap_cons.
  rewrite N2Nat.id, filter_cons_True by done. f_equal.
  rewrite (IH (S (N.to_nat t))); [|lia|lia| |].
  - apply setBits_ext. intros i Hi. rewrite Hq at 1 2. rewrite clear_lowest, <- Hq.
    destruct (N.ltb_spec t i); [done|lia].
  - apply testbit_bound. intros i Hi. rewrite Hq, clear_lowest, <- Hq.
    by rewrite (testbit_above occ 64), andb_false_r.
  - intros i Hi. rewrite Hq, clear_lowest, <- Hq. destruct (N.ltb_spec t i); [lia|done].
Qed.

Lemma slotLoop_spec occ : occ < 2 ^ 64 -> slotLoop 64 occ = setBits occ 0 64.
Proof. intros. apply (slotLoop_from 0); [lia|lia|done|]. intros; lia. Qed.

Lemma elem_of_slotLoop occ slot :
  occ < 2 ^ 64 -> slot ∈ slotLoop 64 occ <-> N.testbit occ slot = true.
Proof.
  intros Hocc. rewrite slotLoop_spec by done. unfold setBits.
  rewrite list_elem_of_filter. split; [tauto|]. intros Hb. split; [done|].
  apply list_elem_of_fmap. exists (N.to_nat slot). rewrite N2Nat.id. split; [done|].
  apply elem_of_seq. destruct (N.lt_ge_cases slot 64); [lia|].
  by rewrite (testbit_above _ 64) in Hb.
Qed.

Lemma seqN_sorted n k : StronglySorted N.lt (N.of_nat <$> seq k n).
Proof.
  revert k. induction n as [|n IH]; intros k; [constructor|].
  rewrite <- cons_seq, fmap_cons. constructor; [apply IH|].
  apply Forall_fmap, Forall_seq. intros j Hj. simpl. lia.
Qed.

Lemma slotLoop_sorted occ : occ < 2 ^ 64 -> StronglySorted N.lt (slotLoop 64 occ).
Proof.
  intros Hocc. rewrite slotLoop_spec by done. apply StronglySorted_filter, seqN_sorted.
Qed.

Lemma slotLoop_nodup occ : occ < 2 ^ 64 -> NoDup (slotLoop 64 occ).
Proof.
  intros H. eapply StronglySorted_nodup; [|by apply slotLoop_sorted].
  intros x Hx. lia.
Qed.
