(* ===== verification/PagedMap.v ===== *)
(** * The paged map (internal/store/paged_map.go), contents

    The value-level model of [PagedMap]: the radix tree with its occupancy
    words, the [length] counter and the [smallActive] page cache. Pointers are
    values here, so [Fork] is a copy of the struct; the file PagedHeap models the
    same code over a heap, with the copy-on-write bookkeeping, and shows that the
    two agree. *)
From S2P Require Import Prelude.
From S2P Require Import Bits.

Definition pagedMapFanout : N := 128.
Definition pagedMapSlots : N := 64.
Definition pagedMapActiveOverflow : N := 255.

Record valuePage (V : Type) := mkPage { occupied : N; values : list V }.
Arguments mkPage {V} _ _.
Arguments occupied {V} _.
Arguments values {V} _.

Abbreviation pageBucket V := (list (option (valuePage V))).
Abbreviation pageRoot V := (list (option (pageBucket V))).

(** [roots] is an option because the code tells a nil map from an empty one
    (EdgeList.IsInline). *)
Record PagedMap (V : Type) := mkPagedMap {
  root0 : option (pageRoot V);
  roots : option (gmap N (pageRoot V));
  len : Z;
  smallActive : list N;
  smallActiveLen : N }.
Arguments mkPagedMap {V} _ _ _ _ _.
Arguments root0 {V} _.
Arguments roots {V} _.
Arguments len {V} _.
Arguments smallActive {V} _.
Arguments smallActiveLen {V} _.

Definition set_root0 {V} (m : PagedMap V) r :=
  mkPagedMap r (roots m) (len m) (smallActive m) (smallActiveLen m).
Definition set_roots {V} (m : PagedMap V) r :=
  mkPagedMap (root0 m) r (len m) (smallActive m) (smallActiveLen m).
Definition set_len {V} (m : PagedMap V) n :=
  mkPagedMap (root0 m) (roots m) n (smallActive m) (smallActiveLen m).
Definition set_active {V} (m : PagedMap V) a n :=
  mkPagedMap (root0 m) (roots m) (len m) a n.

Definition NewPagedMap {V} : PagedMap V := mkPagedMap None None 0%Z [0; 0] 0.

(** [pageIndexes]: (high, bucket, shard) of a page key. *)
Definition pageIndexes (key : N) : N * N * N :=
  (N.shiftr key 14, N.land (u8 (N.shiftr key 7)) 127, N.land (u8 key) 127).

(** The key rebuilt from its parts, as the traversals do. *)
Definition pageKey (high bucket shard : N) : N :=
  N.lor (N.lor (shl64 high 14) (shl64 bucket 7)) shard.

(** [key<<6 | slot] *)
Definition entryID (key slot : N) : N := N.lor (shl64 key 6) slot.

Definition testSlot (occ slot : N) : bool := negb (N.land occ (shl64 1 slot) =? 0).

Section ops.
Context {V : Type} `{MapOrder (pageRoot V)} (zero : V).
Implicit Types (m : PagedMap V) (page : valuePage V).

Definition newPage : valuePage V := mkPage 0 (replicate 64 zero).
Definition newBucket : pageBucket V := replicate 128 None.
Definition newRoot : pageRoot V := replicate 128 None.

Definition root m (high : N) : option (pageRoot V) :=
  if high =? 0 then root0 m
  else match roots m with None => None | Some rs => rs !! high end.

Definition pageByKey m (key : N) : option (valuePage V) :=
  let '(high, bucket, shard) := pageIndexes key in
  match root m high with
  | None => None
  | Some r => match idx r bucket with None => None | Some b => idx b shard end
  end.

Definition readSlot page (slot : N) : V := default zero (values page !! N.to_nat slot).

Definition Get m (id : N) : V :=
  let slot := N.land id 63 in
  match pageByKey m (N.shiftr id 6) with
  | None => zero
  | Some page => if testSlot (occupied page) slot then readSlot page slot else zero
  end.

Definition Has m (id : N) : bool :=
  let slot := N.land id 63 in
  match pageByKey m (N.shiftr id 6) with
  | None => false
  | Some page => testSlot (occupied page) slot
  end.

Definition Len m : Z := len m.

Definition addActive m (key : N) : PagedMap V :=
  if 2 <=? smallActiveLen m then set_active m (smallActive m) pagedMapActiveOverflow
  else set_active m (<[N.to_nat (smallActiveLen m) := key]> (smallActive m))
                  (smallActiveLen m + 1).

(** [m.root0 = root] or [m.roots[high] = root] *)
Definition putRoot m (high : N) (r : pageRoot V) : PagedMap V :=
  if high =? 0 then set_root0 m (Some r)
  else set_roots m (Some (<[high := r]> (default ∅ (roots m)))).

(** [ensurePage] returns the page it found or created; the map it leaves holds
    that page at [key]. *)
Definition ensurePage m (key : N) : PagedMap V * valuePage V :=
  let '(high, bucket, shard) := pageIndexes key in
  let r := default newRoot (root m high) in
  let b := default newBucket (idx r bucket) in
  match idx b shard with
  | Some page => (m, page)
  | None =>
      (addActive (putRoot m high (upd r bucket (Some (upd b shard (Some newPage))))) key,
       newPage)
  end.

(** A write through the page pointer of an existing page. *)
Definition storePage m (key : N) page : PagedMap V :=
  let '(high, bucket, shard) := pageIndexes key in
  match root m high with
  | None => m
  | Some r => match idx r bucket with
              | None => m
              | Some b => putRoot m high (upd r bucket (Some (upd b shard (Some page))))
              end
  end.

(** [page.occupied |= mask] when the bit is clear, [page.values[slot] = value]. *)
Definition writeSlot page (slot : N) (value : V) : valuePage V :=
  let mask := shl64 1 slot in
  mkPage (if testSlot (occupied page) slot then occupied page
          else N.lor (occupied page) mask)
         (<[N.to_nat slot := value]> (values page)).

Definition Set_ m (id : N) (value : V) : PagedMap V :=
  let key := N.shiftr id 6 in
  let slot := N.land id 63 in
  let '(m, page) := ensurePage m key in
  let fresh := negb (testSlot (occupied page) slot) in
  let page' := writeSlot page slot value in
  let m := if fresh then set_len m (len m + 1)%Z else m in
  storePage m key page'.

(** [pageBucketEmpty] / [pageRootEmpty]: nil, or every slot nil. *)
Definition pageBucketEmpty (b : option (pageBucket V)) : bool :=
  match b with None => true | Some b => all_nil b end.
Definition pageRootEmpty (r : option (pageRoot V)) : bool :=
  match r with None => true | Some r => all_nil r end.

(** [copy(dst[at:], src)] *)
Definition copyAt {A} (dst : list A) (at_ : nat) (src : list A) : list A :=
  let n := Nat.min (length src) (length dst - at_) in
  take at_ dst ++ take n src ++ drop (at_ + n) dst.

Definition removeActive m (key : N) : PagedMap V :=
  if smallActiveLen m =? pagedMapActiveOverflow then m
  else
    let n := N.to_nat (smallActiveLen m) in
    match list_find (fun k => k = key) (take n (smallActive m)) with
    | None => m
    | Some (index, _) =>
        let moved := copyAt (smallActive m) index
                       (drop (S index) (take n (smallActive m))) in
        set_active m (<[pred n := 0]> moved) (smallActiveLen m - 1)
    end.

(** The pages of one bucket, and of one root, with their keys, in the order the
    nested loops of [yieldRoot] and [restoreSmallActive] visit them. *)
Definition bucketPages (high bucket : N) (b : pageBucket V) : list (N * valuePage V) :=
  concat (imap (fun i p => match p with
                           | None => []
                           | Some page => [(pageKey high bucket (N.of_nat i), page)]
                           end) b).
Definition rootPages (high : N) (r : option (pageRoot V)) : list (N * valuePage V) :=
  match r with
  | None => []
  | Some r =>
      concat (imap (fun i b => match b with
                               | None => []
                               | Some b => bucketPages high (N.of_nat i) b
                               end) r)
  end.

(** The page visit of [restoreSmallActive]: [None] is the early return on a
    third page. *)
Definition addPage (st : option (list N)) (kp : N * valuePage V) : option (list N) :=
  match st with
  | None => None
  | Some active => if (length active =? 2)%nat then None else Some (active ++ [kp.1])
  end.
Definition addRoot (st : option (list N)) (high : N) (r : option (pageRoot V)) :=
  foldl addPage st (rootPages high r).

Definition rootsOrder m : list N :=
  match roots m with None => [] | Some rs => rangeKeys 0 rs end.

Definition restoreSmallActive m : PagedMap V :=
  if negb (smallActiveLen m =? pagedMapActiveOverflow) || (128 <? len m)%Z then m
  else
    let st := addRoot (Some []) 0 (root0 m) in
    let st := foldl (fun st high =>
                addRoot st high (match roots m with None => None | Some rs => rs !! high end))
                st (rootsOrder m) in
    match st with
    | None => m
    | Some active =>
        let active' := match active with
                       | [a; b] => if b <? a then [b; a] else [a; b]
                       | _ => active
                       end in
        set_active m (active' ++ replicate (2 - length active) 0)
                   (N.of_nat (length active))
    end.

(** [page.values[slot] = zero; page.occupied &^= mask] *)
Definition clearSlot page (slot : N) : valuePage V :=
  mkPage (N.ldiff (occupied page) (shl64 1 slot)) (<[N.to_nat slot := zero]> (values page)).

(** The root after a page was unlinked from it: dropped when it is empty. *)
Definition unlinkRoot m (high : N) (r : pageRoot V) : PagedMap V :=
  if pageRootEmpty (Some r)
  then if high =? 0 then set_root0 m None else set_roots m (delete high <$> roots m)
  else putRoot m high r.

Definition Delete m (id : N) : PagedMap V :=
  let key := N.shiftr id 6 in
  let slot := N.land id 63 in
  match pageByKey m key with
  | None => m
  | Some page =>
      if negb (testSlot (occupied page) slot) then m
      else
        let page' := clearSlot page slot in
        let m := set_len (storePage m key page') (len m - 1)%Z in
        if negb (occupied page' =? 0) then m
        else
          let m := removeActive m key in
          let '(high, bucket, shard) := pageIndexes key in
          match root m high with
          | None => m
          | Some r =>
              match idx r bucket with
              | None => m
              | Some b =>
                  let b' := upd b shard None in
                  let r' := upd r bucket (if pageBucketEmpty (Some b') then None else Some b') in
                  restoreSmallActive (unlinkRoot m high r')
              end
          end
  end.

Definition ForkSet m (id : N) (value : V) : PagedMap V :=
  let key := N.shiftr id 6 in
  let slot := N.land id 63 in
  let '(high, bucketIndex, shard) := pageIndexes key in
  let r := default newRoot (root m high) in
  let b := default newBucket (idx r bucketIndex) in
  let page := default newPage (idx b shard) in
  let fresh := negb (testSlot (occupied page) slot) in
  let page' := writeSlot page slot value in
  let result := putRoot m high (upd r bucketIndex (Some (upd b shard (Some page')))) in
  if fresh then
    let result := if occupied page =? 0 then addActive result key else result in
    set_len result (len result + 1)%Z
  else result.

(** ** Traversal *)

Definition yieldPage (key : N) page : list (N * V) :=
  (fun slot => (entryID key slot, readSlot page slot)) <$> slotLoop 64 (occupied page).

Definition yieldRoot (high : N) (r : option (pageRoot V)) : list (N * V) :=
  concat (map (fun '(key, page) => yieldPage key page) (rootPages high r)).

Definition yieldHighRoots m (highs : list N) : list (N * V) :=
  concat (map (fun high =>
    yieldRoot high (match roots m with None => None | Some rs => rs !! high end)) highs).

(** [All]: [None] is the nil dereference the code would make on a cached key
    without a page. *)
Definition All m : option (list (N * V)) :=
  if negb (smallActiveLen m =? pagedMapActiveOverflow) then
    @concat _ <$> mapM (fun key => yieldPage key <$> pageByKey m key)
                    (take (N.to_nat (smallActiveLen m)) (smallActive m))
  else Some (yieldRoot 0 (root0 m) ++ yieldHighRoots m (rootsOrder m)).

(** One step of the key selection in [Ordered]: keep the [cap] smallest keys above
    [last] in a max-heap. container/heap leaves the arrangement behind the largest
    element open; the model keeps the slice in descending order. *)
Definition heapArrange (candidates : list N) : list N := merge_sort N.ge candidates.
Definition selectStep (cap : nat) (last : option N) (candidates : list N) (high : N) : list N :=
  if (high =? 0) || match last with None => false | Some l => high <=? l end then candidates
  else if (length candidates <? cap)%nat then
    let candidates := candidates ++ [high] in
    if (length candidates =? cap)%nat then heapArrange candidates else candidates
  else match candidates with
       | [] => []
       | top :: rest => if high <? top then heapArrange (high :: rest) else candidates
       end.

(** The rounds of [Ordered]: select, sort, visit; every round but the last visits
    at least one root, so [1 + len(m.roots)] rounds suffice. *)
Fixpoint orderedBatches (fuel : nat) (rs : gmap N (pageRoot V)) (cap : nat) (last : option N)
    : list N :=
  match fuel with
  | O => []
  | S fuel =>
      let candidates := foldl (selectStep cap last) [] (rangeKeys fuel rs) in
      match merge_sort N.le candidates with
      | [] => []
      | c :: cs => (c :: cs) ++ orderedBatches fuel rs cap (list.last (c :: cs))
      end
  end.

Definition pagedMapOrderedBatch : nat := 4096.

Definition Ordered m : list (N * V) :=
  if negb (smallActiveLen m =? pagedMapActiveOverflow) then
    let active := take (N.to_nat (smallActiveLen m)) (smallActive m) in
    let active := match active with
                  | [a; b] => if b <? a then [b; a] else [a; b]
                  | _ => active
                  end in
    concat (map (fun key => match pageByKey m key with
                            | None => []
                            | Some page => yieldPage key page
                            end) active)
  else
    let rs := default ∅ (roots m) in
    if (size rs =? 0)%nat then yieldRoot 0 (root0 m)
    else yieldRoot 0 (root0 m) ++
         yieldHighRoots m (orderedBatches (S (size rs)) rs
                             (Nat.min (size rs) pagedMapOrderedBatch) None).

(** [orderedRoots] *)
Definition orderedRoots m (highs : list N) : list (N * V) :=
  yieldRoot 0 (root0 m) ++ yieldHighRoots m highs.

End ops.

Arguments newPage {V} zero : simpl never.
Arguments newBucket {V} : simpl never.
Arguments newRoot {V} : simpl never.
