(* ===== verification/PagedMapSpec.v ===== *)
(** * The paged map refines a finite map

    [rep m g] says that the radix tree [m] holds exactly the entries of the finite
    map [g], with every structural invariant the code relies on. Each operation of
    PagedMap.v is shown to carry [rep] to the corresponding operation on [gmap]. *)
From S2P Require Import Prelude.
From S2P Require Import Bits.
From S2P Require Import PagedMap.

(** ** Keys *)

Lemma pageIndexes_eq key :
  pageIndexes key = (key / 2 ^ 14, (key / 2 ^ 7) mod 128, key mod 128).
Proof. unfold pageIndexes. by rewrite !land_u8_127, !N.shiftr_div_pow2. Qed.

Lemma key_parts key : key = key / 2 ^ 14 * 2 ^ 14 + (key / 2 ^ 7) mod 128 * 2 ^ 7 + key mod 128.
Proof.
  change (2 ^ 14) with (128 * 128). change (2 ^ 7) with 128.
  rewrite <- N.Div0.div_div.
  pose proof (N.Div0.div_mod key 128). pose proof (N.Div0.div_mod (key / 128) 128). lia.
Qed.

Lemma pageIndexes_inj k1 k2 : pageIndexes k1 = pageIndexes k2 -> k1 = k2.
Proof.
  rewrite !pageIndexes_eq. intros [= H1 H2 H3].
  rewrite (key_parts k1), (key_parts k2), H1, H2, H3. done.
Qed.

Lemma pageIndexes_bound key high bucket shard :
  pageIndexes key = (high, bucket, shard) -> bucket < 128 /\ shard < 128.
Proof. rewrite pageIndexes_eq. intros [= <- <- <-]. split; by apply N.mod_upper_bound. Qed.

Lemma pageKey_eq high bucket shard :
  high < 2 ^ 44 -> bucket < 128 -> shard < 128 ->
  pageKey high bucket shard = high * 2 ^ 14 + bucket * 2 ^ 7 + shard.
Proof.
  intros. unfold pageKey. rewrite !shl64_small by lia.
  rewrite lor_split by lia.
  replace (high * 2 ^ 14 + bucket * 2 ^ 7) with ((high * 128 + bucket) * 2 ^ 7) by lia.
  by rewrite lor_split by lia.
Qed.

Lemma pageIndexes_pageKey high bucket shard :
  high < 2 ^ 44 -> bucket < 128 -> shard < 128 ->
  pageIndexes (pageKey high bucket shard) = (high, bucket, shard).
Proof.
  intros. rewrite pageKey_eq, pageIndexes_eq by done.
  change (2 ^ 14) with (128 * 128). change (2 ^ 7) with 128.
  repeat f_equal.
  - symmetry. apply (N.div_unique _ _ _ (bucket * 128 + shard)); lia.
  - rewrite <- (N.div_unique (high * (128 * 128) + bucket * 128 + shard) 128
               (high * 128 + bucket) shard) by lia.
    symmetry. apply (N.mod_unique _ _ high); lia.
  - symmetry. apply (N.mod_unique _ _ (high * 128 + bucket)); lia.
Qed.

Lemma pageKey_pageIndexes key high bucket shard :
  high < 2 ^ 44 -> pageIndexes key = (high, bucket, shard) -> pageKey high bucket shard = key.
Proof.
  intros Hh H. apply pageIndexes_inj. rewrite H.
  apply pageIndexes_bound in H as []. by apply pageIndexes_pageKey.
Qed.

(** An ID is its page key and slot. *)
Lemma id_parts id : id = N.shiftr id 6 * 2 ^ 6 + N.land id 63.
Proof.
  rewrite land_63, N.shiftr_div_pow2. change (2 ^ 6) with 64.
  pose proof (N.Div0.div_mod id 64). lia.
Qed.

Lemma slot_lt id : N.land id 63 < 64.
Proof. rewrite land_63. by apply N.mod_upper_bound. Qed.

Lemma entryID_eq key slot : key < 2 ^ 58 -> slot < 64 -> entryID key slot = key * 2 ^ 6 + slot.
Proof. intros. unfold entryID. rewrite shl64_small by lia. by rewrite lor_split by lia. Qed.

Lemma entryID_parts key slot : key < 2 ^ 58 -> slot < 64 ->
  N.shiftr (entryID key slot) 6 = key /\ N.land (entryID key slot) 63 = slot.
Proof.
  intros. rewrite entryID_eq, N.shiftr_div_pow2, land_63 by done.
  change (2 ^ 6) with 64. split.
  - symmetry. apply (N.div_unique _ _ _ slot); lia.
  - symmetry. apply (N.mod_unique _ _ key); lia.
Qed.

Lemma entryID_of id : id < 2 ^ 64 -> entryID (N.shiftr id 6) (N.land id 63) = id.
Proof.
  intros H. rewrite entryID_eq; [symmetry; apply id_parts| |apply slot_lt].
  rewrite N.shiftr_div_pow2. apply N.Div0.div_lt_upper_bound. lia.
Qed.

Lemma id_key_bound id : id < 2 ^ 64 <-> N.shiftr id 6 < 2 ^ 58.
Proof.
  pose proof (id_parts id) as Hid. pose proof (slot_lt id) as Hs.
  set (k := N.shiftr id 6) in *. set (s := N.land id 63) in *. clearbody k s. split; lia.
Qed.

Lemma key_high_bound key : key < 2 ^ 58 <-> key / 2 ^ 14 < 2 ^ 44.
Proof.
  change (2 ^ 14) with 16384.
  pose proof (N.Div0.div_mod key 16384) as Hk.
  pose proof (N.mod_upper_bound key 16384 ltac:(lia)) as Hm.
  set (q := key / 16384) in *. set (r := key mod 16384) in *. clearbody q r. split; lia.
Qed.

Lemma testSlot_eq occ slot : slot < 64 -> testSlot occ slot = N.testbit occ slot.
Proof.
  intros. unfold testSlot. rewrite shl64_1, land_pow2_eqb by done. apply negb_involutive.
Qed.

(** ** Well-formed trees *)

Section spec.
Context {V : Type} `{MapOrder (pageRoot V)} (zero : V).
Implicit Types (m : PagedMap V) (g : gmap N V) (p : valuePage V).

(** A page in the tree is never empty: [Delete] unlinks a page with its last
    entry, and likewise buckets and roots. *)
Definition wf_page p : Prop :=
  length (values p) = 64%nat /\ occupied p < 2 ^ 64 /\ occupied p <> 0.
Definition wf_bucket (b : pageBucket V) : Prop :=
  length b = 128%nat /\ all_nil b = false /\ (forall i p, idx b i = Some p -> wf_page p).
Definition wf_root (r : pageRoot V) : Prop :=
  length r = 128%nat /\ all_nil r = false /\ (forall i b, idx r i = Some b -> wf_bucket b).
Definition wf m : Prop :=
  (forall high r, root m high = Some r -> high < 2 ^ 44 /\ wf_root r) /\
  (forall rs, roots m = Some rs -> rs !! 0 = None).

Lemma idx_newBucket i : idx (@newBucket V) i = None.
Proof. apply idx_replicate. Qed.

Lemma idx_newRoot i : idx (@newRoot V) i = None.
Proof. apply idx_replicate. Qed.

Lemma root_putRoot m high high' r :
  root (putRoot m high r) high' = if high' =? high then Some r else root m high'.
Proof.
  unfold root, putRoot. destruct (N.eqb_spec high 0) as [->|Hh]; simpl.
  - case_cmp; simpl; done.
  - case_cmp; subst; simpl; try done.
    + by rewrite lookup_insert_eq.
    + rewrite lookup_insert_ne by done. destruct (roots m); simpl; [done|apply lookup_empty].
Qed.

Lemma root_addActive m key high : root (addActive m key) high = root m high.
Proof. unfold addActive. by case_cmp. Qed.

Lemma pageByKey_root m1 m2 key :
  (forall high, root m1 high = root m2 high) -> pageByKey m1 key = pageByKey m2 key.
Proof. intros Hr. unfold pageByKey. destruct (pageIndexes key) as [[h b] s]. by rewrite Hr. Qed.

(** [r] is the root at [high], or a new one when there is none; likewise [b]. *)
Lemma pageByKey_link m key high bucket shard (r : pageRoot V) b op key' :
  pageIndexes key = (high, bucket, shard) ->
  r = default newRoot (root m high) -> b = default newBucket (idx r bucket) ->
  length r = 128%nat -> length b = 128%nat ->
  pageByKey (putRoot m high (upd r bucket (Some (upd b shard op)))) key' =
  if key' =? key then op else pageByKey m key'.
Proof.
  intros Hk Hr Hb Lr Lb. pose proof (pageIndexes_bound _ _ _ _ Hk) as [Hb1 Hs1].
  unfold pageByKey. destruct (pageIndexes key') as [[h' b'] s'] eqn:Hk'.
  rewrite root_putRoot. destruct (N.eqb_spec key' key) as [->|Hne].
  { rewrite Hk in Hk'. injection Hk' as -> -> ->. rewrite N.eqb_refl.
    rewrite !idx_upd_eq by lia. done. }
  destruct (N.eqb_spec h' high) as [->|]; [|done].
  destruct (N.eq_dec bucket b') as [->|].
  - rewrite idx_upd_eq by lia. destruct (N.eq_dec shard s') as [->|].
    { destruct Hne. apply pageIndexes_inj. congruence. }
    rewrite idx_upd_ne by done. subst b r. destruct (root m high) as [r|]; simpl.
    + destruct (idx r b') as [b|]; simpl; [done|apply idx_newBucket].
    + rewrite idx_newRoot. apply idx_newBucket.
  - rewrite idx_upd_ne by done. subst r. destruct (root m high) as [r|]; simpl; [done|].
    by rewrite idx_newRoot.
Qed.

Lemma pageByKey_default m key high bucket shard :
  pageIndexes key = (high, bucket, shard) ->
  pageByKey m key =
  idx (default newBucket (idx (default newRoot (root m high)) bucket)) shard.
Proof.
  intros Hk. unfold pageByKey. rewrite Hk. destruct (root m high) as [r|]; simpl.
  - destruct (idx r bucket); simpl; [done|by rewrite idx_newBucket].
  - rewrite idx_newRoot. simpl. by rewrite idx_newBucket.
Qed.

(** Where the tree has a page, its root and bucket exist. *)
Lemma pageByKey_Some m key high bucket shard p :
  pageIndexes key = (high, bucket, shard) -> pageByKey m key = Some p ->
  exists r b, root m high = Some r /\ idx r bucket = Some b /\ idx b shard = Some p.
Proof.
  intros Hk. unfold pageByKey. rewrite Hk. destruct (root m high) as [r|]; [|done].
  destruct (idx r bucket) as [b|] eqn:E; [|done]. eauto.
Qed.

Lemma wf_pageByKey m key p : wf m -> pageByKey m key = Some p -> wf_page p /\ key < 2 ^ 58.
Proof.
  intros [Hwf _] Hp. destruct (pageIndexes key) as [[h b] s] eqn:Hk.
  edestruct pageByKey_Some as (r & bb & Hr & Hb & Hs); [done..|].
  destruct (Hwf _ _ Hr) as [Hh (Lr & _ & Hwr)]. destruct (Hwr _ _ Hb) as (Lb & _ & Hwb). split.
  - eauto.
  - rewrite pageIndexes_eq in Hk. injection Hk as Hk _ _. apply key_high_bound. lia.
Qed.

Lemma length_theRoot m high : wf m -> length (default newRoot (root m high)) = 128%nat.
Proof.
  intros [Hwf _]. destruct (root m high) as [r|] eqn:E; simpl; [|done].
  by destruct (Hwf _ _ E) as [_ [? _]].
Qed.

Lemma length_theBucket m high i :
  wf m -> length (default newBucket (idx (default newRoot (root m high)) i)) = 128%nat.
Proof.
  intros [Hwf _]. destruct (root m high) as [r|] eqn:E; simpl.
  - destruct (Hwf _ _ E) as [_ (_ & _ & Hb)].
    destruct (idx r i) as [b|] eqn:E'; simpl; [|done]. by apply Hb in E' as [? _].
  - by rewrite idx_newRoot.
Qed.

(** Linking a page keeps the tree well-formed. *)
Lemma wf_link m high bucket shard p (r : pageRoot V) b :
  wf m -> high < 2 ^ 44 -> bucket < 128 -> shard < 128 -> wf_page p ->
  r = default newRoot (root m high) -> b = default newBucket (idx r bucket) ->
  wf (putRoot m high (upd r bucket (Some (upd b shard (Some p))))).
Proof.
  intros Hwf Hh Hb Hs Hp -> ->. pose proof (length_theRoot m high Hwf) as Lr.
  pose proof (length_theBucket m high bucket Hwf) as Lb. split.
  - intros h' r'. rewrite root_putRoot. destruct (N.eqb_spec h' high) as [->|]; [|apply Hwf].
    intros [= <-]. split; [done|]. split; [by rewrite length_upd|split].
    { destruct (all_nil _) eqn:E; [|done]. eapply all_nil_idx in E.
      rewrite idx_upd_eq in E by lia. done. }
    intros i b. destruct (N.eq_dec bucket i) as [<-|].
    + rewrite idx_upd_eq by lia. intros [= <-]. split; [by rewrite length_upd|split].
      { destruct (all_nil _) eqn:E; [|done]. eapply all_nil_idx in E.
        rewrite idx_upd_eq in E by lia. done. }
      intros j q. destruct (N.eq_dec shard j) as [<-|].
      * rewrite idx_upd_eq by lia. by intros [= <-].
      * rewrite idx_upd_ne by done. destruct (root m high) as [r|] eqn:E; simpl.
        -- destruct (idx r bucket) as [b|] eqn:E'; simpl; [|by rewrite idx_newBucket].
           apply Hwf in E as [_ (_ & _ & Hwr)]. apply Hwr in E' as (_ & _ & Hwb). apply Hwb.
        -- rewrite idx_newRoot. simpl. by rewrite idx_newBucket.
    + rewrite idx_upd_ne by done. destruct (root m high) as [r|] eqn:E; simpl.
      * apply Hwf in E as [_ (_ & _ & Hwr)]. eauto.
      * by rewrite idx_newRoot.
  - intros rs. unfold putRoot. destruct (N.eqb_spec high 0) as [->|]; simpl; [apply Hwf|].
    intros [= <-]. rewrite lookup_insert_ne by done. destruct (roots m) eqn:E; simpl; [by apply Hwf|done].
Qed.

(** ** Contents *)

Definition pageLookup (op : option (valuePage V)) (slot : N) : option V :=
  match op with
  | None => None
  | Some p => if testSlot (occupied p) slot then Some (readSlot zero p slot) else None
  end.
Definition lookupID m (id : N) : option V :=
  pageLookup (pageByKey m (N.shiftr id 6)) (N.land id 63).

Lemma Get_lookup m id : Get zero m id = default zero (lookupID m id).
Proof.
  unfold Get, lookupID, pageLookup. destruct (pageByKey _ _); [|done]. by destruct (testSlot _ _).
Qed.

Lemma Has_lookup m id : Has m id = bool_decide (is_Some (lookupID m id)).
Proof.
  unfold Has, lookupID, pageLookup. destruct (pageByKey _ _); [|done]. by destruct (testSlot _ _).
Qed.

Lemma lookupID_update m m' id op ov :
  (forall key', pageByKey m' key' = if key' =? N.shiftr id 6 then op else pageByKey m key') ->
  (forall slot, slot < 64 -> pageLookup op slot =
     if slot =? N.land id 63 then ov else pageLookup (pageByKey m (N.shiftr id 6)) slot) ->
  forall id', lookupID m' id' = if id' =? id then ov else lookupID m id'.
Proof.
  intros Hp Hl id'. unfold lookupID. rewrite Hp.
  destruct (N.eqb_spec id' id) as [->|Hne].
  { rewrite N.eqb_refl, Hl, N.eqb_refl; [done|apply slot_lt]. }
  destruct (N.eqb_spec (N.shiftr id' 6) (N.shiftr id 6)) as [E|]; [|done].
  rewrite Hl by apply slot_lt. destruct (N.eqb_spec (N.land id' 63) (N.land id 63)) as [E'|].
  - destruct Hne. by rewrite (id_parts id'), (id_parts id), E, E'.
  - by rewrite E.
Qed.

Lemma wf_writeSlot p slot v :
  length (values p) = 64%nat -> occupied p < 2 ^ 64 -> slot < 64 -> wf_page (writeSlot p slot v).
Proof.
  intros Hl Ho Hs. split; [simpl; by rewrite length_insert|]. simpl.
  rewrite testSlot_eq, shl64_1 by done. destruct (N.testbit (occupied p) slot) eqn:E.
  - split; [done|]. intros H0. by rewrite H0, N.bits_0 in E.
  - split; [by apply set_bound|]. intros H0.
    apply (f_equal (fun x => N.testbit x slot)) in H0.
    by rewrite testbit_set, N.eqb_refl, N.bits_0 in H0.
Qed.

Lemma pageLookup_writeSlot p slot v slot' :
  length (values p) = 64%nat -> slot < 64 -> slot' < 64 ->
  pageLookup (Some (writeSlot p slot v)) slot' =
  if slot' =? slot then Some v else pageLookup (Some p) slot'.
Proof.
  intros Hl Hs Hs'. unfold pageLookup, readSlot. simpl. rewrite !testSlot_eq, shl64_1 by done.
  destruct (N.eqb_spec slot' slot) as [->|Hne].
  - rewrite list_lookup_insert_eq by lia. simpl.
    destruct (N.testbit (occupied p) slot) eqn:E; [by rewrite E|].
    by rewrite testbit_set, N.eqb_refl.
  - rewrite list_lookup_insert_ne by lia.
    replace (N.testbit (if N.testbit (occupied p) slot then _ else _) slot')
      with (N.testbit (occupied p) slot'); [done|].
    destruct (N.testbit (occupied p) slot); [done|]. rewrite testbit_set.
    by destruct (N.eqb_spec slot slot'); [congruence|].
Qed.

Lemma pageLookup_newPage slot : slot < 64 -> pageLookup (Some (newPage zero)) slot = None.
Proof. intros. unfold pageLookup. rewrite testSlot_eq by done. done. Qed.

Lemma pageLookup_clearSlot p slot slot' :
  slot < 64 -> slot' < 64 ->
  pageLookup (Some (clearSlot zero p slot)) slot' =
  if slot' =? slot then None else pageLookup (Some p) slot'.
Proof.
  intros Hs Hs'. unfold pageLookup, readSlot. simpl.
  rewrite !testSlot_eq, shl64_1, testbit_clear by done.
  destruct (N.eqb_spec slot' slot) as [->|Hne]; [by rewrite N.eqb_refl|].
  destruct (N.eqb_spec slot slot'); [congruence|]. rewrite list_lookup_insert_ne by lia. done.
Qed.

(** ** The representation relation *)

(** The page cache: overflowed, or the exact set of linked pages. *)
Definition active_ok m : Prop :=
  length (smallActive m) = 2%nat /\
  (smallActiveLen m = pagedMapActiveOverflow \/
   smallActiveLen m <= 2 /\
   NoDup (take (N.to_nat (smallActiveLen m)) (smallActive m)) /\
   forall key, key ∈ take (N.to_nat (smallActiveLen m)) (smallActive m) <->
               is_Some (pageByKey m key)).

Definition rep m g : Prop :=
  wf m /\ (forall id, lookupID m id = g !! id) /\ len m = Z.of_nat (size g) /\ active_ok m.

Lemma rep_bound m g id v : rep m g -> g !! id = Some v -> id < 2 ^ 64.
Proof.
  intros (Hwf & Hl & _) Hg. rewrite <- Hl in Hg. unfold lookupID in Hg.
  destruct (pageByKey m (N.shiftr id 6)) eqn:E; [|done].
  apply wf_pageByKey in E as [_ E]; [|done]. by apply id_key_bound.
Qed.

(** [addActive] after linking a page at a key that had none. *)
Lemma active_ok_link m m' key p :
  active_ok m -> pageByKey m key = None ->
  (forall key', pageByKey m' key' = if key' =? key then Some p else pageByKey m key') ->
  smallActive m' = smallActive m -> smallActiveLen m' = smallActiveLen m ->
  active_ok (addActive m' key).
Proof.
  intros [Hl Ha] Hnone Hp Hs Hn. unfold addActive. rewrite Hs, Hn.
  destruct (smallActive m) as [|a [|b [|]]]; try done.
  destruct Ha as [->|(Hle & Hnd & Hin)]; [split; [done|by left]|].
  assert (Hc : smallActiveLen m = 0 \/ smallActiveLen m = 1 \/ smallActiveLen m = 2) by lia.
  assert (Hpage : forall n' sa', pageByKey (set_active m' sa' n') = pageByKey m').
  { intros. done. }
  destruct Hc as [E|[E|E]]; rewrite E in *; simpl in *.
  - split; [done|]. right. split_and!; [simpl; lia|apply NoDup_singleton|].
    intros k. simpl. rewrite Hpage, Hp, list_elem_of_singleton.
    specialize (Hin k). destruct (N.eqb_spec k key); [naive_solver|].
    rewrite <- Hin. set_solver.
  - split; [done|]. right.
    assert (Hka : a <> key).
    { intros ->. destruct (proj1 (Hin key)) as [? ?]; [set_solver|congruence]. }
    split_and!; [simpl; lia|simpl; apply NoDup_cons; split; [set_solver|apply NoDup_singleton]|].
    intros k. simpl. rewrite Hpage, Hp. specialize (Hin k).
    destruct (N.eqb_spec k key); [set_solver|]. rewrite <- Hin. set_solver.
  - split; [done|by left].
Qed.

(** Writing into a page that stays linked leaves the cache right. *)
Lemma active_ok_same m m' :
  active_ok m -> smallActive m' = smallActive m -> smallActiveLen m' = smallActiveLen m ->
  (forall key, is_Some (pageByKey m' key) <-> is_Some (pageByKey m key)) -> active_ok m'.
Proof.
  intros [Hl Ha] Hs Hn Hp. unfold active_ok. rewrite Hs, Hn. split; [done|].
  destruct Ha as [?|(? & ? & Hin)]; [by left|right]. split_and!; [done|done|].
  intros k. by rewrite Hp.
Qed.

Lemma active_ok_set_len m n : active_ok (set_len m n) <-> active_ok m.
Proof. done. Qed.

(** ** Set and ForkSet *)

Lemma upd_upd {A} (l : list (option A)) i x y : upd (upd l i x) i y = upd l i y.
Proof. apply list_insert_insert_eq. Qed.

Lemma putRoot_putRoot m high (r r' : pageRoot V) :
  putRoot (putRoot m high r) high r' = putRoot m high r'.
Proof.
  unfold putRoot. destruct (high =? 0); [done|]. unfold set_roots. simpl.
  by rewrite insert_insert_eq.
Qed.

Lemma putRoot_addActive m key high (r : pageRoot V) :
  putRoot (addActive m key) high r = addActive (putRoot m high r) key.
Proof.
  unfold putRoot, addActive. destruct (high =? 0); simpl; by destruct (2 <=? smallActiveLen m).
Qed.

Lemma storePage_eq m key high bucket shard (r : pageRoot V) b p :
  pageIndexes key = (high, bucket, shard) -> root m high = Some r -> idx r bucket = Some b ->
  storePage m key p = putRoot m high (upd r bucket (Some (upd b shard (Some p)))).
Proof. intros Hk Hr Hb. unfold storePage. by rewrite Hk, Hr, Hb. Qed.

(** The result of a write, whichever way the page is reached. *)
Definition written m (id : N) (v : V) : PagedMap V :=
  let key := N.shiftr id 6 in
  let slot := N.land id 63 in
  let '(high, bucket, shard) := pageIndexes key in
  let r := default newRoot (root m high) in
  let b := default newBucket (idx r bucket) in
  let page := default (newPage zero) (pageByKey m key) in
  let m1 := putRoot m high (upd r bucket (Some (upd b shard (Some (writeSlot page slot v))))) in
  let m2 := if pageByKey m key then m1 else addActive m1 key in
  if testSlot (occupied page) slot then m2 else set_len m2 (len m + 1)%Z.

Lemma len_addActive m key : len (addActive m key) = len m.
Proof. unfold addActive. by case_cmp. Qed.

Lemma len_putRoot m high r : len (putRoot m high r) = len m.
Proof. unfold putRoot. by case_cmp. Qed.

Lemma set_len_putRoot m n high (r : pageRoot V) :
  putRoot (set_len m n) high r = set_len (putRoot m high r) n.
Proof. unfold putRoot. by destruct (high =? 0). Qed.

Lemma Set_written m id v : wf m -> Set_ zero m id v = written m id v.
Proof.
  intros Hwf. unfold Set_, ensurePage, written.
  destruct (pageIndexes (N.shiftr id 6)) as [[high bucket] shard] eqn:Hk.
  pose proof (pageIndexes_bound _ _ _ _ Hk) as [Hb Hs].
  pose proof (length_theRoot m high Hwf) as Lr.
  pose proof (length_theBucket m high bucket Hwf) as Lb.
  set (r := default newRoot (root m high)) in *.
  set (b := default newBucket (idx r bucket)) in *.
  pose proof (pageByKey_default m _ _ _ _ Hk : _ = idx b shard) as Hpage.
  rewrite Hpage. destruct (idx b shard) as [p|] eqn:E; simpl.
  - destruct (pageByKey_Some _ _ _ _ _ _ Hk Hpage) as (r' & b' & Hr & Hb' & _).
    assert (Er : r = r') by (subst r; by rewrite Hr). rewrite <- Er in *.
    assert (Eb : b = b') by (subst b; by rewrite Hb'). rewrite <- Eb in *.
    destruct (testSlot (occupied p) (N.land id 63)) eqn:Et; simpl.
    + by rewrite (storePage_eq _ _ _ _ _ r b _ Hk).
    + rewrite (storePage_eq _ _ _ _ _ r b _ Hk) by done. by rewrite set_len_putRoot.
  - erewrite (storePage_eq _ _ _ _ _ _ _ _ Hk);
      [|simpl; unfold root; simpl; fold (root (addActive (putRoot m high
          (upd r bucket (Some (upd b shard (Some (newPage zero)))))) (N.shiftr id 6)) high);
        rewrite root_addActive, root_putRoot, N.eqb_refl; reflexivity
       |by rewrite idx_upd_eq by lia].
    rewrite !upd_upd, set_len_putRoot, putRoot_addActive, putRoot_putRoot.
    by rewrite len_addActive, len_putRoot.
Qed.

Lemma ForkSet_written m id v : wf m -> ForkSet zero m id v = written m id v.
Proof.
  intros Hwf. unfold ForkSet, written.
  destruct (pageIndexes (N.shiftr id 6)) as [[high bucket] shard] eqn:Hk.
  set (r := default newRoot (root m high)).
  set (b := default newBucket (idx r bucket)).
  pose proof (pageByKey_default m _ _ _ _ Hk : _ = idx b shard) as Hpage.
  rewrite Hpage. destruct (idx b shard) as [p|] eqn:E; simpl.
  - destruct (testSlot (occupied p) (N.land id 63)); simpl; [done|].
    apply wf_pageByKey in Hpage as [(_ & _ & Hocc) _]; [|done].
    destruct (N.eqb_spec (occupied p) 0); [done|]. by rewrite len_putRoot.
  - by rewrite len_addActive, len_putRoot.
Qed.

Lemma pageByKey_set_len m n : pageByKey (set_len m n) = pageByKey m.
Proof. done. Qed.

Lemma pageByKey_addActive m key key' : pageByKey (addActive m key) key' = pageByKey m key'.
Proof. apply pageByKey_root. intros. apply root_addActive. Qed.

Lemma pageByKey_written m id v key' :
  wf m ->
  pageByKey (written m id v) key' =
  if key' =? N.shiftr id 6
  then Some (writeSlot (default (newPage zero) (pageByKey m (N.shiftr id 6))) (N.land id 63) v)
  else pageByKey m key'.
Proof.
  intros Hwf. unfold written.
  destruct (pageIndexes (N.shiftr id 6)) as [[high bucket] shard] eqn:Hk.
  set (page := default _ _). set (m1 := putRoot _ _ _).
  assert (Hm1 : forall k, pageByKey m1 k =
    if k =? N.shiftr id 6 then Some (writeSlot page (N.land id 63) v) else pageByKey m k).
  { intros k. eapply pageByKey_link; [done..|by apply length_theRoot|by apply length_theBucket]. }
  rewrite <- Hm1. destruct (testSlot _ _), (pageByKey m (N.shiftr id 6));
    rewrite ?pageByKey_set_len, ?pageByKey_addActive; done.
Qed.

Lemma wf_set_len m n : wf (set_len m n) <-> wf m.
Proof. done. Qed.

Lemma wf_addActive m key : wf m -> wf (addActive m key).
Proof. unfold addActive. by case_cmp. Qed.

(** The page a write goes to, found or new. *)
Lemma target_page m key :
  wf m -> length (values (default (newPage zero) (pageByKey m key))) = 64%nat /\
          occupied (default (newPage zero) (pageByKey m key)) < 2 ^ 64.
Proof.
  intros Hwf. destruct (pageByKey m key) eqn:E; simpl; [|done].
  by apply wf_pageByKey in E as [(? & ? & _) _].
Qed.

Lemma wf_written m id v : wf m -> id < 2 ^ 64 -> wf (written m id v).
Proof.
  intros Hwf Hid. unfold written.
  destruct (pageIndexes (N.shiftr id 6)) as [[high bucket] shard] eqn:Hk.
  pose proof (pageIndexes_bound _ _ _ _ Hk) as [Hb Hs].
  destruct (target_page m (N.shiftr id 6) Hwf) as [Hlen Hocc].
  set (page := default _ _) in *. set (m1 := putRoot _ _ _).
  assert (wf m1).
  { eapply wf_link; [done| |done|done| |done|done].
    - rewrite pageIndexes_eq in Hk. injection Hk as <- _ _.
      by apply key_high_bound, id_key_bound.
    - apply wf_writeSlot; [done|done|apply slot_lt]. }
  destruct (testSlot _ _), (pageByKey m (N.shiftr id 6));
    rewrite ?wf_set_len; auto using wf_addActive.
Qed.

Lemma lookupID_written m id v id' :
  wf m -> lookupID (written m id v) id' = if id' =? id then Some v else lookupID m id'.
Proof.
  intros Hwf. eapply lookupID_update; [intros; by apply pageByKey_written|].
  intros slot Hs. destruct (target_page m (N.shiftr id 6) Hwf) as [Hlen _].
  rewrite pageLookup_writeSlot by (done || apply slot_lt).
  destruct (slot =? _); [done|].
  destruct (pageByKey m (N.shiftr id 6)); simpl default; [done|by apply pageLookup_newPage].
Qed.

Lemma active_ok_written m id v : wf m -> active_ok m -> active_ok (written m id v).
Proof.
  intros Hwf Ha. unfold written.
  destruct (pageIndexes (N.shiftr id 6)) as [[high bucket] shard] eqn:Hk.
  set (page := default _ _). set (m1 := putRoot _ _ _).
  assert (Hm1 : forall k, pageByKey m1 k =
    if k =? N.shiftr id 6 then Some (writeSlot page (N.land id 63) v) else pageByKey m k).
  { intros k. eapply pageByKey_link; [done..|by apply length_theRoot|by apply length_theBucket]. }
  assert (Hs : smallActive m1 = smallActive m /\ smallActiveLen m1 = smallActiveLen m).
  { unfold m1, putRoot. by destruct (high =? 0). }
  destruct Hs as [Hs Hn].
  assert (Hok : active_ok (if pageByKey m (N.shiftr id 6) then m1 else addActive m1 (N.shiftr id 6))).
  { destruct (pageByKey m (N.shiftr id 6)) eqn:E.
    - eapply active_ok_same; [exact Ha|done|done|]. intros k. rewrite Hm1.
      destruct (N.eqb_spec k (N.shiftr id 6)) as [->|]; [|done]. rewrite E. naive_solver.
    - by eapply active_ok_link. }
  by destruct (testSlot _ _).
Qed.

Lemma len_written m id v :
  wf m -> len (written m id v) = (len m + if Has m id then 0 else 1)%Z.
Proof.
  intros Hwf. unfold written, Has.
  destruct (pageIndexes (N.shiftr id 6)) as [[high bucket] shard] eqn:Hk.
  destruct (pageByKey m (N.shiftr id 6)) as [p|]; simpl.
  - destruct (testSlot _ _); simpl; rewrite ?len_putRoot; lia.
  - lia.
Qed.

Lemma rep_written m g id v :
  rep m g -> id < 2 ^ 64 -> rep (written m id v) (<[id := v]> g).
Proof.
  intros (Hwf & Hl & Hlen & Ha) Hid. split_and!.
  - by apply wf_written.
  - intros id'. rewrite lookupID_written, Hl, lookup_insert by done.
    destruct (N.eqb_spec id' id); case_decide; congruence.
  - rewrite len_written, Has_lookup, Hl, Hlen by done.
    destruct (g !! id) as [x|] eqn:E; simpl.
    + rewrite map_size_insert_Some by eauto. lia.
    + rewrite map_size_insert_None by done. lia.
  - by apply active_ok_written.
Qed.

Lemma rep_Set m g id v : rep m g -> id < 2 ^ 64 -> rep (Set_ zero m id v) (<[id := v]> g).
Proof. intros Hr Hid. rewrite Set_written by apply Hr. by apply rep_written. Qed.

Lemma rep_ForkSet m g id v : rep m g -> id < 2 ^ 64 -> rep (ForkSet zero m id v) (<[id := v]> g).
Proof. intros Hr Hid. rewrite ForkSet_written by apply Hr. by apply rep_written. Qed.

Lemma rep_new : rep NewPagedMap ∅.
Proof.
  assert (Hr : forall high, root (@NewPagedMap V) high = None).
  { intros high. unfold root. by destruct (high =? 0). }
  assert (Hp : forall key, pageByKey (@NewPagedMap V) key = None).
  { intros key. unfold pageByKey. destruct (pageIndexes key) as [[]]. by rewrite Hr. }
  split_and!.
  - split; [intros high r; by rewrite Hr|done].
  - intros id. unfold lookupID. rewrite Hp. done.
  - done.
  - split; [done|]. right. split_and!; [done|constructor|].
    intros key. rewrite Hp. simpl. split; [set_solver|by intros [? ?]].
Qed.

End spec.
