(* ===== verification/PagedMapIter.v ===== *)
(** * The paged map: the pages of the tree, Delete and the traversals

    Further down: the traversals visit exactly the entries. *)
From S2P Require Import Prelude.
From S2P Require Import Bits.
From S2P Require Import PagedMap.
From S2P Require Import PagedMapSpec.

Section pages.
Context {V : Type} `{MapOrder (pageRoot V)} (zero : V).
Implicit Types (m : PagedMap V) (g : gmap N V) (p : valuePage V).

(** ** Listing the pages *)

Definition key_lt {A} (a b : N * A) : Prop := a.1 < b.1.

Lemma elem_of_bucketPages high bucket (b : pageBucket V) k p :
  (k, p) ∈ bucketPages high bucket b <->
  exists i, idx b i = Some p /\ k = pageKey high bucket i.
Proof.
  unfold bucketPages. rewrite elem_of_concat_imap. split.
  - intros (i & [q|] & Hi & Hk); [|set_solver]. exists (N.of_nat i).
    apply list_elem_of_singleton in Hk as [= -> ->]. rewrite idx_Some, Nat2N.id. done.
  - intros (i & Hi%idx_Some & ->). exists (N.to_nat i), (Some p). split; [done|].
    rewrite N2Nat.id. set_solver.
Qed.

Lemma elem_of_rootPages high (r : pageRoot V) k p :
  (k, p) ∈ rootPages high (Some r) <->
  exists i j b, idx r i = Some b /\ idx b j = Some p /\ k = pageKey high i j.
Proof.
  simpl. rewrite elem_of_concat_imap. split.
  - intros (i & [b|] & Hi & Hk); [|set_solver].
    apply elem_of_bucketPages in Hk as (j & Hj & ->). exists (N.of_nat i), j, b.
    by rewrite idx_Some, Nat2N.id.
  - intros (i & j & b & Hi%idx_Some & Hj & ->). exists (N.to_nat i), (Some b). split; [done|].
    rewrite N2Nat.id. apply elem_of_bucketPages. eauto.
Qed.

Lemma idx_bound {A} (l : list (option A)) i x : idx l i = Some x -> i < N.of_nat (length l).
Proof. intros Hi%idx_Some%lookup_lt_Some. lia. Qed.

Lemma wf_idx_bound (r : pageRoot V) i j b p :
  wf_root r -> idx r i = Some b -> idx b j = Some p -> i < 128 /\ j < 128.
Proof.
  intros (Lr & _ & Hr) Hi Hj. pose proof (idx_bound _ _ _ Hi). pose proof (idx_bound _ _ _ Hj).
  apply Hr in Hi as (Lb & _). lia.
Qed.

Lemma rootPages_sorted high (r : pageRoot V) :
  high < 2 ^ 44 -> wf_root r -> StronglySorted key_lt (rootPages high (Some r)).
Proof.
  intros Hh Hwf. pose proof Hwf as (Lr & _ & Hr). apply sorted_concat_imap.
  - intros i [b|] Hi; [|constructor]. apply sorted_concat_imap.
    + intros j [p|] Hj; repeat constructor.
    + intros j j' [p|] [p'|] a a' Hlt Hj Hj' Ha Ha'; [|set_solver..].
      apply list_elem_of_singleton in Ha as ->. apply list_elem_of_singleton in Ha' as ->.
      unfold key_lt. simpl. apply lookup_lt_Some in Hi as Hi1.
      assert (Hib : idx r (N.of_nat i) = Some b) by (by rewrite idx_Some, Nat2N.id).
      apply Hr in Hib as [Lb _].
      apply lookup_lt_Some in Hj as Hj1. apply lookup_lt_Some in Hj' as Hj1'.
      rewrite !pageKey_eq by lia. lia.
  - intros i i' [b|] [b'|] [k p] [k' p'] Hlt Hi Hi' Ha Ha'; [|set_solver..].
    apply elem_of_bucketPages in Ha as (j & Hj & ->).
    apply elem_of_bucketPages in Ha' as (j' & Hj' & ->). unfold key_lt. simpl.
    assert (Hib : idx r (N.of_nat i) = Some b) by (by rewrite idx_Some, Nat2N.id).
    assert (Hib' : idx r (N.of_nat i') = Some b') by (by rewrite idx_Some, Nat2N.id).
    destruct (wf_idx_bound _ _ _ _ _ Hwf Hib Hj). destruct (wf_idx_bound _ _ _ _ _ Hwf Hib' Hj').
    rewrite !pageKey_eq by lia. lia.
Qed.

(** The roots in [m.roots], by key. *)
Definition highRoot m (high : N) : option (pageRoot V) :=
  match roots m with None => None | Some rs => rs !! high end.

(** Every page, root zero first and the others in the order of [range]. *)
Definition allPages m : list (N * valuePage V) :=
  rootPages 0 (root0 m) ++ concat (map (fun high => rootPages high (highRoot m high)) (rootsOrder m)).

Lemma highRoot_root m high : high <> 0 -> highRoot m high = root m high.
Proof. intros. unfold root. by destruct (N.eqb_spec high 0). Qed.

Lemma elem_of_rootsOrder m high : wf m ->
  high ∈ rootsOrder m <-> high <> 0 /\ is_Some (root m high).
Proof.
  intros [_ H0]. unfold rootsOrder, root. destruct (roots m) as [rs|].
  - rewrite elem_of_rangeKeys. destruct (N.eqb_spec high 0) as [->|]; [|naive_solver].
    rewrite (H0 rs eq_refl). split; [by intros [? ?]|naive_solver].
  - split; [set_solver|]. intros [Hne [? Hs]]. by destruct (N.eqb_spec high 0).
Qed.

Lemma rootPages_root m high k p :
  wf m -> (k, p) ∈ rootPages high (root m high) <->
  pageByKey m k = Some p /\ (pageIndexes k).1.1 = high.
Proof.
  intros Hwf. split.
  - destruct (root m high) as [r|] eqn:Hr; [|set_solver]. pose proof (proj1 Hwf _ _ Hr) as [Hh Hwr].
    intros (i & j & b & Hi & Hj & ->)%elem_of_rootPages.
    destruct (wf_idx_bound _ _ _ _ _ Hwr Hi Hj) as [Hi1 Hj1].
    rewrite pageIndexes_pageKey by done. split; [|done]. unfold pageByKey.
    by rewrite pageIndexes_pageKey, Hr, Hi by done.
  - destruct (pageIndexes k) as [[h i] j] eqn:Hk. simpl. intros [Hp ->].
    destruct (pageByKey_Some _ _ _ _ _ _ Hk Hp) as (r & b & Hr & Hi & Hj).
    rewrite Hr. apply elem_of_rootPages. exists i, j, b. split_and!; [done|done|].
    symmetry. eapply pageKey_pageIndexes; [|done]. by apply (proj1 Hwf) in Hr as [? _].
Qed.

Lemma elem_of_allPages m k p : wf m -> (k, p) ∈ allPages m <-> pageByKey m k = Some p.
Proof.
  intros Hwf. unfold allPages. rewrite elem_of_app, elem_of_concat_map.
  change (root0 m) with (root m 0). rewrite rootPages_root by done. split.
  - intros [[? _]|(high & Hh & Hp)]; [done|].
    apply elem_of_rootsOrder in Hh as [Hne _]; [|done].
    rewrite highRoot_root in Hp by done. by apply rootPages_root in Hp as [? _].
  - intros Hp. destruct (N.eq_dec (pageIndexes k).1.1 0) as [E|E]; [by left|right].
    exists (pageIndexes k).1.1. rewrite highRoot_root, rootPages_root by done. split; [|done].
    apply elem_of_rootsOrder; [done|]. split; [done|].
    destruct (pageIndexes k) as [[h i] j] eqn:Hk.
    destruct (pageByKey_Some _ _ _ _ _ _ Hk Hp) as (r & b & Hr & _). eauto.
Qed.

Lemma rootPages_nodup m high : wf m -> NoDup (rootPages high (root m high)).
Proof.
  intros Hwf. destruct (root m high) as [r|] eqn:E; [|constructor].
  apply (proj1 Hwf) in E as [? ?]. eapply StronglySorted_nodup; [|by apply rootPages_sorted].
  intros x Hx. unfold key_lt in Hx. lia.
Qed.

Lemma rootsOrder_nodup m : NoDup (rootsOrder m).
Proof. unfold rootsOrder. destruct (roots m); [apply rangeKeys_nodup|constructor]. Qed.

Lemma allPages_nodup m : wf m -> NoDup (allPages m).
Proof.
  intros Hwf. unfold allPages. change (root0 m) with (root m 0). apply NoDup_app. split_and!.
  - by apply rootPages_nodup.
  - intros [k p] Hk (high & Hh & Hp)%elem_of_concat_map.
    apply elem_of_rootsOrder in Hh as [Hne _]; [|done]. rewrite highRoot_root in Hp by done.
    apply rootPages_root in Hk as [_ Hk], Hp as [_ Hp]; [|done..]. congruence.
  - apply nodup_concat_map; [apply rootsOrder_nodup| |].
    + intros high Hh%elem_of_rootsOrder; [|done]. rewrite highRoot_root by tauto.
      by apply rootPages_nodup.
    + intros h1 h2 [k p] H1%elem_of_rootsOrder H2%elem_of_rootsOrder; [|done..].
      rewrite !highRoot_root, !rootPages_root by tauto. naive_solver.
Qed.

Lemma allPages_keys_nodup m : wf m -> NoDup (allPages m).*1.
Proof.
  intros Hwf. apply NoDup_fmap_2_strong; [|by apply allPages_nodup].
  intros [k p] [k' p'] Hp Hp' E. simpl in E. subst k'.
  apply elem_of_allPages in Hp, Hp'; [|done..]. congruence.
Qed.

(** ** Delete *)

Lemma root_unlink m high (r : pageRoot V) h :
  root (unlinkRoot m high r) h =
  if h =? high then if all_nil r then None else Some r else root m h.
Proof.
  unfold unlinkRoot. simpl. destruct (all_nil r); [|apply root_putRoot].
  unfold root. destruct (N.eqb_spec high 0) as [->|]; simpl.
  - by destruct (h =? 0).
  - destruct (N.eqb_spec h high) as [->|].
    + destruct (N.eqb_spec high 0); [done|]. destruct (roots m); simpl; [|done].
      apply lookup_delete_eq.
    + destruct (h =? 0); [done|]. destruct (roots m); simpl; [|done].
      by rewrite lookup_delete_ne.
Qed.

Section unlink.
Context (m m3 : PagedMap V) (key high bucket shard : N) (r : pageRoot V) (b : pageBucket V).
Hypothesis (Hwf : wf m) (Hk : pageIndexes key = (high, bucket, shard)).
Hypothesis (Hr : root m high = Some r) (Hb : idx r bucket = Some b).

Let b' : pageBucket V := upd b shard None.
Let r' : pageRoot V := upd r bucket (if all_nil b' then None else Some b').

Lemma unlink_idx j :
  match idx r' j with None => None | Some b => Some b end =
  if j =? bucket then if all_nil b' then None else Some b' else idx r j.
Proof.
  pose proof (pageIndexes_bound _ _ _ _ Hk) as [Hb1 _].
  pose proof (proj1 Hwf _ _ Hr) as [_ (Lr & _)]. unfold r'.
  destruct (N.eqb_spec j bucket) as [->|].
  - rewrite idx_upd_eq by lia. by destruct (all_nil b').
  - rewrite idx_upd_ne by done. by destruct (idx r j).
Qed.

Hypothesis (H3 : forall h, root m3 h =
  if h =? high then if all_nil r' then None else Some r' else root m h).

Lemma unlink_page key' :
  pageByKey m3 key' = if key' =? key then None else pageByKey m key'.
Proof.
  pose proof (pageIndexes_bound _ _ _ _ Hk) as [Hb1 Hs1].
  pose proof (proj1 Hwf _ _ Hr) as [_ (Lr & _ & Hwr)]. pose proof (Hwr _ _ Hb) as (Lb & _).
  assert (Hb' : forall s, match (if all_nil b' then None else Some b') with
                          | None => None | Some b => idx b s end =
                          if s =? shard then None else idx b s).
  { intros s. assert (Hs : idx b' s = if s =? shard then None else idx b s).
    { unfold b'. destruct (N.eqb_spec s shard) as [->|]; [by rewrite idx_upd_eq by lia|].
      by rewrite idx_upd_ne. }
    destruct (all_nil b') eqn:E; [|done]. rewrite <- Hs. symmetry. by apply all_nil_idx. }
  assert (Hr' : forall j, match (if all_nil r' then None else Some r') with
                          | None => None | Some r => idx r j end =
                          if j =? bucket then if all_nil b' then None else Some b' else idx r j).
  { intros j. rewrite <- unlink_idx. destruct (all_nil r') eqn:E; [|by destruct (idx r' j)].
    by rewrite (all_nil_idx _ _ E). }
  unfold pageByKey. destruct (pageIndexes key') as [[h j] s] eqn:Hk'. rewrite H3.
  destruct (N.eqb_spec h high) as [->|Hh].
  2:{ destruct (N.eqb_spec key' key) as [->|]; [congruence|done]. }
  rewrite Hr. destruct (N.eqb_spec j bucket) as [->|Hj].
  - rewrite Hb. transitivity (if s =? shard then None else idx b s).
    + rewrite <- Hb'. specialize (Hr' bucket). rewrite N.eqb_refl in Hr'.
      destruct (all_nil r'); [|by rewrite Hr']. by rewrite <- Hr'.
    + destruct (N.eqb_spec s shard) as [->|], (N.eqb_spec key' key) as [->|]; try done.
      * destruct n. apply pageIndexes_inj. congruence.
      * congruence.
  - destruct (N.eqb_spec key' key) as [->|]; [congruence|]. specialize (Hr' j).
    destruct (N.eqb_spec j bucket); [done|]. destruct (all_nil r'); by rewrite <- Hr'.
Qed.

Lemma unlink_wf : (forall rs, roots m3 = Some rs -> rs !! 0 = None) -> wf m3.
Proof.
  intros H0. split; [|done]. intros h rr Hrr. rewrite H3 in Hrr.
  pose proof (proj1 Hwf _ _ Hr) as [Hh (Lr & _ & Hwr)]. pose proof (Hwr _ _ Hb) as (Lb & _ & Hwb).
  destruct (N.eqb_spec h high) as [->|]; [|by apply (proj1 Hwf)]. split; [done|].
  destruct (all_nil r') eqn:E; [done|]. injection Hrr as <-. split; [by unfold r'; rewrite length_upd|].
  split; [done|]. intros j bb Hj. pose proof (unlink_idx j) as Hu. rewrite Hj in Hu.
  destruct (N.eqb_spec j bucket) as [->|]; [|by eapply Hwr].
  destruct (all_nil b') eqn:E'; [done|]. injection Hu as ->.
  split; [unfold b'; by rewrite length_upd|]. split; [done|].
  intros s q. unfold b'. destruct (N.eq_dec shard s) as [<-|].
  - pose proof (pageIndexes_bound _ _ _ _ Hk) as [_ Hs1]. by rewrite idx_upd_eq by lia.
  - rewrite idx_upd_ne by done. apply Hwb.
Qed.

End unlink.

(** The cache after [removeActive]. *)
Lemma active_ok_unlink m m3 key :
  active_ok m -> is_Some (pageByKey m key) ->
  (forall key', pageByKey m3 key' = if key' =? key then None else pageByKey m key') ->
  smallActive m3 = smallActive (removeActive m key) ->
  smallActiveLen m3 = smallActiveLen (removeActive m key) -> active_ok m3.
Proof.
  intros [Hl Ha] Hsome Hp. unfold removeActive.
  destruct Ha as [E|(Hle & Hnd & Hin)].
  { rewrite E. simpl. intros Hs Hn. split; [by rewrite Hs|left; congruence]. }
  destruct (smallActive m) as [|a [|c [|]]]; try done.
  assert (Hc : smallActiveLen m = 0 \/ smallActiveLen m = 1 \/ smallActiveLen m = 2) by lia.
  pose proof (proj2 (Hin key) Hsome) as Hkey. unfold active_ok.
  destruct Hc as [E|[E|E]]; rewrite E in *; simpl in *; [set_solver| |].
  - assert (a = key) as -> by set_solver. rewrite decide_True by done. simpl.
    intros -> ->. simpl. split; [done|right]. split_and!; [lia|constructor|].
    intros k. rewrite Hp. specialize (Hin k). destruct (N.eqb_spec k key) as [->|].
    + split; [set_solver|by intros [? ?]].
    + rewrite <- Hin. set_solver.
  - apply NoDup_cons in Hnd as [Hac _].
    destruct (decide (a = key)) as [->|Hak]; simpl.
    + intros -> ->. simpl. split; [done|right]. split_and!; [lia|apply NoDup_singleton|].
      intros k. rewrite Hp. specialize (Hin k). destruct (N.eqb_spec k key) as [->|].
      * split; [set_solver|by intros [? ?]].
      * rewrite <- Hin. set_solver.
    + assert (c = key) as -> by set_solver. rewrite decide_True by done. simpl.
      intros -> ->. simpl. split; [done|right]. split_and!; [lia|apply NoDup_singleton|].
      intros k. rewrite Hp. specialize (Hin k). destruct (N.eqb_spec k key) as [->|].
      * split; [set_solver|by intros [? ?]].
      * rewrite <- Hin. set_solver.
Qed.

(** [restoreSmallActive] collects the keys of all pages, if there are at most two. *)
Lemma foldl_addPage (ps : list (N * valuePage V)) acc :
  (length acc <= 2)%nat ->
  foldl addPage (Some acc) ps =
  if (length acc + length ps <=? 2)%nat then Some (acc ++ ps.*1) else None.
Proof.
  revert acc. induction ps as [|kp ps IH]; intros acc Hacc; simpl.
  { rewrite app_nil_r, Nat.add_0_r. by destruct (Nat.leb_spec (length acc) 2); [|lia]. }
  assert (Hnone : forall l : list (N * valuePage V), foldl addPage None l = None)
    by (induction l; done).
  destruct (Nat.eqb_spec (length acc) 2) as [E|E].
  { rewrite Hnone, E. done. }
  rewrite IH by (rewrite length_app; simpl; lia). rewrite length_app. simpl.
  rewrite <- (assoc_L (++)). simpl.
  by destruct (Nat.leb_spec (length acc + S (length ps)) 2),
    (Nat.leb_spec (length acc + 1 + length ps) 2); try lia.
Qed.

Lemma restore_fold m :
  foldl (fun st high => addRoot st high (highRoot m high)) (addRoot (Some []) 0 (root0 m))
        (rootsOrder m) =
  if (length (allPages m) <=? 2)%nat then Some (allPages m).*1 else None.
Proof.
  transitivity (foldl addPage (Some []) (allPages m)); [|by rewrite foldl_addPage by (simpl; lia)].
  unfold allPages. rewrite foldl_app. fold (addRoot (Some []) 0 (root0 m)).
  generalize (addRoot (Some []) 0 (root0 m)). induction (rootsOrder m) as [|h hs IH]; intros st; [done|].
  simpl. rewrite foldl_app. apply IH.
Qed.

Lemma active_ok_restore m : wf m -> active_ok m -> active_ok (restoreSmallActive m).
Proof.
  intros Hwf Ha. unfold restoreSmallActive.
  destruct (N.eqb_spec (smallActiveLen m) pagedMapActiveOverflow) as [E|E]; [|done].
  destruct (128 <? len m)%Z; [done|]. simpl negb. rewrite orb_false_l.
  pose proof (restore_fold m) as Hf. unfold highRoot in Hf. rewrite Hf. clear Hf.
  destruct (Nat.leb_spec (length (allPages m)) 2) as [Hle|]; [|done].
  pose proof (allPages_keys_nodup m Hwf) as Hnd.
  assert (Hin : forall k, k ∈ (allPages m).*1 <-> is_Some (pageByKey m k)).
  { intros k. rewrite list_elem_of_fmap. split.
    - intros ([k' p] & -> & Hp%elem_of_allPages); [|done]. eauto.
    - intros [p Hp]. exists (k, p). split; [done|]. by apply elem_of_allPages. }
  rewrite <- (length_fmap fst) in Hle.
  set (ks := (allPages m).*1) in *. clearbody ks. clear Ha E.
  destruct ks as [|a [|c [|]]]; simpl in Hle; [| | |lia].
  - split; [done|right]. split_and!; [simpl; lia|constructor|done].
  - split; [done|right]. split_and!; [simpl; lia|done|done].
  - destruct (N.ltb_spec c a).
    + split; [done|right]. split_and!; [simpl; lia|simpl|].
      * apply NoDup_cons in Hnd as [? ?]. apply NoDup_cons. split; [set_solver|apply NoDup_singleton].
      * intros k. etransitivity; [|apply Hin]. simpl. set_solver.
    + split; [done|right]. split_and!; [simpl; lia|done|done].
Qed.

Lemma lookupID_page m key p :
  pageByKey m key = Some p -> forall id, N.shiftr id 6 = key ->
  lookupID zero m id = pageLookup zero (Some p) (N.land id 63).
Proof. intros Hp id <-. unfold lookupID. by rewrite Hp. Qed.

Lemma pageByKey_store m key p p' key' :
  wf m -> pageByKey m key = Some p ->
  pageByKey (storePage m key p') key' = if key' =? key then Some p' else pageByKey m key'.
Proof.
  intros Hwf Hp. destruct (pageIndexes key) as [[high bucket] shard] eqn:Hk.
  destruct (pageByKey_Some _ _ _ _ _ _ Hk Hp) as (r & b & Hr & Hb & _).
  pose proof (proj1 Hwf _ _ Hr) as [_ (Lr & _ & Hwr)]. pose proof (Hwr _ _ Hb) as (Lb & _).
  rewrite (storePage_eq _ _ _ _ _ _ _ _ Hk Hr Hb).
  eapply pageByKey_link; [done|by rewrite Hr|by rewrite Hb|done|done].
Qed.

Lemma wf_store m key p p' :
  wf m -> pageByKey m key = Some p -> wf_page p' -> wf (storePage m key p').
Proof.
  intros Hwf Hp Hp'. destruct (pageIndexes key) as [[high bucket] shard] eqn:Hk.
  destruct (pageByKey_Some _ _ _ _ _ _ Hk Hp) as (r & b & Hr & Hb & _).
  pose proof (pageIndexes_bound _ _ _ _ Hk) as [Hb1 Hs1].
  pose proof (proj1 Hwf _ _ Hr) as [Hh _].
  rewrite (storePage_eq _ _ _ _ _ _ _ _ Hk Hr Hb).
  eapply wf_link; [done|done|done|done|done|by rewrite Hr|by rewrite Hb].
Qed.

Lemma active_storePage m key p :
  smallActive (storePage m key p) = smallActive m /\
  smallActiveLen (storePage m key p) = smallActiveLen m.
Proof.
  unfold storePage, putRoot. destruct (pageIndexes key) as [[h b] s].
  destruct (root m h) as [r|]; [|done]. destruct (idx r b); [|done]. by destruct (h =? 0).
Qed.

Lemma wf_clearSlot p slot :
  wf_page p -> slot < 64 -> occupied (clearSlot zero p slot) <> 0 -> wf_page (clearSlot zero p slot).
Proof.
  intros (Hl & Ho & _) Hs H0. split; [simpl; by rewrite length_insert|]. split; [|done].
  simpl. rewrite shl64_1 by done. by apply clear_bound.
Qed.

(** An emptied page held only the deleted slot. *)
Lemma clearSlot_empty p slot slot' :
  slot < 64 -> slot' < 64 -> occupied (clearSlot zero p slot) = 0 -> slot' <> slot ->
  pageLookup zero (Some p) slot' = None.
Proof.
  intros Hs Hs' H0 Hne. pose proof (pageLookup_clearSlot zero p slot slot' Hs Hs') as Hc.
  destruct (N.eqb_spec slot' slot); [done|]. rewrite <- Hc. unfold pageLookup.
  rewrite H0, testSlot_eq by done. by rewrite N.bits_0.
Qed.

(** The tree after the last entry of a page is gone: the page unlinked, its bucket
    and root dropped when empty, the cache adjusted. *)
Definition unlinked m (key : N) (p : valuePage V) (n : Z) : PagedMap V :=
  let m := removeActive (set_len (storePage m key p) n) key in
  let '(high, bucket, shard) := pageIndexes key in
  match root m high with
  | None => m
  | Some r =>
      match idx r bucket with
      | None => m
      | Some b =>
          let b' := upd b shard None in
          let r' := upd r bucket (if pageBucketEmpty (Some b') then None else Some b') in
          restoreSmallActive (unlinkRoot m high r')
      end
  end.

Lemma root_removeActive m key high : root (removeActive m key) high = root m high.
Proof.
  unfold removeActive. destruct (_ =? _); [done|]. by destruct (list_find _ _) as [[]|].
Qed.

Lemma removeActive_ext m m' key :
  smallActive m' = smallActive m -> smallActiveLen m' = smallActiveLen m ->
  smallActive (removeActive m' key) = smallActive (removeActive m key) /\
  smallActiveLen (removeActive m' key) = smallActiveLen (removeActive m key).
Proof.
  intros Hs Hn. unfold removeActive. rewrite Hs, Hn.
  destruct (_ =? _); simpl; [by rewrite Hs, Hn|].
  destruct (list_find _ _) as [[]|]; simpl; [done|by rewrite Hs, Hn].
Qed.

Lemma restore_root m high : root (restoreSmallActive m) high = root m high.
Proof.
  unfold restoreSmallActive. destruct (_ || _); [done|]. by destruct (foldl _ _ _).
Qed.

Lemma restore_len m : len (restoreSmallActive m) = len m.
Proof.
  unfold restoreSmallActive. destruct (_ || _); [done|]. by destruct (foldl _ _ _).
Qed.

Lemma restore_roots m : roots (restoreSmallActive m) = roots m.
Proof.
  unfold restoreSmallActive. destruct (_ || _); [done|]. by destruct (foldl _ _ _).
Qed.

Lemma unlinkRoot_frame m high (r : pageRoot V) :
  len (unlinkRoot m high r) = len m /\
  smallActive (unlinkRoot m high r) = smallActive m /\
  smallActiveLen (unlinkRoot m high r) = smallActiveLen m.
Proof. unfold unlinkRoot, putRoot. by destruct (pageRootEmpty _), (high =? 0). Qed.

Lemma unlinkRoot_zero m high (r : pageRoot V) :
  (forall rs, roots m = Some rs -> rs !! 0 = None) ->
  forall rs, roots (unlinkRoot m high r) = Some rs -> rs !! 0 = None.
Proof.
  intros H0 rs. unfold unlinkRoot, putRoot.
  destruct (pageRootEmpty _), (N.eqb_spec high 0); simpl; try apply H0.
  - destruct (roots m) as [rs'|] eqn:E; simpl; [|done]. intros [= <-].
    rewrite lookup_delete_ne by done. eauto.
  - intros [= <-]. rewrite lookup_insert_ne by done.
    destruct (roots m) eqn:E; simpl; [by apply H0|apply lookup_empty].
Qed.

Lemma storePage_zero m key p :
  wf m -> forall rs, roots (storePage m key p) = Some rs -> rs !! 0 = None.
Proof.
  intros [_ H0] rs. unfold storePage, putRoot. destruct (pageIndexes key) as [[h b] s].
  destruct (root m h) as [r|]; [|apply H0]. destruct (idx r b); [|apply H0].
  destruct (N.eqb_spec h 0); simpl; [apply H0|]. intros [= <-].
  rewrite lookup_insert_ne by done. destruct (roots m) eqn:E; simpl; [by apply H0|apply lookup_empty].
Qed.

Lemma unlinked_spec m key p p' n :
  wf m -> active_ok m -> pageByKey m key = Some p ->
  wf (unlinked m key p' n) /\ active_ok (unlinked m key p' n) /\ len (unlinked m key p' n) = n /\
  forall key', pageByKey (unlinked m key p' n) key' =
               if key' =? key then None else pageByKey m key'.
Proof.
  intros Hwf Ha Hp. unfold unlinked. set (m1 := removeActive _ key).
  destruct (pageIndexes key) as [[high bucket] shard] eqn:Hk.
  destruct (pageByKey_Some _ _ _ _ _ _ Hk Hp) as (r & b & Hr & Hb & Hs).
  pose proof (pageIndexes_bound _ _ _ _ Hk) as [Hb1 Hs1].
  pose proof (proj1 Hwf _ _ Hr) as [_ (Lr & _ & Hwr)]. pose proof (Hwr _ _ Hb) as (Lb & _).
  assert (Hr1 : forall h, root m1 h =
    if h =? high then Some (upd r bucket (Some (upd b shard (Some p')))) else root m h).
  { intros h. unfold m1. rewrite root_removeActive.
    rewrite (storePage_eq _ _ _ _ _ _ _ _ Hk Hr Hb). apply root_putRoot. }
  rewrite Hr1, N.eqb_refl, idx_upd_eq by lia. cbn [pageBucketEmpty]. rewrite !upd_upd.
  set (r' := upd r bucket _). set (m3 := unlinkRoot m1 high r').
  assert (H3 : forall h, root m3 h =
    if h =? high then if all_nil r' then None else Some r' else root m h).
  { intros h. unfold m3. rewrite root_unlink, Hr1. by destruct (h =? high). }
  pose proof (unlink_page m m3 key high bucket shard r b Hwf Hk Hr Hb H3) as Hp3.
  assert (Hwf3 : wf m3).
  { eapply (unlink_wf m m3); [done..|]. apply unlinkRoot_zero. unfold m1, removeActive.
    destruct (_ =? _); [apply storePage_zero, Hwf|].
    destruct (list_find _ _) as [[]|]; apply storePage_zero, Hwf. }
  destruct (unlinkRoot_frame m1 high r') as (F1 & F2 & F3). fold m3 in F1, F2, F3.
  assert (Ha3 : active_ok m3).
  { destruct (removeActive_ext m (set_len (storePage m key p') n) key) as [E1 E2];
      [apply active_storePage..|].
    eapply active_ok_unlink; [exact Ha|by exists p|exact Hp3| |].
    - by rewrite F2, <- E1.
    - by rewrite F3, <- E2. }
  split_and!.
  - split; [intros h rr; rewrite restore_root; apply Hwf3|].
    rewrite restore_roots. apply Hwf3.
  - by apply active_ok_restore.
  - rewrite restore_len, F1. unfold m1, removeActive. destruct (_ =? _); [done|].
    by destruct (list_find _ _) as [[]|].
  - intros key'. rewrite <- Hp3. apply pageByKey_root, restore_root.
Qed.

Lemma rep_Delete m g id : rep zero m g -> rep zero (Delete zero m id) (delete id g).
Proof.
  intros (Hwf & Hl & Hlen & Ha). unfold Delete. pose proof (slot_lt id) as Hslot.
  destruct (pageByKey m (N.shiftr id 6)) as [p|] eqn:Hp.
  2:{ rewrite delete_id; [done|]. rewrite <- Hl. unfold lookupID. by rewrite Hp. }
  pose proof (Hl id) as Hid. rewrite (lookupID_page _ _ _ Hp _ eq_refl) in Hid. simpl in Hid.
  destruct (testSlot (occupied p) (N.land id 63)) eqn:Et; cbn [negb].
  2:{ by rewrite delete_id. }
  destruct (wf_pageByKey _ _ _ Hwf Hp) as [Hpw _].
  assert (Hslots : forall slot, slot < 64 ->
    pageLookup zero (Some (clearSlot zero p (N.land id 63))) slot =
    if slot =? N.land id 63 then None else pageLookup zero (pageByKey m (N.shiftr id 6)) slot).
  { intros slot Hsl. rewrite Hp. by apply pageLookup_clearSlot. }
  destruct (N.eqb_spec (occupied (clearSlot zero p (N.land id 63))) 0) as [H0|H0]; cbn [negb].
  - change (rep zero (unlinked m (N.shiftr id 6) (clearSlot zero p (N.land id 63)) (len m - 1))
                 (delete id g)).
    destruct (unlinked_spec m _ _ (clearSlot zero p (N.land id 63)) (len m - 1) Hwf Ha Hp)
      as (Hwf' & Ha' & Hlen' & Hp').
    split_and!; [done| | |done].
    + intros id'. rewrite (lookupID_update zero m _ id None None), Hl, lookup_delete.
      * destruct (N.eqb_spec id' id); case_decide; congruence.
      * exact Hp'.
      * intros slot Hsl. destruct (N.eqb_spec slot (N.land id 63)); [done|].
        rewrite Hp. symmetry. eapply clearSlot_empty; [exact Hslot|done|exact H0|done].
    + rewrite Hlen', Hlen. by erewrite size_delete_Some.
  - split_and!.
    + by eapply wf_store, wf_clearSlot.
    + intros id'. rewrite (lookupID_update zero m _ id
        (Some (clearSlot zero p (N.land id 63))) None), Hl, lookup_delete.
      * destruct (N.eqb_spec id' id); case_decide; congruence.
      * intros key'. by eapply pageByKey_store.
      * done.
    + simpl. rewrite Hlen. by erewrite size_delete_Some.
    + destruct (active_storePage m (N.shiftr id 6) (clearSlot zero p (N.land id 63))).
      eapply active_ok_same; [exact Ha|done|done|]. intros key.
      change (pageByKey (set_len ?m ?n)) with (pageByKey m).
      erewrite pageByKey_store by done. destruct (N.eqb_spec key (N.shiftr id 6)) as [->|]; [|done].
      rewrite Hp. split; eauto.
Qed.

End pages.

(** * The paged map: All, Ordered and orderedRoots visit exactly the entries *)

#[local] Instance ge_trans : Transitive N.ge.
Proof. intros x y z. lia. Qed.
#[local] Instance ge_total : Total N.ge.
Proof. intros x y. lia. Qed.

(** ** The k smallest keys above a bound *)

Section select.
Context (cap : nat) (last : option N).
Hypothesis (Hcap : (0 < cap)%nat).

Definition eligible (high : N) : Prop :=
  high <> 0 /\ match last with None => True | Some l => l < high end.

#[global] Instance eligible_dec high : Decision (eligible high).
Proof. unfold eligible. destruct last; apply _. Qed.

(** What [candidates] holds after the keys [seen]: all of the eligible ones while
    there is room, then the [cap] smallest, largest first. *)
Definition selected (seen candidates : list N) : Prop :=
  (candidates ≡ₚ filter eligible seen /\ (length candidates < cap)%nat) \/
  (length candidates = cap /\ StronglySorted N.ge candidates /\
   exists rest, filter eligible seen ≡ₚ candidates ++ rest /\
                forall c r, c ∈ candidates -> r ∈ rest -> c <= r).

Lemma heapArrange_perm l : heapArrange l ≡ₚ l.
Proof. apply merge_sort_Permutation. Qed.

Lemma heapArrange_sorted l : StronglySorted N.ge (heapArrange l).
Proof. apply (StronglySorted_merge_sort N.ge). Qed.

Lemma heapArrange_length l : length (heapArrange l) = length l.
Proof. by rewrite heapArrange_perm. Qed.

Lemma selectStep_selected seen candidates high :
  selected seen candidates -> selected (seen ++ [high]) (selectStep cap last candidates high).
Proof.
  intros Hsel. unfold selectStep.
  assert (Hel : (high =? 0) || match last with None => false | Some l => high <=? l end = true <->
                ~ eligible high).
  { unfold eligible. destruct last as [l|]; case_cmp; simpl; try lia; naive_solver. }
  destruct (_ || _) eqn:E.
  { pose proof (proj1 Hel eq_refl) as Hn. unfold selected.
    by rewrite filter_app, filter_cons_False, app_nil_r. }
  assert (He : eligible high) by (destruct (decide (eligible high)) as [|Hn%Hel]; done).
  clear Hel E. unfold selected. rewrite filter_app, filter_cons_True by done.
  change (filter eligible []) with (@nil N).
  destruct Hsel as [[Hp Hlt]|(Hlen & Hs & rest & Hp & Hr)].
  - destruct (Nat.ltb_spec (length candidates) cap); [|lia].
    destruct (Nat.eqb_spec (length (candidates ++ [high])) cap) as [E|E].
    + right. rewrite heapArrange_length. split; [done|]. split; [apply heapArrange_sorted|].
      exists []. rewrite app_nil_r, heapArrange_perm, Hp. split; [done|set_solver].
    + left. rewrite Hp. split; [done|]. rewrite <- Hp. rewrite length_app in *. simpl in *. lia.
  - destruct (Nat.ltb_spec (length candidates) cap); [lia|].
    destruct candidates as [|top tl]; [simpl in *; lia|].
    pose proof (StronglySorted_inv Hs) as [Hs' Hall]. rewrite Forall_forall in Hall.
    destruct (N.ltb_spec high top) as [Hlt|Hge]; right.
    + rewrite heapArrange_length. split; [done|]. split; [apply heapArrange_sorted|].
      exists (top :: rest). split.
      * rewrite Hp, heapArrange_perm, (Permutation_app_comm _ [high]).
        apply Permutation_skip, Permutation_middle.
      * intros c r Hc Hrr. rewrite heapArrange_perm in Hc.
        assert (c <= top) by (apply elem_of_cons in Hc as [->|Hc]; [lia|specialize (Hall c Hc); lia]).
        apply elem_of_cons in Hrr as [->|Hrr]; [done|].
        specialize (Hr top r ltac:(set_solver) Hrr). lia.
    + split; [done|]. split; [done|]. exists (rest ++ [high]). split; [by rewrite Hp, <- app_assoc|].
      intros c r Hc [Hrr|Hrr%list_elem_of_singleton]%elem_of_app; [by apply Hr|subst r].
      apply elem_of_cons in Hc as [->|Hc]; [lia|]. specialize (Hall c Hc). lia.
Qed.

Lemma select_all keys : selected keys (foldl (selectStep cap last) [] keys).
Proof.
  assert (H0 : selected [] []) by (left; split; [done|simpl; lia]).
  rewrite <- (app_nil_l keys) at 1. revert H0. generalize (@nil N) at 1 3. generalize (@nil N).
  induction keys as [|k keys IH]; intros cand seen Hs; simpl.
  - by rewrite app_nil_r.
  - replace (seen ++ k :: keys) with ((seen ++ [k]) ++ keys) by by rewrite <- app_assoc.
    apply IH. by apply selectStep_selected.
Qed.

End select.

(** ** The batches enumerate the roots in order *)

Section batches.
Context {V : Type} `{MapOrder (pageRoot V)}.
Context (rs : gmap N (pageRoot V)) (cap : nat).
Hypothesis (Hcap : (0 < cap)%nat).

Abbreviation remaining last := (filter (eligible last) (map_to_list rs).*1).

Lemma next_round last cand rest l :
  remaining last ≡ₚ cand ++ rest ->
  (forall c r, c ∈ cand -> r ∈ rest -> c <= r) ->
  l ∈ cand -> (forall c, c ∈ cand -> c <= l) ->
  remaining (Some l) ≡ₚ rest.
Proof.
  intros Hp Hr Hl Hmax.
  pose proof (NoDup_fst_map_to_list rs) as Hnd.
  assert (Hnd' : NoDup (cand ++ rest)) by (rewrite <- Hp; by apply NoDup_filter).
  apply NoDup_app in Hnd' as (Hn1 & Hdis & Hn2).
  assert (Hmem : forall x, x ∈ remaining last <-> x ∈ cand \/ x ∈ rest).
  { intros x. by rewrite Hp, elem_of_app. }
  assert (Hlast : match last with None => True | Some l0 => l0 < l end).
  { assert (Hl' : l ∈ remaining last) by (apply Hmem; by left).
    apply list_elem_of_filter in Hl' as [[_ ?] _]. done. }
  apply NoDup_Permutation; [by apply NoDup_filter|done|].
  intros x. rewrite list_elem_of_filter. split.
  - intros [[Hx0 Hx] Hk]. assert (Hx' : x ∈ remaining last).
    { apply list_elem_of_filter. split; [|done]. split; [done|]. destruct last; [lia|done]. }
    apply Hmem in Hx' as [Hc|]; [|done]. specialize (Hmax x Hc). lia.
  - intros Hx. assert (Hx' : x ∈ remaining last) by (apply Hmem; by right).
    apply list_elem_of_filter in Hx' as [[Hx0 _] Hk]. split; [|done]. split; [done|].
    specialize (Hr l x Hl Hx). assert (x <> l) by (intros ->; by apply (Hdis l)). lia.
Qed.

Lemma batches_spec fuel last :
  (length (remaining last) < fuel)%nat ->
  StronglySorted N.lt (orderedBatches fuel rs cap last) /\
  orderedBatches fuel rs cap last ≡ₚ remaining last.
Proof.
  revert last. induction fuel as [|fuel IH]; intros last Hf; [lia|]. cbn [orderedBatches].
  pose proof (select_all cap last Hcap (rangeKeys fuel rs)) as Hsel.
  set (cand := foldl _ _ _) in *.
  assert (Hrest : exists rest, remaining last ≡ₚ cand ++ rest /\
                    (forall c r, c ∈ cand -> r ∈ rest -> c <= r) /\ (cand = [] -> rest = [])).
  { assert (Hk : filter (eligible last) (rangeKeys fuel rs) ≡ₚ remaining last)
      by (by rewrite rangeKeys_perm).
    destruct Hsel as [[Hp _]|(Hlen & _ & rest & Hp & Hr)].
    - exists []. rewrite app_nil_r, <- Hk. split_and!; [done|set_solver|done].
    - exists rest. rewrite <- Hk. split_and!; [done|done|]. intros E. rewrite E in Hlen. simpl in Hlen. lia. }
  destruct Hrest as (rest & Hp & Hr & Hnil).
  assert (Hnd : NoDup (cand ++ rest)).
  { rewrite <- Hp. apply NoDup_filter, NoDup_fst_map_to_list. }
  pose proof (merge_sort_Permutation N.le cand) as Hms.
  pose proof (StronglySorted_merge_sort N.le cand) as Hss.
  destruct (merge_sort N.le cand) as [|c cs] eqn:E.
  { apply Permutation_nil_l in Hms. rewrite Hp, Hnil, <- Hms by done. split; [constructor|done]. }
  destruct (list.last (c :: cs)) as [l|] eqn:El; [|by apply last_None in El].
  destruct (sorted_last_max _ _ Hss El) as [Hin Hmax].
  assert (Hrem : remaining (Some l) ≡ₚ rest).
  { eapply next_round; [done|done|by rewrite <- Hms|]. intros x. rewrite <- Hms. apply Hmax. }
  destruct (IH (Some l)) as [IHs IHp].
  { rewrite Hrem. rewrite Hp, <- Hms, length_app in Hf. simpl in Hf. lia. }
  split.
  - apply StronglySorted_app_2; [| |done].
    + intros a b Ha Hb. rewrite IHp, list_elem_of_filter in Hb. destruct Hb as [[_ Hb] _].
      specialize (Hmax a Ha). lia.
    + apply sorted_le_lt; [done|]. rewrite Hms. by apply NoDup_app in Hnd as [? _].
  - by rewrite IHp, Hrem, Hp, Hms.
Qed.

End batches.

(** ** Entries of pages *)

Section iter.
Context {V : Type} `{MapOrder (pageRoot V)} (zero : V).
Implicit Types (m : PagedMap V) (g : gmap N V) (p : valuePage V).

Definition yieldPages (ps : list (N * valuePage V)) : list (N * V) :=
  concat (map (fun '(key, page) => yieldPage zero key page) ps).

Lemma elem_of_yieldPage key p id v :
  wf_page p -> key < 2 ^ 58 ->
  (id, v) ∈ yieldPage zero key p <->
  id < 2 ^ 64 /\ N.shiftr id 6 = key /\ pageLookup zero (Some p) (N.land id 63) = Some v.
Proof.
  intros (_ & Ho & _) Hk. unfold yieldPage.
  set (slots := slotLoop 64 (occupied p)).
  assert (Hin : forall s, s ∈ slots <-> N.testbit (occupied p) s = true)
    by (intros; by apply elem_of_slotLoop).
  clearbody slots. split.
  - intros (slot & [= -> ->] & Hs%Hin)%list_elem_of_fmap.
    assert (Hlt : slot < 64).
    { apply N.nle_gt. intros Hle. by rewrite (testbit_above _ 64) in Hs. }
    destruct (entryID_parts key slot Hk Hlt) as [E1 E2]. rewrite E1, E2. split_and!; [|done|].
    + rewrite entryID_eq by done. lia.
    + unfold pageLookup. by rewrite testSlot_eq, Hs.
  - intros (Hid & <- & Hl). apply list_elem_of_fmap. exists (N.land id 63). rewrite entryID_of by done.
    unfold pageLookup in Hl. rewrite testSlot_eq in Hl by apply slot_lt.
    destruct (N.testbit _ _) eqn:E; [|done]. injection Hl as <-. split; [done|].
    by apply Hin.
Qed.

Lemma yieldPage_sorted key p :
  wf_page p -> key < 2 ^ 58 -> StronglySorted key_lt (yieldPage zero key p).
Proof.
  intros (_ & Ho & _) Hk. unfold yieldPage.
  pose proof (slotLoop_sorted _ Ho) as Hs.
  assert (Hb : forall s, s ∈ slotLoop 64 (occupied p) -> s < 64).
  { intros s Hin. apply elem_of_slotLoop in Hin; [|done]. apply N.nle_gt. intros Hle.
    by rewrite (testbit_above _ 64) in Hin. }
  set (slots := slotLoop 64 (occupied p)) in *. clearbody slots.
  induction Hs as [|s l Hl IH Hall]; [constructor|]. simpl. constructor.
  - apply IH. set_solver.
  - rewrite Forall_forall in Hall. apply Forall_forall.
    intros [id v] (s' & [= -> ->] & Hs')%list_elem_of_fmap.
    unfold key_lt. simpl. rewrite !entryID_eq by (done || (apply Hb; set_solver)).
    specialize (Hall s' Hs'). lia.
Qed.

Lemma yieldPage_nodup key p : wf_page p -> key < 2 ^ 58 -> NoDup (yieldPage zero key p).
Proof.
  intros. eapply StronglySorted_nodup; [|by apply yieldPage_sorted].
  intros x Hx. unfold key_lt in Hx. lia.
Qed.

Section of_map.
Context (m : PagedMap V) (g : gmap N V).
Hypothesis (Hrep : rep zero m g).

Lemma yieldPages_perm (ps : list (N * valuePage V)) :
  NoDup ps -> (forall k p, (k, p) ∈ ps <-> pageByKey m k = Some p) ->
  yieldPages ps ≡ₚ map_to_list g.
Proof.
  intros Hnd Hps. destruct Hrep as (Hwf & Hl & _).
  assert (Hin : forall k p, (k, p) ∈ ps -> wf_page p /\ k < 2 ^ 58).
  { intros k p Hk%Hps. by eapply wf_pageByKey. }
  apply NoDup_Permutation; [|apply NoDup_map_to_list|].
  - apply nodup_concat_map; [done| |].
    + intros [k p] [? ?]%Hin. by apply yieldPage_nodup.
    + intros [k p] [k' p'] [id v] Hk Hk' Hy Hy'. destruct (Hin _ _ Hk), (Hin _ _ Hk').
      apply elem_of_yieldPage in Hy as (_ & <- & _); [|done..].
      apply elem_of_yieldPage in Hy' as (_ & <- & _); [|done..].
      apply Hps in Hk, Hk'. congruence.
  - intros [id v]. rewrite elem_of_map_to_list, <- Hl. unfold yieldPages.
    rewrite elem_of_concat_map. unfold lookupID. split.
    + intros ([k p] & Hk & Hy). destruct (Hin _ _ Hk).
      apply elem_of_yieldPage in Hy as (_ & <- & Hy); [|done..]. apply Hps in Hk. by rewrite Hk.
    + intros Hv. destruct (pageByKey m (N.shiftr id 6)) as [p|] eqn:Hp; [|done].
      exists (N.shiftr id 6, p). split; [by apply Hps|].
      destruct (wf_pageByKey _ _ _ Hwf Hp) as [? Hk]. apply elem_of_yieldPage; [done|done|].
      split_and!; [by apply id_key_bound|done|done].
Qed.

Lemma yieldRoot_eq high r : yieldRoot zero high r = yieldPages (rootPages high r).
Proof. done. Qed.

Lemma yieldHighRoots_eq highs :
  yieldHighRoots zero m highs =
  yieldPages (concat (map (fun high => rootPages high (highRoot m high)) highs)).
Proof.
  unfold yieldHighRoots, yieldPages. induction highs as [|h hs IH]; [done|].
  simpl. rewrite IH, map_app, concat_app. done.
Qed.

Lemma yieldPages_app ps qs : yieldPages (ps ++ qs) = yieldPages ps ++ yieldPages qs.
Proof. unfold yieldPages. by rewrite map_app, concat_app. Qed.

(** Reading the pages behind a list of cached keys. *)
Lemma mapM_pages keys :
  (forall k, k ∈ keys -> is_Some (pageByKey m k)) ->
  exists ps : list (N * valuePage V),
    ps.*1 = keys /\ (forall k p, (k, p) ∈ ps -> pageByKey m k = Some p) /\
    mapM (fun key => yieldPage zero key <$> pageByKey m key) keys =
      Some (map (fun '(key, page) => yieldPage zero key page) ps).
Proof.
  induction keys as [|k keys IH]; intros Hk; [exists []; split_and!; set_solver|].
  destruct (Hk k ltac:(set_solver)) as [p Hp]. destruct IH as (ps & Hf & Hps & Hm); [set_solver|].
  exists ((k, p) :: ps). split_and!; [by rewrite fmap_cons, Hf| |by simpl; rewrite Hp; simpl; rewrite Hm].
  intros k' p' [[= -> ->]|Hin]%elem_of_cons; [done|by apply Hps].
Qed.

Lemma small_pages :
  smallActiveLen m <> pagedMapActiveOverflow ->
  let keys := take (N.to_nat (smallActiveLen m)) (smallActive m) in
  NoDup keys /\ forall k, k ∈ keys <-> is_Some (pageByKey m k).
Proof. destruct Hrep as (_ & _ & _ & _ & [?|(_ & ? & ?)]); done. Qed.

Lemma All_spec : exists l, All zero m = Some l /\ l ≡ₚ map_to_list g.
Proof.
  destruct Hrep as (Hwf & _). unfold All.
  destruct (N.eqb_spec (smallActiveLen m) pagedMapActiveOverflow) as [E|E]; simpl.
  - eexists. split; [done|]. rewrite yieldRoot_eq, yieldHighRoots_eq, <- yieldPages_app.
    apply yieldPages_perm; [by apply allPages_nodup|]. intros. by apply elem_of_allPages.
  - destruct (small_pages E) as [Hnd Hin].
    destruct (mapM_pages (take (N.to_nat (smallActiveLen m)) (smallActive m))) as (ps & Hf & Hps & ->).
    { intros k. apply Hin. }
    eexists. split; [done|]. apply yieldPages_perm.
    + apply (NoDup_fmap_1 fst). by rewrite Hf.
    + intros k p. split; [apply Hps|]. intros Hp.
      assert (Hk : k ∈ ps.*1) by (rewrite Hf; apply Hin; eauto).
      apply list_elem_of_fmap in Hk as ([k' p'] & -> & Hk). simpl in *.
      pose proof (Hps _ _ Hk). by simplify_eq.
Qed.

Lemma yieldPages_sorted (ps : list (N * valuePage V)) :
  StronglySorted key_lt ps -> (forall k p, (k, p) ∈ ps -> pageByKey m k = Some p) ->
  StronglySorted key_lt (yieldPages ps).
Proof.
  intros Hs Hps. destruct Hrep as (Hwf & _).
  assert (Hin : forall k p, (k, p) ∈ ps -> wf_page p /\ k < 2 ^ 58).
  { intros k p Hk%Hps. by eapply wf_pageByKey. }
  eapply sorted_concat_map; [exact Hs| |].
  - intros [k p] [? ?]%Hin. by apply yieldPage_sorted.
  - intros [k p] [k' p'] [id v] [id' v'] Hk Hk' Hlt Hy Hy'.
    destruct (Hin _ _ Hk), (Hin _ _ Hk').
    apply elem_of_yieldPage in Hy as (_ & <- & _); [|done..].
    apply elem_of_yieldPage in Hy' as (_ & <- & _); [|done..].
    unfold key_lt in *. simpl in *.
    pose proof (id_parts id). pose proof (id_parts id'). pose proof (slot_lt id). lia.
Qed.

(** Root zero, then every other root in ascending order of its key. *)
Lemma orderedRoots_spec highs :
  StronglySorted N.lt highs -> (forall h, h ∈ highs <-> h <> 0 /\ is_Some (root m h)) ->
  StronglySorted key_lt (orderedRoots zero m highs) /\
  orderedRoots zero m highs ≡ₚ map_to_list g.
Proof.
  intros Hs Hh. pose proof Hrep as (Hwf & _). unfold orderedRoots.
  rewrite yieldRoot_eq, yieldHighRoots_eq, <- yieldPages_app.
  set (ps := rootPages 0 (root0 m) ++ _).
  assert (Hin : forall k p, (k, p) ∈ ps <-> pageByKey m k = Some p).
  { intros k p. rewrite <- elem_of_allPages by done. unfold ps, allPages.
    rewrite !elem_of_app, !elem_of_concat_map. setoid_rewrite Hh.
    setoid_rewrite elem_of_rootsOrder; [|done..]. done. }
  assert (Hsort : StronglySorted key_lt ps).
  { assert (Hone : forall h, StronglySorted key_lt (rootPages h (root m h))).
    { intros h. destruct (root m h) as [r|] eqn:E; [|constructor].
      apply (proj1 Hwf) in E as [? ?]. by apply rootPages_sorted. }
    assert (Hkeys : forall h h' a b, h < h' -> a ∈ rootPages h (root m h) ->
              b ∈ rootPages h' (root m h') -> key_lt a b).
    { intros h h' [k p] [k' p'] Hlt Ha Hb. apply rootPages_root in Ha as [_ Ha], Hb as [_ Hb]; [|done..].
      rewrite pageIndexes_eq in Ha, Hb. simpl in Ha, Hb. unfold key_lt. simpl.
      apply N.nle_gt. intros Hle. apply (N.Div0.div_le_mono _ _ (2 ^ 14)) in Hle. lia. }
    unfold ps. change (root0 m) with (root m 0). apply StronglySorted_app_2; [|done|].
    - intros a b Ha (h & Hhh%Hh & Hb)%elem_of_concat_map. rewrite highRoot_root in Hb by tauto.
      eapply (Hkeys 0 h); [lia|done|done].
    - eapply sorted_concat_map; [exact Hs| |].
      + intros h Hhh%Hh. by rewrite highRoot_root by tauto.
      + intros h h' a b H1%Hh H2%Hh Hlt. rewrite !highRoot_root by tauto. by apply Hkeys. }
  split.
  - apply yieldPages_sorted; [done|]. intros. by apply Hin.
  - apply yieldPages_perm; [|done]. eapply StronglySorted_nodup; [|exact Hsort].
    intros x. unfold key_lt. lia.
Qed.

Lemma small_sorted (keys : list N) :
  NoDup keys -> (forall k, k ∈ keys <-> is_Some (pageByKey m k)) -> StronglySorted N.lt keys ->
  let l := concat (map (fun key => match pageByKey m key with
                                   | None => [] | Some page => yieldPage zero key page end) keys) in
  StronglySorted key_lt l /\ l ≡ₚ map_to_list g.
Proof.
  intros Hnd Hin Hs l. destruct (mapM_pages keys) as (ps & Hf & Hps & _); [intros; by apply Hin|].
  assert (El : l = yieldPages ps).
  { unfold l, yieldPages. rewrite <- Hf. clear -Hps. induction ps as [|[k p] ps IH]; [done|]. simpl.
    rewrite (Hps k p) by set_solver. f_equal. apply IH. set_solver. }
  rewrite El. split.
  - apply yieldPages_sorted; [|done]. rewrite <- Hf in Hs. clear -Hs.
    induction ps as [|a ps IH]; [constructor|]. simpl in Hs.
    apply StronglySorted_inv in Hs as [Hs Ha]. constructor; [by apply IH|].
    rewrite Forall_fmap in Ha. done.
  - apply yieldPages_perm.
    + apply (NoDup_fmap_1 fst). by rewrite Hf.
    + intros k p. split; [apply Hps|]. intros Hp.
      assert (Hk : k ∈ ps.*1) by (rewrite Hf; apply Hin; eauto).
      apply list_elem_of_fmap in Hk as ([k' p'] & -> & Hk). simpl in *.
      pose proof (Hps _ _ Hk). by simplify_eq.
Qed.

Lemma Ordered_spec :
  StronglySorted key_lt (Ordered zero m) /\ Ordered zero m ≡ₚ map_to_list g.
Proof.
  pose proof Hrep as (Hwf & _ & _ & Hlen & Ha). unfold Ordered.
  destruct (N.eqb_spec (smallActiveLen m) pagedMapActiveOverflow) as [E|E]; simpl negb; cbv iota.
  - assert (Hroot : forall h, is_Some (default ∅ (roots m) !! h) <-> h <> 0 /\ is_Some (root m h)).
    { intros h. unfold root. destruct (roots m) as [rs|] eqn:Er; simpl.
      - destruct (N.eqb_spec h 0) as [->|]; [|naive_solver].
        rewrite (proj2 Hwf _ Er). split; [by intros [? ?]|naive_solver].
      - rewrite lookup_empty. destruct (N.eqb_spec h 0); split; try naive_solver; by intros [? ?]. }
    set (rs := default ∅ (roots m)) in *.
    destruct (Nat.eqb_spec (size rs) 0) as [E0|E0].
    + destruct (orderedRoots_spec []) as [H1 H2]; [constructor| |].
      { intros h. rewrite <- Hroot. apply map_size_empty_inv in E0. rewrite E0, lookup_empty.
        split; [set_solver|by intros [? ?]]. }
      unfold orderedRoots in *. unfold yieldHighRoots in *. simpl in *. by rewrite app_nil_r in *.
    + assert (Hall : filter (eligible None) (map_to_list rs).*1 = (map_to_list rs).*1).
      { apply filter_all. intros h Hh.
        assert (Hs : is_Some (rs !! h)).
        { apply list_elem_of_fmap in Hh as ([h' r] & -> & Hr%elem_of_map_to_list). eauto. }
        apply Hroot in Hs. split; [tauto|done]. }
      destruct (batches_spec rs (Nat.min (size rs) pagedMapOrderedBatch)
                  ltac:(unfold pagedMapOrderedBatch; lia) (S (size rs)) None) as [B1 B2].
      { rewrite Hall, length_fmap, length_map_to_list. lia. }
      apply (orderedRoots_spec _ B1). intros h. rewrite B2, Hall, <- Hroot, list_elem_of_fmap. split.
      * intros ([h' r] & -> & Hr%elem_of_map_to_list). eauto.
      * intros [r Hr]. exists (h, r). split; [done|]. by apply elem_of_map_to_list.
  - destruct (small_pages E) as [Hnd Hin]. destruct Ha as [|(Hle & _)]; [done|].
    set (keys := take _ _) in *.
    assert (Hk2 : (length keys <= 2)%nat) by (unfold keys; rewrite length_take; lia). clearbody keys.
    destruct keys as [|a [|b [|]]]; simpl in Hk2; [| | |lia].
    + by apply small_sorted; [|done|constructor].
    + by apply small_sorted; [|done|repeat constructor].
    + apply NoDup_cons in Hnd as [Hab Hb].
      assert (Hne : a <> b) by set_solver.
      destruct (N.ltb_spec b a).
      * apply small_sorted; [|intros k; rewrite <- Hin; set_solver|repeat constructor; lia].
        apply NoDup_cons. split; [set_solver|apply NoDup_singleton].
      * apply small_sorted; [by apply NoDup_cons|done|repeat constructor; lia].
Qed.

End of_map.
End iter.
