(* ===== verification/PagedHeap.v ===== *)
(** * The paged map over a heap: copy-on-write

    The same code as PagedMap.v with its pointers: pages, buckets, roots and the
    roots map are heap objects, a [handle] is the Go struct with its [root0Cloned],
    [rootsCloned] and [cloned] bookkeeping, and [Fork] shares every object with its
    source. [denote h c] is the value-level map a handle stands for. *)
From S2P Require Import Prelude.
From S2P Require Import Bits.
From S2P Require Import PagedMap.

Definition pagedMapClonedRoot : N := 1.
Definition pagedMapClonedBucket : N := 2.
Definition pagedMapClonedPage : N := 4.

(** An address; objects of the four kinds share one allocator. *)
Abbreviation loc := N.

Record heap (V : Type) := mkHeap {
  hPages : gmap loc (valuePage V);
  hBuckets : gmap loc (list (option loc));
  hRoots : gmap loc (list (option loc));
  hMaps : gmap loc (gmap N loc);
  hNext : loc }.
Arguments mkHeap {V} _ _ _ _ _.
Arguments hPages {V} _.
Arguments hBuckets {V} _.
Arguments hRoots {V} _.
Arguments hMaps {V} _.
Arguments hNext {V} _.

Record handle := mkHandle {
  cRoot0 : option loc;
  cRoots : option loc;
  cLen : Z;
  cActive : list N;
  cActiveLen : N;
  root0Cloned : bool;
  rootsCloned : bool;
  cloned : gmap N N }.

Definition set_cRoot0 (c : handle) r f :=
  mkHandle r (cRoots c) (cLen c) (cActive c) (cActiveLen c) f (rootsCloned c) (cloned c).
Definition set_cRoots (c : handle) r f :=
  mkHandle (cRoot0 c) r (cLen c) (cActive c) (cActiveLen c) (root0Cloned c) f (cloned c).
Definition set_cLen (c : handle) n :=
  mkHandle (cRoot0 c) (cRoots c) n (cActive c) (cActiveLen c) (root0Cloned c) (rootsCloned c) (cloned c).
Definition set_cActive (c : handle) a n :=
  mkHandle (cRoot0 c) (cRoots c) (cLen c) a n (root0Cloned c) (rootsCloned c) (cloned c).
Definition set_cloned (c : handle) x :=
  mkHandle (cRoot0 c) (cRoots c) (cLen c) (cActive c) (cActiveLen c) (root0Cloned c) (rootsCloned c) x.

(** [m.cloned[k] & flag != 0] and [m.cloned[k] |= flag] *)
Definition isCloned (c : handle) (k flag : N) : bool :=
  negb (N.land (default 0 (cloned c !! k)) flag =? 0).
Definition markCloned (c : handle) (k flag : N) : handle :=
  set_cloned c (<[k := N.lor (default 0 (cloned c !! k)) flag]> (cloned c)).

(** Computations over the heap; [None] is a nil dereference. *)
Definition H (V A : Type) : Type := heap V -> option (A * heap V).
Definition hret {V A} (a : A) : H V A := fun h => Some (a, h).
Definition hbind {V A B} (m : H V A) (k : A -> H V B) : H V B :=
  fun h => match m h with None => None | Some (a, h') => k a h' end.
Notation "x <-- m ; k" := (hbind m (fun x => k))
  (at level 20, m at level 100, k at level 200, only parsing) : go_scope.
#[local] Open Scope go_scope.

Section ops.
Context {V : Type} `{MapOrder (pageRoot V)} (zero : V).

Definition loadPage (l : loc) : H V (valuePage V) :=
  fun h => p ← hPages h !! l; Some (p, h).
Definition loadBucket (l : loc) : H V (list (option loc)) :=
  fun h => b ← hBuckets h !! l; Some (b, h).
Definition loadRoot (l : loc) : H V (list (option loc)) :=
  fun h => r ← hRoots h !! l; Some (r, h).
Definition loadMap (l : loc) : H V (gmap N loc) :=
  fun h => r ← hMaps h !! l; Some (r, h).

Definition storePageAt (l : loc) (p : valuePage V) : H V unit := fun h =>
  Some (tt, mkHeap (<[l := p]> (hPages h)) (hBuckets h) (hRoots h) (hMaps h) (hNext h)).
Definition storeBucketAt (l : loc) (b : list (option loc)) : H V unit := fun h =>
  Some (tt, mkHeap (hPages h) (<[l := b]> (hBuckets h)) (hRoots h) (hMaps h) (hNext h)).
Definition storeRootAt (l : loc) (r : list (option loc)) : H V unit := fun h =>
  Some (tt, mkHeap (hPages h) (hBuckets h) (<[l := r]> (hRoots h)) (hMaps h) (hNext h)).
Definition storeMapAt (l : loc) (r : gmap N loc) : H V unit := fun h =>
  Some (tt, mkHeap (hPages h) (hBuckets h) (hRoots h) (<[l := r]> (hMaps h)) (hNext h)).

Definition alloc (store : loc -> H V unit) : H V loc := fun h =>
  let l := hNext h in
  match store l h with
  | None => None
  | Some (_, h') => Some (l, mkHeap (hPages h') (hBuckets h') (hRoots h') (hMaps h') (l + 1))
  end.

(** [m.root(high)] *)
Definition rootH (c : handle) (high : N) : H V (option loc) :=
  if high =? 0 then hret (cRoot0 c)
  else match cRoots c with
       | None => hret None
       | Some ml => rs <-- loadMap ml; hret (rs !! high)
       end.

Definition pageByKeyH (c : handle) (key : N) : H V (option loc) :=
  let '(high, bucket, shard) := pageIndexes key in
  r <-- rootH c high;
  match r with
  | None => hret None
  | Some rl =>
      ra <-- loadRoot rl;
      match idx ra bucket with
      | None => hret None
      | Some bl => ba <-- loadBucket bl; hret (idx ba shard)
      end
  end.

(** [Fork] copies the pointers and drops the bookkeeping. *)
Definition ForkH (c : handle) : handle :=
  mkHandle (cRoot0 c) (cRoots c) (cLen c) (cActive c) (cActiveLen c) false false ∅.

(** ** CloneShardOnce *)

(** The first half: make the root reachable without going through a shared object. *)
Definition cloneRootStep (c : handle) (high : N) : H V handle :=
  if (high =? 0) && negb (root0Cloned c) then
    match cRoot0 c with
    | None => hret (set_cRoot0 c None true)
    | Some l => a <-- loadRoot l; l' <-- alloc (fun l' => storeRootAt l' a);
                hret (set_cRoot0 c (Some l') true)
    end
  else if negb (high =? 0) then
    c <-- (if rootsCloned c then hret c
           else match cRoots c with
                | None => hret (set_cRoots c None true)
                | Some l => rs <-- loadMap l; l' <-- alloc (fun l' => storeMapAt l' rs);
                            hret (set_cRoots c (Some l') true)
                end);
    if isCloned c high pagedMapClonedRoot then hret c
    else
      u <-- match cRoots c with
            | None => hret tt
            | Some ml =>
                rs <-- loadMap ml;
                match rs !! high with
                | None => hret tt
                | Some l => a <-- loadRoot l; l' <-- alloc (fun l' => storeRootAt l' a);
                            storeMapAt ml (<[high := l']> rs)
                end
            end;
      hret (markCloned c high pagedMapClonedRoot)
  else hret c.

Definition bucketKey (high bucket : N) : N := N.lor (shl64 high 8) bucket.

(** [if m.cloned[bucketKey]&pagedMapClonedBucket == 0 ...] *)
Definition cloneBucketStep (c : handle) (high bucket : N) (rl : loc) : H V handle :=
  if isCloned c (bucketKey high bucket) pagedMapClonedBucket then hret c
  else
    a <-- loadRoot rl;
    u <-- match idx a bucket with
          | None => hret tt
          | Some bl => b <-- loadBucket bl; bl' <-- alloc (fun l => storeBucketAt l b);
                       storeRootAt rl (upd a bucket (Some bl'))
          end;
    hret (markCloned c (bucketKey high bucket) pagedMapClonedBucket).

Definition clonePageStep (bucket shard : N) (rl : loc) : H V unit :=
  a <-- loadRoot rl;
  match idx a bucket with
  | None => hret tt
  | Some bl =>
      b <-- loadBucket bl;
      match idx b shard with
      | None => hret tt
      | Some pl => p <-- loadPage pl; pl' <-- alloc (fun l => storePageAt l p);
                   storeBucketAt bl (upd b shard (Some pl'))
      end
  end.

Definition CloneShardOnceH (c : handle) (id : N) : H V handle :=
  let key := N.shiftr id 6 in
  page <-- pageByKeyH c key;
  if isCloned c key pagedMapClonedPage && bool_decide (is_Some page) then hret c
  else
    let '(high, bucket, shard) := pageIndexes key in
    c <-- cloneRootStep c high;
    r <-- rootH c high;
    c <-- match r with
          | None => hret c
          | Some rl => c <-- cloneBucketStep c high bucket rl;
                       u <-- clonePageStep bucket shard rl; hret c
          end;
    hret (markCloned c key pagedMapClonedPage).

(** ** Set *)

Definition addActiveH (c : handle) (key : N) : handle :=
  if 2 <=? cActiveLen c then set_cActive c (cActive c) pagedMapActiveOverflow
  else set_cActive c (<[N.to_nat (cActiveLen c) := key]> (cActive c)) (cActiveLen c + 1).

Definition ensureRootH (c : handle) (high : N) : H V (handle * loc) :=
  r <-- rootH c high;
  match r with
  | Some rl => hret (c, rl)
  | None =>
      rl <-- alloc (fun l => storeRootAt l (replicate 128 None));
      if high =? 0 then hret (set_cRoot0 c (Some rl) (root0Cloned c), rl)
      else
        ml <-- match cRoots c with Some ml => hret ml | None => alloc (fun l => storeMapAt l ∅) end;
        rs <-- loadMap ml;
        u <-- storeMapAt ml (<[high := rl]> rs);
        hret (set_cRoots c (Some ml) (rootsCloned c), rl)
  end.

(** [bucketPtr := root[bucket]; if bucketPtr == nil ...] *)
Definition ensureBucketH (rl : loc) (bucket : N) : H V loc :=
  a <-- loadRoot rl;
  match idx a bucket with
  | Some bl => hret bl
  | None => bl <-- alloc (fun l => storeBucketAt l (replicate 128 None));
            u <-- storeRootAt rl (upd a bucket (Some bl)); hret bl
  end.

Definition ensurePageH (c : handle) (key : N) : H V (handle * loc) :=
  let '(high, bucket, shard) := pageIndexes key in
  x <-- ensureRootH c high;
  let '(c, rl) := x in
  bl <-- ensureBucketH rl bucket;
  b <-- loadBucket bl;
  match idx b shard with
  | Some pl => hret (c, pl)
  | None => pl <-- alloc (fun l => storePageAt l (newPage zero));
            u <-- storeBucketAt bl (upd b shard (Some pl));
            hret (addActiveH c key, pl)
  end.

Definition SetH (c : handle) (id : N) (value : V) : H V handle :=
  let key := N.shiftr id 6 in
  let slot := N.land id 63 in
  x <-- ensurePageH c key;
  let '(c, pl) := x in
  p <-- loadPage pl;
  u <-- storePageAt pl (writeSlot p slot value);
  hret (if testSlot (occupied p) slot then c else set_cLen c (cLen c + 1)%Z).

(** ** Denotation *)

Definition dBucket (h : heap V) (bl : loc) : pageBucket V :=
  (fun o : option loc => o ≫= fun l => hPages h !! l) <$> default [] (hBuckets h !! bl).
Definition dRoot (h : heap V) (rl : loc) : pageRoot V :=
  (fun o : option loc => dBucket h <$> o) <$> default [] (hRoots h !! rl).
Definition dMap (h : heap V) (ml : loc) : gmap N (pageRoot V) :=
  dRoot h <$> default ∅ (hMaps h !! ml).
Definition denote (h : heap V) (c : handle) : PagedMap V :=
  mkPagedMap (dRoot h <$> cRoot0 c) (dMap h <$> cRoots c) (cLen c) (cActive c) (cActiveLen c).

(** ** Delete *)

Definition removeActiveH (c : handle) (key : N) : handle :=
  if cActiveLen c =? pagedMapActiveOverflow then c
  else
    let n := N.to_nat (cActiveLen c) in
    match list_find (fun k => k = key) (take n (cActive c)) with
    | None => c
    | Some (index, _) =>
        let moved := copyAt (cActive c) index (drop (S index) (take n (cActive c))) in
        set_cActive c (<[pred n := 0]> moved) (cActiveLen c - 1)
    end.

(** [restoreSmallActive] only reads the tree; it is the value-level function on the
    tree the handle denotes. *)
Definition restoreSmallActiveH (c : handle) : H V handle := fun h =>
  let m := restoreSmallActive (denote h c) in
  Some (set_cActive c (smallActive m) (smallActiveLen m), h).

Definition hpanic {A} : H V A := fun _ => None.

(** [m.root0 = nil] or [delete(m.roots, high)] when the root is empty. *)
Definition dropRootH (c : handle) (high : N) : H V handle :=
  if high =? 0 then hret (set_cRoot0 c None (root0Cloned c))
  else match cRoots c with
       | None => hret c
       | Some ml => rs <-- loadMap ml; u <-- storeMapAt ml (delete high rs); hret c
       end.

Definition unlinkPageH (c : handle) (high bucket shard : N) : H V handle :=
  r <-- rootH c high;
  match r with
  | None => hpanic
  | Some rl =>
      a <-- loadRoot rl;
      match idx a bucket with
      | None => hpanic
      | Some bl =>
          b <-- loadBucket bl;
          u <-- storeBucketAt bl (upd b shard None);
          let a' := if all_nil (upd b shard None) then upd a bucket None else a in
          u <-- storeRootAt rl a';
          if all_nil a' then dropRootH c high else hret c
      end
  end.

Definition DeleteH (c : handle) (id : N) : H V handle :=
  let key := N.shiftr id 6 in
  let slot := N.land id 63 in
  page <-- pageByKeyH c key;
  match page with
  | None => hret c
  | Some pl =>
      p <-- loadPage pl;
      if negb (testSlot (occupied p) slot) then hret c
      else
        u <-- storePageAt pl (clearSlot zero p slot);
        let c := set_cLen c (cLen c - 1)%Z in
        if negb (occupied (clearSlot zero p slot) =? 0) then hret c
        else
          let c := removeActiveH c key in
          let '(high, bucket, shard) := pageIndexes key in
          c <-- unlinkPageH c high bucket shard;
          restoreSmallActiveH c
  end.

End ops.
