(* ===== verification/PagedCow.v ===== *)
(** * Copy-on-write isolation of the paged map

    A handle obtained from [Fork] writes only to objects allocated after the fork:
    [CloneShardOnce] first replaces every shared object on the path of an ID by a
    private copy. The source of the fork, and every other handle whose objects
    existed at that time, therefore denotes the same map for ever, and the child
    denotes what the value-level operations say. *)
From S2P Require Import Prelude.
From S2P Require Import Bits.
From S2P Require Import PagedMap.
From S2P Require Import PagedMapSpec.
From S2P Require Import PagedMapIter.
From S2P Require Import PagedHeap.

Lemma idx_ext {A} (l1 l2 : list (option A)) :
  length l1 = length l2 -> (forall i, idx l1 i = idx l2 i) -> l1 = l2.
Proof.
  intros Hl Hi. apply list_eq. intros i. specialize (Hi (N.of_nat i)). unfold idx in Hi.
  rewrite Nat2N.id in Hi. destruct (l1 !! i) as [x|] eqn:E1, (l2 !! i) as [y|] eqn:E2; simpl in Hi.
  - by subst.
  - apply lookup_lt_Some in E1. apply lookup_ge_None in E2. lia.
  - apply lookup_lt_Some in E2. apply lookup_ge_None in E1. lia.
  - done.
Qed.

Section cow.
Context {V : Type} `{MapOrder (pageRoot V)} (zero : V).
Implicit Types (m : PagedMap V) (h : heap V) (c p : handle).

(** ** Observations of a tree *)

Definition bucketAt m (high i : N) : option (pageBucket V) := r ← root m high; idx r i.
Definition pageAt m (high i j : N) : option (valuePage V) := b ← bucketAt m high i; idx b j.

Lemma pageByKey_pageAt m key high i j :
  pageIndexes key = (high, i, j) -> pageByKey m key = pageAt m high i j.
Proof.
  intros Hk. unfold pageByKey, pageAt, bucketAt. rewrite Hk. by destruct (root m high).
Qed.

(** All arrays have their Go length, and the roots map does not hold key zero. *)
Definition shaped m : Prop :=
  (forall high r, root m high = Some r -> length r = 128%nat) /\
  (forall high i b, bucketAt m high i = Some b -> length b = 128%nat) /\
  (forall rs, roots m = Some rs -> rs !! 0 = None).

Lemma pm_ext m1 m2 :
  shaped m1 -> shaped m2 ->
  (forall high, is_Some (root m1 high) <-> is_Some (root m2 high)) ->
  (forall high i, is_Some (bucketAt m1 high i) <-> is_Some (bucketAt m2 high i)) ->
  (forall high i j, pageAt m1 high i j = pageAt m2 high i j) ->
  (roots m1 = None <-> roots m2 = None) ->
  len m1 = len m2 -> smallActive m1 = smallActive m2 -> smallActiveLen m1 = smallActiveLen m2 ->
  m1 = m2.
Proof.
  intros (L1 & B1 & Z1) (L2 & B2 & Z2) Hr Hb Hp Hn Hlen Hsa Hsl.
  assert (Hbk : forall high i, bucketAt m1 high i = bucketAt m2 high i).
  { intros high i. specialize (Hb high i). specialize (B1 high i). specialize (B2 high i).
    specialize (Hp high i). unfold pageAt in Hp.
    destruct (bucketAt m1 high i) as [b1|], (bucketAt m2 high i) as [b2|]; [|naive_solver..|done].
    f_equal. apply idx_ext; [by rewrite (B1 b1), (B2 b2)|]. intros j. apply (Hp j). }
  assert (Hroot : forall high, root m1 high = root m2 high).
  { intros high. specialize (Hr high). specialize (L1 high). specialize (L2 high).
    specialize (Hbk high). unfold bucketAt in Hbk.
    destruct (root m1 high) as [r1|], (root m2 high) as [r2|]; [|naive_solver..|done].
    f_equal. apply idx_ext; [by rewrite (L1 r1), (L2 r2)|]. intros i. apply (Hbk i). }
  assert (Hrs : roots m1 = roots m2).
  { destruct (roots m1) as [rs1|] eqn:E1, (roots m2) as [rs2|] eqn:E2; [|naive_solver..|done].
    f_equal. apply map_eq. intros k. destruct (N.eq_dec k 0) as [->|Hk].
    - by rewrite (Z1 rs1), (Z2 rs2).
    - specialize (Hroot k). unfold root in Hroot. rewrite E1, E2 in Hroot.
      by destruct (N.eqb_spec k 0). }
  pose proof (Hroot 0) as Hr0. unfold root in Hr0. simpl in Hr0.
  destruct m1, m2. simpl in *. by subst.
Qed.

(** ** Paths in the heap *)

Definition rootLoc h c (high : N) : option loc :=
  if high =? 0 then cRoot0 c else ml ← cRoots c; rs ← hMaps h !! ml; rs !! high.
Definition bucketLoc h c (high i : N) : option loc :=
  rl ← rootLoc h c high; a ← hRoots h !! rl; idx a i.
Definition pageLoc h c (high i j : N) : option loc :=
  bl ← bucketLoc h c high i; b ← hBuckets h !! bl; idx b j.

(** Every pointer of the handle leads to an object of its type, no object is
    reached by two paths, and arrays have their Go length. *)
Record good h c : Prop := {
  g_map : forall ml, cRoots c = Some ml -> exists rs, hMaps h !! ml = Some rs /\ rs !! 0 = None;
  g_root : forall high rl, rootLoc h c high = Some rl ->
             exists a, hRoots h !! rl = Some a /\ length a = 128%nat;
  g_bucket : forall high i bl, bucketLoc h c high i = Some bl ->
             exists b, hBuckets h !! bl = Some b /\ length b = 128%nat;
  g_page : forall high i j pl, pageLoc h c high i j = Some pl -> is_Some (hPages h !! pl);
  g_root_inj : forall x1 x2 rl, rootLoc h c x1 = Some rl -> rootLoc h c x2 = Some rl -> x1 = x2;
  g_bucket_inj : forall x1 i1 x2 i2 bl, bucketLoc h c x1 i1 = Some bl ->
             bucketLoc h c x2 i2 = Some bl -> x1 = x2 /\ i1 = i2;
  g_page_inj : forall x1 i1 j1 x2 i2 j2 pl, pageLoc h c x1 i1 j1 = Some pl ->
             pageLoc h c x2 i2 j2 = Some pl -> x1 = x2 /\ i1 = i2 /\ j1 = j2 }.

Lemma idx_fmap {A B} (f : option A -> option B) (l : list (option A)) i :
  f None = None -> idx (f <$> l) i = f (idx l i).
Proof. intros Hf. unfold idx. rewrite list_lookup_fmap. by destruct (l !! N.to_nat i). Qed.

Lemma root_denote h c high : good h c -> root (denote h c) high = dRoot h <$> rootLoc h c high.
Proof.
  intros G. unfold root, rootLoc. simpl. destruct (high =? 0); [done|].
  destruct (cRoots c) as [ml|] eqn:E; [|done]. simpl. unfold dMap.
  rewrite lookup_fmap. destruct (hMaps h !! ml) eqn:E'; simpl; [done|].
  destruct (g_map _ _ G _ E) as (? & ? & _). congruence.
Qed.

Lemma bucketAt_denote h c high i :
  good h c -> bucketAt (denote h c) high i = dBucket h <$> bucketLoc h c high i.
Proof.
  intros G. unfold bucketAt, bucketLoc. rewrite root_denote by done.
  destruct (rootLoc h c high) as [rl|] eqn:E; [|done]. simpl.
  destruct (g_root _ _ G _ _ E) as (a & Ha & _). unfold dRoot. rewrite Ha. simpl.
  by rewrite idx_fmap.
Qed.

Lemma pageAt_denote h c high i j :
  good h c -> pageAt (denote h c) high i j = pl ← pageLoc h c high i j; hPages h !! pl.
Proof.
  intros G. unfold pageAt, pageLoc. rewrite bucketAt_denote by done.
  destruct (bucketLoc h c high i) as [bl|] eqn:E; [|done]. simpl.
  destruct (g_bucket _ _ G _ _ _ E) as (b & Hb & _). unfold dBucket. rewrite Hb. simpl.
  by rewrite idx_fmap.
Qed.

Lemma shaped_denote h c : good h c -> shaped (denote h c).
Proof.
  intros G. split_and!.
  - intros high r. rewrite root_denote by done.
    destruct (rootLoc h c high) as [rl|] eqn:E; [|done]. simpl. intros [= <-].
    destruct (g_root _ _ G _ _ E) as (a & Ha & Hl). unfold dRoot. rewrite Ha. simpl.
    by rewrite length_fmap.
  - intros high i b. rewrite bucketAt_denote by done.
    destruct (bucketLoc h c high i) as [bl|] eqn:E; [|done]. simpl. intros [= <-].
    destruct (g_bucket _ _ G _ _ _ E) as (b & Hb & Hl). unfold dBucket. rewrite Hb. simpl.
    by rewrite length_fmap.
  - intros rs. simpl. destruct (cRoots c) as [ml|] eqn:E; [|done]. simpl. intros [= <-].
    destruct (g_map _ _ G _ E) as (rs & Hrs & Hz). unfold dMap. rewrite Hrs. simpl.
    by rewrite lookup_fmap, Hz.
Qed.

(** Two good handles denote the same tree when they hold the same pages. *)
Lemma denote_same h c h' c' :
  good h c -> good h' c' ->
  (forall high, is_Some (rootLoc h' c' high) <-> is_Some (rootLoc h c high)) ->
  (forall high i, is_Some (bucketLoc h' c' high i) <-> is_Some (bucketLoc h c high i)) ->
  (forall high i j, (pl ← pageLoc h' c' high i j; hPages h' !! pl) =
                    (pl ← pageLoc h c high i j; hPages h !! pl)) ->
  (cRoots c' = None <-> cRoots c = None) ->
  cLen c' = cLen c -> cActive c' = cActive c -> cActiveLen c' = cActiveLen c ->
  denote h' c' = denote h c.
Proof.
  intros G G' Hr Hb Hp Hn Hl Ha Hal. apply pm_ext; [by apply shaped_denote..| | | | |done|done|done].
  - intros. rewrite !root_denote, !fmap_is_Some by done. apply Hr.
  - intros. rewrite !bucketAt_denote, !fmap_is_Some by done. apply Hb.
  - intros. by rewrite !pageAt_denote.
  - simpl. rewrite !fmap_None. done.
Qed.

(** ** Allocation and ownership *)

Definition fresh h : Prop := forall l, hNext h <= l ->
  hPages h !! l = None /\ hBuckets h !! l = None /\ hRoots h !! l = None /\ hMaps h !! l = None.

(** Objects below [T] are the same in both heaps. *)
Definition agree (T : loc) h h' : Prop := forall l, l < T ->
  hPages h' !! l = hPages h !! l /\ hBuckets h' !! l = hBuckets h !! l /\
  hRoots h' !! l = hRoots h !! l /\ hMaps h' !! l = hMaps h !! l.

(** Every object the handle reaches existed before [T]. *)
Record below (T : loc) h c : Prop := {
  b_map : forall ml, cRoots c = Some ml -> ml < T;
  b_root : forall high rl, rootLoc h c high = Some rl -> rl < T;
  b_bucket : forall high i bl, bucketLoc h c high i = Some bl -> bl < T;
  b_page : forall high i j pl, pageLoc h c high i j = Some pl -> pl < T }.

Lemma agree_refl T h : agree T h h.
Proof. done. Qed.

Lemma agree_trans T h1 h2 h3 : agree T h1 h2 -> agree T h2 h3 -> agree T h1 h3.
Proof.
  intros A1 A2 l Hl. destruct (A1 l Hl) as (? & ? & ? & ?), (A2 l Hl) as (? & ? & ? & ?).
  split_and!; congruence.
Qed.

Lemma frame_paths T h h' c :
  agree T h h' -> good h c -> below T h c ->
  (forall high, rootLoc h' c high = rootLoc h c high) /\
  (forall high i, bucketLoc h' c high i = bucketLoc h c high i) /\
  (forall high i j, pageLoc h' c high i j = pageLoc h c high i j).
Proof.
  intros A G B.
  assert (Hr : forall high, rootLoc h' c high = rootLoc h c high).
  { intros high. unfold rootLoc. destruct (high =? 0); [done|].
    destruct (cRoots c) as [ml|] eqn:E; [|done]. simpl.
    destruct (A ml) as (_ & _ & _ & ->); [by eapply b_map|done]. }
  assert (Hb : forall high i, bucketLoc h' c high i = bucketLoc h c high i).
  { intros high i. unfold bucketLoc. rewrite Hr.
    destruct (rootLoc h c high) as [rl|] eqn:E; [|done]. simpl.
    destruct (A rl) as (_ & _ & -> & _); [by eapply b_root|done]. }
  split_and!; [done|done|]. intros high i j. unfold pageLoc. rewrite Hb.
  destruct (bucketLoc h c high i) as [bl|] eqn:E; [|done]. simpl.
  destruct (A bl) as (_ & -> & _ & _); [by eapply b_bucket|done].
Qed.

(** A handle whose objects all predate [T] is untouched by writes from [T] on. *)
Lemma frame_good T h h' c :
  agree T h h' -> good h c -> below T h c -> good h' c /\ below T h' c.
Proof.
  intros A G B. destruct (frame_paths _ _ _ _ A G B) as (Hr & Hb & Hp). split; split.
  - intros ml E. destruct (A ml) as (_ & _ & _ & ->); [by eapply b_map|]. by eapply g_map.
  - intros high rl. rewrite Hr. intros E.
    destruct (A rl) as (_ & _ & -> & _); [by eapply b_root|]. by eapply g_root.
  - intros high i bl. rewrite Hb. intros E.
    destruct (A bl) as (_ & -> & _ & _); [by eapply b_bucket|]. by eapply g_bucket.
  - intros high i j pl. rewrite Hp. intros E.
    destruct (A pl) as (-> & _ & _ & _); [by eapply b_page|]. by eapply g_page.
  - intros x1 x2 rl. rewrite !Hr. apply G.
  - intros x1 i1 x2 i2 bl. rewrite !Hb. apply G.
  - intros x1 i1 j1 x2 i2 j2 pl. rewrite !Hp. apply G.
  - apply B.
  - intros high rl. rewrite Hr. apply B.
  - intros high i bl. rewrite Hb. apply B.
  - intros high i j pl. rewrite Hp. apply B.
Qed.

Lemma frame_denote T h h' c :
  agree T h h' -> good h c -> below T h c -> denote h' c = denote h c.
Proof.
  intros A G B. destruct (frame_paths _ _ _ _ A G B) as (Hr & Hb & Hp).
  destruct (frame_good _ _ _ _ A G B) as [G' _].
  apply denote_same; try done.
  - intros. by rewrite Hr.
  - intros. by rewrite Hb.
  - intros high i j. rewrite Hp. destruct (pageLoc h c high i j) as [pl|] eqn:E; [|done]. simpl.
    destruct (A pl) as (-> & _); [by eapply b_page|done].
Qed.

(** What [CloneShardOnce] has recorded about a root. *)
Definition rootOwned c (high : N) : Prop :=
  if high =? 0 then root0Cloned c = true
  else rootsCloned c = true /\ isCloned c high pagedMapClonedRoot = true.

(** The flags only ever mark objects allocated since [T]. *)
Record own (T : loc) h c : Prop := {
  o_root0 : root0Cloned c = true -> forall l, cRoot0 c = Some l -> T <= l;
  o_map : rootsCloned c = true -> forall l, cRoots c = Some l -> T <= l;
  o_order : forall x, isCloned c x pagedMapClonedRoot = true -> rootsCloned c = true;
  o_root : forall high l, high <> 0 -> rootOwned c high -> rootLoc h c high = Some l -> T <= l;
  o_bucket : forall high i, high < 2 ^ 44 -> i < 128 ->
    isCloned c (bucketKey high i) pagedMapClonedBucket = true ->
    rootOwned c high /\ forall l, bucketLoc h c high i = Some l -> T <= l;
  o_page : forall key high i j, pageIndexes key = (high, i, j) ->
    isCloned c key pagedMapClonedPage = true ->
    rootOwned c high /\ (forall l, bucketLoc h c high i = Some l -> T <= l) /\
    (forall l, pageLoc h c high i j = Some l -> T <= l) }.

Record inv (T : loc) h c : Prop := {
  i_fresh : fresh h;
  i_next : T <= hNext h;
  i_good : good h c;
  i_own : own T h c }.

Lemma owned_root T h c high l :
  own T h c -> rootOwned c high -> rootLoc h c high = Some l -> T <= l.
Proof.
  intros O Ho Hl. destruct (N.eq_dec high 0) as [->|Hh]; [|by eapply o_root].
  unfold rootOwned, rootLoc in *. simpl in *. by eapply o_root0.
Qed.

Lemma owned_map T h c high l :
  own T h c -> high <> 0 -> rootOwned c high -> cRoots c = Some l -> T <= l.
Proof.
  intros O Hh Ho Hl. unfold rootOwned in Ho. destruct (N.eqb_spec high 0); [done|].
  eapply o_map; [done|tauto|done].
Qed.

(** Reachable objects are allocated. *)
Lemma reach_lt h c : fresh h -> good h c -> below (hNext h) h c.
Proof.
  intros F G. split.
  - intros ml E. destruct (g_map _ _ G _ E) as (rs & Hrs & _).
    apply N.nle_gt. intros Hle. destruct (F ml Hle) as (_ & _ & _ & ?). congruence.
  - intros high rl E. destruct (g_root _ _ G _ _ E) as (a & Ha & _).
    apply N.nle_gt. intros Hle. destruct (F rl Hle) as (_ & _ & ? & _). congruence.
  - intros high i bl E. destruct (g_bucket _ _ G _ _ _ E) as (a & Ha & _).
    apply N.nle_gt. intros Hle. destruct (F bl Hle) as (_ & ? & _ & _). congruence.
  - intros high i j pl E. destruct (g_page _ _ G _ _ _ _ E) as (a & Ha).
    apply N.nle_gt. intros Hle. destruct (F pl Hle) as (? & _ & _ & _). congruence.
Qed.

(** ** Single pointer updates

    Every operation is a sequence of allocations, writes of one pointer and writes
    of one page; each of the lemmas below covers one of these. *)

Lemma inj_upd {A} (f f' : A -> option loc) x0 o `{EqDecision A} :
  (forall x y l, f x = Some l -> f y = Some l -> x = y) ->
  (forall x, f' x = if decide (x = x0) then o else f x) ->
  (forall l, o = Some l -> forall x, f x <> Some l) ->
  forall x y l, f' x = Some l -> f' y = Some l -> x = y.
Proof.
  intros Hinj Hf Ho x y l. rewrite !Hf. repeat case_decide; subst; try done.
  - intros E1 E2. by destruct (Ho _ E1 y).
  - intros E1 E2. by destruct (Ho _ E2 x).
  - apply Hinj.
Qed.

(** The flags stay truthful as long as every new pointer is to a new object. *)
Lemma own_mono T h c h' c' :
  own T h c ->
  cloned c' = cloned c -> root0Cloned c' = root0Cloned c -> rootsCloned c' = rootsCloned c ->
  (forall l, cRoots c' = Some l -> cRoots c = Some l \/ T <= l) ->
  (forall x l, rootLoc h' c' x = Some l -> rootLoc h c x = Some l \/ T <= l) ->
  (forall x i l, bucketLoc h' c' x i = Some l -> bucketLoc h c x i = Some l \/ T <= l) ->
  (forall x i j l, pageLoc h' c' x i j = Some l -> pageLoc h c x i j = Some l \/ T <= l) ->
  own T h' c'.
Proof.
  intros O Ec E0 E1 HM HR HB HP.
  assert (Hro : forall x, rootOwned c' x <-> rootOwned c x).
  { intros x. unfold rootOwned, isCloned. by rewrite Ec, E0, E1. }
  split.
  - intros Hf l Hl. destruct (HR 0 l) as [Hl'|]; [done| |done].
    eapply (o_root0 _ _ _ O); [by rewrite <- E0|done].
  - intros Hf l Hl. destruct (HM l Hl) as [Hl'|]; [|done].
    eapply (o_map _ _ _ O); [by rewrite <- E1|done].
  - intros x Hc. unfold isCloned in Hc. rewrite Ec in Hc. rewrite E1. by apply (o_order _ _ _ O x).
  - intros x l Hx Hown Hl. destruct (HR x l Hl) as [Hl'|]; [|done].
    eapply (o_root _ _ _ O); [done|by apply Hro|done].
  - intros x i Hx Hi Hc. unfold isCloned in Hc. rewrite Ec in Hc.
    destruct (o_bucket _ _ _ O x i Hx Hi Hc) as [H1 H2]. split; [by apply Hro|].
    intros l Hl. destruct (HB x i l Hl); eauto.
  - intros key x i j Hk Hc. unfold isCloned in Hc. rewrite Ec in Hc.
    destruct (o_page _ _ _ O key x i j Hk Hc) as (H1 & H2 & H3). split_and!; [by apply Hro| |].
    + intros l Hl. destruct (HB x i l Hl); eauto.
    + intros l Hl. destruct (HP x i j l Hl); eauto.
Qed.

(** Allocation. *)
Lemma alloc_inv T h h' c :
  inv T h c -> agree (hNext h) h h' -> fresh h' -> hNext h <= hNext h' ->
  inv T h' c /\ denote h' c = denote h c /\
  (forall high, rootLoc h' c high = rootLoc h c high) /\
  (forall high i, bucketLoc h' c high i = bucketLoc h c high i) /\
  (forall high i j, pageLoc h' c high i j = pageLoc h c high i j).
Proof.
  intros [F Hn G O] A F' Hn'. pose proof (reach_lt _ _ F G) as B.
  destruct (frame_paths _ _ _ _ A G B) as (Hr & Hb & Hp).
  split_and!; [|by eapply frame_denote|done|done|done].
  split; [done|lia|by eapply frame_good|]. eapply own_mono; [exact O|try done..].
  - by left.
  - intros x l. rewrite Hr. by left.
  - intros x i l. rewrite Hb. by left.
  - intros x i j l. rewrite Hp. by left.
Qed.

(** A page, bucket, root or map put at the next address. *)
Lemma alloc_agree h h' :
  fresh h -> hNext h' = hNext h + 1 ->
  (forall l, l <> hNext h ->
     hPages h' !! l = hPages h !! l /\ hBuckets h' !! l = hBuckets h !! l /\
     hRoots h' !! l = hRoots h !! l /\ hMaps h' !! l = hMaps h !! l) ->
  agree (hNext h) h h' /\ fresh h' /\ hNext h <= hNext h'.
Proof.
  intros F Hn Hl. split_and!; [|intros l Hle|lia].
  - intros l Hlt. apply Hl. lia.
  - destruct (Hl l) as (-> & -> & -> & ->); [lia|]. apply F. lia.
Qed.

(** The pointer to root [high] becomes [o]. *)
Lemma set_root_ptr T h c h' c' high o :
  inv T h c ->
  hPages h' = hPages h -> hBuckets h' = hBuckets h -> hRoots h' = hRoots h ->
  fresh h' -> T <= hNext h' ->
  (forall ml, cRoots c' = Some ml -> exists rs, hMaps h' !! ml = Some rs /\ rs !! 0 = None) ->
  (forall x, rootLoc h' c' x = if decide (x = high) then o else rootLoc h c x) ->
  (forall l, o = Some l -> T <= l /\ (forall x, rootLoc h c x <> Some l) /\
     exists a, hRoots h !! l = Some a /\ length a = 128%nat /\
               forall i, idx a i = bucketLoc h c high i) ->
  (o = None -> forall i, bucketLoc h c high i = None) ->
  cloned c' = cloned c -> root0Cloned c' = root0Cloned c -> rootsCloned c' = rootsCloned c ->
  (forall l, cRoots c' = Some l -> cRoots c = Some l \/ T <= l) ->
  inv T h' c' /\
  (forall x i, bucketLoc h' c' x i = bucketLoc h c x i) /\
  (forall x i j, pageLoc h' c' x i j = pageLoc h c x i j).
Proof.
  intros [F Hn G O] Ep Eb Er F' Hn' Hm HR Ho Hnone Ec E0 E1 Hmap.
  assert (HB : forall x i, bucketLoc h' c' x i = bucketLoc h c x i).
  { intros x i. unfold bucketLoc. rewrite HR, Er. case_decide as E; [subst x|done].
    destruct o as [l|]; simpl.
    - destruct (Ho l eq_refl) as (_ & _ & a & -> & _ & Ha). simpl. apply Ha.
    - symmetry. apply Hnone. done. }
  assert (HP : forall x i j, pageLoc h' c' x i j = pageLoc h c x i j).
  { intros. unfold pageLoc. by rewrite HB, Eb. }
  split_and!; [|done|done]. split; [done|done| |].
  - split.
    + done.
    + intros x rl. rewrite HR, Er. case_decide; [|apply G]. intros ->.
      destruct (Ho rl eq_refl) as (_ & _ & a & Ha & Hl & _). eauto.
    + intros x i bl. rewrite HB, Eb. apply G.
    + intros x i j pl. rewrite HP, Ep. apply G.
    + eapply inj_upd; [apply G|exact HR|]. intros l Hl. by apply Ho.
    + intros x1 i1 x2 i2 bl. rewrite !HB. apply G.
    + intros x1 i1 j1 x2 i2 j2 pl. rewrite !HP. apply G.
  - eapply own_mono; [exact O|done..| | |].
    + intros x l. rewrite HR. case_decide; [right; by apply Ho|by left].
    + intros x i l. rewrite HB. by left.
    + intros x i j l. rewrite HP. by left.
Qed.

(** The pointer to bucket [i] of the private root [high] becomes [o]. *)
Lemma set_bucket_ptr T h c high i rl a o h' :
  inv T h c -> rootLoc h c high = Some rl -> hRoots h !! rl = Some a -> T <= rl -> i < 128 ->
  h' = mkHeap (hPages h) (hBuckets h) (<[rl := upd a i o]> (hRoots h)) (hMaps h) (hNext h) ->
  (forall l, o = Some l -> T <= l /\ (forall x k, bucketLoc h c x k <> Some l) /\
     exists b, hBuckets h !! l = Some b /\ length b = 128%nat /\
               forall j, idx b j = pageLoc h c high i j) ->
  (o = None -> forall j, pageLoc h c high i j = None) ->
  inv T h' c /\ agree T h h' /\
  (forall x, rootLoc h' c x = rootLoc h c x) /\
  (forall x k, bucketLoc h' c x k = if decide ((x, k) = (high, i)) then o else bucketLoc h c x k) /\
  (forall x k j, pageLoc h' c x k j = pageLoc h c x k j).
Proof.
  intros [F Hn G O] HRl Ha HT Hi -> Ho Hnone. set (h' := mkHeap _ _ _ _ _).
  destruct (g_root _ _ G _ _ HRl) as (a' & Ha' & Hlen). rewrite Ha in Ha'. injection Ha' as <-.
  assert (HR : forall x, rootLoc h' c x = rootLoc h c x) by done.
  assert (HB : forall x k, bucketLoc h' c x k =
                if decide ((x, k) = (high, i)) then o else bucketLoc h c x k).
  { intros x k. unfold bucketLoc. rewrite HR. destruct (decide (x = high)) as [->|Hx].
    - rewrite HRl. simpl. rewrite lookup_insert_eq. simpl. rewrite Ha. simpl. case_decide as E.
      + injection E as ->. rewrite idx_upd_eq by lia. done.
      + rewrite idx_upd_ne; [done|congruence].
    - rewrite decide_False by congruence. destruct (rootLoc h c x) as [rl'|] eqn:E; [|done].
      simpl. rewrite lookup_insert_ne; [done|]. intros <-. by apply Hx, (g_root_inj _ _ G _ _ rl). }
  assert (HP : forall x k j, pageLoc h' c x k j = pageLoc h c x k j).
  { intros x k j. unfold pageLoc. rewrite HB. case_decide as E; [injection E as -> ->|done].
    destruct o as [l|]; simpl.
    - destruct (Ho l eq_refl) as (_ & _ & b & -> & _ & Hb). simpl. apply Hb.
    - symmetry. by apply Hnone. }
  assert (Hlt : rl < hNext h) by (eapply b_root; [by apply reach_lt|done]).
  split_and!; [|intros l Hl; simpl; rewrite lookup_insert_ne by lia; done|done|done|done].
  split; [|done| |].
  - intros l Hl. simpl in *. rewrite lookup_insert_ne by lia. by apply F.
  - split.
    + apply G.
    + intros x rl'. rewrite HR. intros E. simpl. destruct (decide (rl' = rl)) as [->|].
      * rewrite lookup_insert_eq. eexists. split; [done|]. by rewrite length_upd.
      * rewrite lookup_insert_ne by done. by apply (g_root _ _ G x).
    + intros x k bl. rewrite HB. case_decide; [|apply G]. intros E.
      destruct (Ho _ E) as (_ & _ & b & Hb & Hl & _). eauto.
    + intros x k j pl. rewrite HP. apply G.
    + intros x1 x2 l. rewrite !HR. apply G.
    + intros x1 i1 x2 i2 bl E1 E2.
      assert ((x1, i1) = (x2, i2)) as [=]; [|done].
      apply (inj_upd (fun y => bucketLoc h c y.1 y.2) (fun y => bucketLoc h' c y.1 y.2) (high, i) o)
        with (l := bl); [| |intros l Hl [x k]; by apply Ho|done|done].
      * intros [? ?] [? ?] l E1' E2'. simpl in *.
        by destruct (g_bucket_inj _ _ G _ _ _ _ _ E1' E2') as [-> ->].
      * intros [x k]. apply HB.
    + intros x1 i1 j1 x2 i2 j2 pl. rewrite !HP. apply G.
  - eapply own_mono; [exact O|done..|by left| | |].
    + intros x l. rewrite HR. by left.
    + intros x k l. rewrite HB. case_decide; [right; by apply Ho|by left].
    + intros x k j l. rewrite HP. by left.
Qed.

(** The pointer to page [j] of the private bucket [high, i] becomes [o]. *)
Lemma set_page_ptr T h c high i j bl b o h' :
  inv T h c -> bucketLoc h c high i = Some bl -> hBuckets h !! bl = Some b -> T <= bl -> j < 128 ->
  h' = mkHeap (hPages h) (<[bl := upd b j o]> (hBuckets h)) (hRoots h) (hMaps h) (hNext h) ->
  (forall l, o = Some l -> T <= l /\ (forall x k y, pageLoc h c x k y <> Some l) /\
     is_Some (hPages h !! l)) ->
  inv T h' c /\ agree T h h' /\
  (forall x, rootLoc h' c x = rootLoc h c x) /\
  (forall x k, bucketLoc h' c x k = bucketLoc h c x k) /\
  (forall x k y, pageLoc h' c x k y =
     if decide ((x, k, y) = (high, i, j)) then o else pageLoc h c x k y).
Proof.
  intros [F Hn G O] HBl Hb HT Hj -> Ho. set (h' := mkHeap _ _ _ _ _).
  destruct (g_bucket _ _ G _ _ _ HBl) as (b' & Hb' & Hlen). rewrite Hb in Hb'. injection Hb' as <-.
  assert (HR : forall x, rootLoc h' c x = rootLoc h c x) by done.
  assert (HB : forall x k, bucketLoc h' c x k = bucketLoc h c x k) by done.
  assert (HP : forall x k y, pageLoc h' c x k y =
                if decide ((x, k, y) = (high, i, j)) then o else pageLoc h c x k y).
  { intros x k y. unfold pageLoc. rewrite HB. destruct (decide ((x, k) = (high, i))) as [[= -> ->]|Hx].
    - rewrite HBl. simpl. rewrite lookup_insert_eq. simpl. rewrite Hb. simpl. case_decide as E.
      + injection E as ->. rewrite idx_upd_eq by lia. done.
      + rewrite idx_upd_ne; [done|congruence].
    - rewrite decide_False by congruence. destruct (bucketLoc h c x k) as [bl'|] eqn:E; [|done].
      simpl. rewrite lookup_insert_ne; [done|]. intros <-. apply Hx.
      by destruct (g_bucket_inj _ _ G _ _ _ _ _ HBl E) as [-> ->]. }
  assert (Hlt : bl < hNext h) by (eapply b_bucket; [by apply reach_lt|done]).
  split_and!; [|intros l Hl; simpl; rewrite lookup_insert_ne by lia; done|done|done|done].
  split; [|done| |].
  - intros l Hl. simpl in *. rewrite lookup_insert_ne by lia. by apply F.
  - split.
    + apply G.
    + intros x rl'. rewrite HR. apply (g_root _ _ G).
    + intros x k bl'. rewrite HB. intros E. simpl. destruct (decide (bl' = bl)) as [->|].
      * rewrite lookup_insert_eq. eexists. split; [done|]. by rewrite length_upd.
      * rewrite lookup_insert_ne by done. by apply (g_bucket _ _ G x k).
    + intros x k y pl. rewrite HP. case_decide; [|apply (g_page _ _ G)]. intros E. by apply Ho.
    + intros x1 x2 l. rewrite !HR. apply G.
    + intros x1 i1 x2 i2 l. rewrite !HB. apply G.
    + intros x1 i1 j1 x2 i2 j2 pl E1 E2.
      assert ((x1, i1, j1) = (x2, i2, j2)) as [=]; [|done].
      apply (inj_upd (fun y => pageLoc h c y.1.1 y.1.2 y.2) (fun y => pageLoc h' c y.1.1 y.1.2 y.2)
               (high, i, j) o) with (l := pl);
        [| |intros l Hl [[x k] y]; by apply Ho|done|done].
      * intros [[? ?] ?] [[? ?] ?] l E1' E2'. simpl in *.
        by destruct (g_page_inj _ _ G _ _ _ _ _ _ _ E1' E2') as (-> & -> & ->).
      * intros [[x k] y]. apply HP.
  - eapply own_mono; [exact O|done..|by left| | |].
    + intros x l. rewrite HR. by left.
    + intros x k l. rewrite HB. by left.
    + intros x k y l. rewrite HP. case_decide; [right; by apply Ho|by left].
Qed.

(** A write to a private page. *)
Lemma set_page T h c high i j pl pg h' :
  inv T h c -> pageLoc h c high i j = Some pl -> T <= pl ->
  h' = mkHeap (<[pl := pg]> (hPages h)) (hBuckets h) (hRoots h) (hMaps h) (hNext h) ->
  inv T h' c /\ agree T h h' /\
  (forall x, rootLoc h' c x = rootLoc h c x) /\
  (forall x k, bucketLoc h' c x k = bucketLoc h c x k) /\
  (forall x k y, pageLoc h' c x k y = pageLoc h c x k y).
Proof.
  intros [F Hn G O] HPl HT ->. set (h' := mkHeap _ _ _ _ _).
  assert (Hlt : pl < hNext h) by (eapply b_page; [by apply reach_lt|done]).
  split_and!; [|intros l Hl; simpl; rewrite lookup_insert_ne by lia; done|done|done|done].
  split; [|done| |].
  - intros l Hl. simpl in *. rewrite lookup_insert_ne by lia. by apply F.
  - destruct G. split; try done. intros x k y l E. simpl.
    destruct (decide (l = pl)) as [->|]; [by rewrite lookup_insert_eq|].
    rewrite lookup_insert_ne by done. by eapply g_page0.
  - eapply own_mono; [exact O|done..|by left|by left|by left|by left].
Qed.

(** ** The bookkeeping *)

Lemma isCloned_mark c k f k' f' :
  isCloned (markCloned c k f) k' f' =
  isCloned c k' f' || ((k' =? k) && negb (N.land f f' =? 0)).
Proof.
  unfold isCloned, markCloned. simpl. destruct (N.eqb_spec k' k) as [->|Hk].
  - rewrite lookup_insert_eq. simpl. rewrite N.land_lor_distr_l. set (a := N.land _ f').
    set (b := N.land f f'). clearbody a b.
    destruct (N.eqb_spec (N.lor a b) 0) as [E|E].
    + apply N.lor_eq_0_iff in E as [-> ->]. done.
    + destruct (N.eqb_spec a 0) as [->|]; [|done]. destruct (N.eqb_spec b 0) as [->|]; done.
  - rewrite lookup_insert_ne by done. by rewrite orb_false_r.
Qed.

Lemma bucketKey_inj x1 i1 x2 i2 :
  x1 < 2 ^ 44 -> x2 < 2 ^ 44 -> i1 < 128 -> i2 < 128 ->
  bucketKey x1 i1 = bucketKey x2 i2 -> x1 = x2 /\ i1 = i2.
Proof.
  intros Hx1 Hx2 Hi1 Hi2. unfold bucketKey. rewrite !shl64_small by lia.
  rewrite !lor_split by lia. lia.
Qed.

Lemma root_mark h c k f x : rootLoc h (markCloned c k f) x = rootLoc h c x.
Proof. done. Qed.

Lemma inv_own T h c c' :
  inv T h c -> cRoot0 c' = cRoot0 c -> cRoots c' = cRoots c -> own T h c' -> inv T h c'.
Proof.
  intros [F Hn G O] E0 E1 O'. split; [done|done| |done].
  assert (HR : forall x, rootLoc h c' x = rootLoc h c x)
    by (intros; unfold rootLoc; by rewrite E0, E1).
  assert (HB : forall x k, bucketLoc h c' x k = bucketLoc h c x k)
    by (intros; unfold bucketLoc; by rewrite HR).
  assert (HP : forall x k y, pageLoc h c' x k y = pageLoc h c x k y)
    by (intros; unfold pageLoc; by rewrite HB).
  split.
  - rewrite E1. apply G.
  - intros x l. rewrite HR. apply G.
  - intros x k l. rewrite HB. apply G.
  - intros x k y l. rewrite HP. apply G.
  - intros x1 x2 l. rewrite !HR. apply G.
  - intros x1 i1 x2 i2 l. rewrite !HB. apply G.
  - intros x1 i1 j1 x2 i2 j2 l. rewrite !HP. apply G.
Qed.

(** Marking a root that is private. *)
Lemma mark_root T h c high :
  inv T h c -> high <> 0 -> rootsCloned c = true ->
  (forall l, rootLoc h c high = Some l -> T <= l) ->
  inv T h (markCloned c high pagedMapClonedRoot).
Proof.
  intros I Hh Hrs Hl. apply (inv_own _ _ _ _ I); [done..|]. destruct I as [F Hn G O].
  assert (Hro : forall x, rootOwned c x -> rootOwned (markCloned c high pagedMapClonedRoot) x).
  { intros x. unfold rootOwned. destruct (x =? 0); [done|]. intros [? Hx]. split; [done|].
    by rewrite isCloned_mark, Hx. }
  split; [apply O|apply O|done| | |].
  - intros x l Hx Hown. rewrite root_mark. unfold rootOwned in Hown.
    destruct (N.eqb_spec x 0); [done|]. destruct Hown as [_ Hc]. rewrite isCloned_mark in Hc.
    apply orb_true_iff in Hc as [Hc|Hc].
    + apply (o_root _ _ _ O); [done|]. unfold rootOwned. by destruct (N.eqb_spec x 0).
    + apply andb_true_iff in Hc as [->%N.eqb_eq _]. apply Hl.
  - intros x i Hx Hi Hc. rewrite isCloned_mark, andb_false_r, orb_false_r in Hc.
    destruct (o_bucket _ _ _ O x i Hx Hi Hc). split; [by apply Hro|done].
  - intros key x i j Hk Hc. rewrite isCloned_mark, andb_false_r, orb_false_r in Hc.
    destruct (o_page _ _ _ O key x i j Hk Hc). split; [by apply Hro|done].
Qed.

(** Marking a bucket of a private root, and a page of a private bucket. *)
Lemma rootOwned_mark c k f x :
  N.land f pagedMapClonedRoot = 0 -> rootOwned (markCloned c k f) x <-> rootOwned c x.
Proof.
  intros Hf. unfold rootOwned. destruct (x =? 0); [done|].
  by rewrite isCloned_mark, Hf, andb_false_r, orb_false_r.
Qed.

Lemma mark_bucket T h c high i :
  inv T h c -> high < 2 ^ 44 -> i < 128 -> rootOwned c high ->
  (forall l, bucketLoc h c high i = Some l -> T <= l) ->
  inv T h (markCloned c (bucketKey high i) pagedMapClonedBucket).
Proof.
  intros I Hh Hi Hro Hl. apply (inv_own _ _ _ _ I); [done..|]. destruct I as [F Hn G O].
  split; [apply O|apply O| | | |].
  - intros x Hc. rewrite isCloned_mark, andb_false_r, orb_false_r in Hc. by apply (o_order _ _ _ O x).
  - intros x l Hx Hown. rewrite rootOwned_mark in Hown by done. by apply (o_root _ _ _ O).
  - intros x k Hx Hk Hc. rewrite rootOwned_mark by done. rewrite isCloned_mark in Hc.
    apply orb_true_iff in Hc as [Hc|[Hc%N.eqb_eq _]%andb_true_iff].
    + by apply (o_bucket _ _ _ O).
    + apply bucketKey_inj in Hc as [-> ->]; done.
  - intros key x k j Hk Hc. rewrite rootOwned_mark by done.
    rewrite isCloned_mark, andb_false_r, orb_false_r in Hc. by apply (o_page _ _ _ O key).
Qed.

Lemma mark_page T h c key high i j :
  inv T h c -> pageIndexes key = (high, i, j) -> rootOwned c high ->
  (forall l, bucketLoc h c high i = Some l -> T <= l) ->
  (forall l, pageLoc h c high i j = Some l -> T <= l) ->
  inv T h (markCloned c key pagedMapClonedPage).
Proof.
  intros I Hk Hro Hb Hp. apply (inv_own _ _ _ _ I); [done..|]. destruct I as [F Hn G O].
  split; [apply O|apply O| | | |].
  - intros x Hc. rewrite isCloned_mark, andb_false_r, orb_false_r in Hc. by apply (o_order _ _ _ O x).
  - intros x l Hx Hown. rewrite rootOwned_mark in Hown by done. by apply (o_root _ _ _ O).
  - intros x k Hx Hk' Hc. rewrite rootOwned_mark by done.
    rewrite isCloned_mark, andb_false_r, orb_false_r in Hc. by apply (o_bucket _ _ _ O).
  - intros key' x k y Hk' Hc. rewrite rootOwned_mark by done. rewrite isCloned_mark in Hc.
    apply orb_true_iff in Hc as [Hc|[Hc%N.eqb_eq _]%andb_true_iff].
    + by apply (o_page _ _ _ O key').
    + subst key'. rewrite Hk in Hk'. injection Hk' as <- <- <-. done.
Qed.

(** ** CloneShardOnce *)

Lemma agree_le T T' h h' : T <= T' -> agree T' h h' -> agree T h h'.
Proof. intros HT A l Hl. apply A. lia. Qed.

(** One allocation, whatever the kind of the object. *)
Lemma alloc_ok T h c h1 :
  inv T h c -> hNext h1 = hNext h + 1 ->
  (forall l, l <> hNext h ->
     hPages h1 !! l = hPages h !! l /\ hBuckets h1 !! l = hBuckets h !! l /\
     hRoots h1 !! l = hRoots h !! l /\ hMaps h1 !! l = hMaps h !! l) ->
  inv T h1 c /\ agree T h h1 /\ denote h1 c = denote h c /\
  (forall high, rootLoc h1 c high = rootLoc h c high) /\
  (forall high i, bucketLoc h1 c high i = bucketLoc h c high i) /\
  (forall high i j, pageLoc h1 c high i j = pageLoc h c high i j).
Proof.
  intros I Hn Hl. destruct (alloc_agree h h1) as (A & F1 & Hle); [apply I|done|done|].
  destruct (alloc_inv T h h1 c I A F1 Hle) as (I1 & D1 & R1 & B1 & P1).
  split_and!; try done. eapply agree_le; [apply I|done].
Qed.

Lemma unreached T h c :
  inv T h c ->
  (forall ml, cRoots c = Some ml -> ml <> hNext h) /\
  (forall x, rootLoc h c x <> Some (hNext h)) /\
  (forall x i, bucketLoc h c x i <> Some (hNext h)) /\
  (forall x i j, pageLoc h c x i j <> Some (hNext h)).
Proof.
  intros I. pose proof (reach_lt _ _ (i_fresh _ _ _ I) (i_good _ _ _ I)) as B. split_and!.
  - intros ml E ->. apply (b_map _ _ _ B) in E. lia.
  - intros x E. apply (b_root _ _ _ B) in E. lia.
  - intros x i E. apply (b_bucket _ _ _ B) in E. lia.
  - intros x i j E. apply (b_page _ _ _ B) in E. lia.
Qed.

(** What every step of [CloneShardOnce] guarantees. *)
Definition cloneStep (T : loc) h c h' c' : Prop :=
  inv T h' c' /\ agree T h h' /\ denote h' c' = denote h c.

Lemma cloneStep_refl T h c : inv T h c -> cloneStep T h c h c.
Proof. done. Qed.

Lemma cloneStep_trans T h1 c1 h2 c2 h3 c3 :
  cloneStep T h1 c1 h2 c2 -> cloneStep T h2 c2 h3 c3 -> cloneStep T h1 c1 h3 c3.
Proof.
  intros (_ & A1 & D1) (I2 & A2 & D2). split_and!; [done|by eapply agree_trans|congruence].
Qed.

(** Setting a flag whose pointer is private. *)
Lemma flag_root0 T h c :
  inv T h c -> (forall l, cRoot0 c = Some l -> T <= l) ->
  inv T h (set_cRoot0 c (cRoot0 c) true).
Proof.
  intros I Hl. apply (inv_own _ _ _ _ I); [done..|]. destruct I as [F Hn G O].
  assert (Hro : forall x, rootOwned c x -> rootOwned (set_cRoot0 c (cRoot0 c) true) x).
  { intros x. unfold rootOwned. by destruct (x =? 0). }
  split; [done|apply O|apply O| | |].
  - intros x l Hx Hown. apply (o_root _ _ _ O); [done|]. unfold rootOwned in *.
    by destruct (N.eqb_spec x 0).
  - intros x i Hx Hi Hc. destruct (o_bucket _ _ _ O x i Hx Hi Hc). split; [by apply Hro|done].
  - intros key x i j Hk Hc. destruct (o_page _ _ _ O key x i j Hk Hc). split; [by apply Hro|done].
Qed.

Lemma flag_roots T h c :
  inv T h c -> rootsCloned c = false -> (forall l, cRoots c = Some l -> T <= l) ->
  inv T h (set_cRoots c (cRoots c) true).
Proof.
  intros I Hf Hl. apply (inv_own _ _ _ _ I); [done..|]. destruct I as [F Hn G O].
  assert (Hro : forall x, rootOwned c x -> rootOwned (set_cRoots c (cRoots c) true) x).
  { intros x. unfold rootOwned. destruct (x =? 0); [done|]. intros [_ ?]. done. }
  split; [apply O|done|done| | |].
  - intros x l Hx Hown. unfold rootOwned in Hown. destruct (N.eqb_spec x 0); [done|].
    destruct Hown as [_ Hc%(o_order _ _ _ O)]. congruence.
  - intros x i Hx Hi Hc. destruct (o_bucket _ _ _ O x i Hx Hi Hc). split; [by apply Hro|done].
  - intros key x i j Hk Hc. destruct (o_page _ _ _ O key x i j Hk Hc). split; [by apply Hro|done].
Qed.

(** Only the roots map, or the pointer to it, is replaced. *)
Lemma set_map_ptr T h c h' c' :
  inv T h c ->
  hPages h' = hPages h -> hBuckets h' = hBuckets h -> hRoots h' = hRoots h ->
  fresh h' -> T <= hNext h' ->
  (forall ml, cRoots c' = Some ml -> exists rs, hMaps h' !! ml = Some rs /\ rs !! 0 = None) ->
  (forall x, rootLoc h' c' x = rootLoc h c x) ->
  cloned c' = cloned c -> root0Cloned c' = root0Cloned c -> rootsCloned c' = rootsCloned c ->
  (forall l, cRoots c' = Some l -> cRoots c = Some l \/ T <= l) ->
  inv T h' c'.
Proof.
  intros [F Hn G O] Ep Eb Er F' Hn' Hm HR Ec E0 E1 Hmap.
  assert (HB : forall x i, bucketLoc h' c' x i = bucketLoc h c x i).
  { intros x i. unfold bucketLoc. by rewrite HR, Er. }
  assert (HP : forall x i j, pageLoc h' c' x i j = pageLoc h c x i j).
  { intros. unfold pageLoc. by rewrite HB, Eb. }
  split; [done|done| |].
  - split.
    + done.
    + intros x rl. rewrite HR, Er. apply G.
    + intros x i bl. rewrite HB, Eb. apply G.
    + intros x i j pl. rewrite HP, Ep. apply G.
    + intros x1 x2 l. rewrite !HR. apply G.
    + intros x1 i1 x2 i2 bl. rewrite !HB. apply G.
    + intros x1 i1 j1 x2 i2 j2 pl. rewrite !HP. apply G.
  - eapply own_mono; [exact O|done..| | |].
    + intros x l. rewrite HR. by left.
    + intros x i l. rewrite HB. by left.
    + intros x i j l. rewrite HP. by left.
Qed.

(** [root := new(pageRoot); *root = *m.root0; m.root0 = root] *)
Lemma clone_root0 T h c l a :
  inv T h c -> cRoot0 c = Some l -> hRoots h !! l = Some a ->
  cloneStep T h c
    (mkHeap (hPages h) (hBuckets h) (<[hNext h := a]> (hRoots h)) (hMaps h) (hNext h + 1))
    (set_cRoot0 c (Some (hNext h)) true).
Proof.
  intros I Hl Ha. set (h1 := mkHeap _ _ _ _ _). set (c1 := set_cRoot0 c (Some (hNext h)) (root0Cloned c)).
  destruct (alloc_ok T h c h1 I eq_refl) as (I1 & A1 & D1 & R1 & B1 & P1).
  { intros l' Hl'. simpl. by rewrite lookup_insert_ne. }
  destruct (unreached _ _ _ I) as (U1 & U2 & _ & _).
  assert (HT : T <= hNext h) by apply I.
  assert (HRl : rootLoc h1 c 0 = Some l) by done.
  destruct (g_root _ _ (i_good _ _ _ I) 0 l Hl) as (a' & Ha' & Hlen).
  rewrite Ha in Ha'. injection Ha' as <-.
  destruct (set_root_ptr T h1 c h1 c1 0 (Some (hNext h))) as (I2 & B2 & P2); try done.
  - apply I1.
  - apply I1.
  - apply I1.
  - intros x. unfold rootLoc. simpl. destruct (N.eqb_spec x 0) as [->|]; [done|].
    by rewrite decide_False.
  - intros l0 [= <-]. split_and!; [done|intros x; rewrite R1; apply U2|].
    exists a. split_and!; [simpl; by rewrite lookup_insert_eq|done|].
    intros k. rewrite B1. unfold bucketLoc, rootLoc. simpl. rewrite Hl. simpl. by rewrite Ha.
  - by left.
  - assert (I3 : inv T h1 (set_cRoot0 c (Some (hNext h)) true)).
    { apply (flag_root0 T h1 c1); [done|]. intros l0 [= <-]. done. }
    split_and!; [done|done|].
    rewrite <- D1. apply denote_same; try done; try apply I1; try apply I3.
      * intros x. unfold rootLoc. simpl. destruct (x =? 0); [|done]. rewrite Hl. done.
      * intros. rewrite <- B2. done.
      * intros. rewrite <- P2. done.
Qed.

(** [m.roots = maps.Clone(m.roots); m.rootsCloned = true] *)
Lemma clone_map T h c ml rs :
  inv T h c -> rootsCloned c = false -> cRoots c = Some ml -> hMaps h !! ml = Some rs ->
  cloneStep T h c
    (mkHeap (hPages h) (hBuckets h) (hRoots h) (<[hNext h := rs]> (hMaps h)) (hNext h + 1))
    (set_cRoots c (Some (hNext h)) true).
Proof.
  intros I Hf Hl Hrs. set (h1 := mkHeap _ _ _ _ _).
  set (c1 := set_cRoots c (Some (hNext h)) (rootsCloned c)).
  destruct (alloc_ok T h c h1 I eq_refl) as (I1 & A1 & D1 & R1 & B1 & P1).
  { intros l' Hl'. simpl. by rewrite lookup_insert_ne. }
  assert (HT : T <= hNext h) by apply I.
  destruct (g_map _ _ (i_good _ _ _ I) _ Hl) as (rs' & Hrs' & H0'). rewrite Hrs in Hrs'.
  injection Hrs' as <-.
  assert (HR : forall x, rootLoc h1 c1 x = rootLoc h1 c x).
  { intros x. rewrite R1. unfold rootLoc. simpl. destruct (x =? 0); [done|]. rewrite Hl. simpl.
    by rewrite lookup_insert_eq, Hrs. }
  assert (I2 : inv T h1 c1).
  { apply (set_map_ptr T h1 c); try done; try apply I1.
    - intros ml' [= <-]. simpl. rewrite lookup_insert_eq. eauto.
    - intros l [= <-]. by right. }
  assert (I3 : inv T h1 (set_cRoots c (Some (hNext h)) true)).
  { apply (flag_roots T h1 c1); [done|done|]. intros l0 [= <-]. done. }
  split_and!; [done|done|]. rewrite <- D1.
  assert (HB : forall x i, bucketLoc h1 c1 x i = bucketLoc h1 c x i).
  { intros. unfold bucketLoc. by rewrite HR. }
  assert (HP : forall x i j, pageLoc h1 c1 x i j = pageLoc h1 c x i j).
  { intros. unfold pageLoc. by rewrite HB. }
  apply denote_same; try done; try apply I1; try apply I3.
  - intros x. rewrite <- HR. done.
  - intros. rewrite <- HB. done.
  - intros. rewrite <- HP. done.
  - simpl. by rewrite Hl.
Qed.

(** [root := new(pageRoot); *root = *m.roots[high]; m.roots[high] = root] *)
Lemma clone_high T h c high ml rs l a :
  inv T h c -> rootsCloned c = true -> high <> 0 ->
  cRoots c = Some ml -> hMaps h !! ml = Some rs -> rs !! high = Some l -> hRoots h !! l = Some a ->
  cloneStep T h c
    (mkHeap (hPages h) (hBuckets h) (<[hNext h := a]> (hRoots h))
       (<[ml := <[high := hNext h]> rs]> (hMaps h)) (hNext h + 1))
    (markCloned c high pagedMapClonedRoot).
Proof.
  intros I Hf Hh Hl Hrs Hlk Ha. set (h2 := mkHeap _ _ _ _ _).
  set (h1 := mkHeap (hPages h) (hBuckets h) (<[hNext h := a]> (hRoots h)) (hMaps h) (hNext h + 1)).
  destruct (alloc_ok T h c h1 I eq_refl) as (I1 & A1 & D1 & R1 & B1 & P1).
  { intros l' Hl'. simpl. by rewrite lookup_insert_ne. }
  destruct (unreached _ _ _ I) as (U1 & U2 & _ & _).
  assert (HT : T <= hNext h) by apply I.
  assert (HTm : T <= ml) by (by eapply (o_map T h c); [apply I|..]).
  assert (Hml : ml < hNext h) by (eapply (b_map _ h c); [apply reach_lt; apply I|done]).
  assert (HRl : rootLoc h c high = Some l).
  { unfold rootLoc. destruct (N.eqb_spec high 0); [done|]. rewrite Hl. simpl. by rewrite Hrs. }
  destruct (g_root _ _ (i_good _ _ _ I) _ _ HRl) as (a' & Ha' & Hlen).
  rewrite Ha in Ha'. injection Ha' as <-.
  destruct (g_map _ _ (i_good _ _ _ I) _ Hl) as (rs' & Hrs' & H0'). rewrite Hrs in Hrs'.
  injection Hrs' as <-.
  assert (HR : forall x, rootLoc h2 c x = if decide (x = high) then Some (hNext h) else rootLoc h1 c x).
  { intros x. unfold rootLoc. destruct (N.eqb_spec x 0) as [->|]; [by rewrite decide_False|].
    rewrite Hl. simpl. rewrite lookup_insert_eq, Hrs. simpl. case_decide as E.
    - subst. by rewrite lookup_insert_eq.
    - by rewrite lookup_insert_ne. }
  destruct (set_root_ptr T h1 c h2 c high (Some (hNext h))) as (I2 & B2 & P2); try done.
  - intros l' Hl'. simpl in *. rewrite !lookup_insert_ne by lia.
    apply (i_fresh _ _ _ I). lia.
  - apply I1.
  - rewrite Hl. intros ? [= <-]. simpl. rewrite lookup_insert_eq. eexists. split; [done|].
    by rewrite lookup_insert_ne.
  - intros l0 [= <-]. split_and!; [done|intros x; rewrite R1; apply U2|].
    exists a. split_and!; [simpl; by rewrite lookup_insert_eq|done|].
    intros k. rewrite B1. unfold bucketLoc. rewrite HRl. simpl. by rewrite Ha.
  - by left.
  - assert (D2 : denote h2 c = denote h c).
    { rewrite <- D1. apply denote_same; try done; try apply I1; try apply I2.
      - intros x. rewrite HR. case_decide; [subst|done]. by rewrite R1, HRl.
      - intros. rewrite <- B2. done.
      - intros. rewrite P2. done. }
    split_and!; [|intros l' Hl'; simpl; rewrite !lookup_insert_ne by lia; done|done].
    apply mark_root; [done..|]. intros l0. rewrite HR, decide_True by done. by intros [= <-].
Qed.

Lemma denote_mark h c k f : denote h (markCloned c k f) = denote h c.
Proof. done. Qed.

Lemma cloneRootStep_ok T h c high :
  inv T h c ->
  exists h' c', cloneRootStep c high h = Some (c', h') /\ cloneStep T h c h' c' /\
                rootOwned c' high.
Proof.
  intros I. unfold cloneRootStep. destruct (N.eqb_spec high 0) as [->|Hh]; simpl.
  - destruct (root0Cloned c) eqn:Hf; simpl; [by eexists _, _|].
    destruct (cRoot0 c) as [l|] eqn:Hl.
    + destruct (g_root _ _ (i_good _ _ _ I) 0 l Hl) as (a & Ha & _).
      unfold hbind, loadRoot. rewrite Ha. simpl. eexists _, _. split; [done|].
      split; [by eapply clone_root0|done].
    + eexists _, _. split; [done|]. split; [|done]. split_and!; [|done|].
      * rewrite <- Hl at 1. apply flag_root0; [done|]. by rewrite Hl.
      * unfold denote. simpl. by rewrite Hl.
  - assert (Hmap : exists h1 c1,
      (if rootsCloned c then hret c
       else match cRoots c with
            | None => hret (set_cRoots c None true)
            | Some l => hbind (loadMap l) (fun rs => hbind (alloc (fun l' => storeMapAt l' rs))
                          (fun l' => hret (set_cRoots c (Some l') true)))
            end) h = Some (c1, h1) /\ cloneStep T h c h1 c1 /\ rootsCloned c1 = true).
    { destruct (rootsCloned c) eqn:Hf; [by eexists _, _|].
      destruct (cRoots c) as [ml|] eqn:Hl.
      - destruct (g_map _ _ (i_good _ _ _ I) _ Hl) as (rs & Hrs & _).
        unfold hbind, loadMap. rewrite Hrs. simpl. eexists _, _. split; [done|].
        split; [by eapply clone_map|done].
      - eexists _, _. split; [done|]. split; [|done]. split_and!; [|done|].
        + rewrite <- Hl at 1. apply flag_roots; [done..|]. by rewrite Hl.
        + unfold denote. simpl. by rewrite Hl. }
    destruct Hmap as (h1 & c1 & E & S1 & Hrc). unfold hbind at 1. rewrite E. clear E.
    pose proof S1 as (I1 & _ & _).
    destruct (isCloned c1 high pagedMapClonedRoot) eqn:Hc.
    + eexists _, _. split; [done|]. split; [done|]. unfold rootOwned.
      by destruct (N.eqb_spec high 0).
    + assert (Hown : rootOwned (markCloned c1 high pagedMapClonedRoot) high).
      { unfold rootOwned. destruct (N.eqb_spec high 0); [done|]. split; [done|].
        rewrite isCloned_mark, N.eqb_refl. by rewrite orb_true_r. }
      assert (Hnone : rootLoc h1 c1 high = None ->
                cloneStep T h1 c1 h1 (markCloned c1 high pagedMapClonedRoot)).
      { intros Hn. split_and!; [|done|done]. apply mark_root; [done..|]. by rewrite Hn. }
      assert (HRl : rootLoc h1 c1 high = ml ← cRoots c1; rs ← hMaps h1 !! ml; rs !! high).
      { unfold rootLoc. by destruct (N.eqb_spec high 0). }
      destruct (cRoots c1) as [ml|] eqn:Hl.
      2:{ eexists _, _. split; [done|]. split; [|done]. eapply cloneStep_trans; [exact S1|].
          by apply Hnone. }
      destruct (g_map _ _ (i_good _ _ _ I1) _ Hl) as (rs & Hrs & _).
      simpl in HRl. rewrite Hrs in HRl. simpl in HRl.
      unfold hbind, loadMap. rewrite Hrs. simpl.
      destruct (rs !! high) as [l|] eqn:Hlk.
      2:{ eexists _, _. split; [done|]. split; [|done]. eapply cloneStep_trans; [exact S1|].
          by apply Hnone. }
      destruct (g_root _ _ (i_good _ _ _ I1) _ _ HRl) as (a & Ha & _).
      unfold loadRoot. rewrite Ha. simpl. eexists _, _. split; [done|]. split; [|done].
      eapply cloneStep_trans; [exact S1|]. by eapply clone_high.
Qed.

Lemma cloneBucketStep_ok T h c high i rl :
  inv T h c -> rootOwned c high -> rootLoc h c high = Some rl -> high < 2 ^ 44 -> i < 128 ->
  exists h' c', cloneBucketStep c high i rl h = Some (c', h') /\ cloneStep T h c h' c' /\
    rootOwned c' high /\ rootLoc h' c' high = Some rl /\
    forall l, bucketLoc h' c' high i = Some l -> T <= l.
Proof.
  intros I Hown HRl Hh Hi. unfold cloneBucketStep.
  destruct (isCloned c (bucketKey high i) pagedMapClonedBucket) eqn:Hc.
  { eexists _, _. split; [done|]. split_and!; try done.
    by apply (o_bucket _ _ _ (i_own _ _ _ I) high i). }
  destruct (g_root _ _ (i_good _ _ _ I) _ _ HRl) as (a & Ha & _).
  assert (HBl : bucketLoc h c high i = idx a i).
  { unfold bucketLoc. rewrite HRl. simpl. by rewrite Ha. }
  unfold hbind at 1, loadRoot. rewrite Ha. simpl. unfold hbind at 1.
  destruct (idx a i) as [bl|] eqn:Hb.
  2:{ eexists _, _. split; [done|]. split; [split_and!; [|done|done]|split_and!; [|done|]].
      - by apply mark_bucket; [..|rewrite HBl].
      - by apply rootOwned_mark.
      - intros l Hl. change (bucketLoc h c high i = Some l) in Hl. congruence. }
  destruct (g_bucket _ _ (i_good _ _ _ I) _ _ _ HBl) as (b & Hb' & Hlen).
  unfold hbind, loadBucket. rewrite Hb'. simpl.
  set (h1 := mkHeap (hPages h) (<[hNext h := b]> (hBuckets h)) (hRoots h) (hMaps h) (hNext h + 1)).
  destruct (alloc_ok T h c h1 I eq_refl) as (I1 & A1 & D1 & R1 & B1 & P1).
  { intros l' Hl'. simpl. by rewrite lookup_insert_ne. }
  destruct (unreached _ _ _ I) as (_ & _ & U3 & _). assert (HT : T <= hNext h) by apply I.
  set (h2 := mkHeap (hPages h1) (hBuckets h1) (<[rl := upd a i (Some (hNext h))]> (hRoots h1))
               (hMaps h1) (hNext h1)).
  destruct (set_bucket_ptr T h1 c high i rl a (Some (hNext h)) h2) as (I2 & A2 & R2 & B2 & P2);
    [done|by rewrite R1|done|by eapply owned_root; [apply I|..]|done|done| |done|].
  { intros l [= <-]. split_and!; [done|intros; rewrite B1; apply U3|]. exists b.
    split_and!; [simpl; by rewrite lookup_insert_eq|done|]. intros j. rewrite P1. unfold pageLoc.
    rewrite HBl. simpl. by rewrite Hb'. }
  exists h2. eexists. split; [done|].
  assert (D2 : denote h2 c = denote h c).
  { rewrite <- D1. apply denote_same; try done; try apply I1; try apply I2.
    - intros. rewrite B2. case_decide as E; [injection E as -> ->|done]. by rewrite B1, HBl.
    - intros. rewrite P2. done. }
  assert (HT2 : forall l, bucketLoc h2 c high i = Some l -> T <= l).
  { intros l. rewrite B2, decide_True by done. by intros [= <-]. }
  split; [split_and!; [by apply mark_bucket|by eapply agree_trans|done]|].
  split_and!; [by apply rootOwned_mark| |exact HT2]. rewrite root_mark. by rewrite R2, R1.
Qed.

Lemma clonePageStep_ok T h c high i j rl :
  inv T h c -> rootLoc h c high = Some rl -> i < 128 -> j < 128 ->
  (forall l, bucketLoc h c high i = Some l -> T <= l) ->
  exists h', clonePageStep i j rl h = Some (tt, h') /\ cloneStep T h c h' c /\
    (forall x k, bucketLoc h' c x k = bucketLoc h c x k) /\
    (forall l, pageLoc h' c high i j = Some l -> T <= l).
Proof.
  intros I HRl Hi Hj HTb. unfold clonePageStep.
  destruct (g_root _ _ (i_good _ _ _ I) _ _ HRl) as (a & Ha & _).
  assert (HBl : bucketLoc h c high i = idx a i).
  { unfold bucketLoc. rewrite HRl. simpl. by rewrite Ha. }
  unfold hbind at 1, loadRoot. rewrite Ha. simpl.
  destruct (idx a i) as [bl|] eqn:Hb.
  2:{ eexists. split; [done|]. split; [done|]. split; [done|]. intros l.
      unfold pageLoc. by rewrite HBl. }
  destruct (g_bucket _ _ (i_good _ _ _ I) _ _ _ HBl) as (b & Hb' & Hlen).
  assert (HPl : pageLoc h c high i j = idx b j).
  { unfold pageLoc. rewrite HBl. simpl. by rewrite Hb'. }
  unfold hbind at 1, loadBucket. rewrite Hb'. simpl.
  destruct (idx b j) as [pl|] eqn:Hp.
  2:{ eexists. split; [done|]. split; [done|]. split; [done|]. intros l. by rewrite HPl. }
  destruct (g_page _ _ (i_good _ _ _ I) _ _ _ _ HPl) as (pg & Hpg).
  unfold hbind, loadPage. rewrite Hpg. simpl.
  set (h1 := mkHeap (<[hNext h := pg]> (hPages h)) (hBuckets h) (hRoots h) (hMaps h) (hNext h + 1)).
  destruct (alloc_ok T h c h1 I eq_refl) as (I1 & A1 & D1 & R1 & B1 & P1).
  { intros l' Hl'. simpl. by rewrite lookup_insert_ne. }
  destruct (unreached _ _ _ I) as (_ & _ & _ & U4). assert (HT : T <= hNext h) by apply I.
  set (h2 := mkHeap (hPages h1) (<[bl := upd b j (Some (hNext h))]> (hBuckets h1)) (hRoots h1)
               (hMaps h1) (hNext h1)).
  destruct (set_page_ptr T h1 c high i j bl b (Some (hNext h)) h2) as (I2 & A2 & R2 & B2 & P2);
    [done|by rewrite B1|done|by apply HTb|done|done| |].
  { intros l [= <-]. split_and!; [done|intros; rewrite P1; apply U4|]. simpl.
    by rewrite lookup_insert_eq. }
  exists h2. split; [done|].
  split; [split_and!; [done|by eapply agree_trans|]|].
  - rewrite <- D1. apply denote_same; try done; try apply I1; try apply I2.
    + intros x k y. rewrite P2. case_decide as E; [injection E as -> -> ->|done].
      rewrite P1, HPl. simpl. rewrite lookup_insert_eq, lookup_insert_ne; [done|].
      intros E. rewrite <- E in HPl. by apply U4 in HPl.
  - split; [intros; by rewrite B2, B1|]. intros l. rewrite P2, decide_True by done.
    by intros [= <-].
Qed.

(** [pageByKey] and [root] read the paths. *)
Lemma rootH_run h c high : good h c -> rootH c high h = Some (rootLoc h c high, h).
Proof.
  intros G. unfold rootH, rootLoc. destruct (high =? 0); [done|].
  destruct (cRoots c) as [ml|] eqn:E; [|done]. destruct (g_map _ _ G _ E) as (rs & Hrs & _).
  unfold hbind, loadMap. rewrite Hrs. simpl. by rewrite Hrs.
Qed.

Lemma pageByKeyH_run h c key high i j :
  good h c -> pageIndexes key = (high, i, j) ->
  pageByKeyH c key h = Some (pageLoc h c high i j, h).
Proof.
  intros G Hk. unfold pageByKeyH. rewrite Hk. unfold hbind at 1. rewrite rootH_run by done.
  unfold pageLoc, bucketLoc. destruct (rootLoc h c high) as [rl|] eqn:Er; [|done]. simpl.
  destruct (g_root _ _ G _ _ Er) as (a & Ha & _). unfold hbind at 1, loadRoot. rewrite Ha. simpl.
  destruct (idx a i) as [bl|] eqn:Eb; [|done]. simpl.
  destruct (g_bucket _ _ G high i bl) as (b & Hb & _).
  { unfold bucketLoc. rewrite Er. simpl. by rewrite Ha. }
  unfold hbind, loadBucket. rewrite Hb. simpl. done.
Qed.

(** The path of [key] is private. *)
Definition writable (T : loc) h c (key : N) : Prop :=
  let '(high, i, j) := pageIndexes key in
  rootOwned c high /\ (forall l, bucketLoc h c high i = Some l -> T <= l) /\
  (forall l, pageLoc h c high i j = Some l -> T <= l).

Lemma key_high key high i j : key < 2 ^ 58 -> pageIndexes key = (high, i, j) -> high < 2 ^ 44.
Proof. rewrite pageIndexes_eq. intros Hk [= <- _ _]. by apply key_high_bound. Qed.

(** [CloneShardOnce] never dereferences nil, keeps the content of the map, writes to
    no object older than the fork, and leaves the path of the ID private. *)
Lemma CloneShardOnceH_ok T h c id :
  inv T h c -> id < 2 ^ 64 ->
  exists h' c', CloneShardOnceH c id h = Some (c', h') /\ cloneStep T h c h' c' /\
                writable T h' c' (N.shiftr id 6).
Proof.
  intros I Hid%id_key_bound. unfold CloneShardOnceH, writable. set (key := N.shiftr id 6) in *.
  destruct (pageIndexes key) as [[high i] j] eqn:Hk.
  pose proof (pageIndexes_bound _ _ _ _ Hk) as [Hi Hj]. pose proof (key_high _ _ _ _ Hid Hk) as Hh.
  unfold hbind at 1. rewrite (pageByKeyH_run _ _ _ _ _ _ (i_good _ _ _ I) Hk).
  assert (Hclone : exists h' c', hbind (cloneRootStep c high) (fun c => hbind (rootH c high) (fun r =>
      hbind match r with
            | None => hret c
            | Some rl => hbind (cloneBucketStep c high i rl) (fun c =>
                           hbind (clonePageStep i j rl) (fun _ => hret c))
            end (fun c => hret (markCloned c key pagedMapClonedPage)))) h = Some (c', h') /\
      cloneStep T h c h' c' /\ rootOwned c' high /\
      (forall l, bucketLoc h' c' high i = Some l -> T <= l) /\
      (forall l, pageLoc h' c' high i j = Some l -> T <= l)).
  { destruct (cloneRootStep_ok T h c high I) as (h1 & c1 & E1 & S1 & Ho1).
    unfold hbind at 1. rewrite E1. pose proof S1 as (I1 & A1 & D1).
    unfold hbind at 1. rewrite rootH_run by apply I1.
    destruct (rootLoc h1 c1 high) as [rl|] eqn:HRl.
    - destruct (cloneBucketStep_ok T h1 c1 high i rl) as (h2 & c2 & E2 & S2 & Ho2 & R2 & B2); [done..|].
      pose proof S2 as (I2 & _).
      destruct (clonePageStep_ok T h2 c2 high i j rl) as (h3 & E3 & S3 & B3 & P3); [done..|].
      pose proof S3 as (I3 & _).
      unfold hbind. rewrite E2, E3. eexists _, _. split; [done|].
      assert (B3' : forall l, bucketLoc h3 c2 high i = Some l -> T <= l) by (intros l; rewrite B3; apply B2).
      split; [|split_and!; [by apply rootOwned_mark|done|done]].
      eapply cloneStep_trans; [exact S1|]. eapply cloneStep_trans; [exact S2|].
      eapply cloneStep_trans; [exact S3|]. split_and!; [by eapply mark_page|done|done].
    - eexists _, _. split; [done|].
      assert (B1 : forall l, bucketLoc h1 c1 high i = Some l -> T <= l).
      { intros l. unfold bucketLoc. by rewrite HRl. }
      assert (P1 : forall l, pageLoc h1 c1 high i j = Some l -> T <= l).
      { intros l. unfold pageLoc, bucketLoc. by rewrite HRl. }
      split; [|split_and!; [by apply rootOwned_mark|done|done]].
      eapply cloneStep_trans; [exact S1|]. split_and!; [by eapply mark_page|done|done]. }
  destruct (isCloned c key pagedMapClonedPage) eqn:Hc; simpl; [|exact Hclone].
  destruct (bool_decide _); [|exact Hclone].
  eexists _, _. split; [done|]. split; [done|]. by apply (o_page _ _ _ (i_own _ _ _ I) key).
Qed.

End cow.
