(* ===== verification/PagedCowOps.v ===== *)
(** * Set and Delete on a forked paged map

    After [CloneShardOnce] the path of an ID is private; [Set] and [Delete] then
    write only to private objects, do not panic, and the handle denotes what the
    value-level operations say. *)
From S2P Require Import Prelude.
From S2P Require Import Bits.
From S2P Require Import PagedMap.
From S2P Require Import PagedMapSpec.
From S2P Require Import PagedMapIter.
From S2P Require Import PagedHeap.
From S2P Require Import PagedCow.

Section ops.
Context {V : Type} `{MapOrder (pageRoot V)} (zero : V).
Implicit Types (m : PagedMap V) (h : heap V) (c p : handle).

(** ** Set *)

(** The value-level tree after a page is put at [high, i, j]. *)
Definition link m (high i j : N) (pg : valuePage V) : PagedMap V :=
  let r := default newRoot (root m high) in
  let b := default newBucket (idx r i) in
  putRoot m high (upd r i (Some (upd b j (Some pg)))).

Lemma bucketAt_link m high i j pg x k :
  shaped m -> i < 128 ->
  bucketAt (link m high i j pg) x k =
  if decide ((x, k) = (high, i))
  then Some (upd (default newBucket (bucketAt m high i)) j (Some pg)) else bucketAt m x k.
Proof.
  intros (Lr & _ & _) Hi. unfold bucketAt, link. rewrite root_putRoot.
  destruct (N.eqb_spec x high) as [->|Hx]; [|by rewrite decide_False by congruence]. simpl.
  assert (Hlen : length (default newRoot (root m high)) = 128%nat).
  { destruct (root m high) eqn:E; [by eapply Lr|done]. }
  destruct (decide ((high, k) = (high, i))) as [[= ->]|Hk].
  - rewrite idx_upd_eq by lia. destruct (root m high); simpl; [done|]. by rewrite idx_newRoot.
  - rewrite idx_upd_ne by congruence. destruct (root m high); simpl; [done|]. apply idx_newRoot.
Qed.

Lemma length_bucketAt m high i :
  shaped m -> length (default newBucket (bucketAt m high i)) = 128%nat.
Proof. intros (_ & Lb & _). destruct (bucketAt m high i) eqn:E; [by eapply Lb|done]. Qed.

Lemma pageAt_link m high i j pg x k y :
  shaped m -> i < 128 -> j < 128 ->
  pageAt (link m high i j pg) x k y =
  if decide ((x, k, y) = (high, i, j)) then Some pg else pageAt m x k y.
Proof.
  intros Hs Hi Hj. unfold pageAt. rewrite bucketAt_link by done.
  pose proof (length_bucketAt m high i Hs) as Hlen.
  destruct (decide ((x, k) = (high, i))) as [[= -> ->]|Hx].
  2:{ by rewrite decide_False by congruence. }
  simpl. destruct (decide ((high, i, y) = (high, i, j))) as [[= ->]|Hy].
  - by rewrite idx_upd_eq by lia.
  - rewrite idx_upd_ne by congruence.
    destruct (bucketAt m high i); simpl; [done|]. apply idx_newBucket.
Qed.

Lemma shaped_link m high i j pg : shaped m -> i < 128 -> j < 128 -> shaped (link m high i j pg).
Proof.
  intros Hs Hi Hj. pose proof Hs as (Lr & Lb & Hz). split_and!.
  - intros x r. unfold link. rewrite root_putRoot. destruct (N.eqb_spec x high) as [->|]; [|apply Lr].
    intros [= <-]. rewrite length_upd. destruct (root m high) eqn:E; [by eapply Lr|done].
  - intros x k b. rewrite bucketAt_link by done. case_decide; [|apply Lb]. intros [= <-].
    rewrite length_upd. by apply length_bucketAt.
  - intros rs. unfold link, putRoot. destruct (N.eqb_spec high 0); [apply Hz|]. simpl.
    intros [= <-]. rewrite lookup_insert_ne by done. destruct (roots m) eqn:E; [by apply Hz|done].
Qed.

(** A handle whose paths gained the page at [high, i, j] denotes the linked tree. *)
Lemma denote_link h c h' c' high i j pl pg :
  good h c -> good h' c' -> i < 128 -> j < 128 ->
  (forall x, is_Some (rootLoc h' c' x) <-> x = high \/ is_Some (rootLoc h c x)) ->
  (forall x k, is_Some (bucketLoc h' c' x k) <-> (x, k) = (high, i) \/ is_Some (bucketLoc h c x k)) ->
  (forall x k y, pageLoc h' c' x k y =
     if decide ((x, k, y) = (high, i, j)) then Some pl else pageLoc h c x k y) ->
  hPages h' !! pl = Some pg ->
  (forall x k y l, (x, k, y) <> (high, i, j) -> pageLoc h c x k y = Some l ->
     hPages h' !! l = hPages h !! l) ->
  (cRoots c' = None <-> cRoots c = None /\ high = 0) ->
  denote h' c' =
  set_active (set_len (link (denote h c) high i j pg) (cLen c')) (cActive c') (cActiveLen c').
Proof.
  intros G G' Hi Hj HR HB HP Hpg Hsame Hn. pose proof (shaped_denote _ _ G) as Hs.
  pose proof (shaped_link _ high i j pg Hs Hi Hj) as Hs'.
  apply pm_ext; [by apply shaped_denote|done| | | | |done|done|done].
  - intros x. rewrite root_denote, fmap_is_Some, HR by done.
    change (root (set_active _ _ _) x) with (root (link (denote h c) high i j pg) x).
    unfold link. rewrite root_putRoot.
    destruct (N.eqb_spec x high) as [->|]; [naive_solver|].
    rewrite root_denote, fmap_is_Some by done. naive_solver.
  - intros x k. rewrite bucketAt_denote, fmap_is_Some, HB by done.
    change (bucketAt (set_active _ _ _) x k) with (bucketAt (link (denote h c) high i j pg) x k).
    rewrite bucketAt_link by done.
    case_decide; [naive_solver|]. rewrite bucketAt_denote, fmap_is_Some by done. naive_solver.
  - intros x k y. rewrite pageAt_denote, HP by done.
    change (pageAt (set_active _ _ _) x k y) with (pageAt (link (denote h c) high i j pg) x k y).
    rewrite pageAt_link, pageAt_denote by done. case_decide; simpl; [done|].
    destruct (pageLoc h c x k y) as [l|] eqn:E; [|done]. simpl. by eapply Hsame.
  - simpl. rewrite fmap_None, Hn. unfold link, putRoot. destruct (N.eqb_spec high 0); simpl.
    + rewrite fmap_None. naive_solver.
    + split; [naive_solver|done].
Qed.

(** The root of a writable key exists and is private afterwards; nothing else moves. *)
Lemma ensureRootH_ok T h c high :
  inv T h c -> rootOwned c high ->
  exists h1 c1 rl, ensureRootH c high h = Some ((c1, rl), h1) /\ inv T h1 c1 /\ agree T h h1 /\
    (forall x, rootLoc h1 c1 x = if decide (x = high) then Some rl else rootLoc h c x) /\
    (forall x k, bucketLoc h1 c1 x k = bucketLoc h c x k) /\
    (forall x k y, pageLoc h1 c1 x k y = pageLoc h c x k y) /\
    hPages h1 = hPages h /\ (cRoots c1 = None <-> cRoots c = None /\ high = 0) /\
    rootOwned c1 high /\
    cLen c1 = cLen c /\ cActive c1 = cActive c /\ cActiveLen c1 = cActiveLen c.
Proof.
  intros I Hown. unfold ensureRootH. unfold hbind at 1. rewrite rootH_run by apply I.
  destruct (rootLoc h c high) as [rl|] eqn:HRl.
  { eexists h, c, rl. split; [done|]. split_and!; try done.
    - intros x. by case_decide; subst.
    - split; [|naive_solver]. intros Hn. split; [done|]. unfold rootLoc in HRl.
      destruct (N.eqb_spec high 0); [done|]. by rewrite Hn in HRl. }
  set (h1 := mkHeap (hPages h) (hBuckets h) (<[hNext h := replicate 128 None]> (hRoots h))
               (hMaps h) (hNext h + 1)).
  destruct (alloc_ok T h c h1 I eq_refl) as (I1 & A1 & D1 & R1 & B1 & P1).
  { intros l' Hl'. simpl. by rewrite lookup_insert_ne. }
  destruct (unreached _ _ _ I) as (U1 & U2 & _ & _). assert (HT : T <= hNext h) by apply I.
  assert (HBnone : forall k, bucketLoc h c high k = None) by (intros; unfold bucketLoc; by rewrite HRl).
  assert (Hnew : forall l, Some (hNext h) = Some l -> T <= l /\ (forall x, rootLoc h1 c x <> Some l) /\
     exists a, hRoots h1 !! l = Some a /\ length a = 128%nat /\
               forall i, idx a i = bucketLoc h1 c high i).
  { intros l [= <-]. split_and!; [done|intros x; rewrite R1; apply U2|]. eexists.
    split; [apply lookup_insert_eq|]. split; [done|]. intros k.
    rewrite B1, HBnone. apply idx_replicate. }
  unfold hbind at 1, alloc at 1, storeRootAt at 1.
  cbn [hPages hBuckets hRoots hMaps hNext]. fold h1.
  destruct (N.eqb_spec high 0) as [->|Hh].
  - set (c1 := set_cRoot0 c (Some (hNext h)) (root0Cloned c)).
    assert (HR : forall x, rootLoc h1 c1 x = if decide (x = 0) then Some (hNext h) else rootLoc h1 c x).
    { intros x. unfold rootLoc. simpl. destruct (N.eqb_spec x 0) as [->|]; [done|].
      by rewrite decide_False. }
    destruct (set_root_ptr T h1 c h1 c1 0 (Some (hNext h))) as (I2 & B2 & P2); try done; try apply I1;
      [by left|].
    exists h1, c1, (hNext h). split_and!; try done.
    + intros. by rewrite B2, B1.
    + intros. by rewrite P2, P1.
    + naive_solver.
  - assert (Hmap : exists h2 ml, match cRoots c with
                     | Some ml => hret ml
                     | None => alloc (fun l => storeMapAt l ∅)
                     end h1 = Some (ml, h2) /\ T <= ml /\ ml < hNext h2 /\ T <= hNext h2 /\ fresh h2 /\
                     hPages h2 = hPages h /\ hBuckets h2 = hBuckets h /\ hRoots h2 = hRoots h1 /\
                     agree T h h2 /\ exists rs, hMaps h2 !! ml = Some rs /\ rs !! 0 = None /\
                       (forall x, x <> 0 -> rs !! x = rootLoc h c x) /\
                       (forall ml', cRoots c = Some ml' -> ml' = ml)).
    { destruct (cRoots c) as [ml|] eqn:Hml.
      - exists h1, ml. split; [done|].
        assert (Hlt : ml < hNext h) by (eapply (b_map _ h c); [apply reach_lt; apply I|done]).
        split_and!; try done; [| |apply (i_next _ _ _ I1)|apply (i_fresh _ _ _ I1)|].
        + unfold rootOwned in Hown. destruct (N.eqb_spec high 0); [done|].
          exact (o_map _ _ _ (i_own _ _ _ I) (proj1 Hown) ml Hml).
        + simpl. lia.
        + destruct (g_map _ _ (i_good _ _ _ I) _ Hml) as (rs & Hrs & Hz). exists rs.
          split_and!; [done|done| |naive_solver]. intros x Hx. unfold rootLoc.
          destruct (N.eqb_spec x 0); [done|]. rewrite Hml. simpl. by rewrite Hrs.
      - exists (mkHeap (hPages h1) (hBuckets h1) (hRoots h1) (<[hNext h1 := ∅]> (hMaps h1)) (hNext h1 + 1)),
          (hNext h1). split; [done|].
        assert (HT1 : T <= hNext h1) by (simpl; lia).
        split_and!; try done; simpl; try lia.
        + intros l Hl. simpl in *. rewrite !lookup_insert_ne by lia. apply (i_fresh _ _ _ I). lia.
        + intros l Hl. simpl. rewrite !lookup_insert_ne by lia. done.
        + exists ∅. rewrite lookup_insert_eq. split_and!; [done|done| |done].
          intros x Hx. unfold rootLoc. destruct (N.eqb_spec x 0); [done|]. by rewrite Hml. }
    destruct Hmap as (h2 & ml & E & HTm & Hlt & HT2 & F2 & Ep & Eb & Er & A2 & rs & Hrs & Hz & Hx & Hml).
    unfold hbind at 1. rewrite E. unfold hbind, loadMap. rewrite Hrs. simpl.
    set (c1 := set_cRoots c (Some ml) (rootsCloned c)).
    set (h3 := mkHeap (hPages h2) (hBuckets h2) (hRoots h2) (<[ml := <[high := hNext h]> rs]> (hMaps h2))
                 (hNext h2)).
    assert (HR : forall x, rootLoc h3 c1 x = if decide (x = high) then Some (hNext h) else rootLoc h1 c x).
    { intros x. rewrite R1. unfold rootLoc at 1. simpl.
      destruct (N.eqb_spec x 0) as [->|]; [by rewrite decide_False|].
      rewrite lookup_insert_eq. simpl. case_decide as Ex; [subst; by rewrite lookup_insert_eq|].
      rewrite lookup_insert_ne by done. by apply Hx. }
    destruct (set_root_ptr T h1 c h3 c1 high (Some (hNext h))) as (I3 & B3 & P3); try done.
    + intros l Hl. simpl in *. rewrite lookup_insert_ne by lia. by apply F2.
    + intros ml' [= <-]. simpl. rewrite lookup_insert_eq. eexists. split; [done|].
      by rewrite lookup_insert_ne.
    + simpl. intros l [= <-]. by right.
    + exists h3, c1, (hNext h). split_and!; try done.
      * eapply agree_trans; [exact A2|]. intros l Hl. simpl. rewrite lookup_insert_ne by lia. done.
      * intros. by rewrite B3, B1.
      * intros. by rewrite P3, P1.
      * simpl. naive_solver.
Qed.

(** [root[bucket]] exists and is private afterwards. *)
Lemma ensureBucketH_ok T h c high i rl :
  inv T h c -> rootLoc h c high = Some rl -> T <= rl -> i < 128 ->
  (forall l, bucketLoc h c high i = Some l -> T <= l) ->
  exists h1 bl, ensureBucketH rl i h = Some (bl, h1) /\ inv T h1 c /\ agree T h h1 /\ T <= bl /\
    (forall x, rootLoc h1 c x = rootLoc h c x) /\
    (forall x k, bucketLoc h1 c x k = if decide ((x, k) = (high, i)) then Some bl else bucketLoc h c x k) /\
    (forall x k y, pageLoc h1 c x k y = pageLoc h c x k y) /\ hPages h1 = hPages h.
Proof.
  intros I HRl HTr Hi HTb. unfold ensureBucketH.
  destruct (g_root _ _ (i_good _ _ _ I) _ _ HRl) as (a & Ha & _).
  assert (HBl : bucketLoc h c high i = idx a i).
  { unfold bucketLoc. rewrite HRl. simpl. by rewrite Ha. }
  unfold hbind at 1, loadRoot. rewrite Ha. cbn [mbind option_bind].
  destruct (idx a i) as [bl|] eqn:Hb.
  { exists h, bl. split; [done|]. split_and!; try done; [by apply HTb|].
    intros x k. case_decide as E; [injection E as -> ->|done]. done. }
  set (h1 := mkHeap (hPages h) (<[hNext h := replicate 128 None]> (hBuckets h)) (hRoots h) (hMaps h)
               (hNext h + 1)).
  destruct (alloc_ok T h c h1 I eq_refl) as (I1 & A1 & D1 & R1 & B1 & P1).
  { intros l' Hl'. simpl. by rewrite lookup_insert_ne. }
  destruct (unreached _ _ _ I) as (_ & _ & U3 & _). assert (HT : T <= hNext h) by apply I.
  set (h2 := mkHeap (hPages h1) (hBuckets h1) (<[rl := upd a i (Some (hNext h))]> (hRoots h1))
               (hMaps h1) (hNext h1)).
  destruct (set_bucket_ptr T h1 c high i rl a (Some (hNext h)) h2) as (I2 & A2 & R2 & B2 & P2);
    [done|by rewrite R1|done|done|done|done| |done|].
  { intros l [= <-]. split_and!; [done|intros; rewrite B1; apply U3|]. eexists.
    split; [apply lookup_insert_eq|]. split; [done|]. intros j. rewrite P1, idx_replicate.
    unfold pageLoc. by rewrite HBl. }
  exists h2, (hNext h). split; [done|]. split_and!; try done; [by eapply agree_trans|].
  intros. by rewrite P2.
Qed.

(** [bucket[shard]] exists and is private afterwards. *)
Lemma ensurePageH_ok T h c key high i j :
  inv T h c -> writable T h c key -> pageIndexes key = (high, i, j) ->
  exists h' c' pl, ensurePageH zero c key h = Some ((c', pl), h') /\ inv T h' c' /\ agree T h h' /\
    T <= pl /\
    (forall x, is_Some (rootLoc h' c' x) <-> x = high \/ is_Some (rootLoc h c x)) /\
    (forall x k, is_Some (bucketLoc h' c' x k) <-> (x, k) = (high, i) \/ is_Some (bucketLoc h c x k)) /\
    (forall x k y, pageLoc h' c' x k y =
       if decide ((x, k, y) = (high, i, j)) then Some pl else pageLoc h c x k y) /\
    (forall x k y l, pageLoc h c x k y = Some l -> hPages h' !! l = hPages h !! l) /\
    (cRoots c' = None <-> cRoots c = None /\ high = 0) /\ cLen c' = cLen c /\
    match pageLoc h c high i j with
    | Some pl0 => pl = pl0 /\ cActive c' = cActive c /\ cActiveLen c' = cActiveLen c
    | None => hPages h' !! pl = Some (newPage zero) /\
              cActive c' = cActive (addActiveH c key) /\ cActiveLen c' = cActiveLen (addActiveH c key)
    end.
Proof.
  intros I Hw Hk. unfold writable in Hw. rewrite Hk in Hw. destruct Hw as (Hown & HTb & HTp).
  pose proof (pageIndexes_bound _ _ _ _ Hk) as [Hi Hj]. unfold ensurePageH. rewrite Hk.
  destruct (ensureRootH_ok T h c high I Hown) as
    (h1 & c1 & rl & E1 & I1 & A1 & R1 & B1 & P1 & Hp1 & Hn1 & Hown1 & L1 & S1 & N1).
  unfold hbind at 1. rewrite E1.
  assert (HRl : rootLoc h1 c1 high = Some rl) by (by rewrite R1, decide_True).
  destruct (ensureBucketH_ok T h1 c1 high i rl) as (h2 & bl & E2 & I2 & A2 & HT2 & R2 & B2 & P2 & Hp2);
    [done|done|by eapply owned_root; [apply I1|..]|done|intros l; rewrite B1; apply HTb|].
  assert (HBl : bucketLoc h2 c1 high i = Some bl) by (by rewrite B2, decide_True).
  unfold hbind at 1. rewrite E2.
  destruct (g_bucket _ _ (i_good _ _ _ I2) _ _ _ HBl) as (b & Hb & _).
  assert (HPl : pageLoc h2 c1 high i j = idx b j).
  { unfold pageLoc. rewrite HBl. simpl. by rewrite Hb. }
  assert (HPl0 : pageLoc h c high i j = idx b j) by (by rewrite <- HPl, P2, P1).
  unfold hbind at 1, loadBucket. rewrite Hb. cbn [mbind option_bind].
  assert (HR : forall x, is_Some (rootLoc h2 c1 x) <-> x = high \/ is_Some (rootLoc h c x)).
  { intros x. rewrite R2, R1. case_decide; naive_solver. }
  assert (HB : forall x k, is_Some (bucketLoc h2 c1 x k) <->
                 (x, k) = (high, i) \/ is_Some (bucketLoc h c x k)).
  { intros x k. rewrite B2, B1. case_decide; naive_solver. }
  destruct (idx b j) as [pl|] eqn:Hp; rewrite HPl0.
  { exists h2, c1, pl. split; [done|].
    split; [done|]. split; [by eapply agree_trans|]. split; [by apply HTp|].
    split; [done|]. split; [done|]. split.
    { intros x k y. rewrite P2, P1. case_decide as E; [injection E as -> -> ->|]; done. }
    split; [intros; by rewrite Hp2, Hp1|]. done. }
  set (h3 := mkHeap (<[hNext h2 := newPage zero]> (hPages h2)) (hBuckets h2) (hRoots h2) (hMaps h2)
               (hNext h2 + 1)).
  destruct (alloc_ok T h2 c1 h3 I2 eq_refl) as (I3 & A3 & _ & R3 & B3 & P3).
  { intros l' Hl'. simpl. by rewrite lookup_insert_ne. }
  destruct (unreached _ _ _ I2) as (_ & _ & _ & U4). assert (HT : T <= hNext h2) by apply I2.
  set (h4 := mkHeap (hPages h3) (<[bl := upd b j (Some (hNext h2))]> (hBuckets h3)) (hRoots h3)
               (hMaps h3) (hNext h3)).
  destruct (set_page_ptr T h3 c1 high i j bl b (Some (hNext h2)) h4) as (I4 & A4 & R4 & B4 & P4);
    [done|by rewrite B3|done|done|done|done| |].
  { intros l [= <-]. split_and!; [done|intros; rewrite P3; apply U4|]. simpl.
    by rewrite lookup_insert_eq. }
  exists h4, (addActiveH c1 key), (hNext h2). split; [done|].
  assert (I5 : inv T h4 (addActiveH c1 key)).
  { unfold addActiveH. destruct (2 <=? cActiveLen c1); (apply (inv_own _ _ c1); [done..|]);
    (eapply own_mono; [apply I4|done..|by left|by left|by left|by left]). }
  assert (Hpaths : forall x k y, pageLoc h4 (addActiveH c1 key) x k y = pageLoc h4 c1 x k y /\
            bucketLoc h4 (addActiveH c1 key) x k = bucketLoc h4 c1 x k /\
            rootLoc h4 (addActiveH c1 key) x = rootLoc h4 c1 x /\
            cRoots (addActiveH c1 key) = cRoots c1 /\ cLen (addActiveH c1 key) = cLen c1).
  { unfold addActiveH. by destruct (2 <=? cActiveLen c1). }
  split; [done|]. split; [by do 3 (eapply agree_trans; [eassumption|])|]. split; [done|].
  split; [intros x; by rewrite (proj1 (proj2 (proj2 (Hpaths x 0 0)))), R4, R3|].
  split; [intros x k; by rewrite (proj1 (proj2 (Hpaths x k 0))), B4, B3|].
  split.
  { intros x k y. rewrite (proj1 (Hpaths x k y)), P4. case_decide; [done|]. by rewrite P3, P2, P1. }
  split.
  { intros x k y l Hl. simpl. rewrite lookup_insert_ne; [by rewrite Hp2, Hp1|]. intros <-.
    rewrite <- P1, <- P2 in Hl. by apply U4 in Hl. }
  destruct (Hpaths 0 0 0) as (_ & _ & _ & -> & ->). split; [done|]. split; [done|].
  split; [apply lookup_insert_eq|]. unfold addActiveH. rewrite N1, S1.
  by destruct (2 <=? cActiveLen c).
Qed.

(** [good] and [own] do not read the length or the active pages. *)
Lemma inv_frame T h c c' :
  inv T h c -> cRoot0 c' = cRoot0 c -> cRoots c' = cRoots c ->
  cloned c' = cloned c -> root0Cloned c' = root0Cloned c -> rootsCloned c' = rootsCloned c ->
  inv T h c' /\ (forall x, rootLoc h c' x = rootLoc h c x) /\
  (forall x k, bucketLoc h c' x k = bucketLoc h c x k) /\
  (forall x k y, pageLoc h c' x k y = pageLoc h c x k y).
Proof.
  intros I E0 E1 Ec Ef0 Ef1.
  assert (HR : forall x, rootLoc h c' x = rootLoc h c x)
    by (intros; unfold rootLoc; by rewrite E0, E1).
  assert (HB : forall x k, bucketLoc h c' x k = bucketLoc h c x k)
    by (intros; unfold bucketLoc; by rewrite HR).
  assert (HP : forall x k y, pageLoc h c' x k y = pageLoc h c x k y)
    by (intros; unfold pageLoc; by rewrite HB).
  split_and!; [|done..]. eapply inv_own; [exact I|done|done|].
  eapply own_mono; [apply I|done..| | | |].
  - intros l. rewrite E1. by left.
  - intros x l. rewrite HR. by left.
  - intros x k l. rewrite HB. by left.
  - intros x k y l. rewrite HP. by left.
Qed.

Lemma written_link m id v high i j :
  pageIndexes (N.shiftr id 6) = (high, i, j) ->
  written zero m id v =
  let page := default (newPage zero) (pageByKey m (N.shiftr id 6)) in
  let m1 := link m high i j (writeSlot page (N.land id 63) v) in
  let m2 := if pageByKey m (N.shiftr id 6) then m1 else addActive m1 (N.shiftr id 6) in
  if testSlot (occupied page) (N.land id 63) then m2 else set_len m2 (len m + 1)%Z.
Proof. intros Hk. unfold written, link. by rewrite Hk. Qed.

Lemma link_active m key high i j pg (op : option (valuePage V)) (t : bool) :
  let act := if op then m else addActive m key in
  set_active (set_len (link m high i j pg) (if t then len m else (len m + 1)%Z))
    (smallActive act) (smallActiveLen act) =
  let m2 := if op then link m high i j pg else addActive (link m high i j pg) key in
  if t then m2 else set_len m2 (len m + 1)%Z.
Proof.
  unfold link. generalize (upd (default newRoot (root m high)) i
    (Some (upd (default newBucket (idx (default newRoot (root m high)) i)) j (Some pg)))).
  intros r. unfold addActive, putRoot.
  destruct op, t; simpl; destruct (high =? 0); simpl; try destruct (2 <=? smallActiveLen m); done.
Qed.

Lemma SetH_ok T h c id v :
  inv T h c -> writable T h c (N.shiftr id 6) -> wf (denote h c) ->
  exists h' c', SetH zero c id v h = Some (c', h') /\ inv T h' c' /\ agree T h h' /\
                denote h' c' = Set_ zero (denote h c) id v.
Proof.
  intros I Hw Hwf. rewrite Set_written by done. unfold SetH. set (key := N.shiftr id 6) in *.
  set (slot := N.land id 63). destruct (pageIndexes key) as [[high i] j] eqn:Hk.
  pose proof (pageIndexes_bound _ _ _ _ Hk) as [Hi Hj].
  rewrite (written_link _ _ _ _ _ _ Hk). fold key slot. cbv zeta.
  assert (Hpage : pageByKey (denote h c) key = pl ← pageLoc h c high i j; hPages h !! pl).
  { rewrite (pageByKey_pageAt _ _ _ _ _ Hk). apply pageAt_denote, I. }
  set (pg := default (newPage zero) (pageByKey (denote h c) key)).
  destruct (ensurePageH_ok T h c key high i j I Hw Hk) as
    (h1 & c1 & pl & E1 & I1 & A1 & HT & R1 & B1 & P1 & Hp1 & Hn1 & L1 & M1).
  unfold hbind at 1. rewrite E1.
  assert (HPl : pageLoc h1 c1 high i j = Some pl) by (by rewrite P1, decide_True).
  set (act := if pageByKey (denote h c) key then denote h c else addActive (denote h c) key).
  assert (Hpg : hPages h1 !! pl = Some pg /\
            cActive c1 = smallActive act /\ cActiveLen c1 = smallActiveLen act).
  { unfold pg, act. rewrite Hpage. destruct (pageLoc h c high i j) as [pl0|] eqn:E.
    - destruct M1 as (-> & -> & ->). rewrite (Hp1 _ _ _ _ E).
      destruct (g_page _ _ (i_good _ _ _ I) _ _ _ _ E) as (pg0 & Hpg0). simpl. by rewrite Hpg0.
    - destruct M1 as (-> & -> & ->). split; [done|]. simpl. unfold addActiveH, addActive. simpl.
      by destruct (2 <=? cActiveLen c). }
  destruct Hpg as (Hpg & Hact & Hactl).
  unfold hbind at 1, loadPage. rewrite Hpg. cbn [mbind option_bind]. unfold hbind, storePageAt.
  set (h2 := mkHeap (<[pl := writeSlot pg slot v]> (hPages h1)) (hBuckets h1) (hRoots h1) (hMaps h1)
               (hNext h1)).
  destruct (set_page T h1 c1 high i j pl (writeSlot pg slot v) h2 I1 HPl HT eq_refl)
    as (I2 & A2 & R2 & B2 & P2).
  set (c2 := if testSlot (occupied pg) slot then c1 else set_cLen c1 (cLen c1 + 1)%Z).
  destruct (inv_frame T h2 c1 c2 I2) as (I3 & R3 & B3 & P3);
    [unfold c2; by destruct (testSlot _ _)..|].
  exists h2, c2. split; [done|]. split; [done|]. split; [by eapply agree_trans|].
  rewrite (denote_link h c h2 c2 high i j pl (writeSlot pg slot v)); [|apply I|apply I3|done|done|..].
  - assert (Hc2 : cActive c2 = smallActive act /\ cActiveLen c2 = smallActiveLen act /\
              cLen c2 = if testSlot (occupied pg) slot then cLen c else (cLen c + 1)%Z).
    { unfold c2. rewrite <- Hact, <- Hactl, <- L1. destruct (testSlot (occupied pg) slot); by split_and!. }
    destruct Hc2 as (-> & -> & ->). unfold act. apply link_active.
  - intros x. rewrite R3, R2. apply R1.
  - intros x k. rewrite B3, B2. apply B1.
  - intros x k y. rewrite P3, P2. apply P1.
  - apply lookup_insert_eq.
  - intros x k y l Hne Hl. simpl. rewrite lookup_insert_ne; [by eapply Hp1|]. intros <-.
    destruct (g_page_inj _ _ (i_good _ _ _ I1) x k y high i j pl) as (-> & -> & ->); [|done|done].
    by rewrite P1, decide_False.
  - unfold c2. destruct (testSlot _ _); done.
Qed.

(** ** Delete *)

Lemma all_nil_ext {A B} (l1 : list (option A)) (l2 : list (option B)) :
  (forall i, is_Some (idx l1 i) <-> is_Some (idx l2 i)) -> all_nil l1 = all_nil l2.
Proof.
  intros Hi. destruct (all_nil l1) eqn:E1, (all_nil l2) eqn:E2; try done; exfalso.
  - apply all_nil_false in E2 as (i & x & E2). pose proof (all_nil_idx _ i E1) as E.
    assert (is_Some (idx l1 i)) as [y ?] by (apply Hi; eauto). congruence.
  - apply all_nil_false in E1 as (i & x & E1). pose proof (all_nil_idx _ i E2) as E.
    assert (is_Some (idx l2 i)) as [y ?] by (apply Hi; eauto). congruence.
Qed.

(** The value-level tree after the page at [high, i, j] is cut off. *)
Definition cut m (high j i : N) (r : pageRoot V) (b : pageBucket V) : PagedMap V :=
  let b' := upd b j None in
  unlinkRoot m high (upd r i (if pageBucketEmpty (Some b') then None else Some b')).

Lemma bucketAt_cut m high i j r b x k :
  shaped m -> i < 128 -> root m high = Some r ->
  bucketAt (cut m high j i r b) x k =
  if decide ((x, k) = (high, i))
  then if all_nil (upd b j None) then None else Some (upd b j None) else bucketAt m x k.
Proof.
  intros (Lr & _ & _) Hi Hr. unfold bucketAt, cut. cbn [pageBucketEmpty].
  set (r' := upd r i _). rewrite root_unlink.
  destruct (N.eqb_spec x high) as [->|Hx]; [|by rewrite decide_False by congruence].
  assert (Hidx : idx r' k = if decide ((high, k) = (high, i))
            then if all_nil (upd b j None) then None else Some (upd b j None) else idx r k).
  { unfold r'. specialize (Lr _ _ Hr).
    destruct (decide ((high, k) = (high, i))) as [[= ->]|Hk].
    - by rewrite idx_upd_eq by lia.
    - by rewrite idx_upd_ne by congruence. }
  rewrite Hr. cbn [mbind option_bind]. rewrite <- Hidx. clear Hidx.
  destruct (all_nil r') eqn:E; cbn [mbind option_bind]; [by rewrite all_nil_idx|done].
Qed.

Lemma pageAt_cut m high i j r b x k y :
  shaped m -> i < 128 -> j < 128 -> root m high = Some r -> idx r i = Some b ->
  pageAt (cut m high j i r b) x k y =
  if decide ((x, k, y) = (high, i, j)) then None else pageAt m x k y.
Proof.
  intros Hs Hi Hj Hr Hb. unfold pageAt. rewrite bucketAt_cut by done.
  assert (Hm : bucketAt m high i = Some b) by (unfold bucketAt; rewrite Hr; done).
  pose proof (proj1 (proj2 Hs) _ _ _ Hm) as Lb.
  destruct (decide ((x, k) = (high, i))) as [[= -> ->]|Hx].
  2:{ by rewrite decide_False by congruence. }
  rewrite Hm. cbn [mbind option_bind].
  assert (Hidx : idx (upd b j None) y =
            if decide ((high, i, y) = (high, i, j)) then None else idx b y).
  { destruct (decide ((high, i, y) = (high, i, j))) as [[= ->]|Hy].
    - by rewrite idx_upd_eq by lia.
    - by rewrite idx_upd_ne by congruence. }
  rewrite <- Hidx. destruct (all_nil (upd b j None)) eqn:E; cbn [mbind option_bind];
    [by rewrite all_nil_idx|done].
Qed.

Lemma shaped_cut m high i j r b :
  shaped m -> i < 128 -> root m high = Some r -> idx r i = Some b -> shaped (cut m high j i r b).
Proof.
  intros Hs Hi Hr Hb. pose proof Hs as (Lr & Lb & Hz). split_and!.
  - intros x r'. unfold cut. rewrite root_unlink. destruct (x =? high); [|apply Lr].
    destruct (all_nil _); [done|]. intros [= <-]. rewrite length_upd. by eapply Lr.
  - intros x k b'. rewrite bucketAt_cut by done. case_decide; [|apply Lb].
    destruct (all_nil _); [done|]. intros [= <-]. rewrite length_upd. apply (Lb high i).
    unfold bucketAt. by rewrite Hr.
  - by apply unlinkRoot_zero.
Qed.

Lemma is_Some_root_cut m high i j r b x :
  shaped m -> i < 128 -> root m high = Some r -> idx r i = Some b ->
  is_Some (root (cut m high j i r b) x) <->
  if decide (x = high) then exists k, is_Some (bucketAt (cut m high j i r b) x k)
  else is_Some (root m x).
Proof.
  intros Hs Hi Hr Hb. unfold bucketAt. unfold cut. set (r' := upd r i _). rewrite root_unlink.
  destruct (N.eqb_spec x high) as [->|Hx]; [rewrite decide_True by done|by rewrite decide_False].
  destruct (all_nil r') eqn:E; cbn [mbind option_bind].
  - split; [by intros [? ?]|by intros [? [? ?]]].
  - split; [|done]. intros _. apply all_nil_false in E as (k & y & E). exists k. by rewrite E.
Qed.

(** Dropping an empty private root. *)
Lemma dropRootH_ok T h c high rl :
  inv T h c -> rootOwned c high -> rootLoc h c high = Some rl ->
  (forall k, bucketLoc h c high k = None) ->
  exists h' c', dropRootH c high h = Some (c', h') /\ inv T h' c' /\ agree T h h' /\
    (forall x, rootLoc h' c' x = if decide (x = high) then None else rootLoc h c x) /\
    (forall x k, bucketLoc h' c' x k = bucketLoc h c x k) /\
    (forall x k y, pageLoc h' c' x k y = pageLoc h c x k y) /\
    hPages h' = hPages h /\ cRoots c' = cRoots c /\ cLen c' = cLen c /\
    cActive c' = cActive c /\ cActiveLen c' = cActiveLen c.
Proof.
  intros I Hown HRl HBn. unfold dropRootH. destruct (N.eqb_spec high 0) as [->|Hh].
  - set (c1 := set_cRoot0 c None (root0Cloned c)).
    assert (HR : forall x, rootLoc h c1 x = if decide (x = 0) then None else rootLoc h c x).
    { intros x. unfold rootLoc. simpl. destruct (N.eqb_spec x 0) as [->|]; [done|].
      by rewrite decide_False. }
    destruct (set_root_ptr T h c h c1 0 None) as (I2 & B2 & P2); try done; try apply I; [by left|].
    exists h, c1. split_and!; done.
  - assert (HRl' := HRl). unfold rootLoc in HRl'. destruct (N.eqb_spec high 0); [done|].
    destruct (cRoots c) as [ml|] eqn:Hml; [|done]. simpl in HRl'.
    assert (HTm : T <= ml) by (eapply owned_map; [apply I|exact Hh|done|done]).
    assert (Hlt : ml < hNext h) by (eapply (b_map _ h c); [apply reach_lt; apply I|done]).
    destruct (g_map _ _ (i_good _ _ _ I) _ Hml) as (rs & Hrs & Hz).
    unfold hbind, loadMap. rewrite Hrs. cbn [mbind option_bind].
    set (h1 := mkHeap (hPages h) (hBuckets h) (hRoots h) (<[ml := delete high rs]> (hMaps h)) (hNext h)).
    assert (HR : forall x, rootLoc h1 c x = if decide (x = high) then None else rootLoc h c x).
    { intros x. unfold rootLoc. destruct (N.eqb_spec x 0) as [->|]; [by rewrite decide_False|].
      rewrite Hml. simpl. rewrite lookup_insert_eq, Hrs. simpl.
      case_decide as E; [subst; by rewrite lookup_delete_eq|by rewrite lookup_delete_ne]. }
    destruct (set_root_ptr T h c h1 c high None) as (I2 & B2 & P2); try done; try apply I.
    + intros l Hl. simpl in *. rewrite lookup_insert_ne by lia. by apply (i_fresh _ _ _ I).
    + rewrite Hml. intros ? [= <-]. simpl. rewrite lookup_insert_eq. eexists. split; [done|].
      rewrite lookup_delete_ne; [done|]. done.
    + by left.
    + exists h1, c. split_and!; try done. intros l Hl. simpl. rewrite lookup_insert_ne by lia. done.
Qed.

(** The two writes to a private bucket and root that unlink a page. *)
Lemma unlink_writes T h c high i j rl a bl b :
  inv T h c -> rootOwned c high -> rootLoc h c high = Some rl -> hRoots h !! rl = Some a ->
  idx a i = Some bl -> hBuckets h !! bl = Some b -> T <= bl -> i < 128 -> j < 128 ->
  let b' := upd b j None in
  let a' := if all_nil b' then upd a i None else a in
  let h2 := mkHeap (hPages h) (<[bl := b']> (hBuckets h)) (<[rl := a']> (hRoots h)) (hMaps h) (hNext h) in
  inv T h2 c /\ agree T h h2 /\
  (forall x, rootLoc h2 c x = rootLoc h c x) /\
  (forall x k, bucketLoc h2 c x k =
     if decide ((x, k) = (high, i)) then if all_nil b' then None else Some bl else bucketLoc h c x k) /\
  (forall x k y, pageLoc h2 c x k y =
     if decide ((x, k, y) = (high, i, j)) then None else pageLoc h c x k y).
Proof.
  intros I Hown HRl Ha Hi Hb HTb Hi' Hj b' a' h2.
  assert (HBl : bucketLoc h c high i = Some bl) by (unfold bucketLoc; rewrite HRl; simpl; by rewrite Ha).
  set (h1 := mkHeap (hPages h) (<[bl := b']> (hBuckets h)) (hRoots h) (hMaps h) (hNext h)).
  destruct (set_page_ptr T h c high i j bl b None h1) as (I1 & A1 & R1 & B1 & P1); try done.
  assert (HTr : T <= rl) by (by eapply owned_root; [apply I|..]).
  assert (Hb1 : forall y, pageLoc h1 c high i y = idx b' y).
  { intros y. unfold pageLoc. rewrite B1, HBl. simpl. by rewrite lookup_insert_eq. }
  destruct (all_nil b') eqn:En.
  - destruct (set_bucket_ptr T h1 c high i rl a None h2) as (I2 & A2 & R2 & B2 & P2); try done.
    + intros _ y. rewrite Hb1. by apply all_nil_idx.
    + split_and!; [done|by eapply agree_trans|done|done|]. intros x k y. by rewrite P2.
  - assert (Eh : h2 = h1) by (unfold h2, h1, a'; by rewrite (insert_id (hRoots h) rl a)).
    rewrite Eh.
    split_and!; [done|done|done| |done]. intros x k. rewrite B1.
    case_decide as E; [injection E as -> ->; done|done].
Qed.

Lemma unlinkPageH_ok T h c high i j rl a bl b :
  inv T h c -> rootOwned c high -> rootLoc h c high = Some rl -> hRoots h !! rl = Some a ->
  idx a i = Some bl -> hBuckets h !! bl = Some b -> T <= bl -> i < 128 -> j < 128 ->
  exists h' c', unlinkPageH c high i j h = Some (c', h') /\ inv T h' c' /\ agree T h h' /\
    (forall x, is_Some (rootLoc h' c' x) <->
       if decide (x = high) then exists k, is_Some (bucketLoc h' c' high k) else is_Some (rootLoc h c x)) /\
    (forall x k, bucketLoc h' c' x k =
       if decide ((x, k) = (high, i)) then if all_nil (upd b j None) then None else Some bl
       else bucketLoc h c x k) /\
    (forall x k y, pageLoc h' c' x k y =
       if decide ((x, k, y) = (high, i, j)) then None else pageLoc h c x k y) /\
    hPages h' = hPages h /\ cRoots c' = cRoots c /\ cLen c' = cLen c /\
    cActive c' = cActive c /\ cActiveLen c' = cActiveLen c.
Proof.
  intros I Hown HRl Ha Hi Hb HTb Hi' Hj. unfold unlinkPageH, hbind at 1.
  rewrite rootH_run by apply I. rewrite HRl. unfold hbind at 1, loadRoot. rewrite Ha.
  cbn [mbind option_bind]. rewrite Hi. unfold hbind, loadBucket. rewrite Hb. cbn [mbind option_bind].
  destruct (unlink_writes T h c high i j rl a bl b) as (I2 & A2 & R2 & B2 & P2); try done.
  set (a' := if all_nil (upd b j None) then upd a i None else a) in *.
  set (h2 := mkHeap _ _ _ _ _) in *. unfold storeBucketAt, storeRootAt.
  cbn [hPages hBuckets hRoots hMaps hNext]. fold h2.
  assert (HR2 : rootLoc h2 c high = Some rl) by (by rewrite R2).
  assert (Ha2 : forall k, bucketLoc h2 c high k = idx a' k).
  { intros k. unfold bucketLoc. rewrite HR2. simpl. by rewrite lookup_insert_eq. }
  destruct (all_nil a') eqn:En.
  - destruct (dropRootH_ok T h2 c high rl) as (h3 & c3 & E3 & I3 & A3 & R3 & B3 & P3 & Hp3 & Hrest);
      [done..|intros k; rewrite Ha2; by apply all_nil_idx|].
    destruct Hrest as (? & ? & ? & ?). exists h3, c3. split; [done|].
    split; [done|]. split; [by eapply agree_trans|]. split_and!; try done.
    + intros x. rewrite R3. case_decide; [|by rewrite R2]. subst. split; [by intros [? ?]|].
      intros [k [y Hk]]. rewrite B3, Ha2, all_nil_idx in Hk; done.
    + intros. by rewrite B3.
    + intros. by rewrite P3.
  - exists h2, c. split; [done|]. split_and!; try done. intros x. rewrite R2.
    case_decide; [|done]. subst. rewrite HRl. split; [|done]. intros _.
    apply all_nil_false in En as (k & y & Ek). exists k. by rewrite Ha2, Ek.
Qed.

Lemma denote_cut h c h' c' high i j r b bl lb :
  good h c -> good h' c' -> i < 128 -> j < 128 ->
  root (denote h c) high = Some r -> idx r i = Some b ->
  bucketLoc h c high i = Some bl -> hBuckets h !! bl = Some lb ->
  (forall x, is_Some (rootLoc h' c' x) <->
     if decide (x = high) then exists k, is_Some (bucketLoc h' c' high k) else is_Some (rootLoc h c x)) ->
  (forall x k, bucketLoc h' c' x k =
     if decide ((x, k) = (high, i)) then if all_nil (upd lb j None) then None else Some bl
     else bucketLoc h c x k) ->
  (forall x k y, pageLoc h' c' x k y =
     if decide ((x, k, y) = (high, i, j)) then None else pageLoc h c x k y) ->
  hPages h' = hPages h -> cRoots c' = cRoots c -> cLen c' = cLen c ->
  cActive c' = cActive c -> cActiveLen c' = cActiveLen c ->
  denote h' c' = cut (denote h c) high j i r b.
Proof.
  intros G G' Hi Hj Hr Hb HBl Hlb HR HB HP Hpg Hn Hl Ha Hal.
  pose proof (shaped_denote _ _ G) as Hs. pose proof (shaped_cut _ high i j r b Hs Hi Hr Hb) as Hs'.
  destruct (unlinkRoot_frame (denote h c) high
    (upd r i (if pageBucketEmpty (Some (upd b j None)) then None else Some (upd b j None)))) as (F1 & F2 & F3).
  assert (Hbd : b = dBucket h bl).
  { pose proof (bucketAt_denote h c high i G) as E. unfold bucketAt in E. rewrite Hr, HBl in E.
    cbn [mbind option_bind fmap option_fmap option_map] in E. congruence. }
  assert (Hnil : all_nil (upd b j None) = all_nil (upd lb j None)).
  { apply all_nil_ext. intros y. rewrite Hbd. unfold dBucket. rewrite Hlb. cbn [default].
    destruct (g_bucket _ _ G _ _ _ HBl) as (lb' & Hlb' & Hlen). rewrite Hlb in Hlb'. injection Hlb' as <-.
    destruct (N.eq_dec j y) as [->|Hne].
    - rewrite !idx_upd_eq; [done|lia|simpl; rewrite length_fmap; lia].
    - rewrite !idx_upd_ne by done. simpl. rewrite idx_fmap by done.
      destruct (idx lb y) as [pl|] eqn:E; simpl; [|done].
      assert (is_Some (hPages h !! pl)) as [? ->]; [|split; eauto].
      apply (g_page _ _ G high i y). unfold pageLoc. rewrite HBl. simpl. by rewrite Hlb. }
  assert (HBs : forall x k, is_Some (bucketLoc h' c' x k) <->
                  is_Some (bucketAt (cut (denote h c) high j i r b) x k)).
  { intros x k. rewrite HB, bucketAt_cut by done. rewrite Hnil. case_decide.
    - by destruct (all_nil (upd lb j None)).
    - by rewrite bucketAt_denote, fmap_is_Some by done. }
  apply pm_ext; [by apply shaped_denote|done| | | | | | |].
  - intros x. rewrite root_denote, fmap_is_Some, HR by done.
    rewrite is_Some_root_cut by done. case_decide; [|by rewrite root_denote, fmap_is_Some].
    subst. by setoid_rewrite HBs.
  - intros x k. by rewrite bucketAt_denote, fmap_is_Some.
  - intros x k y. rewrite pageAt_denote, HP, Hpg by done. rewrite pageAt_cut by done.
    case_decide; [done|]. by rewrite pageAt_denote.
  - simpl. rewrite Hn, fmap_None. unfold cut, unlinkRoot, putRoot.
    destruct (pageRootEmpty _), (N.eqb_spec high 0); simpl; rewrite ?fmap_None; try done.
    split; [|done]. intros E. exfalso. unfold root in Hr. destruct (N.eqb_spec high 0); [done|].
    simpl in Hr. by rewrite E in Hr.
  - unfold cut. rewrite F1. done.
  - unfold cut. rewrite F2. done.
  - unfold cut. rewrite F3. done.
Qed.

Lemma removeActiveH_denote h c key : denote h (removeActiveH c key) = removeActive (denote h c) key.
Proof.
  unfold removeActiveH, removeActive. simpl. destruct (_ =? _); [done|].
  by destruct (list_find _ _) as [[]|].
Qed.

Lemma removeActiveH_frame c key :
  cRoot0 (removeActiveH c key) = cRoot0 c /\ cRoots (removeActiveH c key) = cRoots c /\
  cloned (removeActiveH c key) = cloned c /\ root0Cloned (removeActiveH c key) = root0Cloned c /\
  rootsCloned (removeActiveH c key) = rootsCloned c.
Proof.
  unfold removeActiveH. destruct (_ =? _); [done|]. by destruct (list_find _ _) as [[]|].
Qed.

Lemma restoreH_denote h c :
  denote h (set_cActive c (smallActive (restoreSmallActive (denote h c)))
              (smallActiveLen (restoreSmallActive (denote h c)))) = restoreSmallActive (denote h c).
Proof.
  unfold restoreSmallActive. destruct (_ || _); [by destruct c|].
  destruct (foldl _ _ _); [done|by destruct c].
Qed.

(** The write to the page, [storePage] at the value level. *)
Lemma store_denote T h c key high i j pl pg pg' n :
  inv T h c -> pageIndexes key = (high, i, j) -> pageLoc h c high i j = Some pl -> T <= pl ->
  hPages h !! pl = Some pg ->
  let h1 := mkHeap (<[pl := pg']> (hPages h)) (hBuckets h) (hRoots h) (hMaps h) (hNext h) in
  let c1 := set_cLen c n in
  inv T h1 c1 /\ agree T h h1 /\ denote h1 c1 = set_len (storePage (denote h c) key pg') n.
Proof.
  intros I Hk HPl HT Hpg h1 c1. pose proof (pageIndexes_bound _ _ _ _ Hk) as [Hi Hj].
  destruct (set_page T h c high i j pl pg' h1 I HPl HT eq_refl) as (I1 & A1 & R1 & B1 & P1).
  destruct (inv_frame T h1 c c1 I1) as (I2 & R2 & B2 & P2); [done..|].
  split; [done|]. split; [done|].
  assert (Hpage : pageByKey (denote h c) key = Some pg).
  { rewrite (pageByKey_pageAt _ _ _ _ _ Hk), pageAt_denote by apply I. rewrite HPl. done. }
  destruct (pageByKey_Some _ _ _ _ _ _ Hk Hpage) as (r & b & Hr & Hb & _).
  rewrite (storePage_eq _ _ _ _ _ r b pg' Hk Hr Hb).
  assert (HRs : is_Some (rootLoc h c high) /\ is_Some (bucketLoc h c high i)).
  { unfold pageLoc in HPl. destruct (bucketLoc h c high i) eqn:EB; [|done]. split; [|done].
    unfold bucketLoc in EB. by destruct (rootLoc h c high). }
  rewrite (denote_link h c h1 c1 high i j pl pg'); [|apply I|apply I2|done|done|..].
  - assert (El : link (denote h c) high i j pg' =
              putRoot (denote h c) high (upd r i (Some (upd b j (Some pg'))))).
    { unfold link. rewrite Hr. cbn [from_option id]. by rewrite Hb. }
    rewrite El. unfold putRoot. by destruct (high =? 0).
  - intros x. rewrite R2, R1. naive_solver.
  - intros x k. rewrite B2, B1. naive_solver.
  - intros x k y. rewrite P2, P1. case_decide as E; [injection E as -> -> ->|]; done.
  - apply lookup_insert_eq.
  - intros x k y l Hne Hl. simpl. rewrite lookup_insert_ne; [done|]. intros <-.
    by destruct (g_page_inj _ _ (i_good _ _ _ I) _ _ _ _ _ _ _ Hl HPl) as (-> & -> & ->).
  - split; [|naive_solver]. intros Hn. split; [done|]. destruct HRs as [[rl HRl] _].
    unfold rootLoc in HRl. destruct (N.eqb_spec high 0); [done|]. simpl in Hn. by rewrite Hn in HRl.
Qed.

Lemma DeleteH_ok T h c id :
  inv T h c -> writable T h c (N.shiftr id 6) ->
  exists h' c', DeleteH zero c id h = Some (c', h') /\ inv T h' c' /\ agree T h h' /\
                denote h' c' = Delete zero (denote h c) id.
Proof.
  intros I Hw. unfold DeleteH, Delete. set (key := N.shiftr id 6) in *. set (slot := N.land id 63).
  destruct (pageIndexes key) as [[high i] j] eqn:Hk.
  pose proof (pageIndexes_bound _ _ _ _ Hk) as [Hi Hj].
  unfold writable in Hw. rewrite Hk in Hw. destruct Hw as (Hown & HTb & HTp).
  assert (Hpage : pageByKey (denote h c) key = pl ← pageLoc h c high i j; hPages h !! pl).
  { rewrite (pageByKey_pageAt _ _ _ _ _ Hk). apply pageAt_denote, I. }
  unfold hbind at 1. rewrite (pageByKeyH_run _ _ _ _ _ _ (i_good _ _ _ I) Hk). rewrite Hpage.
  destruct (pageLoc h c high i j) as [pl|] eqn:HPl; [|by exists h, c]. cbn [mbind option_bind].
  destruct (g_page _ _ (i_good _ _ _ I) _ _ _ _ HPl) as (pg & Hpg). rewrite Hpg.
  unfold hbind at 1, loadPage. rewrite Hpg. cbn [mbind option_bind].
  destruct (negb (testSlot (occupied pg) slot)); [by exists h, c|].
  set (pg' := clearSlot zero pg slot).
  unfold hbind at 1, storePageAt.
  destruct (store_denote T h c key high i j pl pg pg' (cLen c - 1)%Z) as (I1 & A1 & D1);
    [done|done|done|by apply HTp|done|].
  set (h1 := mkHeap _ _ _ _ _) in *. set (c1 := set_cLen c (cLen c - 1)%Z) in *.
  change (len (denote h c)) with (cLen c).
  destruct (negb (occupied pg' =? 0)); [by exists h1, c1|].
  rewrite <- D1, <- removeActiveH_denote.
  destruct (removeActiveH_frame c1 key) as (F1 & F2 & F3 & F4 & F5).
  destruct (inv_frame T h1 c1 (removeActiveH c1 key) I1) as (I2 & R2 & B2 & P2); [done..|].
  set (c2 := removeActiveH c1 key) in *.
  assert (Hown2 : rootOwned c2 high).
  { unfold rootOwned, isCloned. rewrite F3, F4, F5. exact Hown. }
  assert (HPl2 : pageLoc h1 c2 high i j = Some pl) by (by rewrite P2).
  destruct (bucketLoc h1 c2 high i) as [bl|] eqn:HBl.
  2:{ unfold pageLoc in HPl2. by rewrite HBl in HPl2. }
  destruct (rootLoc h1 c2 high) as [rl|] eqn:HRl.
  2:{ unfold bucketLoc in HBl. by rewrite HRl in HBl. }
  destruct (g_root _ _ (i_good _ _ _ I2) _ _ HRl) as (a & Ha & _).
  destruct (g_bucket _ _ (i_good _ _ _ I2) _ _ _ HBl) as (b & Hb & _).
  assert (Hia : idx a i = Some bl).
  { unfold bucketLoc in HBl. rewrite HRl in HBl. cbn [mbind option_bind] in HBl. by rewrite Ha in HBl. }
  destruct (unlinkPageH_ok T h1 c2 high i j rl a bl b) as
    (h3 & c3 & E3 & I3 & A3 & R3 & B3 & P3 & Hp3 & Hn3 & Hl3 & Ha3 & Hal3); try done.
  { apply HTb. by rewrite <- HBl, B2. }
  unfold hbind. rewrite E3. unfold restoreSmallActiveH.
  assert (Hrd : root (denote h1 c2) high = Some (dRoot h1 rl)).
  { rewrite root_denote by apply I2. by rewrite HRl. }
  assert (Hbd : idx (dRoot h1 rl) i = Some (dBucket h1 bl)).
  { unfold dRoot. rewrite Ha. cbn [from_option Datatypes.id]. rewrite idx_fmap by done. by rewrite Hia. }
  rewrite Hrd, Hbd.
  pose proof (denote_cut h1 c2 h3 c3 high i j _ _ bl b (i_good _ _ _ I2) (i_good _ _ _ I3) Hi Hj Hrd Hbd
    HBl Hb R3 B3 P3 Hp3 Hn3 Hl3 Ha3 Hal3) as D3.
  unfold cut in D3. cbv zeta in D3. rewrite <- D3.
  eexists h3, _. split; [done|]. split; [|split; [by eapply agree_trans|apply restoreH_denote]].
  eapply inv_frame; [exact I3|done..].
Qed.

End ops.
