(* ===== verification/PagedTheorems.v ===== *)
(** * What the paged map promises

    [PagedMap] is a finite map from 64-bit IDs: any sequence of updates from
    [NewPagedMap] leaves a tree whose reads and traversals agree with the finite map
    the same updates build. Over the heap, a chain of transactions, each a [Fork] of
    the last version followed by [CloneShardOnce]-guarded writes, leaves every
    published version readable with its own content. *)
From S2P Require Import Prelude.
From S2P Require Import PagedMap.
From S2P Require Import PagedMapSpec.
From S2P Require Import PagedMapIter.
From S2P Require Import PagedHeap.
From S2P Require Import PagedCow.
From S2P Require Import PagedCowOps.
#[local] Open Scope go_scope.

Section theorems.
Context {V : Type} `{MapOrder (pageRoot V)} (zero : V).
Implicit Types (m : PagedMap V) (g : gmap N V).

(** ** Sequences of updates *)

Inductive update :=
  | USet (id : N) (v : V)
  | UForkSet (id : N) (v : V)
  | UDelete (id : N).

Definition updateID (u : update) : N :=
  match u with USet id _ | UForkSet id _ | UDelete id => id end.

Definition applyUpdate m (u : update) : PagedMap V :=
  match u with
  | USet id v => Set_ zero m id v
  | UForkSet id v => ForkSet zero m id v
  | UDelete id => Delete zero m id
  end.

Definition specUpdate g (u : update) : gmap N V :=
  match u with
  | USet id v | UForkSet id v => <[id := v]> g
  | UDelete id => delete id g
  end.

Definition ids_ok (us : list update) : Prop := Forall (fun u => updateID u < 2 ^ 64) us.

Lemma rep_updates us m g :
  ids_ok us -> rep zero m g -> rep zero (foldl applyUpdate m us) (foldl specUpdate g us).
Proof.
  revert m g. induction us as [|u us IH]; intros m g Hids Hr; [done|].
  apply Forall_cons in Hids as [Hid Hids]. simpl. apply IH; [done|].
  destruct u; simpl in *; [by apply rep_Set|by apply rep_ForkSet|by apply rep_Delete].
Qed.

(** What the read operations of a map show of its content. *)
Definition observes m g : Prop :=
  (forall id, Get zero m id = default zero (g !! id)) /\
  (forall id, Has m id = bool_decide (is_Some (g !! id))) /\
  Len m = Z.of_nat (size g).

Lemma rep_observes m g : rep zero m g -> observes m g.
Proof.
  intros (Hwf & Hl & Hlen & _). split_and!.
  - intros id. by rewrite Get_lookup, Hl.
  - intros id. by rewrite (Has_lookup zero), Hl.
  - done.
Qed.

(** C19. After any sequence of Set, ForkSet and Delete on 64-bit IDs, Get, Has and
    Len answer as the finite map built by the same sequence. *)
Theorem PagedMap_refines_finite_map us :
  ids_ok us -> observes (foldl applyUpdate NewPagedMap us) (foldl specUpdate ∅ us).
Proof. intros Hids. apply rep_observes, rep_updates; [done|apply rep_new]. Qed.

(** All never dereferences a nil page and yields every entry exactly once. *)
Theorem PagedMap_All_complete us :
  ids_ok us ->
  exists l, All zero (foldl applyUpdate NewPagedMap us) = Some l /\
            l ≡ₚ map_to_list (foldl specUpdate ∅ us).
Proof. intros Hids. apply All_spec, rep_updates; [done|apply rep_new]. Qed.

(** Ordered yields every entry exactly once, in strictly increasing ID order. *)
Theorem PagedMap_Ordered_sorted us :
  ids_ok us ->
  StronglySorted key_lt (Ordered zero (foldl applyUpdate NewPagedMap us)) /\
  Ordered zero (foldl applyUpdate NewPagedMap us) ≡ₚ map_to_list (foldl specUpdate ∅ us).
Proof. intros Hids. apply Ordered_spec, rep_updates; [done|apply rep_new]. Qed.

(** ForkSet, which copies the path by hand, leaves the same tree as Set. *)
Theorem ForkSet_is_Set us id v :
  ids_ok us -> id < 2 ^ 64 ->
  ForkSet zero (foldl applyUpdate NewPagedMap us) id v =
  Set_ zero (foldl applyUpdate NewPagedMap us) id v.
Proof.
  intros Hids Hid.
  assert (Hr : rep zero (foldl applyUpdate NewPagedMap us) (foldl specUpdate ∅ us))
    by (apply rep_updates; [done|apply rep_new]).
  by rewrite Set_written, ForkSet_written by apply Hr.
Qed.

(** ** Transactions over the heap *)

Inductive write := WSet (id : N) (v : V) | WDelete (id : N).

Definition writeID (w : write) : N := match w with WSet id _ | WDelete id => id end.

(** As every writer in the engine does: clone the path of the ID, then write. *)
Definition applyWrite (c : handle) (w : write) : H V handle :=
  c <-- CloneShardOnceH c (writeID w);
  match w with WSet id v => SetH zero c id v | WDelete id => DeleteH zero c id end.

Definition specWrite g (w : write) : gmap N V :=
  match w with WSet id v => <[id := v]> g | WDelete id => delete id g end.

Fixpoint applyWrites (c : handle) (ws : list write) : H V handle :=
  match ws with [] => hret c | w :: ws => c <-- applyWrite c w; applyWrites c ws end.

(** A chain of transactions; the result lists every published version. *)
Fixpoint history (p : handle) (txs : list (list write)) : H V (list handle) :=
  match txs with
  | [] => hret [p]
  | tx :: txs => c <-- applyWrites (ForkH p) tx; vs <-- history c txs; hret (p :: vs)
  end.

Fixpoint specHistory g (txs : list (list write)) : list (gmap N V) :=
  match txs with
  | [] => [g]
  | tx :: txs => g :: specHistory (foldl specWrite g tx) txs
  end.

Definition writes_ok (txs : list (list write)) : Prop :=
  Forall (Forall (fun w => writeID w < 2 ^ 64)) txs.

Definition newHeap : heap V := mkHeap ∅ ∅ ∅ ∅ 0.
Definition newHandle : handle := mkHandle None None 0%Z [0; 0] 0 false false ∅.

(** The first transaction after a fork may write nothing that existed before it. *)
Lemma fork_inv (h : heap V) p : fresh h -> good h p -> inv (hNext h) h (ForkH p).
Proof.
  intros F G.
  assert (Hc : forall x f, isCloned (ForkH p) x f = false)
    by (intros; unfold isCloned; simpl; by rewrite lookup_empty).
  split; [done|done| |].
  - destruct G. by split.
  - split.
    + done.
    + done.
    + intros x. by rewrite Hc.
    + intros x l Hx Hown. unfold rootOwned in Hown. destruct (N.eqb_spec x 0); [done|].
      by destruct Hown.
    + intros x i _ _. by rewrite Hc.
    + intros key x i j _. by rewrite Hc.
Qed.

Lemma applyWrite_ok T h c w g :
  inv T h c -> rep zero (denote h c) g -> writeID w < 2 ^ 64 ->
  exists h' c', applyWrite c w h = Some (c', h') /\ inv T h' c' /\ agree T h h' /\
                rep zero (denote h' c') (specWrite g w).
Proof.
  intros I Hr Hid. unfold applyWrite.
  destruct (CloneShardOnceH_ok T h c (writeID w) I Hid) as (h1 & c1 & E1 & (I1 & A1 & D1) & W1).
  unfold hbind. rewrite E1. rewrite <- D1 in Hr. destruct w as [id v|id]; simpl in *.
  - destruct (SetH_ok zero T h1 c1 id v I1 W1) as (h2 & c2 & E2 & I2 & A2 & D2); [apply Hr|].
    exists h2, c2. rewrite D2. split_and!; [done|done|by eapply agree_trans|by apply rep_Set].
  - destruct (DeleteH_ok zero T h1 c1 id I1 W1) as (h2 & c2 & E2 & I2 & A2 & D2).
    exists h2, c2. rewrite D2. split_and!; [done|done|by eapply agree_trans|by apply rep_Delete].
Qed.

Lemma applyWrites_ok T ws : forall h c g,
  inv T h c -> rep zero (denote h c) g -> Forall (fun w => writeID w < 2 ^ 64) ws ->
  exists h' c', applyWrites c ws h = Some (c', h') /\ inv T h' c' /\ agree T h h' /\
                rep zero (denote h' c') (foldl specWrite g ws).
Proof.
  induction ws as [|w ws IH]; intros h c g I Hr Hids; [by exists h, c|].
  apply Forall_cons in Hids as [Hid Hids].
  destruct (applyWrite_ok T h c w g I Hr Hid) as (h1 & c1 & E1 & I1 & A1 & Hr1).
  destruct (IH h1 c1 _ I1 Hr1 Hids) as (h2 & c2 & E2 & I2 & A2 & Hr2).
  exists h2, c2. simpl. unfold hbind. rewrite E1, E2.
  split_and!; [done|done|by eapply agree_trans|done].
Qed.

(** Every version of a history keeps its content, and so does every handle that
    existed before the history began. *)
Lemma history_ok txs : forall h p g,
  fresh h -> good h p -> rep zero (denote h p) g -> writes_ok txs ->
  exists h' vs, history p txs h = Some (vs, h') /\ fresh h' /\ agree (hNext h) h h' /\
    Forall2 (fun c g => rep zero (denote h' c) g) vs (specHistory g txs).
Proof.
  induction txs as [|tx txs IH]; intros h p g F G Hr Hids.
  { exists h, [p]. split_and!; try done. apply Forall2_cons. split; [done|constructor]. }
  apply Forall_cons in Hids as [Hid Hids].
  destruct (applyWrites_ok (hNext h) tx h (ForkH p) g) as (h1 & c1 & E1 & I1 & A1 & Hr1);
    [by apply fork_inv|done|done|].
  destruct (IH h1 c1 _ (i_fresh _ _ _ I1) (i_good _ _ _ I1) Hr1 Hids) as (h2 & vs & E2 & F2 & A2 & Hvs).
  assert (A : agree (hNext h) h h2).
  { eapply agree_trans; [done|]. eapply agree_le; [apply I1|done]. }
  exists h2, (p :: vs). simpl. unfold hbind. rewrite E1, E2. split_and!; [done|done|done|].
  constructor; [|done]. rewrite (frame_denote (hNext h) h h2 p); [done|done|done|].
  by apply reach_lt.
Qed.

(** C18. Snapshot isolation. A chain of transactions, each forked from the last
    version and writing through CloneShardOnce, never dereferences nil, and at the
    end every version ever published still reads as the finite map its own
    transactions built: no later write is visible through an older version. *)
Theorem PagedMap_snapshot_isolation txs :
  writes_ok txs ->
  exists h vs, history newHandle txs newHeap = Some (vs, h) /\
    Forall2 (fun c g => observes (denote h c) g) vs (specHistory ∅ txs).
Proof.
  intros Hids. destruct (history_ok txs newHeap newHandle ∅) as (h & vs & E & _ & _ & Hvs).
  - intros l _. simpl. by rewrite !lookup_empty.
  - assert (Hn : forall x, rootLoc newHeap newHandle x = None)
      by (intros x; unfold rootLoc; by destruct (x =? 0)).
    assert (Hb : forall x i, bucketLoc newHeap newHandle x i = None)
      by (intros; unfold bucketLoc; by rewrite Hn).
    assert (Hp : forall x i j, pageLoc newHeap newHandle x i j = None)
      by (intros; unfold pageLoc; by rewrite Hb).
    split; try done.
    + intros x l. by rewrite Hn.
    + intros x i l. by rewrite Hb.
    + intros x i j l. by rewrite Hp.
    + intros x1 x2 l. by rewrite Hn.
    + intros x1 i1 x2 i2 l. by rewrite Hb.
    + intros x1 i1 j1 x2 i2 j2 l. by rewrite Hp.
  - apply rep_new.
  - done.
  - exists h, vs. split; [done|]. eapply Forall2_impl; [exact Hvs|]. intros. by apply rep_observes.
Qed.

End theorems.

(** ** Concrete histories *)

#[local] Instance rootOrder : MapOrder (pageRoot N) := canonicalOrder.

(** Three pages of two roots, one overwritten and one emptied: the cache of small
    maps overflows and is restored. *)
Definition sampleUpdates : list (update (V := N)) :=
  [USet 5 50; USet 70 7; USet (2 ^ 63) 9; UForkSet 5 51; UDelete 70; UDelete 71].

Lemma sampleUpdates_ok : ids_ok sampleUpdates.
Proof. by repeat constructor. Qed.

Lemma PagedMap_refines_finite_map_witness :
  let m := foldl (applyUpdate 0) NewPagedMap sampleUpdates in
  Get 0 m 5 = 51 /\ Has m 70 = false /\ Len m = 2%Z /\
  observes 0 m (foldl specUpdate ∅ sampleUpdates).
Proof.
  split; [by vm_compute|]. split; [by vm_compute|]. split; [by vm_compute|].
  exact (PagedMap_refines_finite_map 0 sampleUpdates sampleUpdates_ok).
Defined.

Lemma PagedMap_All_complete_witness :
  exists l, All 0 (foldl (applyUpdate 0) NewPagedMap sampleUpdates) = Some l /\
            l ≡ₚ map_to_list (foldl specUpdate (∅ : gmap N N) sampleUpdates).
Proof. exact (PagedMap_All_complete 0 sampleUpdates sampleUpdates_ok). Defined.

Lemma PagedMap_Ordered_sorted_witness :
  Ordered 0 (foldl (applyUpdate 0) NewPagedMap sampleUpdates) = [(5, 51); (2 ^ 63, 9)] /\
  StronglySorted key_lt (Ordered 0 (foldl (applyUpdate 0) NewPagedMap sampleUpdates)).
Proof.
  split; [by vm_compute|]. exact (proj1 (PagedMap_Ordered_sorted 0 sampleUpdates sampleUpdates_ok)).
Defined.

Lemma ForkSet_is_Set_witness :
  ForkSet 0 (foldl (applyUpdate 0) NewPagedMap sampleUpdates) 6 60 =
  Set_ 0 (foldl (applyUpdate 0) NewPagedMap sampleUpdates) 6 60.
Proof. apply (ForkSet_is_Set 0 sampleUpdates 6 60 sampleUpdates_ok). reflexivity. Defined.

(** Two transactions: the second overwrites and deletes what the first wrote. *)
Definition sampleTxs : list (list (write (V := N))) :=
  [[WSet 5 50; WSet (2 ^ 63) 9]; [WSet 5 51; WDelete (2 ^ 63)]].

Lemma sampleTxs_ok : writes_ok sampleTxs.
Proof. by repeat constructor. Qed.

Lemma PagedMap_snapshot_isolation_witness :
  exists h vs, history 0 newHandle sampleTxs newHeap = Some (vs, h) /\
    Forall2 (fun c g => observes 0 (denote h c) g) vs (specHistory ∅ sampleTxs).
Proof. exact (PagedMap_snapshot_isolation 0 sampleTxs sampleTxs_ok). Defined.
