(* ===== verification/Adjacency.v ===== *)
(** * Adjacency lists (internal/store/adjacency.go, adjacency_compaction.go)

    [EdgeList] keeps up to 63 edge IDs inline; a longer list is a [PagedMap] of
    64-ID chunks with a tombstone set. A nil [*EdgeList] is [None]. Forking a
    paged map and cloning a shard of it leave its content as it is (PagedCow), so
    on contents both are the identity. [AdjacencyCompactor] rebuilds one list a
    bounded number of chunks at a time. *)
From S2P Require Import Prelude.
From S2P Require Import PagedMap.

Definition adjacencyChunkSize : Z := 64.
Definition adjacencySyncCompactLimit : Z := (adjacencyChunkSize * 4)%Z.
Definition adjacencyInlineLimit : Z := (adjacencyChunkSize - 1)%Z.

Record EdgeList := mkEdgeList {
  small : list N;
  chunks : PagedMap (list N);
  removed : PagedMap unit;
  count : Z;
  total : Z }.

Definition emptyEdgeList : EdgeList := mkEdgeList [] NewPagedMap NewPagedMap 0 0.

Definition zlen {A} (l : list A) : Z := Z.of_nat (length l).

Definition EdgeLen (el : option EdgeList) : Z :=
  match el with None => 0%Z | Some l => count l end.

Definition isInline (l : EdgeList) : bool :=
  bool_decide (root0 (chunks l) = None) && bool_decide (roots (chunks l) = None).
Definition IsInline (el : option EdgeList) : bool :=
  match el with None => true | Some l => isInline l end.

Definition HasRemovals (el : option EdgeList) : bool :=
  match el with None => false | Some l => negb (len (removed l) =? 0)%Z end.
Definition IsRemoved (el : option EdgeList) (id : N) : bool :=
  match el with None => false | Some l => Has (removed l) id end.

(** The index of the loop over the chunks: [index*64 < total]. *)
Definition chunkCount (l : EdgeList) : nat :=
  Z.to_nat ((total l + adjacencyChunkSize - 1) / adjacencyChunkSize).

Definition Chunks (el : option EdgeList) : list (list N) :=
  match el with
  | None => []
  | Some l =>
      if isInline l then match small l with [] => [] | _ => [small l] end
      else (fun index => Get [] (chunks l) (N.of_nat index)) <$> seq 0 (chunkCount l)
  end.

Definition EdgeAll (el : option EdgeList) : list N :=
  match el with
  | None => []
  | Some l =>
      if isInline l then small l
      else
        let hasRemoved := negb (len (removed l) =? 0)%Z in
        filter (fun id => negb hasRemoved || negb (Has (removed l) id)) (concat (Chunks (Some l)))
  end.

Definition IDs (el : option EdgeList) : list N := EdgeAll el.

(** The inline IDs cut into chunks of 64: the loop
    [for start := 0; start < len(small); start += 64]. *)
Fixpoint setChunks (fuel : nat) (m : PagedMap (list N)) (start : Z) (ids : list N) : PagedMap (list N) :=
  match fuel with
  | O => m
  | S fuel =>
      if (start <? zlen ids)%Z then
        let end_ := Z.min (start + adjacencyChunkSize) (zlen ids) in
        let part := take (Z.to_nat (end_ - start)) (drop (Z.to_nat start) ids) in
        setChunks fuel (Set_ [] m (Z.to_N (start / adjacencyChunkSize)) part)
                  (start + adjacencyChunkSize) ids
      else m
  end.

Definition Append (el : option EdgeList) (id : N) : EdgeList :=
  let result := default emptyEdgeList el in
  if isInline result && (zlen (small result) <? adjacencyInlineLimit)%Z then
    mkEdgeList (small result ++ [id]) (chunks result) (removed result)
               (count result + 1) (total result + 1)
  else
    let owned := isInline result in
    let result :=
      if owned then
        mkEdgeList [] (setChunks (length (small result)) NewPagedMap 0 (small result))
                   (removed result) (count result) (zlen (small result))
      else result in
    let chunk := Z.to_N (total result / adjacencyChunkSize) in
    let ids := Get [] (chunks result) chunk in
    let updatedIDs := ids ++ [id] in
    let chunks' := if owned then Set_ [] (chunks result) chunk updatedIDs
                   else ForkSet [] (chunks result) chunk updatedIDs in
    mkEdgeList (small result) chunks' (removed result) (count result + 1) (total result + 1).

Definition compact (l : EdgeList) : option EdgeList :=
  foldl (fun compacted id => Some (Append compacted id)) None (EdgeAll (Some l)).

(** The guard of a synchronous compaction. *)
Definition shouldCompact (l : EdgeList) : bool :=
  (total l <=? adjacencySyncCompactLimit)%Z && (adjacencyChunkSize <? len (removed l))%Z &&
  (count l <? len (removed l))%Z.

(** The chunked half of [RemoveKnown]. *)
Definition removeKnownChunked (l : EdgeList) (id : N) : option EdgeList :=
  if Has (removed l) id then Some l
  else
    let result := mkEdgeList (small l) (chunks l) (Set_ tt (removed l) id tt) (count l - 1) (total l) in
    if shouldCompact result then compact result else Some result.

(** The inline half of [Remove]. *)
Definition removeInline (l : EdgeList) (id : N) : EdgeList :=
  match list_find (fun edgeID => edgeID = id) (small l) with
  | None => l
  | Some (index, _) =>
      mkEdgeList (take index (small l) ++ drop (S index) (small l)) (chunks l) (removed l)
                 (count l - 1) (total l - 1)
  end.

Definition Remove (el : option EdgeList) (id : N) : option EdgeList :=
  match el with
  | None => None
  | Some l =>
      if isInline l then Some (removeInline l id)
      else if Has (removed l) id then Some l
      else if existsb (fun chunk => bool_decide (id ∈ chunk)) (Chunks (Some l))
           then removeKnownChunked l id
           else Some l
  end.

Definition RemoveKnown (el : option EdgeList) (id : N) : option EdgeList :=
  match el with
  | None => Remove None id
  | Some l => if isInline l then Remove (Some l) id else removeKnownChunked l id
  end.

(** The tombstones of [RemoveKnownBatch]: the set and how many IDs were new. *)
Definition addTombstone (st : PagedMap unit * Z) (id : N) : PagedMap unit * Z :=
  if Has st.1 id then st else (Set_ tt st.1 id tt, st.2 + 1)%Z.

Definition RemoveKnownBatch (el : option EdgeList) (ids : list N) : option EdgeList :=
  match el, ids with
  | None, _ => None
  | Some l, [] => Some l
  | Some l, _ =>
      if isInline l then
        let values := filter (fun id => id ∉ ids) (small l) in
        if (length values =? length (small l))%nat then Some l
        else Some (mkEdgeList values (chunks l) (removed l) (zlen values) (zlen values))
      else
        let '(removed', n) := foldl addTombstone (removed l, 0%Z) ids in
        if (n =? 0)%Z then Some l
        else
          let result := mkEdgeList (small l) (chunks l) removed' (count l - n) (total l) in
          if shouldCompact result then compact result else Some result
  end.

(** ** The background compactor *)

Definition adjacencyBackgroundMinTombstones : Z := adjacencyChunkSize.

(** The two adjacency maps of [GraphState]; the compactor only forwards its other
    fields to the result ([CloneGraphStateShallow] forks each of them). *)
Record GraphAdjacency := mkAdjacency {
  Outgoing : PagedMap (option EdgeList);
  Incoming : PagedMap (option EdgeList) }.

Record AdjacencyCompactor := mkCompactor {
  cmpSource : GraphAdjacency;
  cmpResult : option GraphAdjacency;
  direction : N;
  nodeID : N;
  cmpChunk : Z;
  cmpList : EdgeList;
  builderChunks : PagedMap (list N);
  builderTail : list N;
  builderChunk : N;
  builderCount : Z;
  listID : N }.

Definition directionLists (graph : GraphAdjacency) (direction : N) : PagedMap (option EdgeList) :=
  if direction =? 0 then Outgoing graph else Incoming graph.

Definition AdjacencyNeedsCompaction (graph : GraphAdjacency) (direction nodeID : N) : bool :=
  match Get None (directionLists graph direction) nodeID with
  | None => false
  | Some l => negb (isInline l) && (adjacencySyncCompactLimit <? total l)%Z &&
              (adjacencyBackgroundMinTombstones <? len (removed l))%Z
  end.

(** [selectList] with the constructor that calls it: [None] is a nil compactor. *)
Definition NewAdjacencyCompactor (graph : GraphAdjacency) (direction nodeID : N) : option AdjacencyCompactor :=
  match Get None (directionLists graph direction) nodeID with
  | None => None
  | Some l =>
      if isInline l || (len (removed l) <=? adjacencyBackgroundMinTombstones)%Z ||
         (total l <=? adjacencySyncCompactLimit)%Z
      then None
      else Some (mkCompactor graph None direction nodeID 0 l NewPagedMap [] 0 0 nodeID)
  end.

Definition appendLive (c : AdjacencyCompactor) (id : N) : AdjacencyCompactor :=
  if (zlen (builderTail c) =? adjacencyChunkSize)%Z then
    mkCompactor (cmpSource c) (cmpResult c) (direction c) (nodeID c) (cmpChunk c) (cmpList c)
      (Set_ [] (builderChunks c) (builderChunk c) (builderTail c)) [id] (builderChunk c + 1)
      (builderCount c + 1) (listID c)
  else
    mkCompactor (cmpSource c) (cmpResult c) (direction c) (nodeID c) (cmpChunk c) (cmpList c)
      (builderChunks c) (builderTail c ++ [id]) (builderChunk c) (builderCount c + 1) (listID c).

(** The body of the chunk loop: copy the live IDs of the next chunk. *)
Definition copyChunk (c : AdjacencyCompactor) : AdjacencyCompactor :=
  let c := foldl (fun c id => if Has (removed (cmpList c)) id then c else appendLive c id) c
                 (Get [] (chunks (cmpList c)) (Z.to_N (cmpChunk c))) in
  mkCompactor (cmpSource c) (cmpResult c) (direction c) (nodeID c) (cmpChunk c + 1) (cmpList c)
    (builderChunks c) (builderTail c) (builderChunk c) (builderCount c) (listID c).

(** [for c.chunk < count && maxChunks > 0] *)
Fixpoint copyChunks (maxChunks : nat) (count : Z) (c : AdjacencyCompactor) : AdjacencyCompactor :=
  match maxChunks with
  | O => c
  | S maxChunks => if (cmpChunk c <? count)%Z then copyChunks maxChunks count (copyChunk c) else c
  end.

Definition finishBuilder (c : AdjacencyCompactor) : PagedMap (list N) * option EdgeList :=
  let chunks' := match builderTail c with
                 | [] => builderChunks c
                 | _ => Set_ [] (builderChunks c) (builderChunk c) (builderTail c)
                 end in
  (chunks', if (builderCount c =? 0)%Z then None
            else Some (mkEdgeList [] chunks' NewPagedMap (builderCount c) (builderCount c))).

Section compactor.
Context `{MapOrder (pageRoot (option EdgeList))}.

Definition replaceAdjacency (adjacency : PagedMap (option EdgeList)) (nodeID : N)
    (l : option EdgeList) : PagedMap (option EdgeList) :=
  match l with
  | None => Delete None adjacency nodeID
  | Some _ => ForkSet None adjacency nodeID l
  end.

(** [Step]: the compactor with its mutated fields, and (done, changed). The outer
    loop of the code returns in its first iteration on every path. *)
Definition Step (c : AdjacencyCompactor) (maxChunks : Z) : AdjacencyCompactor * (bool * bool) :=
  if (maxChunks <=? 0)%Z then (c, (true, false))
  else
    let count := ((total (cmpList c) + adjacencyChunkSize - 1) / adjacencyChunkSize)%Z in
    let c := copyChunks (Z.to_nat maxChunks) count c in
    if negb (cmpChunk c =? count)%Z then (c, (false, false))
    else
      let result := default (cmpSource c) (cmpResult c) in
      let '(chunks', compacted) := finishBuilder c in
      let result :=
        if direction c =? 0
        then mkAdjacency (replaceAdjacency (Outgoing result) (listID c) compacted) (Incoming result)
        else mkAdjacency (Outgoing result) (replaceAdjacency (Incoming result) (listID c) compacted) in
      (mkCompactor (cmpSource c) (Some result) (direction c) (nodeID c) (cmpChunk c) (cmpList c)
         chunks' (builderTail c) (builderChunk c) (builderCount c) (listID c), (true, true)).

(** The maintenance loop: steps with a fixed budget until done. *)
Fixpoint compactAll (fuel : nat) (maxChunks : Z) (c : AdjacencyCompactor) : option AdjacencyCompactor :=
  match fuel with
  | O => None
  | S fuel => let '(c', (done, _)) := Step c maxChunks in
              if done then Some c' else compactAll fuel maxChunks c'
  end.

End compactor.
