(* ===== verification/AdjacencySpec.v ===== *)
(** * Adjacency lists refine a list of edge IDs

    A list is described by [all], the IDs ever appended since it was last rebuilt,
    in order, and [R], those with a tombstone; what it stands for is [live all R]. *)
From S2P Require Import Prelude.
From S2P Require Import PagedMap.
From S2P Require Import PagedMapSpec.
From S2P Require Import Adjacency.

(** ** Chunks *)

Definition chunkAt (all : list N) (k : nat) : list N := take 64 (drop (64 * k) all).

Lemma concat_chunks (all : list N) n : concat (chunkAt all <$> seq 0 n) = take (64 * n) all.
Proof.
  induction n as [|n IH]; [by rewrite Nat.mul_0_r|].
  rewrite seq_S, fmap_app, concat_app, IH, Nat.add_0_l.
  cbn [concat fmap list_fmap]. rewrite app_nil_r. unfold chunkAt.
  replace (64 * S n)%nat with (64 * n + 64)%nat by lia. by rewrite take_take_drop.
Qed.

Definition chunks_ok (m : PagedMap (list N)) (all : list N) : Prop :=
  exists g, rep [] m g /\
    forall k, g !! k = if (64 * N.to_nat k <? length all)%nat then Some (chunkAt all (N.to_nat k)) else None.

Lemma Get_chunk m all k : chunks_ok m all -> Get [] m k = chunkAt all (N.to_nat k).
Proof.
  intros (g & Hr & Hg). rewrite Get_lookup, (proj1 (proj2 Hr)), Hg.
  destruct (Nat.ltb_spec (64 * N.to_nat k) (length all)); [done|]. simpl.
  unfold chunkAt. by rewrite drop_ge.
Qed.

Lemma chunkAt_app all id j :
  (64 * j < length all + 1)%nat ->
  chunkAt (all ++ [id]) j =
  if (j =? length all / 64)%nat then chunkAt all j ++ [id] else chunkAt all j.
Proof.
  intros Hj. unfold chunkAt.
  pose proof (Nat.div_mod_eq (length all) 64) as Hd.
  pose proof (Nat.mod_upper_bound (length all) 64 ltac:(lia)) as Hm.
  set (q := (length all / 64)%nat) in *. set (r := (length all mod 64)%nat) in *. clearbody q r.
  rewrite drop_app_le by lia.
  destruct (Nat.eqb_spec j q) as [->|Hne].
  - rewrite !take_ge; [done|..]; rewrite ?length_app, length_drop; cbn [length]; lia.
  - rewrite take_app_le; [done|]. rewrite length_drop. lia.
Qed.

(** One more ID: the chunk it belongs to is rewritten, or a new one begun. *)
Lemma chunks_ok_snoc m m' all id :
  chunks_ok m all -> (Z.of_nat (length all) < 2 ^ 63)%Z ->
  (forall g v, rep [] m g -> rep [] (m' v) (<[Z.to_N (zlen all / 64) := v]> g)) ->
  chunks_ok (m' (Get [] m (Z.to_N (zlen all / 64)) ++ [id])) (all ++ [id]).
Proof.
  intros Hc Hlen Hm'. rewrite (Get_chunk _ _ _ Hc). destruct Hc as (g & Hr & Hg).
  assert (Hk : Z.to_N (zlen all / 64) = N.of_nat (length all / 64)).
  { unfold zlen. change 64%Z with (Z.of_nat 64). rewrite <- Nat2Z.inj_div. lia. }
  eexists. split; [by apply Hm'|]. intros k. rewrite Hk, Nat2N.id, length_app. cbn [length].
  pose proof (Nat.div_mod_eq (length all) 64) as Hd.
  pose proof (Nat.mod_upper_bound (length all) 64 ltac:(lia)) as Hm.
  destruct (decide (N.of_nat (length all / 64) = k)) as [<-|Hne].
  - rewrite lookup_insert_eq, Nat2N.id.
    destruct (Nat.ltb_spec (64 * (length all / 64)) (length all + 1)) as [Hlt|]; [|lia].
    rewrite (chunkAt_app all id _ Hlt). by rewrite Nat.eqb_refl.
  - rewrite lookup_insert_ne, Hg by done.
    set (q := (length all / 64)%nat) in *. assert (N.to_nat k <> q) by lia.
    destruct (Nat.ltb_spec (64 * N.to_nat k) (length all)), (Nat.ltb_spec (64 * N.to_nat k) (length all + 1));
      try lia; [|].
    + rewrite chunkAt_app by lia. fold q. by destruct (Nat.eqb_spec (N.to_nat k) q).
    + done.
Qed.

(** ** What a list stands for *)

Definition live (all : list N) (R : gset N) : list N := filter (fun id => id ∉ R) all.

Definition removed_ok (m : PagedMap unit) (R : gset N) : Prop :=
  exists g, rep tt m g /\ dom g = R.

Inductive edges (l : EdgeList) (all : list N) (R : gset N) : Prop :=
  | edges_inline :
      chunks l = NewPagedMap -> removed l = NewPagedMap -> small l = all -> R = ∅ ->
      (length all <= 63)%nat -> count l = zlen all -> total l = zlen all -> edges l all R
  | edges_chunked :
      small l = [] -> all <> [] -> chunks_ok (chunks l) all -> removed_ok (removed l) R ->
      R ⊆ list_to_set all -> total l = zlen all ->
      count l = (zlen all - Z.of_nat (size R))%Z -> edges l all R.

Definition edgesOpt (el : option EdgeList) (all : list N) (R : gset N) : Prop :=
  match el with None => all = [] /\ R = ∅ | Some l => edges l all R end.

Lemma removed_Has m R id : removed_ok m R -> Has m id = bool_decide (id ∈ R).
Proof.
  intros (g & Hr & <-). rewrite (Has_lookup tt), (proj1 (proj2 Hr)).
  apply bool_decide_ext. by rewrite elem_of_dom.
Qed.

Lemma removed_len m R : removed_ok m R -> len m = Z.of_nat (size R).
Proof. intros (g & Hr & <-). rewrite size_dom. apply Hr. Qed.

Lemma removed_set m R id : id < 2 ^ 64 -> removed_ok m R -> removed_ok (Set_ tt m id tt) ({[id]} ∪ R).
Proof.
  intros Hid (g & Hr & <-). exists (<[id := tt]> g). split; [by apply rep_Set|]. apply dom_insert_L.
Qed.

Lemma removed_new : removed_ok NewPagedMap ∅.
Proof. exists ∅. split; [apply rep_new|apply dom_empty_L]. Qed.

Lemma chunked_not_inline m all :
  chunks_ok m all -> all <> [] -> root0 m <> None.
Proof.
  intros (g & Hr & Hg) Hne H0. specialize (Hg 0). change (N.to_nat 0) with 0%nat in Hg.
  destruct all as [|x all]; [done|]. rewrite Nat.mul_0_r in Hg. cbn [length Nat.ltb Nat.leb] in Hg.
  rewrite <- (proj1 (proj2 Hr)) in Hg. unfold lookupID, pageByKey, root in Hg.
  change (pageIndexes (N.shiftr 0 6)) with (0, 0, 0) in Hg. cbn in Hg. by rewrite H0 in Hg.
Qed.

Lemma edges_isInline l all R :
  edges l all R ->
  isInline l = true /\ chunks l = NewPagedMap /\ removed l = NewPagedMap /\ small l = all /\ R = ∅ /\
    (length all <= 63)%nat /\ count l = zlen all /\ total l = zlen all \/
  isInline l = false /\ small l = [] /\ all <> [] /\ chunks_ok (chunks l) all /\
    removed_ok (removed l) R /\ R ⊆ list_to_set all /\ total l = zlen all /\
    count l = (zlen all - Z.of_nat (size R))%Z.
Proof.
  intros [Hc Hrm Hs HR Hl Hn Ht|Hs Hne Hc Hrm HR Ht Hn].
  - left. unfold isInline. rewrite Hc. split_and!; done.
  - right. unfold isInline. rewrite bool_decide_false by (by eapply chunked_not_inline).
    split_and!; done.
Qed.

Lemma live_empty all : live all ∅ = all.
Proof. unfold live. apply filter_all. set_solver. Qed.

Lemma length_filter_split (all : list N) (R : gset N) :
  (length (filter (fun id => id ∉ R) all) + length (filter (fun id => id ∈ R) all) = length all)%nat.
Proof.
  induction all as [|x all IH]; [done|]. rewrite !filter_cons. simpl.
  destruct (decide (x ∈ R)), (decide (x ∉ R)); try done; simpl; lia.
Qed.

Lemma live_length all R :
  NoDup all -> R ⊆ list_to_set all -> zlen (live all R) = (zlen all - Z.of_nat (size R))%Z.
Proof.
  intros Hnd HR. unfold zlen.
  assert (Hsz : size R = length (filter (fun id => id ∈ R) all)).
  { assert (E : R = list_to_set (filter (fun id => id ∈ R) all)).
    { apply set_eq. intros x. rewrite elem_of_list_to_set, list_elem_of_filter. set_solver. }
    rewrite E at 1. rewrite size_list_to_set; [done|]. by apply NoDup_filter. }
  rewrite Hsz. unfold live. pose proof (length_filter_split all R) as Hs. lia.
Qed.

(** ** Reads *)

Lemma Chunks_concat l all R :
  edges l all R -> concat (Chunks (Some l)) = all.
Proof.
  intros He. apply edges_isInline in He as
    [(E & _ & _ & Hs & _)|(E & Hs & Hne & Hc & _ & _ & Ht & _)]; cbn [Chunks]; rewrite E.
  - rewrite Hs. destruct all; [done|]. cbn [concat]. apply app_nil_r.
  - erewrite list_fmap_ext; [|intros i k _; rewrite (Get_chunk _ _ _ Hc), Nat2N.id; reflexivity].
    rewrite concat_chunks. apply take_ge. unfold chunkCount, adjacencyChunkSize, zlen in *. rewrite Ht.
    assert (0 <= (Z.of_nat (length all) + 64 - 1) / 64)%Z by (apply Z.div_pos; lia).
    pose proof (Z.div_mod (Z.of_nat (length all) + 64 - 1) 64 ltac:(lia)).
    pose proof (Z.mod_pos_bound (Z.of_nat (length all) + 64 - 1) 64 ltac:(lia)). lia.
Qed.

Lemma EdgeAll_live el all R : edgesOpt el all R -> EdgeAll el = live all R.
Proof.
  destruct el as [l|]; [|by intros [-> ->]]. intros He. pose proof (Chunks_concat l all R He) as Hc.
  apply edges_isInline in He as
    [(E & _ & _ & Hs & -> & _)|(E & Hs & Hne & _ & Hr & _)]; cbn [EdgeAll]; rewrite E.
  - by rewrite live_empty.
  - rewrite Hc, (removed_len _ _ Hr). apply filter_ext_in. intros x Hx.
    rewrite (removed_Has _ _ _ Hr), negb_involutive. case_cmp; cbn [orb].
    + assert (R = ∅) as -> by (apply leibniz_equiv, size_empty_inv; lia). set_solver.
    + rewrite Is_true_true, negb_true_iff, bool_decide_eq_false. done.
Qed.

Lemma EdgeLen_live el all R : NoDup all -> edgesOpt el all R -> EdgeLen el = zlen (live all R).
Proof.
  intros Hnd. destruct el as [l|]; [|by intros [-> ->]]. intros He.
  apply edges_isInline in He as
    [(_ & _ & _ & _ & -> & _ & Hc & _)|(_ & _ & _ & _ & _ & HR & _ & Hc)]; cbn [EdgeLen].
  - by rewrite live_empty.
  - by rewrite live_length.
Qed.

(** ** Append *)

Lemma chunks_ok_one ids : ids <> [] -> (length ids <= 64)%nat -> chunks_ok (Set_ [] NewPagedMap 0 ids) ids.
Proof.
  intros Hne Hlen. exists (<[0 := ids]> ∅). split; [apply rep_Set; [apply rep_new|done]|].
  intros k. destruct (decide (0 = k)) as [<-|Hk].
  - rewrite lookup_insert_eq. unfold chunkAt. change (N.to_nat 0) with 0%nat.
    rewrite Nat.mul_0_r, drop_0, take_ge by done. by destruct ids.
  - rewrite lookup_insert_ne, lookup_empty by done.
    destruct (Nat.ltb_spec (64 * N.to_nat k) (length ids)); [lia|done].
Qed.

Lemma setChunks_one fuel ids :
  ids <> [] -> (length ids <= 64)%nat -> (0 < fuel)%nat ->
  setChunks fuel NewPagedMap 0 ids = Set_ [] NewPagedMap 0 ids.
Proof.
  intros Hne Hlen Hf. destruct fuel as [|fuel]; [lia|]. cbn [setChunks].
  assert (0 < length ids)%nat by (destruct ids; [done|cbn; lia]).
  destruct (Z.ltb_spec 0 (zlen ids)) as [_|Hz]; [|unfold zlen in Hz; lia].
  replace (Z.to_nat (Z.min (0 + adjacencyChunkSize) (zlen ids) - 0)) with (length ids)
    by (unfold adjacencyChunkSize, zlen; lia).
  change (Z.to_nat 0) with 0%nat. rewrite drop_0, firstn_all.
  change (Z.to_N (0 / adjacencyChunkSize)) with 0. destruct fuel as [|fuel]; [done|]. cbn [setChunks].
  destruct (Z.ltb_spec (0 + adjacencyChunkSize) (zlen ids)) as [Hz|]; [|done].
  unfold adjacencyChunkSize, zlen in Hz. lia.
Qed.

Lemma chunk_index_bound (all : list N) : (zlen all < 2 ^ 63)%Z -> Z.to_N (zlen all / 64) < 2 ^ 64.
Proof.
  intros Hl. assert (zlen all / 64 <= zlen all)%Z by (apply Z.div_le_upper_bound; unfold zlen; lia). lia.
Qed.

Lemma Append_edges el all R id :
  edgesOpt el all R -> (zlen all < 2 ^ 63)%Z -> edges (Append el id) (all ++ [id]) R.
Proof.
  intros He Hlen.
  assert (He' : edges (default emptyEdgeList el) all R).
  { destruct el as [l|]; [done|]. destruct He as [-> ->]. apply edges_inline; try done. cbn. lia. }
  clear He. unfold Append. set (l := default emptyEdgeList el) in *. clearbody l.
  assert (Hz : zlen (all ++ [id]) = (zlen all + 1)%Z) by (unfold zlen; rewrite length_app; cbn; lia).
  pose proof (chunk_index_bound all Hlen) as Hidx.
  apply edges_isInline in He' as
    [(E & Hc & Hr & Hs & -> & H63 & Hn & Ht)|(E & Hs & Hne & Hc & Hr & HR & Ht & Hn)]; rewrite E.
  - rewrite Hs, Hc, Hr. cbn [andb]. unfold adjacencyInlineLimit, adjacencyChunkSize.
    destruct (Z.ltb_spec (zlen all) (64 - 1)) as [Hlt|Hge].
    + apply edges_inline; cbn; try done; [|lia|lia]. rewrite length_app. cbn. unfold zlen in Hlt. lia.
    + unfold zlen in Hge. assert (Hne : all <> []) by (intros ->; cbn in Hge; lia).
      cbn [total chunks small removed count].
      rewrite setChunks_one; [|done|lia|lia].
      apply edges_chunked; cbn [total chunks small removed count];
        [done|by destruct all| |apply removed_new|done|done|rewrite size_empty; lia].
      apply (chunks_ok_snoc _ (fun v => Set_ [] _ _ v)); [apply chunks_ok_one; [done|lia]|done|].
      intros g v Hg. by apply rep_Set.
  - cbn [andb]. rewrite Ht. apply edges_chunked; cbn [total chunks small removed count];
      [done|by destruct all| |done| |lia|lia].
    + apply (chunks_ok_snoc _ (fun v => ForkSet [] _ _ v)); [done|done|].
      intros g v Hg. by apply rep_ForkSet.
    + rewrite list_to_set_app_L. set_solver.
Qed.

Lemma live_snoc all R id : id ∉ R -> live (all ++ [id]) R = live all R ++ [id].
Proof.
  intros Hid. unfold live. rewrite filter_app, filter_cons. by rewrite decide_True.
Qed.

(** ** Removal *)

Lemma foldl_Append ids : forall el acc,
  edgesOpt el acc ∅ -> (zlen (acc ++ ids) < 2 ^ 63)%Z ->
  edgesOpt (foldl (fun compacted id => Some (Append compacted id)) el ids) (acc ++ ids) ∅.
Proof.
  induction ids as [|id ids IH]; intros el acc He Hl; [by rewrite app_nil_r|]. simpl.
  replace (acc ++ id :: ids) with ((acc ++ [id]) ++ ids) in * by (by rewrite <- app_assoc).
  apply IH; [|done]. apply Append_edges; [done|]. unfold zlen in *. rewrite !length_app in Hl. lia.
Qed.

Lemma zlen_filter (P : N -> Prop) `{forall x, Decision (P x)} (l : list N) :
  (zlen (filter P l) <= zlen l)%Z.
Proof. unfold zlen. pose proof (length_filter P l). lia. Qed.

Lemma compact_edges l all R :
  edges l all R -> (zlen all < 2 ^ 63)%Z -> edgesOpt (compact l) (live all R) ∅.
Proof.
  intros He Hl. unfold compact. rewrite (EdgeAll_live (Some l) all R He).
  apply (foldl_Append (live all R) None []); [done|].
  pose proof (zlen_filter (fun id => id ∉ R) all). unfold live. cbn [app]. lia.
Qed.

(** The outcome of a removal: what is left of the list stands for the live IDs
    that were not removed, whether or not it was rebuilt. *)
Definition without (el : option EdgeList) (all : list N) (R X : gset N) : Prop :=
  exists all' R', edgesOpt el all' R' /\ live all' R' = live all (X ∪ R) /\ all' `sublist_of` all.

Lemma without_finish l all R X :
  edges l all (X ∪ R) -> (zlen all < 2 ^ 63)%Z ->
  without (if shouldCompact l then compact l else Some l) all R X.
Proof.
  intros He Hl. destruct (shouldCompact l).
  - exists (live all (X ∪ R)), ∅. split_and!; [by apply compact_edges|apply live_empty|].
    apply sublist_filter.
  - by exists all, (X ∪ R).
Qed.

Lemma without_none el all R X :
  edgesOpt el all R -> (forall x, x ∈ X -> x ∈ all -> x ∈ R) -> without el all R X.
Proof.
  intros He HX. exists all, R. split_and!; [done| |done]. unfold live. apply filter_ext_in.
  set_solver.
Qed.

Lemma size_union_one (R : gset N) id : id ∉ R -> size ({[id]} ∪ R) = S (size R).
Proof. intros. rewrite size_union by set_solver. by rewrite size_singleton. Qed.

Lemma removeKnownChunked_ok l all R id :
  edges l all R -> isInline l = false -> (zlen all < 2 ^ 63)%Z -> id ∈ all -> id < 2 ^ 64 ->
  without (removeKnownChunked l id) all R {[id]}.
Proof.
  intros He Ei Hl Hin Hid. pose proof He as He'. apply edges_isInline in He' as
    [(E & _)|(_ & Hs & Hne & Hc & Hr & HR & Ht & Hn)]; [congruence|].
  unfold removeKnownChunked. rewrite (removed_Has _ _ _ Hr). case_bool_decide as HidR.
  - apply (without_none (Some l)); [done|set_solver].
  - apply without_finish; [|done]. apply edges_chunked; cbn; try done.
    + by apply removed_set.
    + set_solver.
    + rewrite size_union_one by done. lia.
Qed.

Lemma filter_take_drop (all : list N) id index x :
  NoDup all -> list_find (fun edgeID => edgeID = id) all = Some (index, x) ->
  take index all ++ drop (S index) all = filter (fun y => y ≠ id) all.
Proof.
  intros Hnd (Hx & -> & _)%list_find_Some.
  rewrite <- (take_drop_middle _ _ _ Hx) at 3. rewrite <- (take_drop_middle _ _ _ Hx) in Hnd.
  apply NoDup_app in Hnd as (_ & Hd & [Hn _]%NoDup_cons).
  rewrite filter_app, filter_cons, decide_False by (intros ?; congruence).
  rewrite !filter_all; [done| |].
  - intros y Hy ->. done.
  - intros y Hy ->. apply (Hd id Hy). set_solver.
Qed.

Lemma removeInline_ok l all R id :
  edges l all R -> isInline l = true -> NoDup all -> without (Some (removeInline l id)) all R {[id]}.
Proof.
  intros He Ei Hnd. pose proof He as He'. apply edges_isInline in He' as
    [(_ & Hc & Hr & Hs & HR & H63 & Hn & Ht)|(E & _)]; [|congruence].
  unfold removeInline. rewrite Hs. destruct (list_find _ all) as [[index x]|] eqn:Ef.
  - rewrite (filter_take_drop _ _ _ _ Hnd Ef). set (rest := filter (fun y => y ≠ id) all).
    assert (Hrest : zlen rest = (zlen all - 1)%Z).
    { unfold rest. rewrite <- (filter_take_drop _ _ _ _ Hnd Ef). apply list_find_Some in Ef as (Hx & _ & _).
      apply lookup_lt_Some in Hx. unfold zlen. rewrite length_app, length_take, length_drop. lia. }
    exists rest, ∅. split_and!; [|rewrite live_empty|apply sublist_filter].
    + apply edges_inline; cbn; try done; [|lia|lia]. unfold zlen in Hrest. lia.
    + subst R. unfold live, rest. apply filter_ext_in. set_solver.
  - apply (without_none (Some l)); [done|]. intros y ->%elem_of_singleton Hy.
    apply list_find_None in Ef. rewrite Forall_forall in Ef. by apply Ef in Hy.
Qed.

Lemma existsb_Chunks l all R id :
  edges l all R ->
  existsb (fun chunk => bool_decide (id ∈ chunk)) (Chunks (Some l)) = bool_decide (id ∈ all).
Proof.
  intros He. rewrite <- (Chunks_concat l all R He). apply eq_bool_prop_intro.
  rewrite !Is_true_true, existsb_exists, bool_decide_eq_true. setoid_rewrite <- list_elem_of_In.
  rewrite elem_of_concat. split.
  - intros (c & Hc & Hi%bool_decide_eq_true). eauto.
  - intros (c & Hi & Hc). exists c. split; [done|]. by apply bool_decide_eq_true.
Qed.

Lemma Remove_ok el all R id :
  edgesOpt el all R -> NoDup all -> (zlen all < 2 ^ 63)%Z -> Forall (fun x => x < 2 ^ 64) all ->
  without (Remove el id) all R {[id]}.
Proof.
  intros He Hnd Hl H64. destruct el as [l|]; [|apply (without_none None); [done|]].
  2:{ destruct He as [-> _]. set_solver. }
  cbn [Remove]. destruct (isInline l) eqn:Ei; [by apply removeInline_ok|].
  pose proof He as He'. apply edges_isInline in He' as
    [(E & _)|(_ & Hs & Hne & Hc & Hr & HR & Ht & Hn)]; [congruence|].
  rewrite (removed_Has _ _ _ Hr), (existsb_Chunks l all R) by done.
  repeat case_bool_decide.
  - apply (without_none (Some l)); [done|set_solver].
  - rewrite Forall_forall in H64. apply removeKnownChunked_ok; auto.
  - apply (without_none (Some l)); [done|set_solver].
Qed.

Lemma RemoveKnown_ok el all R id :
  edgesOpt el all R -> NoDup all -> (zlen all < 2 ^ 63)%Z -> Forall (fun x => x < 2 ^ 64) all ->
  id ∈ all -> without (RemoveKnown el id) all R {[id]}.
Proof.
  intros He Hnd Hl H64 Hin. destruct el as [l|]; [|by apply (Remove_ok None)].
  cbn [RemoveKnown]. destruct (isInline l) eqn:Ei; [by apply (Remove_ok (Some l))|].
  rewrite Forall_forall in H64. apply removeKnownChunked_ok; auto.
Qed.

Lemma addTombstones_ok ids : forall m R n,
  removed_ok m R -> Forall (fun x => x < 2 ^ 64) ids ->
  removed_ok (foldl addTombstone (m, n) ids).1 (list_to_set ids ∪ R) /\
  (foldl addTombstone (m, n) ids).2 = (n + Z.of_nat (size (list_to_set ids ∪ R : gset N)) - Z.of_nat (size R))%Z.
Proof.
  induction ids as [|id ids IH]; intros m R n Hr H64; simpl.
  - rewrite (left_id_L ∅ (∪)). split; [done|lia].
  - apply Forall_cons in H64 as [Hid H64]. unfold addTombstone at 2 4. cbn [fst snd].
    rewrite (removed_Has _ _ _ Hr). case_bool_decide as HidR.
    + replace ({[id]} ∪ list_to_set ids ∪ R) with (list_to_set ids ∪ R : gset N) by set_solver.
      by apply IH.
    + destruct (IH (Set_ tt m id tt) ({[id]} ∪ R) (n + 1)%Z) as [H1 H2]; [by apply removed_set|done|].
      replace ({[id]} ∪ list_to_set ids ∪ R) with (list_to_set ids ∪ ({[id]} ∪ R) : gset N) by set_solver.
      split; [done|]. rewrite H2, (size_union_one R id) by done. lia.
Qed.

Lemma filter_length_eq (P : N -> Prop) `{forall x, Decision (P x)} (l : list N) :
  length (filter P l) = length l -> forall x, x ∈ l -> P x.
Proof.
  induction l as [|y l IH]; [set_solver|]. rewrite filter_cons. pose proof (length_filter P l).
  destruct (decide (P y)); simpl; [|lia]. intros [= E] x [->|Hx]%elem_of_cons; [done|auto].
Qed.

Lemma RemoveKnownBatch_ok el all R ids :
  edgesOpt el all R -> (zlen all < 2 ^ 63)%Z -> Forall (fun x => x < 2 ^ 64) all ->
  ids ⊆ all -> without (RemoveKnownBatch el ids) all R (list_to_set ids).
Proof.
  intros He Hl H64 Hsub. destruct el as [l|]; cbn [RemoveKnownBatch].
  2:{ apply (without_none None); [done|]. destruct He as [-> _]. set_solver. }
  destruct ids as [|id0 ids0] eqn:Eids; [apply (without_none (Some l)); [done|set_solver]|].
  rewrite <- Eids in *. clear Eids.
  pose proof He as He'. apply edges_isInline in He' as
    [(E & Hc & Hr & Hs & HR & H63 & Hn & Ht)|(E & Hs & Hne & Hc & Hr & HR & Ht & Hn)]; rewrite E.
  - rewrite Hs. destruct (Nat.eqb_spec (length (filter (fun id => id ∉ ids) all)) (length all)) as [Hf|Hf].
    + apply (without_none (Some l)); [done|]. intros x Hx Hin. exfalso.
      apply (filter_length_eq _ _ Hf x Hin). set_solver.
    + set (rest := filter (fun id => id ∉ ids) all). exists rest, ∅.
      split_and!; [|rewrite live_empty|apply sublist_filter].
      * apply edges_inline; cbn; try done. pose proof (length_filter (fun id => id ∉ ids) all).
        unfold rest. lia.
      * subst R. unfold live, rest. apply filter_ext_in. set_solver.
  - assert (Hids : Forall (fun x => x < 2 ^ 64) ids).
    { rewrite Forall_forall in *. auto. }
    destruct (addTombstones_ok ids (removed l) R 0 Hr Hids) as [H1 H2].
    destruct (foldl addTombstone (removed l, 0%Z) ids) as [removed' n]. cbn [fst snd] in *.
    assert (HXR : list_to_set ids ∪ R ⊆ (list_to_set all : gset N)) by set_solver.
    case_cmp; subst.
    + apply (without_none (Some l)); [done|]. intros x Hx Hin.
      assert (Hsz : R = list_to_set ids ∪ R); [|rewrite Hsz; set_solver].
      apply leibniz_equiv, set_subseteq_size_equiv; [set_solver|lia].
    + apply without_finish; [|done]. apply edges_chunked; cbn; try done. lia.
Qed.

(** ** Sequences of operations *)

Inductive edgeOp :=
  | EAppend (id : N)
  | ERemove (id : N)
  | ERemoveKnown (id : N)
  | ERemoveBatch (ids : list N).

Definition applyEdgeOp (el : option EdgeList) (op : edgeOp) : option EdgeList :=
  match op with
  | EAppend id => Some (Append el id)
  | ERemove id => Remove el id
  | ERemoveKnown id => RemoveKnown el id
  | ERemoveBatch ids => RemoveKnownBatch el ids
  end.

Definition specEdgeOp (l : list N) (op : edgeOp) : list N :=
  match op with
  | EAppend id => l ++ [id]
  | ERemove id | ERemoveKnown id => filter (fun x => x <> id) l
  | ERemoveBatch ids => filter (fun x => x ∉ ids) l
  end.

(** What the callers guarantee: edge IDs are never reused, and the Known
    operations are called with IDs of the list. *)
Fixpoint validEdgeOps (used l : list N) (ops : list edgeOp) : Prop :=
  match ops with
  | [] => (zlen used < 2 ^ 63)%Z
  | op :: ops =>
      match op with
      | EAppend id => id < 2 ^ 64 /\ id ∉ used
      | ERemove _ => True
      | ERemoveKnown id => id ∈ l
      | ERemoveBatch ids => ids ⊆ l
      end /\
      validEdgeOps (match op with EAppend id => id :: used | _ => used end) (specEdgeOp l op) ops
  end.

#[global] Instance validEdgeOps_dec ops : forall used l, Decision (validEdgeOps used l ops).
Proof.
  induction ops as [|op ops IH]; intros used l; cbn [validEdgeOps]; [apply _|].
  apply and_dec; [|apply IH]. destruct op; apply _.
Defined.

Definition stands (el : option EdgeList) (l used : list N) : Prop :=
  exists all R, edgesOpt el all R /\ l = live all R /\ NoDup all /\ all ⊆ used /\
    Forall (fun x => x < 2 ^ 64) all /\ (zlen all <= zlen used)%Z.

Lemma edgesOpt_removed el all R : edgesOpt el all R -> R ⊆ list_to_set all.
Proof.
  destruct el as [l|]; [|intros [_ ->]; set_solver]. intros [| ]; [subst; set_solver|done].
Qed.

Lemma live_union all R X : live all (X ∪ R) = filter (fun x => x ∉ X) (live all R).
Proof. unfold live. rewrite list_filter_filter. apply list_filter_iff. set_solver. Qed.

Lemma stands_without el el' used l (X : gset N) :
  stands el l used -> (zlen used < 2 ^ 63)%Z ->
  (forall all R, edgesOpt el all R -> l = live all R -> NoDup all -> (zlen all < 2 ^ 63)%Z ->
     Forall (fun x => x < 2 ^ 64) all -> without el' all R X) ->
  stands el' (filter (fun x => x ∉ X) l) used.
Proof.
  intros (all & R & He & -> & Hnd & Hsub & H64 & Hlen) Hu Hw.
  destruct (Hw all R He eq_refl Hnd ltac:(lia) H64) as (all' & R' & He' & Hl' & Hsl).
  exists all', R'. split; [done|]. split; [by rewrite Hl', live_union|].
  split; [by eapply sublist_NoDup|].
  assert (all' ⊆ all). { intros x Hx. eapply elem_of_submseteq; [done|]. by apply sublist_submseteq. }
  split; [set_solver|]. split.
  - rewrite Forall_forall in *. auto.
  - apply sublist_length in Hsl. unfold zlen in *. lia.
Qed.

Lemma live_sub all R : live all R ⊆ all.
Proof. intros x Hx. apply list_elem_of_filter in Hx. tauto. Qed.

Lemma validEdgeOps_used ops : forall used l, validEdgeOps used l ops -> (zlen used < 2 ^ 63)%Z.
Proof.
  induction ops as [|op ops IH]; intros used l; [done|]. intros [_ Hv%IH].
  destruct op; try done. unfold zlen in *. cbn [length] in Hv. lia.
Qed.

Lemma stands_step el l used op ops :
  stands el l used -> validEdgeOps used l (op :: ops) ->
  stands (applyEdgeOp el op) (specEdgeOp l op) (match op with EAppend id => id :: used | _ => used end).
Proof.
  intros Hs Hv. pose proof (validEdgeOps_used _ _ _ Hv) as Hu. destruct Hv as [Hop _].
  destruct op as [id|id|id|ids]; cbn [applyEdgeOp specEdgeOp].
  - destruct Hs as (all & R & He & -> & Hnd & Hsub & H64 & Hlen). destruct Hop as [Hid Hnew].
    pose proof (edgesOpt_removed _ _ _ He) as HR. assert (id ∉ all) by set_solver.
    exists (all ++ [id]), R. split; [apply Append_edges; [done|lia]|].
    split; [by rewrite live_snoc by set_solver|]. split.
    { apply NoDup_app. split_and!; [done|set_solver|apply NoDup_singleton]. }
    split; [set_solver|]. split; [apply Forall_app; by repeat constructor|].
    unfold zlen in *. rewrite length_app. cbn [length]. lia.
  - rewrite (list_filter_iff _ (fun x => x ∉ ({[id]} : gset N))) by set_solver.
    eapply stands_without; [done|done|]. intros all R He _ Hnd Hz H64. by apply Remove_ok.
  - rewrite (list_filter_iff _ (fun x => x ∉ ({[id]} : gset N))) by set_solver.
    eapply stands_without; [done|done|]. intros all R He -> Hnd Hz H64.
    apply RemoveKnown_ok; try done. by apply live_sub in Hop.
  - rewrite (list_filter_iff _ (fun x => x ∉ (list_to_set ids : gset N))) by set_solver.
    eapply stands_without; [done|done|]. intros all R He -> Hnd Hz H64.
    apply RemoveKnownBatch_ok; try done. pose proof (live_sub all R). set_solver.
Qed.

Lemma stands_ops ops : forall el l used,
  stands el l used -> validEdgeOps used l ops ->
  exists used', stands (foldl applyEdgeOp el ops) (foldl specEdgeOp l ops) used' /\
                (zlen used' < 2 ^ 63)%Z.
Proof.
  induction ops as [|op ops IH]; intros el l used Hs Hv; [by exists used|]. simpl.
  pose proof (stands_step _ _ _ _ _ Hs Hv). destruct Hv as [_ Hv]. by eapply IH.
Qed.

Lemma stands_nil : stands None [] [].
Proof. exists [], ∅. split_and!; try done; constructor. Qed.

Lemma stands_reads el l used :
  stands el l used -> IDs el = l /\ EdgeLen el = zlen l /\ NoDup l.
Proof.
  intros (all & R & He & -> & Hnd & _). split_and!.
  - by apply EdgeAll_live.
  - by apply EdgeLen_live.
  - by apply NoDup_filter.
Qed.

(** C20. Whatever mix of appends and removals built it, across the inline and the
    chunked form, tombstones and synchronous compaction, an adjacency list holds
    exactly the appended and not yet removed edge IDs, each once, in append order,
    and Len counts them. *)
Theorem EdgeList_refines_id_list ops :
  validEdgeOps [] [] ops ->
  IDs (foldl applyEdgeOp None ops) = foldl specEdgeOp [] ops /\
  EdgeLen (foldl applyEdgeOp None ops) = zlen (foldl specEdgeOp [] ops) /\
  NoDup (foldl specEdgeOp [] ops).
Proof.
  intros Hv. destruct (stands_ops ops None [] [] stands_nil Hv) as (used & Hs & _).
  by eapply stands_reads.
Qed.

(** Seventy appends, single and batch removals, and enough further removals for
    the synchronous compaction to run. *)
Definition sampleEdgeOps : list edgeOp :=
  ((fun i => EAppend (N.of_nat i)) <$> seq 100 70) ++ [ERemove 103; ERemove 999; ERemoveKnown 105; ERemoveBatch [107; 109; 107]] ++
  ((fun i => ERemoveKnown (N.of_nat i)) <$> seq 110 60) ++ [ERemoveBatch [100; 101]; EAppend 7].

Lemma EdgeList_refines_id_list_witness :
  EdgeLen (foldl applyEdgeOp None sampleEdgeOps) = 5%Z /\
  IDs (foldl applyEdgeOp None sampleEdgeOps) = foldl specEdgeOp [] sampleEdgeOps.
Proof.
  split; [by vm_compute|].
  apply (EdgeList_refines_id_list sampleEdgeOps). apply (bool_decide_unpack _). vm_compute. exact I.
Defined.
