(* ===== verification/AdjacencyCompaction.v ===== *)
(** * The adjacency compactor rebuilds what the list stands for

    However the work is cut into steps, the compactor ends after as many steps as
    the list has chunks at most, and publishes a graph in which the list holds the
    same live IDs without tombstones and nothing else has changed. *)
From S2P Require Import Prelude.
From S2P Require Import PagedMap.
From S2P Require Import PagedMapSpec.
From S2P Require Import PagedMapIter.
From S2P Require Import Adjacency.
From S2P Require Import AdjacencySpec.

(** ** The builder *)

Lemma chunks_ok_nil : chunks_ok NewPagedMap [].
Proof. exists ∅. split; [apply rep_new|]. intros k. by rewrite lookup_empty. Qed.

(** A whole chunk put after full ones. *)
Lemma chunks_ok_add m k full tail :
  chunks_ok m full -> length full = (64 * N.to_nat k)%nat -> k < 2 ^ 64 ->
  tail <> [] -> (length tail <= 64)%nat -> chunks_ok (Set_ [] m k tail) (full ++ tail).
Proof.
  intros (g & Hr & Hg) Hf Hk Hne Ht. exists (<[k := tail]> g). split; [by apply rep_Set|].
  assert (0 < length tail)%nat by (destruct tail; [done|cbn; lia]).
  intros j. rewrite length_app. destruct (decide (k = j)) as [<-|Hj].
  - rewrite lookup_insert_eq. destruct (Nat.ltb_spec (64 * N.to_nat k) (length full + length tail)); [|lia].
    unfold chunkAt. rewrite drop_app_ge by lia.
    replace (64 * N.to_nat k - length full)%nat with 0%nat by lia.
    rewrite drop_0. by rewrite take_ge.
  - rewrite lookup_insert_ne, Hg by done. rewrite Hf.
    destruct (Nat.ltb_spec (64 * N.to_nat j) (64 * N.to_nat k)),
      (Nat.ltb_spec (64 * N.to_nat j) (64 * N.to_nat k + length tail)); try lia; [|done].
    unfold chunkAt. rewrite drop_app_le by lia. rewrite take_app_le; [done|]. rewrite length_drop. lia.
Qed.

(** [done] is what the builder holds: full chunks in the map, the rest in the tail. *)
Definition building (c : AdjacencyCompactor) (done : list N) : Prop :=
  exists full, done = full ++ builderTail c /\ chunks_ok (builderChunks c) full /\
    length full = (64 * N.to_nat (builderChunk c))%nat /\ (length (builderTail c) <= 64)%nat /\
    (full <> [] -> builderTail c <> []) /\ builderCount c = zlen done.

Lemma building_bound c done k :
  building c done -> (zlen done < 2 ^ 63)%Z -> (k <= builderChunk c)%N -> k < 2 ^ 64.
Proof.
  intros (full & -> & _ & Hf & _) Hz Hk. unfold zlen in Hz. rewrite length_app in Hz. lia.
Qed.

Lemma appendLive_building c done id :
  building c done -> (zlen done < 2 ^ 63)%Z -> building (appendLive c id) (done ++ [id]).
Proof.
  intros Hb Hz. pose proof (building_bound _ _ (builderChunk c) Hb Hz ltac:(lia)) as Hk.
  destruct Hb as (full & -> & Hc & Hf & Ht & Hne & Hn).
  assert (Hlen : forall l : list N, zlen (l ++ [id]) = (zlen l + 1)%Z)
    by (intros l; unfold zlen; rewrite length_app; cbn; lia).
  unfold appendLive, adjacencyChunkSize. case_cmp.
  - exists (full ++ builderTail c). cbn [builderTail builderChunks builderChunk builderCount].
    unfold zlen in e. split_and!.
    + done.
    + apply chunks_ok_add; try done. intros E. rewrite E in e. done.
    + rewrite length_app. lia.
    + cbn. lia.
    + done.
    + rewrite Hlen. lia.
  - exists full. cbn [builderTail builderChunks builderChunk builderCount].
    unfold zlen in n. split_and!.
    + by rewrite app_assoc.
    + done.
    + done.
    + rewrite length_app. cbn. lia.
    + intros _ E. by apply app_nil in E as [_ ?].
    + rewrite Hlen. lia.
Qed.

(** What [appendLive] leaves alone. *)
Definition sameTarget (c c' : AdjacencyCompactor) : Prop :=
  cmpSource c' = cmpSource c /\ cmpResult c' = cmpResult c /\ direction c' = direction c /\
  cmpList c' = cmpList c /\ listID c' = listID c.

Lemma sameTarget_trans c1 c2 c3 : sameTarget c1 c2 -> sameTarget c2 c3 -> sameTarget c1 c3.
Proof. unfold sameTarget. naive_solver congruence. Qed.

Lemma appendLive_same c id : sameTarget c (appendLive c id) /\ cmpChunk (appendLive c id) = cmpChunk c.
Proof. unfold appendLive. by destruct (_ =? _)%Z. Qed.

Lemma copy_ids R ids : forall c done,
  removed_ok (removed (cmpList c)) R -> building c done -> (zlen (done ++ ids) < 2 ^ 63)%Z ->
  let c' := foldl (fun c id => if Has (removed (cmpList c)) id then c else appendLive c id) c ids in
  building c' (done ++ live ids R) /\ sameTarget c c' /\ cmpChunk c' = cmpChunk c.
Proof.
  induction ids as [|id ids IH]; intros c done Hr Hb Hz; cbn [foldl].
  { cbn. rewrite app_nil_r. by split_and!. }
  assert (Hz' : (zlen done < 2 ^ 63)%Z /\ (zlen (done ++ ids) < 2 ^ 63)%Z /\
            (zlen ((done ++ [id]) ++ ids) < 2 ^ 63)%Z).
  { unfold zlen in *. rewrite !length_app in *. cbn in *. lia. }
  destruct Hz' as (Hz1 & Hz2 & Hz3).
  rewrite (removed_Has _ _ _ Hr). unfold live. rewrite filter_cons. case_bool_decide as Hid.
  - rewrite decide_False by tauto. by apply IH.
  - rewrite decide_True by done. destruct (appendLive_same c id) as [S1 C1].
    destruct (IH (appendLive c id) (done ++ [id])) as (B2 & S2 & C2).
    + destruct S1 as (_ & _ & _ & -> & _). done.
    + by apply appendLive_building.
    + done.
    + rewrite <- app_assoc in B2. split_and!; [done|by eapply sameTarget_trans|congruence].
Qed.

(** ** The chunk loop *)

Record progress (c : AdjacencyCompactor) (all : list N) (R : gset N) (k : nat) : Prop := {
  p_edges : edges (cmpList c) all R;
  p_chunked : isInline (cmpList c) = false;
  p_len : (zlen all < 2 ^ 63)%Z;
  p_chunk : cmpChunk c = Z.of_nat k;
  p_built : building c (live (take (64 * k) all) R) }.

Definition chunksOf (all : list N) : nat := Z.to_nat ((zlen all + 64 - 1) / 64).

Lemma chunksOf_bound all : (length all <= 64 * chunksOf all < length all + 64)%nat.
Proof.
  unfold chunksOf, zlen.
  assert (0 <= (Z.of_nat (length all) + 64 - 1) / 64)%Z by (apply Z.div_pos; lia).
  pose proof (Z.div_mod (Z.of_nat (length all) + 64 - 1) 64 ltac:(lia)).
  pose proof (Z.mod_pos_bound (Z.of_nat (length all) + 64 - 1) 64 ltac:(lia)). lia.
Qed.

Lemma live_app l1 l2 R : live (l1 ++ l2) R = live l1 R ++ live l2 R.
Proof. apply filter_app. Qed.

Lemma copyChunk_progress c all R k :
  progress c all R k -> progress (copyChunk c) all R (S k) /\ sameTarget c (copyChunk c).
Proof.
  intros [He Hi Hz Hk Hb]. pose proof He as He'. apply edges_isInline in He' as
    [(E & _)|(_ & _ & _ & Hc & Hr & _)]; [congruence|].
  unfold copyChunk. rewrite (Get_chunk _ _ _ Hc), Hk.
  replace (N.to_nat (Z.to_N (Z.of_nat k))) with k by lia.
  destruct (copy_ids R (chunkAt all k) c _ Hr Hb) as (B & S' & C).
  { pose proof (zlen_filter (fun id => id ∉ R) (take (64 * k) all)) as Hf.
    unfold zlen, live, chunkAt in *. rewrite length_app, !length_take, length_drop in *. lia. }
  set (c' := foldl _ c _) in *. clearbody c'.
  assert (Hl : cmpList c' = cmpList c) by apply S'.
  split; [|done].
  split; cbn [cmpList cmpChunk]; rewrite ?Hl; try done.
  - rewrite C, Hk. lia.
  - replace (64 * S k)%nat with (64 * k + 64)%nat by lia.
    rewrite <- take_take_drop, live_app. exact B.
Qed.

Lemma copyChunks_progress n all R : forall c k,
  progress c all R k -> (k <= chunksOf all)%nat ->
  let c' := copyChunks n (Z.of_nat (chunksOf all)) c in
  progress c' all R (Nat.min (chunksOf all) (k + n)) /\ sameTarget c c'.
Proof.
  induction n as [|n IH]; intros c k Hp Hk; cbn [copyChunks].
  { replace (Nat.min _ _) with k by lia. by split; [|unfold sameTarget]. }
  rewrite (p_chunk _ _ _ _ Hp). case_cmp.
  - destruct (copyChunk_progress _ _ _ _ Hp) as [Hp1 S1].
    destruct (IH _ _ Hp1 ltac:(lia)) as [Hp2 S2].
    replace (k + S n)%nat with (S k + n)%nat by lia. split; [done|by eapply sameTarget_trans].
  - replace (Nat.min _ _) with k by lia. by split; [|unfold sameTarget].
Qed.

(** ** The result *)

Lemma finishBuilder_edges c done :
  building c done -> (zlen done < 2 ^ 63)%Z -> edgesOpt (finishBuilder c).2 done ∅.
Proof.
  intros Hb Hz. pose proof (building_bound _ _ (builderChunk c) Hb Hz ltac:(lia)) as Hk.
  destruct Hb as (full & Ed & Hc & Hf & Ht & Hne & Hn). unfold finishBuilder. cbn [snd].
  case_cmp.
  - unfold zlen in *. rewrite Hn in e. destruct done; [done|]. cbn in e. lia.
  - assert (Hdone : done <> []) by (intros ->; apply n; by rewrite Hn).
    assert (Htail : builderTail c <> []).
    { intros E. destruct full as [|x full]; [|by apply Hne]. rewrite E in Ed. done. }
    apply edges_chunked; cbn [small chunks removed total count]; try done.
    + destruct (builderTail c) as [|x t] eqn:Et; [done|]. rewrite <- Et in *. rewrite Ed.
      apply chunks_ok_add; done.
    + apply removed_new.
    + rewrite size_empty. lia.
Qed.

Section publish.
Context `{MapOrder (pageRoot (option EdgeList))}.
Implicit Types (graph : GraphAdjacency).

Lemma Get_replace m g nodeID el id :
  rep None m g -> nodeID < 2 ^ 64 ->
  Get None (replaceAdjacency m nodeID el) id =
  if id =? nodeID then el else Get None m id.
Proof.
  intros Hr Hn. unfold replaceAdjacency. rewrite !Get_lookup.
  rewrite (proj1 (proj2 Hr)). destruct el as [l|].
  - rewrite (proj1 (proj2 (rep_ForkSet _ _ _ _ (Some l) Hr Hn))), lookup_insert.
    by destruct (N.eqb_spec id nodeID); case_decide; subst.
  - rewrite (proj1 (proj2 (rep_Delete _ _ _ nodeID Hr))), lookup_delete.
    by destruct (N.eqb_spec id nodeID); case_decide; subst.
Qed.

Definition otherLists graph (direction : N) : PagedMap (option EdgeList) :=
  if direction =? 0 then Incoming graph else Outgoing graph.

(** The published graph: the list rebuilt dense, everything else as it was. *)
Definition published (graph graph' : GraphAdjacency) (direction nodeID : N) (ids : list N) : Prop :=
  otherLists graph' direction = otherLists graph direction /\
  (forall id, id <> nodeID ->
     Get None (directionLists graph' direction) id = Get None (directionLists graph direction) id) /\
  IDs (Get None (directionLists graph' direction) nodeID) = ids /\
  EdgeLen (Get None (directionLists graph' direction) nodeID) = zlen ids /\
  HasRemovals (Get None (directionLists graph' direction) nodeID) = false /\
  AdjacencyNeedsCompaction graph' direction nodeID = false.

Lemma edges_dense el ids :
  edgesOpt el ids ∅ -> NoDup ids ->
  IDs el = ids /\ EdgeLen el = zlen ids /\ HasRemovals el = false.
Proof.
  intros He Hnd. unfold IDs. rewrite (EdgeAll_live _ _ _ He), live_empty.
  rewrite (EdgeLen_live _ _ _ Hnd He), live_empty. split_and!; [done|done|].
  destruct el as [l|]; [|done]. cbn [HasRemovals].
  destruct He as [_ -> _ _ _ _ _|_ _ _ Hr _ _ _]; [done|]. by rewrite (removed_len _ _ Hr).
Qed.

Lemma Step_progress c all R k budget g :
  progress c all R k -> NoDup all -> (k <= chunksOf all)%nat -> (0 < budget)%Z ->
  cmpResult c = None -> rep None (directionLists (cmpSource c) (direction c)) g ->
  listID c < 2 ^ 64 ->
  let '(c', (done, _)) := Step c budget in
  sameTarget c c' /\ done = false /\ progress c' all R (k + Z.to_nat budget) /\
    (k + Z.to_nat budget < chunksOf all)%nat \/
  done = true /\ exists graph', cmpResult c' = Some graph' /\
    published (cmpSource c) graph' (direction c) (listID c) (live all R).
Proof.
  intros Hp Hnd Hk Hbud Hres Hg Hid. unfold Step.
  destruct (Z.leb_spec budget 0) as [|_]; [lia|].
  assert (Ecnt : ((total (cmpList c) + adjacencyChunkSize - 1) / adjacencyChunkSize)%Z = Z.of_nat (chunksOf all)).
  { pose proof (p_edges _ _ _ _ Hp) as He. apply edges_isInline in He as
      [(E & _)|(_ & _ & _ & _ & _ & _ & Ht & _)]; [pose proof (p_chunked _ _ _ _ Hp); congruence|].
    rewrite Ht. unfold chunksOf, adjacencyChunkSize. rewrite Z2Nat.id; [done|].
    apply Z.div_pos; unfold zlen; lia. }
  rewrite Ecnt.
  destruct (copyChunks_progress (Z.to_nat budget) all R c k Hp Hk) as [Hp' S'].
  set (c' := copyChunks _ _ c) in *. clearbody c'.
  rewrite (p_chunk _ _ _ _ Hp').
  destruct (Z.eqb_spec (Z.of_nat (Nat.min (chunksOf all) (k + Z.to_nat budget)))
              (Z.of_nat (chunksOf all))); cbn [negb].
  - right. destruct S' as (ES & ER & ED & EL & EI).
    assert (Hall : Nat.min (chunksOf all) (k + Z.to_nat budget) = chunksOf all) by lia.
    rewrite Hall in Hp'. pose proof (p_built _ _ _ _ Hp') as Hb.
    rewrite take_ge in Hb by (pose proof (chunksOf_bound all); lia).
    assert (Hz : (zlen (live all R) < 2 ^ 63)%Z).
    { pose proof (zlen_filter (fun id => id ∉ R) all). pose proof (p_len _ _ _ _ Hp'). unfold live. lia. }
    pose proof (finishBuilder_edges _ _ Hb Hz) as Hfin.
    set (el := (finishBuilder c').2) in Hfin.
    split; [done|]. cbn [cmpResult]. rewrite ER, Hres, ED, EI, ES. cbn [from_option].
    eexists. split; [reflexivity|].
    assert (Hnd' : NoDup (live all R)) by (by apply NoDup_filter).
    destruct (edges_dense _ _ Hfin Hnd') as (H1 & H2 & H3).
    assert (Hget : forall graph', directionLists graph' (direction c) =
                replaceAdjacency (directionLists (cmpSource c) (direction c)) (listID c) el ->
              otherLists graph' (direction c) = otherLists (cmpSource c) (direction c) ->
              published (cmpSource c) graph' (direction c) (listID c) (live all R)).
    { intros graph' E1 E2. unfold published, AdjacencyNeedsCompaction. rewrite E1, E2.
      rewrite !(Get_replace _ g) by done. rewrite N.eqb_refl. split_and!; try done.
      - intros id0 Hne. rewrite (Get_replace _ g) by done. by destruct (N.eqb_spec id0 (listID c)).
      - destruct el as [l|]; [|done]. cbn [HasRemovals] in H3. apply negb_false_iff, Z.eqb_eq in H3.
        rewrite H3. apply andb_false_r. }
    apply Hget; unfold directionLists, otherLists; by destruct (direction c =? 0).
  - left. split; [done|]. split; [done|].
    assert (Hlt : (k + Z.to_nat budget < chunksOf all)%nat) by lia.
    by replace (Nat.min _ _) with (k + Z.to_nat budget)%nat in Hp' by lia.
Qed.

Lemma compactAll_ok all R budget fuel g : forall c k,
  progress c all R k -> NoDup all -> (0 < budget)%Z -> (k <= chunksOf all)%nat ->
  (chunksOf all <= k + fuel)%nat -> (0 < fuel)%nat ->
  cmpResult c = None -> rep None (directionLists (cmpSource c) (direction c)) g ->
  listID c < 2 ^ 64 ->
  exists c' graph', compactAll fuel budget c = Some c' /\ cmpResult c' = Some graph' /\
    published (cmpSource c) graph' (direction c) (listID c) (live all R).
Proof.
  induction fuel as [|fuel IH]; intros c k Hp Hnd Hb Hk Hf Hf0 Hres Hg Hid; [lia|].
  pose proof (Step_progress c all R k budget g Hp Hnd Hk Hb Hres Hg Hid) as Hs.
  cbn [compactAll]. destruct (Step c budget) as [c' [done changed]].
  destruct Hs as [(S' & -> & Hp' & Hlt)|(-> & graph' & Hr & Hpub)]; [|by exists c', graph'].
  destruct S' as (ES & ER & ED & EL & EI).
  destruct (IH c' (k + Z.to_nat budget)%nat) as (c'' & graph' & H1 & H2 & H3);
    rewrite ?ER, ?ES, ?ED, ?EI in *; try done; try lia.
  by exists c'', graph'.
Qed.

(** C37. A compactor that starts ends, in as many steps as the list has chunks at
    most for any positive chunk budget, and publishes a graph whose list for the
    node holds the same edge IDs in the same order, without tombstones and no
    longer in need of compaction; every other list and the other direction are
    unchanged. *)
Theorem AdjacencyCompactor_correct graph direction nodeID c l ids used g budget fuel :
  NewAdjacencyCompactor graph direction nodeID = Some c ->
  rep None (directionLists graph direction) g -> nodeID < 2 ^ 64 ->
  Get None (directionLists graph direction) nodeID = Some l ->
  stands (Some l) ids used -> (zlen used < 2 ^ 63)%Z ->
  (0 < budget)%Z -> (chunkCount l <= fuel)%nat ->
  exists c' graph', compactAll fuel budget c = Some c' /\ cmpResult c' = Some graph' /\
    published graph graph' direction nodeID ids.
Proof.
  intros Hc Hg Hid Hget (all & R & He & -> & Hnd & _ & _ & Hz) Hu Hb Hf.
  unfold NewAdjacencyCompactor in Hc. rewrite Hget in Hc.
  destruct (isInline l) eqn:Ei; [done|]. cbn [orb] in Hc.
  destruct (len (removed l) <=? _)%Z; [done|]. cbn [orb] in Hc.
  destruct (Z.leb_spec (total l) adjacencySyncCompactLimit) as [|Htot]; [done|]. injection Hc as <-.
  assert (Hcnt : chunkCount l = chunksOf all /\ total l = zlen all).
  { cbn in He. apply edges_isInline in He as [(E & _)|(_ & _ & _ & _ & _ & _ & Ht & _)]; [congruence|].
    unfold chunkCount, chunksOf. by rewrite Ht. }
  destruct Hcnt as [Hcnt Htl]. pose proof (chunksOf_bound all) as Hcb.
  unfold adjacencySyncCompactLimit, adjacencyChunkSize, zlen in *.
  destruct (compactAll_ok all R budget fuel g
    (mkCompactor graph None direction nodeID 0 l NewPagedMap [] 0 0 nodeID) 0)
    as (c' & graph' & H1 & H2 & H3); cbn; try done; try lia.
  - split; cbn; try done; [unfold zlen; lia|]. exists []. cbn. split_and!; try done; [apply chunks_ok_nil|lia].
  - by exists c', graph'.
Qed.

End publish.

(** ** A concrete compaction *)

#[local] Instance adjacencyOrder : MapOrder (pageRoot (option EdgeList)) := canonicalOrder.

(** Three hundred edges of node 9, seventy of them deleted. *)
Definition sampleOps : list edgeOp :=
  ((fun i => EAppend (N.of_nat i)) <$> seq 1000 300) ++
  ((fun i => ERemoveKnown (N.of_nat (4 * i))) <$> seq 251 70).
Definition sampleList : option EdgeList := foldl applyEdgeOp None sampleOps.
Definition sampleGraph : GraphAdjacency :=
  mkAdjacency NewPagedMap (Set_ None NewPagedMap 9 sampleList).

Lemma sampleOps_valid : validEdgeOps [] [] sampleOps.
Proof. apply (bool_decide_unpack _). vm_compute. exact I. Qed.

Lemma sampleList_some : exists l, sampleList = Some l /\ (chunkCount l <= 5)%nat.
Proof.
  assert (E : match sampleList with Some l => (chunkCount l <=? 5)%nat | None => false end = true)
    by (by vm_compute).
  revert E. generalize sampleList. intros [l|] E; [|done]. exists l. split; [done|]. by apply Nat.leb_le.
Qed.

Lemma sampleCompactor_some : exists c, NewAdjacencyCompactor sampleGraph 1 9 = Some c.
Proof.
  assert (E : match NewAdjacencyCompactor sampleGraph 1 9 with Some _ => true | None => false end = true)
    by (by vm_compute).
  revert E. generalize (NewAdjacencyCompactor sampleGraph 1 9). intros [c|] E; [|done]. by exists c.
Qed.

Lemma sampleList_stands : exists used,
  stands sampleList (foldl specEdgeOp [] sampleOps) used /\ (zlen used < 2 ^ 63)%Z.
Proof. unfold sampleList. exact (stands_ops sampleOps None [] [] stands_nil sampleOps_valid). Qed.

Lemma sampleGraph_rep : rep None (directionLists sampleGraph 1) {[9 := sampleList]}.
Proof. apply (rep_Set None NewPagedMap ∅ 9 sampleList); [apply rep_new|done]. Qed.

Lemma AdjacencyCompactor_correct_witness :
  exists c c' graph', NewAdjacencyCompactor sampleGraph 1 9 = Some c /\ compactAll 5 2 c = Some c' /\
    cmpResult c' = Some graph' /\ published sampleGraph graph' 1 9 (foldl specEdgeOp [] sampleOps).
Proof.
  destruct sampleList_stands as (used & Hs & Hu), sampleList_some as (l & El & Hf),
    sampleCompactor_some as (c & Ec).
  assert (Hget : Get None (directionLists sampleGraph 1) 9 = Some l).
  { rewrite Get_lookup, (proj1 (proj2 sampleGraph_rep)), lookup_singleton_eq. exact El. }
  assert (Hs' : stands (Some l) (foldl specEdgeOp [] sampleOps) used) by (destruct El; exact Hs).
  destruct (AdjacencyCompactor_correct sampleGraph 1 9 c l _ used _ 2 5 Ec sampleGraph_rep
              ltac:(reflexivity) Hget Hs' Hu ltac:(reflexivity) Hf) as (c' & graph' & H1 & H2 & H3).
  exists c, c', graph'. exact (conj Ec (conj H1 (conj H2 H3))).
Defined.
