(* ===== verification/GoBytes.v ===== *)
(** * Bytes, varints and UTF-8

    What the codecs use of Go's standard library: [encoding/binary]'s varints in
    their two forms, over a buffer ([Uvarint]) and over a byte reader
    ([ReadUvarint]), the big-endian integers, and [utf8.Valid]. A Go string is its
    sequence of bytes. *)
From S2P Require Import Prelude.
From S2P Require Import Bits.
From Stdlib Require Export Strings.Byte.

#[global] Instance byte_eq_dec : EqDecision byte.
Proof. intros x y. apply Byte.byte_eq_dec. Defined.
#[global] Instance byte_inhabited : Inhabited byte := populate x00.

Abbreviation gostring := (list byte).

Definition byteN (b : byte) : N := Byte.to_N b.
(** The conversion [byte(n)]. *)
Definition toByte (n : N) : byte := default x00 (Byte.of_N (u8 n)).

Lemma byteN_bound b : byteN b < 256.
Proof. unfold byteN. pose proof (Byte.to_N_bounded b). lia. Qed.

Lemma byteN_toByte n : byteN (toByte n) = n mod 256.
Proof.
  unfold byteN, toByte, u8. change (2 ^ 8) with 256.
  pose proof (N.mod_upper_bound n 256 ltac:(lia)) as Hb. set (r := n mod 256) in *. clearbody r.
  destruct (Byte.of_N r) as [b|] eqn:E; simpl.
  - by apply Byte.to_of_N in E.
  - apply Byte.of_N_None_iff in E. lia.
Qed.

Lemma toByte_byteN b : toByte (byteN b) = b.
Proof.
  unfold toByte, byteN, u8. rewrite N.mod_small by apply byteN_bound.
  by rewrite Byte.of_to_N.
Qed.

Lemma byteN_inj b1 b2 : byteN b1 = byteN b2 -> b1 = b2.
Proof. intros E. by rewrite <- (toByte_byteN b1), E, toByte_byteN. Qed.

(** ** Varints *)

Definition maxVarintLen64 : nat := 10.

(** [for x >= 0x80 { buf[i] = byte(x) | 0x80; x >>= 7; i++ }; buf[i] = byte(x)] *)
Fixpoint putUvarint (fuel : nat) (x : N) : list byte :=
  match fuel with
  | O => [toByte x]
  | S fuel => if x <? 128 then [toByte x]
              else toByte (N.lor (u8 x) 128) :: putUvarint fuel (N.shiftr x 7)
  end.
Definition PutUvarint (x : N) : list byte := putUvarint (pred maxVarintLen64) x.

(** [binary.Uvarint]: the value and the number of bytes read; zero bytes for a
    buffer that ends too soon, a negative number for an overflow. *)
Fixpoint uvarintLoop (i : nat) (x s : N) (buf : list byte) : N * Z :=
  match buf with
  | [] => (0, 0%Z)
  | b :: buf =>
      if (i =? maxVarintLen64)%nat then (0, (- Z.of_nat (S i))%Z)
      else if byteN b <? 128 then
        if (i =? pred maxVarintLen64)%nat && (1 <? byteN b) then (0, (- Z.of_nat (S i))%Z)
        else (N.lor x (shl64 (byteN b) s), Z.of_nat (S i))
      else uvarintLoop (S i) (N.lor x (shl64 (N.land (byteN b) 127) s)) (s + 7) buf
  end.
Definition Uvarint (buf : list byte) : N * Z := uvarintLoop 0 0 0 buf.

Lemma toByte_low v : v < 128 -> byteN (toByte v) = v.
Proof. intros. rewrite byteN_toByte. apply N.mod_small. lia. Qed.

Lemma toByte_more v :
  byteN (toByte (N.lor (u8 v) 128)) = v mod 128 + 128.
Proof.
  assert (E : N.lor (u8 v) 128 = v mod 128 + 128).
  { unfold u8. change (2 ^ 8) with (128 * 2).
    rewrite N.Div0.mod_mul_r. set (r := v mod 128).
    assert (Hr : r < 2 ^ 7) by (by apply N.mod_upper_bound).
    pose proof (N.mod_upper_bound (v / 128) 2 ltac:(lia)) as Hq.
    set (q := (v / 128) mod 2) in *. clearbody q r.
    assert (q = 0 \/ q = 1) as [->| ->] by lia.
    - rewrite N.mul_0_r, N.add_0_r. change 128 with (1 * 2 ^ 7). rewrite N.lor_comm, lor_split by done. lia.
    - rewrite N.mul_1_r. rewrite (N.add_comm r). change 128 with (1 * 2 ^ 7) at 1.
      rewrite <- (lor_split 1 r) by done. rewrite <- N.lor_assoc, (N.lor_comm r), N.lor_assoc.
      change (N.lor (1 * 2 ^ 7) 128) with (1 * 2 ^ 7). rewrite lor_split by done. lia. }
  rewrite E, byteN_toByte. pose proof (N.mod_upper_bound v 128 ltac:(lia)). apply N.mod_small. lia.
Qed.

(** Reading back what was put, from the middle of a varint. *)
Lemma uvarintLoop_put fuel : forall i x v rest,
  (i + fuel = 9)%nat -> x < 2 ^ (7 * N.of_nat i) -> v < 2 ^ (64 - 7 * N.of_nat i) ->
  uvarintLoop i x (7 * N.of_nat i) (putUvarint fuel v ++ rest) =
  (v * 2 ^ (7 * N.of_nat i) + x, Z.of_nat (i + length (putUvarint fuel v))).
Proof.
  induction fuel as [|fuel IH]; intros i x v rest Hi Hx Hv; cbn [putUvarint].
  - assert (Hi9 : i = 9%nat) by lia. subst i. cbn [app uvarintLoop].
    change (7 * N.of_nat 9) with 63 in *. change (64 - 63) with 1 in Hv.
    rewrite toByte_low by lia. destruct (N.ltb_spec v 128) as [_|]; [|lia].
    destruct (N.ltb_spec 1 v); [lia|]. cbn.
    rewrite shl64_small by lia. rewrite N.lor_comm, lor_split by lia. done.
  - assert (Hi9 : (i < 9)%nat) by lia.
    destruct (N.ltb_spec v 128) as [Hlt|Hge]; cbn [app uvarintLoop].
    + rewrite toByte_low by done. destruct (Nat.eqb_spec i maxVarintLen64) as [Ei|_]; [unfold maxVarintLen64 in Ei; lia|].
      destruct (N.ltb_spec v 128) as [_|]; [|lia].
      destruct (Nat.eqb_spec i (pred maxVarintLen64)) as [Ei|_]; [unfold maxVarintLen64 in Ei; lia|]. cbn [andb length].
      rewrite shl64_small.
      * rewrite N.lor_comm, lor_split by done. f_equal. lia.
      * assert (2 ^ 64 = 2 ^ (64 - 7 * N.of_nat i) * 2 ^ (7 * N.of_nat i)) as -> by
          (rewrite <- N.pow_add_r; f_equal; lia).
        apply N.mul_lt_mono_pos_r; [|done]. apply N.neq_0_lt_0, N.pow_nonzero. lia.
    + rewrite toByte_more. destruct (Nat.eqb_spec i maxVarintLen64) as [Ei|_]; [unfold maxVarintLen64 in Ei; lia|].
      pose proof (N.mod_upper_bound v 128 ltac:(lia)) as Hm.
      pose proof (N.Div0.div_mod v 128) as Hdiv.
      assert (Hland : N.land (v mod 128 + 128) 127 = v mod 128).
      { rewrite land_127. replace (v mod 128 + 128) with (v mod 128 + 1 * 128) by (by rewrite N.mul_1_l).
        rewrite N.Div0.mod_add. apply N.Div0.mod_mod. }
      rewrite Hland, N.shiftr_div_pow2. change (2 ^ 7) with 128. clear Hland.
      set (r := v mod 128) in *. set (q := v / 128) in *. clearbody r q. subst v.
      destruct (N.ltb_spec (r + 128) 128); [lia|].
      replace (7 * N.of_nat i + 7) with (7 * N.of_nat (S i)) by lia.
      assert (Hpow : 2 ^ (7 * N.of_nat (S i)) = 128 * 2 ^ (7 * N.of_nat i)).
      { replace (7 * N.of_nat (S i)) with (7 + 7 * N.of_nat i) by lia. by rewrite N.pow_add_r. }
      assert (Hp64 : 2 ^ (64 - 7 * N.of_nat i) = 128 * 2 ^ (64 - 7 * N.of_nat (S i))).
      { replace (64 - 7 * N.of_nat i) with (7 + (64 - 7 * N.of_nat (S i))) by lia. by rewrite N.pow_add_r. }
      assert (Hle : 128 * 2 ^ (7 * N.of_nat i) <= 2 ^ 64).
      { rewrite <- Hpow. apply N.pow_le_mono_r; lia. }
      set (p := 2 ^ (7 * N.of_nat i)) in *. 
      assert (Hshl : shl64 r (7 * N.of_nat i) = r * p).
      { apply shl64_small. fold p. nia. }
      rewrite Hshl. rewrite N.lor_comm. unfold p at 1. rewrite lor_split by (by fold p). fold p.
      rewrite IH; [|lia|rewrite Hpow; nia|nia].
      f_equal; [rewrite Hpow; nia|cbn [length]; lia].
Qed.

Lemma Uvarint_put v rest :
  v < 2 ^ 64 -> Uvarint (PutUvarint v ++ rest) = (v, Z.of_nat (length (PutUvarint v))).
Proof.
  intros Hv. unfold Uvarint, PutUvarint.
  pose proof (uvarintLoop_put 9 0 0 v rest eq_refl) as E.
  change (7 * N.of_nat 0) with 0 in E. change (pred maxVarintLen64) with 9%nat.
  rewrite E by done. change (2 ^ 0) with 1. f_equal. lia.
Qed.

Lemma PutUvarint_length v : (1 <= length (PutUvarint v) <= 10)%nat.
Proof.
  unfold PutUvarint. assert (H : forall fuel v, (1 <= length (putUvarint fuel v) <= S fuel)%nat).
  { induction fuel as [|fuel IH]; intros x; cbn; [lia|]. destruct (x <? 128); cbn; [lia|].
    specialize (IH (N.shiftr x 7)). lia. }
  apply (H 9%nat).
Qed.

(** ** Signed varints (zigzag) *)

Definition int64 (x : Z) : Prop := (- 2 ^ 63 <= x < 2 ^ 63)%Z.
#[global] Instance int64_dec x : Decision (int64 x) := and_dec _ _.

(** [ux := uint64(x) << 1; if x < 0 { ux = ^ux }] *)
Definition zigzag (x : Z) : N :=
  let ux := shl64 (Z.to_N (x mod 2 ^ 64)) 1 in
  if (x <? 0)%Z then max_uint64 - ux else ux.
(** [x := int64(ux >> 1); if ux&1 != 0 { x = ^x }] *)
Definition unzigzag (ux : N) : Z :=
  let x := Z.of_N (N.shiftr ux 1) in
  if N.land ux 1 =? 0 then x else (- x - 1)%Z.

Definition PutVarint (x : Z) : list byte := PutUvarint (zigzag x).

Lemma zigzag_eq x : int64 x ->
  zigzag x = if (x <? 0)%Z then Z.to_N (- 2 * x - 1) else Z.to_N (2 * x).
Proof.
  intros [Hlo Hhi]. unfold zigzag, shl64, u64. rewrite N.shiftl_mul_pow2. change (2 ^ 1) with 2.
  case_cmp.
  - replace (x mod 2 ^ 64)%Z with (x + 2 ^ 64)%Z
      by (apply (Z.mod_unique_pos _ _ (-1)); lia).
    replace ((Z.to_N (x + 2 ^ 64) * 2) mod 2 ^ 64) with (Z.to_N (2 * x + 2 ^ 64)).
    2:{ apply (N.mod_unique _ _ 1); lia. }
    unfold max_uint64. lia.
  - rewrite Z.mod_small by lia. rewrite N.mod_small by lia. lia.
Qed.

Lemma zigzag_bound x : int64 x -> zigzag x < 2 ^ 64.
Proof. intros Hx. rewrite zigzag_eq by done. destruct Hx. case_cmp; lia. Qed.

Lemma unzigzag_zigzag x : int64 x -> unzigzag (zigzag x) = x.
Proof.
  intros Hx. rewrite zigzag_eq by done. destruct Hx as [Hlo Hhi].
  assert (Hodd : forall n, N.land n 1 = n mod 2) by (intros n; apply (N.land_ones n 1)).
  unfold unzigzag. rewrite Hodd, N.shiftr_div_pow2. change (2 ^ 1) with 2. clear Hodd.
  destruct (Z.ltb_spec x 0).
  - replace (Z.to_N (-2 * x - 1)) with (2 * Z.to_N (- x - 1) + 1) by lia.
    rewrite (N.mul_comm 2), N.add_comm, N.Div0.mod_add. change (1 mod 2) with 1. cbn [N.eqb].
    rewrite N.div_add by lia. change (1 / 2) with 0. lia.
  - replace (Z.to_N (2 * x)) with (Z.to_N x * 2) by lia.
    rewrite N.Div0.mod_mul, N.div_mul by lia. cbn [N.eqb]. lia.
Qed.

(** ** Big-endian integers *)

Fixpoint putBE (n : nat) (x : N) : list byte :=
  match n with
  | O => []
  | S n => toByte (N.shiftr x (8 * N.of_nat n)) :: putBE n x
  end.
Definition getBE (l : list byte) : N := foldl (fun acc b => acc * 256 + byteN b) 0 l.

Definition PutUint64 := putBE 8.
Definition PutUint32 := putBE 4.

Lemma putBE_length n x : length (putBE n x) = n.
Proof. induction n; simpl; congruence. Qed.

Lemma getBE_put_acc n : forall acc x,
  foldl (fun acc b => acc * 256 + byteN b) acc (putBE n x) =
  acc * 2 ^ (8 * N.of_nat n) + x mod 2 ^ (8 * N.of_nat n).
Proof.
  induction n as [|n IH]; intros acc x; cbn [putBE foldl].
  - change (2 ^ (8 * N.of_nat 0)) with 1. rewrite N.mod_1_r. lia.
  - rewrite IH, byteN_toByte, N.shiftr_div_pow2.
    replace (8 * N.of_nat (S n)) with (8 * N.of_nat n + 8) by lia.
    rewrite N.pow_add_r. change (2 ^ 8) with 256. set (p := 2 ^ (8 * N.of_nat n)).
    assert (p <> 0) by (apply N.pow_nonzero; lia).
    rewrite (N.Div0.mod_mul_r x p 256). lia.
Qed.

Lemma getBE_put n x : x < 2 ^ (8 * N.of_nat n) -> getBE (putBE n x) = x.
Proof. intros Hx. unfold getBE. rewrite getBE_put_acc, N.mod_small by done. lia. Qed.

(** ** UTF-8 *)

Definition inRange (lo hi : N) (b : byte) : bool := (lo <=? byteN b) && (byteN b <=? hi).
Definition continuation : byte -> bool := inRange 128 191.

(** [utf8.Valid]: the accepted byte sequences, by leading byte. *)
Fixpoint utf8Valid (l : list byte) : bool :=
  match l with
  | [] => true
  | b :: l =>
      if byteN b <? 128 then utf8Valid l
      else match l with
      | [] => false
      | c1 :: l =>
          if inRange 194 223 b then continuation c1 && utf8Valid l
          else match l with
          | [] => false
          | c2 :: l =>
              if inRange 224 224 b then inRange 160 191 c1 && continuation c2 && utf8Valid l
              else if inRange 237 237 b then inRange 128 159 c1 && continuation c2 && utf8Valid l
              else if inRange 225 239 b then continuation c1 && continuation c2 && utf8Valid l
              else match l with
              | [] => false
              | c3 :: l =>
                  (if inRange 240 240 b then inRange 144 191 c1
                   else if inRange 241 243 b then continuation c1
                   else if inRange 244 244 b then inRange 128 143 c1
                   else false) && continuation c2 && continuation c3 && utf8Valid l
              end
          end
      end
  end.
