(* ===== verification/BinaryCodec.v ===== *)
(** * The binary encoder and decoder (internal/store/binary_payload.go)

    Both are state machines with a latched error: after the first failure every
    operation is a no-op. The encoder writes to any [io.Writer] and can mirror the
    decoder's allocation bound; the decoder reads either a byte slice, with a fast
    path for varints, or a reader of known length, and checks every length against
    what is left of the input and of the allocation budget before it allocates. *)
From S2P Require Import Prelude.
From S2P Require Import Bits.
From S2P Require Import GoBytes.
From Stdlib Require Strings.String.
Import String.StringSyntax.
Abbreviation string := String.string.
Delimit Scope string_scope with string.


Inductive error :=
  | ErrEOF
  | ErrUnexpectedEOF
  | ErrShortWrite
  | ErrVarintOverflow
  | ErrLoadResourceLimit (what : string)
  | ErrValueLimit (what : string)
  | ErrNew (what : string)
  | ErrValueCycle
  | ErrWrap (context : list byte) (err : error)
  | ErrExternal (code : N).

Definition maxValueDepth : nat := 64.
Definition maxBinaryValueDepth : nat := maxValueDepth + 1.
Definition maxInt : N := 2 ^ 63 - 1.

Definition nlen {A} (l : list A) : N := N.of_nat (length l).

(** ** Encoder *)

(** [io.Writer]: the new state, the number of bytes taken and the error. *)
Class Writer (W : Type) := Write : W -> list byte -> W * (N * option error).

(** [bytes.Buffer] takes everything. *)
#[global] Instance bufferWriter : Writer (list byte) :=
  fun buf data => (buf ++ data, (nlen data, None)).

Record binaryEncoder (W : Type) := mkEncoder {
  out : W;
  allocationLimit : N;
  allocationBytes : N;
  e_err : option error }.
Arguments mkEncoder {W} _ _ _ _.
Arguments out {W} _.
Arguments allocationLimit {W} _.
Arguments allocationBytes {W} _.
Arguments e_err {W} _.

Section encoder.
Context {W : Type} `{Writer W}.
Implicit Types (e : binaryEncoder W).

Definition e_fail e (err : error) : binaryEncoder W :=
  mkEncoder (out e) (allocationLimit e) (allocationBytes e) (Some err).

Definition admitDecoded e (count size : N) : binaryEncoder W :=
  if (allocationLimit e =? 0) || bool_decide (e_err e <> None) then e
  else
    let bytes := multiplySaturated count size in
    if sub64 (allocationLimit e) (allocationBytes e) <? bytes
    then e_fail e (ErrLoadResourceLimit "page record decoder allocation exceeds limit"%string)
    else mkEncoder (out e) (allocationLimit e) (u64 (allocationBytes e + bytes)) (e_err e).

Definition write e (data : list byte) : binaryEncoder W :=
  match e_err e with
  | Some _ => e
  | None =>
      let '(w, (n, err)) := Write (out e) data in
      mkEncoder w (allocationLimit e) (allocationBytes e)
        (match err with
         | None => if n =? nlen data then None else Some ErrShortWrite
         | Some _ => err
         end)
  end.

Definition enc_u e (value : N) : binaryEncoder W := write e (PutUvarint value).
Definition enc_i e (value : Z) : binaryEncoder W := write e (PutVarint value).
Definition enc_tag e (value : byte) : binaryEncoder W := write e [value].

(** [io.WriteString] after the length. *)
Definition enc_str e (value : gostring) : binaryEncoder W :=
  let e := admitDecoded e (nlen value) 2 in
  let e := enc_u e (nlen value) in
  write e value.

(** A slice is [None] when nil. *)
Definition slen {A} (value : option (list A)) : N :=
  match value with None => 0 | Some l => nlen l end.

Definition enc_bytes e (value : option (list byte)) : binaryEncoder W :=
  let e := admitDecoded e (slen value) 1 in
  match value with
  | None => enc_u e 0
  | Some l => write (enc_u e (u64 (nlen l + 1))) l
  end.

(** [for _, value := range values { write(value); if e.err != nil { return } }] *)
Fixpoint encEach {A} (f : binaryEncoder W -> A -> binaryEncoder W) e (l : list A) : binaryEncoder W :=
  match l with
  | [] => e
  | x :: l => let e := f e x in
              match e_err e with Some _ => e | None => encEach f e l end
  end.

Definition encodeBinarySlice {A} (f : binaryEncoder W -> A -> binaryEncoder W) e
    (values : option (list A)) : binaryEncoder W :=
  match e_err e with
  | Some _ => e
  | None => match values with
            | None => enc_u e 0
            | Some l => encEach f (enc_u e (u64 (nlen l + 1))) l
            end
  end.

(** [strings] and [ids] are the slice loop behind an admission. *)
Definition enc_strings e (values : option (list gostring)) : binaryEncoder W :=
  encodeBinarySlice enc_str (admitDecoded e (slen values) 16) values.
Definition enc_ids e (values : option (list N)) : binaryEncoder W :=
  encodeBinarySlice enc_u (admitDecoded e (slen values) 8) values.

End encoder.

(** ** Decoder *)

(** [d_data] tells the byte-slice form, where [remaining] is the length of the
    slice, from the reader form. [d_log] records the amounts handed to
    [admitAllocation], whose answer may depend on what it admitted before. *)
Record binaryDecoder := mkDecoder {
  d_data : bool;
  input : list byte;
  remaining : N;
  allocationLeft : N;
  admitAllocation : option (list N -> N -> option error);
  d_log : list N;
  d_err : option error }.

Implicit Types (d : binaryDecoder).

Definition newBinaryDecoder (input : list byte) (length maxBytes : N) : binaryDecoder :=
  mkDecoder false input length (multiplySaturated maxBytes 2) None [] None.
Definition newBinaryDecoderBytes (data : list byte) (maxBytes : N) : binaryDecoder :=
  mkDecoder true data (nlen data) (multiplySaturated maxBytes 2) None [] None.

Definition d_fail d (err : error) : binaryDecoder :=
  mkDecoder (d_data d) (input d) (remaining d) (allocationLeft d) (admitAllocation d) (d_log d) (Some err).

(** [n] bytes are taken off the input. *)
Definition consume d (n : N) (err : option error) : binaryDecoder :=
  mkDecoder (d_data d) (drop (N.to_nat n) (input d)) (sub64 (remaining d) n) (allocationLeft d)
    (admitAllocation d) (d_log d) err.

(** [read] of a buffer of [n] bytes; the buffer is zero where nothing was read. *)
Definition dec_read d (n : N) : list byte * binaryDecoder :=
  let zeros := replicate (N.to_nat n) x00 in
  match d_err d with
  | Some _ => (zeros, d)
  | None =>
      if remaining d <? n then (zeros, d_fail d ErrUnexpectedEOF)
      else
        let got := take (N.to_nat n) (input d) in
        if d_data d then (got, consume d n None)
        else if n <=? nlen (input d) then (got, consume d n None)
        else (got ++ replicate (N.to_nat n - length got) x00,
              consume d n (Some (if (length got =? 0)%nat then ErrEOF else ErrUnexpectedEOF)))
  end.

(** The byte and the error after the call; a byte that comes with an error is not
    used by any caller. *)
Definition ReadByte d : byte * binaryDecoder :=
  if d_data d && bool_decide (d_err d = None) then
    if remaining d =? 0 then (x00, d_fail d ErrUnexpectedEOF)
    else (hd x00 (input d), consume d 1 None)
  else
    let '(b, d) := dec_read d 1 in (hd x00 b, d).

(** [binary.ReadUvarint] over [ReadByte]. *)
Fixpoint readUvarint (fuel i : nat) (x s : N) d : (N + error) * binaryDecoder :=
  match fuel with
  | O => (inr ErrVarintOverflow, d)
  | S fuel =>
      let '(b, d) := ReadByte d in
      match d_err d with
      | Some err =>
          (inr (match err with
                | ErrEOF => if (0 <? i)%nat then ErrUnexpectedEOF else ErrEOF
                | _ => err
                end), d)
      | None =>
          if byteN b <? 128 then
            if (i =? pred maxVarintLen64)%nat && (1 <? byteN b) then (inr ErrVarintOverflow, d)
            else (inl (N.lor x (shl64 (byteN b) s)), d)
          else readUvarint fuel (S i) (N.lor x (shl64 (N.land (byteN b) 127) s)) (s + 7) d
      end
  end.
Definition ReadUvarint d := readUvarint maxVarintLen64 0 0 0 d.

Definition slowUvarint d : N * binaryDecoder :=
  match ReadUvarint d with
  | (inl value, d) => (value, d)
  | (inr err, d) => (0, d_fail d err)
  end.

Definition dec_u d : N * binaryDecoder :=
  match d_err d with
  | Some _ => (0, d)
  | None =>
      if d_data d then
        let '(value, n) := Uvarint (input d) in
        if (0 <? n)%Z then (value, consume d (Z.to_N n) None) else slowUvarint d
      else slowUvarint d
  end.

(** [binary.Varint] and [binary.ReadVarint] undo the zigzag of the same reads. *)
Definition dec_i d : Z * binaryDecoder :=
  match d_err d with
  | Some _ => (0%Z, d)
  | None =>
      if d_data d then
        let '(value, n) := Uvarint (input d) in
        if (0 <? n)%Z then (unzigzag value, consume d (Z.to_N n) None)
        else match ReadUvarint d with
             | (inl value, d) => (unzigzag value, d)
             | (inr err, d) => (0%Z, d_fail d err)
             end
      else match ReadUvarint d with
           | (inl value, d) => (unzigzag value, d)
           | (inr err, d) => (0%Z, d_fail d err)
           end
  end.

Definition reserve d (count size : N) : bool * binaryDecoder :=
  match d_err d with
  | Some _ => (false, d)
  | None =>
      if negb (size =? 0) && (allocationLeft d / size <? count)
      then (false, d_fail d (ErrLoadResourceLimit "binary decoded allocation exceeds limit"%string))
      else
        let bytes := u64 (count * size) in
        let admitted := mkDecoder (d_data d) (input d) (remaining d) (sub64 (allocationLeft d) bytes)
                          (admitAllocation d) (d_log d ++ [bytes]) None in
        match admitAllocation d with
        | None => (true, admitted)
        | Some callback => match callback (d_log d) bytes with
                        | Some err => (false, d_fail d err)
                        | None => (true, admitted)
                        end
        end
  end.

(** The element count of a present collection; [None] for -1: nil, or an error. *)
Definition dec_length d (elementBytes : N) : option N * binaryDecoder :=
  let '(encoded, d) := dec_u d in
  if bool_decide (d_err d <> None) || (encoded =? 0) then (None, d)
  else
    let count := sub64 encoded 1 in
    if (remaining d <? count) || (maxInt <? count)
    then (None, d_fail d (ErrLoadResourceLimit "invalid binary collection length"%string))
    else
      let '(ok, d) := reserve d count elementBytes in
      if ok then (Some count, d) else (None, d).

Definition dec_str d : gostring * binaryDecoder :=
  let '(size, d) := dec_u d in
  match d_err d with
  | Some _ => ([], d)
  | None =>
      if (remaining d <? size) || (maxInt <? size)
      then ([], d_fail d (ErrLoadResourceLimit "invalid binary string length"%string))
      else
        let '(ok, d) := reserve d size 2 in
        if negb ok then ([], d)
        else
          let '(data, d) := dec_read d size in
          match d_err d with
          | None => if utf8Valid data then (data, d)
                    else (data, d_fail d (ErrNew "invalid UTF-8 in binary string"%string))
          | Some _ => (data, d)
          end
  end.

Definition dec_bytes d : option (list byte) * binaryDecoder :=
  let '(n, d) := dec_length d 1 in
  match n with
  | None => (None, d)
  | Some n => let '(values, d) := dec_read d n in (Some values, d)
  end.

(** [for i := range values { values[i] = read(); if d.err != nil { break } }]: the
    elements after a break keep Go's zero value. *)
Fixpoint decEach {A} `{Inhabited A} (read : binaryDecoder -> A * binaryDecoder) (n : nat) d :
    list A * binaryDecoder :=
  match n with
  | O => ([], d)
  | S n =>
      let '(x, d) := read d in
      match d_err d with
      | Some _ => (x :: replicate n inhabitant, d)
      | None => let '(l, d) := decEach read n d in (x :: l, d)
      end
  end.

Definition decodeBinarySlice {A} `{Inhabited A} (elementBytes : N)
    (read : binaryDecoder -> A * binaryDecoder) d : option (list A) * binaryDecoder :=
  let '(n, d) := dec_length d elementBytes in
  match n with
  | None => (None, d)
  | Some n => let '(l, d) := decEach read (N.to_nat n) d in (Some l, d)
  end.

Definition dec_strings d : option (list gostring) * binaryDecoder := decodeBinarySlice 16 dec_str d.
Definition dec_ids d : option (list N) * binaryDecoder := decodeBinarySlice 8 dec_u d.

Definition finish d : option error :=
  match d_err d with
  | Some err => Some err
  | None => if negb (remaining d =? 0) then Some (ErrNew "binary payload has trailing data"%string) else None
  end.
