(* ===== verification/BinaryCodecSpec.v ===== *)
(** * What an encoder and its decoder promise each other

    [Codec A] packs an encoder operation, the decoder operation that reads it, the
    bytes on the wire, the allocation the encoder admits and the one the decoder
    reserves, with the two laws that relate them. The primitives, slices and every
    record are instances; clients use only the laws. *)
From S2P Require Import Prelude.
From S2P Require Import Bits.
From S2P Require Import GoBytes.
From S2P Require Import BinaryCodec.

Implicit Types (e : binaryEncoder (list byte)) (d : binaryDecoder).

(** ** Writing *)

(** The encoder after [w] was written and [a] bytes of allocation admitted. *)
Definition emit e (w : list byte) (a : N) : binaryEncoder (list byte) :=
  mkEncoder (out e ++ w) (allocationLimit e)
    (if allocationLimit e =? 0 then allocationBytes e else allocationBytes e + a) None.

Definition fits e (a : N) : Prop := allocationLimit e = 0 \/ allocationBytes e + a <= allocationLimit e.
Definition wfE e : Prop := allocationLimit e < 2 ^ 64 /\ fits e 0.

(** Either everything was written, or the encoder stopped with an error, and then
    only because the allocation did not fit. *)
Definition encodesTo e e' (w : list byte) (a : N) : Prop :=
  e_err e = None /\ fits e a /\ e' = emit e w a \/
  e_err e' <> None /\ (e_err e = None -> ~ fits e a).

Lemma emit_emit e w1 a1 w2 a2 : emit (emit e w1 a1) w2 a2 = emit e (w1 ++ w2) (a1 + a2).
Proof. unfold emit. simpl. rewrite <- app_assoc. case_cmp; f_equal. lia. Qed.

Lemma fits_emit e w a1 a2 : fits (emit e w a1) a2 <-> fits e (a1 + a2).
Proof. unfold fits, emit. simpl. case_cmp; [tauto|]. split; intros [|]; try tauto; right; lia. Qed.

Lemma wfE_emit e w a : wfE e -> fits e a -> wfE (emit e w a).
Proof. intros [Hl _] Hf. split; [done|]. apply fits_emit. by rewrite N.add_0_r. Qed.

Lemma fits_le e a1 a2 : a1 <= a2 -> fits e a2 -> fits e a1.
Proof. unfold fits. intros Hle [|]; [by left|right; lia]. Qed.

Lemma encodesTo_app e e1 e2 w1 a1 w2 a2 :
  encodesTo e e1 w1 a1 -> encodesTo e1 e2 w2 a2 -> encodesTo e e2 (w1 ++ w2) (a1 + a2).
Proof.
  intros [(H0 & Hf & ->)|[He1 Hn1]] [(H1 & Hf2 & ->)|[He2 Hn2]].
  - left. split; [done|]. rewrite fits_emit in Hf2. split; [done|]. apply emit_emit.
  - right. split; [done|]. intros _ Hfit. apply Hn2; [done|]. by apply fits_emit.
  - done.
  - right. split; [done|]. intros H0 Hfit. apply Hn1; [done|]. eapply fits_le; [|done]. lia.
Qed.

Lemma encodesTo_wf e e1 w a : wfE e -> encodesTo e e1 w a -> e_err e1 = None -> wfE e1.
Proof. intros Hw [(_ & Hf & ->)|[He _]] H1; [by apply wfE_emit|done]. Qed.

Lemma write_buffer e w : e_err e = None -> write e w = emit e w 0.
Proof.
  intros H0. unfold write. rewrite H0. unfold Write, bufferWriter, emit. rewrite N.eqb_refl, N.add_0_r.
  by case_cmp.
Qed.

Lemma emit_zero e : e_err e = None -> emit e [] 0 = e.
Proof. intros H0. destruct e as [o l a er]. unfold emit. simpl in *. rewrite app_nil_r, N.add_0_r, H0. by case_cmp. Qed.

Lemma write_err e w : e_err e <> None -> write e w = e.
Proof. unfold write. by destruct (e_err e). Qed.

Lemma write_to e w : wfE e -> encodesTo e (write e w) w 0.
Proof.
  intros [_ Hf]. destruct (e_err e) eqn:E.
  - right. rewrite write_err by congruence. by rewrite E.
  - left. split_and!; [done|done|by apply write_buffer].
Qed.

Lemma write_to' e w : (e_err e = None -> wfE e) -> encodesTo e (write e w) w 0.
Proof.
  intros Hw. destruct (e_err e) eqn:E; [|apply write_to; by apply Hw].
  right. rewrite write_err by congruence. by rewrite E.
Qed.

Lemma multiplySaturated_small a b : a * b < 2 ^ 64 -> multiplySaturated a b = a * b.
Proof.
  intros Hlt. unfold multiplySaturated, u64, max_uint64. rewrite N.mod_small by done.
  destruct (N.eqb_spec a 0); [done|]. cbn [negb andb].
  destruct (N.ltb_spec ((2 ^ 64 - 1) / a) b) as [Hd|]; [|done].
  exfalso. apply N.lt_nge in Hd. apply Hd, N.div_le_lower_bound; lia.
Qed.

Lemma admit_to e count size :
  (e_err e = None -> wfE e) -> count * size < 2 ^ 64 ->
  encodesTo e (admitDecoded e count size) [] (count * size).
Proof.
  intros Hw Hlt. unfold admitDecoded. destruct (e_err e) eqn:E.
  { right. rewrite bool_decide_true by done. rewrite orb_true_r. by rewrite E. }
  destruct (Hw eq_refl) as [Hl Hf]. rewrite bool_decide_false by tauto. rewrite orb_false_r.
  case_cmp.
  - left. split_and!; [done|by left|]. unfold emit. rewrite app_nil_r.
    destruct e as [o l a er]. simpl in *. by subst.
  - right. split; [done|]. intros _ [?|Hfit]; [done|].
    destruct Hf as [?|Hf]; [done|]. rewrite multiplySaturated_small in * by done.
    unfold sub64, u64 in *. replace (allocationLimit e + 2 ^ 64 - allocationBytes e) with
      ((allocationLimit e - allocationBytes e) + 1 * 2 ^ 64) in * by lia.
    rewrite N.Div0.mod_add, N.mod_small in * by lia. lia.
  - destruct Hf as [?|Hf]; [done|]. rewrite multiplySaturated_small in * by done.
    unfold sub64, u64 in *. replace (allocationLimit e + 2 ^ 64 - allocationBytes e) with
      ((allocationLimit e - allocationBytes e) + 1 * 2 ^ 64) in * by lia.
    rewrite N.Div0.mod_add, N.mod_small in * by lia.
    left. split_and!; [done|right; lia|]. unfold emit. rewrite app_nil_r. destruct e as [o l a er].
    simpl in *. destruct (N.eqb_spec l 0); [done|]. f_equal. apply N.mod_small. lia.
Qed.

(** ** Reading *)

Definition nsum (l : list N) : N := foldr N.add 0 l.

Lemma nsum_app l1 l2 : nsum (l1 ++ l2) = nsum l1 + nsum l2.
Proof. induction l1 as [|x l1 IH]; simpl; [done|]. rewrite IH. lia. Qed.

(** The callback admits every amount of [rs] in turn. *)
Fixpoint accepts (callback : option (list N -> N -> option error)) (log rs : list N) : Prop :=
  match rs with
  | [] => True
  | r :: rs => match callback with None => True | Some f => f log r = None end /\
               accepts callback (log ++ [r]) rs
  end.

Lemma accepts_app callback log rs1 rs2 :
  accepts callback log (rs1 ++ rs2) <-> accepts callback log rs1 /\ accepts callback (log ++ rs1) rs2.
Proof.
  revert log. induction rs1 as [|r rs1 IH]; intros log; simpl; [rewrite app_nil_r; tauto|].
  rewrite IH. rewrite <- (app_assoc log [r] rs1). simpl. tauto.
Qed.

(** The decoder can read [w] and reserve [rs]. *)
Record ready d (w : list byte) (rs : list N) : Prop := {
  r_err : d_err d = None;
  r_input : exists rest, input d = w ++ rest;
  r_left : nlen w <= remaining d;
  r_bound : remaining d < 2 ^ 64;
  r_data : d_data d = true -> remaining d = nlen (input d);
  r_alloc : nsum rs <= allocationLeft d;
  r_alloc_bound : allocationLeft d < 2 ^ 64;
  r_accepts : accepts (admitAllocation d) (d_log d) rs }.

(** What is left of it afterwards. *)
Definition eat d (w : list byte) (rs : list N) : binaryDecoder :=
  mkDecoder (d_data d) (drop (length w) (input d)) (remaining d - nlen w) (allocationLeft d - nsum rs)
    (admitAllocation d) (d_log d ++ rs) None.

Lemma nlen_app {A} (l1 l2 : list A) : nlen (l1 ++ l2) = nlen l1 + nlen l2.
Proof. unfold nlen. rewrite length_app. lia. Qed.

Lemma eat_eat d w1 w2 rs1 rs2 : eat (eat d w1 rs1) w2 rs2 = eat d (w1 ++ w2) (rs1 ++ rs2).
Proof.
  unfold eat. simpl. rewrite drop_drop, length_app, nlen_app, nsum_app, <- app_assoc. f_equal; lia.
Qed.

Lemma ready_app d w1 w2 rs1 rs2 :
  ready d (w1 ++ w2) (rs1 ++ rs2) -> ready d w1 rs1 /\ ready (eat d w1 rs1) w2 rs2.
Proof.
  intros [He (rest & Hi) Hl Hb Hd Ha Hab Hacc]. rewrite nlen_app in Hl. rewrite nsum_app in Ha.
  apply accepts_app in Hacc as [Hacc1 Hacc2]. split; split; simpl; try done; try lia.
  - exists (w2 ++ rest). by rewrite app_assoc.
  - exists rest. rewrite Hi, <- app_assoc. by rewrite drop_app_length.
  - intros Hdd. specialize (Hd Hdd). unfold nlen in *. rewrite length_drop. lia.
Qed.

Lemma sub64_small a b : b <= a -> a < 2 ^ 64 -> sub64 a b = a - b.
Proof.
  intros Hle Ha. unfold sub64, u64. replace (a + 2 ^ 64 - b) with ((a - b) + 1 * 2 ^ 64) by lia.
  rewrite N.Div0.mod_add. apply N.mod_small. lia.
Qed.

Lemma consume_eat d w :
  nlen w <= remaining d -> remaining d < 2 ^ 64 -> consume d (nlen w) None = eat d w [].
Proof.
  intros Hl Hb. unfold consume, eat. rewrite sub64_small by done. rewrite app_nil_r.
  unfold nlen. rewrite Nat2N.id. simpl. rewrite N.sub_0_r. done.
Qed.

Lemma ready_take d w : ready d w [] -> take (N.to_nat (nlen w)) (input d) = w.
Proof.
  intros [_ (rest & ->) _ _ _ _ _ _]. unfold nlen. rewrite Nat2N.id. apply take_app_length.
Qed.

Lemma read_ok d w : ready d w [] -> dec_read d (nlen w) = (w, eat d w []).
Proof.
  intros Hr. pose proof (ready_take d w Hr) as Ht. destruct Hr as [He (rest & Hi) Hl Hb Hd _ _ _].
  unfold dec_read. rewrite He. destruct (N.ltb_spec (remaining d) (nlen w)); [lia|].
  rewrite Ht, consume_eat by done. destruct (d_data d); [done|].
  destruct (N.leb_spec (nlen w) (nlen (input d))) as [|Hlt]; [done|].
  rewrite Hi, nlen_app in Hlt. lia.
Qed.

Lemma ReadByte_ok d b : ready d [b] [] -> ReadByte d = (b, eat d [b] []).
Proof.
  intros Hr. unfold ReadByte. pose proof (read_ok d [b] Hr) as Hread. change (nlen [b]) with 1 in Hread.
  rewrite Hread. destruct Hr as [He (rest & Hi) Hl Hb Hd _ _ _].
  destruct (d_data d); cbn [andb]; [|done]. rewrite bool_decide_true by done.
  change (nlen [b]) with 1 in Hl. destruct (N.eqb_spec (remaining d) 0); [lia|].
  rewrite Hi. simpl. f_equal. by apply (consume_eat d [b]).
Qed.

Lemma readUvarint_ok w : forall fuel i x s v d,
  (i + fuel = 10)%nat -> w <> [] ->
  uvarintLoop i x s w = (v, Z.of_nat (i + length w)) -> ready d w [] ->
  readUvarint fuel i x s d = (inl v, eat d w []).
Proof.
  induction w as [|b w IH]; intros fuel i x s v d Hf Hne Hu Hr; [done|].
  cbn [uvarintLoop] in Hu. destruct (Nat.eqb_spec i maxVarintLen64) as [Hi|Hi]; [injection Hu; lia|].
  destruct fuel as [|fuel]; [unfold maxVarintLen64 in Hi; lia|]. cbn [readUvarint].
  apply (ready_app d [b] w [] []) in Hr as [Hr1 Hr2]. rewrite (ReadByte_ok _ _ Hr1). cbn [d_err eat].
  destruct (byteN b <? 128).
  - destruct (_ && _); [injection Hu; lia|]. injection Hu as <- Hlen.
    cbn [length] in Hlen. destruct w; [done|cbn [length] in Hlen; lia].
  - rewrite (IH fuel (S i) _ _ v); [by rewrite eat_eat|lia| | |done].
    + intros ->. cbn in Hu. injection Hu; lia.
    + rewrite Hu. f_equal. cbn [length]. lia.
Qed.

Lemma PutUvarint_ne v : PutUvarint v <> [].
Proof. intros E. pose proof (PutUvarint_length v) as Hl. rewrite E in Hl. cbn in Hl. lia. Qed.

Lemma Uvarint_exact v : v < 2 ^ 64 -> uvarintLoop 0 0 0 (PutUvarint v) = (v, Z.of_nat (length (PutUvarint v))).
Proof. intros Hv. pose proof (Uvarint_put v [] Hv) as E. by rewrite app_nil_r in E. Qed.

Lemma ReadUvarint_ok d v :
  v < 2 ^ 64 -> ready d (PutUvarint v) [] -> ReadUvarint d = (inl v, eat d (PutUvarint v) []).
Proof.
  intros Hv Hr. apply readUvarint_ok; [done|apply PutUvarint_ne| |done]. by apply Uvarint_exact.
Qed.

Lemma Uvarint_ready d v :
  v < 2 ^ 64 -> ready d (PutUvarint v) [] ->
  Uvarint (input d) = (v, Z.of_nat (length (PutUvarint v))) /\
  consume d (Z.to_N (Z.of_nat (length (PutUvarint v)))) None = eat d (PutUvarint v) [].
Proof.
  intros Hv Hr. destruct Hr as [He (rest & Hi) Hl Hb Hd _ _ _]. split.
  - rewrite Hi. by apply Uvarint_put.
  - replace (Z.to_N (Z.of_nat (length (PutUvarint v)))) with (nlen (PutUvarint v)) by (unfold nlen; lia).
    by apply consume_eat.
Qed.

Lemma u_ok d v : v < 2 ^ 64 -> ready d (PutUvarint v) [] -> dec_u d = (v, eat d (PutUvarint v) []).
Proof.
  intros Hv Hr. unfold dec_u, slowUvarint. rewrite (ReadUvarint_ok d v Hv Hr).
  destruct (Uvarint_ready d v Hv Hr) as [-> ->]. rewrite (r_err _ _ _ Hr).
  destruct (d_data d); [|done]. pose proof (PutUvarint_length v).
  destruct (Z.ltb_spec 0 (Z.of_nat (length (PutUvarint v)))); [done|lia].
Qed.

Lemma i_ok d v : int64 v -> ready d (PutVarint v) [] -> dec_i d = (v, eat d (PutVarint v) []).
Proof.
  intros Hv Hr. pose proof (zigzag_bound v Hv) as Hz. unfold PutVarint in *. unfold dec_i.
  rewrite (ReadUvarint_ok d _ Hz Hr). destruct (Uvarint_ready d _ Hz Hr) as [-> ->].
  rewrite (r_err _ _ _ Hr), unzigzag_zigzag by done.
  destruct (d_data d); [|done]. pose proof (PutUvarint_length (zigzag v)).
  destruct (Z.ltb_spec 0 (Z.of_nat (length (PutUvarint (zigzag v))))); [done|lia].
Qed.

Lemma reserve_ok d count size :
  ready d [] [count * size] -> reserve d count size = (true, eat d [] [count * size]).
Proof.
  intros [He _ _ _ _ Ha Hab [Hacc _]]. unfold nsum in Ha. cbn [foldr] in Ha. rewrite N.add_0_r in Ha.
  unfold reserve. rewrite He. unfold u64. rewrite (N.mod_small (count * size)) by lia.
  rewrite sub64_small by lia.
  assert (Hg : negb (size =? 0) && (allocationLeft d / size <? count) = false).
  { destruct (N.eqb_spec size 0); [done|]. cbn [negb andb]. apply N.ltb_ge, N.div_le_lower_bound; lia. }
  rewrite Hg.
  assert (Ed : mkDecoder (d_data d) (input d) (remaining d) (allocationLeft d - count * size)
                 (admitAllocation d) (d_log d ++ [count * size]) None = eat d [] [count * size]).
  { unfold eat, nlen, nsum. simpl. by rewrite drop_0, N.sub_0_r, N.add_0_r. }
  rewrite Ed. destruct (admitAllocation d) as [f|]; [by rewrite Hacc|done].
Qed.

(** ** The interface *)

Class Codec (A : Type) := {
  cenc : binaryEncoder (list byte) -> A -> binaryEncoder (list byte);
  cdec : binaryDecoder -> A * binaryDecoder;
  wire : A -> list byte;
  admitted : A -> N;
  reserved : A -> list N;
  valid : A -> Prop;
  cenc_ok : forall e x, valid x -> (e_err e = None -> wfE e) ->
    encodesTo e (cenc e x) (wire x) (admitted x);
  cdec_ok : forall d x, valid x -> ready d (wire x) (reserved x) ->
    cdec d = (x, eat d (wire x) (reserved x));
  wire_pos : forall x, (0 < length (wire x))%nat }.

(** The bound on lengths: no Go slice or string in memory is longer. *)
Definition maxLen : N := 2 ^ 48.

(** Two steps in a row, on each side. *)
Lemma encodesTo_then e e1 e2 w1 a1 w2 a2 :
  (e_err e = None -> wfE e) -> encodesTo e e1 w1 a1 ->
  ((e_err e1 = None -> wfE e1) -> encodesTo e1 e2 w2 a2) ->
  encodesTo e e2 (w1 ++ w2) (a1 + a2).
Proof.
  intros Hw H1 H2. eapply encodesTo_app; [done|]. apply H2. intros He1.
  destruct H1 as [(H0 & Hf & ->)|[Hne _]]; [|done]. apply wfE_emit; auto.
Qed.

Lemma encodesTo_eq e e' w a w' a' :
  encodesTo e e' w a -> w = w' -> a = a' -> encodesTo e e' w' a'.
Proof. by intros ? <- <-. Qed.

Lemma encodesTo_nil e : (e_err e = None -> wfE e) -> encodesTo e e [] 0.
Proof.
  intros Hw. destruct (e_err e) eqn:E; [right; by rewrite E|left].
  split_and!; [done|by apply Hw|by rewrite emit_zero].
Qed.

Lemma encodesTo_err e w a : e_err e <> None -> encodesTo e e w a.
Proof. by right. Qed.

Lemma admit_zero e count size w a (k : binaryEncoder (list byte) -> binaryEncoder (list byte)) :
  (e_err e = None -> wfE e) -> count * size < 2 ^ 64 ->
  (forall e, (e_err e = None -> wfE e) -> encodesTo e (k e) w a) ->
  encodesTo e (k (admitDecoded e count size)) w (count * size + a).
Proof.
  intros Hw Hlt Hk. apply (encodesTo_then e (admitDecoded e count size) _ [] _ w a); [done|by apply admit_to|].
  apply Hk.
Qed.

(** *** Primitives *)

#[global, refine] Instance codec_u : Codec N := {
  cenc := enc_u; cdec := dec_u; wire := PutUvarint; admitted := fun _ => 0; reserved := fun _ => [];
  valid := fun v => v < 2 ^ 64 }.
Proof.
  - intros e x _ Hw. by apply write_to'.
  - intros d x Hv Hr. by apply u_ok.
  - intros x. pose proof (PutUvarint_length x). lia.
Defined.

Definition wire_str (s : gostring) : list byte := PutUvarint (nlen s) ++ s.

Lemma enc_str_to e s :
  nlen s < maxLen -> (e_err e = None -> wfE e) -> encodesTo e (enc_str e s) (wire_str s) (nlen s * 2).
Proof.
  intros Hl Hw. unfold enc_str, wire_str. rewrite <- (N.add_0_r (nlen s * 2)).
  apply (admit_zero e _ _ _ _ (fun e => write (enc_u e (nlen s)) s)); [done|unfold maxLen in Hl; lia|].
  intros e1 Hw1. apply (encodesTo_then e1 (enc_u e1 (nlen s)) _ _ 0 _ 0); [done|by apply write_to'|].
  intros. by apply write_to'.
Qed.

Lemma maxLen_int n : n < maxLen -> (maxInt <? n) = false /\ n < 2 ^ 64 /\ n + 1 < 2 ^ 64.
Proof. unfold maxLen, maxInt. intros. split; [apply N.ltb_ge; lia|lia]. Qed.

Lemma dec_str_ok d s :
  nlen s < maxLen -> utf8Valid s = true -> ready d (wire_str s) [nlen s * 2] ->
  dec_str d = (s, eat d (wire_str s) [nlen s * 2]).
Proof.
  intros Hl Hu Hr. destruct (maxLen_int _ Hl) as (Hmi & H64 & _). unfold dec_str, wire_str in *.
  apply (ready_app d _ _ [] [nlen s * 2]) in Hr as [Hr1 Hr2].
  rewrite (u_ok d (nlen s) H64 Hr1). cbn [d_err eat].
  pose proof (r_left _ _ _ Hr2) as Hleft. fold (eat d (PutUvarint (nlen s)) []).
  destruct (N.ltb_spec (remaining (eat d (PutUvarint (nlen s)) [])) (nlen s)); [lia|].
  rewrite Hmi. cbn [orb].
  apply (ready_app _ [] s [nlen s * 2] []) in Hr2 as [Hr2 Hr3].
  rewrite (reserve_ok _ _ _ Hr2). cbn [negb]. rewrite (read_ok _ _ Hr3). cbn [d_err eat].
  rewrite Hu. by rewrite !eat_eat.
Qed.

#[global, refine] Instance codec_str : Codec gostring := {
  cenc := enc_str; cdec := dec_str; wire := wire_str; admitted := fun s => nlen s * 2;
  reserved := fun s => [nlen s * 2]; valid := fun s => nlen s < maxLen /\ utf8Valid s = true }.
Proof.
  - intros e s [Hl _] Hw. by apply enc_str_to.
  - intros d s [Hl Hu] Hr. by apply dec_str_ok.
  - intros s. unfold wire_str. rewrite length_app. pose proof (PutUvarint_length (nlen s)). lia.
Defined.

(** A present collection: the length prefix and the reservation. *)
Lemma dec_length_ok d n size w rs :
  n < maxLen -> n <= nlen w -> ready d (PutUvarint (n + 1) ++ w) ([n * size] ++ rs) ->
  dec_length d size = (Some n, eat d (PutUvarint (n + 1)) [n * size]).
Proof.
  intros Hn Hw Hr. destruct (maxLen_int _ Hn) as (Hmi & H64 & H641). unfold dec_length.
  apply (ready_app d _ w [] ([n * size] ++ rs)) in Hr as [Hr1 Hr2].
  rewrite (u_ok d (n + 1) H641 Hr1). cbn [d_err eat]. fold (eat d (PutUvarint (n + 1)) []).
  rewrite bool_decide_false by tauto. destruct (N.eqb_spec (n + 1) 0); [lia|]. cbn [orb].
  rewrite sub64_small by lia. replace (n + 1 - 1) with n by lia.
  pose proof (r_left _ _ _ Hr2) as Hleft.
  destruct (N.ltb_spec (remaining (eat d (PutUvarint (n + 1)) [])) n); [lia|].
  rewrite Hmi. cbn [orb].
  apply (ready_app _ [] w [n * size] rs) in Hr2 as [Hr2 _].
  rewrite (reserve_ok _ _ _ Hr2). rewrite eat_eat, app_nil_r. done.
Qed.

Lemma dec_length_nil d size :
  ready d (PutUvarint 0) [] -> dec_length d size = (None, eat d (PutUvarint 0) []).
Proof.
  intros Hr. unfold dec_length. rewrite (u_ok d 0) by done. cbn [d_err eat].
  by rewrite bool_decide_false by tauto.
Qed.

Definition wire_bytes (v : option (list byte)) : list byte :=
  match v with None => PutUvarint 0 | Some l => PutUvarint (nlen l + 1) ++ l end.

#[global, refine] Instance codec_bytes : Codec (option (list byte)) := {
  cenc := enc_bytes; cdec := dec_bytes; wire := wire_bytes; admitted := fun v => slen v * 1;
  reserved := fun v => match v with None => [] | Some l => [nlen l * 1] end;
  valid := fun v => slen v < maxLen }.
Proof.
  - intros e v Hl Hw. unfold enc_bytes. rewrite <- (N.add_0_r (slen v * 1)).
    apply (admit_zero e _ _ _ _ (fun e => match v with
              | None => enc_u e 0 | Some l => write (enc_u e (u64 (nlen l + 1))) l end));
      [done|unfold maxLen in Hl; lia|].
    intros e1 Hw1. destruct v as [l|]; [|by apply write_to'].
    destruct (maxLen_int _ Hl) as (_ & _ & H641). cbn [slen] in H641.
    unfold u64. rewrite N.mod_small by done.
    apply (encodesTo_then e1 (enc_u e1 (nlen l + 1)) _ _ 0 _ 0); [done|by apply write_to'|].
    intros. by apply write_to'.
  - intros d v Hl Hr. unfold dec_bytes. destruct v as [l|]; cbn [wire_bytes] in *.
    + rewrite (dec_length_ok d (nlen l) 1 l []); [|done|done|by rewrite app_nil_r].
      apply (ready_app d _ l [nlen l * 1] []) in Hr as [_ Hr].
      rewrite (read_ok _ _ Hr). by rewrite eat_eat, app_nil_r.
    + by rewrite dec_length_nil.
  - intros v. unfold wire_bytes. destruct v as [l|]; [rewrite length_app|].
    + pose proof (PutUvarint_length (nlen l + 1)). lia.
    + cbn. lia.
Defined.

(** *** Slices *)

Section slices.
Context {A : Type} `{Inhabited A} `{Codec A}.

Definition wires (l : list A) : list byte := concat (wire <$> l).
Definition admits (l : list A) : N := nsum (admitted <$> l).
Definition reserves (l : list A) : list N := concat (reserved <$> l).

Lemma encEach_to l : forall e,
  Forall valid l -> (e_err e = None -> wfE e) -> encodesTo e (encEach cenc e l) (wires l) (admits l).
Proof.
  induction l as [|x l IH]; intros e Hv Hw; [by apply encodesTo_nil|].
  apply Forall_cons in Hv as [Hx Hv]. cbn [encEach].
  apply (encodesTo_then e (cenc e x) _ (wire x) (admitted x) (wires l) (admits l)); [done|by apply cenc_ok|].
  intros Hw1. destruct (e_err (cenc e x)) eqn:E; [apply encodesTo_err; congruence|apply IH; [done|auto]].
Qed.

Lemma decEach_ok l : forall d,
  Forall valid l -> ready d (wires l) (reserves l) ->
  decEach cdec (length l) d = (l, eat d (wires l) (reserves l)).
Proof.
  induction l as [|x l IH]; intros d Hv Hr; cbn [length decEach].
  - unfold eat, wires, reserves. cbn. rewrite drop_0, N.sub_0_r, N.sub_0_r, app_nil_r.
    destruct Hr as [He _ _ _ _ _ _ _]. destruct d; simpl in *. by subst.
  - apply Forall_cons in Hv as [Hx Hv]. apply ready_app in Hr as [Hr1 Hr2].
    rewrite (cdec_ok d x Hx Hr1). cbn [d_err eat]. fold (eat d (wire x) (reserved x)).
    rewrite (IH _ Hv Hr2). by rewrite eat_eat.
Qed.

Lemma wires_length l : nlen l <= nlen (wires l).
Proof.
  unfold wires, nlen. induction l as [|x l IH]; cbn [length fmap list_fmap concat]; [lia|].
  rewrite length_app. pose proof (wire_pos x). lia.
Qed.

Definition wire_slice (v : option (list A)) : list byte :=
  match v with None => PutUvarint 0 | Some l => PutUvarint (nlen l + 1) ++ wires l end.
Definition admits_slice (v : option (list A)) : N := match v with None => 0 | Some l => admits l end.
Definition reserves_slice (size : N) (v : option (list A)) : list N :=
  match v with None => [] | Some l => [nlen l * size] ++ reserves l end.
Definition valid_slice (v : option (list A)) : Prop :=
  match v with None => True | Some l => nlen l < maxLen /\ Forall valid l end.

Lemma slen_valid v : valid_slice v -> slen v < maxLen.
Proof. destruct v as [l|]; cbn; [tauto|unfold maxLen; lia]. Qed.

Lemma wire_slice_pos v : (0 < length (wire_slice v))%nat.
Proof.
  destruct v as [l|]; cbn [wire_slice]; [rewrite length_app|].
  - pose proof (PutUvarint_length (nlen l + 1)). lia.
  - pose proof (PutUvarint_length 0). lia.
Qed.

Lemma encodeBinarySlice_to e v :
  valid_slice v -> (e_err e = None -> wfE e) ->
  encodesTo e (encodeBinarySlice cenc e v) (wire_slice v) (admits_slice v).
Proof.
  intros Hv Hw. unfold encodeBinarySlice. destruct (e_err e) eqn:E; [apply encodesTo_err; congruence|].
  destruct v as [l|]; [|apply write_to'; auto]. destruct Hv as [Hl Hv].
  destruct (maxLen_int _ Hl) as (_ & _ & H641). unfold u64. rewrite N.mod_small by done.
  apply (encodesTo_then e (enc_u e (nlen l + 1)) _ _ 0 _ (admits l)); [auto|apply write_to'; auto|].
  intros. by apply encEach_to.
Qed.

Lemma decodeBinarySlice_ok d v size :
  valid_slice v -> ready d (wire_slice v) (reserves_slice size v) ->
  decodeBinarySlice size cdec d = (v, eat d (wire_slice v) (reserves_slice size v)).
Proof.
  intros Hv Hr. unfold decodeBinarySlice. destruct v as [l|]; cbn [wire_slice reserves_slice] in *.
  - destruct Hv as [Hl Hv]. rewrite (dec_length_ok d (nlen l) size (wires l) (reserves l));
      [|done|apply wires_length|done].
    apply ready_app in Hr as [_ Hr]. unfold nlen at 1. rewrite Nat2N.id, (decEach_ok l _ Hv Hr).
    by rewrite eat_eat.
  - by rewrite dec_length_nil.
Qed.

(** [encodeBinarySlice] with [decodeBinarySlice]; [callback] tells whether the encoder
    admits the backing array first, as [strings] and [ids] do. *)
Definition codec_slice (size : N) (callback : bool) (Hs : size <= 208) : Codec (option (list A)).
Proof.
  refine {| cenc := fun e v => encodeBinarySlice cenc (if callback then admitDecoded e (slen v) size else e) v;
            cdec := decodeBinarySlice size cdec; wire := wire_slice;
            admitted := fun v => (if callback then slen v * size else 0) + admits_slice v;
            reserved := reserves_slice size; valid := valid_slice |}.
  - intros e v Hv Hw. destruct callback; [|by apply encodeBinarySlice_to].
    apply (admit_zero e _ _ _ _ (fun e => encodeBinarySlice cenc e v)); [done| |].
    + pose proof (slen_valid v Hv) as Hl. unfold maxLen in Hl. nia.
    + intros. by apply encodeBinarySlice_to.
  - intros d v. apply decodeBinarySlice_ok.
  - apply wire_slice_pos.
Defined.

End slices.

#[global] Instance codec_strings : Codec (option (list gostring)) :=
  codec_slice (A := gostring) 16 true ltac:(discriminate).
#[global] Instance codec_ids : Codec (option (list N)) :=
  codec_slice (A := N) 8 true ltac:(discriminate).

(** ** Automation for records

    Each record is a sequence of fields; [enc_fields] and [dec_fields] run through
    it with the laws of the fields. *)

Lemma encodesTo_last e e' w a w' a' :
  encodesTo e e' w a -> w' = w -> a' = a -> encodesTo e e' w' a'.
Proof. by intros ? -> ->. Qed.

Ltac enc_fields :=
  repeat first
    [ assumption
    | progress intros
    | eapply encodesTo_then; [assumption| |]
    | eapply cenc_ok; [solve [auto with lattice]|] ].

Ltac dec_field H :=
  apply ready_app in H as [? H]; rewrite cdec_ok by assumption.
