(* ===== verification/BinaryValue.v ===== *)
(** * Property values on the wire (binary_payload.go, persistedValue of store.go)

    [persistedValue] is a struct with a kind and one field per kind; here it is the
    tagged union it encodes. Floats are their IEEE bit patterns. A Go map is the
    list of its entries in increasing key order, so equal maps are equal terms; the
    encoder sorts the keys all the same, as the code must. Recursion is bounded by
    the nesting limit both sides check, which the fuel only repeats. *)
From S2P Require Import Prelude.
From S2P Require Import GoBytes.
From S2P Require Import BinaryCodec.
From Stdlib Require Strings.String.
Import String.StringSyntax.

Inductive persistedValue :=
  | PVEmpty
  | PVNull
  | PVBool (b : bool)
  | PVInt (i : Z)
  | PVFloat (bits : N)
  | PVString (s : gostring)
  | PVBytes (b : option (list byte))
  | PVVector (v : option (list N))
  | PVList (l : option (list persistedValue))
  | PVMap (m : option (list (gostring * persistedValue)))
  | PVUnknown (kind : gostring).

#[global] Instance persistedValue_inhabited : Inhabited persistedValue := populate PVEmpty.

(** [math.IsNaN(x) || math.IsInf(x, 0)] on bit patterns: an exponent of all ones. *)
Definition nonFinite64 (bits : N) : bool := N.land (N.shiftr bits 52) 2047 =? 2047.
Definition nonFinite32 (bits : N) : bool := N.land (N.shiftr bits 23) 255 =? 255.

(** ** Go maps with string keys *)

Fixpoint strLe (a b : gostring) : bool :=
  match a, b with
  | [], _ => true
  | _ :: _, [] => false
  | x :: a, y :: b => if byteN x <? byteN y then true
                      else if byteN x =? byteN y then strLe a b else false
  end.
Definition strLt (a b : gostring) : Prop := strLe a b = true /\ a <> b.

(** [slices.Sort] of strings. *)
Definition strLeR (a b : gostring) : Prop := strLe a b = true.
#[global] Instance strLeR_dec a b : Decision (strLeR a b) := decide (strLe a b = true).
Definition sortKeys (keys : list gostring) : list gostring := merge_sort strLeR keys.

Fixpoint mapLookup {A} (key : gostring) (m : list (gostring * A)) : option A :=
  match m with
  | [] => None
  | (k, v) :: m => if bool_decide (k = key) then Some v else mapLookup key m
  end.

Fixpoint mapInsert {A} (key : gostring) (v : A) (m : list (gostring * A)) : list (gostring * A) :=
  match m with
  | [] => [(key, v)]
  | (k, w) :: m => if bool_decide (k = key) then (key, v) :: m
                   else if strLe key k then (key, v) :: (k, w) :: m
                   else (k, w) :: mapInsert key v m
  end.

(** ** Encoder *)

Section encoder.
Context {W : Type} `{Writer W}.
Implicit Types (e : binaryEncoder W).

Definition nestingError : error := ErrValueLimit "property nesting"%string.

Definition enc_properties_with (encv : binaryEncoder W -> persistedValue -> binaryEncoder W) e
    (values : option (list (gostring * persistedValue))) (depth : nat) : binaryEncoder W :=
  let e := admitDecoded e (slen values) 208 in
  match e_err e with
  | Some _ => e
  | None =>
      if (maxBinaryValueDepth <? depth)%nat then e_fail e nestingError
      else match values with
      | None => enc_u e 0
      | Some m =>
          encEach (fun e key => encv (enc_str e key) (default PVEmpty (mapLookup key m)))
            (enc_u e (u64 (nlen m + 1))) (sortKeys m.*1)
      end
  end.

Fixpoint enc_value_fuel (fuel : nat) e (value : persistedValue) (depth : nat) : binaryEncoder W :=
  match fuel with
  | O => e
  | S fuel =>
  match e_err e with
  | Some _ => e
  | None =>
  if (maxBinaryValueDepth <? depth)%nat then e_fail e nestingError
  else match value with
  | PVEmpty => enc_tag e x00
  | PVNull => enc_tag e x01
  | PVBool b => enc_tag (enc_tag e x02) (if b then x01 else x00)
  | PVInt i => enc_i (enc_tag e x03) i
  | PVFloat bits =>
      if nonFinite64 bits then e_fail e (ErrNew "non-finite binary property"%string)
      else write (enc_tag e x04) (PutUint64 bits)
  | PVString s => enc_str (enc_tag e x05) s
  | PVBytes b => enc_bytes (enc_tag e x06) b
  | PVVector v =>
      let e := enc_tag (admitDecoded e (slen v) 4) x07 in
      match v with
      | None => enc_u e 0
      | Some l =>
          encEach (fun e item =>
              if nonFinite32 item then e_fail e (ErrNew "non-finite binary vector"%string)
              else write e (PutUint32 item))
            (enc_u e (u64 (nlen l + 1))) l
      end
  | PVList v =>
      let e := enc_tag (admitDecoded e (slen v) 136) x08 in
      match v with
      | None => enc_u e 0
      | Some l => encEach (fun e item => enc_value_fuel fuel e item (S depth))
                    (enc_u e (u64 (nlen l + 1))) l
      end
  | PVMap m =>
      enc_properties_with (fun e v => enc_value_fuel fuel e v (S depth)) (enc_tag e x09) m (S depth)
  | PVUnknown kind => e_fail e (ErrNew "unsupported binary property kind"%string)
  end
  end
  end.

(** One level more than the nesting limit leaves. *)
Definition valueFuel (depth : nat) : nat := S (S maxBinaryValueDepth) - depth.

Definition enc_value e (value : persistedValue) (depth : nat) : binaryEncoder W :=
  enc_value_fuel (valueFuel depth) e value depth.
Definition enc_properties e (values : option (list (gostring * persistedValue))) (depth : nat) :
    binaryEncoder W :=
  enc_properties_with (fun e v => enc_value e v depth) e values depth.

End encoder.

(** ** Decoder *)

Implicit Types (d : binaryDecoder).

(** The loop over the entries; a duplicate key is an error. *)
Fixpoint decEntries (decv : binaryDecoder -> persistedValue * binaryDecoder) (n : nat)
    (values : list (gostring * persistedValue)) d : list (gostring * persistedValue) * binaryDecoder :=
  match n with
  | O => (values, d)
  | S n =>
      let '(key, d) := dec_str d in
      let '(value, d) := decv d in
      match d_err d with
      | Some _ => (values, d)
      | None =>
          match mapLookup key values with
          | Some _ => (values, d_fail d (ErrNew "duplicate binary property key"%string))
          | None => decEntries decv n (mapInsert key value values) d
          end
      end
  end.

Definition dec_properties_with (decv : binaryDecoder -> persistedValue * binaryDecoder) d (depth : nat) :
    option (list (gostring * persistedValue)) * binaryDecoder :=
  if (maxBinaryValueDepth <? depth)%nat then (None, d_fail d nestingError)
  else
    let '(n, d) := dec_length d 208 in
    match n with
    | None => (None, d)
    | Some n => let '(values, d) := decEntries decv (N.to_nat n) [] d in (Some values, d)
    end.

Definition decFloat32 d : N * binaryDecoder :=
  let '(b, d) := dec_read d 4 in
  let v := getBE b in
  match d_err d with
  | None => if nonFinite32 v then (v, d_fail d (ErrNew "non-finite binary vector"%string)) else (v, d)
  | Some _ => (v, d)
  end.

Fixpoint dec_value_fuel (fuel : nat) d (depth : nat) : persistedValue * binaryDecoder :=
  match fuel with
  | O => (PVEmpty, d)
  | S fuel =>
  match d_err d with
  | Some _ => (PVEmpty, d)
  | None =>
  if (maxBinaryValueDepth <? depth)%nat then (PVEmpty, d_fail d nestingError)
  else
  let '(tag, d) := ReadByte d in
  match d_err d with
  | Some _ => (PVEmpty, d)
  | None =>
  match tag with
  | x00 => (PVEmpty, d)
  | x01 => (PVNull, d)
  | x02 =>
      let '(flag, d) := ReadByte d in
      let d := match d_err d with
               | None => if 1 <? byteN flag then d_fail d (ErrNew "invalid binary boolean"%string) else d
               | Some _ => d
               end in
      (PVBool (byteN flag =? 1), d)
  | x03 => let '(i, d) := dec_i d in (PVInt i, d)
  | x04 =>
      let '(b, d) := dec_read d 8 in
      let bits := getBE b in
      let d := match d_err d with
               | None => if nonFinite64 bits then d_fail d (ErrNew "non-finite binary property"%string) else d
               | Some _ => d
               end in
      (PVFloat bits, d)
  | x05 => let '(s, d) := dec_str d in (PVString s, d)
  | x06 => let '(b, d) := dec_bytes d in (PVBytes b, d)
  | x07 =>
      let '(n, d) := dec_length d 4 in
      match n with
      | None => (PVVector None, d)
      | Some n =>
          if remaining d / 4 <? n then (PVVector None, d_fail d ErrUnexpectedEOF)
          else let '(l, d) := decEach decFloat32 (N.to_nat n) d in (PVVector (Some l), d)
      end
  | x08 =>
      let '(n, d) := dec_length d 136 in
      match n with
      | None => (PVList None, d)
      | Some n => let '(l, d) := decEach (fun d => dec_value_fuel fuel d (S depth)) (N.to_nat n) d in
                  (PVList (Some l), d)
      end
  | x09 =>
      let '(m, d) := dec_properties_with (fun d => dec_value_fuel fuel d (S depth)) d (S depth) in
      (PVMap m, d)
  | _ => (PVEmpty, d_fail d (ErrNew "unknown binary property tag"%string))
  end
  end
  end
  end.

Definition dec_value d (depth : nat) : persistedValue * binaryDecoder :=
  dec_value_fuel (valueFuel depth) d depth.
Definition dec_properties d (depth : nat) : option (list (gostring * persistedValue)) * binaryDecoder :=
  dec_properties_with (fun d => dec_value d depth) d depth.
