(* ===== verification/BinaryValueSpec.v ===== *)
(** * Property values round-trip

    A value whose nesting, lengths, floats and strings are within what the decoder
    accepts is read back as it was written; the allocation the encoder admits is
    the one the decoder reserves. *)
From S2P Require Import Prelude.
From S2P Require Import GoBytes.
From S2P Require Import BinaryCodec.
From S2P Require Import BinaryCodecSpec.
From S2P Require Import BinaryValue.
From Stdlib Require Strings.String.
Import String.StringSyntax.

(** ** The order of map keys *)

Lemma strLe_refl a : strLe a a = true.
Proof. induction a as [|x a IH]; [done|]. simpl. case_cmp; try done; lia. Qed.

#[global] Instance strLeR_trans : Transitive strLeR.
Proof.
  unfold strLeR. intros a. induction a as [|x a IH]; intros [|y b] [|z c]; simpl; try done.
  case_cmp; try done; try lia. apply IH.
Qed.

#[global] Instance strLeR_total : Total strLeR.
Proof.
  unfold strLeR. intros a. induction a as [|x a IH]; intros [|y b]; simpl; try (by left); try (by right).
  case_cmp; try (by left); try (by right); try lia. apply IH.
Qed.

#[global] Instance strLeR_antisym : AntiSymm (=) strLeR.
Proof.
  unfold strLeR. intros a. induction a as [|x a IH]; intros [|y b]; simpl; try done.
  case_cmp; try done; try lia. intros H1 H2. f_equal; [by apply byteN_inj|by apply IH].
Qed.

#[global] Instance strLt_trans : Transitive strLt.
Proof.
  intros a b c [H1 N1] [H2 N2]. split; [by eapply strLeR_trans|].
  intros <-. apply N1. by apply strLeR_antisym.
Qed.

Lemma strLt_irrefl a : ~ strLt a a.
Proof. by intros [_ ?]. Qed.

(** Sorting keys that are in order changes nothing. *)
Lemma sortKeys_sorted keys : StronglySorted strLt keys -> sortKeys keys = keys.
Proof.
  intros Hs. unfold sortKeys. apply (StronglySorted_unique strLeR).
  - apply Sorted_StronglySorted; [apply _|]. apply (Sorted_merge_sort strLeR).
  - clear -Hs. induction Hs as [|x l Hl IH Hx]; constructor; [done|].
    eapply Forall_impl; [exact Hx|]. by intros y [? _].
  - apply (merge_sort_Permutation strLeR).
Qed.

(** The encoder depends on the map, not on the order its entries are listed in. *)
Lemma sortKeys_perm keys keys' : keys ≡ₚ keys' -> sortKeys keys = sortKeys keys'.
Proof.
  intros Hp. unfold sortKeys. apply (StronglySorted_unique strLeR).
  - apply Sorted_StronglySorted; [apply _|]. apply (Sorted_merge_sort strLeR).
  - apply Sorted_StronglySorted; [apply _|]. apply (Sorted_merge_sort strLeR).
  - by rewrite !(merge_sort_Permutation strLeR).
Qed.

Definition keysSorted {A} (m : list (gostring * A)) : Prop := StronglySorted strLt m.*1.

Lemma mapLookup_app {A} key (m1 m2 : list (gostring * A)) :
  mapLookup key (m1 ++ m2) = match mapLookup key m1 with None => mapLookup key m2 | Some v => Some v end.
Proof. induction m1 as [|[k v] m1 IH]; simpl; [done|]. by case_bool_decide. Qed.

Lemma mapLookup_notin {A} key (m : list (gostring * A)) : key ∉ m.*1 -> mapLookup key m = None.
Proof.
  induction m as [|[k v] m IH]; simpl; [done|]. intros Hn. apply not_elem_of_cons in Hn as [Hne Hn].
  rewrite bool_decide_false by congruence. by apply IH.
Qed.

Lemma keysSorted_app {A} (m1 m2 : list (gostring * A)) kv :
  keysSorted (m1 ++ kv :: m2) ->
  kv.1 ∉ m1.*1 /\ kv.1 ∉ m2.*1 /\ Forall (fun k => strLt k kv.1) m1.*1.
Proof.
  unfold keysSorted. rewrite fmap_app, fmap_cons. intros Hs.
  assert (Hlt : Forall (fun k => strLt k kv.1) m1.*1).
  { rewrite Forall_forall. intros k Hk. apply StronglySorted_app in Hs as (H1 & _ & _).
    apply H1; [done|apply list_elem_of_here]. }
  assert (Hgt : Forall (fun k => strLt kv.1 k) m2.*1).
  { apply StronglySorted_app in Hs as (_ & _ & Hs). by apply StronglySorted_inv in Hs as [_ ?]. }
  rewrite Forall_forall in Hlt, Hgt. split_and!; [| |by rewrite Forall_forall].
  - intros Hin. by apply (strLt_irrefl kv.1), Hlt.
  - intros Hin. by apply (strLt_irrefl kv.1), Hgt.
Qed.

Lemma mapLookup_sorted {A} (m1 m2 : list (gostring * A)) k v :
  keysSorted (m1 ++ (k, v) :: m2) -> mapLookup k (m1 ++ (k, v) :: m2) = Some v.
Proof.
  intros Hs. apply keysSorted_app in Hs as (H1 & _ & _). rewrite mapLookup_app, mapLookup_notin by done.
  simpl. by rewrite bool_decide_true.
Qed.

(** Entries that arrive in order are appended. *)
Lemma mapInsert_last {A} key (v : A) m :
  Forall (fun k => strLt k key) m.*1 -> mapInsert key v m = m ++ [(key, v)].
Proof.
  induction m as [|[k w] m IH]; simpl; [done|]. intros [[Hle Hne] Hm]%Forall_cons.
  rewrite bool_decide_false by done. destruct (strLe key k) eqn:E.
  - exfalso. apply Hne. by apply strLeR_antisym.
  - by rewrite IH.
Qed.

(** ** The wire format *)

Definition wireMany {A} (f : A -> list byte) (v : option (list A)) : list byte :=
  match v with None => PutUvarint 0 | Some l => PutUvarint (nlen l + 1) ++ concat (f <$> l) end.
Definition reserveMany {A} (size : N) (f : A -> list N) (v : option (list A)) : list N :=
  match v with None => [] | Some l => [nlen l * size] ++ concat (f <$> l) end.
Definition admitMany {A} (size : N) (f : A -> N) (v : option (list A)) : N :=
  slen v * size + match v with None => 0 | Some l => nsum (f <$> l) end.
Definition validMany {A} (P : A -> Prop) (v : option (list A)) : Prop :=
  match v with None => True | Some l => nlen l < maxLen /\ Forall P l end.

Definition entryWire (f : persistedValue -> list byte) (kv : gostring * persistedValue) : list byte :=
  wire_str kv.1 ++ f kv.2.
Definition entryReserve (f : persistedValue -> list N) (kv : gostring * persistedValue) : list N :=
  [nlen kv.1 * 2] ++ f kv.2.
Definition entryAdmit (f : persistedValue -> N) (kv : gostring * persistedValue) : N :=
  nlen kv.1 * 2 + f kv.2.

(** [n] is the number of nesting levels left; a value needs at least one, a map
    one more for its entries. *)
Fixpoint wireV (n : nat) (v : persistedValue) : list byte :=
  match n with
  | O => [x00]
  | S n =>
      match v with
      | PVEmpty | PVUnknown _ => [x00]
      | PVNull => [x01]
      | PVBool b => [x02] ++ [if b then x01 else x00]
      | PVInt i => [x03] ++ PutVarint i
      | PVFloat bits => [x04] ++ PutUint64 bits
      | PVString s => [x05] ++ wire_str s
      | PVBytes b => [x06] ++ wire_bytes b
      | PVVector v => [x07] ++ wireMany PutUint32 v
      | PVList l => [x08] ++ wireMany (wireV n) l
      | PVMap m => [x09] ++ wireMany (entryWire (wireV n)) m
      end
  end.

Fixpoint reservedV (n : nat) (v : persistedValue) : list N :=
  match n with
  | O => []
  | S n =>
      match v with
      | PVString s => [nlen s * 2]
      | PVBytes b => match b with None => [] | Some l => [nlen l * 1] end
      | PVVector v => reserveMany 4 (fun _ => []) v
      | PVList l => reserveMany 136 (reservedV n) l
      | PVMap m => reserveMany 208 (entryReserve (reservedV n)) m
      | _ => []
      end
  end.

Fixpoint admittedV (n : nat) (v : persistedValue) : N :=
  match n with
  | O => 0
  | S n =>
      match v with
      | PVString s => nlen s * 2
      | PVBytes b => slen b * 1
      | PVVector v => admitMany 4 (fun _ => 0) v
      | PVList l => admitMany 136 (admittedV n) l
      | PVMap m => admitMany 208 (entryAdmit (admittedV n)) m
      | _ => 0
      end
  end.

Definition validMap (P : persistedValue -> Prop) (m : option (list (gostring * persistedValue))) : Prop :=
  validMany (fun kv => valid kv.1 /\ P kv.2) m /\ keysSorted (default [] m).

Fixpoint validV (n : nat) (v : persistedValue) : Prop :=
  match n with
  | O => False
  | S n =>
      match v with
      | PVEmpty | PVNull | PVBool _ => True
      | PVInt i => int64 i
      | PVFloat bits => bits < 2 ^ 64 /\ nonFinite64 bits = false
      | PVString s => valid s
      | PVBytes b => slen b < maxLen
      | PVVector v => validMany (fun x => x < 2 ^ 32 /\ nonFinite32 x = false) v
      | PVList l => validMany (validV n) l
      | PVMap m => n <> O /\ validMap (validV n) m
      | PVUnknown _ => False
      end
  end.

(** What the encoder admits is what the decoder reserves. *)
Lemma nsum_concat {A} (f : A -> list N) (g : A -> N) (l : list A) :
  (forall x, nsum (f x) = g x) -> nsum (concat (f <$> l)) = nsum (g <$> l).
Proof.
  intros Hfg. induction l as [|x l IH]; [done|]. cbn [fmap list_fmap concat].
  rewrite nsum_app, Hfg. change (nsum (g x :: (g <$> l))) with (g x + nsum (g <$> l)).
  f_equal. exact IH.
Qed.

Lemma nsum_reserveMany {A} size (f : A -> list N) (g : A -> N) v :
  (forall x, nsum (f x) = g x) -> nsum (reserveMany size f v) = admitMany size g v.
Proof.
  intros Hfg. unfold reserveMany, admitMany. destruct v as [l|]; cbn [slen]; [|done].
  rewrite nsum_app, (nsum_concat f g) by done. unfold nsum at 1. cbn [foldr]. lia.
Qed.

Lemma reserved_admitted n : forall v, nsum (reservedV n v) = admittedV n v.
Proof.
  induction n as [|n IH]; intros v; [done|]. cbn [reservedV admittedV].
  destruct v as [| | | | |s|b|v|l|m|k]; try done.
  - unfold nsum. cbn [foldr]. lia.
  - destruct b as [l|]; [|done]. unfold nsum. cbn [foldr slen]. lia.
  - by apply nsum_reserveMany.
  - by apply nsum_reserveMany.
  - apply nsum_reserveMany. intros [k v]. unfold entryReserve, entryAdmit. cbn [fst snd].
    rewrite nsum_app, IH. unfold nsum at 1. cbn [foldr]. lia.
Qed.

(** ** Maps, given the codec of their values *)

Section properties.
Context (cv : Codec persistedValue).
Implicit Types (m : list (gostring * persistedValue)) (e : binaryEncoder (list byte)) (d : binaryDecoder).

Definition encEntry e (kv : gostring * persistedValue) := cenc (enc_str e kv.1) kv.2.

(** An entry as an element of a slice; only its encoder side is a slice element,
    the decoder collects a map. *)
Lemma encEntries_to m : forall e,
  Forall (fun kv => valid kv.1 /\ valid kv.2) m -> (e_err e = None -> wfE e) ->
  encodesTo e (encEach encEntry e m) (concat (entryWire wire <$> m)) (nsum (entryAdmit admitted <$> m)).
Proof.
  induction m as [|kv m IH]; intros e Hv Hw; [by apply encodesTo_nil|].
  apply Forall_cons in Hv as [[Hk Hx] Hv]. cbn [encEach].
  apply (encodesTo_then e (encEntry e kv) _ (entryWire wire kv) (entryAdmit admitted kv)); [done| |].
  - apply (encodesTo_then e (enc_str e kv.1)); [done|by apply enc_str_to; [apply Hk|]|].
    intros. by apply cenc_ok.
  - intros Hw1. destruct (e_err (encEntry e kv)) eqn:E; [apply encodesTo_err; congruence|apply IH; auto].
Qed.

Lemma encEach_keys m1 m2 : forall e,
  keysSorted (m1 ++ m2) ->
  encEach (fun e key => cenc (enc_str e key) (default PVEmpty (mapLookup key (m1 ++ m2)))) e m2.*1 =
  encEach encEntry e m2.
Proof.
  revert m1. induction m2 as [|[k v] m2 IH]; intros m1 e Hs; [done|]. cbn [encEach fmap list_fmap fst].
  unfold encEntry at 1 2. cbn [fst snd].
  rewrite (mapLookup_sorted m1 m2 k v Hs). cbn [from_option id].
  destruct (e_err _); [done|]. rewrite cons_middle, app_assoc in Hs |- *. by apply IH.
Qed.

Lemma enc_properties_to e v depth :
  (depth <= maxBinaryValueDepth)%nat -> validMap valid v -> (e_err e = None -> wfE e) ->
  encodesTo e (enc_properties_with cenc e v depth)
    (wireMany (entryWire wire) v) (admitMany 208 (entryAdmit admitted) v).
Proof.
  intros Hd [Hv Hs] Hw. unfold enc_properties_with, admitMany.
  set (k := fun e => match e_err e with
    | Some _ => e
    | None => if (maxBinaryValueDepth <? depth)%nat then e_fail e nestingError else
        match v with
        | None => enc_u e 0
        | Some m => encEach (fun e key => cenc (enc_str e key) (default PVEmpty (mapLookup key m)))
                      (enc_u e (u64 (nlen m + 1))) (sortKeys m.*1)
        end end).
  change (encodesTo e (k (admitDecoded e (slen v) 208)) (wireMany (entryWire wire) v)
    (slen v * 208 + match v with None => 0 | Some l => nsum (entryAdmit admitted <$> l) end)).
  assert (Hl : slen v < maxLen) by (destruct v as [m|]; [apply Hv|done]).
  apply admit_zero; [done|unfold maxLen in Hl; lia|]. clear e Hw. intros e Hw. unfold k.
  destruct (e_err e) eqn:E; [apply encodesTo_err; congruence|].
  destruct (Nat.ltb_spec maxBinaryValueDepth depth); [lia|].
  destruct v as [m|]; [|apply write_to'; auto]. destruct Hv as [_ Hv].
  rewrite sortKeys_sorted by done. destruct (maxLen_int _ Hl) as (_ & _ & H641). cbn [slen] in H641.
  unfold u64. rewrite N.mod_small by done.
  rewrite (encEach_keys [] m) by done.
  apply (encodesTo_then e (enc_u e (nlen m + 1)) _ _ 0); [auto|apply write_to'; auto|].
  intros. by apply encEntries_to.
Qed.

Lemma decEntries_ok m2 : forall m1 d,
  keysSorted (m1 ++ m2) -> Forall (fun kv => valid kv.1 /\ valid kv.2) m2 ->
  ready d (concat (entryWire wire <$> m2)) (concat (entryReserve reserved <$> m2)) ->
  decEntries cdec (length m2) m1 d =
  (m1 ++ m2, eat d (concat (entryWire wire <$> m2)) (concat (entryReserve reserved <$> m2))).
Proof.
  induction m2 as [|[k v] m2 IH]; intros m1 d Hs Hv Hr; cbn [length decEntries].
  - rewrite app_nil_r. f_equal. unfold eat. cbn. rewrite drop_0, !N.sub_0_r, app_nil_r.
    destruct Hr as [He _ _ _ _ _ _ _]. destruct d; simpl in *. by subst.
  - apply Forall_cons in Hv as [[Hk Hx] Hv]. cbn [fst snd] in *.
    cbn [fmap list_fmap concat] in Hr |- *. unfold entryWire at 1, entryReserve at 1 in Hr.
    cbn [fst snd] in Hr. rewrite <- !app_assoc in Hr.
    apply ready_app in Hr as [Hr1 Hr2]. apply ready_app in Hr2 as [Hr2 Hr3].
    rewrite (dec_str_ok d k (proj1 Hk) (proj2 Hk) Hr1). rewrite (cdec_ok _ v Hx Hr2).
    cbn [d_err eat]. rewrite eat_eat in *.
    pose proof (keysSorted_app _ _ _ Hs) as (Hn1 & _ & Hlt). cbn [fst] in *.
    rewrite mapLookup_notin by done. rewrite mapInsert_last by done.
    rewrite cons_middle, app_assoc in Hs.
    rewrite (IH _ _ Hs Hv Hr3). rewrite eat_eat. by rewrite <- (app_assoc m1).
Qed.

Lemma entries_length m : nlen m <= nlen (concat (entryWire wire <$> m)).
Proof.
  unfold nlen. induction m as [|kv m IH]; cbn [length fmap list_fmap concat]; [lia|].
  rewrite length_app. unfold entryWire at 1. rewrite length_app. pose proof (wire_pos kv.2). lia.
Qed.

Lemma dec_properties_ok d v depth :
  (depth <= maxBinaryValueDepth)%nat -> validMap valid v ->
  ready d (wireMany (entryWire wire) v) (reserveMany 208 (entryReserve reserved) v) ->
  dec_properties_with cdec d depth =
  (v, eat d (wireMany (entryWire wire) v) (reserveMany 208 (entryReserve reserved) v)).
Proof.
  intros Hd [Hv Hs] Hr. unfold dec_properties_with. destruct (Nat.ltb_spec maxBinaryValueDepth depth); [lia|].
  destruct v as [m|]; cbn [wireMany reserveMany] in *; [|by rewrite dec_length_nil].
  destruct Hv as [Hl Hv].
  rewrite (dec_length_ok d (nlen m) 208 _ _ Hl (entries_length m) Hr).
  apply ready_app in Hr as [_ Hr]. unfold nlen at 1. rewrite Nat2N.id.
  rewrite (decEntries_ok m [] _ Hs Hv Hr). by rewrite eat_eat.
Qed.

End properties.

(** ** Values *)

Lemma wireV_pos n v : (0 < length (wireV n v))%nat.
Proof. destruct n; [cbn; lia|]. destruct v; cbn; lia. Qed.

Definition encLaw (n depth fuel : nat) : Prop := forall e v,
  validV n v -> (e_err e = None -> wfE e) ->
  encodesTo e (enc_value_fuel fuel e v depth) (wireV n v) (admittedV n v).
Definition decLaw (n depth fuel : nat) : Prop := forall d v,
  validV n v -> ready d (wireV n v) (reservedV n v) ->
  dec_value_fuel fuel d depth = (v, eat d (wireV n v) (reservedV n v)).

Definition codec_level n depth fuel (He : encLaw n depth fuel) (Hd : decLaw n depth fuel) :
    Codec persistedValue :=
  {| cenc := fun e v => enc_value_fuel fuel e v depth; cdec := fun d => dec_value_fuel fuel d depth;
     wire := wireV n; admitted := admittedV n; reserved := reservedV n; valid := validV n;
     cenc_ok := He; cdec_ok := Hd; wire_pos := wireV_pos n |}.

(** A vector is a slice of four-byte elements. *)
Definition encFloat32 (e : binaryEncoder (list byte)) (item : N) : binaryEncoder (list byte) :=
  if nonFinite32 item then e_fail e (ErrNew "non-finite binary vector"%string)
  else write e (PutUint32 item).

#[local, refine] Instance codec_float32 : Codec N := {
  cenc := encFloat32; cdec := decFloat32; wire := PutUint32; admitted := fun _ => 0;
  reserved := fun _ => []; valid := fun x => x < 2 ^ 32 /\ nonFinite32 x = false }.
Proof.
  - intros e x [_ Hf] Hw. unfold encFloat32. rewrite Hf. by apply write_to'.
  - intros d x [Hx Hf] Hr. unfold decFloat32. pose proof (read_ok _ _ Hr) as E.
    change (nlen (PutUint32 x)) with 4 in E. rewrite E. cbn [d_err eat].
    unfold PutUint32. rewrite getBE_put by done. by rewrite Hf.
  - intros x. cbn. lia.
Defined.

Lemma concat_nil {A} (l : list A) : concat ((fun _ => @nil N) <$> l) = [].
Proof. induction l; [done|]. cbn. done. Qed.

Lemma nsum_zero {A} (l : list A) : nsum ((fun _ => 0) <$> l) = 0.
Proof. induction l as [|x l IH]; [done|]. cbn [fmap list_fmap]. unfold nsum in *. cbn [foldr]. by rewrite IH. Qed.

Lemma wires_vector_length l : nlen (concat (PutUint32 <$> l)) = 4 * nlen l.
Proof.
  unfold nlen. induction l as [|x l IH]; [done|]. cbn [fmap list_fmap concat]. rewrite length_app.
  unfold PutUint32 at 1. rewrite putBE_length. cbn [length]. lia.
Qed.

(** The head of every case: the tag. *)
Lemma tag_then (e e' : binaryEncoder (list byte)) t w a :
  e_err e = None -> wfE e ->
  (forall e1, (e_err e1 = None -> wfE e1) -> e1 = enc_tag e t -> encodesTo e1 e' w a) ->
  encodesTo e e' ([t] ++ w) a.
Proof.
  intros H0 Hw He. rewrite <- (N.add_0_l a).
  apply (encodesTo_then e (enc_tag e t)); [auto|by apply write_to'|]. intros Hw1. by apply He.
Qed.

Lemma admit_tag_then (e : binaryEncoder (list byte)) (k : binaryEncoder (list byte) -> binaryEncoder (list byte))
    count size t w a :
  (e_err e = None -> wfE e) -> count * size < 2 ^ 64 ->
  (forall e1, (e_err e1 = None -> wfE e1) -> encodesTo e1 (k e1) w a) ->
  encodesTo e (k (enc_tag (admitDecoded e count size) t)) ([t] ++ w) (count * size + a).
Proof.
  intros Hw Hlt Hk. apply (admit_zero e count size ([t] ++ w) a (fun e => k (enc_tag e t))); [done|done|].
  intros e1 Hw1. rewrite <- (N.add_0_l a).
  apply (encodesTo_then e1 (enc_tag e1 t)); [done|by apply write_to'|]. intros. by apply Hk.
Qed.

(** The length prefix and the elements of a present or nil collection. *)
Lemma elements_to {A} (c : Codec A) e (v : option (list A)) :
  validMany valid v -> (e_err e = None -> wfE e) ->
  encodesTo e match v with
              | None => enc_u e 0
              | Some l => encEach cenc (enc_u e (u64 (nlen l + 1))) l
              end (wireMany wire v) (match v with None => 0 | Some l => nsum (admitted <$> l) end).
Proof.
  intros Hv Hw. destruct v as [l|]; [|by apply write_to']. destruct Hv as [Hl Hv].
  destruct (maxLen_int _ Hl) as (_ & _ & H641). unfold u64. rewrite N.mod_small by done.
  apply (encodesTo_then e (enc_u e (nlen l + 1)) _ _ 0); [done|by apply write_to'|].
  intros. by apply (encEach_to l).
Qed.

Lemma value_enc n : forall depth fuel,
  (n + depth = 66)%nat -> (n <= fuel)%nat ->
  (forall n' depth' fuel', (n' < n)%nat -> (n' + depth' = 66)%nat -> (n' <= fuel')%nat ->
     encLaw n' depth' fuel' /\ decLaw n' depth' fuel') ->
  encLaw n depth fuel.
Proof.
  intros depth fuel Hnd Hf IH e v Hv Hw.
  destruct n as [|n]; [done|]. destruct fuel as [|fuel]; [lia|].
  cbn [enc_value_fuel wireV admittedV]. destruct (e_err e) eqn:E; [apply encodesTo_err; congruence|].
  specialize (Hw eq_refl).
  destruct (Nat.ltb_spec maxBinaryValueDepth depth) as [Hlt|_]; [unfold maxBinaryValueDepth, maxValueDepth in Hlt; lia|].
  destruct v as [| |b|i|bits|s|b|v|l|m|k]; cbn [validV] in Hv.
  - by apply write_to'.
  - by apply write_to'.
  - apply tag_then; [done|done|]. intros e1 Hw1 ->. by apply write_to'.
  - apply tag_then; [done|done|]. intros e1 Hw1 ->. by apply write_to'.
  - destruct Hv as [_ ->]. apply tag_then; [done|done|]. intros e1 Hw1 ->. by apply write_to'.
  - apply tag_then; [done|done|]. intros e1 Hw1 ->. apply enc_str_to; [apply Hv|done].
  - apply tag_then; [done|done|]. intros e1 Hw1 ->. by apply (@cenc_ok _ codec_bytes).
  - unfold admitMany. apply (admit_tag_then e (fun e => match v with
      | None => enc_u e 0
      | Some l => encEach encFloat32 (enc_u e (u64 (nlen l + 1))) l end)); [auto| |].
    + destruct v as [l|]; [|done]. destruct Hv as [Hl _]. cbn [slen]. unfold maxLen in Hl. lia.
    + intros e1 Hw1. by apply (elements_to codec_float32).
  - destruct (IH n (S depth) fuel) as [He Hd]; [lia..|]. unfold admitMany.
    apply (admit_tag_then e (fun e => match l with
      | None => enc_u e 0
      | Some l => encEach (fun e item => enc_value_fuel fuel e item (S depth)) (enc_u e (u64 (nlen l + 1))) l
      end)); [auto| |].
    + destruct l as [l|]; [|done]. destruct Hv as [Hl _]. cbn [slen]. unfold maxLen in Hl. lia.
    + intros e1 Hw1. by apply (elements_to (codec_level n (S depth) fuel He Hd)).
  - destruct Hv as [Hn Hv]. destruct (IH n (S depth) fuel) as [He Hd]; [lia..|].
    apply tag_then; [done|done|]. intros e1 Hw1 ->.
    apply (enc_properties_to (codec_level n (S depth) fuel He Hd)); [|done|done].
    unfold maxBinaryValueDepth, maxValueDepth. lia.
  - done.
Qed.

Lemma eat_err d w rs : d_err (eat d w rs) = None.
Proof. done. Qed.

Lemma tag_ready d t w rs : ready d ([t] ++ w) rs ->
  ReadByte d = (t, eat d [t] []) /\ ready (eat d [t] []) w rs.
Proof. intros Hr. apply (ready_app d [t] w [] rs) in Hr as [Hr1 Hr2]. split; [by apply ReadByte_ok|done]. Qed.

Lemma value_dec n : forall depth fuel,
  (n + depth = 66)%nat -> (n <= fuel)%nat ->
  (forall n' depth' fuel', (n' < n)%nat -> (n' + depth' = 66)%nat -> (n' <= fuel')%nat ->
     encLaw n' depth' fuel' /\ decLaw n' depth' fuel') ->
  decLaw n depth fuel.
Proof.
  intros depth fuel Hnd Hf IH d v Hv Hr.
  destruct n as [|n]; [done|]. destruct fuel as [|fuel]; [lia|].
  cbn [dec_value_fuel]. rewrite (r_err _ _ _ Hr).
  destruct (Nat.ltb_spec maxBinaryValueDepth depth) as [Hlt|_]; [unfold maxBinaryValueDepth, maxValueDepth in Hlt; lia|].
  destruct v as [| |b|i|bits|s|b|v|l|m|k]; cbn [validV] in Hv; cbn [wireV reservedV] in Hr |- *; try done.
  - rewrite (ReadByte_ok _ _ Hr). done.
  - rewrite (ReadByte_ok _ _ Hr). done.
  - apply tag_ready in Hr as [-> Hr]. rewrite eat_err.
    rewrite (ReadByte_ok _ _ Hr). rewrite eat_err, eat_eat. by destruct b.
  - apply tag_ready in Hr as [-> Hr]. rewrite eat_err.
    rewrite (i_ok _ _ Hv Hr). by rewrite eat_eat.
  - apply tag_ready in Hr as [-> Hr]. rewrite eat_err.
    pose proof (read_ok _ _ Hr) as E. change (nlen (PutUint64 bits)) with 8 in E. rewrite E.
    rewrite eat_err, eat_eat. destruct Hv as [Hb Hnf]. rewrite (getBE_put 8) by done. by rewrite Hnf.
  - apply tag_ready in Hr as [-> Hr]. rewrite eat_err.
    destruct Hv as [Hl Hu]. rewrite (dec_str_ok _ _ Hl Hu Hr). by rewrite eat_eat.
  - apply tag_ready in Hr as [-> Hr]. rewrite eat_err.
    rewrite (@cdec_ok _ codec_bytes _ b Hv Hr : dec_bytes _ = _). by rewrite eat_eat.
  - apply tag_ready in Hr as [-> Hr]. rewrite eat_err.
    destruct v as [l|]; cbn [wireMany reserveMany] in Hr |- *.
    2:{ rewrite dec_length_nil by done. by rewrite eat_eat. }
    destruct Hv as [Hl Hv]. rewrite concat_nil in Hr |- *.
    rewrite (dec_length_ok _ (nlen l) 4 (concat (PutUint32 <$> l)) []);
      [|done|rewrite wires_vector_length; lia|done].
    apply ready_app in Hr as [_ Hr]. pose proof (r_left _ _ _ Hr) as Hleft.
    rewrite wires_vector_length in Hleft.
    match goal with |- context [N.ltb ?a ?b] => destruct (N.ltb_spec a b) as [Hlt|_] end.
    { exfalso. apply N.lt_nge in Hlt. apply Hlt, N.div_le_lower_bound; lia. }
    unfold nlen at 1. rewrite Nat2N.id.
    assert (Hr' : ready (eat (eat d [x07] []) (PutUvarint (nlen l + 1)) [nlen l * 4])
              (wires (H0 := codec_float32) l) (reserves (H0 := codec_float32) l))
      by (unfold wires, reserves; cbn [wire reserved codec_float32]; rewrite concat_nil; exact Hr).
    rewrite (decEach_ok (H0 := codec_float32) l _ Hv Hr' : decEach decFloat32 _ _ = _).
    unfold wires, reserves. cbn [wire reserved codec_float32]. rewrite concat_nil. by rewrite !eat_eat.
  - destruct (IH n (S depth) fuel) as [He Hd]; [lia..|].
    apply tag_ready in Hr as [-> Hr]. rewrite eat_err.
    destruct l as [l|]; cbn [wireMany reserveMany] in Hr |- *.
    2:{ rewrite dec_length_nil by done. by rewrite eat_eat. }
    destruct Hv as [Hl Hv]. set (c := codec_level n (S depth) fuel He Hd).
    rewrite (dec_length_ok _ (nlen l) 136 (concat (wireV n <$> l)) _ Hl (wires_length (H0 := c) l) Hr).
    apply ready_app in Hr as [_ Hr]. unfold nlen at 1. rewrite Nat2N.id.
    rewrite (decEach_ok (H0 := c) l _ Hv Hr : decEach (fun d => dec_value_fuel fuel d (S depth)) _ _ = _).
    by rewrite !eat_eat.
  - destruct Hv as [Hn Hv]. destruct (IH n (S depth) fuel) as [He Hd]; [lia..|].
    apply tag_ready in Hr as [-> Hr]. rewrite eat_err.
    set (c := codec_level n (S depth) fuel He Hd).
    assert (Hdep : (S depth <= maxBinaryValueDepth)%nat) by (unfold maxBinaryValueDepth, maxValueDepth; lia).
    rewrite (dec_properties_ok c _ m (S depth) Hdep Hv Hr
      : dec_properties_with (fun d => dec_value_fuel fuel d (S depth)) _ _ = _).
    by rewrite eat_eat.
Qed.

Lemma value_laws n : forall depth fuel,
  (n + depth = 66)%nat -> (n <= fuel)%nat -> encLaw n depth fuel /\ decLaw n depth fuel.
Proof.
  induction n as [n IH] using lt_wf_ind. intros depth fuel Hnd Hf. split.
  - apply value_enc; [done|done|]. intros. by apply IH.
  - apply value_dec; [done|done|]. intros. by apply IH.
Qed.
