(* ===== verification/BinaryRecords.v ===== *)
(** * Persisted records on the wire (binary_records.go, binary_state.go,
    binary_delta.go, binary_streams.go)

    The record types of store.go and stream.go and their encoders and decoders,
    field by field. A nil slice or pointer is [None]. *)
From S2P Require Import Prelude.
From S2P Require Import GoBytes.
From S2P Require Import BinaryCodec.
From S2P Require Import BinaryValue.
From Stdlib Require Strings.String.
Import String.StringSyntax.

Abbreviation properties := (option (list (gostring * persistedValue))).
Abbreviation slice A := (option (list A)).

Record persistedNode := mkPNode { pn_ID : N; pn_Labels : slice gostring; pn_Properties : properties }.
Record persistedEdge := mkPEdge {
  pe_ID : N; pe_SourceID : N; pe_TargetID : N; pe_Type : gostring; pe_Properties : properties }.
Record persistedFTS := mkPFTS { pf_NodeID : N; pf_Text : gostring }.
Record persistedPropertyIndexDefinition := mkPIndex { pi_Scope : gostring; pi_Property : gostring }.
Record persistedAppMetadata := mkPMeta { pm_Key : slice byte; pm_Value : slice byte }.
Record persistedAppMetadataChange := mkPMetaChange {
  pmc_Key : slice byte; pmc_Value : slice byte; pmc_Delete : bool }.
Record persistedStreamRecord := mkPSRecord {
  psr_Sequence : N; psr_Kind : gostring; psr_Payload : persistedValue }.
Record persistedStream := mkPStream {
  ps_Name : gostring; ps_Next : N; ps_Records : slice persistedStreamRecord }.
Record persistedStreamOffset := mkPSOffset {
  pso_Stream : gostring; pso_Consumer : gostring; pso_Sequence : N }.
Record persistedStreams := mkPStreams {
  pss_Streams : slice persistedStream; pss_Offsets : slice persistedStreamOffset }.
Record persistedStreamOperation := mkPSOp {
  op_Type : gostring; op_Stream : gostring; op_Consumer : gostring; op_Sequence : N;
  op_Kind : gostring; op_Payload : persistedValue }.
Record persistedPropertyChange := mkPChange {
  pc_ID : N; pc_Set : properties; pc_Remove : slice gostring }.

Record persistedState := mkPState {
  st_DatabaseID : gostring; st_VectorDimensions : N; st_CommitID : N; st_NextNodeID : N;
  st_NextEdgeID : N; st_AppMetadata : slice persistedAppMetadata; st_Nodes : slice persistedNode;
  st_Edges : slice persistedEdge; st_FTS : slice persistedFTS;
  st_NodeIndexes : slice persistedPropertyIndexDefinition;
  st_EdgeIndexes : slice persistedPropertyIndexDefinition; st_Streams : persistedStreams }.

Record persistedDelta := mkPDelta {
  dl_DatabaseID : gostring; dl_CommitID : N; dl_NextNodeID : N; dl_NextEdgeID : N;
  dl_UpsertNodes : slice persistedNode; dl_DeleteNodes : slice N;
  dl_UpsertEdges : slice persistedEdge; dl_DeleteEdges : slice N;
  dl_UpsertFTS : slice persistedFTS; dl_DeleteFTS : slice N;
  dl_AppMetadata : slice persistedAppMetadataChange;
  dl_Streams : option persistedStreams; dl_StreamOperations : slice persistedStreamOperation;
  dl_CreateNodeIndexes : slice persistedPropertyIndexDefinition;
  dl_DropNodeIndexes : slice persistedPropertyIndexDefinition;
  dl_CreateEdgeIndexes : slice persistedPropertyIndexDefinition;
  dl_DropEdgeIndexes : slice persistedPropertyIndexDefinition;
  dl_NodePropertyChanges : slice persistedPropertyChange;
  dl_EdgePropertyChanges : slice persistedPropertyChange }.

(** [walPayload]: the kind with the pointer it uses. *)
Inductive walPayload :=
  | WALCheckpoint
  | WALSnapshot (snapshot : option persistedState)
  | WALDelta (delta : option persistedDelta)
  | WALPropertyDelta (delta : option persistedDelta)
  | WALUnknown (kind : gostring).

#[global] Instance persistedNode_inhabited : Inhabited persistedNode := populate (mkPNode 0 None None).
#[global] Instance persistedEdge_inhabited : Inhabited persistedEdge := populate (mkPEdge 0 0 0 [] None).
#[global] Instance persistedFTS_inhabited : Inhabited persistedFTS := populate (mkPFTS 0 []).
#[global] Instance persistedIndex_inhabited : Inhabited persistedPropertyIndexDefinition :=
  populate (mkPIndex [] []).
#[global] Instance persistedMeta_inhabited : Inhabited persistedAppMetadata := populate (mkPMeta None None).
#[global] Instance persistedMetaChange_inhabited : Inhabited persistedAppMetadataChange :=
  populate (mkPMetaChange None None false).
#[global] Instance persistedStreamRecord_inhabited : Inhabited persistedStreamRecord :=
  populate (mkPSRecord 0 [] PVEmpty).
#[global] Instance persistedStream_inhabited : Inhabited persistedStream := populate (mkPStream [] 0 None).
#[global] Instance persistedStreamOffset_inhabited : Inhabited persistedStreamOffset :=
  populate (mkPSOffset [] [] 0).
#[global] Instance persistedStreamOperation_inhabited : Inhabited persistedStreamOperation :=
  populate (mkPSOp [] [] [] 0 [] PVEmpty).
#[global] Instance persistedChange_inhabited : Inhabited persistedPropertyChange :=
  populate (mkPChange 0 None None).

(** ** Encoders *)

Section encoders.
Context {W : Type} `{Writer W}.
Implicit Types (e : binaryEncoder W).

Definition enc_node e (n : persistedNode) :=
  enc_properties (enc_strings (enc_u e (pn_ID n)) (pn_Labels n)) (pn_Properties n) 0.

Definition enc_edge e (ed : persistedEdge) :=
  let e := enc_u e (pe_ID ed) in
  let e := enc_u e (pe_SourceID ed) in
  let e := enc_u e (pe_TargetID ed) in
  let e := enc_str e (pe_Type ed) in
  enc_properties e (pe_Properties ed) 0.

Definition enc_fts e (f : persistedFTS) := enc_str (enc_u e (pf_NodeID f)) (pf_Text f).

Definition enc_index e (def : persistedPropertyIndexDefinition) :=
  enc_str (enc_str e (pi_Scope def)) (pi_Property def).
Definition enc_indexes e (defs : slice persistedPropertyIndexDefinition) :=
  encodeBinarySlice enc_index e defs.

Definition enc_meta e (entry : persistedAppMetadata) :=
  enc_bytes (enc_bytes e (pm_Key entry)) (pm_Value entry).
Definition enc_metadata e (entries : slice persistedAppMetadata) := encodeBinarySlice enc_meta e entries.

Definition enc_streamRecord e (record : persistedStreamRecord) :=
  enc_value (enc_str (enc_u e (psr_Sequence record)) (psr_Kind record)) (psr_Payload record) 0.
Definition enc_stream e (stream : persistedStream) :=
  encodeBinarySlice enc_streamRecord (enc_u (enc_str e (ps_Name stream)) (ps_Next stream)) (ps_Records stream).
Definition enc_offset e (offset : persistedStreamOffset) :=
  enc_u (enc_str (enc_str e (pso_Stream offset)) (pso_Consumer offset)) (pso_Sequence offset).
Definition enc_streams e (state : persistedStreams) :=
  encodeBinarySlice enc_offset (encodeBinarySlice enc_stream e (pss_Streams state)) (pss_Offsets state).

Definition enc_streamOperation e (op : persistedStreamOperation) :=
  let e := enc_str e (op_Type op) in
  let e := enc_str e (op_Stream op) in
  let e := enc_str e (op_Consumer op) in
  let e := enc_u e (op_Sequence op) in
  let e := enc_str e (op_Kind op) in
  enc_value e (op_Payload op) 0.
Definition enc_streamOperations e (operations : slice persistedStreamOperation) :=
  encodeBinarySlice enc_streamOperation e operations.

Definition enc_flag e (b : bool) := enc_tag e (if b then x01 else x00).
Definition enc_metaChange e (am : persistedAppMetadataChange) :=
  enc_flag (enc_bytes (enc_bytes e (pmc_Key am)) (pmc_Value am)) (pmc_Delete am).
Definition enc_propertyChange e (pc : persistedPropertyChange) :=
  enc_strings (enc_properties (enc_u e (pc_ID pc)) (pc_Set pc) 0) (pc_Remove pc).

Definition enc_optStreams e (streams : option persistedStreams) :=
  match streams with
  | None => enc_tag e x00
  | Some s => enc_streams (enc_tag e x01) s
  end.

Definition enc_delta e (d : persistedDelta) : binaryEncoder W :=
  let e := enc_str e (dl_DatabaseID d) in
  let e := enc_u e (dl_CommitID d) in
  let e := enc_u e (dl_NextNodeID d) in
  let e := enc_u e (dl_NextEdgeID d) in
  let e := encodeBinarySlice enc_node e (dl_UpsertNodes d) in
  let e := enc_ids e (dl_DeleteNodes d) in
  let e := encodeBinarySlice enc_edge e (dl_UpsertEdges d) in
  let e := enc_ids e (dl_DeleteEdges d) in
  let e := encodeBinarySlice enc_fts e (dl_UpsertFTS d) in
  let e := enc_ids e (dl_DeleteFTS d) in
  let e := encodeBinarySlice enc_metaChange e (dl_AppMetadata d) in
  let e := enc_optStreams e (dl_Streams d) in
  let e := enc_streamOperations e (dl_StreamOperations d) in
  let e := enc_indexes e (dl_CreateNodeIndexes d) in
  let e := enc_indexes e (dl_DropNodeIndexes d) in
  let e := enc_indexes e (dl_CreateEdgeIndexes d) in
  let e := enc_indexes e (dl_DropEdgeIndexes d) in
  let e := encodeBinarySlice enc_propertyChange e (dl_NodePropertyChanges d) in
  encodeBinarySlice enc_propertyChange e (dl_EdgePropertyChanges d).

Definition enc_state e (state : persistedState) : binaryEncoder W :=
  let e := enc_str e (st_DatabaseID state) in
  let e := enc_u e (st_VectorDimensions state) in
  let e := enc_u e (st_CommitID state) in
  let e := enc_u e (st_NextNodeID state) in
  let e := enc_u e (st_NextEdgeID state) in
  let e := enc_metadata e (st_AppMetadata state) in
  let e := encodeBinarySlice enc_node e (st_Nodes state) in
  let e := encodeBinarySlice enc_edge e (st_Edges state) in
  let e := encodeBinarySlice enc_fts e (st_FTS state) in
  let e := enc_indexes e (st_NodeIndexes state) in
  let e := enc_indexes e (st_EdgeIndexes state) in
  enc_streams e (st_Streams state).

(** The writer afterwards, and the error. *)
Definition writeBinaryWALPayload (output : W) (value : walPayload) : W * option error :=
  let e := mkEncoder output 0 0 None in
  let result e := (out e, e_err e) in
  match value with
  | WALCheckpoint => result (enc_tag e x00)
  | WALSnapshot None => (output, Some (ErrNew "binary WAL snapshot missing"%string))
  | WALSnapshot (Some snapshot) => result (enc_state (enc_tag e x01) snapshot)
  | WALDelta None | WALPropertyDelta None => (output, Some (ErrNew "binary WAL delta missing"%string))
  | WALDelta (Some delta) => result (enc_delta (enc_tag e x02) delta)
  | WALPropertyDelta (Some delta) => result (enc_delta (enc_tag e x03) delta)
  | WALUnknown _ => (output, Some (ErrNew "unknown binary WAL kind"%string))
  end.

End encoders.

Definition encodeBinaryWALPayload (value : walPayload) : list byte + error :=
  match writeBinaryWALPayload [] value with
  | (output, None) => inl output
  | (_, Some err) => inr err
  end.

(** ** Decoders *)

Implicit Types (d : binaryDecoder).

Definition dec_node d : persistedNode * binaryDecoder :=
  let '(id, d) := dec_u d in
  match d_err d with
  | Some _ => (mkPNode id None None, d)
  | None =>
      let '(labels, d) := dec_strings d in
      let '(props, d) := dec_properties d 0 in
      (mkPNode id labels props, d)
  end.

Definition dec_edge d : persistedEdge * binaryDecoder :=
  let '(id, d) := dec_u d in
  let '(source, d) := dec_u d in
  let '(target, d) := dec_u d in
  let '(type, d) := dec_str d in
  match d_err d with
  | Some _ => (mkPEdge id source target type None, d)
  | None => let '(props, d) := dec_properties d 0 in (mkPEdge id source target type props, d)
  end.

Definition dec_fts d : persistedFTS * binaryDecoder :=
  let '(id, d) := dec_u d in let '(text, d) := dec_str d in (mkPFTS id text, d).

Definition dec_index d : persistedPropertyIndexDefinition * binaryDecoder :=
  let '(scope, d) := dec_str d in let '(property, d) := dec_str d in (mkPIndex scope property, d).
Definition dec_indexes d := decodeBinarySlice 32 dec_index d.

Definition dec_meta d : persistedAppMetadata * binaryDecoder :=
  let '(key, d) := dec_bytes d in let '(value, d) := dec_bytes d in (mkPMeta key value, d).
Definition dec_metadata d := decodeBinarySlice 32 dec_meta d.

Definition dec_streamRecord d : persistedStreamRecord * binaryDecoder :=
  let '(sequence, d) := dec_u d in
  let '(kind, d) := dec_str d in
  let '(payload, d) := dec_value d 0 in
  (mkPSRecord sequence kind payload, d).
Definition dec_stream d : persistedStream * binaryDecoder :=
  let '(name, d) := dec_str d in
  let '(next, d) := dec_u d in
  let '(records, d) := decodeBinarySlice 160 dec_streamRecord d in
  (mkPStream name next records, d).
Definition dec_offset d : persistedStreamOffset * binaryDecoder :=
  let '(stream, d) := dec_str d in
  let '(consumer, d) := dec_str d in
  let '(sequence, d) := dec_u d in
  (mkPSOffset stream consumer sequence, d).
Definition dec_streams d : persistedStreams * binaryDecoder :=
  let '(streams, d) := decodeBinarySlice 48 dec_stream d in
  let '(offsets, d) := decodeBinarySlice 40 dec_offset d in
  (mkPStreams streams offsets, d).

Definition dec_streamOperation d : persistedStreamOperation * binaryDecoder :=
  let '(type, d) := dec_str d in
  let '(stream, d) := dec_str d in
  let '(consumer, d) := dec_str d in
  let '(sequence, d) := dec_u d in
  let '(kind, d) := dec_str d in
  let '(payload, d) := dec_value d 0 in
  (mkPSOp type stream consumer sequence kind payload, d).
Definition dec_streamOperations d := decodeBinarySlice 208 dec_streamOperation d.

Definition dec_metaChange d : persistedAppMetadataChange * binaryDecoder :=
  let '(key, d) := dec_bytes d in
  let '(value, d) := dec_bytes d in
  match d_err d with
  | Some _ => (mkPMetaChange key value false, d)
  | None =>
      let '(tag, d) := ReadByte d in
      match d_err d with
      | Some _ => (mkPMetaChange key value false, d)
      | None =>
          if 1 <? byteN tag
          then (mkPMetaChange key value false,
                d_fail d (ErrNew "invalid binary app metadata delete flag"%string))
          else (mkPMetaChange key value (byteN tag =? 1), d)
      end
  end.

Definition dec_propertyChange d : persistedPropertyChange * binaryDecoder :=
  let '(id, d) := dec_u d in
  let '(set, d) := dec_properties d 0 in
  let '(remove, d) := dec_strings d in
  (mkPChange id set remove, d).

(** The fields of a delta that were decoded before an early return are dropped:
    every caller discards a delta that comes with an error. *)
Definition zeroDelta : persistedDelta :=
  mkPDelta [] 0 0 0 None None None None None None None None None None None None None None None.

Definition dec_delta d : persistedDelta * binaryDecoder :=
  let '(databaseID, d) := dec_str d in
  let '(commitID, d) := dec_u d in
  let '(nextNodeID, d) := dec_u d in
  let '(nextEdgeID, d) := dec_u d in
  match d_err d with
  | Some _ => (zeroDelta, d)
  | None =>
  let '(upsertNodes, d) := decodeBinarySlice 40 dec_node d in
  let '(deleteNodes, d) := dec_ids d in
  let '(upsertEdges, d) := decodeBinarySlice 48 dec_edge d in
  let '(deleteEdges, d) := dec_ids d in
  let '(upsertFTS, d) := decodeBinarySlice 24 dec_fts d in
  let '(deleteFTS, d) := dec_ids d in
  let '(appMetadata, d) := decodeBinarySlice 56 dec_metaChange d in
  let '(presence, d) := ReadByte d in
  match d_err d with
  | Some _ => (zeroDelta, d)
  | None =>
  if 1 <? byteN presence
  then (zeroDelta, d_fail d (ErrNew "invalid binary streams presence flag"%string))
  else
  let '(streams, d) := if byteN presence =? 1
                       then let '(ps, d) := dec_streams d in (Some ps, d)
                       else (None, d) in
  let '(operations, d) := dec_streamOperations d in
  let '(createNodeIndexes, d) := dec_indexes d in
  let '(dropNodeIndexes, d) := dec_indexes d in
  let '(createEdgeIndexes, d) := dec_indexes d in
  let '(dropEdgeIndexes, d) := dec_indexes d in
  let '(nodeChanges, d) := decodeBinarySlice 40 dec_propertyChange d in
  let '(edgeChanges, d) := decodeBinarySlice 40 dec_propertyChange d in
  (mkPDelta databaseID commitID nextNodeID nextEdgeID upsertNodes deleteNodes upsertEdges deleteEdges
     upsertFTS deleteFTS appMetadata streams operations createNodeIndexes dropNodeIndexes
     createEdgeIndexes dropEdgeIndexes nodeChanges edgeChanges, d)
  end
  end.

Definition zeroState : persistedState :=
  mkPState [] 0 0 0 0 None None None None None None (mkPStreams None None).

Definition dec_state d : persistedState * binaryDecoder :=
  let '(databaseID, d) := dec_str d in
  let '(dimensions, d) := dec_u d in
  if 65535 <? dimensions then (zeroState, d_fail d (ErrNew "binary vector dimensions overflow"%string))
  else
  let '(commitID, d) := dec_u d in
  let '(nextNodeID, d) := dec_u d in
  let '(nextEdgeID, d) := dec_u d in
  let '(appMetadata, d) := dec_metadata d in
  let '(nodes, d) := decodeBinarySlice 40 dec_node d in
  let '(edges, d) := decodeBinarySlice 48 dec_edge d in
  let '(fts, d) := decodeBinarySlice 24 dec_fts d in
  let '(nodeIndexes, d) := dec_indexes d in
  let '(edgeIndexes, d) := dec_indexes d in
  let '(streams, d) := dec_streams d in
  (mkPState databaseID (u16 dimensions) commitID nextNodeID nextEdgeID appMetadata nodes edges fts
     nodeIndexes edgeIndexes streams, d).

(** The payload, or the error. *)
Definition decodeBinaryWALPayload (input : list byte) (length maxBytes : N) : walPayload + error :=
  let d := newBinaryDecoder input length maxBytes in
  let '(kind, d) := ReadByte d in
  match d_err d with
  | Some err => inr err
  | None =>
      let finished value d := match finish d with Some err => inr err | None => inl value end in
      match kind with
      | x00 => finished WALCheckpoint d
      | x01 => let '(state, d) := dec_state d in finished (WALSnapshot (Some state)) d
      | x02 => let '(delta, d) := dec_delta d in finished (WALDelta (Some delta)) d
      | x03 => let '(delta, d) := dec_delta d in finished (WALPropertyDelta (Some delta)) d
      | _ => inr (ErrNew "unknown binary WAL payload tag"%string)
      end
  end.

Definition decodeBinaryStatePayload (input : list byte) (length maxBytes : N) : persistedState + error :=
  let d := newBinaryDecoder input length maxBytes in
  let '(state, d) := dec_state d in
  match finish d with Some err => inr err | None => inl state end.
