(* ===== verification/BinaryRecordsSpec.v ===== *)
(** * Persisted records round-trip

    Every record type is an instance of [Codec]; the WAL payload and the state
    payload are read back as they were written. *)
From S2P Require Import Prelude.
From S2P Require Import GoBytes.
From S2P Require Import BinaryCodec.
From S2P Require Import BinaryCodecSpec.
From S2P Require Import BinaryValue.
From S2P Require Import BinaryValueSpec.
From S2P Require Import BinaryRecords.

Implicit Types (e : binaryEncoder (list byte)) (d : binaryDecoder).

(** ** Values and properties at the top level *)

(** The levels a top-level value has. *)
Definition maxLevels : nat := S maxBinaryValueDepth.

Lemma enc_value_to e v :
  validV maxLevels v -> (e_err e = None -> wfE e) -> encodesTo e (enc_value e v 0) (wireV maxLevels v) (admittedV maxLevels v).
Proof. unfold enc_value. apply value_laws; [done|]. apply Nat.leb_le. reflexivity. Qed.

Lemma dec_value_ok d v :
  validV maxLevels v -> ready d (wireV maxLevels v) (reservedV maxLevels v) ->
  dec_value d 0 = (v, eat d (wireV maxLevels v) (reservedV maxLevels v)).
Proof. unfold dec_value. apply value_laws; [done|]. apply Nat.leb_le. reflexivity. Qed.

#[global] Instance codec_value : Codec persistedValue := {|
  cenc := fun e v => enc_value e v 0; cdec := fun d => dec_value d 0;
  wire := wireV maxLevels; admitted := admittedV maxLevels; reserved := reservedV maxLevels; valid := validV maxLevels;
  cenc_ok := enc_value_to; cdec_ok := dec_value_ok; wire_pos := wireV_pos maxLevels |}.

Lemma depth_zero : (0 <= maxBinaryValueDepth)%nat.
Proof. unfold maxBinaryValueDepth. lia. Qed.

Lemma wireMany_pos {A} (f : A -> list byte) v : (0 < length (wireMany f v))%nat.
Proof.
  unfold wireMany. destruct v as [l|]; [rewrite length_app|].
  - pose proof (PutUvarint_length (nlen l + 1)). lia.
  - cbn. lia.
Qed.

Lemma enc_props_to e v :
  validMap (validV maxLevels) v -> (e_err e = None -> wfE e) ->
  encodesTo e (enc_properties e v 0) (wireMany (entryWire (wireV maxLevels)) v)
    (admitMany 208 (entryAdmit (admittedV maxLevels)) v).
Proof. intros Hv Hw. apply (enc_properties_to codec_value e v 0 depth_zero Hv Hw). Qed.

Lemma dec_props_ok d v :
  validMap (validV maxLevels) v ->
  ready d (wireMany (entryWire (wireV maxLevels)) v) (reserveMany 208 (entryReserve (reservedV maxLevels)) v) ->
  dec_properties d 0 = (v, eat d (wireMany (entryWire (wireV maxLevels)) v)
                             (reserveMany 208 (entryReserve (reservedV maxLevels)) v)).
Proof. intros Hv Hr. apply (dec_properties_ok codec_value d v 0 depth_zero Hv Hr). Qed.

#[global] Instance codec_properties : Codec properties := {|
  cenc := fun e v => enc_properties e v 0; cdec := fun d => dec_properties d 0;
  wire := wireMany (entryWire (wireV maxLevels)); admitted := admitMany 208 (entryAdmit (admittedV maxLevels));
  reserved := reserveMany 208 (entryReserve (reservedV maxLevels)); valid := validMap (validV maxLevels);
  cenc_ok := enc_props_to; cdec_ok := dec_props_ok; wire_pos := wireMany_pos _ |}.

(** ** Proof steps for records *)

(** The hypothesis that is the goal, without unfolding either. *)
Ltac by_hyp := match goal with H : ?P |- ?Q => constr_eq P Q; exact H end.

(** One field written, and the rest to do. *)
Ltac enc_law op c x :=
  let L := fresh in
  assert (L : forall e y, @valid _ c y -> (e_err e = None -> wfE e) ->
                encodesTo e (op e y) (@wire _ c y) (@admitted _ c y)) by exact (@cenc_ok _ c);
  cbv beta in L; match goal with Hv : @valid _ _ x |- _ => apply (L _ x Hv); by_hyp end.
Ltac enc_step t op c e x :=
  apply (encodesTo_then e t); [by_hyp|enc_law op c x|];
  generalize t;
  let e1 := fresh "e" in let Hw := fresh "Hw" in intros e1 Hw.
Ltac enc_field op c :=
  cbv zeta;
  match goal with |- encodesTo ?e _ _ _ =>
    match goal with |- context [op e ?x] => enc_step (op e x) op c e x end
  end.
Ltac enc_props :=
  match goal with |- encodesTo ?e _ _ _ =>
    match goal with |- context [enc_properties e ?x 0] =>
      enc_step (enc_properties e x 0) (fun e0 y => enc_properties e0 y 0) codec_properties e x end
  end.
Ltac enc_last op c :=
  cbv zeta; match goal with |- encodesTo _ _ (@wire _ _ ?x) _ => enc_law op c x end.

(** One field read: the law of [c] stated for the operation itself, then used. *)
Ltac dec_law f c Hv Hr :=
  let L := fresh in
  assert (L : forall d x, @valid _ c x -> ready d (@wire _ c x) (@reserved _ c x) ->
                f d = (x, eat d (@wire _ c x) (@reserved _ c x))) by exact (@cdec_ok _ c);
  cbv beta in L; rewrite (L _ _ Hv Hr); clear L; rewrite ?eat_err.
Ltac dec_last op c Hr :=
  match type of Hr with ready _ (@wire _ _ ?x) _ =>
    match goal with Hv : @valid _ _ x |- _ => dec_law op c Hv Hr end
  end.
Ltac dec_field op c Hr :=
  let Hr1 := fresh in apply ready_app in Hr as [Hr1 Hr]; dec_last op c Hr1; clear Hr1.

Ltac dec_props_last Hv Hr := dec_law (fun d => dec_properties d 0) codec_properties Hv Hr.
Ltac dec_value_last Hv Hr := dec_law (fun d => dec_value d 0) codec_value Hv Hr.
Ltac dec_props Hv Hr :=
  let Hr1 := fresh in apply ready_app in Hr as [Hr1 Hr]; dec_props_last Hv Hr1; clear Hr1.

Ltac dec_done := by rewrite ?eat_eat, <- ?app_assoc.

(** A record starts with a field, and a field takes at least a byte. *)
Ltac first_pos := intros; rewrite ?length_app;
  match goal with |- context [wire ?x] => pose proof (wire_pos x); lia end.

#[global, refine] Instance codec_node : Codec persistedNode := {
  cenc := enc_node; cdec := dec_node;
  wire := fun n => wire (pn_ID n) ++ (wire (pn_Labels n) ++ wire (pn_Properties n));
  admitted := fun n => admitted (pn_ID n) + (admitted (pn_Labels n) + admitted (pn_Properties n));
  reserved := fun n => reserved (pn_ID n) ++ (reserved (pn_Labels n) ++ reserved (pn_Properties n));
  valid := fun n => valid (pn_ID n) /\ valid (pn_Labels n) /\ valid (pn_Properties n) }.
Proof.
  - intros e n (H1 & H2 & H3) Hw. unfold enc_node.
    enc_field enc_u codec_u. enc_field enc_strings codec_strings. enc_last (fun e0 y => enc_properties e0 y 0) codec_properties.
  - intros d n (H1 & H2 & H3) Hr. unfold dec_node.
    dec_field dec_u codec_u Hr. dec_field dec_strings codec_strings Hr.
    dec_props_last H3 Hr. destruct n. dec_done.
  - first_pos.
Defined.

#[global, refine] Instance codec_edge : Codec persistedEdge := {
  cenc := enc_edge; cdec := dec_edge;
  wire := fun x => wire (pe_ID x) ++ (wire (pe_SourceID x) ++ (wire (pe_TargetID x) ++
            (wire (pe_Type x) ++ wire (pe_Properties x))));
  admitted := fun x => admitted (pe_ID x) + (admitted (pe_SourceID x) + (admitted (pe_TargetID x) +
            (admitted (pe_Type x) + admitted (pe_Properties x))));
  reserved := fun x => reserved (pe_ID x) ++ (reserved (pe_SourceID x) ++ (reserved (pe_TargetID x) ++
            (reserved (pe_Type x) ++ reserved (pe_Properties x))));
  valid := fun x => valid (pe_ID x) /\ valid (pe_SourceID x) /\ valid (pe_TargetID x) /\
            valid (pe_Type x) /\ valid (pe_Properties x) }.
Proof.
  - intros e x (H1 & H2 & H3 & H4 & H5) Hw. unfold enc_edge.
    enc_field enc_u codec_u. enc_field enc_u codec_u. enc_field enc_u codec_u. enc_field enc_str codec_str. enc_last (fun e0 y => enc_properties e0 y 0) codec_properties.
  - intros d x (H1 & H2 & H3 & H4 & H5) Hr. unfold dec_edge.
    do 3 dec_field dec_u codec_u Hr. dec_field dec_str codec_str Hr. dec_props_last H5 Hr.
    destruct x. dec_done.
  - first_pos.
Defined.

#[global, refine] Instance codec_fts : Codec persistedFTS := {
  cenc := enc_fts; cdec := dec_fts;
  wire := fun x => wire (pf_NodeID x) ++ wire (pf_Text x);
  admitted := fun x => admitted (pf_NodeID x) + admitted (pf_Text x);
  reserved := fun x => reserved (pf_NodeID x) ++ reserved (pf_Text x);
  valid := fun x => valid (pf_NodeID x) /\ valid (pf_Text x) }.
Proof.
  - intros e x [H1 H2] Hw. unfold enc_fts. enc_field enc_u codec_u. enc_last enc_str codec_str.
  - intros d x [H1 H2] Hr. unfold dec_fts. dec_field dec_u codec_u Hr. dec_last dec_str codec_str Hr.
    destruct x. dec_done.
  - first_pos.
Defined.

#[global, refine] Instance codec_index : Codec persistedPropertyIndexDefinition := {
  cenc := enc_index; cdec := dec_index;
  wire := fun x => wire (pi_Scope x) ++ wire (pi_Property x);
  admitted := fun x => admitted (pi_Scope x) + admitted (pi_Property x);
  reserved := fun x => reserved (pi_Scope x) ++ reserved (pi_Property x);
  valid := fun x => valid (pi_Scope x) /\ valid (pi_Property x) }.
Proof.
  - intros e x [H1 H2] Hw. unfold enc_index. enc_field enc_str codec_str. enc_last enc_str codec_str.
  - intros d x [H1 H2] Hr. unfold dec_index. dec_field dec_str codec_str Hr. dec_last dec_str codec_str Hr.
    destruct x. dec_done.
  - first_pos.
Defined.

#[global, refine] Instance codec_meta : Codec persistedAppMetadata := {
  cenc := enc_meta; cdec := dec_meta;
  wire := fun x => wire (pm_Key x) ++ wire (pm_Value x);
  admitted := fun x => admitted (pm_Key x) + admitted (pm_Value x);
  reserved := fun x => reserved (pm_Key x) ++ reserved (pm_Value x);
  valid := fun x => valid (pm_Key x) /\ valid (pm_Value x) }.
Proof.
  - intros e x [H1 H2] Hw. unfold enc_meta. enc_field enc_bytes codec_bytes. enc_last enc_bytes codec_bytes.
  - intros d x [H1 H2] Hr. unfold dec_meta. dec_field dec_bytes codec_bytes Hr.
    dec_last dec_bytes codec_bytes Hr. destruct x. dec_done.
  - first_pos.
Defined.

#[global, refine] Instance codec_flag : Codec bool := {
  cenc := enc_flag;
  cdec := fun d => let '(tag, d) := ReadByte d in (byteN tag =? 1, d);
  wire := fun b => [if b then x01 else x00]; admitted := fun _ => 0; reserved := fun _ => [];
  valid := fun _ => True }.
Proof.
  - intros e b _ Hw. by apply write_to'.
  - intros d b _ Hr. rewrite (ReadByte_ok _ _ Hr). by destruct b.
  - intros b. cbn. lia.
Defined.

#[global, refine] Instance codec_metaChange : Codec persistedAppMetadataChange := {
  cenc := enc_metaChange; cdec := dec_metaChange;
  wire := fun x => wire (pmc_Key x) ++ (wire (pmc_Value x) ++ wire (pmc_Delete x));
  admitted := fun x => admitted (pmc_Key x) + (admitted (pmc_Value x) + admitted (pmc_Delete x));
  reserved := fun x => reserved (pmc_Key x) ++ (reserved (pmc_Value x) ++ reserved (pmc_Delete x));
  valid := fun x => valid (pmc_Key x) /\ valid (pmc_Value x) }.
Proof.
  - intros e x [H1 H2] Hw. unfold enc_metaChange. enc_field enc_bytes codec_bytes. enc_field enc_bytes codec_bytes.
    by apply (@cenc_ok _ codec_flag).
  - intros d x [H1 H2] Hr. unfold dec_metaChange. dec_field dec_bytes codec_bytes Hr.
    dec_field dec_bytes codec_bytes Hr. rewrite (ReadByte_ok _ _ Hr), eat_err.
    destruct x as [k v b]. cbn [pmc_Key pmc_Value pmc_Delete] in *. destruct b; cbn [N.ltb N.eqb]; dec_done.
  - first_pos.
Defined.

#[global, refine] Instance codec_streamRecord : Codec persistedStreamRecord := {
  cenc := enc_streamRecord; cdec := dec_streamRecord;
  wire := fun x => wire (psr_Sequence x) ++ (wire (psr_Kind x) ++ wire (psr_Payload x));
  admitted := fun x => admitted (psr_Sequence x) + (admitted (psr_Kind x) + admitted (psr_Payload x));
  reserved := fun x => reserved (psr_Sequence x) ++ (reserved (psr_Kind x) ++ reserved (psr_Payload x));
  valid := fun x => valid (psr_Sequence x) /\ valid (psr_Kind x) /\ valid (psr_Payload x) }.
Proof.
  - intros e x (H1 & H2 & H3) Hw. unfold enc_streamRecord.
    enc_field enc_u codec_u. enc_field enc_str codec_str. enc_last (fun e0 y => enc_value e0 y 0) codec_value.
  - intros d x (H1 & H2 & H3) Hr. unfold dec_streamRecord. dec_field dec_u codec_u Hr.
    dec_field dec_str codec_str Hr. dec_value_last H3 Hr. destruct x. dec_done.
  - first_pos.
Defined.

#[global] Instance codec_streamRecords : Codec (slice persistedStreamRecord) :=
  codec_slice (A := persistedStreamRecord) 160 false ltac:(discriminate).

#[global, refine] Instance codec_stream : Codec persistedStream := {
  cenc := enc_stream; cdec := dec_stream;
  wire := fun x => wire (ps_Name x) ++ (wire (ps_Next x) ++ wire (ps_Records x));
  admitted := fun x => admitted (ps_Name x) + (admitted (ps_Next x) + admitted (ps_Records x));
  reserved := fun x => reserved (ps_Name x) ++ (reserved (ps_Next x) ++ reserved (ps_Records x));
  valid := fun x => valid (ps_Name x) /\ valid (ps_Next x) /\ valid (ps_Records x) }.
Proof.
  - intros e x (H1 & H2 & H3) Hw. unfold enc_stream.
    enc_field enc_str codec_str. enc_field enc_u codec_u. enc_last (encodeBinarySlice enc_streamRecord) codec_streamRecords.
  - intros d x (H1 & H2 & H3) Hr. unfold dec_stream. dec_field dec_str codec_str Hr.
    dec_field dec_u codec_u Hr. dec_last (decodeBinarySlice 160 dec_streamRecord) codec_streamRecords Hr.
    destruct x. dec_done.
  - first_pos.
Defined.

#[global, refine] Instance codec_offset : Codec persistedStreamOffset := {
  cenc := enc_offset; cdec := dec_offset;
  wire := fun x => wire (pso_Stream x) ++ (wire (pso_Consumer x) ++ wire (pso_Sequence x));
  admitted := fun x => admitted (pso_Stream x) + (admitted (pso_Consumer x) + admitted (pso_Sequence x));
  reserved := fun x => reserved (pso_Stream x) ++ (reserved (pso_Consumer x) ++ reserved (pso_Sequence x));
  valid := fun x => valid (pso_Stream x) /\ valid (pso_Consumer x) /\ valid (pso_Sequence x) }.
Proof.
  - intros e x (H1 & H2 & H3) Hw. unfold enc_offset.
    enc_field enc_str codec_str. enc_field enc_str codec_str. enc_last enc_u codec_u.
  - intros d x (H1 & H2 & H3) Hr. unfold dec_offset. do 2 dec_field dec_str codec_str Hr.
    dec_last dec_u codec_u Hr. destruct x. dec_done.
  - first_pos.
Defined.

#[local] Opaque enc_stream enc_offset.

#[global] Instance codec_streamSlice : Codec (slice persistedStream) :=
  codec_slice (A := persistedStream) 48 false ltac:(discriminate).
#[global] Instance codec_offsets : Codec (slice persistedStreamOffset) :=
  codec_slice (A := persistedStreamOffset) 40 false ltac:(discriminate).

#[global, refine] Instance codec_streams : Codec persistedStreams := {
  cenc := enc_streams; cdec := dec_streams;
  wire := fun x => wire (pss_Streams x) ++ wire (pss_Offsets x);
  admitted := fun x => admitted (pss_Streams x) + admitted (pss_Offsets x);
  reserved := fun x => reserved (pss_Streams x) ++ reserved (pss_Offsets x);
  valid := fun x => valid (pss_Streams x) /\ valid (pss_Offsets x) }.
Proof.
  - intros e x [H1 H2] Hw. unfold enc_streams. enc_field (encodeBinarySlice enc_stream) codec_streamSlice. enc_last (encodeBinarySlice enc_offset) codec_offsets.
  - intros d x [H1 H2] Hr. unfold dec_streams.
    dec_field (decodeBinarySlice 48 dec_stream) codec_streamSlice Hr.
    dec_last (decodeBinarySlice 40 dec_offset) codec_offsets Hr. destruct x. dec_done.
  - first_pos.
Defined.

#[global, refine] Instance codec_streamOperation : Codec persistedStreamOperation := {
  cenc := enc_streamOperation; cdec := dec_streamOperation;
  wire := fun x => wire (op_Type x) ++ (wire (op_Stream x) ++ (wire (op_Consumer x) ++
            (wire (op_Sequence x) ++ (wire (op_Kind x) ++ wire (op_Payload x)))));
  admitted := fun x => admitted (op_Type x) + (admitted (op_Stream x) + (admitted (op_Consumer x) +
            (admitted (op_Sequence x) + (admitted (op_Kind x) + admitted (op_Payload x)))));
  reserved := fun x => reserved (op_Type x) ++ (reserved (op_Stream x) ++ (reserved (op_Consumer x) ++
            (reserved (op_Sequence x) ++ (reserved (op_Kind x) ++ reserved (op_Payload x)))));
  valid := fun x => valid (op_Type x) /\ valid (op_Stream x) /\ valid (op_Consumer x) /\
            valid (op_Sequence x) /\ valid (op_Kind x) /\ valid (op_Payload x) }.
Proof.
  - intros e x (H1 & H2 & H3 & H4 & H5 & H6) Hw. unfold enc_streamOperation.
    do 3 enc_field enc_str codec_str. enc_field enc_u codec_u. enc_field enc_str codec_str. enc_last (fun e0 y => enc_value e0 y 0) codec_value.
  - intros d x (H1 & H2 & H3 & H4 & H5 & H6) Hr. unfold dec_streamOperation.
    do 3 dec_field dec_str codec_str Hr. dec_field dec_u codec_u Hr. dec_field dec_str codec_str Hr.
    dec_value_last H6 Hr. destruct x. dec_done.
  - first_pos.
Defined.

#[global, refine] Instance codec_propertyChange : Codec persistedPropertyChange := {
  cenc := enc_propertyChange; cdec := dec_propertyChange;
  wire := fun x => wire (pc_ID x) ++ (wire (pc_Set x) ++ wire (pc_Remove x));
  admitted := fun x => admitted (pc_ID x) + (admitted (pc_Set x) + admitted (pc_Remove x));
  reserved := fun x => reserved (pc_ID x) ++ (reserved (pc_Set x) ++ reserved (pc_Remove x));
  valid := fun x => valid (pc_ID x) /\ valid (pc_Set x) /\ valid (pc_Remove x) }.
Proof.
  - intros e x (H1 & H2 & H3) Hw. unfold enc_propertyChange.
    enc_field enc_u codec_u. enc_props. enc_last enc_strings codec_strings.
  - intros d x (H1 & H2 & H3) Hr. unfold dec_propertyChange. dec_field dec_u codec_u Hr.
    dec_props H2 Hr. dec_last dec_strings codec_strings Hr. destruct x. dec_done.
  - first_pos.
Defined.

(** ** Deltas and states *)

(** From here on the operations of the elements are names. *)
#[local] Opaque enc_node enc_edge enc_fts enc_index enc_meta enc_metaChange enc_streamOperation
  enc_propertyChange enc_streams.

#[global] Instance codec_nodes : Codec (slice persistedNode) :=
  codec_slice (A := persistedNode) 40 false ltac:(discriminate).
#[global] Instance codec_edges : Codec (slice persistedEdge) :=
  codec_slice (A := persistedEdge) 48 false ltac:(discriminate).
#[global] Instance codec_ftss : Codec (slice persistedFTS) :=
  codec_slice (A := persistedFTS) 24 false ltac:(discriminate).
#[global] Instance codec_indexes : Codec (slice persistedPropertyIndexDefinition) :=
  codec_slice (A := persistedPropertyIndexDefinition) 32 false ltac:(discriminate).
#[global] Instance codec_metadata : Codec (slice persistedAppMetadata) :=
  codec_slice (A := persistedAppMetadata) 32 false ltac:(discriminate).
#[global] Instance codec_metaChanges : Codec (slice persistedAppMetadataChange) :=
  codec_slice (A := persistedAppMetadataChange) 56 false ltac:(discriminate).
#[global] Instance codec_operations : Codec (slice persistedStreamOperation) :=
  codec_slice (A := persistedStreamOperation) 208 false ltac:(discriminate).
#[global] Instance codec_changes : Codec (slice persistedPropertyChange) :=
  codec_slice (A := persistedPropertyChange) 40 false ltac:(discriminate).

(** The presence flag and the streams behind it, as [delta] reads them. *)
Definition dec_optStreams d : option persistedStreams * binaryDecoder :=
  let '(presence, d) := ReadByte d in
  if byteN presence =? 1 then let '(ps, d) := dec_streams d in (Some ps, d) else (None, d).

Definition wire_optStreams (s : option persistedStreams) : list byte :=
  match s with None => [x00] | Some s => [x01] ++ wire s end.

Lemma enc_optStreams_to e s :
  match s with None => True | Some s => valid s end -> (e_err e = None -> wfE e) ->
  encodesTo e (enc_optStreams e s) (wire_optStreams s) (match s with None => 0 | Some s => admitted s end).
Proof.
  intros Hv Hw. destruct s as [s|]; cbn [enc_optStreams wire_optStreams]; [|by apply write_to'].
  rewrite <- (N.add_0_l (admitted s)).
  apply (encodesTo_then e (enc_tag e x01)); [done|by apply write_to'|]. intros. by apply (@cenc_ok _ codec_streams).
Qed.

#[global, refine] Instance codec_state : Codec persistedState := {
  cenc := enc_state; cdec := dec_state;
  wire := fun x => wire (st_DatabaseID x) ++ (wire (st_VectorDimensions x) ++ (wire (st_CommitID x) ++
    (wire (st_NextNodeID x) ++ (wire (st_NextEdgeID x) ++ (wire (st_AppMetadata x) ++
    (wire (st_Nodes x) ++ (wire (st_Edges x) ++ (wire (st_FTS x) ++ (wire (st_NodeIndexes x) ++
    (wire (st_EdgeIndexes x) ++ wire (st_Streams x)))))))))));
  admitted := fun x => admitted (st_DatabaseID x) + (admitted (st_VectorDimensions x) + (admitted (st_CommitID x) +
    (admitted (st_NextNodeID x) + (admitted (st_NextEdgeID x) + (admitted (st_AppMetadata x) +
    (admitted (st_Nodes x) + (admitted (st_Edges x) + (admitted (st_FTS x) + (admitted (st_NodeIndexes x) +
    (admitted (st_EdgeIndexes x) + admitted (st_Streams x)))))))))));
  reserved := fun x => reserved (st_DatabaseID x) ++ (reserved (st_VectorDimensions x) ++ (reserved (st_CommitID x) ++
    (reserved (st_NextNodeID x) ++ (reserved (st_NextEdgeID x) ++ (reserved (st_AppMetadata x) ++
    (reserved (st_Nodes x) ++ (reserved (st_Edges x) ++ (reserved (st_FTS x) ++ (reserved (st_NodeIndexes x) ++
    (reserved (st_EdgeIndexes x) ++ reserved (st_Streams x)))))))))));
  valid := fun x => valid (st_DatabaseID x) /\ st_VectorDimensions x < 2 ^ 16 /\ valid (st_CommitID x) /\
    valid (st_NextNodeID x) /\ valid (st_NextEdgeID x) /\ valid (st_AppMetadata x) /\
    valid (st_Nodes x) /\ valid (st_Edges x) /\ valid (st_FTS x) /\ valid (st_NodeIndexes x) /\
    valid (st_EdgeIndexes x) /\ valid (st_Streams x) }.
Proof.
  - intros e x (H1 & H2' & H3 & H4 & H5 & H6 & H7 & H8 & H9 & H10 & H11 & H12) Hw. unfold enc_state.
    assert (H2 : valid (st_VectorDimensions x)) by (cbn [valid codec_u]; lia).
    enc_field enc_str codec_str. do 4 enc_field enc_u codec_u. enc_field enc_metadata codec_metadata. enc_field (encodeBinarySlice enc_node) codec_nodes.
    enc_field (encodeBinarySlice enc_edge) codec_edges. enc_field (encodeBinarySlice enc_fts) codec_ftss. enc_field enc_indexes codec_indexes. enc_field enc_indexes codec_indexes.
    enc_last enc_streams codec_streams.
  - intros d x (H1 & H2' & H3 & H4 & H5 & H6 & H7 & H8 & H9 & H10 & H11 & H12) Hr. unfold dec_state.
    assert (H2 : valid (st_VectorDimensions x)) by (cbn [valid codec_u]; lia).
    dec_field dec_str codec_str Hr. dec_field dec_u codec_u Hr.
    destruct (N.ltb_spec 65535 (st_VectorDimensions x)); [lia|].
    do 3 dec_field dec_u codec_u Hr. dec_field dec_metadata codec_metadata Hr.
    dec_field (decodeBinarySlice 40 dec_node) codec_nodes Hr.
    dec_field (decodeBinarySlice 48 dec_edge) codec_edges Hr.
    dec_field (decodeBinarySlice 24 dec_fts) codec_ftss Hr.
    do 2 dec_field dec_indexes codec_indexes Hr. dec_last dec_streams codec_streams Hr.
    unfold u16. rewrite N.mod_small by done. destruct x. dec_done.
  - first_pos.
Defined.

#[global, refine] Instance codec_optStreams : Codec (option persistedStreams) := {
  cenc := enc_optStreams; cdec := dec_optStreams; wire := wire_optStreams;
  admitted := fun s => match s with None => 0 | Some s => admitted s end;
  reserved := fun s => match s with None => [] | Some s => reserved s end;
  valid := fun s => match s with None => True | Some s => valid s end }.
Proof.
  - apply enc_optStreams_to.
  - intros d s Hv Hr. unfold dec_optStreams. destruct s as [s|]; cbn [wire_optStreams] in Hr |- *.
    + apply tag_ready in Hr as [-> Hr]. cbn [N.eqb]. change (byteN x01 =? 1) with true. cbv iota.
      dec_law dec_streams codec_streams Hv Hr. by rewrite eat_eat.
    + by rewrite (ReadByte_ok _ _ Hr).
  - intros [s|]; cbn; lia.
Defined.

(** The presence byte that [delta] reads, and what follows it. *)
Lemma dec_presence d s :
  valid s -> ready d (wire s) (reserved s) ->
  exists b, ReadByte d = (b, eat d [b] []) /\ (1 <? byteN b) = false /\
    (if byteN b =? 1 then let '(ps, d) := dec_streams (eat d [b] []) in (Some ps, d)
     else (None, eat d [b] [])) = (s, eat d (wire s) (reserved s)).
Proof.
  intros Hv Hr. pose proof (@cdec_ok _ codec_optStreams d s Hv Hr : dec_optStreams d = _) as E.
  unfold dec_optStreams in E. destruct s as [s|].
  - apply tag_ready in Hr as [Hb _]. rewrite Hb in E. exists x01. split_and!; done.
  - apply ReadByte_ok in Hr. rewrite Hr in E. exists x00. split_and!; done.
Qed.

#[local] Opaque enc_optStreams.

#[global, refine] Instance codec_delta : Codec persistedDelta := {
  cenc := enc_delta; cdec := dec_delta;
  wire := fun x => wire (dl_DatabaseID x) ++ (wire (dl_CommitID x) ++ (wire (dl_NextNodeID x) ++ (
    wire (dl_NextEdgeID x) ++ (wire (dl_UpsertNodes x) ++ (wire (dl_DeleteNodes x) ++ (
    wire (dl_UpsertEdges x) ++ (wire (dl_DeleteEdges x) ++ (wire (dl_UpsertFTS x) ++ (
    wire (dl_DeleteFTS x) ++ (wire (dl_AppMetadata x) ++ (wire (dl_Streams x) ++ (
    wire (dl_StreamOperations x) ++ (wire (dl_CreateNodeIndexes x) ++ (wire (dl_DropNodeIndexes x) ++ (
    wire (dl_CreateEdgeIndexes x) ++ (wire (dl_DropEdgeIndexes x) ++ (wire (dl_NodePropertyChanges x) ++ (
    wire (dl_EdgePropertyChanges x)))))))))))))))))));
  admitted := fun x => admitted (dl_DatabaseID x) + (admitted (dl_CommitID x) + (admitted (dl_NextNodeID x) + (
    admitted (dl_NextEdgeID x) + (admitted (dl_UpsertNodes x) + (admitted (dl_DeleteNodes x) + (
    admitted (dl_UpsertEdges x) + (admitted (dl_DeleteEdges x) + (admitted (dl_UpsertFTS x) + (
    admitted (dl_DeleteFTS x) + (admitted (dl_AppMetadata x) + (admitted (dl_Streams x) + (
    admitted (dl_StreamOperations x) + (admitted (dl_CreateNodeIndexes x) + (admitted (dl_DropNodeIndexes x) + (
    admitted (dl_CreateEdgeIndexes x) + (admitted (dl_DropEdgeIndexes x) + (admitted (dl_NodePropertyChanges x) + (
    admitted (dl_EdgePropertyChanges x)))))))))))))))))));
  reserved := fun x => reserved (dl_DatabaseID x) ++ (reserved (dl_CommitID x) ++ (reserved (dl_NextNodeID x) ++ (
    reserved (dl_NextEdgeID x) ++ (reserved (dl_UpsertNodes x) ++ (reserved (dl_DeleteNodes x) ++ (
    reserved (dl_UpsertEdges x) ++ (reserved (dl_DeleteEdges x) ++ (reserved (dl_UpsertFTS x) ++ (
    reserved (dl_DeleteFTS x) ++ (reserved (dl_AppMetadata x) ++ (reserved (dl_Streams x) ++ (
    reserved (dl_StreamOperations x) ++ (reserved (dl_CreateNodeIndexes x) ++ (reserved (dl_DropNodeIndexes x) ++ (
    reserved (dl_CreateEdgeIndexes x) ++ (reserved (dl_DropEdgeIndexes x) ++ (reserved (dl_NodePropertyChanges x) ++ (
    reserved (dl_EdgePropertyChanges x)))))))))))))))))));
  valid := fun x => valid (dl_DatabaseID x) /\ valid (dl_CommitID x) /\ valid (dl_NextNodeID x) /\ 
    valid (dl_NextEdgeID x) /\ valid (dl_UpsertNodes x) /\ valid (dl_DeleteNodes x) /\ valid (dl_UpsertEdges x) /\ 
    valid (dl_DeleteEdges x) /\ valid (dl_UpsertFTS x) /\ valid (dl_DeleteFTS x) /\ valid (dl_AppMetadata x) /\ 
    valid (dl_Streams x) /\ valid (dl_StreamOperations x) /\ valid (dl_CreateNodeIndexes x) /\ valid (dl_DropNodeIndexes x) /\ 
    valid (dl_CreateEdgeIndexes x) /\ valid (dl_DropEdgeIndexes x) /\ valid (dl_NodePropertyChanges x) /\ valid (dl_EdgePropertyChanges x) }.
Proof.
  - intros e x (H1 & H2 & H3 & H4 & H5 & H6 & H7 & H8 & H9 & H10 & H11 & H12 & H13 & H14 & H15 & H16 & H17 & H18 & H19) Hw. unfold enc_delta.
    enc_field enc_str codec_str.
    enc_field enc_u codec_u.
    enc_field enc_u codec_u.
    enc_field enc_u codec_u.
    enc_field (encodeBinarySlice enc_node) codec_nodes.
    enc_field enc_ids codec_ids.
    enc_field (encodeBinarySlice enc_edge) codec_edges.
    enc_field enc_ids codec_ids.
    enc_field (encodeBinarySlice enc_fts) codec_ftss.
    enc_field enc_ids codec_ids.
    enc_field (encodeBinarySlice enc_metaChange) codec_metaChanges.
    enc_field enc_optStreams codec_optStreams.
    enc_field enc_streamOperations codec_operations.
    enc_field enc_indexes codec_indexes.
    enc_field enc_indexes codec_indexes.
    enc_field enc_indexes codec_indexes.
    enc_field enc_indexes codec_indexes.
    enc_field (encodeBinarySlice enc_propertyChange) codec_changes.
    enc_last (encodeBinarySlice enc_propertyChange) codec_changes.
  - intros d x (H1 & H2 & H3 & H4 & H5 & H6 & H7 & H8 & H9 & H10 & H11 & H12 & H13 & H14 & H15 & H16 & H17 & H18 & H19) Hr. unfold dec_delta.
    dec_field dec_str codec_str Hr.
    dec_field dec_u codec_u Hr.
    dec_field dec_u codec_u Hr.
    dec_field dec_u codec_u Hr.
    dec_field (decodeBinarySlice 40 dec_node) codec_nodes Hr.
    dec_field dec_ids codec_ids Hr.
    dec_field (decodeBinarySlice 48 dec_edge) codec_edges Hr.
    dec_field dec_ids codec_ids Hr.
    dec_field (decodeBinarySlice 24 dec_fts) codec_ftss Hr.
    dec_field dec_ids codec_ids Hr.
    dec_field (decodeBinarySlice 56 dec_metaChange) codec_metaChanges Hr.
    apply ready_app in Hr as [Hr1 Hr].
    destruct (dec_presence _ _ H12 Hr1) as (b & E1 & E2 & E3). rewrite E1, eat_err, E2, E3. clear E1 E2 E3 Hr1.
    dec_field dec_streamOperations codec_operations Hr.
    dec_field dec_indexes codec_indexes Hr.
    dec_field dec_indexes codec_indexes Hr.
    dec_field dec_indexes codec_indexes Hr.
    dec_field dec_indexes codec_indexes Hr.
    dec_field (decodeBinarySlice 40 dec_propertyChange) codec_changes Hr.
    dec_last (decodeBinarySlice 40 dec_propertyChange) codec_changes Hr.
    destruct x. dec_done.
  - first_pos.
Defined.

(** The laws of the two payloads, stated for the operations themselves. *)
Lemma enc_state_to e x :
  valid x -> (e_err e = None -> wfE e) -> encodesTo e (enc_state e x) (wire x) (admitted x).
Proof. exact (@cenc_ok _ codec_state e x). Qed.
Lemma enc_delta_to e x :
  valid x -> (e_err e = None -> wfE e) -> encodesTo e (enc_delta e x) (wire x) (admitted x).
Proof. exact (@cenc_ok _ codec_delta e x). Qed.
Lemma dec_state_ok d x :
  valid x -> ready d (wire x) (reserved x) -> dec_state d = (x, eat d (wire x) (reserved x)).
Proof. exact (@cdec_ok _ codec_state d x). Qed.
Lemma dec_delta_ok d x :
  valid x -> ready d (wire x) (reserved x) -> dec_delta d = (x, eat d (wire x) (reserved x)).
Proof. exact (@cdec_ok _ codec_delta d x). Qed.
