(* ===== verification/BinaryTheorems.v ===== *)
(** * What the binary format promises

    Round trips of the WAL and state payloads, determinism of the map encoding,
    agreement of the decoder's two input forms, and the latched error. *)
From S2P Require Import Prelude.
From S2P Require Import Bits.
From S2P Require Import GoBytes.
From S2P Require Import BinaryCodec.
From S2P Require Import BinaryCodecSpec.
From S2P Require Import BinaryValue.
From S2P Require Import BinaryValueSpec.
From S2P Require Import BinaryRecords.
From S2P Require Import BinaryRecordsSpec.

(** ** WAL payloads *)

Definition payloadValid (p : walPayload) : Prop :=
  match p with
  | WALCheckpoint => True
  | WALSnapshot (Some s) => valid s
  | WALDelta (Some d) | WALPropertyDelta (Some d) => valid d
  | _ => False
  end.

Definition payloadWire (p : walPayload) : list byte :=
  match p with
  | WALSnapshot (Some s) => [x01] ++ wire s
  | WALDelta (Some d) => [x02] ++ wire d
  | WALPropertyDelta (Some d) => [x03] ++ wire d
  | _ => [x00]
  end.

Definition payloadReserved (p : walPayload) : N :=
  match p with
  | WALSnapshot (Some s) => nsum (reserved s)
  | WALDelta (Some d) | WALPropertyDelta (Some d) => nsum (reserved d)
  | _ => 0
  end.

(** An encoder without an allocation limit always succeeds. *)
Lemma encodesTo_unlimited (e e' : binaryEncoder (list byte)) w a :
  encodesTo e e' w a -> e_err e = None -> allocationLimit e = 0 -> out e' = out e ++ w /\ e_err e' = None.
Proof. intros [(_ & _ & ->)|[_ Hn]] H0 Hl; [done|]. destruct Hn; [done|]. by left. Qed.

Lemma freshEncoder_tag (t : byte) :
  enc_tag (mkEncoder (W := list byte) [] 0 0 None) t = mkEncoder [t] 0 0 None.
Proof. done. Qed.

Lemma encode_payload p : payloadValid p -> encodeBinaryWALPayload p = inl (payloadWire p).
Proof.
  intros Hv. unfold encodeBinaryWALPayload, writeBinaryWALPayload.
  assert (Hw : forall t, e_err (mkEncoder (W := list byte) [t] 0 0 None) = None ->
                 wfE (mkEncoder [t] 0 0 None)) by (intros t _; split; [done|by left]).
  destruct p as [|[s|]|[d|]|[d|]|k]; try done; rewrite freshEncoder_tag.
  - destruct (encodesTo_unlimited _ _ _ _ (enc_state_to (mkEncoder [x01] 0 0 None) s Hv (Hw _)))
      as [Ho He]; [done..|]. by rewrite Ho, He.
  - destruct (encodesTo_unlimited _ _ _ _ (enc_delta_to (mkEncoder [x02] 0 0 None) d Hv (Hw _)))
      as [Ho He]; [done..|]. by rewrite Ho, He.
  - destruct (encodesTo_unlimited _ _ _ _ (enc_delta_to (mkEncoder [x03] 0 0 None) d Hv (Hw _)))
      as [Ho He]; [done..|]. by rewrite Ho, He.
Qed.

Lemma newDecoder_ready w rest rs maxBytes :
  nlen w < 2 ^ 64 -> maxBytes <= max_uint64 -> nsum rs <= multiplySaturated maxBytes 2 ->
  ready (newBinaryDecoder (w ++ rest) (nlen w) maxBytes) w rs.
Proof.
  intros Hl Hm Hrs. split; cbn; try done.
  - by exists rest.
  - rewrite multiplySaturated_spec by (unfold max_uint64 in *; lia). unfold max_uint64. lia.
  - generalize (@nil N). induction rs as [|r rs IH]; intros log; [done|]. split; [done|]. apply IH.
    cbn in Hrs. unfold nsum in *. lia.
Qed.

Lemma finish_eat w rest maxBytes rs : finish (eat (newBinaryDecoder (w ++ rest) (nlen w) maxBytes) w rs) = None.
Proof. unfold finish, eat. cbn [d_err remaining newBinaryDecoder]. by rewrite N.sub_diag. Qed.

Lemma decode_payload p rest maxBytes :
  payloadValid p -> nlen (payloadWire p) < 2 ^ 64 -> maxBytes <= max_uint64 ->
  payloadReserved p <= multiplySaturated maxBytes 2 ->
  decodeBinaryWALPayload (payloadWire p ++ rest) (nlen (payloadWire p)) maxBytes = inl p.
Proof.
  intros Hv Hl Hm Hrs. unfold decodeBinaryWALPayload.
  destruct p as [|[s|]|[d|]|[d|]|k]; try done; cbn [payloadWire payloadReserved payloadValid] in *.
  - pose proof (newDecoder_ready [x00] rest [] maxBytes Hl Hm Hrs) as Hr.
    rewrite (ReadByte_ok _ _ Hr), eat_err. by rewrite finish_eat.
  - pose proof (newDecoder_ready ([x01] ++ wire s) rest (reserved s) maxBytes Hl Hm Hrs) as Hr.
    apply tag_ready in Hr as [-> Hr]. rewrite eat_err.
    rewrite (dec_state_ok _ s Hv Hr), eat_eat. by rewrite finish_eat.
  - pose proof (newDecoder_ready ([x02] ++ wire d) rest (reserved d) maxBytes Hl Hm Hrs) as Hr.
    apply tag_ready in Hr as [-> Hr]. rewrite eat_err.
    rewrite (dec_delta_ok _ d Hv Hr), eat_eat. by rewrite finish_eat.
  - pose proof (newDecoder_ready ([x03] ++ wire d) rest (reserved d) maxBytes Hl Hm Hrs) as Hr.
    apply tag_ready in Hr as [-> Hr]. rewrite eat_err.
    rewrite (dec_delta_ok _ d Hv Hr), eat_eat. by rewrite finish_eat.
Qed.

(** C26. A WAL payload (checkpoint, snapshot, delta or property delta) whose strings
    are UTF-8, whose floats are finite and whose values respect the nesting limit
    is encoded, and decoding the payload from a reader, whatever follows it in the
    log, gives the same payload back, nil slices and all, as long as the decoder's
    allocation budget covers it. *)
Theorem WALPayload_roundtrip p rest maxBytes :
  payloadValid p -> nlen (payloadWire p) < 2 ^ 64 -> maxBytes <= max_uint64 ->
  payloadReserved p <= multiplySaturated maxBytes 2 ->
  exists w, encodeBinaryWALPayload p = inl w /\
            decodeBinaryWALPayload (w ++ rest) (nlen w) maxBytes = inl p.
Proof.
  intros Hv Hl Hm Hrs. exists (payloadWire p). split; [by apply encode_payload|by apply decode_payload].
Qed.

(** ** Determinism *)

Lemma mapLookup_perm {A} key (m m' : list (gostring * A)) :
  NoDup m.*1 -> m ≡ₚ m' -> mapLookup key m = mapLookup key m'.
Proof.
  intros Hnd Hp. induction Hp as [|[k v] m m' Hp IH|[k1 v1] [k2 v2] m|m m' m'' Hp1 IH1 Hp2 IH2]; simpl in *.
  - done.
  - apply NoDup_cons in Hnd as [_ Hnd]. case_bool_decide; auto.
  - apply NoDup_cons in Hnd as [Hne _]. repeat case_bool_decide; try done. subst. set_solver.
  - rewrite IH1 by done. apply IH2. by rewrite <- Hp1.
Qed.

Lemma encEach_ext {W A} (f g : binaryEncoder W -> A -> binaryEncoder W) l : forall e,
  (forall e x, f e x = g e x) -> encEach f e l = encEach g e l.
Proof.
  induction l as [|x l IH]; intros e Hfg; [done|]. simpl. rewrite Hfg. destruct (e_err _); auto.
Qed.

(** The encoding of a property map is a function of the map: whatever order Go's
    randomised iteration lists its entries in, every writer gets the same bytes. *)
Theorem properties_encoding_deterministic {W} `{Writer W} (e : binaryEncoder W) m m' depth :
  NoDup m.*1 -> m ≡ₚ m' -> enc_properties e (Some m) depth = enc_properties e (Some m') depth.
Proof.
  intros Hnd Hp. unfold enc_properties, enc_properties_with. cbn [slen].
  assert (Hl : nlen m = nlen m') by (unfold nlen; by rewrite Hp). rewrite Hl.
  destruct (e_err _); [done|]. destruct (_ <? _)%nat; [done|].
  rewrite (sortKeys_perm m.*1 m'.*1) by (by rewrite Hp).
  apply encEach_ext. intros e' key. by rewrite (mapLookup_perm key m m').
Qed.

(** ** The two input forms of the decoder *)

Definition toReader (d : binaryDecoder) : binaryDecoder :=
  mkDecoder false (input d) (remaining d) (allocationLeft d) (admitAllocation d) (d_log d) (d_err d).

(** In the byte-slice form [remaining] is the length of the slice. *)
Definition sliceOK (d : binaryDecoder) : Prop := remaining d = nlen (input d) /\ remaining d < 2 ^ 64.

Lemma hd_take {A} (x : A) n l : hd x (take (S n) l) = hd x l.
Proof. by destruct l. Qed.

Lemma sliceOK_consume d n err : sliceOK d -> n <= remaining d -> sliceOK (consume d n err).
Proof.
  intros [Hr Hb] Hn. unfold sliceOK, consume. cbn. rewrite sub64_small by done. split; [|lia].
  unfold nlen in *. rewrite length_drop. lia.
Qed.

Lemma ReadByte_reader d :
  d_err d = None ->
  ReadByte (toReader d) =
    if remaining d <? 1 then (x00, toReader (d_fail d ErrUnexpectedEOF))
    else if 1 <=? nlen (input d) then (hd x00 (input d), toReader (consume d 1 None))
    else (x00, toReader (consume d 1 (Some ErrEOF))).
Proof.
  intros E. unfold ReadByte, dec_read. cbn [d_data d_err toReader andb remaining input]. rewrite E.
  destruct (remaining d <? 1); [done|]. change (N.to_nat 1) with 1%nat.
  destruct (N.leb_spec 1 (nlen (input d))) as [Hl|Hl].
  - by rewrite hd_take.
  - destruct (input d) eqn:Ei; [by unfold toReader, consume; rewrite Ei|]. unfold nlen in Hl. cbn in Hl. lia.
Qed.

Lemma ReadByte_modes d :
  sliceOK d -> let '(b, d') := ReadByte d in ReadByte (toReader d) = (b, toReader d') /\ sliceOK d'.
Proof.
  intros Hs. pose proof Hs as [Hr Hb].
  destruct (d_err d) eqn:E.
  { unfold ReadByte, dec_read. cbn [d_data d_err toReader andb]. rewrite E.
    rewrite bool_decide_false by done. by rewrite andb_false_r. }
  pose proof (ReadByte_reader d E) as HR. rewrite HR. destruct (d_data d) eqn:Ed.
  - clear HR. unfold ReadByte. rewrite Ed, E. cbn [andb bool_decide]. rewrite bool_decide_true by done.
    rewrite <- Hr. destruct (N.eqb_spec (remaining d) 0), (N.ltb_spec (remaining d) 1); try lia; [done|].
    destruct (N.leb_spec 1 (remaining d)); [|lia]. split; [done|]. apply sliceOK_consume; [done|lia].
  - assert (Et : toReader d = d) by (destruct d; cbn in *; by subst).
    rewrite Et in HR. rewrite HR, <- Hr. destruct (N.ltb_spec (remaining d) 1); [done|].
    destruct (N.leb_spec 1 (remaining d)); [|lia]. split; [done|].
    change (sliceOK (consume d 1 None)). apply sliceOK_consume; [done|lia].
Qed.

Lemma readUvarint_modes fuel : forall i x s d,
  sliceOK d -> let '(r, d') := readUvarint fuel i x s d in
  readUvarint fuel i x s (toReader d) = (r, toReader d') /\ sliceOK d'.
Proof.
  induction fuel as [|fuel IH]; intros i x s d Hs; [done|]. cbn [readUvarint].
  pose proof (ReadByte_modes d Hs) as Hb. destruct (ReadByte d) as [b d1]. destruct Hb as [-> Hs1].
  cbn [d_err toReader]. destruct (d_err d1); [done|]. destruct (byteN b <? 128); [by destruct (_ && _)|].
  by apply IH.
Qed.

(** A successful read of the buffer reads a prefix of it. *)
Lemma uvarintLoop_prefix buf : forall i x s v n,
  uvarintLoop i x s buf = (v, n) -> (0 < n)%Z ->
  exists w rest, buf = w ++ rest /\ w <> [] /\ n = Z.of_nat (i + length w) /\
                 uvarintLoop i x s w = (v, n).
Proof.
  induction buf as [|b buf IH]; intros i x s v n Hu Hn; cbn [uvarintLoop] in Hu; [injection Hu; lia|].
  destruct (i =? maxVarintLen64)%nat eqn:Ei; [injection Hu; lia|].
  destruct (byteN b <? 128) eqn:Eb.
  - destruct (_ && _) eqn:Eo; [injection Hu; lia|]. injection Hu as <- <-.
    exists [b], buf. split_and!; [done|done|cbn; lia|]. cbn [uvarintLoop]. by rewrite Ei, Eb, Eo.
  - apply IH in Hu as (w & rest & -> & Hne & Hlen & Hw); [|done]. exists (b :: w), rest.
    split_and!; [done|done|cbn [length]; lia|]. cbn [uvarintLoop]. by rewrite Ei, Eb.
Qed.

Lemma ready_prefix d w rest :
  sliceOK d -> d_err d = None -> d_data d = false \/ True -> input d = w ++ rest ->
  allocationLeft d < 2 ^ 64 -> ready d w [].
Proof.
  intros [Hr Hb] He _ Hi Ha. split; try done.
  - by exists rest.
  - rewrite Hr, Hi, nlen_app. lia.
  - cbn. lia.
Qed.

Lemma slowUvarint_modes d :
  sliceOK d -> let '(v, d') := slowUvarint d in slowUvarint (toReader d) = (v, toReader d').
Proof.
  intros Hs. unfold slowUvarint, ReadUvarint. pose proof (readUvarint_modes maxVarintLen64 0 0 0 d Hs) as Hm.
  destruct (readUvarint _ _ _ _ d) as [[v|err] d']; by destruct Hm as [-> _].
Qed.

(** The varint fast path of the byte-slice decoder is an optimisation only: on
    every input, well-formed or not, it returns the same value and leaves the same
    position and error as reading byte by byte from a reader. *)
Theorem uvarint_fast_path_agrees d :
  sliceOK d -> allocationLeft d < 2 ^ 64 ->
  let '(v, d') := dec_u d in dec_u (toReader d) = (v, toReader d').
Proof.
  intros Hs Ha. unfold dec_u. cbn [d_err d_data toReader]. destruct (d_err d) eqn:E; [done|].
  pose proof (slowUvarint_modes d Hs) as Hslow.
  destruct (d_data d) eqn:Ed; [|destruct (slowUvarint d); done].
  destruct (Uvarint (input d)) as [v n] eqn:Eu.
  destruct (Z.ltb_spec 0 n) as [Hn|_]; [|by destruct (slowUvarint d)].
  destruct (uvarintLoop_prefix _ _ _ _ _ _ Eu Hn) as (w & rest & Hi & Hne & Hlen & Hw).
  assert (Hr : ready (toReader d) w []).
  { apply (ready_prefix _ w rest); [done|done|by left|done|done]. }
  unfold slowUvarint, ReadUvarint.
  rewrite (readUvarint_ok w maxVarintLen64 0 0 0 v (toReader d)); [|done|done|by rewrite Hw, Hlen|done].
  f_equal. replace (Z.to_N n) with (nlen w) by (unfold nlen; lia).
  rewrite (consume_eat d w); [done| |apply Hs].
  destruct Hs as [Hr' _]. rewrite Hr', Hi, nlen_app. lia.
Qed.

(** ** The latched error *)

Section latched.
Context {W : Type} `{Writer W}.
Implicit Types (e : binaryEncoder W).

Lemma write_latched e w : e_err e <> None -> write e w = e.
Proof. unfold write. by destruct (e_err e). Qed.

Lemma admit_latched e c s : e_err e <> None -> admitDecoded e c s = e.
Proof. intros He. unfold admitDecoded. rewrite bool_decide_true by done. by rewrite orb_true_r. Qed.

Lemma slice_latched {A} (f : binaryEncoder W -> A -> binaryEncoder W) e v :
  e_err e <> None -> encodeBinarySlice f e v = e.
Proof. unfold encodeBinarySlice. by destruct (e_err e). Qed.

(** Rewrites with the encoder whose error is known to be latched, innermost first. *)
Ltac latched He :=
  match type of He with
  | e_err ?e <> None =>
      repeat first
        [ rewrite (write_latched e _ He)
        | rewrite (admit_latched e _ _ He)
        | rewrite (slice_latched _ e _ He) ]
  end.

Lemma str_latched e s : e_err e <> None -> enc_str e s = e.
Proof. intros He. unfold enc_str, enc_u. by latched He. Qed.

Lemma ids_latched e v : e_err e <> None -> enc_ids e v = e.
Proof. intros He. unfold enc_ids. by latched He. Qed.

Lemma streams_latched e s : e_err e <> None -> enc_streams e s = e.
Proof. intros He. unfold enc_streams. by latched He. Qed.

(** Once any write, limit or validity check has failed, the encoder of a state
    or a delta does nothing more: the writer is not called again and the first
    error is the one reported, for every writer. *)
Theorem encoder_error_latched e s d :
  e_err e <> None -> enc_state e s = e /\ enc_delta e d = e.
Proof.
  intros He. split.
  - unfold enc_state, enc_metadata, enc_indexes, enc_u.
    rewrite (str_latched e _ He). latched He. rewrite (streams_latched e _ He). by latched He.
  - unfold enc_delta, enc_streamOperations, enc_indexes, enc_u, enc_optStreams, enc_tag.
    rewrite (str_latched e _ He). repeat (latched He; try rewrite (ids_latched e _ He)).
    destruct (dl_Streams d); latched He; rewrite ?(streams_latched e _ He); by latched He.
Qed.

End latched.

(** ** Witnesses *)

(** A node with a nested list and a nested map among its properties. *)
Definition exampleNode : persistedNode :=
  mkPNode 7 (Some [[x50]])
    (Some [([x61], PVList (Some [PVInt (-5); PVNull; PVFloat 4607182418800017408]));
           ([x62], PVMap (Some [([x6b], PVBool true); ([x6c], PVBytes None)]))]).

Definition exampleDelta : persistedDelta :=
  mkPDelta [x64; x62] 3 8 2 (Some [exampleNode]) (Some [5; 300]) None (Some []) None None None
    (Some (mkPStreams None (Some [mkPSOffset [x73] [x63] 9]))) None None None None None None None.

Lemma validMany_some {A} (P : A -> Prop) l : nlen l < maxLen -> Forall P l -> validMany P (Some l).
Proof. by split. Qed.

Lemma validV_map n m : validMap (validV (S n)) m -> validV (S (S n)) (PVMap m).
Proof. intros Hm. exact (conj (Nat.neq_succ_0 n) Hm). Qed.

Lemma validV_list n l : validMany (validV n) l -> validV (S n) (PVList l).
Proof. done. Qed.

(** Validity of a concrete term: conjunctions down to closed decidable facts. *)
Ltac concrete_valid :=
  repeat match goal with
  | |- True => exact I
  | |- _ /\ _ => split
  | |- Forall _ [] => apply Forall_nil_2
  | |- Forall _ (_ :: _) => apply Forall_cons_2
  | |- StronglySorted _ [] => constructor
  | |- StronglySorted _ (_ :: _) => constructor
  | |- _ < _ => vm_compute; reflexivity
  | |- _ = _ => vm_compute; reflexivity
  | |- int64 _ => unfold int64; lia
  | |- _ <> _ => discriminate
  | |- @valid _ ?c _ => progress cbn [valid codec_u codec_str codec_bytes codec_slice codec_strings codec_ids
      codec_properties codec_node codec_nodes codec_edges codec_ftss codec_metaChanges codec_offset
      codec_offsets codec_streamSlice codec_streams codec_optStreams codec_operations codec_indexes
      codec_changes codec_delta codec_fts codec_index codec_meta codec_metadata codec_metaChange codec_flag valid_slice
      pf_NodeID pf_Text pi_Scope pi_Property pm_Key pm_Value pmc_Key pmc_Value pmc_Delete]
  | |- _ => progress cbv beta
  | |- validMap _ _ => split
  | |- validV _ (PVList _) => apply validV_list
  | |- validV _ (PVMap _) => apply validV_map
  | |- validMany _ (Some _) => apply validMany_some
  | |- keysSorted _ => unfold keysSorted
  | |- strLt _ _ => split
  | |- _ => progress cbn [validV valid_slice id default fmap list_fmap fst snd
      pn_ID pn_Labels pn_Properties pss_Streams pss_Offsets pso_Stream pso_Consumer pso_Sequence]
  end.

Lemma exampleProperties_valid n : validMap (validV (S (S n))) (pn_Properties exampleNode).
Proof. unfold exampleNode. cbn [pn_Properties]. concrete_valid. Qed.

Lemma exampleNode_valid : valid exampleNode.
Proof.
  assert (Hl : valid (pn_Labels exampleNode)) by (unfold exampleNode; cbn [pn_Labels]; concrete_valid).
  assert (Hi : valid (pn_ID exampleNode)) by (vm_compute; reflexivity).
  exact (conj Hi (conj Hl (exampleProperties_valid 64))).
Qed.

Lemma exampleDelta_valid : payloadValid (WALDelta (Some exampleDelta)).
Proof.
  assert (Hn : valid (Some [exampleNode])).
  { split; [vm_compute; reflexivity|]. apply Forall_singleton. exact exampleNode_valid. }
  unfold payloadValid, exampleDelta. revert Hn. generalize exampleNode. intros n Hn. cbn [valid codec_delta].
  cbn [dl_DatabaseID dl_CommitID dl_NextNodeID dl_NextEdgeID dl_UpsertNodes dl_DeleteNodes dl_UpsertEdges
       dl_DeleteEdges dl_UpsertFTS dl_DeleteFTS dl_AppMetadata dl_Streams dl_StreamOperations
       dl_CreateNodeIndexes dl_DropNodeIndexes dl_CreateEdgeIndexes dl_DropEdgeIndexes
       dl_NodePropertyChanges dl_EdgePropertyChanges].
  repeat match goal with |- _ /\ _ => split end; first [exact Hn|concrete_valid].
Qed.

Definition examplePayload : walPayload := WALDelta (Some exampleDelta).

Lemma WALPayload_roundtrip_witness :
  exists w, encodeBinaryWALPayload examplePayload = inl w /\
            decodeBinaryWALPayload (w ++ [xff]) (nlen w) 1000 = inl examplePayload.
Proof.
  apply (WALPayload_roundtrip examplePayload [xff] 1000).
  - exact exampleDelta_valid.
  - vm_compute; reflexivity.
  - vm_compute; discriminate.
  - vm_compute; discriminate.
Defined.

Definition exampleMap : list (gostring * persistedValue) :=
  [([x61], PVInt 1); ([x62], PVNull); ([x63], PVBool true)].

Lemma properties_encoding_deterministic_witness :
  enc_properties (mkEncoder (W := list byte) [] 0 0 None) (Some exampleMap) 0 =
  enc_properties (mkEncoder [] 0 0 None) (Some (rev exampleMap)) 0.
Proof.
  apply properties_encoding_deterministic.
  - apply (bool_decide_unpack _). vm_compute. exact I.
  - apply Permutation_rev.
Defined.

(** An unfinished varint: both forms report the end of the input. *)
Definition exampleDecoder : binaryDecoder := newBinaryDecoderBytes [x80; x81] 100.

Lemma uvarint_fast_path_agrees_witness :
  let '(v, d) := dec_u exampleDecoder in dec_u (toReader exampleDecoder) = (v, toReader d).
Proof.
  apply (uvarint_fast_path_agrees exampleDecoder).
  - split; vm_compute; reflexivity.
  - vm_compute; reflexivity.
Defined.

Lemma encoder_error_latched_witness :
  let e := mkEncoder (W := list byte) [x01] 0 0 (Some ErrShortWrite) in
  enc_state e (mkPState [] 0 1 1 1 None None None None None None (mkPStreams None None)) = e /\
  enc_delta e exampleDelta = e.
Proof. apply encoder_error_latched. discriminate. Defined.
