(* ===== verification/GoMaps.v ===== *)
(** * Go maps with string keys, as key-sorted lists

    The laws of [mapInsert] and [mapLookup], the map built from a list of entries,
    and the finite map it stands for. *)
From S2P Require Import Prelude.
From S2P Require Import GoBytes.
From S2P Require Import BinaryCodec.
From S2P Require Import BinaryCodecSpec.
From S2P Require Import BinaryValue.
From S2P Require Import BinaryValueSpec.

#[global] Program Instance byte_countable : Countable byte :=
  inj_countable' byteN toByte _.
Next Obligation. apply toByte_byteN. Qed.

Lemma strLt_total a b : strLt a b \/ a = b \/ strLt b a.
Proof.
  destruct (decide (a = b)) as [|Hne]; [by right; left|].
  destruct (strLeR_total a b) as [H|H]; [left|right; right]; by split.
Qed.

Lemma strLt_not_le a b : strLt a b -> strLe b a = false.
Proof.
  intros [H Hne]. destruct (strLe b a) eqn:E; [|done]. destruct Hne. by apply strLeR_antisym.
Qed.

Lemma strLe_false a b : strLe a b = false -> strLt b a.
Proof.
  intros E. destruct (strLt_total a b) as [[H _]|[->|H]]; [congruence| |done].
  by rewrite strLe_refl in E.
Qed.

Section maps.
Context {A : Type}.
Implicit Types (m : list (gostring * A)) (key k : gostring) (v : A).

Lemma mapLookup_elem key v m : mapLookup key m = Some v -> (key, v) ∈ m.
Proof.
  induction m as [|[k w] m IH]; simpl; [done|]. case_bool_decide; [intros [= ->]; subst; left|].
  intros H'. right. by apply IH.
Qed.

Lemma elem_mapLookup key v m : NoDup m.*1 -> (key, v) ∈ m -> mapLookup key m = Some v.
Proof.
  induction m as [|[k w] m IH]; simpl; [by intros _ ?%elem_of_nil|]. rewrite NoDup_cons.
  intros [Hn Hnd] [[= -> ->]|Hin]%elem_of_cons; [by rewrite bool_decide_true|].
  rewrite bool_decide_false; [by apply IH|]. intros ->. apply Hn. by apply (list_elem_of_fmap_2 fst _ (key, v)).
Qed.

Lemma keysSorted_nodup m : keysSorted m -> NoDup m.*1.
Proof. intros Hs. apply (StronglySorted_nodup strLt); [intros x; apply strLt_irrefl|done]. Qed.

Lemma keysSorted_cons k v m : keysSorted ((k, v) :: m) <-> keysSorted m /\ Forall (strLt k) m.*1.
Proof.
  unfold keysSorted. rewrite fmap_cons. split.
  - intros Hs. by apply StronglySorted_inv in Hs.
  - intros [H1 H2]. by constructor.
Qed.

Lemma mapLookup_insert key v m : mapLookup key (mapInsert key v m) = Some v.
Proof.
  induction m as [|[k w] m IH]; simpl; [by rewrite bool_decide_true|].
  case_bool_decide; simpl; [by rewrite bool_decide_true|]. destruct (strLe key k); simpl.
  - by rewrite bool_decide_true.
  - by rewrite bool_decide_false.
Qed.

Lemma mapLookup_insert_ne key k v m : k <> key -> mapLookup k (mapInsert key v m) = mapLookup k m.
Proof.
  intros Hne. induction m as [|[k' w] m IH]; simpl; [by rewrite bool_decide_false|].
  case_bool_decide; simpl.
  - subst. by rewrite !bool_decide_false.
  - destruct (strLe key k'); simpl; [rewrite bool_decide_false by done; done|].
    case_bool_decide; [done|apply IH].
Qed.

Lemma mapInsert_keys key v m k : k ∈ (mapInsert key v m).*1 <-> k = key \/ k ∈ m.*1.
Proof.
  induction m as [|[k' w] m IH]; simpl; [set_solver|]. case_bool_decide; simpl; [set_solver|].
  destruct (strLe key k'); simpl; set_solver.
Qed.

Lemma mapInsert_sorted key v m : keysSorted m -> keysSorted (mapInsert key v m).
Proof.
  induction m as [|[k w] m IH]; simpl; intros Hs; [by repeat constructor|].
  pose proof Hs as Hs'. apply keysSorted_cons in Hs' as [Hm Hk].
  case_bool_decide as Heq; [by subst|].
  destruct (strLe key k) eqn:E.
  - apply keysSorted_cons. split; [done|]. assert (Hlt : strLt key k) by (split; [done|congruence]).
    rewrite fmap_cons, Forall_cons. split; [done|]. rewrite Forall_forall in Hk |- *. intros x Hx.
    etrans; [exact Hlt|by apply Hk].
  - apply keysSorted_cons. split; [by apply IH|]. rewrite Forall_forall in Hk |- *.
    intros x [->|Hx]%mapInsert_keys; [by apply strLe_false|by apply Hk].
Qed.

Lemma mapInsert_perm key v m : key ∉ m.*1 -> mapInsert key v m ≡ₚ (key, v) :: m.
Proof.
  induction m as [|[k w] m IH]; simpl; intros Hn; [done|].
  apply not_elem_of_cons in Hn as [Hne Hn]. rewrite bool_decide_false by congruence.
  destruct (strLe key k); [done|]. rewrite IH by done. apply Permutation_swap.
Qed.

(** Two sorted maps with the same entries are the same list. *)
Lemma keysSorted_unique m1 m2 : keysSorted m1 -> keysSorted m2 -> m1 ≡ₚ m2 -> m1 = m2.
Proof.
  revert m2. induction m1 as [|[k v] m1 IH]; intros m2 H1 H2 Hp.
  - by apply Permutation_nil_l in Hp.
  - destruct m2 as [|[k' v'] m2]; [by apply Permutation_nil_r in Hp|].
    pose proof H1 as [S1 F1]%keysSorted_cons. pose proof H2 as [S2 F2]%keysSorted_cons.
    assert (E : (k, v) = (k', v')).
    { assert (Hin : (k, v) ∈ (k', v') :: m2) by (rewrite <- Hp; left).
      assert (Hin' : (k', v') ∈ (k, v) :: m1) by (rewrite Hp; left).
      apply elem_of_cons in Hin as [|Hin]; [done|]. apply elem_of_cons in Hin' as [|Hin']; [done|].
      apply (list_elem_of_fmap_2 fst) in Hin, Hin'. simpl in *. rewrite Forall_forall in F1, F2.
      destruct (strLt_irrefl k). etrans; [by apply F1|by apply F2]. }
    rewrite <- E in *. apply Permutation_cons_inv in Hp. f_equal. by apply IH.
Qed.

(** ** The map built by storing entries one after another *)

Definition mapOf (l acc : list (gostring * A)) : list (gostring * A) :=
  foldl (fun acc kv => mapInsert kv.1 kv.2 acc) acc l.

Lemma mapOf_sorted l : forall acc, keysSorted acc -> keysSorted (mapOf l acc).
Proof. induction l as [|[k v] l IH]; intros acc Hs; [done|]. apply IH. by apply mapInsert_sorted. Qed.

Lemma mapOf_perm l : forall acc, NoDup (l ++ acc).*1 -> mapOf l acc ≡ₚ l ++ acc.
Proof.
  induction l as [|[k v] l IH]; intros acc Hnd; [done|]. simpl in *. apply NoDup_cons in Hnd as [Hn Hnd].
  rewrite fmap_app in Hn. apply not_elem_of_app in Hn as [Hn1 Hn2].
  assert (Hp := mapInsert_perm k v acc Hn2). cbn [mapOf foldl]. fold (mapOf l (mapInsert k v acc)).
  assert (Hnd' : NoDup (l ++ mapInsert k v acc).*1).
  { rewrite fmap_app, Hp, fmap_cons. cbn [fst]. rewrite <- Permutation_middle, <- fmap_app.
    apply NoDup_cons. split; [|done]. rewrite fmap_app. by apply not_elem_of_app. }
  rewrite IH by done. rewrite Hp. by rewrite <- Permutation_middle.
Qed.

(** The order in which a map is ranged over does not show in the result. *)
Lemma mapOf_permutation l l' : NoDup l.*1 -> l ≡ₚ l' -> mapOf l [] = mapOf l' [].
Proof.
  intros Hnd Hp. apply keysSorted_unique; [by apply mapOf_sorted; constructor..|].
  rewrite !mapOf_perm; rewrite !app_nil_r; [done|by rewrite <- Hp|done].
Qed.

Lemma mapOf_id m : keysSorted m -> mapOf m [] = m.
Proof.
  intros Hs. apply keysSorted_unique; [by apply mapOf_sorted; constructor|done|].
  rewrite mapOf_perm; rewrite app_nil_r; [done|by apply keysSorted_nodup].
Qed.

Lemma mapLookup_mapOf l key : NoDup l.*1 -> mapLookup key (mapOf l []) = mapLookup key l.
Proof.
  intros Hnd. assert (Hp : mapOf l [] ≡ₚ l) by (rewrite mapOf_perm; by rewrite app_nil_r).
  assert (Hnd' : NoDup (mapOf l []).*1) by (by rewrite Hp).
  destruct (mapLookup key l) as [v|] eqn:E.
  - apply elem_mapLookup; [done|]. rewrite Hp. by apply mapLookup_elem.
  - destruct (mapLookup key (mapOf l [])) as [v|] eqn:E'; [|done].
    apply mapLookup_elem in E'. rewrite Hp in E'. apply elem_mapLookup in E'; [|done]. congruence.
Qed.

(** As a finite map. *)
Definition toMap (m : list (gostring * A)) : gmap gostring A := list_to_map m.

Lemma toMap_lookup m key : toMap m !! key = mapLookup key m.
Proof.
  unfold toMap. induction m as [|[k v] m IH]; [done|]. cbn [mapLookup list_to_map foldr uncurry].
  case_bool_decide; subst; [by rewrite lookup_insert_eq|by rewrite lookup_insert_ne].
Qed.

Lemma toMap_insert key v m : toMap (mapInsert key v m) = <[key := v]> (toMap m).
Proof.
  apply map_eq. intros k. rewrite toMap_lookup. destruct (decide (k = key)) as [->|Hne].
  - by rewrite mapLookup_insert, lookup_insert_eq.
  - by rewrite mapLookup_insert_ne, lookup_insert_ne, toMap_lookup.
Qed.

End maps.

(** [delete(m, key)] *)
Definition mapDelete {A} (key : gostring) (m : list (gostring * A)) : list (gostring * A) :=
  base.filter (fun kv => kv.1 <> key) m.

Lemma mapOf_fmap {A B} (f : A -> B) l : forall acc,
  mapOf (prod_map id f <$> l) (prod_map id f <$> acc) = prod_map id f <$> mapOf l acc.
Proof.
  assert (Hi : forall k v (m : list (gostring * A)),
             mapInsert k (f v) (prod_map id f <$> m) = prod_map id f <$> mapInsert k v m).
  { intros k v m. induction m as [|[k' w] m IH]; [done|]. simpl. case_bool_decide; [done|].
    destruct (strLe k k'); [done|]. cbn. f_equal. exact IH. }
  induction l as [|[k v] l IH]; intros acc; [done|]. cbn [mapOf foldl fmap list_fmap fst snd prod_map id].
  rewrite Hi. apply IH.
Qed.
