(* ===== verification/Values.v ===== *)
(** * Property values (internal/store/store.go, internal/store/recovery.go)

    The Go values a caller may pass as properties, their normalisation under the
    nesting, element and byte limits of [valueWalk], and the conversion to and from
    [persistedValue].

    [value] is Go's [any] by dynamic type. A map is the list of its entries in the
    order one run ranges over it; a map the code builds is kept in key order. Values
    are trees, so the pointer set [valueWalk.active], which rejects cyclic values,
    stays empty between calls and is left out. *)
From S2P Require Import Prelude.
From S2P Require Import GoBytes.
From S2P Require Import BinaryCodec.
From S2P Require Import BinaryValue.
From Stdlib Require Strings.String.
Import String.StringSyntax.

(** The integer types other than [int64]. *)
Inductive intType := TInt | TInt8 | TInt16 | TInt32 | TUint | TUint8 | TUint16 | TUint32 | TUint64.

Inductive value :=
  | VNil
  | VBool (b : bool)
  | VInt (i : Z)
  | VInteger (t : intType) (i : Z)
  | VFloat (bits : N)
  | VFloat32 (bits : N)
  | VString (s : gostring)
  | VBytes (b : option (list byte))
  | VVector (v : option (list N))
  | VList (l : option (list value))
  | VMap (m : option (list (gostring * value)))
  | VSlice (l : list value)
  | VStringMap (m : list (gostring * value))
  | VOtherMap
  | VOther.

#[global] Instance value_inhabited : Inhabited value := populate VNil.

Definition maxValueElements : N := 1000000.
Definition maxValueBytes : N := 64 * 2 ^ 20.
Definition maxInternedStringBytes : N := 1024.
Definition maxInt64 : Z := 2 ^ 63 - 1.

(** Entries of a possibly nil slice or map. *)
Definition elems {A} (v : option (list A)) : list A := default [] v.

(** [unique.Make(value).Value()] is the same string. *)
Definition InternString (value : gostring) : gostring := value.

(** ** float64(v) of a float32, on bit patterns *)

Definition widen32 (bits : N) : N :=
  let sign := N.shiftl (N.shiftr bits 31) 63 in
  let exponent := N.land (N.shiftr bits 23) 255 in
  let mantissa := N.land bits (2 ^ 23 - 1) in
  if exponent =? 255 then sign + N.shiftl 2047 52 + N.shiftl mantissa 29
  else if exponent =? 0 then
    if mantissa =? 0 then sign
    else let k := N.log2 mantissa in
         sign + N.shiftl (k + 874) 52 + N.shiftl (mantissa - 2 ^ k) (52 - k)
  else sign + N.shiftl (exponent + 896) 52 + N.shiftl mantissa 29.

(** ** valueWalk *)

(** [w_log] records what was asked of [reserve], whose answer may depend on it. *)
Record valueWalk := mkWalk {
  w_elements : N;
  w_bytes : N;
  w_reserve : option (list N -> N -> option error);
  w_log : list N }.

Definition newValueWalk : valueWalk := mkWalk 0 0 None [].

(** Code that updates the walk and may fail. *)
Definition walking (A : Type) : Type := valueWalk -> (A + error) * valueWalk.
Definition wret {A} (x : A) : walking A := fun w => (inl x, w).
Definition wfail {A} (err : error) : walking A := fun w => (inr err, w).
Definition wbind {A B} (m : walking A) (k : A -> walking B) : walking B := fun w =>
  match m w with
  | (inl x, w) => k x w
  | (inr err, w) => (inr err, w)
  end.
(** [fmt.Errorf] with [%w] around the error of [m]. *)
Definition wwrap {A} (context : gostring) (m : walking A) : walking A := fun w =>
  match m w with
  | (inr err, w) => (inr (ErrWrap context err), w)
  | r => r
  end.

Declare Scope walk_scope.
Delimit Scope walk_scope with walk.
Notation "x <~ m ;; k" := (wbind m (fun x => k)) (at level 100, m at next level, right associativity) : walk_scope.
Notation "m ;;; k" := (wbind m (fun _ => k)) (at level 100, right associativity) : walk_scope.
Open Scope walk_scope.

Definition walk_add (count : N) : walking unit := fun w =>
  let w := mkWalk (w_elements w + count) (w_bytes w) (w_reserve w) (w_log w) in
  if maxValueElements <? w_elements w then (inr (ErrValueLimit "element count"%string), w) else (inl tt, w).

Definition addBytes (count : N) : walking unit := fun w =>
  if maxValueBytes - w_bytes w <? count then (inr (ErrValueLimit "byte count"%string), w)
  else (inl tt, mkWalk (w_elements w) (w_bytes w + count) (w_reserve w) (w_log w)).

Definition reserveBytes (count : N) : walking unit := fun w =>
  match w_reserve w with
  | None => (inl tt, w)
  | Some f =>
      let w' := mkWalk (w_elements w) (w_bytes w) (w_reserve w) (w_log w ++ [count]) in
      match f (w_log w) count with None => (inl tt, w') | Some err => (inr err, w') end
  end.

(** The interned copy of a short string is reserved. *)
Definition reserveInterned (s : gostring) : walking unit :=
  if (0 <? nlen s) && (nlen s <=? maxInternedStringBytes) then reserveBytes (nlen s) else wret tt.

(** ** Loops *)

Fixpoint walkEach {A B} (f : A -> walking B) (l : list A) : walking (list B) :=
  match l with
  | [] => wret []
  | x :: l => y <~ f x ;; ys <~ walkEach f l ;; wret (y :: ys)
  end.

(** A loop over entries that stores each result under its key. *)
Fixpoint walkEntries {A B} (f : gostring -> A -> walking B) (l : list (gostring * A))
    (acc : list (gostring * B)) : walking (list (gostring * B)) :=
  match l with
  | [] => wret acc
  | (key, x) :: l => y <~ f key x ;; walkEntries f l (mapInsert (InternString key) y acc)
  end.

(** The elements of a vector; the reservation is polled every 64 of them. *)
Fixpoint checkVector (index : N) (l : list N) : walking unit :=
  match l with
  | [] => wret tt
  | item :: l =>
      (if index mod 64 =? 0 then reserveBytes 0 else wret tt) ;;;
      if nonFinite32 item then wfail (ErrNew "vector contains non-finite value"%string)
      else checkVector (index + 1) l
  end.

(** [append([]T(nil), v...)]: a copy, nil when there is nothing to copy. *)
Definition appendNil {A} (v : option (list A)) : option (list A) :=
  match elems v with [] => None | l => Some l end.

(** ** Normalisation *)

Definition nestingExceeded : error := ErrValueLimit "nesting"%string.

Fixpoint normalizeValue (v : value) (depth : nat) : walking value :=
  let normalizeEntry depth key item :=
    if negb (utf8Valid key) then wfail (ErrNew "map key contains invalid UTF-8"%string)
    else addBytes (nlen key) ;;;
         normalized <~ normalizeValue item depth ;;
         reserveInterned key ;;;
         wret normalized in
  reserveBytes 0 ;;;
  if (maxValueDepth <? depth)%nat then wfail nestingExceeded
  else
    match v with
    | VNil => wret VNil
    | VBool b => wret (VBool b)
    | VInt i => wret (VInt i)
    | VInteger t i =>
        match t with
        | TUint | TUint64 => if (maxInt64 <? i)%Z then wfail (ErrNew "value exceeds int64 range"%string)
                             else wret (VInt i)
        | _ => wret (VInt i)
        end
    | VFloat32 bits => if nonFinite32 bits then wfail (ErrNew "non-finite float32 value"%string)
                       else wret (VFloat (widen32 bits))
    | VFloat bits => if nonFinite64 bits then wfail (ErrNew "non-finite float64 value"%string)
                     else wret (VFloat bits)
    | VString s => if negb (utf8Valid s) then wfail (ErrNew "string contains invalid UTF-8"%string)
                   else addBytes (nlen s) ;;; reserveInterned s ;;; wret (VString (InternString s))
    | VBytes b => addBytes (slen b) ;;; reserveBytes (slen b) ;;; wret (VBytes (appendNil b))
    | VVector l =>
        if maxValueBytes / 4 <? slen l then wfail (ErrValueLimit "byte count"%string)
        else addBytes (slen l * 4) ;;; reserveBytes (slen l * 4) ;;;
             checkVector 0 (elems l) ;;; wret (VVector (appendNil l))
    | VList l =>
        walk_add (slen l) ;;; reserveBytes (slen l * 16) ;;;
        list <~ match l with None => wret [] | Some l => walkEach (fun item => normalizeValue item (S depth)) l end ;;
        wret (VList (Some list))
    | VMap m =>
        walk_add (slen m) ;;; reserveBytes (slen m * 32) ;;;
        out <~ match m with None => wret [] | Some m => walkEntries (normalizeEntry (S depth)) m [] end ;;
        wret (VMap (Some out))
    | VSlice l =>
        walk_add (nlen l) ;;; reserveBytes (nlen l * 16) ;;;
        list <~ walkEach (fun item => normalizeValue item (S depth)) l ;;
        wret (VList (Some list))
    | VStringMap m =>
        walk_add (nlen m) ;;; reserveBytes (nlen m * 32) ;;;
        out <~ walkEntries (normalizeEntry (S depth)) m [] ;;
        wret (VMap (Some out))
    | VOtherMap => wfail (ErrNew "map key type is not supported"%string)
    | VOther => wfail (ErrNew "unsupported value type"%string)
    end.

Definition NormalizeValue (v : value) : value + error := (normalizeValue v 0 newValueWalk).1.
Definition NormalizeValueWithReserve (v : value) (reserve : list N -> N -> option error) : value + error :=
  (normalizeValue v 0 (mkWalk 0 0 (Some reserve) [])).1.

(** One property of an entity: the key, then the value under the same walk. *)
Definition normalizeProperty (key : gostring) (v : value) : walking value :=
  if negb (utf8Valid key) then wfail (ErrNew "property key contains invalid UTF-8"%string)
  else wwrap key (addBytes (nlen key)) ;;; wwrap key (normalizeValue v 0).

Definition NormalizeProperties (props : list (gostring * value)) : list (gostring * value) + error :=
  match props with
  | [] => inl []
  | _ => ((walk_add (nlen props) ;;; walkEntries normalizeProperty props []) newValueWalk).1
  end.

(** ** Copies *)

Fixpoint CloneValue (v : value) : value :=
  match v with
  | VBytes b => VBytes (appendNil b)
  | VVector l => VVector (appendNil l)
  | VList l => VList (Some (match l with None => [] | Some l => map CloneValue l end))
  | VMap m => VMap (Some (match m with
                          | None => []
                          | Some m => map (fun kv => (kv.1, CloneValue kv.2)) m
                          end))
  | VSlice l => VList (Some (map CloneValue l))
  | VStringMap m => VMap (Some (map (fun kv => (kv.1, CloneValue kv.2)) m))
  | _ => v
  end.

(** ** Persisted values *)

Definition sumEach {A B} (f : A -> B + error) : list A -> list B + error :=
  fix each l :=
    match l with
    | [] => inl []
    | x :: l => match f x with
                | inr err => inr err
                | inl y => match each l with inr err => inr err | inl ys => inl (y :: ys) end
                end
    end.

Definition sumEntries {A B} (f : A -> B + error) :
    list (gostring * A) -> list (gostring * B) -> list (gostring * B) + error :=
  fix each l acc :=
    match l with
    | [] => inl acc
    | (key, x) :: l => match f x with
                       | inr err => inr err
                       | inl y => each l (mapInsert key y acc)
                       end
    end.

(** [encodeValue], with the [default] branch as a parameter. *)
Fixpoint encodeValueWith (other : value -> persistedValue + error) (v : value) : persistedValue + error :=
  match v with
  | VNil => inl PVNull
  | VBool b => inl (PVBool b)
  | VInt i => inl (PVInt i)
  | VFloat bits => inl (PVFloat bits)
  | VString s => inl (PVString s)
  | VBytes b => inl (PVBytes (appendNil b))
  | VVector l => inl (PVVector (appendNil l))
  | VList l =>
      match (match l with None => inl [] | Some l => sumEach (encodeValueWith other) l end) with
      | inr err => inr err
      | inl list => inl (PVList (Some list))
      end
  | VMap m =>
      match (match m with None => inl [] | Some m => sumEntries (encodeValueWith other) m [] end) with
      | inr err => inr err
      | inl mapped => inl (PVMap (Some mapped))
      end
  | _ => other v
  end.

(** [reflect.TypeOf(a) == reflect.TypeOf(b)], for [a] a normalised value. *)
Definition sameType (a b : value) : bool :=
  match a, b with
  | VNil, VNil | VBool _, VBool _ | VInt _, VInt _ | VFloat _, VFloat _ | VString _, VString _
  | VBytes _, VBytes _ | VVector _, VVector _ | VList _, VList _ | VMap _, VMap _ => true
  | _, _ => false
  end.

(** A value of another type is normalised first. Its normal form never takes the
    branch again, so one unfolding is all there is. *)
Definition encodeValue (v : value) : persistedValue + error :=
  encodeValueWith (fun v =>
    match NormalizeValue v with
    | inr err => inr err
    | inl normalized =>
        if sameType normalized v then inr (ErrNew "unsupported normalized value type"%string)
        else encodeValueWith (fun _ => inr (ErrNew "unsupported normalized value type"%string)) normalized
    end) v.

Definition encodeNormalizedPropertyMap (props : list (gostring * value)) :
    list (gostring * persistedValue) + error := sumEntries encodeValue props [].

Definition encodePropertyMap (props : list (gostring * value)) : list (gostring * persistedValue) + error :=
  match NormalizeProperties props with
  | inr err => inr err
  | inl normalized => encodeNormalizedPropertyMap normalized
  end.

Fixpoint decodeValue (v : persistedValue) : value + error :=
  match v with
  | PVNull => inl VNil
  | PVBool b => inl (VBool b)
  | PVInt i => inl (VInt i)
  | PVFloat bits => inl (VFloat bits)
  | PVString s => inl (VString s)
  | PVBytes b => inl (VBytes (appendNil b))
  | PVVector l => inl (VVector (appendNil l))
  | PVList l =>
      match (match l with None => inl [] | Some l => sumEach decodeValue l end) with
      | inr err => inr err
      | inl list => inl (VList (Some list))
      end
  | PVMap m =>
      match (match m with None => inl [] | Some m => sumEntries decodeValue m [] end) with
      | inr err => inr err
      | inl out => inl (VMap (Some out))
      end
  | PVEmpty | PVUnknown _ => inr (ErrNew "unknown stored value kind"%string)
  end.

Definition decodePropertyMapRaw (props : list (gostring * persistedValue)) :
    list (gostring * value) + error := sumEntries decodeValue props [].

Definition decodePropertyMap (props : list (gostring * persistedValue)) : list (gostring * value) + error :=
  match decodePropertyMapRaw props with
  | inr err => inr err
  | inl out => NormalizeProperties out
  end.
