(* ===== verification/ValuesSpec.v ===== *)
(** * What normalisation and persistence of values do

    The normal form, the element and byte totals and the validity of a value are
    defined by recursion on the value alone; [normalizeValue] is shown to compute
    the normal form exactly when the value is valid and its totals fit, whatever
    the walk has seen before. *)
From S2P Require Import Prelude.
From S2P Require Import GoBytes.
From S2P Require Import BinaryCodec.
From S2P Require Import BinaryCodecSpec.
From S2P Require Import BinaryValue.
From S2P Require Import BinaryValueSpec.
From S2P Require Import GoMaps.
From S2P Require Import Values.
From Stdlib Require Strings.String.
Import String.StringSyntax.

Section value_induction.
Variable P : value -> Prop.
Hypothesis Hnil : P VNil.
Hypothesis Hbool : forall b, P (VBool b).
Hypothesis Hint : forall i, P (VInt i).
Hypothesis Hinteger : forall t i, P (VInteger t i).
Hypothesis Hfloat : forall b, P (VFloat b).
Hypothesis Hfloat32 : forall b, P (VFloat32 b).
Hypothesis Hstring : forall s, P (VString s).
Hypothesis Hbytes : forall b, P (VBytes b).
Hypothesis Hvector : forall l, P (VVector l).
Hypothesis Hlist : forall l, Forall P (elems l) -> P (VList l).
Hypothesis Hmap : forall m, Forall (fun kv => P kv.2) (elems m) -> P (VMap m).
Hypothesis Hslice : forall l, Forall P l -> P (VSlice l).
Hypothesis Hsmap : forall m, Forall (fun kv => P kv.2) m -> P (VStringMap m).
Hypothesis Homap : P VOtherMap.
Hypothesis Hother : P VOther.

Lemma value_nested_ind : forall v, P v.
Proof.
  fix IH 1. intros v.
  assert (each : forall l, Forall P l).
  { fix each 1. intros [|x l]; [exact (Forall_nil_2 _)|exact (Forall_cons_2 _ _ _ (IH x) (each l))]. }
  assert (eachE : forall m : list (gostring * value), Forall (fun kv => P kv.2) m).
  { fix eachE 1. intros [|[k x] m]; [exact (Forall_nil_2 _)|exact (Forall_cons_2 _ (k, x) _ (IH x) (eachE m))]. }
  destruct v as [|b|i|t i|bits|bits|s|b|l|[l|]|[m|]|l|m| |]; clear IH;
    first [assumption | apply Hlist, each | apply Hlist; exact (Forall_nil_2 _) | apply Hmap, eachE
          | apply Hmap; exact (Forall_nil_2 _) | apply Hslice, each | apply Hsmap, eachE | trivial].
Qed.
End value_induction.

(** ** The pure description *)

Definition optMap {A B} (f : A -> B) (v : option (list A)) : list B :=
  match v with None => [] | Some l => map f l end.

Definition onEntry {A B} (f : A -> B) (kv : gostring * A) : gostring * B := (kv.1, f kv.2).

(** The value stored. *)
Fixpoint normV (v : value) : value :=
  match v with
  | VInteger _ i => VInt i
  | VFloat32 bits => VFloat (widen32 bits)
  | VBytes b => VBytes (appendNil b)
  | VVector l => VVector (appendNil l)
  | VList l => VList (Some (optMap normV l))
  | VMap m => VMap (Some (mapOf (optMap (onEntry normV) m) []))
  | VSlice l => VList (Some (map normV l))
  | VStringMap m => VMap (Some (mapOf (map (onEntry normV) m) []))
  | _ => v
  end.

(** Elements and bytes counted against the limits. *)
Fixpoint elementsV (v : value) : N :=
  match v with
  | VList l => slen l + nsum (optMap elementsV l)
  | VMap m => slen m + nsum (optMap (fun kv => elementsV kv.2) m)
  | VSlice l => nlen l + nsum (map elementsV l)
  | VStringMap m => nlen m + nsum (map (fun kv => elementsV kv.2) m)
  | _ => 0
  end.

Fixpoint bytesV (v : value) : N :=
  match v with
  | VString s => nlen s
  | VBytes b => slen b
  | VVector l => slen l * 4
  | VList l => nsum (optMap bytesV l)
  | VMap m => nsum (optMap (fun kv => nlen kv.1 + bytesV kv.2) m)
  | VSlice l => nsum (map bytesV l)
  | VStringMap m => nsum (map (fun kv => nlen kv.1 + bytesV kv.2) m)
  | _ => 0
  end.

(** Everything the code checks besides the two totals. *)
Fixpoint okV (depth : nat) (v : value) : bool :=
  (depth <=? maxValueDepth)%nat &&
  match v with
  | VInteger t i => match t with TUint | TUint64 => (i <=? maxInt64)%Z | _ => true end
  | VFloat32 bits => negb (nonFinite32 bits)
  | VFloat bits => negb (nonFinite64 bits)
  | VString s => utf8Valid s
  | VVector l => forallb (fun x => negb (nonFinite32 x)) (elems l)
  | VList l => forallb id (optMap (okV (S depth)) l)
  | VMap m => forallb id (optMap (fun kv => utf8Valid kv.1 && okV (S depth) kv.2) m)
  | VSlice l => forallb id (map (okV (S depth)) l)
  | VStringMap m => forallb id (map (fun kv => utf8Valid kv.1 && okV (S depth) kv.2) m)
  | VOtherMap | VOther => false
  | _ => true
  end.

(** ** A calculus for code that walks *)

Definition plain (w : valueWalk) : Prop :=
  w_reserve w = None /\ w_elements w <= maxValueElements /\ w_bytes w <= maxValueBytes.

Definition advance (w : valueWalk) (e b : N) : valueWalk :=
  mkWalk (w_elements w + e) (w_bytes w + b) (w_reserve w) (w_log w).

(** [m] returns [x] and counts [e] elements and [b] bytes when [ok] holds and the
    counts fit, and fails otherwise. *)
Definition performs {A} (m : walking A) (ok : bool) (e b : N) (x : A) : Prop := forall w, plain w ->
  if ok && (w_elements w + e <=? maxValueElements) && (w_bytes w + b <=? maxValueBytes)
  then m w = (inl x, advance w e b)
  else exists err w', m w = (inr err, w').

Lemma performs_eq {A} (m : walking A) ok ok' e e' b b' x x' :
  performs m ok e b x -> ok = ok' -> e = e' -> b = b' -> x = x' -> performs m ok' e' b' x'.
Proof. by intros H -> -> -> ->. Qed.

Lemma performs_bind {A B} (m : walking A) (k : A -> walking B) ok1 e1 b1 x ok2 e2 b2 y :
  performs m ok1 e1 b1 x -> performs (k x) ok2 e2 b2 y ->
  performs (wbind m k) (ok1 && ok2) (e1 + e2) (b1 + b2) y.
Proof.
  intros Hm Hk w Hw. unfold wbind. specialize (Hm w Hw). pose proof Hw as (Hr & He & Hb).
  destruct ok1; cbn [andb] in Hm |- *; [|by destruct Hm as (err & w' & ->); eauto].
  destruct (N.leb_spec (w_elements w + e1) maxValueElements);
    [|destruct Hm as (err & w' & ->); rewrite (proj2 (N.leb_gt (w_elements w + _) _)) by lia;
      rewrite andb_false_r; cbn [andb]; by eauto].
  destruct (N.leb_spec (w_bytes w + b1) maxValueBytes);
    [|destruct Hm as (err & w' & ->); rewrite (proj2 (N.leb_gt (w_bytes w + _) _)) by lia;
      rewrite andb_false_r; by eauto].
  cbn [andb] in Hm. rewrite Hm. specialize (Hk (advance w e1 b1)). unfold advance in *. cbn in Hk.
  rewrite <- !N.add_assoc in Hk. apply Hk. by split_and!.
Qed.

Lemma performs_ret {A} (x : A) : performs (wret x) true 0 0 x.
Proof.
  intros w (Hr & He & Hb). rewrite !N.add_0_r, (proj2 (N.leb_le _ _)), (proj2 (N.leb_le _ _)) by done.
  unfold wret, advance. rewrite !N.add_0_r. by destruct w.
Qed.

Lemma performs_fail {A} err e b (x : A) : performs (wfail err) false e b x.
Proof. intros w _. cbn. by eauto. Qed.

Lemma performs_guard {A} (c : bool) err (m : walking A) ok e b x :
  performs m ok e b x -> performs (if c then wfail err else m) (negb c && ok) e b x.
Proof. destruct c; cbn; [intros; apply performs_fail|done]. Qed.

Lemma performs_wrap {A} key (m : walking A) ok e b x : performs m ok e b x -> performs (wwrap key m) ok e b x.
Proof.
  intros Hm w Hw. specialize (Hm w Hw). unfold wwrap.
  destruct (_ && _ && _); [by rewrite Hm|destruct Hm as (err & w' & ->); by eauto].
Qed.

Lemma performs_reserve n : performs (reserveBytes n) true 0 0 tt.
Proof.
  intros w Hw. pose proof Hw as (Hr & _). unfold reserveBytes. rewrite Hr. by apply performs_ret.
Qed.

Lemma performs_interned s : performs (reserveInterned s) true 0 0 tt.
Proof. unfold reserveInterned. destruct (_ && _); [apply performs_reserve|apply performs_ret]. Qed.

Lemma performs_add n : performs (walk_add n) true n 0 tt.
Proof.
  intros w (Hr & He & Hb). unfold walk_add. cbn [w_elements andb].
  rewrite N.add_0_r, (proj2 (N.leb_le (w_bytes w) _)), andb_true_r by done.
  unfold advance. rewrite N.add_0_r.
  destruct (N.leb_spec (w_elements w + n) maxValueElements), (N.ltb_spec maxValueElements (w_elements w + n));
    try lia; eauto.
Qed.

Lemma performs_addBytes n : performs (addBytes n) true 0 n tt.
Proof.
  intros w (Hr & He & Hb). unfold addBytes, advance. cbn [andb].
  rewrite N.add_0_r, (proj2 (N.leb_le (w_elements w) _)) by done. cbn [andb].
  destruct (N.leb_spec (w_bytes w + n) maxValueBytes), (N.ltb_spec (maxValueBytes - w_bytes w) n);
    try lia; eauto.
Qed.

Lemma performs_each {A B} (f : A -> walking B) ok e b g l :
  Forall (fun x => performs (f x) (ok x) (e x) (b x) (g x)) l ->
  performs (walkEach f l) (forallb id (map ok l)) (nsum (map e l)) (nsum (map b l)) (map g l).
Proof.
  induction 1 as [|x l Hx _ IH]; [apply performs_ret|]. cbn [walkEach map forallb nsum foldr].
  eapply performs_eq; [eapply performs_bind; [exact Hx|eapply performs_bind; [exact IH|apply performs_ret]]|..];
    rewrite ?andb_true_r, ?N.add_0_r; done.
Qed.

Lemma performs_entries {A B} (f : gostring -> A -> walking B) ok e b g l : forall acc,
  Forall (fun kv => performs (f kv.1 kv.2) (ok kv) (e kv) (b kv) (g kv.2)) l ->
  performs (walkEntries f l acc) (forallb id (map ok l)) (nsum (map e l)) (nsum (map b l))
    (mapOf (map (onEntry g) l) acc).
Proof.
  induction l as [|[k x] l IH]; intros acc Hl; [apply performs_ret|].
  apply Forall_cons in Hl as [Hx Hl]. cbn [walkEntries map forallb nsum foldr].
  eapply performs_eq; [eapply performs_bind; [exact Hx|apply IH, Hl]|done..].
Qed.

Lemma performs_vector l : forall index,
  performs (checkVector index l) (forallb (fun x => negb (nonFinite32 x)) l) 0 0 tt.
Proof.
  induction l as [|x l IH]; intros index; [apply performs_ret|]. cbn [checkVector forallb].
  eapply performs_eq; [eapply (performs_bind _ _ true 0 0 tt); [|apply performs_guard, IH]|done..].
  destruct (_ =? 0); [apply performs_reserve|apply performs_ret].
Qed.

(** Chains the laws of the steps of a sequence. *)
Ltac performs_steps :=
  repeat first
    [ eassumption
    | apply performs_guard
    | eapply performs_bind; [first [apply performs_reserve | apply performs_interned | apply performs_add
                                   | apply performs_addBytes | apply performs_vector | eassumption] |]
    | apply performs_ret | apply performs_fail ].

Ltac performs_tac :=
  eapply performs_eq; [performs_steps|..];
  cbn [andb]; rewrite ?andb_true_r, ?negb_involutive, ?N.add_0_r, ?N.add_0_l; try done.

Lemma depth_ok depth : negb (maxValueDepth <? depth)%nat = (depth <=? maxValueDepth)%nat.
Proof. destruct (Nat.ltb_spec maxValueDepth depth), (Nat.leb_spec depth maxValueDepth); try done; lia. Qed.

(** Behind the two checks every value starts with. *)
Lemma performs_value depth (m : walking value) ok e b x :
  performs m ok e b x ->
  performs (reserveBytes 0 ;;; if (maxValueDepth <? depth)%nat then wfail nestingExceeded else m)
    ((depth <=? maxValueDepth)%nat && ok) e b x.
Proof. intros Hm. rewrite <- depth_ok. performs_tac. Qed.

Lemma performs_list depth (n : N) (l : list value) :
  Forall (fun x => forall depth, performs (normalizeValue x depth) (okV depth x) (elementsV x) (bytesV x) (normV x)) l ->
  performs (walk_add (nlen l) ;;; reserveBytes n ;;;
            list <~ walkEach (fun item => normalizeValue item (S depth)) l ;; wret (VList (Some list)))
    (forallb id (map (okV (S depth)) l)) (nlen l + nsum (map elementsV l)) (nsum (map bytesV l))
    (VList (Some (map normV l))).
Proof.
  intros Hl.
  assert (He := performs_each (fun item => normalizeValue item (S depth)) (okV (S depth)) elementsV bytesV normV l).
  eapply performs_eq; [eapply performs_bind; [apply performs_add|eapply performs_bind; [apply performs_reserve|
    eapply performs_bind; [apply He; eapply Forall_impl; [exact Hl|intros x Hx; apply Hx]|apply performs_ret]]]|..];
    rewrite ?andb_true_r, ?N.add_0_r, ?N.add_0_l; done.
Qed.

Definition normalizeEntry (depth : nat) (key : gostring) (item : value) : walking value :=
  if negb (utf8Valid key) then wfail (ErrNew "map key contains invalid UTF-8"%string)
  else addBytes (nlen key) ;;; normalized <~ normalizeValue item depth ;; reserveInterned key ;;; wret normalized.

Lemma performs_map depth (n : N) (m : list (gostring * value)) :
  Forall (fun kv => forall depth, performs (normalizeValue kv.2 depth) (okV depth kv.2) (elementsV kv.2)
                                    (bytesV kv.2) (normV kv.2)) m ->
  performs (walk_add (nlen m) ;;; reserveBytes n ;;;
            out <~ walkEntries (normalizeEntry (S depth)) m [] ;; wret (VMap (Some out)))
    (forallb id (map (fun kv => utf8Valid kv.1 && okV (S depth) kv.2) m))
    (nlen m + nsum (map (fun kv => elementsV kv.2) m)) (nsum (map (fun kv => nlen kv.1 + bytesV kv.2) m))
    (VMap (Some (mapOf (map (onEntry normV) m) []))).
Proof.
  intros Hm.
  assert (He : Forall (fun kv => performs (normalizeEntry (S depth) kv.1 kv.2)
             (utf8Valid kv.1 && okV (S depth) kv.2) (elementsV kv.2) (nlen kv.1 + bytesV kv.2) (normV kv.2)) m).
  { eapply Forall_impl; [exact Hm|]. intros [k x] Hx. cbn in *. specialize (Hx (S depth)). performs_tac. }
  eapply performs_eq; [eapply performs_bind; [apply performs_add|eapply performs_bind; [apply performs_reserve|
    eapply performs_bind; [apply (performs_entries _ _ _ _ _ _ _ He)|apply performs_ret]]]|..];
    rewrite ?andb_true_r, ?N.add_0_r, ?N.add_0_l; done.
Qed.

(** A check that the byte count makes redundant. *)
Lemma performs_implied {A} (c : bool) err (m : walking A) ok e b x :
  (c = true -> maxValueBytes < b) -> performs m ok e b x -> performs (if c then wfail err else m) ok e b x.
Proof.
  intros Hc Hm. destruct c; [|done]. intros w Hw. rewrite (proj2 (N.leb_gt (w_bytes w + b) _)).
  - rewrite andb_false_r. unfold wfail. by eauto.
  - specialize (Hc eq_refl). lia.
Qed.

Lemma normalizeValue_performs v : forall depth,
  performs (normalizeValue v depth) (okV depth v) (elementsV v) (bytesV v) (normV v).
Proof.
  induction v as [| | |t i| | | | |l|l Hl|m Hm|l Hl|m Hm| |] using value_nested_ind; intros depth;
    cbn [normalizeValue okV elementsV bytesV normV]; apply performs_value; try (performs_tac; fail).
  - destruct t; try apply performs_ret; (performs_tac;
      destruct (Z.ltb_spec maxInt64 i), (Z.leb_spec i maxInt64); try done; lia).
  - apply performs_implied; [|performs_tac].
    intros Hc%N.ltb_lt. unfold maxValueBytes in *.
    change (64 * 2 ^ 20 / 4) with 16777216 in Hc. change (64 * 2 ^ 20) with 67108864. lia.
  - destruct l as [l|]; [by apply performs_list|]. by apply (performs_list depth _ []).
  - destruct m as [m|]; [by apply (performs_map depth)|]. by apply (performs_map depth _ []).
  - by apply performs_list.
  - by apply (performs_map depth).
Qed.

(** [NormalizeValue]: a total description. *)
Lemma NormalizeValue_spec v :
  if okV 0 v && (elementsV v <=? maxValueElements) && (bytesV v <=? maxValueBytes)
  then NormalizeValue v = inl (normV v) else exists err, NormalizeValue v = inr err.
Proof.
  pose proof (normalizeValue_performs v 0 newValueWalk) as H. cbn [newValueWalk w_elements w_bytes] in H.
  rewrite !N.add_0_l in H. unfold NormalizeValue. destruct (_ && _ && _).
  - rewrite H; [done|]. split_and!; [done|vm_compute; discriminate..].
  - destruct H as (err & w' & ->); [split_and!; [done|vm_compute; discriminate..]|]. by exists err.
Qed.

(** ** Well-formed Go values *)

Definition intRange (t : intType) (i : Z) : Prop :=
  match t with
  | TInt => (- 2 ^ 63 <= i < 2 ^ 63)%Z
  | TInt8 => (- 2 ^ 7 <= i < 2 ^ 7)%Z
  | TInt16 => (- 2 ^ 15 <= i < 2 ^ 15)%Z
  | TInt32 => (- 2 ^ 31 <= i < 2 ^ 31)%Z
  | TUint | TUint64 => (0 <= i < 2 ^ 64)%Z
  | TUint8 => (0 <= i < 2 ^ 8)%Z
  | TUint16 => (0 <= i < 2 ^ 16)%Z
  | TUint32 => (0 <= i < 2 ^ 32)%Z
  end.

(** Scalars within their width, and maps with distinct keys, at every level. *)
Inductive wfV : value -> Prop :=
  | wf_nil : wfV VNil
  | wf_bool b : wfV (VBool b)
  | wf_int i : int64 i -> wfV (VInt i)
  | wf_integer t i : intRange t i -> wfV (VInteger t i)
  | wf_float bits : bits < 2 ^ 64 -> wfV (VFloat bits)
  | wf_float32 bits : bits < 2 ^ 32 -> wfV (VFloat32 bits)
  | wf_string s : wfV (VString s)
  | wf_bytes b : wfV (VBytes b)
  | wf_vector l : Forall (fun x => x < 2 ^ 32) (elems l) -> wfV (VVector l)
  | wf_list l : Forall wfV (elems l) -> wfV (VList l)
  | wf_map m : NoDup (elems m).*1 -> Forall (fun kv => wfV kv.2) (elems m) -> wfV (VMap m)
  | wf_slice l : Forall wfV l -> wfV (VSlice l)
  | wf_smap m : NoDup m.*1 -> Forall (fun kv => wfV kv.2) m -> wfV (VStringMap m)
  | wf_omap : wfV VOtherMap
  | wf_other : wfV VOther.

(** Only the types [normalizeValue] returns, at every level. *)
Inductive typedV : value -> Prop :=
  | ty_nil : typedV VNil
  | ty_bool b : typedV (VBool b)
  | ty_int i : typedV (VInt i)
  | ty_float bits : typedV (VFloat bits)
  | ty_string s : typedV (VString s)
  | ty_bytes b : typedV (VBytes b)
  | ty_vector l : typedV (VVector l)
  | ty_list l : Forall typedV (elems l) -> typedV (VList l)
  | ty_map m : Forall (fun kv => typedV kv.2) (elems m) -> typedV (VMap m).

(** ** Totals of lists and maps *)

Lemma optMap_elems {A B} (f : A -> B) v : optMap f v = map f (elems v).
Proof. by destruct v. Qed.

Lemma slen_elems {A} (v : option (list A)) : slen v = nlen (elems v).
Proof. by destruct v. Qed.

Lemma appendNil_elems {A} (v : option (list A)) : elems (appendNil v) = elems v.
Proof. unfold appendNil. by destruct (elems v). Qed.

Lemma appendNil_idem {A} (v : option (list A)) : appendNil (appendNil v) = appendNil v.
Proof. unfold appendNil at 1. rewrite appendNil_elems. done. Qed.

Lemma slen_appendNil {A} (v : option (list A)) : slen (appendNil v) = slen v.
Proof. by rewrite !slen_elems, appendNil_elems. Qed.

#[global] Instance nsum_proper : Proper ((≡ₚ) ==> (=)) nsum.
Proof. intros l l' Hp. unfold nsum. induction Hp; simpl; lia. Qed.

#[global] Instance forallb_proper {A} (f : A -> bool) : Proper ((≡ₚ) ==> (=)) (forallb f).
Proof.
  intros l l' Hp. induction Hp as [|x l l' Hp IH|x y l|l1 l2 l3 H1 IH1 H2 IH2]; simpl; [done|by rewrite IH| |congruence].
  by destruct (f x), (f y).
Qed.

Lemma nlen_map {A B} (f : A -> B) l : nlen (map f l) = nlen l.
Proof. unfold nlen. by rewrite length_map. Qed.

Lemma keys_onEntry {A B} (f : A -> B) (m : list (gostring * A)) : (map (onEntry f) m).*1 = m.*1.
Proof. induction m as [|[k v] m IH]; [done|]. cbn. f_equal. exact IH. Qed.

(** The entries of the map built from [m], in some order. *)
Lemma mapOf_entries {A B} (f : A -> B) (m : list (gostring * A)) :
  NoDup m.*1 -> mapOf (map (onEntry f) m) [] ≡ₚ map (onEntry f) m.
Proof. intros Hnd. rewrite mapOf_perm; rewrite app_nil_r; [done|]. by rewrite keys_onEntry. Qed.

Lemma map_onEntry_ext {A B C} (f : gostring * B -> C) (h : gostring * A -> C) (g : A -> B) m :
  Forall (fun kv => f (kv.1, g kv.2) = h kv) m -> map f (map (onEntry g) m) = map h m.
Proof. intros Hm. rewrite map_map. apply map_ext_in. rewrite <- List.Forall_forall. exact Hm. Qed.

Lemma map_ext_Forall {A B} (f g : A -> B) l : Forall (fun x => f x = g x) l -> map f l = map g l.
Proof. intros Hl. apply map_ext_in. by rewrite <- List.Forall_forall. Qed.

Lemma Forall_mp {A} (P Q : A -> Prop) l : Forall (fun x => P x -> Q x) l -> Forall P l -> Forall Q l.
Proof. rewrite !Forall_forall. auto. Qed.

(** ** Laws of the normal form *)

Lemma elementsV_norm v : wfV v -> elementsV (normV v) = elementsV v.
Proof.
  induction v as [| | | | | | | | |l Hl|m Hm|l Hl|m Hm| |] using value_nested_ind; intros Hw; inversion Hw; subst;
    cbn [normV elementsV]; try done;
    rewrite ?optMap_elems, ?slen_elems; cbn [elems default from_option id]; rewrite ?nlen_map.
  - rewrite map_map. f_equal. f_equal. apply map_ext_Forall. by eapply Forall_mp; [exact Hl|].
  - assert (Hp := mapOf_entries normV (elems m) ltac:(done)).
    assert (El : nlen (mapOf (map (onEntry normV) (elems m)) []) = nlen (elems m))
      by (unfold nlen; by rewrite Hp, length_map).
    rewrite El, Hp. f_equal. f_equal. apply map_onEntry_ext. cbn. by eapply Forall_mp; [exact Hm|].
  - rewrite map_map. f_equal. f_equal. apply map_ext_Forall. by eapply Forall_mp; [exact Hl|].
  - assert (Hp := mapOf_entries normV m ltac:(done)).
    assert (El : nlen (mapOf (map (onEntry normV) m) []) = nlen m)
      by (unfold nlen; by rewrite Hp, length_map).
    rewrite El, Hp. f_equal. f_equal. apply map_onEntry_ext. cbn. by eapply Forall_mp; [exact Hm|].
Qed.

Lemma bytesV_norm v : wfV v -> bytesV (normV v) = bytesV v.
Proof.
  induction v as [| | | | | | | | |l Hl|m Hm|l Hl|m Hm| |] using value_nested_ind; intros Hw; inversion Hw; subst;
    cbn [normV bytesV]; rewrite ?slen_appendNil; try done;
    rewrite ?optMap_elems; cbn [elems default from_option id].
  - rewrite map_map. f_equal. apply map_ext_Forall. by eapply Forall_mp; [exact Hl|].
  - rewrite (mapOf_entries normV (elems m)) by done. f_equal. apply map_onEntry_ext. cbn.
    eapply Forall_impl; [eapply Forall_mp; [exact Hm|done]|]. intros kv E. cbn. by rewrite E.
  - rewrite map_map. f_equal. apply map_ext_Forall. by eapply Forall_mp; [exact Hl|].
  - rewrite (mapOf_entries normV m) by done. f_equal. apply map_onEntry_ext. cbn.
    eapply Forall_impl; [eapply Forall_mp; [exact Hm|done]|]. intros kv E. cbn. by rewrite E.
Qed.

(** Widening keeps finiteness. *)
Lemma float64_parts s e m :
  e < 2048 -> m < 2 ^ 52 -> nonFinite64 (N.shiftl s 63 + N.shiftl e 52 + m) = (e =? 2047).
Proof.
  intros He Hm. unfold nonFinite64. rewrite !N.shiftl_mul_pow2, N.shiftr_div_pow2.
  replace (s * 2 ^ 63 + e * 2 ^ 52 + m) with ((s * 2 ^ 11 + e) * 2 ^ 52 + m)
    by (change (2 ^ 63) with (2 ^ 11 * 2 ^ 52); lia).
  rewrite N.div_add_l, (N.div_small m), N.add_0_r by done.
  change 2047 with (N.ones 11) at 1. rewrite N.land_ones, N.add_comm, N.Div0.mod_add, N.mod_small by done. done.
Qed.

Lemma widen32_parts bits : bits < 2 ^ 32 ->
  exists s e m, widen32 bits = N.shiftl s 63 + N.shiftl e 52 + m /\
    s < 2 /\ e < 2048 /\ m < 2 ^ 52 /\ (e =? 2047) = nonFinite32 bits.
Proof.
  intros Hb. unfold widen32, nonFinite32. set (s := N.shiftr bits 31).
  assert (Hs : s < 2).
  { unfold s. rewrite N.shiftr_div_pow2. apply N.Div0.div_lt_upper_bound. by change (2 ^ 31 * 2) with (2 ^ 32). }
  assert (He : N.land (N.shiftr bits 23) 255 < 256).
  { change 255 with (N.ones 8). rewrite N.land_ones. by apply N.mod_lt. }
  assert (Hm : N.land bits (2 ^ 23 - 1) < 2 ^ 23).
  { change (2 ^ 23 - 1) with (N.ones 23). rewrite N.land_ones. by apply N.mod_lt. }
  set (e := N.land _ 255) in *. set (m := N.land bits _) in *. clearbody s e m. clear Hb.
  assert (Hm29 : N.shiftl m 29 < 2 ^ 52).
  { rewrite N.shiftl_mul_pow2. change (2 ^ 52) with (2 ^ 23 * 2 ^ 29). apply N.mul_lt_mono_pos_r; [done|lia]. }
  destruct (N.eqb_spec e 255) as [->|Hne]; [by exists s, 2047, (N.shiftl m 29)|].
  destruct (N.eqb_spec e 0) as [->|He0].
  2:{ exists s, (e + 896), (N.shiftl m 29). split_and!; [done|done|lia|done|]. apply N.eqb_neq. lia. }
  destruct (N.eqb_spec m 0) as [->|Hm0].
  - exists s, 0, 0. by rewrite N.shiftl_0_l, !N.add_0_r.
  - pose proof (N.log2_spec m ltac:(lia)) as [Hk1 Hk2]. set (k := N.log2 m) in *. clearbody k.
    assert (Hk : k < 23) by (apply (N.pow_lt_mono_r_iff 2); lia).
    exists s, (k + 874), (N.shiftl (m - 2 ^ k) (52 - k)).
    split_and!; [done|done|lia| |apply N.eqb_neq; lia].
    rewrite N.shiftl_mul_pow2. replace (2 ^ 52) with (2 ^ k * 2 ^ (52 - k)) by (rewrite <- N.pow_add_r; f_equal; lia).
    apply N.mul_lt_mono_pos_r; [by apply N.neq_0_lt_0, N.pow_nonzero|]. rewrite N.pow_succ_r' in Hk2. lia.
Qed.

Lemma widen32_finite bits : bits < 2 ^ 32 -> nonFinite64 (widen32 bits) = nonFinite32 bits.
Proof. intros (s & e & m & -> & _ & He & Hm & <-)%widen32_parts. by apply float64_parts. Qed.

Lemma widen32_lt bits : bits < 2 ^ 32 -> widen32 bits < 2 ^ 64.
Proof.
  intros (s & e & m & -> & Hs & He & Hm & _)%widen32_parts. rewrite !N.shiftl_mul_pow2.
  change (2 ^ 64) with (2 * 2 ^ 63). assert (e * 2 ^ 52 <= 2047 * 2 ^ 52) by (apply N.mul_le_mono_r; lia).
  assert (s * 2 ^ 63 <= 1 * 2 ^ 63) by (apply N.mul_le_mono_r; lia). lia.
Qed.

(** ** Normal forms are normal *)

Lemma forallb_map {A} (f : A -> bool) l : forallb id (map f l) = true <-> Forall (fun x => f x = true) l.
Proof.
  rewrite forallb_forall, Forall_forall. split.
  - intros H x Hx. apply (H (f x)). apply in_map. by apply list_elem_of_In.
  - intros H b [x [<- Hx]]%in_map_iff. apply H. by apply list_elem_of_In.
Qed.

Lemma okV_entries depth m :
  forallb id (map (fun kv => utf8Valid kv.1 && okV depth kv.2) m) = true <->
  Forall (fun kv => utf8Valid kv.1 = true) m /\ Forall (fun kv => okV depth kv.2 = true) m.
Proof.
  rewrite forallb_map, <- Forall_and. split; intros H; (eapply Forall_impl; [exact H|]); intros kv;
    cbn beta; by rewrite andb_true_iff.
Qed.

Lemma Forall_map_onEntry {A B} (f : A -> B) (P : gostring * B -> Prop) m :
  Forall P (map (onEntry f) m) <-> Forall (fun kv => P (kv.1, f kv.2)) m.
Proof. rewrite List.Forall_map. done. Qed.

Lemma Forall_mapOf {A B} (f : A -> B) (P : gostring * B -> Prop) m :
  NoDup m.*1 -> Forall (fun kv => P (kv.1, f kv.2)) m -> Forall P (mapOf (map (onEntry f) m) []).
Proof. intros Hnd Hm. rewrite mapOf_entries by done. by apply Forall_map_onEntry. Qed.

(** What [normalizeValue] returns at nesting [depth]. *)
Record normalAt (depth : nat) (v : value) : Prop := mkNormal {
  normal_wf : wfV v;
  normal_typed : typedV v;
  normal_ok : okV depth v = true;
  normal_norm : normV v = v }.

Lemma normal_list depth l :
  (depth <= maxValueDepth)%nat -> Forall (normalAt (S depth)) l -> normalAt depth (VList (Some l)).
Proof.
  intros Hd Hl. split.
  - constructor. eapply Forall_impl; [exact Hl|]. by intros v [].
  - constructor. eapply Forall_impl; [exact Hl|]. by intros v [].
  - cbn [okV optMap]. rewrite (proj2 (Nat.leb_le _ _)) by done. apply forallb_map.
    eapply Forall_impl; [exact Hl|]. by intros v [].
  - cbn [normV optMap]. f_equal. f_equal. rewrite <- (map_id l) at 2. apply map_ext_Forall.
    eapply Forall_impl; [exact Hl|]. by intros v [].
Qed.

Lemma normal_map depth m :
  (depth <= maxValueDepth)%nat -> keysSorted m -> Forall (fun kv => utf8Valid kv.1 = true) m ->
  Forall (fun kv => normalAt (S depth) kv.2) m -> normalAt depth (VMap (Some m)).
Proof.
  intros Hd Hs Hu Hl. split.
  - constructor; [by apply keysSorted_nodup|]. eapply Forall_impl; [exact Hl|]. by intros v [].
  - constructor. eapply Forall_impl; [exact Hl|]. by intros v [].
  - cbn [okV optMap]. rewrite (proj2 (Nat.leb_le _ _)) by done. apply okV_entries. split; [done|].
    eapply Forall_impl; [exact Hl|]. by intros v [].
  - cbn [normV optMap]. f_equal. f_equal.
    assert (E : map (onEntry normV) m = m); [|by rewrite E, mapOf_id].
    rewrite <- (map_id m) at 2. apply map_ext_Forall. eapply Forall_impl; [exact Hl|].
    intros [k v] [_ _ _ E]. cbn in *. unfold onEntry. cbn. by rewrite E.
Qed.

Lemma norm_elements depth l :
  Forall (fun v => forall depth, wfV v -> okV depth v = true -> normalAt depth (normV v)) l ->
  Forall wfV l -> Forall (fun v => okV depth v = true) l -> Forall (normalAt depth) (map normV l).
Proof. rewrite List.Forall_map, !Forall_forall. auto. Qed.

Lemma norm_entries depth m :
  Forall (fun kv => forall depth, wfV kv.2 -> okV depth kv.2 = true -> normalAt depth (normV kv.2)) m ->
  NoDup m.*1 -> Forall (fun kv => wfV kv.2) m ->
  Forall (fun kv => utf8Valid kv.1 = true) m -> Forall (fun kv => okV (S depth) kv.2 = true) m ->
  (depth <= maxValueDepth)%nat -> normalAt depth (VMap (Some (mapOf (map (onEntry normV) m) []))).
Proof.
  intros IH Hnd Hw Hu Ho Hd. apply normal_map; [done| | |].
  - apply mapOf_sorted. constructor.
  - by apply Forall_mapOf.
  - apply Forall_mapOf; [done|]. cbn. revert IH Hw Ho. rewrite !Forall_forall. auto.
Qed.

Lemma norm_normal v : forall depth, wfV v -> okV depth v = true -> normalAt depth (normV v).
Proof.
  induction v as [| |i|t i|bits|bits|s|b|l|l Hl|m Hm|l Hl|m Hm| |] using value_nested_ind; intros depth Hw Ho;
    cbn [okV] in Ho; apply andb_true_iff in Ho as [Hd Ho]; inversion Hw; subst;
    try (split; [by constructor|by constructor|cbn [okV normV]; by rewrite Hd|done]; fail);
    cbn [normV]; rewrite ?optMap_elems in *; try apply Nat.leb_le in Hd.
  - split; [constructor|constructor|cbn [okV]; by rewrite (proj2 (Nat.leb_le _ _))|done].
    destruct t; cbn [intRange] in *; unfold int64; try lia; apply Z.leb_le in Ho; unfold maxInt64 in Ho; lia.
  - split; [constructor; by apply widen32_lt|constructor| |done].
    cbn [okV]. by rewrite (proj2 (Nat.leb_le _ _)), widen32_finite.
  - split; [by constructor|by constructor|cbn [okV]; by rewrite (proj2 (Nat.leb_le _ _))|].
    cbn [normV]. by rewrite appendNil_idem.
  - split; [constructor; by rewrite appendNil_elems|by constructor| |].
    + cbn [okV]. by rewrite (proj2 (Nat.leb_le _ _)), appendNil_elems.
    + cbn [normV]. by rewrite appendNil_idem.
  - apply normal_list; [done|]. apply norm_elements; [done|done|by apply forallb_map].
  - apply okV_entries in Ho as [Hu Ho]. by apply norm_entries.
  - apply normal_list; [done|]. apply norm_elements; [done|done|by apply forallb_map].
  - apply okV_entries in Ho as [Hu Ho]. by apply norm_entries.
  - done.
  - done.
Qed.

(** ** Persistence *)

Fixpoint toP (v : value) : persistedValue :=
  match v with
  | VNil => PVNull
  | VBool b => PVBool b
  | VInt i => PVInt i
  | VFloat bits => PVFloat bits
  | VString s => PVString s
  | VBytes b => PVBytes (appendNil b)
  | VVector l => PVVector (appendNil l)
  | VList l => PVList (Some (optMap toP l))
  | VMap m => PVMap (Some (mapOf (optMap (onEntry toP) m) []))
  | _ => PVEmpty
  end.

Lemma sumEach_all {A B} (f : A -> B + error) g l :
  Forall (fun x => f x = inl (g x)) l -> sumEach f l = inl (map g l).
Proof. induction 1 as [|x l Hx _ IH]; [done|]. cbn. by rewrite Hx, IH. Qed.

Lemma sumEntries_all {A B} (f : A -> B + error) g l : forall acc,
  Forall (fun kv => f kv.2 = inl (g kv.2)) l -> sumEntries f l acc = inl (mapOf (map (onEntry g) l) acc).
Proof.
  induction l as [|[k x] l IH]; intros acc Hl; [done|]. apply Forall_cons in Hl as [Hx Hl].
  cbn in Hx. cbn. rewrite Hx. by apply IH.
Qed.

Lemma encodeValue_typed other v : typedV v -> encodeValueWith other v = inl (toP v).
Proof.
  induction v as [| | | | | | | | |l Hl|m Hm| | | |] using value_nested_ind; intros Ht; inversion Ht; subst;
    cbn [encodeValueWith toP]; try done; rewrite optMap_elems.
  - destruct l as [l|]; [|done]. cbn [elems default from_option id] in *.
    rewrite (sumEach_all _ toP); [done|]. by eapply Forall_mp; [exact Hl|].
  - destruct m as [m|]; [|done]. cbn [elems default from_option id] in *.
    rewrite (sumEntries_all _ toP); [done|]. by eapply Forall_mp; [exact Hm|].
Qed.

Lemma decodeValue_toP v : typedV v -> wfV v -> decodeValue (toP v) = inl (normV v).
Proof.
  induction v as [| | | | | | | | |l Hl|m Hm| | | |] using value_nested_ind; intros Ht Hw;
    inversion Ht; inversion Hw; subst; cbn [decodeValue toP normV]; rewrite ?appendNil_idem; try done.
  - rewrite !optMap_elems. assert (He : Forall (fun x => decodeValue (toP x) = inl (normV x)) (elems l)).
    { revert Hl H0 H2. rewrite !Forall_forall. auto. }
    assert (E : sumEach decodeValue (map toP (elems l)) = inl (map normV (elems l))); [|by rewrite E].
    clear -He. induction He as [|x xs Hx _ IH]; [done|]. cbn. by rewrite Hx, IH.
  - rewrite !optMap_elems.
    assert (He : Forall (fun kv => decodeValue (toP kv.2) = inl (normV kv.2)) (elems m)).
    { revert Hm H0 H3. rewrite !Forall_forall. auto. }
    assert (Hp := mapOf_entries toP (elems m) ltac:(done)).
    set (d := fun p => match decodeValue p with inl x => x | inr _ => VNil end).
    assert (Hd : Forall (fun kv => decodeValue kv.2 = inl (d kv.2)) (mapOf (map (onEntry toP) (elems m)) [])).
    { apply Forall_mapOf; [done|]. eapply Forall_impl; [exact He|]. intros kv E. cbn. unfold d. by rewrite E. }
    rewrite (sumEntries_all _ d) by done.
    assert (E : mapOf (map (onEntry d) (mapOf (map (onEntry toP) (elems m)) [])) [] =
                mapOf (map (onEntry normV) (elems m)) []); [|by rewrite E].
    rewrite (mapOf_permutation _ (map (onEntry d) (map (onEntry toP) (elems m)))).
    + f_equal. apply map_onEntry_ext. eapply Forall_impl; [exact He|]. intros kv E. unfold onEntry, d. cbn.
      by rewrite E.
    + rewrite keys_onEntry. apply keysSorted_nodup, mapOf_sorted. constructor.
    + by rewrite Hp.
Qed.

(** A normal value survives storage. *)
Lemma persist_normal depth v :
  normalAt depth v -> encodeValue v = inl (toP v) /\ decodeValue (toP v) = inl v.
Proof.
  intros [Hw Ht _ Hn]. split; [by apply encodeValue_typed|]. rewrite decodeValue_toP by done. by rewrite Hn.
Qed.

(** ** Bounds that make a persisted value acceptable to the binary codec *)

Lemma nsum_elem {A} (f : A -> N) l x : x ∈ l -> f x <= nsum (map f l).
Proof.
  induction l as [|y l IH]; [by intros ?%elem_of_nil|]. cbn. unfold nsum in *.
  intros [->|Hin]%elem_of_cons; [lia|]. specialize (IH Hin). lia.
Qed.

Lemma limits_lt : maxValueElements < maxLen /\ maxValueBytes < maxLen.
Proof. split; vm_compute; reflexivity. Qed.

Lemma valid_toP v : forall n depth,
  typedV v -> wfV v -> okV depth v = true -> elementsV v <= maxValueElements -> bytesV v <= maxValueBytes ->
  (depth + n = S (S maxValueDepth))%nat -> validV n (toP v).
Proof.
  pose proof limits_lt as [HE HB].
  induction v as [| | | | | |s|b|l|l Hl|m Hm| | | |] using value_nested_ind;
    intros n depth Ht Hw Ho He Hb Hn; inversion Ht; inversion Hw; subst;
    cbn [okV] in Ho; apply andb_true_iff in Ho as [Hd Ho]; apply Nat.leb_le in Hd;
    (destruct n as [|[|n]]; [lia|lia|]); cbn [toP]; try done.
  - exact (conj ltac:(done) (proj1 (negb_true_iff _) Ho)).
  - cbn [bytesV] in Hb. exact (conj (N.le_lt_trans _ _ _ Hb HB) Ho).
  - cbn [bytesV] in Hb. change (slen (appendNil b) < maxLen). rewrite slen_appendNil. lia.
  - change (validMany (fun x => x < 2 ^ 32 /\ nonFinite32 x = false) (appendNil l)).
    cbn [bytesV] in Hb. rewrite slen_elems in Hb. unfold appendNil.
    assert (Hf : Forall (fun x => x < 2 ^ 32 /\ nonFinite32 x = false) (elems l)).
    { rewrite <- (map_id (elems l)) in Ho. rewrite forallb_forall in Ho.
      match goal with H : Forall _ (elems l) |- _ => revert H end. rewrite !Forall_forall. intros H x Hx.
      split; [by apply H|]. apply negb_true_iff, Ho. rewrite map_id. by apply list_elem_of_In. }
    destruct (elems l) as [|x xs] eqn:El; [done|]. split; [lia|done].
  - change (validMany (validV (S n)) (Some (optMap toP l))).
    cbn [elementsV bytesV] in He, Hb. rewrite optMap_elems, slen_elems in He.
    rewrite optMap_elems in Hb. rewrite optMap_elems in Ho. rewrite optMap_elems.
    split; [rewrite nlen_map; lia|]. apply List.Forall_map.
    apply forallb_map in Ho. revert Hl H0 H2 Ho. rewrite !Forall_forall. intros IH Ht' Hw' Ho x Hx.
    pose proof (nsum_elem elementsV _ _ Hx). pose proof (nsum_elem bytesV _ _ Hx).
    apply (IH x Hx (S n) (S depth)); auto; lia.
  - change (S n <> O /\ validMap (validV (S n)) (Some (mapOf (optMap (onEntry toP) m) []))).
    cbn [elementsV bytesV] in He, Hb. rewrite optMap_elems, slen_elems in He.
    rewrite optMap_elems in Hb. rewrite optMap_elems in Ho. rewrite optMap_elems.
    apply okV_entries in Ho as [Hu Ho].
    assert (Hp := mapOf_entries toP (elems m) ltac:(done)).
    split; [done|]. split; [split|apply mapOf_sorted; constructor].
    + assert (E : nlen (mapOf (map (onEntry toP) (elems m)) []) = nlen (elems m))
        by (unfold nlen; by rewrite Hp, length_map). rewrite E. lia.
    + apply Forall_mapOf; [done|]. cbn beta iota. revert Hm H0 H3 Hu Ho. rewrite !Forall_forall.
      intros IH Ht' Hw' Hu Ho kv Hx.
      pose proof (nsum_elem (fun kv => elementsV kv.2) _ _ Hx) as Hx1.
      pose proof (nsum_elem (fun kv => nlen kv.1 + bytesV kv.2) _ _ Hx) as Hx2. cbn beta in Hx1, Hx2.
      split; [split; [cbn; lia|exact (Hu kv Hx)]|].
      apply (IH kv Hx (S n) (S depth)); auto; lia.
Qed.
