(* ===== verification/Properties.v ===== *)
(** * Entity properties (internal/store/properties.go)

    Properties are a slice of entries in key order, searched linearly when short
    and by bisection otherwise.

    Further down: they are finite maps, and survive storage. *)
From S2P Require Import Prelude.
From S2P Require Import GoBytes.
From S2P Require Import BinaryCodec.
From S2P Require Import BinaryCodecSpec.
From S2P Require Import BinaryValue.
From S2P Require Import BinaryValueSpec.
From S2P Require Import GoMaps.
From S2P Require Import Values.
From S2P Require Import ValuesSpec.
From Stdlib Require Strings.String.

Import String.StringSyntax.

Inductive propertyValueKind :=
  | propertyNull | propertyBool | propertyInt | propertyFloat | propertyString | propertyBytes
  | propertyVector | propertyList | propertyMap | propertyOther.

#[global] Instance propertyValueKind_eq_dec : EqDecision propertyValueKind.
Proof. solve_decision. Defined.

Record propertyValue := mkPropertyValue { raw : value; kind : propertyValueKind }.
Record Properties := mkProperties { entries : list (gostring * propertyValue) }.

#[global] Instance propertyValue_inhabited : Inhabited propertyValue := populate (mkPropertyValue VNil propertyNull).

Definition typedPropertyValue (v : value) : propertyValue :=
  mkPropertyValue v
    (match v with
     | VNil => propertyNull
     | VBool _ => propertyBool
     | VInt _ => propertyInt
     | VFloat _ => propertyFloat
     | VString _ => propertyString
     | VBytes _ => propertyBytes
     | VVector _ => propertyVector
     | VList _ => propertyList
     | VMap _ => propertyMap
     | _ => propertyOther
     end).

(** [slices.SortFunc] by key. *)
Definition entryLe (a b : gostring * propertyValue) : Prop := strLeR a.1 b.1.
#[global] Instance entryLe_dec a b : Decision (entryLe a b) := decide (strLeR a.1 b.1).
Definition sortEntries (l : list (gostring * propertyValue)) : list (gostring * propertyValue) :=
  merge_sort entryLe l.

(** [values] in the order this run ranges over the map. *)
Definition PropertiesFromMap (values : list (gostring * value)) : Properties :=
  mkProperties (sortEntries (map (fun kv => (kv.1, typedPropertyValue kv.2)) values)).

Definition NormalizePropertyStorage (values : list (gostring * value)) : Properties + error :=
  match values with
  | [] => inl (mkProperties [])
  | _ =>
      match (walk_add (nlen values) ;;;
             walkEach (fun kv => normalized <~ normalizeProperty kv.1 kv.2 ;;
                                 wret (InternString kv.1, typedPropertyValue normalized)) values)%walk
              newValueWalk with
      | (inl l, _) => inl (mkProperties (sortEntries l))
      | (inr err, _) => inr err
      end
  end.

Definition PLen (p : Properties) : nat := length (entries p).

Fixpoint linearFind (i : nat) (l : list (gostring * propertyValue)) (key : gostring) : nat * bool :=
  match l with
  | [] => (i, false)
  | (k, _) :: l => if strLe key k then (i, bool_decide (k = key)) else linearFind (S i) l key
  end.

(** [slices.BinarySearchFunc]; the interval halves, so its length bounds the loop. *)
Fixpoint bisect (fuel : nat) (l : list (gostring * propertyValue)) (key : gostring) (i j : nat) : nat :=
  match fuel with
  | O => i
  | S fuel =>
      if (i <? j)%nat then
        let h := ((i + j) / 2)%nat in
        match l !! h with
        | Some (k, _) => if strLe key k then bisect fuel l key i h else bisect fuel l key (S h) j
        | None => i
        end
      else i
  end.

Definition binarySearch (l : list (gostring * propertyValue)) (key : gostring) : nat * bool :=
  let i := bisect (length l) l key 0 (length l) in
  (i, match l !! i with Some (k, _) => bool_decide (k = key) | None => false end).

Definition find (p : Properties) (key : gostring) : nat * bool :=
  if (length (entries p) <=? 8)%nat then linearFind 0 (entries p) key
  else binarySearch (entries p) key.

Definition Lookup (p : Properties) (key : gostring) : option value :=
  let '(i, ok) := find p key in
  if ok then option_map (fun e => raw e.2) (entries p !! i) else None.

(** [All] yields the entries in order. *)
Definition PAll (p : Properties) : list (gostring * value) := map (fun e => (e.1, raw e.2)) (entries p).

Definition PSet (p : Properties) (key : gostring) (v : value) : Properties :=
  let '(i, ok) := find p key in
  if ok then mkProperties (alter (fun e => (e.1, typedPropertyValue v)) i (entries p))
  else mkProperties (take i (entries p) ++ (InternString key, typedPropertyValue v) :: drop i (entries p)).

Definition PDelete (p : Properties) (key : gostring) : Properties :=
  let '(i, ok) := find p key in
  if ok then mkProperties (take i (entries p) ++ drop (S i) (entries p)) else p.

Definition CloneDeep (p : Properties) : Properties :=
  mkProperties (map (fun e => (e.1, mkPropertyValue (CloneValue (raw e.2)) (kind e.2))) (entries p)).

Definition CloneMap (p : Properties) : list (gostring * value) :=
  foldl (fun out e => mapInsert e.1 (CloneValue (raw e.2)) out) [] (entries p).

Definition PVector (p : Properties) (key : gostring) : option (option (list N)) :=
  let '(i, ok) := find p key in
  if ok then
    match entries p !! i with
    | Some (_, e) => if bool_decide (kind e = propertyVector)
                     then match raw e with VVector v => Some v | _ => None end
                     else None
    | None => None
    end
  else None.

Fixpoint firstVector (l : list (gostring * propertyValue)) : option (list N) :=
  match l with
  | [] => None
  | (_, e) :: l =>
      if bool_decide (kind e = propertyVector)
      then match raw e with VVector (Some v) => Some v | _ => firstVector l end
      else firstVector l
  end.
Definition FirstVector (p : Properties) : option (list N) := firstVector (entries p).

(** ** The persisted form *)

Definition encodeProperty (key : gostring) (v : value) : walking persistedValue :=
  normalized <~ normalizeProperty key v ;;
  match encodeValue normalized with inl encoded => wret encoded | inr err => wfail err end.

Definition encodePropertyStorage (p : Properties) : list (gostring * persistedValue) + error :=
  ((walk_add (N.of_nat (PLen p)) ;;; walkEntries encodeProperty (PAll p) []) newValueWalk).1.

Definition decodeProperty (kv : gostring * persistedValue) : walking (gostring * propertyValue) :=
  if negb (utf8Valid kv.1) then wfail (ErrNew "property key contains invalid UTF-8"%string)
  else wwrap kv.1 (addBytes (nlen kv.1)) ;;;
       match decodeValue kv.2 with
       | inr err => wfail err
       | inl decoded =>
           normalized <~ wwrap kv.1 (normalizeValue decoded 0) ;;
           wret (InternString kv.1, typedPropertyValue normalized)
       end.

Definition decodePropertyStorage (values : list (gostring * persistedValue)) : Properties + error :=
  match (walk_add (nlen values) ;;; walkEach decodeProperty values) newValueWalk with
  | (inl l, _) => inl (mkProperties (sortEntries l))
  | (inr err, _) => inr err
  end.

(** * Properties are finite maps, and survive storage *)

Implicit Types (l : list (gostring * propertyValue)) (p : Properties).

(** ** Searching *)

(** [i] splits the entries into smaller keys and the others. *)
Definition splitsAt l (key : gostring) (i : nat) : Prop :=
  exists l1 l2, l = l1 ++ l2 /\ i = length l1 /\
    Forall (fun e => strLt e.1 key) l1 /\ Forall (fun e => strLe key e.1 = true) l2.

(** Whether the entry at the split has the key. *)
Definition hit l (key : gostring) (i : nat) : bool :=
  match l !! i with Some (k, _) => bool_decide (k = key) | None => false end.

Lemma sorted_above key k e l :
  keysSorted ((k, e) :: l) -> strLe key k = true -> Forall (fun e => strLe key e.1 = true) ((k, e) :: l).
Proof.
  intros [_ Hk]%keysSorted_cons Hle. constructor; [done|]. rewrite Forall_fmap in Hk.
  eapply Forall_impl; [exact Hk|]. intros [k' e'] [Hk' _]. cbn. by eapply (strLeR_trans key k k').
Qed.

Lemma linearFind_split key l : forall i, keysSorted l ->
  exists n, linearFind i l key = (i + n, hit l key n)%nat /\ splitsAt l key n.
Proof.
  induction l as [|[k e] l IH]; intros i Hs; cbn [linearFind].
  - exists O. rewrite Nat.add_0_r. split; [done|]. by exists [], [].
  - destruct (strLe key k) eqn:E.
    + exists O. rewrite Nat.add_0_r. split; [done|]. exists [], ((k, e) :: l).
      split_and!; [done|done|constructor|by apply sorted_above].
    + pose proof Hs as [Hs' _]%keysSorted_cons.
      destruct (IH (S i) Hs') as (n & -> & l1 & l2 & -> & -> & H1 & H2). exists (S (length l1)).
      split; [f_equal; lia|]. exists ((k, e) :: l1), l2. split_and!; [done|done| |done].
      constructor; [by apply strLe_false|done].
Qed.

Lemma bisect_split key l : keysSorted l -> forall fuel i j,
  (j - i <= fuel)%nat -> (i <= j <= length l)%nat ->
  Forall (fun e => strLt e.1 key) (take i l) -> Forall (fun e => strLe key e.1 = true) (drop j l) ->
  splitsAt l key (bisect fuel l key i j).
Proof.
  intros Hs. induction fuel as [|fuel IH]; intros i j Hf [Hij Hj] H1 H2; cbn [bisect].
  - assert (j = i) as -> by lia. exists (take i l), (drop i l).
    split_and!; [by rewrite take_drop|rewrite length_take; lia|done|done].
  - destruct (Nat.ltb_spec i j) as [Hlt|Hge].
    2:{ assert (j = i) as -> by lia. exists (take i l), (drop i l).
        split_and!; [by rewrite take_drop|rewrite length_take; lia|done|done]. }
    set (h := ((i + j) / 2)%nat).
    assert (Hh : (i <= h < j)%nat).
    { unfold h. split; [apply Nat.div_le_lower_bound; lia|apply Nat.Div0.div_lt_upper_bound; lia]. }
    clearbody h. destruct (lookup_lt_is_Some_2 l h ltac:(lia)) as [[k e] El]. rewrite El.
    assert (Esplit : l = take h l ++ (k, e) :: drop (S h) l) by (by rewrite take_drop_middle).
    assert (Hs' : keysSorted (take h l ++ (k, e) :: drop (S h) l)) by (by rewrite <- Esplit).
    destruct (strLe key k) eqn:E.
    + apply IH; [lia|lia|done|]. rewrite (drop_S _ _ _ El). apply sorted_above; [|done].
      unfold keysSorted in Hs' |- *. rewrite fmap_app in Hs'. by apply StronglySorted_app in Hs' as (_ & _ & ?).
    + apply IH; [lia|lia| |done]. rewrite (take_S_r _ _ _ El).
      apply keysSorted_app in Hs' as (_ & _ & Hlow). rewrite Forall_fmap in Hlow.
      assert (Hk : strLt k key) by (by apply strLe_false).
      apply Forall_app. split; [|by constructor]. eapply Forall_impl; [exact Hlow|].
      intros [k' e'] Hk'. cbn in *. by etrans.
Qed.

Lemma find_split p key : keysSorted (entries p) ->
  exists i, find p key = (i, hit (entries p) key i) /\ splitsAt (entries p) key i.
Proof.
  intros Hs. unfold find. destruct (_ <=? 8)%nat.
  - by apply (linearFind_split key (entries p) 0).
  - exists (bisect (length (entries p)) (entries p) key 0 (length (entries p))). split; [done|].
    apply bisect_split; [done|lia|lia|by rewrite take_0|by rewrite drop_all].
Qed.

(** ** Operations on the entries *)

Lemma mapLookup_split {A} key (l1 l2 : list (gostring * A)) :
  Forall (fun e => strLt e.1 key) l1 -> mapLookup key (l1 ++ l2) = mapLookup key l2.
Proof.
  intros H1. rewrite mapLookup_app, mapLookup_notin; [done|]. intros (e & -> & He)%list_elem_of_fmap.
  rewrite Forall_forall in H1. by apply (strLt_irrefl e.1), H1.
Qed.

(** At the split, the first entry decides the lookup. *)
Lemma mapLookup_head key l2 :
  keysSorted l2 -> Forall (fun e => strLe key e.1 = true) l2 ->
  mapLookup key l2 = match l2 with (k, e) :: _ => if bool_decide (k = key) then Some e else None | [] => None end.
Proof.
  destruct l2 as [|[k e] l2]; [done|]. intros Hs Hle. cbn [mapLookup]. case_bool_decide as Hk; [done|].
  apply mapLookup_notin. apply keysSorted_cons in Hs as [_ Hs]. intros Hin. rewrite Forall_forall in Hs.
  apply Forall_cons in Hle as [Hle _]. cbn in Hle. specialize (Hs _ Hin). destruct Hs as [Hs Hne].
  apply Hne. symmetry. by apply strLeR_antisym.
Qed.

Lemma mapInsert_split {A} key (v : A) (l1 l2 : list (gostring * A)) :
  Forall (fun e => strLt e.1 key) l1 -> mapInsert key v (l1 ++ l2) = l1 ++ mapInsert key v l2.
Proof.
  induction 1 as [|[k w] l1 [Hle Hne] _ IH]; [done|]. cbn [app mapInsert]. cbn in *.
  rewrite bool_decide_false by done. rewrite strLt_not_le by done. by rewrite IH.
Qed.

Lemma filter_keep {A} key (m : list (gostring * A)) : key ∉ m.*1 -> mapDelete key m = m.
Proof.
  unfold mapDelete. induction m as [|[k v] m IH]; [done|]. intros [Hne Hn]%not_elem_of_cons.
  rewrite filter_cons_True by (cbn in *; congruence). f_equal. by apply IH.
Qed.

(** Where the key is, or would be. *)
Lemma find_cases p key :
  keysSorted (entries p) ->
  exists l1 l2, Forall (fun e => strLt e.1 key) l1 /\
    ((exists e, find p key = (length l1, true) /\ entries p = l1 ++ (key, e) :: l2) \/
     (find p key = (length l1, false) /\ entries p = l1 ++ l2 /\ Forall (fun e => strLt key e.1) l2)).
Proof.
  intros Hs. destruct (find_split p key Hs) as (i & -> & l1 & l2 & El & -> & H1 & H2). exists l1.
  unfold hit. rewrite El, lookup_app_r, Nat.sub_diag by done. destruct l2 as [|[k e] l2].
  - exists []. split; [done|]. right. by split_and!.
  - cbn [lookup list_lookup]. destruct (bool_decide (k = key)) eqn:E.
    + apply bool_decide_eq_true in E as ->. exists l2. split; [done|]. left. by exists e.
    + apply bool_decide_eq_false in E. exists ((k, e) :: l2). split; [done|]. right. split_and!; [done|done|].
      rewrite El in Hs. unfold keysSorted in Hs. rewrite fmap_app in Hs.
      apply StronglySorted_app in Hs as (_ & _ & Hs). apply (keysSorted_cons k e l2) in Hs as [_ Hs].
      apply Forall_cons in H2 as [H2 _]. cbn in H2. assert (Hk : strLt key k) by (split; [done|congruence]).
      constructor; [done|]. rewrite Forall_fmap in Hs. eapply Forall_impl; [exact Hs|].
      intros [k' e'] Hk'. cbn in *. by etrans.
Qed.

Lemma above_notin {A} key (l2 : list (gostring * A)) : Forall (fun e => strLt key e.1) l2 -> key ∉ l2.*1.
Proof.
  intros H2 (e & -> & He)%list_elem_of_fmap. rewrite Forall_forall in H2. by apply (strLt_irrefl e.1), H2.
Qed.

Lemma below_notin {A} key (l1 : list (gostring * A)) : Forall (fun e => strLt e.1 key) l1 -> key ∉ l1.*1.
Proof.
  intros H1 (e & -> & He)%list_elem_of_fmap. rewrite Forall_forall in H1. by apply (strLt_irrefl e.1), H1.
Qed.

Lemma mapInsert_above {A} key (v : A) (l2 : list (gostring * A)) : Forall (fun e => strLt key e.1) l2 -> mapInsert key v l2 = (key, v) :: l2.
Proof.
  destruct l2 as [|[k w] l2]; [done|]. intros [[Hle Hne] _]%Forall_cons. cbn in *.
  by rewrite bool_decide_false, Hle by congruence.
Qed.

Lemma Lookup_entries p key :
  keysSorted (entries p) -> Lookup p key = option_map raw (mapLookup key (entries p)).
Proof.
  intros Hs. destruct (find_cases p key Hs) as (l1 & l2 & H1 & [(e & E & El)|(E & El & H2)]);
    unfold Lookup; rewrite E, El, mapLookup_split by done.
  - rewrite lookup_app_r, Nat.sub_diag by done. cbn. by rewrite bool_decide_true.
  - by rewrite mapLookup_notin by (by apply above_notin).
Qed.

Lemma PSet_entries p key v :
  keysSorted (entries p) -> entries (PSet p key v) = mapInsert key (typedPropertyValue v) (entries p).
Proof.
  intros Hs. destruct (find_cases p key Hs) as (l1 & l2 & H1 & [(e & E & El)|(E & El & H2)]);
    unfold PSet; rewrite E, El; cbn [entries]; rewrite mapInsert_split by done.
  - replace (length l1) with (length l1 + 0)%nat by lia. rewrite alter_app_r. cbn. by rewrite bool_decide_true.
  - rewrite take_app_length, drop_app_length, mapInsert_above by done. done.
Qed.

Lemma PDelete_entries p key :
  keysSorted (entries p) -> entries (PDelete p key) = mapDelete key (entries p).
Proof.
  intros Hs. destruct (find_cases p key Hs) as (l1 & l2 & H1 & [(e & E & El)|(E & El & H2)]);
    unfold PDelete; rewrite E, ?El; cbn [entries].
  - rewrite El in Hs. apply keysSorted_app in Hs as (N1 & N2 & _). cbn in N1, N2.
    rewrite take_app_length. replace (S (length l1)) with (length l1 + 1)%nat by lia.
    rewrite <- drop_drop, drop_app_length. cbn [drop]. unfold mapDelete. rewrite filter_app, filter_cons_False by (cbn; congruence).
    fold (mapDelete key l1) (mapDelete key l2). by rewrite !filter_keep.
  - symmetry. rewrite <- El. apply filter_keep. rewrite El, fmap_app.
    apply not_elem_of_app. split; [by apply below_notin|by apply above_notin].
Qed.

Lemma mapDelete_sorted {A} key (m : list (gostring * A)) : keysSorted m -> keysSorted (mapDelete key m).
Proof.
  induction m as [|[k v] m IH]; [done|]. intros [Hs Hk]%keysSorted_cons. unfold mapDelete.
  destruct (decide (k = key)) as [->|Hne].
  - rewrite filter_cons_False by (cbn; congruence). by apply IH.
  - rewrite filter_cons_True by done. apply keysSorted_cons. split; [by apply IH|].
    rewrite Forall_fmap in Hk |- *. rewrite Forall_forall in Hk |- *.
    intros e [_ He]%list_elem_of_filter. by apply Hk.
Qed.

Lemma mapDelete_lookup {A} key k (m : list (gostring * A)) :
  mapLookup k (mapDelete key m) = if bool_decide (k = key) then None else mapLookup k m.
Proof.
  unfold mapDelete. induction m as [|[k' v] m IH]; [by case_bool_decide|].
  destruct (decide (k' = key)) as [->|Hne].
  - rewrite filter_cons_False by (cbn; congruence). rewrite IH. cbn. repeat case_bool_decide; congruence.
  - rewrite filter_cons_True by done. cbn. rewrite IH. repeat case_bool_decide; congruence.
Qed.

(** ** Refinement *)

(** Entries in key order, each with the kind of its value. *)
Definition wfProps p : Prop :=
  keysSorted (entries p) /\ Forall (fun e => e.2 = typedPropertyValue (raw e.2)) (entries p).

(** The properties stand for a finite map. *)
Definition represents p (g : gmap gostring value) : Prop :=
  wfProps p /\ toMap (PAll p) = g.

Lemma PAll_keys p : (PAll p).*1 = (entries p).*1.
Proof. unfold PAll. induction (entries p) as [|[k e] l IH]; [done|]. cbn. f_equal. exact IH. Qed.

Lemma PAll_sorted p : keysSorted (entries p) -> keysSorted (PAll p).
Proof. unfold keysSorted. by rewrite PAll_keys. Qed.

Lemma PAll_lookup p key : mapLookup key (PAll p) = option_map raw (mapLookup key (entries p)).
Proof.
  unfold PAll. induction (entries p) as [|[k e] l IH]; [done|]. cbn. case_bool_decide; [done|exact IH].
Qed.

Lemma represents_lookup p g key : represents p g -> option_map raw (mapLookup key (entries p)) = g !! key.
Proof. intros [_ <-]. by rewrite toMap_lookup, PAll_lookup. Qed.

Lemma represents_intro p g :
  wfProps p -> (forall key, option_map raw (mapLookup key (entries p)) = g !! key) -> represents p g.
Proof. intros Hw Hl. split; [done|]. apply map_eq. intros key. by rewrite toMap_lookup, PAll_lookup. Qed.

Lemma mapInsert_Forall {A} (P : gostring * A -> Prop) key v m :
  P (key, v) -> Forall P m -> Forall P (mapInsert key v m).
Proof.
  intros Hv Hm. induction Hm as [|[k w] m Hk Hm IH]; cbn; [by constructor|].
  case_bool_decide; [by constructor|]. destruct (strLe key k); by repeat constructor.
Qed.

Lemma represents_set p g key v : represents p g -> represents (PSet p key v) (<[key := v]> g).
Proof.
  intros Hr. pose proof Hr as [[Hs Hk] _]. pose proof (PSet_entries p key v Hs) as E. apply represents_intro.
  - split; rewrite E; [by apply mapInsert_sorted|by apply mapInsert_Forall].
  - intros k. rewrite E. destruct (decide (k = key)) as [->|Hne].
    + by rewrite mapLookup_insert, lookup_insert_eq.
    + by rewrite mapLookup_insert_ne, lookup_insert_ne, (represents_lookup p g).
Qed.

Lemma represents_delete p g key : represents p g -> represents (PDelete p key) (delete key g).
Proof.
  intros Hr. pose proof Hr as [[Hs Hk] _]. pose proof (PDelete_entries p key Hs) as E. apply represents_intro.
  - split; rewrite E; [by apply mapDelete_sorted|]. rewrite Forall_forall in Hk |- *.
    intros e [_ He]%list_elem_of_filter. by apply Hk.
  - intros k. rewrite E, mapDelete_lookup. case_bool_decide as Hne.
    + subst. by rewrite lookup_delete_eq.
    + rewrite lookup_delete_ne by done. by apply represents_lookup.
Qed.

(** Sorting entries with distinct keys. *)
#[global] Instance entryLe_trans : Transitive entryLe.
Proof. intros a b c. unfold entryLe. apply strLeR_trans. Qed.
#[global] Instance entryLe_total : Total entryLe.
Proof. intros a b. unfold entryLe. apply strLeR_total. Qed.

Lemma sortEntries_perm l : sortEntries l ≡ₚ l.
Proof. apply (merge_sort_Permutation entryLe). Qed.

Lemma sorted_entries_keys l : StronglySorted entryLe l -> NoDup l.*1 -> keysSorted l.
Proof.
  unfold keysSorted. induction 1 as [|[k e] l Hs IH Hk]; [constructor|]. rewrite fmap_cons, NoDup_cons. intros [Hn Hnd].
  constructor; [by apply IH|]. rewrite Forall_forall in Hk. rewrite Forall_forall. intros k' (e' & -> & He')%list_elem_of_fmap.
  split; [by apply (Hk e')|]. intros E. cbn in *. apply Hn. rewrite E. by apply list_elem_of_fmap_2.
Qed.

Lemma sortEntries_sorted l : NoDup l.*1 -> keysSorted (sortEntries l).
Proof.
  intros Hnd. apply sorted_entries_keys; [|by rewrite sortEntries_perm].
  apply Sorted_StronglySorted; [apply _|]. apply (Sorted_merge_sort entryLe).
Qed.

Lemma sortEntries_mapOf l : NoDup l.*1 -> sortEntries l = mapOf l [].
Proof.
  intros Hnd. apply keysSorted_unique; [by apply sortEntries_sorted|apply mapOf_sorted; constructor|].
  rewrite sortEntries_perm, mapOf_perm; by rewrite app_nil_r.
Qed.

Lemma represents_from m : NoDup m.*1 -> represents (PropertiesFromMap m) (toMap m).
Proof.
  intros Hnd. unfold PropertiesFromMap.
  change (map (fun kv => (kv.1, typedPropertyValue kv.2)) m) with (map (onEntry typedPropertyValue) m).
  assert (Hnd' : NoDup (map (onEntry typedPropertyValue) m).*1) by (by rewrite keys_onEntry).
  apply represents_intro; cbn [entries].
  - split; cbn [entries]; [by apply sortEntries_sorted|]. rewrite sortEntries_perm.
    apply Forall_map_onEntry. cbn. by apply Forall_true.
  - intros key. rewrite sortEntries_mapOf, mapLookup_mapOf, toMap_lookup by done. clear.
    induction m as [|[k v] m IH]; [done|]. cbn. by case_bool_decide.
Qed.

Lemma represents_len p g : represents p g -> PLen p = size g.
Proof.
  intros [[Hs _] <-]. unfold toMap. rewrite map_size_list_to_map by (rewrite PAll_keys; by apply keysSorted_nodup).
  unfold PAll, PLen. by rewrite length_map.
Qed.

Lemma represents_vector p g key : represents p g ->
  PVector p key = match g !! key with Some (VVector v) => Some v | _ => None end.
Proof.
  intros Hr. pose proof Hr as [[Hs Hk] _]. rewrite <- (represents_lookup p g) by done.
  destruct (find_cases p key Hs) as (l1 & l2 & H1 & [(e & E & El)|(E & El & H2)]);
    unfold PVector; rewrite E, El in *; rewrite mapLookup_split by done.
  - rewrite lookup_app_r, Nat.sub_diag by done. cbn. rewrite (bool_decide_true (key = key)) by done. cbn.
    apply Forall_app in Hk as [_ [Hk _]%Forall_cons]. cbn in Hk. rewrite Hk. cbn.
    by destruct (raw e); cbn.
  - by rewrite mapLookup_notin by (by apply above_notin).
Qed.

(** ** Updates *)

Inductive propertyUpdate :=
  | SetProperty (key : gostring) (v : value)
  | DeleteProperty (key : gostring).

Definition applyProperty p (u : propertyUpdate) : Properties :=
  match u with SetProperty key v => PSet p key v | DeleteProperty key => PDelete p key end.

Definition specProperty (g : gmap gostring value) (u : propertyUpdate) : gmap gostring value :=
  match u with SetProperty key v => <[key := v]> g | DeleteProperty key => delete key g end.

Lemma represents_updates us : forall p g,
  represents p g -> represents (foldl applyProperty p us) (foldl specProperty g us).
Proof.
  induction us as [|[key v|key] us IH]; intros p g Hr; [done|apply IH, represents_set, Hr|apply IH, represents_delete, Hr].
Qed.

(** ** Storage *)

Lemma performs_bind_fail {A B} (m : walking A) (k : A -> walking B) e b x e' b' y :
  performs m false e b x -> performs (wbind m k) false e' b' y.
Proof. intros Hm w Hw. destruct (Hm w Hw) as (err & w' & E). unfold wbind. cbn. rewrite E. by eauto. Qed.

Lemma performs_property key v :
  performs (normalizeProperty key v) (utf8Valid key && okV 0 v) (elementsV v) (nlen key + bytesV v) (normV v).
Proof.
  unfold normalizeProperty. eapply performs_eq; [apply performs_guard; eapply performs_bind;
    [apply performs_wrap, performs_addBytes|apply performs_wrap, normalizeValue_performs]|..];
    rewrite ?negb_involutive, ?N.add_0_l; done.
Qed.

(** What the code checks of a set of properties. *)
Definition propsOK (m : list (gostring * value)) : bool :=
  forallb id (map (fun kv => utf8Valid kv.1 && okV 0 kv.2) m) &&
  (nlen m + nsum (map (fun kv => elementsV kv.2) m) <=? maxValueElements) &&
  (nsum (map (fun kv => nlen kv.1 + bytesV kv.2) m) <=? maxValueBytes).

Lemma performs_new {A} (m : walking A) ok e b x :
  performs m ok e b x ->
  if ok && (e <=? maxValueElements) && (b <=? maxValueBytes)
  then (m newValueWalk) = (inl x, advance newValueWalk e b) else exists err w', m newValueWalk = (inr err, w').
Proof. intros Hm. apply (Hm newValueWalk). split_and!; [done|vm_compute; discriminate..]. Qed.

Lemma NormalizeProperties_exact m :
  if propsOK m then NormalizeProperties m = inl (mapOf (map (onEntry normV) m) [])
  else exists err, NormalizeProperties m = inr err.
Proof.
  assert (H : performs (walk_add (nlen m) ;;; walkEntries normalizeProperty m [])
     (forallb id (map (fun kv => utf8Valid kv.1 && okV 0 kv.2) m))
     (nlen m + nsum (map (fun kv => elementsV kv.2) m)) (nsum (map (fun kv => nlen kv.1 + bytesV kv.2) m))
     (mapOf (map (onEntry normV) m) [])).
  { eapply performs_eq; [eapply performs_bind; [apply performs_add|
      apply (performs_entries normalizeProperty (fun kv => utf8Valid kv.1 && okV 0 kv.2) (fun kv => elementsV kv.2)
        (fun kv => nlen kv.1 + bytesV kv.2) normV m []); apply Forall_true; intros kv; apply performs_property]|..];
    rewrite ?N.add_0_l; done. }
  apply performs_new in H. unfold propsOK, NormalizeProperties.
  destruct m as [|kv m]; [done|]. destruct (_ && _ && _); [by rewrite H|].
  destruct H as (err & w & ->). by eauto.
Qed.

Lemma propsOK_perm m m' : m ≡ₚ m' -> propsOK m = propsOK m'.
Proof. intros Hp. unfold propsOK, nlen. by rewrite Hp. Qed.

Lemma performs_encodeProperty key v : wfV v ->
  performs (encodeProperty key v) (utf8Valid key && okV 0 v) (elementsV v) (nlen key + bytesV v) (toP (normV v)).
Proof.
  intros Hw. unfold encodeProperty. pose proof (performs_property key v) as H.
  destruct (utf8Valid key && okV 0 v) eqn:E; [|by eapply performs_bind_fail].
  apply andb_true_iff in E as [_ Ho]. destruct (persist_normal 0 _ (norm_normal v 0 Hw Ho)) as [E _].
  eapply performs_eq; [eapply performs_bind; [exact H|rewrite E; apply performs_ret]|..];
    rewrite ?N.add_0_r; done.
Qed.

Lemma encodePropertyStorage_exact p :
  Forall (fun kv => wfV kv.2) (PAll p) ->
  if propsOK (PAll p)
  then encodePropertyStorage p = inl (mapOf (map (onEntry (fun v => toP (normV v))) (PAll p)) [])
  else exists err, encodePropertyStorage p = inr err.
Proof.
  intros Hw.
  assert (H : performs (walk_add (N.of_nat (PLen p)) ;;; walkEntries encodeProperty (PAll p) [])
     (forallb id (map (fun kv => utf8Valid kv.1 && okV 0 kv.2) (PAll p)))
     (nlen (PAll p) + nsum (map (fun kv => elementsV kv.2) (PAll p)))
     (nsum (map (fun kv => nlen kv.1 + bytesV kv.2) (PAll p)))
     (mapOf (map (onEntry (fun v => toP (normV v))) (PAll p)) [])).
  { eapply performs_eq; [eapply performs_bind; [apply performs_add|
      apply (performs_entries encodeProperty (fun kv => utf8Valid kv.1 && okV 0 kv.2) (fun kv => elementsV kv.2)
        (fun kv => nlen kv.1 + bytesV kv.2) (fun v => toP (normV v)) (PAll p) []);
      eapply Forall_impl; [exact Hw|]; intros kv Hkv; by apply performs_encodeProperty]|..];
    rewrite ?N.add_0_l; [done| |done..]. unfold PLen, PAll. by rewrite nlen_map. }
  apply performs_new in H. unfold propsOK, encodePropertyStorage.
  destruct (_ && _ && _); [by rewrite H|]. destruct H as (err & w & ->). by eauto.
Qed.

Lemma performs_decodeProperty key v : normalAt 0 v ->
  performs (decodeProperty (key, toP v)) (utf8Valid key && okV 0 v) (elementsV v) (nlen key + bytesV v)
    (key, typedPropertyValue v).
Proof.
  intros Hn. unfold decodeProperty. cbn [fst snd]. destruct (persist_normal 0 v Hn) as [_ ->].
  pose proof (normalizeValue_performs v 0) as H. rewrite (normal_norm 0 v Hn) in H.
  eapply performs_eq; [apply performs_guard; eapply performs_bind;
    [apply performs_wrap, performs_addBytes|eapply performs_bind; [apply performs_wrap; exact H|apply performs_ret]]|..];
    rewrite ?negb_involutive, ?N.add_0_l, ?N.add_0_r, ?andb_true_r; done.
Qed.

Lemma performs_each_map {A B C} (f : B -> walking C) (h : A -> B) ok e b g (l : list A) :
  Forall (fun x => performs (f (h x)) (ok x) (e x) (b x) (g x)) l ->
  performs (walkEach f (map h l)) (forallb id (map ok l)) (nsum (map e l)) (nsum (map b l)) (map g l).
Proof.
  induction 1 as [|x l Hx _ IH]; [apply performs_ret|]. cbn [walkEach map forallb nsum foldr].
  eapply performs_eq; [eapply performs_bind; [exact Hx|eapply performs_bind; [exact IH|apply performs_ret]]|..];
    rewrite ?andb_true_r, ?N.add_0_r; done.
Qed.

(** Persisted normal values, in any order, decode to the sorted properties. *)
Lemma decodePropertyStorage_exact m :
  NoDup m.*1 -> Forall (fun kv => normalAt 0 kv.2) m -> propsOK m = true ->
  decodePropertyStorage (map (onEntry toP) m) = inl (mkProperties (mapOf (map (onEntry typedPropertyValue) m) [])).
Proof.
  intros Hnd Hn Hok.
  assert (H : performs (walk_add (nlen (map (onEntry toP) m)) ;;; walkEach decodeProperty (map (onEntry toP) m))
     (forallb id (map (fun kv => utf8Valid kv.1 && okV 0 kv.2) m))
     (nlen m + nsum (map (fun kv => elementsV kv.2) m)) (nsum (map (fun kv => nlen kv.1 + bytesV kv.2) m))
     (map (onEntry typedPropertyValue) m)).
  { rewrite nlen_map. eapply performs_eq; [eapply performs_bind; [apply performs_add|
      apply (performs_each_map decodeProperty (onEntry toP) (fun kv => utf8Valid kv.1 && okV 0 kv.2)
        (fun kv => elementsV kv.2) (fun kv => nlen kv.1 + bytesV kv.2) (onEntry typedPropertyValue) m);
      eapply Forall_impl; [exact Hn|]; intros [k v] Hkv; by apply performs_decodeProperty]|..];
    rewrite ?N.add_0_l; done. }
  apply performs_new in H. unfold propsOK in Hok. rewrite Hok in H. unfold decodePropertyStorage. rewrite H.
  by rewrite sortEntries_mapOf by (by rewrite keys_onEntry).
Qed.

(** The properties with every value in normal form. *)
Definition normProps p : Properties :=
  mkProperties (map (fun e => (e.1, typedPropertyValue (normV (raw e.2)))) (entries p)).

Lemma normProps_entries p :
  keysSorted (entries p) ->
  mapOf (map (onEntry typedPropertyValue) (map (onEntry normV) (PAll p))) [] = entries (normProps p).
Proof.
  intros Hs. unfold PAll, normProps, onEntry. cbn [entries]. rewrite !map_map. cbn [fst snd].
  apply mapOf_id. unfold keysSorted in *.
  assert (E : (map (fun e => (e.1, typedPropertyValue (normV (raw e.2)))) (entries p)).*1 = (entries p).*1).
  { clear. induction (entries p) as [|[k e] l IH]; [done|]. cbn. f_equal. exact IH. }
  by rewrite E.
Qed.

Lemma normProps_normal p :
  Forall (fun e => e.2 = typedPropertyValue (raw e.2)) (entries p) -> Forall (fun kv => normalAt 0 kv.2) (PAll p) ->
  normProps p = p.
Proof.
  unfold normProps, PAll. rewrite List.Forall_map. destruct p as [l]. cbn [entries]. intros Hk Hn. f_equal.
  rewrite <- (map_id l) at 2. apply map_ext_Forall. revert Hk Hn. rewrite !Forall_forall. intros Hk Hn [k e] He.
  specialize (Hn _ He). specialize (Hk _ He). cbn in *. by rewrite (normal_norm 0 _ Hn), <- Hk.
Qed.

Lemma propsOK_norm m : Forall (fun kv => wfV kv.2) m -> propsOK m = true -> propsOK (map (onEntry normV) m) = true.
Proof.
  intros Hw Hok. unfold propsOK in *. apply andb_true_iff in Hok as [[Ho He]%andb_true_iff Hb].
  rewrite nlen_map.
  rewrite (map_onEntry_ext (fun kv => elementsV kv.2) (fun kv => elementsV kv.2)), He, andb_true_r.
  2:{ eapply Forall_impl; [exact Hw|]. intros kv Hkv. by apply elementsV_norm. }
  rewrite (map_onEntry_ext (fun kv => nlen kv.1 + bytesV kv.2) (fun kv => nlen kv.1 + bytesV kv.2)), Hb, andb_true_r.
  2:{ eapply Forall_impl; [exact Hw|]. intros kv Hkv. cbn. by rewrite bytesV_norm. }
  apply okV_entries in Ho as [Hu Ho]. apply okV_entries. rewrite !List.Forall_map. cbn. split; [done|].
  revert Hw Ho. rewrite !Forall_forall. intros Hw Ho kv Hkv. exact (normal_ok _ _ (norm_normal _ 0 (Hw _ Hkv) (Ho _ Hkv))).
Qed.

Lemma storage_roundtrip p stored stored' :
  wfProps p -> Forall (fun kv => wfV kv.2) (PAll p) ->
  encodePropertyStorage p = inl stored -> stored' ≡ₚ stored ->
  decodePropertyStorage stored' = inl (normProps p).
Proof.
  intros [Hs Hk] Hw He Hp. pose proof (encodePropertyStorage_exact p Hw) as Hx.
  destruct (propsOK (PAll p)) eqn:Hok; [|destruct Hx; congruence].
  rewrite Hx in He. injection He as <-.
  assert (Hnd : NoDup (PAll p).*1) by (rewrite PAll_keys; by apply keysSorted_nodup).
  rewrite mapOf_entries in Hp by done.
  replace (map (onEntry (fun v => toP (normV v))) (PAll p)) with (map (onEntry toP) (map (onEntry normV) (PAll p))) in Hp
    by (by rewrite map_map).
  apply Permutation_map_inv in Hp as (m & -> & Hp).
  assert (Hndm : NoDup m.*1) by (rewrite <- Hp, keys_onEntry; done).
  rewrite decodePropertyStorage_exact.
  - rewrite (mapOf_permutation _ (map (onEntry typedPropertyValue) (map (onEntry normV) (PAll p)))).
    + by rewrite normProps_entries.
    + by rewrite keys_onEntry.
    + by rewrite Hp.
  - done.
  - rewrite <- Hp. apply Forall_map_onEntry. cbn. unfold propsOK in Hok.
    apply andb_true_iff in Hok as [[Ho _]%andb_true_iff _]. apply okV_entries in Ho as [_ Ho].
    revert Hw Ho. rewrite !Forall_forall. intros Hw Ho kv Hkv. by apply norm_normal; auto.
  - rewrite <- (propsOK_perm _ _ Hp). by apply propsOK_norm.
Qed.
