(* ===== verification/PageRecords.v ===== *)
(** * Page records (internal/store/page_records.go, entity_id.go, store.go)

    A node or edge in the page store is one record: a version byte, a kind byte, a
    checksum and the binary encoding of the entity. *)
From S2P Require Import Prelude.
From S2P Require Import Bits.
From S2P Require Import GoBytes.
From S2P Require Import BinaryCodec.
From S2P Require Import BinaryValue.
From S2P Require Import BinaryRecords.
From S2P Require Import Values.
From S2P Require Import Properties.
From Stdlib Require Strings.String.
Import String.StringSyntax.

(** ** [crc32.ChecksumIEEE], bit by bit *)

Definition crcStep (crc : N) : N :=
  if N.odd crc then N.lxor (N.shiftr crc 1) 3988292384 else N.shiftr crc 1.
Definition crcByte (crc : N) (b : byte) : N := Nat.iter 8 crcStep (N.lxor crc (byteN b)).
Definition ChecksumIEEE (data : list byte) : N := N.lxor (foldl crcByte 4294967295 data) 4294967295.

(** ** Entities *)

Definition MaxEntityID : N := 2 ^ 63 - 1.
Definition EntityIDExhausted : N := MaxEntityID + 1.

Definition ValidateEntityID (id : N) : option error :=
  if (id =? 0) || (MaxEntityID <? id) then Some (ErrNew "entity ID out of range"%string) else None.

Definition ValidateIDHighWater (next : N) : option error :=
  if (next =? 0) || (EntityIDExhausted <? next)
  then Some (ErrNew "entity ID high-water mark out of range"%string) else None.

(** [seen] holds the labels before. *)
Fixpoint validateLabels (seen labels : list gostring) : option error :=
  match labels with
  | [] => None
  | label :: labels =>
      if bool_decide (label = []) then Some (ErrNew "labels must be non-empty"%string)
      else if negb (utf8Valid label) then Some (ErrNew "labels must contain valid UTF-8"%string)
      else if bool_decide (label ∈ seen) then Some (ErrNew "duplicate label"%string)
      else validateLabels (label :: seen) labels
  end.
Definition ValidateCreateLabels (labels : slice gostring) : option error := validateLabels [] (elems labels).

Definition ValidateEdgeType (edgeType : gostring) : option error :=
  if bool_decide (edgeType = []) then Some (ErrNew "edge type must be non-empty"%string)
  else if negb (utf8Valid edgeType) then Some (ErrNew "edge type must contain valid UTF-8"%string)
  else None.

Record NodeRecord := mkNode { n_ID : N; n_Labels : slice gostring; n_Properties : Properties }.
Record EdgeRecord := mkEdge {
  e_ID : N; e_SourceID : N; e_TargetID : N; e_Type : gostring; e_Properties : Properties }.

(** ** The record *)

Definition pageRecordVersion : byte := x01.
Definition pageNodeRecord : byte := x01.
Definition pageEdgeRecord : byte := x02.

(** [if err != nil { return nil, err }] and the rest. *)
Definition unless {A} (err : option error) (k : A + error) : A + error :=
  match err with Some err => inr err | None => k end.
Definition sbind {A B} (m : A + error) (k : A -> B + error) : B + error :=
  match m with inr err => inr err | inl x => k x end.

Definition encodePageRecordBounded (recordKind : byte) (maxBytes : N)
    (encode : binaryEncoder (list byte) -> binaryEncoder (list byte)) : list byte + error :=
  let output := [pageRecordVersion; recordKind; x00; x00; x00; x00] in
  let encoder := encode (mkEncoder output (multiplySaturated maxBytes 2) 0 None) in
  match e_err encoder with
  | Some err => inr err
  | None =>
      let data := out encoder in
      if maxBytes <? nlen data then inr (ErrLoadResourceLimit "page record exceeds limit"%string)
      else inl (take 2 data ++ PutUint32 (ChecksumIEEE (drop 6 data)) ++ drop 6 data)
  end.

Definition decodePageRecordPayload (data : list byte) (recordKind : byte) (maxBytes : N) : list byte + error :=
  if maxBytes <? nlen data then inr (ErrLoadResourceLimit "page record exceeds limit"%string)
  else if (nlen data <? 6) || negb (bool_decide (data !! 0%nat = Some pageRecordVersion))
          || negb (bool_decide (data !! 1%nat = Some recordKind))
  then inr (ErrNew "invalid page record header"%string)
  else if negb (getBE (take 4 (drop 2 data)) =? ChecksumIEEE (drop 6 data))
  then inr (ErrNew "page record checksum mismatch"%string)
  else inl (drop 6 data).

Definition decodePageRecord (data : list byte) (recordKind : byte) (maxBytes : N) : binaryDecoder + error :=
  sbind (decodePageRecordPayload data recordKind maxBytes) (fun payload => inl (newBinaryDecoderBytes payload maxBytes)).

(** [d.admitAllocation = admit] *)
Definition withAdmission (d : binaryDecoder) (callback : option (list N -> N -> option error)) : binaryDecoder :=
  mkDecoder (d_data d) (input d) (remaining d) (allocationLeft d) callback (d_log d) (d_err d).

(** ** Nodes *)

Definition encodePageNodeBounded (node : option NodeRecord) (maxBytes : N) : list byte + error :=
  match node with
  | None => inr (ErrNew "nil page node"%string)
  | Some node =>
      unless (ValidateEntityID (n_ID node))
        (unless (ValidateCreateLabels (n_Labels node))
          (sbind (encodePropertyStorage (n_Properties node)) (fun properties =>
            encodePageRecordBounded pageNodeRecord maxBytes (fun e =>
              enc_node e (mkPNode (n_ID node) (n_Labels node) (Some properties))))))
  end.

Definition decodePageNodeAdmitted (data : list byte) (id maxBytes : N)
    (callback : option (list N -> N -> option error)) : NodeRecord + error :=
  sbind (decodePageRecord data pageNodeRecord maxBytes) (fun d =>
    let '(node, d) := dec_node (withAdmission d callback) in
    unless (option_map (ErrWrap []) (finish d))
      (if negb (pn_ID node =? id) then inr (ErrNew "page node key does not match record"%string)
       else unless (ValidateEntityID id)
              (unless (ValidateCreateLabels (pn_Labels node))
                (sbind (decodePropertyStorage (elems (pn_Properties node))) (fun properties =>
                  inl (mkNode id (pn_Labels node) properties)))))).

Definition decodePageNode (data : list byte) (id maxBytes : N) : NodeRecord + error :=
  decodePageNodeAdmitted data id maxBytes None.

(** ** Edges *)

(** The ids of an edge, checked in turn. *)
Definition validateIDs (ids : list N) : option error :=
  foldr (fun id rest => match ValidateEntityID id with Some err => Some err | None => rest end) None ids.

Definition encodePageEdgeBounded (edge : option EdgeRecord) (maxBytes : N) : list byte + error :=
  match edge with
  | None => inr (ErrNew "nil page edge"%string)
  | Some edge =>
      unless (validateIDs [e_ID edge; e_SourceID edge; e_TargetID edge])
        (unless (ValidateEdgeType (e_Type edge))
          (sbind (encodePropertyStorage (e_Properties edge)) (fun properties =>
            encodePageRecordBounded pageEdgeRecord maxBytes (fun e =>
              enc_edge e (mkPEdge (e_ID edge) (e_SourceID edge) (e_TargetID edge) (e_Type edge) (Some properties))))))
  end.

Definition decodePageEdgeAdmitted (data : list byte) (id maxBytes : N)
    (callback : option (list N -> N -> option error)) : EdgeRecord + error :=
  sbind (decodePageRecord data pageEdgeRecord maxBytes) (fun d =>
    let '(edge, d) := dec_edge (withAdmission d callback) in
    unless (option_map (ErrWrap []) (finish d))
      (if negb (pe_ID edge =? id) then inr (ErrNew "page edge key does not match record"%string)
       else unless (validateIDs [pe_ID edge; pe_SourceID edge; pe_TargetID edge])
              (unless (ValidateEdgeType (pe_Type edge))
                (sbind (decodePropertyStorage (elems (pe_Properties edge))) (fun properties =>
                  inl (mkEdge id (pe_SourceID edge) (pe_TargetID edge) (pe_Type edge) properties)))))).

Definition decodePageEdge (data : list byte) (id maxBytes : N) : EdgeRecord + error :=
  decodePageEdgeAdmitted data id maxBytes None.

Example crc_check : ChecksumIEEE [x31; x32; x33; x34; x35; x36; x37; x38; x39] = 3421780262.
Proof. vm_compute. reflexivity. Qed.
