(* ===== verification/PageRecordsSpec.v ===== *)
(** * The checksum detects every single-byte change

    Further down: every page record the writer accepts can be read back. *)
From S2P Require Import Prelude.
From S2P Require Import Bits.
From S2P Require Import GoBytes.
From S2P Require Import BinaryCodec.
From S2P Require Import BinaryCodecSpec.
From S2P Require Import BinaryValue.
From S2P Require Import BinaryValueSpec.
From S2P Require Import BinaryRecords.
From S2P Require Import BinaryRecordsSpec.
From S2P Require Import GoMaps.
From S2P Require Import Values.
From S2P Require Import ValuesSpec.
From S2P Require Import Properties.
From S2P Require Import PageRecords.

Lemma lxor_lt a b n : a < 2 ^ n -> b < 2 ^ n -> N.lxor a b < 2 ^ n.
Proof. intros Ha Hb. apply testbit_bound. intros m Hm. by rewrite N.lxor_spec, !(testbit_above _ n). Qed.

Lemma lxor_inj a b c : N.lxor a c = N.lxor b c -> a = b.
Proof.
  intros E. apply (f_equal (fun x => N.lxor x c)) in E.
  by rewrite !N.lxor_assoc, N.lxor_nilpotent, !N.lxor_0_r in E.
Qed.

Lemma crcStep_lt c : c < 2 ^ 32 -> crcStep c < 2 ^ 32.
Proof.
  intros Hc. assert (Hs : N.shiftr c 1 < 2 ^ 32).
  { rewrite N.shiftr_div_pow2. eapply N.le_lt_trans; [apply N.Div0.div_le_upper_bound|exact Hc]. lia. }
  unfold crcStep. destruct (N.odd c); [|done]. apply lxor_lt; [done|vm_compute; reflexivity].
Qed.

(** The top bit of the result is the bit that was shifted out. *)
Lemma crcStep_top c : c < 2 ^ 32 -> N.testbit (crcStep c) 31 = N.odd c.
Proof.
  intros Hc. assert (Hs : N.testbit (N.shiftr c 1) 31 = false).
  { rewrite N.shiftr_spec'. by apply (testbit_above _ 32). }
  unfold crcStep. destruct (N.odd c); [|done]. by rewrite N.lxor_spec, Hs.
Qed.

Lemma crcStep_inj c c' : c < 2 ^ 32 -> c' < 2 ^ 32 -> crcStep c = crcStep c' -> c = c'.
Proof.
  intros Hc Hc' E. pose proof (crcStep_top c Hc) as T. rewrite E, (crcStep_top c' Hc') in T.
  assert (Es : N.shiftr c 1 = N.shiftr c' 1).
  { unfold crcStep in E. rewrite T in E. destruct (N.odd c); [by apply lxor_inj in E|done]. }
  rewrite (N.div2_odd c), (N.div2_odd c'), !N.div2_spec, Es, T. done.
Qed.

Lemma crcSteps_inj n : forall c c', c < 2 ^ 32 -> c' < 2 ^ 32 ->
  Nat.iter n crcStep c < 2 ^ 32 /\ (Nat.iter n crcStep c = Nat.iter n crcStep c' -> c = c').
Proof.
  induction n as [|n IH]; intros c c' Hc Hc'; [done|]. cbn [Nat.iter].
  destruct (IH c c' Hc Hc') as [H1 H2]. destruct (IH c' c Hc' Hc) as [H1' _].
  split; [by apply crcStep_lt|]. intros E. apply H2. by apply crcStep_inj.
Qed.

Lemma byte_lt32 b : byteN b < 2 ^ 32.
Proof. pose proof (byteN_bound b). change (2 ^ 32) with 4294967296. lia. Qed.

Lemma crcByte_lt c b : c < 2 ^ 32 -> crcByte c b < 2 ^ 32.
Proof. intros Hc. apply (crcSteps_inj 8 _ 0); [|done]. apply lxor_lt; [done|apply byte_lt32]. Qed.

Lemma crcByte_inj c c' b b' : c < 2 ^ 32 -> c' < 2 ^ 32 -> crcByte c b = crcByte c' b' ->
  N.lxor c (byteN b) = N.lxor c' (byteN b').
Proof. intros Hc Hc'. apply crcSteps_inj; apply lxor_lt; done || apply byte_lt32. Qed.

Lemma crc_fold_lt l : forall c, c < 2 ^ 32 -> foldl crcByte c l < 2 ^ 32.
Proof. induction l as [|b l IH]; intros c Hc; [done|]. apply IH. by apply crcByte_lt. Qed.

Lemma crc_fold_inj l : forall c c', c < 2 ^ 32 -> c' < 2 ^ 32 ->
  foldl crcByte c l = foldl crcByte c' l -> c = c'.
Proof.
  induction l as [|b l IH]; intros c c' Hc Hc' E; [done|]. cbn in E.
  apply IH in E; [|by apply crcByte_lt..]. apply crcByte_inj in E; [|done..]. by apply lxor_inj in E.
Qed.

Lemma ChecksumIEEE_lt data : ChecksumIEEE data < 2 ^ 32.
Proof. apply lxor_lt; [|vm_compute; reflexivity]. apply crc_fold_lt. vm_compute; reflexivity. Qed.

(** Two inputs that differ in one byte have different checksums. *)
Lemma ChecksumIEEE_byte l1 b b' l2 :
  ChecksumIEEE (l1 ++ b :: l2) = ChecksumIEEE (l1 ++ b' :: l2) -> b = b'.
Proof.
  unfold ChecksumIEEE. intros E%lxor_inj. rewrite !foldl_app in E. cbn [foldl] in E.
  assert (Hc : foldl crcByte 4294967295 l1 < 2 ^ 32) by (apply crc_fold_lt; vm_compute; reflexivity).
  apply crc_fold_inj in E; [|by apply crcByte_lt..]. apply crcByte_inj in E; [|done..].
  rewrite !(N.lxor_comm (foldl _ _ _)) in E. by apply lxor_inj, byteN_inj in E.
Qed.

(** * Every page record the writer accepts can be read back *)

(** ** The envelope *)

Definition recordBytes (recordKind : byte) (payload : list byte) : list byte :=
  [pageRecordVersion; recordKind] ++ PutUint32 (ChecksumIEEE payload) ++ payload.

Lemma PutUint32_length x : length (PutUint32 x) = 4%nat.
Proof. done. Qed.

Lemma recordBytes_length recordKind payload : nlen (recordBytes recordKind payload) = 6 + nlen payload.
Proof. unfold recordBytes. rewrite !nlen_app. unfold nlen. rewrite PutUint32_length. cbn [length]. lia. Qed.

Lemma recordBytes_drop recordKind payload : drop 6 (recordBytes recordKind payload) = payload.
Proof. done. Qed.

Lemma decode_envelope recordKind payload maxBytes :
  nlen (recordBytes recordKind payload) <= maxBytes ->
  decodePageRecordPayload (recordBytes recordKind payload) recordKind maxBytes = inl payload.
Proof.
  intros Hl. unfold decodePageRecordPayload. rewrite (proj2 (N.ltb_ge _ _)) by done.
  pose proof (recordBytes_length recordKind payload) as El.
  rewrite (proj2 (N.ltb_ge _ _)) by lia. cbn [orb]. rewrite recordBytes_drop.
  assert (Hc : getBE (take 4 (drop 2 (recordBytes recordKind payload))) = ChecksumIEEE payload).
  { change (take 4 (drop 2 (recordBytes recordKind payload))) with (putBE 4 (ChecksumIEEE payload)).
    apply getBE_put. apply ChecksumIEEE_lt. }
  rewrite Hc, N.eqb_refl.
  change (recordBytes recordKind payload !! 0%nat) with (Some pageRecordVersion).
  change (recordBytes recordKind payload !! 1%nat) with (Some recordKind).
  by rewrite !bool_decide_true.
Qed.

Section envelope.
Context {A : Type} (c : Codec A).
Hypothesis Hres : forall x, nsum (reserved x) = admitted x.

(** A record that was written fits the reader's limit and allocation budget. *)
Lemma encode_envelope recordKind maxBytes x data :
  valid x -> maxBytes <= max_uint64 ->
  encodePageRecordBounded recordKind maxBytes (fun e => cenc e x) = inl data ->
  data = recordBytes recordKind (wire x) /\ nlen data <= maxBytes /\
  ready (newBinaryDecoderBytes (wire x) maxBytes) (wire x) (reserved x).
Proof.
  intros Hv Hm. unfold encodePageRecordBounded.
  set (e := mkEncoder _ (multiplySaturated maxBytes 2) _ _). assert (Hlim : allocationLimit e = multiplySaturated maxBytes 2) by done.
  assert (Hmul : multiplySaturated maxBytes 2 = N.min (maxBytes * 2) max_uint64)
    by (apply multiplySaturated_spec; unfold max_uint64 in *; lia).
  assert (Hw : wfE e).
  { split; [rewrite Hlim, Hmul; unfold max_uint64; lia|]. right. cbn. lia. }
  destruct (cenc_ok e x Hv (fun _ => Hw)) as [(_ & Hf & ->)|[He _]].
  2:{ destruct (e_err _); [done|]. by destruct He. }
  cbn [emit e_err out]. destruct (N.ltb_spec maxBytes (nlen (out e ++ wire x))) as [|Hlen]; [discriminate|].
  intros [= <-]. change (out e ++ wire x) with ([pageRecordVersion; recordKind; x00; x00; x00; x00] ++ wire x) in *.
  rewrite nlen_app in Hlen. change (nlen [pageRecordVersion; recordKind; x00; x00; x00; x00]) with 6 in Hlen.
  match goal with |- ?D = _ /\ _ => change D with (recordBytes recordKind (wire x)) end.
  split; [done|]. split; [rewrite recordBytes_length; lia|].
  assert (Hfit : nsum (reserved x) <= multiplySaturated maxBytes 2).
  { rewrite Hres. destruct Hf as [Hz|Hf]; [rewrite Hlim, Hmul in Hz; unfold max_uint64 in Hz; lia|]. rewrite Hlim in Hf. cbn in Hf. lia. }
  split; cbn; try done.
  - exists []. by rewrite app_nil_r.
  - unfold max_uint64 in *. lia.
  - rewrite Hmul. unfold max_uint64. lia.
  - clear. generalize (@nil N). induction (reserved x) as [|r rs IH]; intros log; [done|]. split; [done|]. apply IH.
Qed.
End envelope.

(** ** What is reserved is what was admitted *)

Lemma strings_reserved (v : slice gostring) : nsum (reserved v) = admitted v.
Proof.
  cbn [reserved admitted codec_strings codec_slice]. unfold reserves_slice, admits_slice. destruct v as [l|]; [|reflexivity].
  rewrite nsum_app. unfold reserves, admits. rewrite (nsum_concat reserved admitted).
  - cbn [nsum foldr slen]. unfold nsum. lia.
  - intros s. cbn. lia.
Qed.

Lemma properties_reserved (v : properties) : nsum (reserved v) = admitted v.
Proof.
  cbn [reserved admitted codec_properties]. apply nsum_reserveMany. intros [k x].
  unfold entryReserve, entryAdmit. rewrite nsum_app, reserved_admitted. cbn [fst snd].
  generalize (admittedV maxLevels x). intros a. unfold nsum. cbn [foldr]. lia.
Qed.

Lemma node_reserved (x : persistedNode) : nsum (reserved x) = admitted x.
Proof.
  cbn [reserved admitted codec_node]. rewrite !nsum_app. rewrite strings_reserved, properties_reserved. reflexivity.
Qed.

Lemma edge_reserved (x : persistedEdge) : nsum (reserved x) = admitted x.
Proof.
  cbn [reserved admitted codec_edge]. rewrite !nsum_app. rewrite properties_reserved.
  generalize (admitted (pe_Properties x)). intros a. cbn [reserved admitted codec_u codec_str]. unfold nsum. cbn [foldr]. lia.
Qed.

(** ** Validity of what is stored *)

Lemma ValidateEntityID_bound id : ValidateEntityID id = None -> 0 < id /\ id < 2 ^ 63.
Proof.
  unfold ValidateEntityID, MaxEntityID. destruct (N.eqb_spec id 0), (N.ltb_spec (2 ^ 63 - 1) id); cbn; try done.
  intros _. lia.
Qed.

Lemma validateLabels_utf8 labels : forall seen,
  validateLabels seen labels = None -> Forall (fun s => utf8Valid s = true) labels.
Proof.
  induction labels as [|s labels IH]; intros seen; cbn [validateLabels]; [constructor|].
  case_bool_decide; [done|]. destruct (utf8Valid s) eqn:E; [|done]. cbn [negb].
  case_bool_decide; [done|]. intros Hl. constructor; [done|by eapply IH].
Qed.

Lemma ValidateEdgeType_utf8 s : ValidateEdgeType s = None -> utf8Valid s = true.
Proof. unfold ValidateEdgeType. case_bool_decide; [done|]. by destruct (utf8Valid s). Qed.

Lemma labels_valid (labels : slice gostring) :
  slen labels < maxLen -> Forall (fun s => nlen s < maxLen) (elems labels) ->
  ValidateCreateLabels labels = None -> valid labels.
Proof.
  intros Hn Hl Hv. apply validateLabels_utf8 in Hv. cbn [valid codec_strings codec_slice valid_slice].
  destruct labels as [l|]; [|done]. split; [done|]. cbn in *. revert Hl Hv. rewrite !Forall_forall.
  intros Hl Hv s Hs. split; auto.
Qed.

(** The values of an entity, as Go holds them. *)
Definition goodProps (p : Properties) : Prop := wfProps p /\ Forall (fun kv => wfV kv.2) (PAll p).

Lemma stored_valid p stored :
  goodProps p -> encodePropertyStorage p = inl stored -> valid (Some stored : properties).
Proof.
  intros [[Hs Hk] Hw] He. pose proof (encodePropertyStorage_exact p Hw) as Hx.
  destruct (propsOK (PAll p)) eqn:Hok; [|destruct Hx; congruence].
  rewrite Hx in He. injection He as <-. pose proof limits_lt as [LE LB].
  assert (Hnd : NoDup (PAll p).*1) by (rewrite PAll_keys; by apply keysSorted_nodup).
  unfold propsOK in Hok. apply andb_true_iff in Hok as [[Ho Hne]%andb_true_iff Hnb].
  apply N.leb_le in Hne, Hnb. apply okV_entries in Ho as [Hu Ho].
  assert (Hp := mapOf_entries (fun v => toP (normV v)) (PAll p) Hnd).
  change (validMap (validV maxLevels) (Some (mapOf (map (onEntry (fun v => toP (normV v))) (PAll p)) []))).
  split; [split|apply mapOf_sorted; constructor].
  - assert (E : nlen (mapOf (map (onEntry (fun v => toP (normV v))) (PAll p)) []) = nlen (PAll p))
      by (unfold nlen; by rewrite Hp, length_map). rewrite E. lia.
  - apply Forall_mapOf; [done|]. revert Hw Hu Ho. rewrite !Forall_forall. intros Hw Hu Ho kv Hkv.
    pose proof (nsum_elem (fun kv => elementsV kv.2) _ _ Hkv) as Hx1.
    pose proof (nsum_elem (fun kv => nlen kv.1 + bytesV kv.2) _ _ Hkv) as Hx2. cbn beta in Hx1, Hx2.
    destruct (norm_normal kv.2 0 (Hw _ Hkv) (Ho _ Hkv)) as [Hwn Htn Hon _].
    split; [split; [cbn; lia|exact (Hu _ Hkv)]|]. cbn [snd].
    apply (valid_toP _ maxLevels 0); [done|done|done|rewrite elementsV_norm by auto; lia|
      rewrite bytesV_norm by auto; lia|done].
Qed.

(** ** Nodes and edges *)

Definition normNode (n : NodeRecord) : NodeRecord := mkNode (n_ID n) (n_Labels n) (normProps (n_Properties n)).
Definition normEdge (x : EdgeRecord) : EdgeRecord :=
  mkEdge (e_ID x) (e_SourceID x) (e_TargetID x) (e_Type x) (normProps (e_Properties x)).

Lemma unless_inl {A} err (k : A + error) x : unless err k = inl x -> err = None /\ k = inl x.
Proof. by destruct err. Qed.

Lemma sbind_inl {A B} (m : A + error) (k : A -> B + error) y : sbind m k = inl y -> exists x, m = inl x /\ k x = inl y.
Proof. destruct m; [by eauto|done]. Qed.

Lemma withAdmission_none d : admitAllocation d = None -> withAdmission d None = d.
Proof. destruct d. cbn. by intros ->. Qed.

Lemma finish_all w maxBytes rs : finish (eat (newBinaryDecoderBytes w maxBytes) w rs) = None.
Proof. unfold finish, eat. cbn [d_err remaining newBinaryDecoderBytes]. by rewrite N.sub_diag. Qed.

Lemma node_roundtrip node maxBytes data :
  goodProps (n_Properties node) -> slen (n_Labels node) < maxLen ->
  Forall (fun s => nlen s < maxLen) (elems (n_Labels node)) -> maxBytes <= max_uint64 ->
  encodePageNodeBounded (Some node) maxBytes = inl data ->
  decodePageNode data (n_ID node) maxBytes = inl (normNode node).
Proof.
  intros Hp Hn Hl Hm He. unfold encodePageNodeBounded in He.
  apply unless_inl in He as [Hid He]. apply unless_inl in He as [Hlab He].
  apply sbind_inl in He as (stored & Hst & He).
  set (x := mkPNode (n_ID node) (n_Labels node) (Some stored)) in *.
  assert (Hv : valid x).
  { pose proof (ValidateEntityID_bound _ Hid) as [_ Hb].
    assert (H1 : valid (n_ID node)) by (change (n_ID node < 2 ^ 64); lia).
    exact (conj H1 (conj (labels_valid _ Hn Hl Hlab) (stored_valid _ _ Hp Hst))). }
  destruct (encode_envelope codec_node node_reserved pageNodeRecord maxBytes x data Hv Hm He) as (-> & Hlen & Hr).
  unfold decodePageNode, decodePageNodeAdmitted, decodePageRecord.
  rewrite decode_envelope by done. cbn [sbind]. rewrite withAdmission_none by done.
  pose proof (@cdec_ok _ codec_node _ x Hv Hr) as Hd. change (@cdec _ codec_node) with dec_node in Hd. rewrite Hd.
  rewrite finish_all. cbn [option_map unless x pn_ID pn_Labels pn_Properties].
  rewrite N.eqb_refl. cbn [negb]. rewrite Hid, Hlab. cbn [unless].
  change (elems (Some stored)) with stored.
  rewrite (storage_roundtrip (n_Properties node) stored stored); [done|apply Hp|apply Hp|done|done].
Qed.

Lemma edge_roundtrip edge maxBytes data :
  goodProps (e_Properties edge) -> nlen (e_Type edge) < maxLen -> maxBytes <= max_uint64 ->
  encodePageEdgeBounded (Some edge) maxBytes = inl data ->
  decodePageEdge data (e_ID edge) maxBytes = inl (normEdge edge).
Proof.
  intros Hp Hn Hm He. unfold encodePageEdgeBounded in He.
  apply unless_inl in He as [Hids He]. apply unless_inl in He as [Hty He].
  apply sbind_inl in He as (stored & Hst & He).
  set (x := mkPEdge (e_ID edge) (e_SourceID edge) (e_TargetID edge) (e_Type edge) (Some stored)) in *.
  assert (Hids' := Hids). unfold validateIDs in Hids'. cbn [foldr] in Hids'.
  destruct (ValidateEntityID (e_ID edge)) eqn:E1; [done|]. destruct (ValidateEntityID (e_SourceID edge)) eqn:E2; [done|].
  destruct (ValidateEntityID (e_TargetID edge)) eqn:E3; [done|]. clear Hids'.
  assert (Hv : valid x).
  { pose proof (ValidateEntityID_bound _ E1) as [_ B1]. pose proof (ValidateEntityID_bound _ E2) as [_ B2].
    pose proof (ValidateEntityID_bound _ E3) as [_ B3].
    assert (H1 : valid (e_ID edge)) by (change (e_ID edge < 2 ^ 64); lia).
    assert (H2 : valid (e_SourceID edge)) by (change (e_SourceID edge < 2 ^ 64); lia).
    assert (H3 : valid (e_TargetID edge)) by (change (e_TargetID edge < 2 ^ 64); lia).
    exact (conj H1 (conj H2 (conj H3 (conj (conj Hn (ValidateEdgeType_utf8 _ Hty)) (stored_valid _ _ Hp Hst))))). }
  destruct (encode_envelope codec_edge edge_reserved pageEdgeRecord maxBytes x data Hv Hm He) as (-> & Hlen & Hr).
  unfold decodePageEdge, decodePageEdgeAdmitted, decodePageRecord.
  rewrite decode_envelope by done. cbn [sbind]. rewrite withAdmission_none by done.
  pose proof (@cdec_ok _ codec_edge _ x Hv Hr) as Hd. change (@cdec _ codec_edge) with dec_edge in Hd. rewrite Hd.
  rewrite finish_all. cbn [option_map unless x pe_ID pe_SourceID pe_TargetID pe_Type pe_Properties].
  rewrite N.eqb_refl. cbn [negb]. rewrite Hids, Hty. cbn [unless].
  change (elems (Some stored)) with stored.
  rewrite (storage_roundtrip (e_Properties edge) stored stored); [done|apply Hp|apply Hp|done|done].
Qed.

(** ** Corruption *)

Lemma getBE_inj l : forall l' acc acc',
  length l = length l' ->
  foldl (fun acc b => acc * 256 + byteN b) acc l = foldl (fun acc b => acc * 256 + byteN b) acc' l' ->
  acc = acc' /\ l = l'.
Proof.
  induction l as [|b l IH]; intros [|b' l'] acc acc' Hl E; try done. cbn in E.
  apply IH in E as [E ->]; [|by injection Hl].
  pose proof (byteN_bound b). pose proof (byteN_bound b').
  assert (byteN b = byteN b') by lia. split; [lia|]. f_equal. by apply byteN_inj.
Qed.

(** The three ways a record can be damaged in one byte. *)
Lemma payload_damage recordKind payload maxBytes i b :
  payload !! i <> Some b -> (i < length payload)%nat ->
  exists err, decodePageRecordPayload ([pageRecordVersion; recordKind] ++ PutUint32 (ChecksumIEEE payload) ++ <[i := b]> payload)
                recordKind maxBytes = inr err.
Proof.
  intros Hb Hi. unfold decodePageRecordPayload. destruct (_ <? _); [by eauto|]. destruct (_ || _); [by eauto|].
  set (data := _ ++ _ ++ _). change (drop 6 data) with (<[i := b]> payload).
  change (take 4 (drop 2 data)) with (putBE 4 (ChecksumIEEE payload)).
  rewrite getBE_put by apply ChecksumIEEE_lt.
  destruct (N.eqb_spec (ChecksumIEEE payload) (ChecksumIEEE (<[i := b]> payload))) as [E|]; [|by eauto].
  exfalso. destruct (lookup_lt_is_Some_2 payload i Hi) as [b0 E0].
  rewrite <- (take_drop_middle payload i b0 E0) in E at 1. rewrite insert_take_drop in E by done.
  apply ChecksumIEEE_byte in E as ->. congruence.
Qed.

Lemma checksum_damage recordKind payload maxBytes (sum : list byte) :
  length sum = 4%nat -> sum <> PutUint32 (ChecksumIEEE payload) ->
  exists err, decodePageRecordPayload ([pageRecordVersion; recordKind] ++ sum ++ payload) recordKind maxBytes = inr err.
Proof.
  intros Hl Hne. unfold decodePageRecordPayload. destruct (_ <? _); [by eauto|]. destruct (_ || _); [by eauto|].
  assert (E1 : take 4 (drop 2 ([pageRecordVersion; recordKind] ++ sum ++ payload)) = sum).
  { by destruct sum as [|s0 [|s1 [|s2 [|s3 [|? ?]]]]]. }
  assert (E2 : drop 6 ([pageRecordVersion; recordKind] ++ sum ++ payload) = payload).
  { by destruct sum as [|s0 [|s1 [|s2 [|s3 [|? ?]]]]]. }
  rewrite E1, E2. destruct (N.eqb_spec (getBE sum) (ChecksumIEEE payload)) as [E|]; [|by eauto].
  exfalso. apply Hne. rewrite <- (getBE_put 4 (ChecksumIEEE payload)) in E by apply ChecksumIEEE_lt.
  unfold getBE in E. by apply getBE_inj in E as [_ ->].
Qed.

Lemma record_damage recordKind payload maxBytes i b :
  recordBytes recordKind payload !! i <> Some b -> (i < length (recordBytes recordKind payload))%nat ->
  exists err, decodePageRecordPayload (<[i := b]> (recordBytes recordKind payload)) recordKind maxBytes = inr err.
Proof.
  intros Hb Hi. unfold recordBytes in *.
  destruct i as [|[|i]].
  - unfold decodePageRecordPayload. destruct (_ <? _); [by eauto|].
    change (<[0%nat := b]> ([pageRecordVersion; recordKind] ++ PutUint32 (ChecksumIEEE payload) ++ payload))
      with ([b; recordKind] ++ PutUint32 (ChecksumIEEE payload) ++ payload).
    cbn [app lookup list_lookup] in Hb |- *. rewrite (bool_decide_false (Some b = Some pageRecordVersion)) by congruence.
    rewrite orb_true_r. cbn [orb negb]. by eauto.
  - unfold decodePageRecordPayload. destruct (_ <? _); [by eauto|].
    change (<[1%nat := b]> ([pageRecordVersion; recordKind] ++ PutUint32 (ChecksumIEEE payload) ++ payload))
      with ([pageRecordVersion; b] ++ PutUint32 (ChecksumIEEE payload) ++ payload).
    cbn [app lookup list_lookup] in Hb |- *. rewrite (bool_decide_false (Some b = Some recordKind)) by congruence.
    rewrite orb_true_r. by eauto.
  - change (<[S (S i) := b]> ([pageRecordVersion; recordKind] ++ PutUint32 (ChecksumIEEE payload) ++ payload))
      with ([pageRecordVersion; recordKind] ++ <[i := b]> (PutUint32 (ChecksumIEEE payload) ++ payload)).
    change ((PutUint32 (ChecksumIEEE payload) ++ payload) !! i <> Some b) in Hb. rewrite !length_app in Hi. cbn [length] in Hi.
    destruct (decide (i < 4)%nat) as [Hlt|Hge].
    + rewrite insert_app_l by done. apply checksum_damage; [by rewrite length_insert|].
      rewrite lookup_app_l in Hb by done. intros E. apply Hb. rewrite <- E at 1. by rewrite list_lookup_insert_eq.
    + replace i with (length (PutUint32 (ChecksumIEEE payload)) + (i - 4))%nat by (rewrite PutUint32_length; lia).
      rewrite insert_app_r. apply payload_damage; [|rewrite PutUint32_length in Hi; lia].
      rewrite lookup_app_r in Hb by (rewrite PutUint32_length; lia). by rewrite PutUint32_length in Hb.
Qed.
