(* ===== verification/ValueTheorems.v ===== *)
(** * What values, properties and page records promise *)
From S2P Require Import Prelude.
From S2P Require Import GoBytes.
From S2P Require Import BinaryCodec.
From S2P Require Import BinaryCodecSpec.
From S2P Require Import BinaryValue.
From S2P Require Import BinaryValueSpec.
From S2P Require Import GoMaps.
From S2P Require Import Values.
From S2P Require Import ValuesSpec.
From S2P Require Import Properties.
From S2P Require Import PageRecords.
From S2P Require Import PageRecordsSpec.

(** C30. A value is accepted exactly when it is nested at most 64 deep, every string
    and key is UTF-8, every number is finite and fits int64, no type is unsupported,
    and the whole tree has at most a million elements and 64 MiB of bytes; what is
    stored then is its normal form. *)
Theorem NormalizeValue_exact v :
  if okV 0 v && (elementsV v <=? maxValueElements) && (bytesV v <=? maxValueBytes)
  then NormalizeValue v = inl (normV v) else exists err, NormalizeValue v = inr err.
Proof. apply NormalizeValue_spec. Qed.

(** An accepted value is canonical: normalising it again changes nothing, and it
    survives the conversion to its persisted form and back. *)
Theorem NormalizeValue_canonical v r :
  wfV v -> NormalizeValue v = inl r ->
  NormalizeValue r = inl r /\ exists p, encodeValue r = inl p /\ decodeValue p = inl r.
Proof.
  intros Hw E. pose proof (NormalizeValue_spec v) as H.
  destruct (okV 0 v && _ && _) eqn:Hc; [|destruct H; congruence].
  rewrite H in E. injection E as <-. apply andb_true_iff in Hc as [[Ho He]%andb_true_iff Hb].
  pose proof (norm_normal v 0 Hw Ho) as Hn. split; [|by exists (toP (normV v)); apply (persist_normal 0)].
  pose proof (NormalizeValue_spec (normV v)) as H'.
  by rewrite elementsV_norm, bytesV_norm, He, Hb, (normal_ok _ _ Hn), (normal_norm _ _ Hn) in H'.
Qed.

(** Whether a property map is accepted, and what is stored for it, do not depend
    on the order Go ranges over the map in; the result is in key order. *)
Theorem NormalizeProperties_order m m' r :
  NoDup m.*1 -> m ≡ₚ m' -> NormalizeProperties m = inl r ->
  NormalizeProperties m' = inl r /\ keysSorted r.
Proof.
  intros Hnd Hp E. pose proof (NormalizeProperties_exact m) as H. pose proof (NormalizeProperties_exact m') as H'.
  rewrite <- (propsOK_perm _ _ Hp) in H'. destruct (propsOK m); [|destruct H; congruence].
  rewrite H in E. injection E as <-. rewrite H'. split; [|apply mapOf_sorted; constructor].
  f_equal. symmetry. apply mapOf_permutation; [by rewrite keys_onEntry|by rewrite Hp].
Qed.

(** C29. Properties built from a map and updated by Set and Delete behave as the finite
    map: Lookup (by linear scan or bisection), Len, All in key order, and Vector by
    the kind tag. *)
Theorem Properties_refine_finite_map m us :
  NoDup m.*1 ->
  let p := foldl applyProperty (PropertiesFromMap m) us in
  let g := foldl specProperty (list_to_map m) us in
  (forall key, Lookup p key = g !! key) /\ PLen p = size g /\
  keysSorted (PAll p) /\ list_to_map (PAll p) = g /\
  (forall key, PVector p key = match g !! key with Some (VVector v) => Some v | _ => None end).
Proof.
  intros Hnd p g. pose proof (represents_updates us _ _ (represents_from m Hnd)) as Hr.
  fold p in Hr. pose proof Hr as [[Hs _] Hg]. split_and!.
  - intros key. rewrite Lookup_entries by done. by apply represents_lookup.
  - by apply represents_len.
  - by apply PAll_sorted.
  - exact Hg.
  - intros key. by apply represents_vector.
Qed.

(** Properties that are stored are read back with every value in normal form,
    whatever order the decoder ranges over the stored map in; values that came from
    NormalizePropertyStorage come back unchanged. *)
Theorem PropertyStorage_roundtrip p stored stored' :
  goodProps p -> encodePropertyStorage p = inl stored -> stored' ≡ₚ stored ->
  decodePropertyStorage stored' = inl (normProps p) /\
  (Forall (fun kv => normalAt 0 kv.2) (PAll p) -> normProps p = p).
Proof.
  intros [Hp Hw] He Hst. split; [by eapply storage_roundtrip|]. intros Hn. apply normProps_normal; [apply Hp|done].
Qed.

(** Every node and edge record the writer accepts under a size limit is read back
    under the same limit: the encoder's admission is exactly the decoder's budget. *)
Theorem PageRecord_roundtrip node edge maxBytes data data' :
  maxBytes <= max_uint64 ->
  goodProps (n_Properties node) -> slen (n_Labels node) < maxLen ->
  Forall (fun s => nlen s < maxLen) (elems (n_Labels node)) ->
  goodProps (e_Properties edge) -> nlen (e_Type edge) < maxLen ->
  encodePageNodeBounded (Some node) maxBytes = inl data ->
  encodePageEdgeBounded (Some edge) maxBytes = inl data' ->
  decodePageNode data (n_ID node) maxBytes = inl (normNode node) /\
  decodePageEdge data' (e_ID edge) maxBytes = inl (normEdge edge).
Proof. intros. split; [by apply node_roundtrip|by apply edge_roundtrip]. Qed.

(** C31. A record in which any one byte was changed, in the header, the checksum or the
    payload, is rejected; it is never read as other data. *)
Theorem PageRecord_detects_damage recordKind payload maxBytes i b :
  recordBytes recordKind payload !! i <> Some b -> (i < length (recordBytes recordKind payload))%nat ->
  exists err, decodePageRecordPayload (<[i := b]> (recordBytes recordKind payload)) recordKind maxBytes = inr err.
Proof. apply record_damage. Qed.

(** ** Witnesses *)

(** A map with a list, a typed integer and an empty byte slice. *)
Definition exampleValue : value :=
  VMap (Some [([x62], VList (Some [VInteger TUint8 7; VNil; VBytes (Some [])])); ([x61], VFloat32 1065353216)]).

Definition exampleNormal : value :=
  VMap (Some [([x61], VFloat 4607182418800017408); ([x62], VList (Some [VInt 7; VNil; VBytes None]))]).

Lemma exampleValue_wf : wfV exampleValue.
Proof.
  constructor; [apply (bool_decide_unpack _); vm_compute; exact I|].
  repeat constructor; cbn; lia.
Qed.

Lemma NormalizeValue_canonical_witness :
  NormalizeValue exampleNormal = inl exampleNormal /\
  exists p, encodeValue exampleNormal = inl p /\ decodeValue p = inl exampleNormal.
Proof. apply (NormalizeValue_canonical exampleValue); [exact exampleValue_wf|vm_compute; reflexivity]. Defined.

Definition exampleEntries : list (gostring * value) := [([x62], VInt 1); ([x61], VString [x78])].

Lemma NormalizeProperties_order_witness :
  NormalizeProperties (rev exampleEntries) = inl [([x61], VString [x78]); ([x62], VInt 1)] /\
  keysSorted [([x61], VString [x78]); ([x62], VInt 1)].
Proof.
  apply (NormalizeProperties_order exampleEntries).
  - apply (bool_decide_unpack _). vm_compute. exact I.
  - apply Permutation_rev.
  - vm_compute. reflexivity.
Defined.

(** Ten keys, so that the bisection runs. *)
Definition exampleUpdates : list propertyUpdate :=
  map (fun b => SetProperty [b] (VVector (Some [1]))) [x63; x64; x65; x66; x67; x68; x69; x6a] ++ [DeleteProperty [x64]].

Lemma Properties_refine_finite_map_witness :
  let p := foldl applyProperty (PropertiesFromMap exampleEntries) exampleUpdates in
  let g := foldl specProperty (list_to_map exampleEntries) exampleUpdates in
  (forall key, Lookup p key = g !! key) /\ PLen p = size g /\
  keysSorted (PAll p) /\ list_to_map (PAll p) = g /\
  (forall key, PVector p key = match g !! key with Some (VVector v) => Some v | _ => None end).
Proof. apply (Properties_refine_finite_map exampleEntries). apply (bool_decide_unpack _). vm_compute. exact I. Defined.

Definition exampleProps : Properties := PropertiesFromMap [([x6b], exampleNormal); ([x61], VInt (-3))].

Lemma exampleProps_good : goodProps exampleProps.
Proof.
  split.
  - assert (Hnd : NoDup ([([x6b], exampleNormal); ([x61], VInt (-3))] : list (gostring * value)).*1)
      by (apply (bool_decide_unpack _); vm_compute; exact I).
    exact (proj1 (represents_from _ Hnd)).
  - change (PAll exampleProps) with [([x61], VInt (-3)); ([x6b], exampleNormal)].
    apply Forall_cons_2; [apply wf_int; unfold int64; lia|]. apply Forall_cons_2; [|apply Forall_nil_2].
    assert (Ho : okV 0 exampleValue = true) by (vm_compute; reflexivity).
    exact (normal_wf 0 _ (norm_normal exampleValue 0 exampleValue_wf Ho)).
Qed.

Definition exampleStored : list (gostring * persistedValue) :=
  match encodePropertyStorage exampleProps with inl stored => stored | inr _ => [] end.

Lemma PropertyStorage_roundtrip_witness :
  decodePropertyStorage (rev exampleStored) = inl (normProps exampleProps) /\
  (Forall (fun kv => normalAt 0 kv.2) (PAll exampleProps) -> normProps exampleProps = exampleProps).
Proof.
  apply (PropertyStorage_roundtrip exampleProps exampleStored).
  - exact exampleProps_good.
  - vm_compute. reflexivity.
  - symmetry. apply Permutation_rev.
Defined.

Definition exampleNodeRecord : NodeRecord := mkNode 12 (Some [[x41]; [x42]]) exampleProps.
Definition exampleEdgeRecord : EdgeRecord := mkEdge 3 12 13 [x54] exampleProps.
Definition recordOf (r : list byte + error) : list byte := match r with inl data => data | inr _ => [] end.

Lemma PageRecord_roundtrip_witness :
  decodePageNode (recordOf (encodePageNodeBounded (Some exampleNodeRecord) 1000)) 12 1000 = inl (normNode exampleNodeRecord) /\
  decodePageEdge (recordOf (encodePageEdgeBounded (Some exampleEdgeRecord) 1000)) 3 1000 = inl (normEdge exampleEdgeRecord).
Proof.
  apply (PageRecord_roundtrip exampleNodeRecord exampleEdgeRecord 1000).
  - vm_compute. discriminate.
  - exact exampleProps_good.
  - vm_compute. reflexivity.
  - repeat constructor.
  - exact exampleProps_good.
  - vm_compute. reflexivity.
  - vm_compute. reflexivity.
  - vm_compute. reflexivity.
Defined.

Lemma PageRecord_detects_damage_witness :
  exists err, decodePageRecordPayload (<[7%nat := xff]> (recordBytes x01 [x0c; x00; x03])) x01 100 = inr err.
Proof. apply (PageRecord_detects_damage x01 [x0c; x00; x03] 100 7 xff); [discriminate|vm_compute; lia]. Defined.
