(* ===== verification/Streams.v ===== *)
(** * Durable streams (internal/store/stream.go, stream_value.go, recovery.go)

    Each stream is a log of records in immutable chunks of 64, linked backwards with
    skip pointers; a trim hides a prefix and rebuilds the chunks once the hidden bytes
    outweigh the visible ones. The store also keeps consumer offsets and running byte
    totals that saturate at the top of the 64-bit range.

    This is the in-memory store: the page-backed variant ([page], [diskCount] and
    [pageErr]) is not modelled. The maps are values, so [Fork], which shares them
    until the first write clones them, is a copy. A Go map is a finite map; the loops
    that range over one add saturating amounts, which commute. *)
From S2P Require Import Prelude.
From S2P Require Import GoBytes.
From S2P Require Import BinaryCodec.
From S2P Require Import BinaryValue.
From S2P Require Import GoMaps.
From S2P Require Import Values.
From Stdlib Require Strings.String.
Import String.StringSyntax.

(** ** Saturating sizes *)

Definition snapshotAdd (left right : N) : N :=
  if max_uint64 - left <? right then max_uint64 else left + right.
Definition snapshotMul (left right : N) : N :=
  if negb (left =? 0) && (max_uint64 / left <? right) then max_uint64 else u64 (left * right).

Fixpoint estimateValueBytes (v : value) : N :=
  match v with
  | VNil | VBool _ | VInt _ | VFloat _ => 64
  | VString s => snapshotAdd (snapshotMul (nlen s) 6) 64
  | VBytes b => snapshotAdd (snapshotMul (slen b) 2) 64
  | VVector l => snapshotAdd (snapshotMul (slen l) 32) 64
  | VList l => match l with
               | None => 64
               | Some l => foldl snapshotAdd 64 (map (fun item => snapshotAdd (estimateValueBytes item) 8) l)
               end
  | VMap m => match m with
              | None => 64
              | Some m => foldl snapshotAdd 64
                  (map (fun kv => snapshotAdd (snapshotAdd (snapshotMul (nlen kv.1) 6) 64) (estimateValueBytes kv.2)) m)
              end
  | _ => 256
  end.

(** The variant that polls a context, here one that is never cancelled. *)
Fixpoint estimateValueBytesContext (v : value) : N :=
  match v with
  | VList l => match l with
               | None => 64
               | Some l => foldl (fun size bytes => snapshotAdd size (snapshotAdd bytes 8)) 64
                             (map estimateValueBytesContext l)
               end
  | VMap m => match m with
              | None => 64
              | Some m => foldl (fun size kb => snapshotAdd size (snapshotAdd (snapshotAdd (snapshotMul (nlen kb.1) 6) 64) kb.2)) 64
                            (map (fun kv => (kv.1, estimateValueBytesContext kv.2)) m)
              end
  | v => estimateValueBytes v
  end.

(** ** Records, chunks and logs *)

Record StreamRecord := mkRecord { Sequence : N; Kind : gostring; Payload : value }.

Inductive streamChunk :=
  mkChunk (previous : option streamChunk) (skips : list streamChunk) (records : list StreamRecord)
    (bytes snapshotBytes : N).

Definition previous (c : streamChunk) := let '(mkChunk p _ _ _ _) := c in p.
Definition skips (c : streamChunk) := let '(mkChunk _ s _ _ _) := c in s.
Definition records (c : streamChunk) := let '(mkChunk _ _ r _ _) := c in r.
Definition chunkBytes (c : streamChunk) := let '(mkChunk _ _ _ b _) := c in b.
Definition chunkSnapshotBytes (c : streamChunk) := let '(mkChunk _ _ _ _ b) := c in b.

Record streamLog := mkLog {
  tail : option streamChunk;
  first : N;
  count : N;
  logBytes : N;
  logSnapshotBytes : N }.

(** The zero value a map lookup returns for a stream that does not exist. *)
Definition emptyLog : streamLog := mkLog None 0 0 0 0.

Record StreamStore := mkStreamStore {
  streams : gmap gostring streamLog;
  next : gmap gostring N;
  offsets : gmap gostring (gmap gostring N);
  logicalBytes : N;
  storeSnapshotBytes : N }.

Definition NewStreamStore : StreamStore := mkStreamStore ∅ ∅ ∅ 0 0.

Definition streamChunkSize : nat := 64.

Definition getLog (s : StreamStore) (name : gostring) : streamLog := default emptyLog (streams s !! name).
Definition getNext (s : StreamStore) (name : gostring) : N := default 0 (next s !! name).

(** Indexing a chunk's records; no chunk is empty. *)
Definition firstSequence (c : streamChunk) : N := match records c with r :: _ => Sequence r | [] => 0 end.
Definition lastSequence (c : streamChunk) : N := match last (records c) with Some r => Sequence r | None => 0 end.

Definition streamRecordBytes (r : StreamRecord) : N :=
  snapshotAdd (nlen (Kind r) + 48) (estimateValueBytes (Payload r)).
Definition streamRecordSnapshotBytes (r : StreamRecord) : N :=
  snapshotAdd (snapshotMul (nlen (Kind r)) 6) (snapshotAdd 48 (estimateValueBytes (Payload r))).
Definition streamSnapshotBytes (name : gostring) : N := snapshotAdd (snapshotMul (nlen name) 6) 64.
Definition streamOffsetSnapshotBytes (stream consumer : gostring) : N :=
  snapshotAdd (snapshotAdd (snapshotMul (nlen stream) 6) (snapshotMul (nlen consumer) 6)) 48.

(** ** Chunks *)

(** The loop that adds pointers to ancestors 2, 4, 8, ... chunks back; it ends at the
    first level an ancestor lacks, so no later than one past [previous]'s levels. *)
Fixpoint addSkips (fuel level : nat) (found : list streamChunk) : list streamChunk :=
  match fuel with
  | O => found
  | S fuel =>
      match found !! pred level with
      | None => found
      | Some ancestor =>
          if (length (skips ancestor) <? level)%nat then found
          else match skips ancestor !! pred level with
               | None => found
               | Some s => addSkips fuel (S level) (found ++ [s])
               end
      end
  end.

Definition newStreamChunk (prev : option streamChunk) (rs : list StreamRecord) : streamChunk :=
  let bytes := foldl (fun b r => snapshotAdd b (streamRecordBytes r))
                 (match prev with None => 0 | Some p => chunkBytes p end) rs in
  let snapshotBytes := foldl (fun b r => snapshotAdd b (streamRecordSnapshotBytes r))
                         (match prev with None => 0 | Some p => chunkSnapshotBytes p end) rs in
  match prev with
  | None => mkChunk None [] rs bytes snapshotBytes
  | Some p => mkChunk prev (addSkips (S (length (skips p))) 1 [p]) rs bytes snapshotBytes
  end.

Fixpoint bytesThrough (rs : list StreamRecord) (sequence bytes snapshotBytes : N) : N * N :=
  match rs with
  | [] => (bytes, snapshotBytes)
  | r :: rs =>
      if sequence <? Sequence r then (bytes, snapshotBytes)
      else bytesThrough rs sequence (snapshotAdd bytes (streamRecordBytes r))
             (snapshotAdd snapshotBytes (streamRecordSnapshotBytes r))
  end.

Definition streamChunkBytesThrough (chunk : option streamChunk) (sequence : N) : N * N :=
  match chunk with
  | None => (0, 0)
  | Some c =>
      match previous c with
      | None => bytesThrough (records c) sequence 0 0
      | Some p => bytesThrough (records c) sequence (chunkBytes p) (chunkSnapshotBytes p)
      end
  end.

(** Levels from the top down, at most one jump per level. *)
Fixpoint descend (level : nat) (chunk : streamChunk) (sequence : N) : streamChunk :=
  match level with
  | O => chunk
  | S level =>
      if (length (skips chunk) <=? level)%nat then descend level chunk sequence
      else match skips chunk !! level with
           | None => descend level chunk sequence
           | Some candidate => descend level (if sequence <=? lastSequence candidate then candidate else chunk) sequence
           end
  end.

Definition logChunk (log : streamLog) (sequence : N) : option streamChunk :=
  match tail log with
  | None => None
  | Some chunk =>
      if (count log =? 0) || (sequence <? first log) || (lastSequence chunk <? sequence) then None
      else
        let chunk := descend (length (skips chunk)) chunk sequence in
        if sequence <? firstSequence chunk then None else Some chunk
  end.

(** [for chunk := c; chunk != nil && last(chunk) >= lo; chunk = chunk.previous] *)
Fixpoint chunksFrom (c : streamChunk) (lo : N) : list streamChunk :=
  match c with
  | mkChunk prev _ _ _ _ =>
      if lo <=? lastSequence c then c :: match prev with None => [] | Some p => chunksFrom p lo end else []
  end.
Definition tailChunks (log : streamLog) (lo : N) : list streamChunk :=
  match tail log with None => [] | Some c => chunksFrom c lo end.

(** ** Reading *)

Record StreamReadResult := mkRead {
  r_Records : list StreamRecord;
  LastSequence : N;
  ByteLimited : bool;
  readBytes : N }.
Definition emptyRead : StreamReadResult := mkRead [] 0 false 0.

Definition appendRecord (result : StreamReadResult) (r : StreamRecord) (maxBytes : N) : StreamReadResult :=
  let bytes := snapshotAdd (nlen (Kind r) + 48) (estimateValueBytesContext (Payload r)) in
  if negb (maxBytes =? 0) && ((maxBytes <? bytes) || (maxBytes - bytes <? readBytes result))
  then mkRead (r_Records result) (LastSequence result) true (readBytes result)
  else mkRead (r_Records result ++ [mkRecord (Sequence r) (Kind r) (CloneValue (Payload r))]) (Sequence r)
         (ByteLimited result) (snapshotAdd (readBytes result) bytes).

(** Records in turn until the byte limit. *)
Fixpoint appendRecords (result : StreamReadResult) (rs : list StreamRecord) (maxBytes : N) : StreamReadResult :=
  match rs with
  | [] => result
  | r :: rs =>
      let result := appendRecord result r maxBytes in
      if ByteLimited result then result else appendRecords result rs maxBytes
  end.

Definition ReadBounded (s : StreamStore) (name : gostring) (after limit maxBytes : N) : StreamReadResult :=
  let log := getLog s name in
  if (limit =? 0) || (count log =? 0) then emptyRead
  else if sub64 (u64 (first log + count log)) 1 <=? after then emptyRead
  else
    let sequence := if u64 (after + 1) <? first log then first log else u64 (after + 1) in
    let available := if first log <? sequence
                     then count log - N.min (count log) (sequence - first log) else count log in
    let take := N.min limit available in
    let take := if negb (maxBytes =? 0) && (maxBytes / 48 <? take) then maxBytes / 48 + 1 else take in
    let last := sub64 (u64 (sequence + take)) 1 in
    match logChunk log last with
    | None => emptyRead
    | Some endChunk =>
        if firstSequence endChunk <=? sequence then
          let start := sequence - firstSequence endChunk in
          appendRecords emptyRead (list.take (N.to_nat take) (drop (N.to_nat start) (records endChunk))) maxBytes
        else
          let chunks := rev (chunksFrom endChunk sequence) in
          appendRecords emptyRead
            (concat (map (fun c => base.filter (fun r => sequence <= Sequence r /\ Sequence r <= last) (records c)) chunks))
            maxBytes
    end.

Definition Read (s : StreamStore) (name : gostring) (after limit : N) : list StreamRecord :=
  r_Records (ReadBounded s name after limit 0).

Definition StreamBytes (s : StreamStore) (name : gostring) : N := logBytes (getLog s name).
Definition NextSequence (s : StreamStore) (name : gostring) : N :=
  if negb (getNext s name =? 0) then getNext s name else 1.
Definition GetOffset (s : StreamStore) (name consumer : gostring) : option N :=
  default ∅ (offsets s !! name) !! consumer.

(** ** Writing *)

Definition setLog (s : StreamStore) (name : gostring) (log : streamLog) : StreamStore :=
  mkStreamStore (<[name := log]> (streams s)) (next s) (offsets s) (logicalBytes s) (storeSnapshotBytes s).
Definition setNext (s : StreamStore) (name : gostring) (n : N) : StreamStore :=
  mkStreamStore (streams s) (<[name := n]> (next s)) (offsets s) (logicalBytes s) (storeSnapshotBytes s).
Definition addSizes (s : StreamStore) (bytes snapshotBytes : N) : StreamStore :=
  mkStreamStore (streams s) (next s) (offsets s) (snapshotAdd (logicalBytes s) bytes)
    (snapshotAdd (storeSnapshotBytes s) snapshotBytes).

(** Registers a stream that has no next sequence yet, with its share of the totals. *)
Definition addStreamSizes (s : StreamStore) (name : gostring) : StreamStore :=
  addSizes s (nlen name + 64) (streamSnapshotBytes name).
Definition touchStream (s : StreamStore) (name : gostring) : StreamStore :=
  if getNext s name =? 0 then addStreamSizes (setNext s name 1) name else s.

(** The tail with one more record: a new chunk when full, otherwise a longer copy. *)
Definition appendTail (t : option streamChunk) (r : StreamRecord) : streamChunk :=
  match t with
  | None => newStreamChunk None [r]
  | Some c =>
      if (length (records c) =? streamChunkSize)%nat then newStreamChunk (Some c) [r]
      else mkChunk (previous c) (skips c) (records c ++ [r])
             (snapshotAdd (chunkBytes c) (streamRecordBytes r))
             (snapshotAdd (chunkSnapshotBytes c) (streamRecordSnapshotBytes r))
  end.

Definition Publish (s : StreamStore) (name kind : gostring) (payload : value) : N * StreamStore :=
  let newStream := getNext s name =? 0 in
  let sequence := if getNext s name =? 0 then 1 else getNext s name in
  let s := setNext s name (u64 (sequence + 1)) in
  let log := getLog s name in
  let record := mkRecord sequence kind (CloneValue payload) in
  let recordBytes := streamRecordBytes record in
  let recordSnapshotBytes := streamRecordSnapshotBytes record in
  let log := mkLog (Some (appendTail (tail log) record))
               (if count log =? 0 then sequence else first log) (u64 (count log + 1))
               (snapshotAdd (logBytes log) recordBytes) (snapshotAdd (logSnapshotBytes log) recordSnapshotBytes) in
  let s := addSizes s recordBytes recordSnapshotBytes in
  let s := if newStream then addStreamSizes s name else s in
  (sequence, setLog s name log).

Definition SetOffset (s : StreamStore) (name consumer : gostring) (sequence : N) : StreamStore :=
  let s := touchStream s name in
  let existed := bool_decide (is_Some (GetOffset s name consumer)) in
  let s := mkStreamStore (streams s) (next s)
             (<[name := <[consumer := sequence]> (default ∅ (offsets s !! name))]> (offsets s))
             (logicalBytes s) (storeSnapshotBytes s) in
  if existed then s
  else addSizes s (nlen name + nlen consumer + 48) (streamOffsetSnapshotBytes name consumer).

(** ** Totals from scratch *)

(** The records a log shows, newest chunk first as the loops visit them. *)
Definition visibleRecords (log : streamLog) : list StreamRecord :=
  concat (map (fun c => base.filter (fun r => first log <= Sequence r) (records c)) (tailChunks log (first log))).

Definition calculateStreamStoreBytes (s : StreamStore) : N :=
  let size := foldl (fun size kn =>
      foldl (fun size r => snapshotAdd size (streamRecordBytes r)) (snapshotAdd size (nlen kn.1 + 64))
        (visibleRecords (getLog s kn.1))) 0 (map_to_list (next s)) in
  foldl (fun size kc => foldl (fun size co => snapshotAdd size (nlen kc.1 + nlen co.1 + 48)) size (map_to_list kc.2))
    size (map_to_list (offsets s)).

Definition calculateStreamStoreSnapshotBytes (s : StreamStore) : N :=
  let size := foldl (fun size kn =>
      foldl (fun size r => snapshotAdd size (streamRecordSnapshotBytes r)) (snapshotAdd size (streamSnapshotBytes kn.1))
        (visibleRecords (getLog s kn.1))) 0 (map_to_list (next s)) in
  foldl (fun size kc => foldl (fun size co => snapshotAdd size (streamOffsetSnapshotBytes kc.1 co.1)) size (map_to_list kc.2))
    size (map_to_list (offsets s)).

(** ** Trimming *)

(** [for start < len(records) && records[start].Sequence < lo { start++ }] *)
Fixpoint dropBefore (lo : N) (rs : list StreamRecord) : list StreamRecord :=
  match rs with
  | [] => []
  | r :: rs' => if Sequence r <? lo then dropBefore lo rs' else rs
  end.

(** The visible records copied into fresh chunks, oldest first. *)
Definition compactChunks (log : streamLog) : option streamChunk :=
  foldl (fun t c => match dropBefore (first log) (records c) with
                    | [] => t
                    | rs => Some (newStreamChunk t rs)
                    end)
    None (rev (tailChunks log (first log))).

Definition isMax (n : N) : bool := n =? max_uint64.

(** Some total has reached the top of its range, or does not cover what leaves. *)
Definition trimSaturated (s : StreamStore) (log : streamLog) (startSizes endSizes : N * N) : bool :=
  let tailBytes := match tail log with Some c => chunkBytes c | None => 0 end in
  let tailSnapshotBytes := match tail log with Some c => chunkSnapshotBytes c | None => 0 end in
  let removedBytes := sub64 endSizes.1 startSizes.1 in
  let removedSnapshotBytes := sub64 endSizes.2 startSizes.2 in
  isMax tailBytes || isMax tailSnapshotBytes || isMax startSizes.1 || isMax endSizes.1
  || isMax startSizes.2 || isMax endSizes.2 || isMax (logBytes log)
  || isMax (logSnapshotBytes log) || (logBytes log <? removedBytes)
  || (logSnapshotBytes log <? removedSnapshotBytes)
  || isMax (logicalBytes s) || isMax (storeSnapshotBytes s)
  || (logicalBytes s <? removedBytes) || (storeSnapshotBytes s <? removedSnapshotBytes).

(** Hidden bytes have reached the visible ones: the visible records move to fresh chunks.
    A log that holds records always gives a chunk ([compactChunks_ok] of [StreamLogs]), so
    the last case, where the code would read through a nil tail, is never taken. *)
Definition compactLog (log : streamLog) (saturated : bool) : streamLog :=
  let tailBytes := match tail log with Some c => chunkBytes c | None => 0 end in
  if negb (count log =? 0) && (saturated || (logBytes log <=? sub64 tailBytes (logBytes log))) then
    match compactChunks log with
    | Some t => mkLog (Some t) (first log) (count log) (chunkBytes t) (chunkSnapshotBytes t)
    | None => log
    end
  else log.

(** The records through [trimmedThrough] leave the log. *)
Definition trimWith (s : StreamStore) (name : gostring) (log : streamLog) (trimmedThrough : N)
    (removedBytes removedSnapshotBytes : N) (saturated : bool) : StreamStore :=
  let removed := trimmedThrough - first log + 1 in
  let count' := count log - removed in
  let log := if count' =? 0 then emptyLog
             else if saturated
             then mkLog (tail log) (u64 (trimmedThrough + 1)) count' (logBytes log) (logSnapshotBytes log)
             else mkLog (tail log) (u64 (trimmedThrough + 1)) count' (logBytes log - removedBytes)
                    (logSnapshotBytes log - removedSnapshotBytes) in
  let s := if saturated then s
           else mkStreamStore (streams s) (next s) (offsets s) (logicalBytes s - removedBytes)
                  (storeSnapshotBytes s - removedSnapshotBytes) in
  let s := setLog s name (compactLog log saturated) in
  if saturated
  then mkStreamStore (streams s) (next s) (offsets s) (calculateStreamStoreBytes s) (calculateStreamStoreSnapshotBytes s)
  else s.

Definition trimLog (s : StreamStore) (name : gostring) (log : streamLog) (through : N) : StreamStore :=
  let last := sub64 (u64 (first log + count log)) 1 in
  let trimmedThrough := N.min through last in
  let startSizes := streamChunkBytesThrough (logChunk log (first log)) (sub64 (first log) 1) in
  let endSizes := streamChunkBytesThrough (logChunk log trimmedThrough) trimmedThrough in
  trimWith s name log trimmedThrough (sub64 endSizes.1 startSizes.1) (sub64 endSizes.2 startSizes.2)
    (trimSaturated s log startSizes endSizes).

Definition Trim (s : StreamStore) (name : gostring) (through : N) : StreamStore :=
  let s := touchStream s name in
  let log := getLog s name in
  if (count log =? 0) || (through <? first log) then s else trimLog s name log through.

(** The records from the newest back: where the retained bytes pass the target, or the
    sequence before the last one retained. *)
Fixpoint trimScan (rs : list StreamRecord) (target retained through : N) : N + N :=
  match rs with
  | [] => inr through
  | r :: rs =>
      if target <? snapshotAdd retained (streamRecordBytes r) then inl (Sequence r)
      else trimScan rs target (snapshotAdd retained (streamRecordBytes r)) (sub64 (Sequence r) 1)
  end.

Definition TrimToBytes (s : StreamStore) (name : gostring) (maxBytes : N) : (N * bool) * StreamStore :=
  let log := getLog s name in
  if (logBytes log <=? maxBytes) || (count log =? 0) then ((0, false), s)
  else
    let visited := concat (map (fun c => base.filter (fun r => first log <= Sequence r) (rev (records c)))
                             (tailChunks log (first log))) in
    match trimScan visited (maxBytes / 2) 0 (sub64 (first log) 1) with
    | inl sequence => ((sequence, true), Trim s name sequence)
    | inr through => if first log <=? through then ((through, true), Trim s name through) else ((0, false), s)
    end.
