(* ===== verification/StreamsSpec.v ===== *)
(** * Chunks and logs

    The chain of chunks under a tail, its skip pointers, and the records a log shows. *)
From S2P Require Import Prelude.
From S2P Require Import GoBytes.
From S2P Require Import BinaryCodec.
From S2P Require Import BinaryCodecSpec.
From S2P Require Import BinaryValue.
From S2P Require Import Values.
From S2P Require Import ValuesSpec.
From S2P Require Import Streams.

Implicit Types (c x y z : streamChunk) (rs vis : list StreamRecord).

(** ** Saturating sums *)

Definition sat (n : N) : N := N.min n max_uint64.

Lemma snapshotAdd_sat a b : snapshotAdd (sat a) b = sat (a + b).
Proof. unfold snapshotAdd, sat. destruct (N.ltb_spec (max_uint64 - N.min a max_uint64) b); lia. Qed.

Lemma snapshotAdd_le a b : a <= max_uint64 -> snapshotAdd a b = sat (a + b).
Proof. intros Ha. rewrite <- (snapshotAdd_sat a). f_equal. unfold sat. lia. Qed.

Lemma sat_le n : sat n <= max_uint64.
Proof. unfold sat. lia. Qed.

Lemma foldl_sat {A} (f : A -> N) l : forall a,
  foldl (fun b r => snapshotAdd b (f r)) (sat a) l = sat (a + nsum (map f l)).
Proof.
  induction l as [|x l IH]; intros a; cbn [foldl map nsum foldr]; [by rewrite N.add_0_r|].
  rewrite snapshotAdd_sat, IH. f_equal. unfold nsum. lia.
Qed.

Lemma streamRecordBytes_ge r : 48 <= streamRecordBytes r.
Proof.
  unfold streamRecordBytes, snapshotAdd. destruct (_ <? _); [unfold max_uint64|]; lia.
Qed.

(** The two estimates agree when no context interrupts. *)
Lemma estimateContext_eq v : estimateValueBytesContext v = estimateValueBytes v.
Proof.
  induction v as [| | | | | | | | |l Hl|m Hm| | | |] using value_nested_ind; try done.
  - destruct l as [l|]; [|done]. cbn [estimateValueBytesContext estimateValueBytes]. cbn in Hl.
    generalize 64 as a. induction Hl as [|x l Hx _ IH]; intros a; [done|]. cbn. rewrite Hx. apply IH.
  - destruct m as [m|]; [|done]. cbn [estimateValueBytesContext estimateValueBytes]. cbn in Hm.
    assert (E : forall a, foldl (fun size kb => snapshotAdd size (snapshotAdd (snapshotAdd (snapshotMul (nlen kb.1) 6) 64) kb.2)) a
                  (map (fun kv => (kv.1, estimateValueBytesContext kv.2)) m) =
                foldl snapshotAdd a (map (fun kv => snapshotAdd (snapshotAdd (snapshotMul (nlen kv.1) 6) 64)
                  (estimateValueBytes kv.2)) m)); [|apply E].
    induction Hm as [|[k x] m Hx _ IH]; intros a; [done|]. cbn [map foldl fst snd] in *. rewrite Hx. apply IH.
Qed.

(** ** Consecutive sequences *)

Fixpoint consecutive (base : N) rs : Prop :=
  match rs with [] => True | r :: rs => Sequence r = base /\ consecutive (base + 1) rs end.

Lemma consecutive_app base rs1 rs2 :
  consecutive base (rs1 ++ rs2) <-> consecutive base rs1 /\ consecutive (base + nlen rs1) rs2.
Proof.
  revert base. induction rs1 as [|r rs1 IH]; intros base; cbn [app consecutive].
  - unfold nlen. cbn. rewrite N.add_0_r. tauto.
  - rewrite IH. replace (base + 1 + nlen rs1) with (base + nlen (r :: rs1)) by (unfold nlen; cbn [length]; lia). tauto.
Qed.

Lemma consecutive_lookup base rs i r : consecutive base rs -> rs !! i = Some r -> Sequence r = base + N.of_nat i.
Proof.
  revert base i. induction rs as [|r0 rs IH]; intros base i; [done|]. intros [H1 H2]. destruct i as [|i]; cbn.
  - intros [= <-]. lia.
  - intros Hl. rewrite (IH (base + 1) i H2 Hl). lia.
Qed.

Lemma consecutive_drop base rs n : consecutive base rs -> (n <= length rs)%nat -> consecutive (base + N.of_nat n) (drop n rs).
Proof.
  intros Hc Hn. rewrite <- (take_drop n rs) in Hc. apply consecutive_app in Hc as [_ Hc].
  unfold nlen in Hc. rewrite length_take in Hc. by replace (n `min` length rs)%nat with n in Hc by lia.
Qed.

(** Records from a sequence on are a suffix, up to a sequence a prefix. *)
Lemma filter_from base rs lo : consecutive base rs ->
  base.filter (fun r => lo <= Sequence r) rs = drop (N.to_nat (lo - base)) rs.
Proof.
  revert base. induction rs as [|r rs IH]; intros base; [by rewrite drop_nil|]. intros [Hr Hc].
  destruct (N.le_gt_cases lo base) as [Hle|Hgt].
  - rewrite filter_cons_True by lia. rewrite (IH (base + 1)) by done.
    replace (N.to_nat (lo - base)) with O by lia. replace (N.to_nat (lo - (base + 1))) with O by lia. done.
  - rewrite filter_cons_False by lia. rewrite (IH (base + 1)) by done.
    replace (N.to_nat (lo - base)) with (S (N.to_nat (lo - (base + 1)))) by lia. done.
Qed.

Lemma filter_upto base rs hi : consecutive base rs ->
  base.filter (fun r => Sequence r <= hi) rs = take (N.to_nat (hi + 1 - base)) rs.
Proof.
  revert base. induction rs as [|r rs IH]; intros base; [by rewrite take_nil|]. intros [Hr Hc].
  destruct (N.le_gt_cases base hi) as [Hle|Hgt].
  - rewrite filter_cons_True by lia. rewrite (IH (base + 1)) by done.
    replace (N.to_nat (hi + 1 - base)) with (S (N.to_nat (hi + 1 - (base + 1)))) by lia. done.
  - rewrite filter_cons_False by lia. rewrite (IH (base + 1)) by done.
    replace (N.to_nat (hi + 1 - base)) with O by lia. by replace (N.to_nat (hi + 1 - (base + 1))) with O by lia.
Qed.

Lemma dropBefore_from base rs lo : consecutive base rs -> dropBefore lo rs = drop (N.to_nat (lo - base)) rs.
Proof.
  revert base. induction rs as [|r rs IH]; intros base; [by rewrite drop_nil|]. intros [Hr Hc]. cbn [dropBefore].
  destruct (N.ltb_spec (Sequence r) lo) as [Hlt|Hge].
  - rewrite (IH (base + 1)) by done. replace (N.to_nat (lo - base)) with (S (N.to_nat (lo - (base + 1)))) by lia. done.
  - by replace (N.to_nat (lo - base)) with O by lia.
Qed.

(** ** The chain of chunks *)

Fixpoint ancestors (c : streamChunk) : list streamChunk :=
  match c with mkChunk prev _ _ _ _ => match prev with None => [] | Some p => p :: ancestors p end end.
Definition chain (c : streamChunk) : list streamChunk := c :: ancestors c.

Fixpoint chainRecords (c : streamChunk) : list StreamRecord :=
  match c with mkChunk prev _ rs _ _ => match prev with None => [] | Some p => chainRecords p end ++ rs end.

Definition total (f : StreamRecord -> N) rs : N := nsum (map f rs).

(** Every chunk holds 1 to 64 records and the totals up to its end; level [l] of its
    skip pointers is the chunk [2 ^ l] back, for every level there is one. *)
Fixpoint wfChunk (c : streamChunk) : Prop :=
  match c with
  | mkChunk prev sk rs b sb =>
      rs <> [] /\ (length rs <= streamChunkSize)%nat /\
      b = sat (total streamRecordBytes (chainRecords c)) /\
      sb = sat (total streamRecordSnapshotBytes (chainRecords c)) /\
      (forall l, sk !! l = ancestors c !! (2 ^ l - 1)%nat) /\
      match prev with None => True | Some p => wfChunk p end
  end.

Lemma total_app f rs1 rs2 : total f (rs1 ++ rs2) = total f rs1 + total f rs2.
Proof. unfold total. by rewrite map_app, nsum_app. Qed.

Lemma chain_drop c d x : chain c !! d = Some x -> chain x = drop d (chain c).
Proof.
  revert c x. induction d as [|d IH]; intros c x; cbn [lookup list_lookup chain drop]; [by intros [= ->]|].
  destruct c as [[p|] sk rs b sb]; cbn [ancestors]; [|by destruct d]. apply IH.
Qed.

Lemma chain_wf c d x : wfChunk c -> chain c !! d = Some x -> wfChunk x.
Proof.
  revert c. induction d as [|d IH]; intros c Hw; cbn [lookup list_lookup chain]; [by intros [= <-]|].
  destruct c as [[p|] sk rs b sb]; cbn [ancestors]; [|by destruct d]. intros Hl.
  destruct Hw as (_ & _ & _ & _ & _ & Hw). by apply (IH p).
Qed.

(** The records of the chain end with those of the chunks from [d] back, then the later ones. *)
Lemma chain_records c d x : chain c !! d = Some x ->
  exists later, chainRecords c = chainRecords x ++ later /\ (d = O -> later = []).
Proof.
  revert c. induction d as [|d IH]; intros c; cbn [lookup list_lookup chain].
  - intros [= ->]. exists []. by rewrite app_nil_r.
  - destruct c as [[p|] sk rs b sb]; cbn [ancestors]; [|by destruct d]. intros Hl.
    destruct (IH p Hl) as (later & E & _). exists (later ++ rs). split; [|done]. cbn [chainRecords].
    by rewrite E, app_assoc.
Qed.

Definition earlier (c : streamChunk) : list StreamRecord :=
  match previous c with None => [] | Some p => chainRecords p end.

Lemma chainRecords_split c : chainRecords c = earlier c ++ records c.
Proof. by destruct c as [[p|] sk rs b sb]. Qed.

Lemma wf_nonempty c : wfChunk c -> records c <> [].
Proof. by destruct c as [[p|] sk rs b sb]; intros [H _]. Qed.

Lemma chain_older c d y : chain c !! S d = Some y -> exists mid, earlier c = chainRecords y ++ mid.
Proof.
  destruct c as [[p|] sk rs b sb]; cbn [chain ancestors]; [|by destruct d]. intros Hl.
  destruct (chain_records p d y Hl) as (later & E & _). by exists later.
Qed.

Section sequences.
Context (base : N).

Lemma chain_consecutive c d x :
  consecutive base (chainRecords c) -> chain c !! d = Some x -> consecutive base (chainRecords x).
Proof.
  intros Hc Hl. destruct (chain_records c d x Hl) as (later & E & _). rewrite E in Hc.
  by apply consecutive_app in Hc as [? _].
Qed.

Lemma chunk_first c : wfChunk c -> consecutive base (chainRecords c) -> firstSequence c = base + nlen (earlier c).
Proof.
  intros Hw Hc. rewrite chainRecords_split in Hc. apply consecutive_app in Hc as [_ Hc].
  pose proof (wf_nonempty c Hw) as Hne. unfold firstSequence. destruct (records c) as [|r rs]; [done|]. by destruct Hc.
Qed.

Lemma chunk_last c : wfChunk c -> consecutive base (chainRecords c) ->
  lastSequence c + 1 = base + nlen (chainRecords c).
Proof.
  intros Hw Hc. pose proof (wf_nonempty c Hw) as Hne. unfold lastSequence.
  destruct (last (records c)) as [r|] eqn:E; [|by apply last_None in E].
  rewrite last_lookup in E. rewrite chainRecords_split in Hc |- *. apply consecutive_app in Hc as [_ Hc].
  rewrite (consecutive_lookup _ _ _ _ Hc E). rewrite nlen_app.
  destruct (records c) as [|r0 rs] eqn:Er; [done|]. unfold nlen. cbn [length pred]. lia.
Qed.

(** An older chunk ends before a newer one begins. *)
Lemma chunk_older c d y :
  wfChunk c -> consecutive base (chainRecords c) -> chain c !! S d = Some y -> lastSequence y < firstSequence c.
Proof.
  intros Hw Hc Hl. rewrite (chunk_first c Hw Hc). destruct (chain_older c d y Hl) as (mid & ->).
  pose proof (chunk_last y (chain_wf c (S d) y Hw Hl) (chain_consecutive c _ y Hc Hl)). rewrite nlen_app. lia.
Qed.

Lemma chunk_first_le_last c : wfChunk c -> consecutive base (chainRecords c) -> firstSequence c <= lastSequence c.
Proof.
  intros Hw Hc. pose proof (chunk_last c Hw Hc). rewrite (chunk_first c Hw Hc).
  pose proof (wf_nonempty c Hw). rewrite chainRecords_split, nlen_app in *. destruct (records c); [done|].
  unfold nlen in *. cbn [length] in *. lia.
Qed.

Lemma skips_lookup c l : wfChunk c -> skips c !! l = ancestors c !! (2 ^ l - 1)%nat.
Proof. destruct c as [prev sk rs b sb]. intros (_ & _ & _ & _ & H & _). apply H. Qed.

Lemma pow2_pos l : (0 < 2 ^ l)%nat.
Proof. apply Nat.neq_0_lt_0, Nat.pow_nonzero. done. Qed.

Lemma skips_chain c l : wfChunk c -> skips c !! l = chain c !! (2 ^ l)%nat.
Proof.
  intros Hw. rewrite skips_lookup by done. pose proof (pow2_pos l).
  by replace (2 ^ l)%nat with (S (2 ^ l - 1)) at 2 by lia.
Qed.

Lemma lastSequence_mono c d y :
  wfChunk c -> consecutive base (chainRecords c) -> chain c !! d = Some y -> lastSequence y <= lastSequence c.
Proof.
  intros Hw Hc Hl. destruct d as [|d]; [injection Hl as ->; done|].
  pose proof (chunk_older c d y Hw Hc Hl). pose proof (chunk_first_le_last c Hw Hc). lia.
Qed.

(** The descent reaches the chunk that holds the sequence. *)
Lemma descend_ok t level : forall c d y,
  wfChunk c -> consecutive base (chainRecords c) -> chain c !! d = Some y ->
  firstSequence y <= t <= lastSequence y -> (d < 2 ^ level)%nat -> descend level c t = y.
Proof.
  induction level as [|level IH]; intros c d y Hw Hc Hl Ht Hd.
  - cbn in Hd. assert (d = O) as -> by lia. by injection Hl as ->.
  - cbn [descend]. pose proof (skips_chain c level Hw) as Hs. cbn [Nat.pow] in Hd.
    destruct (Nat.leb_spec (length (skips c)) level) as [Hle|Hgt].
    + apply (IH c d y); try done. apply lookup_ge_None_2 in Hle. rewrite Hs in Hle.
      apply lookup_ge_None in Hle. apply lookup_lt_Some in Hl. lia.
    + destruct (skips c !! level) as [z|] eqn:Ez; [|apply lookup_ge_None in Ez; lia].
      symmetry in Hs. assert (Hwz := chain_wf _ _ _ Hw Hs). assert (Hcz := chain_consecutive _ _ _ Hc Hs).
      destruct (Nat.le_gt_cases (2 ^ level) d) as [Hge|Hlt].
      * assert (Hl' : chain z !! (d - 2 ^ level)%nat = Some y).
        { rewrite (chain_drop c _ z Hs), lookup_drop. by replace (2 ^ level + (d - 2 ^ level))%nat with d by lia. }
        pose proof (lastSequence_mono z _ y Hwz Hcz Hl').
        destruct (N.leb_spec t (lastSequence z)); [|lia]. apply (IH z (d - 2 ^ level)%nat y); try done. lia.
      * assert (Hl' : chain y !! S (2 ^ level - d - 1)%nat = Some z).
        { rewrite (chain_drop c _ y Hl), lookup_drop. by replace (d + S (2 ^ level - d - 1))%nat with (2 ^ level)%nat by lia. }
        pose proof (chunk_older y _ z (chain_wf _ _ _ Hw Hl) (chain_consecutive _ _ _ Hc Hl) Hl').
        destruct (N.leb_spec t (lastSequence z)); [lia|]. by apply (IH c d y).
Qed.

(** Every sequence of the chain is in some chunk of it. *)
Lemma chain_find c t :
  wfChunk c -> consecutive base (chainRecords c) -> base <= t <= lastSequence c ->
  exists d y, chain c !! d = Some y /\ firstSequence y <= t <= lastSequence y.
Proof.
  intros Hw Hc. remember (length (ancestors c)) as n eqn:En. revert c En Hw Hc.
  induction n as [|n IH]; intros c En Hw Hc Ht.
  - exists O, c. split; [done|]. rewrite (chunk_first c Hw Hc). unfold earlier.
    destruct c as [[p|] sk rs b sb]; [done|]. cbn [previous]. unfold nlen. cbn [length]. lia.
  - destruct (N.le_gt_cases (firstSequence c) t) as [Hf|Hf]; [exists O, c; split; [done|lia]|].
    destruct c as [[p|] sk rs b sb]; [|done]. cbn [ancestors length] in En.
    assert (Hl : chain (mkChunk (Some p) sk rs b sb) !! 1%nat = Some p) by done.
    pose proof (chain_wf _ _ _ Hw Hl) as Hwp. pose proof (chain_consecutive _ _ _ Hc Hl) as Hcp.
    rewrite (chunk_first _ Hw Hc) in Hf. cbn [earlier previous] in Hf. pose proof (chunk_last p Hwp Hcp).
    destruct (IH p ltac:(lia) Hwp Hcp ltac:(lia)) as (d & y & Hd & Hy). exists (S d), y. by split.
Qed.

End sequences.

(** The skip pointers of a chain reach past its length. *)
Lemma skips_enough c : wfChunk c -> (length (chain c) <= 2 ^ length (skips c))%nat.
Proof.
  intros Hw. pose proof (skips_chain c (length (skips c)) Hw) as E.
  rewrite lookup_ge_None_2 in E by done. symmetry in E. by apply lookup_ge_None in E.
Qed.

Lemma descend_chain base c t :
  wfChunk c -> consecutive base (chainRecords c) -> base <= t <= lastSequence c ->
  exists d, chain c !! d = Some (descend (length (skips c)) c t) /\
    firstSequence (descend (length (skips c)) c t) <= t <= lastSequence (descend (length (skips c)) c t).
Proof.
  intros Hw Hc Ht. destruct (chain_find base c t Hw Hc Ht) as (d & y & Hl & Hy). exists d.
  rewrite (descend_ok base t _ c d y); try done. pose proof (skips_enough c Hw). apply lookup_lt_Some in Hl. lia.
Qed.

(** ** Building chunks *)

Lemma addSkips_ok p : wfChunk p -> forall fuel level found,
  (0 < level)%nat -> length found = level -> (S (length (skips p)) < level + fuel)%nat ->
  (forall l, (l < level)%nat -> found !! l = chain p !! (2 ^ l - 1)%nat) ->
  forall l, addSkips fuel level found !! l = chain p !! (2 ^ l - 1)%nat.
Proof.
  intros Hw. induction fuel as [|fuel IH]; intros level found Hpos Hlen Hf Hok l.
  - exfalso. specialize (Hok (S (length (skips p))) ltac:(lia)).
    destruct (lookup_lt_is_Some_2 found (S (length (skips p))) ltac:(lia)) as [x Hx]. rewrite Hx in Hok.
    symmetry in Hok. apply lookup_lt_Some in Hok. pose proof (skips_enough p Hw). cbn [Nat.pow] in Hok.
    pose proof (pow2_pos (length (skips p))). lia.
  - cbn [addSkips]. destruct (lookup_lt_is_Some_2 found (pred level) ltac:(lia)) as [a Ha]. rewrite Ha.
    pose proof (Hok (pred level) ltac:(lia)) as Hca. rewrite Ha in Hca. symmetry in Hca.
    pose proof (chain_wf _ _ _ Hw Hca) as Hwa. pose proof (pow2_pos (pred level)) as Hpp.
    assert (Hpow : (2 ^ level = 2 ^ pred level + 2 ^ pred level)%nat).
    { replace level with (S (pred level)) at 1 by lia. cbn [Nat.pow]. lia. }
    assert (Hs : skips a !! pred level = chain p !! (2 ^ level - 1)%nat).
    { rewrite (skips_chain a) by done. rewrite (chain_drop _ _ _ Hca), lookup_drop. f_equal. lia. }
    destruct (Nat.ltb_spec (length (skips a)) level) as [Hlt|Hge].
    + rewrite lookup_ge_None_2 in Hs by lia. symmetry in Hs. apply lookup_ge_None in Hs.
      destruct (Nat.lt_ge_cases l level) as [Hl|Hl]; [by apply Hok|].
      assert (2 ^ level <= 2 ^ l)%nat by (by apply Nat.pow_le_mono_r).
      by rewrite !lookup_ge_None_2 by lia.
    + destruct (lookup_lt_is_Some_2 (skips a) (pred level) ltac:(lia)) as [s Es]. rewrite Es in Hs |- *.
      apply IH; [lia|rewrite length_app; cbn; lia|lia|].
      intros k Hk. destruct (decide (k < level)%nat) as [Hkl|Hkl].
      * rewrite lookup_app_l by lia. by apply Hok.
      * assert (k = level) as -> by lia. rewrite lookup_app_r by lia. rewrite Hlen, Nat.sub_diag. cbn. done.
Qed.

Definition optRecords (t : option streamChunk) : list StreamRecord :=
  match t with None => [] | Some c => chainRecords c end.
Definition optWf (t : option streamChunk) : Prop := match t with None => True | Some c => wfChunk c end.

Lemma chunkBytes_wf c : wfChunk c -> chunkBytes c = sat (total streamRecordBytes (chainRecords c)) /\
  chunkSnapshotBytes c = sat (total streamRecordSnapshotBytes (chainRecords c)).
Proof. destruct c as [prev sk rs b sb]. intros (_ & _ & -> & -> & _). done. Qed.

Lemma newStreamChunk_wf t rs :
  optWf t -> rs <> [] -> (length rs <= streamChunkSize)%nat ->
  wfChunk (newStreamChunk t rs) /\ chainRecords (newStreamChunk t rs) = optRecords t ++ rs.
Proof.
  intros Ht Hne Hlen. destruct t as [p|]; cbn [newStreamChunk optRecords].
  - split; [|done]. destruct (chunkBytes_wf p Ht) as [-> ->]. cbn [optWf] in Ht.
    split_and!; try done; cbn [chainRecords]; rewrite ?foldl_sat, ?total_app; try done.
    intros l. change (ancestors (mkChunk (Some p) _ _ _ _)) with (chain p).
    apply addSkips_ok; [done|lia|done|lia|]. intros k Hk. by assert (k = O) as -> by lia.
  - split; [|done]. split_and!; try done; cbn [chainRecords app];
      [exact (foldl_sat streamRecordBytes rs 0)|exact (foldl_sat streamRecordSnapshotBytes rs 0)].
Qed.

Lemma appendTail_wf t r :
  optWf t -> wfChunk (appendTail t r) /\ chainRecords (appendTail t r) = optRecords t ++ [r].
Proof.
  intros Ht. destruct t as [c|]; cbn [appendTail]; [|by apply newStreamChunk_wf; [done|done|vm_compute; lia]].
  destruct (Nat.eqb_spec (length (records c)) streamChunkSize) as [|Hne].
  - by apply newStreamChunk_wf; [done|done|vm_compute; lia].
  - destruct (chunkBytes_wf c Ht) as [E1 E2]. destruct c as [prev sk rs b sb].
    cbn [previous skips records chunkBytes chunkSnapshotBytes optRecords optWf] in *.
    destruct Ht as (_ & Hl & _ & _ & Hsk & Hp).
    assert (Hr : chainRecords (mkChunk prev sk (rs ++ [r]) (snapshotAdd b (streamRecordBytes r))
                   (snapshotAdd sb (streamRecordSnapshotBytes r))) = chainRecords (mkChunk prev sk rs b sb) ++ [r]).
    { cbn [chainRecords]. by rewrite app_assoc. }
    split; [|done]. split_and!.
    + by destruct rs.
    + rewrite length_app. cbn [length]. unfold streamChunkSize in *. lia.
    + rewrite Hr, total_app, E1, snapshotAdd_sat. f_equal. unfold total. cbn. lia.
    + rewrite Hr, total_app, E2, snapshotAdd_sat. f_equal. unfold total. cbn. lia.
    + exact Hsk.
    + exact Hp.
Qed.
