(* ===== verification/StreamLogs.v ===== *)
(** * Logs: lookups, visible records, byte totals and compaction *)
From S2P Require Import Prelude.
From S2P Require Import GoBytes.
From S2P Require Import BinaryCodec.
From S2P Require Import BinaryCodecSpec.
From S2P Require Import BinaryValue.
From S2P Require Import Values.
From S2P Require Import ValuesSpec.
From S2P Require Import Streams.
From S2P Require Import StreamsSpec.

Implicit Types (c : streamChunk) (rs vis hidden : list StreamRecord) (log : streamLog).

(** A log and the records it shows. *)
Record logHolds log c (base : N) hidden vis : Prop := mkHolds {
  lh_tail : tail log = Some c;
  lh_wf : wfChunk c;
  lh_cons : consecutive base (chainRecords c);
  lh_split : chainRecords c = hidden ++ vis;
  lh_some : vis <> [];
  lh_first : first log = base + nlen hidden;
  lh_count : count log = nlen vis;
  lh_bytes : logBytes log = sat (total streamRecordBytes vis);
  lh_snapshot : logSnapshotBytes log = sat (total streamRecordSnapshotBytes vis);
  lh_base : 1 <= base;
  lh_bound : base + nlen (chainRecords c) < 2 ^ 64 }.

Definition logOK log vis : Prop :=
  (log = emptyLog /\ vis = []) \/ exists c base hidden, logHolds log c base hidden vis.

(** ** Walking back along the chain *)

Lemma filter_none_all {A} (P : A -> Prop) `{forall x, Decision (P x)} l : Forall (fun x => ~ P x) l -> base.filter P l = [].
Proof. induction 1; [done|]. by rewrite filter_cons_False. Qed.

Lemma consecutive_bound base rs : consecutive base rs -> Forall (fun r => base <= Sequence r < base + nlen rs) rs.
Proof.
  intros Hc. apply Forall_lookup_2. intros i r Hi. rewrite (consecutive_lookup _ _ _ _ Hc Hi).
  apply lookup_lt_Some in Hi. unfold nlen. lia.
Qed.

(** The chunks of the loop, oldest first, give the records from [lo] on. *)
Lemma chunksFrom_filter (P : StreamRecord -> Prop) `{forall r, Decision (P r)} base lo c :
  (forall r, P r -> lo <= Sequence r) -> wfChunk c -> consecutive base (chainRecords c) ->
  concat (map (fun x => base.filter P (records x)) (rev (chunksFrom c lo))) = base.filter P (chainRecords c).
Proof.
  intros HP. remember (length (ancestors c)) as n eqn:En. revert c En.
  induction n as [|n IH]; intros c En Hw Hc.
  - destruct c as [[p|] sk rs b sb]; [done|]. cbn [chunksFrom]. destruct (N.leb_spec lo (lastSequence (mkChunk None sk rs b sb))) as [Hle|Hgt].
    + cbn. by rewrite app_nil_r.
    + symmetry. cbn [rev map concat]. apply filter_none_all. pose proof (chunk_last base _ Hw Hc) as Hlast.
      eapply Forall_impl; [exact (consecutive_bound _ _ Hc)|]. intros r Hr Hp. apply HP in Hp. cbv beta in Hr. lia.
  - destruct c as [[p|] sk rs b sb]; [|done].
    assert (Hl : chain (mkChunk (Some p) sk rs b sb) !! 1%nat = Some p) by done.
    pose proof (chain_wf _ _ _ Hw Hl) as Hwp. pose proof (chain_consecutive base _ _ _ Hc Hl) as Hcp.
    cbn [chunksFrom]. destruct (N.leb_spec lo (lastSequence (mkChunk (Some p) sk rs b sb))) as [Hle|Hgt].
    + cbn [rev]. rewrite map_app, concat_app, IH by (done || (cbn in En; lia)). cbn [map concat].
      by rewrite app_nil_r, <- filter_app.
    + symmetry. cbn [rev map concat]. apply filter_none_all. pose proof (chunk_last base _ Hw Hc) as Hlast.
      eapply Forall_impl; [exact (consecutive_bound _ _ Hc)|]. intros r Hr Hp. apply HP in Hp. cbv beta in Hr. lia.
Qed.

Lemma filter_rev {A} (P : A -> Prop) `{forall x, Decision (P x)} l : base.filter P (rev l) = rev (base.filter P l).
Proof.
  induction l as [|x l IH]; [done|]. cbn [rev]. rewrite filter_app, IH.
  destruct (decide (P x)); [rewrite !filter_cons_True by done|rewrite !filter_cons_False by done]; [done|].
  by rewrite filter_nil, app_nil_r.
Qed.

Lemma concat_rev_map {A B} (f : A -> list B) l : concat (map (fun x => rev (f x)) (rev l)) = rev (concat (map f l)).
Proof.
  induction l as [|x l IH]; [done|]. cbn [rev map concat]. rewrite map_app, concat_app, IH. cbn.
  by rewrite app_nil_r, rev_app_distr.
Qed.

(** The same, newest record first, as the byte trim visits them. *)
Lemma chunksFrom_rev (P : StreamRecord -> Prop) `{forall r, Decision (P r)} base lo c :
  (forall r, P r -> lo <= Sequence r) -> wfChunk c -> consecutive base (chainRecords c) ->
  concat (map (fun x => base.filter P (rev (records x))) (chunksFrom c lo)) = rev (base.filter P (chainRecords c)).
Proof.
  intros HP Hw Hc. rewrite <- (chunksFrom_filter P base lo c HP Hw Hc).
  rewrite <- (concat_rev_map (fun x => base.filter P (records x)) (rev (chunksFrom c lo))), rev_involutive.
  f_equal. apply map_ext. intros x. apply filter_rev.
Qed.

(** And newest chunk first, as the totals visit them. *)
Lemma concat_map_perm {A B} (f : A -> list B) l l' : l ≡ₚ l' -> concat (map f l) ≡ₚ concat (map f l').
Proof.
  induction 1 as [|x l l' Hp IH|x y l|l1 l2 l3 H1 IH1 H2 IH2]; cbn [map concat].
  - done.
  - by rewrite IH.
  - rewrite !app_assoc. by rewrite (Permutation_app_comm (f y)).
  - by etrans.
Qed.

Lemma drop_hidden hidden vis : drop (N.to_nat (nlen hidden)) (hidden ++ vis) = vis.
Proof. unfold nlen. rewrite Nat2N.id. apply drop_app_length. Qed.

Section holds.
Context {log : streamLog} {c : streamChunk} {base : N} {hidden vis : list StreamRecord}.
Hypothesis Hh : logHolds log c base hidden vis.

Lemma holds_visible : base.filter (fun r => first log <= Sequence r) (chainRecords c) = vis.
Proof.
  destruct Hh as [_ _ Hc Hs _ Hf _ _ _ _ _]. rewrite (filter_from base) by done.
  rewrite Hf, Hs. replace (base + nlen hidden - base) with (nlen hidden) by lia. apply drop_hidden.
Qed.

Lemma holds_vis_cons : consecutive (first log) vis.
Proof.
  destruct Hh as [_ _ Hc Hs _ Hf _ _ _ _ _]. rewrite Hs in Hc. apply consecutive_app in Hc as [_ Hc]. by rewrite Hf.
Qed.

(** The newest sequence. *)
Lemma holds_last : lastSequence c + 1 = first log + nlen vis.
Proof.
  destruct Hh as [_ Hw Hc Hs _ Hf _ _ _ _ _]. rewrite (chunk_last base c Hw Hc), Hs, nlen_app. lia.
Qed.

Lemma holds_pos : 0 < nlen vis.
Proof. destruct Hh as [_ _ _ _ Hn _ _ _ _ _ _]. destruct vis; [done|]. unfold nlen. cbn. lia. Qed.

Lemma visibleRecords_perm : visibleRecords log ≡ₚ vis.
Proof.
  pose proof Hh as [Ht Hw Hc _ _ _ _ _ _ _ _]. unfold visibleRecords, tailChunks. rewrite Ht.
  etrans; [apply concat_map_perm, Permutation_rev|].
  rewrite (chunksFrom_filter _ base (first log) c); [|done|done|done]. by rewrite holds_visible.
Qed.

(** The chunk of a visible sequence. *)
Lemma logChunk_ok t : first log <= t <= lastSequence c ->
  exists y d, logChunk log t = Some y /\ chain c !! d = Some y /\ firstSequence y <= t <= lastSequence y.
Proof.
  intros Ht. pose proof Hh as [Hta Hw Hc Hs Hn Hf Hco _ _ Hb Hbd]. pose proof holds_pos.
  unfold logChunk. rewrite Hta. rewrite (proj2 (N.eqb_neq _ _)), (proj2 (N.ltb_ge _ _)), (proj2 (N.ltb_ge _ _)) by lia.
  cbn [orb]. destruct (descend_chain base c t Hw Hc ltac:(lia)) as (d & Hd & Hy).
  rewrite (proj2 (N.ltb_ge _ _)) by lia. by eauto.
Qed.

End holds.

(** ** Reading *)

(** Consecutive records from [lo], [n] of them. *)
Lemma filter_window base rs lo n : consecutive base rs -> base <= lo ->
  base.filter (fun r => lo <= Sequence r /\ Sequence r <= lo + N.of_nat n) rs = take (S n) (drop (N.to_nat (lo - base)) rs).
Proof.
  intros Hc Hlo.
  assert (E : base.filter (fun r => lo <= Sequence r /\ Sequence r <= lo + N.of_nat n) rs =
              base.filter (fun r => Sequence r <= lo + N.of_nat n) (base.filter (fun r => lo <= Sequence r) rs)).
  { rewrite list_filter_filter. apply list_filter_iff. intros r. tauto. }
  rewrite E, (filter_from base) by done. set (k := N.to_nat (lo - base)).
  destruct (Nat.le_gt_cases k (length rs)) as [Hk|Hk].
  - assert (Hd : consecutive lo (drop k rs)).
    { replace lo with (base + N.of_nat k) by lia. by apply consecutive_drop. }
    rewrite (filter_upto lo) by done. f_equal. lia.
  - rewrite drop_ge by lia. done.
Qed.

(** Past the number of records that can fit, the byte limit has struck. *)
Lemma appendRecords_cap maxBytes rs1 : forall result rs2,
  0 < maxBytes -> maxBytes <= max_uint64 -> readBytes result <= maxBytes -> maxBytes < readBytes result + 48 * nlen rs1 ->
  ByteLimited result = false ->
  appendRecords result (rs1 ++ rs2) maxBytes = appendRecords result rs1 maxBytes.
Proof.
  induction rs1 as [|r rs1 IH]; intros result rs2 Hm Hmax Hb Hcap Hl; [unfold nlen in Hcap; cbn in Hcap; lia|].
  cbn [app appendRecords]. unfold appendRecord. rewrite estimateContext_eq. fold (streamRecordBytes r).
  pose proof (streamRecordBytes_ge r) as Hge.
  rewrite (proj2 (N.eqb_neq maxBytes 0)) by lia. cbn [negb andb].
  destruct (N.ltb_spec maxBytes (streamRecordBytes r)) as [|Hle]; [done|]. cbn [orb].
  destruct (N.ltb_spec (maxBytes - streamRecordBytes r) (readBytes result)) as [|Hfit]; [done|].
  cbn [ByteLimited]. rewrite Hl. apply IH; cbn [readBytes ByteLimited]; try done;
    rewrite snapshotAdd_le by lia; unfold sat; rewrite N.min_l by lia; [lia|].
  unfold nlen in Hcap |- *. cbn [length] in Hcap. lia.
Qed.

(** What a read returns, by the records alone. *)
Definition readSpec vis (after limit maxBytes : N) : StreamReadResult :=
  appendRecords emptyRead (take (N.to_nat limit) (base.filter (fun r => after < Sequence r) vis)) maxBytes.

Lemma appendRecords_take maxBytes rs n m :
  maxBytes <= max_uint64 -> (n <= m)%nat ->
  (maxBytes <> 0 /\ n = N.to_nat (maxBytes / 48 + 1) \/ (length rs <= n)%nat \/ n = m) ->
  appendRecords emptyRead (take n rs) maxBytes = appendRecords emptyRead (take m rs) maxBytes.
Proof.
  intros Hmax Hnm Hcase. destruct (Nat.le_gt_cases (length rs) n) as [Hge|Hlt]; [by rewrite !take_ge by lia|].
  destruct Hcase as [[Hz En]|[?| ->]]; [|lia|done].
  replace (take m rs) with (take n rs ++ take (m - n) (drop n rs)).
  2:{ rewrite <- (take_drop n (take m rs)). rewrite take_take, skipn_firstn_comm.
      by replace (n `min` m)%nat with n by lia. }
  symmetry. apply appendRecords_cap; [lia|done|cbn; lia| |done].
  cbn [readBytes emptyRead]. unfold nlen. rewrite length_take, Nat.min_l by lia.
  pose proof (N.mul_succ_div_gt maxBytes 48 ltac:(done)). lia.
Qed.

Lemma filter_after vis (first after : N) : consecutive first vis ->
  base.filter (fun r => after < Sequence r) vis = drop (N.to_nat (after + 1 - first)) vis.
Proof.
  intros Hc. rewrite <- (filter_from first) by done. apply list_filter_iff. intros r. lia.
Qed.

(** Both ways of collecting the window give its records. *)
Lemma window_records log c base hidden vis y d lo n :
  logHolds log c base hidden vis -> chain c !! d = Some y ->
  first log <= lo -> firstSequence y <= lo + N.of_nat n <= lastSequence y ->
  (firstSequence y <= lo -> take (S n) (drop (N.to_nat (lo - firstSequence y)) (records y)) =
     take (S n) (drop (N.to_nat (lo - first log)) vis)) /\
  (forall last, last = lo + N.of_nat n ->
     concat (map (fun x => base.filter (fun r => lo <= Sequence r /\ Sequence r <= last) (records x)) (rev (chunksFrom y lo))) =
     take (S n) (drop (N.to_nat (lo - first log)) vis)).
Proof.
  intros Hh Hy Hlo Hwin. pose proof Hh as [Ht Hw Hc Hs Hn Hf Hco _ _ Hb Hbd].
  pose proof (chain_wf _ _ _ Hw Hy) as Hwy. pose proof (chain_consecutive base _ _ _ Hc Hy) as Hcy.
  assert (Ev : take (S n) (drop (N.to_nat (lo - first log)) vis) =
               base.filter (fun r => lo <= Sequence r /\ Sequence r <= lo + N.of_nat n) (chainRecords c)).
  { rewrite (filter_window base) by (done || lia). f_equal. rewrite Hs.
    replace (N.to_nat (lo - base)) with (N.to_nat (nlen hidden) + N.to_nat (lo - first log))%nat by lia.
    by rewrite <- drop_drop, drop_hidden. }
  destruct (chain_records c d y Hy) as (later & El & _).
  assert (Elater : base.filter (fun r => lo <= Sequence r /\ Sequence r <= lo + N.of_nat n) later = []).
  { rewrite El in Hc. apply consecutive_app in Hc as [_ Hl]. pose proof (chunk_last base y Hwy Hcy).
    apply filter_none_all. eapply Forall_impl; [exact (consecutive_bound _ _ Hl)|]. intros r Hr. cbv beta in Hr. lia. }
  rewrite El, filter_app, Elater, app_nil_r in Ev. split.
  - intros Hle. rewrite Ev, chainRecords_split, filter_app.
    rewrite chainRecords_split in Hcy. apply consecutive_app in Hcy as [He Hr].
    assert (Ef : firstSequence y = base + nlen (earlier y))
      by (apply chunk_first; [done|by eapply chain_consecutive]).
    rewrite (filter_none_all _ (earlier y)).
    + cbn [app]. rewrite <- Ef in Hr. by rewrite (filter_window (firstSequence y)).
    + eapply Forall_impl; [exact (consecutive_bound _ _ He)|]. intros r Hrr. cbv beta in Hrr. lia.
  - intros last ->. rewrite Ev. apply (chunksFrom_filter _ base); [by intros r [? _]|done|done].
Qed.

Lemma u64_id n : n < 2 ^ 64 -> u64 n = n.
Proof. intros Hn. unfold u64. by apply N.mod_small. Qed.

Lemma ReadBounded_holds s name c base hidden vis after limit maxBytes :
  logHolds (getLog s name) c base hidden vis -> after < 2 ^ 64 -> maxBytes <= max_uint64 ->
  ReadBounded s name after limit maxBytes = readSpec vis after limit maxBytes.
Proof.
  intros Hh Haft Hmax. unfold ReadBounded, readSpec. set (log := getLog s name) in *.
  pose proof Hh as [Ht Hw Hc Hs Hn Hf Hco _ _ Hb Hbd]. pose proof (holds_pos Hh) as Hpos.
  pose proof (holds_last Hh) as Hlast. pose proof (holds_vis_cons Hh) as Hvc.
  assert (Hend : first log + nlen vis < 2 ^ 64) by (rewrite Hf, Hs, nlen_app in *; lia).
  rewrite (filter_after vis (first log)) by done. rewrite Hco.
  destruct (N.eqb_spec limit 0) as [->|Hlim]; [done|]. rewrite (proj2 (N.eqb_neq _ _)) by lia. cbn [orb].
  rewrite u64_id, sub64_small by lia.
  destruct (N.leb_spec (first log + nlen vis - 1) after) as [Hge|Hlt].
  { rewrite drop_ge by (unfold nlen in *; lia). by rewrite take_nil. }
  rewrite (u64_id (after + 1)) by lia.
  set (lo := if after + 1 <? first log then first log else after + 1).
  assert (Hlo : first log <= lo /\ lo < first log + nlen vis /\
                N.to_nat (after + 1 - first log) = N.to_nat (lo - first log)).
  { unfold lo. destruct (N.ltb_spec (after + 1) (first log)); split_and!; lia. }
  destruct Hlo as (Hlo1 & Hlo2 & ->). clearbody lo.
  set (available := if first log <? lo then nlen vis - N.min (nlen vis) (lo - first log) else nlen vis).
  assert (Hav : available = nlen vis - (lo - first log)).
  { unfold available. destruct (N.ltb_spec (first log) lo); lia. }
  clearbody available. set (t0 := N.min limit available).
  assert (Et0 : t0 = N.min limit available) by done. clearbody t0.
  set (t := if negb (maxBytes =? 0) && (maxBytes / 48 <? t0) then maxBytes / 48 + 1 else t0).
  assert (Htake : 1 <= t <= t0 /\ (maxBytes <> 0 /\ t = maxBytes / 48 + 1 \/ t = t0)).
  { unfold t. clear t. set (q := maxBytes / 48). clearbody q.
    destruct (N.eqb_spec maxBytes 0); cbn [negb andb]; [split; [lia|by right]|].
    destruct (N.ltb_spec q t0); (split; [lia|]); [by left|by right]. }
  destruct Htake as [Ht1 Ht2]. clearbody t.
  assert (Elen : nlen (drop (N.to_nat (lo - first log)) vis) = available).
  { unfold nlen in *. rewrite length_drop. lia. }
  assert (Etake : appendRecords emptyRead (take (N.to_nat t) (drop (N.to_nat (lo - first log)) vis)) maxBytes =
                  appendRecords emptyRead (take (N.to_nat limit) (drop (N.to_nat (lo - first log)) vis)) maxBytes).
  { apply appendRecords_take; [done|lia|]. unfold nlen in Elen. destruct Ht2 as [[Hz ->]| ->]; [left; by split|].
    destruct (N.le_gt_cases limit available); [right; right; lia|right; left; lia]. }
  rewrite <- Etake. rewrite u64_id, sub64_small by lia.
  destruct (logChunk_ok Hh (lo + t - 1) ltac:(lia)) as (y & d & -> & Hd & Hy).
  destruct (window_records log c base hidden vis y d lo (pred (N.to_nat t)) Hh Hd Hlo1 ltac:(lia)) as [W1 W2].
  replace (S (pred (N.to_nat t))) with (N.to_nat t) in W1, W2 by lia.
  destruct (N.leb_spec (firstSequence y) lo) as [Hle|Hgt]; [by rewrite W1|].
  by rewrite (W2 (lo + t - 1)) by lia.
Qed.

(** ** Byte totals through a sequence *)

Lemma bytesThrough_ok base rs s : forall a b, consecutive base rs ->
  bytesThrough rs s (sat a) (sat b) =
  (sat (a + total streamRecordBytes (base.filter (fun r => Sequence r <= s) rs)),
   sat (b + total streamRecordSnapshotBytes (base.filter (fun r => Sequence r <= s) rs))).
Proof.
  revert base. induction rs as [|r rs IH]; intros base a b Hc; cbn [bytesThrough].
  - unfold total. cbn. by rewrite !N.add_0_r.
  - destruct Hc as [Hr Hc]. destruct (N.ltb_spec s (Sequence r)) as [Hlt|Hge].
    + rewrite filter_none_all; [unfold total; cbn; by rewrite !N.add_0_r|].
      constructor; [lia|]. eapply Forall_impl; [exact (consecutive_bound _ _ Hc)|]. intros x Hx. cbv beta in Hx. lia.
    + rewrite filter_cons_True by done. rewrite !snapshotAdd_sat, (IH (base + 1)) by done.
      unfold total. cbn [map nsum foldr]. unfold nsum. by rewrite !N.add_assoc.
Qed.

Lemma bytesThrough_chain base c s :
  wfChunk c -> consecutive base (chainRecords c) -> firstSequence c <= s + 1 ->
  streamChunkBytesThrough (Some c) s =
  (sat (total streamRecordBytes (base.filter (fun r => Sequence r <= s) (chainRecords c))),
   sat (total streamRecordSnapshotBytes (base.filter (fun r => Sequence r <= s) (chainRecords c)))).
Proof.
  intros Hw Hc Hf. pose proof (chunk_first base c Hw Hc) as Ef.
  rewrite chainRecords_split, filter_app, !total_app. rewrite chainRecords_split in Hc.
  apply consecutive_app in Hc as [He Hr].
  assert (Ee : base.filter (fun r => Sequence r <= s) (earlier c) = earlier c).
  { rewrite (filter_upto base) by done. apply take_ge. unfold nlen in *. lia. }
  rewrite Ee. destruct c as [[p|] sk rs b sb]; cbn [streamChunkBytesThrough previous earlier records] in *.
  - destruct Hw as (_ & _ & _ & _ & _ & Hwp). destruct (chunkBytes_wf p Hwp) as [-> ->].
    by apply bytesThrough_ok with (base := base + nlen (chainRecords p)).
  - exact (bytesThrough_ok (base + nlen []) rs s 0 0 Hr).
Qed.

(** The totals before a visible position, [gone] records into the view. *)
Lemma through_ok log c base hidden vis gone keep t s :
  logHolds log c base hidden vis -> vis = gone ++ keep -> s + 1 = first log + nlen gone ->
  first log <= t <= lastSequence c -> (t = s \/ t = s + 1) ->
  streamChunkBytesThrough (logChunk log t) s =
  (sat (total streamRecordBytes (hidden ++ gone)), sat (total streamRecordSnapshotBytes (hidden ++ gone))).
Proof.
  intros Hh Ev Es Ht Hts. destruct (logChunk_ok Hh t Ht) as (y & d & -> & Hd & Hy).
  pose proof Hh as [_ Hw Hc Hs _ Hf _ _ _ _ _].
  pose proof (chain_wf _ _ _ Hw Hd) as Hwy. pose proof (chain_consecutive base _ _ _ Hc Hd) as Hcy.
  rewrite (bytesThrough_chain base y) by (done || lia).
  assert (E : base.filter (fun r => Sequence r <= s) (chainRecords y) = hidden ++ gone); [|by rewrite E].
  rewrite (filter_upto base) by done. destruct (chain_records c d y Hd) as (later & El & _).
  pose proof (chunk_last base y Hwy Hcy) as Hly.
  assert (Elen : N.to_nat (s + 1 - base) = length (hidden ++ gone)) by (rewrite length_app; unfold nlen in *; lia).
  rewrite Elen. rewrite Hs, Ev, app_assoc in El. apply (f_equal (take (length (hidden ++ gone)))) in El.
  rewrite take_app_length in El. rewrite El at 2. rewrite take_app_le; [done|]. unfold nlen in *. lia.
Qed.

(** ** Compaction *)

Lemma chunksFrom_chain c lo x : x ∈ chunksFrom c lo -> exists d, chain c !! d = Some x.
Proof.
  remember (length (ancestors c)) as n eqn:En. revert c En. induction n as [|n IH]; intros c En;
    destruct c as [[p|] sk rs b sb]; try done; cbn [chunksFrom]; destruct (_ <=? _); try (by intros ?%elem_of_nil).
  - intros Hx. apply list_elem_of_singleton in Hx as ->. by exists O.
  - intros [->|Hx]%elem_of_cons; [by exists O|]. destruct (IH p ltac:(cbn in En; lia) Hx) as [d Hd]. by exists (S d).
Qed.

Lemma compact_fold lo cs : forall t,
  optWf t -> Forall (fun x => wfChunk x /\ exists b, consecutive b (records x)) cs ->
  let r := foldl (fun t c => match dropBefore lo (records c) with [] => t | rs => Some (newStreamChunk t rs) end) t cs in
  optWf r /\ optRecords r = optRecords t ++ concat (map (fun x => base.filter (fun r => lo <= Sequence r) (records x)) cs).
Proof.
  induction cs as [|x cs IH]; intros t Ht Hcs; cbn [foldl map concat]; [by rewrite app_nil_r|].
  apply Forall_cons in Hcs as [[Hw [b Hb]] Hcs].
  rewrite (dropBefore_from b), (filter_from b) by done.
  destruct (drop (N.to_nat (lo - b)) (records x)) as [|r rs] eqn:Ed; [by apply IH|].
  assert (Hlen : (length (r :: rs) <= streamChunkSize)%nat).
  { rewrite <- Ed, length_drop. destruct x as [prev sk rs' b' sb']. destruct Hw as (_ & Hl & _). cbn [records]. lia. }
  destruct (newStreamChunk_wf t (r :: rs) Ht ltac:(done) Hlen) as [Hwn En].
  destruct (IH (Some (newStreamChunk t (r :: rs))) Hwn Hcs) as [H1 H2]. split; [exact H1|].
  rewrite H2. cbn [optRecords]. by rewrite En, <- app_assoc.
Qed.

Lemma compactChunks_ok log c base hidden vis :
  logHolds log c base hidden vis -> exists t, compactChunks log = Some t /\ wfChunk t /\ chainRecords t = vis.
Proof.
  intros Hh. pose proof Hh as [Ht Hw Hc _ Hn _ _ _ _ _ _]. unfold compactChunks, tailChunks. rewrite Ht.
  assert (Hcs : Forall (fun x => wfChunk x /\ exists b, consecutive b (records x)) (rev (chunksFrom c (first log)))).
  { apply List.Forall_rev, Forall_forall. intros x (d & Hd)%chunksFrom_chain.
    split; [by eapply chain_wf|]. pose proof (chain_consecutive base _ _ _ Hc Hd) as Hx.
    rewrite chainRecords_split in Hx. apply consecutive_app in Hx as [_ Hx]. by eauto. }
  destruct (compact_fold (first log) _ None I Hcs) as [H1 H2]. cbn [optRecords app] in H2.
  rewrite (chunksFrom_filter _ base (first log) c) in H2 by done. rewrite (holds_visible Hh) in H2.
  destruct (foldl _ None _) as [t|]; [by exists t|]. cbn in H2. by destruct Hn.
Qed.

(** ** Trimming a log *)

Lemma sat_exact n : isMax (sat n) = false -> n < max_uint64 /\ sat n = n.
Proof. unfold isMax, sat. intros H%N.eqb_neq. lia. Qed.

Definition trimmed log (through : N) : N := N.min through (first log + count log - 1) - first log + 1.

(** The log after a trim that keeps something, before any compaction. *)
Lemma trimmed_holds log c base hidden vis gone keep lb sb :
  logHolds log c base hidden vis -> vis = gone ++ keep -> keep <> [] ->
  lb = sat (total streamRecordBytes keep) -> sb = sat (total streamRecordSnapshotBytes keep) ->
  logHolds (mkLog (tail log) (first log + nlen gone) (nlen keep) lb sb) c base (hidden ++ gone) keep.
Proof.
  intros [Ht Hw Hc Hs Hn Hf Hco _ _ Hb Hbd] -> Hk -> ->. split; cbn; try done.
  - by rewrite Hs, app_assoc.
  - rewrite nlen_app. lia.
Qed.

Lemma compacted_holds log c base hidden vis t :
  logHolds log c base hidden vis -> wfChunk t -> chainRecords t = vis ->
  logHolds (mkLog (Some t) (first log) (count log) (chunkBytes t) (chunkSnapshotBytes t)) t (first log) [] vis.
Proof.
  intros Hh Hw Hr. pose proof (holds_vis_cons Hh) as Hv. pose proof Hh as [_ _ _ Hs Hn Hf Hco _ _ Hb Hbd].
  destruct (chunkBytes_wf t Hw) as [-> ->]. rewrite Hr. split; cbn; try done; rewrite ?Hr; try done.
  - unfold nlen. cbn. lia.
  - lia.
  - rewrite Hf. rewrite Hs, nlen_app in Hbd. lia.
Qed.

(** Compaction looks only at the tail and the first sequence. *)
Lemma compactChunks_fields log lb sb n :
  compactChunks (mkLog (tail log) (first log) n lb sb) = compactChunks log.
Proof. done. Qed.

Lemma split_take {A} (l : list A) (k : N) : k <= nlen l ->
  exists gone keep, l = gone ++ keep /\ nlen gone = k /\ keep = drop (N.to_nat k) l.
Proof.
  intros Hk. exists (take (N.to_nat k) l), (drop (N.to_nat k) l). split_and!; [by rewrite take_drop| |done].
  unfold nlen in *. rewrite length_take. lia.
Qed.

(** Compacting shows the same records, with their exact totals. *)
Lemma compactLog_ok log c base hidden vis lb sb saturated :
  logHolds log c base hidden vis -> (saturated = false -> lb = logBytes log /\ sb = logSnapshotBytes log) ->
  exists c' base' hidden', logHolds (compactLog (mkLog (tail log) (first log) (count log) lb sb) saturated) c' base' hidden' vis.
Proof.
  intros Hh Hsat. unfold compactLog. cbn [count tail logBytes first].
  pose proof Hh as [_ _ _ _ _ _ Hco _ _ _ _]. pose proof (holds_pos Hh).
  rewrite (proj2 (N.eqb_neq (count log) 0)) by lia. cbn [negb andb].
  destruct (compactChunks_ok log c base hidden vis Hh) as (t & Et & Hwt & Hrt).
  rewrite compactChunks_fields, Et.
  destruct saturated; cbn [orb]; [exists t, (first log), []; by apply (compacted_holds log c base hidden)|].
  destruct (_ <=? _); [exists t, (first log), []; by apply (compacted_holds log c base hidden)|].
  destruct (Hsat eq_refl) as [-> ->]. exists c, base, hidden. by destruct log.
Qed.

Section trim.
Context (s : StreamStore) (name : gostring) (log : streamLog) (through : N).
Context (c : streamChunk) (base : N) (hidden vis : list StreamRecord) (restB restS : N).
Hypothesis Hh : logHolds log c base hidden vis.
Hypothesis Hthrough : first log <= through.
Hypothesis HB : logicalBytes s = sat (restB + total streamRecordBytes vis).
Hypothesis HS : storeSnapshotBytes s = sat (restS + total streamRecordSnapshotBytes vis).

Lemma trimmed_count : trimmed log through <= nlen vis /\ 1 <= trimmed log through.
Proof. pose proof Hh as [_ _ _ _ _ _ Hco _ _ _ _]. pose proof (holds_pos Hh). unfold trimmed. rewrite Hco. lia. Qed.

(** The outcome: the log shows what is left, and the totals are either lowered by
    exactly what left or computed afresh. *)
Definition trimOutcome (s' : StreamStore) : Prop :=
  exists log' lb sb, logOK log' (drop (N.to_nat (trimmed log through)) vis) /\
    s' = mkStreamStore (<[name := log']> (streams s)) (next s) (offsets s) lb sb /\
    (lb = sat (restB + total streamRecordBytes (drop (N.to_nat (trimmed log through)) vis)) /\
     sb = sat (restS + total streamRecordSnapshotBytes (drop (N.to_nat (trimmed log through)) vis)) \/
     lb = calculateStreamStoreBytes (setLog s name log') /\ sb = calculateStreamStoreSnapshotBytes (setLog s name log')).

Lemma trimWith_ok removedB removedS saturated :
  (saturated = false ->
     logBytes log - removedB = sat (total streamRecordBytes (drop (N.to_nat (trimmed log through)) vis)) /\
     logSnapshotBytes log - removedS = sat (total streamRecordSnapshotBytes (drop (N.to_nat (trimmed log through)) vis)) /\
     logicalBytes s - removedB = sat (restB + total streamRecordBytes (drop (N.to_nat (trimmed log through)) vis)) /\
     storeSnapshotBytes s - removedS = sat (restS + total streamRecordSnapshotBytes (drop (N.to_nat (trimmed log through)) vis))) ->
  trimOutcome (trimWith s name log (first log + trimmed log through - 1) removedB removedS saturated).
Proof.
  pose proof trimmed_count as [Hk1 Hk2]. destruct (split_take vis (trimmed log through) Hk1) as (gone & keep & Ev & Hg & Ek).
  pose proof Hh as [Ht Hw Hc Hs Hn Hf Hco _ _ Hb Hbd]. pose proof (holds_pos Hh) as Hpos.
  assert (Hend : first log + nlen vis < 2 ^ 64) by (rewrite Hf, Hs, nlen_app in *; lia).
  unfold trimOutcome. rewrite <- Ek. set (k := trimmed log through) in *. clearbody k. intros Hsat.
  unfold trimWith. rewrite Hco, Ev, nlen_app.
  replace (nlen gone + nlen keep - (first log + k - 1 - first log + 1)) with (nlen keep) by lia.
  rewrite (u64_id (first log + k - 1 + 1)) by lia. replace (first log + k - 1 + 1) with (first log + nlen gone) by lia.
  assert (Hlog : forall lb sb, (saturated = false -> lb = sat (total streamRecordBytes keep) /\ sb = sat (total streamRecordSnapshotBytes keep)) ->
    logOK (compactLog (if nlen keep =? 0 then emptyLog else mkLog (tail log) (first log + nlen gone) (nlen keep) lb sb) saturated) keep).
  { intros lb sb Hlb. destruct (N.eqb_spec (nlen keep) 0) as [Hz|Hz]; [left; by destruct keep|].
    right. assert (Hne : keep <> []) by (by intros ->).
    pose proof (trimmed_holds log c base hidden vis gone keep _ _ Hh Ev Hne eq_refl eq_refl) as Hh'.
    apply (compactLog_ok _ _ _ _ _ lb sb saturated Hh'). intros E. by destruct (Hlb E) as [-> ->]. }
  destruct saturated.
  - eexists _, _, _. split; [apply (Hlog (logBytes log) (logSnapshotBytes log)); done|]. split; [reflexivity|]. by right.
  - destruct (Hsat eq_refl) as (E1 & E2 & E3 & E4). eexists _, _, _.
    split; [apply (Hlog (logBytes log - removedB) (logSnapshotBytes log - removedS)); done|]. split; [reflexivity|].
    by left.
Qed.

Lemma trimLog_ok : trimOutcome (trimLog s name log through).
Proof.
  pose proof trimmed_count as [Hk1 Hk2]. destruct (split_take vis (trimmed log through) Hk1) as (gone & keep & Ev & Hg & Ek).
  pose proof Hh as [Ht Hw Hc Hs Hn Hf Hco HlB HlS Hb Hbd]. pose proof (holds_pos Hh) as Hpos.
  pose proof (holds_last Hh) as Hlast. destruct (chunkBytes_wf c Hw) as [Hcb Hcs].
  assert (Hend : first log + nlen vis < 2 ^ 64) by (rewrite Hf, Hs, nlen_app in *; lia).
  unfold trimLog. rewrite Hco, (u64_id (first log + nlen vis)), (sub64_small (first log + nlen vis)) by lia.
  assert (Etr : N.min through (first log + nlen vis - 1) = first log + trimmed log through - 1).
  { unfold trimmed. rewrite Hco. lia. }
  rewrite Etr, (sub64_small (first log) 1) by lia.
  rewrite (through_ok log c base hidden vis [] vis (first log) (first log - 1) Hh) by (done || unfold nlen; cbn; lia).
  rewrite (through_ok log c base hidden vis gone keep _ (first log + trimmed log through - 1) Hh) by (done || lia).
  cbn [fst snd]. apply trimWith_ok. unfold trimSaturated. rewrite Ht, Hcb, Hcs, HB, HS, HlB, HlS, Hs. cbn [fst snd].
  rewrite <- Ek, app_nil_r, Ev, !total_app. rewrite !orb_false_iff.
  intros (((((((((((((H1 & H2) & H3) & H4) & H5) & H6) & H7) & H8) & _) & _) & H9) & H10) & _) & _).
  apply sat_exact in H1 as [L1 E1], H2 as [L2 E2], H3 as [L3 E3], H4 as [L4 E4], H5 as [L5 E5], H6 as [L6 E6],
    H7 as [L7 E7], H8 as [L8 E8], H9 as [L9 E9], H10 as [L10 E10].
  rewrite E3, E4, E5, E6, E7, E8, E9, E10. unfold max_uint64 in *.
  rewrite !sub64_small by lia. unfold sat, max_uint64. split_and!; lia.
Qed.
End trim.
