(* ===== verification/StreamStoreSpec.v ===== *)
(** * The stream store against an abstract store of record lists *)
From S2P Require Import Prelude.
From S2P Require Import GoBytes.
From S2P Require Import BinaryCodec.
From S2P Require Import BinaryCodecSpec.
From S2P Require Import BinaryValue.
From S2P Require Import Values.
From S2P Require Import ValuesSpec.
From S2P Require Import Streams.
From S2P Require Import StreamsSpec.
From S2P Require Import StreamLogs.

Implicit Types (rs vis : list StreamRecord) (name consumer kind : gostring).

(** ** Sums over a map *)

Definition msum {A} (f : gostring -> A -> N) (m : gmap gostring A) : N :=
  nsum (map (fun kv => f kv.1 kv.2) (map_to_list m)).

Lemma nsum_perm l l' : l ≡ₚ l' -> nsum l = nsum l'.
Proof. unfold nsum. induction 1; cbn [foldr]; lia. Qed.

Lemma msum_fresh {A} (f : gostring -> A -> N) m k x : m !! k = None -> msum f (<[k := x]> m) = f k x + msum f m.
Proof.
  intros Hk. unfold msum. rewrite (nsum_perm _ (map (fun kv => f kv.1 kv.2) ((k, x) :: map_to_list m))); [done|].
  apply Permutation_map. by apply map_to_list_insert.
Qed.

Lemma msum_take {A} (f : gostring -> A -> N) m k x : m !! k = Some x -> msum f m = f k x + msum f (delete k m).
Proof. intros Hk. rewrite <- (insert_delete_id m k x Hk) at 1. apply msum_fresh, lookup_delete_eq. Qed.

Lemma msum_insert {A} (f : gostring -> A -> N) m k x : msum f (<[k := x]> m) = f k x + msum f (delete k m).
Proof. rewrite <- insert_delete_eq. apply msum_fresh, lookup_delete_eq. Qed.

Lemma msum_ext {A} (f g : gostring -> A -> N) m : (forall k x, m !! k = Some x -> f k x = g k x) -> msum f m = msum g m.
Proof.
  intros H. unfold msum. f_equal. apply map_ext_in. intros [k x] Hin. apply H.
  by apply elem_of_map_to_list, list_elem_of_In.
Qed.

(** Two nested loops of saturating additions are one saturated sum. *)
Lemma foldl_sat_total {A} (g : N -> A -> N) (f : A -> N) l : (forall a x, g (sat a) x = sat (a + f x)) ->
  forall a, foldl g (sat a) l = sat (a + nsum (map f l)).
Proof.
  intros Hg. induction l as [|x l IH]; intros a; cbn [foldl map nsum foldr]; [by rewrite N.add_0_r|].
  rewrite Hg, IH. f_equal. unfold nsum. lia.
Qed.

Lemma total_perm f rs rs' : rs ≡ₚ rs' -> total f rs = total f rs'.
Proof. intros H. unfold total. by apply nsum_perm, Permutation_map. Qed.

(** ** The abstract store *)

Record absStore := mkAbs {
  a_next : gmap gostring N;
  a_vis : gmap gostring (list StreamRecord);
  a_offsets : gmap gostring (gmap gostring N) }.

Definition absEmpty : absStore := mkAbs ∅ ∅ ∅.
Definition avis (a : absStore) name : list StreamRecord := default [] (a_vis a !! name).
Definition anext (a : absStore) name : N := default 1 (a_next a !! name).

Definition aTouch (a : absStore) name : absStore := mkAbs (<[name := anext a name]> (a_next a)) (a_vis a) (a_offsets a).
Definition aPublish (a : absStore) name kind (payload : value) : absStore :=
  mkAbs (<[name := anext a name + 1]> (a_next a))
    (<[name := avis a name ++ [mkRecord (anext a name) kind (CloneValue payload)]]> (a_vis a)) (a_offsets a).
Definition aSetOffset (a : absStore) name consumer (sequence : N) : absStore :=
  mkAbs (<[name := anext a name]> (a_next a)) (a_vis a)
    (<[name := <[consumer := sequence]> (default ∅ (a_offsets a !! name))]> (a_offsets a)).
Definition aKeep (a : absStore) name vis : absStore :=
  mkAbs (<[name := anext a name]> (a_next a)) (<[name := vis]> (a_vis a)) (a_offsets a).
Definition aTrim (a : absStore) name (through : N) : absStore :=
  aKeep a name (base.filter (fun r => through < Sequence r) (avis a name)).

(** Byte totals of an abstract store, with per-stream, per-record and per-offset sizes. *)
Definition absBytes (fs : gostring -> N) (fr : StreamRecord -> N) (fo : gostring -> gostring -> N) (a : absStore) : N :=
  msum (fun name _ => fs name + total fr (avis a name)) (a_next a) +
  msum (fun name consumers => msum (fun consumer _ => fo name consumer) consumers) (a_offsets a).

Definition logicalTotal : absStore -> N :=
  absBytes (fun name => nlen name + 64) streamRecordBytes (fun name consumer => nlen name + nlen consumer + 48).
Definition snapshotTotal : absStore -> N :=
  absBytes streamSnapshotBytes streamRecordSnapshotBytes streamOffsetSnapshotBytes.

Record storeOK (s : StreamStore) (a : absStore) : Prop := mkStoreOK {
  so_next : next s = a_next a;
  so_offsets : offsets s = a_offsets a;
  so_logs : forall name, logOK (getLog s name) (avis a name);
  so_pos : forall name n, a_next a !! name = Some n -> 1 <= n;
  so_none : forall name, a_next a !! name = None -> avis a name = [];
  so_last : forall name r, last (avis a name) = Some r -> a_next a !! name = Some (Sequence r + 1);
  so_known : forall name, a_next a !! name = None -> a_offsets a !! name = None;
  so_nonempty : forall name m, a_offsets a !! name = Some m -> m <> ∅;
  so_bytes : logicalBytes s = sat (logicalTotal a);
  so_snapshot : storeSnapshotBytes s = sat (snapshotTotal a) }.

(** ** Totals *)

Lemma logOK_visible log vis : logOK log vis -> visibleRecords log ≡ₚ vis.
Proof. intros [[-> ->]|(c & base & hidden & Hh)]; [done|]. apply (visibleRecords_perm Hh). Qed.

Section totals.
Context (fs : gostring -> N) (fr : StreamRecord -> N) (fo : gostring -> gostring -> N).

Definition calcBytes (s : StreamStore) : N :=
  let size := foldl (fun size kn =>
      foldl (fun size r => snapshotAdd size (fr r)) (snapshotAdd size (fs kn.1))
        (visibleRecords (getLog s kn.1))) 0 (map_to_list (next s)) in
  foldl (fun size kc => foldl (fun size co => snapshotAdd size (fo kc.1 co.1)) size (map_to_list kc.2))
    size (map_to_list (offsets s)).

Lemma calcBytes_total s a :
  next s = a_next a -> offsets s = a_offsets a -> (forall name, logOK (getLog s name) (avis a name)) ->
  calcBytes s = sat (absBytes fs fr fo a).
Proof.
  intros En Eo Hl. unfold calcBytes, absBytes. rewrite En, Eo. change 0 with (sat 0) at 1.
  rewrite (foldl_sat_total _ (fun kn => fs kn.1 + total fr (avis a kn.1))).
  2:{ intros x kn. rewrite snapshotAdd_sat, foldl_sat. fold (total fr (visibleRecords (getLog s kn.1))).
      rewrite (total_perm _ _ _ (logOK_visible _ _ (Hl kn.1))). f_equal. lia. }
  rewrite (foldl_sat_total _ (fun kc : gostring * gmap gostring N => msum (fun consumer _ => fo kc.1 consumer) kc.2)); [done|].
  intros x kc. apply (foldl_sat (fun co : gostring * N => fo kc.1 co.1)).
Qed.

(** Everything but one stream's share. *)
Definition absRest (a : absStore) name : N :=
  msum (fun k _ => fs k + total fr (avis a k)) (delete name (a_next a)) +
  msum (fun name consumers => msum (fun consumer _ => fo name consumer) consumers) (a_offsets a).

Lemma absBytes_at a name n : a_next a !! name = Some n ->
  absBytes fs fr fo a = absRest a name + fs name + total fr (avis a name).
Proof. intros H. unfold absBytes, absRest. rewrite (msum_take _ _ _ _ H). lia. Qed.

Lemma absBytes_new a name : a_next a !! name = None -> absBytes fs fr fo a = absRest a name.
Proof. intros H. unfold absBytes, absRest. by rewrite delete_id. Qed.

Lemma absRest_same a a' name :
  delete name (a_next a) = delete name (a_next a') -> a_offsets a = a_offsets a' ->
  (forall k, k <> name -> avis a k = avis a' k) -> absRest a name = absRest a' name.
Proof.
  intros E1 E2 E3. unfold absRest. rewrite E1, E2. f_equal. apply msum_ext. intros k x Hk.
  rewrite E3; [done|]. intros ->. by rewrite lookup_delete_eq in Hk.
Qed.

Lemma absBytes_offset a name consumer sequence :
  absBytes fs fr fo (mkAbs (a_next a) (a_vis a)
    (<[name := <[consumer := sequence]> (default ∅ (a_offsets a !! name))]> (a_offsets a))) =
  absBytes fs fr fo a + (if default ∅ (a_offsets a !! name) !! consumer then 0 else fo name consumer).
Proof.
  unfold absBytes. cbn [a_next a_offsets]. rewrite <- N.add_assoc. f_equal.
  set (g := fun name (consumers : gmap gostring N) => msum (fun consumer _ => fo name consumer) consumers).
  rewrite (msum_insert g).
  assert (E : msum g (a_offsets a) = g name (default ∅ (a_offsets a !! name)) + msum g (delete name (a_offsets a))).
  { destruct (a_offsets a !! name) as [m|] eqn:Em; cbn [default]; [by apply msum_take|].
    by rewrite delete_id. }
  rewrite E. set (m := default ∅ (a_offsets a !! name)).
  assert (E' : g name (<[consumer := sequence]> m) = g name m + (if m !! consumer then 0 else fo name consumer)).
  { unfold g. rewrite msum_insert. destruct (m !! consumer) as [x|] eqn:Ex.
    - rewrite (msum_take _ _ _ _ Ex). lia.
    - rewrite delete_id by done. lia. }
  lia.
Qed.
End totals.

(** ** Operations *)

Lemma getNext_spec s a name : storeOK s a ->
  getNext s name = default 0 (a_next a !! name) /\ ((getNext s name =? 0) = true <-> a_next a !! name = None).
Proof.
  intros H. unfold getNext. rewrite (so_next s a H). split; [done|]. rewrite N.eqb_eq.
  destruct (a_next a !! name) as [n|] eqn:E; cbn [default from_option id]; [|done].
  pose proof (so_pos s a H name n E). split; [unfold id; lia|done].
Qed.

Lemma anext_known a name n : a_next a !! name = Some n -> anext a name = n.
Proof. unfold anext. by intros ->. Qed.

Lemma aTouch_known a name n : a_next a !! name = Some n -> a_next (aTouch a name) = a_next a.
Proof. intros H. unfold aTouch. cbn [a_next]. rewrite (anext_known a name n H). by apply insert_id. Qed.

Lemma sat_add a b c : c = a + b -> snapshotAdd (sat a) b = sat c.
Proof. intros ->. apply snapshotAdd_sat. Qed.

Lemma absBytes_touch fs fr fo a name : a_next a !! name = None -> avis a name = [] ->
  absBytes fs fr fo (aTouch a name) = absBytes fs fr fo a + fs name.
Proof.
  intros Hn Hv. rewrite (absBytes_at fs fr fo (aTouch a name) name (anext a name)) by apply lookup_insert_eq.
  rewrite (absBytes_new fs fr fo a name Hn). unfold avis in *. cbn [a_vis aTouch]. rewrite Hv. unfold total. cbn.
  rewrite N.add_0_r. f_equal. apply absRest_same; try done. cbn [aTouch a_next]. by rewrite delete_insert_eq.
Qed.

Lemma touchStream_ok s a name : storeOK s a -> storeOK (touchStream s name) (aTouch a name).
Proof.
  intros H. destruct (getNext_spec s a name H) as [_ Hz]. unfold touchStream.
  destruct (getNext s name =? 0) eqn:E.
  - pose proof (proj1 Hz eq_refl) as Hn. pose proof (so_none s a H name Hn) as Hv.
    destruct H as [En Eo Hl Hp Hno Hla Hk Hne0 Hb Hs]. unfold addStreamSizes, addSizes, setNext, aTouch.
    assert (Ean : anext a name = 1) by (unfold anext; by rewrite Hn).
    split; cbn [next offsets logicalBytes storeSnapshotBytes a_next a_offsets].
    + by rewrite En, Ean.
    + done.
    + exact Hl.
    + intros k n. destruct (decide (k = name)) as [->|Hne]; [rewrite lookup_insert_eq; intros [= <-]; lia|].
      rewrite lookup_insert_ne by done. apply Hp.
    + intros k. destruct (decide (k = name)) as [->|Hne]; [by rewrite lookup_insert_eq|].
      rewrite lookup_insert_ne by done. apply Hno.
    + intros k r Hr. destruct (decide (k = name)) as [->|Hne]; [change (last (avis a name) = Some r) in Hr; by rewrite Hv in Hr|].
      rewrite lookup_insert_ne by done. by apply Hla.
    + intros k. destruct (decide (k = name)) as [->|Hne]; [by rewrite lookup_insert_eq|].
      rewrite lookup_insert_ne by done. apply Hk.
    + exact Hne0.
    + rewrite Hb. by apply sat_add, absBytes_touch.
    + rewrite Hs. by apply sat_add, absBytes_touch.
  - destruct (a_next a !! name) as [n|] eqn:Hn; [|discriminate (proj2 Hz eq_refl)].
    assert (aTouch a name = a) as ->; [|done]. destruct a. unfold aTouch. cbn in *. f_equal.
    by apply (aTouch_known (mkAbs a_next0 a_vis0 a_offsets0) name n).
Qed.

Lemma aTouch_at s a name : storeOK s (aTouch a name) -> a_next (aTouch a name) !! name = Some (anext a name).
Proof. intros _. apply lookup_insert_eq. Qed.

Lemma SetOffset_ok s a name consumer sequence : storeOK s a ->
  storeOK (SetOffset s name consumer sequence) (aSetOffset a name consumer sequence).
Proof.
  intros H%(touchStream_ok s a name). unfold SetOffset. set (s1 := touchStream s name) in *. clearbody s1.
  change (aSetOffset a name consumer sequence) with
    (mkAbs (a_next (aTouch a name)) (a_vis (aTouch a name))
      (<[name := <[consumer := sequence]> (default ∅ (a_offsets (aTouch a name) !! name))]> (a_offsets (aTouch a name)))).
  pose proof (aTouch_at s1 a name H) as Hat. set (a1 := aTouch a name) in *. clearbody a1.
  destruct H as [En Eo Hl Hp Hno Hla Hk Hne0 Hb Hs]. unfold GetOffset. rewrite Eo.
  assert (Hknown : forall k, a_next a1 !! k = None ->
            <[name := <[consumer := sequence]> (default ∅ (a_offsets a1 !! name))]> (a_offsets a1) !! k = None).
  { intros k Hkn. destruct (decide (k = name)) as [->|Hne]; [by rewrite Hat in Hkn|].
    rewrite lookup_insert_ne by done. by apply Hk. }
  assert (Hsome : forall k m, <[name := <[consumer := sequence]> (default ∅ (a_offsets a1 !! name))]> (a_offsets a1) !! k = Some m -> m <> ∅).
  { intros k m. destruct (decide (k = name)) as [->|Hne].
    - rewrite lookup_insert_eq. intros [= <-]. apply insert_non_empty.
    - rewrite lookup_insert_ne by done. apply Hne0. }
  pose proof (fun fs fr fo => absBytes_offset fs fr fo a1 name consumer sequence) as Ho.
  destruct (default ∅ (a_offsets a1 !! name) !! consumer) as [o|] eqn:Ex.
  - rewrite bool_decide_true by eauto. split; cbn; try done.
    + rewrite Hb. unfold logicalTotal. rewrite Ho. by rewrite N.add_0_r.
    + rewrite Hs. unfold snapshotTotal. rewrite Ho. by rewrite N.add_0_r.
  - rewrite bool_decide_false by (by intros []). split; cbn; try done.
    + rewrite Hb. apply sat_add. unfold logicalTotal. by rewrite Ho.
    + rewrite Hs. apply sat_add. unfold snapshotTotal. by rewrite Ho.
Qed.

(** One more record at the end of a log. *)
Lemma append_ok log vis r :
  logOK log vis -> (forall r', last vis = Some r' -> Sequence r = Sequence r' + 1) ->
  1 <= Sequence r -> Sequence r + 1 < 2 ^ 64 ->
  logOK (mkLog (Some (appendTail (tail log) r)) (if count log =? 0 then Sequence r else first log) (u64 (count log + 1))
           (snapshotAdd (logBytes log) (streamRecordBytes r)) (snapshotAdd (logSnapshotBytes log) (streamRecordSnapshotBytes r)))
        (vis ++ [r]).
Proof.
  intros Hlog Hnext Hpos Hbd. right. destruct Hlog as [[-> ->]|(c & base & hidden & Hh)].
  - destruct (appendTail_wf None r I) as [Hw Hr]. exists (appendTail None r), (Sequence r), []. split; cbn [tail]; try done.
    all: rewrite ?Hr; try done.
    + cbn [count emptyLog N.eqb first]. unfold nlen. cbn [length]. lia.
    + cbn [emptyLog logBytes]. apply (sat_add 0); unfold total; cbn; lia.
    + cbn [emptyLog logSnapshotBytes]. apply (sat_add 0); unfold total; cbn; lia.
  - pose proof (holds_pos Hh) as Hp. pose proof (holds_last Hh) as Hlast. pose proof (holds_vis_cons Hh) as Hvc.
    destruct Hh as [Ht Hw Hc Hs Hn Hf Hco HlB HlS Hb Hb']. rewrite Ht, HlB, HlS, Hco.
    destruct (appendTail_wf (Some c) r Hw) as [Hw' Hr]. cbn [optRecords] in Hr.
    assert (Hend : Sequence r = base + nlen (chainRecords c)).
    { destruct (last vis) as [r'|] eqn:El; [|by apply last_None in El]. rewrite (Hnext r' eq_refl).
      rewrite last_lookup in El. rewrite (consecutive_lookup _ _ _ _ Hvc El), Hs, nlen_app, Hf. unfold nlen in *. lia. }
    rewrite Hs, nlen_app in Hend. rewrite (proj2 (N.eqb_neq (nlen vis) 0)) by lia.
    assert (Hone : nlen [r] = 1) by done.
    exists (appendTail (Some c) r), base, hidden. split; cbn [tail first count logBytes logSnapshotBytes]; try done.
    + rewrite Hr. apply consecutive_app. split; [done|]. split; [|done]. rewrite Hs, nlen_app. lia.
    + by rewrite Hr, Hs, app_assoc.
    + by destruct vis.
    + rewrite nlen_app, Hone. apply u64_id. lia.
    + rewrite total_app. apply sat_add. unfold total. cbn. lia.
    + rewrite total_app. apply sat_add. unfold total. cbn. lia.
    + rewrite Hr, Hs, !nlen_app, Hone. lia.
Qed.

Lemma avis_insert nx av off name vis k :
  avis (mkAbs nx (<[name := vis]> av) off) k = if decide (k = name) then vis else default [] (av !! k).
Proof. unfold avis. cbn [a_vis]. case_decide as Hk; [subst; by rewrite lookup_insert_eq|by rewrite lookup_insert_ne by done]. Qed.

Lemma getLog_set s name log k : getLog (setLog s name log) k = if decide (k = name) then log else getLog s k.
Proof. unfold getLog. cbn [setLog streams]. case_decide as Hk; [subst; by rewrite lookup_insert_eq|by rewrite lookup_insert_ne by done]. Qed.

Lemma absBytes_publish fs fr fo s a name kind payload : storeOK s a ->
  absBytes fs fr fo (aPublish a name kind payload) =
  absBytes fs fr fo a + fr (mkRecord (anext a name) kind (CloneValue payload)) +
    (if a_next a !! name then 0 else fs name).
Proof.
  intros H. rewrite (absBytes_at fs fr fo (aPublish a name kind payload) name (anext a name + 1)) by apply lookup_insert_eq.
  unfold aPublish at 2. rewrite avis_insert, decide_True by done. rewrite total_app.
  assert (E : absRest fs fr fo (aPublish a name kind payload) name = absRest fs fr fo a name).
  { apply absRest_same; [cbn; by rewrite delete_insert_eq|done|].
    intros k Hk. unfold aPublish. by rewrite avis_insert, decide_False. }
  rewrite E. destruct (a_next a !! name) as [n|] eqn:En.
  - rewrite (absBytes_at fs fr fo a name n En). unfold total. cbn. lia.
  - rewrite (absBytes_new fs fr fo a name En). rewrite (so_none s a H name En). unfold total. cbn. lia.
Qed.

Lemma Publish_ok s a name kind payload : storeOK s a -> anext a name + 1 < 2 ^ 64 ->
  (Publish s name kind payload).1 = anext a name /\
  storeOK (Publish s name kind payload).2 (aPublish a name kind payload).
Proof.
  intros H Hbd. destruct (getNext_spec s a name H) as [Hg Hz].
  assert (Eseq : (if getNext s name =? 0 then 1 else getNext s name) = anext a name).
  { unfold anext. destruct (getNext s name =? 0) eqn:E.
    - by rewrite (proj1 Hz eq_refl).
    - rewrite Hg. destruct (a_next a !! name); [done|]. discriminate (proj2 Hz eq_refl). }
  pose proof (fun fs fr fo => absBytes_publish fs fr fo s a name kind payload H) as Hab.
  unfold Publish. rewrite Eseq. cbn [fst snd]. split; [done|]. set (r := mkRecord (anext a name) kind (CloneValue payload)) in *.
  assert (Hlog : logOK (mkLog (Some (appendTail (tail (getLog s name)) r))
      (if count (getLog s name) =? 0 then anext a name else first (getLog s name)) (u64 (count (getLog s name) + 1))
      (snapshotAdd (logBytes (getLog s name)) (streamRecordBytes r))
      (snapshotAdd (logSnapshotBytes (getLog s name)) (streamRecordSnapshotBytes r))) (avis a name ++ [r])).
  { apply (append_ok _ _ r); [apply (so_logs s a H)| |cbn|done].
    - intros r' Hr'. unfold r. cbn. unfold anext. by rewrite (so_last s a H name r' Hr').
    - unfold anext. destruct (a_next a !! name) as [n|] eqn:En; cbn; [by apply (so_pos s a H name)|lia]. }
  destruct H as [En Eo Hl Hp Hno Hla Hk Hne0 Hb Hs]. rewrite u64_id by done.
  assert (Hnext : forall k, k <> name -> a_next (aPublish a name kind payload) !! k = a_next a !! k)
    by (intros k Hne; unfold aPublish; cbn [a_next]; by rewrite lookup_insert_ne).
  assert (Hvis : forall k, avis (aPublish a name kind payload) k = if decide (k = name) then avis a name ++ [r] else avis a k)
    by (intros k; unfold aPublish; by rewrite avis_insert).
  assert (Hat : a_next (aPublish a name kind payload) !! name = Some (anext a name + 1)) by apply lookup_insert_eq.
  set (a' := aPublish a name kind payload) in *.
  split.
  - destruct (getNext s name =? 0); cbn; by rewrite En.
  - by destruct (getNext s name =? 0).
  - intros k. rewrite getLog_set, Hvis. case_decide as Hd; [exact Hlog|]. destruct (getNext s name =? 0); apply Hl.
  - intros k n. destruct (decide (k = name)) as [->|Hne]; [rewrite Hat; intros [= <-]; lia|]. rewrite Hnext by done. apply Hp.
  - intros k. destruct (decide (k = name)) as [->|Hne]; [by rewrite Hat|]. rewrite Hnext, Hvis, decide_False by done. apply Hno.
  - intros k r'. rewrite Hvis. destruct (decide (k = name)) as [->|Hne].
    + rewrite last_snoc. by intros [= <-].
    + rewrite Hnext by done. apply Hla.
  - intros k. destruct (decide (k = name)) as [->|Hne]; [by rewrite Hat|]. rewrite Hnext by done. apply Hk.
  - exact Hne0.
  - unfold logicalTotal. rewrite Hab. destruct (getNext s name =? 0) eqn:E.
    + rewrite (proj1 Hz eq_refl). cbn. rewrite Hb, snapshotAdd_sat. by apply sat_add.
    + destruct (a_next a !! name); [|discriminate (proj2 Hz eq_refl)]. cbn. rewrite Hb. apply sat_add. unfold logicalTotal. lia.
  - unfold snapshotTotal. rewrite Hab. destruct (getNext s name =? 0) eqn:E.
    + rewrite (proj1 Hz eq_refl). cbn. rewrite Hs, snapshotAdd_sat. by apply sat_add.
    + destruct (a_next a !! name); [|discriminate (proj2 Hz eq_refl)]. cbn. rewrite Hs. apply sat_add. unfold snapshotTotal. lia.
Qed.

(** Only the visible records of each stream matter. *)
Lemma storeOK_ext s a a' :
  storeOK s a -> a_next a = a_next a' -> a_offsets a = a_offsets a' -> (forall k, avis a k = avis a' k) -> storeOK s a'.
Proof.
  intros [En Eo Hl Hp Hno Hla Hk Hne0 Hb Hs] E1 E2 E3.
  assert (Et : forall fs fr fo, absBytes fs fr fo a = absBytes fs fr fo a').
  { intros fs fr fo. unfold absBytes. rewrite <- E1, <- E2. f_equal. apply msum_ext. intros k x _. by rewrite E3. }
  split; rewrite <- ?E1, <- ?E2; try done.
  - intros k. rewrite <- E3. apply Hl.
  - intros k. rewrite <- E3. apply Hno.
  - intros k. rewrite <- E3. apply Hla.
  - unfold logicalTotal. by rewrite <- Et.
  - unfold snapshotTotal. by rewrite <- Et.
Qed.

Lemma trimmed_filter log c base hidden vis through :
  logHolds log c base hidden vis -> first log <= through ->
  drop (N.to_nat (trimmed log through)) vis = base.filter (fun r => through < Sequence r) vis.
Proof.
  intros Hh Hle. pose proof (holds_vis_cons Hh) as Hvc. pose proof Hh as [_ _ _ _ _ _ Hco _ _ _ _].
  rewrite (filter_after vis (first log)) by done. unfold trimmed. rewrite Hco. unfold nlen.
  destruct (N.le_gt_cases through (first log + nlen vis - 1)) as [H1|H1]; unfold nlen in H1; [f_equal; lia|].
  rewrite !drop_ge by lia. done.
Qed.

Lemma filter_all_kept {A} (P : A -> Prop) `{forall x, Decision (P x)} (l : list A) : Forall P l -> base.filter P l = l.
Proof. induction 1 as [|x l Hx _ IH]; [done|]. rewrite filter_cons_True by done. by rewrite IH. Qed.

Lemma kept_below log vis through : logOK log vis -> through < first log -> base.filter (fun r => through < Sequence r) vis = vis.
Proof.
  intros [[-> ->]|(c & base & hidden & Hh)] Hlt; [done|]. apply filter_all_kept.
  eapply Forall_impl; [exact (consecutive_bound _ _ (holds_vis_cons Hh))|]. intros r Hr. cbv beta in Hr. lia.
Qed.

Lemma aKeep_rest fs fr fo a name vis : absRest fs fr fo (aKeep a name vis) name = absRest fs fr fo (aTouch a name) name.
Proof.
  apply absRest_same; try done. intros k Hk. unfold aKeep. by rewrite avis_insert, decide_False.
Qed.

Lemma last_drop {A} (l : list A) n x : last (drop n l) = Some x -> last l = Some x.
Proof.
  intros H. assert (drop n l <> []) by (by intros E; rewrite E in H).
  rewrite <- (take_drop n l), last_app. by rewrite H.
Qed.

(** A store whose log for one stream shows a suffix of its records. *)
Lemma kept_ok s a name log' lb sb n :
  storeOK s (aTouch a name) -> logOK log' (drop n (avis a name)) ->
  lb = sat (logicalTotal (aKeep a name (drop n (avis a name)))) ->
  sb = sat (snapshotTotal (aKeep a name (drop n (avis a name)))) ->
  storeOK (mkStreamStore (<[name := log']> (streams s)) (next s) (offsets s) lb sb) (aKeep a name (drop n (avis a name))).
Proof.
  intros H Hlog -> ->. destruct H as [En Eo Hl Hp Hno Hla Hk Hne0 Hb Hs].
  assert (Hvis : forall k, avis (aKeep a name (drop n (avis a name))) k = if decide (k = name) then drop n (avis a name) else avis (aTouch a name) k)
    by (intros k; unfold aKeep; by rewrite avis_insert).
  split; try done; cbn [next offsets].
  - intros k. rewrite Hvis. unfold getLog. cbn [streams]. case_decide as Hd; [subst; by rewrite lookup_insert_eq|].
    rewrite lookup_insert_ne by done. apply Hl.
  - intros k Hn. rewrite Hvis. case_decide as Hd; [|by apply Hno]. subst. cbn in Hn. by rewrite lookup_insert_eq in Hn.
  - intros k r. rewrite Hvis. case_decide as Hd; [|apply Hla]. subst. intros Hr%last_drop. by apply (Hla name).
Qed.

Lemma Trim_ok s a name through : storeOK s a -> storeOK (Trim s name through) (aTrim a name through).
Proof.
  intros H%(touchStream_ok s a name). unfold Trim. set (s1 := touchStream s name) in *. clearbody s1.
  pose proof (so_logs _ _ H name) as Hlog. change (avis (aTouch a name) name) with (avis a name) in Hlog.
  assert (Hkeep : base.filter (fun r => through < Sequence r) (avis a name) = avis a name -> storeOK s1 (aTrim a name through)).
  { intros E. eapply storeOK_ext; [exact H|done|done|]. intros k. unfold aTrim, aKeep. rewrite avis_insert, E.
    case_decide as Hd; [by subst|done]. }
  destruct Hlog as [[El Ev]|(c & base & hidden & Hh)].
  - rewrite El. cbn [emptyLog count N.eqb orb]. apply Hkeep. by rewrite Ev.
  - pose proof (holds_pos Hh) as Hp. pose proof Hh as [_ _ _ _ _ _ Hco _ _ _ _].
    rewrite (proj2 (N.eqb_neq (count (getLog s1 name)) 0)) by lia. cbn [orb].
    destruct (N.ltb_spec through (first (getLog s1 name))) as [Hlt|Hge].
    + apply Hkeep. apply (kept_below (getLog s1 name)); [right; by eauto|done].
    + pose proof (fun fs fr fo => absBytes_at fs fr fo (aTouch a name) name _ (lookup_insert_eq _ _ _)) as Hat.
      pose proof (fun fs fr fo vis => absBytes_at fs fr fo (aKeep a name vis) name _ (lookup_insert_eq _ _ _)) as Hat'.
      assert (HB : logicalBytes s1 = sat (absRest (fun name => nlen name + 64) streamRecordBytes (fun name consumer => nlen name + nlen consumer + 48) (aTouch a name) name + (nlen name + 64) + total streamRecordBytes (avis a name)))
        by (rewrite (so_bytes _ _ H); unfold logicalTotal; by rewrite Hat).
      assert (HS : storeSnapshotBytes s1 = sat (absRest streamSnapshotBytes streamRecordSnapshotBytes streamOffsetSnapshotBytes (aTouch a name) name + streamSnapshotBytes name + total streamRecordSnapshotBytes (avis a name)))
        by (rewrite (so_snapshot _ _ H); unfold snapshotTotal; by rewrite Hat).
      destruct (trimLog_ok s1 name _ through c base hidden _ _ _ Hh Hge HB HS) as (log' & lb & sb & Hok & -> & Hcase).
      unfold aTrim. rewrite <- (trimmed_filter _ _ _ _ _ _ Hh Hge). set (n := N.to_nat _) in *. clearbody n.
      apply kept_ok; [done|done| |]; unfold logicalTotal, snapshotTotal.
      * destruct Hcase as [[-> _]|[-> _]].
        -- rewrite Hat'. unfold aKeep at 2. by rewrite avis_insert, decide_True, aKeep_rest.
        -- apply (calcBytes_total (fun name => nlen name + 64) streamRecordBytes (fun name consumer => nlen name + nlen consumer + 48)).
           all: apply (kept_ok s1 a name log' _ _ n H Hok eq_refl eq_refl).
      * destruct Hcase as [[_ ->]|[_ ->]].
        -- rewrite Hat'. unfold aKeep at 2. by rewrite avis_insert, decide_True, aKeep_rest.
        -- apply (calcBytes_total streamSnapshotBytes streamRecordSnapshotBytes streamOffsetSnapshotBytes).
           all: apply (kept_ok s1 a name log' _ _ n H Hok eq_refl eq_refl).
Qed.

(** ** Trimming to a byte budget *)

(** The longest suffix whose records fit in [target] bytes. *)
Fixpoint keepWithin (target : N) rs : list StreamRecord :=
  match rs with
  | [] => []
  | r :: rs' => if total streamRecordBytes rs <=? target then rs else keepWithin target rs'
  end.

Lemma total_cons f r rs : total f (r :: rs) = f r + total f rs.
Proof. done. Qed.

Lemma keepWithin_at target front r keep :
  total streamRecordBytes keep <= target -> target < total streamRecordBytes (r :: keep) ->
  keepWithin target (front ++ r :: keep) = keep.
Proof.
  intros Hk Hr. induction front as [|x front IH]; cbn [app keepWithin].
  - rewrite (proj2 (N.leb_gt _ _)) by done. destruct keep as [|y keep]; [done|]. cbn [keepWithin].
    by rewrite (proj2 (N.leb_le _ _)).
  - rewrite (proj2 (N.leb_gt _ _)); [done|]. rewrite total_cons, total_app. rewrite total_cons in Hr |- *. lia.
Qed.

Lemma trimScan_ok target front : forall keep thr,
  target < max_uint64 -> total streamRecordBytes keep <= target -> target < total streamRecordBytes (front ++ keep) ->
  exists gone r, front ++ keep = gone ++ r :: keepWithin target (front ++ keep) /\
    trimScan (rev front) target (total streamRecordBytes keep) thr = inl (Sequence r).
Proof.
  induction front as [|r front IH] using rev_ind; intros keep thr Hmax Hk Ht; [cbn [app] in Ht; lia|].
  rewrite <- app_assoc in *. cbn [app] in *. rewrite rev_app_distr. cbn [rev app trimScan].
  rewrite snapshotAdd_le by lia. destruct (N.ltb_spec target (sat (total streamRecordBytes keep + streamRecordBytes r))) as [Hlt|Hge].
  - exists front, r. split; [|done]. rewrite keepWithin_at; [done|done|]. rewrite total_cons. unfold sat in Hlt. lia.
  - assert (E : sat (total streamRecordBytes keep + streamRecordBytes r) = total streamRecordBytes (r :: keep))
      by (rewrite total_cons; unfold sat in *; lia).
    rewrite E in *. by apply IH.
Qed.

Definition aTrimToBytes (a : absStore) name (maxBytes : N) : (N * bool) * absStore :=
  if sat (total streamRecordBytes (avis a name)) <=? maxBytes then ((0, false), a)
  else let keep := keepWithin (maxBytes / 2) (avis a name) in
       ((anext a name - 1 - nlen keep, true), aKeep a name keep).

Lemma vis_next s a name c base hidden : storeOK s a -> logHolds (getLog s name) c base hidden (avis a name) ->
  anext a name = first (getLog s name) + nlen (avis a name).
Proof.
  intros H Hh. pose proof (holds_vis_cons Hh) as Hvc. pose proof (holds_pos Hh) as Hp.
  destruct (last (avis a name)) as [r|] eqn:El; [|apply last_None in El; rewrite El in Hp; by cbn in Hp].
  unfold anext. rewrite (so_last s a H name r El). cbn. rewrite last_lookup in El.
  rewrite (consecutive_lookup _ _ _ _ Hvc El). unfold nlen in *. lia.
Qed.

Lemma TrimToBytes_ok s a name maxBytes : storeOK s a -> maxBytes <= max_uint64 ->
  (TrimToBytes s name maxBytes).1 = (aTrimToBytes a name maxBytes).1 /\
  storeOK (TrimToBytes s name maxBytes).2 (aTrimToBytes a name maxBytes).2.
Proof.
  intros H Hmax. unfold TrimToBytes, aTrimToBytes.
  destruct (so_logs s a H name) as [[El Ev]|(c & base & hidden & Hh)].
  - rewrite El, Ev. cbn [emptyLog logBytes count]. rewrite orb_true_r.
    change (sat (total streamRecordBytes [])) with 0. by rewrite (proj2 (N.leb_le 0 maxBytes)) by lia.
  - pose proof (holds_pos Hh) as Hp. pose proof (vis_next s a name c base hidden H Hh) as Hnx. pose proof (holds_vis_cons Hh) as Hvc.
    pose proof Hh as [Ht Hw Hc _ _ _ Hco HlB _ _ _]. rewrite HlB, Hco, (proj2 (N.eqb_neq (nlen (avis a name)) 0)), orb_false_r by lia.
    destruct (N.leb_spec (sat (total streamRecordBytes (avis a name))) maxBytes) as [Hle|Hgt]; [done|].
    unfold tailChunks. rewrite Ht, (chunksFrom_rev _ base _ c), (holds_visible Hh) by done.
    assert (Hhalf : maxBytes / 2 <= maxBytes) by (apply N.Div0.div_le_upper_bound; lia).
    assert (Hhalf' : maxBytes / 2 < max_uint64) by (apply N.Div0.div_lt_upper_bound; unfold max_uint64 in *; lia).
    set (target := maxBytes / 2) in *. clearbody target.
    destruct (trimScan_ok target (avis a name) [] (sub64 (first (getLog s name)) 1)) as (gone & r & Eg & Es);
      rewrite ?app_nil_r in *; [done|unfold total; cbn; lia|unfold sat in Hgt; lia|].
    change (total streamRecordBytes []) with 0 in Es. rewrite Es. set (keep := keepWithin target (avis a name)) in *.
    assert (Hr : Sequence r = anext a name - 1 - nlen keep).
    { rewrite Eg in Hvc, Hnx. apply consecutive_app in Hvc as [_ [-> _]]. rewrite Hnx, nlen_app.
      unfold nlen. cbn [length]. lia. }
    rewrite <- Hr. cbn [fst snd]. split; [done|]. pose proof (Trim_ok s a name (Sequence r) H) as HT. unfold aTrim in HT.
    replace (base.filter (fun r0 => Sequence r < Sequence r0) (avis a name)) with keep in HT; [done|].
    rewrite (filter_after _ _ _ Hvc). rewrite Eg in Hvc. apply consecutive_app in Hvc as [_ [-> _]].
    rewrite Eg. replace (N.to_nat _) with (length (gone ++ [r])) by (rewrite length_app; unfold nlen; cbn; lia).
    change (gone ++ r :: keep) with (gone ++ [r] ++ keep). by rewrite (app_assoc gone [r] keep), drop_app_length.
Qed.
