(* ===== verification/StreamPersist.v ===== *)
(** * Streams on disk (stream.go, stream_value.go, binary_streams.go, page_stream.go)

    Stream operations as WAL records and their replay, the checkpoint image of a store
    and its recovery, the validation of stored payloads, and the encoder that writes a
    store record by record. Maps are ranged over in key order here; where the code's
    order is random it only decides which error is reported. *)
From S2P Require Import Prelude.
From S2P Require Import GoBytes.
From S2P Require Import BinaryCodec.
From S2P Require Import BinaryValue.
From S2P Require Import BinaryRecords.
From S2P Require Import GoMaps.
From S2P Require Import Values.
From S2P Require Import Streams.
From Stdlib Require Strings.String.
Import String.StringSyntax.

Definition str (s : string) : gostring := String.list_byte_of_string s.

(** [strings.HasPrefix] *)
Fixpoint hasPrefix (value prefix : gostring) : bool :=
  match prefix, value with
  | [], _ => true
  | p :: prefix, v :: value => bool_decide (p = v) && hasPrefix value prefix
  | _ :: _, [] => false
  end.

Definition errorsNewStreamName : error := ErrNew "invalid stream name, kind, or consumer"%string.

Definition ValidateStreamName (value : gostring) (allowReserved : bool) : option error :=
  if bool_decide (value = []) || (255 <? nlen value) || negb (utf8Valid value) then Some errorsNewStreamName
  else if negb allowReserved && hasPrefix value (str "__lattice_"%string) then Some errorsNewStreamName
  else None.

Definition ValidateStreamKind (value : gostring) : option error :=
  if bool_decide (value = []) || (255 <? nlen value) || negb (utf8Valid value) then Some errorsNewStreamName
  else None.

(** ** Stored payloads *)

Definition walkAll {A} (f : A -> walking unit) : list A -> walking unit :=
  fix each l :=
    match l with
    | [] => wret tt
    | x :: l => f x ;;; each l
    end.

(** The entry of a map: the key, then the value one level down. *)
Definition validateEntry (valid : persistedValue -> walking unit) (kv : gostring * persistedValue) : walking unit :=
  if negb (utf8Valid kv.1) then wfail (ErrNew "map key contains invalid UTF-8"%string)
  else addBytes (nlen kv.1) ;;; valid kv.2.

(** [normalizeValue] of a scalar, its result dropped. *)
Definition validateScalar (v : value) (depth : nat) : walking unit := _ <~ normalizeValue v depth ;; wret tt.

Fixpoint validateStreamValue (v : persistedValue) (depth : nat) : walking unit :=
  if (maxValueDepth <? depth)%nat then wfail nestingExceeded
  else
    match v with
    | PVNull | PVBool _ | PVInt _ => wret tt
    | PVFloat bits => validateScalar (VFloat bits) depth
    | PVString s => validateScalar (VString s) depth
    | PVBytes b => addBytes (slen b)
    | PVVector l =>
        if maxValueBytes / 4 <? slen l then wfail (ErrValueLimit "byte count"%string)
        else addBytes (slen l * 4) ;;;
             walkAll (fun item => if nonFinite32 item then wfail (ErrNew "vector contains non-finite value"%string)
                                  else wret tt) (elems l)
    | PVList l =>
        walk_add (slen l) ;;;
        match l with None => wret tt | Some l => walkAll (fun item => validateStreamValue item (S depth)) l end
    | PVMap m =>
        walk_add (slen m) ;;;
        match m with
        | None => wret tt
        | Some m => walkAll (validateEntry (fun item => validateStreamValue item (S depth))) m
        end
    | PVEmpty | PVUnknown _ => wfail (ErrNew "unknown stored value kind"%string)
    end.

(** A walk of its own. *)
Definition runWalk (m : walking unit) : option error :=
  match m newValueWalk with (inl _, _) => None | (inr err, _) => Some err end.

Definition envelopeField (field : gostring) : bool :=
  bool_decide (field = str "key"%string) || bool_decide (field = str "new_value"%string)
  || bool_decide (field = str "old_value"%string).

(** Everything in the envelope but the property's key and values. *)
Definition validateMetadata (envelope : list (gostring * persistedValue)) : walking unit :=
  walk_add (nlen envelope) ;;;
  walkAll (fun kv => validateEntry (fun v => if envelopeField kv.1 then wret tt else validateStreamValue v 0) kv) envelope.

(** One value of a property event, counted with the property's key. *)
Definition validatePropertyValue (key : gostring) (v : persistedValue) : walking unit :=
  walk_add 1 ;;; addBytes (nlen key) ;;; validateStreamValue v 0.

(** The property's key and its new and old values, when the envelope is a property event. *)
Definition propertyEvent (envelope : list (gostring * persistedValue)) : option (gostring * list persistedValue) :=
  let values := omap (fun field => mapLookup field envelope) [str "new_value"%string; str "old_value"%string] in
  match mapLookup (str "key"%string) envelope with
  | Some (PVString key) => if bool_decide (values = []) then None else Some (key, values)
  | _ => None
  end.

(** The first error of a list of checks. *)
Fixpoint firstError {A} (f : A -> option error) (l : list A) : option error :=
  match l with
  | [] => None
  | x :: l => match f x with Some err => Some err | None => firstError f l end
  end.

Definition validateChangefeedEnvelope (envelope : option (list (gostring * persistedValue))) : option error :=
  match propertyEvent (elems envelope) with
  | None => runWalk (validateStreamValue (PVMap envelope) 0)
  | Some (key, values) =>
      if negb (utf8Valid key) then Some (ErrNew "property key contains invalid UTF-8"%string)
      else match runWalk (validateMetadata (elems envelope)) with
           | Some err => Some err
           | None => firstError (fun v => runWalk (validatePropertyValue key v)) values
           end
  end.

Definition decodeStreamValue (stream : gostring) (v : persistedValue) : value + error :=
  let check := match v with
               | PVMap m => if bool_decide (stream = str "__lattice_changes"%string) then validateChangefeedEnvelope m
                            else runWalk (validateStreamValue v 0)
               | _ => runWalk (validateStreamValue v 0)
               end in
  match check with
  | Some err => inr err
  | None => decodeValue v
  end.

(** ** Operations in the WAL *)

(** [StreamOperation]; [so_Type] is the operation's name. *)
Record StreamOperation := mkStreamOperation {
  so_Type : gostring; so_Stream : gostring; so_Consumer : gostring; so_Sequence : N; so_Kind : gostring; so_Payload : value }.

Definition publishOp : gostring := str "publish"%string.
Definition offsetOp : gostring := str "offset"%string.
Definition trimOp : gostring := str "trim"%string.
Definition invalidSequence : error := ErrNew "invalid stream sequence"%string.
Definition invalidOperation : error := ErrNew "invalid stream operation"%string.

Definition buildOperation (op : StreamOperation) : persistedStreamOperation + error :=
  let persisted payload :=
    inl (mkPSOp (so_Type op) (so_Stream op) (so_Consumer op) (so_Sequence op) (so_Kind op) payload) in
  match ValidateStreamName (so_Stream op) true with
  | Some err => inr err
  | None =>
      if bool_decide (so_Type op = publishOp) then
        if so_Sequence op =? 0 then inr invalidSequence
        else match ValidateStreamKind (so_Kind op) with
             | Some err => inr err
             | None => match encodeValue (so_Payload op) with inr err => inr err | inl payload => persisted payload end
             end
      else if bool_decide (so_Type op = offsetOp) then
        match ValidateStreamName (so_Consumer op) true with Some err => inr err | None => persisted PVEmpty end
      else if bool_decide (so_Type op = trimOp) then persisted PVEmpty
      else inr invalidOperation
  end.

Definition BuildPersistedStreamOperations (operations : list StreamOperation) : list persistedStreamOperation + error :=
  sumEach buildOperation operations.

Definition applyOperation (updated : StreamStore) (op : persistedStreamOperation) : StreamStore + error :=
  match ValidateStreamName (op_Stream op) true with
  | Some err => inr err
  | None =>
      if bool_decide (op_Type op = publishOp) then
        if (op_Sequence op =? 0) || negb (op_Sequence op =? NextSequence updated (op_Stream op)) then inr invalidSequence
        else match ValidateStreamKind (op_Kind op) with
             | Some err => inr err
             | None => match decodeStreamValue (op_Stream op) (op_Payload op) with
                       | inr err => inr err
                       | inl payload => inl (Publish updated (op_Stream op) (op_Kind op) payload).2
                       end
             end
      else if bool_decide (op_Type op = offsetOp) then
        match ValidateStreamName (op_Consumer op) true with
        | Some err => inr err
        | None => inl (SetOffset updated (op_Stream op) (op_Consumer op) (op_Sequence op))
        end
      else if bool_decide (op_Type op = trimOp) then inl (Trim updated (op_Stream op) (op_Sequence op))
      else inr invalidOperation
  end.

Fixpoint ApplyPersistedStreamOperations (store : StreamStore) (operations : list persistedStreamOperation) : StreamStore + error :=
  match operations with
  | [] => inl store
  | op :: operations => match applyOperation store op with
                        | inr err => inr err
                        | inl store => ApplyPersistedStreamOperations store operations
                        end
  end.

(** ** The checkpoint image *)

Definition invalidChunk : error := ErrNew "invalid stream chunk"%string.

(** The loop of [visitStreamRecords]; it runs once per record of the log, so [fuel]
    beyond the count is never used. The closure [visit] updates what it captures and
    returns an error. An index out of range, which would panic, is an error of its own
    here. *)
Fixpoint visitFrom {A} (fuel : nat) (log : streamLog) (sequence : N) (visit : A -> StreamRecord -> A * option error) (st : A) :
    A * option error :=
  match fuel with
  | O => (st, None)
  | S fuel =>
      if sequence <? u64 (first log + count log) then
        match logChunk log sequence with
        | None => (st, Some invalidChunk)
        | Some chunk =>
            match records chunk !! N.to_nat (sub64 sequence (firstSequence chunk)) with
            | None => (st, Some (ErrNew "index out of range"%string))
            | Some record => match visit st record with
                             | (st, Some err) => (st, Some err)
                             | (st, None) => visitFrom fuel log (u64 (sequence + 1)) visit st
                             end
            end
        end
      else (st, None)
  end.

Definition visitStreamRecords {A} (s : StreamStore) (name : gostring) (visit : A -> StreamRecord -> A * option error) (st : A) :
    A * option error :=
  let log := getLog s name in visitFrom (S (N.to_nat (count log))) log (first log) visit st.

(** [record.Sequence == 0 || record.Sequence <= previous || record.Sequence >= next ||
    previous != 0 && record.Sequence != previous+1] *)
Definition badSequence (sequence previous next : N) : bool :=
  (sequence =? 0) || (sequence <=? previous) || (next <=? sequence)
  || (negb (previous =? 0) && negb (sequence =? u64 (previous + 1))).

Definition persistRecord (next : N) (st : N * list persistedStreamRecord) (record : StreamRecord) :
    (N * list persistedStreamRecord) * option error :=
  if badSequence (Sequence record) st.1 next then (st, Some invalidSequence)
  else match ValidateStreamKind (Kind record) with
       | Some err => (st, Some err)
       | None => match encodeValue (Payload record) with
                 | inr err => (st, Some err)
                 | inl payload => ((Sequence record, st.2 ++ [mkPSRecord (Sequence record) (Kind record) payload]), None)
                 end
       end.

Definition persistStream (s : StreamStore) (name : gostring) : persistedStream + error :=
  match ValidateStreamName name true with
  | Some err => inr err
  | None =>
      match visitStreamRecords s name (persistRecord (getNext s name)) (0, []) with
      | (_, Some err) => inr err
      | ((previous, records), None) =>
          if negb (previous =? 0) && negb (getNext s name =? u64 (previous + 1))
          then inr (ErrNew "invalid stream next sequence"%string)
          else inl (mkPStream name (if getNext s name =? 0 then 1 else getNext s name) (Some records))
      end
  end.

Definition sortedNames {A} (m : gmap gostring A) : list gostring := sortKeys (map_to_list m).*1.

Definition persistOffsets (s : StreamStore) (stream : gostring) : list persistedStreamOffset + error :=
  let consumers := default ∅ (offsets s !! stream) in
  sumEach (fun consumer => match ValidateStreamName consumer true with
                           | Some err => inr err
                           | None => inl (mkPSOffset stream consumer (default 0 (consumers !! consumer)))
                           end) (sortedNames consumers).

Definition buildPersistedStreams (s : StreamStore) : persistedStreams + error :=
  match sumEach (persistStream s) (sortedNames (next s)) with
  | inr err => inr err
  | inl streams => match sumEach (persistOffsets s) (sortedNames (next s)) with
                   | inr err => inr err
                   | inl offsets => inl (mkPStreams (Some streams) (appendNil (Some (concat offsets))))
                   end
  end.

(** ** Recovery *)

Definition recoverRecord (name : gostring) (next : N) (st : N * list StreamRecord) (record : persistedStreamRecord) : N * list StreamRecord + error :=
  if badSequence (psr_Sequence record) st.1 next then inr (ErrNew "invalid persisted stream sequence"%string)
  else match ValidateStreamKind (psr_Kind record) with
       | Some err => inr err
       | None => match decodeStreamValue name (psr_Payload record) with
                 | inr err => inr err
                 | inl payload => inl (psr_Sequence record, st.2 ++ [mkRecord (psr_Sequence record) (psr_Kind record) payload])
                 end
       end.

Fixpoint foldError {A B} (f : A -> B -> A + error) (st : A) (l : list B) : A + error :=
  match l with
  | [] => inl st
  | x :: l => match f st x with inr err => inr err | inl st => foldError f st l end
  end.

(** [for start := 0; start < len(records); start += 64]: a chunk of up to 64 each time. *)
Fixpoint chunkRecords (fuel : nat) (t : option streamChunk) (rs : list StreamRecord) : option streamChunk :=
  match fuel with
  | O => t
  | S fuel => match rs with
              | [] => t
              | _ => chunkRecords fuel (Some (newStreamChunk t (take streamChunkSize rs))) (drop streamChunkSize rs)
              end
  end.

Definition recoverLog (rs : list StreamRecord) : streamLog :=
  mkLog (chunkRecords (length rs) None rs)
    (match rs with [] => 0 | r :: _ => Sequence r end) (nlen rs)
    (foldl (fun b r => snapshotAdd b (streamRecordBytes r)) 0 rs)
    (foldl (fun b r => snapshotAdd b (streamRecordSnapshotBytes r)) 0 rs).

Definition recoverStream (s : StreamStore) (stream : persistedStream) : StreamStore + error :=
  match ValidateStreamName (ps_Name stream) true with
  | Some err => inr err
  | None =>
      if bool_decide (is_Some (streams s !! ps_Name stream)) || (ps_Next stream =? 0)
      then inr (ErrNew "invalid persisted stream"%string)
      else match foldError (recoverRecord (ps_Name stream) (ps_Next stream)) (0, []) (elems (ps_Records stream)) with
           | inr err => inr err
           | inl (previous, records) =>
               if negb (previous =? 0) && negb (ps_Next stream =? u64 (previous + 1))
               then inr (ErrNew "invalid persisted stream next sequence"%string)
               else inl (setNext (setLog s (ps_Name stream) (recoverLog records)) (ps_Name stream) (ps_Next stream))
           end
  end.

Definition recoverOffset (s : StreamStore) (offset : persistedStreamOffset) : StreamStore + error :=
  match ValidateStreamName (pso_Stream offset) true with
  | Some err => inr err
  | None =>
      match ValidateStreamName (pso_Consumer offset) true with
      | Some err => inr err
      | None =>
          let name := pso_Stream offset in
          let s := if bool_decide (is_Some (streams s !! name)) then s else setNext (setLog s name emptyLog) name 1 in
          let consumers := default ∅ (offsets s !! name) in
          if bool_decide (is_Some (consumers !! pso_Consumer offset))
          then inr (ErrNew "duplicate persisted stream offset"%string)
          else inl (mkStreamStore (streams s) (next s)
                      (<[name := <[pso_Consumer offset := pso_Sequence offset]> consumers]> (offsets s))
                      (logicalBytes s) (storeSnapshotBytes s))
      end
  end.

Definition decodePersistedStreams (state : persistedStreams) : StreamStore + error :=
  match foldError recoverStream NewStreamStore (elems (pss_Streams state)) with
  | inr err => inr err
  | inl s => match foldError recoverOffset s (elems (pss_Offsets state)) with
             | inr err => inr err
             | inl s => inl (mkStreamStore (streams s) (next s) (offsets s)
                               (calculateStreamStoreBytes s) (calculateStreamStoreSnapshotBytes s))
             end
  end.

(** ** The store written record by record *)

Section encoder.
Context {W : Type} `{Writer W}.
Implicit Types (e : binaryEncoder W).

Definition setErr e (err : option error) : binaryEncoder W := mkEncoder (out e) (allocationLimit e) (allocationBytes e) err.

Definition writeRecord (log : streamLog) (next : N) (st : N * binaryEncoder W) (record : StreamRecord) :
    (N * binaryEncoder W) * option error :=
  let '(previous, e) := st in
  if (Sequence record =? 0) || (negb (Sequence record =? u64 (previous + 1)) && negb (previous =? 0)) || (next <=? Sequence record)
  then (st, Some invalidSequence)
  else if (previous =? 0) && negb (Sequence record =? first log)
  then (st, Some (ErrNew "invalid stream first sequence"%string))
  else match ValidateStreamKind (Kind record) with
       | Some err => (st, Some err)
       | None => match encodeValue (Payload record) with
                 | inr err => (st, Some err)
                 | inl payload =>
                     let e := enc_value (enc_str (enc_u e (Sequence record)) (Kind record)) payload 0 in
                     match e_err e with
                     | Some err => ((previous, e), Some err)
                     | None => ((Sequence record, e), None)
                     end
                 end
       end.

(** One stream of [streamStore]; the error of the visit replaces the encoder's. *)
Definition writeStream (s : StreamStore) e (name : gostring) : binaryEncoder W :=
  match ValidateStreamName name true with
  | Some err => setErr e (Some err)
  | None =>
      let log := getLog s name in
      let next := N.max (getNext s name) 1 in
      let e := enc_u (enc_u (enc_str e name) next) (u64 (count log + 1)) in
      let '((previous, e), err) := visitStreamRecords s name (writeRecord log next) (0, e) in
      let e := setErr e err in
      match err with
      | Some _ => e
      | None => if negb (count log =? 0) && negb (u64 (previous + 1) =? next)
                then setErr e (Some (ErrNew "invalid stream next sequence"%string))
                else e
      end
  end.

Definition writeOffset (s : StreamStore) (name : gostring) e (consumer : gostring) : binaryEncoder W :=
  match ValidateStreamName consumer true with
  | Some err => setErr e (Some err)
  | None => enc_u (enc_str (enc_str e name) consumer) (default 0 (default ∅ (offsets s !! name) !! consumer))
  end.

(** A loop that returns at the first error, also one from before the loop. *)
Definition encLoop {A} (f : binaryEncoder W -> A -> binaryEncoder W) e (l : list A) : binaryEncoder W :=
  match e_err e with Some _ => e | None => encEach f e l end.

Definition offsetCount (s : StreamStore) (names : list gostring) : N :=
  foldl (fun n name => u64 (n + nlen (map_to_list (default ∅ (offsets s !! name))))) 0 names.

Definition streamStore e (s : StreamStore) : binaryEncoder W :=
  let names := sortedNames (next s) in
  let e := enc_u e (u64 (nlen names + 1)) in
  let e := encLoop (writeStream s) e names in
  match e_err e with
  | Some _ => e
  | None =>
      if offsetCount s names =? 0 then enc_u e 0
      else let e := enc_u e (u64 (offsetCount s names + 1)) in
           encLoop (fun e name => encLoop (writeOffset s name) e (sortedNames (default ∅ (offsets s !! name)))) e names
  end.
End encoder.
