(* ===== verification/StreamPersistSpec.v ===== *)
(** * What the validation of stored payloads accepts

    Further down: checkpoints and replay of streams. *)
From S2P Require Import Prelude.
From S2P Require Import GoBytes.
From S2P Require Import BinaryCodec.
From S2P Require Import BinaryCodecSpec.
From S2P Require Import BinaryValue.
From S2P Require Import BinaryValueSpec.
From S2P Require Import BinaryRecords.
From S2P Require Import GoMaps.
From S2P Require Import Values.
From S2P Require Import ValuesSpec.
From S2P Require Import Streams.
From S2P Require Import StreamsSpec.
From S2P Require Import StreamLogs.
From S2P Require Import StreamStoreSpec.
From S2P Require Import StreamPersist.
From Stdlib Require Strings.String.

Import String.StringSyntax.

Section persisted_induction.
Variable P : persistedValue -> Prop.
Hypothesis Hleaf : forall v, match v with PVList _ | PVMap _ => False | _ => True end -> P v.
Hypothesis Hlist : forall l, Forall P (elems l) -> P (PVList l).
Hypothesis Hmap : forall m, Forall (fun kv => P kv.2) (elems m) -> P (PVMap m).

Lemma persisted_nested_ind : forall v, P v.
Proof.
  fix IH 1. intros v.
  assert (each : forall l, Forall P l).
  { fix each 1. intros [|x l]; [exact (Forall_nil_2 _)|exact (Forall_cons_2 _ _ _ (IH x) (each l))]. }
  assert (eachE : forall m : list (gostring * persistedValue), Forall (fun kv => P kv.2) m).
  { fix eachE 1. intros [|[k x] m]; [exact (Forall_nil_2 _)|exact (Forall_cons_2 _ (k, x) _ (IH x) (eachE m))]. }
  destruct v as [| |b|i|b|s|b|l|[l|]|[m|]|k]; try (apply Hleaf; exact I).
  - apply Hlist, each.
  - apply Hlist; exact (Forall_nil_2 _).
  - apply Hmap, eachE.
  - apply Hmap; exact (Forall_nil_2 _).
Qed.
End persisted_induction.

(** Elements, bytes and validity of a stored payload. *)
Fixpoint elementsP (v : persistedValue) : N :=
  match v with
  | PVList l => slen l + nsum (optMap elementsP l)
  | PVMap m => slen m + nsum (optMap (fun kv => elementsP kv.2) m)
  | _ => 0
  end.

Fixpoint bytesP (v : persistedValue) : N :=
  match v with
  | PVString s => nlen s
  | PVBytes b => slen b
  | PVVector l => slen l * 4
  | PVList l => nsum (optMap bytesP l)
  | PVMap m => nsum (optMap (fun kv => nlen kv.1 + bytesP kv.2) m)
  | _ => 0
  end.

Fixpoint okP (depth : nat) (v : persistedValue) : bool :=
  (depth <=? maxValueDepth)%nat &&
  match v with
  | PVFloat bits => negb (nonFinite64 bits)
  | PVString s => utf8Valid s
  | PVVector l => forallb (fun x => negb (nonFinite32 x)) (elems l)
  | PVList l => forallb id (optMap (okP (S depth)) l)
  | PVMap m => forallb id (optMap (fun kv => utf8Valid kv.1 && okP (S depth) kv.2) m)
  | PVEmpty | PVUnknown _ => false
  | _ => true
  end.

Lemma performs_all {A} (f : A -> walking unit) ok e b l :
  Forall (fun x => performs (f x) (ok x) (e x) (b x) tt) l ->
  performs (walkAll f l) (forallb id (map ok l)) (nsum (map e l)) (nsum (map b l)) tt.
Proof.
  induction 1 as [|x l Hx _ IH]; [apply performs_ret|]. cbn [walkAll map forallb nsum foldr].
  eapply performs_eq; [eapply performs_bind; [exact Hx|exact IH]|..]; done.
Qed.

Lemma performs_depth {A} depth (m : walking A) ok e b x :
  performs m ok e b x ->
  performs (if (maxValueDepth <? depth)%nat then wfail nestingExceeded else m) ((depth <=? maxValueDepth)%nat && ok) e b x.
Proof. intros Hm. rewrite <- depth_ok. performs_tac. Qed.

Lemma performs_scalar v depth :
  performs (validateScalar v depth) (okV depth v) (elementsV v) (bytesV v) tt.
Proof.
  unfold validateScalar. eapply performs_eq; [eapply performs_bind; [apply normalizeValue_performs|apply performs_ret]|..];
    rewrite ?andb_true_r, ?N.add_0_r; done.
Qed.

Lemma performs_entry (valid : persistedValue -> walking unit) ok e b kv :
  performs (valid kv.2) ok e b tt ->
  performs (validateEntry valid kv) (utf8Valid kv.1 && ok) e (nlen kv.1 + b) tt.
Proof. intros Hv. unfold validateEntry. performs_tac. Qed.

Lemma finite_items err l :
  performs (walkAll (fun item => if nonFinite32 item then wfail err else wret tt) l) (forallb (fun x => negb (nonFinite32 x)) l) 0 0 tt.
Proof.
  induction l as [|x l IH]; [apply performs_ret|]. cbn [walkAll forallb].
  eapply performs_eq; [eapply (performs_bind _ _ (negb (nonFinite32 x)) 0 0 tt); [|exact IH]|done..].
  rewrite <- (andb_true_r (negb _)). apply performs_guard, performs_ret.
Qed.

Lemma validateStreamValue_performs v : forall depth,
  performs (validateStreamValue v depth) (okP depth v) (elementsP v) (bytesP v) tt.
Proof.
  induction v as [v Hv|l Hl|m Hm] using persisted_nested_ind.
  - destruct v as [| |b|i|b|s|b|l|l|m|k]; try done; intros depth; cbn [validateStreamValue okP elementsP bytesP].
    all: try (apply performs_depth; performs_tac; fail).
    + eapply performs_eq; [apply performs_depth, performs_scalar|cbn [okV]; by destruct (depth <=? _)%nat|done..].
    + eapply performs_eq; [apply performs_depth, performs_scalar|cbn [okV]; by destruct (depth <=? _)%nat|done..].
    + apply performs_depth, performs_addBytes.
    + apply performs_depth, performs_implied.
      * intros Hc%N.ltb_lt. unfold maxValueBytes in *.
        change (64 * 2 ^ 20 / 4) with 16777216 in Hc. change (64 * 2 ^ 20) with 67108864. lia.
      * eapply performs_eq; [eapply performs_bind; [apply performs_addBytes|apply finite_items]|..];
          rewrite ?N.add_0_r; done.
  - intros depth. cbn [validateStreamValue okP elementsP bytesP]. apply performs_depth.
    assert (Hall := performs_all (fun item => validateStreamValue item (S depth)) (okP (S depth)) elementsP bytesP (elems l)).
    rewrite !optMap_elems. eapply performs_eq; [eapply performs_bind; [apply performs_add|]|..]; cycle 1; [done..|].
    destruct l; apply Hall; eapply Forall_impl; [exact Hl|auto|exact Hl|auto].
  - intros depth. cbn [validateStreamValue okP elementsP bytesP]. apply performs_depth.
    assert (Hall := performs_all (validateEntry (fun item => validateStreamValue item (S depth)))
                      (fun kv => utf8Valid kv.1 && okP (S depth) kv.2) (fun kv => elementsP kv.2)
                      (fun kv => nlen kv.1 + bytesP kv.2) (elems m)).
    rewrite !optMap_elems. eapply performs_eq; [eapply performs_bind; [apply performs_add|]|..]; cycle 1; [done..|].
    destruct m; apply Hall; eapply Forall_impl; [exact Hm|auto using performs_entry|exact Hm|auto using performs_entry].
Qed.

(** ** Payloads that were values *)

Lemma toP_entries {B} (f : gostring * persistedValue -> B) (g : gostring * value -> B) m :
  NoDup m.*1 -> Forall (fun kv => f (kv.1, toP kv.2) = g kv) m ->
  map f (mapOf (map (onEntry toP) m) []) ≡ₚ map g m.
Proof.
  intros Hnd Hm. rewrite (mapOf_entries toP m Hnd). by rewrite (map_onEntry_ext f g toP m Hm).
Qed.

Lemma toP_totals v : typedV v -> wfV v ->
  elementsP (toP v) = elementsV v /\ bytesP (toP v) = bytesV v /\ (forall depth, okP depth (toP v) = okV depth v).
Proof.
  induction v as [| | | | | | | | |l Hl|m Hm| | | |] using value_nested_ind; intros Ht Hw;
    inversion Ht; inversion Hw; subst; cbn [toP elementsP bytesP okP elementsV bytesV okV]; try done.
  - by rewrite slen_appendNil.
  - by rewrite slen_appendNil, appendNil_elems.
  - assert (He : Forall (fun x => elementsP (toP x) = elementsV x /\ bytesP (toP x) = bytesV x /\
                                  (forall depth, okP depth (toP x) = okV depth x)) (elems l))
      by (revert Hl H0 H2; rewrite !Forall_forall; auto).
    rewrite !optMap_elems, !slen_elems. cbn [elems default from_option id]. rewrite !map_map, nlen_map.
    split_and!; [f_equal; f_equal|f_equal|intros depth; rewrite !optMap_elems; cbn [elems default from_option id]; rewrite map_map; f_equal; f_equal]; apply map_ext_Forall; (eapply Forall_impl; [exact He|]); by intros x (? & ? & ?).
  - assert (He : Forall (fun kv => elementsP (toP kv.2) = elementsV kv.2 /\ bytesP (toP kv.2) = bytesV kv.2 /\
                                  (forall depth, okP depth (toP kv.2) = okV depth kv.2)) (elems m))
      by (revert Hm H0 H3; rewrite !Forall_forall; auto).
    rewrite !optMap_elems, !slen_elems. cbn [elems default from_option id].
    assert (Hp := mapOf_entries toP (elems m) ltac:(done)).
    assert (El : nlen (mapOf (map (onEntry toP) (elems m)) []) = nlen (elems m)) by (unfold nlen; by rewrite Hp, length_map).
    rewrite El. split_and!; [f_equal; apply nsum_proper|apply nsum_proper|intros depth; rewrite !optMap_elems; cbn [elems default from_option id]; f_equal; apply forallb_proper];
      apply toP_entries; try done; (eapply Forall_impl; [exact He|]); intros kv (E1 & E2 & E3); cbn; by rewrite ?E1, ?E2, ?E3.
Qed.

Definition withinP (ok : bool) (e b : N) : Prop := ok = true /\ e <= maxValueElements /\ b <= maxValueBytes.

Lemma runWalk_spec m ok e b : performs m ok e b tt -> runWalk m = None <-> withinP ok e b.
Proof.
  intros H. specialize (H newValueWalk). cbn [newValueWalk w_elements w_bytes] in H. rewrite !N.add_0_l in H.
  assert (Hp : plain newValueWalk) by (split_and!; [done|vm_compute; discriminate..]). specialize (H Hp).
  unfold runWalk, withinP. destruct ok; cbn [andb] in H.
  - destruct (N.leb_spec e maxValueElements), (N.leb_spec b maxValueBytes); cbn [andb] in H;
      first [rewrite H; split; [done|done] | destruct H as (err & w' & ->); split; [done|lia]].
  - destruct H as (err & w' & ->). by split; [|intros []].
Qed.

(** ** Changefeed envelopes *)

Lemma okV_shallower v : forall depth, okP (S depth) v = true -> okP depth v = true.
Proof.
  induction v as [v Hv|l Hl|m Hm] using persisted_nested_ind; intros depth.
  - destruct v; try done; cbn [okP]; rewrite !andb_true_iff, !Nat.leb_le; intros [? ?]; split; auto; lia.
  - cbn [okP]. rewrite !optMap_elems, !andb_true_iff, !Nat.leb_le. intros [Hd Ho]. split; [lia|].
    apply forallb_map. apply forallb_map in Ho. revert Hl Ho. rewrite !Forall_forall. auto.
  - cbn [okP]. rewrite !optMap_elems, !andb_true_iff, !Nat.leb_le. intros [Hd Ho]. split; [lia|].
    apply forallb_map. apply forallb_map in Ho. revert Hm Ho. rewrite !Forall_forall.
    intros Hm Ho kv Hkv. specialize (Ho kv Hkv). rewrite andb_true_iff in Ho |- *. destruct Ho. split; auto.
Qed.

Lemma nsum_le {A} (f g : A -> N) l : (forall x, f x <= g x) -> nsum (map f l) <= nsum (map g l).
Proof. intros H. induction l as [|x l IH]; unfold nsum in *; cbn; [lia|]. specialize (H x). lia. Qed.

Lemma nsum_two {A} (f : A -> N) l x y : x ∈ l -> y ∈ l -> x <> y -> f x + f y <= nsum (map f l).
Proof.
  intros Hx Hy Hne. apply list_elem_of_split in Hx as (l1 & l2 & ->).
  rewrite map_app, nsum_app. cbn [map]. unfold nsum at 2. cbn [foldr]. fold (nsum (map f l2)).
  apply elem_of_app in Hy as [Hy|Hy]; [pose proof (nsum_elem f _ _ Hy); lia|].
  apply elem_of_cons in Hy as [->|Hy]; [done|]. pose proof (nsum_elem f _ _ Hy). lia.
Qed.

Lemma metadata_performs envelope :
  performs (validateMetadata envelope)
    (forallb id (map (fun kv => utf8Valid kv.1 && (envelopeField kv.1 || okP 0 kv.2)) envelope))
    (nlen envelope + nsum (map (fun kv => if envelopeField kv.1 then 0 else elementsP kv.2) envelope))
    (nsum (map (fun kv => nlen kv.1 + (if envelopeField kv.1 then 0 else bytesP kv.2)) envelope)) tt.
Proof.
  unfold validateMetadata. eapply performs_eq; [eapply performs_bind; [apply performs_add|apply performs_all]|..]; cycle 1; [done..|].
  apply Forall_forall. intros kv _. apply performs_entry. destruct (envelopeField kv.1); cbn [orb].
  - apply performs_ret.
  - apply validateStreamValue_performs.
Qed.

Lemma firstError_none {A} (f : A -> option error) l : Forall (fun x => f x = None) l -> firstError f l = None.
Proof. induction 1 as [|x l Hx _ IH]; [done|]. cbn. by rewrite Hx. Qed.

(** The envelope check is no stricter than the check of the whole map. *)
Lemma envelope_weaker m : runWalk (validateStreamValue (PVMap m) 0) = None -> validateChangefeedEnvelope m = None.
Proof.
  intros Hrun. pose proof Hrun as H. apply (runWalk_spec _ _ _ _ (validateStreamValue_performs (PVMap m) 0)) in H.
  unfold withinP in H. cbn [okP elementsP bytesP] in H. rewrite !optMap_elems, slen_elems in H. cbn [andb Nat.leb maxValueDepth] in H.
  destruct H as (Hok & He & Hb). apply forallb_map in Hok. rewrite Forall_forall in Hok.
  unfold validateChangefeedEnvelope. destruct (propertyEvent (elems m)) as [[key values]|] eqn:Ep; [|done].
  unfold propertyEvent in Ep. destruct (mapLookup (str "key"%string) (elems m)) as [[| | | | |s| | | | |]|] eqn:Ek; try done.
  case_bool_decide; [done|]. injection Ep as <- <-. apply mapLookup_elem in Ek.
  pose proof (Hok _ Ek) as Hs. cbn [snd okP] in Hs. rewrite !andb_true_iff in Hs. destruct Hs as (_ & _ & Hs).
  rewrite Hs. cbn [negb]. assert (Hmeta : runWalk (validateMetadata (elems m)) = None).
  { apply (runWalk_spec _ _ _ _ (metadata_performs (elems m))). split_and!.
    - apply forallb_map, Forall_forall. intros kv Hkv. specialize (Hok kv Hkv). rewrite andb_true_iff in Hok |- *.
      destruct Hok as [H1 H2]. split; [done|]. rewrite (okV_shallower _ 0 H2). apply orb_true_r.
    - etrans; [|exact He]. apply N.add_le_mono_l, nsum_le. intros kv. destruct (envelopeField _); lia.
    - etrans; [|exact Hb]. apply nsum_le. intros kv. destruct (envelopeField _); lia. }
  rewrite Hmeta. assert (Hvals : Forall (fun v => runWalk (validatePropertyValue s v) = None)
                                  (omap (fun field => mapLookup field (elems m)) [str "new_value"%string; str "old_value"%string])).
  2:{ by apply firstError_none. }
  apply Forall_forall. intros v Hv. apply list_elem_of_omap in Hv as (field & Hf & Hv). apply mapLookup_elem in Hv.
  assert (Hne : (field, v) <> (str "key"%string, PVString s)).
  { intros [= -> _]. apply elem_of_cons in Hf as [Hf|Hf]; [by vm_compute in Hf|]. apply list_elem_of_singleton in Hf. by vm_compute in Hf. }
  pose proof (Hok _ Hv) as Hov. cbn [fst snd] in Hov. apply andb_true_iff in Hov as [_ Hov].
  assert (Hper : performs (validatePropertyValue s v) (okP 0 v) (1 + elementsP v) (nlen s + bytesP v) tt).
  { unfold validatePropertyValue. eapply performs_eq;
      [eapply performs_bind; [apply performs_add|eapply performs_bind; [apply performs_addBytes|apply validateStreamValue_performs]]|..];
      rewrite ?N.add_0_l; done. }
  apply (runWalk_spec _ _ _ _ Hper). split_and!; [by apply okV_shallower| |].
  - pose proof (nsum_elem (fun kv => elementsP kv.2) _ _ Hv). cbn in H0. etrans; [|exact He].
    assert (1 <= nlen (elems m)); [|lia]. destruct (elems m); [by apply elem_of_nil in Hv|]. unfold nlen. cbn. lia.
  - etrans; [|exact Hb]. etrans; [|apply (nsum_two _ _ _ _ Ek Hv); congruence]. cbn. lia.
Qed.

(** A stored normal value passes the check of any stream and comes back. *)
Lemma decodeStreamValue_normal name v :
  normalAt 0 v -> elementsV v <= maxValueElements -> bytesV v <= maxValueBytes -> decodeStreamValue name (toP v) = inl v.
Proof.
  intros Hn He Hb. pose proof (persist_normal 0 v Hn) as [_ Hd]. destruct Hn as [Hw Ht Ho _].
  destruct (toP_totals v Ht Hw) as (E1 & E2 & E3).
  assert (Hrun : runWalk (validateStreamValue (toP v) 0) = None).
  { apply (runWalk_spec _ _ _ _ (validateStreamValue_performs (toP v) 0)). by rewrite E1, E2, E3. }
  unfold decodeStreamValue. destruct (toP v) eqn:Ev; rewrite ?Hrun; try done.
  destruct (bool_decide _); [|done]. by rewrite (envelope_weaker m Hrun).
Qed.

(** * Checkpoints and WAL replay of streams *)

Import String.StringSyntax.

Implicit Types (rs vis : list StreamRecord) (name consumer kind : gostring).

(** ** Visiting a log *)

Fixpoint foldVisit {A} (visit : A -> StreamRecord -> A * option error) (st : A) rs : A * option error :=
  match rs with
  | [] => (st, None)
  | r :: rs => match visit st r with
               | (st, Some err) => (st, Some err)
               | (st, None) => foldVisit visit st rs
               end
  end.

Lemma record_at log c base hidden vis i r :
  logHolds log c base hidden vis -> vis !! i = Some r ->
  exists y, logChunk log (first log + N.of_nat i) = Some y /\
    records y !! N.to_nat (sub64 (first log + N.of_nat i) (firstSequence y)) = Some r.
Proof.
  intros Hh Hi. pose proof (lookup_lt_Some _ _ _ Hi) as Hlt. pose proof (holds_last Hh) as Hlast.
  pose proof Hh as [_ Hw Hc Hs _ Hf _ _ _ Hb Hbd].
  destruct (logChunk_ok Hh (first log + N.of_nat i)) as (y & d & -> & Hd & Hy); [unfold nlen in Hlast; lia|].
  exists y. split; [done|]. rewrite Hs, nlen_app in Hbd. unfold nlen in *.
  destruct (window_records log c base hidden vis y d (first log + N.of_nat i) 0 Hh Hd) as [Hin _]; [lia|lia|].
  specialize (Hin (proj1 Hy)). rewrite sub64_small by lia. replace (first log + N.of_nat i - first log) with (N.of_nat i) in Hin by lia.
  rewrite Nat2N.id, (drop_S _ _ _ Hi) in Hin. cbn [take] in Hin. rewrite <- (Nat.add_0_r (N.to_nat _)), <- lookup_drop.
  destruct (drop _ (records y)) as [|r0 l]; [done|]. cbn in Hin |- *. congruence.
Qed.

Lemma visitFrom_ok {A} (visit : A -> StreamRecord -> A * option error) log c base hidden vis :
  logHolds log c base hidden vis -> forall rest i fuel st,
  drop i vis = rest -> (i + length rest = length vis)%nat -> (length rest < fuel)%nat ->
  visitFrom fuel log (first log + N.of_nat i) visit st = foldVisit visit st rest.
Proof.
  intros Hh. pose proof Hh as [_ _ _ Hs _ Hf Hco _ _ Hb Hbd]. rewrite Hs, nlen_app in Hbd. unfold nlen in *.
  induction rest as [|r rest IH]; intros i fuel st Hd Hlen Hfuel; (destruct fuel as [|fuel]; [lia|]); cbn [visitFrom foldVisit];
    cbn [length] in *; rewrite Hco, u64_id by lia.
  - by rewrite (proj2 (N.ltb_ge _ _)) by lia.
  - rewrite (proj2 (N.ltb_lt _ _)) by lia.
    assert (Hi : vis !! i = Some r) by (rewrite <- (Nat.add_0_r i), <- lookup_drop, Hd; done).
    destruct (record_at log c base hidden vis i r Hh Hi) as (y & -> & ->).
    destruct (visit st r) as [st' [err|]]; [done|]. rewrite u64_id by lia.
    replace (first log + N.of_nat i + 1) with (first log + N.of_nat (S i)) by lia. apply IH; [|lia|lia].
    rewrite (drop_S _ _ _ Hi) in Hd. by injection Hd.
Qed.

Lemma visit_ok {A} (visit : A -> StreamRecord -> A * option error) s name vis st :
  logOK (getLog s name) vis -> visitStreamRecords s name visit st = foldVisit visit st vis.
Proof.
  intros [[El ->]|(c & base & hidden & Hh)]; unfold visitStreamRecords; [by rewrite El|].
  rewrite <- (N.add_0_r (first _)). apply (visitFrom_ok visit _ c base hidden vis Hh vis 0); [done|done|].
  rewrite (lh_count _ _ _ _ _ Hh). unfold nlen. lia.
Qed.

Lemma nlen_cons {A} (x : A) l : nlen (x :: l) = 1 + nlen l.
Proof. unfold nlen. cbn [length]. lia. Qed.

(** ** Storable stores *)

(** A payload that a stream can store and read back: a copy of it is itself, it is
    encoded as it is, and what is decoded for that stream is it again. *)
Definition storable name (v : value) : Prop := CloneValue v = v /\ encodeValue v = inl (toP v) /\ decodeStreamValue name (toP v) = inl v.

Definition storableRecord name (r : StreamRecord) : Prop := ValidateStreamKind (Kind r) = None /\ storable name (Payload r).

Record storableStore (a : absStore) : Prop := mkStorable {
  st_names : forall name n, a_next a !! name = Some n -> ValidateStreamName name true = None /\ n < 2 ^ 64;
  st_records : forall name, Forall (storableRecord name) (avis a name);
  st_consumers : forall name m consumer o, a_offsets a !! name = Some m -> m !! consumer = Some o -> ValidateStreamName consumer true = None }.

Definition persistedRecord (r : StreamRecord) : persistedStreamRecord := mkPSRecord (Sequence r) (Kind r) (toP (Payload r)).
Definition persistedStreamOf (a : absStore) name : persistedStream :=
  mkPStream name (anext a name) (Some (map persistedRecord (avis a name))).
Definition persistedOffsetsOf (a : absStore) name : list persistedStreamOffset :=
  map (fun consumer => mkPSOffset name consumer (default 0 (default ∅ (a_offsets a !! name) !! consumer)))
    (sortedNames (default ∅ (a_offsets a !! name))).

(** The image of an abstract store. *)
Definition image (a : absStore) : persistedStreams :=
  mkPStreams (Some (map (persistedStreamOf a) (sortedNames (a_next a))))
    (appendNil (Some (concat (map (persistedOffsetsOf a) (sortedNames (a_next a)))))).

Definition lastOr (previous : N) rs : N := match last rs with Some r => Sequence r | None => previous end.

Lemma lastOr_cons previous r rs : lastOr previous (r :: rs) = lastOr (Sequence r) rs.
Proof.
  unfold lastOr. destruct rs as [|r' rs]; [done|]. change (last (r :: r' :: rs)) with (last (r' :: rs)).
  destruct (last (r' :: rs)) eqn:E; [done|]. by apply last_None in E.
Qed.

Lemma badSequence_ok b previous next : 1 <= b -> b < next -> next < 2 ^ 64 -> previous = 0 \/ previous + 1 = b ->
  badSequence b previous next = false.
Proof.
  intros H1 H2 H3 H4. unfold badSequence. rewrite (proj2 (N.eqb_neq b 0)), (proj2 (N.leb_gt b previous)), (proj2 (N.leb_gt next b)) by lia.
  cbn [orb]. destruct H4 as [->|<-]; [done|]. rewrite u64_id by lia. rewrite N.eqb_refl. apply andb_false_r.
Qed.

Lemma persist_records name next rs : forall b previous acc,
  consecutive b rs -> Forall (storableRecord name) rs -> 1 <= b -> b + nlen rs <= next -> next < 2 ^ 64 -> previous = 0 \/ previous + 1 = b ->
  foldVisit (persistRecord next) (previous, acc) rs = ((lastOr previous rs, acc ++ map persistedRecord rs), None).
Proof.
  induction rs as [|r rs IH]; intros b previous acc Hc Hs H1 H2 H3 H4; [by rewrite app_nil_r|].
  destruct Hc as [Hr Hc]. apply Forall_cons in Hs as [[Hk (_ & Hn & _)] Hs]. cbn [foldVisit]. unfold persistRecord. cbn [fst snd].
  rewrite nlen_cons in H2. rewrite Hr, badSequence_ok, Hk by (done || lia). rewrite Hn.
  rewrite (IH (b + 1)) by (done || lia || (right; done)). rewrite lastOr_cons, Hr. rewrite <- app_assoc. cbn [app map].
  unfold persistedRecord at 2. by rewrite Hr.
Qed.

(** ** Building the image *)

Lemma sortedNames_elem {A} (m : gmap gostring A) k : k ∈ sortedNames m <-> is_Some (m !! k).
Proof.
  unfold sortedNames, sortKeys. rewrite (merge_sort_Permutation strLeR), list_elem_of_fmap. split.
  - intros ([k' x] & -> & Hx). apply elem_of_map_to_list in Hx. by eauto.
  - intros [x Hx]. exists (k, x). split; [done|]. by apply elem_of_map_to_list.
Qed.

Lemma sortedNames_nodup {A} (m : gmap gostring A) : NoDup (sortedNames m).
Proof. unfold sortedNames, sortKeys. rewrite (merge_sort_Permutation strLeR). apply NoDup_fst_map_to_list. Qed.

(** The sequences of a stream start somewhere and end before its next one. *)
Lemma vis_range s a name : storeOK s a -> exists b, consecutive b (avis a name) /\ 1 <= b /\
  (avis a name <> [] -> b + nlen (avis a name) = anext a name).
Proof.
  intros H. destruct (so_logs s a H name) as [[_ ->]|(c & base & hidden & Hh)]; [by exists 1|].
  exists (first (getLog s name)). pose proof (holds_vis_cons Hh). pose proof (vis_next s a name c base hidden H Hh).
  destruct Hh as [_ _ _ _ _ Hf _ _ _ Hb _]. split_and!; [done|lia|by intros _].
Qed.

Lemma lastOr_end b previous rs : consecutive b rs -> rs <> [] -> lastOr previous rs + 1 = b + nlen rs.
Proof.
  intros Hc Hne. unfold lastOr. destruct (last rs) as [r|] eqn:E; [|by apply last_None in E].
  rewrite last_lookup in E. rewrite (consecutive_lookup _ _ _ _ Hc E). unfold nlen. destruct rs; [done|]. cbn [length pred]. lia.
Qed.

Lemma next_complete rs b n : consecutive b rs -> 1 <= b -> (rs <> [] -> b + nlen rs = n) -> n < 2 ^ 64 ->
  negb (lastOr 0 rs =? 0) && negb (n =? u64 (lastOr 0 rs + 1)) = false.
Proof.
  intros Hc Hb Hn Hlt. destruct rs as [|r rs]; [done|]. rewrite (lastOr_end b) by done. rewrite Hn by done.
  rewrite u64_id by lia. rewrite N.eqb_refl. apply andb_false_r.
Qed.

Lemma persistStream_ok s a name n : storeOK s a -> storableStore a -> a_next a !! name = Some n ->
  persistStream s name = inl (persistedStreamOf a name).
Proof.
  intros H Hst Hn. destruct (st_names a Hst name n Hn) as [Hv Hlt]. unfold persistStream. rewrite Hv.
  destruct (vis_range s a name H) as (b & Hc & Hb & Hend). pose proof (anext_known a name n Hn) as Han.
  assert (Hg : getNext s name = n) by (rewrite (proj1 (getNext_spec s a name H)), Hn; done).
  pose proof (so_pos s a H name n Hn) as Hpos.
  assert (Hbn : avis a name = [] \/ b + nlen (avis a name) <= n) by (destruct (avis a name); [by left|right; rewrite Hend by done; lia]).
  rewrite (visit_ok _ s name _ _ (so_logs s a H name)), Hg.
  assert (E : foldVisit (persistRecord n) (0, []) (avis a name) = ((lastOr 0 (avis a name), map persistedRecord (avis a name)), None)).
  { destruct Hbn as [->|Hbn]; [done|]. apply (persist_records name n _ b 0 []); auto. apply (st_records a Hst). }
  rewrite E. rewrite (next_complete _ b n Hc Hb ltac:(intros; rewrite Hend by done; lia) Hlt).
  rewrite (proj2 (N.eqb_neq n 0)) by lia. unfold persistedStreamOf. by rewrite Han.
Qed.

Lemma persistOffsets_ok s a name : storeOK s a -> storableStore a -> persistOffsets s name = inl (persistedOffsetsOf a name).
Proof.
  intros H Hst. unfold persistOffsets, persistedOffsetsOf. rewrite (so_offsets s a H).
  apply (sumEach_all _ (fun consumer => mkPSOffset name consumer (default 0 (default ∅ (a_offsets a !! name) !! consumer)))).
  apply Forall_forall. intros consumer [o Ho]%sortedNames_elem.
  destruct (a_offsets a !! name) as [m|] eqn:Em; [|by apply (lookup_empty_Some (M := gmap gostring) consumer o) in Ho].
  by rewrite (st_consumers a Hst name m consumer o Em Ho).
Qed.

Lemma buildPersistedStreams_ok s a : storeOK s a -> storableStore a -> buildPersistedStreams s = inl (image a).
Proof.
  intros H Hst. unfold buildPersistedStreams, image. rewrite (so_next s a H).
  rewrite (sumEach_all _ (persistedStreamOf a)), (sumEach_all _ (persistedOffsetsOf a)); [done| |].
  - apply Forall_forall. intros name _. by apply persistOffsets_ok.
  - apply Forall_forall. intros name [n Hn]%sortedNames_elem. by apply (persistStream_ok s a name n).
Qed.

(** ** Recovering logs *)

Lemma chunkRecords_ok fuel : forall t rs, optWf t -> (length rs <= fuel)%nat ->
  optWf (chunkRecords fuel t rs) /\ optRecords (chunkRecords fuel t rs) = optRecords t ++ rs.
Proof.
  induction fuel as [|fuel IH]; intros t rs Ht Hlen.
  - destruct rs; [|cbn in Hlen; lia]. by rewrite app_nil_r.
  - cbn [chunkRecords]. destruct rs as [|r rs]; [by rewrite app_nil_r|].
    set (l := r :: rs) in *.
    assert (Hne : take streamChunkSize l <> []) by done.
    destruct (newStreamChunk_wf t (take streamChunkSize l) Ht Hne) as [Hw Hr]; [rewrite length_take; lia|].
    destruct (IH (Some (newStreamChunk t (take streamChunkSize l))) (drop streamChunkSize l)) as [H1 H2].
    + exact Hw.
    + rewrite length_drop. change (length l) with (S (length rs)) in *. unfold streamChunkSize. lia.
    + split; [exact H1|]. rewrite H2. cbn [optRecords]. rewrite Hr, <- app_assoc. by rewrite take_drop.
Qed.

Lemma recoverLog_ok rs b : consecutive b rs -> 1 <= b -> b + nlen rs < 2 ^ 64 -> logOK (recoverLog rs) rs.
Proof.
  intros Hc Hb Hlt. destruct rs as [|r rs]; [left; by split|]. right. unfold recoverLog. set (l := r :: rs) in *.
  destruct (chunkRecords_ok (length l) None l I ltac:(lia)) as [Hw Hr]. cbn [optRecords app] in Hr.
  destruct (chunkRecords (length l) None l) as [c|] eqn:Ec; [|done]. cbn [optRecords optWf] in *.
  exists c, b, []. split; cbn [tail first count logBytes logSnapshotBytes]; rewrite ?Hr; try done.
  - destruct Hc as [-> _]. unfold nlen. cbn. lia.
  - apply (foldl_sat streamRecordBytes l 0).
  - apply (foldl_sat streamRecordSnapshotBytes l 0).
Qed.

Lemma recover_records name next rs : forall b previous acc,
  consecutive b rs -> Forall (storableRecord name) rs -> 1 <= b -> b + nlen rs <= next -> next < 2 ^ 64 -> previous = 0 \/ previous + 1 = b ->
  foldError (recoverRecord name next) (previous, acc) (map persistedRecord rs) = inl (lastOr previous rs, acc ++ rs).
Proof.
  induction rs as [|r rs IH]; intros b previous acc Hc Hs H1 H2 H3 H4; [by rewrite app_nil_r|].
  destruct Hc as [Hr Hc]. apply Forall_cons in Hs as [[Hk (_ & _ & Hd)] Hs]. cbn [foldError map]. unfold recoverRecord.
  cbn [fst snd persistedRecord psr_Sequence psr_Kind psr_Payload]. rewrite nlen_cons in H2. rewrite Hr, badSequence_ok, Hk by (done || lia).
  rewrite Hd. rewrite (IH (b + 1)) by (done || lia || (right; done)). rewrite lastOr_cons, Hr, <- app_assoc.
  destruct r; cbn in *. by rewrite Hr.
Qed.

(** ** Recovering a store *)

Definition addStream (a : absStore) (s : StreamStore) name : StreamStore :=
  setNext (setLog s name (recoverLog (avis a name))) name (anext a name).

Lemma recoverStream_ok s0 a s name n : storeOK s0 a -> storableStore a -> a_next a !! name = Some n -> streams s !! name = None ->
  recoverStream s (persistedStreamOf a name) = inl (addStream a s name).
Proof.
  intros H Hst Hn Hs. destruct (st_names a Hst name n Hn) as [Hv Hlt]. pose proof (anext_known a name n Hn) as Han.
  destruct (vis_range s0 a name H) as (b & Hc & Hb & Hend). pose proof (so_pos s0 a H name n Hn) as Hpos.
  unfold recoverStream, addStream. cbn [persistedStreamOf ps_Name ps_Next ps_Records elems default from_option id]. rewrite Hv, Hs, Han.
  rewrite bool_decide_false by (by intros []). rewrite (proj2 (N.eqb_neq n 0)) by lia. cbn [orb].
  assert (E : foldError (recoverRecord name n) (0, []) (map persistedRecord (avis a name)) = inl (lastOr 0 (avis a name), avis a name)).
  { destruct (decide (avis a name = [])) as [->|Hne]; [done|].
    apply (recover_records name n _ b 0 []); auto; [apply (st_records a Hst)|rewrite Hend by done; lia]. }
  rewrite E. rewrite (next_complete _ b n Hc Hb ltac:(intros; rewrite Hend by done; lia) Hlt). done.
Qed.

Lemma recoverStreams_ok s0 a names : storeOK s0 a -> storableStore a -> NoDup names ->
  Forall (fun name => is_Some (a_next a !! name)) names -> forall s,
  Forall (fun name => streams s !! name = None) names ->
  foldError recoverStream s (map (persistedStreamOf a) names) = inl (foldl (addStream a) s names).
Proof.
  intros H Hst Hnd Hn. induction names as [|name names IH]; intros s Hs; [done|].
  apply NoDup_cons in Hnd as [Hni Hnd]. apply Forall_cons in Hn as [[n Hn] Hns]. apply Forall_cons in Hs as [Hs Hss].
  cbn [map foldError foldl]. rewrite (recoverStream_ok s0 a s name n) by done. apply (IH Hnd Hns).
  revert Hss. rewrite !Forall_forall. intros Hss k Hk. cbn. rewrite lookup_insert_ne by (by intros ->). by apply Hss.
Qed.

(** What the streams recovered so far hold. *)
Lemma addStreams_maps a names : forall s,
  (forall k, streams (foldl (addStream a) s names) !! k = if decide (k ∈ names) then Some (recoverLog (avis a k)) else streams s !! k) /\
  (forall k, next (foldl (addStream a) s names) !! k = if decide (k ∈ names) then Some (anext a k) else next s !! k) /\
  offsets (foldl (addStream a) s names) = offsets s.
Proof.
  induction names as [|name names IH]; intros s; cbn [foldl].
  - split_and!; [intros k; rewrite decide_False by (by apply not_elem_of_nil); done..|done].
  - destruct (IH (addStream a s name)) as (H1 & H2 & H3). split_and!; [| |by rewrite H3].
    + intros k. rewrite H1. destruct (decide (k ∈ names)) as [Hk|Hk]; [by rewrite decide_True by (by right)|].
      cbn. destruct (decide (k = name)) as [->|Hne]; [rewrite lookup_insert_eq, decide_True by left; done|].
      rewrite lookup_insert_ne, decide_False by (done || by intros [->|?]%elem_of_cons). done.
    + intros k. rewrite H2. destruct (decide (k ∈ names)) as [Hk|Hk]; [by rewrite decide_True by (by right)|].
      cbn. destruct (decide (k = name)) as [->|Hne]; [rewrite lookup_insert_eq, decide_True by left; done|].
      rewrite lookup_insert_ne, decide_False by (done || by intros [->|?]%elem_of_cons). done.
Qed.

(** ** Recovering offsets *)

Definition offsetOf (o : gmap gostring (gmap gostring N)) name consumer : option N := default ∅ (o !! name) !! consumer.

Definition insOffset (o : gmap gostring (gmap gostring N)) (x : persistedStreamOffset) : gmap gostring (gmap gostring N) :=
  <[pso_Stream x := <[pso_Consumer x := pso_Sequence x]> (default ∅ (o !! pso_Stream x))]> o.

Definition pairOf (x : persistedStreamOffset) : gostring * gostring := (pso_Stream x, pso_Consumer x).

Lemma insOffset_lookup o x n c :
  offsetOf (insOffset o x) n c = if decide ((n, c) = pairOf x) then Some (pso_Sequence x) else offsetOf o n c.
Proof.
  unfold offsetOf, insOffset, pairOf. destruct (decide (n = pso_Stream x)) as [->|Hn].
  - rewrite lookup_insert_eq. cbn [default from_option id]. destruct (decide (c = pso_Consumer x)) as [->|Hc].
    + by rewrite lookup_insert_eq, decide_True.
    + rewrite lookup_insert_ne by done. rewrite decide_False by congruence. done.
  - rewrite lookup_insert_ne by done. rewrite decide_False by congruence. done.
Qed.

Definition withOffsets (s : StreamStore) o : StreamStore := mkStreamStore (streams s) (next s) o (logicalBytes s) (storeSnapshotBytes s).

Definition validOffset (s : StreamStore) (x : persistedStreamOffset) : Prop :=
  ValidateStreamName (pso_Stream x) true = None /\ ValidateStreamName (pso_Consumer x) true = None /\ is_Some (streams s !! pso_Stream x).

Lemma recoverOffsets_ok l : forall s, Forall (validOffset s) l -> NoDup (map pairOf l) ->
  Forall (fun x => offsetOf (offsets s) (pso_Stream x) (pso_Consumer x) = None) l ->
  foldError recoverOffset s l = inl (withOffsets s (foldl insOffset (offsets s) l)).
Proof.
  induction l as [|x l IH]; intros s Hv Hnd Ho; [by destruct s|].
  apply Forall_cons in Hv as [(V1 & V2 & V3) Hv]. cbn [map] in Hnd. apply NoDup_cons in Hnd as [Hni Hnd]. apply Forall_cons in Ho as [Hx Ho].
  cbn [foldError foldl]. unfold recoverOffset at 1. rewrite V1, V2, (bool_decide_true (is_Some (streams s !! pso_Stream x)) V3). unfold offsetOf in Hx. rewrite Hx.
  rewrite bool_decide_false by (by intros []). change (mkStreamStore _ _ _ _ _) with (withOffsets s (insOffset (offsets s) x)).
  rewrite (IH (withOffsets s (insOffset (offsets s) x))); [done|done|done|].
  revert Ho. rewrite !Forall_forall. intros Ho y Hy. cbn [withOffsets offsets]. rewrite insOffset_lookup, decide_False; [by apply Ho|].
  intros E. apply Hni. rewrite <- E. apply list_elem_of_In. apply (in_map pairOf). by apply list_elem_of_In.
Qed.

Lemma insOffsets_lookup l : forall o n c, NoDup (map pairOf l) ->
  (forall x, x ∈ l -> pairOf x = (n, c) -> offsetOf (foldl insOffset o l) n c = Some (pso_Sequence x)) /\
  ((n, c) ∉ map pairOf l -> offsetOf (foldl insOffset o l) n c = offsetOf o n c).
Proof.
  induction l as [|y l IH]; intros o n c Hnd; cbn [foldl].
  - split; [by intros x ?%elem_of_nil|done].
  - cbn [map] in Hnd. apply NoDup_cons in Hnd as [Hni Hnd]. destruct (IH (insOffset o y) n c Hnd) as [H1 H2]. split.
    + intros x [->|Hx]%elem_of_cons Hp; [|by apply H1]. rewrite H2 by (by rewrite <- Hp).
      by rewrite insOffset_lookup, decide_True.
    + intros [Hne Hnl]%not_elem_of_cons. rewrite H2 by done. by rewrite insOffset_lookup, decide_False.
Qed.

Lemma insOffsets_some l : forall o, (forall n m, o !! n = Some m -> m <> ∅) -> forall n m, foldl insOffset o l !! n = Some m -> m <> ∅.
Proof.
  induction l as [|x l IH]; intros o Ho; [done|]. apply IH. intros n m. unfold insOffset.
  destruct (decide (n = pso_Stream x)) as [->|Hne]; [rewrite lookup_insert_eq; intros [= <-]; apply insert_non_empty|].
  rewrite lookup_insert_ne by done. apply Ho.
Qed.

(** Maps of non-empty maps are equal when they hold the same offsets. *)
Lemma offsets_eq (o1 o2 : gmap gostring (gmap gostring N)) :
  (forall n m, o1 !! n = Some m -> m <> ∅) -> (forall n m, o2 !! n = Some m -> m <> ∅) ->
  (forall n c, offsetOf o1 n c = offsetOf o2 n c) -> o1 = o2.
Proof.
  intros H1 H2 H. apply map_eq. intros n. specialize (H n). unfold offsetOf in H.
  destruct (o1 !! n) as [m1|] eqn:E1, (o2 !! n) as [m2|] eqn:E2; cbn [default from_option id] in H; [| | |done].
  - f_equal. by apply map_eq.
  - destruct (H1 n m1 E1). apply map_eq. intros c. rewrite H. done.
  - destruct (H2 n m2 E2). apply map_eq. intros c. rewrite <- H. done.
Qed.

Definition imageOffsets (a : absStore) names : list persistedStreamOffset := concat (map (persistedOffsetsOf a) names).

Lemma imageOffsets_elem a names x : x ∈ imageOffsets a names <->
  pso_Stream x ∈ names /\ offsetOf (a_offsets a) (pso_Stream x) (pso_Consumer x) = Some (pso_Sequence x).
Proof.
  unfold imageOffsets. rewrite list_elem_of_In, in_concat. split.
  - intros (l & Hl & Hx). apply in_map_iff in Hl as (name & <- & Hn). unfold persistedOffsetsOf in Hx.
    apply in_map_iff in Hx as (consumer & <- & Hc). cbn. split; [by apply list_elem_of_In|].
    apply list_elem_of_In, sortedNames_elem in Hc as [o Ho]. unfold offsetOf. by rewrite Ho.
  - destruct x as [name consumer sequence]. cbn. unfold offsetOf. intros [Hn Ho]. exists (persistedOffsetsOf a name). split.
    + apply in_map_iff. exists name. split; [done|]. by apply list_elem_of_In.
    + apply in_map_iff. exists consumer. split; [by rewrite Ho|]. apply list_elem_of_In, sortedNames_elem. by eauto.
Qed.

Lemma imageOffsets_nodup a names : NoDup names -> NoDup (map pairOf (imageOffsets a names)).
Proof.
  unfold imageOffsets. induction 1 as [|name names Hni _ IH]; [constructor|]. cbn [map concat]. rewrite map_app. apply NoDup_app.
  assert (Eg : map pairOf (persistedOffsetsOf a name) = (fun c => (name, c)) <$> sortedNames (default ∅ (a_offsets a !! name)))
    by (unfold persistedOffsetsOf; rewrite map_map; done).
  rewrite Eg. split_and!; [apply NoDup_fmap_2; [intros c c'; congruence|apply sortedNames_nodup]| |exact IH].
  intros [n c] (c' & E & _)%list_elem_of_fmap Hin. injection E as -> ->. apply list_elem_of_In, in_map_iff in Hin as (x & Ex & Hx).
  apply list_elem_of_In, imageOffsets_elem in Hx as [Hx _]. unfold pairOf in Ex. injection Ex as Ex _. by rewrite Ex in Hx.
Qed.

Lemma insOffsets_image a names o : NoDup names -> (forall n, a_offsets a !! n <> None -> n ∈ names) ->
  (forall n m, a_offsets a !! n = Some m -> m <> ∅) -> o = ∅ -> foldl insOffset o (imageOffsets a names) = a_offsets a.
Proof.
  intros Hnd Hall Hne ->. apply offsets_eq; [by apply insOffsets_some|done|]. intros n c.
  destruct (insOffsets_lookup (imageOffsets a names) ∅ n c (imageOffsets_nodup a names Hnd)) as [H1 H2].
  destruct (offsetOf (a_offsets a) n c) as [v|] eqn:E.
  - rewrite (H1 (mkPSOffset n c v)); [done| |done]. apply imageOffsets_elem. split; [|done]. cbn. apply Hall. unfold offsetOf in E.
    destruct (a_offsets a !! n); [done|]. by apply (lookup_empty_Some (M := gmap gostring) c v) in E.
  - rewrite H2; [done|]. intros Hin. apply list_elem_of_In, in_map_iff in Hin as (x & Ex & Hx).
    apply list_elem_of_In, imageOffsets_elem in Hx as [_ Hx]. unfold pairOf in Ex. injection Ex as <- <-. congruence.
Qed.

Lemma decodePersistedStreams_ok s a : storeOK s a -> storableStore a ->
  exists s', decodePersistedStreams (image a) = inl s' /\ storeOK s' a.
Proof.
  intros H Hst. pose proof (sortedNames_nodup (a_next a)) as Hnd. set (names := sortedNames (a_next a)) in *.
  assert (Hnames : Forall (fun name => is_Some (a_next a !! name)) names) by (apply Forall_forall; intros k; apply sortedNames_elem).
  unfold decodePersistedStreams, image. cbn [pss_Streams pss_Offsets]. rewrite appendNil_elems. cbn [elems default from_option id].
  rewrite (recoverStreams_ok s a names H Hst Hnd Hnames) by (apply Forall_forall; done).
  destruct (addStreams_maps a names NewStreamStore) as (H1 & H2 & H3). set (s1 := foldl (addStream a) NewStreamStore names) in *.
  clearbody s1. fold names. fold (imageOffsets a names).
  assert (Hk : forall k, a_offsets a !! k <> None -> k ∈ names).
  { intros k Hk. apply sortedNames_elem. destruct (a_next a !! k) eqn:E; [by eauto|]. by destruct (Hk (so_known s a H k E)). }
  rewrite (recoverOffsets_ok (imageOffsets a names) s1); [|..].
  - rewrite H3. rewrite (insOffsets_image a names _ Hnd Hk (so_nonempty s a H)) by done. eexists. split; [reflexivity|].
    assert (Hlog : forall name, logOK (getLog (withOffsets s1 (a_offsets a)) name) (avis a name)).
    { intros name. unfold getLog. cbn [withOffsets streams]. rewrite H1. case_decide as Hd; cbn.
      - destruct (vis_range s a name H) as (b & Hc & Hb & Hend). apply sortedNames_elem in Hd as [n Hn].
        destruct (decide (avis a name = [])) as [->|Hne]; [by left|]. apply (recoverLog_ok _ b Hc Hb). rewrite Hend by done.
        rewrite (anext_known a name n Hn). by apply (st_names a Hst name n).
      - left. split; [done|]. apply (so_none s a H). destruct (a_next a !! name) eqn:E; [|done]. destruct Hd. apply sortedNames_elem. by eauto. }
    assert (Hnext : next s1 = a_next a).
    { apply map_eq. intros k. rewrite H2. case_decide as Hd.
      - apply sortedNames_elem in Hd as [n Hn]. by rewrite (anext_known a k n Hn), Hn.
      - destruct (a_next a !! k) eqn:E; [|done]. destruct Hd. apply sortedNames_elem. by eauto. }
    split; cbn [next offsets logicalBytes storeSnapshotBytes]; try apply H; try done.
    + apply (calcBytes_total (fun name => nlen name + 64) streamRecordBytes (fun name consumer => nlen name + nlen consumer + 48)); done.
    + apply (calcBytes_total streamSnapshotBytes streamRecordSnapshotBytes streamOffsetSnapshotBytes); done.
  - apply Forall_forall. intros x [Hx Ho]%imageOffsets_elem. split_and!.
    + apply sortedNames_elem in Hx as [n Hn]. by apply (st_names a Hst _ n).
    + unfold offsetOf in Ho. destruct (a_offsets a !! pso_Stream x) as [m|] eqn:Em; [by apply (st_consumers a Hst _ m _ _ Em Ho)|].
      by apply (lookup_empty_Some (M := gmap gostring) (pso_Consumer x) (pso_Sequence x)) in Ho.
    + rewrite H1, decide_True by done. by eauto.
  - by apply imageOffsets_nodup.
  - apply Forall_forall. intros x _. by rewrite H3.
Qed.
