(* ===== verification/StreamTx.v ===== *)
(** * Stream operations of a transaction (internal/engine/stream.go, db.go)

    What a write transaction does to its fork of the stream store, and the operations
    it records for the WAL delta.

    Further down: the changefeed a transaction publishes at commit. *)
From S2P Require Import Prelude.
From S2P Require Import GoBytes.
From S2P Require Import BinaryCodec.
From S2P Require Import BinaryValue.
From S2P Require Import BinaryRecords.
From S2P Require Import GoMaps.
From S2P Require Import Values.
From S2P Require Import Properties.
From S2P Require Import PageRecords.
From S2P Require Import Streams.
From S2P Require Import StreamPersist.
From Stdlib Require Strings.String.

Import String.StringSyntax.

(** The part of [Tx] that matters here: [tx.graph.Streams] and the recorded changes. *)
Record Tx := mkTx {
  tx_closed : bool;
  tx_readOnly : bool;
  tx_dbReadOnly : bool;
  tx_Streams : StreamStore;
  streamsChanged : bool;
  streamOperations : list StreamOperation }.

Definition ErrInactiveTx : error := ErrNew "transaction is inactive"%string.
Definition ErrReadOnly : error := ErrNew "database is read-only"%string.
Definition invalidArgument (err : error) : error := ErrWrap (str "invalid argument"%string) err.
Definition sequenceExhausted : error := ErrLoadResourceLimit "stream sequence space exhausted"%string.

Definition ensureWritable (tx : Tx) : option error :=
  if tx_closed tx then Some ErrInactiveTx
  else if tx_readOnly tx then Some ErrReadOnly
  else if tx_dbReadOnly tx then Some ErrReadOnly
  else None.

Definition validateStreamName (name : gostring) (allowReserved : bool) : option error :=
  match ValidateStreamName name allowReserved with Some err => Some (invalidArgument err) | None => None end.
Definition validateStreamKind (kind : gostring) : option error :=
  match ValidateStreamKind kind with Some err => Some (invalidArgument err) | None => None end.
Definition validateConsumer (consumer : gostring) : option error := validateStreamName consumer true.

Definition withStreams (tx : Tx) (s : StreamStore) : Tx :=
  mkTx (tx_closed tx) (tx_readOnly tx) (tx_dbReadOnly tx) s (streamsChanged tx) (streamOperations tx).

Definition recordStreamOperation (tx : Tx) (operation : StreamOperation) : Tx :=
  mkTx (tx_closed tx) (tx_readOnly tx) (tx_dbReadOnly tx) (tx_Streams tx) true (streamOperations tx ++ [operation]).

(** [Publish], then the operation with the sequence it was given. *)
Definition publishRecorded (tx : Tx) (stream kind : gostring) (payload : value) : N * Tx :=
  let '(sequence, s) := Publish (tx_Streams tx) stream kind payload in
  (sequence, recordStreamOperation (withStreams tx s) (mkStreamOperation publishOp stream [] sequence kind payload)).

Definition PublishStreamGetSequence (tx : Tx) (stream kind : gostring) (payload : value) : (N + error) * Tx :=
  match ensureWritable tx with
  | Some err => (inr err, tx)
  | None =>
  match validateStreamName stream false with
  | Some err => (inr err, tx)
  | None =>
  match validateStreamKind kind with
  | Some err => (inr err, tx)
  | None =>
  match NormalizeValue payload with
  | inr err => (inr err, tx)
  | inl normalized =>
      if NextSequence (tx_Streams tx) stream =? max_uint64 then (inr sequenceExhausted, tx)
      else let '(sequence, tx) := publishRecorded tx stream kind normalized in (inl sequence, tx)
  end end end end.

Definition PublishStream (tx : Tx) (stream kind : gostring) (payload : value) : option error * Tx :=
  match PublishStreamGetSequence tx stream kind payload with
  | (inr err, tx) => (Some err, tx)
  | (inl _, tx) => (None, tx)
  end.

Definition SetStreamOffset (tx : Tx) (stream consumer : gostring) (sequence : N) : option error * Tx :=
  match ensureWritable tx with
  | Some err => (Some err, tx)
  | None =>
  match validateStreamName stream true with
  | Some err => (Some err, tx)
  | None =>
  match validateConsumer consumer with
  | Some err => (Some err, tx)
  | None =>
      (None, recordStreamOperation (withStreams tx (SetOffset (tx_Streams tx) stream consumer sequence))
               (mkStreamOperation offsetOp stream consumer sequence [] VNil))
  end end end.

Definition TrimStream (tx : Tx) (stream : gostring) (beforeSequence : N) : option error * Tx :=
  match ensureWritable tx with
  | Some err => (Some err, tx)
  | None =>
  match validateStreamName stream true with
  | Some err => (Some err, tx)
  | None =>
      (None, recordStreamOperation (withStreams tx (Trim (tx_Streams tx) stream beforeSequence))
               (mkStreamOperation trimOp stream [] beforeSequence [] VNil))
  end end.

(** ** The change stream *)

Definition changeStreamName : gostring := str "__lattice_changes"%string.

Definition preflightChangefeedSequence (next pending : N) : option error :=
  if negb (pending =? 0) && ((next =? max_uint64) || (max_uint64 - next <? pending))
  then Some (ErrLoadResourceLimit "change stream sequence space exhausted"%string) else None.

Definition appendChange (tx : Tx) (kind : gostring) (payload : value) : Tx := (publishRecorded tx changeStreamName kind payload).2.

(** The change stream cut to its byte budget at the end of [appendChangefeed]. *)
Definition trimChangefeed (tx : Tx) (changefeedMaxBytes : N) : Tx :=
  let '((through, trimmed), s) := TrimToBytes (tx_Streams tx) changeStreamName changefeedMaxBytes in
  let tx := withStreams tx s in
  if trimmed then recordStreamOperation tx (mkStreamOperation trimOp changeStreamName [] through [] VNil) else tx.

(** * The changefeed of a transaction (internal/engine/stream.go)

    At commit a transaction publishes one record per change to the reserved change
    stream: deletions, insertions, label and property differences between the base
    graph and its own. Before that it counts the records and refuses a commit that
    would run out of sequences.

    Nodes and edges are finite maps here, what [PagedMap] refines. The sets of changed
    identifiers are visited in increasing order; where the code ranges over a map the
    order only decides which of several errors is reported. *)

Import String.StringSyntax.

(** ** [reflect.DeepEqual] on property values *)

(** Floats compare as numbers: the zeros are equal, no NaN equals anything. *)
Definition floatEq (expBits mantBits : N) (a b : N) : bool :=
  let nan x := (N.land (N.shiftr x mantBits) (2 ^ expBits - 1) =? 2 ^ expBits - 1) && negb (N.land x (2 ^ mantBits - 1) =? 0) in
  let magnitude x := N.land x (2 ^ (expBits + mantBits) - 1) in
  negb (nan a) && negb (nan b) && ((a =? b) || ((magnitude a =? 0) && (magnitude b =? 0))).
Definition float64Eq : N -> N -> bool := floatEq 11 52.
Definition float32Eq : N -> N -> bool := floatEq 8 23.

(** Slices: both nil or neither, and the same elements. *)
Definition sliceEq {A} (eq : A -> A -> bool) : list A -> list A -> bool :=
  fix each l l' :=
    match l, l' with
    | [], [] => true
    | x :: l, y :: l' => eq x y && each l l'
    | _, _ => false
    end.

Fixpoint deepEqual (a b : value) {struct a} : bool :=
  match a, b with
  | VNil, VNil => true
  | VBool x, VBool y => Bool.eqb x y
  | VInt x, VInt y => (x =? y)%Z
  | VFloat x, VFloat y => float64Eq x y
  | VString x, VString y => bool_decide (x = y)
  | VBytes (Some x), VBytes (Some y) => bool_decide (x = y)
  | VBytes None, VBytes None => true
  | VVector (Some x), VVector (Some y) => sliceEq float32Eq x y
  | VVector None, VVector None => true
  | VList (Some x), VList (Some y) => sliceEq deepEqual x y
  | VList None, VList None => true
  | VMap (Some x), VMap (Some y) =>
      (nlen x =? nlen y) &&
      (fix each l := match l with
                     | [] => true
                     | (k, v) :: l => match mapLookup k y with Some w => deepEqual v w | None => false end && each l
                     end) x
  | VMap None, VMap None => true
  | _, _ => false
  end.

(** ** The transaction's view *)

Record graphView := mkView { v_Nodes : gmap N NodeRecord; v_Edges : gmap N EdgeRecord }.

(** The fields of [txChanges] the changefeed reads; the tracked keys of an entity are
    nil when they are not known. *)
Record txChanges := mkChanges {
  upsertNodes : gset N;
  deleteNodes : gset N;
  upsertEdges : gset N;
  deleteEdges : gset N;
  nodePropertyKeys : gmap N (slice gostring);
  edgePropertyKeys : gmap N (slice gostring) }.

Definition mapKeys (values : gset N) : list N := merge_sort N.le (elements values).

Inductive entity := entityNode | entityEdge.

Definition trackedPropertyKeys (ch : txChanges) (e : entity) (id : N) : slice gostring :=
  match e with
  | entityNode => mjoin (nodePropertyKeys ch !! id)
  | entityEdge => mjoin (edgePropertyKeys ch !! id)
  end.

Definition beforeProperties (node : option NodeRecord) : Properties :=
  match node with None => mkProperties [] | Some n => n_Properties n end.
Definition beforePropertiesEdge (edge : option EdgeRecord) : Properties :=
  match edge with None => mkProperties [] | Some e => e_Properties e end.

(** ** Counting *)

Definition labelSet (labels : slice gostring) : gset gostring := list_to_set (elems labels).
Definition oldLabels (before : option NodeRecord) : gset gostring :=
  match before with None => ∅ | Some n => labelSet (n_Labels n) end.

Definition countIf {A} (f : A -> bool) (l : list A) : N :=
  foldl (fun count x => if f x then u64 (count + 1) else count) 0 l.

Definition countLabelChanges (before : option NodeRecord) (after : NodeRecord) : N :=
  let old := oldLabels before in
  let new := labelSet (n_Labels after) in
  u64 (countIf (fun label => negb (bool_decide (label ∈ old))) (elements new) +
       countIf (fun label => negb (bool_decide (label ∈ new))) (elements old)).

(** [oldOK != newOK || oldOK && !DeepEqual] *)
Definition propertyChanged (before after : Properties) (key : gostring) : bool :=
  match Lookup before key, Lookup after key with
  | Some x, Some y => negb (deepEqual x y)
  | None, None => false
  | _, _ => true
  end.

Definition countPropertyChanges (before after : Properties) (keys : slice gostring) : N :=
  match keys with
  | Some keys => countIf (propertyChanged before after) keys
  | None =>
      u64 (countIf (fun kv => match Lookup before kv.1, Lookup after kv.1 with
                              | Some x, Some y => negb (deepEqual x y)
                              | _, _ => true
                              end) (PAll before) +
           countIf (fun kv => match Lookup before kv.1 with Some _ => false | None => true end) (PAll after))
  end.

Definition countNodeChanges (ch : txChanges) (before after : option NodeRecord) : N :=
  match after with
  | None => 0
  | Some n =>
      u64 (u64 ((match before with None => 1 | Some _ => 0 end) + countLabelChanges before n) +
           countPropertyChanges (beforeProperties before) (n_Properties n) (trackedPropertyKeys ch entityNode (n_ID n)))
  end.

Definition countEdgeChanges (ch : txChanges) (before after : option EdgeRecord) : N :=
  match after with
  | None => 0
  | Some e =>
      u64 ((match before with None => 1 | Some _ => 0 end) +
           countPropertyChanges (beforePropertiesEdge before) (e_Properties e) (trackedPropertyKeys ch entityEdge (e_ID e)))
  end.

Definition sumOver {A} (f : A -> N) (count : N) (l : list A) : N := foldl (fun count x => u64 (count + f x)) count l.

Definition countChangefeedEvents (ch : txChanges) (base graph : graphView) : N :=
  let count := countIf (fun id => bool_decide (is_Some (v_Edges base !! id))) (mapKeys (deleteEdges ch)) in
  let count := u64 (count + nlen (mapKeys (deleteNodes ch))) in
  let count := sumOver (fun id => countNodeChanges ch (v_Nodes base !! id) (v_Nodes graph !! id)) count (mapKeys (upsertNodes ch)) in
  sumOver (fun id => countEdgeChanges ch (v_Edges base !! id) (v_Edges graph !! id)) count (mapKeys (upsertEdges ch)).

(** ** Publishing *)

(** [int64(id)] *)
Definition int64Of (id : N) : value := VInt (if id <? 2 ^ 63 then Z.of_N id else (Z.of_N id - 2 ^ 64)%Z).

(** A map literal. *)
Definition payloadMap (fields : list (string * value)) : value :=
  VMap (Some (mapOf (map (fun kv => (str kv.1, kv.2)) fields) [])).

Definition changefeedInlineValueBytes : N := 256 * 2 ^ 10.

Definition changefeedValueType (v : value) : string :=
  match v with
  | VNil => "null" | VBool _ => "bool" | VInt _ => "int" | VFloat _ => "float" | VString _ => "string"
  | VBytes _ => "bytes" | VVector _ => "vector" | VList _ => "list" | VMap _ => "map" | _ => "unknown"
  end%string.

Definition changefeedValue (changefeedMaxBytes : N) (v : value) : value * bool :=
  let encodedBytes := estimateValueBytes v in
  let inlineLimit := N.min changefeedInlineValueBytes (changefeedMaxBytes / 4) in
  if encodedBytes <=? inlineLimit then (CloneValue v, false)
  else (payloadMap [("__lattice_value_omitted", VBool true); ("type", VString (str (changefeedValueType v)));
                    ("encoded_bytes", VInt (Z.of_N (N.min encodedBytes (2 ^ 63 - 1))))]%string, true).

Section publishing.
Context (ch : txChanges) (base graph : graphView) (changefeedMaxBytes : N).

(** [sortedStringSet] *)
Definition sortedStringSet (values : gset gostring) : list gostring := sortKeys (elements values).

Definition labelEvent (kind : string) (id : N) (skip : gset gostring) (tx : Tx) (label : gostring) : Tx :=
  if bool_decide (label ∈ skip) then tx
  else appendChange tx (str kind) (payloadMap [("node_id", int64Of id); ("label", VString label)]%string).

Definition appendLabelChanges (tx : Tx) (nodeID : N) (before : option NodeRecord) (after : NodeRecord) : Tx :=
  let old := oldLabels before in
  let new := labelSet (n_Labels after) in
  let tx := foldl (labelEvent "node.label_add"%string nodeID old) tx (sortedStringSet new) in
  foldl (labelEvent "node.label_remove"%string nodeID new) tx (sortedStringSet old).

Definition entityName (e : entity) : string := match e with entityNode => "node" | entityEdge => "edge" end%string.
Definition entityID (e : entity) (id : N) : string * value :=
  (match e with entityNode => "node_id" | entityEdge => "edge_id" end%string, int64Of id).

Definition valueFields (prefix : string) (v : value) : list (string * value) :=
  let '(shown, omitted) := changefeedValue changefeedMaxBytes v in
  [(String.append prefix "_value"%string, shown); (String.append prefix "_value_omitted"%string, VBool omitted)].

Definition propertyEventFor (e : entity) (id : N) (before after : Properties) (tx : Tx) (key : gostring) : Tx :=
  let fields := [("key", VString key)]%string ++ [entityID e id] in
  match Lookup before key, Lookup after key with
  | None, None => tx
  | Some x, Some y =>
      if deepEqual x y then tx
      else appendChange tx (str (String.append (entityName e) ".property_set"%string)) (payloadMap (fields ++ valueFields "new"%string y ++ valueFields "old"%string x))
  | None, Some y => appendChange tx (str (String.append (entityName e) ".property_set"%string)) (payloadMap (fields ++ valueFields "new"%string y))
  | Some x, None => appendChange tx (str (String.append (entityName e) ".property_remove"%string)) (payloadMap (fields ++ valueFields "old"%string x))
  end.

(** [slices.Compact] *)
Fixpoint compactKeys (l : list gostring) : list gostring :=
  match l with
  | [] => []
  | x :: l' => match l' with
               | y :: _ => if bool_decide (x = y) then compactKeys l' else x :: compactKeys l'
               | [] => [x]
               end
  end.

Definition changedKeys (e : entity) (id : N) (before after : Properties) : list gostring :=
  match trackedPropertyKeys ch e id with
  | None => compactKeys (sortKeys ((PAll before).*1 ++ (PAll after).*1))
  | Some keys => sortKeys keys
  end.

Definition appendPropertyChanges (tx : Tx) (e : entity) (id : N) (before after : Properties) : Tx :=
  foldl (propertyEventFor e id before after) tx (changedKeys e id before after).

Definition appendNodeChanges (tx : Tx) (before after : option NodeRecord) : Tx :=
  match after with
  | None => tx
  | Some n =>
      let tx := match before with
                | None => appendChange tx (str "node.insert"%string) (payloadMap [("node_id", int64Of (n_ID n))]%string)
                | Some _ => tx
                end in
      let tx := appendLabelChanges tx (n_ID n) before n in
      appendPropertyChanges tx entityNode (n_ID n) (beforeProperties before) (n_Properties n)
  end.

Definition edgeFields (id : N) (e : EdgeRecord) : list (string * value) :=
  [("edge_id", int64Of id); ("source_id", int64Of (e_SourceID e)); ("target_id", int64Of (e_TargetID e));
   ("type", VString (e_Type e))]%string.

Definition appendEdgeChanges (tx : Tx) (before after : option EdgeRecord) : Tx :=
  match after with
  | None => tx
  | Some e =>
      let tx := match before with
                | None => appendChange tx (str "edge.insert"%string) (payloadMap (edgeFields (e_ID e) e))
                | Some _ => tx
                end in
      appendPropertyChanges tx entityEdge (e_ID e) (beforePropertiesEdge before) (e_Properties e)
  end.

Definition validateEndpoints (e : EdgeRecord) : option error := firstError ValidateEntityID [e_SourceID e; e_TargetID e].

Definition validateChangedIDs : option error :=
  firstError id
    (map ValidateEntityID (mapKeys (upsertNodes ch)) ++ map ValidateEntityID (mapKeys (deleteNodes ch)) ++
     map (fun id => match ValidateEntityID id with
                    | Some err => Some err
                    | None => match v_Edges graph !! id with None => None | Some e => validateEndpoints e end
                    end) (mapKeys (upsertEdges ch)) ++
     map ValidateEntityID (mapKeys (deleteEdges ch))).

(** Deleted edges, from the base graph; a bad endpoint ends the loop. *)
Fixpoint appendDeletedEdges (tx : Tx) (ids : list N) : option error * Tx :=
  match ids with
  | [] => (None, tx)
  | id :: ids =>
      match v_Edges base !! id with
      | None => appendDeletedEdges tx ids
      | Some e => match validateEndpoints e with
                  | Some err => (Some err, tx)
                  | None => appendDeletedEdges (appendChange tx (str "edge.delete"%string) (payloadMap (edgeFields id e))) ids
                  end
      end
  end.

Definition nothingChanged : bool :=
  bool_decide (upsertNodes ch = ∅) && bool_decide (deleteNodes ch = ∅) &&
  bool_decide (upsertEdges ch = ∅) && bool_decide (deleteEdges ch = ∅).

(** The events of [appendChangefeed], before the stream is cut to its budget. *)
Definition appendEvents (tx : Tx) : option error * Tx :=
  match appendDeletedEdges tx (mapKeys (deleteEdges ch)) with
  | (Some err, tx) => (Some err, tx)
  | (None, tx) =>
      let tx := foldl (fun tx id => appendChange tx (str "node.delete"%string) (payloadMap [("node_id", int64Of id)]%string))
                  tx (mapKeys (deleteNodes ch)) in
      let tx := foldl (fun tx id => appendNodeChanges tx (v_Nodes base !! id) (v_Nodes graph !! id)) tx (mapKeys (upsertNodes ch)) in
      let tx := foldl (fun tx id => appendEdgeChanges tx (v_Edges base !! id) (v_Edges graph !! id)) tx (mapKeys (upsertEdges ch)) in
      (None, tx)
  end.

Definition appendChangefeed (tx : Tx) : option error * Tx :=
  if nothingChanged then (None, tx)
  else match validateChangedIDs with
       | Some err => (Some err, tx)
       | None =>
           match preflightChangefeedSequence (NextSequence (tx_Streams tx) changeStreamName)
                   (countChangefeedEvents ch base graph) with
           | Some err => (Some err, tx)
           | None => match appendEvents tx with
                     | (Some err, tx) => (Some err, tx)
                     | (None, tx) => (None, trimChangefeed tx changefeedMaxBytes)
                     end
           end
       end.
End publishing.
