(* ===== verification/ChangefeedSpec.v ===== *)
(** * The changefeed publishes as many records as it counts *)
From S2P Require Import Prelude.
From S2P Require Import GoBytes.
From S2P Require Import BinaryCodec.
From S2P Require Import BinaryCodecSpec.
From S2P Require Import BinaryValue.
From S2P Require Import BinaryValueSpec.
From S2P Require Import GoMaps.
From S2P Require Import Values.
From S2P Require Import ValuesSpec.
From S2P Require Import Properties.
From S2P Require Import PageRecords.
From S2P Require Import Streams.
From S2P Require Import StreamPersist.
From S2P Require Import StreamTx.

Implicit Types (tx : Tx).

(** ** Counting modulo 2^64 *)

Lemma u64_add_l a b : u64 (u64 a + b) = u64 (a + b).
Proof. unfold u64. by rewrite N.Div0.add_mod_idemp_l. Qed.
Lemma u64_add_r a b : u64 (a + u64 b) = u64 (a + b).
Proof. unfold u64. by rewrite N.Div0.add_mod_idemp_r. Qed.
Lemma u64_idem a : u64 (u64 a) = u64 a.
Proof. unfold u64. by rewrite N.Div0.mod_mod. Qed.

Definition countOf {A} (f : A -> bool) (l : list A) : N := nsum (map (fun x => if f x then 1 else 0) l).

Lemma countIf_of {A} (f : A -> bool) l : countIf f l = u64 (countOf f l).
Proof.
  unfold countIf, countOf. assert (E : forall n, foldl (fun count x => if f x then u64 (count + 1) else count) (u64 n) l =
    u64 (n + nsum (map (fun x => if f x then 1 else 0) l))); [|exact (E 0)].
  induction l as [|x l IH]; intros n; cbn [foldl map]; [unfold nsum; cbn; by rewrite N.add_0_r|].
  unfold nsum in *. cbn [foldr]. destruct (f x); [rewrite u64_add_l|]; rewrite IH; f_equal; lia.
Qed.

Lemma sumOver_of {A} (f g : A -> N) l : (forall x, x ∈ l -> f x = u64 (g x)) -> forall n,
  sumOver f (u64 n) l = u64 (n + nsum (map g l)).
Proof.
  unfold sumOver. induction l as [|x l IH]; intros H n; cbn [foldl map]; [unfold nsum; cbn; by rewrite N.add_0_r|].
  rewrite (H x) by left. rewrite u64_add_r, u64_add_l, IH by (intros y Hy; apply H; by right). unfold nsum. cbn. f_equal. lia.
Qed.

Lemma countOf_perm {A} (f : A -> bool) l l' : l ≡ₚ l' -> countOf f l = countOf f l'.
Proof. intros H. unfold countOf. by apply nsum_proper, Permutation_map. Qed.

Lemma countOf_ext {A} (f g : A -> bool) l : (forall x, x ∈ l -> f x = g x) -> countOf f l = countOf g l.
Proof.
  intros H. unfold countOf. f_equal. apply map_ext_in. intros x Hx. rewrite H; [done|]. by apply list_elem_of_In.
Qed.

Lemma countOf_app {A} (f : A -> bool) l l' : countOf f (l ++ l') = countOf f l + countOf f l'.
Proof. unfold countOf. by rewrite map_app, nsum_app. Qed.

Lemma countOf_map {A B} (f : B -> bool) (g : A -> B) l : countOf f (map g l) = countOf (fun x => f (g x)) l.
Proof. unfold countOf. by rewrite map_map. Qed.

Lemma countOf_keys {A B} (f : A -> bool) (l : list (A * B)) : countOf f l.*1 = countOf (fun kv => f kv.1) l.
Proof. exact (countOf_map f fst l). Qed.

Lemma countOf_filter {A} (f : A -> bool) (P : A -> Prop) `{forall x, Decision (P x)} l :
  countOf f (base.filter P l) = countOf (fun x => bool_decide (P x) && f x) l.
Proof.
  unfold countOf. induction l as [|x l IH]; [done|]. rewrite filter_cons. case_decide as Hx; cbn [map nsum foldr] in *.
  - rewrite bool_decide_true by done. unfold nsum in *. cbn [map foldr andb]. by rewrite IH.
  - rewrite bool_decide_false by done. unfold nsum in *. cbn [foldr andb]. by rewrite IH.
Qed.

(** ** Sorted unions *)

Lemma compactKeys_elem l x : x ∈ compactKeys l <-> x ∈ l.
Proof.
  induction l as [|y l IH]; [done|]. cbn [compactKeys]. destruct l as [|z l]; [done|]. case_bool_decide as Hy.
  - subst. rewrite IH, (elem_of_cons (z :: l)). split; [by right|intros [->|?]; [by left|done]].
  - rewrite elem_of_cons, IH, (elem_of_cons (z :: l)). done.
Qed.

Lemma compactKeys_nodup l : StronglySorted strLeR l -> NoDup (compactKeys l).
Proof.
  induction l as [|y l IH]; intros Hs; [constructor|]. apply StronglySorted_inv in Hs as [Hs Hy]. cbn [compactKeys].
  destruct l as [|z l]; [by apply NoDup_singleton|]. case_bool_decide as Hyz; [by apply IH|]. apply NoDup_cons. split; [|by apply IH].
  intros Hin. rewrite compactKeys_elem in Hin. apply Hyz. apply StronglySorted_inv in Hs as [_ Hz]. rewrite Forall_cons in Hy. destruct Hy as [Hyz' _].
  apply elem_of_cons in Hin as [->|Hin]; [done|]. apply strLeR_antisym; [done|]. rewrite Forall_forall in Hz. by apply Hz.
Qed.

Lemma sortKeys_compact l : NoDup (compactKeys (sortKeys l)) /\ forall x, x ∈ compactKeys (sortKeys l) <-> x ∈ l.
Proof.
  split.
  - apply compactKeys_nodup. apply Sorted_StronglySorted; [apply _|]. apply (Sorted_merge_sort strLeR).
  - intros x. rewrite compactKeys_elem. unfold sortKeys. by rewrite (merge_sort_Permutation strLeR).
Qed.

(** ** Runs of published records *)

Definition publishAll tx (events : list (gostring * value)) : Tx := foldl (fun tx e => appendChange tx e.1 e.2) tx events.
Definition appends tx tx' (n : N) : Prop := exists events, nlen events = n /\ tx' = publishAll tx events.

Lemma appends_none tx : appends tx tx 0.
Proof. by exists []. Qed.

Lemma appends_one tx kind payload : appends tx (appendChange tx kind payload) 1.
Proof. by exists [(kind, payload)]. Qed.

Lemma appends_trans tx tx' tx'' n m : appends tx tx' n -> appends tx' tx'' m -> appends tx tx'' (n + m).
Proof.
  intros (ev & <- & ->) (ev' & <- & ->). exists (ev ++ ev'). split; [by rewrite nlen_app|].
  unfold publishAll. by rewrite foldl_app.
Qed.

Lemma appends_fold {A} (f : Tx -> A -> Tx) (g : A -> N) l : (forall tx x, x ∈ l -> appends tx (f tx x) (g x)) ->
  forall tx, appends tx (foldl f tx l) (nsum (map g l)).
Proof.
  induction l as [|x l IH]; intros H tx; [apply appends_none|]. cbn [foldl map]. unfold nsum. cbn [foldr].
  eapply appends_trans; [apply H; left|apply IH]. intros tx' y Hy. apply H. by right.
Qed.

Lemma appends_count {A} (f : Tx -> A -> Tx) (g : A -> bool) l : (forall tx x, appends tx (f tx x) (if g x then 1 else 0)) ->
  forall tx, appends tx (foldl f tx l) (countOf g l).
Proof. intros H tx. apply appends_fold. auto. Qed.

Lemma appends_eq tx tx' n m : appends tx tx' n -> n = m -> appends tx tx' m.
Proof. by intros ? ->. Qed.

(** ** Labels *)

Definition labelCount (before : option NodeRecord) (after : NodeRecord) : N :=
  countOf (fun label => negb (bool_decide (label ∈ oldLabels before))) (elements (labelSet (n_Labels after))) +
  countOf (fun label => negb (bool_decide (label ∈ labelSet (n_Labels after)))) (elements (oldLabels before)).

Lemma countLabelChanges_of before after : countLabelChanges before after = u64 (labelCount before after).
Proof. unfold countLabelChanges, labelCount. by rewrite !countIf_of, u64_add_l, u64_add_r. Qed.

Lemma labelEvents kind id skip set tx :
  appends tx (foldl (labelEvent kind id skip) tx (sortedStringSet set))
    (countOf (fun label => negb (bool_decide (label ∈ skip))) (elements set)).
Proof.
  eapply appends_eq; [apply (appends_count _ (fun label => negb (bool_decide (label ∈ skip))))|].
  - intros tx' label. unfold labelEvent. destruct (bool_decide _); [apply appends_none|apply appends_one].
  - apply countOf_perm. unfold sortedStringSet, sortKeys. apply (merge_sort_Permutation strLeR).
Qed.

Lemma appendLabelChanges_appends tx id before after : appends tx (appendLabelChanges tx id before after) (labelCount before after).
Proof. unfold appendLabelChanges, labelCount. eapply appends_trans; apply labelEvents. Qed.

(** ** Properties *)

Definition propertyCount before after (keys : option (list gostring)) : N :=
  match keys with
  | Some keys => countOf (propertyChanged before after) keys
  | None =>
      countOf (fun kv => match Lookup before kv.1, Lookup after kv.1 with
                         | Some x, Some y => negb (deepEqual x y)
                         | _, _ => true
                         end) (PAll before) +
      countOf (fun kv => match Lookup before kv.1 with Some _ => false | None => true end) (PAll after)
  end.

Lemma countPropertyChanges_of before after keys : countPropertyChanges before after keys = u64 (propertyCount before after keys).
Proof. destruct keys; cbn [countPropertyChanges propertyCount]; rewrite !countIf_of, ?u64_add_l, ?u64_add_r; done. Qed.

Lemma propertyEvents maxBytes e id before after keys tx :
  appends tx (foldl (propertyEventFor maxBytes e id before after) tx keys) (countOf (propertyChanged before after) keys).
Proof.
  apply (appends_count _ (propertyChanged before after)). intros tx' key. unfold propertyEventFor, propertyChanged.
  destruct (Lookup before key), (Lookup after key); [destruct (deepEqual _ _)|..]; first [apply appends_none|apply appends_one].
Qed.

Definition sortedProps (p : Properties) : Prop := keysSorted (entries p).

Lemma Lookup_all p key : sortedProps p -> (is_Some (Lookup p key) <-> key ∈ (PAll p).*1) .
Proof.
  intros Hs. rewrite (Lookup_entries p key Hs), PAll_keys. split.
  - intros [v Hv]. destruct (mapLookup key (entries p)) as [x|] eqn:E; [|done]. apply mapLookup_elem in E.
    apply list_elem_of_fmap. by exists (key, x).
  - intros ([k x] & -> & Hx)%list_elem_of_fmap. rewrite (elem_mapLookup k x); [by eauto| |done]. by apply keysSorted_nodup.
Qed.

(** Without tracked keys: the keys of either side, each once. *)
Lemma union_count before after : sortedProps before -> sortedProps after ->
  countOf (propertyChanged before after) (compactKeys (sortKeys ((PAll before).*1 ++ (PAll after).*1))) = propertyCount before after None.
Proof.
  intros Hb Ha. destruct (sortKeys_compact ((PAll before).*1 ++ (PAll after).*1)) as [Hnd Hel].
  assert (Hnb : NoDup (PAll before).*1) by (rewrite PAll_keys; by apply keysSorted_nodup).
  assert (Hna : NoDup (PAll after).*1) by (rewrite PAll_keys; by apply keysSorted_nodup).
  rewrite (countOf_perm _ _ ((PAll before).*1 ++ base.filter (fun k => k ∉ (PAll before).*1) (PAll after).*1)).
  2:{ apply NoDup_Permutation; [done| |].
      - apply NoDup_app. split_and!; [done| |by apply NoDup_filter]. intros k Hk [? _]%list_elem_of_filter. done.
      - intros k. rewrite Hel, !elem_of_app, list_elem_of_filter. destruct (decide (k ∈ (PAll before).*1)); tauto. }
  rewrite countOf_app, countOf_filter. cbn [propertyCount]. f_equal; rewrite countOf_keys; apply countOf_ext; intros [k v] Hkv; cbn [fst].
  - assert (Hk : is_Some (Lookup before k)) by (apply Lookup_all; [done|]; apply list_elem_of_fmap; by exists (k, v)).
    unfold propertyChanged. destruct Hk as [x ->]. by destruct (Lookup after k).
  - assert (Hk : is_Some (Lookup after k)) by (apply Lookup_all; [done|]; apply list_elem_of_fmap; by exists (k, v)).
    unfold propertyChanged. destruct Hk as [y ->]. destruct (Lookup before k) as [x|] eqn:Ex.
    + rewrite bool_decide_false; [done|]. intros Hn. apply Hn. apply Lookup_all; [done|]. by eauto.
    + rewrite bool_decide_true; [done|]. intros Hn. apply Lookup_all in Hn as [? Hn]; [|done]. congruence.
Qed.

Lemma appendPropertyChanges_appends ch maxBytes tx e id before after : sortedProps before -> sortedProps after ->
  appends tx (appendPropertyChanges ch maxBytes tx e id before after) (propertyCount before after (trackedPropertyKeys ch e id)).
Proof.
  intros Hb Ha. unfold appendPropertyChanges. eapply appends_eq; [apply propertyEvents|]. unfold changedKeys.
  destruct (trackedPropertyKeys ch e id) as [keys|]; [|by apply union_count].
  cbn [propertyCount]. apply countOf_perm. apply (merge_sort_Permutation strLeR).
Qed.

(** ** Nodes, edges and the whole transaction *)

Definition sortedNode (n : option NodeRecord) : Prop := match n with None => True | Some n => sortedProps (n_Properties n) end.
Definition sortedEdge (e : option EdgeRecord) : Prop := match e with None => True | Some e => sortedProps (e_Properties e) end.

Definition nodeCount ch (before after : option NodeRecord) : N :=
  match after with
  | None => 0
  | Some n =>
      (match before with None => 1 | Some _ => 0 end) + labelCount before n +
      propertyCount (beforeProperties before) (n_Properties n) (trackedPropertyKeys ch entityNode (n_ID n))
  end.

Definition edgeCount ch (before after : option EdgeRecord) : N :=
  match after with
  | None => 0
  | Some e =>
      (match before with None => 1 | Some _ => 0 end) +
      propertyCount (beforePropertiesEdge before) (e_Properties e) (trackedPropertyKeys ch entityEdge (e_ID e))
  end.

Lemma countNodeChanges_of ch before after : countNodeChanges ch before after = u64 (nodeCount ch before after).
Proof.
  destruct after as [n|]; [|done]. cbn [countNodeChanges nodeCount].
  by rewrite countLabelChanges_of, countPropertyChanges_of, !u64_add_r, u64_add_l.
Qed.

Lemma countEdgeChanges_of ch before after : countEdgeChanges ch before after = u64 (edgeCount ch before after).
Proof. destruct after as [e|]; [|done]. cbn [countEdgeChanges edgeCount]. by rewrite countPropertyChanges_of, u64_add_r. Qed.

Lemma sorted_empty : sortedProps (mkProperties []).
Proof. constructor. Qed.

Lemma appendNodeChanges_appends ch maxBytes tx before after : sortedNode before -> sortedNode after ->
  appends tx (appendNodeChanges ch maxBytes tx before after) (nodeCount ch before after).
Proof.
  intros Hb Ha. destruct after as [n|]; [|apply appends_none]. cbn [appendNodeChanges nodeCount].
  eapply appends_trans; [eapply appends_trans; [|apply appendLabelChanges_appends]|apply appendPropertyChanges_appends; [|done]].
  - destruct before; [apply appends_none|apply appends_one].
  - destruct before; [done|apply sorted_empty].
Qed.

Lemma appendEdgeChanges_appends ch maxBytes tx before after : sortedEdge before -> sortedEdge after ->
  appends tx (appendEdgeChanges ch maxBytes tx before after) (edgeCount ch before after).
Proof.
  intros Hb Ha. destruct after as [e|]; [|apply appends_none]. cbn [appendEdgeChanges edgeCount].
  eapply appends_trans; [|apply appendPropertyChanges_appends; [|done]].
  - destruct before; [apply appends_none|apply appends_one].
  - destruct before; [done|apply sorted_empty].
Qed.

Section whole.
Context (ch : txChanges) (base graph : graphView) (maxBytes : N).

(** Every property list in either graph is in key order. *)
Definition sortedView (v : graphView) : Prop :=
  (forall id, sortedNode (v_Nodes v !! id)) /\ (forall id, sortedEdge (v_Edges v !! id)).
Hypothesis Hbase : sortedView base.
Hypothesis Hgraph : sortedView graph.

Definition eventCount : N :=
  countOf (fun id => bool_decide (is_Some (v_Edges base !! id))) (mapKeys (deleteEdges ch)) + nlen (mapKeys (deleteNodes ch)) +
  nsum (map (fun id => nodeCount ch (v_Nodes base !! id) (v_Nodes graph !! id)) (mapKeys (upsertNodes ch))) +
  nsum (map (fun id => edgeCount ch (v_Edges base !! id) (v_Edges graph !! id)) (mapKeys (upsertEdges ch))).

Lemma countChangefeedEvents_of : countChangefeedEvents ch base graph = u64 eventCount.
Proof.
  unfold countChangefeedEvents, eventCount. rewrite countIf_of, u64_add_l.
  rewrite (sumOver_of _ (fun id => nodeCount ch (v_Nodes base !! id) (v_Nodes graph !! id))) by (intros; apply countNodeChanges_of).
  rewrite (sumOver_of _ (fun id => edgeCount ch (v_Edges base !! id) (v_Edges graph !! id))) by (intros; apply countEdgeChanges_of).
  done.
Qed.

Lemma appendDeletedEdges_appends ids : forall tx tx', appendDeletedEdges base tx ids = (None, tx') ->
  appends tx tx' (countOf (fun id => bool_decide (is_Some (v_Edges base !! id))) ids).
Proof.
  unfold countOf, nsum. induction ids as [|id ids IH]; intros tx tx'; cbn [appendDeletedEdges map foldr].
  - intros [= <-]. apply appends_none.
  - destruct (v_Edges base !! id) as [e|].
    + destruct (validateEndpoints e); [done|]. intros H%IH. rewrite bool_decide_true by eauto.
      eapply appends_trans; [apply appends_one|exact H].
    + intros H%IH. rewrite bool_decide_false by (by intros []). exact H.
Qed.

Lemma appendEvents_appends tx tx' : appendEvents ch base graph maxBytes tx = (None, tx') -> appends tx tx' eventCount.
Proof.
  unfold appendEvents, eventCount. destruct (appendDeletedEdges base tx (mapKeys (deleteEdges ch))) as [[err|] tx1] eqn:E1; [done|].
  intros [= <-]. apply appendDeletedEdges_appends in E1. destruct Hbase as [Hbn Hbe], Hgraph as [Hgn Hge].
  eapply appends_trans; cycle 1.
  { apply (appends_fold _ (fun id => edgeCount ch (v_Edges base !! id) (v_Edges graph !! id))). intros. by apply appendEdgeChanges_appends. }
  eapply appends_trans; cycle 1.
  { apply (appends_fold _ (fun id => nodeCount ch (v_Nodes base !! id) (v_Nodes graph !! id))). intros. by apply appendNodeChanges_appends. }
  eapply appends_trans; [exact E1|]. eapply appends_eq; [apply (appends_fold _ (fun _ => 1)); intros; apply appends_one|].
  generalize (mapKeys (deleteNodes ch)) as l. unfold nsum, nlen. induction l as [|x l IH]; [done|]. cbn [map foldr length]. lia.
Qed.
End whole.

(** ** Sequences *)

Lemma NextSequence_pos s name : 1 <= NextSequence s name.
Proof. unfold NextSequence. destruct (N.eqb_spec (getNext s name) 0); cbn; lia. Qed.

Lemma Publish_next s name kind payload : NextSequence s name + 1 < 2 ^ 64 ->
  (Publish s name kind payload).1 = NextSequence s name /\
  NextSequence (Publish s name kind payload).2 name = NextSequence s name + 1.
Proof.
  intros Hlt. pose proof (NextSequence_pos s name).
  assert (E : (if getNext s name =? 0 then 1 else getNext s name) = NextSequence s name)
    by (unfold NextSequence; by destruct (getNext s name =? 0)).
  unfold Publish. rewrite E. cbn [fst snd]. split; [done|].
  assert (Eg : forall x, getNext (if getNext s name =? 0
      then addStreamSizes x name else x) name = getNext x name) by (intros x; by destruct (getNext s name =? 0)).
  unfold NextSequence at 1. match goal with |- context [getNext (setLog ?x name ?l) name] =>
    change (getNext (setLog x name l) name) with (getNext x name) end. rewrite Eg.
  match goal with |- context [getNext (addSizes ?x ?a ?b) name] => change (getNext (addSizes x a b) name) with (getNext x name) end.
  assert (Es : getNext (setNext s name (u64 (NextSequence s name + 1))) name = NextSequence s name + 1).
  { unfold getNext, setNext. cbn [next]. rewrite lookup_insert_eq. cbn. unfold u64. by apply N.mod_small. }
  rewrite Es. by rewrite (proj2 (N.eqb_neq (NextSequence s name + 1) 0)) by lia.
Qed.

Lemma publishAll_operations events : forall tx, nlen (streamOperations (publishAll tx events)) = nlen (streamOperations tx) + nlen events.
Proof.
  unfold publishAll. induction events as [|[kind payload] events IH]; intros tx; cbn [foldl]; [unfold nlen; cbn; lia|].
  rewrite IH. unfold appendChange, publishRecorded. destruct (Publish _ _ _ _). cbn. rewrite nlen_app. unfold nlen. cbn [length]. lia.
Qed.

(** The records of a run have consecutive sequences and are recorded as such. *)
Lemma publishAll_sequences events : forall tx, NextSequence (tx_Streams tx) changeStreamName + nlen events < 2 ^ 64 ->
  NextSequence (tx_Streams (publishAll tx events)) changeStreamName = NextSequence (tx_Streams tx) changeStreamName + nlen events /\
  exists ops, streamOperations (publishAll tx events) = streamOperations tx ++ ops /\ nlen ops = nlen events /\
    forall i op, ops !! i = Some op -> so_Type op = publishOp /\ so_Stream op = changeStreamName /\
      so_Sequence op = NextSequence (tx_Streams tx) changeStreamName + N.of_nat i.
Proof.
  induction events as [|[kind payload] events IH]; intros tx Hlt.
  - split; [unfold nlen; cbn; lia|]. exists []. split_and!; [by rewrite app_nil_r|done|]. intros i op. by rewrite lookup_nil.
  - assert (Hn : nlen ((kind, payload) :: events) = 1 + nlen events) by (unfold nlen; cbn [length]; lia). rewrite Hn in Hlt |- *.
    destruct (Publish_next (tx_Streams tx) changeStreamName kind payload ltac:(lia)) as [Es En].
    cbn [publishAll foldl fst snd]. fold (publishAll (appendChange tx kind payload) events).
    assert (Et : tx_Streams (appendChange tx kind payload) = (Publish (tx_Streams tx) changeStreamName kind payload).2)
      by (unfold appendChange, publishRecorded; by destruct (Publish _ _ _ _)).
    destruct (IH (appendChange tx kind payload)) as (I1 & ops & I2 & I3 & I4); [rewrite Et, En; lia|].
    rewrite Et, En in I1, I4. split; [rewrite I1; lia|].
    exists (mkStreamOperation publishOp changeStreamName [] (NextSequence (tx_Streams tx) changeStreamName) kind payload :: ops).
    split_and!.
    + rewrite I2. unfold appendChange, publishRecorded. rewrite <- Es. destruct (Publish _ _ _ _). cbn. by rewrite <- app_assoc.
    + unfold nlen in *. cbn [length]. lia.
    + intros [|i] op Hop.
      * injection Hop as <-. cbn. split_and!; [done|done|lia].
      * change (ops !! i = Some op) in Hop. destruct (I4 i op Hop) as (? & ? & ->). split_and!; [done|done|lia].
Qed.
