(* ===== verification/StreamTxSpec.v ===== *)
(** * Transactions keep the stream store valid, replayable and storable *)
From S2P Require Import Prelude.
From S2P Require Import GoBytes.
From S2P Require Import BinaryCodec.
From S2P Require Import BinaryCodecSpec.
From S2P Require Import BinaryValue.
From S2P Require Import BinaryValueSpec.
From S2P Require Import BinaryRecords.
From S2P Require Import GoMaps.
From S2P Require Import Values.
From S2P Require Import ValuesSpec.
From S2P Require Import Streams.
From S2P Require Import StreamsSpec.
From S2P Require Import StreamLogs.
From S2P Require Import StreamStoreSpec.
From S2P Require Import StreamPersist.
From S2P Require Import StreamPersistSpec.
From S2P Require Import StreamTx.

Implicit Types (rs vis : list StreamRecord) (name consumer kind : gostring).

(** ** Payloads *)

Lemma map_mapOf {A} (f : A -> A) (l : list (gostring * A)) : Forall (fun kv => f kv.2 = kv.2) l ->
  map (fun kv => (kv.1, f kv.2)) (mapOf l []) = mapOf l [].
Proof.
  intros H. change (map (fun kv => (kv.1, f kv.2)) (mapOf l [])) with (prod_map id f <$> mapOf l []).
  rewrite <- (mapOf_fmap f l []). f_equal. rewrite <- (map_id l) at 2. apply map_ext_Forall.
  eapply Forall_impl; [exact H|]. intros [k v] E. cbn in *. unfold prod_map. cbn. by rewrite E.
Qed.

Lemma CloneValue_norm v : CloneValue (normV v) = normV v.
Proof.
  induction v as [| | | | | | |b|l|l Hl|m Hm|l Hl|m Hm| |] using value_nested_ind; try done; cbn [normV CloneValue];
    rewrite ?appendNil_idem, ?optMap_elems, ?map_map; try done.
  - do 2 f_equal. by apply map_ext_Forall.
  - do 2 f_equal. apply map_mapOf. by apply Forall_map_onEntry.
  - do 2 f_equal. by apply map_ext_Forall.
  - do 2 f_equal. apply map_mapOf. by apply Forall_map_onEntry.
Qed.

Lemma normal_storable name v : normalAt 0 v -> elementsV v <= maxValueElements -> bytesV v <= maxValueBytes -> storable name v.
Proof.
  intros Hn He Hb. split; [destruct Hn as [_ _ _ E]; by rewrite <- E, CloneValue_norm|]. split; [by apply (persist_normal 0 v Hn)|by apply decodeStreamValue_normal].
Qed.

Lemma NormalizeValue_normal v r : wfV v -> NormalizeValue v = inl r -> normalAt 0 r /\ elementsV r <= maxValueElements /\ bytesV r <= maxValueBytes.
Proof.
  intros Hw E. pose proof (NormalizeValue_spec v) as H. destruct (okV 0 v && _ && _) eqn:Hc; [|destruct H; congruence].
  rewrite H in E. injection E as <-. apply andb_true_iff in Hc as [[Ho He]%andb_true_iff Hb].
  split; [by apply norm_normal|]. rewrite elementsV_norm, bytesV_norm by done. by rewrite <- !N.leb_le.
Qed.
Lemma NormalizeValue_storable name v r : wfV v -> NormalizeValue v = inl r -> storable name r.
Proof. intros Hw E. destruct (NormalizeValue_normal v r Hw E) as (? & ? & ?). by apply normal_storable. Qed.

(** ** The invariant of a transaction *)

Inductive txOp :=
  | TxPublish (stream kind : gostring) (payload : value)
  | TxOffset (stream consumer : gostring) (sequence : N)
  | TxTrim (stream : gostring) (beforeSequence : N).

Definition wfTxOp (op : txOp) : Prop := match op with TxPublish _ _ payload => wfV payload | _ => True end.

(** One call; a call that fails leaves the transaction as it is. *)
Definition txStep (tx : Tx) (op : txOp) : Tx :=
  match op with
  | TxPublish stream kind payload => (PublishStream tx stream kind payload).2
  | TxOffset stream consumer sequence => (SetStreamOffset tx stream consumer sequence).2
  | TxTrim stream beforeSequence => (TrimStream tx stream beforeSequence).2
  end.
Definition txRun (tx : Tx) (ops : list txOp) : Tx := foldl txStep tx ops.

Definition bounded (a : absStore) : Prop := forall name, anext a name < 2 ^ 64.

(** The store is in order and what it recorded replays to it. *)
Record txOK (s0 : StreamStore) (tx : Tx) (a : absStore) : Prop := mkTxOK {
  tk_store : storeOK (tx_Streams tx) a;
  tk_storable : storableStore a;
  tk_replay : exists ps, BuildPersistedStreamOperations (streamOperations tx) = inl ps /\
                ApplyPersistedStreamOperations s0 ps = inl (tx_Streams tx) }.

Lemma sumEach_snoc {A B} (f : A -> B + error) l ys x y : sumEach f l = inl ys -> f x = inl y -> sumEach f (l ++ [x]) = inl (ys ++ [y]).
Proof.
  revert ys. induction l as [|z l IH]; intros ys; [intros [= <-] Hx; cbn; by rewrite Hx|].
  change (match f z with inr err => inr err | inl w => match sumEach f l with inr err => inr err | inl ws => inl (w :: ws) end end = inl ys ->
    f x = inl y -> match f z with inr err => inr err | inl w => match sumEach f (l ++ [x]) with inr err => inr err | inl ws => inl (w :: ws) end end = inl (ys ++ [y])).
  destruct (f z); [|done]. destruct (sumEach f l) as [zs|]; [|done]. intros [= <-] Hx. by rewrite (IH zs eq_refl Hx).
Qed.

Lemma Apply_snoc ps : forall s s' op s'', ApplyPersistedStreamOperations s ps = inl s' -> applyOperation s' op = inl s'' ->
  ApplyPersistedStreamOperations s (ps ++ [op]) = inl s''.
Proof.
  induction ps as [|p ps IH]; intros s s' op s''; cbn.
  - intros [= <-] ->. done.
  - destruct (applyOperation s p) as [s1|]; [|done]. apply IH.
Qed.

(** A recorded operation that is written and replayed as it happened. *)
Lemma tx_record s0 tx s' op p :
  (exists ps, BuildPersistedStreamOperations (streamOperations tx) = inl ps /\ ApplyPersistedStreamOperations s0 ps = inl (tx_Streams tx)) ->
  buildOperation op = inl p -> applyOperation (tx_Streams tx) p = inl s' ->
  exists ps, BuildPersistedStreamOperations (streamOperations tx ++ [op]) = inl ps /\ ApplyPersistedStreamOperations s0 ps = inl s'.
Proof.
  intros (ps & Hb & Ha) Hop Happ. exists (ps ++ [p]). split; [by apply sumEach_snoc|by eapply Apply_snoc].
Qed.

Lemma storable_next a name n a' :
  storableStore a -> ValidateStreamName name true = None -> n < 2 ^ 64 ->
  a_next a' = <[name := n]> (a_next a) -> (forall k, Forall (storableRecord k) (avis a' k)) ->
  (forall k m consumer o, a_offsets a' !! k = Some m -> m !! consumer = Some o -> ValidateStreamName consumer true = None) ->
  storableStore a'.
Proof.
  intros [Hn Hr Hc] Hv Hlt En Hr' Hc'. split; [|done|done]. intros k x. rewrite En.
  destruct (decide (k = name)) as [->|Hne]; [rewrite lookup_insert_eq; by intros [= <-]|]. rewrite lookup_insert_ne by done. apply Hn.
Qed.

Lemma anext_bounded a name : storableStore a -> anext a name < 2 ^ 64.
Proof. intros H. unfold anext. destruct (a_next a !! name) as [n|] eqn:E; cbn; [by apply (st_names a H name n)|lia]. Qed.

Lemma NextSequence_abs s a name : storeOK s a -> NextSequence s name = anext a name.
Proof.
  intros H. destruct (getNext_spec s a name H) as [Hg Hz]. unfold NextSequence, anext. destruct (getNext s name =? 0) eqn:E; cbn.
  - by rewrite (proj1 Hz eq_refl).
  - rewrite Hg. destruct (a_next a !! name); [done|]. discriminate (proj2 Hz eq_refl).
Qed.

Lemma ValidateStreamName_reserved name : ValidateStreamName name false = None -> ValidateStreamName name true = None.
Proof. unfold ValidateStreamName. destruct (_ || _); [done|]. by destruct (negb _ && _). Qed.

Lemma validName_inv name allow : validateStreamName name allow = None -> ValidateStreamName name allow = None.
Proof. unfold validateStreamName. by destruct (ValidateStreamName name allow). Qed.
Lemma validKind_inv kind : validateStreamKind kind = None -> ValidateStreamKind kind = None.
Proof. unfold validateStreamKind. by destruct (ValidateStreamKind kind). Qed.

Lemma storable_publish a name kind payload :
  storableStore a -> ValidateStreamName name true = None -> ValidateStreamKind kind = None -> storable name payload -> anext a name + 1 < 2 ^ 64 ->
  storableStore (aPublish a name kind payload).
Proof.
  intros Hst Hn Hk Hp Hlt. apply (storable_next a name (anext a name + 1)); try done; [|apply (st_consumers a Hst)].
  intros k. unfold aPublish. rewrite avis_insert. case_decide as Hd; [|apply (st_records a Hst k)]. subst k.
  apply Forall_app. split; [apply (st_records a Hst name)|]. apply Forall_singleton. split; [done|]. cbn. by rewrite (proj1 Hp).
Qed.

Lemma publish_ok s0 tx a name kind payload : txOK s0 tx a ->
  ValidateStreamName name true = None -> ValidateStreamKind kind = None -> storable name payload -> anext a name <> max_uint64 ->
  txOK s0 (publishRecorded tx name kind payload).2 (aPublish a name kind payload).
Proof.
  intros [Hs Hst Hre] Hn Hk Hp Hmax. pose proof (anext_bounded a name Hst) as Hb.
  assert (Hlt : anext a name + 1 < 2 ^ 64) by (unfold max_uint64 in Hmax; lia).
  pose proof (Publish_ok (tx_Streams tx) a name kind payload Hs Hlt) as [Eseq Hok]. pose proof (NextSequence_abs _ a name Hs) as Enx.
  assert (H1 : 1 <= anext a name).
  { unfold anext. destruct (a_next a !! name) eqn:E; cbn; [by apply (so_pos _ a Hs name)|lia]. }
  unfold publishRecorded. destruct (Publish (tx_Streams tx) name kind payload) as [sequence s'] eqn:Ep. cbn [fst snd] in *. subst sequence.
  split; cbn [tx_Streams streamOperations recordStreamOperation withStreams]; [done|by apply storable_publish|].
  eapply (tx_record s0 tx s' _ (mkPSOp publishOp name [] (anext a name) kind (toP payload)) Hre).
  - unfold buildOperation. cbn [so_Type so_Stream so_Sequence so_Kind so_Payload so_Consumer]. rewrite Hn, bool_decide_true by done.
    rewrite (proj2 (N.eqb_neq _ 0)) by lia. destruct Hp as (_ & P1 & _). by rewrite Hk, P1.
  - unfold applyOperation. cbn [op_Type op_Stream op_Sequence op_Kind op_Payload]. rewrite Hn, bool_decide_true by done.
    rewrite Enx, N.eqb_refl, (proj2 (N.eqb_neq _ 0)) by lia. cbn [negb orb]. rewrite Hk. destruct Hp as (_ & _ & P2).
    rewrite P2. by rewrite Ep.
Qed.

(** What a call does to the contents, and what it records, when the transaction may
    write. *)
Definition aStep (a : absStore) (op : txOp) : absStore * list StreamOperation :=
  match op with
  | TxPublish stream kind payload =>
      match validateStreamName stream false, validateStreamKind kind, NormalizeValue payload with
      | None, None, inl r =>
          if anext a stream =? max_uint64 then (a, [])
          else (aPublish a stream kind r, [mkStreamOperation publishOp stream [] (anext a stream) kind r])
      | _, _, _ => (a, [])
      end
  | TxOffset stream consumer sequence =>
      match validateStreamName stream true, validateConsumer consumer with
      | None, None => (aSetOffset a stream consumer sequence, [mkStreamOperation offsetOp stream consumer sequence [] VNil])
      | _, _ => (a, [])
      end
  | TxTrim stream beforeSequence =>
      match validateStreamName stream true with
      | None => (aTrim a stream beforeSequence, [mkStreamOperation trimOp stream [] beforeSequence [] VNil])
      | _ => (a, [])
      end
  end.

(** A step that [aStep] describes. *)
Definition stepsTo (s0 : StreamStore) (tx tx' : Tx) (r : absStore * list StreamOperation) : Prop :=
  txOK s0 tx' r.1 /\ streamOperations tx' = streamOperations tx ++ r.2 /\ ensureWritable tx' = ensureWritable tx.

Lemma stepsTo_refl s0 tx a : txOK s0 tx a -> stepsTo s0 tx tx (a, []).
Proof. intros H. split; [done|]. by rewrite app_nil_r. Qed.

Lemma PublishStream_ok s0 tx a name kind payload : txOK s0 tx a -> ensureWritable tx = None -> wfV payload ->
  stepsTo s0 tx (PublishStream tx name kind payload).2 (aStep a (TxPublish name kind payload)).
Proof.
  intros H Hwr Hw. pose proof (stepsTo_refl s0 tx a H) as Hr. unfold PublishStream, PublishStreamGetSequence, aStep. rewrite Hwr.
  destruct (validateStreamName name false) eqn:En; [done|]. destruct (validateStreamKind kind) eqn:Ek; [done|].
  destruct (NormalizeValue payload) as [r|] eqn:Er; [|done]. rewrite (NextSequence_abs _ a name (tk_store _ _ _ H)).
  destruct (N.eqb_spec (anext a name) max_uint64) as [|Hne]; [done|].
  apply validName_inv, ValidateStreamName_reserved in En. apply validKind_inv in Ek.
  pose proof (publish_ok s0 tx a name kind r H En Ek (NormalizeValue_storable name _ _ Hw Er) Hne) as Hp.
  pose proof (anext_bounded a name (tk_storable _ _ _ H)) as Hb. assert (Hlt : anext a name + 1 < 2 ^ 64) by (unfold max_uint64 in Hne; lia).
  destruct (Publish_ok (tx_Streams tx) a name kind r (tk_store _ _ _ H) Hlt) as [Eseq _].
  unfold publishRecorded in Hp |- *. destruct (Publish (tx_Streams tx) name kind r) as [sequence s']. cbn [fst snd] in *. subst sequence. by split.
Qed.

Lemma SetStreamOffset_ok s0 tx a name consumer sequence : txOK s0 tx a -> ensureWritable tx = None ->
  stepsTo s0 tx (SetStreamOffset tx name consumer sequence).2 (aStep a (TxOffset name consumer sequence)).
Proof.
  intros H Hwr. pose proof (stepsTo_refl s0 tx a H) as Hr. unfold SetStreamOffset, aStep. rewrite Hwr.
  destruct (validateStreamName name true) eqn:En; [done|]. unfold validateConsumer.
  destruct (validateStreamName consumer true) eqn:Ec; [done|]. apply validName_inv in En, Ec. destruct H as [Hs Hst Hre].
  split; [|done]. cbn [fst snd]. split; cbn [tx_Streams streamOperations recordStreamOperation withStreams].
  - by apply SetOffset_ok.
  - apply (storable_next a name (anext a name)); try done; [by apply anext_bounded|apply (st_records a Hst)|].
    intros k m c o. cbn [aSetOffset a_offsets]. destruct (decide (k = name)) as [->|Hne].
    + rewrite lookup_insert_eq. intros [= <-]. destruct (decide (c = consumer)) as [->|Hc]; [done|]. rewrite lookup_insert_ne by done.
      destruct (a_offsets a !! name) as [m|] eqn:Em; cbn; [|done]. intros Ho. by apply (st_consumers a Hst name m c o).
    + rewrite lookup_insert_ne by done. apply (st_consumers a Hst).
  - eapply (tx_record s0 tx _ _ (mkPSOp offsetOp name consumer sequence [] PVEmpty) Hre).
    + unfold buildOperation. cbn. by rewrite En, Ec.
    + unfold applyOperation. cbn. by rewrite En, Ec.
Qed.

Lemma TrimStream_ok s0 tx a name through : txOK s0 tx a -> ensureWritable tx = None ->
  stepsTo s0 tx (TrimStream tx name through).2 (aStep a (TxTrim name through)).
Proof.
  intros H Hwr. pose proof (stepsTo_refl s0 tx a H) as Hr. unfold TrimStream, aStep. rewrite Hwr.
  destruct (validateStreamName name true) eqn:En; [done|]. apply validName_inv in En. destruct H as [Hs Hst Hre].
  split; [|done]. cbn [fst snd]. split; cbn [tx_Streams streamOperations recordStreamOperation withStreams].
  - by apply Trim_ok.
  - apply (storable_next a name (anext a name)); try done; [by apply anext_bounded| |apply (st_consumers a Hst)].
    intros k. unfold aTrim, aKeep. rewrite avis_insert. case_decide as Hd; [|apply (st_records a Hst k)]. subst k.
    apply Forall_forall. intros r [_ Hr']%list_elem_of_filter. revert r Hr'. apply Forall_forall, (st_records a Hst name).
  - eapply (tx_record s0 tx _ _ (mkPSOp trimOp name [] through [] PVEmpty) Hre).
    + unfold buildOperation. cbn. by rewrite En.
    + unfold applyOperation. cbn. by rewrite En.
Qed.

Lemma txStep_ok s0 tx a op : txOK s0 tx a -> ensureWritable tx = None -> wfTxOp op -> stepsTo s0 tx (txStep tx op) (aStep a op).
Proof. intros H Hwr Hop. destruct op; [by apply PublishStream_ok|by apply SetStreamOffset_ok|by apply TrimStream_ok]. Qed.

Definition aRun (a : absStore) (ops : list txOp) : absStore * list StreamOperation :=
  foldl (fun r op => let '(a', new) := aStep r.1 op in (a', r.2 ++ new)) (a, []) ops.

Lemma aRun_app ops : forall a old, foldl (fun r op => let '(a', new) := aStep r.1 op in (a', r.2 ++ new)) (a, old) ops = ((aRun a ops).1, old ++ (aRun a ops).2).
Proof.
  induction ops as [|op ops IH]; intros a old; [cbn; by rewrite app_nil_r|]. unfold aRun. cbn [foldl fst snd]. destruct (aStep a op) as [a' new].
  rewrite IH, (IH a' ([] ++ new)). cbn [fst snd app]. by rewrite app_assoc.
Qed.

Lemma txRun_steps s0 ops : forall tx a, txOK s0 tx a -> ensureWritable tx = None -> Forall wfTxOp ops -> stepsTo s0 tx (txRun tx ops) (aRun a ops).
Proof.
  induction ops as [|op ops IH]; intros tx a H Hwr Hw; [by apply stepsTo_refl|]. apply Forall_cons in Hw as [Hop Hw].
  destruct (txStep_ok s0 tx a op H Hwr Hop) as (H1 & E1 & W1). destruct (IH (txStep tx op) (aStep a op).1 H1) as (H2 & E2 & W2); [congruence|done|].
  change (txRun tx (op :: ops)) with (txRun (txStep tx op) ops).
  unfold aRun. cbn [foldl fst snd]. destruct (aStep a op) as [a' new]. rewrite aRun_app. cbn [fst snd] in *. split; [done|]. split; [|congruence].
  cbn [snd]. by rewrite E2, E1, app_assoc.
Qed.

Lemma txRun_ok s0 ops tx a : txOK s0 tx a -> Forall wfTxOp ops -> exists a', txOK s0 (txRun tx ops) a'.
Proof.
  intros H Hw. destruct (ensureWritable tx) as [err|] eqn:Ew; [|exists (aRun a ops).1; by apply txRun_steps].
  exists a. replace (txRun tx ops) with tx; [done|]. clear Hw. induction ops as [|op ops IH]; [done|]. cbn [txRun foldl].
  replace (txStep tx op) with tx; [exact IH|]. destruct op; cbn [txStep]; unfold PublishStream, PublishStreamGetSequence, SetStreamOffset, TrimStream; by rewrite Ew.
Qed.

(** ** Starting points *)

Definition beginTx (s : StreamStore) : Tx := mkTx false false false s false [].

Lemma empty_ok : storeOK NewStreamStore absEmpty.
Proof. split; try done. intros name. left. done. Qed.

Lemma empty_storable : storableStore absEmpty.
Proof. by split. Qed.

Lemma begin_ok s a : storeOK s a -> storableStore a -> txOK s (beginTx s) a.
Proof. intros Hs Hst. split; [done|done|]. by exists []. Qed.

(** What a transaction records on the streams it started from: its own calls, and at
    commit records of the change stream. *)
Inductive records s0 : Tx -> Prop :=
  | records_begin : records s0 (beginTx s0)
  | records_call tx op : records s0 tx -> wfTxOp op -> records s0 (txStep tx op)
  | records_change tx kind payload : records s0 tx -> ValidateStreamKind kind = None -> storable changeStreamName payload ->
      NextSequence (tx_Streams tx) changeStreamName <> max_uint64 -> records s0 (appendChange tx kind payload).

Lemma records_run s0 ops : forall tx, records s0 tx -> Forall wfTxOp ops -> records s0 (txRun tx ops).
Proof. induction ops as [|op ops IH]; intros tx Hr Hw; [done|]. apply Forall_cons in Hw as [Hop Hw]. apply (IH (txStep tx op)); [by apply records_call|done]. Qed.

Lemma records_writable s0 tx : records s0 tx -> ensureWritable tx = None.
Proof.
  induction 1 as [|tx op _ IH _|tx kind payload _ IH _ _ _]; [done| |].
  - destruct op; cbn [txStep]; unfold PublishStream, PublishStreamGetSequence, SetStreamOffset, TrimStream, publishRecorded; rewrite IH; repeat (case_match; try done); simplify_eq; try done.
  - unfold appendChange, publishRecorded. by destruct (Publish _ _ _ _).
Qed.

Lemma change_steps s0 tx a kind payload : txOK s0 tx a -> ValidateStreamKind kind = None -> storable changeStreamName payload -> anext a changeStreamName <> max_uint64 ->
  stepsTo s0 tx (appendChange tx kind payload) (aPublish a changeStreamName kind payload, [mkStreamOperation publishOp changeStreamName [] (anext a changeStreamName) kind payload]).
Proof.
  intros H Hk Hp Hne. pose proof (publish_ok s0 tx a changeStreamName kind payload H eq_refl Hk Hp Hne) as Hok. split; [exact Hok|].
  pose proof (anext_bounded a changeStreamName (tk_storable _ _ _ H)) as Hb. assert (Hlt : anext a changeStreamName + 1 < 2 ^ 64) by (unfold max_uint64 in Hne; lia).
  destruct (Publish_ok (tx_Streams tx) a changeStreamName kind payload (tk_store _ _ _ H) Hlt) as [Eseq _].
  unfold appendChange, publishRecorded. destruct (Publish _ _ _ _) as [sequence s']. cbn [fst snd] in *. by subst sequence.
Qed.

(** The trim at the end of a commit is a call like any other. *)
Lemma trimChangefeed_call tx maxBytes : ensureWritable tx = None -> trimChangefeed tx maxBytes = tx \/ exists through, trimChangefeed tx maxBytes = txStep tx (TxTrim changeStreamName through).
Proof.
  intros Hw. unfold trimChangefeed, TrimToBytes. cbn [txStep]. unfold TrimStream. rewrite Hw. change (validateStreamName changeStreamName true) with (None : option error).
  assert (Hsame : withStreams tx (tx_Streams tx) = tx) by (by destruct tx). destruct (_ || _); [by left|].
  destruct (trimScan _ _ _ _) as [sequence|through]; [right; by eexists|]. destruct (_ <=? _); [right; by eexists|by left].
Qed.

(** The same calls and records on two stores with the same contents record the same
    operations and leave the same contents. *)
Lemma records_both s t a tx : storeOK s a -> storeOK t a -> storableStore a -> records s tx ->
  exists a' tx', txOK s tx a' /\ txOK t tx' a' /\ records t tx' /\ streamOperations tx' = streamOperations tx.
Proof.
  intros Hs Ht Hst. induction 1 as [|tx op Hr IH Hw|tx kind payload Hr IH Hk Hp Hne].
  - exists a, (beginTx t). split_and!; [by apply begin_ok|by apply begin_ok|apply records_begin|done].
  - destruct IH as (a1 & tx1 & H1 & H2 & Hr1 & E). exists (aStep a1 op).1, (txStep tx1 op).
    destruct (txStep_ok s tx a1 op H1 (records_writable _ _ Hr) Hw) as (T1 & E1 & _). destruct (txStep_ok t tx1 a1 op H2 (records_writable _ _ Hr1) Hw) as (T2 & E2 & _).
    split_and!; [done|done|by apply records_call|]. by rewrite E1, E2, E.
  - destruct IH as (a1 & tx1 & H1 & H2 & Hr1 & E). exists (aPublish a1 changeStreamName kind payload), (appendChange tx1 kind payload).
    rewrite (NextSequence_abs _ _ _ (tk_store _ _ _ H1)) in Hne.
    destruct (change_steps s tx a1 kind payload H1 Hk Hp Hne) as (T1 & E1 & _). destruct (change_steps t tx1 a1 kind payload H2 Hk Hp Hne) as (T2 & E2 & _).
    split_and!; [done|done| |by rewrite E1, E2, E]. apply records_change; try done. by rewrite (NextSequence_abs _ _ _ (tk_store _ _ _ H2)).
Qed.

(** So what one recorded replays on the other. *)
Lemma records_replay_elsewhere s t a tx : storeOK s a -> storeOK t a -> storableStore a -> records s tx ->
  exists a' ps t', storeOK (tx_Streams tx) a' /\ storableStore a' /\ BuildPersistedStreamOperations (streamOperations tx) = inl ps /\
    ApplyPersistedStreamOperations t ps = inl t' /\ storeOK t' a'.
Proof.
  intros Hs Ht Hst Hr. destruct (records_both s t a tx Hs Ht Hst Hr) as (a' & tx' & [S1 S2 _] & [T1 _ (ps & Hb & Ha)] & _ & E).
  exists a', ps, (tx_Streams tx'). split_and!; try done. by rewrite <- E.
Qed.

Lemma records_ok s a tx : storeOK s a -> storableStore a -> records s tx -> exists a', storeOK (tx_Streams tx) a' /\ storableStore a'.
Proof. intros Hs Hst Hr. destruct (records_both s s a tx Hs Hs Hst Hr) as (a' & _ & [T1 T2 _] & _). eauto. Qed.
