(* ===== verification/StreamEncoderSpec.v ===== *)
(** * The record-by-record stream encoder writes the checkpoint image *)
From S2P Require Import Prelude.
From S2P Require Import GoBytes.
From S2P Require Import BinaryCodec.
From S2P Require Import BinaryCodecSpec.
From S2P Require Import BinaryValue.
From S2P Require Import BinaryRecords.
From S2P Require Import GoMaps.
From S2P Require Import Values.
From S2P Require Import ValuesSpec.
From S2P Require Import Streams.
From S2P Require Import StreamsSpec.
From S2P Require Import StreamLogs.
From S2P Require Import StreamStoreSpec.
From S2P Require Import StreamPersist.
From S2P Require Import StreamPersistSpec.
From S2P Require Import ChangefeedSpec.

Section encoder.
Context {W : Type} `{Writer W}.
Implicit Types (e : binaryEncoder W) (rs : list StreamRecord).

(** ** The allocation limit never changes *)

Lemma limit_write e w : allocationLimit (write e w) = allocationLimit e.
Proof. unfold write. destruct (e_err e); [done|]. by destruct (Write (out e) w) as [? [? ?]]. Qed.

Lemma limit_admit e n k : allocationLimit (admitDecoded e n k) = allocationLimit e.
Proof. unfold admitDecoded. destruct (_ || _); [done|]. by destruct (_ <? _). Qed.

Lemma limit_fail e err : allocationLimit (e_fail e err) = allocationLimit e.
Proof. done. Qed.

Lemma limit_each {A} (f : binaryEncoder W -> A -> binaryEncoder W) l : (forall e x, allocationLimit (f e x) = allocationLimit e) ->
  forall e, allocationLimit (encEach f e l) = allocationLimit e.
Proof.
  intros Hf. induction l as [|x l IH]; intros e; [done|]. cbn. destruct (e_err (f e x)); [apply Hf|]. by rewrite IH.
Qed.

Ltac limits := unfold enc_str, enc_bytes, enc_u, enc_i, enc_tag, e_fail in *;
  repeat first [ done | rewrite limit_write | rewrite limit_admit | rewrite limit_each | progress cbn [allocationLimit] ].

Lemma limit_value fuel : forall e v depth, allocationLimit (enc_value_fuel fuel e v depth) = allocationLimit e.
Proof.
  induction fuel as [|fuel IH]; intros e v depth; [done|]. cbn [enc_value_fuel]. destruct (e_err e); [done|].
  destruct (_ <? _)%nat; [done|]. destruct v as [| |b|i|bits|s|b|[l|]|[l|]|m|k]; try (limits; fail).
  - destruct (nonFinite64 bits); limits.
  - destruct b; limits.
  - limits. intros e' x. destruct (nonFinite32 x); limits.
  - unfold enc_properties_with. destruct (e_err _); [limits|]. destruct (_ <? _)%nat; [limits|]. destruct m as [m|]; [|limits].
    rewrite limit_each; [limits|]. intros e' key. rewrite IH. limits.
Qed.

Lemma limit_record e p : allocationLimit (enc_streamRecord e p) = allocationLimit e.
Proof. unfold enc_streamRecord, enc_value. rewrite limit_value. limits. Qed.

(** ** Writers that never fail *)

Hypothesis never_fails : forall (w : W) data, (Write w data).2 = (nlen data, None).

(** No error, and no allocation limit that could cause one. *)
Definition quiet e : Prop := e_err e = None /\ allocationLimit e = 0.

Lemma quiet_write e w : quiet e -> quiet (write e w).
Proof.
  intros [He Hl]. split; [|by rewrite limit_write]. unfold write. rewrite He. pose proof (never_fails (out e) w) as Hn.
  destruct (Write (out e) w) as [w' [n err]]. cbn in Hn. injection Hn as -> ->. cbn. by rewrite N.eqb_refl.
Qed.

Lemma quiet_str e s : quiet e -> quiet (enc_str e s).
Proof.
  intros Hq. unfold enc_str, enc_u. assert (E : admitDecoded e (nlen s) 2 = e) by (unfold admitDecoded; by rewrite (proj2 Hq)).
  rewrite E. by repeat apply quiet_write.
Qed.

Lemma setErr_same e err : e_err e = err -> setErr e err = e.
Proof. intros <-. by destruct e. Qed.

(** ** Records *)

Lemma write_records name log next rs : forall b previous e,
  consecutive b rs -> Forall (storableRecord name) rs -> 1 <= b -> b + nlen rs <= next -> next < 2 ^ 64 ->
  (previous = 0 /\ b = first log \/ previous + 1 = b /\ previous <> 0) -> e_err e = None ->
  exists p, foldVisit (writeRecord log next) (previous, e) rs =
    ((p, encEach enc_streamRecord e (map persistedRecord rs)), e_err (encEach enc_streamRecord e (map persistedRecord rs))) /\
    (e_err (encEach enc_streamRecord e (map persistedRecord rs)) = None -> p = lastOr previous rs).
Proof.
  induction rs as [|r rs IH]; intros b previous e Hc Hs H1 H2 H3 H4 He; [exists previous; cbn; by rewrite He|].
  destruct Hc as [Hr Hc]. apply Forall_cons in Hs as [[Hk (_ & Hn & _)] Hs]. rewrite nlen_cons in H2.
  assert (Ew : writeRecord log next (previous, e) r =
    let e' := enc_streamRecord e (persistedRecord r) in
    match e_err e' with Some err => ((previous, e'), Some err) | None => ((Sequence r, e'), None) end).
  { unfold writeRecord. rewrite Hr, (proj2 (N.eqb_neq b 0)), (proj2 (N.leb_gt next b)) by lia. cbn [orb]. rewrite orb_false_r.
    assert (E1 : negb (b =? u64 (previous + 1)) && negb (previous =? 0) = false).
    { destruct H4 as [[-> _]|[<- _]]; [apply andb_false_r|]. rewrite u64_id by lia. by rewrite N.eqb_refl. }
    assert (E2 : (previous =? 0) && negb (b =? first log) = false).
    { destruct H4 as [[_ ->]|[_ Hp]]; [rewrite N.eqb_refl; apply andb_false_r|]. by rewrite (proj2 (N.eqb_neq _ _) Hp). }
    rewrite E1, E2, Hk, Hn. unfold enc_streamRecord, persistedRecord.
    cbn [psr_Sequence psr_Kind psr_Payload]. by rewrite Hr. }
  cbn [foldVisit map encEach]. rewrite Ew. cbn beta zeta. destruct (e_err (enc_streamRecord e (persistedRecord r))) as [err|] eqn:Ee.
  - exists previous. by rewrite Ee.
  - rewrite Hr, lastOr_cons, Hr. apply (IH (b + 1)); try done; lia.
Qed.

Section store.
Context (s : StreamStore) (a : absStore).
Hypothesis Hs : storeOK s a.
Hypothesis Hst : storableStore a.

Lemma writeStream_image e name n : quiet e -> a_next a !! name = Some n ->
  writeStream s e name = enc_stream e (persistedStreamOf a name) /\ allocationLimit (enc_stream e (persistedStreamOf a name)) = 0.
Proof.
  intros Hq Hn. destruct (st_names a Hst name n Hn) as [Hv Hlt]. pose proof (anext_known a name n Hn) as Han.
  pose proof (so_pos s a Hs name n Hn) as Hpos. destruct (vis_range s a name Hs) as (b & Hc & Hb & Hend).
  assert (Hg : getNext s name = n) by (rewrite (proj1 (getNext_spec s a name Hs)), Hn; done).
  assert (Hcount : count (getLog s name) = nlen (avis a name) /\ (avis a name <> [] -> b = first (getLog s name))).
  { destruct (so_logs s a Hs name) as [[-> ->]|(c & base & hidden & Hh)]; [done|]. split; [apply (lh_count _ _ _ _ _ Hh)|].
    intros Hne. pose proof (vis_next s a name c base hidden Hs Hh). specialize (Hend Hne). lia. }
  destruct Hcount as [Hco Hfirst].
  unfold writeStream, enc_stream, encodeBinarySlice. cbn [persistedStreamOf ps_Name ps_Next ps_Records].
  rewrite Hv, Hg, Han, Hco. replace (N.max n 1) with n by lia. set (e1 := enc_u (enc_str e name) n).
  assert (Hq1 : quiet e1) by (apply quiet_write, quiet_str, Hq). rewrite (proj1 Hq1), nlen_map.
  set (e2 := enc_u e1 (u64 (nlen (avis a name) + 1))). assert (Hq2 : quiet e2) by apply quiet_write, Hq1.
  rewrite (visit_ok _ s name _ _ (so_logs s a Hs name)). split.
  2:{ rewrite (limit_each _ _ limit_record). apply Hq2. }
  destruct (decide (avis a name = [])) as [Ev|Hne].
  - rewrite Ev. cbn [foldVisit map encEach nlen length N.of_nat N.eqb negb andb]. apply setErr_same, Hq2.
  - destruct (write_records name (getLog s name) n (avis a name) b 0 e2) as (p & Ew & Hp); try done;
      [apply (st_records a Hst)|rewrite Hend by done; lia|left; split; [done|by apply Hfirst]|apply Hq2|].
    rewrite Ew. set (e3 := encEach enc_streamRecord e2 (map persistedRecord (avis a name))) in *. rewrite (setErr_same e3) by done.
    destruct (e_err e3) as [err|]; [done|]. rewrite (Hp eq_refl), (lastOr_end b) by done. rewrite Hend by done.
    rewrite Han, u64_id, N.eqb_refl by lia. cbn [negb]. by rewrite andb_false_r.
Qed.

(** ** Loops *)

Lemma encEach_streams names : forall e, Forall (fun name => is_Some (a_next a !! name)) names -> quiet e ->
  encEach (writeStream s) e names = encEach enc_stream e (map (persistedStreamOf a) names) /\
  allocationLimit (encEach (writeStream s) e names) = 0.
Proof.
  induction names as [|name names IH]; intros e Hn Hq; [split; [done|apply Hq]|].
  apply Forall_cons in Hn as [[n Hn] Hns]. destruct (writeStream_image e name n Hq Hn) as [E El]. cbn [encEach map]. rewrite E.
  destruct (e_err (enc_stream e (persistedStreamOf a name))) eqn:Ee; [done|]. apply IH; [done|]. by split.
Qed.

Lemma quiet_offset e o : quiet e -> quiet (enc_offset e o).
Proof. intros Hq. unfold enc_offset, enc_u. by apply quiet_write, quiet_str, quiet_str. Qed.

Lemma encLoop_quiet {A} (f : binaryEncoder W -> A -> binaryEncoder W) e l : quiet e -> encLoop f e l = encEach f e l.
Proof. intros Hq. unfold encLoop. by rewrite (proj1 Hq). Qed.

Lemma encEach_quiet {A} (f : binaryEncoder W -> A -> binaryEncoder W) l : (forall e x, quiet e -> quiet (f e x)) ->
  forall e, quiet e -> quiet (encEach f e l).
Proof.
  intros Hf. induction l as [|x l IH]; intros e Hq; [done|]. cbn. rewrite (proj1 (Hf e x Hq)). apply IH. by apply Hf.
Qed.

Lemma encEach_app {A} (f : binaryEncoder W -> A -> binaryEncoder W) l1 l2 e : (forall e x, quiet e -> quiet (f e x)) -> quiet e ->
  encEach f e (l1 ++ l2) = encEach f (encEach f e l1) l2.
Proof.
  intros Hf. revert e. induction l1 as [|x l1 IH]; intros e Hq; [done|]. cbn [app encEach]. rewrite (proj1 (Hf e x Hq)).
  apply IH. by apply Hf.
Qed.

Lemma offsets_one e name : quiet e ->
  encLoop (writeOffset s name) e (sortedNames (default ∅ (offsets s !! name))) = encEach enc_offset e (persistedOffsetsOf a name).
Proof.
  intros Hq. unfold encLoop, persistedOffsetsOf. rewrite (proj1 Hq), (so_offsets s a Hs). set (m := default ∅ (a_offsets a !! name)).
  assert (Hv : Forall (fun c => ValidateStreamName c true = None) (sortedNames m)).
  { apply Forall_forall. intros c [o Ho]%sortedNames_elem. unfold m in Ho. destruct (a_offsets a !! name) as [m'|] eqn:Em.
    - by apply (st_consumers a Hst name m' c o).
    - by apply (lookup_empty_Some (M := gmap gostring) c o) in Ho. }
  revert e Hq. induction Hv as [|c l Hc _ IH]; intros e Hq; [done|]. cbn [encEach map].
  assert (E : writeOffset s name e c = enc_offset e (mkPSOffset name c (default 0 (m !! c))))
    by (unfold writeOffset; by rewrite Hc, (so_offsets s a Hs)).
  pose proof (quiet_offset e (mkPSOffset name c (default 0 (m !! c))) Hq) as Hq'. rewrite E, (proj1 Hq'). by apply IH.
Qed.

Lemma offsets_all names : forall e, quiet e ->
  encEach (fun e name => encLoop (writeOffset s name) e (sortedNames (default ∅ (offsets s !! name)))) e names =
  encEach enc_offset e (imageOffsets a names).
Proof.
  unfold imageOffsets. induction names as [|name names IH]; intros e Hq; [done|]. cbn [encEach map concat]. rewrite offsets_one by done.
  pose proof (encEach_quiet enc_offset (persistedOffsetsOf a name) quiet_offset e Hq) as Hq'. rewrite (proj1 Hq').
  rewrite IH by done. by rewrite (encEach_app _ _ _ _ quiet_offset).
Qed.

Lemma offsetCount_of names : offsetCount s names = u64 (nlen (imageOffsets a names)).
Proof.
  unfold offsetCount, imageOffsets. rewrite (so_offsets s a Hs).
  assert (E : forall n, foldl (fun n name => u64 (n + nlen (map_to_list (default ∅ (a_offsets a !! name))))) (u64 n) names =
    u64 (n + nlen (concat (map (persistedOffsetsOf a) names)))); [|exact (E 0)].
  induction names as [|name names IH]; intros n; cbn [foldl map concat]; [unfold nlen; cbn; by rewrite N.add_0_r|].
  rewrite u64_add_l, IH, nlen_app, N.add_assoc. do 3 f_equal. unfold persistedOffsetsOf. rewrite nlen_map.
  unfold sortedNames, sortKeys, nlen. by rewrite (merge_sort_Permutation strLeR), length_fmap.
Qed.

Lemma streamStore_image e : quiet e -> nlen (imageOffsets a (sortedNames (a_next a))) < 2 ^ 64 ->
  streamStore e s = enc_streams e (image a).
Proof.
  intros Hq Hlen. unfold streamStore, enc_streams, image. cbn [pss_Streams pss_Offsets]. rewrite (so_next s a Hs).
  fold (imageOffsets a (sortedNames (a_next a))). set (names := sortedNames (a_next a)) in *.
  unfold encodeBinarySlice at 2. rewrite (proj1 Hq), nlen_map. set (e1 := enc_u e (u64 (nlen names + 1))).
  assert (Hq1 : quiet e1) by apply quiet_write, Hq. rewrite (encLoop_quiet (writeStream s) e1 names Hq1).
  assert (Hn : Forall (fun name => is_Some (a_next a !! name)) names) by (apply Forall_forall; intros k; apply sortedNames_elem).
  destruct (encEach_streams names e1 Hn Hq1) as [E El]. rewrite <- E. set (e2 := encEach (writeStream s) e1 names) in *.
  unfold encodeBinarySlice. destruct (e_err e2) as [err|] eqn:Ee; [done|]. assert (Hq2 : quiet e2) by (by split).
  rewrite offsetCount_of, u64_id by done. unfold appendNil. cbn [elems default from_option id].
  destruct (imageOffsets a names) as [|o l] eqn:Eo; [done|]. rewrite (proj2 (N.eqb_neq _ 0)) by (rewrite nlen_cons; lia).
  set (e3 := enc_u e2 (u64 (nlen (o :: l) + 1))). assert (Hq3 : quiet e3) by apply quiet_write, Hq2.
  rewrite (encLoop_quiet _ e3 names Hq3), offsets_all by done. by rewrite Eo.
Qed.
End store.
End encoder.
