(* ===== verification/StreamTheorems.v ===== *)
(** * Theorems about streams *)
From S2P Require Import Prelude.
From S2P Require Import GoBytes.
From S2P Require Import BinaryCodec.
From S2P Require Import BinaryCodecSpec.
From S2P Require Import BinaryValue.
From S2P Require Import BinaryRecords.
From S2P Require Import GoMaps.
From S2P Require Import Values.
From S2P Require Import ValuesSpec.
From S2P Require Import Properties.
From S2P Require Import PageRecords.
From S2P Require Import Streams.
From S2P Require Import StreamsSpec.
From S2P Require Import StreamLogs.
From S2P Require Import StreamStoreSpec.
From S2P Require Import StreamPersist.
From S2P Require Import StreamPersistSpec.
From S2P Require Import StreamTx.
From S2P Require Import StreamTxSpec.
From S2P Require Import StreamEncoderSpec.
From S2P Require Import ChangefeedSpec.
From Stdlib Require Strings.String.
Import String.StringSyntax.

Implicit Types (name consumer : gostring).

(** ** Histories of a store *)

Inductive storeOp :=
  | OpPublish (name kind : gostring) (payload : value)
  | OpSetOffset (name consumer : gostring) (sequence : N)
  | OpTrim (name : gostring) (through : N)
  | OpTrimToBytes (name : gostring) (maxBytes : N).

Definition wfStoreOp (op : storeOp) : Prop := match op with OpTrimToBytes _ maxBytes => maxBytes <= max_uint64 | _ => True end.

(** What a call returns, and the store after it. *)
Definition storeStep (s : StreamStore) (op : storeOp) : (N * bool) * StreamStore :=
  match op with
  | OpPublish name kind payload => let '(sequence, s) := Publish s name kind payload in ((sequence, true), s)
  | OpSetOffset name consumer sequence => ((0, true), SetOffset s name consumer sequence)
  | OpTrim name through => ((0, true), Trim s name through)
  | OpTrimToBytes name maxBytes => TrimToBytes s name maxBytes
  end.
Definition absStep (a : absStore) (op : storeOp) : (N * bool) * absStore :=
  match op with
  | OpPublish name kind payload => ((anext a name, true), aPublish a name kind payload)
  | OpSetOffset name consumer sequence => ((0, true), aSetOffset a name consumer sequence)
  | OpTrim name through => ((0, true), aTrim a name through)
  | OpTrimToBytes name maxBytes => aTrimToBytes a name maxBytes
  end.

Definition runWith {S} (step : S -> storeOp -> (N * bool) * S) (s : S) (ops : list storeOp) : list (N * bool) * S :=
  foldl (fun st op => let '(r, s) := step st.2 op in (st.1 ++ [r], s)) ([], s) ops.
Definition storeRun := runWith storeStep NewStreamStore.
Definition absRun := runWith absStep absEmpty.

Definition nextBelow (a : absStore) (n : N) : Prop := forall name, anext a name <= n.

Lemma step_ok s a op n : storeOK s a -> wfStoreOp op -> nextBelow a n -> n + 1 < 2 ^ 64 ->
  (storeStep s op).1 = (absStep a op).1 /\ storeOK (storeStep s op).2 (absStep a op).2 /\ nextBelow (absStep a op).2 (n + 1).
Proof.
  intros Hs Hw Hb Hlt.
  assert (Hnext : forall a' name x, x <= n + 1 -> a_next a' = <[name := x]> (a_next a) -> nextBelow a' (n + 1)).
  { intros a' name x Hx E k. unfold anext. rewrite E. destruct (decide (k = name)) as [->|Hne]; [by rewrite lookup_insert_eq|].
    rewrite lookup_insert_ne by done. specialize (Hb k). unfold anext in Hb. lia. }
  destruct op as [name kind payload|name consumer sequence|name through|name maxBytes]; cbn [storeStep absStep wfStoreOp] in *.
  - destruct (Publish_ok s a name kind payload Hs) as [E Hok]; [specialize (Hb name); lia|].
    destruct (Publish s name kind payload) as [sequence s']. cbn in *. subst. split_and!; [done|done|].
    apply (Hnext _ name (anext a name + 1)); [specialize (Hb name); lia|done].
  - split_and!; [done|by apply SetOffset_ok|]. apply (Hnext _ name (anext a name)); [specialize (Hb name); lia|done].
  - split_and!; [done|by apply Trim_ok|]. apply (Hnext _ name (anext a name)); [specialize (Hb name); lia|done].
  - destruct (TrimToBytes_ok s a name maxBytes Hs Hw) as [E Hok]. split_and!; [done|done|]. unfold aTrimToBytes.
    destruct (_ <=? _); cbn [snd]; [intros k; specialize (Hb k); lia|].
    apply (Hnext _ name (anext a name)); [specialize (Hb name); lia|done].
Qed.

Lemma run_ok ops : forall s a outs n, storeOK s a -> Forall wfStoreOp ops -> nextBelow a n -> n + nlen ops < 2 ^ 64 ->
  let f {S} (step : S -> storeOp -> (N * bool) * S) st := foldl (fun st op => let '(r, s) := step st.2 op in (st.1 ++ [r], s)) (outs, st) ops in
  (f storeStep s).1 = (f absStep a).1 /\ storeOK (f storeStep s).2 (f absStep a).2.
Proof.
  induction ops as [|op ops IH]; intros s a outs n Hs Hw Hb Hlt; [done|]. apply Forall_cons in Hw as [Hop Hw]. rewrite nlen_cons in Hlt.
  destruct (step_ok s a op n Hs Hop Hb ltac:(lia)) as (E & Hok & Hb'). cbn [foldl fst snd].
  destruct (storeStep s op) as [r s'], (absStep a op) as [r' a']. cbn in E, Hok, Hb'. subst. apply (IH s' a' _ (n + 1)); try done. lia.
Qed.

Lemma streamHistory_ok ops : Forall wfStoreOp ops -> nlen ops < 2 ^ 64 - 1 ->
  (storeRun ops).1 = (absRun ops).1 /\ storeOK (storeRun ops).2 (absRun ops).2.
Proof. intros Hw Hlt. apply (run_ok ops NewStreamStore absEmpty [] 1); [apply empty_ok|done|done|lia]. Qed.

(** ** What a store shows *)

Lemma readSpec_nil after limit maxBytes : readSpec [] after limit maxBytes = emptyRead.
Proof. unfold readSpec. rewrite filter_nil, take_nil. done. Qed.

Lemma ReadBounded_abs s a name after limit maxBytes : storeOK s a -> after < 2 ^ 64 -> maxBytes <= max_uint64 ->
  ReadBounded s name after limit maxBytes = readSpec (avis a name) after limit maxBytes.
Proof.
  intros Hs Ha Hm. destruct (so_logs s a Hs name) as [[El ->]|(c & base & hidden & Hh)].
  - unfold ReadBounded. rewrite El, readSpec_nil. cbn [emptyLog count N.eqb]. by rewrite orb_true_r.
  - by apply (ReadBounded_holds s name c base hidden).
Qed.

Lemma StreamBytes_abs s a name : storeOK s a -> StreamBytes s name = sat (total streamRecordBytes (avis a name)).
Proof.
  intros Hs. unfold StreamBytes. destruct (so_logs s a Hs name) as [[-> ->]|(c & base & hidden & Hh)]; [done|]. apply (lh_bytes _ _ _ _ _ Hh).
Qed.

(** A store shows what the abstract store holds. *)
Record shows (s : StreamStore) (a : absStore) : Prop := mkShows {
  sh_read : forall name after limit maxBytes, after < 2 ^ 64 -> maxBytes <= max_uint64 ->
    ReadBounded s name after limit maxBytes = readSpec (avis a name) after limit maxBytes;
  sh_next : forall name, NextSequence s name = anext a name;
  sh_offset : forall name consumer, GetOffset s name consumer = default ∅ (a_offsets a !! name) !! consumer;
  sh_bytes : forall name, StreamBytes s name = sat (total streamRecordBytes (avis a name)) }.

Lemma storeOK_shows s a : storeOK s a -> shows s a.
Proof.
  intros Hs. split.
  - intros. by apply ReadBounded_abs.
  - intros. by apply NextSequence_abs.
  - intros. unfold GetOffset. by rewrite (so_offsets s a Hs).
  - intros. by apply StreamBytes_abs.
Qed.

(** C21. A stream store behaves as a map from names to record lists: any history of
    publications, offset updates and trims returns what the same history returns on
    lists, and afterwards every bounded read, next sequence, consumer offset and byte
    size of the store is the one of the lists. The skip pointers, chunking, lazy
    trimming and compaction of the logs never show. *)
Theorem StreamStore_refines_lists ops :
  Forall wfStoreOp ops -> nlen ops < 2 ^ 64 - 1 ->
  (storeRun ops).1 = (absRun ops).1 /\ shows (storeRun ops).2 (absRun ops).2.
Proof. intros Hw Hlt. destruct (streamHistory_ok ops Hw Hlt). split; [done|by apply storeOK_shows]. Qed.

(** C25. The running byte totals are exact after any history: they equal what a full
    scan of the store computes, also when a total has saturated in between. *)
Theorem StreamStore_totals_exact ops :
  Forall wfStoreOp ops -> nlen ops < 2 ^ 64 - 1 ->
  logicalBytes (storeRun ops).2 = calculateStreamStoreBytes (storeRun ops).2 /\
  storeSnapshotBytes (storeRun ops).2 = calculateStreamStoreSnapshotBytes (storeRun ops).2.
Proof.
  intros Hw Hlt. destruct (streamHistory_ok ops Hw Hlt) as [_ Hs]. rewrite (so_bytes _ _ Hs), (so_snapshot _ _ Hs). split; symmetry.
  - apply (calcBytes_total (fun name => nlen name + 64) streamRecordBytes (fun name consumer => nlen name + nlen consumer + 48)); apply Hs.
  - apply (calcBytes_total streamSnapshotBytes streamRecordSnapshotBytes streamOffsetSnapshotBytes); apply Hs.
Qed.

Lemma keepWithin_fits target rs : total streamRecordBytes (keepWithin target rs) <= target.
Proof.
  induction rs as [|r rs IH]; [unfold total; cbn; lia|]. cbn [keepWithin].
  destruct (N.leb_spec (total streamRecordBytes (r :: rs)) target); [done|exact IH].
Qed.

Lemma keepWithin_next target rs : target < total streamRecordBytes rs ->
  exists gone r, rs = gone ++ r :: keepWithin target rs /\ target < total streamRecordBytes (r :: keepWithin target rs).
Proof.
  induction rs as [|r rs IH]; intros Hlt; [unfold total in Hlt; cbn in Hlt; lia|]. cbn [keepWithin].
  rewrite (proj2 (N.leb_gt _ _)) by done. destruct (N.le_gt_cases (total streamRecordBytes rs) target) as [Hle|Hgt].
  - exists [], r. assert (E : keepWithin target rs = rs) by (destruct rs as [|r' rs]; [done|]; cbn [keepWithin]; by rewrite (proj2 (N.leb_le _ _))).
    by rewrite E.
  - destruct (IH Hgt) as (gone & r' & E & H). exists (r :: gone), r'. by rewrite E at 1.
Qed.

(** Trimming a stream to a byte budget leaves it within the budget; a stream that
    was within it is not touched, and otherwise the records kept are the longest suffix
    that fits in half the budget: with the last record dropped, whose sequence is
    returned, they would not fit. *)
Theorem TrimToBytes_budget ops name maxBytes :
  Forall wfStoreOp ops -> nlen ops < 2 ^ 64 - 1 -> maxBytes <= max_uint64 ->
  let s := (storeRun ops).2 in
  let vis := avis (absRun ops).2 name in
  StreamBytes (TrimToBytes s name maxBytes).2 name <= maxBytes /\
  match (TrimToBytes s name maxBytes).1 with
  | (_, false) => (TrimToBytes s name maxBytes).2 = s
  | (through, true) => exists gone r keep, vis = gone ++ r :: keep /\ Sequence r = through /\
      total streamRecordBytes keep <= maxBytes / 2 < total streamRecordBytes (r :: keep) /\
      (forall after limit maxBytes', after < 2 ^ 64 -> maxBytes' <= max_uint64 ->
         ReadBounded (TrimToBytes s name maxBytes).2 name after limit maxBytes' = readSpec keep after limit maxBytes')
  end.
Proof.
  intros Hw Hlt Hm s vis. destruct (streamHistory_ok ops Hw Hlt) as [_ Hs]. fold s in Hs. set (a := (absRun ops).2) in *.
  destruct (TrimToBytes_ok s a name maxBytes Hs Hm) as [E Hok]. rewrite E. rewrite (StreamBytes_abs _ _ name Hok).
  pose proof (StreamBytes_abs s a name Hs) as Hb.
  assert (Hhalf : maxBytes / 2 <= maxBytes) by (apply N.Div0.div_le_upper_bound; lia).
  unfold aTrimToBytes in *. destruct (N.leb_spec (sat (total streamRecordBytes (avis a name))) maxBytes) as [Hle|Hgt]; cbn [fst snd] in *.
  - split; [done|]. unfold TrimToBytes. unfold StreamBytes in Hb. rewrite Hb. by rewrite (proj2 (N.leb_le _ _) Hle).
  - set (keep := keepWithin (maxBytes / 2) (avis a name)) in *.
    assert (Ek : avis (aKeep a name keep) name = keep) by (unfold aKeep; by rewrite avis_insert, decide_True).
    pose proof (keepWithin_fits (maxBytes / 2) (avis a name)) as Hfit. fold keep in Hfit. rewrite Ek. split; [unfold sat; lia|].
    destruct (keepWithin_next (maxBytes / 2) (avis a name)) as (gone & r & Ev & Hr); [unfold sat in Hgt; lia|]. fold keep in Ev, Hr.
    exists gone, r, keep. split_and!; try done.
    + destruct (vis_range s a name Hs) as (b & Hc & Hb1 & Hend). rewrite Ev in Hc, Hend. apply consecutive_app in Hc as [_ [-> _]].
      specialize (Hend ltac:(by destruct gone)). rewrite nlen_app, nlen_cons in Hend. lia.
    + intros after limit maxBytes' Ha Hm'. rewrite <- Ek. by apply ReadBounded_abs.
Qed.

(** ** Checkpoints and replay *)

(** Two stores no reader can tell apart, down to the sizes limits are checked against. *)
Record sameStreams (s s' : StreamStore) : Prop := mkSame {
  ss_read : forall name after limit maxBytes, after < 2 ^ 64 -> maxBytes <= max_uint64 ->
    ReadBounded s name after limit maxBytes = ReadBounded s' name after limit maxBytes;
  ss_next : forall name, NextSequence s name = NextSequence s' name;
  ss_offset : forall name consumer, GetOffset s name consumer = GetOffset s' name consumer;
  ss_bytes : forall name, StreamBytes s name = StreamBytes s' name;
  ss_logical : logicalBytes s = logicalBytes s';
  ss_snapshot : storeSnapshotBytes s = storeSnapshotBytes s' }.

Lemma storeOK_same s s' a : storeOK s a -> storeOK s' a -> sameStreams s s'.
Proof.
  intros H H'. pose proof (storeOK_shows s a H) as [R1 R2 R3 R4]. pose proof (storeOK_shows s' a H') as [R1' R2' R3' R4'].
  split; intros; rewrite ?R2, ?R2', ?R3, ?R3', ?R4, ?R4'; try done.
  - by rewrite R1, R1'.
  - by rewrite (so_bytes s a H), (so_bytes s' a H').
  - by rewrite (so_snapshot s a H), (so_snapshot s' a H').
Qed.

Lemma tx_run_ok ops : Forall wfTxOp ops -> exists a, txOK NewStreamStore (txRun (beginTx NewStreamStore) ops) a.
Proof. intros Hw. apply (txRun_ok _ ops _ absEmpty); [|done]. apply begin_ok; [apply empty_ok|apply empty_storable]. Qed.

(** C24. Whatever a transaction does to the streams, valid calls or not, the store it
    leaves has a checkpoint image, and recovering the image gives a store no reader can
    tell from it. The engine's sequence guard is what keeps sequences from wrapping. *)
Theorem Streams_checkpoint_roundtrip ops :
  Forall wfTxOp ops ->
  let s := tx_Streams (txRun (beginTx NewStreamStore) ops) in
  exists state s', buildPersistedStreams s = inl state /\ decodePersistedStreams state = inl s' /\ sameStreams s s'.
Proof.
  intros Hw s. destruct (tx_run_ok ops Hw) as [a [Hs Hst _]]. fold s in Hs. exists (image a).
  destruct (decodePersistedStreams_ok s a Hs Hst) as (s' & Hd & Hs'). exists s'. split_and!; [by apply buildPersistedStreams_ok|done|].
  by apply (storeOK_same s s' a).
Qed.

(** C22. Replay is exact: the operations a transaction recorded are all accepted when
    they are written and when they are replayed, and replaying them on the store the
    transaction started from gives its store, chunk by chunk. *)
Theorem Streams_replay_exact ops1 ops2 :
  Forall wfTxOp ops1 -> Forall wfTxOp ops2 ->
  let s0 := tx_Streams (txRun (beginTx NewStreamStore) ops1) in
  let tx := txRun (beginTx s0) ops2 in
  exists persisted, BuildPersistedStreamOperations (streamOperations tx) = inl persisted /\
    ApplyPersistedStreamOperations s0 persisted = inl (tx_Streams tx).
Proof.
  intros H1 H2 s0 tx. destruct (tx_run_ok ops1 H1) as [a [Hs Hst _]]. fold s0 in Hs.
  destruct (txRun_ok s0 ops2 (beginTx s0) a (begin_ok s0 a Hs Hst) H2) as [a' [_ _ Hre]]. exact Hre.
Qed.

(** The streaming encoder writes the checkpoint image: on a writer that does not
    fail it produces, byte for byte, what encoding the built image produces, without
    building it. *)
Theorem streamStore_writes_image {W} `{Writer W} (e : binaryEncoder W) ops :
  (forall (w : W) data, (Write w data).2 = (nlen data, None)) ->
  e_err e = None -> allocationLimit e = 0 -> Forall wfTxOp ops ->
  let s := tx_Streams (txRun (beginTx NewStreamStore) ops) in
  exists state, buildPersistedStreams s = inl state /\
    (slen (pss_Offsets state) < 2 ^ 64 -> streamStore e s = enc_streams e state).
Proof.
  intros Hnf He Hl Hw s. destruct (tx_run_ok ops Hw) as [a [Hs Hst _]]. fold s in Hs. exists (image a).
  split; [by apply buildPersistedStreams_ok|]. intros Hlen. apply (streamStore_image Hnf s a Hs Hst e); [by split|].
  cbn [image pss_Offsets] in Hlen. by rewrite slen_appendNil in Hlen.
Qed.

(** Stored payloads are held to the limits of live ones: of the payloads
    [encodeValue] can produce, the check before recovery accepts exactly those
    [NormalizeValue] accepts for publication, and returns the normal form. *)
Theorem StreamValue_limits_agree stream v p :
  typedV v -> wfV v -> stream <> changeStreamName -> encodeValue v = inl p ->
  match NormalizeValue v with
  | inl r => decodeStreamValue stream p = inl r
  | inr _ => exists err, decodeStreamValue stream p = inr err
  end.
Proof.
  intros Ht Hw Hne Ep. assert (E : p = toP v) by (unfold encodeValue in Ep; rewrite encodeValue_typed in Ep by done; congruence). subst p.
  destruct (toP_totals v Ht Hw) as (E1 & E2 & E3). pose proof (NormalizeValue_spec v) as Hn.
  pose proof (runWalk_spec _ _ _ _ (validateStreamValue_performs (toP v) 0)) as Hr. rewrite E1, E2, E3 in Hr. unfold withinP in Hr.
  assert (Ed : decodeStreamValue stream (toP v) = match runWalk (validateStreamValue (toP v) 0) with Some err => inr err | None => decodeValue (toP v) end).
  { unfold decodeStreamValue. destruct (toP v); try done. by rewrite bool_decide_false. }
  destruct (okV 0 v && (elementsV v <=? maxValueElements) && (bytesV v <=? maxValueBytes)) eqn:Ec.
  - rewrite Hn, Ed. rewrite !andb_true_iff, !N.leb_le in Ec. rewrite (proj2 Hr) by tauto. by apply decodeValue_toP.
  - destruct Hn as [err ->]. rewrite Ed. destruct (runWalk _) as [err'|] eqn:Er; [by eauto|].
    destruct (proj1 Hr eq_refl) as (F1 & F2%N.leb_le & F3%N.leb_le). by rewrite F1, F2, F3 in Ec.
Qed.

(** C23. The changefeed preflight is exact: when it lets a commit through, the commit
    publishes exactly the counted number of records, with consecutive sequences that
    stay below the top of the 64-bit range, and records an operation for each. *)
Theorem changefeed_preflight_exact ch base graph maxBytes tx tx' :
  sortedView base -> sortedView graph ->
  preflightChangefeedSequence (NextSequence (tx_Streams tx) changeStreamName) (countChangefeedEvents ch base graph) = None ->
  NextSequence (tx_Streams tx) changeStreamName <= max_uint64 ->
  appendEvents ch base graph maxBytes tx = (None, tx') ->
  nlen (streamOperations tx') < 2 ^ 64 ->
  let count := countChangefeedEvents ch base graph in
  NextSequence (tx_Streams tx') changeStreamName = NextSequence (tx_Streams tx) changeStreamName + count /\
  exists ops, streamOperations tx' = streamOperations tx ++ ops /\ nlen ops = count /\
    forall i op, ops !! i = Some op -> so_Type op = publishOp /\ so_Stream op = changeStreamName /\
      so_Sequence op = NextSequence (tx_Streams tx) changeStreamName + N.of_nat i /\ so_Sequence op < max_uint64.
Proof.
  intros Hb Hg Hpre Hmax Hev Hops count. destruct (appendEvents_appends ch base graph maxBytes Hb Hg tx tx' Hev) as (events & En & ->).
  rewrite publishAll_operations in Hops. assert (Ec : count = nlen events).
  { unfold count. rewrite countChangefeedEvents_of, <- En. apply u64_id. lia. }
  fold count in Hpre. rewrite Ec in *. clear Ec count.
  assert (Hroom : NextSequence (tx_Streams tx) changeStreamName + nlen events <= max_uint64).
  { unfold preflightChangefeedSequence in Hpre. destruct (negb _ && _) eqn:E; [done|]. apply andb_false_iff in E as [E|E].
    - apply negb_false_iff, N.eqb_eq in E. lia.
    - apply orb_false_iff in E as [_ E%N.ltb_ge]. lia. }
  destruct (publishAll_sequences events tx) as (E & ops & E1 & E2 & E3); [unfold max_uint64 in Hroom; lia|].
  split; [done|]. exists ops. split_and!; [done|done|]. intros i op Hi. destruct (E3 i op Hi) as (T1 & T2 & T3). split_and!; try done.
  apply lookup_lt_Some in Hi. rewrite T3. unfold nlen in *. lia.
Qed.

(** Writing a stream without records ends with no error whatever happened before:
    the error of the visit, nil for an empty log, overwrites one the writer has just
    reported for the stream's header, and the encoder goes on. *)
Theorem writeStream_drops_error {W} `{Writer W} (e : binaryEncoder W) s name :
  ValidateStreamName name true = None -> getLog s name = emptyLog -> e_err (writeStream s e name) = None.
Proof. intros Hv El. unfold writeStream, visitStreamRecords. by rewrite Hv, El. Qed.

(** ** Witnesses *)

Definition exampleStream : gostring := str "events"%string.
Definition exampleKind : gostring := str "created"%string.
Definition examplePayload : value := VMap (Some [(str "id"%string, VInt 7)]).
Definition exampleHistory : list storeOp :=
  [OpPublish exampleStream exampleKind examplePayload; OpPublish exampleStream exampleKind VNil;
   OpSetOffset exampleStream (str "reader"%string) 1; OpTrim exampleStream 1; OpPublish exampleStream exampleKind (VBool true);
   OpTrimToBytes exampleStream 300].
Definition exampleTxOps : list txOp :=
  [TxPublish exampleStream exampleKind examplePayload; TxOffset exampleStream (str "reader"%string) 1;
   TxPublish exampleStream exampleKind (VList (Some [VBool true])); TxTrim exampleStream 1; TxTrim (str "idle"%string) 4].

Lemma StreamStore_refines_lists_witness :
  (storeRun exampleHistory).1 = [(1, true); (2, true); (0, true); (0, true); (3, true); (0, false)] /\
  shows (storeRun exampleHistory).2 (absRun exampleHistory).2.
Proof.
  split; [vm_compute; reflexivity|]. apply (StreamStore_refines_lists exampleHistory); [|vm_compute; reflexivity].
  repeat constructor; vm_compute; discriminate.
Defined.

Lemma StreamStore_totals_exact_witness :
  logicalBytes (storeRun exampleHistory).2 = calculateStreamStoreBytes (storeRun exampleHistory).2.
Proof.
  apply (StreamStore_totals_exact exampleHistory); [|vm_compute; reflexivity]. repeat constructor; vm_compute; discriminate.
Defined.

Lemma TrimToBytes_budget_witness :
  (TrimToBytes (storeRun exampleHistory).2 exampleStream 130).1 = (3, true) /\
  StreamBytes (TrimToBytes (storeRun exampleHistory).2 exampleStream 130).2 exampleStream <= 130.
Proof.
  split; [vm_compute; reflexivity|].
  assert (Hw : Forall wfStoreOp exampleHistory) by (repeat constructor; vm_compute; discriminate).
  assert (Hl : nlen exampleHistory < 2 ^ 64 - 1) by (vm_compute; reflexivity).
  assert (Hm : 130 <= max_uint64) by (vm_compute; discriminate).
  pose proof (TrimToBytes_budget exampleHistory exampleStream 130 Hw Hl Hm) as H. cbv zeta in H. destruct H as [H _]. exact H.
Defined.

Lemma example_wf : Forall wfTxOp exampleTxOps.
Proof.
  repeat constructor; try (vm_compute; done). all: try (cbn; intros H; set_solver).
Qed.

Lemma Streams_checkpoint_roundtrip_witness :
  exists state s', buildPersistedStreams (tx_Streams (txRun (beginTx NewStreamStore) exampleTxOps)) = inl state /\
    decodePersistedStreams state = inl s' /\ sameStreams (tx_Streams (txRun (beginTx NewStreamStore) exampleTxOps)) s'.
Proof. exact (Streams_checkpoint_roundtrip exampleTxOps example_wf). Defined.

Lemma Streams_replay_exact_witness :
  exists persisted,
    BuildPersistedStreamOperations (streamOperations (txRun (beginTx (tx_Streams (txRun (beginTx NewStreamStore) exampleTxOps))) exampleTxOps))
      = inl persisted /\
    ApplyPersistedStreamOperations (tx_Streams (txRun (beginTx NewStreamStore) exampleTxOps)) persisted =
      inl (tx_Streams (txRun (beginTx (tx_Streams (txRun (beginTx NewStreamStore) exampleTxOps))) exampleTxOps)).
Proof. exact (Streams_replay_exact exampleTxOps exampleTxOps example_wf example_wf). Defined.

Lemma streamStore_writes_image_witness :
  exists state, buildPersistedStreams (tx_Streams (txRun (beginTx NewStreamStore) exampleTxOps)) = inl state /\
    (slen (pss_Offsets state) < 2 ^ 64 ->
     streamStore (mkEncoder (W := list byte) [] 0 0 None) (tx_Streams (txRun (beginTx NewStreamStore) exampleTxOps)) =
     enc_streams (mkEncoder [] 0 0 None) state).
Proof. exact (streamStore_writes_image (mkEncoder (W := list byte) [] 0 0 None) exampleTxOps (fun _ _ => eq_refl) eq_refl eq_refl example_wf). Defined.

Lemma StreamValue_limits_agree_witness : decodeStreamValue exampleStream (PVList (Some [PVBool true])) = inl (VList (Some [VBool true])).
Proof.
  apply (StreamValue_limits_agree exampleStream (VList (Some [VBool true])) (PVList (Some [PVBool true]))).
  - repeat constructor.
  - repeat constructor.
  - intros E. vm_compute in E. discriminate.
  - vm_compute. reflexivity.
Defined.

(** One node inserted with a label, another deleted. *)
Definition exampleChanges : txChanges := mkChanges {[ 1 ]} {[ 2 ]} ∅ ∅ ∅ ∅.
Definition exampleBase : graphView := mkView {[ 2 := mkNode 2 None (mkProperties []) ]} ∅.
Definition exampleGraph : graphView := mkView {[ 1 := mkNode 1 (Some [exampleKind]) (mkProperties []) ]} ∅.

Lemma example_sorted v : v = exampleBase \/ v = exampleGraph -> sortedView v.
Proof.
  intros [->| ->]; (split; intros id; [|done]); cbn [exampleBase exampleGraph v_Nodes];
    (destruct (decide (id = 1)) as [->|H1]; [|destruct (decide (id = 2)) as [->|H2]]);
    rewrite ?lookup_singleton_eq, ?lookup_singleton_ne by congruence; cbn; try done; constructor.
Qed.

Lemma changefeed_preflight_exact_witness :
  NextSequence (tx_Streams (appendEvents exampleChanges exampleBase exampleGraph 1024 (beginTx NewStreamStore)).2) changeStreamName = 4.
Proof.
  apply (changefeed_preflight_exact exampleChanges exampleBase exampleGraph 1024 (beginTx NewStreamStore)).
  - apply example_sorted. by left.
  - apply example_sorted. by right.
  - vm_compute. reflexivity.
  - vm_compute. discriminate.
  - vm_compute. reflexivity.
  - vm_compute. reflexivity.
Defined.

(** A writer whose second write fails once. *)
#[local] Instance flakyWriter : Writer nat := fun n data =>
  if (n =? 1)%nat then (S n, (0, Some (ErrExternal 5))) else (S n, (nlen data, None)).

Lemma writeStream_drops_error_witness :
  e_err (enc_str (enc_u (mkEncoder 0%nat 0 0 None) 2) exampleStream) = Some (ErrExternal 5) /\
  e_err (writeStream NewStreamStore (enc_u (mkEncoder 0%nat 0 0 None) 2) exampleStream) = None.
Proof. split; [vm_compute; reflexivity|]. apply writeStream_drops_error; vm_compute; reflexivity. Defined.
