(* ===== verification/PropertyDelta.v ===== *)
(** * Property patches (internal/store/property_delta.go)

    A commit that changes a few properties of an entity logs a patch: the new values of
    the changed keys and the keys removed. Recovery applies patches to the stored maps,
    and keeps each map's element and byte totals up to date instead of walking the map
    again, so that the limits are enforced at the cost of the patch.

    A stored property map is the list of its entries in key order. Contexts are never
    cancelled. *)
From S2P Require Import Prelude.
From S2P Require Import GoBytes.
From S2P Require Import BinaryCodec.
From S2P Require Import BinaryValue.
From S2P Require Import BinaryRecords.
From S2P Require Import GoMaps.
From S2P Require Import Values.
From S2P Require Import Properties.
From S2P Require Import PageRecords.
From S2P Require Import StreamPersist.
From Stdlib Require Strings.String.
Import String.StringSyntax.

Abbreviation storedMap := (list (gostring * persistedValue)).

Definition ValidatePropertyKey (key : gostring) : option error :=
  if negb (utf8Valid key) then Some (ErrNew "property key must contain valid UTF-8"%string) else None.

(** ** Totals *)

Record propertyValueTotals := mkValueTotals { vt_elements : Z; vt_bytes : N }.
Record propertyTotals := mkTotals { pt_elements : Z; pt_bytes : N; pt_values : gmap gostring propertyValueTotals }.

(** The loop over nested values: the key's bytes, then the child's totals and work. *)
Definition deriveNested {A} (keyBytes : A -> N) (derive : A -> (propertyValueTotals * N) + error) :
    list A -> propertyValueTotals -> N -> (propertyValueTotals * N) + error :=
  fix each l totals work :=
    match l with
    | [] => inl (totals, work)
    | x :: l =>
        match derive x with
        | inr err => inr err
        | inl (child, childWork) =>
            each l (mkValueTotals (vt_elements totals + vt_elements child)
                      (addSaturated (addSaturated (vt_bytes totals) (keyBytes x)) (vt_bytes child)))
              (addSaturated work childWork)
        end
    end.

Fixpoint derivePropertyValueTotals (v : persistedValue) (depth : nat) : (propertyValueTotals * N) + error :=
  if (maxValueDepth <? depth)%nat then inr nestingExceeded
  else
    match v with
    | PVString s => inl (mkValueTotals 0 (nlen s), 0)
    | PVBytes b => inl (mkValueTotals 0 (slen b), 0)
    | PVVector l => inl (mkValueTotals 0 (multiplySaturated (slen l) 4), 0)
    | PVMap m =>
        match m with
        | None => inl (mkValueTotals 0 0, 0)
        | Some m => deriveNested (fun kv => nlen kv.1) (fun kv => derivePropertyValueTotals kv.2 (S depth)) m
                      (mkValueTotals (Z.of_N (nlen m)) 0) (nlen m)
        end
    | PVList l =>
        match l with
        | None => inl (mkValueTotals 0 0, 0)
        | Some l => deriveNested (fun _ => 0) (fun item => derivePropertyValueTotals item (S depth)) l
                      (mkValueTotals (Z.of_N (nlen l)) 0) (nlen l)
        end
    | _ => inl (mkValueTotals 0 0, 0)
    end.

(** The same work, counted on its own before a patch is admitted. *)
Definition structureNested {A} (work : A -> N + error) : list A -> N -> N + error :=
  fix each l total :=
    match l with
    | [] => inl total
    | x :: l => match work x with inr err => inr err | inl amount => each l (addSaturated total amount) end
    end.

Fixpoint persistedValueStructureWork (v : persistedValue) (depth : nat) : N + error :=
  if (maxValueDepth <? depth)%nat then inr nestingExceeded
  else
    match v with
    | PVMap m => match m with
                 | None => inl 0
                 | Some m => structureNested (fun kv => persistedValueStructureWork kv.2 (S depth)) m (nlen m)
                 end
    | PVList l => match l with
                  | None => inl 0
                  | Some l => structureNested (fun item => persistedValueStructureWork item (S depth)) l (nlen l)
                  end
    | _ => inl 0
    end.

Fixpoint deriveEntries (values : storedMap) (totals : propertyTotals) (work : N) : (propertyTotals * N) + error :=
  match values with
  | [] => inl (totals, work)
  | (key, v) :: values =>
      match derivePropertyValueTotals v 0 with
      | inr err => inr err
      | inl (amount, structure) =>
          deriveEntries values
            (mkTotals (pt_elements totals + vt_elements amount)
               (addSaturated (pt_bytes totals) (addSaturated (nlen key) (vt_bytes amount)))
               (<[key := amount]> (pt_values totals)))
            (addSaturated work structure)
      end
  end.

Definition derivePropertyTotals (values : storedMap) : (propertyTotals * N) + error :=
  deriveEntries values (mkTotals (Z.of_N (nlen values)) 0 ∅) (nlen values).

(** ** Patching totals *)

Definition setTotals (updated : propertyTotals) (kv : gostring * persistedValue) : propertyTotals + error :=
  match derivePropertyValueTotals kv.2 0 with
  | inr err => inr err
  | inl (newTotals, _) =>
      let updated := match pt_values updated !! kv.1 with
                     | Some old => mkTotals (pt_elements updated - vt_elements old) (sub64 (pt_bytes updated) (vt_bytes old)) (pt_values updated)
                     | None => mkTotals (pt_elements updated + 1) (addSaturated (pt_bytes updated) (nlen kv.1)) (pt_values updated)
                     end in
      inl (mkTotals (pt_elements updated + vt_elements newTotals) (addSaturated (pt_bytes updated) (vt_bytes newTotals))
             (<[kv.1 := newTotals]> (pt_values updated)))
  end.

Definition removeTotals (updated : propertyTotals) (key : gostring) : propertyTotals :=
  match pt_values updated !! key with
  | Some old => mkTotals (pt_elements updated - (1 + vt_elements old))
                  (sub64 (pt_bytes updated) (addSaturated (nlen key) (vt_bytes old))) (delete key (pt_values updated))
  | None => updated
  end.

Definition adjustPropertyTotals (totals : propertyTotals) (change : persistedPropertyChange) : propertyTotals + error :=
  match decodePropertyMap (elems (pc_Set change)) with
  | inr err => inr err
  | inl _ =>
      match foldError setTotals totals (elems (pc_Set change)) with
      | inr err => inr err
      | inl updated =>
          let updated := foldl removeTotals updated (elems (pc_Remove change)) in
          if (Z.of_N maxValueElements <? pt_elements updated)%Z || (maxValueBytes <? pt_bytes updated)
          then inr (ErrValueLimit "property map"%string) else inl updated
      end
  end.

(** ** Applying patches *)

(** [properties[key] = value] for the set keys, then [delete] for the removed ones. *)
Definition patchProperties (properties : storedMap) (change : persistedPropertyChange) : storedMap :=
  foldl (fun m key => mapDelete key m) (foldl (fun m kv => mapInsert kv.1 kv.2 m) properties (elems (pc_Set change)))
    (elems (pc_Remove change)).

Fixpoint validateKeys (keys : list gostring) (seen : gset gostring) : option error :=
  match keys with
  | [] => None
  | key :: keys =>
      match ValidatePropertyKey key with
      | Some err => Some err
      | None => if bool_decide (key ∈ seen) then Some (ErrNew "duplicate property change key"%string)
                else validateKeys keys ({[ key ]} ∪ seen)
      end
  end.

Fixpoint validateChangesFrom (changes : list persistedPropertyChange) (entity : N -> bool) (seen : gset N) : option error :=
  match changes with
  | [] => None
  | change :: changes =>
      match ValidateEntityID (pc_ID change) with
      | Some err => Some err
      | None =>
          if bool_decide (pc_ID change ∈ seen) then Some (ErrNew "duplicate property change ID"%string)
          else if negb (entity (pc_ID change)) then Some (ErrNew "property change references missing entity"%string)
          else match validateKeys ((elems (pc_Set change)).*1 ++ elems (pc_Remove change)) ∅ with
               | Some err => Some err
               | None => validateChangesFrom changes entity ({[ pc_ID change ]} ∪ seen)
               end
      end
  end.
Definition validatePropertyChanges (changes : list persistedPropertyChange) (entity : N -> bool) : option error :=
  validateChangesFrom changes entity ∅.

(** One loop of [preparePropertyDelta], for nodes or for edges: entities deleted or
    written in full by the same delta are refused, the old totals are cached on first
    use, and the patched map comes with its patched totals and the identifier the stored
    entity carries. *)
Section prepare.
Context (context : gostring) (deleted full : list N) (identifier : N -> N) (properties : N -> storedMap).

Definition cachePropertyTotals (cache : gmap N propertyTotals) (id : N) : (propertyTotals * gmap N propertyTotals) + error :=
  match cache !! id with
  | Some totals => inl (totals, cache)
  | None => match derivePropertyTotals (properties id) with
            | inr err => inr err
            | inl (totals, _) => inl (totals, <[id := totals]> cache)
            end
  end.

Definition prepareChange (cache : gmap N propertyTotals) (change : persistedPropertyChange) :
    ((storedMap * propertyTotals) * gmap N propertyTotals) + error :=
  let id := pc_ID change in
  if bool_decide (id ∈ deleted) then inr (ErrNew "both delete and property change"%string)
  else if bool_decide (id ∈ full) then inr (ErrNew "full upsert and property change"%string)
  else match cachePropertyTotals cache id with
       | inr err => inr err
       | inl (totals, cache) =>
           match adjustPropertyTotals totals change with
           | inr err => inr (ErrWrap context err)
           | inl updated => inl ((patchProperties (properties id) change, updated), cache)
           end
       end.

Fixpoint prepareChanges (cache : gmap N propertyTotals) (changes : list persistedPropertyChange) :
    (list (N * (storedMap * propertyTotals)) * gmap N propertyTotals) + error :=
  match changes with
  | [] => inl ([], cache)
  | change :: changes =>
      match prepareChange cache change with
      | inr err => inr err
      | inl (p, cache) => match prepareChanges cache changes with
                          | inr err => inr err
                          | inl (ps, cache) => inl ((identifier (pc_ID change), p) :: ps, cache)
                          end
      end
  end.
End prepare.

(** ** Building patches *)

Fixpoint validateNormalizedPropertyValueLimits (v : value) (depth : nat) : walking unit :=
  let entry kv :=
    if negb (utf8Valid kv.1) then wfail (ErrNew "map key contains invalid UTF-8"%string)
    else addBytes (nlen kv.1) ;;; validateNormalizedPropertyValueLimits kv.2 (S depth) in
  if (maxValueDepth <? depth)%nat then wfail nestingExceeded
  else
    match v with
    | VNil | VBool _ | VInt _ => wret tt
    | VFloat bits => if nonFinite64 bits then wfail (ErrNew "non-finite float64"%string) else wret tt
    | VString s => if negb (utf8Valid s) then wfail (ErrNew "string contains invalid UTF-8"%string) else addBytes (nlen s)
    | VBytes b => addBytes (slen b)
    | VVector l =>
        if maxValueBytes / 4 <? slen l then wfail (ErrValueLimit "byte count"%string)
        else walkAll (fun item => if nonFinite32 item then wfail (ErrNew "non-finite float32"%string) else wret tt) (elems l) ;;;
             addBytes (slen l * 4)
    | VList l =>
        walk_add (slen l) ;;;
        match l with None => wret tt | Some l => walkAll (fun item => validateNormalizedPropertyValueLimits item (S depth)) l end
    | VMap m =>
        walk_add (slen m) ;;; match m with None => wret tt | Some m => walkAll entry m end
    | _ => wfail (ErrNew "unsupported value type"%string)
    end.

Definition validateProperty (kv : gostring * value) : walking unit :=
  if negb (utf8Valid kv.1) then wfail (ErrNew "property key contains invalid UTF-8"%string)
  else wwrap kv.1 (addBytes (nlen kv.1)) ;;; wwrap kv.1 (validateNormalizedPropertyValueLimits kv.2 0).

Definition validateNormalizedPropertyMapLimits (p : Properties) : option error :=
  runWalk (walk_add (N.of_nat (PLen p)) ;;; walkAll validateProperty (PAll p)).

Fixpoint buildChanges (p : Properties) (keys : list gostring) (seen : gset gostring) (set : storedMap) (remove : list gostring) :
    (storedMap * list gostring) + error :=
  match keys with
  | [] => inl (set, remove)
  | key :: keys =>
      match ValidatePropertyKey key with
      | Some err => inr err
      | None =>
          if bool_decide (key ∈ seen) then inr (ErrNew "duplicate property key"%string)
          else match Lookup p key with
               | None => buildChanges p keys ({[ key ]} ∪ seen) set (remove ++ [key])
               | Some v => match encodeValue v with
                           | inr err => inr (ErrWrap key err)
                           | inl encoded => buildChanges p keys ({[ key ]} ∪ seen) (mapInsert key encoded set) remove
                           end
               end
      end
  end.

Definition buildPersistedPropertyChange (id : N) (keys : list gostring) (p : Properties) : persistedPropertyChange + error :=
  match ValidateEntityID id with
  | Some err => inr err
  | None =>
      match validateNormalizedPropertyMapLimits p with
      | Some err => inr err
      | None => match buildChanges p keys ∅ [] [] with
                | inr err => inr err
                | inl (set, remove) => inl (mkPChange id (Some set) (appendNil (Some (sortKeys remove))))
                end
      end
  end.
