(* ===== verification/PropertyPatch.v ===== *)
(** * What property patches do

    Totals of a stored map are sums over its entries; a patch moves them by the entries it
    replaces, adds and removes. Decoding a stored map accepts exactly the maps within the
    limits, and a patch built from an entity turns the entity's old stored map into its
    new one.

    Further down: patches built from an entity. *)
From S2P Require Import Prelude.
From S2P Require Import GoBytes.
From S2P Require Import BinaryCodec.
From S2P Require Import BinaryCodecSpec.
From S2P Require Import BinaryValue.
From S2P Require Import BinaryValueSpec.
From S2P Require Import BinaryRecords.
From S2P Require Import GoMaps.
From S2P Require Import Values.
From S2P Require Import ValuesSpec.
From S2P Require Import Properties.
From S2P Require Import PageRecords.
From S2P Require Import StreamPersist.
From S2P Require Import StreamPersistSpec.
From S2P Require Import PropertyDelta.
From Stdlib Require Strings.String.

(** ** Sums over a map *)

Section sums.
Context {A : Type} (f : gostring * A -> N).
Implicit Types (m : list (gostring * A)).

Definition sumMap m : N := nsum (map f m).

Lemma sumMap_cons kv m : sumMap (kv :: m) = f kv + sumMap m.
Proof. done. Qed.

Definition weight (key : gostring) m : N :=
  match mapLookup key m with Some old => f (key, old) | None => 0 end.

Lemma sumMap_insert key v m : keysSorted m -> sumMap (mapInsert key v m) + weight key m = sumMap m + f (key, v).
Proof.
  induction m as [|[k w] m IH]; intros Hs; [unfold weight, sumMap, nsum; cbn; lia|].
  apply keysSorted_cons in Hs as [Hs Hk]. unfold weight in *. cbn [mapInsert mapLookup].
  case_bool_decide as E; [subst; rewrite !sumMap_cons; lia|].
  destruct (strLe key k) eqn:El; rewrite !sumMap_cons.
  - rewrite mapLookup_notin; [lia|]. intros Hin. rewrite Forall_forall in Hk.
    apply (strLt_irrefl key). etrans; [|by apply Hk]. by split; [|congruence].
  - specialize (IH Hs). lia.
Qed.

Lemma sumMap_delete key m : keysSorted m -> sumMap (mapDelete key m) + weight key m = sumMap m.
Proof.
  induction m as [|[k w] m IH]; intros Hs; [done|]. apply keysSorted_cons in Hs as [Hs Hk].
  unfold weight in *. cbn [mapLookup]. unfold mapDelete in *. case_bool_decide as E.
  - subst. rewrite filter_cons_False by (cbn; congruence).
    change (base.filter (fun kv => kv.1 <> key) m) with (mapDelete key m). rewrite filter_keep, sumMap_cons; [lia|].
    intros Hin. rewrite Forall_forall in Hk. by apply (strLt_irrefl key), Hk.
  - rewrite filter_cons_True, !sumMap_cons by done. specialize (IH Hs). lia.
Qed.

Lemma weight_le key m : weight key m <= sumMap m.
Proof.
  unfold weight. destruct (mapLookup key m) eqn:E; [|lia]. apply (nsum_elem f). by apply mapLookup_elem.
Qed.

Lemma sumMap_mapOf l : forall m, keysSorted m -> sumMap (mapOf l m) <= sumMap m + sumMap l.
Proof.
  induction l as [|[k v] l IH]; intros m Hs; [unfold sumMap, nsum; cbn; lia|]. cbn [mapOf foldl].
  specialize (IH (mapInsert k v m) (mapInsert_sorted k v m Hs)). unfold mapOf in IH. cbn [fst snd].
  pose proof (sumMap_insert k v m Hs). rewrite sumMap_cons. lia.
Qed.

End sums.

(** ** Totals that do not saturate *)

Lemma addSaturated_exact a b : a + b <= max_uint64 -> addSaturated a b = a + b.
Proof. unfold addSaturated, max_uint64. case_cmp; lia. Qed.

Lemma multiplySaturated_exact a b : a * b <= max_uint64 -> multiplySaturated a b = a * b.
Proof.
  unfold multiplySaturated, max_uint64, u64. intros H. rewrite (N.mod_small (a * b)) by lia.
  destruct (N.eqb_spec a 0) as [->|Hne]; [done|]. cbn [negb andb].
  destruct (N.ltb_spec ((2 ^ 64 - 1) / a) b) as [Hlt|Hle]; [|done].
  pose proof (N.div_le_lower_bound (2 ^ 64 - 1) a b Hne H). lia.
Qed.

(** ** Totals of a value *)

Definition valueTotals (v : persistedValue) : propertyValueTotals :=
  mkValueTotals (Z.of_N (elementsP v)) (bytesP v).

(** The totals of a loop over children whose own totals are known. *)
Lemma deriveNested_all {A} (keyBytes : A -> N) derive eA bA (l : list A) : forall e b w,
  b + nsum (map (fun x => keyBytes x + bA x) l) <= max_uint64 -> w + nsum (map eA l) <= max_uint64 ->
  Forall (fun x => eA x <= max_uint64 -> bA x <= max_uint64 ->
                   derive x = inl (mkValueTotals (Z.of_N (eA x)) (bA x), eA x)) l ->
  deriveNested keyBytes derive l (mkValueTotals (Z.of_N e) b) w =
    inl (mkValueTotals (Z.of_N (e + nsum (map eA l))) (b + nsum (map (fun x => keyBytes x + bA x) l)),
         w + nsum (map eA l)).
Proof.
  induction l as [|x l IH]; intros e b w Hb Hw Hl; [unfold nsum; cbn; by rewrite !N.add_0_r|].
  unfold nsum in *. cbn [map foldr] in *. apply Forall_cons in Hl as [Hx Hl]. cbn [deriveNested].
  rewrite Hx by lia. cbn [vt_elements vt_bytes].
  rewrite (addSaturated_exact b), !addSaturated_exact, <- N2Z.inj_add by lia.
  fold (@deriveNested A keyBytes derive). rewrite IH by (done || lia). by rewrite !N.add_assoc.
Qed.

Lemma okP_entries depth m :
  forallb id (map (fun kv => utf8Valid kv.1 && okP depth kv.2) m) = true <->
  Forall (fun kv => utf8Valid kv.1 = true) m /\ Forall (fun kv => okP depth kv.2 = true) m.
Proof.
  rewrite forallb_map, <- Forall_and. split; intros H; (eapply Forall_impl; [exact H|]); intros kv;
    cbn beta; by rewrite andb_true_iff.
Qed.

Lemma derivePropertyValueTotals_exact v : forall depth,
  okP depth v = true -> elementsP v <= max_uint64 -> bytesP v <= max_uint64 ->
  derivePropertyValueTotals v depth = inl (valueTotals v, elementsP v).
Proof.
  unfold valueTotals. induction v as [v Hv|l Hl|m Hm] using persisted_nested_ind; intros depth Ho He Hb.
  - destruct v; try done; cbn [okP derivePropertyValueTotals elementsP bytesP] in *; apply andb_true_iff in Ho as [Hd _];
      rewrite Nat.ltb_antisym, Hd; cbn [negb]; rewrite ?multiplySaturated_exact by done; done.
  - cbn [okP derivePropertyValueTotals] in *. apply andb_true_iff in Ho as [Hd Ho].
    rewrite Nat.ltb_antisym, Hd. cbn [negb elementsP bytesP] in *.
    destruct l as [l|]; [|done]. cbn [elems default from_option id optMap slen] in *.
    apply forallb_map in Ho. rewrite (deriveNested_all _ _ elementsP bytesP); [by rewrite N.add_0_l|..];
      rewrite ?N.add_0_l; cbn beta; [done|done|].
    revert Hl Ho. rewrite !Forall_forall. auto.
  - cbn [okP derivePropertyValueTotals] in *. apply andb_true_iff in Ho as [Hd Ho].
    rewrite Nat.ltb_antisym, Hd. cbn [negb elementsP bytesP] in *.
    destruct m as [m|]; [|done]. cbn [elems default from_option id optMap slen] in *.
    apply okP_entries in Ho as [_ Ho]. rewrite (deriveNested_all _ _ (fun kv => elementsP kv.2) (fun kv => bytesP kv.2)); [by rewrite N.add_0_l|..];
      rewrite ?N.add_0_l; cbn beta; [done|done|].
    revert Hm Ho. rewrite !Forall_forall. auto.
Qed.

(** The work counted on its own is the work the totals report. *)
Lemma structureNested_derived {A} keyBytes (work : A -> N + error) derive l : forall totals n,
  Forall (fun x => work x = match derive x with inl (_, n) => inl n | inr err => inr err end) l ->
  structureNested work l n = match deriveNested keyBytes derive l totals n with inl (_, n) => inl n | inr err => inr err end.
Proof.
  induction l as [|x l IH]; intros totals n Hl; [done|]. apply Forall_cons in Hl as [Hx Hl].
  cbn [structureNested deriveNested]. rewrite Hx. destruct (derive x) as [[child amount]|]; [|done]. by apply IH.
Qed.

Lemma structureWork_derived v : forall depth,
  persistedValueStructureWork v depth = match derivePropertyValueTotals v depth with inl (_, work) => inl work | inr err => inr err end.
Proof.
  induction v as [v Hv|l Hl|m Hm] using persisted_nested_ind; intros depth.
  - destruct v; try done; cbn [persistedValueStructureWork derivePropertyValueTotals]; by destruct (_ <? _)%nat.
  - cbn [persistedValueStructureWork derivePropertyValueTotals]. destruct (_ <? _)%nat; [done|]. destruct l as [l|]; [|done].
    apply structureNested_derived. eapply Forall_impl; [exact Hl|]. auto.
  - cbn [persistedValueStructureWork derivePropertyValueTotals]. destruct (_ <? _)%nat; [done|]. destruct m as [m|]; [|done].
    apply structureNested_derived. eapply Forall_impl; [exact Hm|]. auto.
Qed.

(** ** Totals of a map *)

Definition elementsE (kv : gostring * persistedValue) : N := 1 + elementsP kv.2.
Definition bytesE (kv : gostring * persistedValue) : N := nlen kv.1 + bytesP kv.2.

Definition exactTotals (m : storedMap) : propertyTotals :=
  mkTotals (Z.of_N (sumMap elementsE m)) (sumMap bytesE m) (valueTotals <$> toMap m).

(** A stored map within the limits. *)
Definition limitsOK (m : storedMap) : bool :=
  (sumMap elementsE m <=? maxValueElements) && (sumMap bytesE m <=? maxValueBytes).
Definition propsOKP (m : storedMap) : bool :=
  forallb id (map (fun kv => utf8Valid kv.1 && okP 0 kv.2) m) && limitsOK m.

Lemma limits_uint64 : maxValueElements <= max_uint64 /\ maxValueBytes + maxValueBytes <= max_uint64.
Proof. split; vm_compute; discriminate. Qed.

Lemma deriveEntries_exact l : forall e b w vs,
  Forall (fun kv => okP 0 kv.2 = true) l -> NoDup l.*1 -> Forall (fun kv => vs !! kv.1 = None) l ->
  b + sumMap bytesE l <= max_uint64 -> w + sumMap (fun kv => elementsP kv.2) l <= max_uint64 ->
  deriveEntries l (mkTotals e b vs) w =
    inl (mkTotals (e + Z.of_N (sumMap (fun kv => elementsP kv.2) l)) (b + sumMap bytesE l) ((valueTotals <$> toMap l) ∪ vs),
         w + sumMap (fun kv => elementsP kv.2) l).
Proof.
  induction l as [|[k v] l IH]; intros e b w vs Ho Hnd Hvs Hb Hw.
  - change (sumMap bytesE []) with 0. change (sumMap (fun kv => elementsP kv.2) []) with 0. change (toMap []) with (∅ : gmap gostring persistedValue).
    by rewrite fmap_empty, (left_id_L ∅ (∪)), Z.add_0_r, !N.add_0_r.
  - apply Forall_cons in Ho as [Ho Hol]. apply Forall_cons in Hvs as [Hv Hvs]. rewrite fmap_cons in Hnd.
    apply NoDup_cons in Hnd as [Hn Hnd]. rewrite sumMap_cons in Hb. rewrite sumMap_cons in Hw. cbn [fst snd] in *.
    unfold bytesE at 1 in Hb. cbn [fst snd] in Hb.
    cbn [deriveEntries]. rewrite derivePropertyValueTotals_exact by (done || lia). cbn [pt_elements pt_bytes pt_values vt_elements vt_bytes valueTotals].
    rewrite (addSaturated_exact (nlen k)), !addSaturated_exact by lia.
    rewrite IH; [|done|done| |lia|lia].
    + rewrite !sumMap_cons. unfold bytesE at 2. cbn [fst snd]. rewrite !N.add_assoc, N2Z.inj_add, Z.add_assoc. do 3 f_equal.
      unfold toMap. cbn [list_to_map foldr]. rewrite fmap_insert, <- insert_union_l, insert_union_r; [done|].
      rewrite lookup_fmap. fold (toMap l). by rewrite toMap_lookup, mapLookup_notin.
    + rewrite Forall_forall in Hvs. apply Forall_forall. intros [k' v'] Hin. cbn.
      rewrite lookup_insert_ne; [by apply (Hvs (k', v'))|]. intros ->. apply Hn. by apply (list_elem_of_fmap_2 fst _ (k', v')).
Qed.

Lemma sumMap_elements m : sumMap elementsE m = nlen m + sumMap (fun kv => elementsP kv.2) m.
Proof.
  induction m as [|kv m IH]; [done|]. rewrite !sumMap_cons, IH. unfold elementsE, nlen. cbn [length]. lia.
Qed.

Lemma propsOKP_split m : propsOKP m = true <->
  Forall (fun kv => utf8Valid kv.1 = true) m /\ Forall (fun kv => okP 0 kv.2 = true) m /\
  sumMap elementsE m <= maxValueElements /\ sumMap bytesE m <= maxValueBytes.
Proof. unfold propsOKP, limitsOK. rewrite !andb_true_iff, okP_entries, !N.leb_le. tauto. Qed.

Lemma derivePropertyTotals_exact m :
  keysSorted m -> propsOKP m = true -> derivePropertyTotals m = inl (exactTotals m, sumMap elementsE m).
Proof.
  intros Hs (_ & Ho & He & Hb)%propsOKP_split. pose proof limits_uint64 as [HE HB]. unfold derivePropertyTotals, exactTotals.
  rewrite sumMap_elements in *. rewrite deriveEntries_exact; [|done|by apply keysSorted_nodup|by apply Forall_forall|lia|lia].
  by rewrite N.add_0_l, (right_id_L ∅ (∪)), N2Z.inj_add.
Qed.

Lemma valueTotals_lookup m key : (valueTotals <$> toMap m) !! key = valueTotals <$> mapLookup key m.
Proof. by rewrite lookup_fmap, toMap_lookup. Qed.

Lemma sub64_exact a b : b <= a -> a <= max_uint64 -> sub64 a b = a - b.
Proof. unfold sub64, u64, max_uint64. intros. replace (a + 2 ^ 64 - b) with (a - b + 1 * 2 ^ 64) by lia. rewrite N.Div0.mod_add. apply N.mod_small. lia. Qed.

Lemma toMap_delete {A} key (m : list (gostring * A)) : toMap (mapDelete key m) = delete key (toMap m).
Proof.
  apply map_eq. intros k. rewrite toMap_lookup, mapDelete_lookup. case_bool_decide as E.
  - subst. by rewrite lookup_delete_eq.
  - by rewrite lookup_delete_ne, toMap_lookup by done.
Qed.

(** ** Patched totals *)

Lemma setTotals_exact m kv :
  keysSorted m -> okP 0 kv.2 = true -> elementsP kv.2 <= max_uint64 -> sumMap bytesE m + bytesE kv <= max_uint64 ->
  setTotals (exactTotals m) kv = inl (exactTotals (mapInsert kv.1 kv.2 m)).
Proof.
  intros Hs Ho He Hb. destruct kv as [key v]. cbn [fst snd] in *. unfold bytesE at 2 in Hb. cbn [fst snd] in Hb.
  unfold setTotals. cbn [fst snd]. rewrite derivePropertyValueTotals_exact by (done || lia).
  pose proof (sumMap_insert elementsE key v m Hs) as Xe. pose proof (sumMap_insert bytesE key v m Hs) as Xb.
  pose proof (weight_le elementsE key m) as We. pose proof (weight_le bytesE key m) as Wb. unfold weight, elementsE, bytesE in *. cbn [fst snd] in *.
  fold elementsE bytesE in *. unfold exactTotals. rewrite toMap_insert, fmap_insert. cbn [pt_elements pt_bytes pt_values].
  rewrite !valueTotals_lookup.
  destruct (mapLookup key m) as [old|]; cbn [fmap option_fmap option_map pt_elements pt_bytes pt_values valueTotals vt_elements vt_bytes].
  - rewrite sub64_exact, addSaturated_exact by lia. do 2 f_equal; lia.
  - rewrite (addSaturated_exact _ (nlen key)), addSaturated_exact by lia. do 2 f_equal; lia.
Qed.

Lemma removeTotals_exact m key :
  keysSorted m -> sumMap bytesE m <= max_uint64 -> removeTotals (exactTotals m) key = exactTotals (mapDelete key m).
Proof.
  intros Hs Hb. unfold removeTotals. unfold exactTotals at 1. cbn [pt_values]. rewrite valueTotals_lookup.
  pose proof (sumMap_delete elementsE key m Hs) as Xe. pose proof (sumMap_delete bytesE key m Hs) as Xb.
  pose proof (weight_le bytesE key m) as Wb. unfold weight, elementsE, bytesE in *. cbn [fst snd] in *. fold elementsE bytesE in *.
  destruct (mapLookup key m) as [old|] eqn:E; cbn [fmap option_fmap option_map].
  - unfold exactTotals. rewrite toMap_delete, fmap_delete. cbn [pt_elements pt_bytes pt_values valueTotals vt_elements vt_bytes].
    rewrite addSaturated_exact, sub64_exact by lia. f_equal; lia.
  - rewrite filter_keep; [done|]. intros (kv & -> & Hin)%list_elem_of_fmap. destruct kv as [k v].
    apply elem_mapLookup in Hin; [cbn in *; congruence|by apply keysSorted_nodup].
Qed.

(** ** Decoding accepts exactly the maps within the limits *)

Definition okOf {A B} (d : B) (f : A -> B + error) (x : A) : B := match f x with inl y => y | inr _ => d end.

Section sums_of_errors.
Context {A B : Type} (d : B) (f : A -> B + error).

Lemma sumEach_cases l :
  (Forall (fun x => f x = inl (okOf d f x)) l /\ sumEach f l = inl (map (okOf d f) l)) \/
  (Exists (fun x => exists err, f x = inr err) l /\ exists err, sumEach f l = inr err).
Proof.
  induction l as [|x l IH]; [by left|]. cbn [sumEach map]. destruct (f x) as [y|err] eqn:E.
  - assert (Hy : f x = inl (okOf d f x)) by (by unfold okOf; rewrite E). rewrite E in Hy. injection Hy as ->.
    destruct IH as [[H1 H2]|[H1 [err H2]]].
    + left. rewrite H2. by split; [constructor|].
    + right. split; [by right|]. exists err. by rewrite H2.
  - right. split; [left; by exists err|by exists err].
Qed.

Lemma sumEntries_cons k x l acc :
  sumEntries f ((k, x) :: l) acc =
    match f x with inr err => inr err | inl y => sumEntries f l (mapInsert (InternString k) y acc) end.
Proof. done. Qed.

Lemma sumEntries_cases l : forall acc,
  (Forall (fun kv => f kv.2 = inl (okOf d f kv.2)) l /\ sumEntries f l acc = inl (mapOf (map (onEntry (okOf d f)) l) acc)) \/
  (Exists (fun kv => exists err, f kv.2 = inr err) l /\ exists err, sumEntries f l acc = inr err).
Proof.
  induction l as [|[k x] l IH]; intros acc; [by left|]. rewrite sumEntries_cons.
  destruct (f x) as [y|err] eqn:E.
  - assert (Hy : f x = inl (okOf d f x)) by (by unfold okOf; rewrite E). rewrite E in Hy. injection Hy as ->.
    destruct (IH (mapInsert (InternString k) (okOf d f x) acc)) as [[H1 H2]|[H1 [err H2]]].
    + left. rewrite H2. by split; [constructor|].
    + right. split; [by right|]. by exists err.
  - right. split; [left; by exists err|by exists err].
Qed.
End sums_of_errors.

(** A Go map has each key once, at every level. *)
Inductive wfP : persistedValue -> Prop :=
  | wfP_leaf v : match v with PVList _ | PVMap _ => False | _ => True end -> wfP v
  | wfP_list l : Forall wfP (elems l) -> wfP (PVList l)
  | wfP_map m : NoDup (elems m).*1 -> Forall (fun kv => wfP kv.2) (elems m) -> wfP (PVMap m).

Definition decodes (p : persistedValue) : Prop :=
  match decodeValue p with
  | inl v => elementsV v = elementsP p /\ bytesV v = bytesP p /\ forall depth, okV depth v = okP depth p
  | inr _ => forall depth, okP depth p = false
  end.

Lemma decodes_ok p v : decodes p -> decodeValue p = inl v ->
  elementsV v = elementsP p /\ bytesV v = bytesP p /\ forall depth, okV depth v = okP depth p.
Proof. intros H E. unfold decodes in H. by rewrite E in H. Qed.

Lemma decodes_err p err : decodes p -> decodeValue p = inr err -> forall depth, okP depth p = false.
Proof. intros H E. unfold decodes in H. by rewrite E in H. Qed.

Lemma forallb_false_elem {A} (f : A -> bool) l x : x ∈ l -> f x = false -> forallb id (map f l) = false.
Proof.
  intros Hx Hf. destruct (forallb id (map f l)) eqn:E; [|done]. apply forallb_map in E.
  rewrite Forall_forall in E. specialize (E x Hx). congruence.
Qed.

Lemma wfP_list_inv l : wfP (PVList l) -> Forall wfP (elems l).
Proof. by inversion 1. Qed.
Lemma wfP_map_inv m : wfP (PVMap m) -> NoDup (elems m).*1 /\ Forall (fun kv => wfP kv.2) (elems m).
Proof. by inversion 1. Qed.

Abbreviation decoded := (okOf VNil decodeValue).

Lemma decodes_list l : Forall decodes (elems l) -> decodes (PVList l).
Proof.
  intros Hd. rewrite Forall_forall in Hd. unfold decodes. cbn [decodeValue].
  assert (E : (match l with None => inl [] | Some l => sumEach decodeValue l end) = sumEach decodeValue (elems l)) by (by destruct l).
  rewrite E. destruct (sumEach_cases VNil decodeValue (elems l)) as [[H1 ->]|[H1 [err ->]]].
  - rewrite Forall_forall in H1. assert (Hx := fun x Hin => decodes_ok x _ (Hd x Hin) (H1 x Hin)).
    cbn [elementsV bytesV okV elementsP bytesP okP]. rewrite !optMap_elems, !slen_elems. cbn [elems default from_option id].
    rewrite nlen_map, !map_map.
    split_and!; [f_equal| |intros depth; rewrite !optMap_elems; cbn [elems default from_option id]; rewrite map_map; f_equal];
      f_equal; apply map_ext_Forall, Forall_forall; intros x Hin; by apply Hx.
  - intros depth. cbn [okP]. rewrite optMap_elems. apply Exists_exists in H1 as (x & Hin & e & He).
    rewrite (forallb_false_elem (okP (S depth)) (elems l) x Hin); [by rewrite andb_false_r|].
    by eapply decodes_err; [apply Hd|].
Qed.

(** What a map built from decoded entries sums to. *)
Lemma decoded_entries {C} (f : gostring * value -> C) (g : gostring * persistedValue -> C) m :
  NoDup m.*1 -> (forall kv, kv ∈ m -> f (kv.1, decoded kv.2) = g kv) ->
  map f (mapOf (map (onEntry decoded) m) []) ≡ₚ map g m.
Proof.
  intros Hnd Hf. rewrite (mapOf_entries decoded m Hnd), (map_onEntry_ext f g decoded m); [done|]. by apply Forall_forall.
Qed.

Lemma decodes_map m : NoDup (elems m).*1 -> Forall (fun kv => decodes kv.2) (elems m) -> decodes (PVMap m).
Proof.
  intros Hnd Hd. rewrite Forall_forall in Hd. unfold decodes. cbn [decodeValue].
  assert (E : (match m with None => inl [] | Some m => sumEntries decodeValue m [] end) = sumEntries decodeValue (elems m) []) by (by destruct m).
  rewrite E. destruct (sumEntries_cases VNil decodeValue (elems m) []) as [[H1 ->]|[H1 [err ->]]].
  - rewrite Forall_forall in H1. assert (Hx := fun kv Hin => decodes_ok kv.2 _ (Hd kv Hin) (H1 kv Hin)).
    cbn [elementsV bytesV okV elementsP bytesP okP]. rewrite !optMap_elems, !slen_elems. cbn [elems default from_option id].
    split_and!; [| |intros depth; rewrite !optMap_elems; cbn [elems default from_option id]].
    + rewrite (decoded_entries _ (fun kv => elementsP kv.2) _ Hnd) by (intros kv Hin; by apply Hx).
      f_equal. unfold nlen. by rewrite (mapOf_entries decoded _ Hnd), length_map.
    + by rewrite (decoded_entries _ (fun kv => nlen kv.1 + bytesP kv.2) _ Hnd) by (intros kv Hin; cbn; f_equal; by apply Hx).
    + f_equal. by rewrite (decoded_entries _ (fun kv => utf8Valid kv.1 && okP (S depth) kv.2) _ Hnd) by (intros kv Hin; cbn; f_equal; by apply Hx).
  - intros depth. cbn [okP]. rewrite optMap_elems. apply Exists_exists in H1 as (kv & Hin & e & He).
    rewrite (forallb_false_elem _ (elems m) kv Hin); [by rewrite andb_false_r|].
    rewrite (decodes_err kv.2 e); [by rewrite andb_false_r|by apply Hd|done].
Qed.

Lemma decodeValue_totals p : wfP p -> decodes p.
Proof.
  induction p as [v Hv|l Hl|m Hm] using persisted_nested_ind; intros Hw.
  - destruct v; try done; unfold decodes; cbn [decodeValue]; try (intros depth; cbn [okP]; by rewrite andb_false_r);
      cbn [elementsV bytesV elementsP bytesP okV okP]; rewrite ?slen_appendNil, ?appendNil_elems; done.
  - apply decodes_list. apply wfP_list_inv in Hw. by eapply Forall_mp; [exact Hl|].
  - apply wfP_map_inv in Hw as [Hnd Hw]. apply decodes_map; [done|]. by eapply Forall_mp; [exact Hm|].
Qed.

Definition wfStored (m : storedMap) : Prop := keysSorted m /\ Forall (fun kv => wfP kv.2) m.

Lemma decodePropertyMap_exact m : wfStored m ->
  if propsOKP m then exists out, decodePropertyMap m = inl out else exists err, decodePropertyMap m = inr err.
Proof.
  intros [Hs Hw]. pose proof (keysSorted_nodup m Hs) as Hnd. unfold decodePropertyMap, decodePropertyMapRaw.
  assert (Hd : Forall (fun kv => decodes kv.2) m) by (eapply Forall_impl; [exact Hw|]; intros kv; apply decodeValue_totals).
  rewrite Forall_forall in Hd. destruct (sumEntries_cases VNil decodeValue m []) as [[H1 ->]|[H1 [err ->]]].
  - rewrite Forall_forall in H1. assert (Hx := fun kv Hin => decodes_ok kv.2 _ (Hd kv Hin) (H1 kv Hin)).
    assert (E : propsOK (mapOf (map (onEntry decoded) m) []) = propsOKP m).
    { unfold propsOK, propsOKP, limitsOK. rewrite sumMap_elements, <- andb_assoc. unfold sumMap, bytesE.
      rewrite (decoded_entries _ (fun kv => utf8Valid kv.1 && okP 0 kv.2) _ Hnd) by (intros kv Hin; cbn; f_equal; by apply Hx).
      rewrite (decoded_entries _ (fun kv => elementsP kv.2) _ Hnd) by (intros kv Hin; by apply Hx).
      rewrite (decoded_entries _ (fun kv => nlen kv.1 + bytesP kv.2) _ Hnd) by (intros kv Hin; cbn; f_equal; by apply Hx).
      do 3 f_equal. unfold nlen. by rewrite (mapOf_entries decoded _ Hnd), length_map. }
    pose proof (NormalizeProperties_exact (mapOf (map (onEntry decoded) m) [])) as H. rewrite E in H.
    destruct (propsOKP m); [by eexists|exact H].
  - apply Exists_exists in H1 as (kv & Hin & e & He). unfold propsOKP.
    rewrite (forallb_false_elem _ m kv Hin); [by exists err|].
    rewrite (decodes_err kv.2 e); [by rewrite andb_false_r|by apply Hd|done].
Qed.

(** ** Patches *)

Lemma setAll_exact l : forall m,
  keysSorted m -> Forall (fun kv => okP 0 kv.2 = true) l -> sumMap elementsE l <= max_uint64 ->
  sumMap bytesE m + sumMap bytesE l <= max_uint64 ->
  foldError setTotals (exactTotals m) l = inl (exactTotals (mapOf l m)).
Proof.
  induction l as [|kv l IH]; intros m Hs Ho He Hb; [done|]. apply Forall_cons in Ho as [Ho Hol].
  rewrite sumMap_cons in He, Hb. cbn [foldError]. unfold elementsE at 1 in He. rewrite setTotals_exact by (done || lia).
  apply IH; [by apply mapInsert_sorted|done|lia|]. pose proof (sumMap_insert bytesE kv.1 kv.2 m Hs). destruct kv. cbn in *. lia.
Qed.

Definition removeKeys {A} (m : list (gostring * A)) (keys : list gostring) : list (gostring * A) :=
  foldl (fun m key => mapDelete key m) m keys.

Lemma removeKeys_sorted {A} keys : forall m : list (gostring * A), keysSorted m -> keysSorted (removeKeys m keys).
Proof. induction keys as [|k keys IH]; intros m Hs; [done|]. apply IH. by apply mapDelete_sorted. Qed.

Lemma removeKeys_Forall {A} (P : gostring * A -> Prop) keys : forall m, Forall P m -> Forall P (removeKeys m keys).
Proof.
  induction keys as [|k keys IH]; intros m Hm; [done|]. apply IH. rewrite Forall_forall in Hm |- *.
  intros kv [_ Hkv]%list_elem_of_filter. by apply Hm.
Qed.

Lemma removeAll_exact keys : forall m,
  keysSorted m -> sumMap bytesE m <= max_uint64 -> foldl removeTotals (exactTotals m) keys = exactTotals (removeKeys m keys).
Proof.
  induction keys as [|k keys IH]; intros m Hs Hb; [done|]. cbn [foldl]. rewrite removeTotals_exact by done.
  apply IH; [by apply mapDelete_sorted|]. pose proof (sumMap_delete bytesE k m Hs). lia.
Qed.

Lemma mapOf_Forall {A} (P : gostring * A -> Prop) l : forall m, Forall P l -> Forall P m -> Forall P (mapOf l m).
Proof.
  induction l as [|[k v] l IH]; intros m Hl Hm; [done|]. apply Forall_cons in Hl as [Hv Hl].
  apply IH; [done|]. by apply mapInsert_Forall.
Qed.

Lemma patch_unfold m change :
  patchProperties m change = removeKeys (mapOf (elems (pc_Set change)) m) (elems (pc_Remove change)).
Proof. done. Qed.

Lemma patch_Forall (P : gostring * persistedValue -> Prop) m change :
  Forall P m -> Forall P (elems (pc_Set change)) -> Forall P (patchProperties m change).
Proof. intros Hm Hset. rewrite patch_unfold. by apply removeKeys_Forall, mapOf_Forall. Qed.

Lemma patch_sorted m change : keysSorted m -> keysSorted (patchProperties m change).
Proof. intros Hs. rewrite patch_unfold. by apply removeKeys_sorted, mapOf_sorted. Qed.

(** The patched totals are the totals of the patched map, and the patch is refused
    exactly when its own values or the patched map exceed the limits. *)
Lemma adjust_exact m change :
  keysSorted m -> propsOKP m = true -> wfStored (elems (pc_Set change)) ->
  if propsOKP (elems (pc_Set change)) && limitsOK (patchProperties m change)
  then adjustPropertyTotals (exactTotals m) change = inl (exactTotals (patchProperties m change)) /\
       propsOKP (patchProperties m change) = true
  else exists err, adjustPropertyTotals (exactTotals m) change = inr err.
Proof.
  intros Hs Hm Hset. unfold adjustPropertyTotals. pose proof (decodePropertyMap_exact _ Hset) as Hd.
  destruct (propsOKP (elems (pc_Set change))) eqn:Ep; [|by destruct Hd as [err ->]; eexists].
  destruct Hd as [out ->]. cbn [andb]. pose proof limits_uint64 as [HE HB].
  apply propsOKP_split in Ep as (Hu' & Ho' & He' & Hb'). apply propsOKP_split in Hm as (Hu & Ho & He & Hb).
  rewrite setAll_exact by (done || lia). pose proof (sumMap_mapOf bytesE (elems (pc_Set change)) m Hs).
  rewrite removeAll_exact, <- patch_unfold by (by apply mapOf_sorted || lia).
  cbv zeta. change (pt_elements (exactTotals ?p)) with (Z.of_N (sumMap elementsE p)). change (pt_bytes (exactTotals ?p)) with (sumMap bytesE p).
  assert (Hp : propsOKP (patchProperties m change) = limitsOK (patchProperties m change)).
  { unfold propsOKP. rewrite (proj2 (okP_entries 0 (patchProperties m change))); [done|]. by split; apply patch_Forall. }
  rewrite Hp. unfold limitsOK. rewrite !N.leb_antisym, <- negb_orb.
  replace (Z.of_N maxValueElements <? Z.of_N (sumMap elementsE (patchProperties m change)))%Z
    with (maxValueElements <? sumMap elementsE (patchProperties m change)) by (case_cmp; lia || done).
  destruct (_ || _); cbn [negb]; [|done]. eexists; reflexivity.
Qed.

(** * Patches built from an entity

    The limits a patch is checked against when it is built, and the patch applied to the
    entity's old stored map. *)

Import String.StringSyntax.

(** ** Limits of normalised properties *)

Definition limitEntry (depth : nat) (kv : gostring * value) : walking unit :=
  if negb (utf8Valid kv.1) then wfail (ErrNew "map key contains invalid UTF-8"%string)
  else addBytes (nlen kv.1) ;;; validateNormalizedPropertyValueLimits kv.2 depth.

Lemma performs_limitEntry depth kv ok e b :
  performs (validateNormalizedPropertyValueLimits kv.2 depth) ok e b tt ->
  performs (limitEntry depth kv) (utf8Valid kv.1 && ok) e (nlen kv.1 + b) tt.
Proof. intros Hv. unfold limitEntry. performs_tac. Qed.

Lemma normalizedLimits_performs v : typedV v -> forall depth,
  performs (validateNormalizedPropertyValueLimits v depth) (okV depth v) (elementsV v) (bytesV v) tt.
Proof.
  induction v as [| | | | | |s|b|l|l Hl|m Hm| | | |] using value_nested_ind; intros Ht depth; inversion Ht; subst;
    cbn [validateNormalizedPropertyValueLimits okV elementsV bytesV]; apply performs_depth; try (performs_tac; fail).
  - eapply performs_eq; [apply performs_guard, performs_addBytes|by rewrite negb_involutive, andb_true_r|done..].
  - apply performs_addBytes.
  - apply performs_implied.
    + intros Hc%N.ltb_lt. unfold maxValueBytes in *.
      change (64 * 2 ^ 20 / 4) with 16777216 in Hc. change (64 * 2 ^ 20) with 67108864. lia.
    + eapply performs_eq; [eapply performs_bind; [apply finite_items|apply performs_addBytes]|..]; rewrite ?andb_true_r; done.
  - assert (Hall := performs_all (fun item => validateNormalizedPropertyValueLimits item (S depth)) (okV (S depth)) elementsV bytesV (elems l)).
    rewrite !optMap_elems. eapply performs_eq; [eapply performs_bind; [apply performs_add|]|..]; cycle 1; [done..|].
    assert (Hl' := Forall_mp _ _ _ Hl H0). destruct l; apply Hall; eapply Forall_impl; [exact Hl'|auto|exact Hl'|auto].
  - assert (Hall := performs_all (limitEntry (S depth)) (fun kv => utf8Valid kv.1 && okV (S depth) kv.2)
                      (fun kv => elementsV kv.2) (fun kv => nlen kv.1 + bytesV kv.2) (elems m)).
    rewrite !optMap_elems. eapply performs_eq; [eapply performs_bind; [apply performs_add|]|..]; cycle 1; [done..|].
    assert (Hm' := Forall_mp _ _ _ Hm H0). destruct m; apply Hall; eapply Forall_impl; [exact Hm'|auto using performs_limitEntry|exact Hm'|auto using performs_limitEntry].
Qed.

Lemma performs_validateProperty kv : typedV kv.2 ->
  performs (validateProperty kv) (utf8Valid kv.1 && okV 0 kv.2) (elementsV kv.2) (nlen kv.1 + bytesV kv.2) tt.
Proof.
  intros Ht. unfold validateProperty. eapply performs_eq; [apply performs_guard; eapply performs_bind;
    [apply performs_wrap, performs_addBytes|apply performs_wrap, normalizedLimits_performs; done]|..];
    rewrite ?negb_involutive, ?N.add_0_l; done.
Qed.

(** The check without a copy accepts what normalisation accepts. *)
Lemma mapLimits_exact p : Forall (fun kv => typedV kv.2) (PAll p) ->
  validateNormalizedPropertyMapLimits p = None <-> propsOK (PAll p) = true.
Proof.
  intros Ht. unfold validateNormalizedPropertyMapLimits.
  rewrite (runWalk_spec _ (forallb id (map (fun kv => utf8Valid kv.1 && okV 0 kv.2) (PAll p)))
    (nlen (PAll p) + nsum (map (fun kv => elementsV kv.2) (PAll p))) (nsum (map (fun kv => nlen kv.1 + bytesV kv.2) (PAll p)))).
  - unfold withinP, propsOK. rewrite !andb_true_iff, !N.leb_le. tauto.
  - eapply performs_eq; [eapply performs_bind; [apply performs_add|apply performs_all; eapply Forall_impl; [exact Ht|apply performs_validateProperty]]|..];
      try done. unfold PLen, PAll, nlen. by rewrite length_map.
Qed.

(** ** Maps with the same lookups *)

Lemma keysSorted_ext {A} (m1 m2 : list (gostring * A)) :
  keysSorted m1 -> keysSorted m2 -> (forall k, mapLookup k m1 = mapLookup k m2) -> m1 = m2.
Proof.
  intros H1 H2 He. pose proof (keysSorted_nodup m1 H1) as N1. pose proof (keysSorted_nodup m2 H2) as N2.
  apply keysSorted_unique; [done..|]. apply NoDup_Permutation; [by eapply NoDup_fmap_1|by eapply NoDup_fmap_1|].
  intros [k v]. split; intros Hin; apply mapLookup_elem; (rewrite He || rewrite <- He); by apply elem_mapLookup.
Qed.

Lemma mapLookup_mapOf_acc {A} (l : list (gostring * A)) k : forall m, NoDup l.*1 ->
  mapLookup k (mapOf l m) = match mapLookup k l with Some v => Some v | None => mapLookup k m end.
Proof.
  induction l as [|[k' v] l IH]; intros m Hnd; [done|]. rewrite fmap_cons in Hnd. apply NoDup_cons in Hnd as [Hn Hnd].
  change (mapOf ((k', v) :: l) m) with (mapOf l (mapInsert k' v m)). rewrite IH by done. cbn [mapLookup fst] in *.
  case_bool_decide as E; [subst; by rewrite (mapLookup_notin k l), mapLookup_insert|].
  by rewrite mapLookup_insert_ne by congruence.
Qed.

Lemma removeKeys_lookup {A} k keys : forall m : list (gostring * A),
  mapLookup k (removeKeys m keys) = if bool_decide (k ∈ keys) then None else mapLookup k m.
Proof.
  induction keys as [|k' keys IH]; intros m; [done|].
  change (removeKeys m (k' :: keys)) with (removeKeys (mapDelete k' m) keys). rewrite IH, mapDelete_lookup.
  repeat case_bool_decide; set_solver.
Qed.

(** ** The changes a patch carries *)

Definition found (p : Properties) (keys : list gostring) : storedMap :=
  omap (fun k => (fun v => (k, toP v)) <$> Lookup p k) keys.
Definition missing (p : Properties) (keys : list gostring) : list gostring :=
  omap (fun k => match Lookup p k with None => Some k | Some _ => None end) keys.

Lemma buildChanges_exact p keys : forall seen set remove,
  Forall (fun k => utf8Valid k = true) keys -> NoDup keys -> Forall (fun k => k ∉ seen) keys ->
  (forall k v, Lookup p k = Some v -> encodeValue v = inl (toP v)) ->
  buildChanges p keys seen set remove = inl (mapOf (found p keys) set, remove ++ missing p keys).
Proof.
  induction keys as [|k keys IH]; intros seen set remove Hu Hnd Hs He; [cbn; by rewrite app_nil_r|].
  apply Forall_cons in Hu as [Hk Hu]. apply NoDup_cons in Hnd as [Hn Hnd]. apply Forall_cons in Hs as [Hks Hs].
  assert (Hs' : Forall (fun x => x ∉ {[k]} ∪ seen) keys).
  { apply Forall_forall. rewrite Forall_forall in Hs. intros x Hx. specialize (Hs x Hx).
    assert (x <> k) by (by intros ->). set_solver. }
  cbn [buildChanges]. unfold ValidatePropertyKey. rewrite Hk, bool_decide_false by done. cbn [negb].
  unfold found, missing. cbn [omap list_omap]. destruct (Lookup p k) as [v|] eqn:E; cbn [fmap option_fmap option_map].
  - rewrite (He k v E), IH by done. done.
  - rewrite IH by done. by rewrite <- app_assoc.
Qed.

Lemma found_elem p keys k w : (k, w) ∈ found p keys <-> k ∈ keys /\ exists v, Lookup p k = Some v /\ w = toP v.
Proof.
  unfold found. rewrite list_elem_of_omap. split.
  - intros (k' & Hk & E). destruct (Lookup p k') as [v|] eqn:El; [|done]. injection E as -> <-. eauto.
  - intros (Hk & v & El & ->). exists k. by rewrite El.
Qed.

Lemma found_keys_in p keys k : k ∈ (found p keys).*1 -> k ∈ keys.
Proof. intros (kv & -> & Hin)%list_elem_of_fmap. destruct kv as [k w]. by apply found_elem in Hin as [? _]. Qed.

Lemma found_keys p keys : NoDup keys -> NoDup (found p keys).*1.
Proof.
  induction keys as [|k keys IH]; [constructor|]. intros [Hn Hnd]%NoDup_cons. unfold found. cbn [omap list_omap].
  fold (found p keys). destruct (Lookup p k) as [v|]; cbn [fmap option_fmap option_map]; [|by apply IH].
  apply NoDup_cons. split; [|by apply IH]. intros Hin. by apply Hn, (found_keys_in p).
Qed.

Lemma found_lookup p keys k : NoDup keys ->
  mapLookup k (found p keys) = if bool_decide (k ∈ keys) then toP <$> Lookup p k else None.
Proof.
  intros Hnd. destruct (mapLookup k (found p keys)) as [w|] eqn:E.
  - apply mapLookup_elem, found_elem in E as (Hk & v & -> & ->). by rewrite bool_decide_true.
  - case_bool_decide as Hk; [|done]. destruct (Lookup p k) as [v|] eqn:El; [|done].
    assert (Hin : (k, toP v) ∈ found p keys) by (apply found_elem; eauto).
    apply elem_mapLookup in Hin; [congruence|by apply found_keys].
Qed.

Lemma missing_elem p keys k : k ∈ missing p keys <-> k ∈ keys /\ Lookup p k = None.
Proof.
  unfold missing. rewrite list_elem_of_omap. split.
  - intros (k' & Hk & E). destruct (Lookup p k') as [v|] eqn:El; [done|]. by injection E as ->.
  - intros [Hk E]. exists k. by rewrite E.
Qed.

(** ** The patch applied *)

Definition storedOf (p : Properties) : storedMap := map (onEntry toP) (PAll p).

(** An entity whose values are normal and within the limits. *)
Definition storable (p : Properties) : Prop :=
  wfProps p /\ Forall (fun kv => normalAt 0 kv.2) (PAll p) /\ propsOK (PAll p) = true.

Lemma storedOf_sorted p : storable p -> keysSorted (storedOf p).
Proof. intros [[Hs _] _]. unfold storedOf, keysSorted. rewrite keys_onEntry. by apply PAll_sorted. Qed.

Lemma storedOf_encode p : storable p -> encodePropertyStorage p = inl (storedOf p).
Proof.
  intros Hp. pose proof (storedOf_sorted p Hp) as Hs. destruct Hp as (_ & Hn & Hok).
  assert (Hw : Forall (fun kv => wfV kv.2) (PAll p)) by (eapply Forall_impl; [exact Hn|]; by intros kv []).
  pose proof (encodePropertyStorage_exact p Hw) as H. rewrite Hok in H. rewrite H. f_equal.
  rewrite <- (mapOf_id (storedOf p)) by done. f_equal. unfold storedOf, onEntry. apply map_ext_Forall.
  eapply Forall_impl; [exact Hn|]. intros kv [_ _ _ E]. by rewrite E.
Qed.

Lemma storedOf_lookup p k : storable p -> mapLookup k (storedOf p) = toP <$> Lookup p k.
Proof.
  intros [[Hs _] _]. rewrite Lookup_entries by done. rewrite <- PAll_lookup. unfold storedOf.
  induction (PAll p) as [|[k' v] l IH]; [done|]. cbn. case_bool_decide; [done|exact IH].
Qed.

Lemma normal_of_lookup p k v : storable p -> Lookup p k = Some v -> normalAt 0 v.
Proof.
  intros ((Hs & _) & Hn & _) El. rewrite Lookup_entries in El by done. rewrite <- PAll_lookup in El.
  apply mapLookup_elem in El. rewrite Forall_forall in Hn. by apply (Hn (k, v)).
Qed.

Lemma storedOf_ok p : storable p -> propsOKP (storedOf p) = true.
Proof.
  intros (_ & Hn & Hok). rewrite <- Hok. unfold propsOKP, propsOK, limitsOK. rewrite sumMap_elements, <- andb_assoc.
  unfold sumMap, bytesE, storedOf. rewrite nlen_map.
  assert (Ht : forall kv, kv ∈ PAll p -> elementsP (toP kv.2) = elementsV kv.2 /\ bytesP (toP kv.2) = bytesV kv.2 /\ forall d, okP d (toP kv.2) = okV d kv.2).
  { intros kv Hin. rewrite Forall_forall in Hn. destruct (Hn kv Hin) as [Hw Hty _ _]. by apply toP_totals. }
  rewrite (map_onEntry_ext (fun kv => utf8Valid kv.1 && okP 0 kv.2) (fun kv => utf8Valid kv.1 && okV 0 kv.2)),
    (map_onEntry_ext (fun kv => elementsP kv.2) (fun kv => elementsV kv.2)),
    (map_onEntry_ext (fun kv => nlen kv.1 + bytesP kv.2) (fun kv => nlen kv.1 + bytesV kv.2)); [done|..];
    apply Forall_forall; intros kv Hin; cbn; destruct (Ht kv Hin) as (E1 & E2 & E3); by rewrite ?E1, ?E2, ?E3.
Qed.

Lemma toP_wf v : typedV v -> wfV v -> wfP (toP v).
Proof.
  induction v as [| | | | | | | | |l Hl|m Hm| | | |] using value_nested_ind; intros Ht Hw; inversion Ht; inversion Hw; subst;
    cbn [toP]; try (by constructor).
  - apply wfP_list. cbn [elems default from_option id]. rewrite optMap_elems. apply List.Forall_map. revert Hl H0 H2. rewrite !Forall_forall. auto.
  - apply wfP_map; cbn [elems default from_option id]; rewrite optMap_elems; [apply keysSorted_nodup, mapOf_sorted; constructor|].
    apply Forall_mapOf; [done|]. cbn. revert Hm H0 H3. rewrite !Forall_forall. auto.
Qed.

Lemma toP_normal_wf v : normalAt 0 v -> wfP (toP v).
Proof. intros [Hw Ht _ _]. by apply toP_wf. Qed.

Lemma sumMap_submseteq {A} (f : gostring * A -> N) l m : l ⊆+ m -> sumMap f l <= sumMap f m.
Proof.
  intros [k Hp]%submseteq_Permutation. unfold sumMap. rewrite Hp, map_app, nsum_app. lia.
Qed.

(** Part of a map within the limits is within the limits. *)
Lemma propsOKP_submseteq l m : l ⊆+ m -> propsOKP m = true -> propsOKP l = true.
Proof.
  intros Hsub. rewrite !propsOKP_split. intros (Hu & Ho & He & Hb).
  pose proof (sumMap_submseteq elementsE _ _ Hsub). pose proof (sumMap_submseteq bytesE _ _ Hsub).
  assert (Hin : forall kv, kv ∈ l -> kv ∈ m) by (intros kv Hkv; by eapply elem_of_submseteq).
  rewrite Forall_forall in Hu. rewrite Forall_forall in Ho. split_and!; try lia; apply Forall_forall; auto.
Qed.

Lemma found_submseteq p keys : storable p -> NoDup keys -> mapOf (found p keys) [] ⊆+ storedOf p.
Proof.
  intros Hp Hnd. pose proof (found_keys p keys Hnd) as Hk. rewrite mapOf_perm by (by rewrite app_nil_r). rewrite app_nil_r.
  apply NoDup_submseteq; [by eapply NoDup_fmap_1|]. intros [k w] (_ & v & El & ->)%found_elem.
  apply mapLookup_elem. by rewrite storedOf_lookup, El.
Qed.

Lemma found_wf p keys : storable p -> NoDup keys -> wfStored (mapOf (found p keys) []).
Proof.
  intros Hp Hnd. split; [apply mapOf_sorted; constructor|]. apply mapOf_Forall; [|constructor].
  apply Forall_forall. intros [k w] (_ & v & El & ->)%found_elem. cbn. apply toP_normal_wf. by eapply normal_of_lookup.
Qed.

Definition builtChange (id : N) (keys : list gostring) (after : Properties) : persistedPropertyChange :=
  mkPChange id (Some (mapOf (found after keys) [])) (appendNil (Some (sortKeys (missing after keys)))).

Lemma build_exact id keys after :
  ValidateEntityID id = None -> storable after -> Forall (fun k => utf8Valid k = true) keys -> NoDup keys ->
  buildPersistedPropertyChange id keys after = inl (builtChange id keys after).
Proof.
  intros Hid Hp Hu Hnd. unfold buildPersistedPropertyChange. rewrite Hid. pose proof Hp as (_ & Hn & Hok).
  rewrite (proj2 (mapLimits_exact after ltac:(eapply Forall_impl; [exact Hn|]; by intros kv []))) by done.
  rewrite buildChanges_exact; [done..|by apply Forall_forall; set_solver|].
  intros k v El. eapply persist_normal. by eapply normal_of_lookup.
Qed.

Lemma patch_exact eid keys before after :
  storable before -> storable after -> NoDup keys -> (forall k, k ∉ keys -> Lookup before k = Lookup after k) ->
  patchProperties (storedOf before) (builtChange eid keys after) = storedOf after.
Proof.
  intros Hb Ha Hnd Hcov. apply keysSorted_ext; [by apply patch_sorted, storedOf_sorted|by apply storedOf_sorted|].
  intros k. rewrite patch_unfold, removeKeys_lookup. cbn [builtChange pc_Set pc_Remove]. rewrite appendNil_elems. cbn [elems default from_option id].
  rewrite mapLookup_mapOf_acc, mapLookup_mapOf, found_lookup, !storedOf_lookup by (done || by apply found_keys || (apply keysSorted_nodup, mapOf_sorted; constructor)).
  assert (Hm : k ∈ sortKeys (missing after keys) <-> k ∈ keys /\ Lookup after k = None) by (unfold sortKeys; rewrite (merge_sort_Permutation strLeR); apply missing_elem).
  destruct (decide (k ∈ keys)) as [Hk|Hk].
  - rewrite (bool_decide_true (k ∈ keys)) by done. destruct (Lookup after k) as [v|] eqn:El; cbn [fmap option_fmap option_map].
    + rewrite bool_decide_false; [done|]. by intros [_ ?]%Hm.
    + by rewrite bool_decide_true by (by apply Hm).
  - rewrite (bool_decide_false (k ∈ keys)), bool_decide_false by (done || by intros [? _]%Hm).
    by rewrite Hcov.
Qed.
