(* ===== verification/WalAccumulator.v ===== *)
(** * The state recovery rebuilds (internal/store/recovery.go)

    Recovery starts from a snapshot and applies the deltas of the write-ahead log to an
    accumulator: the entities by identifier, the number of edge ends at each node, the
    text records, the application metadata and the streams, with the property totals
    cached for patches (property_delta.go).

    The accumulator is dropped by every caller when an operation fails, so a failing
    operation is its error alone. Contexts are never cancelled. [slices.Clone] copies the
    bytes, a value here. *)
From S2P Require Import Prelude.
From S2P Require Import GoBytes.
From S2P Require Import BinaryCodec.
From S2P Require Import BinaryValue.
From S2P Require Import BinaryRecords.
From S2P Require Import GoMaps.
From S2P Require Import Values.
From S2P Require Import Properties.
From S2P Require Import PageRecords.
From S2P Require Import Streams.
From S2P Require Import StreamPersist.
From S2P Require Import PropertyDelta.
From Stdlib Require Strings.String.
Import String.StringSyntax.

Declare Scope wal_scope.
Delimit Scope wal_scope with wal.
Notation "'let!' x := m 'in' k" := (match m with inl x => k | inr err => inr err end)
  (at level 200, x pattern, k at level 200) : wal_scope.
Notation "'check!' e ; k" := (match e with Some err => inr err | None => k end) (at level 200, k at level 200) : wal_scope.
Notation "'reject!' c 'with' s ; k" := (if c then inr (ErrNew s%string) else k) (at level 200, k at level 200) : wal_scope.
Open Scope wal_scope.

(** [fmt.Errorf] with [%w]. *)
Definition wrapped (context : string) {A} (r : A + error) : A + error :=
  match r with inl x => inl x | inr err => inr (ErrWrap (str context) err) end.
Definition wrapErr (context : string) (e : option error) : option error := option_map (ErrWrap (str context)) e.
Arguments wrapped context%_string {A} r.
Arguments wrapErr context%_string e.

Definition maxAppMetadataKeyBytes : N := 2 ^ 16 - 1.

Definition ValidateFTSText (text : gostring) : option error :=
  if negb (utf8Valid text) then Some (ErrNew "FTS text must contain valid UTF-8"%string) else None.

Definition hexChar (char : byte) : bool :=
  (byteN x30 <=? byteN char) && (byteN char <=? byteN x39) || (byteN x61 <=? byteN char) && (byteN char <=? byteN x66).
Definition validateDatabaseID (id : gostring) : option error :=
  if negb (nlen id =? 32) then Some (ErrNew "invalid database ID"%string)
  else if forallb hexChar id then None else Some (ErrNew "invalid database ID"%string).

Record walAccumulator := mkAcc {
  acc_state : persistedState;
  acc_streams : StreamStore;
  acc_metadata : gmap gostring persistedAppMetadata;
  acc_nodes : gmap N persistedNode;
  acc_edges : gmap N persistedEdge;
  acc_fts : gmap N persistedFTS;
  acc_incident : gmap N N;
  nodePropertyTotals : gmap N propertyTotals;
  edgePropertyTotals : gmap N propertyTotals }.

(** [state.NextNodeID = n; state.NextEdgeID = e] *)
Definition withNext (st : persistedState) (n e : N) : persistedState :=
  mkPState (st_DatabaseID st) (st_VectorDimensions st) (st_CommitID st) n e (st_AppMetadata st) (st_Nodes st) (st_Edges st)
    (st_FTS st) (st_NodeIndexes st) (st_EdgeIndexes st) (st_Streams st).
Definition withCommit (st : persistedState) (commit : N) : persistedState :=
  mkPState (st_DatabaseID st) (st_VectorDimensions st) commit (st_NextNodeID st) (st_NextEdgeID st) (st_AppMetadata st) (st_Nodes st) (st_Edges st)
    (st_FTS st) (st_NodeIndexes st) (st_EdgeIndexes st) (st_Streams st).
Definition withIndexes (st : persistedState) (nodes edges : slice persistedPropertyIndexDefinition) : persistedState :=
  mkPState (st_DatabaseID st) (st_VectorDimensions st) (st_CommitID st) (st_NextNodeID st) (st_NextEdgeID st) (st_AppMetadata st) (st_Nodes st) (st_Edges st)
    (st_FTS st) nodes edges (st_Streams st).

(** [m[id]++] and [m[id]--] on a map of [uint64]. *)
Definition increment (m : gmap N N) (id : N) : gmap N N := <[id := u64 (default 0 (m !! id) + 1)]> m.
Definition decrement (m : gmap N N) (id : N) : gmap N N := <[id := sub64 (default 0 (m !! id)) 1]> m.

(** ** From a snapshot *)

Definition recoverMetadata (metadata : gmap gostring persistedAppMetadata) (entry : persistedAppMetadata) :
    gmap gostring persistedAppMetadata + error :=
  let key := elems (pm_Key entry) in
  reject! (nlen key =? 0) || (maxAppMetadataKeyBytes <? nlen key) with "invalid stored application metadata key length";
  reject! bool_decide (is_Some (metadata !! key)) with "duplicate stored application metadata key";
  inl (<[key := entry]> metadata).

Definition recoverNode (st : gmap N persistedNode * N) (node : persistedNode) : gmap N persistedNode * N + error :=
  let '(nodes, maxNodeID) := st in
  check! wrapErr "stored node" (ValidateEntityID (pn_ID node));
  check! wrapErr "stored node labels" (ValidateCreateLabels (pn_Labels node));
  reject! bool_decide (is_Some (nodes !! pn_ID node)) with "duplicate stored node id";
  let! _ := wrapped "decode node properties" (decodePropertyMap (elems (pn_Properties node))) in
  inl (<[pn_ID node := node]> nodes, N.max maxNodeID (pn_ID node)).

Definition recoverEdge (nodes : gmap N persistedNode) (st : gmap N persistedEdge * gmap N N * N) (edge : persistedEdge) :
    gmap N persistedEdge * gmap N N * N + error :=
  let '(edges, incident, maxEdgeID) := st in
  check! wrapErr "stored edge" (ValidateEntityID (pe_ID edge));
  check! wrapErr "stored edge source" (ValidateEntityID (pe_SourceID edge));
  check! wrapErr "stored edge target" (ValidateEntityID (pe_TargetID edge));
  check! wrapErr "stored edge type" (ValidateEdgeType (pe_Type edge));
  reject! bool_decide (is_Some (edges !! pe_ID edge)) with "duplicate stored edge id";
  reject! negb (bool_decide (is_Some (nodes !! pe_SourceID edge))) with "stored edge references missing node";
  reject! negb (bool_decide (is_Some (nodes !! pe_TargetID edge))) with "stored edge references missing node";
  let! _ := wrapped "decode edge properties" (decodePropertyMap (elems (pe_Properties edge))) in
  inl (<[pe_ID edge := edge]> edges, increment (increment incident (pe_SourceID edge)) (pe_TargetID edge),
       N.max maxEdgeID (pe_ID edge)).

Definition recoverFTS (nodes : gmap N persistedNode) (fts : gmap N persistedFTS) (record : persistedFTS) : gmap N persistedFTS + error :=
  check! wrapErr "stored FTS node" (ValidateEntityID (pf_NodeID record));
  reject! negb (bool_decide (is_Some (nodes !! pf_NodeID record))) with "stored FTS record references missing node";
  check! wrapErr "stored FTS record" (ValidateFTSText (pf_Text record));
  reject! bool_decide (is_Some (fts !! pf_NodeID record)) with "duplicate stored FTS node id";
  inl (<[pf_NodeID record := record]> fts).

(** [PropertyIndexDefinition], a map key. *)
Definition indexKey (d : persistedPropertyIndexDefinition) : gostring * gostring := (pi_Scope d, pi_Property d).
Definition emptyDefinition (d : persistedPropertyIndexDefinition) : bool :=
  bool_decide (pi_Scope d = []) || bool_decide (pi_Property d = []).

Definition seeIndex (seen : gset (gostring * gostring)) (stored : persistedPropertyIndexDefinition) : gset (gostring * gostring) + error :=
  reject! emptyDefinition stored with "stored property index has an empty definition";
  reject! bool_decide (indexKey stored ∈ seen) with "duplicate stored property index";
  inl ({[indexKey stored]} ∪ seen).
Definition validatePersistedPropertyIndexes (indexes : slice persistedPropertyIndexDefinition) : option error :=
  match foldError seeIndex ∅ (elems indexes) with inl _ => None | inr err => Some err end.

(** The high-water mark after the stored entities. *)
Definition nextAfter (next maxID : N) : N + error :=
  if next <=? maxID then reject! maxID =? max_uint64 with "id space exhausted"; inl (u64 (maxID + 1)) else inl next.

Definition newWALAccumulator (state : persistedState) : walAccumulator + error :=
  check! (if bool_decide (st_DatabaseID state = []) then None else validateDatabaseID (st_DatabaseID state));
  reject! st_CommitID state =? max_uint64 with "commit ID space exhausted";
  let state := withNext state (if st_NextNodeID state =? 0 then 1 else st_NextNodeID state)
                              (if st_NextEdgeID state =? 0 then 1 else st_NextEdgeID state) in
  check! ValidateIDHighWater (st_NextNodeID state);
  check! ValidateIDHighWater (st_NextEdgeID state);
  let! metadata := foldError recoverMetadata ∅ (elems (st_AppMetadata state)) in
  let! (nodes, maxNodeID) := foldError recoverNode (∅, 0) (elems (st_Nodes state)) in
  let! (edges, incident, maxEdgeID) := foldError (recoverEdge nodes) (∅, ∅, 0) (elems (st_Edges state)) in
  check! validatePersistedPropertyIndexes (st_NodeIndexes state);
  check! validatePersistedPropertyIndexes (st_EdgeIndexes state);
  let! fts := foldError (recoverFTS nodes) ∅ (elems (st_FTS state)) in
  let! streams := wrapped "decode streams" (decodePersistedStreams (st_Streams state)) in
  let! nextNodeID := nextAfter (st_NextNodeID state) maxNodeID in
  let! nextEdgeID := nextAfter (st_NextEdgeID state) maxEdgeID in
  inl (mkAcc (withNext state nextNodeID nextEdgeID) streams metadata nodes edges fts incident ∅ ∅).

(** ** Applying a delta *)

Definition seeID (seen : gset N) (id : N) : gset N + error :=
  check! ValidateEntityID id;
  reject! bool_decide (id ∈ seen) with "duplicate ID";
  inl ({[id]} ∪ seen).
Definition validateUniqueDeltaIDs (deletes upserts : list N) : option error :=
  match foldError seeID ∅ (deletes ++ upserts) with inl _ => None | inr err => Some err end.

Definition seeMetadata (seen : gset gostring) (change : persistedAppMetadataChange) : gset gostring + error :=
  let key := elems (pmc_Key change) in
  reject! (nlen key =? 0) || (maxAppMetadataKeyBytes <? nlen key) || pmc_Delete change && negb (slen (pmc_Value change) =? 0)
    with "invalid WAL application metadata change";
  reject! bool_decide (key ∈ seen) with "duplicate WAL application metadata change";
  inl ({[key]} ∪ seen).

Definition applyMetadata (metadata : gmap gostring persistedAppMetadata) (change : persistedAppMetadataChange) :
    gmap gostring persistedAppMetadata :=
  let key := elems (pmc_Key change) in
  if pmc_Delete change then delete key metadata
  else <[key := mkPMeta (pmc_Key change) (pmc_Value change)]> metadata.

Definition dropIndex (active : gset (gostring * gostring)) (d : persistedPropertyIndexDefinition) : gset (gostring * gostring) + error :=
  reject! emptyDefinition d with "empty definition";
  reject! negb (bool_decide (indexKey d ∈ active)) with "drop missing index";
  inl (active ∖ {[indexKey d]}).
Definition createIndex (active : gset (gostring * gostring)) (d : persistedPropertyIndexDefinition) : gset (gostring * gostring) + error :=
  reject! emptyDefinition d with "empty definition";
  reject! bool_decide (indexKey d ∈ active) with "create existing index";
  inl ({[indexKey d]} ∪ active).

(** By scope, then by property. *)
Definition indexLe (a b : persistedPropertyIndexDefinition) : Prop :=
  if decide (pi_Scope a = pi_Scope b) then strLeR (pi_Property a) (pi_Property b) else strLeR (pi_Scope a) (pi_Scope b).
#[global] Instance indexLe_dec : RelDecision indexLe.
Proof. intros a b. unfold indexLe. destruct (decide (pi_Scope a = pi_Scope b)); apply _. Defined.

(** [append(old[:0], l...)] *)
Definition refill {A} (old : slice A) (l : list A) : slice A :=
  match l with [] => match old with None => None | Some _ => Some [] end | _ => Some l end.

Definition applyPropertyIndexDelta (definitions creates drops : slice persistedPropertyIndexDefinition) :
    slice persistedPropertyIndexDefinition + error :=
  let active := list_to_set (map indexKey (elems definitions)) in
  let! active := foldError dropIndex active (elems drops) in
  let! active := foldError createIndex active (elems creates) in
  inl (refill definitions (merge_sort indexLe (map (fun key => mkPIndex key.1 key.2) (elements active)))).

Definition validateUpsertNode (node : persistedNode) : option error :=
  match wrapErr "node labels" (ValidateCreateLabels (pn_Labels node)) with
  | Some err => Some err
  | None => match wrapped "decode node properties" (decodePropertyMap (elems (pn_Properties node))) with
            | inl _ => None | inr err => Some err end
  end.
Definition validateUpsertEdge (edge : persistedEdge) : option error :=
  match wrapErr "edge type" (ValidateEdgeType (pe_Type edge)) with
  | Some err => Some err
  | None => match wrapped "decode edge properties" (decodePropertyMap (elems (pe_Properties edge))) with
            | inl _ => None | inr err => Some err end
  end.
Definition validateEndpoints (edge : persistedEdge) : option error :=
  match ValidateEntityID (pe_SourceID edge) with
  | Some err => Some (ErrWrap (str "edge operations"%string) err)
  | None => wrapErr "edge operations" (ValidateEntityID (pe_TargetID edge))
  end.

Definition deleteEdge (acc : walAccumulator) (id : N) : walAccumulator + error :=
  match acc_edges acc !! id with
  | None => inr (ErrNew "delete missing edge"%string)
  | Some edge =>
      inl (mkAcc (acc_state acc) (acc_streams acc) (acc_metadata acc) (acc_nodes acc) (delete id (acc_edges acc)) (acc_fts acc)
             (decrement (decrement (acc_incident acc) (pe_SourceID edge)) (pe_TargetID edge))
             (nodePropertyTotals acc) (delete id (edgePropertyTotals acc)))
  end.

Definition upsertNode (acc : walAccumulator) (node : persistedNode) : walAccumulator :=
  mkAcc (acc_state acc) (acc_streams acc) (acc_metadata acc) (<[pn_ID node := node]> (acc_nodes acc)) (acc_edges acc)
    (acc_fts acc) (acc_incident acc) (delete (pn_ID node) (nodePropertyTotals acc)) (edgePropertyTotals acc).

(** [accumulator.nodes[id].ID] *)
Definition nodeIDOf (acc : walAccumulator) (id : N) : N := match acc_nodes acc !! id with Some n => pn_ID n | None => 0 end.

Definition upsertEdge (acc : walAccumulator) (edge : persistedEdge) : walAccumulator + error :=
  let incident := match acc_edges acc !! pe_ID edge with
                  | Some old => decrement (decrement (acc_incident acc) (pe_SourceID old)) (pe_TargetID old)
                  | None => acc_incident acc
                  end in
  reject! (nodeIDOf acc (pe_SourceID edge) =? 0) || (nodeIDOf acc (pe_TargetID edge) =? 0) with "edge references missing node";
  inl (mkAcc (acc_state acc) (acc_streams acc) (acc_metadata acc) (acc_nodes acc) (<[pe_ID edge := edge]> (acc_edges acc))
         (acc_fts acc) (increment (increment incident (pe_SourceID edge)) (pe_TargetID edge))
         (nodePropertyTotals acc) (delete (pe_ID edge) (edgePropertyTotals acc))).

Definition deleteNode (acc : walAccumulator) (id : N) : walAccumulator + error :=
  reject! negb (bool_decide (is_Some (acc_nodes acc !! id))) with "delete missing node";
  reject! negb (default 0 (acc_incident acc !! id) =? 0) with "delete node with incident edges";
  inl (mkAcc (acc_state acc) (acc_streams acc) (acc_metadata acc) (delete id (acc_nodes acc)) (acc_edges acc) (acc_fts acc)
         (acc_incident acc) (delete id (nodePropertyTotals acc)) (edgePropertyTotals acc)).

Definition setFTS (acc : walAccumulator) (fts : gmap N persistedFTS) : walAccumulator :=
  mkAcc (acc_state acc) (acc_streams acc) (acc_metadata acc) (acc_nodes acc) (acc_edges acc) fts (acc_incident acc)
    (nodePropertyTotals acc) (edgePropertyTotals acc).
Definition deleteFTS (acc : walAccumulator) (id : N) : walAccumulator + error :=
  reject! negb (bool_decide (is_Some (acc_fts acc !! id))) with "delete missing FTS record";
  inl (setFTS acc (delete id (acc_fts acc))).
Definition upsertFTS (acc : walAccumulator) (record : persistedFTS) : walAccumulator + error :=
  reject! negb (bool_decide (is_Some (acc_nodes acc !! pf_NodeID record))) with "FTS record references missing node";
  check! wrapErr "FTS record" (ValidateFTSText (pf_Text record));
  inl (setFTS acc (<[pf_NodeID record := record]> (acc_fts acc))).

(** Streams after the delta: a full image or operations, never both. *)
Definition applyStreams (acc : walAccumulator) (delta : persistedDelta) : StreamStore + error :=
  match dl_Streams delta with
  | Some streams => wrapped "decode streams" (decodePersistedStreams streams)
  | None => match elems (dl_StreamOperations delta) with
            | [] => inl (acc_streams acc)
            | operations => wrapped "apply stream operations" (ApplyPersistedStreamOperations (acc_streams acc) operations)
            end
  end.

(** The checks that read the delta alone, before anything changes. *)
Definition validateDelta (acc : walAccumulator) (delta : persistedDelta) : unit + error :=
  check! ValidateIDHighWater (dl_NextNodeID delta);
  check! ValidateIDHighWater (dl_NextEdgeID delta);
  reject! (dl_NextNodeID delta <? st_NextNodeID (acc_state acc)) || (dl_NextEdgeID delta <? st_NextEdgeID (acc_state acc))
    with "WAL ID high-water mark regressed";
  check! wrapErr "node operations" (validateUniqueDeltaIDs (elems (dl_DeleteNodes delta)) (map pn_ID (elems (dl_UpsertNodes delta))));
  check! wrapErr "edge operations" (validateUniqueDeltaIDs (elems (dl_DeleteEdges delta)) (map pe_ID (elems (dl_UpsertEdges delta))));
  check! firstError validateEndpoints (elems (dl_UpsertEdges delta));
  check! wrapErr "FTS operations" (validateUniqueDeltaIDs (elems (dl_DeleteFTS delta)) (map pf_NodeID (elems (dl_UpsertFTS delta))));
  reject! bool_decide (is_Some (dl_Streams delta)) && negb (slen (dl_StreamOperations delta) =? 0)
    with "WAL delta mixes full and incremental streams";
  let! _ := foldError seeMetadata ∅ (elems (dl_AppMetadata delta)) in
  inl tt.

(** The entities, in the order of the code: edges go before the nodes they hold. *)
Definition applyEntities (acc : walAccumulator) (delta : persistedDelta) : walAccumulator + error :=
  let! acc := foldError deleteEdge acc (elems (dl_DeleteEdges delta)) in
  let acc := foldl upsertNode acc (elems (dl_UpsertNodes delta)) in
  let! acc := foldError upsertEdge acc (elems (dl_UpsertEdges delta)) in
  let! acc := foldError deleteNode acc (elems (dl_DeleteNodes delta)) in
  let! acc := foldError deleteFTS acc (elems (dl_DeleteFTS delta)) in
  let! acc := foldError upsertFTS acc (elems (dl_UpsertFTS delta)) in
  reject! existsb (fun id => bool_decide (is_Some (acc_fts acc !! id))) (elems (dl_DeleteNodes delta)) with "delete node with FTS record";
  inl acc.

Definition apply (acc : walAccumulator) (delta : persistedDelta) : walAccumulator + error :=
  let! _ := validateDelta acc delta in
  let! streams := applyStreams acc delta in
  let metadata := foldl applyMetadata (acc_metadata acc) (elems (dl_AppMetadata delta)) in
  let! nodeIndexes := wrapped "node property index operations" (applyPropertyIndexDelta (st_NodeIndexes (acc_state acc))
                        (dl_CreateNodeIndexes delta) (dl_DropNodeIndexes delta)) in
  let! edgeIndexes := wrapped "edge property index operations" (applyPropertyIndexDelta (st_EdgeIndexes (acc_state acc))
                        (dl_CreateEdgeIndexes delta) (dl_DropEdgeIndexes delta)) in
  check! firstError validateUpsertNode (elems (dl_UpsertNodes delta));
  check! firstError validateUpsertEdge (elems (dl_UpsertEdges delta));
  let! acc' := applyEntities acc delta in
  reject! existsb (fun node => dl_NextNodeID delta <=? pn_ID node) (elems (dl_UpsertNodes delta)) with "node id reaches high-water mark";
  reject! existsb (fun edge => dl_NextEdgeID delta <=? pe_ID edge) (elems (dl_UpsertEdges delta)) with "edge id reaches high-water mark";
  inl (mkAcc (withCommit (withNext (withIndexes (acc_state acc) nodeIndexes edgeIndexes) (dl_NextNodeID delta) (dl_NextEdgeID delta)) (dl_CommitID delta))
         streams metadata (acc_nodes acc') (acc_edges acc') (acc_fts acc') (acc_incident acc')
         (nodePropertyTotals acc') (edgePropertyTotals acc')).

(** ** Applying property patches *)

Definition hasPropertyDelta (delta : persistedDelta) : bool :=
  negb (slen (dl_NodePropertyChanges delta) =? 0) || negb (slen (dl_EdgePropertyChanges delta) =? 0).

Record preparedPropertyMap := mkPrepared { nodeID : N; edgeID : N; pp_properties : storedMap; pp_totals : propertyTotals }.

Definition nodeProperties (acc : walAccumulator) (id : N) : storedMap :=
  match acc_nodes acc !! id with Some n => elems (pn_Properties n) | None => [] end.
Definition edgeProperties (acc : walAccumulator) (id : N) : storedMap :=
  match acc_edges acc !! id with Some e => elems (pe_Properties e) | None => [] end.
Definition edgeIDOf (acc : walAccumulator) (id : N) : N := match acc_edges acc !! id with Some e => pe_ID e | None => 0 end.

Definition withTotals (acc : walAccumulator) (nodes edges : gmap N propertyTotals) : walAccumulator :=
  mkAcc (acc_state acc) (acc_streams acc) (acc_metadata acc) (acc_nodes acc) (acc_edges acc) (acc_fts acc) (acc_incident acc) nodes edges.

(** The prepared maps, and the accumulator with the totals it cached. *)
Definition preparePropertyDelta (acc : walAccumulator) (delta : persistedDelta) : list preparedPropertyMap * walAccumulator + error :=
  check! wrapErr "node property changes" (validatePropertyChanges (elems (dl_NodePropertyChanges delta))
           (fun id => bool_decide (is_Some (acc_nodes acc !! id))));
  check! wrapErr "edge property changes" (validatePropertyChanges (elems (dl_EdgePropertyChanges delta))
           (fun id => bool_decide (is_Some (acc_edges acc !! id))));
  let! (nodes, nodeTotals) :=
    prepareChanges (str "node properties"%string) (elems (dl_DeleteNodes delta)) (map pn_ID (elems (dl_UpsertNodes delta)))
      (nodeIDOf acc) (nodeProperties acc) (nodePropertyTotals acc) (elems (dl_NodePropertyChanges delta)) in
  let! (edges, edgeTotals) :=
    prepareChanges (str "edge properties"%string) (elems (dl_DeleteEdges delta)) (map pe_ID (elems (dl_UpsertEdges delta)))
      (edgeIDOf acc) (edgeProperties acc) (edgePropertyTotals acc) (elems (dl_EdgePropertyChanges delta)) in
  inl (map (fun p => mkPrepared p.1 0 p.2.1 p.2.2) nodes ++ map (fun p => mkPrepared 0 p.1 p.2.1 p.2.2) edges,
       withTotals acc nodeTotals edgeTotals).

(** Storing a prepared map, after the rest of the delta. *)
Definition storePrepared (acc : walAccumulator) (change : preparedPropertyMap) : walAccumulator :=
  if negb (nodeID change =? 0) then
    let node := default (mkPNode 0 None None) (acc_nodes acc !! nodeID change) in
    mkAcc (acc_state acc) (acc_streams acc) (acc_metadata acc)
      (<[nodeID change := mkPNode (pn_ID node) (pn_Labels node) (Some (pp_properties change))]> (acc_nodes acc))
      (acc_edges acc) (acc_fts acc) (acc_incident acc)
      (<[nodeID change := pp_totals change]> (nodePropertyTotals acc)) (edgePropertyTotals acc)
  else
    let edge := default (mkPEdge 0 0 0 [] None) (acc_edges acc !! edgeID change) in
    mkAcc (acc_state acc) (acc_streams acc) (acc_metadata acc) (acc_nodes acc)
      (<[edgeID change := mkPEdge (pe_ID edge) (pe_SourceID edge) (pe_TargetID edge) (pe_Type edge) (Some (pp_properties change))]> (acc_edges acc))
      (acc_fts acc) (acc_incident acc)
      (nodePropertyTotals acc) (<[edgeID change := pp_totals change]> (edgePropertyTotals acc)).

Definition clearPropertyChanges (d : persistedDelta) : persistedDelta :=
  mkPDelta (dl_DatabaseID d) (dl_CommitID d) (dl_NextNodeID d) (dl_NextEdgeID d) (dl_UpsertNodes d) (dl_DeleteNodes d)
    (dl_UpsertEdges d) (dl_DeleteEdges d) (dl_UpsertFTS d) (dl_DeleteFTS d) (dl_AppMetadata d) (dl_Streams d)
    (dl_StreamOperations d) (dl_CreateNodeIndexes d) (dl_DropNodeIndexes d) (dl_CreateEdgeIndexes d) (dl_DropEdgeIndexes d) None None.

(** The property-delta case of the replay loop: prepare, apply the rest, store. *)
Definition applyPropertyDelta (acc : walAccumulator) (delta : persistedDelta) : walAccumulator + error :=
  let! (prepared, acc) := wrapped "invalid WAL property delta" (preparePropertyDelta acc delta) in
  let! acc := wrapped "invalid WAL property delta" (apply acc (clearPropertyChanges delta)) in
  inl (foldl storePrepared acc prepared).

(** ** The state at the end *)

Definition sortedMapKeys {A} (values : gmap N A) : list N := merge_sort N.le (map_to_list values).*1.
Definition valuesOf {A} (m : gmap N A) : list A := omap (fun id => m !! id) (sortedMapKeys m).

Definition accPersistedState (acc : walAccumulator) : persistedState + error :=
  let st := acc_state acc in
  let metadata := omap (fun key => acc_metadata acc !! key) (sortedNames (acc_metadata acc)) in
  let! streams := wrapped "encode streams" (buildPersistedStreams (acc_streams acc)) in
  inl (mkPState (st_DatabaseID st) (st_VectorDimensions st) (st_CommitID st) (st_NextNodeID st) (st_NextEdgeID st) (Some metadata)
         (refill (st_Nodes st) (valuesOf (acc_nodes acc))) (refill (st_Edges st) (valuesOf (acc_edges acc)))
         (refill (st_FTS st) (valuesOf (acc_fts acc))) (st_NodeIndexes st) (st_EdgeIndexes st) streams).

(** ** Work charged to the recovery budget *)

Definition persistedStreamsWork (streams : persistedStreams) : N :=
  foldl (fun work stream => addSaturated work (slen (ps_Records stream) + 1)) (slen (pss_Offsets streams)) (elems (pss_Streams streams)).

Definition persistedStateWork (state : persistedState) : N :=
  let work := slen (st_AppMetadata state) in
  let work := addSaturated work (slen (st_Nodes state)) in
  let work := addSaturated work (slen (st_Edges state)) in
  let work := addSaturated work (slen (st_FTS state)) in
  let work := addSaturated work (slen (st_NodeIndexes state)) in
  let work := addSaturated work (slen (st_EdgeIndexes state)) in
  addSaturated work (persistedStreamsWork (st_Streams state)).

Definition persistedDeltaWork (delta : persistedDelta) : N :=
  let work := slen (dl_UpsertNodes delta) + slen (dl_DeleteNodes delta) + slen (dl_UpsertEdges delta) + slen (dl_DeleteEdges delta) in
  let work := addSaturated work (slen (dl_UpsertFTS delta) + slen (dl_DeleteFTS delta) + slen (dl_AppMetadata delta)) in
  let work := addSaturated work (slen (dl_StreamOperations delta) + slen (dl_CreateNodeIndexes delta) + slen (dl_DropNodeIndexes delta)
                                 + slen (dl_CreateEdgeIndexes delta) + slen (dl_DropEdgeIndexes delta)) in
  match dl_Streams delta with
  | Some streams => addSaturated work (persistedStreamsWork streams)
  | None => work
  end.

(** One change of [propertyDeltaWork]: the first patch of an entity pays for its totals. *)
Definition changeWork (stored : N -> option storedMap) (st : N * gmap N propertyTotals) (change : persistedPropertyChange) :
    N * gmap N propertyTotals + error :=
  let '(work, cache) := st in
  let work := addSaturated work 1 in
  match stored (pc_ID change) with
  | None => inl (work, cache)
  | Some properties =>
      let! (work, cache) :=
        match cache !! pc_ID change with
        | Some _ => inl (work, cache)
        | None => let! (totals, amount) := derivePropertyTotals properties in
                  inl (addSaturated work amount, <[pc_ID change := totals]> cache)
        end in
      let work := addSaturated work (nlen properties) in
      let work := addSaturated work (slen (pc_Set change)) in
      let! work := foldError (fun work kv => let! amount := persistedValueStructureWork kv.2 0 in inl (addSaturated work amount))
                     work (elems (pc_Set change)) in
      inl (addSaturated work (slen (pc_Remove change)), cache)
  end.

Definition propertyDeltaWork (acc : walAccumulator) (delta : persistedDelta) : N * walAccumulator + error :=
  let! (work, nodes) := foldError (changeWork (fun id => elems ∘ pn_Properties <$> acc_nodes acc !! id))
                          (persistedDeltaWork delta, nodePropertyTotals acc) (elems (dl_NodePropertyChanges delta)) in
  let! (work, edges) := foldError (changeWork (fun id => elems ∘ pe_Properties <$> acc_edges acc !! id))
                          (work, edgePropertyTotals acc) (elems (dl_EdgePropertyChanges delta)) in
  inl (work, withTotals acc nodes edges).
