(* ===== verification/WalInvariant.v ===== *)
(** * The invariant of recovery

    Every accumulator recovery builds is a sound graph: entities are stored under their
    own identifiers, below the high-water marks, with valid labels, types and property
    maps; edges and text records refer to stored nodes; the incident counters are the
    degrees; and cached totals are the totals of the stored maps. *)
From S2P Require Import Prelude.
From S2P Require Import GoBytes.
From S2P Require Import BinaryCodec.
From S2P Require Import BinaryValue.
From S2P Require Import BinaryValueSpec.
From S2P Require Import BinaryRecords.
From S2P Require Import GoMaps.
From S2P Require Import Values.
From S2P Require Import Properties.
From S2P Require Import PageRecords.
From S2P Require Import Streams.
From S2P Require Import StreamPersist.
From S2P Require Import PropertyDelta.
From S2P Require Import PropertyPatch.
From S2P Require Import WalAccumulator.

(** ** Loops that stop at the first error *)

Lemma foldError_ind {A B} (f : A -> B -> A + error) (P : A -> Prop) l : forall a a',
  (forall a x a', x ∈ l -> P a -> f a x = inl a' -> P a') -> P a -> foldError f a l = inl a' -> P a'.
Proof.
  induction l as [|x l IH]; intros a a' Hstep Ha; cbn [foldError]; [by intros [= <-]|].
  destruct (f a x) as [a1|] eqn:E; [|done]. apply IH; [|by eapply Hstep; [left| |]].
  intros b y b' Hy. apply Hstep. by right.
Qed.

Lemma firstError_all {A} (f : A -> option error) l : firstError f l = None -> Forall (fun x => f x = None) l.
Proof. induction l as [|x l IH]; [constructor|]. cbn. destruct (f x) eqn:E; [done|]. intros. constructor; auto. Qed.

Lemma existsb_none {A} (f : A -> bool) l : existsb f l = false -> Forall (fun x => f x = false) l.
Proof. induction l as [|x l IH]; [constructor|]. cbn. intros [? ?]%orb_false_iff. constructor; auto. Qed.

(** Take a successful operation apart, check by check. *)
(** Loops that collect keys and refuse a repeated one. *)
Lemma seen_all {A K} `{Countable K} (f : gset K -> A -> gset K + error) (good : A -> Prop) (key : A -> K) :
  (forall seen x seen', f seen x = inl seen' <-> good x /\ key x ∉ seen /\ seen' = {[key x]} ∪ seen) ->
  forall l seen, (exists seen', foldError f seen l = inl seen') <->
    Forall good l /\ NoDup (map key l) /\ Forall (fun x => key x ∉ seen) l.
Proof.
  intros Hf. induction l as [|x l IH]; intros seen; cbn [foldError map].
  - split; [intros _; repeat constructor|by eexists].
  - rewrite NoDup_cons, !Forall_cons. destruct (f seen x) as [seen1|err] eqn:E.
    + apply Hf in E as (Hg & Hn & ->). rewrite IH, !Forall_forall. split.
      * intros (He & Hnd & Hs). split_and!; try done; [|intros y Hy Hin; apply (Hs y Hy); by apply elem_of_union_r].
        intros (y & E & Hin)%list_elem_of_fmap. apply (Hs y Hin), elem_of_union_l, elem_of_singleton. done.
      * intros ([_ He] & [Hd Hnd] & _ & Hs). split_and!; try done. intros y Hy [E%elem_of_singleton|Hin]%elem_of_union; [|by apply (Hs y Hy)].
        apply Hd. rewrite <- E. by apply list_elem_of_fmap_2.
    + split; [by intros [? ?]|]. intros ([Hg _] & _ & Hn & _). assert (E' : f seen x = inl ({[key x]} ∪ seen)) by (by apply Hf). congruence.
Qed.

Lemma seen_none {A K} `{Countable K} (f : gset K -> A -> gset K + error) (good : A -> Prop) (key : A -> K) l :
  (forall seen x seen', f seen x = inl seen' <-> good x /\ key x ∉ seen /\ seen' = {[key x]} ∪ seen) ->
  (exists seen', foldError f ∅ l = inl seen') <-> Forall good l /\ NoDup (map key l).
Proof.
  intros Hf. rewrite (seen_all f good key Hf). split; [by intros (? & ? & _)|]. intros [? ?]. split_and!; [done..|].
  apply Forall_forall. intros x _. apply not_elem_of_empty.
Qed.

(** ** Degrees *)

Definition ends (f : persistedEdge -> N) (edges : gmap N persistedEdge) (id : N) : N :=
  N.of_nat (size (base.filter (fun kv => f kv.2 = id) edges)).
Definition degree (edges : gmap N persistedEdge) (id : N) : N := ends pe_SourceID edges id + ends pe_TargetID edges id.

Definition endAt (f : persistedEdge -> N) (e : persistedEdge) (id : N) : N := if decide (f e = id) then 1 else 0.

Lemma ends_insert f edges k e id : edges !! k = None -> ends f (<[k := e]> edges) id = ends f edges id + endAt f e id.
Proof.
  intros Hk. unfold ends, endAt. rewrite map_filter_insert. cbn. destruct (decide (f e = id)) as [He|He].
  - rewrite map_size_insert_None by (apply map_lookup_filter_None; by left). lia.
  - rewrite delete_id by done. lia.
Qed.

Lemma degree_insert edges k e id : edges !! k = None ->
  degree (<[k := e]> edges) id = degree edges id + (endAt pe_SourceID e id + endAt pe_TargetID e id).
Proof. intros Hk. unfold degree. rewrite !ends_insert by done. lia. Qed.

Lemma degree_delete edges k e id : edges !! k = Some e ->
  degree edges id = degree (delete k edges) id + (endAt pe_SourceID e id + endAt pe_TargetID e id).
Proof.
  intros Hk. rewrite <- (insert_delete_id edges k e Hk) at 1. apply degree_insert. apply lookup_delete_eq.
Qed.

Lemma degree_zero edges id k e : degree edges id = 0 -> edges !! k = Some e -> pe_SourceID e <> id /\ pe_TargetID e <> id.
Proof.
  intros Hd Hk. rewrite (degree_delete edges k e id Hk) in Hd. unfold endAt in Hd.
  destruct (decide (pe_SourceID e = id)), (decide (pe_TargetID e = id)); try lia; by split.
Qed.

(** Identifiers are bounded, so counters cannot wrap. *)
Definition keysWithin {A} (m : gmap N A) : Prop := forall k, is_Some (m !! k) -> 0 < k <= MaxEntityID.

Lemma size_below {A} (m : gmap N A) bound : (forall k, is_Some (m !! k) -> 0 < k <= bound) -> N.of_nat (size m) <= bound.
Proof.
  intros Hk. assert (Hs : (map_to_list m).*1 ⊆+ map N.of_nat (seq 1 (N.to_nat bound))).
  { apply NoDup_submseteq; [apply NoDup_fst_map_to_list|]. intros k ([k' v] & -> & Hin)%list_elem_of_fmap.
    apply elem_of_map_to_list in Hin. apply list_elem_of_fmap. exists (N.to_nat k'). cbn. split; [lia|].
    apply elem_of_seq. assert (0 < k' <= bound) by (apply Hk; by eexists). lia. }
  apply submseteq_length in Hs. rewrite length_fmap, length_map_to_list in Hs. rewrite length_map, length_seq in Hs. lia.
Qed.

Lemma size_bound {A} (m : gmap N A) : keysWithin m -> N.of_nat (size m) <= MaxEntityID.
Proof. apply size_below. Qed.

Lemma ends_bound f edges id : keysWithin edges -> ends f edges id <= MaxEntityID.
Proof.
  intros Hk. apply size_bound. intros k [e He]. apply map_lookup_filter_Some in He as [He _]. apply Hk. by eexists.
Qed.

Lemma degree_bound edges id : keysWithin edges -> degree edges id < 2 ^ 64.
Proof.
  intros Hk. unfold degree. pose proof (ends_bound pe_SourceID edges id Hk). pose proof (ends_bound pe_TargetID edges id Hk).
  unfold MaxEntityID in *. lia.
Qed.

(** ** Incident counters *)

Definition counts (edges : gmap N persistedEdge) (incident : gmap N N) : Prop :=
  forall id, default 0 (incident !! id) = degree edges id.

Lemma increment_at m id k : default 0 (increment m id !! k) = if decide (id = k) then u64 (default 0 (m !! id) + 1) else default 0 (m !! k).
Proof.
  unfold increment. destruct (decide (id = k)) as [->|Hne]; [by rewrite lookup_insert_eq|by rewrite lookup_insert_ne].
Qed.
Lemma decrement_at m id k : default 0 (decrement m id !! k) = if decide (id = k) then sub64 (default 0 (m !! id)) 1 else default 0 (m !! k).
Proof.
  unfold decrement. destruct (decide (id = k)) as [->|Hne]; [by rewrite lookup_insert_eq|by rewrite lookup_insert_ne].
Qed.


Lemma u64_twice d : d + 2 < 2 ^ 64 -> u64 (u64 (d + 1) + 1) = d + 2.
Proof. intros. rewrite (u64_small (d + 1)), u64_small by lia. lia. Qed.

Lemma counts_insert edges incident k e :
  counts edges incident -> edges !! k = None -> keysWithin (<[k := e]> edges) ->
  counts (<[k := e]> edges) (increment (increment incident (pe_SourceID e)) (pe_TargetID e)).
Proof.
  intros Hc Hk Hb id. pose proof (degree_bound _ (pe_SourceID e) Hb) as B1. pose proof (degree_bound _ (pe_TargetID e) Hb) as B2.
  rewrite !increment_at, degree_insert, !Hc by done. rewrite !degree_insert in B1, B2 by done. unfold endAt in *.
  destruct e as [eid src tgt type props]. cbn [pe_SourceID pe_TargetID] in *. repeat destruct (decide _); subst; try congruence; rewrite ?u64_twice, ?u64_small by lia; lia.
Qed.

Lemma sub64_one x : 0 < x -> x < 2 ^ 64 -> sub64 x 1 = x - 1.
Proof. intros. apply sub64_exact; unfold max_uint64; lia. Qed.

Lemma sub64_twice x : 1 < x -> x < 2 ^ 64 -> sub64 (sub64 x 1) 1 = x - 2.
Proof. intros. rewrite (sub64_one x), sub64_one by lia. lia. Qed.

Lemma counts_delete edges incident k e :
  counts edges incident -> edges !! k = Some e -> keysWithin edges ->
  counts (delete k edges) (decrement (decrement incident (pe_SourceID e)) (pe_TargetID e)).
Proof.
  intros Hc Hk Hb id. pose proof (degree_bound _ (pe_SourceID e) Hb) as B1. pose proof (degree_bound _ (pe_TargetID e) Hb) as B2.
  rewrite !decrement_at, !Hc. rewrite (degree_delete edges k e id Hk).
  rewrite (degree_delete edges k e (pe_SourceID e) Hk) in *. rewrite (degree_delete edges k e (pe_TargetID e) Hk) in *. unfold endAt in *.
  destruct e as [eid src tgt type props]. cbn [pe_SourceID pe_TargetID] in *. repeat destruct (decide _); subst; try congruence; rewrite ?sub64_twice, ?sub64_one by lia; lia.
Qed.

(** ** A sound graph *)

(** A property map as recovery stores it. *)
Definition storedOK (m : properties) : Prop := wfStored (elems m) /\ propsOKP (elems m) = true.

Record nodeOK (id : N) (n : persistedNode) : Prop := mkNodeOK {
  nk_id : pn_ID n = id;
  nk_valid : ValidateEntityID id = None;
  nk_labels : ValidateCreateLabels (pn_Labels n) = None;
  nk_props : storedOK (pn_Properties n) }.

Record edgeOK (nodes : gmap N persistedNode) (id : N) (e : persistedEdge) : Prop := mkEdgeOK {
  ek_id : pe_ID e = id;
  ek_valid : ValidateEntityID id = None;
  ek_type : ValidateEdgeType (pe_Type e) = None;
  ek_source : is_Some (nodes !! pe_SourceID e);
  ek_target : is_Some (nodes !! pe_TargetID e);
  ek_props : storedOK (pe_Properties e) }.

(** Totals are cached for stored entities only, and are those of the stored map. *)
Definition cached {A} (props : A -> properties) (m : gmap N A) (totals : gmap N propertyTotals) : Prop :=
  forall id t, totals !! id = Some t -> exists x, m !! id = Some x /\ t = exactTotals (elems (props x)).

(** The graph, whose node and edge identifiers satisfy [PN] and [PE]. *)
Record graphOK (PN PE : N -> Prop) (acc : walAccumulator) : Prop := mkGraphOK {
  gk_nodes : map_Forall nodeOK (acc_nodes acc);
  gk_edges : map_Forall (edgeOK (acc_nodes acc)) (acc_edges acc);
  gk_counts : counts (acc_edges acc) (acc_incident acc);
  gk_nodeTotals : cached pn_Properties (acc_nodes acc) (nodePropertyTotals acc);
  gk_edgeTotals : cached pe_Properties (acc_edges acc) (edgePropertyTotals acc);
  gk_nodeIDs : map_Forall (fun id _ => PN id) (acc_nodes acc);
  gk_edgeIDs : map_Forall (fun id _ => PE id) (acc_edges acc) }.

Lemma validID_range id : ValidateEntityID id = None -> 0 < id <= MaxEntityID.
Proof. unfold ValidateEntityID. destruct (N.eqb_spec id 0), (N.ltb_spec MaxEntityID id); try done. lia. Qed.

Lemma edges_within nodes edges : map_Forall (edgeOK nodes) edges -> keysWithin edges.
Proof. intros H k [e He]. apply validID_range. by destruct (H k e He). Qed.

Lemma cached_delete {A} (props : A -> properties) m totals id x :
  cached props m totals -> cached props (<[id := x]> m) (delete id totals).
Proof.
  intros Hc k t. destruct (decide (id = k)) as [->|Hne]; [by rewrite lookup_delete_eq|].
  rewrite lookup_delete_ne, lookup_insert_ne by done. apply Hc.
Qed.

Lemma cached_remove {A} (props : A -> properties) m totals id :
  cached props m totals -> cached props (delete id m) (delete id totals).
Proof.
  intros Hc k t. destruct (decide (id = k)) as [->|Hne]; [by rewrite lookup_delete_eq|].
  rewrite !lookup_delete_ne by done. apply Hc.
Qed.

Lemma edgeOK_nodes nodes nodes' id e :
  (forall k, is_Some (nodes !! k) -> is_Some (nodes' !! k)) -> edgeOK nodes id e -> edgeOK nodes' id e.
Proof. intros H []. constructor; auto. Qed.

Section steps.
Context (PN PE : N -> Prop).

Lemma deleteEdge_ok acc id acc' : graphOK PN PE acc -> deleteEdge acc id = inl acc' -> graphOK PN PE acc'.
Proof.
  intros [Hn He Hc Htn Hte Hin Hie]. unfold deleteEdge. destruct (acc_edges acc !! id) as [e|] eqn:E; [|done]. intros [= <-].
  split; cbn; try done.
  - by apply map_Forall_delete.
  - apply counts_delete; [done|done|by eapply edges_within].
  - by apply cached_remove.
  - by apply map_Forall_delete.
Qed.

Lemma upsertNode_ok acc n : graphOK PN PE acc -> nodeOK (pn_ID n) n -> PN (pn_ID n) -> graphOK PN PE (upsertNode acc n).
Proof.
  intros [Hn He Hc Htn Hte Hin Hie] Hok HP. split; cbn; try done.
  - by apply map_Forall_insert_2.
  - eapply map_Forall_impl; [exact He|]. intros k e. apply edgeOK_nodes. intros k' Hk'. apply lookup_insert_is_Some'. by right.
  - by apply cached_delete.
  - by apply map_Forall_insert_2.
Qed.

Lemma upsertEdge_ok acc e acc' : graphOK PN PE acc -> upsertEdge acc e = inl acc' ->
  ValidateEntityID (pe_ID e) = None -> ValidateEdgeType (pe_Type e) = None -> storedOK (pe_Properties e) -> PE (pe_ID e) ->
  graphOK PN PE acc'.
Proof.
  intros [Hn He Hc Htn Hte Hin Hie] Hup Hid Hty Hpr HP. unfold upsertEdge in Hup.
  destruct ((nodeIDOf acc (pe_SourceID e) =? 0) || (nodeIDOf acc (pe_TargetID e) =? 0)) eqn:E; [done|]. apply orb_false_iff in E as [E1 E2].
  assert (Hs : forall k, (nodeIDOf acc k =? 0) = false -> is_Some (acc_nodes acc !! k)).
  { intros k. unfold nodeIDOf. destruct (acc_nodes acc !! k); [by eexists|done]. }
  assert (Hok : edgeOK (acc_nodes acc) (pe_ID e) e) by (constructor; auto).
  assert (Hins : map_Forall (edgeOK (acc_nodes acc)) (<[pe_ID e := e]> (acc_edges acc))) by (by apply map_Forall_insert_2).
  injection Hup as <-. split; cbn; try done.
  - pose proof (edges_within _ _ He) as Hb. pose proof (edges_within _ _ Hins) as Hb'.
    destruct (acc_edges acc !! pe_ID e) as [old|] eqn:Eo; [|by apply counts_insert].
    rewrite <- (insert_delete_eq (acc_edges acc)). rewrite <- (insert_delete_eq (acc_edges acc)) in Hb'.
    apply counts_insert; [by apply counts_delete|by apply lookup_delete_eq|done].
  - by apply cached_delete.
  - by apply map_Forall_insert_2.
Qed.

Lemma deleteNode_ok acc id acc' : graphOK PN PE acc -> deleteNode acc id = inl acc' -> graphOK PN PE acc'.
Proof.
  intros [Hn He Hc Htn Hte Hin Hie]. unfold deleteNode. destruct (negb _); [done|].
  destruct (N.eqb_spec (default 0 (acc_incident acc !! id)) 0) as [E|]; [|done]. cbn [negb]. intros [= <-].
  rewrite Hc in E. split; cbn; try done.
  - by apply map_Forall_delete.
  - intros k e Hk. destruct (degree_zero _ _ _ _ E Hk) as [H1 H2]. pose proof (He k e Hk) as []. constructor; try done;
      by rewrite lookup_delete_ne.
  - by apply cached_remove.
  - by apply map_Forall_delete.
Qed.

Lemma setFTS_ok acc fts : graphOK PN PE acc -> graphOK PN PE (setFTS acc fts).
Proof. by intros []. Qed.

Lemma deleteFTS_graph acc id acc' : graphOK PN PE acc -> deleteFTS acc id = inl acc' -> graphOK PN PE acc'.
Proof. unfold deleteFTS. destruct (negb _); [done|]. intros H [= <-]. by apply setFTS_ok. Qed.

Lemma upsertFTS_graph acc r acc' : graphOK PN PE acc -> upsertFTS acc r = inl acc' -> graphOK PN PE acc'.
Proof. unfold upsertFTS. destruct (negb _); [done|]. destruct (wrapErr _ _); [done|]. intros H [= <-]. by apply setFTS_ok. Qed.

End steps.

Lemma graphOK_ids PN PE PN' PE' acc :
  graphOK PN PE acc -> (forall id, is_Some (acc_nodes acc !! id) -> PN id -> PN' id) -> (forall id, is_Some (acc_edges acc !! id) -> PE id -> PE' id) ->
  graphOK PN' PE' acc.
Proof.
  intros [? ? ? ? ? Hn He] Hn' He'. split; try done; intros id x Hx.
  - eapply Hn'; [by eexists|by eapply Hn].
  - eapply He'; [by eexists|by eapply He].
Qed.

(** ** Text records, indexes and metadata *)

(** Text records belong to stored nodes; while a delta is applied, also to the nodes it
    deletes, which the check at the end rules out. *)
Definition ftsOK (nodes : gmap N persistedNode) (gone : list N) (id : N) (r : persistedFTS) : Prop :=
  pf_NodeID r = id /\ ValidateEntityID id = None /\ ValidateFTSText (pf_Text r) = None /\ (is_Some (nodes !! id) \/ id ∈ gone).
Definition ftsInv (gone : list N) (acc : walAccumulator) : Prop := map_Forall (ftsOK (acc_nodes acc) gone) (acc_fts acc).

Lemma ftsInv_nodes gone acc acc' :
  ftsInv gone acc -> acc_fts acc' = acc_fts acc ->
  (forall id, is_Some (acc_nodes acc !! id) -> is_Some (acc_nodes acc' !! id) \/ id ∈ gone) -> ftsInv gone acc'.
Proof.
  intros H E Hn id r. rewrite E. intros Hr. destruct (H id r Hr) as (? & ? & ? & [Hs|Hg]); split_and!; auto.
Qed.

Lemma deleteEdge_fts gone acc id acc' : ftsInv gone acc -> deleteEdge acc id = inl acc' -> ftsInv gone acc'.
Proof. unfold deleteEdge. destruct (acc_edges acc !! id); [|done]. by intros H [= <-]. Qed.

Lemma upsertNode_fts gone acc n : ftsInv gone acc -> ftsInv gone (upsertNode acc n).
Proof. intros H. eapply ftsInv_nodes; [exact H|done|]. intros id Hid. left. apply lookup_insert_is_Some'. by right. Qed.

Lemma upsertEdge_fts gone acc e acc' : ftsInv gone acc -> upsertEdge acc e = inl acc' -> ftsInv gone acc'.
Proof. unfold upsertEdge. destruct (_ || _); [done|]. by intros H [= <-]. Qed.

Lemma deleteNode_fts gone acc id acc' : id ∈ gone -> ftsInv gone acc -> deleteNode acc id = inl acc' -> ftsInv gone acc'.
Proof.
  intros Hg H. unfold deleteNode. destruct (negb _); [done|]. destruct (negb _); [done|]. intros [= <-].
  eapply ftsInv_nodes; [exact H|done|]. intros k Hk. destruct (decide (id = k)) as [->|]; [by right|]. left. cbn.
  by rewrite lookup_delete_ne.
Qed.

Lemma deleteFTS_fts gone acc id acc' : ftsInv gone acc -> deleteFTS acc id = inl acc' -> ftsInv gone acc'.
Proof. unfold deleteFTS. destruct (negb _); [done|]. intros H [= <-]. by apply map_Forall_delete. Qed.

Lemma upsertFTS_fts PN PE gone acc r acc' : graphOK PN PE acc -> ftsInv gone acc -> upsertFTS acc r = inl acc' -> ftsInv gone acc'.
Proof.
  intros Hg H. unfold upsertFTS. destruct (bool_decide (is_Some (acc_nodes acc !! pf_NodeID r))) eqn:E; [|done]. cbn [negb].
  apply bool_decide_eq_true in E. destruct (ValidateFTSText (pf_Text r)) eqn:Et; [done|]. intros [= <-].
  apply map_Forall_insert_2; [|done]. split_and!; [done| |done|by left]. destruct E as [n Hn].
  by destruct (gk_nodes _ _ _ Hg _ _ Hn).
Qed.

Definition metadataOK (key : gostring) (m : persistedAppMetadata) : Prop :=
  elems (pm_Key m) = key /\ 0 < nlen key <= maxAppMetadataKeyBytes.

Definition indexesOK (l : list persistedPropertyIndexDefinition) : Prop :=
  NoDup (map indexKey l) /\ Forall (fun d => emptyDefinition d = false) l.

Lemma seeIndex_spec seen d seen' :
  seeIndex seen d = inl seen' <-> emptyDefinition d = false /\ indexKey d ∉ seen /\ seen' = {[indexKey d]} ∪ seen.
Proof. unfold seeIndex. destruct (emptyDefinition d), (bool_decide_reflect (indexKey d ∈ seen)); naive_solver. Qed.

Lemma validateIndexes_spec s : validatePersistedPropertyIndexes s = None <-> indexesOK (elems s).
Proof.
  unfold validatePersistedPropertyIndexes, indexesOK. pose proof (seen_none seeIndex _ indexKey (elems s) seeIndex_spec) as H.
  destruct (foldError seeIndex ∅ (elems s)) as [seen|err].
  - split; [intros _|done]. apply and_comm. apply H. by eexists.
  - split; [done|]. intros [? ?]. destruct (proj2 H) as [? ?]; [by split|done].
Qed.

(** Dropping and creating definitions keeps them distinct and complete. *)
Lemma dropIndex_ok active d active' : dropIndex active d = inl active' -> active' ⊆ active.
Proof. unfold dropIndex. destruct (emptyDefinition d); [done|]. destruct (negb _); [done|]. intros [= <-]. set_solver. Qed.

Definition completeKey (k : gostring * gostring) : Prop := emptyDefinition (mkPIndex k.1 k.2) = false.

Lemma createIndex_ok active d active' :
  set_Forall completeKey active -> createIndex active d = inl active' -> set_Forall completeKey active'.
Proof.
  intros Ha. unfold createIndex. destruct (emptyDefinition d) eqn:E; [done|]. destruct (bool_decide _); [done|]. intros [= <-].
  apply set_Forall_union; [|done]. by apply set_Forall_singleton.
Qed.

Lemma applyIndexes_ok definitions creates drops definitions' :
  indexesOK (elems definitions) -> applyPropertyIndexDelta definitions creates drops = inl definitions' -> indexesOK (elems definitions').
Proof.
  intros [Hnd Hf]. unfold applyPropertyIndexDelta. destruct (foldError dropIndex _ _) as [a1|] eqn:E1; [|done].
  destruct (foldError createIndex a1 _) as [a2|] eqn:E2; [|done]. intros [= <-].
  assert (H0 : set_Forall completeKey (list_to_set (map indexKey (elems definitions)) : gset (gostring * gostring))).
  { intros k Hk. apply elem_of_list_to_set, list_elem_of_fmap in Hk as (d & -> & Hd). rewrite Forall_forall in Hf. exact (Hf d Hd). }
  assert (H1 : set_Forall completeKey a1).
  { refine (foldError_ind dropIndex (set_Forall completeKey) _ _ _ _ H0 E1). intros a d a' _ Ha Hd k Hk. apply Ha. by eapply dropIndex_ok. }
  assert (H2 : set_Forall completeKey a2).
  { refine (foldError_ind createIndex (set_Forall completeKey) _ _ _ _ H1 E2). intros a d a' _. apply createIndex_ok. }
  assert (Hp : elems (refill definitions (merge_sort indexLe (map (fun key => mkPIndex key.1 key.2) (elements a2)))) ≡ₚ
               map (fun key => mkPIndex key.1 key.2) (elements a2)).
  { rewrite <- (merge_sort_Permutation indexLe (map _ (elements a2))) at 2. unfold refill. destruct (merge_sort _ _); by destruct definitions. }
  split; rewrite Hp.
  - rewrite map_map. replace (map _ (elements a2)) with (elements a2); [apply NoDup_elements|].
    rewrite <- (map_id (elements a2)) at 1. apply map_ext. by intros [].
  - apply List.Forall_map, Forall_forall. intros k Hk. apply H2. by apply elem_of_elements.
Qed.

Lemma seeID_spec seen id seen' : seeID seen id = inl seen' <-> ValidateEntityID id = None /\ id ∉ seen /\ seen' = {[id]} ∪ seen.
Proof. unfold seeID. destruct (ValidateEntityID id), (bool_decide_reflect (id ∈ seen)); naive_solver. Qed.

Lemma uniqueIDs_spec deletes upserts :
  validateUniqueDeltaIDs deletes upserts = None <->
  Forall (fun id => ValidateEntityID id = None) (deletes ++ upserts) /\ NoDup (deletes ++ upserts).
Proof.
  unfold validateUniqueDeltaIDs. pose proof (seen_none seeID _ (fun id => id) (deletes ++ upserts) seeID_spec) as H. rewrite map_id in H.
  rewrite <- H. destruct (foldError seeID ∅ _) as [seen|err]; [by split; [eexists|]|]. split; [done|]. by intros [? ?].
Qed.
