(* ===== verification/WalSteps.v ===== *)
(** * Recovery keeps its invariant

    Loading a snapshot, applying a delta and applying property patches.

    Further down: a recovered state loads again. *)
From S2P Require Import Prelude.
From S2P Require Import GoBytes.
From S2P Require Import BinaryCodec.
From S2P Require Import BinaryValue.
From S2P Require Import BinaryValueSpec.
From S2P Require Import BinaryRecords.
From S2P Require Import GoMaps.
From S2P Require Import Values.
From S2P Require Import ValuesSpec.
From S2P Require Import Properties.
From S2P Require Import PageRecords.
From S2P Require Import Streams.
From S2P Require Import StreamStoreSpec.
From S2P Require Import StreamPersist.
From S2P Require Import StreamPersistSpec.
From S2P Require Import PropertyDelta.
From S2P Require Import PropertyPatch.
From S2P Require Import WalAccumulator.
From S2P Require Import WalInvariant.

Definition nodesBelow (acc : walAccumulator) (id : N) : Prop := id < st_NextNodeID (acc_state acc).
Definition edgesBelow (acc : walAccumulator) (id : N) : Prop := id < st_NextEdgeID (acc_state acc).

Record accOK (acc : walAccumulator) : Prop := mkAccOK {
  ok_graph : graphOK (nodesBelow acc) (edgesBelow acc) acc;
  ok_fts : ftsInv [] acc;
  ok_metadata : map_Forall metadataOK (acc_metadata acc);
  ok_nextNode : ValidateIDHighWater (st_NextNodeID (acc_state acc)) = None;
  ok_nextEdge : ValidateIDHighWater (st_NextEdgeID (acc_state acc)) = None;
  ok_nodeIndexes : indexesOK (elems (st_NodeIndexes (acc_state acc)));
  ok_edgeIndexes : indexesOK (elems (st_EdgeIndexes (acc_state acc)));
  ok_database : st_DatabaseID (acc_state acc) = [] \/ validateDatabaseID (st_DatabaseID (acc_state acc)) = None }.

(** What decoding leaves of Go's maps: each key once, at every level. *)
Definition wfNodes (l : slice persistedNode) : Prop := Forall (fun n => wfStored (elems (pn_Properties n))) (elems l).
Definition wfEdges (l : slice persistedEdge) : Prop := Forall (fun e => wfStored (elems (pe_Properties e))) (elems l).
Definition wfChanges (l : slice persistedPropertyChange) : Prop := Forall (fun c => wfStored (elems (pc_Set c))) (elems l).

Lemma wrapErr_none context e : wrapErr context e = None -> e = None.
Proof. by destruct e. Qed.
Lemma wrapped_inl {A} context (r : A + error) x : wrapped context r = inl x -> r = inl x.
Proof. by destruct r. Qed.

Lemma decoded_ok m out : wfStored (elems m) -> decodePropertyMap (elems m) = inl out -> storedOK m.
Proof.
  intros Hw Hd. split; [done|]. pose proof (decodePropertyMap_exact _ Hw) as H. destruct (propsOKP (elems m)); [done|].
  destruct H as [err He]. congruence.
Qed.

(** ** From a snapshot *)

Lemma recoverMetadata_ok metadata entry metadata' :
  map_Forall metadataOK metadata -> recoverMetadata metadata entry = inl metadata' -> map_Forall metadataOK metadata'.
Proof.
  intros Hm. unfold recoverMetadata. destruct ((_ =? 0) || _) eqn:E; [done|]. apply orb_false_iff in E as [E1%N.eqb_neq E2%N.ltb_ge].
  destruct (bool_decide _); [done|]. intros [= <-]. apply map_Forall_insert_2; [|done]. split; [done|lia].
Qed.

Definition nodesInv (st : gmap N persistedNode * N) : Prop :=
  map_Forall nodeOK st.1 /\ map_Forall (fun id _ => id <= st.2) st.1.

Lemma recoverNode_ok st n st' : wfStored (elems (pn_Properties n)) -> nodesInv st -> recoverNode st n = inl st' -> nodesInv st'.
Proof.
  intros Hw [Hn Hm]. unfold recoverNode. destruct st as [nodes maxID]. cbn [fst snd] in *.
  destruct (wrapErr _ (ValidateEntityID _)) eqn:E1; [done|]. destruct (wrapErr _ (ValidateCreateLabels _)) eqn:E2; [done|].
  apply wrapErr_none in E1, E2. destruct (bool_decide _); [done|]. destruct (wrapped _ _) as [out|] eqn:E3; [|done]. intros [= <-].
  apply wrapped_inl in E3. split; cbn [fst snd].
  - apply map_Forall_insert_2; [|done]. constructor; [done..|]. by eapply decoded_ok.
  - apply map_Forall_insert_2; [lia|]. eapply map_Forall_impl; [exact Hm|]. cbn. intros. lia.
Qed.

Definition edgesInv (nodes : gmap N persistedNode) (st : gmap N persistedEdge * gmap N N * N) : Prop :=
  map_Forall (edgeOK nodes) st.1.1 /\ counts st.1.1 st.1.2 /\ map_Forall (fun id _ => id <= st.2) st.1.1.

Lemma recoverEdge_ok nodes st e st' :
  wfStored (elems (pe_Properties e)) -> edgesInv nodes st -> recoverEdge nodes st e = inl st' -> edgesInv nodes st'.
Proof.
  intros Hw (He & Hc & Hm). unfold recoverEdge. destruct st as [[edges incident] maxID]. cbn [fst snd] in *.
  destruct (wrapErr _ (ValidateEntityID (pe_ID e))) eqn:E1; [done|]. destruct (wrapErr _ (ValidateEntityID (pe_SourceID e))); [done|].
  destruct (wrapErr _ (ValidateEntityID (pe_TargetID e))); [done|]. destruct (wrapErr _ (ValidateEdgeType _)) eqn:E2; [done|].
  apply wrapErr_none in E1, E2. destruct (bool_decide_reflect (is_Some (edges !! pe_ID e))) as [|Hnew]; [done|].
  destruct (bool_decide_reflect (is_Some (nodes !! pe_SourceID e))); [|done]. destruct (bool_decide_reflect (is_Some (nodes !! pe_TargetID e))); [|done].
  cbn [negb]. destruct (wrapped _ _) as [out|] eqn:E3; [|done]. intros [= <-]. apply wrapped_inl in E3.
  apply eq_None_not_Some in Hnew. assert (Hins : map_Forall (edgeOK nodes) (<[pe_ID e := e]> edges)).
  { apply map_Forall_insert_2; [|done]. constructor; try done. by eapply decoded_ok. }
  split_and!; cbn [fst snd]; [done|apply counts_insert; [done..|by eapply edges_within]|].
  apply map_Forall_insert_2; [lia|]. eapply map_Forall_impl; [exact Hm|]. cbn. intros. lia.
Qed.

Lemma recoverFTS_ok nodes fts r fts' :
  map_Forall (ftsOK nodes []) fts -> recoverFTS nodes fts r = inl fts' -> map_Forall (ftsOK nodes []) fts'.
Proof.
  intros Hf. unfold recoverFTS. destruct (wrapErr _ (ValidateEntityID _)) eqn:E1; [done|].
  destruct (bool_decide_reflect (is_Some (nodes !! pf_NodeID r))) as [Hn|]; [|done]. cbn [negb].
  destruct (wrapErr _ (ValidateFTSText _)) eqn:E2; [done|]. destruct (bool_decide _); [done|]. intros [= <-].
  apply wrapErr_none in E1, E2. apply map_Forall_insert_2; [|done]. split_and!; try done. by left.
Qed.

Lemma nextAfter_ok next maxID next' :
  ValidateIDHighWater next = None -> maxID <= MaxEntityID -> nextAfter next maxID = inl next' ->
  maxID < next' /\ next <= next' /\ ValidateIDHighWater next' = None.
Proof.
  unfold ValidateIDHighWater, nextAfter, EntityIDExhausted. intros Hn Hm. destruct (N.leb_spec next maxID) as [Hle|Hlt].
  - destruct (maxID =? max_uint64); [done|]. intros [= <-]. rewrite u64_small by (unfold MaxEntityID in *; lia).
    split_and!; [lia|lia|]. case_cmp; (done || lia).
  - intros [= <-]. split_and!; [lia|lia|done].
Qed.

(** The largest stored identifier is an identifier, or zero when nothing is stored. *)
Lemma recoverNode_max st n st' : st.2 <= MaxEntityID -> recoverNode st n = inl st' -> st'.2 <= MaxEntityID.
Proof.
  intros Hm. unfold recoverNode. destruct st as [nodes maxID]. cbn [fst snd] in *.
  destruct (wrapErr _ (ValidateEntityID _)) eqn:E1; [done|]. apply wrapErr_none, validID_range in E1.
  repeat case_match; try done. intros [= <-]. cbn. lia.
Qed.
Lemma recoverEdge_max nodes st e st' : st.2 <= MaxEntityID -> recoverEdge nodes st e = inl st' -> st'.2 <= MaxEntityID.
Proof.
  intros Hm. unfold recoverEdge. destruct st as [[edges incident] maxID]. cbn [fst snd] in *.
  destruct (wrapErr _ (ValidateEntityID (pe_ID e))) eqn:E1; [done|]. apply wrapErr_none, validID_range in E1.
  repeat case_match; try done. intros [= <-]. cbn. lia.
Qed.

Lemma newWALAccumulator_ok state acc :
  wfNodes (st_Nodes state) -> wfEdges (st_Edges state) -> newWALAccumulator state = inl acc -> accOK acc.
Proof.
  intros Hwn Hwe. unfold newWALAccumulator.
  destruct (if bool_decide (st_DatabaseID state = []) then None else _) eqn:Edb; [done|]. destruct (_ =? max_uint64); [done|].
  cbn [withNext st_NextNodeID st_NextEdgeID st_AppMetadata st_Nodes st_Edges st_NodeIndexes st_EdgeIndexes st_FTS st_Streams].
  set (nextN := if st_NextNodeID state =? 0 then 1 else _). set (nextE := if st_NextEdgeID state =? 0 then 1 else _).
  destruct (ValidateIDHighWater nextN) eqn:En; [done|]. destruct (ValidateIDHighWater nextE) eqn:Ee; [done|].
  destruct (foldError recoverMetadata ∅ _) as [metadata|] eqn:Em; [|done].
  destruct (foldError recoverNode (∅, 0) _) as [[nodes maxN]|] eqn:Ens; [|done].
  destruct (foldError (recoverEdge nodes) (∅, ∅, 0) _) as [[[edges incident] maxE]|] eqn:Ees; [|done].
  destruct (validatePersistedPropertyIndexes (st_NodeIndexes state)) eqn:Ei1; [done|].
  destruct (validatePersistedPropertyIndexes (st_EdgeIndexes state)) eqn:Ei2; [done|].
  destruct (foldError (recoverFTS nodes) ∅ _) as [fts|] eqn:Ef; [|done].
  destruct (wrapped _ (decodePersistedStreams _)) as [streams|]; [|done].
  destruct (nextAfter nextN maxN) as [nextN'|] eqn:En'; [|done]. destruct (nextAfter nextE maxE) as [nextE'|] eqn:Ee'; [|done].
  intros [= <-]. unfold wfNodes, wfEdges in *. rewrite Forall_forall in Hwn. rewrite Forall_forall in Hwe.
  assert (Hmeta : map_Forall metadataOK metadata).
  { refine (foldError_ind _ (map_Forall metadataOK) _ _ _ _ (map_Forall_empty _) Em). intros a x a' _. apply recoverMetadata_ok. }
  assert (Hnodes : nodesInv (nodes, maxN)).
  { refine (foldError_ind _ nodesInv _ _ _ _ _ Ens); [|split; apply map_Forall_empty]. intros a x a' Hx. by apply recoverNode_ok, Hwn. }
  assert (Hmaxn : maxN <= MaxEntityID).
  { refine (foldError_ind _ (fun st => st.2 <= MaxEntityID) _ _ _ _ _ Ens); [|done]. intros a x a' _. apply recoverNode_max. }
  assert (Hedges : edgesInv nodes (edges, incident, maxE)).
  { refine (foldError_ind _ (edgesInv nodes) _ _ _ _ _ Ees); [|split_and!; [apply map_Forall_empty| |apply map_Forall_empty]].
    - intros a x a' Hx. by apply recoverEdge_ok, Hwe.
    - intros id. done. }
  assert (Hmaxe : maxE <= MaxEntityID).
  { refine (foldError_ind _ (fun st => st.2 <= MaxEntityID) _ _ _ _ _ Ees); [|done]. intros a x a' _. apply recoverEdge_max. }
  assert (Hfts : map_Forall (ftsOK nodes []) fts).
  { refine (foldError_ind _ (map_Forall (ftsOK nodes [])) _ _ _ _ (map_Forall_empty _) Ef). intros a x a' _. apply recoverFTS_ok. }
  destruct Hnodes as [Hn1 Hn2]. destruct Hedges as (He1 & He2 & He3). cbn [fst snd] in *.
  destruct (nextAfter_ok _ _ _ En Hmaxn En') as (L1 & _ & V1). destruct (nextAfter_ok _ _ _ Ee Hmaxe Ee') as (L2 & _ & V2).
  split; cbn [acc_state withNext st_NextNodeID st_NextEdgeID st_NodeIndexes st_EdgeIndexes st_DatabaseID]; try done.
  - split; cbn [acc_nodes acc_edges acc_incident nodePropertyTotals edgePropertyTotals]; try done.
    + eapply map_Forall_impl; [exact Hn2|]. cbn. intros. unfold nodesBelow. cbn. lia.
    + eapply map_Forall_impl; [exact He3|]. cbn. intros. unfold edgesBelow. cbn. lia.
  - by apply validateIndexes_spec.
  - by apply validateIndexes_spec.
  - case_bool_decide; [by left|by right].
Qed.

(** ** Applying a delta *)

Lemma seeMetadata_spec seen change seen' :
  seeMetadata seen change = inl seen' <->
  (0 < slen (pmc_Key change) <= maxAppMetadataKeyBytes /\ (pmc_Delete change = true -> slen (pmc_Value change) = 0)) /\
  elems (pmc_Key change) ∉ seen /\ seen' = {[elems (pmc_Key change)]} ∪ seen.
Proof.
  unfold seeMetadata. rewrite (slen_elems (pmc_Key change)). set (key := elems (pmc_Key change)).
  assert (Hc : (nlen key =? 0) || (maxAppMetadataKeyBytes <? nlen key) || pmc_Delete change && negb (slen (pmc_Value change) =? 0) = false <->
               0 < nlen key <= maxAppMetadataKeyBytes /\ (pmc_Delete change = true -> slen (pmc_Value change) = 0)).
  { rewrite !orb_false_iff, andb_false_iff, N.eqb_neq, N.ltb_ge, negb_false_iff, N.eqb_eq. destruct (pmc_Delete change); intuition (lia || done). }
  set (c := (nlen key =? 0) || _ || _) in *. clearbody c.
  destruct c; [split; [done|intros [H _]; by apply Hc in H]|].
  assert (H := proj1 Hc eq_refl). destruct (bool_decide_reflect (key ∈ seen)); naive_solver.
Qed.

Definition metadataChangeOK (change : persistedAppMetadataChange) : Prop :=
  0 < slen (pmc_Key change) <= maxAppMetadataKeyBytes /\ (pmc_Delete change = true -> slen (pmc_Value change) = 0).

Record deltaOK (acc : walAccumulator) (delta : persistedDelta) : Prop := mkDeltaOK {
  dk_nextNode : ValidateIDHighWater (dl_NextNodeID delta) = None;
  dk_nextEdge : ValidateIDHighWater (dl_NextEdgeID delta) = None;
  dk_nodesGrow : st_NextNodeID (acc_state acc) <= dl_NextNodeID delta;
  dk_edgesGrow : st_NextEdgeID (acc_state acc) <= dl_NextEdgeID delta;
  dk_nodeIDs : Forall (fun n => ValidateEntityID (pn_ID n) = None) (elems (dl_UpsertNodes delta));
  dk_edgeIDs : Forall (fun e => ValidateEntityID (pe_ID e) = None) (elems (dl_UpsertEdges delta));
  dk_metadata : Forall metadataChangeOK (elems (dl_AppMetadata delta)) }.

Lemma upserted_valid {A} (key : A -> N) deletes l :
  validateUniqueDeltaIDs deletes (map key l) = None -> Forall (fun x => ValidateEntityID (key x) = None) l.
Proof. intros [H _]%uniqueIDs_spec. apply Forall_app in H as [_ H]. by apply List.Forall_map in H. Qed.

Lemma validateDelta_ok acc delta x : validateDelta acc delta = inl x -> deltaOK acc delta.
Proof.
  unfold validateDelta. destruct (ValidateIDHighWater (dl_NextNodeID delta)) eqn:E1; [done|].
  destruct (ValidateIDHighWater (dl_NextEdgeID delta)) eqn:E2; [done|]. destruct (_ || _) eqn:E3; [done|].
  apply orb_false_iff in E3 as [E3%N.ltb_ge E4%N.ltb_ge].
  destruct (wrapErr _ (validateUniqueDeltaIDs (elems (dl_DeleteNodes delta)) _)) eqn:E5; [done|].
  destruct (wrapErr _ (validateUniqueDeltaIDs (elems (dl_DeleteEdges delta)) _)) eqn:E6; [done|].
  destruct (firstError validateEndpoints _); [done|].
  destruct (wrapErr _ (validateUniqueDeltaIDs (elems (dl_DeleteFTS delta)) _)); [done|]. destruct (_ && _); [done|].
  destruct (foldError seeMetadata ∅ _) as [seen|] eqn:E7; [|done]. intros _.
  apply wrapErr_none, upserted_valid in E5, E6.
  split; try done. refine (proj1 (proj1 (seen_none seeMetadata _ _ _ seeMetadata_spec) _)). by eexists.
Qed.

Lemma applyMetadata_ok metadata change :
  metadataChangeOK change -> map_Forall metadataOK metadata -> map_Forall metadataOK (applyMetadata metadata change).
Proof.
  intros [Hk _] Hm. unfold applyMetadata. destruct (pmc_Delete change); [by apply map_Forall_delete|].
  apply map_Forall_insert_2; [|done]. split; [done|]. by rewrite <- slen_elems.
Qed.

Lemma applyMetadata_all l : forall metadata,
  Forall metadataChangeOK l -> map_Forall metadataOK metadata -> map_Forall metadataOK (foldl applyMetadata metadata l).
Proof.
  induction l as [|c l IH]; intros metadata Hl Hm; [done|]. apply Forall_cons in Hl as [Hc Hl]. apply IH; [done|]. by apply applyMetadata_ok.
Qed.

Section entities.
Context (PN PE : N -> Prop) (gone : list N).

Definition entityInv (acc : walAccumulator) : Prop := graphOK PN PE acc /\ ftsInv gone acc.

Lemma upsertNodes_ok l : forall acc, Forall (fun n => nodeOK (pn_ID n) n /\ PN (pn_ID n)) l -> entityInv acc -> entityInv (foldl upsertNode acc l).
Proof.
  induction l as [|n l IH]; intros acc Hl [Hg Hf]; [done|]. apply Forall_cons in Hl as [[Hn HP] Hl]. apply IH; [done|].
  split; [by apply upsertNode_ok|by apply upsertNode_fts].
Qed.

Lemma applyEntities_ok acc delta acc' :
  gone = elems (dl_DeleteNodes delta) -> entityInv acc ->
  Forall (fun n => nodeOK (pn_ID n) n /\ PN (pn_ID n)) (elems (dl_UpsertNodes delta)) ->
  Forall (fun e => (ValidateEntityID (pe_ID e) = None /\ ValidateEdgeType (pe_Type e) = None /\ storedOK (pe_Properties e)) /\ PE (pe_ID e))
    (elems (dl_UpsertEdges delta)) ->
  applyEntities acc delta = inl acc' -> graphOK PN PE acc' /\ ftsInv [] acc'.
Proof.
  intros Hgone H0 Hn He. unfold applyEntities. rewrite <- Hgone. rewrite Forall_forall in He.
  destruct (foldError deleteEdge acc _) as [a1|] eqn:E1; [|done].
  assert (H1 : entityInv a1). { refine (foldError_ind _ entityInv _ _ _ _ H0 E1). intros a x a' _ [Hg Hf] Hs. split; [by eapply deleteEdge_ok|by eapply deleteEdge_fts]. }
  pose proof (upsertNodes_ok _ a1 Hn H1) as H2.
  destruct (foldError upsertEdge _ _) as [a3|] eqn:E3; [|done].
  assert (H3 : entityInv a3).
  { refine (foldError_ind _ entityInv _ _ _ _ H2 E3). intros a x a' Hx [Hg Hf] Hs. destruct (He x Hx) as [(? & ? & ?) ?].
    split; [by eapply upsertEdge_ok|by eapply upsertEdge_fts]. }
  destruct (foldError deleteNode _ _) as [a4|] eqn:E4; [|done].
  assert (H4 : entityInv a4). { refine (foldError_ind _ entityInv _ _ _ _ H3 E4). intros a x a' Hx [Hg Hf] Hs. split; [by eapply deleteNode_ok|by eapply deleteNode_fts]. }
  destruct (foldError deleteFTS _ _) as [a5|] eqn:E5; [|done].
  assert (H5 : entityInv a5). { refine (foldError_ind _ entityInv _ _ _ _ H4 E5). intros a x a' _ [Hg Hf] Hs. split; [by eapply deleteFTS_graph|by eapply deleteFTS_fts]. }
  destruct (foldError upsertFTS _ _) as [a6|] eqn:E6; [|done].
  assert (H6 : entityInv a6). { refine (foldError_ind _ entityInv _ _ _ _ H5 E6). intros a x a' _ [Hg Hf] Hs. split; [by eapply upsertFTS_graph|exact (upsertFTS_fts PN PE _ _ _ _ Hg Hf Hs)]. }
  destruct (existsb _ _) eqn:E7; [done|]. intros [= <-]. destruct H6 as [Hg Hf]. split; [done|].
  apply existsb_none in E7. rewrite Forall_forall in E7. intros id r Hr. destruct (Hf id r Hr) as (? & ? & ? & [Hs|Hg']); split_and!; auto.
  specialize (E7 id Hg'). cbn in E7. apply bool_decide_eq_false in E7. destruct E7. by eexists.
Qed.
End entities.

Lemma validateUpsertNode_ok n :
  wfStored (elems (pn_Properties n)) -> ValidateEntityID (pn_ID n) = None -> validateUpsertNode n = None -> nodeOK (pn_ID n) n.
Proof.
  intros Hw Hid. unfold validateUpsertNode. destruct (wrapErr _ _) eqn:E1; [done|]. apply wrapErr_none in E1.
  destruct (wrapped _ _) as [out|] eqn:E2; [|done]. intros _. apply wrapped_inl in E2. constructor; try done. by eapply decoded_ok.
Qed.

Lemma validateUpsertEdge_ok e :
  wfStored (elems (pe_Properties e)) -> validateUpsertEdge e = None -> ValidateEdgeType (pe_Type e) = None /\ storedOK (pe_Properties e).
Proof.
  intros Hw. unfold validateUpsertEdge. destruct (wrapErr _ _) eqn:E1; [done|]. apply wrapErr_none in E1.
  destruct (wrapped _ _) as [out|] eqn:E2; [|done]. intros _. apply wrapped_inl in E2. split; [done|]. by eapply decoded_ok.
Qed.

(** What a successful [apply] did. *)
Record applied (acc : walAccumulator) (delta : persistedDelta) (acc' : walAccumulator) : Prop := mkApplied {
  ap_delta : deltaOK acc delta;
  ap_streams : applyStreams acc delta = inl (acc_streams acc');
  ap_metadata : acc_metadata acc' = foldl applyMetadata (acc_metadata acc) (elems (dl_AppMetadata delta));
  ap_nodeIndexes : applyPropertyIndexDelta (st_NodeIndexes (acc_state acc)) (dl_CreateNodeIndexes delta) (dl_DropNodeIndexes delta)
                   = inl (st_NodeIndexes (acc_state acc'));
  ap_edgeIndexes : applyPropertyIndexDelta (st_EdgeIndexes (acc_state acc)) (dl_CreateEdgeIndexes delta) (dl_DropEdgeIndexes delta)
                   = inl (st_EdgeIndexes (acc_state acc'));
  ap_nodes : Forall (fun n => validateUpsertNode n = None /\ pn_ID n < dl_NextNodeID delta) (elems (dl_UpsertNodes delta));
  ap_edges : Forall (fun e => validateUpsertEdge e = None /\ pe_ID e < dl_NextEdgeID delta) (elems (dl_UpsertEdges delta));
  ap_entities : exists acc1, applyEntities acc delta = inl acc1 /\
    acc_nodes acc' = acc_nodes acc1 /\ acc_edges acc' = acc_edges acc1 /\ acc_fts acc' = acc_fts acc1 /\ acc_incident acc' = acc_incident acc1 /\
    nodePropertyTotals acc' = nodePropertyTotals acc1 /\ edgePropertyTotals acc' = edgePropertyTotals acc1;
  ap_next : st_NextNodeID (acc_state acc') = dl_NextNodeID delta /\ st_NextEdgeID (acc_state acc') = dl_NextEdgeID delta;
  ap_commit : st_CommitID (acc_state acc') = dl_CommitID delta;
  ap_database : st_DatabaseID (acc_state acc') = st_DatabaseID (acc_state acc);
  ap_dimensions : st_VectorDimensions (acc_state acc') = st_VectorDimensions (acc_state acc) }.

Lemma below_all {A} (key : A -> N) bound l : existsb (fun x => bound <=? key x) l = false -> Forall (fun x => key x < bound) l.
Proof. intros H%existsb_none. eapply Forall_impl; [exact H|]. cbn. intros x Hx. by apply N.leb_gt in Hx. Qed.

Lemma apply_inv acc delta acc' : apply acc delta = inl acc' -> applied acc delta acc'.
Proof.
  unfold apply. destruct (validateDelta acc delta) as [u|] eqn:E1; [|done]. apply validateDelta_ok in E1.
  destruct (applyStreams acc delta) as [streams|] eqn:E2; [|done].
  destruct (wrapped _ (applyPropertyIndexDelta (st_NodeIndexes _) _ _)) as [ni|] eqn:E3; [|done].
  destruct (wrapped _ (applyPropertyIndexDelta (st_EdgeIndexes _) _ _)) as [ei|] eqn:E4; [|done]. apply wrapped_inl in E3, E4.
  destruct (firstError validateUpsertNode _) eqn:E5; [done|]. destruct (firstError validateUpsertEdge _) eqn:E6; [done|].
  apply firstError_all in E5, E6. destruct (applyEntities acc delta) as [acc1|] eqn:E7; [|done].
  destruct (existsb _ (elems (dl_UpsertNodes delta))) eqn:E8; [done|]. destruct (existsb _ (elems (dl_UpsertEdges delta))) eqn:E9; [done|].
  apply below_all in E8, E9. intros [= <-]. split; cbn; try done.
  - by apply Forall_and.
  - by apply Forall_and.
  - by exists acc1.
Qed.

Lemma apply_ok acc delta acc' :
  accOK acc -> wfNodes (dl_UpsertNodes delta) -> wfEdges (dl_UpsertEdges delta) -> apply acc delta = inl acc' -> accOK acc'.
Proof.
  intros Hok Hwn Hwe [Hd _ Hmd Hni Hei Hns Hes (acc1 & He & En & Ee & Ef & Ec & Etn & Ete) [N1 N2] _ Hdb]%apply_inv. destruct Hok as [Hg Hf Hm _ _ Hi1 Hi2 Hdb0].
  destruct Hd as [V1 V2 G1 G2 I1 I2 M]. unfold wfNodes in Hwn. unfold wfEdges in Hwe. rewrite Forall_forall in Hwn. rewrite Forall_forall in Hwe.
  rewrite Forall_forall in I1. rewrite Forall_forall in I2.
  set (PN := fun id => id < dl_NextNodeID delta). set (PE := fun id => id < dl_NextEdgeID delta).
  assert (H0 : entityInv PN PE (elems (dl_DeleteNodes delta)) acc).
  { split.
    - eapply graphOK_ids; [exact Hg|..]; unfold nodesBelow, edgesBelow, PN, PE; intros id _ ?; lia.
    - eapply map_Forall_impl; [exact Hf|]. intros id r (? & ? & ? & [?|[]%elem_of_nil]); split_and!; auto. }
  destruct (applyEntities_ok PN PE _ acc delta acc1 eq_refl H0) as [Hg1 Hf1]; [| |done|].
  { rewrite Forall_forall in Hns. apply Forall_forall. intros n Hn. destruct (Hns n Hn). split; [|done]. apply validateUpsertNode_ok; auto. }
  { rewrite Forall_forall in Hes. apply Forall_forall. intros e Hin. destruct (Hes e Hin) as [Hv ?]. split; [|done]. split; [by auto|]. apply validateUpsertEdge_ok; auto. }
  split; rewrite ?N1, ?N2; try done.
  - destruct Hg1 as [K1 K2 K3 K4 K5 K6 K7]. split; rewrite ?En, ?Ee, ?Ec, ?Etn, ?Ete; try done; unfold nodesBelow, edgesBelow; by rewrite ?N1, ?N2.
  - unfold ftsInv. by rewrite En, Ef.
  - rewrite Hmd. by apply applyMetadata_all.
  - exact (applyIndexes_ok _ _ _ _ Hi1 Hni).
  - exact (applyIndexes_ok _ _ _ _ Hi2 Hei).
  - by rewrite Hdb.
Qed.

(** ** Applying property patches *)

Section prepared.
Context {A : Type} (context : gostring) (deleted full : list N) (identifier : N -> N) (props : A -> properties) (m : gmap N A).
Context (read : N -> storedMap) (Hread : forall id x, m !! id = Some x -> read id = elems (props x)).
Context (Hm : forall id x, m !! id = Some x -> storedOK (props x)).

(** A patched map, ready to be stored in place of entity [id]'s. *)
Definition patched (change : persistedPropertyChange) (p : storedMap * propertyTotals) : Prop :=
  p.1 = patchProperties (read (pc_ID change)) change /\ p.2 = exactTotals p.1 /\ storedOK (Some p.1) /\
  pc_ID change ∉ deleted /\ pc_ID change ∉ full.

Lemma cachePropertyTotals_ok cache id totals cache' : is_Some (m !! id) -> cached props m cache ->
  cachePropertyTotals read cache id = inl (totals, cache') -> totals = exactTotals (read id) /\ cached props m cache'.
Proof.
  intros [x Hx] Hc. unfold cachePropertyTotals. destruct (Hm id x Hx) as [[Hs Hw] Hp]. rewrite (Hread id x Hx).
  destruct (cache !! id) as [t|] eqn:E.
  - intros [= <- <-]. destruct (Hc id t E) as (x' & Hx' & ->). split; [congruence|done].
  - rewrite derivePropertyTotals_exact by done. intros [= <- <-]. split; [done|].
    intros k t. destruct (decide (id = k)) as [->|Hne]; [rewrite lookup_insert_eq; intros [= <-]; eauto|].
    rewrite lookup_insert_ne by done. apply Hc.
Qed.

Lemma prepareChange_ok cache change p cache' :
  is_Some (m !! pc_ID change) -> wfStored (elems (pc_Set change)) -> cached props m cache ->
  prepareChange context deleted full read cache change = inl (p, cache') -> patched change p /\ cached props m cache'.
Proof.
  intros Hx Hw Hc. unfold prepareChange. destruct (bool_decide_reflect (pc_ID change ∈ deleted)); [done|].
  destruct (bool_decide_reflect (pc_ID change ∈ full)); [done|].
  destruct (cachePropertyTotals read cache (pc_ID change)) as [[totals cache1]|] eqn:E; [|done].
  destruct (cachePropertyTotals_ok _ _ _ _ Hx Hc E) as [-> Hc']. destruct Hx as [x Hx].
  destruct (Hm _ _ Hx) as [[Hs Hwf] Hp]. rewrite <- (Hread _ _ Hx) in Hs, Hwf, Hp.
  pose proof (adjust_exact (read (pc_ID change)) change Hs Hp Hw) as Ha.
  destruct (propsOKP (elems (pc_Set change)) && _) eqn:Ep; [|by destruct Ha as [err ->]].
  destruct Ha as [-> Hpatch]. intros [= <- <-]. split; [|done]. unfold patched. cbn [fst snd]. split_and!; try done.
  split; [|done]. split; [by apply patch_sorted|]. apply patch_Forall; [done|by destruct Hw].
Qed.

Lemma prepareChanges_ok changes : forall cache ps cache',
  Forall (fun c => is_Some (m !! pc_ID c) /\ wfStored (elems (pc_Set c))) changes -> cached props m cache ->
  prepareChanges context deleted full identifier read cache changes = inl (ps, cache') ->
  Forall2 (fun c p => p.1 = identifier (pc_ID c) /\ patched c p.2) changes ps /\ cached props m cache'.
Proof.
  induction changes as [|c changes IH]; intros cache ps cache' Hl Hc; cbn [prepareChanges]; [intros [= <- <-]; by split|].
  apply Forall_cons in Hl as [[Hx Hw] Hl]. destruct (prepareChange _ _ _ _ cache c) as [[p cache1]|] eqn:E; [|done].
  destruct (prepareChange_ok _ _ _ _ Hx Hw Hc E) as [Hp Hc1].
  destruct (prepareChanges _ _ _ _ _ cache1 changes) as [[ps1 cache2]|] eqn:E2; [|done]. intros [= <- <-].
  destruct (IH _ _ _ Hl Hc1 E2) as [H2 Hc2]. split; [|done]. by constructor.
Qed.
End prepared.

Lemma validateChanges_all entity changes : forall seen, validateChangesFrom changes entity seen = None ->
  Forall (fun c => entity (pc_ID c) = true /\ ValidateEntityID (pc_ID c) = None /\ pc_ID c ∉ seen) changes /\ NoDup (map pc_ID changes).
Proof.
  induction changes as [|c changes IH]; intros seen; cbn [validateChangesFrom map]; [by repeat constructor|].
  destruct (ValidateEntityID (pc_ID c)) eqn:Ev; [done|]. destruct (bool_decide_reflect (pc_ID c ∈ seen)); [done|].
  destruct (entity (pc_ID c)) eqn:Ee; [|done]. cbn [negb]. destruct (validateKeys _ _); [done|]. intros [Hl Hnd]%IH.
  rewrite Forall_cons, NoDup_cons. rewrite Forall_forall in Hl. split_and!; try done.
  - apply Forall_forall. intros x Hx. destruct (Hl x Hx) as (? & ? & Hn). split_and!; try done. intros Hin. apply Hn. by apply elem_of_union_r.
  - intros (x & E & Hx)%list_elem_of_fmap. destruct (Hl x Hx) as (_ & _ & Hn). apply Hn, elem_of_union_l. rewrite E. by apply elem_of_singleton.
Qed.

Lemma degree_same edges id e e' n : edges !! id = Some e -> pe_SourceID e' = pe_SourceID e -> pe_TargetID e' = pe_TargetID e ->
  degree (<[id := e']> edges) n = degree edges n.
Proof.
  intros He Hs Ht. rewrite (degree_delete edges id e n He), <- (insert_delete_eq edges), degree_insert by apply lookup_delete_eq.
  unfold endAt. by rewrite Hs, Ht.
Qed.

Lemma cached_insert {A} (props : A -> properties) m totals id x t :
  cached props m totals -> t = exactTotals (elems (props x)) -> cached props (<[id := x]> m) (<[id := t]> totals).
Proof.
  intros Hc -> k t'. destruct (decide (id = k)) as [->|Hne]; [rewrite !lookup_insert_eq; intros [= <-]; eauto|].
  rewrite !lookup_insert_ne by done. apply Hc.
Qed.

(** A prepared map whose entity is stored. *)
Definition readyFor (acc : walAccumulator) (change : preparedPropertyMap) : Prop :=
  (if nodeID change =? 0 then is_Some (acc_edges acc !! edgeID change) else is_Some (acc_nodes acc !! nodeID change)) /\
  storedOK (Some (pp_properties change)) /\ pp_totals change = exactTotals (pp_properties change).

Lemma storePrepared_ok PN PE acc change : graphOK PN PE acc -> readyFor acc change -> graphOK PN PE (storePrepared acc change).
Proof.
  intros [Hn He Hc Htn Hte Hin Hie] (Hsome & Hp & Ht). unfold storePrepared. destruct (nodeID change =? 0); cbn [negb].
  - destruct Hsome as [e Ee]. rewrite Ee. cbn [default from_option id]. pose proof (He _ _ Ee) as []. split; cbn; try done.
    + apply map_Forall_insert_2; [|done]. by constructor.
    + intros n. rewrite (degree_same _ _ e) by done. apply Hc.
    + by apply cached_insert.
    + apply map_Forall_insert_2; [|done]. by eapply Hie.
  - destruct Hsome as [n En]. rewrite En. cbn [default from_option id]. pose proof (Hn _ _ En) as []. split; cbn; try done.
    + apply map_Forall_insert_2; [|done]. by constructor.
    + eapply map_Forall_impl; [exact He|]. intros k e. apply edgeOK_nodes. intros k' Hk'. apply lookup_insert_is_Some'. by right.
    + by apply cached_insert.
    + apply map_Forall_insert_2; [|done]. by eapply Hin.
Qed.

Lemma storePrepared_keeps acc change : acc_state (storePrepared acc change) = acc_state acc /\ acc_streams (storePrepared acc change) = acc_streams acc /\
  acc_metadata (storePrepared acc change) = acc_metadata acc /\ acc_fts (storePrepared acc change) = acc_fts acc /\
  (forall id, is_Some (acc_nodes acc !! id) -> is_Some (acc_nodes (storePrepared acc change) !! id)) /\
  (forall id, is_Some (acc_edges acc !! id) -> is_Some (acc_edges (storePrepared acc change) !! id)).
Proof.
  unfold storePrepared. destruct (negb _); cbn; split_and!; try done; intros id Hid; apply lookup_insert_is_Some'; by right.
Qed.

Lemma readyFor_keeps acc change p : readyFor acc p -> readyFor (storePrepared acc change) p.
Proof.
  intros (H & ? & ?). pose proof (storePrepared_keeps acc change) as (_ & _ & _ & _ & K1 & K2).
  split; [|done]. destruct (nodeID p =? 0); auto.
Qed.

Lemma storeAll_ok prepared : forall acc, accOK acc -> Forall (readyFor acc) prepared -> accOK (foldl storePrepared acc prepared).
Proof.
  induction prepared as [|p prepared IH]; intros acc Hok Hl; [done|]. apply Forall_cons in Hl as [Hp Hl]. cbn [foldl].
  pose proof (storePrepared_keeps acc p) as (E1 & _ & E3 & E4 & K1 & _). apply IH.
  - destruct Hok as [Hg Hf Hm ? ? ? ? ?]. split; rewrite ?E1, ?E3; try done.
    + unfold nodesBelow, edgesBelow. rewrite E1. by apply storePrepared_ok.
    + eapply ftsInv_nodes; [exact Hf|done|]. intros id Hid. left. by apply K1.
  - eapply Forall_impl; [exact Hl|]. intros q. apply readyFor_keeps.
Qed.

(** ** What a delta does to the maps *)

Lemma foldError_proj {A B C} (f : A -> B -> A + error) (g : A -> C) (h : C -> B -> C) l : forall a a',
  (forall a x a', f a x = inl a' -> g a' = h (g a) x) -> foldError f a l = inl a' -> g a' = foldl h (g a) l.
Proof.
  induction l as [|x l IH]; intros a a' Hf; cbn [foldError foldl]; [by intros [= <-]|].
  destruct (f a x) as [a1|] eqn:E; [|done]. intros H. rewrite <- (Hf _ _ _ E). by apply IH.
Qed.

Lemma foldError_same {A B C} (f : A -> B -> A + error) (g : A -> C) l a a' :
  (forall a x a', f a x = inl a' -> g a' = g a) -> foldError f a l = inl a' -> g a' = g a.
Proof.
  intros Hf. apply (foldError_ind f (fun b => g b = g a)); [|done]. intros b x b' _ Hb E. by rewrite (Hf _ _ _ E).
Qed.

Definition upsertAll {A K} `{Countable K} (key : A -> K) (m : gmap K A) (l : list A) : gmap K A := foldl (fun m x => <[key x := x]> m) m l.
Definition deleteAll {A} (m : gmap N A) (l : list N) : gmap N A := foldl (fun m id => delete id m) m l.

(** Take a successful step apart and read the map it changed. *)
Ltac step_map := repeat case_match; try done; intros [= <-]; done.

Lemma applyEntities_maps acc delta acc' : applyEntities acc delta = inl acc' ->
  acc_nodes acc' = deleteAll (upsertAll pn_ID (acc_nodes acc) (elems (dl_UpsertNodes delta))) (elems (dl_DeleteNodes delta)) /\
  acc_edges acc' = upsertAll pe_ID (deleteAll (acc_edges acc) (elems (dl_DeleteEdges delta))) (elems (dl_UpsertEdges delta)) /\
  acc_fts acc' = upsertAll pf_NodeID (deleteAll (acc_fts acc) (elems (dl_DeleteFTS delta))) (elems (dl_UpsertFTS delta)).
Proof.
  unfold applyEntities. destruct (foldError deleteEdge acc _) as [a1|] eqn:E1; [|done].
  set (a2 := foldl upsertNode a1 _). destruct (foldError upsertEdge a2 _) as [a3|] eqn:E3; [|done].
  destruct (foldError deleteNode a3 _) as [a4|] eqn:E4; [|done]. destruct (foldError deleteFTS a4 _) as [a5|] eqn:E5; [|done].
  destruct (foldError upsertFTS a5 _) as [a6|] eqn:E6; [|done]. destruct (existsb _ _); [done|]. intros [= <-].
  assert (H2 : acc_nodes a2 = upsertAll pn_ID (acc_nodes a1) (elems (dl_UpsertNodes delta)) /\ acc_edges a2 = acc_edges a1 /\ acc_fts a2 = acc_fts a1).
  { unfold a2, upsertAll. clear. generalize (elems (dl_UpsertNodes delta)). intros l. revert a1. induction l as [|n l IH]; intros a1; [done|]. cbn [foldl].
    destruct (IH (upsertNode a1 n)) as (-> & -> & ->). done. }
  destruct H2 as (N2 & G2 & F2). unfold deleteAll. split_and!.
  - rewrite (foldError_same upsertFTS acc_nodes _ _ _ ltac:(unfold upsertFTS; intros ???; step_map) E6).
    rewrite (foldError_same deleteFTS acc_nodes _ _ _ ltac:(unfold deleteFTS; intros ???; step_map) E5).
    rewrite (foldError_proj deleteNode acc_nodes (fun m id => delete id m) _ _ _ ltac:(unfold deleteNode; intros ???; step_map) E4).
    rewrite (foldError_same upsertEdge acc_nodes _ _ _ ltac:(unfold upsertEdge; intros ???; step_map) E3), N2.
    by rewrite (foldError_same deleteEdge acc_nodes _ _ _ ltac:(unfold deleteEdge; intros ???; step_map) E1).
  - rewrite (foldError_same upsertFTS acc_edges _ _ _ ltac:(unfold upsertFTS; intros ???; step_map) E6).
    rewrite (foldError_same deleteFTS acc_edges _ _ _ ltac:(unfold deleteFTS; intros ???; step_map) E5).
    rewrite (foldError_same deleteNode acc_edges _ _ _ ltac:(unfold deleteNode; intros ???; step_map) E4).
    rewrite (foldError_proj upsertEdge acc_edges (fun m e => <[pe_ID e := e]> m) _ _ _ ltac:(unfold upsertEdge; intros ???; step_map) E3), G2.
    by rewrite (foldError_proj deleteEdge acc_edges (fun m id => delete id m) _ _ _ ltac:(unfold deleteEdge; intros ???; step_map) E1).
  - rewrite (foldError_proj upsertFTS acc_fts (fun m r => <[pf_NodeID r := r]> m) _ _ _ ltac:(unfold upsertFTS; intros ???; step_map) E6).
    rewrite (foldError_proj deleteFTS acc_fts (fun m id => delete id m) _ _ _ ltac:(unfold deleteFTS; intros ???; step_map) E5).
    rewrite (foldError_same deleteNode acc_fts _ _ _ ltac:(unfold deleteNode; intros ???; step_map) E4).
    rewrite (foldError_same upsertEdge acc_fts _ _ _ ltac:(unfold upsertEdge; intros ???; step_map) E3), F2.
    by rewrite (foldError_same deleteEdge acc_fts _ _ _ ltac:(unfold deleteEdge; intros ???; step_map) E1).
Qed.

Lemma upsertAll_keeps {A K} `{Countable K} (key : A -> K) l id : forall m, is_Some (m !! id) -> is_Some (upsertAll key m l !! id).
Proof. induction l as [|x l IH]; intros m Hm; [done|]. apply IH. apply lookup_insert_is_Some'. by right. Qed.

Lemma deleteAll_keeps {A} l id : forall m : gmap N A, id ∉ l -> is_Some (m !! id) -> is_Some (deleteAll m l !! id).
Proof.
  induction l as [|x l IH]; intros m Hn Hm; [done|]. apply not_elem_of_cons in Hn as [Hne Hn]. apply IH; [done|].
  by rewrite lookup_delete_ne.
Qed.

Lemma apply_keeps acc delta acc' : apply acc delta = inl acc' ->
  (forall id, id ∉ elems (dl_DeleteNodes delta) -> is_Some (acc_nodes acc !! id) -> is_Some (acc_nodes acc' !! id)) /\
  (forall id, id ∉ elems (dl_DeleteEdges delta) -> is_Some (acc_edges acc !! id) -> is_Some (acc_edges acc' !! id)).
Proof.
  intros [_ _ _ _ _ _ _ (acc1 & He & En & Ee & _) _ _ _]%apply_inv. apply applyEntities_maps in He as (E1 & E2 & _).
  rewrite En, Ee, E1, E2. split; intros id Hn Hs.
  - by apply deleteAll_keeps, upsertAll_keeps.
  - by apply upsertAll_keeps, deleteAll_keeps.
Qed.

Lemma nodeProperties_at acc id n : acc_nodes acc !! id = Some n -> nodeProperties acc id = elems (pn_Properties n).
Proof. unfold nodeProperties. by intros ->. Qed.
Lemma edgeProperties_at acc id e : acc_edges acc !! id = Some e -> edgeProperties acc id = elems (pe_Properties e).
Proof. unfold edgeProperties. by intros ->. Qed.

Lemma changes_exist {A} (m : gmap N A) changes :
  wfChanges changes -> validatePropertyChanges (elems changes) (fun id => bool_decide (is_Some (m !! id))) = None ->
  Forall (fun c => is_Some (m !! pc_ID c) /\ wfStored (elems (pc_Set c))) (elems changes) /\ NoDup (map pc_ID (elems changes)).
Proof.
  unfold wfChanges. intros Hw [H Hnd]%validateChanges_all. split; [|done]. rewrite Forall_forall in Hw. rewrite Forall_forall in H.
  apply Forall_forall. intros c Hc. destruct (H c Hc) as (E & _ & _). split; [by apply bool_decide_eq_true in E|by apply Hw].
Qed.

(** A change and the patched map prepared for it, which is stored under its own
    identifier. *)
Definition preparedFor {A} (m : gmap N A) (deleted full : list N) (read : N -> storedMap) (c : persistedPropertyChange)
    (p : N * (storedMap * propertyTotals)) : Prop :=
  is_Some (m !! pc_ID c) /\ p.1 = pc_ID c /\ patched deleted full read c p.2.

Lemma prepared_identified {A} (m : gmap N A) deleted full read (identifier : N -> N) changes ps :
  (forall id, is_Some (m !! id) -> identifier id = id) -> Forall (fun c => is_Some (m !! pc_ID c) /\ wfStored (elems (pc_Set c))) changes ->
  Forall2 (fun c p => p.1 = identifier (pc_ID c) /\ patched deleted full read c p.2) changes ps ->
  Forall2 (preparedFor m deleted full read) changes ps.
Proof.
  intros Hid Hl H. revert Hl. induction H as [|c p changes ps [E Hp] _ IH]; [constructor|]. intros [[Hs _] Hl]%Forall_cons.
  constructor; [|by apply IH]. split_and!; [done| |done]. rewrite E. by apply Hid.
Qed.

Lemma nodeIDOf_at PN PE acc id : graphOK PN PE acc -> is_Some (acc_nodes acc !! id) -> nodeIDOf acc id = id.
Proof. intros Hg [n Hn]. unfold nodeIDOf. rewrite Hn. by destruct (gk_nodes _ _ _ Hg _ _ Hn). Qed.
Lemma edgeIDOf_at PN PE acc id : graphOK PN PE acc -> is_Some (acc_edges acc !! id) -> edgeIDOf acc id = id.
Proof. intros Hg [e He]. unfold edgeIDOf. rewrite He. by destruct (gk_edges _ _ _ Hg _ _ He). Qed.

Definition nodePrepared (acc : walAccumulator) (delta : persistedDelta) :=
  preparedFor (acc_nodes acc) (elems (dl_DeleteNodes delta)) (map pn_ID (elems (dl_UpsertNodes delta))) (nodeProperties acc).
Definition edgePrepared (acc : walAccumulator) (delta : persistedDelta) :=
  preparedFor (acc_edges acc) (elems (dl_DeleteEdges delta)) (map pe_ID (elems (dl_UpsertEdges delta))) (edgeProperties acc).
Definition asNode (p : N * (storedMap * propertyTotals)) : preparedPropertyMap := mkPrepared p.1 0 p.2.1 p.2.2.
Definition asEdge (p : N * (storedMap * propertyTotals)) : preparedPropertyMap := mkPrepared 0 p.1 p.2.1 p.2.2.

(** What [preparePropertyDelta] hands over. *)
Lemma preparePropertyDelta_ok PN PE acc delta prepared acc' :
  graphOK PN PE acc -> wfChanges (dl_NodePropertyChanges delta) -> wfChanges (dl_EdgePropertyChanges delta) ->
  preparePropertyDelta acc delta = inl (prepared, acc') ->
  exists nodeTotals edgeTotals ns es,
    acc' = withTotals acc nodeTotals edgeTotals /\ graphOK PN PE acc' /\ prepared = map asNode ns ++ map asEdge es /\
    Forall2 (nodePrepared acc delta) (elems (dl_NodePropertyChanges delta)) ns /\
    Forall2 (edgePrepared acc delta) (elems (dl_EdgePropertyChanges delta)) es /\
    NoDup (map pc_ID (elems (dl_NodePropertyChanges delta))) /\ NoDup (map pc_ID (elems (dl_EdgePropertyChanges delta))).
Proof.
  intros Hg Hwn Hwe. pose proof Hg as [Hn He Hc Htn Hte Hin Hie]. unfold preparePropertyDelta.
  destruct (wrapErr _ (validatePropertyChanges (elems (dl_NodePropertyChanges delta)) _)) eqn:E1; [done|].
  destruct (wrapErr _ (validatePropertyChanges (elems (dl_EdgePropertyChanges delta)) _)) eqn:E2; [done|].
  apply wrapErr_none, (changes_exist _ _ Hwn) in E1 as [V1 D1]. apply wrapErr_none, (changes_exist _ _ Hwe) in E2 as [V2 D2].
  destruct (prepareChanges _ _ _ (nodeIDOf acc) _ _ _) as [[ns nt]|] eqn:P1; [|done].
  destruct (prepareChanges _ _ _ (edgeIDOf acc) _ _ _) as [[es et]|] eqn:P2; [|done]. intros [= <- <-].
  apply (prepareChanges_ok _ _ _ _ pn_Properties (acc_nodes acc) _ (nodeProperties_at acc)) in P1 as [F1 C1];
    [|by intros id n [_ _ _ ?]%Hn|done|done].
  apply (prepareChanges_ok _ _ _ _ pe_Properties (acc_edges acc) _ (edgeProperties_at acc)) in P2 as [F2 C2];
    [|by intros id e [_ _ _ _ _ ?]%He|done|done].
  exists nt, et, ns, es. split_and!; try done.
  - eapply prepared_identified; [|exact V1|exact F1]. intros id. by apply (nodeIDOf_at PN PE).
  - eapply prepared_identified; [|exact V2|exact F2]. intros id. by apply (edgeIDOf_at PN PE).
Qed.

Lemma accOK_withTotals acc nt et : accOK acc -> graphOK (nodesBelow acc) (edgesBelow acc) (withTotals acc nt et) -> accOK (withTotals acc nt et).
Proof. intros [_ ? ? ? ? ? ? ?] Hg. by split. Qed.

Lemma nodes_ready acc acc1 delta l ps :
  graphOK (nodesBelow acc) (edgesBelow acc) acc ->
  (forall id, id ∉ elems (dl_DeleteNodes delta) -> is_Some (acc_nodes acc !! id) -> is_Some (acc_nodes acc1 !! id)) ->
  Forall2 (nodePrepared acc delta) l ps -> Forall (readyFor acc1) (map asNode ps).
Proof.
  intros Hg Hkeep. induction 1 as [|c p l ps (Hs & E & _ & Ht & Hok & Hd & _) _ IH]; [constructor|]. constructor; [|exact IH].
  destruct p as [id [m t]]. cbn [fst snd] in *. subst id. unfold readyFor. cbn [nodeID asNode fst snd pp_properties pp_totals].
  split; [|by split]. destruct (N.eqb_spec (pc_ID c) 0) as [E0|_]; [|by apply Hkeep].
  destruct Hs as [n Hn]. destruct (gk_nodes _ _ _ Hg _ _ Hn) as [_ Hv _ _]. apply validID_range in Hv. lia.
Qed.

Lemma edges_ready acc acc1 delta l ps :
  (forall id, id ∉ elems (dl_DeleteEdges delta) -> is_Some (acc_edges acc !! id) -> is_Some (acc_edges acc1 !! id)) ->
  Forall2 (edgePrepared acc delta) l ps -> Forall (readyFor acc1) (map asEdge ps).
Proof.
  intros Hkeep. induction 1 as [|c p l ps (Hs & E & _ & Ht & Hok & Hd & _) _ IH]; [constructor|]. constructor; [|exact IH].
  destruct p as [id [m t]]. cbn [fst snd] in *. subst id. split; [|by split]. cbn. by apply Hkeep.
Qed.

Lemma applyPropertyDelta_ok acc delta acc' :
  accOK acc -> wfNodes (dl_UpsertNodes delta) -> wfEdges (dl_UpsertEdges delta) ->
  wfChanges (dl_NodePropertyChanges delta) -> wfChanges (dl_EdgePropertyChanges delta) ->
  applyPropertyDelta acc delta = inl acc' -> accOK acc'.
Proof.
  intros Hok Hwn Hwe Hcn Hce. unfold applyPropertyDelta. destruct (wrapped _ (preparePropertyDelta acc delta)) as [[prepared a1]|] eqn:E1; [|done].
  apply wrapped_inl in E1. destruct (preparePropertyDelta_ok _ _ _ _ _ _ (ok_graph _ Hok) Hcn Hce E1) as (nt & et & ns & es & -> & Hg & -> & Fn & Fe & _ & _).
  destruct (wrapped _ (apply _ _)) as [a2|] eqn:E2; [|done]. apply wrapped_inl in E2. intros [= <-].
  destruct (apply_keeps _ _ _ E2) as [Kn Ke]. apply storeAll_ok.
  - eapply apply_ok; [by apply accOK_withTotals|..|exact E2]; done.
  - apply Forall_app. split; [eapply nodes_ready; [by apply ok_graph|exact Kn|exact Fn]|eapply edges_ready; [exact Ke|exact Fe]].
Qed.

(** ** Where a property delta writes *)

Section set_props.
Context {A : Type} (zero : A) (upd : A -> storedMap -> A).

Definition setProps (m : gmap N A) (p : N * (storedMap * propertyTotals)) : gmap N A :=
  <[p.1 := upd (default zero (m !! p.1)) p.2.1]> m.

Lemma setProps_other ps id : forall m, id ∉ ps.*1 -> foldl setProps m ps !! id = m !! id.
Proof.
  induction ps as [|p ps IH]; intros m Hn; [done|]. rewrite fmap_cons in Hn. apply not_elem_of_cons in Hn as [Hne Hn]. cbn [foldl].
  rewrite IH by done. unfold setProps. by rewrite lookup_insert_ne.
Qed.

Lemma setProps_at ps p : forall m x, NoDup ps.*1 -> p ∈ ps -> m !! p.1 = Some x -> foldl setProps m ps !! p.1 = Some (upd x p.2.1).
Proof.
  induction ps as [|q ps IH]; intros m x Hnd Hin Hm; [by apply elem_of_nil in Hin|]. rewrite fmap_cons in Hnd. apply NoDup_cons in Hnd as [Hn Hnd].
  apply elem_of_cons in Hin as [->|Hin]; cbn [foldl].
  - rewrite setProps_other by done. unfold setProps. by rewrite Hm, lookup_insert_eq.
  - apply IH; [done..|]. unfold setProps. rewrite lookup_insert_ne; [done|]. intros E. apply Hn. rewrite E. by apply list_elem_of_fmap_2.
Qed.
End set_props.

Definition withNodeProps (n : persistedNode) (m : storedMap) : persistedNode := mkPNode (pn_ID n) (pn_Labels n) (Some m).
Definition withEdgeProps (e : persistedEdge) (m : storedMap) : persistedEdge :=
  mkPEdge (pe_ID e) (pe_SourceID e) (pe_TargetID e) (pe_Type e) (Some m).
Abbreviation setNodeProps := (setProps (mkPNode 0 None None) withNodeProps).
Abbreviation setEdgeProps := (setProps (mkPEdge 0 0 0 [] None) withEdgeProps).

Lemma storeAll_maps ns es : forall acc, Forall (fun p => p.1 <> 0) ns ->
  acc_nodes (foldl storePrepared acc (map asNode ns ++ map asEdge es)) = foldl setNodeProps (acc_nodes acc) ns /\
  acc_edges (foldl storePrepared acc (map asNode ns ++ map asEdge es)) = foldl setEdgeProps (acc_edges acc) es.
Proof.
  induction ns as [|p ns IH]; intros acc Hn.
  - cbn [map app foldl]. clear Hn. revert acc. induction es as [|p es IH]; intros acc; [done|]. cbn [map foldl].
    destruct (IH (storePrepared acc (asEdge p))) as [-> ->]. done.
  - apply Forall_cons in Hn as [Hp Hn]. cbn [map app foldl]. destruct (IH (storePrepared acc (asNode p)) Hn) as [-> ->].
    unfold storePrepared. cbn [asNode nodeID]. destruct (N.eqb_spec p.1 0); done.
Qed.

(** The changed entities: where [c] applies, the map holds [upd] of the entity before,
    with its properties patched; elsewhere it is unchanged. *)
Definition patchedMap {A} (upd : A -> storedMap -> A) (props : A -> properties) (m m' : gmap N A) (changes : list persistedPropertyChange) : Prop :=
  (forall c, c ∈ changes -> exists x, m !! pc_ID c = Some x /\ m' !! pc_ID c = Some (upd x (patchProperties (elems (props x)) c))) /\
  (forall id, id ∉ map pc_ID changes -> m' !! id = m !! id).

Lemma patchedMap_intro {A} zero (upd : A -> storedMap -> A) props (m0 m : gmap N A) deleted full read changes ps :
  (forall id x, m0 !! id = Some x -> read id = elems (props x)) -> NoDup (map pc_ID changes) ->
  (forall id, id ∉ deleted -> id ∉ full -> m !! id = m0 !! id) ->
  Forall2 (preparedFor m0 deleted full read) changes ps -> patchedMap upd props m (foldl (setProps zero upd) m ps) changes.
Proof.
  intros Hread Hnd Hsame HF.
  assert (Hkeys : ps.*1 = map pc_ID changes).
  { clear Hnd. induction HF as [|c p cs ps (_ & E & _) _ IH]; [done|]. rewrite fmap_cons. cbn [map]. by rewrite IH, E. }
  split; [|intros id Hid; apply setProps_other; by rewrite Hkeys].
  intros c Hc. apply list_elem_of_lookup in Hc as [i Hi]. destruct (Forall2_lookup_l _ _ _ _ _ HF Hi) as (p & Hp & (x & Hx) & E & Em & _ & _ & Hd & Hf).
  exists x. rewrite Hsame by done. split; [done|]. rewrite <- E, <- (Hread _ _ Hx), <- Em. apply setProps_at; [by rewrite Hkeys|by eapply list_elem_of_lookup_2|].
  by rewrite E, Hsame.
Qed.

Lemma upsertAll_other {A K} `{Countable K} (key : A -> K) l id : forall m, id ∉ map key l -> upsertAll key m l !! id = m !! id.
Proof.
  induction l as [|x l IH]; intros m Hn; [done|]. cbn [map] in Hn. apply not_elem_of_cons in Hn as [Hne Hn]. unfold upsertAll in *. cbn [foldl].
  rewrite IH by done. by rewrite lookup_insert_ne.
Qed.

Lemma deleteAll_other {A} l id : forall m : gmap N A, id ∉ l -> deleteAll m l !! id = m !! id.
Proof.
  induction l as [|x l IH]; intros m Hn; [done|]. apply not_elem_of_cons in Hn as [Hne Hn]. unfold deleteAll in *. cbn [foldl].
  rewrite IH by done. by rewrite lookup_delete_ne.
Qed.

(** The maps after a delta, before its property patches. *)
Definition deltaNodes (acc : walAccumulator) (delta : persistedDelta) : gmap N persistedNode :=
  deleteAll (upsertAll pn_ID (acc_nodes acc) (elems (dl_UpsertNodes delta))) (elems (dl_DeleteNodes delta)).
Definition deltaEdges (acc : walAccumulator) (delta : persistedDelta) : gmap N persistedEdge :=
  upsertAll pe_ID (deleteAll (acc_edges acc) (elems (dl_DeleteEdges delta))) (elems (dl_UpsertEdges delta)).
Definition deltaFTS (acc : walAccumulator) (delta : persistedDelta) : gmap N persistedFTS :=
  upsertAll pf_NodeID (deleteAll (acc_fts acc) (elems (dl_DeleteFTS delta))) (elems (dl_UpsertFTS delta)).

Lemma apply_maps acc delta acc' : apply acc delta = inl acc' ->
  acc_nodes acc' = deltaNodes acc delta /\ acc_edges acc' = deltaEdges acc delta /\ acc_fts acc' = deltaFTS acc delta.
Proof.
  intros [_ _ _ _ _ _ _ (acc1 & He & -> & -> & -> & _) _ _ _]%apply_inv. by apply applyEntities_maps in He.
Qed.

Lemma applyPropertyDelta_maps acc delta acc' :
  accOK acc -> wfChanges (dl_NodePropertyChanges delta) -> wfChanges (dl_EdgePropertyChanges delta) ->
  applyPropertyDelta acc delta = inl acc' ->
  patchedMap withNodeProps pn_Properties (deltaNodes acc delta) (acc_nodes acc') (elems (dl_NodePropertyChanges delta)) /\
  patchedMap withEdgeProps pe_Properties (deltaEdges acc delta) (acc_edges acc') (elems (dl_EdgePropertyChanges delta)).
Proof.
  intros Hok Hcn Hce. unfold applyPropertyDelta. destruct (wrapped _ (preparePropertyDelta acc delta)) as [[prepared a1]|] eqn:E1; [|done].
  apply wrapped_inl in E1. destruct (preparePropertyDelta_ok _ _ _ _ _ _ (ok_graph _ Hok) Hcn Hce E1) as (nt & et & ns & es & -> & Hg & -> & Fn & Fe & Dn & De).
  destruct (wrapped _ (apply _ _)) as [a2|] eqn:E2; [|done]. apply wrapped_inl, apply_maps in E2 as (M1 & M2 & _). intros [= <-].
  destruct (storeAll_maps ns es a2) as [-> ->].
  { clear -Fn Hok. induction Fn as [|c p l ps (Hs & E & _) _ IH]; [constructor|]. constructor; [|exact IH]. rewrite E. destruct Hs as [n Hn].
    destruct (gk_nodes _ _ _ (ok_graph _ Hok) _ _ Hn) as [_ Hv _ _]. apply validID_range in Hv. lia. }
  rewrite M1, M2. split.
  - eapply (patchedMap_intro _ _ _ (acc_nodes acc)); [apply nodeProperties_at|done| |exact Fn].
    intros id H1 H2. change (deltaNodes acc delta !! id = acc_nodes acc !! id). unfold deltaNodes. by rewrite deleteAll_other, upsertAll_other.
  - eapply (patchedMap_intro _ _ _ (acc_edges acc)); [apply edgeProperties_at|done| |exact Fe].
    intros id H1 H2. change (deltaEdges acc delta !! id = acc_edges acc !! id). unfold deltaEdges. by rewrite upsertAll_other, deleteAll_other.
Qed.

(** * A recovered state loads again

    The state an accumulator is written back as is a snapshot recovery accepts, and
    loading it gives the same graph, metadata and streams. *)

Lemma refill_elems {A} (old : slice A) l : elems (refill old l) = l.
Proof. unfold refill. destruct l; by destruct old. Qed.

(** ** Storing the values of a map one by one *)

Section values.
Context {A K : Type} `{Countable K} (key : A -> K).
Implicit Types (m : gmap K A).

Definition keyed m : Prop := forall id x, m !! id = Some x -> key x = id.

Lemma upsertAll_at l x : forall m, NoDup (map key l) -> x ∈ l -> upsertAll key m l !! key x = Some x.
Proof.
  induction l as [|y l IH]; intros m Hnd Hin; [by apply elem_of_nil in Hin|]. cbn [map] in Hnd. apply NoDup_cons in Hnd as [Hn Hnd].
  unfold upsertAll in *. cbn [foldl]. apply elem_of_cons in Hin as [->|Hin]; [|by apply IH].
  fold (upsertAll key (<[key y := y]> m) l). rewrite upsertAll_other by done. by rewrite lookup_insert_eq.
Qed.

(** The values found under distinct keys that cover the map rebuild it. *)
Lemma upsertAll_values m keys : keyed m -> NoDup keys -> (forall id, id ∈ keys <-> is_Some (m !! id)) ->
  let l := omap (fun id => m !! id) keys in
  upsertAll key ∅ l = m /\ NoDup (map key l) /\ (forall x, x ∈ l -> m !! key x = Some x).
Proof.
  intros Hk Hnd Hcov l.
  assert (Hkeys : map key l = keys).
  { assert (Hs : Forall (fun id => is_Some (m !! id)) keys) by (apply Forall_forall; intros id; apply Hcov). unfold l. clear -Hk Hs.
    induction Hs as [|id keys [x Hx] _ IH]; [done|]. cbn [omap list_omap]. rewrite Hx. cbn [map]. rewrite (Hk id x Hx). f_equal. exact IH. }
  assert (Hel : forall x, x ∈ l -> m !! key x = Some x).
  { intros x (id & _ & Hx)%list_elem_of_omap. by rewrite (Hk id x Hx). }
  split_and!; [|by rewrite Hkeys|done]. apply map_eq. intros id. destruct (m !! id) as [x|] eqn:E.
  - rewrite <- (Hk id x E). apply upsertAll_at; [by rewrite Hkeys|]. apply list_elem_of_omap. exists id. split; [|done]. apply Hcov. by eexists.
  - rewrite upsertAll_other, lookup_empty; [done|]. rewrite Hkeys, Hcov, E. by intros [? ?].
Qed.

Lemma fresh_insert m x l :
  Forall (fun y => m !! key y = None) l -> key x ∉ map key l -> Forall (fun y => <[key x := x]> m !! key y = None) l.
Proof.
  rewrite !Forall_forall. intros Hl Hx y Hy. rewrite lookup_insert_ne; [by apply Hl|]. intros E. apply Hx. rewrite E. by apply list_elem_of_fmap_2.
Qed.
End values.

Lemma sortedMapKeys_ok {A} (m : gmap N A) : NoDup (sortedMapKeys m) /\ forall id, id ∈ sortedMapKeys m <-> is_Some (m !! id).
Proof.
  assert (Hp : sortedMapKeys m ≡ₚ (map_to_list m).*1) by apply (merge_sort_Permutation N.le).
  split; [rewrite Hp; apply NoDup_fst_map_to_list|]. intros id. rewrite Hp. split.
  - intros ([k x] & -> & Hin)%list_elem_of_fmap. apply elem_of_map_to_list in Hin. by eexists.
  - intros [x Hx]. apply list_elem_of_fmap. exists (id, x). split; [done|]. by apply elem_of_map_to_list.
Qed.

Lemma valuesOf_ok {A} (key : A -> N) (m : gmap N A) : keyed key m ->
  upsertAll key ∅ (valuesOf m) = m /\ NoDup (map key (valuesOf m)) /\ (forall x, x ∈ valuesOf m -> m !! key x = Some x).
Proof. intros Hk. destruct (sortedMapKeys_ok m). by apply upsertAll_values. Qed.

Lemma maxKey_below {A} (key : A -> N) l bound : forall start, start < bound -> Forall (fun x => key x < bound) l ->
  foldl (fun acc x => N.max acc (key x)) start l < bound.
Proof. induction l as [|x l IH]; intros start Hs Hl; [done|]. apply Forall_cons in Hl as [Hx Hl]. apply IH; [lia|done]. Qed.

(** ** Recovering each part *)

Lemma decode_succeeds m : storedOK m -> exists out, decodePropertyMap (elems m) = inl out.
Proof. intros [Hw Hp]. pose proof (decodePropertyMap_exact _ Hw) as H. by rewrite Hp in H. Qed.

Lemma recoverNodes_all l : forall nodes maxID,
  Forall (fun n => nodeOK (pn_ID n) n) l -> NoDup (map pn_ID l) -> Forall (fun n => nodes !! pn_ID n = None) l ->
  foldError recoverNode (nodes, maxID) l = inl (upsertAll pn_ID nodes l, foldl (fun acc n => N.max acc (pn_ID n)) maxID l).
Proof.
  induction l as [|n l IH]; intros nodes maxID Hok Hnd Hnew; [done|]. cbn [map] in Hnd. apply NoDup_cons in Hnd as [Hn Hnd].
  apply Forall_cons in Hok as [[_ Hv Hl Hp] Hok]. apply Forall_cons in Hnew as [Hx Hnew]. cbn [foldError]. unfold recoverNode at 1.
  rewrite Hv, Hl, Hx. cbn [wrapErr option_map]. rewrite bool_decide_false by (by intros [? ?]).
  destruct (decode_succeeds _ Hp) as [out ->]. cbn [wrapped]. apply IH; [done..|].
  by apply fresh_insert.
Qed.

Definition recoveredEdges (l : list persistedEdge) (st : gmap N persistedEdge * gmap N N * N) : gmap N persistedEdge * gmap N N * N :=
  (upsertAll pe_ID st.1.1 l, foldl (fun m e => increment (increment m (pe_SourceID e)) (pe_TargetID e)) st.1.2 l,
   foldl (fun acc e => N.max acc (pe_ID e)) st.2 l).

Lemma recoverEdges_all nodes l : forall st,
  map_Forall nodeOK nodes ->
  Forall (fun e => edgeOK nodes (pe_ID e) e) l -> NoDup (map pe_ID l) -> Forall (fun e => st.1.1 !! pe_ID e = None) l ->
  foldError (recoverEdge nodes) st l = inl (recoveredEdges l st).
Proof.
  induction l as [|e l IH]; intros [[edges incident] maxID] Hnodes Hok Hnd Hnew; [done|]. cbn [map fst snd] in *. apply NoDup_cons in Hnd as [Hn Hnd].
  apply Forall_cons in Hok as [[_ Hv Ht [s Hs] [t Htg] Hp] Hok]. apply Forall_cons in Hnew as [Hx Hnew]. cbn [foldError]. unfold recoverEdge at 1.
  rewrite Hv, Ht, Hs, Htg, Hx. destruct (Hnodes _ _ Hs) as [_ -> _ _]. destruct (Hnodes _ _ Htg) as [_ -> _ _]. cbn [wrapErr option_map].
  rewrite bool_decide_false by (by intros [? ?]). rewrite !bool_decide_true by (by eexists). cbn [negb].
  destruct (decode_succeeds _ Hp) as [out ->]. cbn [wrapped]. apply IH; [done..|]. cbn [fst snd].
  by apply fresh_insert.
Qed.

Lemma recoverFTS_all nodes l : forall fts,
  Forall (fun r => ftsOK nodes [] (pf_NodeID r) r) l -> NoDup (map pf_NodeID l) -> Forall (fun r => fts !! pf_NodeID r = None) l ->
  foldError (recoverFTS nodes) fts l = inl (upsertAll pf_NodeID fts l).
Proof.
  induction l as [|r l IH]; intros fts Hok Hnd Hnew; [done|]. cbn [map] in *. apply NoDup_cons in Hnd as [Hn Hnd].
  apply Forall_cons in Hok as [(_ & Hv & Ht & [Hs|[]%elem_of_nil]) Hok]. apply Forall_cons in Hnew as [Hx Hnew]. cbn [foldError]. unfold recoverFTS at 1.
  rewrite Hv, Ht, Hx. cbn [wrapErr option_map]. rewrite (bool_decide_true (is_Some (nodes !! _))) by done. cbn [negb].
  rewrite bool_decide_false by (by intros [? ?]). apply IH; [done..|].
  by apply fresh_insert.
Qed.

Lemma recoverMetadata_all l : forall metadata,
  Forall (fun e => metadataOK (elems (pm_Key e)) e) l -> NoDup (map (fun e => elems (pm_Key e)) l) ->
  Forall (fun e => metadata !! elems (pm_Key e) = None) l ->
  foldError recoverMetadata metadata l = inl (upsertAll (fun e => elems (pm_Key e)) metadata l).
Proof.
  induction l as [|e l IH]; intros metadata Hok Hnd Hnew; [done|]. cbn [map] in *. apply NoDup_cons in Hnd as [Hn Hnd].
  apply Forall_cons in Hok as [[_ [H0 H1]] Hok]. apply Forall_cons in Hnew as [Hx Hnew]. cbn [foldError]. unfold recoverMetadata at 1. rewrite Hx.
  rewrite (proj2 (N.eqb_neq _ _)), (proj2 (N.ltb_ge _ _)) by lia. cbn [orb]. rewrite bool_decide_false by (by intros [? ?]).
  apply IH; [done..|]. by apply (fresh_insert (fun e => elems (pm_Key e))).
Qed.

(** ** The whole state *)

Record sameAcc (acc acc' : walAccumulator) : Prop := mkSameAcc {
  sa_nodes : acc_nodes acc' = acc_nodes acc;
  sa_edges : acc_edges acc' = acc_edges acc;
  sa_fts : acc_fts acc' = acc_fts acc;
  sa_metadata : acc_metadata acc' = acc_metadata acc;
  sa_incident : forall id, default 0 (acc_incident acc' !! id) = default 0 (acc_incident acc !! id);
  sa_next : st_NextNodeID (acc_state acc') = st_NextNodeID (acc_state acc) /\ st_NextEdgeID (acc_state acc') = st_NextEdgeID (acc_state acc);
  sa_commit : st_CommitID (acc_state acc') = st_CommitID (acc_state acc);
  sa_database : st_DatabaseID (acc_state acc') = st_DatabaseID (acc_state acc);
  sa_indexes : st_NodeIndexes (acc_state acc') = st_NodeIndexes (acc_state acc) /\ st_EdgeIndexes (acc_state acc') = st_EdgeIndexes (acc_state acc);
  sa_dimensions : st_VectorDimensions (acc_state acc') = st_VectorDimensions (acc_state acc) }.

Lemma highWater_pos next : ValidateIDHighWater next = None -> 0 < next.
Proof. unfold ValidateIDHighWater. destruct (N.eqb_spec next 0); [done|]. lia. Qed.

Lemma nextAfter_kept next maxID : maxID < next -> nextAfter next maxID = inl next.
Proof. intros H. unfold nextAfter. by rewrite (proj2 (N.leb_gt _ _)). Qed.

(** The parts of the written state load as the accumulator's maps. *)
Lemma reload_nodes acc : accOK acc ->
  exists maxID, foldError recoverNode (∅, 0) (valuesOf (acc_nodes acc)) = inl (acc_nodes acc, maxID) /\ maxID < st_NextNodeID (acc_state acc).
Proof.
  intros Hok. destruct (ok_graph _ Hok) as [Hn _ _ _ _ Hin _]. assert (Hk : keyed pn_ID (acc_nodes acc)) by (by intros id n []%Hn).
  destruct (valuesOf_ok pn_ID _ Hk) as (E & Hnd & Hel). eexists. split.
  - rewrite recoverNodes_all; [by rewrite E|apply Forall_forall; intros n Hx; by apply Hn, Hel|done|apply Forall_forall; intros; apply lookup_empty].
  - apply maxKey_below; [by apply highWater_pos, ok_nextNode|]. apply Forall_forall. intros n Hx. by eapply (Hin (pn_ID n)), Hel.
Qed.

Lemma reload_edges acc : accOK acc ->
  exists incident maxID, foldError (recoverEdge (acc_nodes acc)) (∅, ∅, 0) (valuesOf (acc_edges acc)) = inl (acc_edges acc, incident, maxID) /\
    maxID < st_NextEdgeID (acc_state acc) /\ counts (acc_edges acc) incident.
Proof.
  intros Hok. destruct (ok_graph _ Hok) as [Hn He _ _ _ _ Hie]. assert (Hk : keyed pe_ID (acc_edges acc)) by (by intros id n []%He).
  destruct (valuesOf_ok pe_ID _ Hk) as (E & Hnd & Hel).
  assert (Hr := recoverEdges_all (acc_nodes acc) (valuesOf (acc_edges acc)) (∅, ∅, 0) Hn
                  ltac:(apply Forall_forall; intros e Hx; by apply He, Hel) Hnd ltac:(apply Forall_forall; intros; apply lookup_empty)).
  unfold recoveredEdges in Hr. cbn [fst snd] in Hr. rewrite E in Hr. eexists _, _. split_and!; [exact Hr| |].
  - apply maxKey_below; [by apply highWater_pos, ok_nextEdge|]. apply Forall_forall. intros e Hx. by eapply (Hie (pe_ID e)), Hel.
  - assert (Hw : forall e, e ∈ valuesOf (acc_edges acc) -> wfStored (elems (pe_Properties e))).
    { intros e Hx. destruct (He _ _ (Hel e Hx)) as [_ _ _ _ _ [? _]]. done. }
    assert (H0 : edgesInv (acc_nodes acc) (∅, ∅, 0)) by (split_and!; [apply map_Forall_empty|by intros id|apply map_Forall_empty]).
    destruct (foldError_ind _ (edgesInv (acc_nodes acc)) _ _ _ ltac:(intros a x a' Hx; by apply recoverEdge_ok, Hw) H0 Hr) as (_ & Hc & _). exact Hc.
Qed.

Lemma reload_fts acc : accOK acc -> foldError (recoverFTS (acc_nodes acc)) ∅ (valuesOf (acc_fts acc)) = inl (acc_fts acc).
Proof.
  intros Hok. pose proof (ok_fts _ Hok) as Hf. assert (Hk : keyed pf_NodeID (acc_fts acc)) by (by intros id r (? & _)%Hf).
  destruct (valuesOf_ok pf_NodeID _ Hk) as (E & Hnd & Hel).
  rewrite recoverFTS_all; [by rewrite E|apply Forall_forall; intros r Hx; by apply Hf, Hel|done|apply Forall_forall; intros; apply lookup_empty].
Qed.

Lemma reload_metadata acc : accOK acc ->
  foldError recoverMetadata ∅ (omap (fun key => acc_metadata acc !! key) (sortedNames (acc_metadata acc))) = inl (acc_metadata acc).
Proof.
  intros Hok. pose proof (ok_metadata _ Hok) as Hm. assert (Hk : keyed (fun e => elems (pm_Key e)) (acc_metadata acc)) by (by intros id r [? _]%Hm).
  destruct (upsertAll_values _ (acc_metadata acc) (sortedNames (acc_metadata acc)) Hk) as (E & Hnd & Hel).
  { apply sortedNames_nodup. }
  { intros id. apply sortedNames_elem. }
  rewrite recoverMetadata_all; [by rewrite E|apply Forall_forall; intros r Hx; by apply Hm, Hel|done|apply Forall_forall; intros; apply lookup_empty].
Qed.

Lemma reload_ok acc a : accOK acc -> storeOK (acc_streams acc) a -> storableStore a -> st_CommitID (acc_state acc) <> max_uint64 ->
  exists state acc', accPersistedState acc = inl state /\ newWALAccumulator state = inl acc' /\ sameAcc acc acc' /\ storeOK (acc_streams acc') a.
Proof.
  intros Hok Hs Hst Hc. unfold accPersistedState. rewrite (buildPersistedStreams_ok _ a Hs Hst). cbn [wrapped].
  destruct (decodePersistedStreams_ok _ a Hs Hst) as (s' & Hd & Hs').
  destruct (reload_nodes acc Hok) as (maxN & Rn & Ln). destruct (reload_edges acc Hok) as (inc & maxE & Re & Le & Hcnt).
  pose proof (highWater_pos _ (ok_nextNode _ Hok)) as PN. pose proof (highWater_pos _ (ok_nextEdge _ Hok)) as PE.
  eexists _, _. split; [reflexivity|]. split.
  - unfold newWALAccumulator. cbn [withNext st_DatabaseID st_VectorDimensions st_CommitID st_NextNodeID st_NextEdgeID st_AppMetadata st_Nodes st_Edges st_FTS st_NodeIndexes st_EdgeIndexes st_Streams].
    replace (if bool_decide (st_DatabaseID (acc_state acc) = []) then None else validateDatabaseID (st_DatabaseID (acc_state acc))) with (@None error)
      by (case_bool_decide; [done|]; destruct (ok_database _ Hok); [done|congruence]).
    rewrite (proj2 (N.eqb_neq (st_CommitID _) _)), (proj2 (N.eqb_neq (st_NextNodeID _) 0)), (proj2 (N.eqb_neq (st_NextEdgeID _) 0)) by (done || lia).
    rewrite (ok_nextNode _ Hok), (ok_nextEdge _ Hok), !refill_elems. cbn [elems default from_option id].
    rewrite (reload_metadata acc Hok), Rn, Re, (proj2 (validateIndexes_spec _) (ok_nodeIndexes _ Hok)), (proj2 (validateIndexes_spec _) (ok_edgeIndexes _ Hok)).
    rewrite (reload_fts acc Hok), Hd. cbn [wrapped]. rewrite !nextAfter_kept by done. reflexivity.
  - cbn [acc_streams]. split; [|done]. split; try done. intros id. cbn [acc_incident]. by rewrite Hcnt, (gk_counts _ _ _ (ok_graph _ Hok)).
Qed.
