(* ===== verification/WalFrames.v ===== *)
(** * The write-ahead log (internal/store/recovery.go)

    A log is a sequence of frames: a checksummed header and a payload. Replay reads frames
    until the file ends or a frame is cut off, and applies them to the accumulator; the
    writer appends a frame and takes it back when the write fails.

    The file is the list of its bytes, and reading never fails otherwise than by reaching
    its end. JSON payloads are decoded by [encoding/json], outside this repository: two
    functions of the model. *)
From S2P Require Import Prelude.
From S2P Require Import GoBytes.
From S2P Require Import BinaryCodec.
From S2P Require Import BinaryValue.
From S2P Require Import BinaryRecords.
From S2P Require Import Values.
From S2P Require Import PageRecords.
From S2P Require Import StreamPersist.
From S2P Require Import PropertyDelta.
From S2P Require Import WalAccumulator.
From Stdlib Require Strings.String.
Import String.StringSyntax.

Definition walHeaderSize : nat := 68.
Definition legacyWALHeaderSize : nat := 64.
Definition walHeaderChecksumAt : nat := 64.
Definition walHeaderPrefixSize : nat := 12.
Definition walDatabaseIDAt : nat := 32.
Definition maxWALFrameBytes : N := 2 ^ 30.
Definition maxWALPayloadBytes : N := maxWALFrameBytes - 68.
Definition walVersion : N := 5.
Definition binaryWALVersion : N := 4.
Definition jsonWALVersion : N := 3.
Definition legacyWALVersion : N := 2.

Definition magicOf (digit : byte) : list byte := [x4c; x44; x42; x57; x41; x4c; digit; x00].
Definition walMagic : list byte := magicOf x35.
Definition binaryWALMagic : list byte := magicOf x34.
Definition jsonWALMagic : list byte := magicOf x33.
Definition legacyWALMagic : list byte := magicOf x32.

(** [header[from:to]] *)
Definition field (header : list byte) (from to : nat) : list byte := take (to - from) (drop from header).

Definition errNotExist : error := ErrNew "file does not exist"%string.
Definition errPropertyDeltaEmpty : error := ErrNew "property_delta payload has no property changes"%string.

(** ** Headers *)

Definition encodeWALHeaderFields (databaseID : gostring) (commitID payloadLength checksum : N) : list byte + error :=
  check! validateDatabaseID databaseID;
  reject! maxWALPayloadBytes <? payloadLength with "WAL frame exceeds size limit";
  let fields := walMagic ++ putBE 2 walVersion ++ putBE 2 (N.of_nat walHeaderSize) ++ PutUint64 commitID ++ PutUint64 payloadLength
                ++ PutUint32 checksum ++ databaseID in
  inl (fields ++ PutUint32 (ChecksumIEEE fields)).

Definition validateWALPayloadSize (size : N) : option error :=
  if maxWALPayloadBytes <? size then Some (ErrNew "WAL frame exceeds size limit"%string) else None.

Definition encodeWALHeader (databaseID : gostring) (commitID : N) (payload : list byte) : list byte + error :=
  check! validateWALPayloadSize (nlen payload);
  encodeWALHeaderFields databaseID commitID (nlen payload) (ChecksumIEEE payload).

Definition encodeWALRecord (snapshot : persistedState) (payload : list byte) : list byte + error :=
  let! header := encodeWALHeader (st_DatabaseID snapshot) (st_CommitID snapshot) payload in
  inl (header ++ payload).

Definition hasKind (header : list byte) (magic : list byte) (version : N) : bool :=
  bool_decide (field header 0 8 = magic) && (getBE (field header 8 10) =? version).

Definition validCurrentWALHeader (header : list byte) : bool :=
  (walHeaderSize <=? length header)%nat && hasKind header walMagic walVersion
  && (getBE (field header 10 12) =? N.of_nat walHeaderSize)
  && (getBE (field header walHeaderChecksumAt walHeaderSize) =? ChecksumIEEE (field header 0 walHeaderChecksumAt)).

Definition legacyKind (header : list byte) : bool :=
  hasKind header binaryWALMagic binaryWALVersion || hasKind header jsonWALMagic jsonWALVersion || hasKind header legacyWALMagic legacyWALVersion.

Definition validWALHeader (header : list byte) : bool :=
  if (length header <? walHeaderPrefixSize)%nat then false
  else validCurrentWALHeader header
       || (legacyWALHeaderSize <=? length header)%nat && (getBE (field header 10 12) =? N.of_nat legacyWALHeaderSize) && legacyKind header.

Definition walHeaderLength (prefix : list byte) : nat :=
  if (length prefix <? walHeaderPrefixSize)%nat then 0
  else if hasKind prefix walMagic walVersion && (getBE (field prefix 10 12) =? N.of_nat walHeaderSize) then walHeaderSize
  else if (getBE (field prefix 10 12) =? N.of_nat legacyWALHeaderSize) && legacyKind prefix then legacyWALHeaderSize
  else 0.

Definition isBinaryWALHeader (header : list byte) : bool :=
  (walHeaderPrefixSize <=? length header)%nat && (hasKind header walMagic walVersion || hasKind header binaryWALMagic binaryWALVersion).

(** [io.ReadFull] of [n] bytes: nothing at all is the end, something short is not. *)
Definition readFull (n : nat) (input : list byte) : list byte * list byte + error :=
  if (n <=? length input)%nat then inl (take n input, drop n input)
  else match input with [] => inr ErrEOF | _ => inr ErrUnexpectedEOF end.

Definition readWALHeader (input : list byte) : list byte * list byte + error :=
  let! (prefix, input) := readFull walHeaderPrefixSize input in
  let headerSize := match walHeaderLength prefix with O => legacyWALHeaderSize | n => n end in
  let! (rest, input) := readFull (headerSize - walHeaderPrefixSize) input in
  inl (prefix ++ rest, input).

(** ** Budgets *)

Record RecoveryLimits := mkLimits { MaxDecodedBytes : N; MaxFrames : N; MaxWork : N }.

(** [rb_states] are the addresses of the states already charged. *)
Record recoveryBudget := mkBudget { rb_limits : RecoveryLimits; rb_bytes : N; rb_frames : N; rb_work : N; rb_states : list N }.

(** [budget.add]: the counter afterwards. *)
Definition charge (used limit amount : N) : N + error :=
  if negb (limit =? 0) && ((limit <? used) || (limit - used <? amount)) then inr (ErrLoadResourceLimit "recovery"%string) else inl (u64 (used + amount)).

Definition decodedBytes (b : recoveryBudget) (amount : N) : recoveryBudget + error :=
  let! bytes := charge (rb_bytes b) (MaxDecodedBytes (rb_limits b)) amount in
  inl (mkBudget (rb_limits b) bytes (rb_frames b) (rb_work b) (rb_states b)).
Definition frame (b : recoveryBudget) : recoveryBudget + error :=
  let! frames := charge (rb_frames b) (MaxFrames (rb_limits b)) 1 in
  inl (mkBudget (rb_limits b) (rb_bytes b) frames (rb_work b) (rb_states b)).
Definition replayWork (b : recoveryBudget) (amount : N) : recoveryBudget + error :=
  let! work := charge (rb_work b) (MaxWork (rb_limits b)) amount in
  inl (mkBudget (rb_limits b) (rb_bytes b) (rb_frames b) work (rb_states b)).

(** A state at [address] is charged once; four addresses are remembered. *)
Definition replayState (b : recoveryBudget) (address : N) (state : persistedState) : recoveryBudget + error :=
  if bool_decide (address ∈ rb_states b) then inl b
  else
    let! b := replayWork b (persistedStateWork state) in
    inl (mkBudget (rb_limits b) (rb_bytes b) (rb_frames b) (rb_work b)
           (if (length (rb_states b) <? 4)%nat then rb_states b ++ [address] else rb_states b)).

(** ** Replay *)

Section replay.
(** The JSON decoders, the limit on a payload, and the state a checkpoint marker refers
    to, with its address. *)
Context (jsonPayload : list byte -> walPayload + error) (jsonState : list byte -> persistedState + error).
Context (maxCanonicalBytes : N) (base : option (N * persistedState)).

Definition decodeFramePayload (header payload : list byte) : walPayload + error :=
  let checked := getBE (field header 28 32) =? ChecksumIEEE payload in
  if isBinaryWALHeader header then
    match decodeBinaryWALPayload payload (nlen payload) maxCanonicalBytes with
    | inr err => reject! negb checked with "WAL checksum mismatch"; inr (ErrWrap (str "decode binary WAL payload"%string) err)
    | inl value => reject! negb checked with "WAL checksum mismatch"; inl value
    end
  else
    reject! negb checked with "WAL checksum mismatch";
    let! value := wrapped "decode WAL payload" (jsonPayload payload) in
    match value with
    | WALUnknown [] => let! snapshot := wrapped "decode legacy v2 WAL payload" (jsonState payload) in inl (WALSnapshot (Some snapshot))
    | _ => inl value
    end.

(** [databaseID != state.DatabaseID || state.CommitID == ^uint64(0) || commitID != state.CommitID+1] *)
Definition regressed (acc : walAccumulator) (databaseID : gostring) (commitID : N) : bool :=
  negb (bool_decide (databaseID = st_DatabaseID (acc_state acc))) || (st_CommitID (acc_state acc) =? max_uint64)
  || negb (commitID =? u64 (st_CommitID (acc_state acc) + 1)).

Definition replaySnapshot (acc : option walAccumulator) (b : recoveryBudget) (databaseID : gostring) (commitID : N) (snapshot : option persistedState) :
    walAccumulator * recoveryBudget + error :=
  match snapshot with
  | None => inr (ErrNew "WAL snapshot metadata mismatch"%string)
  | Some snapshot =>
      reject! negb (st_CommitID snapshot =? commitID) || negb (bool_decide (st_DatabaseID snapshot = databaseID)) with "WAL snapshot metadata mismatch";
      reject! (match acc with Some acc => regressed acc databaseID commitID | None => false end) with "WAL snapshot history regression";
      let! b := replayWork b (persistedStateWork snapshot) in
      let! acc := wrapped "invalid WAL snapshot" (newWALAccumulator snapshot) in
      inl (acc, b)
  end.

Definition replayDelta (acc : option walAccumulator) (b : recoveryBudget) (databaseID : gostring) (commitID : N) (delta : option persistedDelta) :
    walAccumulator * recoveryBudget + error :=
  match delta with
  | None => inr (ErrNew "WAL delta metadata mismatch"%string)
  | Some delta =>
      reject! negb (dl_CommitID delta =? commitID) || negb (bool_decide (dl_DatabaseID delta = databaseID)) with "WAL delta metadata mismatch";
      reject! hasPropertyDelta delta with "WAL delta contains property changes";
      match acc with
      | None => inr (ErrNew "WAL delta has no base snapshot"%string)
      | Some acc =>
          reject! regressed acc databaseID commitID with "WAL delta history regression";
          let! b := replayWork b (persistedDeltaWork delta) in
          let! acc := wrapped "invalid WAL delta" (apply acc delta) in
          inl (acc, b)
      end
  end.

Definition replayPropertyDelta (acc : option walAccumulator) (b : recoveryBudget) (databaseID : gostring) (commitID : N) (delta : option persistedDelta) :
    walAccumulator * recoveryBudget + error :=
  match delta with
  | None => inr (ErrNew "WAL property delta metadata mismatch"%string)
  | Some delta =>
      reject! negb (dl_CommitID delta =? commitID) || negb (bool_decide (dl_DatabaseID delta = databaseID)) with "WAL property delta metadata mismatch";
      if negb (hasPropertyDelta delta) then inr errPropertyDeltaEmpty
      else
        match acc with
        | None => inr (ErrNew "WAL property delta has no base snapshot"%string)
        | Some acc =>
            reject! regressed acc databaseID commitID with "WAL property delta history regression";
            let! (work, acc) := propertyDeltaWork acc delta in
            let! b := replayWork b work in
            let! acc := applyPropertyDelta acc delta in
            inl (acc, b)
        end
  end.

Definition replayCheckpoint (acc : option walAccumulator) (b : recoveryBudget) (databaseID : gostring) (commitID : N) :
    walAccumulator * recoveryBudget + error :=
  match acc, base with
  | Some _, _ | _, None => inr (ErrNew "WAL checkpoint base mismatch"%string)
  | None, Some (address, state) =>
      reject! negb (bool_decide (st_DatabaseID state = databaseID)) with "WAL checkpoint base mismatch";
      if commitID <? st_CommitID state then inr errNotExist
      else
        reject! negb (st_CommitID state =? commitID) with "WAL checkpoint base mismatch";
        let! b := replayState b address state in
        let! acc := wrapped "invalid WAL checkpoint base" (newWALAccumulator state) in
        inl (acc, b)
  end.

Definition replayPayload (acc : option walAccumulator) (b : recoveryBudget) (databaseID : gostring) (commitID : N) (value : walPayload) :
    walAccumulator * recoveryBudget + error :=
  match value with
  | WALSnapshot snapshot => replaySnapshot acc b databaseID commitID snapshot
  | WALDelta delta => replayDelta acc b databaseID commitID delta
  | WALPropertyDelta delta => replayPropertyDelta acc b databaseID commitID delta
  | WALCheckpoint => replayCheckpoint acc b databaseID commitID
  | WALUnknown _ => inr (ErrNew "unknown WAL payload kind"%string)
  end.

(** The state at the end of the log, and whether another frame may be appended. *)
Definition finishReplay (acc : option walAccumulator) (ready : bool) : persistedState * bool + error :=
  match acc with
  | None => inr errNotExist
  | Some acc => let! state := wrapped "serialize WAL state" (accPersistedState acc) in inl (state, ready)
  end.

(** The loop: every frame takes bytes off the input, so its length is enough fuel. *)
Fixpoint replayFrames (fuel : nat) (input : list byte) (acc : option walAccumulator) (currentFormat : bool) (b : recoveryBudget) :
    persistedState * bool + error :=
  match fuel with
  | O => inr (ErrNew "out of fuel"%string)
  | S fuel =>
      match readWALHeader input with
      | inr ErrEOF => finishReplay acc currentFormat
      | inr ErrUnexpectedEOF => finishReplay acc false
      | inr err => inr (ErrWrap (str "read wal header"%string) err)
      | inl (header, input) =>
          reject! negb (validWALHeader header) with "invalid WAL frame header";
          let currentFormat := currentFormat && validCurrentWALHeader header in
          let payloadLength := getBE (field header 20 28) in
          if (maxWALFrameBytes <? payloadLength) || (maxCanonicalBytes <? payloadLength) || (2 ^ 63 - 1 <? payloadLength)
          then inr (ErrLoadResourceLimit "WAL frame exceeds size limit"%string)
          else if nlen input <? payloadLength then finishReplay acc false
          else
            let! b := frame b in
            let! b := decodedBytes b payloadLength in
            let payload := take (N.to_nat payloadLength) input in
            let! value := decodeFramePayload header payload in
            let! (acc, b) := replayPayload acc b (field header walDatabaseIDAt legacyWALHeaderSize) (getBE (field header 12 20)) value in
            replayFrames fuel (drop (N.to_nat payloadLength) input) (Some acc) currentFormat b
      end
  end.

Definition loadLatestWALV2 (file : list byte) (b : recoveryBudget) : persistedState * bool + error :=
  replayFrames (S (length file)) file None true b.

End replay.

(** ** The writer *)

(** The log file with its position, and the tail written since the base. *)
Record WALWriter := mkWALWriter { ww_open : bool; ww_file : list byte; ww_offset : nat; ww_tailSize : Z }.

(** [int64(x)] *)
Definition toInt64 (x : N) : Z := let y := Z.of_N (u64 x) in if (y <? 2 ^ 63)%Z then y else (y - 2 ^ 64)%Z.

(** What the file system does to one append: the position query, the two writes (bytes
    written and error), and, when a write fails, the truncation and its sync. A failing
    truncation leaves the file as it is. *)
Record appendFaults := mkFaults {
  ft_locate : option error;
  ft_header : nat * option error;
  ft_payload : nat * option error;
  ft_truncate : option error;
  ft_seek : option error;
  ft_cleanupSync : option error;
  ft_sync : option error }.

Definition commitOutcomeUnknown : gostring := str "commit outcome is unknown"%string.
Definition outcomeUnknown (e : option error) : bool :=
  match e with Some (ErrWrap context _) => bool_decide (context = commitOutcomeUnknown) | _ => false end.

(** Bytes written at the position; a gap reads as zeros. *)
Definition writeAt (file : list byte) (offset : nat) (data : list byte) : list byte :=
  take offset file ++ replicate (offset - length file) x00 ++ data ++ drop (offset + length data) file.

(** [writer.write]: whether every byte was written, and the error. *)
Definition writerWrite (w : WALWriter) (outcome : nat * option error) (data : list byte) : bool * option error * WALWriter :=
  let '(count, err) := outcome in
  let full := bool_decide (count = length data) in
  let err := match err with None => if full then None else Some ErrShortWrite | Some err => Some err end in
  let written := take count data in
  (full, err, mkWALWriter (ww_open w) (writeAt (ww_file w) (ww_offset w) written) (ww_offset w + length written) (ww_tailSize w)).

Definition truncateAndSync (w : WALWriter) (fs : appendFaults) (offset : nat) : option error * WALWriter :=
  match ft_truncate fs with
  | Some err => (Some (ErrWrap (str "truncate failed WAL record"%string) err), w)
  | None =>
      let w := mkWALWriter (ww_open w) (take offset (ww_file w)) (ww_offset w) (ww_tailSize w) in
      match ft_seek fs with
      | Some err => (Some (ErrWrap (str "seek truncated WAL"%string) err), w)
      | None =>
          let w := mkWALWriter (ww_open w) (ww_file w) offset (ww_tailSize w) in
          match ft_cleanupSync fs with
          | Some err => (Some (ErrWrap (str "sync truncated WAL"%string) err), w)
          | None => (None, w)
          end
      end
  end.

(** The cleanup's own error, joined to the write's in the message, is left out. *)
Definition writeFailure (w : WALWriter) (fs : appendFaults) (part : string) (writeErr : error) (offset : nat) : option error * WALWriter :=
  match truncateAndSync w fs offset with
  | (Some _, w) => (Some (ErrWrap commitOutcomeUnknown (ErrWrap (str part) writeErr)), w)
  | (None, w) => (Some (ErrWrap (str part) writeErr), w)
  end.
Arguments writeFailure w fs part%_string writeErr offset.

(** The last step: both parts are written, the file is synced. *)
Definition writerSync (w : WALWriter) (fs : appendFaults) (size : N) : option error * WALWriter :=
  match ft_sync fs with
  | Some err => (Some (ErrWrap commitOutcomeUnknown (ErrWrap (str "sync WAL"%string) err)), w)
  | None => (None, mkWALWriter (ww_open w) (ww_file w) (ww_offset w) (ww_tailSize w + Z.of_N size)%Z)
  end.

Definition writerAppend (w : WALWriter) (fs : appendFaults) (databaseID : gostring) (commitID : N) (payload : list byte) :
    option error * WALWriter :=
  if negb (ww_open w) then (Some (ErrNew "WAL writer is closed"%string), w)
  else
    match encodeWALHeader databaseID commitID payload with
    | inr err => (Some err, w)
    | inl header =>
        match ft_locate fs with
        | Some err => (Some (ErrWrap (str "locate WAL writer"%string) err), w)
        | None =>
            let offset := ww_offset w in
            match writerWrite w (ft_header fs) header with
            | (full, Some err, w) =>
                if full then (Some (ErrWrap commitOutcomeUnknown (ErrWrap (str "write WAL header"%string) err)), w)
                else writeFailure w fs "write WAL header" err offset
            | (_, None, w) =>
                match writerWrite w (ft_payload fs) payload with
                | (full, Some err, w) =>
                    if full then (Some (ErrWrap commitOutcomeUnknown (ErrWrap (str "write WAL payload"%string) err)), w)
                    else writeFailure w fs "write WAL payload" err offset
                | (_, None, w) => writerSync w fs (nlen header + nlen payload)
                end
            end
        end
    end.

(** [value.Kind] *)
Definition walKind (value : walPayload) : gostring :=
  match value with
  | WALSnapshot _ => str "snapshot"%string
  | WALDelta _ => str "delta"%string
  | WALPropertyDelta _ => str "property_delta"%string
  | WALCheckpoint => str "checkpoint"%string
  | WALUnknown kind => kind
  end.

(** [appendBinary]: the payload is encoded before anything is written. *)
Definition appendBinary (w : WALWriter) (fs : appendFaults) (databaseID : gostring) (commitID : N) (value : walPayload) : option error * WALWriter :=
  if negb (ww_open w) then (Some (ErrNew "WAL writer is closed"%string), w)
  else match encodeBinaryWALPayload value with
       | inr err => (Some (ErrWrap (str "encode WAL "%string ++ walKind value) err), w)
       | inl payload => writerAppend w fs databaseID commitID payload
       end.

Definition writerClose (w : WALWriter) : WALWriter := mkWALWriter false (ww_file w) (ww_offset w) (ww_tailSize w).

(** [OpenWALWriterFiles] on the bytes of the file: the tail starts after the base. *)
Definition OpenWALWriter (file : list byte) : WALWriter + error :=
  let header := take walHeaderSize file in
  reject! (length file <? walHeaderSize)%nat || negb (validCurrentWALHeader header) with "WAL writer requires current base snapshot";
  let baseSize := toInt64 (N.of_nat walHeaderSize + getBE (field header 20 28)) in
  reject! (Z.of_N (nlen file) <? baseSize)%Z with "WAL base snapshot is incomplete";
  inl (mkWALWriter true file (length file) (Z.of_N (nlen file) - baseSize)).

(** ** Complete frames *)

(** The loop of [walFramesComplete]: a header and its payload each time. *)
Fixpoint framesComplete (fuel : nat) (file : list byte) : bool :=
  match fuel with
  | O => false
  | S fuel =>
      match file with
      | [] => true
      | _ =>
          if (length file <? walHeaderSize)%nat then false
          else
            let header := take walHeaderSize file in
            let payloadLength := getBE (field header 20 28) in
            if negb (validCurrentWALHeader header) then false
            else if (maxWALFrameBytes <? payloadLength) || (nlen file - N.of_nat walHeaderSize <? payloadLength) then false
            else framesComplete fuel (drop (walHeaderSize + N.to_nat payloadLength) file)
      end
  end.
Definition walFramesComplete (file : list byte) : bool := framesComplete (S (length file)) file.
