(* ===== verification/WalFramesSpec.v ===== *)
(** * What the log recovers

    Headers read back, a single damaged byte is noticed, and a log cut anywhere in its
    last frame recovers the state of the frames before it.

    Further down: what an append does to the log. *)
From S2P Require Import Prelude.
From S2P Require Import GoBytes.
From S2P Require Import BinaryCodec.
From S2P Require Import BinaryCodecSpec.
From S2P Require Import BinaryValue.
From S2P Require Import BinaryRecords.
From S2P Require Import BinaryTheorems.
From S2P Require Import Values.
From S2P Require Import PageRecords.
From S2P Require Import PageRecordsSpec.
From S2P Require Import StreamPersist.
From S2P Require Import PropertyDelta.
From S2P Require Import WalAccumulator.
From S2P Require Import WalFrames.

(** ** Fields of a header *)

Lemma field_app l1 l2 l3 a b : length l1 = a -> length l2 = (b - a)%nat -> field (l1 ++ l2 ++ l3) a b = l2.
Proof. intros <- H2. unfold field. rewrite drop_app_length, <- H2, take_app_length. done. Qed.

Definition headerFields (databaseID : gostring) (commitID payloadLength checksum : N) : list byte :=
  walMagic ++ putBE 2 walVersion ++ putBE 2 (N.of_nat walHeaderSize) ++ PutUint64 commitID ++ PutUint64 payloadLength
  ++ PutUint32 checksum ++ databaseID.

Definition headerBytes (databaseID : gostring) (commitID payloadLength checksum : N) : list byte :=
  let fields := headerFields databaseID commitID payloadLength checksum in fields ++ PutUint32 (ChecksumIEEE fields).

Lemma validateDatabaseID_length id : validateDatabaseID id = None -> length id = 32%nat.
Proof. unfold validateDatabaseID, nlen. destruct (N.eqb_spec (N.of_nat (length id)) 32); [|done]. intros _. lia. Qed.

Section header.
Context (db : gostring) (commit len crc : N) (Hdb : length db = 32%nat).

Lemma headerFields_length : length (headerFields db commit len crc) = 64%nat.
Proof. unfold headerFields. rewrite !length_app, !putBE_length, Hdb. done. Qed.

Lemma headerBytes_length : length (headerBytes db commit len crc) = walHeaderSize.
Proof. unfold headerBytes. rewrite length_app, headerFields_length. done. Qed.

(** A field between [l1] and [l3]. *)
Lemma header_at l1 l2 l3 a b :
  headerBytes db commit len crc = l1 ++ l2 ++ l3 -> length l1 = a -> length l2 = (b - a)%nat -> field (headerBytes db commit len crc) a b = l2.
Proof. intros ->. apply field_app. Qed.

Ltac header_field l1 := eapply (header_at l1); [unfold headerBytes, headerFields; rewrite <- !app_assoc; reflexivity|rewrite ?length_app, ?putBE_length; done|rewrite ?putBE_length, ?Hdb; done].

Lemma header_magic : field (headerBytes db commit len crc) 0 8 = walMagic.
Proof. header_field (@nil byte). Qed.
Lemma header_version : field (headerBytes db commit len crc) 8 10 = putBE 2 walVersion.
Proof. header_field walMagic. Qed.
Lemma header_size : field (headerBytes db commit len crc) 10 12 = putBE 2 (N.of_nat walHeaderSize).
Proof. header_field (walMagic ++ putBE 2 walVersion). Qed.
Lemma header_commit : field (headerBytes db commit len crc) 12 20 = PutUint64 commit.
Proof. header_field (walMagic ++ putBE 2 walVersion ++ putBE 2 (N.of_nat walHeaderSize)). Qed.
Lemma header_payloadLength : field (headerBytes db commit len crc) 20 28 = PutUint64 len.
Proof. header_field (walMagic ++ putBE 2 walVersion ++ putBE 2 (N.of_nat walHeaderSize) ++ PutUint64 commit). Qed.
Lemma header_checksum : field (headerBytes db commit len crc) 28 32 = PutUint32 crc.
Proof. header_field (walMagic ++ putBE 2 walVersion ++ putBE 2 (N.of_nat walHeaderSize) ++ PutUint64 commit ++ PutUint64 len). Qed.
Lemma header_database : field (headerBytes db commit len crc) walDatabaseIDAt legacyWALHeaderSize = db.
Proof.
  header_field (walMagic ++ putBE 2 walVersion ++ putBE 2 (N.of_nat walHeaderSize) ++ PutUint64 commit ++ PutUint64 len ++ PutUint32 crc).
Qed.
Lemma header_all : field (headerBytes db commit len crc) 0 walHeaderChecksumAt = headerFields db commit len crc.
Proof. eapply (header_at []); [reflexivity|done|]. by rewrite headerFields_length. Qed.
Lemma header_crc : field (headerBytes db commit len crc) walHeaderChecksumAt walHeaderSize = PutUint32 (ChecksumIEEE (headerFields db commit len crc)).
Proof. eapply (header_at (headerFields db commit len crc)); [unfold headerBytes; by rewrite app_nil_r|by rewrite headerFields_length|done]. Qed.

Lemma header_valid : validCurrentWALHeader (headerBytes db commit len crc) = true.
Proof.
  unfold validCurrentWALHeader, hasKind. rewrite headerBytes_length, header_magic, header_version, header_size, header_crc, header_all.
  rewrite (getBE_put 4) by apply ChecksumIEEE_lt. rewrite !getBE_put, !N.eqb_refl, bool_decide_true by done. reflexivity.
Qed.
End header.

Lemma encodeHeader_bytes db commit len crc header :
  encodeWALHeaderFields db commit len crc = inl header -> header = headerBytes db commit len crc /\ length db = 32%nat /\ len <= maxWALPayloadBytes.
Proof.
  unfold encodeWALHeaderFields. destruct (validateDatabaseID db) eqn:E; [done|]. destruct (N.ltb_spec maxWALPayloadBytes len); [done|].
  intros [= <-]. split_and!; [done|by apply validateDatabaseID_length|done].
Qed.

(** ** Reading a frame *)

Lemma field_prefix l1 l2 a b : (b <= length l1)%nat -> field (l1 ++ l2) a b = field l1 a b.
Proof.
  intros Hb. unfold field. destruct (decide (a <= length l1)%nat).
  - rewrite drop_app_le by done. apply take_app_le. rewrite length_drop. lia.
  - replace (b - a)%nat with 0%nat by lia. done.
Qed.

Lemma readFull_app l1 l2 n : length l1 = n -> readFull n (l1 ++ l2) = inl (l1, l2).
Proof. intros <-. unfold readFull. rewrite length_app, (proj2 (Nat.leb_le _ _)) by lia. by rewrite take_app_length, drop_app_length. Qed.

Lemma readFull_short n l : (length l < n)%nat -> l <> [] -> readFull n l = inr ErrUnexpectedEOF.
Proof. intros Hl Hne. unfold readFull. rewrite (proj2 (Nat.leb_gt _ _)) by done. by destruct l. Qed.

Lemma hasKind_prefix l1 l2 magic version : (10 <= length l1)%nat -> hasKind (l1 ++ l2) magic version = hasKind l1 magic version.
Proof. intros Hl. unfold hasKind. by rewrite !field_prefix by lia. Qed.

Section reading.
Context (db : gostring) (commit len crc : N) (Hdb : length db = 32%nat).
Abbreviation header := (headerBytes db commit len crc).

Definition headerTail : list byte := drop walHeaderPrefixSize header.

Lemma header_split : header = take walHeaderPrefixSize header ++ headerTail.
Proof. by rewrite take_drop. Qed.

Lemma header_prefix_length : length (take walHeaderPrefixSize header) = walHeaderPrefixSize.
Proof. rewrite length_take, (headerBytes_length _ _ _ _ Hdb). done. Qed.

Lemma headerTail_length : length headerTail = (walHeaderSize - walHeaderPrefixSize)%nat.
Proof. unfold headerTail. by rewrite length_drop, (headerBytes_length _ _ _ _ Hdb). Qed.

Lemma prefix_field a b : (b <= walHeaderPrefixSize)%nat -> field (take walHeaderPrefixSize header) a b = field header a b.
Proof. intros Hb. rewrite header_split at 2. rewrite field_prefix; [done|]. by rewrite header_prefix_length. Qed.

Lemma header_length_read : walHeaderLength (take walHeaderPrefixSize header) = walHeaderSize.
Proof.
  unfold walHeaderLength, hasKind. rewrite header_prefix_length, !prefix_field by (unfold walHeaderPrefixSize; lia).
  rewrite (header_magic _ _ _ _), (header_version _ _ _ _), (header_size _ _ _ _), !getBE_put by done.
  by rewrite bool_decide_true, !N.eqb_refl.
Qed.

Lemma readWALHeader_ok rest : readWALHeader (header ++ rest) = inl (header, rest).
Proof.
  unfold readWALHeader. rewrite header_split at 1. rewrite <- app_assoc, (readFull_app _ _ _ header_prefix_length), header_length_read.
  rewrite (readFull_app headerTail) by apply headerTail_length. by rewrite <- header_split.
Qed.

(** A header cut short: after exactly its first twelve bytes the second read finds
    nothing and reports the end of the file. *)
Lemma readWALHeader_cut k : (k < walHeaderSize)%nat ->
  readWALHeader (take k header) = inr (if decide (k = 0 \/ k = walHeaderPrefixSize)%nat then ErrEOF else ErrUnexpectedEOF).
Proof.
  intros Hk. unfold readWALHeader. pose proof (headerBytes_length db commit len crc Hdb) as Hl.
  destruct (decide (k < walHeaderPrefixSize)%nat) as [Hs|Hge].
  - destruct k as [|k]; [done|]. rewrite readFull_short; [|rewrite length_take, Hl; lia|].
    + rewrite decide_False; [done|]. unfold walHeaderPrefixSize in *. lia.
    + intros E. apply (f_equal length) in E. rewrite length_take, Hl in E. unfold walHeaderSize in *. cbn in E. lia.
  - assert (Ht : take k header = take walHeaderPrefixSize header ++ take (k - walHeaderPrefixSize) headerTail).
    { rewrite header_split at 1. rewrite take_app, header_prefix_length, take_ge; [done|]. rewrite header_prefix_length. lia. }
    rewrite Ht, (readFull_app _ _ _ header_prefix_length), header_length_read. cbn [walHeaderSize Nat.sub].
    destruct (decide (k = walHeaderPrefixSize)) as [->|Hne].
    + rewrite Nat.sub_diag, decide_True by (by right). done.
    + rewrite readFull_short, decide_False; [done| | |].
      * unfold walHeaderPrefixSize in *. lia.
      * rewrite length_take, headerTail_length. unfold walHeaderSize, walHeaderPrefixSize in *. lia.
      * intros E. apply (f_equal length) in E. rewrite length_take, headerTail_length in E. unfold walHeaderSize, walHeaderPrefixSize in *. cbn [length] in E. lia.
Qed.
End reading.

(** ** Replaying whole frames *)

(** A commit in the log. *)
Record walEntry := mkEntry { en_database : gostring; en_commit : N; en_value : walPayload }.

Definition entryPayload (e : walEntry) : list byte := payloadWire (en_value e).
Definition entryFrame (e : walEntry) : list byte :=
  headerBytes (en_database e) (en_commit e) (nlen (entryPayload e)) (ChecksumIEEE (entryPayload e)) ++ entryPayload e.

Section replay.
Context (jsonPayload : list byte -> walPayload + error) (jsonState : list byte -> persistedState + error).
Context (maxCanonicalBytes : N) (base : option (N * persistedState)).
Context (Hmax : maxCanonicalBytes <= max_uint64).

(** An entry the writer accepts and the reader's limits cover. *)
Record entryOK (e : walEntry) : Prop := mkEntryOK {
  en_id : validateDatabaseID (en_database e) = None;
  en_commit64 : en_commit e < 2 ^ 64;
  en_valid : payloadValid (en_value e);
  en_size : nlen (entryPayload e) <= maxWALPayloadBytes;
  en_fits : nlen (entryPayload e) <= maxCanonicalBytes;
  en_budget : payloadReserved (en_value e) <= multiplySaturated maxCanonicalBytes 2 }.

Lemma frame_encodes e : entryOK e ->
  exists header payload, encodeBinaryWALPayload (en_value e) = inl payload /\ encodeWALHeader (en_database e) (en_commit e) payload = inl header /\
    entryFrame e = header ++ payload.
Proof.
  intros [Hid _ Hv Hs _ _]. exists (headerBytes (en_database e) (en_commit e) (nlen (entryPayload e)) (ChecksumIEEE (entryPayload e))), (entryPayload e).
  split_and!; [by apply encode_payload| |done]. unfold encodeWALHeader, validateWALPayloadSize, encodeWALHeaderFields.
  by rewrite (proj2 (N.ltb_ge _ _) Hs), Hid.
Qed.

Abbreviation payloadStep := (replayPayload base).
Abbreviation frames := (replayFrames jsonPayload jsonState maxCanonicalBytes base).

(** The budget charges, then the payload. *)
Definition entryStep (st : option walAccumulator * recoveryBudget) (e : walEntry) : option walAccumulator * recoveryBudget + error :=
  let! b := frame st.2 in
  let! b := decodedBytes b (nlen (entryPayload e)) in
  let! (acc, b) := payloadStep st.1 b (en_database e) (en_commit e) (en_value e) in
  inl (Some acc, b).

Lemma sizes : maxWALPayloadBytes <= maxWALFrameBytes /\ maxWALFrameBytes <= 2 ^ 63 - 1.
Proof. split; vm_compute; discriminate. Qed.

Lemma decodeFrame_ok e : entryOK e ->
  decodeFramePayload jsonPayload jsonState maxCanonicalBytes
    (headerBytes (en_database e) (en_commit e) (nlen (entryPayload e)) (ChecksumIEEE (entryPayload e))) (entryPayload e) = inl (en_value e).
Proof.
  intros [Hid Hc Hv Hs Hf Hb]. pose proof (validateDatabaseID_length _ Hid) as Hdb. unfold decodeFramePayload, isBinaryWALHeader, hasKind.
  rewrite headerBytes_length, header_magic, header_version, header_checksum by done.
  rewrite (getBE_put 4) by apply ChecksumIEEE_lt. rewrite (getBE_put 2), bool_decide_true, !N.eqb_refl by done. cbn [andb orb negb Nat.leb walHeaderPrefixSize walHeaderSize].
  unfold entryPayload. rewrite <- (app_nil_r (payloadWire (en_value e))) at 1. rewrite decode_payload; [done|done| |done|done].
  pose proof sizes. unfold entryPayload in *. lia.
Qed.

Lemma replayFrames_step e fuel rest acc current b : entryOK e ->
  frames (S fuel) (entryFrame e ++ rest) acc current b =
  match entryStep (acc, b) e with inl (acc', b') => frames fuel rest acc' current b' | inr err => inr err end.
Proof.
  intros Hok. pose proof Hok as [Hid Hc Hv Hs Hf Hb]. pose proof (validateDatabaseID_length _ Hid) as Hdb. pose proof sizes as [S1 S2].
  set (payload := entryPayload e) in *. cbn [replayFrames]. unfold entryFrame. fold payload. rewrite <- app_assoc, (readWALHeader_ok _ _ _ _ Hdb).
  unfold validWALHeader. rewrite headerBytes_length, (header_valid _ _ _ _ Hdb) by done. cbn [Nat.ltb Nat.leb walHeaderPrefixSize walHeaderSize orb negb].
  rewrite (header_payloadLength _ _ _ _), (header_commit _ _ _ _), (header_database _ _ _ _ Hdb).
  rewrite !(getBE_put 8) by (done || (change (2 ^ (8 * N.of_nat 8)) with (2 ^ 64); lia)).
  rewrite !(proj2 (N.ltb_ge _ (nlen payload))) by lia. cbn [orb]. rewrite (proj2 (N.ltb_ge (nlen (payload ++ rest)) _)) by (rewrite nlen_app; lia).
  unfold entryStep. cbn [fst snd]. fold payload. destruct (frame b) as [b1|]; [|done]. destruct (decodedBytes b1 (nlen payload)) as [b2|]; [|done].
  replace (N.to_nat (nlen payload)) with (length payload) by (unfold nlen; lia). rewrite take_app_length, drop_app_length.
  pose proof (decodeFrame_ok e Hok) as Hdec. fold payload in Hdec. rewrite Hdec.
  destruct (payloadStep acc b2 _ _ _) as [[acc' b']|]; [|done]. by rewrite andb_true_r.
Qed.

Definition logBytes (entries : list walEntry) : list byte := concat (map entryFrame entries).

Lemma entryFrame_length e : entryOK e -> length (entryFrame e) = (walHeaderSize + length (entryPayload e))%nat.
Proof. intros [Hid _ _ _ _ _]. unfold entryFrame. rewrite length_app, headerBytes_length; [done|]. by apply validateDatabaseID_length. Qed.

Lemma replayFrames_log entries tail current : forall fuel acc b, Forall entryOK entries -> (length entries < fuel)%nat ->
  frames fuel (logBytes entries ++ tail) acc current b =
  match foldError entryStep (acc, b) entries with inl (acc', b') => frames (fuel - length entries) tail acc' current b' | inr err => inr err end.
Proof.
  induction entries as [|e entries IH]; intros fuel acc b Hok Hf; [by rewrite Nat.sub_0_r|]. apply Forall_cons in Hok as [He Hok].
  destruct fuel as [|fuel]; [lia|]. cbn [logBytes map concat foldError]. rewrite <- app_assoc, replayFrames_step by done.
  fold (logBytes entries). cbn [length] in *. destruct (entryStep (acc, b) e) as [[acc' b']|]; [|done]. rewrite IH by (done || lia). done.
Qed.

Lemma logBytes_snoc entries e : logBytes (entries ++ [e]) = logBytes entries ++ entryFrame e.
Proof. unfold logBytes. rewrite map_app, concat_app. cbn [map concat]. by rewrite app_nil_r. Qed.

(** ** A log cut in its last frame *)

Lemma replayFrames_cut e k fuel acc current b : entryOK e -> (k < length (entryFrame e))%nat -> (0 < fuel)%nat ->
  frames fuel (take k (entryFrame e)) acc current b = finishReplay acc (current && bool_decide (k = 0 \/ k = walHeaderPrefixSize)%nat).
Proof.
  intros Hok Hk Hf. rewrite entryFrame_length in Hk by done. pose proof Hok as [Hid Hc Hv Hs Hfit Hb].
  pose proof (validateDatabaseID_length _ Hid) as Hdb. pose proof sizes as [S1 S2]. destruct fuel as [|fuel]; [lia|]. cbn [replayFrames].
  unfold entryFrame. set (payload := entryPayload e) in *. set (h := headerBytes _ _ _ _).
  assert (Hh : length h = walHeaderSize) by (by apply headerBytes_length).
  destruct (decide (k < walHeaderSize)%nat) as [Hlt|Hge].
  - rewrite take_app_le by lia. unfold h. rewrite readWALHeader_cut by done.
    destruct (decide (k = 0 \/ k = walHeaderPrefixSize)%nat) as [Hz|Hz].
    + by rewrite bool_decide_true, andb_true_r.
    + by rewrite bool_decide_false, andb_false_r.
  - rewrite take_app, take_ge, Hh by lia. unfold h. rewrite (readWALHeader_ok _ _ _ _ Hdb).
    unfold validWALHeader. rewrite headerBytes_length, (header_valid _ _ _ _ Hdb) by done. cbn [Nat.ltb Nat.leb walHeaderPrefixSize walHeaderSize orb negb].
    rewrite (header_payloadLength _ _ _ _). rewrite (getBE_put 8) by (change (2 ^ (8 * N.of_nat 8)) with (2 ^ 64); lia).
    rewrite !(proj2 (N.ltb_ge _ (nlen payload))) by lia. cbn [orb].
    rewrite (proj2 (N.ltb_lt _ (nlen payload))) by (unfold nlen; rewrite length_take; lia).
    rewrite bool_decide_false, andb_false_r; [done|]. unfold walHeaderPrefixSize, walHeaderSize in *. lia.
Qed.

Lemma logBytes_length entries : Forall entryOK entries -> (length entries <= length (logBytes entries))%nat.
Proof.
  clear Hmax. induction 1 as [|e entries He _ IH]; [done|]. cbn [logBytes map concat length]. fold (logBytes entries).
  rewrite length_app, entryFrame_length by done. unfold walHeaderSize. lia.
Qed.

(** The whole log, with the last frame cut after [k] bytes. *)
Lemma load_cut entries e k b : Forall entryOK entries -> entryOK e -> (k < length (entryFrame e))%nat ->
  loadLatestWALV2 jsonPayload jsonState maxCanonicalBytes base (logBytes entries ++ take k (entryFrame e)) b =
  match foldError entryStep (None, b) entries with
  | inl (acc, _) => finishReplay acc (bool_decide (k = 0 \/ k = walHeaderPrefixSize)%nat)
  | inr err => inr err
  end.
Proof.
  intros Hok He Hk. unfold loadLatestWALV2. pose proof (logBytes_length entries Hok) as Hl.
  rewrite replayFrames_log by (done || (rewrite length_app; lia)). destruct (foldError _ _ _) as [[acc b']|]; [|done].
  rewrite (replayFrames_cut e) by (done || (rewrite length_app; lia)). done.
Qed.

(** The cut log against the frames before it. *)
Lemma load_torn entries e k b : Forall entryOK entries -> entryOK e -> (k < length (entryFrame e))%nat ->
  loadLatestWALV2 jsonPayload jsonState maxCanonicalBytes base (logBytes entries ++ take k (entryFrame e)) b =
  match loadLatestWALV2 jsonPayload jsonState maxCanonicalBytes base (logBytes entries) b with
  | inl (state, _) => inl (state, bool_decide (k = 0 \/ k = walHeaderPrefixSize)%nat)
  | inr err => inr err
  end.
Proof.
  intros Hok He Hk. rewrite (load_cut entries e k b Hok He Hk).
  pose proof (load_cut entries e 0 b Hok He ltac:(lia)) as E0. cbn [take] in E0. rewrite app_nil_r in E0. rewrite E0.
  destruct (foldError _ _ _) as [[acc b']|]; [|done]. unfold finishReplay. destruct acc as [acc|]; [|done]. by destruct (wrapped _ _).
Qed.

End replay.

(** ** One damaged byte *)

Lemma getBE_same l l' : length l = length l' -> getBE l = getBE l' -> l = l'.
Proof. intros Hl E. unfold getBE in E. by apply getBE_inj in E as [_ ->]. Qed.

Lemma field_length l a b : (a <= b <= length l)%nat -> length (field l a b) = (b - a)%nat.
Proof. intros H. unfold field. rewrite length_take, length_drop. lia. Qed.

Lemma field_lookup l a b i : (a <= i < b)%nat -> field l a b !! (i - a)%nat = l !! i.
Proof. intros H. unfold field. rewrite lookup_take_lt, lookup_drop by lia. f_equal. lia. Qed.

Lemma field_out l a b i c : (i < a \/ b <= i)%nat -> field (<[i := c]> l) a b = field l a b.
Proof.
  intros H. apply list_eq. intros j. unfold field. rewrite !lookup_take. destruct (decide (j < b - a)%nat); [|done].
  rewrite !lookup_drop, list_lookup_insert_ne; [done|lia].
Qed.

(** A field with a changed byte is another field. *)
Lemma field_damaged l a b i b0 c : (a <= i < b)%nat -> (b <= length l)%nat -> l !! i = Some b0 -> c <> b0 ->
  field (<[i := c]> l) a b <> field l a b.
Proof.
  intros Hi Hb Hl Hc E. apply (f_equal (fun f => f !! (i - a)%nat)) in E. rewrite !field_lookup in E by done.
  rewrite list_lookup_insert_eq in E by lia. congruence.
Qed.

Section damage.
Context (db : gostring) (commit len crc : N) (Hdb : length db = 32%nat).
Context (i : nat) (b0 c : byte) (Hi : headerBytes db commit len crc !! i = Some b0) (Hc : c <> b0).
Abbreviation header := (headerBytes db commit len crc).
Definition damaged : list byte := <[i := c]> (headerBytes db commit len crc).

Lemma damaged_length : length damaged = walHeaderSize.
Proof. unfold damaged. by rewrite length_insert, (headerBytes_length _ _ _ _ Hdb). Qed.

Lemma damaged_bound : (i < walHeaderSize)%nat.
Proof. apply lookup_lt_Some in Hi. by rewrite (headerBytes_length _ _ _ _ Hdb) in Hi. Qed.

Lemma damaged_field a b : (a <= i < b)%nat -> (b <= walHeaderSize)%nat -> field damaged a b <> field header a b.
Proof. intros Ha Hb. eapply field_damaged; [done| |done|done]. by rewrite (headerBytes_length _ _ _ _ Hdb). Qed.

Lemma damaged_getBE a b : (a <= i < b)%nat -> (b <= walHeaderSize)%nat -> getBE (field damaged a b) <> getBE (field header a b).
Proof.
  intros Ha Hb E. eapply damaged_field; [done|done|]. apply getBE_same; [|done].
  rewrite !field_length; [done|rewrite (headerBytes_length _ _ _ _ Hdb)|rewrite damaged_length]; lia.
Qed.

Lemma field_kept a b : (i < a \/ b <= i)%nat -> field damaged a b = field header a b.
Proof. apply field_out. Qed.

(** A damaged prefix names no format. *)
Lemma damaged_prefix : (i < walHeaderPrefixSize)%nat ->
  hasKind damaged walMagic walVersion && (getBE (field damaged 10 12) =? N.of_nat walHeaderSize) = false /\
  (getBE (field damaged 10 12) =? N.of_nat legacyWALHeaderSize) && legacyKind damaged = false.
Proof.
  intros Hp. pose proof header_size db commit len crc as Hs. pose proof header_magic db commit len crc as Hm. pose proof header_version db commit len crc as Hv.
  unfold legacyKind, hasKind. destruct (decide (i < 10)%nat) as [Hlt|Hge].
  - rewrite (field_kept 10 12), Hs, getBE_put by (done || lia). split; [|done].
    destruct (decide (i < 8)%nat) as [H8|H8].
    + rewrite bool_decide_false; [done|]. rewrite <- Hm. apply damaged_field; unfold walHeaderSize; lia.
    + rewrite (proj2 (N.eqb_neq (getBE (field damaged 8 10)) _)); [by rewrite andb_false_r|].
      intros E. apply (damaged_getBE 8 10); [lia|unfold walHeaderSize; lia|]. rewrite Hv, E, getBE_put; done.
  - rewrite (field_kept 0 8), (field_kept 8 10), Hm, Hv by lia. split.
    + rewrite (proj2 (N.eqb_neq (getBE (field damaged 10 12)) (N.of_nat walHeaderSize))); [by rewrite andb_false_r|].
      intros E. apply (damaged_getBE 10 12); [unfold walHeaderPrefixSize in *; lia|unfold walHeaderSize; lia|]. rewrite Hs, E, getBE_put; done.
    + rewrite !(bool_decide_false (walMagic = _)) by done. by rewrite andb_false_r.
Qed.

(** A damaged remainder fails the checksum. *)
Lemma damaged_checksum : (walHeaderPrefixSize <= i)%nat -> validCurrentWALHeader damaged = false.
Proof.
  intros Hp. pose proof damaged_bound as Hb. unfold validCurrentWALHeader.
  rewrite (proj2 (N.eqb_neq (getBE (field damaged walHeaderChecksumAt walHeaderSize)) _)); [by rewrite andb_false_r|].
  destruct (decide (i < walHeaderChecksumAt)%nat) as [Hlt|Hge].
  - rewrite (field_kept walHeaderChecksumAt) by lia. rewrite (header_crc _ _ _ _ Hdb), (getBE_put 4) by apply ChecksumIEEE_lt.
    assert (Hl : headerFields db commit len crc !! i = Some b0).
    { unfold headerBytes in Hi. rewrite lookup_app_l in Hi; [done|]. by rewrite headerFields_length. }
    assert (E : field damaged 0 walHeaderChecksumAt = <[i := c]> (headerFields db commit len crc)).
    { unfold damaged, headerBytes. rewrite insert_app_l by (by rewrite headerFields_length).
      unfold field. rewrite drop_0, Nat.sub_0_r. apply take_app_length'. by rewrite length_insert, headerFields_length. }
    rewrite E. intros Hcrc. apply Hc. symmetry.
    rewrite <- (take_drop_middle _ _ _ Hl) in Hcrc at 1. rewrite (insert_take_drop _ _ _ (lookup_lt_Some _ _ _ Hl)) in Hcrc. by apply ChecksumIEEE_byte in Hcrc.
  - rewrite (field_kept 0) by lia. rewrite (header_all _ _ _ _ Hdb). intros E. apply (damaged_getBE walHeaderChecksumAt walHeaderSize); [lia|done|].
    rewrite (header_crc _ _ _ _ Hdb), (getBE_put 4), E by apply ChecksumIEEE_lt. done.
Qed.

Lemma damaged_take a b n : (b <= n <= walHeaderSize)%nat -> field (take n damaged) a b = field damaged a b.
Proof. intros H. rewrite <- (take_drop n damaged) at 2. rewrite field_prefix; [done|]. rewrite length_take, damaged_length. lia. Qed.

(** Either way the header is read and refused. *)
Lemma damaged_read rest : exists hd rest', readWALHeader (damaged ++ rest) = inl (hd, rest') /\ validWALHeader hd = false.
Proof.
  pose proof damaged_length as Hl. unfold walHeaderSize in Hl.
  assert (Hp : length (take walHeaderPrefixSize damaged) = walHeaderPrefixSize) by (rewrite length_take, Hl; done).
  assert (Hsplit : damaged ++ rest = take walHeaderPrefixSize damaged ++ drop walHeaderPrefixSize damaged ++ rest) by (by rewrite app_assoc, take_drop).
  rewrite Hsplit. unfold readWALHeader. rewrite (readFull_app _ _ _ Hp).
  destruct (decide (i < walHeaderPrefixSize)%nat) as [Hlt|Hge].
  - destruct (damaged_prefix Hlt) as [E1 E2].
    assert (E : walHeaderLength (take walHeaderPrefixSize damaged) = 0%nat).
    { unfold walHeaderLength, legacyKind, hasKind in *. rewrite Hp, !damaged_take by (unfold walHeaderPrefixSize, walHeaderSize; lia). by rewrite E1, E2. }
    rewrite E. rewrite <- (take_drop 52 (drop walHeaderPrefixSize damaged)), <- app_assoc.
    rewrite readFull_app by (rewrite length_take, length_drop, Hl; done). do 2 eexists. split; [done|].
    rewrite take_take_drop. unfold validWALHeader, validCurrentWALHeader, legacyKind, hasKind in *. rewrite length_take, Hl.
    rewrite !(damaged_take _ _ (walHeaderPrefixSize + 52)) by (unfold walHeaderPrefixSize, walHeaderSize; lia). cbn [Nat.ltb Nat.leb walHeaderPrefixSize walHeaderSize legacyWALHeaderSize Nat.min Nat.add orb andb].
    exact E2.
  - assert (E : take walHeaderPrefixSize damaged = take walHeaderPrefixSize header) by (unfold damaged; apply take_insert_ge; lia).
    assert (E' : walHeaderLength (take walHeaderPrefixSize damaged) = walHeaderSize) by (rewrite E; apply (header_length_read _ _ _ _ Hdb)).
    rewrite E'. cbn [walHeaderSize walHeaderPrefixSize Nat.sub].
    rewrite readFull_app by (rewrite length_drop, Hl; done). do 2 eexists. split; [done|]. rewrite take_drop.
    unfold validWALHeader. rewrite (damaged_checksum ltac:(lia)), (field_kept 10 12), (header_size _ _ _ _), getBE_put by (done || (unfold walHeaderPrefixSize in *; lia)).
    by rewrite andb_false_r, Tauto.if_same.
Qed.
End damage.

(** A damaged payload fails the frame's checksum. *)
Lemma decodeFrame_damaged jsonPayload jsonState maxCanonicalBytes e i b0 c :
  length (en_database e) = 32%nat -> entryPayload e !! i = Some b0 -> c <> b0 ->
  exists err, decodeFramePayload jsonPayload jsonState maxCanonicalBytes
    (headerBytes (en_database e) (en_commit e) (nlen (entryPayload e)) (ChecksumIEEE (entryPayload e))) (<[i := c]> (entryPayload e)) = inr err.
Proof.
  intros Hdb Hi Hc. set (payload := entryPayload e) in *. unfold decodeFramePayload, isBinaryWALHeader, hasKind.
  rewrite headerBytes_length, header_magic, header_version, header_checksum by done.
  rewrite (getBE_put 4) by apply ChecksumIEEE_lt. rewrite (getBE_put 2), bool_decide_true, N.eqb_refl by done. cbn [andb orb negb Nat.leb walHeaderPrefixSize walHeaderSize].
  rewrite (proj2 (N.eqb_neq (ChecksumIEEE payload) _)); [destruct (decodeBinaryWALPayload _ _ _); eauto|].
  intros Hcrc. apply Hc. symmetry. rewrite <- (take_drop_middle _ _ _ Hi) in Hcrc at 1. rewrite (insert_take_drop _ _ _ (lookup_lt_Some _ _ _ Hi)) in Hcrc. by apply ChecksumIEEE_byte in Hcrc.
Qed.

Section corrupt.
Context (jsonPayload : list byte -> walPayload + error) (jsonState : list byte -> persistedState + error).
Context (maxCanonicalBytes : N) (base : option (N * persistedState)).
Context (Hmax : maxCanonicalBytes <= max_uint64).
Abbreviation frames := (replayFrames jsonPayload jsonState maxCanonicalBytes base).

(** A frame with one byte changed stops the replay with an error, whatever follows it. *)
Lemma replayFrames_damaged e i b0 c fuel rest acc current b :
  entryOK maxCanonicalBytes e -> entryFrame e !! i = Some b0 -> c <> b0 -> (0 < fuel)%nat ->
  exists err, frames fuel (<[i := c]> (entryFrame e) ++ rest) acc current b = inr err.
Proof.
  intros Hok Hi Hc Hf. pose proof Hok as [Hid Hcm Hv Hs Hfit Hb]. pose proof (validateDatabaseID_length _ Hid) as Hdb. pose proof sizes as [S1 S2].
  destruct fuel as [|fuel]; [lia|]. cbn [replayFrames]. unfold entryFrame in *. set (payload := entryPayload e) in *.
  pose proof (headerBytes_length (en_database e) (en_commit e) (nlen payload) (ChecksumIEEE payload) Hdb) as Hl.
  destruct (decide (i < walHeaderSize)%nat) as [Hlt|Hge].
  - rewrite insert_app_l by lia. rewrite lookup_app_l in Hi by lia. rewrite <- app_assoc.
    destruct (damaged_read _ _ _ _ Hdb i b0 c Hi Hc (payload ++ rest)) as (hd & rest' & E & Hbad). unfold damaged in E. rewrite E, Hbad. eauto.
  - rewrite insert_app_r_alt, Hl by lia. rewrite lookup_app_r, Hl in Hi by lia. rewrite <- app_assoc, (readWALHeader_ok _ _ _ _ Hdb).
    unfold validWALHeader. rewrite Hl, (header_valid _ _ _ _ Hdb) by done. cbn [Nat.ltb Nat.leb walHeaderPrefixSize walHeaderSize orb negb].
    rewrite (header_payloadLength _ _ _ _). rewrite (getBE_put 8) by (change (2 ^ (8 * N.of_nat 8)) with (2 ^ 64); lia).
    rewrite !(proj2 (N.ltb_ge _ (nlen payload))) by lia. cbn [orb].
    rewrite (proj2 (N.ltb_ge (nlen (_ ++ rest)) _)) by (unfold nlen; rewrite length_app, length_insert; lia).
    destruct (frame b) as [b1|]; [|eauto]. destruct (decodedBytes b1 (nlen payload)) as [b2|]; [|eauto].
    replace (N.to_nat (nlen payload)) with (length payload) by (unfold nlen; lia). rewrite take_app_length' by (by rewrite length_insert).
    edestruct (decodeFrame_damaged jsonPayload jsonState maxCanonicalBytes e) as [err E]; [done|exact Hi|exact Hc|].
    fold payload in E. unfold walHeaderSize in *. rewrite E. eauto.
Qed.

(** The same, for the whole log. *)
Lemma load_damaged entries e i b0 c rest b :
  Forall (entryOK maxCanonicalBytes) entries -> entryOK maxCanonicalBytes e -> entryFrame e !! i = Some b0 -> c <> b0 ->
  exists err, loadLatestWALV2 jsonPayload jsonState maxCanonicalBytes base (logBytes entries ++ <[i := c]> (entryFrame e) ++ rest) b = inr err.
Proof.
  intros Hok He Hi Hc. unfold loadLatestWALV2. pose proof (logBytes_length maxCanonicalBytes entries Hok) as Hl.
  rewrite replayFrames_log by (done || (rewrite length_app; lia)). destruct (foldError _ _ _) as [[acc b']|]; [|eauto].
  eapply replayFrames_damaged; [done|done|done|rewrite length_app; lia].
Qed.
End corrupt.

(** * What an append does to the log

    Whatever the file system does, the log after an append is the log before it followed
    by a prefix of the frame: the whole frame after a success, nothing after an error
    that does not say the outcome is unknown. *)

(** An open writer at the end of its file. *)
Record writerOK (w : WALWriter) : Prop := mkWriterOK { wo_open : ww_open w = true; wo_end : ww_offset w = length (ww_file w) }.

Lemma writeAt_end file data : writeAt file (length file) data = file ++ data.
Proof. unfold writeAt. rewrite firstn_all, Nat.sub_diag, drop_ge by lia. by rewrite app_nil_r. Qed.

(** One write: a prefix of the data is appended, and no error means all of it. *)
Lemma writerWrite_at w outcome data full err w' : writerOK w -> writerWrite w outcome data = (full, err, w') ->
  writerOK w' /\ ww_tailSize w' = ww_tailSize w /\
  (exists k, (k <= length data)%nat /\ ww_file w' = ww_file w ++ take k data) /\
  (err = None -> ww_file w' = ww_file w ++ data).
Proof.
  intros [Ho He] E. destruct outcome as [count werr]. unfold writerWrite in E. injection E as _ E2 <-. cbn [ww_file ww_tailSize].
  rewrite He, writeAt_end. split_and!; [split; cbn; [done|by rewrite length_app]|done| |].
  - exists (min count (length data)). split; [lia|]. f_equal. destruct (decide (count <= length data)%nat).
    + by rewrite Nat.min_l.
    + rewrite Nat.min_r, !take_ge by lia. done.
  - intros ->. destruct werr; [done|]. case_bool_decide; [|done]. subst count. by rewrite firstn_all.
Qed.

(** Taking back: either everything after [offset] is gone and the writer is back, or the
    error is an unknown outcome. *)
Lemma writeFailure_at w fs part werr file tail err w' : ww_open w = true -> ww_file w = file ++ tail ->
  writeFailure w fs part werr (length file) = (err, w') ->
  err <> None /\ ww_tailSize w' = ww_tailSize w /\
  (ww_file w' = file ++ tail \/ ww_file w' = file) /\
  (outcomeUnknown err = false -> ww_file w' = file /\ writerOK w').
Proof.
  intros Ho Hf. unfold writeFailure, truncateAndSync. destruct (ft_truncate fs).
  { intros [= <- <-]. split_and!; [done|done|by left|done]. }
  destruct (ft_seek fs); cbn [ww_file ww_offset ww_tailSize ww_open]; rewrite Hf, take_app_length.
  { intros [= <- <-]. split_and!; [done|done|by right|done]. }
  destruct (ft_cleanupSync fs); intros [= <- <-]; (split_and!; [done|done|by right|]); [done|intros _; done].
Qed.

Lemma take_app_whole {A} (l1 l2 : list A) k : take (length l1 + k) (l1 ++ l2) = l1 ++ take k l2.
Proof. apply take_app_add. Qed.

(** The whole append. *)
Lemma writerAppend_at w fs db commit payload header err w' : writerOK w -> encodeWALHeader db commit payload = inl header ->
  writerAppend w fs db commit payload = (err, w') ->
  (exists k, (k <= length (header ++ payload))%nat /\ ww_file w' = ww_file w ++ take k (header ++ payload)) /\
  (err = None -> ww_file w' = ww_file w ++ header ++ payload /\ writerOK w' /\ ww_tailSize w' = (ww_tailSize w + Z.of_N (nlen (header ++ payload)))%Z) /\
  (err <> None -> outcomeUnknown err = false -> ww_file w' = ww_file w /\ writerOK w' /\ ww_tailSize w' = ww_tailSize w).
Proof.
  intros Hw Hh. pose proof Hw as [Ho He]. unfold writerAppend. rewrite Ho, Hh. cbn [negb].
  destruct (ft_locate fs).
  { intros [= <- <-]. split_and!; [|done|done]. exists 0%nat. split; [lia|by rewrite app_nil_r]. }
  destruct (writerWrite w (ft_header fs) header) as [[full herr] w1] eqn:E1.
  destruct (writerWrite_at _ _ _ _ _ _ Hw E1) as (Hw1 & Ht1 & (k1 & Hk1 & Hf1) & Hn1).
  assert (Hp1 : exists k, (k <= length (header ++ payload))%nat /\ ww_file w1 = ww_file w ++ take k (header ++ payload)).
  { exists k1. split; [rewrite length_app; lia|]. by rewrite take_app_le. }
  destruct herr as [herr|].
  { destruct full; [intros [= <- <-]; split_and!; done|]. rewrite He. intros E.
    destruct (writeFailure_at _ _ _ _ _ _ _ _ (wo_open _ Hw1) Hf1 E) as (Hne & Ht & Hf & Hd). split_and!.
    - destruct Hf as [->| ->]; [rewrite <- Hf1; done|]. exists 0%nat. split; [lia|by rewrite app_nil_r].
    - done.
    - intros _ Hu. destruct (Hd Hu). split_and!; [done|done|congruence]. }
  specialize (Hn1 eq_refl).
  destruct (writerWrite w1 (ft_payload fs) payload) as [[full' perr] w2] eqn:E2.
  destruct (writerWrite_at _ _ _ _ _ _ Hw1 E2) as (Hw2 & Ht2 & (k2 & Hk2 & Hf2) & Hn2).
  rewrite Hn1 in Hf2. rewrite <- app_assoc, <- take_app_whole in Hf2.
  assert (Hp2 : exists k, (k <= length (header ++ payload))%nat /\ ww_file w2 = ww_file w ++ take k (header ++ payload)).
  { exists (length header + k2)%nat. split; [rewrite length_app; lia|done]. }
  destruct perr as [perr|].
  { destruct full'; [intros [= <- <-]; split_and!; done|]. rewrite He. intros E.
    destruct (writeFailure_at _ _ _ _ _ _ _ _ (wo_open _ Hw2) Hf2 E) as (Hne & Ht & Hf & Hd). split_and!.
    - destruct Hf as [->| ->]; [rewrite <- Hf2; done|]. exists 0%nat. split; [lia|by rewrite app_nil_r].
    - done.
    - intros _ Hu. destruct (Hd Hu). split_and!; [done|done|congruence]. }
  specialize (Hn2 eq_refl). rewrite Hn1, <- app_assoc in Hn2. unfold writerSync.
  destruct (ft_sync fs); intros [= <- <-]; (split_and!; [done| |done]); [done|intros _].
  destruct Hw2 as [Ho2 He2]. split_and!; [done|split; done|]. cbn [ww_tailSize]. rewrite nlen_app, Ht2, Ht1. done.
Qed.

(** A closed writer, or a header that does not encode, leaves the log alone. *)
Lemma writerAppend_refused w fs db commit payload : (ww_open w = false \/ exists err, encodeWALHeader db commit payload = inr err) ->
  exists err, writerAppend w fs db commit payload = (Some err, w).
Proof. unfold writerAppend. intros [->|[err ->]]; cbn [negb]; [eauto|]. destruct (ww_open w); eauto. Qed.

(** ** Frames are complete exactly when nothing is cut off *)

Lemma framesComplete_log maxBytes entries : forall fuel tail, Forall (entryOK maxBytes) entries -> (length entries < fuel)%nat ->
  framesComplete fuel (logBytes entries ++ tail) = framesComplete (fuel - length entries) tail.
Proof.
  induction entries as [|e entries IH]; intros fuel tail Hok Hf; [by rewrite Nat.sub_0_r|]. apply Forall_cons in Hok as [He Hok].
  destruct fuel as [|fuel]; [lia|]. pose proof He as [Hid Hc Hv Hs Hfit Hb]. pose proof (validateDatabaseID_length _ Hid) as Hdb. pose proof sizes as [S1 S2].
  set (payload := entryPayload e) in *. set (h := headerBytes (en_database e) (en_commit e) (nlen payload) (ChecksumIEEE payload)).
  assert (Hl : length h = walHeaderSize) by (by apply headerBytes_length).
  assert (Hval : validCurrentWALHeader h = true) by (by apply header_valid).
  assert (Hpl : getBE (field h 20 28) = nlen payload).
  { unfold h. rewrite (header_payloadLength _ _ _ _). apply (getBE_put 8). change (2 ^ (8 * N.of_nat 8)) with (2 ^ 64). lia. }
  assert (E : logBytes (e :: entries) ++ tail = h ++ payload ++ logBytes entries ++ tail) by (cbn [logBytes map concat]; unfold entryFrame; by rewrite <- !app_assoc).
  rewrite E. clear E. cbn [framesComplete length]. destruct (h ++ _) as [|x l] eqn:Ex.
  { apply (f_equal length) in Ex. rewrite length_app, Hl in Ex. done. }
  rewrite <- Ex. clear x l Ex. rewrite <- Hl, take_app_length, Hl, Hval, Hpl.
  rewrite (proj2 (Nat.ltb_ge _ _)) by (rewrite length_app; lia). rewrite (proj2 (N.ltb_ge _ (nlen payload))) by lia.
  rewrite (proj2 (N.ltb_ge _ (nlen payload))) by (unfold nlen; rewrite !length_app; lia). cbn [negb orb].
  rewrite Nat.sub_succ, <- (IH fuel tail Hok ltac:(cbn [length] in Hf; lia)). f_equal. rewrite <- Hl, drop_app_add. unfold nlen. rewrite Nat2N.id. apply drop_app_length.
Qed.

Lemma walFramesComplete_log maxBytes entries : Forall (entryOK maxBytes) entries -> walFramesComplete (logBytes entries) = true.
Proof.
  intros Hok. unfold walFramesComplete.
  pose proof (logBytes_length maxBytes entries Hok) as Hl.
  rewrite <- (app_nil_r (logBytes entries)) at 2. rewrite (framesComplete_log maxBytes) by (done || lia).
  destruct (S _ - _)%nat eqn:E; [lia|done].
Qed.

(** A cut frame is noticed, also after twelve bytes. *)
Lemma walFramesComplete_cut maxBytes entries e k : Forall (entryOK maxBytes) entries -> entryOK maxBytes e -> (0 < k < length (entryFrame e))%nat ->
  walFramesComplete (logBytes entries ++ take k (entryFrame e)) = false.
Proof.
  intros Hok He Hk. unfold walFramesComplete.
  pose proof (logBytes_length maxBytes entries Hok) as Hl.
  rewrite (framesComplete_log maxBytes) by (done || (rewrite length_app; lia)).
  destruct (S _ - _)%nat as [|fuel] eqn:E; [done|]. clear E. cbn [framesComplete].
  pose proof He as [Hid Hc Hv Hs Hfit Hb]. pose proof (validateDatabaseID_length _ Hid) as Hdb. pose proof sizes as [S1 S2].
  pose proof (entryFrame_length maxBytes e He) as Hlen.
  destruct (take k (entryFrame e)) as [|x l] eqn:Ex.
  { apply (f_equal length) in Ex. rewrite length_take in Ex. cbn in Ex. lia. }
  rewrite <- Ex. clear x l Ex. destruct (Nat.ltb_spec (length (take k (entryFrame e))) walHeaderSize) as [?|Hge]; [done|].
  rewrite length_take in Hge. rewrite take_take, Nat.min_l by lia. set (payload := entryPayload e) in *.
  assert (E : take walHeaderSize (entryFrame e) = headerBytes (en_database e) (en_commit e) (nlen payload) (ChecksumIEEE payload)).
  { unfold entryFrame. apply take_app_length'. symmetry. by apply headerBytes_length. }
  rewrite E, (header_valid _ _ _ _ Hdb), (header_payloadLength _ _ _ _).
  rewrite (getBE_put 8) by (change (2 ^ (8 * N.of_nat 8)) with (2 ^ 64); lia).
  rewrite (proj2 (N.ltb_lt (_ - _) (nlen payload))); [by rewrite orb_true_r|]. unfold nlen. rewrite length_take. lia.
Qed.

(** What an append leaves in the file: the log and part of the new frame, all of it on
    success and none of it on an error that is known to have failed. *)
Lemma append_outcome maxCanonicalBytes w fs entries e err w' : writerOK w -> ww_file w = logBytes entries -> entryOK maxCanonicalBytes e ->
  appendBinary w fs (en_database e) (en_commit e) (en_value e) = (err, w') ->
  (exists k, ww_file w' = logBytes entries ++ take k (entryFrame e)) /\
  (err = None -> ww_file w' = logBytes (entries ++ [e]) /\ writerOK w') /\
  (err <> None -> outcomeUnknown err = false -> ww_file w' = ww_file w /\ writerOK w').
Proof.
  intros Hw Hf He E. destruct (frame_encodes _ e He) as (header & payload & Ep & Eh & Efr). unfold appendBinary in E.
  rewrite (wo_open _ Hw), Ep in E. cbn [negb] in E.
  destruct (writerAppend_at _ _ _ _ _ _ _ _ Hw Eh E) as ((k & _ & Hfile) & Hnone & Hsome). rewrite <- Efr, Hf in Hfile. split_and!.
  - by exists k.
  - intros Hn. destruct (Hnone Hn) as (-> & Hw' & _). by rewrite logBytes_snoc, Efr, Hf.
  - intros Hne Hu. by destruct (Hsome Hne Hu) as (-> & Hw' & _).
Qed.

(** An append that is known to have failed left everything as it was. *)
Lemma append_failed w fs db commit v err w' : writerOK w -> appendBinary w fs db commit v = (err, w') -> err <> None -> outcomeUnknown err = false ->
  ww_file w' = ww_file w /\ writerOK w'.
Proof.
  intros Hw. unfold appendBinary. rewrite (wo_open _ Hw). cbn [negb]. destruct (encodeBinaryWALPayload v) as [payload|enc]; [|by intros [= <- <-]].
  intros E Hne Hu. destruct (encodeWALHeader db commit payload) as [header|hdr] eqn:Eh.
  - destruct (writerAppend_at _ _ _ _ _ _ _ _ Hw Eh E) as (_ & _ & Hsome). by destruct (Hsome Hne Hu) as (-> & Hw' & _).
  - destruct (writerAppend_refused w fs db commit payload) as [x Ex]; [right; by exists hdr|]. rewrite Ex in E. by injection E as <- <-.
Qed.

(** A file system that writes everything. *)
Definition noFaults (e : walEntry) : appendFaults :=
  mkFaults None (walHeaderSize, None) (length (entryPayload e), None) None None None None.

Lemma append_healthy maxCanonicalBytes w e : writerOK w -> entryOK maxCanonicalBytes e ->
  exists w', appendBinary w (noFaults e) (en_database e) (en_commit e) (en_value e) = (None, w').
Proof.
  intros Hw He. destruct (frame_encodes _ _ He) as (header & payload & Ep & Eh & Ef). pose proof (encode_payload _ (en_valid _ _ He)) as Ep'. rewrite Ep in Ep'. injection Ep' as ->.
  unfold appendBinary. rewrite (wo_open _ Hw), Ep. cbn [negb]. unfold writerAppend. rewrite (wo_open _ Hw), Eh. cbn [negb noFaults ft_locate ft_header ft_payload ft_sync].
  apply app_inj_2 in Ef as [Ef _]; [|done]. unfold writerWrite. rewrite !bool_decide_true; [by eexists|done|].
  rewrite <- Ef. symmetry. by apply headerBytes_length, validateDatabaseID_length, (en_id _ _ He).
Qed.

(** An append that succeeds wrote the whole frame, whatever was in the file. *)
Lemma append_done maxCanonicalBytes w fs e w' : writerOK w -> entryOK maxCanonicalBytes e ->
  appendBinary w fs (en_database e) (en_commit e) (en_value e) = (None, w') -> ww_file w' = ww_file w ++ entryFrame e.
Proof.
  intros Hw He E. destruct (frame_encodes _ _ He) as (header & payload & Ep & Eh & Ef). unfold appendBinary in E. rewrite (wo_open _ Hw), Ep in E. cbn [negb] in E.
  destruct (writerAppend_at _ _ _ _ _ _ _ _ Hw Eh E) as (_ & Hnone & _). destruct (Hnone eq_refl) as (-> & _). by rewrite Ef.
Qed.

(** Opening a log for appending looks at its first frame only. *)
Lemma OpenWALWriter_log maxCanonicalBytes entries tail : Forall (entryOK maxCanonicalBytes) entries -> entries <> [] ->
  exists w, OpenWALWriter (logBytes entries ++ tail) = inl w /\ writerOK w /\ ww_file w = logBytes entries ++ tail.
Proof.
  intros Hok Hne. destruct entries as [|e entries]; [done|]. apply Forall_cons in Hok as [[Hid _ _ Hs _ _] _]. pose proof (validateDatabaseID_length _ Hid) as Hdb.
  cbn [logBytes map concat]. unfold entryFrame. rewrite <- !app_assoc. set (payload := entryPayload e) in *. set (rest := payload ++ _). set (h := headerBytes _ _ _ _).
  assert (Hh : length h = walHeaderSize) by (by apply headerBytes_length).
  assert (Hlt : nlen payload < 2 ^ 62) by (eapply N.le_lt_trans; [exact Hs|by vm_compute]). assert (Hv : validCurrentWALHeader h = true) by (by apply header_valid).
  assert (Hpl : getBE (field h 20 28) = nlen payload) by (unfold h; rewrite (header_payloadLength _ _ _ _); apply (getBE_put 8); change (2 ^ (8 * N.of_nat 8)) with (4 * 2 ^ 62); lia).
  assert (Ht : take walHeaderSize (h ++ rest) = h) by (rewrite <- Hh; apply take_app_length).
  unfold OpenWALWriter. cbv zeta. rewrite Ht, Hv, Hpl.
  rewrite (proj2 (Nat.ltb_ge _ _)) by (rewrite length_app; unfold walHeaderSize in *; lia). cbn [negb orb].
  assert (Hn : 68 + nlen payload <= nlen (h ++ rest)) by (unfold rest, nlen; rewrite !length_app, Hh; unfold walHeaderSize; lia).
  assert (Hi : toInt64 (N.of_nat walHeaderSize + nlen payload) = Z.of_N (68 + nlen payload)).
  { unfold toInt64, u64. change (N.of_nat walHeaderSize) with 68. rewrite N.mod_small by (change (2 ^ 64) with (4 * 2 ^ 62); lia).
    rewrite (proj2 (Z.ltb_lt _ _)) by (change (2 ^ 63)%Z with (2 * Z.of_N (2 ^ 62))%Z; lia). done. }
  rewrite Hi, (proj2 (Z.ltb_ge _ _)) by lia. eexists. split; [reflexivity|]. by split.
Qed.

(** ** A frame behind a torn header

    When twelve bytes of a header are left in the file and a frame follows them, the
    header that is read takes its payload length from the version, the header size and
    the commit of that frame. *)

Lemma getBE_from l : forall acc, acc * 2 ^ (8 * nlen l) <= foldl (fun acc b => acc * 256 + byteN b) acc l.
Proof.
  induction l as [|x l IH]; intros acc; [change (nlen []) with 0; rewrite N.mul_0_r, N.pow_0_r, N.mul_1_r; done|]. cbn [foldl]. etransitivity; [|apply IH].
  replace (8 * nlen (x :: l)) with (8 * nlen l + 8) by (unfold nlen; cbn [length]; lia). rewrite N.pow_add_r. change (2 ^ 8) with 256. nia.
Qed.

Section torn.
Context (db db' : gostring) (commit commit' len len' crc crc' : N) (Hdb : length db = 32%nat) (Hdb' : length db' = 32%nat).
Abbreviation first := (headerBytes db commit len crc).
Abbreviation second := (headerBytes db' commit' len' crc').
Definition tornHeader : list byte := take walHeaderPrefixSize first ++ take (walHeaderSize - walHeaderPrefixSize) second.

Lemma torn_read rest : readWALHeader (take walHeaderPrefixSize first ++ second ++ rest) = inl (tornHeader, drop (walHeaderSize - walHeaderPrefixSize) second ++ rest).
Proof.
  unfold readWALHeader. rewrite (readFull_app _ _ _ (header_prefix_length db commit len crc Hdb)), (header_length_read db commit len crc Hdb).
  rewrite <- (take_drop (walHeaderSize - walHeaderPrefixSize) second) at 1. rewrite <- app_assoc, readFull_app; [done|].
  by rewrite length_take, (headerBytes_length db' commit' len' crc' Hdb').
Qed.

Lemma torn_field p q : length p = walHeaderPrefixSize -> field (p ++ q) 20 28 = take 8 (drop 8 q).
Proof. intros Hp. unfold field. change (28 - 20)%nat with 8%nat. change 20%nat with (walHeaderPrefixSize + 8)%nat. by rewrite <- Hp, drop_app_add. Qed.

Lemma torn_length : maxWALFrameBytes < getBE (field tornHeader 20 28).
Proof.
  unfold tornHeader. rewrite torn_field by (by apply header_prefix_length). pose proof (headerBytes_length db' commit' len' crc' Hdb') as Hs.
  assert (Er : exists r, second = walMagic ++ putBE 2 walVersion ++ r) by (eexists; unfold headerBytes, headerFields; rewrite <- !app_assoc; reflexivity).
  destruct Er as [r Er]. rewrite Er in Hs |- *. rewrite !length_app, putBE_length in Hs. change (length walMagic) with 8%nat in Hs. assert (Hr : length r = 58%nat) by (unfold walHeaderSize in Hs; lia).
  assert (E : take 8 (drop 8 (take (walHeaderSize - walHeaderPrefixSize) (walMagic ++ putBE 2 walVersion ++ r))) = [x00; x05] ++ take 6 (take 46 r)) by reflexivity.
  rewrite E. unfold getBE. rewrite foldl_app. eapply N.lt_le_trans; [|apply getBE_from]. unfold nlen. rewrite !length_take, Hr. vm_compute. done.
Qed.
End torn.

Section mixed.
Context (jsonPayload : list byte -> walPayload + error) (jsonState : list byte -> persistedState + error).
Context (maxCanonicalBytes : N) (base : option (N * persistedState)) (Hmax : maxCanonicalBytes <= max_uint64).

Lemma replayFrames_mixed e1 e2 rest fuel acc current b : entryOK maxCanonicalBytes e1 -> entryOK maxCanonicalBytes e2 -> (0 < fuel)%nat ->
  exists err, replayFrames jsonPayload jsonState maxCanonicalBytes base fuel (take walHeaderPrefixSize (entryFrame e1) ++ entryFrame e2 ++ rest) acc current b = inr err.
Proof.
  intros [Hid1 _ _ _ _ _] [Hid2 _ _ _ _ _] Hf. apply validateDatabaseID_length in Hid1, Hid2. destruct fuel as [|fuel]; [lia|]. unfold entryFrame.
  rewrite take_app_le by (rewrite headerBytes_length by done; unfold walHeaderPrefixSize, walHeaderSize; lia). rewrite <- app_assoc. cbn [replayFrames]. rewrite torn_read by done.
  destruct (negb (validWALHeader _)); [by eexists|]. rewrite (proj2 (N.ltb_lt maxWALFrameBytes _)) by (by apply torn_length). by eexists.
Qed.

Lemma load_mixed entries e1 e2 rest b : Forall (entryOK maxCanonicalBytes) entries -> entryOK maxCanonicalBytes e1 -> entryOK maxCanonicalBytes e2 ->
  exists err, loadLatestWALV2 jsonPayload jsonState maxCanonicalBytes base (logBytes entries ++ take walHeaderPrefixSize (entryFrame e1) ++ entryFrame e2 ++ rest) b = inr err.
Proof.
  intros Hok H1 H2. unfold loadLatestWALV2. pose proof (logBytes_length _ entries Hok) as Hl. rewrite (replayFrames_log _ _ _ _ Hmax) by (done || (rewrite length_app; lia)).
  destruct (foldError _ _ _) as [[acc b']|err]; [|by eexists]. apply replayFrames_mixed; [done|done|]. rewrite length_app. lia.
Qed.
End mixed.
