(* ===== verification/DecoderSafety.v ===== *)
(** * Decoding hostile bytes

    Whatever bytes it is given, and whether it succeeds or not, the decoder reserves
    before it builds: what it returns weighs at most what it reserved, and it reserves at
    most its allowance. The maps it returns hold each key once, at every level.

    Further down: loading a log of any bytes. *)
From S2P Require Import Prelude.
From S2P Require Import GoBytes.
From S2P Require Import BinaryCodec.
From S2P Require Import BinaryCodecSpec.
From S2P Require Import BinaryValue.
From S2P Require Import BinaryValueSpec.
From S2P Require Import BinaryRecords.
From S2P Require Import BinaryRecordsSpec.
From S2P Require Import BinaryTheorems.
From S2P Require Import GoMaps.
From S2P Require Import Values.
From S2P Require Import ValuesSpec.
From S2P Require Import Properties.
From S2P Require Import PageRecords.
From S2P Require Import Streams.
From S2P Require Import StreamPersist.
From S2P Require Import PropertyDelta.
From S2P Require Import PropertyPatch.
From S2P Require Import WalAccumulator.
From S2P Require Import WalInvariant.
From S2P Require Import WalSteps.
From S2P Require Import WalFrames.
From Stdlib Require Strings.String.
Import String.StringSyntax.

(** ** Readers *)

Definition spent (d : binaryDecoder) : N := nsum (d_log d).

(** [r] returns an [x] with [P x] whose cost [c x] is covered by what it reserves and
    by [k] reserved before; its reservations come off the allowance. *)
Definition reads {A} (k : N) (P : A -> Prop) (c : A -> N) (r : binaryDecoder -> A * binaryDecoder) : Prop :=
  forall d, allocationLeft d <= max_uint64 ->
    P (r d).1 /\ spent (r d).2 + allocationLeft (r d).2 = spent d + allocationLeft d /\
    spent d <= spent (r d).2 /\ spent d + c (r d).1 <= spent (r d).2 + k.

Section readers.
Context {A B : Type}.
Implicit Types (P : A -> Prop) (c : A -> N).

Lemma reads_ret k P c x : P x -> c x <= k -> reads k P c (fun d => (x, d)).
Proof. intros Hx Hc d Hd. cbn [fst snd]. split_and!; [done|done|done|lia]. Qed.

Lemma reads_fail k P c x err : P x -> c x <= k -> reads k P c (fun d => (x, d_fail d err)).
Proof. intros Hx Hc d Hd. unfold spent, d_fail. cbn [fst snd d_log allocationLeft]. split_and!; [done|done|done|lia]. Qed.

Lemma reads_bind k P c (f : binaryDecoder -> A * binaryDecoder) (Q : B -> Prop) (c' : B -> N) g :
  reads 0 P c f -> (forall x, P x -> reads (k + c x) Q c' (g x)) -> reads k Q c' (fun d => let '(x, d) := f d in g x d).
Proof.
  intros Hf Hg d Hd. destruct (Hf d Hd) as (Hp & He & Hm & Hc). destruct (f d) as [x d1]. cbn [fst snd] in *.
  destruct (Hg x Hp d1 ltac:(lia)) as (Hq & He' & Hm' & Hc'). destruct (g x d1) as [y d2]. cbn [fst snd] in *. split_and!; [done|lia..].
Qed.

Lemma reads_err k P c f g : (forall err, reads k P c (f err)) -> reads k P c g ->
  reads k P c (fun d => match d_err d with Some err => f err d | None => g d end).
Proof. intros Hf Hg d Hd. destruct (d_err d); [by apply Hf|by apply Hg]. Qed.

Lemma reads_if k P c (b : binaryDecoder -> bool) f g : reads k P c f -> reads k P c g -> reads k P c (fun d => if b d then f d else g d).
Proof. intros Hf Hg d Hd. destruct (b d); [by apply Hf|by apply Hg]. Qed.

Lemma reads_weaken k k' P P' c c' f : (forall x, P x -> P' x) -> (forall x, P x -> c' x <= c x) -> k <= k' -> reads k P c f -> reads k' P' c' f.
Proof. intros HP Hc Hk Hf d Hd. destruct (Hf d Hd) as (Hp & He & Hm & Hx). specialize (Hc _ Hp). split_and!; [auto|done|done|lia]. Qed.

(** A reader that leaves the reservations alone. *)
Definition quiet (f : binaryDecoder -> A * binaryDecoder) : Prop :=
  forall d, allocationLeft (f d).2 = allocationLeft d /\ d_log (f d).2 = d_log d.

Lemma reads_quiet P f : quiet f -> (forall d, P (f d).1) -> reads 0 P (fun _ => 0) f.
Proof. intros Hq HP d _. destruct (Hq d) as [Ha Hl]. unfold spent. rewrite Ha, Hl. split_and!; [apply HP|lia..]. Qed.
End readers.

Definition anyValue {A} (_ : A) : Prop := True.
Definition free {A} (_ : A) : N := 0.

(** ** Primitive readers *)

Lemma quiet_read n : quiet (fun d => dec_read d n).
Proof. intros d. unfold dec_read. by repeat case_match. Qed.
Lemma quiet_ReadByte : quiet ReadByte.
Proof.
  intros d. unfold ReadByte. pose proof (quiet_read 1 d) as Hq. destruct (dec_read d 1) as [b d1]. cbn [snd] in Hq. by repeat case_match.
Qed.

Lemma quiet_readUvarint fuel : forall i x s, quiet (readUvarint fuel i x s).
Proof.
  induction fuel as [|fuel IH]; intros i x s d; [done|]. cbn [readUvarint]. pose proof (quiet_ReadByte d) as Hq.
  destruct (ReadByte d) as [b d1]. cbn [snd] in Hq. destruct (d_err d1); [done|]. destruct (byteN b <? 128); [by case_match|].
  destruct (IH (S i) (N.lor x (shl64 (N.land (byteN b) 127) s)) (s + 7) d1) as [-> ->]. done.
Qed.

Lemma quiet_u : quiet dec_u.
Proof.
  intros d. unfold dec_u, slowUvarint, ReadUvarint. pose proof (quiet_readUvarint maxVarintLen64 0 0 0 d) as Hq.
  destruct (d_err d); [done|]. destruct (readUvarint maxVarintLen64 0 0 0 d) as [[v|err] d1]; destruct (Uvarint (input d)) as [w n]; by repeat case_match.
Qed.

Lemma quiet_i : quiet dec_i.
Proof.
  intros d. unfold dec_i, ReadUvarint. pose proof (quiet_readUvarint maxVarintLen64 0 0 0 d) as Hq.
  destruct (d_err d); [done|]. destruct (readUvarint maxVarintLen64 0 0 0 d) as [[v|err] d1]; destruct (Uvarint (input d)) as [w n]; by repeat case_match.
Qed.

Lemma u_reads : reads 0 anyValue free dec_u.
Proof. by apply reads_quiet; [apply quiet_u|]. Qed.
Lemma i_reads : reads 0 anyValue free dec_i.
Proof. by apply reads_quiet; [apply quiet_i|]. Qed.
Lemma byte_reads : reads 0 anyValue free ReadByte.
Proof. by apply reads_quiet; [apply quiet_ReadByte|]. Qed.

(** A buffer of [n] bytes comes back with its length. *)
Lemma read_reads n : reads 0 (fun b => nlen b <= n) free (fun d => dec_read d n).
Proof.
  apply reads_quiet; [apply quiet_read|]. intros d. unfold dec_read, nlen.
  repeat case_match; cbn [fst]; rewrite ?length_app, ?length_replicate, ?length_take; lia.
Qed.

(** [reserve] takes exactly [count * size] off the allowance, or nothing. *)
Lemma reserve_reads count size : reads 0 anyValue (fun ok : bool => if ok then count * size else 0) (fun d => reserve d count size).
Proof.
  intros d Hd. unfold reserve. destruct (d_err d); [cbn [fst snd]; split_and!; [done|done|done|lia]|].
  destruct (negb (size =? 0) && (allocationLeft d / size <? count)) eqn:E; [unfold spent; cbn [fst snd d_log allocationLeft d_fail]; split_and!; [done|done|done|lia]|].
  assert (Hle : count * size <= allocationLeft d).
  { destruct (N.eqb_spec size 0) as [->|Hne]; [lia|]. cbn [negb andb] in E. apply N.ltb_ge in E.
    pose proof (N.Div0.mul_div_le (allocationLeft d) size). nia. }
  assert (Hs : u64 (count * size) = count * size) by (apply N.mod_small; unfold max_uint64 in Hd; lia).
  assert (Hsub : sub64 (allocationLeft d) (count * size) = allocationLeft d - count * size) by (apply sub64_exact; lia).
  assert (Hone : nsum [count * size] = count * size) by (unfold nsum; cbn [foldr]; lia).
  rewrite Hs.
  destruct (admitAllocation d) as [callback|]; [destruct (callback _ _)|]; unfold spent; cbn [fst snd d_log allocationLeft d_fail];
    rewrite ?nsum_app, ?Hsub, ?Hone; split_and!; done || lia.
Qed.

(** Run through a reader's body: bind, branch, return. *)
Create HintDb reads.
#[export] Hint Resolve u_reads i_reads byte_reads read_reads reserve_reads : reads.
Ltac reading :=
  repeat first
    [ apply reads_ret
    | apply reads_fail
    | match goal with
      | |- reads _ _ _ (fun d => if ?b then _ else _) => let E := fresh "E" in destruct b eqn:E
      | |- reads _ _ _ (fun d => match ?x with Some _ => _ | None => _ end) => destruct x
      end
    | apply reads_if
    | apply reads_err; [intros ?|]
    | eapply reads_bind; [solve [eauto with reads]|intros ? ?] ].

Definition lengthCost (size : N) (n : option N) : N := match n with Some n => n * size | None => 0 end.

Lemma length_reads size : reads 0 anyValue (lengthCost size) (fun d => dec_length d size).
Proof. unfold dec_length. reading; done. Qed.
#[export] Hint Resolve length_reads : reads.

Definition strCost (s : gostring) : N := nlen s * 2.

Lemma str_reads : reads 0 anyValue strCost dec_str.
Proof. unfold dec_str. reading; try done; destruct x0; try done; unfold strCost, free in *; lia. Qed.

Definition bytesCost (b : option (list byte)) : N := slen b.

Lemma bytes_reads : reads 0 anyValue bytesCost dec_bytes.
Proof. unfold dec_bytes. reading; try done. unfold bytesCost, lengthCost, free in *. cbn [slen]. lia. Qed.
#[export] Hint Resolve str_reads bytes_reads : reads.

(** ** Slices *)

Definition sliceCost {A} (size : N) (c : A -> N) (v : option (list A)) : N :=
  match v with None => 0 | Some l => nlen l * size + nsum (map c l) end.

Section slices.
Context {A : Type} `{Inhabited A} (P : A -> Prop) (c : A -> N) (read : binaryDecoder -> A * binaryDecoder).
Context (Hread : reads 0 P c read) (Hzero : P inhabitant) (Hfree : c inhabitant = 0).

Lemma each_reads n : reads 0 (fun l => Forall P l /\ length l = n) (fun l => nsum (map c l)) (decEach read n).
Proof.
  induction n as [|n IH]; cbn [decEach]; [by apply reads_ret|]. eapply reads_bind; [exact Hread|]. intros x Hx. apply reads_err; [intros _; apply reads_ret|].
  - split; [|cbn; by rewrite length_replicate]. constructor; [done|]. by apply Forall_replicate.
  - cbn [map nsum foldr]. enough (nsum (map c (replicate n inhabitant)) = 0) by (unfold nsum in *; lia).
    clear IH. induction n as [|n IH]; [done|]. cbn [replicate map nsum foldr]. unfold nsum in IH. by rewrite IH, Hfree.
  - eapply reads_bind; [exact IH|]. intros l [Hl Hn]. apply reads_ret; [split; [by constructor|cbn; by rewrite Hn]|]. cbn [map nsum foldr]. unfold nsum. lia.
Qed.

Lemma slice_reads size : reads 0 (fun v => Forall P (elems v)) (sliceCost size c) (decodeBinarySlice size read).
Proof.
  unfold decodeBinarySlice. eapply reads_bind; [apply length_reads|]. intros [n|] _; [|apply reads_ret; [constructor|done]].
  eapply reads_bind; [apply each_reads|]. intros l [Hl Hn]. apply reads_ret; [done|]. unfold nlen. cbn [sliceCost lengthCost]. unfold nlen. rewrite Hn, N2Nat.id. lia.
Qed.
End slices.

(** ** Maps and values *)

Lemma mapInsert_length_new {A} key (v : A) m : mapLookup key m = None -> length (mapInsert key v m) = S (length m).
Proof.
  induction m as [|[k w] m IH]; [done|]. cbn [mapLookup mapInsert]. case_bool_decide; [done|]. intros E. destruct (strLe key k); [done|].
  cbn [length]. by rewrite IH.
Qed.

Section entries.
Context (cv : persistedValue -> N) (decv : binaryDecoder -> persistedValue * binaryDecoder) (Hv : reads 0 wfP cv decv).
Definition entryCost (kv : gostring * persistedValue) : N := strCost kv.1 + cv kv.2.

Lemma entries_reads n : forall values, wfStored values ->
  reads (sumMap entryCost values) (fun m => wfStored m /\ (length m <= length values + n)%nat) (sumMap entryCost) (decEntries decv n values).
Proof.
  induction n as [|n IH]; intros values Hw; cbn [decEntries]; [apply reads_ret; [split; [done|lia]|done]|].
  eapply reads_bind; [apply str_reads|]. intros key _. eapply reads_bind; [exact Hv|]. intros v Hwv.
  apply reads_err; [intros _; apply reads_ret; [split; [done|lia]|lia]|].
  destruct (mapLookup key values) as [w|] eqn:E; [apply reads_fail; [split; [done|lia]|lia]|].
  assert (Hl : length (mapInsert key v values) = S (length values)) by (by apply mapInsert_length_new).
  eapply reads_weaken; [| |shelve|apply (IH (mapInsert key v values))].
  - intros m [Hm Hl']. split; [done|lia].
  - done.
  - destruct Hw as [Hs Hf]. split; [by apply mapInsert_sorted|]. by apply mapInsert_Forall.
  Unshelve. destruct Hw as [Hs _]. pose proof (sumMap_insert entryCost key v values Hs) as X.
    unfold weight in X. rewrite E in X. unfold entryCost in X at 3. cbn [fst snd] in X. lia.
Qed.

Lemma properties_with_reads depth : reads 0 (fun m => wfStored (elems m)) (sliceCost 208 entryCost) (fun d => dec_properties_with decv d depth).
Proof.
  unfold dec_properties_with. destruct (maxBinaryValueDepth <? depth)%nat; [apply reads_fail; [split; constructor|done]|].
  eapply reads_bind; [apply length_reads|]. intros [n|] _; [|apply reads_ret; [split; constructor|done]].
  eapply reads_bind.
  - eapply reads_weaken; [| | |apply (entries_reads (N.to_nat n) [])]; [intros m Hm; exact Hm|intros m _; reflexivity|done|split; constructor].
  - intros m [Hm Hl]. apply reads_ret; [done|]. cbn [sliceCost lengthCost elems]. unfold sumMap, nlen in *. cbn [length] in Hl. nia.
Qed.
End entries.

Lemma reads_checked {A} k (P : A -> Prop) c x (b : bool) err : P x -> c x <= k ->
  reads k P c (fun d => (x, match d_err d with None => if b then d_fail d err else d | Some _ => d end)).
Proof. intros Hx Hc d Hd. destruct (d_err d), b; unfold spent, d_fail; cbn [fst snd d_log allocationLeft]; (split_and!; [done|done|done|lia]). Qed.

Definition valueCost (n : nat) (v : persistedValue) : N := nsum (reservedV n v).

Lemma nsum_reserved_many {A} size (f : A -> list N) l : nsum (reserveMany size f (Some l)) = nlen l * size + nsum (map (fun x => nsum (f x)) l).
Proof. cbn [reserveMany]. rewrite nsum_app. f_equal; [unfold nsum; cbn [foldr]; lia|]. induction l as [|x l IH]; [done|]. cbn [fmap list_fmap concat map]. by rewrite nsum_app, IH. Qed.

Lemma reserveMany_cost {A} size (f : A -> list N) v : nsum (reserveMany size f v) = sliceCost size (fun x => nsum (f x)) v.
Proof. destruct v as [l|]; [apply nsum_reserved_many|done]. Qed.

Lemma float_reads : reads 0 anyValue free decFloat32.
Proof. unfold decFloat32. reading; done. Qed.

Lemma reads_cost {A} (P : A -> Prop) c c' f : (forall x, c' x <= c x) -> reads 0 P c f -> reads 0 P c' f.
Proof. intros Hc. by apply reads_weaken; auto. Qed.

Lemma value_reads fuel : forall n depth, reads 0 wfP (valueCost n) (fun d => dec_value_fuel fuel d depth).
Proof.
  assert (Hleaf : forall n v, match v with PVEmpty | PVNull | PVBool _ | PVInt _ | PVFloat _ | PVUnknown _ => True | _ => False end -> wfP v /\ valueCost n v <= 0).
  { intros n v Hv. split; [apply wfP_leaf; by destruct v|]. unfold valueCost. destruct n, v; done || (unfold nsum; cbn; lia). }
  induction fuel as [|fuel IH]; intros n depth; cbn [dec_value_fuel]; [by apply reads_ret; apply (Hleaf n PVEmpty)|].
  apply reads_err; [intros _; by apply reads_ret; apply (Hleaf n PVEmpty)|].
  destruct (maxBinaryValueDepth <? depth)%nat; [by apply reads_fail; apply (Hleaf n PVEmpty)|].
  eapply reads_bind; [apply byte_reads|]. intros tag _. apply reads_err; [intros _; by apply reads_ret; apply (Hleaf n PVEmpty)|].
  destruct tag; try (apply reads_fail; by apply (Hleaf n PVEmpty)).
  - by apply reads_ret; apply (Hleaf n PVEmpty).
  - by apply reads_ret; apply (Hleaf n PVNull).
  - eapply reads_bind; [apply byte_reads|]. intros flag _. by apply reads_checked; apply (Hleaf n (PVBool (byteN flag =? 1))).
  - eapply reads_bind; [apply i_reads|]. intros i _. by apply reads_ret; apply (Hleaf n (PVInt i)).
  - eapply reads_bind; [apply read_reads|]. intros b _. by apply reads_checked; apply (Hleaf n (PVFloat (getBE b))).
  - eapply reads_bind; [apply str_reads|]. intros s _. apply reads_ret; [by apply wfP_leaf|]. unfold valueCost, strCost. destruct n; cbn [reservedV nsum foldr]; lia.
  - eapply reads_bind; [apply bytes_reads|]. intros b _. apply reads_ret; [by apply wfP_leaf|]. unfold valueCost, bytesCost.
    destruct n, b; cbn [reservedV nsum foldr slen]; lia.
  - eapply reads_bind; [apply length_reads|]. intros [count|] _; [|by apply reads_ret; [apply wfP_leaf|destruct n]].
    apply (reads_if _ _ _ (fun d => remaining d / 4 <? count)); [apply reads_fail; [by apply wfP_leaf|destruct n; apply N.le_0_l]|].
    eapply reads_bind; [apply (each_reads anyValue free); [apply float_reads|done|done]|]. intros l [_ Hl]. apply reads_ret; [by apply wfP_leaf|].
    unfold valueCost. destruct n; [apply N.le_0_l|]. cbn [reservedV]. rewrite reserveMany_cost. cbn [sliceCost lengthCost]. unfold nlen. rewrite Hl, N2Nat.id.
    change (fun _ : N => nsum []) with (@free N). lia.
  - eapply reads_bind; [apply length_reads|]. intros [count|] _; [|apply reads_ret; [by apply wfP_list|by destruct n]].
    eapply reads_bind; [apply (each_reads wfP (valueCost (pred n))); [apply IH|by apply (Hleaf n PVEmpty)|by destruct (pred n)]|].
    intros l [Hw Hl]. apply reads_ret; [by apply wfP_list|]. unfold valueCost at 1. destruct n; [apply N.le_0_l|]. cbn [reservedV pred]. rewrite reserveMany_cost.
    cbn [sliceCost lengthCost]. unfold nlen. rewrite Hl, N2Nat.id. unfold valueCost. lia.
  - eapply reads_bind; [apply (properties_with_reads (valueCost (pred n))); apply IH|]. intros m [Hs Hw].
    apply reads_ret; [apply wfP_map; [by apply keysSorted_nodup|done]|]. unfold valueCost at 1. destruct n; [apply N.le_0_l|]. cbn [reservedV pred].
    rewrite reserveMany_cost. apply N.eq_le_incl. destruct m as [m|]; [|done]. cbn [sliceCost]. done.
Qed.

(** ** Records *)

Lemma value0_reads : reads 0 wfP (fun v => nsum (reserved v)) (fun d => dec_value d 0).
Proof. apply value_reads. Qed.

Lemma properties0_reads : reads 0 (fun m => wfStored (elems m)) (fun m => nsum (reserved (A := properties) m)) (fun d => dec_properties d 0).
Proof.
  eapply reads_cost; [|apply (properties_with_reads (valueCost maxLevels)); apply value_reads]. intros m. apply N.eq_le_incl.
  cbn [reserved codec_properties]. rewrite reserveMany_cost. by destruct m.
Qed.

Section record_slices.
Context {A : Type} `{Inhabited A} `{Codec A} (P : A -> Prop) (size : N) (callback : bool) (Hs : size <= 208).
Context (Hread : reads 0 P (fun x => nsum (reserved x)) cdec) (Hzero : P inhabitant) (Hfree : nsum (reserved inhabitant) = 0).

(** The cost of a slice, as its codec has it. *)
Lemma codec_slice_reads : reads 0 (fun v => Forall P (elems v)) (fun v => nsum (reserved (Codec := codec_slice size callback Hs) v)) (decodeBinarySlice size cdec).
Proof.
  eapply reads_cost; [|apply (slice_reads P (fun x => nsum (reserved x))); done]. intros v. apply N.eq_le_incl. cbn [reserved codec_slice].
  unfold reserves_slice, reserves. destruct v as [l|]; [|done]. apply (nsum_reserved_many size reserved l).
Qed.
End record_slices.

Abbreviation weight_of := (fun x => nsum (reserved x)).
Definition anyOf {A} (_ : A) : Prop := True.

Lemma u_record : reads 0 anyOf weight_of dec_u.
Proof. exact u_reads. Qed.
Lemma str_record : reads 0 anyOf weight_of dec_str.
Proof. eapply reads_cost; [|exact str_reads]. intros s. unfold strCost, nsum. cbn [reserved codec_str foldr]. lia. Qed.
Lemma bytes_record : reads 0 anyOf weight_of dec_bytes.
Proof. eapply reads_cost; [|exact bytes_reads]. intros [b|]; [|done]. unfold bytesCost, nsum. cbn [reserved codec_bytes foldr slen]. lia. Qed.
Lemma byte_record : reads 0 anyOf free ReadByte.
Proof. exact byte_reads. Qed.
Lemma strings_record : reads 0 (fun v => Forall anyOf (elems v)) weight_of dec_strings.
Proof. exact (codec_slice_reads (A := gostring) anyOf 16 true ltac:(discriminate) str_record I eq_refl). Qed.
Lemma ids_record : reads 0 (fun v => Forall anyOf (elems v)) weight_of dec_ids.
Proof. exact (codec_slice_reads (A := N) anyOf 8 true ltac:(discriminate) u_record I eq_refl). Qed.

Create HintDb records.
#[export] Hint Resolve u_record str_record bytes_record byte_record strings_record ids_record value0_reads properties0_reads : records.

(** A record's body: each field in turn; its weight is the sum of theirs. *)
Ltac record_reading :=
  repeat first
    [ apply reads_ret
    | apply reads_fail
    | match goal with
      | |- reads _ _ _ (fun d => if ?b then _ else _) => destruct b
      end
    | apply reads_err; [intros _|]
    | eapply reads_bind; [solve [eauto with records]|intros ? ?] ].
Ltac weigh := rewrite ?nsum_app; unfold free in *; lia.

Definition wfNode (n : persistedNode) : Prop := wfStored (elems (pn_Properties n)).
Definition wfEdge (e : persistedEdge) : Prop := wfStored (elems (pe_Properties e)).
Definition wfChange (c : persistedPropertyChange) : Prop := wfStored (elems (pc_Set c)).

Lemma node_reads : reads 0 wfNode weight_of dec_node.
Proof.
  unfold dec_node. record_reading; [split; constructor|apply N.le_0_l|done|]. cbn [reserved codec_node pn_ID pn_Labels pn_Properties]. weigh.
Qed.

Lemma edge_reads : reads 0 wfEdge weight_of dec_edge.
Proof.
  unfold dec_edge. record_reading; [split; constructor| |done|];
    cbn [reserved codec_edge pe_ID pe_SourceID pe_TargetID pe_Type pe_Properties]; [|weigh].
  change (reserved None) with (@nil N). rewrite app_nil_r. weigh.
Qed.

Lemma fts_reads : reads 0 anyOf weight_of dec_fts.
Proof. unfold dec_fts. record_reading; [done|]. cbn [reserved codec_fts pf_NodeID pf_Text]. weigh. Qed.
Lemma index_reads : reads 0 anyOf weight_of dec_index.
Proof. unfold dec_index. record_reading; [done|]. cbn [reserved codec_index pi_Scope pi_Property]. weigh. Qed.
Lemma meta_reads : reads 0 anyOf weight_of dec_meta.
Proof. unfold dec_meta. record_reading; [done|]. cbn [reserved codec_meta pm_Key pm_Value]. weigh. Qed.
Lemma metaChange_reads : reads 0 anyOf weight_of dec_metaChange.
Proof.
  unfold dec_metaChange. record_reading; try done; cbn [reserved codec_metaChange pmc_Key pmc_Value pmc_Delete codec_flag]; rewrite ?app_nil_r; weigh.
Qed.
Lemma offset_reads : reads 0 anyOf weight_of dec_offset.
Proof. unfold dec_offset. record_reading; [done|]. cbn [reserved codec_offset pso_Stream pso_Consumer pso_Sequence]. weigh. Qed.
Lemma streamRecord_reads : reads 0 (fun r => wfP (psr_Payload r)) weight_of dec_streamRecord.
Proof. unfold dec_streamRecord. record_reading; [done|]. cbn [reserved codec_streamRecord psr_Sequence psr_Kind psr_Payload]. weigh. Qed.
Lemma streamOperation_reads : reads 0 (fun o => wfP (op_Payload o)) weight_of dec_streamOperation.
Proof.
  unfold dec_streamOperation. record_reading; [done|].
  cbn [reserved codec_streamOperation op_Type op_Stream op_Consumer op_Sequence op_Kind op_Payload]. weigh.
Qed.
Lemma propertyChange_reads : reads 0 wfChange weight_of dec_propertyChange.
Proof. unfold dec_propertyChange. record_reading; [done|]. cbn [reserved codec_propertyChange pc_ID pc_Set pc_Remove]. weigh. Qed.

Abbreviation all P := (fun v => Forall P (elems v)).
Ltac slice_of A P size H := exact (codec_slice_reads (A := A) P size false ltac:(discriminate) H ltac:(first [exact I|split; constructor|by apply wfP_leaf]) eq_refl).

Lemma nodes_reads : reads 0 (all wfNode) weight_of (decodeBinarySlice 40 dec_node).
Proof. slice_of persistedNode wfNode 40 node_reads. Qed.
Lemma edges_reads : reads 0 (all wfEdge) weight_of (decodeBinarySlice 48 dec_edge).
Proof. slice_of persistedEdge wfEdge 48 edge_reads. Qed.
Lemma ftss_reads : reads 0 (all anyOf) weight_of (decodeBinarySlice 24 dec_fts).
Proof. slice_of persistedFTS (@anyOf persistedFTS) 24 fts_reads. Qed.
Lemma indexes_reads : reads 0 (all anyOf) weight_of dec_indexes.
Proof. slice_of persistedPropertyIndexDefinition (@anyOf persistedPropertyIndexDefinition) 32 index_reads. Qed.
Lemma metadata_reads : reads 0 (all anyOf) weight_of dec_metadata.
Proof. slice_of persistedAppMetadata (@anyOf persistedAppMetadata) 32 meta_reads. Qed.
Lemma metaChanges_reads : reads 0 (all anyOf) weight_of (decodeBinarySlice 56 dec_metaChange).
Proof. slice_of persistedAppMetadataChange (@anyOf persistedAppMetadataChange) 56 metaChange_reads. Qed.
Lemma offsets_reads : reads 0 (all anyOf) weight_of (decodeBinarySlice 40 dec_offset).
Proof. slice_of persistedStreamOffset (@anyOf persistedStreamOffset) 40 offset_reads. Qed.
Lemma streamRecords_reads : reads 0 (all (fun r => wfP (psr_Payload r))) weight_of (decodeBinarySlice 160 dec_streamRecord).
Proof. slice_of persistedStreamRecord (fun r => wfP (psr_Payload r)) 160 streamRecord_reads. Qed.
Lemma operations_reads : reads 0 (all (fun o => wfP (op_Payload o))) weight_of dec_streamOperations.
Proof. slice_of persistedStreamOperation (fun o => wfP (op_Payload o)) 208 streamOperation_reads. Qed.
Lemma changes_reads : reads 0 (all wfChange) weight_of (decodeBinarySlice 40 dec_propertyChange).
Proof. slice_of persistedPropertyChange wfChange 40 propertyChange_reads. Qed.
#[export] Hint Resolve nodes_reads edges_reads ftss_reads indexes_reads metadata_reads metaChanges_reads offsets_reads
  streamRecords_reads operations_reads changes_reads : records.

Definition wfStream (s : persistedStream) : Prop := Forall (fun r => wfP (psr_Payload r)) (elems (ps_Records s)).
Lemma stream_reads : reads 0 wfStream weight_of dec_stream.
Proof. unfold dec_stream. record_reading; [done|]. cbn [reserved codec_stream ps_Name ps_Next ps_Records]. weigh. Qed.
Lemma streamSlice_reads : reads 0 (all wfStream) weight_of (decodeBinarySlice 48 dec_stream).
Proof. exact (codec_slice_reads (A := persistedStream) wfStream 48 false ltac:(discriminate) stream_reads ltac:(constructor) eq_refl). Qed.
#[export] Hint Resolve streamSlice_reads : records.
Definition wfStreams (s : persistedStreams) : Prop := Forall wfStream (elems (pss_Streams s)).
Lemma streams_reads : reads 0 wfStreams weight_of dec_streams.
Proof. unfold dec_streams. record_reading; [done|]. cbn [reserved codec_streams pss_Streams pss_Offsets]. weigh. Qed.
#[export] Hint Resolve streams_reads : records.

(** ** Whole payloads *)

Record wfState (s : persistedState) : Prop := mkWfState {
  ws_nodes : Forall wfNode (elems (st_Nodes s)); ws_edges : Forall wfEdge (elems (st_Edges s)); ws_streams : wfStreams (st_Streams s) }.

Record wfDelta (d : persistedDelta) : Prop := mkWfDelta {
  wd_nodes : Forall wfNode (elems (dl_UpsertNodes d)); wd_edges : Forall wfEdge (elems (dl_UpsertEdges d));
  wd_nodeChanges : Forall wfChange (elems (dl_NodePropertyChanges d)); wd_edgeChanges : Forall wfChange (elems (dl_EdgePropertyChanges d)) }.

Lemma state_reads : reads 0 wfState weight_of dec_state.
Proof.
  unfold dec_state. record_reading; try (apply N.le_0_l); try done.
  - split; constructor.
  - cbn [reserved codec_state st_DatabaseID st_VectorDimensions st_CommitID st_NextNodeID st_NextEdgeID st_AppMetadata st_Nodes st_Edges st_FTS st_NodeIndexes st_EdgeIndexes st_Streams].
    change (reserved (u16 _)) with (@nil N). rewrite ?nsum_app. change (nsum []) with 0. weigh.
Qed.

Lemma optStreams_reads (b : bool) : reads 0 anyOf weight_of
  (fun d => if b then let '(ps, d) := dec_streams d in (Some ps, d) else (None, d)).
Proof. record_reading; done. Qed.
#[export] Hint Resolve optStreams_reads : records.

Lemma delta_reads : reads 0 wfDelta weight_of dec_delta.
Proof.
  unfold dec_delta. record_reading; try (apply N.le_0_l); try (split; constructor); try done.
  cbn [reserved codec_delta dl_DatabaseID dl_CommitID dl_NextNodeID dl_NextEdgeID dl_UpsertNodes dl_DeleteNodes dl_UpsertEdges dl_DeleteEdges dl_UpsertFTS dl_DeleteFTS
       dl_AppMetadata dl_Streams dl_StreamOperations dl_CreateNodeIndexes dl_DropNodeIndexes dl_CreateEdgeIndexes dl_DropEdgeIndexes dl_NodePropertyChanges dl_EdgePropertyChanges]. weigh.
Qed.

(** * Loading any log

    Whatever the bytes of the file, replay ends, and a state it returns comes from an
    accumulator that satisfies the recovery invariant. *)

(** ** Decoded payloads *)

Definition wfPayload (v : walPayload) : Prop :=
  match v with
  | WALSnapshot (Some s) => wfState s
  | WALDelta (Some d) | WALPropertyDelta (Some d) => wfDelta d
  | _ => True
  end.

Lemma multiplySaturated_le a b : multiplySaturated a b <= max_uint64.
Proof.
  unfold multiplySaturated. repeat case_match; try done. apply N.lt_succ_r. change (N.succ max_uint64) with (2 ^ 64). by apply N.mod_lt.
Qed.

Lemma decoded_payload input length maxBytes v : decodeBinaryWALPayload input length maxBytes = inl v ->
  wfPayload v /\ payloadReserved v <= multiplySaturated maxBytes 2.
Proof.
  unfold decodeBinaryWALPayload. pose proof (byte_reads (newBinaryDecoder input length maxBytes) (multiplySaturated_le _ _)) as (_ & Hb & Hm & _).
  destruct (ReadByte _) as [kind d]. cbn [fst snd] in *. unfold spent at 2 in Hb. cbn [d_log allocationLeft newBinaryDecoder nsum foldr] in Hb.
  assert (Hd : allocationLeft d <= max_uint64) by (pose proof (multiplySaturated_le maxBytes 2); lia).
  destruct (d_err d); [done|]. destruct kind; try done.
  - destruct (finish d); [done|]. intros [= <-]. split; [done|apply N.le_0_l].
  - destruct (state_reads d Hd) as (Hw & He & Hs & Hc). destruct (dec_state d) as [s d1]. cbn [fst snd] in *. destruct (finish d1); [done|].
    intros [= <-]. split; [done|]. cbn [payloadReserved]. lia.
  - destruct (delta_reads d Hd) as (Hw & He & Hs & Hc). destruct (dec_delta d) as [s d1]. cbn [fst snd] in *. destruct (finish d1); [done|].
    intros [= <-]. split; [done|]. cbn [payloadReserved]. lia.
  - destruct (delta_reads d Hd) as (Hw & He & Hs & Hc). destruct (dec_delta d) as [s d1]. cbn [fst snd] in *. destruct (finish d1); [done|].
    intros [= <-]. split; [done|]. cbn [payloadReserved]. lia.
Qed.

(** ** Counting a property delta's work fills the caches *)

Lemma changeWork_ok {A} (props : A -> properties) (m : gmap N A) st change st' :
  (forall id x, m !! id = Some x -> storedOK (props x)) -> cached props m st.2 ->
  changeWork (fun id => elems ∘ props <$> m !! id) st change = inl st' -> cached props m st'.2.
Proof.
  intros Hm Hc. destruct st as [work cache]. cbn [snd] in Hc. unfold changeWork. destruct (m !! pc_ID change) as [x|] eqn:Ex; cbn [fmap option_fmap option_map].
  2: { by intros [= <-]. }
  destruct (Hm _ _ Ex) as [[Hs _] Hp]. destruct (cache !! pc_ID change) as [t|] eqn:Et.
  - destruct (foldError _ _ _); [|done]. by intros [= <-].
  - unfold compose. rewrite derivePropertyTotals_exact by done. destruct (foldError _ _ _); [|done]. intros [= <-]. cbn [snd].
    intros k t. destruct (decide (pc_ID change = k)) as [<-|Hne]; [rewrite lookup_insert_eq; intros [= <-]; eauto|].
    rewrite lookup_insert_ne by done. apply Hc.
Qed.

Lemma propertyDeltaWork_ok acc delta work acc' : accOK acc -> propertyDeltaWork acc delta = inl (work, acc') -> accOK acc'.
Proof.
  intros Hok. pose proof (ok_graph acc Hok) as [Hn He Hc Hnt Het Hni Hei]. unfold propertyDeltaWork.
  destruct (foldError _ (persistedDeltaWork delta, _) _) as [[w1 nodes]|] eqn:E1; [|done].
  destruct (foldError _ (w1, _) _) as [[w2 edges]|] eqn:E2; [|done]. intros [= <- <-].
  assert (H1 : cached pn_Properties (acc_nodes acc) (w1, nodes).2).
  { refine (foldError_ind _ (fun st => cached pn_Properties (acc_nodes acc) st.2) _ (_, _) _ _ Hnt E1). intros st x st' _ Hst. apply changeWork_ok; [|done].
    intros id n Hid. by destruct (Hn id n Hid). }
  assert (H2 : cached pe_Properties (acc_edges acc) (w2, edges).2).
  { refine (foldError_ind _ (fun st => cached pe_Properties (acc_edges acc) st.2) _ (_, _) _ _ Het E2). intros st x st' _ Hst. apply changeWork_ok; [|done].
    intros id n Hid. by destruct (He id n Hid). }
  apply accOK_withTotals; [done|]. by split.
Qed.

(** ** Replay *)

Definition accumulated (acc : option walAccumulator) : Prop := match acc with Some acc => accOK acc | None => True end.

Section load.
Context (jsonPayload : list byte -> walPayload + error) (jsonState : list byte -> persistedState + error).
Context (maxCanonicalBytes : N) (base : option (N * persistedState)).
(** [encoding/json] decodes objects into Go maps, which hold a key once. *)
Context (Hpayload : forall data v, jsonPayload data = inl v -> wfPayload v) (Hstate : forall data s, jsonState data = inl s -> wfState s).
Context (Hbase : forall address s, base = Some (address, s) -> wfState s).

Lemma decodeFrame_wf header payload v : decodeFramePayload jsonPayload jsonState maxCanonicalBytes header payload = inl v -> wfPayload v.
Proof.
  unfold decodeFramePayload. destruct (isBinaryWALHeader header).
  - destruct (decodeBinaryWALPayload _ _ _) as [w|] eqn:E; [|by destruct (negb _)]. destruct (negb _); [done|]. intros [= <-]. by eapply decoded_payload.
  - destruct (negb _); [done|]. unfold wrapped. destruct (jsonPayload payload) as [w|] eqn:E; [|done]. apply Hpayload in E.
    destruct w as [|s|d|d|[|k kind]]; try (by intros [= <-]). destruct (jsonState payload) as [s|] eqn:Es; [|done]. intros [= <-]. by apply Hstate in Es.
Qed.

Lemma newAccumulator_wf state acc : wfState state -> newWALAccumulator state = inl acc -> accOK acc.
Proof. intros [Hn He _]. by apply newWALAccumulator_ok. Qed.

Lemma replayPayload_ok acc b db commit v acc' b' : accumulated acc -> wfPayload v ->
  replayPayload base acc b db commit v = inl (acc', b') -> accOK acc'.
Proof.
  intros Hacc Hv. destruct v as [|[s|]|[d|]|[d|]|k]; cbn [replayPayload wfPayload] in *; try done.
  - unfold replayCheckpoint. destruct acc as [acc|]; [done|]. destruct base as [[address s]|] eqn:Eb; [|done]. destruct (negb _); [done|].
    destruct (_ <? _); [done|]. destruct (negb _); [done|]. destruct (replayState _ _ _); [|done]. unfold wrapped.
    destruct (newWALAccumulator s) eqn:E; [|done]. intros [= <- _]. eapply newAccumulator_wf; [by eapply Hbase|done].
  - unfold replaySnapshot. destruct (_ || _); [done|]. destruct (match acc with Some _ => _ | None => _ end); [done|]. destruct (replayWork _ _); [|done].
    unfold wrapped. destruct (newWALAccumulator s) eqn:E; [|done]. intros [= <- _]. by eapply newAccumulator_wf.
  - unfold replayDelta. destruct (_ || _); [done|]. destruct (hasPropertyDelta d); [done|]. destruct acc as [acc|]; [|done]. destruct (regressed _ _ _); [done|].
    destruct (replayWork _ _); [|done]. unfold wrapped. destruct (apply acc d) eqn:E; [|done]. intros [= <- _]. destruct Hv. by eapply apply_ok.
  - unfold replayPropertyDelta. destruct (_ || _); [done|]. destruct (negb _); [done|]. destruct acc as [acc|]; [|done]. destruct (regressed _ _ _); [done|].
    destruct (propertyDeltaWork acc d) as [[work acc1]|] eqn:Ew; [|done]. destruct (replayWork _ _); [|done].
    destruct (applyPropertyDelta acc1 d) eqn:E; [|done]. intros [= <- _]. destruct Hv. eapply (applyPropertyDelta_ok acc1); [by eapply propertyDeltaWork_ok|done..].
Qed.

Lemma finishReplay_ok acc ready state r : accumulated acc -> finishReplay acc ready = inl (state, r) -> exists acc', accOK acc' /\ accPersistedState acc' = inl state.
Proof.
  unfold finishReplay, wrapped. destruct acc as [acc|]; [|done]. intros Hacc. destruct (accPersistedState acc) eqn:E; [|done]. intros [= <- _]. eauto.
Qed.

Lemma replayFrames_ok fuel : forall input acc current b state ready, accumulated acc ->
  replayFrames jsonPayload jsonState maxCanonicalBytes base fuel input acc current b = inl (state, ready) ->
  exists acc', accOK acc' /\ accPersistedState acc' = inl state.
Proof.
  induction fuel as [|fuel IH]; intros input acc current b state ready Hacc; [done|]. cbn [replayFrames].
  destruct (readWALHeader input) as [[header rest]|err]; [|destruct err; try done; by apply finishReplay_ok].
  destruct (negb (validWALHeader header)); [done|]. destruct (_ || _ || _); [done|]. destruct (_ <? _); [by apply finishReplay_ok|].
  destruct (frame b) as [b1|]; [|done]. destruct (decodedBytes _ _) as [b2|]; [|done].
  destruct (decodeFramePayload _ _ _ _ _) as [v|] eqn:Ev; [|done]. apply decodeFrame_wf in Ev.
  destruct (replayPayload _ _ _ _ _ _) as [[acc' b']|] eqn:Er; [|done]. apply IH. cbn. by eapply replayPayload_ok.
Qed.
End load.

(** ** Replay ends *)

Lemma readFull_rest n l got rest : readFull n l = inl (got, rest) -> (length l = n + length rest)%nat.
Proof. unfold readFull. destruct (Nat.leb_spec n (length l)); [|by destruct l]. intros [= <- <-]. rewrite length_drop. lia. Qed.

Lemma readWALHeader_rest l header rest : readWALHeader l = inl (header, rest) -> (walHeaderPrefixSize + length rest <= length l)%nat.
Proof.
  unfold readWALHeader. destruct (readFull walHeaderPrefixSize l) as [[p l1]|] eqn:E1; [|done]. apply readFull_rest in E1.
  destruct (readFull _ l1) as [[q l2]|] eqn:E2; [|done]. apply readFull_rest in E2. intros [= _ <-]. lia.
Qed.

(** The file's length is enough fuel: more changes nothing. *)
Lemma replayFrames_fuel jp js maxBytes base fuel : forall fuel' input acc current b, (length input < fuel)%nat -> (length input < fuel')%nat ->
  replayFrames jp js maxBytes base fuel input acc current b = replayFrames jp js maxBytes base fuel' input acc current b.
Proof.
  induction fuel as [|fuel IH]; intros fuel' input acc current b H1 H2; [lia|]. destruct fuel' as [|fuel']; [lia|]. cbn [replayFrames].
  destruct (readWALHeader input) as [[header rest]|err] eqn:Eh; [|done]. apply readWALHeader_rest in Eh. unfold walHeaderPrefixSize in Eh.
  repeat (case_match; try done). apply IH; rewrite length_drop; lia.
Qed.

Section turns.
Context (jsonPayload : list byte -> walPayload + error) (jsonState : list byte -> persistedState + error).
Context (maxCanonicalBytes : N) (base : option (N * persistedState)).

(** What the loop keeps from one turn to the next, and what it returns. *)
Definition loopState : Type := list byte * option walAccumulator * bool * recoveryBudget.
Definition loopResult : Type := persistedState * bool + error.

(** One turn of the loop, without fuel: on to the next frame, or out. *)
Definition replayTurn (s : loopState) : loopState + loopResult :=
  let '(input, acc, currentFormat, b) := s in
  match readWALHeader input with
  | inr ErrEOF => inr (finishReplay acc currentFormat)
  | inr ErrUnexpectedEOF => inr (finishReplay acc false)
  | inr err => inr (inr (ErrWrap (str "read wal header"%string) err))
  | inl (header, input) =>
      let payloadLength := getBE (field header 20 28) in
      if negb (validWALHeader header) then inr (inr (ErrNew "invalid WAL frame header"%string))
      else if (maxWALFrameBytes <? payloadLength) || (maxCanonicalBytes <? payloadLength) || (2 ^ 63 - 1 <? payloadLength)
      then inr (inr (ErrLoadResourceLimit "WAL frame exceeds size limit"%string))
      else if nlen input <? payloadLength then inr (finishReplay acc false)
      else
        match
          let! b := frame b in
          let! b := decodedBytes b payloadLength in
          let! value := decodeFramePayload jsonPayload jsonState maxCanonicalBytes header (take (N.to_nat payloadLength) input) in
          replayPayload base acc b (field header walDatabaseIDAt legacyWALHeaderSize) (getBE (field header 12 20)) value
        with
        | inl (acc, b) => inl (drop (N.to_nat payloadLength) input, Some acc, currentFormat && validCurrentWALHeader header, b)
        | inr err => inr (inr err)
        end
  end.

(** The loop run to its end: the number of frames it takes, and its result. *)
Inductive loopEnds : nat -> loopState -> loopResult -> Prop :=
  | ends_out s r : replayTurn s = inr r -> loopEnds 0 s r
  | ends_turn n s s' r : replayTurn s = inl s' -> loopEnds n s' r -> loopEnds (S n) s r.

Lemma replayFrames_turn fuel input acc currentFormat b :
  replayFrames jsonPayload jsonState maxCanonicalBytes base (S fuel) input acc currentFormat b =
  match replayTurn (input, acc, currentFormat, b) with
  | inl (input, acc, currentFormat, b) => replayFrames jsonPayload jsonState maxCanonicalBytes base fuel input acc currentFormat b
  | inr r => r
  end.
Proof. cbn [replayFrames replayTurn]. by repeat case_match; simplify_eq. Qed.

Lemma replayTurn_rest s s' : replayTurn s = inl s' -> (walHeaderPrefixSize + length s'.1.1.1 <= length s.1.1.1)%nat.
Proof.
  destruct s as [[[input acc] current] b]. cbn [replayTurn fst]. destruct (readWALHeader input) as [[header rest]|err] eqn:Eh; [|by destruct err]. apply readWALHeader_rest in Eh.
  destruct (negb _); [done|]. destruct (_ || _ || _); [done|]. destruct (_ <? _); [done|]. destruct (let! b := frame b in _) as [[acc' b']|]; [|done].
  intros [= <-]. cbn [fst]. rewrite length_drop. lia.
Qed.

(** Every turn takes a header off the input, so the loop ends, and with the result of the
    definition that has fuel: the fuel never runs out. *)
Lemma loop_ends fuel : forall input acc current b, (length input < fuel)%nat ->
  exists n, (n * walHeaderPrefixSize <= length input)%nat /\ loopEnds n (input, acc, current, b) (replayFrames jsonPayload jsonState maxCanonicalBytes base fuel input acc current b).
Proof.
  induction fuel as [|fuel IH]; intros input acc current b Hf; [lia|]. rewrite replayFrames_turn.
  destruct (replayTurn (input, acc, current, b)) as [s'|r] eqn:E; [|exists 0%nat; split; [lia|by apply ends_out]].
  pose proof (replayTurn_rest _ _ E) as Hl. destruct s' as [[[input' acc'] current'] b']. cbn [fst] in Hl. unfold walHeaderPrefixSize in Hl.
  destruct (IH input' acc' current' b') as (n & Hn & He); [lia|]. exists (S n). split; [unfold walHeaderPrefixSize in *; lia|by eapply ends_turn].
Qed.

Lemma loopEnds_unique n s r : loopEnds n s r -> forall n' r', loopEnds n' s r' -> n' = n /\ r' = r.
Proof.
  induction 1 as [s r E|n s s' r E _ IH]; intros n' r' Hl; inversion Hl as [? ? E'|n2 ? s2 ? E' Hl']; subst; rewrite E in E'; try done.
  - injection E' as <-. done.
  - injection E' as <-. by destruct (IH _ _ Hl') as [-> ->].
Qed.
End turns.
