(* ===== verification/WalApply.v ===== *)
(** * Deltas that recovery accepts

    A delta that fits the accumulator, its lists referring to what is there, is applied
    without error. *)
From S2P Require Import Prelude.
From S2P Require Import GoBytes.
From S2P Require Import BinaryCodec.
From S2P Require Import BinaryCodecSpec.
From S2P Require Import BinaryValue.
From S2P Require Import BinaryRecords.
From S2P Require Import GoMaps.
From S2P Require Import Values.
From S2P Require Import Properties.
From S2P Require Import PageRecords.
From S2P Require Import Streams.
From S2P Require Import StreamPersist.
From S2P Require Import StreamPersistSpec.
From S2P Require Import PropertyDelta.
From S2P Require Import PropertyPatch.
From S2P Require Import WalAccumulator.
From S2P Require Import WalInvariant.
From S2P Require Import WalSteps.
From S2P Require Import DecoderSafety.
From Stdlib Require Strings.String.
Import String.StringSyntax.

(** A loop succeeds when each step does, [I] telling what is left to do. *)
Lemma foldError_total {A B} (f : A -> B -> A + error) (I : list B -> A -> Prop) :
  (forall x l a, I (x :: l) a -> exists a', f a x = inl a' /\ I l a') ->
  forall l a, I l a -> exists a', foldError f a l = inl a' /\ I [] a'.
Proof.
  intros Hstep l. induction l as [|x l IH]; intros a Ha; [by exists a|]. destruct (Hstep x l a Ha) as (a' & E & Ha').
  cbn [foldError]. rewrite E. by apply IH.
Qed.

Lemma existsb_false {A} (f : A -> bool) l : (forall x, x ∈ l -> f x = false) -> existsb f l = false.
Proof.
  intros H. induction l as [|x l IH]; [done|]. cbn [existsb]. rewrite H by left. cbn [orb]. apply IH. intros y Hy. apply H. by right.
Qed.

Lemma degree_none edges id : (forall k e, edges !! k = Some e -> pe_SourceID e <> id /\ pe_TargetID e <> id) -> degree edges id = 0.
Proof.
  intros H. assert (E : forall f : persistedEdge -> N, (forall k e, edges !! k = Some e -> f e <> id) -> ends f edges id = 0).
  { intros f Hf. unfold ends. rewrite (proj2 (map_empty_filter _ _)); [done|]. intros k e Hk. by apply (Hf k). }
  unfold degree. rewrite !E; [done|intros k e Hk; by apply (H k e)..].
Qed.

(** ** The entities *)

Record entitiesFit (acc : walAccumulator) (delta : persistedDelta) : Prop := mkEntitiesFit {
  ef_nodeIDs : NoDup (elems (dl_DeleteNodes delta));
  ef_edgeIDs : NoDup (elems (dl_DeleteEdges delta));
  ef_ftsIDs : NoDup (elems (dl_DeleteFTS delta));
  ef_upsertNodes : Forall (fun n => nodeOK (pn_ID n) n) (elems (dl_UpsertNodes delta));
  ef_upsertEdges : Forall (fun e => ValidateEntityID (pe_ID e) = None /\ ValidateEdgeType (pe_Type e) = None /\ storedOK (pe_Properties e))
    (elems (dl_UpsertEdges delta));
  ef_deleteEdges : Forall (fun id => is_Some (acc_edges acc !! id)) (elems (dl_DeleteEdges delta));
  ef_ends : Forall (fun e => is_Some (upsertAll pn_ID (acc_nodes acc) (elems (dl_UpsertNodes delta)) !! pe_SourceID e) /\
                             is_Some (upsertAll pn_ID (acc_nodes acc) (elems (dl_UpsertNodes delta)) !! pe_TargetID e)) (elems (dl_UpsertEdges delta));
  ef_deleteNodes : Forall (fun id => is_Some (acc_nodes acc !! id)) (elems (dl_DeleteNodes delta));
  ef_free : forall id k e, id ∈ elems (dl_DeleteNodes delta) -> deltaEdges acc delta !! k = Some e -> pe_SourceID e <> id /\ pe_TargetID e <> id;
  ef_deleteFTS : Forall (fun id => is_Some (acc_fts acc !! id)) (elems (dl_DeleteFTS delta));
  ef_upsertFTS : Forall (fun r => is_Some (deltaNodes acc delta !! pf_NodeID r) /\ ValidateFTSText (pf_Text r) = None) (elems (dl_UpsertFTS delta));
  ef_noText : forall id, id ∈ elems (dl_DeleteNodes delta) -> deltaFTS acc delta !! id = None }.

Abbreviation anyID := (fun _ : N => True).
Abbreviation sound := (graphOK anyID anyID).

Lemma deleteEdges_total l acc : sound acc -> NoDup l -> Forall (fun id => is_Some (acc_edges acc !! id)) l ->
  exists acc', foldError deleteEdge acc l = inl acc' /\ sound acc'.
Proof.
  intros Hg Hnd Hl.
  destruct (foldError_total deleteEdge (fun l a => sound a /\ NoDup l /\ Forall (fun id => is_Some (acc_edges a !! id)) l)) with (l := l) (a := acc)
    as (acc' & E & Hok & _); [|done|by exists acc'].
  intros id rest a (Ha & Hn & Hf). apply NoDup_cons in Hn as [Hn Hnd']. apply Forall_cons in Hf as [[e He] Hf].
  destruct (deleteEdge a id) as [a'|] eqn:Ed; [|unfold deleteEdge in Ed; by rewrite He in Ed]. exists a'. split; [done|].
  split; [by eapply deleteEdge_ok|]. split; [done|]. unfold deleteEdge in Ed. rewrite He in Ed. injection Ed as <-. cbn [acc_edges].
  eapply Forall_impl; [apply Forall_forall; intros k Hk; exact (conj Hk (proj1 (Forall_forall _ _) Hf k Hk))|].
  intros k [Hk Hs]. cbn in *. rewrite lookup_delete_ne; [done|]. intros ->. done.
Qed.

Lemma upsertEdges_total l acc : sound acc ->
  Forall (fun e => ValidateEntityID (pe_ID e) = None /\ ValidateEdgeType (pe_Type e) = None /\ storedOK (pe_Properties e)) l ->
  Forall (fun e => is_Some (acc_nodes acc !! pe_SourceID e) /\ is_Some (acc_nodes acc !! pe_TargetID e)) l ->
  exists acc', foldError upsertEdge acc l = inl acc' /\ sound acc'.
Proof.
  intros Hg Hok Hl.
  destruct (foldError_total upsertEdge (fun l a => sound a /\
      Forall (fun e => ValidateEntityID (pe_ID e) = None /\ ValidateEdgeType (pe_Type e) = None /\ storedOK (pe_Properties e)) l /\
      Forall (fun e => is_Some (acc_nodes a !! pe_SourceID e) /\ is_Some (acc_nodes a !! pe_TargetID e)) l)) with (l := l) (a := acc)
    as (acc' & E & Hs & _); [|done|by exists acc'].
  intros e rest a (Ha & Hv & Hn). apply Forall_cons in Hv as [(? & ? & ?) Hv]. apply Forall_cons in Hn as [[Hsrc Htgt] Hn].
  assert (Hid : forall id, is_Some (acc_nodes a !! id) -> (nodeIDOf a id =? 0) = false).
  { intros id Hid. rewrite (nodeIDOf_at anyID anyID a id Ha Hid). apply N.eqb_neq. destruct Hid as [n Hid].
    destruct (gk_nodes _ _ _ Ha id n Hid) as [_ Hvalid _ _]. apply validID_range in Hvalid. lia. }
  destruct (upsertEdge a e) as [a'|] eqn:Eu; [|unfold upsertEdge in Eu; by rewrite !Hid in Eu].
  exists a'. split; [done|]. split; [by eapply upsertEdge_ok|]. split; [done|].
  replace (acc_nodes a') with (acc_nodes a); [done|]. symmetry. revert Eu. unfold upsertEdge. step_map.
Qed.

Lemma deleteNodes_total l acc : sound acc -> NoDup l -> Forall (fun id => is_Some (acc_nodes acc !! id)) l ->
  (forall id k e, id ∈ l -> acc_edges acc !! k = Some e -> pe_SourceID e <> id /\ pe_TargetID e <> id) ->
  exists acc', foldError deleteNode acc l = inl acc' /\ sound acc'.
Proof.
  intros Hg Hnd Hl Hfree.
  destruct (foldError_total deleteNode (fun l a => sound a /\ NoDup l /\ Forall (fun id => is_Some (acc_nodes a !! id)) l /\
      (forall id k e, id ∈ l -> acc_edges a !! k = Some e -> pe_SourceID e <> id /\ pe_TargetID e <> id))) with (l := l) (a := acc)
    as (acc' & E & Hs & _); [|done|by exists acc'].
  intros id rest a (Ha & Hn & Hf & Hfr). apply NoDup_cons in Hn as [Hn Hnd']. apply Forall_cons in Hf as [Hid Hf].
  assert (Hd : (default 0 (acc_incident a !! id) =? 0) = true).
  { apply N.eqb_eq. rewrite (gk_counts _ _ _ Ha id). apply degree_none. intros k e. apply Hfr. left. }
  destruct (deleteNode a id) as [a'|] eqn:Ed; [|unfold deleteNode in Ed; by rewrite bool_decide_true, Hd in Ed].
  exists a'. split; [done|]. split; [by eapply deleteNode_ok|]. split; [done|]. unfold deleteNode in Ed. rewrite bool_decide_true, Hd in Ed by done.
  injection Ed as <-. cbn [acc_nodes acc_edges]. split; [|intros k e e' Hk; apply Hfr; by right].
  rewrite Forall_forall in Hf |- *. intros k Hk. rewrite lookup_delete_ne; [by apply Hf|]. intros ->. done.
Qed.

Lemma deleteFTS_total l acc : NoDup l -> Forall (fun id => is_Some (acc_fts acc !! id)) l -> exists acc', foldError deleteFTS acc l = inl acc'.
Proof.
  intros Hnd Hl.
  destruct (foldError_total deleteFTS (fun l a => NoDup l /\ Forall (fun id => is_Some (acc_fts a !! id)) l)) with (l := l) (a := acc)
    as (acc' & E & _); [|done|by exists acc'].
  intros id rest a (Hn & Hf). apply NoDup_cons in Hn as [Hn Hnd']. apply Forall_cons in Hf as [Hid Hf]. unfold deleteFTS. rewrite bool_decide_true by done.
  eexists. split; [done|]. split; [done|]. cbn [setFTS acc_fts]. rewrite Forall_forall in Hf |- *. intros k Hk. rewrite lookup_delete_ne; [by apply Hf|]. intros ->. done.
Qed.

Lemma upsertFTS_total l acc : Forall (fun r => is_Some (acc_nodes acc !! pf_NodeID r) /\ ValidateFTSText (pf_Text r) = None) l ->
  exists acc', foldError upsertFTS acc l = inl acc'.
Proof.
  intros Hl.
  destruct (foldError_total upsertFTS (fun l a => Forall (fun r => is_Some (acc_nodes a !! pf_NodeID r) /\ ValidateFTSText (pf_Text r) = None) l)) with (l := l) (a := acc)
    as (acc' & E & _); [|done|by exists acc'].
  intros r rest a Hf. apply Forall_cons in Hf as [[Hid Htext] Hf]. unfold upsertFTS. rewrite bool_decide_true, Htext by done. cbn. eexists. by split.
Qed.

Lemma upsertNodes_at l : forall acc, acc_nodes (foldl upsertNode acc l) = upsertAll pn_ID (acc_nodes acc) l /\
  acc_edges (foldl upsertNode acc l) = acc_edges acc /\ acc_fts (foldl upsertNode acc l) = acc_fts acc.
Proof. induction l as [|n l IH]; intros acc; [done|]. cbn [foldl]. destruct (IH (upsertNode acc n)) as (-> & -> & ->). done. Qed.

Lemma upsertNodes_sound l : forall acc, sound acc -> Forall (fun n => nodeOK (pn_ID n) n) l -> sound (foldl upsertNode acc l).
Proof. induction l as [|n l IH]; intros acc Hg Hl; [done|]. apply Forall_cons in Hl as [Hn Hl]. apply IH; [by apply upsertNode_ok|done]. Qed.

Lemma applyEntities_total acc delta : sound acc -> entitiesFit acc delta -> exists acc', applyEntities acc delta = inl acc'.
Proof.
  intros Hg [Hnd1 Hnd2 Hnd3 Hun Hue Hde Hends Hdn Hfree Hdf Huf Hno]. unfold applyEntities.
  destruct (deleteEdges_total (elems (dl_DeleteEdges delta)) acc Hg Hnd2 Hde) as (a1 & E1 & H1). rewrite E1.
  pose proof (foldError_same deleteEdge acc_nodes _ _ _ ltac:(unfold deleteEdge; intros ???; step_map) E1) as N1.
  pose proof (foldError_same deleteEdge acc_fts _ _ _ ltac:(unfold deleteEdge; intros ???; step_map) E1) as F1.
  pose proof (foldError_proj deleteEdge acc_edges (fun m id => delete id m) _ _ _ ltac:(unfold deleteEdge; intros ???; step_map) E1) as G1.
  set (a2 := foldl upsertNode a1 (elems (dl_UpsertNodes delta))). destruct (upsertNodes_at (elems (dl_UpsertNodes delta)) a1) as (N2 & G2 & F2). fold a2 in N2, G2, F2.
  assert (H2 : sound a2) by (by apply upsertNodes_sound). rewrite N1 in N2.
  destruct (upsertEdges_total (elems (dl_UpsertEdges delta)) a2 H2 Hue) as (a3 & E3 & H3); [by rewrite N2|]. rewrite E3.
  pose proof (foldError_same upsertEdge acc_nodes _ _ _ ltac:(unfold upsertEdge; intros ???; step_map) E3) as N3.
  pose proof (foldError_same upsertEdge acc_fts _ _ _ ltac:(unfold upsertEdge; intros ???; step_map) E3) as F3.
  pose proof (foldError_proj upsertEdge acc_edges (fun m e => <[pe_ID e := e]> m) _ _ _ ltac:(unfold upsertEdge; intros ???; step_map) E3) as G3.
  assert (G : acc_edges a3 = deltaEdges acc delta) by (by rewrite G3, G2, G1).
  destruct (deleteNodes_total (elems (dl_DeleteNodes delta)) a3 H3 Hnd1) as (a4 & E4 & H4).
  { rewrite N3, N2. rewrite Forall_forall in Hdn |- *. intros id Hid. by apply upsertAll_keeps, Hdn. }
  { rewrite G. exact Hfree. }
  rewrite E4. pose proof (foldError_proj deleteNode acc_nodes (fun m id => delete id m) _ _ _ ltac:(unfold deleteNode; intros ???; step_map) E4) as N4.
  pose proof (foldError_same deleteNode acc_fts _ _ _ ltac:(unfold deleteNode; intros ???; step_map) E4) as F4.
  destruct (deleteFTS_total (elems (dl_DeleteFTS delta)) a4 Hnd3) as (a5 & E5); [by rewrite F4, F3, F2, F1|]. rewrite E5.
  pose proof (foldError_same deleteFTS acc_nodes _ _ _ ltac:(unfold deleteFTS; intros ???; step_map) E5) as N5.
  pose proof (foldError_proj deleteFTS acc_fts (fun m id => delete id m) _ _ _ ltac:(unfold deleteFTS; intros ???; step_map) E5) as F5.
  destruct (upsertFTS_total (elems (dl_UpsertFTS delta)) a5) as (a6 & E6); [by rewrite N5, N4, N3, N2|]. rewrite E6.
  pose proof (foldError_proj upsertFTS acc_fts (fun m r => <[pf_NodeID r := r]> m) _ _ _ ltac:(unfold upsertFTS; intros ???; step_map) E6) as F6.
  assert (F : acc_fts a6 = deltaFTS acc delta) by (by rewrite F6, F5, F4, F3, F2, F1).
  rewrite existsb_false; [by eexists|]. intros id Hid. rewrite F. apply bool_decide_eq_false. intros [r Hr]. rewrite Hno in Hr; done.
Qed.

(** ** The whole delta *)

Record deltaFits (acc : walAccumulator) (delta : persistedDelta) : Prop := mkDeltaFits {
  df_next : ValidateIDHighWater (dl_NextNodeID delta) = None /\ ValidateIDHighWater (dl_NextEdgeID delta) = None;
  df_grow : st_NextNodeID (acc_state acc) <= dl_NextNodeID delta /\ st_NextEdgeID (acc_state acc) <= dl_NextEdgeID delta;
  df_nodes : validateUniqueDeltaIDs (elems (dl_DeleteNodes delta)) (map pn_ID (elems (dl_UpsertNodes delta))) = None;
  df_edges : validateUniqueDeltaIDs (elems (dl_DeleteEdges delta)) (map pe_ID (elems (dl_UpsertEdges delta))) = None;
  df_fts : validateUniqueDeltaIDs (elems (dl_DeleteFTS delta)) (map pf_NodeID (elems (dl_UpsertFTS delta))) = None;
  df_endpoints : Forall (fun e => ValidateEntityID (pe_SourceID e) = None /\ ValidateEntityID (pe_TargetID e) = None) (elems (dl_UpsertEdges delta));
  df_mixed : dl_Streams delta = None \/ slen (dl_StreamOperations delta) = 0;
  df_metadata : Forall metadataChangeOK (elems (dl_AppMetadata delta)) /\ NoDup (map (fun c => elems (pmc_Key c)) (elems (dl_AppMetadata delta)));
  df_streams : exists s, applyStreams acc delta = inl s;
  df_nodeIndexes : exists l, applyPropertyIndexDelta (st_NodeIndexes (acc_state acc)) (dl_CreateNodeIndexes delta) (dl_DropNodeIndexes delta) = inl l;
  df_edgeIndexes : exists l, applyPropertyIndexDelta (st_EdgeIndexes (acc_state acc)) (dl_CreateEdgeIndexes delta) (dl_DropEdgeIndexes delta) = inl l;
  df_upsertNodes : Forall (fun n => validateUpsertNode n = None /\ pn_ID n < dl_NextNodeID delta) (elems (dl_UpsertNodes delta));
  df_upsertEdges : Forall (fun e => validateUpsertEdge e = None /\ pe_ID e < dl_NextEdgeID delta) (elems (dl_UpsertEdges delta));
  df_entities : entitiesFit acc delta }.

Lemma validateDelta_total acc delta : deltaFits acc delta -> validateDelta acc delta = inl tt.
Proof.
  intros [[H1 H2] [H3 H4] H5 H6 H7 H8 H9 [H10 H11] _ _ _ _ _ _]. unfold validateDelta. rewrite H1, H2, !(proj2 (N.ltb_ge _ _)) by done. cbn [orb].
  rewrite H5, H6, H7. unfold wrapErr. cbn [option_map].
  rewrite firstError_none.
  2: { eapply Forall_impl; [exact H8|]. intros e [Hs Ht]. unfold validateEndpoints. by rewrite Hs, Ht. }
  assert (E : bool_decide (is_Some (dl_Streams delta)) && negb (slen (dl_StreamOperations delta) =? 0) = false).
  { destruct H9 as [->| ->]; [done|]. by rewrite andb_false_r. }
  rewrite E. destruct (proj2 (seen_none seeMetadata _ _ (elems (dl_AppMetadata delta)) seeMetadata_spec) (conj H10 H11)) as [seen ->]. done.
Qed.

Lemma apply_total acc delta : accOK acc -> deltaFits acc delta -> exists acc', apply acc delta = inl acc'.
Proof.
  intros Hok Hfit. unfold apply. rewrite validateDelta_total by done. destruct Hfit as [_ _ _ _ _ _ _ _ [s ->] [ni ->] [ei ->] Hun Hue Hent].
  unfold wrapped. cbn. rewrite !firstError_none by (eapply Forall_impl; [eassumption|]; by intros ? []).
  destruct (applyEntities_total acc delta) as [acc' ->]; [|done|].
  - eapply graphOK_ids; [apply (ok_graph _ Hok)|done|done].
  - rewrite !existsb_false; [by eexists|..].
    + intros e He. apply N.leb_gt. rewrite Forall_forall in Hue. by apply Hue.
    + intros n Hn. apply N.leb_gt. rewrite Forall_forall in Hun. by apply Hun.
Qed.

(** ** Property patches *)

Record changeFits {A} (props : A -> properties) (m : gmap N A) (deleted full : list N) (c : persistedPropertyChange) : Prop := mkChangeFits {
  cf_valid : ValidateEntityID (pc_ID c) = None;
  cf_entity : exists x, m !! pc_ID c = Some x /\ limitsOK (patchProperties (elems (props x)) c) = true;
  cf_kept : pc_ID c ∉ deleted;
  cf_patch : pc_ID c ∉ full;
  cf_keys : Forall (fun k => utf8Valid k = true) ((elems (pc_Set c)).*1 ++ elems (pc_Remove c)) /\ NoDup ((elems (pc_Set c)).*1 ++ elems (pc_Remove c));
  cf_wf : wfStored (elems (pc_Set c));
  cf_set : propsOKP (elems (pc_Set c)) = true }.

Lemma validateKeys_none keys : forall seen, Forall (fun k => utf8Valid k = true) keys -> NoDup keys -> Forall (fun k => k ∉ seen) keys -> validateKeys keys seen = None.
Proof.
  induction keys as [|k keys IH]; intros seen Hu Hnd Hs; [done|]. apply Forall_cons in Hu as [Hk Hu]. apply NoDup_cons in Hnd as [Hn Hnd].
  apply Forall_cons in Hs as [Hks Hs]. cbn [validateKeys]. unfold ValidatePropertyKey. rewrite Hk, bool_decide_false by done. cbn [negb].
  apply IH; [done..|]. rewrite Forall_forall in Hs |- *. intros x Hx [->%elem_of_singleton|Hin]%elem_of_union; [done|by apply (Hs x)].
Qed.

Section patches.
Context {A : Type} (props : A -> properties) (m : gmap N A) (read : N -> storedMap) (deleted full : list N).
Context (Hread : forall id x, m !! id = Some x -> read id = elems (props x)).
Context (Hm : forall id x, m !! id = Some x -> storedOK (props x)).

Lemma validateChanges_none changes : forall seen, Forall (changeFits props m deleted full) changes -> NoDup (map pc_ID changes) ->
  Forall (fun c => pc_ID c ∉ seen) changes -> validateChangesFrom changes (fun id => bool_decide (is_Some (m !! id))) seen = None.
Proof.
  clear Hread Hm. induction changes as [|c changes IH]; intros seen Hl Hnd Hs; [done|]. apply Forall_cons in Hl as [Hc Hl]. cbn [map] in Hnd.
  apply NoDup_cons in Hnd as [Hn Hnd]. apply Forall_cons in Hs as [Hcs Hs]. destruct Hc as [Hv (x & Hx & _) _ _ [Hu Hk] _ _]. cbn [validateChangesFrom].
  rewrite Hv, bool_decide_false by done. rewrite Hx, bool_decide_true by by eexists. cbn [negb].
  rewrite validateKeys_none; [|done|done|apply Forall_forall; intros k _; apply not_elem_of_empty].
  apply IH; [done..|]. rewrite Forall_forall in Hs |- *. intros c' Hc' [E%elem_of_singleton|Hin]%elem_of_union; [|by apply (Hs c')].
  apply Hn. rewrite <- E. by apply list_elem_of_fmap_2.
Qed.

Lemma prepareChanges_total context identifier changes : forall cache, Forall (changeFits props m deleted full) changes -> cached props m cache ->
  exists r, prepareChanges context deleted full identifier read cache changes = inl r.
Proof.
  induction changes as [|c changes IH]; intros cache Hl Hc; [by eexists|]. apply Forall_cons in Hl as [Hfit Hl]. cbn [prepareChanges].
  destruct (prepareChange context deleted full read cache c) as [[p cache1]|err] eqn:E.
  - destruct Hfit as [_ (x & Hx & _) _ _ _ Hw _].
    destruct (prepareChange_ok _ _ _ props m read Hread Hm _ _ _ _ ltac:(by eexists) Hw Hc E) as [_ Hc1]. destruct (IH cache1 Hl Hc1) as [[ps cache2] ->]. by eexists.
  - exfalso. destruct Hfit as [_ (x & Hx & Hlim) Hd Hf _ Hw Hset]. unfold prepareChange in E. rewrite !bool_decide_false in E by done.
    destruct (Hm _ _ Hx) as [[Hs Hwf] Hp]. pose proof (Hread _ _ Hx) as Er.
    destruct (cachePropertyTotals read cache (pc_ID c)) as [[totals cache1]|] eqn:Ec.
    + destruct (cachePropertyTotals_ok props m read Hread Hm _ _ _ _ ltac:(by eexists) Hc Ec) as [-> _]. rewrite Er in E.
      pose proof (adjust_exact _ c Hs Hp Hw) as Ha. rewrite Hset, Hlim in Ha. cbn [andb] in Ha. destruct Ha as [Ha _]. by rewrite Ha in E.
    + unfold cachePropertyTotals in Ec. destruct (cache !! pc_ID c); [done|]. by rewrite Er, derivePropertyTotals_exact in Ec.
Qed.
End patches.

Abbreviation nodeFits acc delta :=
  (changeFits pn_Properties (acc_nodes acc) (elems (dl_DeleteNodes delta)) (map pn_ID (elems (dl_UpsertNodes delta)))).
Abbreviation edgeFits acc delta :=
  (changeFits pe_Properties (acc_edges acc) (elems (dl_DeleteEdges delta)) (map pe_ID (elems (dl_UpsertEdges delta)))).

Record patchesFit (acc : walAccumulator) (delta : persistedDelta) : Prop := mkPatchesFit {
  pf_nodes : Forall (nodeFits acc delta) (elems (dl_NodePropertyChanges delta));
  pf_edges : Forall (edgeFits acc delta) (elems (dl_EdgePropertyChanges delta));
  pf_nodeIDs : NoDup (map pc_ID (elems (dl_NodePropertyChanges delta)));
  pf_edgeIDs : NoDup (map pc_ID (elems (dl_EdgePropertyChanges delta))) }.

Lemma preparePropertyDelta_total acc delta : sound acc -> patchesFit acc delta -> exists r, preparePropertyDelta acc delta = inl r.
Proof.
  intros Hg [Hn He Hnd Hed]. unfold preparePropertyDelta, validatePropertyChanges.
  rewrite !(validateChanges_none _ _ _ _ _ ∅) by (eassumption || (apply Forall_forall; intros ? _; apply not_elem_of_empty)). unfold wrapErr. cbn [option_map].
  destruct (prepareChanges_total pn_Properties (acc_nodes acc) (nodeProperties acc) _ _ (nodeProperties_at acc) ltac:(by intros id n []%(gk_nodes _ _ _ Hg)) (str "node properties"%string)
    (nodeIDOf acc) _ _ Hn (gk_nodeTotals _ _ _ Hg)) as [[ns nt] ->].
  destruct (prepareChanges_total pe_Properties (acc_edges acc) (edgeProperties acc) _ _ (edgeProperties_at acc) ltac:(by intros id n []%(gk_edges _ _ _ Hg)) (str "edge properties"%string)
    (edgeIDOf acc) _ _ He (gk_edgeTotals _ _ _ Hg)) as [[es et] ->]. by eexists.
Qed.

(** The totals play no part in whether a delta fits. *)
Lemma deltaFits_clear acc nt et delta : deltaFits acc delta -> deltaFits (withTotals acc nt et) (clearPropertyChanges delta).
Proof. intros []. split; try done. by destruct df_entities0. Qed.

Lemma applyPropertyDelta_total acc delta : accOK acc -> deltaFits acc delta -> patchesFit acc delta ->
  exists acc', applyPropertyDelta acc delta = inl acc'.
Proof.
  intros Hok Hfit Hp. unfold applyPropertyDelta.
  destruct (preparePropertyDelta_total acc delta) as [[prepared a1] E]; [eapply graphOK_ids; [apply (ok_graph _ Hok)|done|done]|done|].
  rewrite E. cbn [wrapped]. assert (Hwc : wfChanges (dl_NodePropertyChanges delta) /\ wfChanges (dl_EdgePropertyChanges delta)).
  { destruct Hp as [Hn He _ _]. split; (eapply Forall_impl; [eassumption|]; by intros c []). }
  destruct (preparePropertyDelta_ok _ _ _ _ _ _ (ok_graph _ Hok) (proj1 Hwc) (proj2 Hwc) E) as (nt & et & ns & es & -> & Hg & _).
  destruct (apply_total (withTotals acc nt et) (clearPropertyChanges delta)) as [acc' ->]; [by apply accOK_withTotals|by apply deltaFits_clear|].
  by eexists.
Qed.

(** ** The work of property patches *)

Lemma structureWork_total m kv : propsOKP m = true -> kv ∈ m -> exists amount, persistedValueStructureWork kv.2 0 = inl amount.
Proof.
  intros (_ & Ho & He & Hb)%propsOKP_split Hin. pose proof limits_uint64 as [HE HB]. rewrite Forall_forall in Ho. rewrite structureWork_derived.
  apply list_elem_of_split in Hin as (l1 & l2 & ->). unfold sumMap in He, Hb. rewrite map_app, nsum_app in He. rewrite map_app, nsum_app in Hb.
  change (nsum (map elementsE (kv :: l2))) with (elementsE kv + nsum (map elementsE l2)) in He. change (nsum (map bytesE (kv :: l2))) with (bytesE kv + nsum (map bytesE l2)) in Hb.
  unfold elementsE at 2 in He. unfold bytesE at 2 in Hb.
  rewrite derivePropertyValueTotals_exact; [by eexists|by apply Ho, elem_of_app; right; left|lia|lia].
Qed.

Lemma changesWork_total {A} (props : A -> properties) (m : gmap N A) deleted full changes st :
  (forall id x, m !! id = Some x -> storedOK (props x)) -> cached props m st.2 -> Forall (changeFits props m deleted full) changes ->
  exists st', foldError (changeWork (fun id => elems ∘ props <$> m !! id)) st changes = inl st'.
Proof.
  intros Hm Hc Hl.
  destruct (foldError_total (changeWork (fun id => elems ∘ props <$> m !! id)) (fun l st => cached props m st.2 /\ Forall (changeFits props m deleted full) l))
    with (l := changes) (a := st) as (st' & E & _); [|done|by exists st'].
  intros c rest a [Ha Hf]. apply Forall_cons in Hf as [Hfit Hf]. destruct (changeWork _ a c) as [a'|] eqn:E.
  - exists a'. split; [done|]. split; [by eapply changeWork_ok|done].
  - exfalso. destruct a as [work cache]. destruct Hfit as [_ (x & Hx & _) _ _ _ _ Hset]. destruct (Hm _ _ Hx) as [[Hs _] Hp]. revert E. unfold changeWork. rewrite Hx.
    cbn [fmap option_fmap option_map]. assert (Hset' : forall w, exists w', foldError (fun work kv => let! amount := persistedValueStructureWork kv.2 0 in inl (addSaturated work amount)) w
        (elems (pc_Set c)) = inl w').
    { intros w. destruct (foldError_total (fun work (kv : gostring * persistedValue) => let! amount := persistedValueStructureWork kv.2 0 in inl (addSaturated work amount))
        (fun l _ => forall kv, kv ∈ l -> kv ∈ elems (pc_Set c))) with (l := elems (pc_Set c)) (a := w) as (w' & E & _); [|done|by exists w'].
      intros kv l a Hin. destruct (structureWork_total _ kv Hset) as [amount ->]; [by apply Hin; left|]. eexists. split; [done|]. intros kv' Hkv'. apply Hin. by right. }
    destruct (cache !! pc_ID c).
    + destruct (Hset' (addSaturated (addSaturated (addSaturated work 1) (nlen ((elems ∘ props) x))) (slen (pc_Set c)))) as [w' ->]. done.
    + unfold compose. rewrite derivePropertyTotals_exact by done.
      destruct (Hset' (addSaturated (addSaturated (addSaturated (addSaturated work 1) (sumMap elementsE (elems (props x)))) (nlen (elems (props x)))) (slen (pc_Set c)))) as [w' ->]. done.
Qed.

Lemma propertyDeltaWork_total acc delta : accOK acc -> patchesFit acc delta ->
  exists work nt et, propertyDeltaWork acc delta = inl (work, withTotals acc nt et).
Proof.
  intros Hok [Hn He _ _]. pose proof (ok_graph acc Hok) as [Gn Ge _ Hnt Het _ _]. unfold propertyDeltaWork.
  destruct (changesWork_total pn_Properties (acc_nodes acc) _ _ _ (persistedDeltaWork delta, nodePropertyTotals acc) ltac:(by intros id n []%Gn) Hnt Hn) as [[w nt] ->].
  destruct (changesWork_total pe_Properties (acc_edges acc) _ _ _ (w, edgePropertyTotals acc) ltac:(by intros id n []%Ge) Het He) as [[w2 et] ->].
  by do 3 eexists.
Qed.
