(* ===== verification/GraphPersist.v ===== *)
(** * The graph as it is persisted (internal/store/recovery.go, store.go)

    A snapshot of the whole graph, and the delta of one commit: the records the engine
    names as changed are read from the committed graph, checked and encoded; entities
    whose changed property keys are known are logged as patches.

    The graph's paged maps are the finite maps they stand for, its property indexes the
    set of their definitions. What is derived from the records (adjacency, postings,
    tokens, vector indexes, index contents) is not persisted and not modelled here. *)
From S2P Require Import Prelude.
From S2P Require Import GoBytes.
From S2P Require Import BinaryCodec.
From S2P Require Import BinaryValue.
From S2P Require Import BinaryRecords.
From S2P Require Import GoMaps.
From S2P Require Import Values.
From S2P Require Import Properties.
From S2P Require Import PageRecords.
From S2P Require Import Streams.
From S2P Require Import StreamPersist.
From S2P Require Import PropertyDelta.
From S2P Require Import WalAccumulator.
From S2P Require Import WalFrames.
From Stdlib Require Strings.String.
Import String.StringSyntax.

Abbreviation indexName := (gostring * gostring)%type.

Record graphState := mkGraph {
  g_DatabaseID : gostring;
  g_VectorDimensions : N;
  g_AppMetadata : gmap gostring (slice byte);
  g_Nodes : gmap N NodeRecord;
  g_Edges : gmap N EdgeRecord;
  g_FTS : gmap N gostring;
  g_NodeIndexes : gset indexName;
  g_EdgeIndexes : gset indexName;
  g_Streams : StreamStore }.

Record AppMetadataChange := mkMetaChange { mc_Key : slice byte; mc_Value : slice byte; mc_Delete : bool }.

Record GraphDelta := mkGraphDelta {
  gd_UpsertNodes : slice N; gd_DeleteNodes : slice N;
  gd_UpsertEdges : slice N; gd_DeleteEdges : slice N;
  gd_UpsertFTS : slice N; gd_DeleteFTS : slice N;
  gd_AppMetadata : list AppMetadataChange;
  gd_StreamsChanged : bool;
  gd_StreamOperations : list StreamOperation;
  gd_CreateNodeIndexes : list indexName; gd_DropNodeIndexes : list indexName;
  gd_CreateEdgeIndexes : list indexName; gd_DropEdgeIndexes : list indexName;
  gd_NodePropertyKeys : gmap N (list gostring); gd_EdgePropertyKeys : gmap N (list gostring) }.

(** ** Helpers *)

Definition CloneStrings (labels : slice gostring) : slice gostring := match elems labels with [] => None | l => Some l end.
Definition sortedIDs (ids : slice N) : list N := merge_sort N.le (elems ids).
(** [slices.Sort(slices.Clone(ids))], nil for nil. *)
Definition sortedClone (ids : slice N) : slice N := merge_sort N.le <$> ids.

Definition hasPropertyKeys (keys : gmap N (list gostring)) : bool := existsb (fun kv => match kv.2 with [] => false | _ => true end) (map_to_list keys).

Definition toDefinition (name : indexName) : persistedPropertyIndexDefinition := mkPIndex name.1 name.2.
Definition persistedPropertyIndexDefinitions (definitions : list indexName) : slice persistedPropertyIndexDefinition :=
  Some (merge_sort indexLe (map toDefinition definitions)).
(** The definitions in the order the Go map yields them, sorted. *)
Definition persistedPropertyIndexes (indexes : gset indexName) : slice persistedPropertyIndexDefinition :=
  Some (merge_sort indexLe (map toDefinition (elements indexes))).

Section build.
(** A fresh identifier from crypto/rand, or its error. *)
Context (generateID : gostring + error).

Definition withDatabaseID (g : graphState) (id : gostring) : graphState :=
  mkGraph id (g_VectorDimensions g) (g_AppMetadata g) (g_Nodes g) (g_Edges g) (g_FTS g) (g_NodeIndexes g) (g_EdgeIndexes g) (g_Streams g).

Definition ensureDatabaseID (g : graphState) : graphState + error :=
  if negb (bool_decide (g_DatabaseID g = [])) then check! validateDatabaseID (g_DatabaseID g); inl g
  else let! id := wrapped "generate database ID" generateID in inl (withDatabaseID g id).

(** ** Metadata *)

Definition validMetadataKey (key : gostring) : bool := (0 <? nlen key) && (nlen key <=? maxAppMetadataKeyBytes).

Definition buildPersistedAppMetadata (metadata : gmap gostring (slice byte)) : slice persistedAppMetadata + error :=
  reject! existsb (fun kv => negb (validMetadataKey kv.1)) (map_to_list metadata) with "invalid application metadata key length";
  inl (Some (map (fun key => mkPMeta (Some key) (default None (metadata !! key))) (sortedNames metadata))).

(** One change of a delta, its key new. *)
Definition buildMetadataChange (st : gset gostring * list persistedAppMetadataChange) (change : AppMetadataChange) :
    gset gostring * list persistedAppMetadataChange + error :=
  let '(seen, out) := st in
  let key := elems (mc_Key change) in
  reject! negb (validMetadataKey key) with "invalid application metadata key length";
  reject! bool_decide (key ∈ seen) with "duplicate application metadata change";
  inl ({[key]} ∪ seen, out ++ [mkPMetaChange (mc_Key change) (mc_Value change) (mc_Delete change)]).

Definition metaChangeLe (a b : persistedAppMetadataChange) : Prop := strLeR (elems (pmc_Key a)) (elems (pmc_Key b)).
#[global] Instance metaChangeLe_dec : RelDecision metaChangeLe.
Proof. intros a b. unfold metaChangeLe. apply _. Defined.

(** ** Records *)

Definition persistNode (g : graphState) (nodeID : N) : NodeRecord + error :=
  match g_Nodes g !! nodeID with
  | None => inr (ErrNew "WAL delta node does not exist"%string)
  | Some node =>
      reject! negb (n_ID node =? nodeID) with "WAL delta node key does not match record ID";
      check! ValidateEntityID (n_ID node);
      check! wrapErr "encode node labels" (ValidateCreateLabels (n_Labels node));
      inl node
  end.

Definition persistedNodeOf (node : NodeRecord) : persistedNode + error :=
  let! props := wrapped "encode node properties" (encodePropertyStorage (n_Properties node)) in
  inl (mkPNode (n_ID node) (CloneStrings (n_Labels node)) (Some props)).

Definition persistEdge (g : graphState) (edgeID : N) : EdgeRecord + error :=
  match g_Edges g !! edgeID with
  | None => inr (ErrNew "WAL delta edge does not exist"%string)
  | Some edge =>
      reject! negb (e_ID edge =? edgeID) with "WAL delta edge key does not match record ID";
      check! ValidateEntityID (e_ID edge);
      check! ValidateEntityID (e_SourceID edge);
      check! ValidateEntityID (e_TargetID edge);
      check! wrapErr "encode edge type" (ValidateEdgeType (e_Type edge));
      inl edge
  end.

Definition persistedEdgeOf (edge : EdgeRecord) : persistedEdge + error :=
  let! props := wrapped "encode edge properties" (encodePropertyStorage (e_Properties edge)) in
  inl (mkPEdge (e_ID edge) (e_SourceID edge) (e_TargetID edge) (e_Type edge) (Some props)).

(** ** Snapshots *)

Definition snapshotNode (g : graphState) (nodeID : N) : persistedNode + error :=
  match g_Nodes g !! nodeID with
  | None => inr (ErrNew "node key does not match record"%string)
  | Some node =>
      reject! negb (n_ID node =? nodeID) with "node key does not match record";
      check! ValidateEntityID (n_ID node);
      check! wrapErr "encode node labels" (ValidateCreateLabels (n_Labels node));
      persistedNodeOf node
  end.
Definition snapshotEdge (g : graphState) (edgeID : N) : persistedEdge + error :=
  match g_Edges g !! edgeID with
  | None => inr (ErrNew "edge key does not match record"%string)
  | Some edge =>
      reject! negb (e_ID edge =? edgeID) with "edge key does not match record";
      check! ValidateEntityID (e_ID edge);
      check! ValidateEntityID (e_SourceID edge);
      check! ValidateEntityID (e_TargetID edge);
      check! wrapErr "encode edge type" (ValidateEdgeType (e_Type edge));
      persistedEdgeOf edge
  end.
Definition checkFTS (g : graphState) (kv : N * gostring) : option error :=
  match ValidateEntityID kv.1 with
  | Some err => Some err
  | None =>
      if negb (bool_decide (is_Some (g_Nodes g !! kv.1))) then Some (ErrNew "FTS record references missing node"%string)
      else wrapErr "encode FTS record" (ValidateFTSText kv.2)
  end.
(** The text of each node in order; a node without text is skipped. *)
Definition snapshotFTS (g : graphState) (nodeID : N) : option persistedFTS := mkPFTS nodeID <$> g_FTS g !! nodeID.

Definition orOne (next : N) : N := if next =? 0 then 1 else next.

Definition buildPersistedState (g : graphState) (nextNodeID nextEdgeID commitID : N) : persistedState * graphState + error :=
  let nextNodeID := orOne nextNodeID in
  let nextEdgeID := orOne nextEdgeID in
  check! ValidateIDHighWater nextNodeID;
  check! ValidateIDHighWater nextEdgeID;
  let! g := ensureDatabaseID g in
  let! metadata := buildPersistedAppMetadata (g_AppMetadata g) in
  let! streams := wrapped "encode streams" (buildPersistedStreams (g_Streams g)) in
  let! nodes := sumEach (snapshotNode g) (sortedMapKeys (g_Nodes g)) in
  let! edges := sumEach (snapshotEdge g) (sortedMapKeys (g_Edges g)) in
  check! firstError (checkFTS g) (map_to_list (g_FTS g));
  inl (mkPState (g_DatabaseID g) (g_VectorDimensions g) commitID nextNodeID nextEdgeID metadata (Some nodes) (Some edges)
         (Some (omap (snapshotFTS g) (sortedMapKeys (g_Nodes g)))) (persistedPropertyIndexes (g_NodeIndexes g))
         (persistedPropertyIndexes (g_EdgeIndexes g)) streams, g).

(** ** Deltas *)

Definition checkPatches (entity : string) (upserts deletes : list N) (keys : gmap N (list gostring)) : option error :=
  firstError (fun kv : N * list gostring =>
    match kv.2 with
    | [] => None
    | _ => if negb (bool_decide (kv.1 ∈ upserts)) then Some (ErrNew (String.append entity " property patch is not an upsert"))
           else if bool_decide (kv.1 ∈ deletes) then Some (ErrNew (String.append entity " property patch is also deleted")) else None
    end) (map_to_list keys).

Arguments checkPatches entity%_string upserts deletes keys.

Definition patchKeys (keys : gmap N (list gostring)) (id : N) : list gostring := default [] (keys !! id).

(** The upserted nodes in order: a record in full, or a patch. *)
Definition buildNode (g : graphState) (keys : gmap N (list gostring)) (st : slice persistedNode * slice persistedPropertyChange) (nodeID : N) :
    slice persistedNode * slice persistedPropertyChange + error :=
  let '(upserts, patches) := st in
  let! node := persistNode g nodeID in
  match patchKeys keys nodeID with
  | [] => let! stored := persistedNodeOf node in inl (Some (elems upserts ++ [stored]), patches)
  | ks => let! change := wrapped "encode node property patch" (buildPersistedPropertyChange (n_ID node) ks (n_Properties node)) in
          inl (upserts, Some (elems patches ++ [change]))
  end.

Definition buildEdge (g : graphState) (keys : gmap N (list gostring)) (st : slice persistedEdge * slice persistedPropertyChange) (edgeID : N) :
    slice persistedEdge * slice persistedPropertyChange + error :=
  let '(upserts, patches) := st in
  let! edge := persistEdge g edgeID in
  match patchKeys keys edgeID with
  | [] => let! stored := persistedEdgeOf edge in inl (Some (elems upserts ++ [stored]), patches)
  | ks => let! change := wrapped "encode edge property patch" (buildPersistedPropertyChange (e_ID edge) ks (e_Properties edge)) in
          inl (upserts, Some (elems patches ++ [change]))
  end.

Definition buildFTS (g : graphState) (nodeID : N) : persistedFTS + error :=
  match g_FTS g !! nodeID with
  | None => inr (ErrNew "WAL delta FTS node does not exist"%string)
  | Some text =>
      check! ValidateEntityID nodeID;
      check! wrapErr "encode FTS record" (ValidateFTSText text);
      inl (mkPFTS nodeID text)
  end.

(** A slice appended to from nil. *)
Definition appended {A} (l : list A) : slice A := match l with [] => None | _ => Some l end.

(** The stream part: the recorded operations, or the whole store, or nothing. *)
Definition buildStreams (g : graphState) (changes : GraphDelta) : option persistedStreams * slice persistedStreamOperation + error :=
  match gd_StreamOperations changes with
  | [] =>
      if gd_StreamsChanged changes
      then let! streams := wrapped "encode streams" (buildPersistedStreams (g_Streams g)) in inl (Some streams, None)
      else inl (None, None)
  | operations => let! built := wrapped "encode stream operations" (BuildPersistedStreamOperations operations) in inl (None, Some built)
  end.

Definition checkPropertyKeys (changes : GraphDelta) : option error :=
  if hasPropertyKeys (gd_NodePropertyKeys changes) || hasPropertyKeys (gd_EdgePropertyKeys changes) then
    match wrapErr "node operations" (validateUniqueDeltaIDs (elems (gd_DeleteNodes changes)) (elems (gd_UpsertNodes changes))) with
    | Some err => Some err
    | None =>
        match wrapErr "edge operations" (validateUniqueDeltaIDs (elems (gd_DeleteEdges changes)) (elems (gd_UpsertEdges changes))) with
        | Some err => Some err
        | None =>
            match checkPatches "node" (elems (gd_UpsertNodes changes)) (elems (gd_DeleteNodes changes)) (gd_NodePropertyKeys changes) with
            | Some err => Some err
            | None => checkPatches "edge" (elems (gd_UpsertEdges changes)) (elems (gd_DeleteEdges changes)) (gd_EdgePropertyKeys changes)
            end
        end
    end
  else None.

Definition changedIDs (changes : GraphDelta) : list N :=
  elems (gd_UpsertNodes changes) ++ elems (gd_DeleteNodes changes) ++ elems (gd_UpsertEdges changes) ++ elems (gd_DeleteEdges changes)
  ++ elems (gd_UpsertFTS changes) ++ elems (gd_DeleteFTS changes).

Definition buildPersistedDelta (g : graphState) (nextNodeID nextEdgeID commitID : N) (changes : GraphDelta) : persistedDelta * graphState + error :=
  let nextNodeID := orOne nextNodeID in
  let nextEdgeID := orOne nextEdgeID in
  check! ValidateIDHighWater nextNodeID;
  check! ValidateIDHighWater nextEdgeID;
  check! firstError ValidateEntityID (changedIDs changes);
  let! g := ensureDatabaseID g in
  check! checkPropertyKeys changes;
  let! (_, metadata) := foldError buildMetadataChange (∅, []) (gd_AppMetadata changes) in
  let! (streams, operations) := buildStreams g changes in
  let! (nodes, nodePatches) := foldError (buildNode g (gd_NodePropertyKeys changes)) (None, None) (sortedIDs (gd_UpsertNodes changes)) in
  let! (edges, edgePatches) := foldError (buildEdge g (gd_EdgePropertyKeys changes)) (None, None) (sortedIDs (gd_UpsertEdges changes)) in
  let! fts := sumEach (buildFTS g) (sortedIDs (gd_UpsertFTS changes)) in
  inl (mkPDelta (g_DatabaseID g) commitID nextNodeID nextEdgeID nodes (sortedClone (gd_DeleteNodes changes))
         edges (sortedClone (gd_DeleteEdges changes)) (appended fts) (sortedClone (gd_DeleteFTS changes))
         (appended (merge_sort metaChangeLe metadata)) streams operations
         (persistedPropertyIndexDefinitions (gd_CreateNodeIndexes changes)) (persistedPropertyIndexDefinitions (gd_DropNodeIndexes changes))
         (persistedPropertyIndexDefinitions (gd_CreateEdgeIndexes changes)) (persistedPropertyIndexDefinitions (gd_DropEdgeIndexes changes))
         nodePatches edgePatches, g).

(** ** Appending a commit *)

Definition deltaPayload (delta : persistedDelta) : walPayload :=
  if hasPropertyDelta delta then WALPropertyDelta (Some delta) else WALDelta (Some delta).

Definition AppendSnapshot (w : WALWriter) (fs : appendFaults) (g : graphState) (nextNodeID nextEdgeID commitID : N) : option error * WALWriter :=
  match buildPersistedState g nextNodeID nextEdgeID commitID with
  | inr err => (Some err, w)
  | inl (snapshot, _) => appendBinary w fs (st_DatabaseID snapshot) (st_CommitID snapshot) (WALSnapshot (Some snapshot))
  end.

Definition AppendDelta (w : WALWriter) (fs : appendFaults) (g : graphState) (nextNodeID nextEdgeID commitID : N) (changes : GraphDelta) :
    option error * WALWriter :=
  match buildPersistedDelta g nextNodeID nextEdgeID commitID changes with
  | inr err => (Some err, w)
  | inl (delta, _) =>
      if negb (ww_open w) then (Some (ErrNew "WAL writer is closed"%string), w)
      else appendBinary w fs (dl_DatabaseID delta) (dl_CommitID delta) (deltaPayload delta)
  end.

End build.
