(* ===== verification/GraphChanges.v ===== *)
(** * The image of a graph

    What recovery must rebuild of a graph: the records encoded, under their
    identifiers. A snapshot of a well-formed graph exists, and loading it gives the
    graph's image.

    Further down: the changes of a commit. *)
From S2P Require Import Prelude.
From S2P Require Import GoBytes.
From S2P Require Import BinaryCodec.
From S2P Require Import BinaryValue.
From S2P Require Import BinaryValueSpec.
From S2P Require Import BinaryRecords.
From S2P Require Import GoMaps.
From S2P Require Import Values.
From S2P Require Import Properties.
From S2P Require Import PageRecords.
From S2P Require Import Streams.
From S2P Require Import StreamStoreSpec.
From S2P Require Import StreamPersist.
From S2P Require Import StreamPersistSpec.
From S2P Require Import StreamTx.
From S2P Require Import StreamTxSpec.
From S2P Require Import PropertyDelta.
From S2P Require Import PropertyPatch.
From S2P Require Import WalAccumulator.
From S2P Require Import WalInvariant.
From S2P Require Import WalSteps.
From S2P Require Import WalFrames.
From S2P Require Import DecoderSafety.
From S2P Require Import WalApply.
From S2P Require Import GraphPersist.

Definition imageNode (n : NodeRecord) : persistedNode := mkPNode (n_ID n) (CloneStrings (n_Labels n)) (Some (storedOf (n_Properties n))).
Definition imageEdge (e : EdgeRecord) : persistedEdge :=
  mkPEdge (e_ID e) (e_SourceID e) (e_TargetID e) (e_Type e) (Some (storedOf (e_Properties e))).
Definition imageFTS (texts : gmap N gostring) : gmap N persistedFTS := map_imap (fun id text => Some (mkPFTS id text)) texts.
Definition imageMetadata (metadata : gmap gostring (slice byte)) : gmap gostring persistedAppMetadata :=
  map_imap (fun key value => Some (mkPMeta (Some key) value)) metadata.
Definition imageIndexes (indexes : gset indexName) : list persistedPropertyIndexDefinition := merge_sort indexLe (map toDefinition (elements indexes)).

(** ** Well-formed graphs *)

Record wfGraph (g : graphState) (nextNodeID nextEdgeID : N) : Prop := mkWfGraph {
  wg_nodes : map_Forall (fun id n => n_ID n = id /\ ValidateEntityID id = None /\ ValidateCreateLabels (n_Labels n) = None /\
               storable (n_Properties n) /\ id < nextNodeID) (g_Nodes g);
  wg_edges : map_Forall (fun id e => e_ID e = id /\ ValidateEntityID id = None /\ ValidateEdgeType (e_Type e) = None /\
               storable (e_Properties e) /\ id < nextEdgeID) (g_Edges g);
  wg_ends : map_Forall (fun _ e => is_Some (g_Nodes g !! e_SourceID e) /\ is_Some (g_Nodes g !! e_TargetID e)) (g_Edges g);
  wg_fts : map_Forall (fun id text => is_Some (g_Nodes g !! id) /\ ValidateFTSText text = None) (g_FTS g);
  wg_metadata : map_Forall (fun key _ => validMetadataKey key = true) (g_AppMetadata g);
  wg_nodeIndexes : set_Forall completeKey (g_NodeIndexes g);
  wg_edgeIndexes : set_Forall completeKey (g_EdgeIndexes g);
  wg_database : validateDatabaseID (g_DatabaseID g) = None;
  wg_nextNode : ValidateIDHighWater nextNodeID = None;
  wg_nextEdge : ValidateIDHighWater nextEdgeID = None;
  wg_streams : exists a, storeOK (g_Streams g) a /\ storableStore a }.

(** ** What recovery holds of a graph *)

Record imageOf (g : graphState) (nextNodeID nextEdgeID commitID : N) (acc : walAccumulator) : Prop := mkImageOf {
  im_ok : accOK acc;
  im_nodes : acc_nodes acc = imageNode <$> g_Nodes g;
  im_edges : acc_edges acc = imageEdge <$> g_Edges g;
  im_fts : acc_fts acc = imageFTS (g_FTS g);
  im_metadata : acc_metadata acc = imageMetadata (g_AppMetadata g);
  im_nodeIndexes : elems (st_NodeIndexes (acc_state acc)) = imageIndexes (g_NodeIndexes g);
  im_edgeIndexes : elems (st_EdgeIndexes (acc_state acc)) = imageIndexes (g_EdgeIndexes g);
  im_database : st_DatabaseID (acc_state acc) = g_DatabaseID g;
  im_dimensions : st_VectorDimensions (acc_state acc) = g_VectorDimensions g;
  im_next : st_NextNodeID (acc_state acc) = nextNodeID /\ st_NextEdgeID (acc_state acc) = nextEdgeID;
  im_commit : st_CommitID (acc_state acc) = commitID;
  im_streams : exists a, storeOK (acc_streams acc) a /\ storeOK (g_Streams g) a /\ storableStore a }.

Lemma CloneStrings_elems labels : elems (CloneStrings labels) = elems labels.
Proof. unfold CloneStrings. by destruct (elems labels). Qed.

Lemma storedOf_storedOK p : storable p -> storedOK (Some (storedOf p)).
Proof.
  intros Hp. split; [|by apply storedOf_ok]. split; [by apply storedOf_sorted|]. destruct Hp as (_ & Hn & _). unfold storedOf. cbn [elems default from_option id].
  apply List.Forall_map. eapply Forall_impl; [exact Hn|]. intros kv Hkv. by apply toP_normal_wf.
Qed.

Lemma imageFTS_lookup texts id : imageFTS texts !! id = mkPFTS id <$> texts !! id.
Proof. unfold imageFTS. rewrite map_lookup_imap. by destruct (texts !! id). Qed.
Lemma imageMetadata_lookup metadata key : imageMetadata metadata !! key = mkPMeta (Some key) <$> metadata !! key.
Proof. unfold imageMetadata. rewrite map_lookup_imap. by destruct (metadata !! key). Qed.

Lemma imageNode_ok g nn ne id n : wfGraph g nn ne -> g_Nodes g !! id = Some n -> nodeOK id (imageNode n).
Proof.
  intros Hw Hn. destruct (wg_nodes _ _ _ Hw id n Hn) as (E & Hv & Hl & Hs & _). split; [done|done| |by apply storedOf_storedOK].
  unfold ValidateCreateLabels. cbn [imageNode pn_Labels]. by rewrite CloneStrings_elems.
Qed.

Lemma image_is_some {A B} (f : A -> B) (m : gmap N A) id : is_Some ((f <$> m) !! id) <-> is_Some (m !! id).
Proof. rewrite lookup_fmap. apply fmap_is_Some. Qed.

Lemma imageEdge_ok g nn ne id e : wfGraph g nn ne -> g_Edges g !! id = Some e -> edgeOK (imageNode <$> g_Nodes g) id (imageEdge e).
Proof.
  intros Hw He. destruct (wg_edges _ _ _ Hw id e He) as (E & Hv & Ht & Hs & _). destruct (wg_ends _ _ _ Hw id e He) as [H1 H2].
  split; [done|done|done|by apply image_is_some|by apply image_is_some|by apply storedOf_storedOK].
Qed.

Lemma counts_exist nodes edges : map_Forall (edgeOK nodes) edges -> exists incident, counts edges incident.
Proof.
  induction edges as [|k e edges Hk IH] using map_ind; intros He; [by exists ∅|]. apply map_Forall_insert in He as [He Hes]; [|done].
  destruct (IH Hes) as [incident Hc]. eexists. apply counts_insert; [exact Hc|done|]. eapply edges_within. by apply map_Forall_insert_2.
Qed.

Lemma toDefinition_key k : indexKey (toDefinition k) = k.
Proof. by destruct k. Qed.

Lemma imageIndexes_perm s : imageIndexes s ≡ₚ map toDefinition (elements s).
Proof. apply merge_sort_Permutation. Qed.

Lemma imageIndexes_ok s : set_Forall completeKey s -> indexesOK (imageIndexes s).
Proof.
  intros Hs. split; rewrite imageIndexes_perm.
  - rewrite map_map. replace (map _ (elements s)) with (elements s); [apply NoDup_elements|]. rewrite <- (map_id (elements s)) at 1. apply map_ext. intros k. by rewrite toDefinition_key.
  - apply List.Forall_map, Forall_forall. intros k Hk. apply (Hs k). by apply elem_of_elements.
Qed.

Lemma imageIndexes_set s : list_to_set (map indexKey (imageIndexes s)) = s.
Proof.
  apply set_eq. intros k. rewrite elem_of_list_to_set, imageIndexes_perm, map_map, list_elem_of_fmap. setoid_rewrite elem_of_elements. split.
  - intros (k' & -> & Hk'). by rewrite toDefinition_key.
  - intros Hk. exists k. by rewrite toDefinition_key.
Qed.

(** The image with no totals cached. *)
Definition canonAcc (g : graphState) (nextNodeID nextEdgeID commitID : N) (incident : gmap N N) : walAccumulator :=
  mkAcc (mkPState (g_DatabaseID g) (g_VectorDimensions g) commitID nextNodeID nextEdgeID None (Some []) (Some []) (Some [])
           (Some (imageIndexes (g_NodeIndexes g))) (Some (imageIndexes (g_EdgeIndexes g))) (mkPStreams None None))
    (g_Streams g) (imageMetadata (g_AppMetadata g)) (imageNode <$> g_Nodes g) (imageEdge <$> g_Edges g) (imageFTS (g_FTS g)) incident ∅ ∅.

Lemma canonAcc_ok g nn ne commit : wfGraph g nn ne -> exists incident, accOK (canonAcc g nn ne commit incident).
Proof.
  intros Hw. assert (Hn : map_Forall nodeOK (imageNode <$> g_Nodes g)).
  { intros id x. rewrite lookup_fmap. intros (n & Hid & ->)%fmap_Some. by eapply imageNode_ok. }
  assert (He : map_Forall (edgeOK (imageNode <$> g_Nodes g)) (imageEdge <$> g_Edges g)).
  { intros id x. rewrite lookup_fmap. intros (e & Hid & ->)%fmap_Some. by eapply imageEdge_ok. }
  destruct (counts_exist _ _ He) as [incident Hc]. exists incident. split; cbn [canonAcc acc_state st_NextNodeID st_NextEdgeID st_NodeIndexes st_EdgeIndexes st_DatabaseID acc_metadata].
  - split; cbn [canonAcc acc_nodes acc_edges acc_incident nodePropertyTotals edgePropertyTotals]; try done.
    + intros id x. rewrite lookup_fmap. intros (n & Hid & ->)%fmap_Some. by apply (wg_nodes _ _ _ Hw id n Hid).
    + intros id x. rewrite lookup_fmap. intros (e & Hid & ->)%fmap_Some. by apply (wg_edges _ _ _ Hw id e Hid).
  - intros id r. cbn [canonAcc acc_fts acc_nodes]. rewrite imageFTS_lookup. intros (text & Hid & ->)%fmap_Some. destruct (wg_fts _ _ _ Hw id text Hid) as [Hs Ht].
    split_and!; [done| |done|left; by apply image_is_some]. destruct Hs as [n Hs]. by apply (wg_nodes _ _ _ Hw id n Hs).
  - intros key m. rewrite imageMetadata_lookup. intros (v & Hk & ->)%fmap_Some. split; [done|]. pose proof (wg_metadata _ _ _ Hw key v Hk) as Hv.
    unfold validMetadataKey in Hv. apply andb_true_iff in Hv as [H1%N.ltb_lt H2%N.leb_le]. done.
  - apply (wg_nextNode _ _ _ Hw).
  - apply (wg_nextEdge _ _ _ Hw).
  - apply imageIndexes_ok, (wg_nodeIndexes _ _ _ Hw).
  - apply imageIndexes_ok, (wg_edgeIndexes _ _ _ Hw).
  - right. apply (wg_database _ _ _ Hw).
Qed.

(** ** Snapshots *)

Lemma sumEach_omap {A B} (f : A -> B + error) (h : A -> option B) l :
  (forall x, x ∈ l -> exists y, h x = Some y /\ f x = inl y) -> sumEach f l = inl (omap h l).
Proof.
  induction l as [|x l IH]; intros H; [done|]. destruct (H x ltac:(left)) as (y & Eh & Ef).
  change (sumEach f (x :: l)) with (match f x with inr err => inr err | inl y => match sumEach f l with inr err => inr err | inl ys => inl (y :: ys) end end).
  rewrite Ef, IH by (intros z Hz; apply H; by right). cbn [omap list_omap]. by rewrite Eh.
Qed.

(** Distinct identifiers in order are determined by which they are. *)
Lemma sorted_ids_ext (l1 l2 : list N) : StronglySorted N.le l1 -> StronglySorted N.le l2 -> NoDup l1 -> NoDup l2 ->
  (forall id, id ∈ l1 <-> id ∈ l2) -> l1 = l2.
Proof. intros S1 S2 N1 N2 H. apply (StronglySorted_unique N.le); [done..|]. by apply NoDup_Permutation. Qed.

Lemma sortedMapKeys_sorted {A} (m : gmap N A) : StronglySorted N.le (sortedMapKeys m).
Proof. apply (StronglySorted_merge_sort N.le). Qed.

Lemma omap_filter {A B} (f : A -> option B) (P : A -> Prop) `{forall x, Decision (P x)} (l : list A) : (forall x, is_Some (f x) -> P x) -> omap f (base.filter P l) = omap f l.
Proof.
  intros HP. induction l as [|x l IH]; [done|]. rewrite filter_cons. cbn [omap list_omap]. destruct (decide (P x)) as [Hx|Hx].
  - cbn [omap list_omap]. by rewrite IH.
  - destruct (f x) eqn:E; [|done]. destruct Hx. apply HP. by rewrite E.
Qed.

(** The values of a map, read along the keys of a larger one. *)
Lemma valuesOf_along {A B} (m : gmap N A) (m' : gmap N B) : (forall id, is_Some (m !! id) -> is_Some (m' !! id)) ->
  valuesOf m = omap (fun id => m !! id) (sortedMapKeys m').
Proof.
  intros Hsub. unfold valuesOf. rewrite <- (omap_filter (fun id => m !! id) (fun id => is_Some (m !! id)) (sortedMapKeys m')) by done. f_equal.
  destruct (sortedMapKeys_ok m) as [N1 H1]. destruct (sortedMapKeys_ok m') as [N2 H2].
  apply sorted_ids_ext; [apply sortedMapKeys_sorted|apply StronglySorted_filter, sortedMapKeys_sorted|done|by apply NoDup_filter|].
  intros id. rewrite list_elem_of_filter, H1, H2. naive_solver.
Qed.

Section snapshot.
Context (generateID : gostring + error).

Lemma database_nonempty id : validateDatabaseID id = None -> id <> [].
Proof. intros H ->. vm_compute in H. discriminate. Qed.

Lemma ensureDatabaseID_ok g nn ne : wfGraph g nn ne -> ensureDatabaseID generateID g = inl g.
Proof.
  intros Hw. unfold ensureDatabaseID. pose proof (wg_database _ _ _ Hw) as Hd. rewrite bool_decide_false by (by apply database_nonempty).
  cbn [negb]. by rewrite Hd.
Qed.

Lemma snapshotNode_ok g nn ne id n : wfGraph g nn ne -> g_Nodes g !! id = Some n -> snapshotNode g id = inl (imageNode n).
Proof.
  intros Hw Hn. destruct (wg_nodes _ _ _ Hw id n Hn) as (E & Hv & Hl & Hs & _). unfold snapshotNode. rewrite Hn, E, N.eqb_refl, Hv, Hl.
  cbn [negb wrapErr option_map]. unfold persistedNodeOf. by rewrite storedOf_encode.
Qed.

Lemma node_valid g nn ne id : wfGraph g nn ne -> is_Some (g_Nodes g !! id) -> ValidateEntityID id = None.
Proof. intros Hw [n Hn]. by apply (wg_nodes _ _ _ Hw id n Hn). Qed.

Lemma snapshotEdge_ok g nn ne id e : wfGraph g nn ne -> g_Edges g !! id = Some e -> snapshotEdge g id = inl (imageEdge e).
Proof.
  intros Hw He. destruct (wg_edges _ _ _ Hw id e He) as (E & Hv & Ht & Hs & _). destruct (wg_ends _ _ _ Hw id e He) as [H1 H2].
  unfold snapshotEdge. rewrite He, E, N.eqb_refl, Hv, (node_valid g nn ne _ Hw H1), (node_valid g nn ne _ Hw H2), Ht.
  cbn [negb wrapErr option_map]. unfold persistedEdgeOf. by rewrite storedOf_encode.
Qed.

Lemma checkFTS_ok g nn ne kv : wfGraph g nn ne -> g_FTS g !! kv.1 = Some kv.2 -> checkFTS g kv = None.
Proof.
  intros Hw Hk. destruct (wg_fts _ _ _ Hw _ _ Hk) as [Hs Ht]. unfold checkFTS. by rewrite (node_valid g nn ne _ Hw Hs), bool_decide_true, Ht.
Qed.

Lemma metadata_built g nn ne : wfGraph g nn ne ->
  buildPersistedAppMetadata (g_AppMetadata g) =
  inl (Some (omap (fun key => imageMetadata (g_AppMetadata g) !! key) (sortedNames (imageMetadata (g_AppMetadata g))))).
Proof.
  intros Hw. unfold buildPersistedAppMetadata. rewrite existsb_false.
  - do 2 f_equal. assert (E : sortedNames (imageMetadata (g_AppMetadata g)) = sortedNames (g_AppMetadata g)).
    { unfold sortedNames. apply sortKeys_perm. apply NoDup_Permutation; [apply NoDup_fst_map_to_list..|]. intros k. rewrite !list_elem_of_fmap. split.
      - intros ([k' v] & -> & Hk%elem_of_map_to_list). rewrite imageMetadata_lookup in Hk. apply fmap_Some in Hk as (w & Hk & _). exists (k', w). by rewrite elem_of_map_to_list.
      - intros ([k' v] & -> & Hk%elem_of_map_to_list). exists (k', mkPMeta (Some k') v). rewrite elem_of_map_to_list, imageMetadata_lookup, Hk. done. }
    rewrite E. clear E. assert (Hin : forall k, k ∈ sortedNames (g_AppMetadata g) -> is_Some (g_AppMetadata g !! k)) by (intros k; apply sortedNames_elem).
    revert Hin. induction (sortedNames (g_AppMetadata g)) as [|k l IH]; intros Hin; [done|]. cbn [map omap list_omap]. rewrite imageMetadata_lookup.
    destruct (Hin k ltac:(left)) as [v ->]. cbn [fmap option_fmap option_map default from_option id]. f_equal. apply IH. intros k' Hk'. apply Hin. by right.
  - intros [k v] Hk%elem_of_map_to_list. cbn [fst]. by rewrite (wg_metadata _ _ _ Hw k v Hk).
Qed.

(** The snapshot is the image, written back. *)
Lemma buildPersistedState_ok g nn ne commit incident : wfGraph g nn ne ->
  exists state, buildPersistedState generateID g nn ne commit = inl (state, g) /\ accPersistedState (canonAcc g nn ne commit incident) = inl state.
Proof.
  intros Hw. pose proof (wg_streams _ _ _ Hw) as (a & Hs & Hst). unfold buildPersistedState, accPersistedState, orOne.
  pose proof (highWater_pos _ (wg_nextNode _ _ _ Hw)). pose proof (highWater_pos _ (wg_nextEdge _ _ _ Hw)).
  rewrite (proj2 (N.eqb_neq nn 0)), (proj2 (N.eqb_neq ne 0)) by lia. rewrite (wg_nextNode _ _ _ Hw), (wg_nextEdge _ _ _ Hw), (ensureDatabaseID_ok g nn ne Hw).
  rewrite (metadata_built g nn ne Hw). cbn [canonAcc acc_streams acc_metadata acc_nodes acc_edges acc_fts acc_state]. rewrite (buildPersistedStreams_ok _ a Hs Hst). cbn [wrapped].
  rewrite (sumEach_omap (snapshotNode g) (fun id => (imageNode <$> g_Nodes g) !! id)), (sumEach_omap (snapshotEdge g) (fun id => (imageEdge <$> g_Edges g) !! id)).
  - rewrite firstError_none.
    2: { apply Forall_forall. intros [k v] Hk%elem_of_map_to_list. by eapply checkFTS_ok. }
    eexists. split; [reflexivity|]. cbn [st_DatabaseID st_VectorDimensions st_CommitID st_NextNodeID st_NextEdgeID st_Nodes st_Edges st_FTS st_NodeIndexes st_EdgeIndexes].
    rewrite (valuesOf_along (imageNode <$> g_Nodes g) (g_Nodes g)), (valuesOf_along (imageEdge <$> g_Edges g) (g_Edges g)), (valuesOf_along (imageFTS (g_FTS g)) (g_Nodes g)).
    + assert (Hr : forall {A} (l : list A), refill (Some []) l = Some l) by (by intros ? []). rewrite !Hr. do 2 f_equal.
      f_equal. apply list_omap_ext, Forall_Forall2_diag, Forall_forall. intros id _. by rewrite imageFTS_lookup.
    + intros id. rewrite imageFTS_lookup. intros (t & Ht)%fmap_is_Some. by apply (wg_fts _ _ _ Hw id t Ht).
    + intros id. by rewrite image_is_some.
    + intros id. by rewrite image_is_some.
  - intros id Hid%sortedMapKeys_ok. destruct Hid as [e He]. exists (imageEdge e). rewrite lookup_fmap, He. split; [done|]. by eapply snapshotEdge_ok.
  - intros id Hid%sortedMapKeys_ok. destruct Hid as [e He]. exists (imageNode e). rewrite lookup_fmap, He. split; [done|]. by eapply snapshotNode_ok.
Qed.
End snapshot.

(** States that hold the same; an empty list may be nil or not. *)
Record sameState (st st' : persistedState) : Prop := mkSameState {
  ss_database : st_DatabaseID st' = st_DatabaseID st;
  ss_dimensions : st_VectorDimensions st' = st_VectorDimensions st;
  ss_commit : st_CommitID st' = st_CommitID st;
  ss_next : st_NextNodeID st' = st_NextNodeID st /\ st_NextEdgeID st' = st_NextEdgeID st;
  ss_metadata : elems (st_AppMetadata st') = elems (st_AppMetadata st);
  ss_nodes : elems (st_Nodes st') = elems (st_Nodes st);
  ss_edges : elems (st_Edges st') = elems (st_Edges st);
  ss_fts : elems (st_FTS st') = elems (st_FTS st);
  ss_indexes : elems (st_NodeIndexes st') = elems (st_NodeIndexes st) /\ elems (st_EdgeIndexes st') = elems (st_EdgeIndexes st);
  ss_streams : st_Streams st' = st_Streams st }.

Section reload.
Context (generateID : gostring + error).

(** What an accumulator that holds a graph writes is the graph's snapshot. *)
Lemma image_writes g nn ne commit acc : wfGraph g nn ne -> imageOf g nn ne commit acc ->
  exists snapshot state, buildPersistedState generateID g nn ne commit = inl (snapshot, g) /\ accPersistedState acc = inl state /\ sameState snapshot state.
Proof.
  intros Hw [Hok Hn He Hf Hm Hni Hei Hd Hv [Hnn Hne] Hc (a & Ha & Hg & Hst)].
  destruct (buildPersistedState_ok generateID g nn ne commit ∅ Hw) as (snapshot & Hb & Hp). exists snapshot. revert Hp. unfold accPersistedState.
  cbn [canonAcc acc_streams acc_metadata acc_nodes acc_edges acc_fts acc_state].
  rewrite (buildPersistedStreams_ok _ a Ha Hst), (buildPersistedStreams_ok _ a Hg Hst). cbn [wrapped]. intros [= <-]. eexists. split; [exact Hb|]. split; [reflexivity|].
  rewrite Hn, He, Hf, Hm. split; cbn [st_DatabaseID st_VectorDimensions st_CommitID st_NextNodeID st_NextEdgeID st_AppMetadata st_Nodes st_Edges st_FTS st_NodeIndexes st_EdgeIndexes st_Streams];
    rewrite ?refill_elems; done.
Qed.

Lemma valuesOf_Forall {A} (P : A -> Prop) (m : gmap N A) : map_Forall (fun _ x => P x) m -> Forall P (valuesOf m).
Proof. intros Hm. apply Forall_forall. intros x (id & _ & Hid)%list_elem_of_omap. by apply (Hm id). Qed.

(** Loading the snapshot gives the image. *)
Lemma snapshot_loads g nn ne commit : wfGraph g nn ne -> commit <> max_uint64 ->
  exists snapshot acc, buildPersistedState generateID g nn ne commit = inl (snapshot, g) /\ newWALAccumulator snapshot = inl acc /\ imageOf g nn ne commit acc /\
    st_DatabaseID snapshot = g_DatabaseID g /\ st_CommitID snapshot = commit.
Proof.
  intros Hw Hc. destruct (canonAcc_ok g nn ne commit Hw) as [incident Hok]. destruct (wg_streams _ _ _ Hw) as (a & Hs & Hst).
  destruct (buildPersistedState_ok generateID g nn ne commit incident Hw) as (snapshot & Hb & Hp).
  destruct (reload_ok _ a Hok Hs Hst Hc) as (state & acc & Hp' & Hl & Hsame & Hs'). rewrite Hp in Hp'. injection Hp' as <-.
  exists snapshot, acc. split; [done|]. split; [done|]. assert (Hdb : st_DatabaseID snapshot = g_DatabaseID g /\ st_CommitID snapshot = commit).
  { revert Hp. unfold accPersistedState. destruct (wrapped _ _); [|done]. by intros [= <-]. }
  split; [|done]. destruct Hsame as [S1 S2 S3 S4 _ S5 S6 S7 [S8 S9] S10]. split; try done; [|by rewrite S8|by rewrite S9|by exists a].
  pose proof Hok as [[Gn Ge _ _ _ _ _] _ _ _ _ _ _ _]. revert Hp. unfold accPersistedState. destruct (wrapped _ _) as [streams|]; [|done]. intros [= <-].
  eapply newWALAccumulator_ok; [..|exact Hl]; unfold wfNodes, wfEdges; cbn [st_Nodes st_Edges]; rewrite refill_elems; apply valuesOf_Forall.
  - intros id n Hid. by destruct (Gn id n Hid) as [_ _ _ [? _]].
  - intros id e Hid. by destruct (Ge id e Hid) as [_ _ _ _ _ [? _]].
Qed.
End reload.

(** * The changes of a commit

    When a commit's changes describe the step from one graph to the next, the delta
    exists, and its lists are the records of the new graph under the changed identifiers,
    in full or as patches. *)

(** ** What the changes say *)

(** The identifiers written and removed between two maps. *)
Record entityChanges {A} (old new : gmap N A) (upserts deletes : list N) : Prop := mkEntityChanges {
  ec_ids : NoDup (deletes ++ upserts);
  ec_upserts : forall id, id ∈ upserts -> is_Some (new !! id);
  ec_deletes : forall id, id ∈ deletes -> is_Some (old !! id) /\ new !! id = None;
  ec_same : forall id, id ∉ deletes -> id ∉ upserts -> old !! id = new !! id }.

(** The property keys changed, of entities that change in nothing else. *)
Definition patchChanges {A} (rest : A -> A -> Prop) (props : A -> Properties) (old new : gmap N A) (upserts : list N) (keys : gmap N (list gostring)) : Prop :=
  forall id ks, keys !! id = Some ks -> ks <> [] ->
    id ∈ upserts /\ NoDup ks /\ Forall (fun k => utf8Valid k = true) ks /\
    exists x y, old !! id = Some x /\ new !! id = Some y /\ rest x y /\ forall k, k ∉ ks -> Lookup (props x) k = Lookup (props y) k.

Definition sameNode (x y : NodeRecord) : Prop := elems (n_Labels x) = elems (n_Labels y).
Definition sameEdge (x y : EdgeRecord) : Prop := e_SourceID x = e_SourceID y /\ e_TargetID x = e_TargetID y /\ e_Type x = e_Type y.

Record metadataChanges (old new : gmap gostring (slice byte)) (changes : list AppMetadataChange) : Prop := mkMetadataChanges {
  mt_keys : NoDup (map (fun c => elems (mc_Key c)) changes);
  mt_valid : Forall (fun c => validMetadataKey (elems (mc_Key c)) = true) changes;
  mt_set : forall c, c ∈ changes -> if mc_Delete c then slen (mc_Value c) = 0 /\ new !! elems (mc_Key c) = None else new !! elems (mc_Key c) = Some (mc_Value c);
  mt_same : forall key, key ∉ map (fun c => elems (mc_Key c)) changes -> old !! key = new !! key }.

Record indexChanges (old new : gset indexName) (creates drops : list indexName) : Prop := mkIndexChanges {
  ic_creates : NoDup creates;
  ic_drops : NoDup drops;
  ic_old : forall k, k ∈ drops -> k ∈ old;
  ic_fresh : forall k, k ∈ creates -> k ∈ old -> k ∈ drops;
  ic_new : forall k, k ∈ new <-> k ∈ creates \/ k ∈ old /\ k ∉ drops }.

(** Streams: untouched, written whole, or changed by the operations a transaction
    recorded on the old store. *)
Definition streamChanges (old new : StreamStore) (changed : bool) (operations : list StreamOperation) : Prop :=
  operations = [] /\ changed = false /\ new = old \/
  operations = [] /\ changed = true \/
  operations <> [] /\ exists tx, records old tx /\ operations = streamOperations tx /\ new = tx_Streams tx.

Record changesOK (base g : graphState) (changes : GraphDelta) : Prop := mkChangesOK {
  ch_nodes : entityChanges (g_Nodes base) (g_Nodes g) (elems (gd_UpsertNodes changes)) (elems (gd_DeleteNodes changes));
  ch_edges : entityChanges (g_Edges base) (g_Edges g) (elems (gd_UpsertEdges changes)) (elems (gd_DeleteEdges changes));
  ch_fts : entityChanges (g_FTS base) (g_FTS g) (elems (gd_UpsertFTS changes)) (elems (gd_DeleteFTS changes));
  ch_nodePatches : patchChanges sameNode n_Properties (g_Nodes base) (g_Nodes g) (elems (gd_UpsertNodes changes)) (gd_NodePropertyKeys changes);
  ch_edgePatches : patchChanges sameEdge e_Properties (g_Edges base) (g_Edges g) (elems (gd_UpsertEdges changes)) (gd_EdgePropertyKeys changes);
  ch_metadata : metadataChanges (g_AppMetadata base) (g_AppMetadata g) (gd_AppMetadata changes);
  ch_nodeIndexes : indexChanges (g_NodeIndexes base) (g_NodeIndexes g) (gd_CreateNodeIndexes changes) (gd_DropNodeIndexes changes);
  ch_edgeIndexes : indexChanges (g_EdgeIndexes base) (g_EdgeIndexes g) (gd_CreateEdgeIndexes changes) (gd_DropEdgeIndexes changes);
  ch_streams : streamChanges (g_Streams base) (g_Streams g) (gd_StreamsChanged changes) (gd_StreamOperations changes);
  ch_database : g_DatabaseID g = g_DatabaseID base;
  ch_dimensions : g_VectorDimensions g = g_VectorDimensions base }.

(** ** The records of a delta *)

Section records.
Context {R P : Type} (props : R -> Properties) (img : R -> P) (new : gmap N R) (keys : gmap N (list gostring)).

(** The entities written in full, and the patches of the others. *)
Definition fullRecords (ids : list N) : list P :=
  omap (fun id => match patchKeys keys id with [] => img <$> new !! id | _ => None end) ids.
Definition patchRecords (ids : list N) : list persistedPropertyChange :=
  omap (fun id => match patchKeys keys id with [] => None | ks => (fun r => builtChange id ks (props r)) <$> new !! id end) ids.

Definition grown {A} (s : slice A) (l : list A) : slice A := match l with [] => s | _ => Some (elems s ++ l) end.

Lemma grown_cons {A} (s : slice A) x l : grown (Some (elems s ++ [x])) l = grown s (x :: l).
Proof. unfold grown. destruct l as [|y l]; [done|]. cbn [elems default from_option id]. by rewrite <- app_assoc. Qed.

Lemma build_records (build : slice P * slice persistedPropertyChange -> N -> slice P * slice persistedPropertyChange + error) ids :
  (forall st id, id ∈ ids -> exists r, new !! id = Some r /\
     build st id = match patchKeys keys id with
                   | [] => inl (Some (elems st.1 ++ [img r]), st.2)
                   | ks => inl (st.1, Some (elems st.2 ++ [builtChange id ks (props r)]))
                   end) ->
  forall st, foldError build st ids = inl (grown st.1 (fullRecords ids), grown st.2 (patchRecords ids)).
Proof.
  induction ids as [|id ids IH]; intros Hb st; [by destruct st|]. cbn [foldError]. destruct (Hb st id ltac:(left)) as (r & Hr & ->).
  unfold fullRecords, patchRecords. cbn [omap list_omap]. fold (fullRecords ids) (patchRecords ids). rewrite Hr. cbn [fmap option_fmap option_map].
  assert (IH' := IH ltac:(intros; apply Hb; by right)). destruct (patchKeys keys id) as [|k ks]; rewrite IH'; cbn [fst snd]; by rewrite grown_cons.
Qed.
End records.

Lemma grown_elems {A} (l : list A) : elems (grown None l) = l.
Proof. by destruct l. Qed.
Lemma appended_elems {A} (l : list A) : elems (appended l) = l.
Proof. by destruct l. Qed.
Lemma sortedClone_perm ids : elems (sortedClone ids) ≡ₚ elems ids.
Proof. destruct ids as [l|]; [|done]. apply merge_sort_Permutation. Qed.
Lemma sortedIDs_perm ids : sortedIDs ids ≡ₚ elems ids.
Proof. apply merge_sort_Permutation. Qed.

(** ** The delta *)

Definition toMetaChange (c : AppMetadataChange) : persistedAppMetadataChange := mkPMetaChange (mc_Key c) (mc_Value c) (mc_Delete c).

Definition deltaOf (g : graphState) (nextNodeID nextEdgeID commitID : N) (changes : GraphDelta) (streams : option persistedStreams)
    (operations : slice persistedStreamOperation) : persistedDelta :=
  mkPDelta (g_DatabaseID g) commitID nextNodeID nextEdgeID
    (grown None (fullRecords imageNode (g_Nodes g) (gd_NodePropertyKeys changes) (sortedIDs (gd_UpsertNodes changes)))) (sortedClone (gd_DeleteNodes changes))
    (grown None (fullRecords imageEdge (g_Edges g) (gd_EdgePropertyKeys changes) (sortedIDs (gd_UpsertEdges changes)))) (sortedClone (gd_DeleteEdges changes))
    (appended (omap (fun id => imageFTS (g_FTS g) !! id) (sortedIDs (gd_UpsertFTS changes)))) (sortedClone (gd_DeleteFTS changes))
    (appended (merge_sort metaChangeLe (map toMetaChange (gd_AppMetadata changes)))) streams operations
    (persistedPropertyIndexDefinitions (gd_CreateNodeIndexes changes)) (persistedPropertyIndexDefinitions (gd_DropNodeIndexes changes))
    (persistedPropertyIndexDefinitions (gd_CreateEdgeIndexes changes)) (persistedPropertyIndexDefinitions (gd_DropEdgeIndexes changes))
    (grown None (patchRecords n_Properties (g_Nodes g) (gd_NodePropertyKeys changes) (sortedIDs (gd_UpsertNodes changes))))
    (grown None (patchRecords e_Properties (g_Edges g) (gd_EdgePropertyKeys changes) (sortedIDs (gd_UpsertEdges changes)))).

Lemma patchKeys_some {A} rest (props : A -> Properties) old new upserts keys id k ks : patchChanges rest props old new upserts keys ->
  patchKeys keys id = k :: ks -> keys !! id = Some (k :: ks).
Proof. intros _. unfold patchKeys. destruct (keys !! id); cbn; [by intros ->|done]. Qed.

Section build.
Context (generateID : gostring + error) (base g : graphState) (nn ne : N) (changes : GraphDelta).
Context (Hw : wfGraph g nn ne) (Hch : changesOK base g changes).

Lemma buildNode_ok st id : id ∈ elems (gd_UpsertNodes changes) -> exists n, g_Nodes g !! id = Some n /\
  buildNode g (gd_NodePropertyKeys changes) st id = match patchKeys (gd_NodePropertyKeys changes) id with
    | [] => inl (Some (elems st.1 ++ [imageNode n]), st.2)
    | ks => inl (st.1, Some (elems st.2 ++ [builtChange id ks (n_Properties n)]))
    end.
Proof.
  intros Hid. destruct (ec_upserts _ _ _ _ (ch_nodes _ _ _ Hch) id Hid) as [n Hn]. exists n. split; [done|]. destruct st as [u p].
  destruct (wg_nodes _ _ _ Hw id n Hn) as (E & Hv & Hl & Hs & _). unfold buildNode, persistNode. rewrite Hn, E, N.eqb_refl, Hv, Hl. cbn [negb wrapErr option_map].
  destruct (patchKeys (gd_NodePropertyKeys changes) id) as [|k ks] eqn:Ek.
  - unfold persistedNodeOf. by rewrite storedOf_encode.
  - pose proof (ch_nodePatches _ _ _ Hch) as Hp. apply (patchKeys_some _ _ _ _ _ _ _ _ _ Hp) in Ek. destruct (Hp id _ Ek ltac:(done)) as (_ & Hnd & Hu & _).
    by rewrite E, build_exact.
Qed.

Lemma buildEdge_ok st id : id ∈ elems (gd_UpsertEdges changes) -> exists e, g_Edges g !! id = Some e /\
  buildEdge g (gd_EdgePropertyKeys changes) st id = match patchKeys (gd_EdgePropertyKeys changes) id with
    | [] => inl (Some (elems st.1 ++ [imageEdge e]), st.2)
    | ks => inl (st.1, Some (elems st.2 ++ [builtChange id ks (e_Properties e)]))
    end.
Proof.
  intros Hid. destruct (ec_upserts _ _ _ _ (ch_edges _ _ _ Hch) id Hid) as [e He]. exists e. split; [done|]. destruct st as [u p].
  destruct (wg_edges _ _ _ Hw id e He) as (E & Hv & Ht & Hs & _). destruct (wg_ends _ _ _ Hw id e He) as [H1 H2]. unfold buildEdge, persistEdge.
  rewrite He, E, N.eqb_refl, Hv, (node_valid g nn ne _ Hw H1), (node_valid g nn ne _ Hw H2), Ht. cbn [negb wrapErr option_map].
  destruct (patchKeys (gd_EdgePropertyKeys changes) id) as [|k ks] eqn:Ek.
  - unfold persistedEdgeOf. by rewrite storedOf_encode.
  - pose proof (ch_edgePatches _ _ _ Hch) as Hp. apply (patchKeys_some _ _ _ _ _ _ _ _ _ Hp) in Ek. destruct (Hp id _ Ek ltac:(done)) as (_ & Hnd & Hu & _).
    by rewrite E, build_exact.
Qed.

Lemma buildFTS_ok id : id ∈ elems (gd_UpsertFTS changes) -> exists r, imageFTS (g_FTS g) !! id = Some r /\ buildFTS g id = inl r.
Proof.
  intros Hid. destruct (ec_upserts _ _ _ _ (ch_fts _ _ _ Hch) id Hid) as [text Ht]. destruct (wg_fts _ _ _ Hw id text Ht) as [Hs Hv].
  exists (mkPFTS id text). rewrite imageFTS_lookup, Ht. split; [done|]. unfold buildFTS. by rewrite Ht, (node_valid g nn ne _ Hw Hs), Hv.
Qed.

Lemma buildMetadata_ok l : forall seen out, NoDup (map (fun c => elems (mc_Key c)) l) -> Forall (fun c => validMetadataKey (elems (mc_Key c)) = true) l ->
  Forall (fun c => elems (mc_Key c) ∉ seen) l -> exists seen', foldError buildMetadataChange (seen, out) l = inl (seen', out ++ map toMetaChange l).
Proof.
  clear Hw Hch. induction l as [|c l IH]; intros seen out Hnd Hv Hs; [exists seen; cbn; by rewrite app_nil_r|]. cbn [map] in Hnd. apply NoDup_cons in Hnd as [Hn Hnd].
  apply Forall_cons in Hv as [Hc Hv]. apply Forall_cons in Hs as [Hcs Hs]. cbn [foldError]. unfold buildMetadataChange at 1. rewrite Hc, bool_decide_false by done. cbn [negb].
  destruct (IH ({[elems (mc_Key c)]} ∪ seen) (out ++ [toMetaChange c]) Hnd Hv) as [seen' E].
  - rewrite Forall_forall in Hs |- *. intros c' Hc' [Ek%elem_of_singleton|Hin]%elem_of_union; [|by apply (Hs c')]. apply Hn. rewrite <- Ek. by apply (list_elem_of_fmap_2 (fun c => elems (mc_Key c))).
  - exists seen'. rewrite <- app_assoc in E. exact E.
Qed.

Lemma deleted_valid {A} (old new : gmap N A) upserts deletes (valid : N -> Prop) : entityChanges old new upserts deletes ->
  (forall id, is_Some (old !! id) -> valid id) -> (forall id, is_Some (new !! id) -> valid id) -> Forall valid upserts /\ Forall valid deletes.
Proof.
  intros [_ Hu Hd _] Ho Hn. split; apply Forall_forall; intros id Hid; [by apply Hn, Hu|by apply Ho, Hd].
Qed.

Context (bn be : N) (Hbase : wfGraph base bn be).

Lemma edge_valid h hn he id : wfGraph h hn he -> is_Some (g_Edges h !! id) -> ValidateEntityID id = None.
Proof. clear. intros Hh [e He]. by apply (wg_edges _ _ _ Hh id e He). Qed.
Lemma fts_valid h hn he id : wfGraph h hn he -> is_Some (g_FTS h !! id) -> ValidateEntityID id = None.
Proof. clear. intros Hh [t Ht]. destruct (wg_fts _ _ _ Hh id t Ht) as [Hs _]. by eapply node_valid. Qed.

Lemma nodes_changed : Forall (fun id => ValidateEntityID id = None) (elems (gd_UpsertNodes changes)) /\ Forall (fun id => ValidateEntityID id = None) (elems (gd_DeleteNodes changes)).
Proof. eapply deleted_valid; [apply (ch_nodes _ _ _ Hch)|intros; by eapply (node_valid base)|intros; by eapply (node_valid g)]. Qed.
Lemma edges_changed : Forall (fun id => ValidateEntityID id = None) (elems (gd_UpsertEdges changes)) /\ Forall (fun id => ValidateEntityID id = None) (elems (gd_DeleteEdges changes)).
Proof. eapply deleted_valid; [apply (ch_edges _ _ _ Hch)|intros; by eapply (edge_valid base)|intros; by eapply (edge_valid g)]. Qed.
Lemma fts_changed : Forall (fun id => ValidateEntityID id = None) (elems (gd_UpsertFTS changes)) /\ Forall (fun id => ValidateEntityID id = None) (elems (gd_DeleteFTS changes)).
Proof. eapply deleted_valid; [apply (ch_fts _ _ _ Hch)|intros; by eapply (fts_valid base)|intros; by eapply (fts_valid g)]. Qed.

Lemma unique_ok {A} (old new : gmap N A) upserts deletes : entityChanges old new upserts deletes ->
  Forall (fun id => ValidateEntityID id = None) upserts /\ Forall (fun id => ValidateEntityID id = None) deletes -> validateUniqueDeltaIDs deletes upserts = None.
Proof. clear. intros [Hnd _ _ _] [Hu Hd]. apply uniqueIDs_spec. split; [by apply Forall_app|done]. Qed.

Lemma checkPatches_ok {A} entity rest (props : A -> Properties) old new upserts deletes keys :
  entityChanges old new upserts deletes -> patchChanges rest props old new upserts keys -> checkPatches entity upserts deletes keys = None.
Proof.
  clear. intros [Hnd _ _ _] Hp. apply firstError_none, Forall_forall. intros [id ks] Hin%elem_of_map_to_list. cbn [fst snd].
  destruct ks as [|k ks]; [done|]. destruct (Hp id _ Hin ltac:(done)) as (Hu & _). rewrite bool_decide_true by done. cbn [negb].
  apply NoDup_app in Hnd as (_ & Hnd & _). rewrite bool_decide_false; [done|]. intros Hd. by apply (Hnd id).
Qed.

Lemma buildPersistedDelta_ok commit streams operations : buildStreams g changes = inl (streams, operations) ->
  buildPersistedDelta generateID g nn ne commit changes = inl (deltaOf g nn ne commit changes streams operations, g).
Proof.
  intros Hst. unfold buildPersistedDelta, orOne. pose proof (highWater_pos _ (wg_nextNode _ _ _ Hw)). pose proof (highWater_pos _ (wg_nextEdge _ _ _ Hw)).
  rewrite (proj2 (N.eqb_neq nn 0)), (proj2 (N.eqb_neq ne 0)) by lia. rewrite (wg_nextNode _ _ _ Hw), (wg_nextEdge _ _ _ Hw).
  rewrite firstError_none by (unfold changedIDs; destruct nodes_changed, edges_changed, fts_changed; by repeat (apply Forall_app; split)).
  rewrite (ensureDatabaseID_ok generateID g nn ne Hw). replace (checkPropertyKeys changes) with (@None error).
  2: { unfold checkPropertyKeys. rewrite (unique_ok _ _ _ _ (ch_nodes _ _ _ Hch) nodes_changed), (unique_ok _ _ _ _ (ch_edges _ _ _ Hch) edges_changed). cbn [wrapErr option_map].
    rewrite (checkPatches_ok _ _ _ _ _ _ _ _ (ch_nodes _ _ _ Hch) (ch_nodePatches _ _ _ Hch)), (checkPatches_ok _ _ _ _ _ _ _ _ (ch_edges _ _ _ Hch) (ch_edgePatches _ _ _ Hch)). by destruct (_ || _). }
  destruct (ch_metadata _ _ _ Hch) as [Mk Mv _ _].
  destruct (buildMetadata_ok (gd_AppMetadata changes) ∅ [] Mk Mv) as [seen ->]; [apply Forall_forall; intros; apply not_elem_of_empty|].
  rewrite Hst. rewrite (build_records n_Properties imageNode (g_Nodes g) (gd_NodePropertyKeys changes)).
  2: { intros st id Hid. apply buildNode_ok. by rewrite <- sortedIDs_perm. }
  rewrite (build_records e_Properties imageEdge (g_Edges g) (gd_EdgePropertyKeys changes)).
  2: { intros st id Hid. apply buildEdge_ok. by rewrite <- sortedIDs_perm. }
  rewrite (sumEach_omap (buildFTS g) (fun id => imageFTS (g_FTS g) !! id)); [done|].
  intros id Hid. apply buildFTS_ok. by rewrite <- sortedIDs_perm.
Qed.
End build.
