(* ===== verification/GraphCommit.v ===== *)
(** * Replaying a commit

    A commit's delta, applied to what recovery holds of the graph before, is accepted and
    gives what it should hold of the graph after.

    Further down: the commit as a whole. *)
From S2P Require Import Prelude.
From S2P Require Import GoBytes.
From S2P Require Import BinaryCodec.
From S2P Require Import BinaryValue.
From S2P Require Import BinaryValueSpec.
From S2P Require Import BinaryRecords.
From S2P Require Import GoMaps.
From S2P Require Import Values.
From S2P Require Import ValuesSpec.
From S2P Require Import Properties.
From S2P Require Import PageRecords.
From S2P Require Import Streams.
From S2P Require Import StreamStoreSpec.
From S2P Require Import StreamPersist.
From S2P Require Import StreamPersistSpec.
From S2P Require Import StreamTx.
From S2P Require Import StreamTxSpec.
From S2P Require Import PropertyDelta.
From S2P Require Import PropertyPatch.
From S2P Require Import WalAccumulator.
From S2P Require Import WalInvariant.
From S2P Require Import WalSteps.
From S2P Require Import WalFrames.
From S2P Require Import DecoderSafety.
From S2P Require Import WalApply.
From S2P Require Import GraphPersist.
From S2P Require Import GraphChanges.

(** ** Maps after a delta *)

Lemma deleteAll_at {A} l id : forall m : gmap N A, id ∈ l -> deleteAll m l !! id = None.
Proof.
  induction l as [|x l IH]; intros m Hin; [by apply elem_of_nil in Hin|]. change (deleteAll m (x :: l)) with (deleteAll (delete x m) l).
  destruct (decide (id ∈ l)) as [Hl|Hl]; [by apply IH|]. rewrite deleteAll_other by done. apply elem_of_cons in Hin as [->|]; [apply lookup_delete_eq|done].
Qed.

Section upserts.
Context {P : Type} (key : P -> N) (h : N -> option P) (Hkey : forall id x, h id = Some x -> key x = id).

Lemma upsert_omap ids id : forall m, upsertAll key m (omap h ids) !! id = if decide (id ∈ ids) then (match h id with Some x => Some x | None => m !! id end) else m !! id.
Proof.
  induction ids as [|k ids IH]; intros m; [by rewrite decide_False by apply not_elem_of_nil|]. cbn [omap list_omap].
  assert (Hne : forall x, h k = Some x -> id <> k -> <[key x := x]> m !! id = m !! id) by (intros x Hx Hn; apply Hkey in Hx; rewrite lookup_insert_ne; congruence).
  destruct (decide (id = k)) as [->|Hn].
  - rewrite decide_True by left. destruct (h k) as [x|] eqn:E.
    + change (upsertAll key m (x :: omap h ids)) with (upsertAll key (<[key x := x]> m) (omap h ids)). rewrite IH, (Hkey _ _ E), lookup_insert_eq. by destruct (decide _).
    + rewrite IH. by destruct (decide _).
  - assert (Hd : forall Q : option P, (if decide (id ∈ k :: ids) then Q else m !! id) = if decide (id ∈ ids) then Q else m !! id).
    { intros Q. destruct (decide (id ∈ ids)) as [Hi|Hi]; [by rewrite decide_True by (by right)|]. rewrite decide_False; [done|]. by intros [|]%elem_of_cons. }
    rewrite Hd. destruct (h k) as [x|] eqn:E; [|apply IH].
    change (upsertAll key m (x :: omap h ids)) with (upsertAll key (<[key x := x]> m) (omap h ids)). by rewrite IH, Hne.
Qed.

Lemma omap_keys ids : map key (omap h ids) = base.filter (fun id => is_Some (h id)) ids.
Proof.
  induction ids as [|k ids IH]; [done|]. rewrite filter_cons. cbn [omap list_omap]. destruct (h k) as [x|] eqn:E.
  - rewrite decide_True by by eexists. cbn [map]. by rewrite IH, (Hkey _ _ E).
  - rewrite decide_False by (by intros [? ?]). done.
Qed.

Lemma omap_Forall (Q : P -> Prop) ids : (forall id x, id ∈ ids -> h id = Some x -> Q x) -> Forall Q (omap h ids).
Proof. clear Hkey. intros H. apply Forall_forall. intros x (id & Hid & Hx)%list_elem_of_omap. eauto. Qed.

(** A delta's identifiers are distinct and valid. *)
Lemma unique_records {A} (old new : gmap N A) upserts deletes ids dels : entityChanges old new upserts deletes -> ids ≡ₚ upserts -> dels ≡ₚ deletes ->
  Forall (fun id => ValidateEntityID id = None) upserts /\ Forall (fun id => ValidateEntityID id = None) deletes ->
  validateUniqueDeltaIDs dels (map key (omap h ids)) = None.
Proof.
  intros [Hnd _ _ _] Hi Hd [Vu Vd]. apply uniqueIDs_spec. rewrite omap_keys, Hd. apply NoDup_app in Hnd as (N1 & N2 & N3). split.
  - apply Forall_app. split; [done|]. apply Forall_forall. intros id [_ Hid]%list_elem_of_filter. rewrite Hi in Hid. rewrite Forall_forall in Vu. by apply Vu.
  - apply NoDup_app. split_and!; [done| |apply NoDup_filter; by rewrite Hi]. intros id Hin [_ Hid]%list_elem_of_filter. rewrite Hi in Hid. by apply (N2 id).
Qed.

(** The map between the identifiers removed and those written in full; the others are
    as before. *)
Context {A : Type} (old new : gmap N A) (oldI : gmap N P) (upserts deletes ids dels : list N).
Context (Hec : entityChanges old new upserts deletes) (Hi : ids ≡ₚ upserts) (Hd : dels ≡ₚ deletes).

Definition midAt (id : N) : option P := if decide (id ∈ deletes) then None else if decide (id ∈ upserts) then (match h id with Some x => Some x | None => oldI !! id end) else oldI !! id.

Lemma delete_then_upsert id : upsertAll key (deleteAll oldI dels) (omap h ids) !! id = midAt id.
Proof.
  destruct Hec as [Hnd _ _ _]. apply NoDup_app in Hnd as (_ & Hnd & _). rewrite upsert_omap. unfold midAt. rewrite (decide_ext (id ∈ ids) (id ∈ upserts)) by (by rewrite Hi).
  destruct (decide (id ∈ deletes)) as [Hin|Hin].
  - rewrite decide_False by (by apply Hnd). apply deleteAll_at. by rewrite Hd.
  - rewrite deleteAll_other by (by rewrite Hd). done.
Qed.

Lemma upsert_then_delete id : deleteAll (upsertAll key oldI (omap h ids)) dels !! id = midAt id.
Proof.
  destruct Hec as [Hnd _ _ _]. apply NoDup_app in Hnd as (_ & Hnd & _). unfold midAt. destruct (decide (id ∈ deletes)) as [Hin|Hin].
  - apply deleteAll_at. by rewrite Hd.
  - rewrite deleteAll_other by (by rewrite Hd). rewrite upsert_omap. by rewrite (decide_ext (id ∈ ids) (id ∈ upserts)) by (by rewrite Hi).
Qed.
End upserts.

(** ** Patched entities *)

Lemma missing_nodup p keys : NoDup keys -> NoDup (missing p keys).
Proof.
  induction keys as [|k keys IH]; [constructor|]. intros [Hn Hnd]%NoDup_cons. unfold missing. cbn [omap list_omap]. fold (missing p keys).
  destruct (Lookup p k); [by apply IH|]. apply NoDup_cons. split; [|by apply IH]. intros [Hin _]%missing_elem. done.
Qed.

(** The keys a patch names are the changed keys, each once. *)
Lemma builtChange_keys eid keys after : NoDup keys -> Forall (fun k => utf8Valid k = true) keys ->
  let c := builtChange eid keys after in
  Forall (fun k => utf8Valid k = true) ((elems (pc_Set c)).*1 ++ elems (pc_Remove c)) /\ NoDup ((elems (pc_Set c)).*1 ++ elems (pc_Remove c)).
Proof.
  intros Hnd Hu. cbv zeta. cbn [builtChange pc_Set pc_Remove]. rewrite appendNil_elems. cbn [elems default from_option id].
  pose proof (found_keys after keys Hnd) as Hf.
  assert (Hp : (mapOf (found after keys) []).*1 ++ sortKeys (missing after keys) ≡ₚ (found after keys).*1 ++ missing after keys).
  { unfold sortKeys. rewrite (merge_sort_Permutation strLeR). apply Permutation_app_tail, fmap_Permutation. rewrite mapOf_perm by (by rewrite app_nil_r). by rewrite app_nil_r. }
  rewrite Hp. split.
  - rewrite Forall_forall in Hu. apply Forall_app. split; apply Forall_forall; intros k Hk; apply Hu; [by eapply found_keys_in|by apply missing_elem in Hk as [? _]].
  - apply NoDup_app. split_and!; [done| |by apply missing_nodup]. intros k ([k' w] & -> & Hk)%list_elem_of_fmap [_ Hm]%missing_elem.
    apply found_elem in Hk as (_ & v & Hv & _). cbn [fst] in Hm. congruence.
Qed.

Section patched.
Context {R P : Type} (props : R -> Properties) (img : R -> P) (key : P -> N) (getP : P -> properties) (upd : P -> storedMap -> P) (rest : R -> R -> Prop).
Context (old new : gmap N R) (keys : gmap N (list gostring)) (upserts deletes ids dels : list N).
Context (Hec : entityChanges old new upserts deletes) (Hpc : patchChanges rest props old new upserts keys) (Hi : ids ≡ₚ upserts) (Hd : dels ≡ₚ deletes).
Context (Hnew : map_Forall (fun id r => key (img r) = id /\ ValidateEntityID id = None /\ storable (props r)) new).
Context (Hold : map_Forall (fun id r => key (img r) = id /\ ValidateEntityID id = None /\ storable (props r)) old).
Context (Hget : forall r, getP (img r) = Some (storedOf (props r))).
Context (Hupd : forall x y, rest x y -> key (img x) = key (img y) -> upd (img x) (storedOf (props y)) = img y).

Definition fullAt (id : N) : option P := match patchKeys keys id with [] => img <$> new !! id | _ => None end.

Lemma fullAt_key id x : fullAt id = Some x -> key x = id.
Proof. unfold fullAt. destruct (patchKeys keys id); [|done]. intros (r & Hr & ->)%fmap_Some. by apply (Hnew id r Hr). Qed.

Lemma patchKeys_nil id : id ∉ upserts -> patchKeys keys id = [].
Proof.
  intros Hn. unfold patchKeys. destruct (keys !! id) as [ks|] eqn:E; [|done]. cbn. destruct ks as [|k ks]; [done|].
  destruct (Hpc id _ E ltac:(done)) as (Hu & _). done.
Qed.

Lemma mid_full id : midAt fullAt (img <$> old) upserts deletes id = match patchKeys keys id with [] => img <$> new !! id | _ => img <$> old !! id end.
Proof.
  destruct Hec as [Hnd Hups Hdel Hsame]. apply NoDup_app in Hnd as (_ & Hnd & _). unfold midAt, fullAt. rewrite lookup_fmap. destruct (decide (id ∈ deletes)) as [Hin|Hin].
  - rewrite patchKeys_nil by (by apply Hnd). destruct (Hdel id Hin) as [_ ->]. done.
  - destruct (decide (id ∈ upserts)) as [Hu|Hu].
    + destruct (patchKeys keys id); [|done]. by destruct (Hups id Hu) as [r ->].
    + rewrite patchKeys_nil by done. by rewrite Hsame.
Qed.

Lemma patchRecords_elem c : c ∈ patchRecords props new keys ids <-> exists id k ks y, c = builtChange id (k :: ks) (props y) /\ keys !! id = Some (k :: ks) /\ new !! id = Some y.
Proof.
  unfold patchRecords. rewrite list_elem_of_omap. split.
  - intros (id & _ & E). unfold patchKeys in E. destruct (keys !! id) as [[|k ks]|] eqn:Ek; [done| |done]. cbn in E. apply fmap_Some in E as (y & Hy & ->).
    by exists id, k, ks, y.
  - intros (id & k & ks & y & -> & Hk & Hy). exists id. destruct (Hpc id _ Hk ltac:(done)) as (Hu & _). split; [by rewrite Hi|]. unfold patchKeys. by rewrite Hk, Hy.
Qed.

Lemma patchRecords_ids id : id ∈ map pc_ID (patchRecords props new keys ids) <-> patchKeys keys id <> [].
Proof.
  rewrite list_elem_of_fmap. split.
  - intros (c & -> & Hc). apply patchRecords_elem in Hc as (id & k & ks & y & -> & Hk & _). unfold patchKeys. cbn [builtChange pc_ID]. by rewrite Hk.
  - unfold patchKeys. destruct (keys !! id) as [[|k ks]|] eqn:Ek; [done| |done]. intros _. destruct (Hpc id _ Ek ltac:(done)) as (_ & _ & _ & x & y & _ & Hy & _).
    exists (builtChange id (k :: ks) (props y)). split; [done|]. apply patchRecords_elem. by exists id, k, ks, y.
Qed.

Lemma patchRecords_nodup : NoDup (map pc_ID (patchRecords props new keys ids)).
Proof.
  destruct Hec as [Hnd _ _ _]. apply NoDup_app in Hnd as (_ & _ & Hnd). rewrite <- Hi in Hnd. unfold patchRecords. rewrite omap_keys; [by apply NoDup_filter|].
  intros id c. destruct (patchKeys keys id); [done|]. by intros (r & _ & ->)%fmap_Some.
Qed.

(** What a patch does to the stored map of the entity before. *)
Lemma patch_result id k ks y : keys !! id = Some (k :: ks) -> new !! id = Some y ->
  exists x, old !! id = Some x /\ rest x y /\ patchProperties (elems (getP (img x))) (builtChange id (k :: ks) (props y)) = storedOf (props y).
Proof.
  intros Hk Hy. destruct (Hpc id _ Hk ltac:(done)) as (_ & Hnd & _ & x & y' & Hx & Hy' & Hr & Hs). rewrite Hy in Hy'. injection Hy' as <-. exists x. split_and!; [done..|].
  rewrite Hget. apply patch_exact; [by apply (Hold id x)|by apply (Hnew id y)|done|done].
Qed.

Lemma patches_fit : Forall (changeFits getP (img <$> old) dels (map key (omap fullAt ids))) (patchRecords props new keys ids).
Proof.
  apply Forall_forall. intros c (id & k & ks & y & -> & Hk & Hy)%patchRecords_elem. destruct (Hpc id _ Hk ltac:(done)) as (Hu & Hnd & Hutf & _).
  destruct (Hnew id y Hy) as (_ & Hv & Hs). destruct (patch_result id k ks y Hk Hy) as (x & Hx & _ & Ep). destruct (builtChange_keys id (k :: ks) (props y) Hnd Hutf) as [K1 K2].
  split; cbn [builtChange pc_ID]; try done.
  - exists (img x). rewrite lookup_fmap, Hx. split; [done|]. rewrite Ep. pose proof (storedOf_ok _ Hs) as Ho. unfold propsOKP in Ho. by apply andb_true_iff in Ho as [_ ?].
  - rewrite Hd. destruct Hec as [Hn _ _ _]. apply NoDup_app in Hn as (_ & Hn & _). intros Hin. by apply (Hn id).
  - rewrite (omap_keys key fullAt fullAt_key). intros [[z Hz] _]%list_elem_of_filter. revert Hz. unfold fullAt, patchKeys. by rewrite Hk.
  - by apply found_wf.
  - eapply propsOKP_submseteq; [by apply found_submseteq|by apply storedOf_ok].
Qed.

(** Entities written in full, patched or left alone: the map of the new graph. *)
Lemma patched_final m m' : (forall id, m !! id = midAt fullAt (img <$> old) upserts deletes id) -> patchedMap upd getP m m' (patchRecords props new keys ids) -> m' = img <$> new.
Proof.
  intros Hm [Hp Ho]. apply map_eq. intros id. rewrite lookup_fmap. destruct (patchKeys keys id) as [|k ks] eqn:Ek.
  - rewrite Ho, Hm, mid_full, Ek; [done|]. rewrite patchRecords_ids, Ek. intros Hne. by apply Hne.
  - assert (Hk : keys !! id = Some (k :: ks)) by (revert Ek; unfold patchKeys; destruct (keys !! id); cbn; [by intros ->|done]).
    destruct (Hpc id _ Hk ltac:(done)) as (_ & _ & _ & x0 & y & _ & Hy & _). destruct (patch_result id k ks y Hk Hy) as (x & Hx & Hr & Ep).
    destruct (Hp (builtChange id (k :: ks) (props y))) as (z & Hz & Hz'); [apply patchRecords_elem; by exists id, k, ks, y|].
    cbn [builtChange pc_ID] in Hz, Hz'. rewrite Hm, mid_full, Ek, Hx in Hz. injection Hz as <-. rewrite Hz', Hy. cbn [fmap option_fmap option_map]. f_equal.
    change (upd (img x) (patchProperties (elems (getP (img x))) (builtChange id (k :: ks) (props y))) = img y). rewrite Ep. apply Hupd; [done|].
    destruct (Hold id x Hx) as [-> _]. by destruct (Hnew id y Hy) as [-> _].
Qed.
End patched.

(** ** Metadata, indexes and streams *)

Lemma applyMetadata_lookup l : forall m, NoDup (map (fun c => elems (pmc_Key c)) l) ->
  (forall c, c ∈ l -> foldl applyMetadata m l !! elems (pmc_Key c) = if pmc_Delete c then None else Some (mkPMeta (pmc_Key c) (pmc_Value c))) /\
  (forall key, key ∉ map (fun c => elems (pmc_Key c)) l -> foldl applyMetadata m l !! key = m !! key).
Proof.
  induction l as [|c l IH]; intros m Hnd; [split; [by intros c Hc%elem_of_nil|done]|]. cbn [map] in Hnd. apply NoDup_cons in Hnd as [Hn Hnd].
  destruct (IH (applyMetadata m c) Hnd) as [H1 H2]. cbn [foldl map]. split.
  - intros c' [->|Hc']%elem_of_cons; [|by apply H1]. rewrite H2 by done. unfold applyMetadata. destruct (pmc_Delete c); [apply lookup_delete_eq|apply lookup_insert_eq].
  - intros key [Hne Hk]%not_elem_of_cons. rewrite H2 by done. unfold applyMetadata. destruct (pmc_Delete c); [by rewrite lookup_delete_ne|by rewrite lookup_insert_ne].
Qed.

Lemma metaKeys changes : map (fun c => elems (pmc_Key c)) (merge_sort metaChangeLe (map toMetaChange changes)) ≡ₚ map (fun c => elems (mc_Key c)) changes.
Proof. rewrite (merge_sort_Permutation metaChangeLe). by rewrite map_map. Qed.

Lemma metadata_replayed old new changes : metadataChanges old new changes ->
  foldl applyMetadata (imageMetadata old) (merge_sort metaChangeLe (map toMetaChange changes)) = imageMetadata new.
Proof.
  intros [Hk Hv Hset Hsame]. destruct (applyMetadata_lookup (merge_sort metaChangeLe (map toMetaChange changes)) (imageMetadata old)) as [H1 H2]; [by rewrite metaKeys|].
  apply map_eq. intros key. destruct (decide (key ∈ map (fun c => elems (mc_Key c)) changes)) as [Hin|Hin].
  - apply list_elem_of_fmap in Hin as (c & -> & Hc). assert (E := H1 (toMetaChange c) ltac:(rewrite (merge_sort_Permutation metaChangeLe); by apply list_elem_of_fmap_2)).
    cbn [toMetaChange pmc_Key pmc_Value pmc_Delete] in E. rewrite E, imageMetadata_lookup.
    specialize (Hset c Hc). destruct (mc_Delete c); [by destruct Hset as [_ ->]|]. rewrite Hset. cbn. do 2 f_equal.
    rewrite Forall_forall in Hv. specialize (Hv c Hc). destruct (mc_Key c) as [k|]; [done|]. vm_compute in Hv. discriminate.
  - rewrite H2 by (by rewrite metaKeys). rewrite !imageMetadata_lookup. by rewrite Hsame.
Qed.

Lemma metadata_fits old new changes : metadataChanges old new changes ->
  Forall metadataChangeOK (merge_sort metaChangeLe (map toMetaChange changes)) /\
  NoDup (map (fun c => elems (pmc_Key c)) (merge_sort metaChangeLe (map toMetaChange changes))).
Proof.
  intros [Hk Hv Hset _]. split; [|by rewrite metaKeys]. rewrite (merge_sort_Permutation metaChangeLe). apply List.Forall_map. rewrite Forall_forall in Hv |- *. intros c Hc.
  specialize (Hv c Hc). unfold validMetadataKey in Hv. apply andb_true_iff in Hv as [H1%N.ltb_lt H2%N.leb_le]. rewrite <- slen_elems in H1. rewrite <- slen_elems in H2. split; [done|].
  cbn [toMetaChange pmc_Delete pmc_Value]. intros Hdel. specialize (Hset c Hc). rewrite Hdel in Hset. by destruct Hset.
Qed.

Lemma dropIndexes_all l : forall active, NoDup (map indexKey l) -> Forall (fun d => emptyDefinition d = false /\ indexKey d ∈ active) l ->
  foldError dropIndex active l = inl (active ∖ list_to_set (map indexKey l)).
Proof.
  induction l as [|d l IH]; intros active Hnd Hl; [cbn; by rewrite difference_empty_L|]. cbn [map] in Hnd. apply NoDup_cons in Hnd as [Hn Hnd]. apply Forall_cons in Hl as [[He Ha] Hl].
  cbn [foldError]. unfold dropIndex at 1. rewrite He, bool_decide_true by done. cbn [negb]. rewrite IH; [|done|].
  - cbn [map list_to_set]. by rewrite difference_difference_l_L.
  - rewrite Forall_forall in Hl |- *. intros d' Hd'. destruct (Hl d' Hd') as [? ?]. split; [done|]. apply elem_of_difference. split; [done|].
    rewrite elem_of_singleton. intros E. apply Hn. rewrite <- E. by apply list_elem_of_fmap_2.
Qed.

Lemma createIndexes_all l : forall active, NoDup (map indexKey l) -> Forall (fun d => emptyDefinition d = false /\ indexKey d ∉ active) l ->
  foldError createIndex active l = inl (list_to_set (map indexKey l) ∪ active).
Proof.
  induction l as [|d l IH]; intros active Hnd Hl; [cbn; by rewrite union_empty_l_L|]. cbn [map] in Hnd. apply NoDup_cons in Hnd as [Hn Hnd]. apply Forall_cons in Hl as [[He Ha] Hl].
  cbn [foldError]. unfold createIndex at 1. rewrite He, bool_decide_false by done. rewrite IH; [|done|].
  - f_equal. cbn [map list_to_set]. apply set_eq. intros k. rewrite !elem_of_union. tauto.
  - rewrite Forall_forall in Hl |- *. intros d' Hd'. destruct (Hl d' Hd') as [? Hn']. split; [done|]. rewrite elem_of_union, elem_of_singleton. intros [E|]; [|done].
    apply Hn. rewrite <- E. by apply list_elem_of_fmap_2.
Qed.

Lemma definitions_keys l : map indexKey (elems (persistedPropertyIndexDefinitions l)) ≡ₚ l.
Proof.
  cbn [persistedPropertyIndexDefinitions elems default from_option id]. rewrite (merge_sort_Permutation indexLe), map_map. replace (map _ l) with l; [done|].
  rewrite <- (map_id l) at 1. apply map_ext. intros k. by rewrite toDefinition_key.
Qed.

Lemma definitions_Forall (Q : indexName -> Prop) l : Forall Q l -> Forall (fun d => Q (indexKey d)) (elems (persistedPropertyIndexDefinitions l)).
Proof.
  intros H. cbn [persistedPropertyIndexDefinitions elems default from_option id]. rewrite (merge_sort_Permutation indexLe). apply List.Forall_map. eapply Forall_impl; [exact H|].
  intros k Hk. by rewrite toDefinition_key.
Qed.

Lemma completeKey_def d : completeKey (indexKey d) <-> emptyDefinition d = false.
Proof. done. Qed.

Lemma indexes_replayed old new creates drops definitions : indexChanges old new creates drops -> set_Forall completeKey old -> set_Forall completeKey new ->
  elems definitions = imageIndexes old ->
  exists l, applyPropertyIndexDelta definitions (persistedPropertyIndexDefinitions creates) (persistedPropertyIndexDefinitions drops) = inl l /\ elems l = imageIndexes new.
Proof.
  intros [Hc Hd Ho Hf Hn] Co Cn E. unfold applyPropertyIndexDelta. rewrite E, imageIndexes_set. rewrite dropIndexes_all.
  - rewrite createIndexes_all.
    + eexists. split; [reflexivity|]. rewrite refill_elems. unfold imageIndexes, toDefinition. do 3 f_equal. apply set_eq. intros k.
      rewrite elem_of_union, elem_of_difference, !elem_of_list_to_set, !definitions_keys, Hn. done.
    + by rewrite definitions_keys.
    + eapply Forall_impl; [apply (definitions_Forall (fun k => completeKey k /\ k ∉ old ∖ list_to_set (map indexKey (elems (persistedPropertyIndexDefinitions drops)))))|by intros d [? ?]].
      apply Forall_forall. intros k Hk. split; [apply Cn, Hn; by left|]. rewrite elem_of_difference, elem_of_list_to_set, definitions_keys. intros [H1 H2]. by apply H2, Hf.
  - by rewrite definitions_keys.
  - eapply Forall_impl; [apply (definitions_Forall (fun k => completeKey k /\ k ∈ old))|by intros d [? ?]]. apply Forall_forall. intros k Hk. split; [by apply Co, Ho|by apply Ho].
Qed.

(** The stream part of a delta, and what it does to a store with the old contents. *)
Lemma streams_replayed (base g : graphState) changes s a : streamChanges (g_Streams base) (g_Streams g) (gd_StreamsChanged changes) (gd_StreamOperations changes) ->
  (exists a', storeOK (g_Streams g) a' /\ storableStore a') -> storeOK s a -> storeOK (g_Streams base) a -> storableStore a ->
  exists streams operations s' a', buildStreams g changes = inl (streams, operations) /\ (streams = None \/ slen operations = 0) /\
    (forall acc delta, acc_streams acc = s -> dl_Streams delta = streams -> dl_StreamOperations delta = operations -> applyStreams acc delta = inl s') /\
    storeOK s' a' /\ storeOK (g_Streams g) a' /\ storableStore a'.
Proof.
  intros [(E1 & E2 & E3)|[(E1 & E2)|(Hne & tx & Hr & E1 & E3)]] (a1 & Hg & Hst1) Hs Hb Hst; unfold buildStreams.
  - rewrite E1, E2. exists None, None, s, a. rewrite E3. split_and!; try done; [by left|]. intros acc delta H1 H2 H3. unfold applyStreams. by rewrite H2, H3, H1.
  - rewrite E1, E2, (buildPersistedStreams_ok _ a1 Hg Hst1). cbn [wrapped]. destruct (decodePersistedStreams_ok _ a1 Hg Hst1) as (s' & Hd & Hs').
    exists (Some (image a1)), None, s', a1. split_and!; try done; [by right|]. intros acc delta H1 H2 H3. unfold applyStreams. by rewrite H2, Hd.
  - destruct (records_replay_elsewhere (g_Streams base) s a tx Hb Hs Hst Hr) as (a' & ps & s' & T1 & T2 & T3 & T4 & T5). rewrite <- E1 in T3. rewrite <- E3 in T1.
    exists None, (Some ps), s', a'. destruct (gd_StreamOperations changes) as [|op l]; [done|]. rewrite T3. cbn [wrapped]. split_and!; try done; [by left|].
    intros acc delta H1 H2 H3. unfold applyStreams. rewrite H2, H3. cbn [elems default from_option id]. destruct ps as [|p ps]; [cbn in T4; congruence|]. by rewrite H1, T4.
Qed.

(** * A commit, logged and replayed

    The delta a commit logs is accepted by recovery and turns the image of the graph
    before into the image of the graph after. *)

Section commit.
Context (base g : graphState) (bn be nn ne commit : N) (changes : GraphDelta) (acc : walAccumulator).
Context (Hbase : wfGraph base bn be) (Hw : wfGraph g nn ne) (Hch : changesOK base g changes) (Him : imageOf base bn be commit acc).
Context (streams : option persistedStreams) (operations : slice persistedStreamOperation).

Abbreviation delta := (deltaOf g nn ne (commit + 1) changes streams operations).
Abbreviation nodeKeys := (gd_NodePropertyKeys changes).
Abbreviation edgeKeys := (gd_EdgePropertyKeys changes).

Lemma nodes_wf h hn he : wfGraph h hn he -> map_Forall (fun id r => pn_ID (imageNode r) = id /\ ValidateEntityID id = None /\ storable (n_Properties r)) (g_Nodes h).
Proof. clear. intros Hh id n Hn. destruct (wg_nodes _ _ _ Hh id n Hn) as (? & ? & _ & ? & _). done. Qed.
Lemma edges_wf h hn he : wfGraph h hn he -> map_Forall (fun id r => pe_ID (imageEdge r) = id /\ ValidateEntityID id = None /\ storable (e_Properties r)) (g_Edges h).
Proof. clear. intros Hh id e He. destruct (wg_edges _ _ _ Hh id e He) as (? & ? & _ & ? & _). done. Qed.

Lemma upsertNodes_list : elems (dl_UpsertNodes delta) = omap (fullAt imageNode (g_Nodes g) nodeKeys) (sortedIDs (gd_UpsertNodes changes)).
Proof. clear. apply grown_elems. Qed.
Lemma upsertEdges_list : elems (dl_UpsertEdges delta) = omap (fullAt imageEdge (g_Edges g) edgeKeys) (sortedIDs (gd_UpsertEdges changes)).
Proof. clear. apply grown_elems. Qed.
Lemma upsertFTS_list : elems (dl_UpsertFTS delta) = omap (fun id => imageFTS (g_FTS g) !! id) (sortedIDs (gd_UpsertFTS changes)).
Proof. clear. apply appended_elems. Qed.

Lemma fullNode_key id x : fullAt imageNode (g_Nodes g) nodeKeys id = Some x -> pn_ID x = id.
Proof. clear -Hw. eapply fullAt_key. by eapply nodes_wf. Qed.
Lemma fullEdge_key id x : fullAt imageEdge (g_Edges g) edgeKeys id = Some x -> pe_ID x = id.
Proof. clear -Hw. eapply fullAt_key. by eapply edges_wf. Qed.
Lemma text_key id x : imageFTS (g_FTS g) !! id = Some x -> pf_NodeID x = id.
Proof. clear. rewrite imageFTS_lookup. by intros (t & _ & ->)%fmap_Some. Qed.

Lemma deltaNodes_at id : deltaNodes acc delta !! id =
  midAt (fullAt imageNode (g_Nodes g) nodeKeys) (imageNode <$> g_Nodes base) (elems (gd_UpsertNodes changes)) (elems (gd_DeleteNodes changes)) id.
Proof.
  unfold deltaNodes. rewrite upsertNodes_list, (im_nodes _ _ _ _ _ Him).
  exact (upsert_then_delete _ _ fullNode_key _ _ _ _ _ _ _ (ch_nodes _ _ _ Hch) (sortedIDs_perm _) (sortedClone_perm _) id).
Qed.
Lemma deltaEdges_at id : deltaEdges acc delta !! id =
  midAt (fullAt imageEdge (g_Edges g) edgeKeys) (imageEdge <$> g_Edges base) (elems (gd_UpsertEdges changes)) (elems (gd_DeleteEdges changes)) id.
Proof.
  unfold deltaEdges. rewrite upsertEdges_list, (im_edges _ _ _ _ _ Him).
  exact (delete_then_upsert _ _ fullEdge_key _ _ _ _ _ _ _ (ch_edges _ _ _ Hch) (sortedIDs_perm _) (sortedClone_perm _) id).
Qed.

Lemma deltaFTS_new : deltaFTS acc delta = imageFTS (g_FTS g).
Proof.
  apply map_eq. intros id. unfold deltaFTS. rewrite upsertFTS_list, (im_fts _ _ _ _ _ Him).
  refine (eq_trans (delete_then_upsert _ _ text_key _ _ _ _ _ _ _ (ch_fts _ _ _ Hch) (sortedIDs_perm _) (sortedClone_perm _) id) _).
  destruct (ch_fts _ _ _ Hch) as [_ Hu Hd Hs]. unfold midAt. rewrite !imageFTS_lookup. destruct (decide (id ∈ elems (gd_DeleteFTS changes))) as [Hin|Hin]; [by destruct (Hd id Hin) as [_ ->]|].
  destruct (decide (id ∈ elems (gd_UpsertFTS changes))) as [Hi|Hi]; [by destruct (Hu id Hi) as [t ->]|]. by rewrite Hs.
Qed.

(** A node is there after the delta exactly when the new graph has it; edges keep the
    ends they have there. *)
Lemma node_present id : is_Some (deltaNodes acc delta !! id) <-> is_Some (g_Nodes g !! id).
Proof.
  rewrite deltaNodes_at, (mid_full _ _ _ _ _ _ _ _ (ch_nodes _ _ _ Hch) (ch_nodePatches _ _ _ Hch)). destruct (patchKeys nodeKeys id) as [|k ks] eqn:Ek; [apply fmap_is_Some|].
  pose proof (ch_nodePatches _ _ _ Hch) as Hp. apply (patchKeys_some _ _ _ _ _ _ _ _ _ Hp) in Ek. destruct (Hp id _ Ek ltac:(done)) as (_ & _ & _ & x & y & -> & -> & _).
  split; by eexists.
Qed.

Lemma edge_ends id e : deltaEdges acc delta !! id = Some e -> is_Some (g_Nodes g !! pe_SourceID e) /\ is_Some (g_Nodes g !! pe_TargetID e).
Proof.
  rewrite deltaEdges_at, (mid_full _ _ _ _ _ _ _ _ (ch_edges _ _ _ Hch) (ch_edgePatches _ _ _ Hch)). destruct (patchKeys edgeKeys id) as [|k ks] eqn:Ek.
  - intros (r & Hr & ->)%fmap_Some. exact (wg_ends _ _ _ Hw id r Hr).
  - pose proof (ch_edgePatches _ _ _ Hch) as Hp. apply (patchKeys_some _ _ _ _ _ _ _ _ _ Hp) in Ek. destruct (Hp id _ Ek ltac:(done)) as (_ & _ & _ & x & y & -> & Hy & (H1 & H2 & _) & _).
    intros [= <-]. cbn [imageEdge pe_SourceID pe_TargetID]. rewrite H1, H2. exact (wg_ends _ _ _ Hw id y Hy).
Qed.

Lemma deleted_node id : id ∈ elems (sortedClone (gd_DeleteNodes changes)) -> g_Nodes g !! id = None.
Proof. rewrite sortedClone_perm. intros Hid. by apply (ec_deletes _ _ _ _ (ch_nodes _ _ _ Hch)). Qed.

Lemma deleted_perm {A} (old new : gmap N A) upserts ids : entityChanges old new upserts (elems ids) -> NoDup (elems (sortedClone ids)).
Proof. clear. intros [Hnd _ _ _]. apply NoDup_app in Hnd as (Hnd & _). by rewrite sortedClone_perm. Qed.

Lemma deleted_exist {A B} (old new : gmap N A) (m : gmap N B) upserts ids : entityChanges old new upserts (elems ids) ->
  (forall id, is_Some (old !! id) -> is_Some (m !! id)) -> Forall (fun id => is_Some (m !! id)) (elems (sortedClone ids)).
Proof. clear. intros [_ _ Hd _] Hm. rewrite sortedClone_perm. apply Forall_forall. intros id Hid. by apply Hm, Hd. Qed.

Lemma before_deletes id : is_Some (g_Nodes g !! id) -> is_Some (upsertAll pn_ID (acc_nodes acc) (elems (dl_UpsertNodes delta)) !! id).
Proof.
  intros Hs. apply node_present in Hs. revert Hs. unfold deltaNodes. destruct (decide (id ∈ elems (dl_DeleteNodes delta))) as [Hin|Hin].
  - rewrite deleteAll_at by done. by intros [? ?].
  - by rewrite deleteAll_other.
Qed.

Lemma commit_entities : entitiesFit acc delta.
Proof.
  split.
  - by eapply deleted_perm, ch_nodes.
  - by eapply deleted_perm, ch_edges.
  - by eapply deleted_perm, ch_fts.
  - rewrite upsertNodes_list. apply omap_Forall. intros id x _ Hx. pose proof (fullNode_key _ _ Hx) as Ek. unfold fullAt in Hx. destruct (patchKeys nodeKeys id); [|done].
    apply fmap_Some in Hx as (r & Hr & ->). rewrite Ek. by eapply imageNode_ok.
  - rewrite upsertEdges_list. apply omap_Forall. intros id x _ Hx. pose proof (fullEdge_key _ _ Hx) as Ek. unfold fullAt in Hx. destruct (patchKeys edgeKeys id); [|done].
    apply fmap_Some in Hx as (r & Hr & ->). rewrite Ek. by destruct (imageEdge_ok _ _ _ _ _ Hw Hr).
  - eapply deleted_exist; [apply (ch_edges _ _ _ Hch)|]. intros id Hid. rewrite (im_edges _ _ _ _ _ Him). by apply image_is_some.
  - rewrite upsertEdges_list. apply omap_Forall. intros id x _ Hx. unfold fullAt in Hx. destruct (patchKeys edgeKeys id); [|done]. apply fmap_Some in Hx as (r & Hr & ->).
    destruct (wg_ends _ _ _ Hw id r Hr) as [H1 H2]. split; by apply before_deletes.
  - eapply deleted_exist; [apply (ch_nodes _ _ _ Hch)|]. intros id Hid. rewrite (im_nodes _ _ _ _ _ Him). by apply image_is_some.
  - intros id k e Hid He. destruct (edge_ends k e He) as [H1 H2]. apply deleted_node in Hid. split; intros <-; [destruct H1|destruct H2]; congruence.
  - eapply deleted_exist; [apply (ch_fts _ _ _ Hch)|]. intros id Hid. rewrite (im_fts _ _ _ _ _ Him), imageFTS_lookup. by apply fmap_is_Some.
  - rewrite upsertFTS_list. apply omap_Forall. intros id x _. rewrite imageFTS_lookup. intros (text & Ht & ->)%fmap_Some. destruct (wg_fts _ _ _ Hw id text Ht) as [Hs Hv].
    split; [by apply node_present|done].
  - intros id Hid. rewrite deltaFTS_new, imageFTS_lookup. apply deleted_node in Hid. destruct (g_FTS g !! id) as [t|] eqn:Et; [|done].
    destruct (wg_fts _ _ _ Hw id t Et) as [[n Hn] _]. congruence.
Qed.

Context (Hgrow : bn <= nn /\ be <= ne).

Lemma validUpsertNode n id : g_Nodes g !! id = Some n -> validateUpsertNode (imageNode n) = None.
Proof.
  intros Hn. destruct (imageNode_ok _ _ _ _ _ Hw Hn) as [_ _ Hl [Hs Hp]]. unfold validateUpsertNode. rewrite Hl. cbn [wrapErr option_map].
  pose proof (decodePropertyMap_exact _ Hs) as Hd. rewrite Hp in Hd. destruct Hd as [out ->]. done.
Qed.
Lemma validUpsertEdge e id : g_Edges g !! id = Some e -> validateUpsertEdge (imageEdge e) = None.
Proof.
  intros He. destruct (imageEdge_ok _ _ _ _ _ Hw He) as [_ _ Ht _ _ [Hs Hp]]. unfold validateUpsertEdge. rewrite Ht. cbn [wrapErr option_map].
  pose proof (decodePropertyMap_exact _ Hs) as Hd. rewrite Hp in Hd. destruct Hd as [out ->]. done.
Qed.

Lemma commit_fits s' : (streams = None \/ slen operations = 0) -> applyStreams acc delta = inl s' -> deltaFits acc delta.
Proof.
  intros Hmix Hs. destruct (im_next _ _ _ _ _ Him) as [En Ee]. split.
  - split; [apply (wg_nextNode _ _ _ Hw)|apply (wg_nextEdge _ _ _ Hw)].
  - rewrite En, Ee. exact Hgrow.
  - rewrite upsertNodes_list. eapply unique_records; [exact fullNode_key|apply (ch_nodes _ _ _ Hch)|apply sortedIDs_perm|apply sortedClone_perm|by eapply nodes_changed].
  - rewrite upsertEdges_list. eapply unique_records; [exact fullEdge_key|apply (ch_edges _ _ _ Hch)|apply sortedIDs_perm|apply sortedClone_perm|by eapply edges_changed].
  - rewrite upsertFTS_list. eapply unique_records; [exact text_key|apply (ch_fts _ _ _ Hch)|apply sortedIDs_perm|apply sortedClone_perm|by eapply fts_changed].
  - rewrite upsertEdges_list. apply omap_Forall. intros id x _ Hx. unfold fullAt in Hx. destruct (patchKeys edgeKeys id); [|done]. apply fmap_Some in Hx as (r & Hr & ->).
    destruct (wg_ends _ _ _ Hw id r Hr) as [H1 H2]. split; by eapply node_valid.
  - exact Hmix.
  - change (elems (dl_AppMetadata delta)) with (elems (appended (merge_sort metaChangeLe (map toMetaChange (gd_AppMetadata changes))))). rewrite appended_elems.
    eapply metadata_fits. apply (ch_metadata _ _ _ Hch).
  - by exists s'.
  - destruct (indexes_replayed _ _ _ _ _ (ch_nodeIndexes _ _ _ Hch) (wg_nodeIndexes _ _ _ Hbase) (wg_nodeIndexes _ _ _ Hw) (im_nodeIndexes _ _ _ _ _ Him)) as (l & Hl & _). by exists l.
  - destruct (indexes_replayed _ _ _ _ _ (ch_edgeIndexes _ _ _ Hch) (wg_edgeIndexes _ _ _ Hbase) (wg_edgeIndexes _ _ _ Hw) (im_edgeIndexes _ _ _ _ _ Him)) as (l & Hl & _). by exists l.
  - rewrite upsertNodes_list. apply omap_Forall. intros id x _ Hx. pose proof (fullNode_key _ _ Hx) as Ek. unfold fullAt in Hx. destruct (patchKeys nodeKeys id); [|done].
    apply fmap_Some in Hx as (r & Hr & ->). split; [by eapply validUpsertNode|]. rewrite Ek. by apply (wg_nodes _ _ _ Hw id r Hr).
  - rewrite upsertEdges_list. apply omap_Forall. intros id x _ Hx. pose proof (fullEdge_key _ _ Hx) as Ek. unfold fullAt in Hx. destruct (patchKeys edgeKeys id); [|done].
    apply fmap_Some in Hx as (r & Hr & ->). split; [by eapply validUpsertEdge|]. rewrite Ek. by apply (wg_edges _ _ _ Hw id r Hr).
  - exact commit_entities.
Qed.

Lemma commit_patches : patchesFit acc delta.
Proof.
  assert (E1 : elems (dl_NodePropertyChanges delta) = patchRecords n_Properties (g_Nodes g) nodeKeys (sortedIDs (gd_UpsertNodes changes))) by apply grown_elems.
  assert (E2 : elems (dl_EdgePropertyChanges delta) = patchRecords e_Properties (g_Edges g) edgeKeys (sortedIDs (gd_UpsertEdges changes))) by apply grown_elems.
  split; rewrite ?E1, ?E2.
  - rewrite upsertNodes_list, (im_nodes _ _ _ _ _ Him). eapply patches_fit; [apply (ch_nodes _ _ _ Hch)|apply (ch_nodePatches _ _ _ Hch)|apply sortedIDs_perm|apply sortedClone_perm|by eapply nodes_wf|by eapply nodes_wf|done].
  - rewrite upsertEdges_list, (im_edges _ _ _ _ _ Him). eapply patches_fit; [apply (ch_edges _ _ _ Hch)|apply (ch_edgePatches _ _ _ Hch)|apply sortedIDs_perm|apply sortedClone_perm|by eapply edges_wf|by eapply edges_wf|done].
  - eapply patchRecords_nodup; [apply (ch_nodes _ _ _ Hch)|apply sortedIDs_perm].
  - eapply patchRecords_nodup; [apply (ch_edges _ _ _ Hch)|apply sortedIDs_perm].
Qed.
End commit.

(** ** Replay *)

Lemma storePrepared_rest l : forall acc, acc_state (foldl storePrepared acc l) = acc_state acc /\ acc_streams (foldl storePrepared acc l) = acc_streams acc /\
  acc_metadata (foldl storePrepared acc l) = acc_metadata acc /\ acc_fts (foldl storePrepared acc l) = acc_fts acc.
Proof.
  induction l as [|p l IH]; intros acc; [done|]. cbn [foldl]. destruct (IH (storePrepared acc p)) as (-> & -> & -> & ->). unfold storePrepared. by destruct (negb _).
Qed.

Lemma image_withTotals g nn ne commit acc nt et : imageOf g nn ne commit acc -> accOK (withTotals acc nt et) -> imageOf g nn ne commit (withTotals acc nt et).
Proof. intros [] Hok. by split. Qed.

(** A delta without patches, whatever it was before they were taken out. *)
Definition plain (d delta : persistedDelta) : Prop := d = delta \/ d = clearPropertyChanges delta.

Section replayed.
Context (base g : graphState) (bn be nn ne commit : N) (changes : GraphDelta) (acc : walAccumulator).
Context (Hbase : wfGraph base bn be) (Hw : wfGraph g nn ne) (Hch : changesOK base g changes) (Him : imageOf base bn be commit acc).
Context (streams : option persistedStreams) (operations : slice persistedStreamOperation) (s' : StreamStore) (a' : absStore).
Context (Hs : applyStreams acc (deltaOf g nn ne (commit + 1) changes streams operations) = inl s').
Context (Hs' : storeOK s' a') (Hg : storeOK (g_Streams g) a') (Hst : storableStore a').

Abbreviation delta := (deltaOf g nn ne (commit + 1) changes streams operations).

Lemma commit_image d a2 acc' : plain d delta -> apply acc d = inl a2 -> accOK acc' ->
  acc_state acc' = acc_state a2 -> acc_streams acc' = acc_streams a2 -> acc_metadata acc' = acc_metadata a2 -> acc_fts acc' = acc_fts a2 ->
  acc_nodes acc' = imageNode <$> g_Nodes g -> acc_edges acc' = imageEdge <$> g_Edges g -> imageOf g nn ne (commit + 1) acc'.
Proof.
  intros Hd Ha Hok Est Estr Em Ef En Ee.
  destruct (indexes_replayed _ _ _ _ _ (ch_nodeIndexes _ _ _ Hch) (wg_nodeIndexes _ _ _ Hbase) (wg_nodeIndexes _ _ _ Hw) (im_nodeIndexes _ _ _ _ _ Him)) as (l1 & L1 & I1).
  destruct (indexes_replayed _ _ _ _ _ (ch_edgeIndexes _ _ _ Hch) (wg_edgeIndexes _ _ _ Hbase) (wg_edgeIndexes _ _ _ Hw) (im_edgeIndexes _ _ _ _ _ Him)) as (l2 & L2 & I2).
  pose proof (metadata_replayed _ _ _ (ch_metadata _ _ _ Hch)) as M. rewrite <- (im_metadata _ _ _ _ _ Him) in M.
  assert (F : deltaFTS acc d = imageFTS (g_FTS g)) by (rewrite <- (deltaFTS_new _ _ _ _ nn ne _ _ _ Hch Him streams operations); by destruct Hd as [->| ->]).
  destruct (apply_maps _ _ _ Ha) as (_ & _ & Mf). apply apply_inv in Ha as [_ A1 A2 A3 A4 _ _ _ A5 A6 A7 A8].
  assert (Hd' : dl_AppMetadata d = dl_AppMetadata delta /\ applyStreams acc d = applyStreams acc delta /\ dl_NextNodeID d = nn /\ dl_NextEdgeID d = ne /\ dl_CommitID d = commit + 1 /\
    applyPropertyIndexDelta (st_NodeIndexes (acc_state acc)) (dl_CreateNodeIndexes d) (dl_DropNodeIndexes d) = inl l1 /\
    applyPropertyIndexDelta (st_EdgeIndexes (acc_state acc)) (dl_CreateEdgeIndexes d) (dl_DropEdgeIndexes d) = inl l2) by (by destruct Hd as [->| ->]).
  destruct Hd' as (D1 & D2 & D3 & D4 & D5 & D6 & D7). rewrite D1 in A2. rewrite D2, Hs in A1. rewrite D6 in A3. rewrite D7 in A4. rewrite D3, D4 in A5. rewrite D5 in A6.
  change (elems (dl_AppMetadata delta)) with (elems (appended (merge_sort metaChangeLe (map toMetaChange (gd_AppMetadata changes))))) in A2. rewrite appended_elems, M in A2.
  injection A1 as A1. injection A3 as A3. injection A4 as A4. destruct A5 as [A5 A5'].
  split; rewrite ?Est, ?Estr, ?Em, ?Ef; try done.
  - by rewrite Mf.
  - by rewrite <- A3.
  - by rewrite <- A4.
  - rewrite A7, (im_database _ _ _ _ _ Him). symmetry. apply (ch_database _ _ _ Hch).
  - rewrite A8, (im_dimensions _ _ _ _ _ Him). symmetry. apply (ch_dimensions _ _ _ Hch).
  - exists a'. by rewrite <- A1.
Qed.

Lemma commit_wf : wfNodes (dl_UpsertNodes delta) /\ wfEdges (dl_UpsertEdges delta).
Proof.
  destruct (commit_entities base g bn be nn ne commit changes acc Hw Hch Him streams operations) as [_ _ _ Hn He _ _ _ _ _ _ _]. split.
  - eapply Forall_impl; [exact Hn|]. by intros n [_ _ _ [? _]].
  - eapply Forall_impl; [exact He|]. by intros e (_ & _ & ? & _).
Qed.

Lemma nodes_final m' : patchedMap withNodeProps pn_Properties (deltaNodes acc delta) m' (elems (dl_NodePropertyChanges delta)) -> m' = imageNode <$> g_Nodes g.
Proof.
  change (elems (dl_NodePropertyChanges delta)) with (elems (grown None (patchRecords n_Properties (g_Nodes g) (gd_NodePropertyKeys changes) (sortedIDs (gd_UpsertNodes changes))))).
  rewrite grown_elems. intros Hp. eapply (patched_final n_Properties imageNode pn_ID pn_Properties withNodeProps); [apply (ch_nodes _ _ _ Hch)|apply (ch_nodePatches _ _ _ Hch)|apply sortedIDs_perm|by eapply nodes_wf|
    by eapply nodes_wf|reflexivity| |by eapply deltaNodes_at|exact Hp].
  intros x y Hr E. unfold withNodeProps, imageNode in *. cbn [pn_ID pn_Labels] in *. rewrite E. unfold CloneStrings. by rewrite Hr.
Qed.

Lemma edges_final m' : patchedMap withEdgeProps pe_Properties (deltaEdges acc delta) m' (elems (dl_EdgePropertyChanges delta)) -> m' = imageEdge <$> g_Edges g.
Proof.
  change (elems (dl_EdgePropertyChanges delta)) with (elems (grown None (patchRecords e_Properties (g_Edges g) (gd_EdgePropertyKeys changes) (sortedIDs (gd_UpsertEdges changes))))).
  rewrite grown_elems. intros Hp. eapply (patched_final e_Properties imageEdge pe_ID pe_Properties withEdgeProps); [apply (ch_edges _ _ _ Hch)|apply (ch_edgePatches _ _ _ Hch)|apply sortedIDs_perm|by eapply edges_wf|
    by eapply edges_wf|reflexivity| |by eapply deltaEdges_at|exact Hp].
  intros x y (H1 & H2 & H3) E. unfold withEdgeProps, imageEdge in *. cbn [pe_ID pe_SourceID pe_TargetID pe_Type] in *. by rewrite E, H1, H2, H3.
Qed.

Context (Hmix : streams = None \/ slen operations = 0) (Hgrow : bn <= nn /\ be <= ne).

Lemma fits : deltaFits acc delta.
Proof. exact (commit_fits base g bn be nn ne commit changes acc Hbase Hw Hch Him streams operations Hgrow s' Hmix Hs). Qed.

(** A delta without patches. *)
Lemma plain_replays : hasPropertyDelta delta = false -> exists acc', apply acc delta = inl acc' /\ imageOf g nn ne (commit + 1) acc'.
Proof.
  intros Hnone. destruct (apply_total acc delta (im_ok _ _ _ _ _ Him) fits) as [acc' Ha]. exists acc'. split; [done|]. destruct commit_wf as [Wn We].
  destruct (apply_maps _ _ _ Ha) as (Mn & Me & _). apply orb_false_iff in Hnone as [N1%negb_false_iff%N.eqb_eq N2%negb_false_iff%N.eqb_eq].
  assert (Hnil : forall {A} (l : slice A), slen l = 0 -> elems l = []) by (intros A [[|x l]|]; done).
  eapply (commit_image delta acc' acc'); try done; [by left|eapply apply_ok; [apply (im_ok _ _ _ _ _ Him)|done|done|exact Ha]|..].
  - apply nodes_final. rewrite Mn, (Hnil _ _ N1). split; [by intros c Hc%elem_of_nil|done].
  - apply edges_final. rewrite Me, (Hnil _ _ N2). split; [by intros c Hc%elem_of_nil|done].
Qed.
End replayed.

Section patched.
Context (base g : graphState) (bn be nn ne commit : N) (changes : GraphDelta) (acc : walAccumulator).
Context (Hbase : wfGraph base bn be) (Hw : wfGraph g nn ne) (Hch : changesOK base g changes) (Him : imageOf base bn be commit acc).
Context (streams : option persistedStreams) (operations : slice persistedStreamOperation) (s' : StreamStore) (a' : absStore).
Context (Hs : applyStreams acc (deltaOf g nn ne (commit + 1) changes streams operations) = inl s').
Context (Hs' : storeOK s' a') (Hg : storeOK (g_Streams g) a') (Hst : storableStore a').
Context (Hmix : streams = None \/ slen operations = 0) (Hgrow : bn <= nn /\ be <= ne).
Abbreviation delta := (deltaOf g nn ne (commit + 1) changes streams operations).

Lemma patches_replay : exists acc', applyPropertyDelta acc delta = inl acc' /\ imageOf g nn ne (commit + 1) acc'.
Proof.
  pose proof (im_ok _ _ _ _ _ Him) as Hok. assert (Hp : patchesFit acc delta) by exact (commit_patches base g bn be nn ne commit changes acc Hbase Hw Hch Him streams operations).
  destruct (applyPropertyDelta_total acc delta Hok) as [acc' Ha]; [exact (fits base g bn be nn ne commit changes acc Hbase Hw Hch Him streams operations s' Hs Hmix Hgrow)|done|]. exists acc'. split; [done|].
  destruct (commit_wf _ _ _ _ _ _ _ _ _ Hw Hch Him streams operations) as [Wn We].
  assert (Hwc : wfChanges (dl_NodePropertyChanges delta) /\ wfChanges (dl_EdgePropertyChanges delta)).
  { destruct Hp as [Pn Pe _ _]. split; (eapply Forall_impl; [eassumption|]; by intros c []). } destruct Hwc as [Cn Ce].
  pose proof (applyPropertyDelta_maps _ _ _ Hok Cn Ce Ha) as [Mn Me]. assert (Hok' : accOK acc') by (by eapply applyPropertyDelta_ok).
  revert Ha. unfold applyPropertyDelta. destruct (wrapped _ (preparePropertyDelta acc delta)) as [[prepared a1]|] eqn:E1; [|done]. apply wrapped_inl in E1.
  destruct (preparePropertyDelta_ok _ _ _ _ _ _ (ok_graph _ Hok) Cn Ce E1) as (nt & et & ns & es & -> & Hgr & _).
  destruct (wrapped _ (apply _ _)) as [a2|] eqn:E2; [|done]. apply wrapped_inl in E2. intros [= <-].
  destruct (storePrepared_rest prepared a2) as (R1 & R2 & R3 & R4).
  assert (Him' : imageOf base bn be commit (withTotals acc nt et)) by (apply image_withTotals; [done|by apply accOK_withTotals]).
  eapply (commit_image base g bn be nn ne commit changes (withTotals acc nt et) Hbase Hw Hch Him' streams operations s' a' Hs Hs' Hg Hst (clearPropertyChanges delta) a2); try done; [by right| |].
  - exact (nodes_final base g bn be nn ne commit changes acc Hbase Hw Hch Him streams operations _ Mn).
  - exact (edges_final base g bn be nn ne commit changes acc Hbase Hw Hch Him streams operations _ Me).
Qed.
End patched.

(** ** The frame of a commit *)

Definition unlimited (b : recoveryBudget) : Prop := rb_limits b = mkLimits 0 0 0.

Lemma replayWork_unlimited b amount : unlimited b -> exists b', replayWork b amount = inl b' /\ unlimited b'.
Proof. unfold unlimited, replayWork, charge. intros ->. by eexists. Qed.

Lemma not_regressed acc database commit : st_DatabaseID (acc_state acc) = database -> st_CommitID (acc_state acc) = commit -> commit < max_uint64 ->
  regressed acc database (commit + 1) = false.
Proof.
  intros E1 E2 Hc. unfold regressed. rewrite E1, E2, bool_decide_true, (proj2 (N.eqb_neq _ _)) by (done || lia). unfold max_uint64 in Hc. rewrite u64_small by lia. by rewrite N.eqb_refl.
Qed.

Lemma commit_replays generateID checkpoint base g bn be nn ne commit changes acc :
  wfGraph base bn be -> wfGraph g nn ne -> changesOK base g changes -> bn <= nn /\ be <= ne -> commit < max_uint64 -> imageOf base bn be commit acc ->
  exists delta acc', buildPersistedDelta generateID g nn ne (commit + 1) changes = inl (delta, g) /\
    dl_DatabaseID delta = g_DatabaseID g /\ dl_CommitID delta = commit + 1 /\ imageOf g nn ne (commit + 1) acc' /\
    forall b, unlimited b -> exists b', replayPayload checkpoint (Some acc) b (g_DatabaseID g) (commit + 1) (deltaPayload delta) = inl (acc', b') /\ unlimited b'.
Proof.
  intros Hbase Hw Hch Hgrow Hc Him. destruct (im_streams _ _ _ _ _ Him) as (a & Ha1 & Ha2 & Ha3).
  destruct (streams_replayed base g changes (acc_streams acc) a (ch_streams _ _ _ Hch) (wg_streams _ _ _ Hw) Ha1 Ha2 Ha3)
    as (streams & operations & s' & a' & Bs & Hmix & Happ & Hs' & Hg' & Hst').
  set (delta := deltaOf g nn ne (commit + 1) changes streams operations).
  assert (Hd : st_DatabaseID (acc_state acc) = g_DatabaseID g) by (rewrite (im_database _ _ _ _ _ Him); symmetry; apply (ch_database _ _ _ Hch)).
  assert (Hreg : regressed acc (g_DatabaseID g) (commit + 1) = false) by (apply not_regressed; [done|apply (im_commit _ _ _ _ _ Him)|done]).
  assert (Hmeta : negb (dl_CommitID delta =? commit + 1) || negb (bool_decide (dl_DatabaseID delta = g_DatabaseID g)) = false) by (cbn [delta deltaOf dl_CommitID dl_DatabaseID]; by rewrite N.eqb_refl, bool_decide_true).
  exists delta. unfold deltaPayload. destruct (hasPropertyDelta delta) eqn:Ep.
  - destruct (propertyDeltaWork_total acc delta (im_ok _ _ _ _ _ Him)) as (work & nt & et & Ework).
    { exact (commit_patches base g bn be nn ne commit changes acc Hbase Hw Hch Him streams operations). }
    pose proof (propertyDeltaWork_ok _ _ _ _ (im_ok _ _ _ _ _ Him) Ework) as Hok'. pose proof (image_withTotals _ _ _ _ _ nt et Him Hok') as Him'.
    destruct (patches_replay base g bn be nn ne commit changes (withTotals acc nt et) Hbase Hw Hch Him' streams operations s' a') as (acc' & Eapp & Him2);
      [by apply Happ|done|done|done|done|done|].
    exists acc'. split; [by eapply buildPersistedDelta_ok|]. split_and!; try done. intros b Hb. destruct (replayWork_unlimited b work Hb) as (b' & Eb & Hb').
    exists b'. split; [|done]. cbn [replayPayload replayPropertyDelta]. rewrite Hmeta, Ep. cbn [negb]. rewrite Hreg, Ework, Eb. fold delta in Eapp. by rewrite Eapp.
  - destruct (plain_replays base g bn be nn ne commit changes acc Hbase Hw Hch Him streams operations s' a') as (acc' & Eapp & Him2);
      [by apply Happ|done|done|done|done|done|done|].
    exists acc'. split; [by eapply buildPersistedDelta_ok|]. split_and!; try done. intros b Hb. destruct (replayWork_unlimited b (persistedDeltaWork delta) Hb) as (b' & Eb & Hb').
    exists b'. split; [|done]. cbn [replayPayload replayDelta]. rewrite Hmeta, Ep, Hreg, Eb. fold delta in Eapp. by rewrite Eapp.
Qed.
