(* ===== verification/ShardMap.v ===== *)
(** * Shard maps (internal/store/store.go)

    A map from 64-bit identifiers in two levels of 256, each shard a Go map; bit sets say
    which shards are in use, and while at most two are they are also listed, so that
    iterating a small map does not scan the table.

    Shard maps are values here: a copied bucket or shard equals the one it was copied
    from. What [CloneShardOnce] leaves behind besides copies (a root, an empty bucket, the
    marks) is part of the model.

    Further down: shard maps are finite maps. *)
From S2P Require Import Prelude.
From S2P Require Import Bits.

Definition shardFanout : N := 256.

Record shardBucket (V : Type) := mkBucket { bk_values : list (option (gmap N V)); bk_active : list N }.
Arguments mkBucket {_} _ _.
Arguments bk_values {_} _.
Arguments bk_active {_} _.

Record ShardMap (V : Type) := mkShardMap {
  sm_root : option (list (option (shardBucket V)));
  sm_length : Z;
  clonedBuckets : list N;
  clonedShards : option (gset N);
  activeBuckets : list N;
  sm_smallActive : list N;
  smallCount : N;
  shardShift : N }.
Arguments mkShardMap {_} _ _ _ _ _ _ _ _.
Arguments sm_root {_} _.
Arguments sm_length {_} _.
Arguments clonedBuckets {_} _.
Arguments clonedShards {_} _.
Arguments activeBuckets {_} _.
Arguments sm_smallActive {_} _.
Arguments smallCount {_} _.
Arguments shardShift {_} _.

(** ** 256 bits in four words *)

Definition noBits : list N := [0; 0; 0; 0].
Definition word (ws : list N) (i : N) : N := default 0 (ws !! N.to_nat (i / 64)).
Definition testWord (ws : list N) (i : N) : bool := negb (N.land (word ws i) (shl64 1 (i mod 64)) =? 0).
Definition setWord (ws : list N) (i : N) : list N := <[N.to_nat (i / 64) := N.lor (word ws i) (shl64 1 (i mod 64))]> ws.
Definition clearWord (ws : list N) (i : N) : list N := <[N.to_nat (i / 64) := N.ldiff (word ws i) (shl64 1 (i mod 64))]> ws.
(** The set bits, word by word, lowest first. *)
Definition bitLoop (ws : list N) : list N := concat (imap (fun w x => (fun bit => N.of_nat w * 64 + bit) <$> slotLoop 64 x) ws).

Definition shardIndexes (id : N) : N * N :=
  let index := u16 id in
  (u8 (N.shiftr index 8), u8 index).

Section shards.
Context {V : Type} `{MapOrder V} (zero : V).
Implicit Types (m : ShardMap V) (id : N).

Definition emptyBucket : shardBucket V := mkBucket (replicate 256 None) noBits.
Definition zeroShardMap : ShardMap V := mkShardMap None 0%Z noBits None noBits [0; 0] 0 0.
Definition NewShardMap : ShardMap V := mkShardMap (Some (replicate 256 None)) 0%Z noBits None noBits [0; 0] 0 0.
Definition newPostingShardMap : ShardMap V := mkShardMap (Some (replicate 256 None)) 0%Z noBits None noBits [0; 0] 0 8.

Definition shardsOf m id : N * N := shardIndexes (N.shiftr id (shardShift m)).
(** [uint16(bucket)<<8 | uint16(shard)] *)
Definition shardIndex (bucket shard : N) : N := N.lor (N.shiftl bucket 8) shard.

Definition theRoot m : list (option (shardBucket V)) := default (replicate 256 None) (sm_root m).
(** [m.root[bucket].values[shard]], nil when one of them is. *)
Definition shardAt m (bucket shard : N) : option (gmap N V) :=
  match idx (theRoot m) bucket with
  | None => None
  | Some b => idx (bk_values b) shard
  end.

Definition shardGet m id : V :=
  let '(bucket, shard) := shardsOf m id in
  match shardAt m bucket shard with
  | None => zero
  | Some values => default zero (values !! id)
  end.

Definition shardHas m id : bool :=
  let '(bucket, shard) := shardsOf m id in
  match shardAt m bucket shard with
  | None => false
  | Some values => bool_decide (is_Some (values !! id))
  end.

Definition shardLen m : Z := sm_length m.

(** [for id, value := range shard] *)
Definition rangeShard (shard : option (gmap N V)) : list (N * V) :=
  match shard with
  | None => []
  | Some values => omap (fun id => pair id <$> values !! id) (rangeKeys 0 values)
  end.

Definition shardAll m : list (N * V) :=
  match sm_root m with
  | None => []
  | Some root =>
      if smallCount m <=? 2 then
        concat (map (fun index => rangeShard (shardAt m (u8 (N.shiftr index 8)) (u8 index))) (take (N.to_nat (smallCount m)) (sm_smallActive m)))
      else
        concat (map (fun bucket =>
          concat (map (fun shard => rangeShard (shardAt m bucket shard))
                      (match idx root bucket with Some item => bitLoop (bk_active item) | None => [] end)))
          (bitLoop (activeBuckets m)))
  end.

(** The bit of a shard that did not exist, and its place in the short list. *)
Definition noteShard m (bucket shard : N) : ShardMap V :=
  if smallCount m <? 2 then
    mkShardMap (sm_root m) (sm_length m) (clonedBuckets m) (clonedShards m) (activeBuckets m)
      (<[N.to_nat (smallCount m) := shardIndex bucket shard]> (sm_smallActive m)) (smallCount m + 1) (shardShift m)
  else
    mkShardMap (sm_root m) (sm_length m) (clonedBuckets m) (clonedShards m) (activeBuckets m) (sm_smallActive m) 3 (shardShift m).

Definition withRoot m (root : list (option (shardBucket V))) (length : Z) (active : list N) : ShardMap V :=
  mkShardMap (Some root) length (clonedBuckets m) (clonedShards m) active (sm_smallActive m) (smallCount m) (shardShift m).

Definition shardSet m id (value : V) : ShardMap V :=
  let '(bucket, shard) := shardsOf m id in
  let root := theRoot m in
  let b := default emptyBucket (idx root bucket) in
  let active := setWord (activeBuckets m) bucket in
  let '(m, values, bits) :=
    match idx (bk_values b) shard with
    | Some values => (m, values, bk_active b)
    | None => (noteShard m bucket shard, ∅, setWord (bk_active b) shard)
    end in
  let length := if bool_decide (values !! id = None) then (sm_length m + 1)%Z else sm_length m in
  withRoot m (upd root bucket (Some (mkBucket (upd (bk_values b) shard (Some (<[id := value]> values))) bits))) length active.

(** The first entry of the short list that is [index] is replaced by the last. *)
Fixpoint dropActive (index : N) (smallActive : list N) (count : nat) (i : nat) (rest : list N) : list N * N :=
  match rest with
  | [] => (smallActive, N.of_nat count)
  | active :: rest =>
      if active =? index then (<[i := default 0 (smallActive !! pred count)]> smallActive, N.of_nat (pred count))
      else dropActive index smallActive count (S i) rest
  end.

Definition shardDelete m id : ShardMap V :=
  let '(bucket, shard) := shardsOf m id in
  match sm_root m with
  | None => m
  | Some root =>
      match idx root bucket with
      | None => m
      | Some b =>
          match idx (bk_values b) shard with
          | None => m
          | Some values =>
              if bool_decide (values !! id = None) then m
              else
                let values := delete id values in
                let length := (sm_length m - 1)%Z in
                if negb (bool_decide (values = ∅)) then
                  withRoot m (upd root bucket (Some (mkBucket (upd (bk_values b) shard (Some values)) (bk_active b)))) length (activeBuckets m)
                else
                  let index := shardIndex bucket shard in
                  let cloned := match clonedShards m with Some s => Some (s ∖ {[index]}) | None => None end in
                  let bits := clearWord (bk_active b) shard in
                  let '(small, count) :=
                    if smallCount m <=? 2 then
                      dropActive index (sm_smallActive m) (N.to_nat (smallCount m)) 0 (take (N.to_nat (smallCount m)) (sm_smallActive m))
                    else (sm_smallActive m, if (length =? 0)%Z then 0 else smallCount m) in
                  let b := if bool_decide (bits = noBits) then None else Some (mkBucket (upd (bk_values b) shard None) bits) in
                  let active := if bool_decide (bits = noBits) then clearWord (activeBuckets m) bucket else activeBuckets m in
                  mkShardMap (Some (upd root bucket b)) length (clonedBuckets m) cloned active small count (shardShift m)
          end
      end
  end.

(** The same table; nothing of it is marked as copied. *)
Definition shardFork m : ShardMap V :=
  mkShardMap (sm_root m) (sm_length m) noBits None (activeBuckets m) (sm_smallActive m) (smallCount m) (shardShift m).

Definition shardCloneOnce m id : ShardMap V :=
  let '(bucket, shard) := shardsOf m id in
  let index := shardIndex bucket shard in
  let cloned := default ∅ (clonedShards m) in
  if bool_decide (index ∈ cloned) then m
  else
    let cloned := match sm_root m with None => ∅ | Some _ => cloned end in
    let root := theRoot m in
    let fresh := negb (testWord (clonedBuckets m) bucket) || bool_decide (idx root bucket = None) in
    let b := default emptyBucket (idx root bucket) in
    mkShardMap (Some (upd root bucket (Some b))) (sm_length m)
      (if fresh then setWord (clonedBuckets m) bucket else clonedBuckets m) (Some ({[index]} ∪ cloned))
      (activeBuckets m) (sm_smallActive m) (smallCount m) (shardShift m).
End shards.

(** * Shard maps: they are finite maps

    The bit sets, then the relation [srep] between a shard map and the finite map it
    stands for, and the operations that keep it. *)

(** ** Bit sets *)

Definition wordsOK (ws : list N) : Prop := length ws = 4%nat /\ Forall (fun w => w < 2 ^ 64) ws.

Lemma word_bound ws i : wordsOK ws -> word ws i < 2 ^ 64.
Proof.
  intros [_ Hw]. unfold word. destruct (ws !! _) as [w|] eqn:E; cbn [default from_option id]; [|done].
  by apply (Forall_lookup_1 _ _ _ _ Hw) in E.
Qed.

Lemma bit_place i : i mod 64 < 64 /\ i = i / 64 * 64 + i mod 64.
Proof. pose proof (N.mod_upper_bound i 64). pose proof (N.div_mod i 64). lia. Qed.

Lemma testWord_bit ws i : wordsOK ws -> testWord ws i = N.testbit (word ws i) (i mod 64).
Proof.
  intros Hw. unfold testWord. destruct (bit_place i) as [Hi _]. rewrite shl64_1 by done.
  by rewrite land_pow2_eqb, negb_involutive.
Qed.

Lemma wordsOK_insert ws i w : wordsOK ws -> w < 2 ^ 64 -> wordsOK (<[i := w]> ws).
Proof. intros [Hl Hw] Hb. split; [by rewrite length_insert|]. by apply Forall_insert. Qed.

Lemma wordsOK_setWord ws i : wordsOK ws -> wordsOK (setWord ws i).
Proof.
  intros Hw. apply wordsOK_insert; [done|]. destruct (bit_place i). rewrite shl64_1 by done. apply set_bound; [|done]. by apply word_bound.
Qed.

Lemma wordsOK_clearWord ws i : wordsOK ws -> wordsOK (clearWord ws i).
Proof.
  intros Hw. apply wordsOK_insert; [done|]. destruct (bit_place i). rewrite shl64_1 by done. apply clear_bound. by apply word_bound.
Qed.

Lemma word_insert ws i j w : wordsOK ws -> i < 256 -> word (<[N.to_nat (i / 64) := w]> ws) j = if i / 64 =? j / 64 then w else word ws j.
Proof.
  intros [Hl _] Hi. unfold word. assert (i / 64 < 4) by (apply N.Div0.div_lt_upper_bound; lia).
  destruct (N.eqb_spec (i / 64) (j / 64)) as [<-|Hne].
  - by rewrite list_lookup_insert_eq by lia.
  - by rewrite list_lookup_insert_ne by lia.
Qed.

Lemma place_eqb i j : (i =? j) = (i / 64 =? j / 64) && (i mod 64 =? j mod 64).
Proof.
  destruct (bit_place i), (bit_place j). apply eq_true_iff_eq. rewrite andb_true_iff, !N.eqb_eq.
  split; [by intros ->|]. intros [E1 E2]. congruence.
Qed.

Lemma testWord_set ws i j : wordsOK ws -> i < 256 -> testWord (setWord ws i) j = (i =? j) || testWord ws j.
Proof.
  intros Hw Hi. rewrite !testWord_bit by (try apply wordsOK_setWord; done). unfold setWord. rewrite word_insert by done.
  rewrite (place_eqb i j). destruct (bit_place i) as [Hm _]. rewrite shl64_1 by done.
  destruct (N.eqb_spec (i / 64) (j / 64)) as [E|E]; cbn [andb orb]; [|done]. rewrite testbit_set. unfold word. by rewrite E.
Qed.

Lemma testWord_clear ws i j : wordsOK ws -> i < 256 -> testWord (clearWord ws i) j = negb (i =? j) && testWord ws j.
Proof.
  intros Hw Hi. rewrite !testWord_bit by (try apply wordsOK_clearWord; done). unfold clearWord. rewrite word_insert by done.
  rewrite (place_eqb i j). destruct (bit_place i) as [Hm _]. rewrite shl64_1 by done.
  destruct (N.eqb_spec (i / 64) (j / 64)) as [E|E]; cbn [andb orb negb]; [|done]. rewrite testbit_clear. unfold word. by rewrite E.
Qed.

Lemma wordsOK_noBits : wordsOK noBits.
Proof. split; [done|]. repeat constructor. Qed.

Lemma testWord_noBits i : testWord noBits i = false.
Proof.
  rewrite testWord_bit by apply wordsOK_noBits. unfold word, noBits.
  destruct (N.to_nat (i / 64)) as [|[|[|[|n]]]]; apply N.bits_0.
Qed.

Lemma noBits_iff ws : wordsOK ws -> ws = noBits <-> forall i, i < 256 -> testWord ws i = false.
Proof.
  intros Hw. split; [intros -> i _; apply testWord_noBits|]. intros Hno.
  assert (Hz : forall k, k < 4 -> ws !! N.to_nat k = Some 0).
  { intros k Hk. destruct (lookup_lt_is_Some_2 ws (N.to_nat k)) as [w Hl]; [destruct Hw; lia|]. rewrite Hl. f_equal.
    destruct (N.eq_dec w 0) as [|Hne]; [done|]. exfalso. apply exists_bit in Hne as [b Hb].
    assert (Hb64 : b < 64).
    { apply N.nle_gt. intros Hle. rewrite (testbit_above _ 64) in Hb; [done| |done]. destruct Hw as [_ Hw]. by apply (Forall_lookup_1 _ _ _ _ Hw) in Hl. }
    specialize (Hno (k * 64 + b)). rewrite testWord_bit in Hno by done.
    assert (Hd : (k * 64 + b) / 64 = k) by (symmetry; apply (N.div_unique _ _ _ b); lia).
    assert (Hm : (k * 64 + b) mod 64 = b) by (symmetry; apply (N.mod_unique _ _ k); lia).
    unfold word in Hno. rewrite Hd, Hm, Hl in Hno. cbn in Hno. rewrite Hno in Hb; [done|lia]. }
  apply list_eq. intros i. destruct (Nat.lt_ge_cases i 4) as [Hi|Hi].
  - rewrite <- (Nat2N.id i), Hz by lia. by destruct i as [|[|[|[|i]]]]; [..|lia].
  - rewrite !lookup_ge_None_2; [done| |]; [cbn; lia|destruct Hw; lia].
Qed.

Lemma elem_of_bitLoop ws i : wordsOK ws -> i ∈ bitLoop ws <-> i < 256 /\ testWord ws i = true.
Proof.
  intros Hw. unfold bitLoop. rewrite elem_of_concat_imap. setoid_rewrite list_elem_of_fmap. rewrite testWord_bit by done. split.
  - intros (k & w & Hk & b & -> & Hb). assert (Hwb : w < 2 ^ 64) by (destruct Hw as [_ Hw]; by apply (Forall_lookup_1 _ _ _ _ Hw) in Hk).
    apply elem_of_slotLoop in Hb; [|done]. assert (b < 64) by (apply N.nle_gt; intros Hle; by rewrite (testbit_above _ 64) in Hb).
    apply lookup_lt_Some in Hk as Hk4. destruct Hw as [Hl _]. rewrite Hl in Hk4. split; [lia|].
    assert (Hd : (N.of_nat k * 64 + b) / 64 = N.of_nat k) by (symmetry; apply (N.div_unique _ _ _ b); lia).
    assert (Hm : (N.of_nat k * 64 + b) mod 64 = b) by (symmetry; apply (N.mod_unique _ _ (N.of_nat k)); lia).
    unfold word. rewrite Hd, Hm, Nat2N.id, Hk. done.
  - intros [Hi Hb]. destruct (bit_place i) as [_ Ei]. assert (i / 64 < 4) by (apply N.Div0.div_lt_upper_bound; lia).
    exists (N.to_nat (i / 64)), (word ws i). split.
    + unfold word. destruct (lookup_lt_is_Some_2 ws (N.to_nat (i / 64))) as [w Hl]; [destruct Hw; lia|]. by rewrite Hl.
    + exists (i mod 64). rewrite N2Nat.id. split; [done|]. apply elem_of_slotLoop; [by apply word_bound|done].
Qed.

Lemma bitLoop_nodup ws : wordsOK ws -> NoDup (bitLoop ws).
Proof.
  intros Hw. apply (StronglySorted_nodup N.lt); [intros x; lia|]. unfold bitLoop.
  assert (Hwb : forall k w, ws !! k = Some w -> w < 2 ^ 64) by (intros k w Hk; destruct Hw as [_ Hw]; by apply (Forall_lookup_1 _ _ _ _ Hw) in Hk).
  assert (Hb64 : forall k w b, ws !! k = Some w -> b ∈ slotLoop 64 w -> b < 64).
  { intros k w b Hk Hb. apply elem_of_slotLoop in Hb; [|eauto]. apply N.nle_gt. intros Hle. rewrite (testbit_above _ 64) in Hb; eauto. done. }
  apply sorted_concat_imap.
  - intros k w Hk. pose proof (slotLoop_sorted w (Hwb _ _ Hk)) as Hs. clear -Hs.
    induction Hs as [|x l Hl IH Hx]; cbn; constructor; [done|]. apply Forall_fmap. eapply Forall_impl; [exact Hx|]. cbn. lia.
  - intros k k' w w' a b Hkk Hk Hk' Ha Hb. apply list_elem_of_fmap in Ha as (x & -> & Hx). apply list_elem_of_fmap in Hb as (y & -> & Hy).
    apply (Hb64 _ _ _ Hk) in Hx. lia.
Qed.

(** ** Places *)

Lemma u8_bound x : u8 x < 256.
Proof. apply N.mod_upper_bound. lia. Qed.

Lemma shardIndexes_bound id : (shardIndexes id).1 < 256 /\ (shardIndexes id).2 < 256.
Proof. split; apply u8_bound. Qed.

Lemma shardIndex_eq b s : s < 256 -> shardIndex b s = b * 256 + s.
Proof. intros Hs. unfold shardIndex. rewrite N.shiftl_mul_pow2. change (2 ^ 8) with 256. exact (lor_split b s 8 Hs). Qed.

Lemma shardIndex_parts b s : b < 256 -> s < 256 -> u8 (N.shiftr (shardIndex b s) 8) = b /\ u8 (shardIndex b s) = s.
Proof.
  intros Hb Hs. rewrite shardIndex_eq, N.shiftr_div_pow2 by done. unfold u8. change (2 ^ 8) with 256. split.
  - rewrite <- (N.div_unique (b * 256 + s) 256 b s) by lia. by apply N.mod_small.
  - symmetry. apply (N.mod_unique _ _ b); lia.
Qed.

Lemma shardIndex_inj b s b' s' :
  b < 256 -> s < 256 -> b' < 256 -> s' < 256 -> shardIndex b s = shardIndex b' s' -> b = b' /\ s = s'.
Proof.
  intros Hb Hs Hb' Hs' E. destruct (shardIndex_parts b s Hb Hs) as [P1 P2], (shardIndex_parts b' s' Hb' Hs') as [Q1 Q2]. split; congruence.
Qed.

(** ** The representation relation *)

Section spec.
Context {V : Type} `{MapOrder V} (zero : V).
Implicit Types (m : ShardMap V) (g : gmap N V).

Definition bucketOK (b : shardBucket V) : Prop :=
  length (bk_values b) = 256%nat /\ wordsOK (bk_active b) /\
  forall s, s < 256 -> testWord (bk_active b) s = bool_decide (is_Some (idx (bk_values b) s)).

Definition tableOK m : Prop :=
  length (theRoot m) = 256%nat /\ (forall b bk, idx (theRoot m) b = Some bk -> bucketOK bk) /\
  wordsOK (activeBuckets m) /\
  forall b, b < 256 -> testWord (activeBuckets m) b = true <-> exists s, is_Some (shardAt m b s).

Definition smallOK m : Prop :=
  length (sm_smallActive m) = 2%nat /\
  (smallCount m = 3 \/ smallCount m <= 2 /\
   NoDup (take (N.to_nat (smallCount m)) (sm_smallActive m)) /\
   forall index, index ∈ take (N.to_nat (smallCount m)) (sm_smallActive m) <->
                 exists b s, index = shardIndex b s /\ is_Some (shardAt m b s)).

Definition shardLookup m (id : N) : option V :=
  let '(b, s) := shardsOf m id in shardAt m b s ≫= fun sh => sh !! id.

Definition contentsOK m g : Prop :=
  (forall b s sh, shardAt m b s = Some sh -> sh <> ∅ /\ forall id, is_Some (sh !! id) -> shardsOf m id = (b, s)) /\
  (forall id, shardLookup m id = g !! id).

Definition srep m g : Prop := tableOK m /\ contentsOK m g /\ smallOK m /\ sm_length m = Z.of_nat (size g).

Lemma idx_lt_length {A} (l : list (option A)) i x : idx l i = Some x -> i < N.of_nat (length l).
Proof. intros Hi%idx_Some%lookup_lt_Some. lia. Qed.

Lemma shardAt_bound m b s sh : tableOK m -> shardAt m b s = Some sh -> b < 256 /\ s < 256.
Proof.
  intros (Hr & Hb & _) Hs. unfold shardAt in Hs. destruct (idx (theRoot m) b) as [bk|] eqn:E; [|done].
  destruct (Hb _ _ E) as [Hl _]. apply idx_lt_length in E, Hs. lia.
Qed.

Lemma shardsOf_bound m id b s : shardsOf m id = (b, s) -> b < 256 /\ s < 256.
Proof. unfold shardsOf. intros E. destruct (shardIndexes_bound (N.shiftr id (shardShift m))). by rewrite E in *. Qed.

Lemma srep_Get m g id : srep m g -> shardGet zero m id = default zero (g !! id).
Proof.
  intros (_ & [_ Hl] & _). rewrite <- Hl. unfold shardGet, shardLookup. destruct (shardsOf m id) as [b s].
  by destruct (shardAt m b s).
Qed.

Lemma srep_Has m g id : srep m g -> shardHas m id = bool_decide (is_Some (g !! id)).
Proof.
  intros (_ & [_ Hl] & _). rewrite <- Hl. unfold shardHas, shardLookup. destruct (shardsOf m id) as [b s].
  by destruct (shardAt m b s).
Qed.

(** One shard replaced: what the map holds then. *)
Lemma contents_update m m' g id b s new ov :
  contentsOK m g -> shardShift m' = shardShift m -> shardsOf m id = (b, s) ->
  (forall b' s', shardAt m' b' s' = if decide ((b', s') = (b, s)) then new else shardAt m b' s') ->
  (forall id', (new ≫= fun sh => sh !! id') = if decide (id' = id) then ov else shardAt m b s ≫= fun sh => sh !! id') ->
  new <> Some ∅ -> contentsOK m' (partial_alter (fun _ => ov) id g).
Proof.
  intros [Hsh Hl] Hshift Hid Hat Hnew Hne.
  assert (Hof : forall id', shardsOf m' id' = shardsOf m id') by (intros; unfold shardsOf; by rewrite Hshift). split.
  - intros b' s' sh Hs. rewrite Hat in Hs. case_decide as E; [|setoid_rewrite Hof; by apply Hsh].
    injection E as -> ->. split; [intros ->; done|]. intros id' Hin. rewrite Hof. specialize (Hnew id'). rewrite Hs in Hnew. cbn in Hnew.
    rewrite Hnew in Hin. case_decide as E; [by subst|]. destruct (shardAt m b s) as [sh0|] eqn:E0; [|by destruct Hin].
    by apply (Hsh _ _ _ E0).
  - intros id'. unfold shardLookup. rewrite Hof. destruct (decide (id' = id)) as [->|Hn].
    + rewrite Hid, Hat, decide_True by done. rewrite Hnew, decide_True by done. by rewrite lookup_partial_alter_eq.
    + rewrite lookup_partial_alter_ne by done. rewrite <- Hl. unfold shardLookup. destruct (shardsOf m id') as [b' s'] eqn:E'.
      rewrite Hat. case_decide as E; [|done]. injection E as -> ->. rewrite Hnew, decide_False by done. done.
Qed.

(** ** Set *)

Definition theBucket m (b : N) : shardBucket V := default emptyBucket (idx (theRoot m) b).

Lemma bucketOK_empty : bucketOK emptyBucket.
Proof.
  split; [done|]. split; [apply wordsOK_noBits|]. intros s _. unfold emptyBucket. cbn [bk_active bk_values]. rewrite testWord_noBits, idx_replicate. done.
Qed.

Lemma theBucket_OK m b : tableOK m -> bucketOK (theBucket m b).
Proof. intros (_ & Hb & _). unfold theBucket. destruct (idx (theRoot m) b) eqn:E; cbn; [by eapply Hb|apply bucketOK_empty]. Qed.

Lemma theBucket_at m b s : idx (bk_values (theBucket m b)) s = shardAt m b s.
Proof. unfold theBucket, shardAt. destruct (idx (theRoot m) b); cbn [default from_option id]; [done|apply idx_replicate]. Qed.

(** The table with one bucket replaced. *)
Lemma shardAt_upd m m' b bk' b' s' :
  length (theRoot m) = 256%nat -> b < 256 -> theRoot m' = upd (theRoot m) b bk' ->
  shardAt m' b' s' = if decide (b' = b) then bk' ≫= fun bk => idx (bk_values bk) s' else shardAt m b' s'.
Proof.
  intros Hl Hb Hr. unfold shardAt. rewrite Hr. case_decide as E.
  - subst. rewrite idx_upd_eq by lia. by destruct bk'.
  - by rewrite idx_upd_ne.
Qed.

Definition setBits' m (b s : N) : list N :=
  match shardAt m b s with Some _ => bk_active (theBucket m b) | None => setWord (bk_active (theBucket m b)) s end.

Lemma shardSet_eq m id v b s :
  shardsOf m id = (b, s) ->
  let m1 := if shardAt m b s then m else noteShard m b s in
  let values := default ∅ (shardAt m b s) in
  shardSet m id v =
  withRoot m1 (upd (theRoot m) b (Some (mkBucket (upd (bk_values (theBucket m b)) s (Some (<[id := v]> values))) (setBits' m b s))))
    (if bool_decide (values !! id = None) then sm_length m + 1 else sm_length m)%Z (setWord (activeBuckets m) b).
Proof.
  intros E. unfold shardSet, setBits'. rewrite E. fold (theBucket m b). rewrite theBucket_at.
  destruct (shardAt m b s) as [sh|]; [done|]. unfold noteShard. by destruct (smallCount m <? 2).
Qed.

Lemma bucketOK_set m b s sh : tableOK m -> s < 256 ->
  bucketOK (mkBucket (upd (bk_values (theBucket m b)) s (Some sh)) (setBits' m b s)).
Proof.
  intros Ht Hs. destruct (theBucket_OK m b Ht) as (Hl & Hw & Hbits). unfold bucketOK, setBits'. cbn [bk_values bk_active].
  split; [by rewrite length_upd|]. pose proof (Hbits s Hs) as Hbs. rewrite theBucket_at in Hbs. split.
  - destruct (shardAt m b s); [done|by apply wordsOK_setWord].
  - intros s' Hs'. destruct (decide (s' = s)) as [->|Hne].
    + rewrite idx_upd_eq by lia. rewrite (bool_decide_eq_true_2 (is_Some (Some sh))) by eauto. destruct (shardAt m b s); [done|].
      rewrite testWord_set, N.eqb_refl by done. done.
    + rewrite idx_upd_ne by done. rewrite <- Hbits by done. destruct (shardAt m b s); [done|].
      rewrite testWord_set by done. by destruct (N.eqb_spec s s'); [congruence|].
Qed.

Lemma small_take_set (l : list N) (n : nat) x : (n < length l)%nat -> take (S n) (<[n := x]> l) = take n l ++ [x].
Proof.
  intros Hn. rewrite (take_S_r _ _ x) by (by apply list_lookup_insert_eq). by rewrite take_insert_ge.
Qed.

Lemma smallOK_note m m' b s :
  smallOK m -> b < 256 -> s < 256 -> tableOK m -> shardAt m b s = None ->
  sm_smallActive m' = sm_smallActive (noteShard m b s) -> smallCount m' = smallCount (noteShard m b s) ->
  (forall b' s', is_Some (shardAt m' b' s') <-> (b', s') = (b, s) \/ is_Some (shardAt m b' s')) -> smallOK m'.
Proof.
  intros [Hl Hs] Hb Hs256 Ht Hnone E1 E2 Hat. unfold smallOK. rewrite E1, E2. unfold noteShard. clear E1 E2.
  destruct (N.ltb_spec (smallCount m) 2) as [Hlt|Hge]; cbn [sm_smallActive smallCount].
  2:{ split; [done|by left]. }
  split; [by rewrite length_insert|]. destruct Hs as [E|(_ & Hnd & Hin)]; [lia|]. right. split; [lia|].
  replace (N.to_nat (smallCount m + 1)) with (S (N.to_nat (smallCount m))) by lia. rewrite small_take_set by lia. split.
  - apply NoDup_app. split; [done|]. split; [|apply NoDup_singleton]. intros x Hx ->%list_elem_of_singleton.
    apply Hin in Hx as (b' & s' & E & Hsome). destruct (Hsome) as [sh Hsh]. apply shardAt_bound in Hsh as [? ?]; [|done].
    apply shardIndex_inj in E as [<- <-]; [|done..]. rewrite Hnone in Hsome. by destruct Hsome.
  - intros index. rewrite elem_of_app, list_elem_of_singleton, Hin. setoid_rewrite Hat. split.
    + intros [(b' & s' & -> & ?)| ->]; eauto 6.
    + intros (b' & s' & -> & [[= -> ->]|?]); eauto.
Qed.

Lemma smallOK_same m m' :
  smallOK m -> sm_smallActive m' = sm_smallActive m -> smallCount m' = smallCount m ->
  (forall b s, is_Some (shardAt m' b s) <-> is_Some (shardAt m b s)) -> smallOK m'.
Proof. intros Hs E1 E2 Hat. unfold smallOK. rewrite E1, E2. setoid_rewrite Hat. done. Qed.

Lemma tableOK_upd m m' b bk' :
  tableOK m -> b < 256 -> theRoot m' = upd (theRoot m) b bk' -> (forall bk, bk' = Some bk -> bucketOK bk) ->
  wordsOK (activeBuckets m') ->
  (forall b', b' < 256 -> b' <> b -> testWord (activeBuckets m') b' = testWord (activeBuckets m) b') ->
  (testWord (activeBuckets m') b = true <-> exists s, is_Some (bk' ≫= fun bk => idx (bk_values bk) s)) ->
  tableOK m'.
Proof.
  intros (Hl & Hbk & Hw & Hact) Hb Hr Hnew Hw' Hother Hthis. split; [by rewrite Hr, length_upd|]. split.
  { intros b' bk. rewrite Hr. destruct (decide (b' = b)) as [->|].
    - rewrite idx_upd_eq by lia. apply Hnew.
    - rewrite idx_upd_ne by done. apply Hbk. }
  split; [done|]. intros b' Hb'. setoid_rewrite (shardAt_upd m m' b bk' b' _ Hl Hb Hr). case_decide as E; [by subst|].
  rewrite Hother by done. by apply Hact.
Qed.

Lemma shardSet_at m id v b s b' s' : tableOK m -> shardsOf m id = (b, s) ->
  shardAt (shardSet m id v) b' s' =
  if decide ((b', s') = (b, s)) then Some (<[id := v]> (default ∅ (shardAt m b s))) else shardAt m b' s'.
Proof.
  intros Ht E. destruct (shardsOf_bound _ _ _ _ E) as [Hb Hs]. rewrite (shardSet_eq m id v b s E).
  destruct (theBucket_OK m b Ht) as (Hbl & _).
  erewrite (shardAt_upd m _ b); [|apply Ht|done|done]. case_decide as E1.
  - subst. cbn. destruct (decide (s' = s)) as [->|Hne].
    + rewrite decide_True by done. by rewrite idx_upd_eq by lia.
    + rewrite decide_False by congruence. rewrite idx_upd_ne by done. apply theBucket_at.
  - by rewrite decide_False by congruence.
Qed.

Lemma srep_Set m g id v : srep m g -> srep (shardSet m id v) (<[id := v]> g).
Proof.
  intros (Ht & Hc & Hsm & Hlen). destruct (shardsOf m id) as [b s] eqn:E. destruct (shardsOf_bound _ _ _ _ E) as [Hb Hs].
  pose proof (fun b' s' => shardSet_at m id v b s b' s' Ht E) as Hat.
  assert (Hold : (default ∅ (shardAt m b s)) !! id = g !! id).
  { destruct Hc as [_ Hl]. rewrite <- Hl. unfold shardLookup. rewrite E. destruct (shardAt m b s); [done|apply lookup_empty]. }
  assert (Hsome : forall b' s', is_Some (shardAt (shardSet m id v) b' s') <-> (b', s') = (b, s) \/ is_Some (shardAt m b' s')).
  { intros b' s'. rewrite Hat. case_decide; [split; eauto|]. naive_solver. }
  split; [|split; [|split]].
  - eapply (tableOK_upd m _ b); [done|done|by rewrite (shardSet_eq m id v b s E)| | | |].
    + intros bk [= <-]. by apply bucketOK_set.
    + rewrite (shardSet_eq m id v b s E). by apply wordsOK_setWord, Ht.
    + intros b' Hb' Hne. rewrite (shardSet_eq m id v b s E). cbn [activeBuckets withRoot]. rewrite testWord_set by (done || apply Ht).
      by destruct (N.eqb_spec b b'); [congruence|].
    + rewrite (shardSet_eq m id v b s E). cbn [activeBuckets withRoot]. rewrite testWord_set, N.eqb_refl by (done || apply Ht).
      split; [|done]. intros _. exists s. cbn. destruct (theBucket_OK m b Ht) as (Hbl & _). rewrite idx_upd_eq by lia. eauto.
  - eapply (contents_update m _ g id b s _ (Some v)); [done| |done|exact Hat| |].
    + rewrite (shardSet_eq m id v b s E). cbn. destruct (shardAt m b s); [done|]. unfold noteShard. by destruct (smallCount m <? 2).
    + intros id'. cbn. case_decide; [subst; apply lookup_insert_eq|]. rewrite lookup_insert_ne by done.
      by destruct (shardAt m b s); cbn; [|rewrite lookup_empty].
    + intros [= E0]. by apply insert_non_empty in E0.
  - destruct (shardAt m b s) as [sh|] eqn:Esh.
    + eapply smallOK_same; [done|..]; [by rewrite (shardSet_eq m id v b s E), Esh..|].
      intros b' s'. rewrite Hsome. split; [intros [[= -> ->]|?]; eauto|eauto].
    + eapply (smallOK_note m _ b s); [done..| | |done]; by rewrite (shardSet_eq m id v b s E), Esh.
  - rewrite (shardSet_eq m id v b s E). cbn [sm_length withRoot]. rewrite Hold, Hlen. destruct (g !! id) eqn:Eg.
    + rewrite bool_decide_eq_false_2 by done. by rewrite map_size_insert_Some.
    + rewrite bool_decide_eq_true_2 by done. rewrite map_size_insert_None by done. lia.
Qed.

(** ** Delete *)

Lemma dropActive_spec index (l : list N) n :
  length l = 2%nat -> (n <= 2)%nat -> NoDup (take n l) -> index ∈ take n l ->
  let r := dropActive index l n 0 (take n l) in
  length r.1 = 2%nat /\ r.2 <= 2 /\ NoDup (take (N.to_nat r.2) r.1) /\
  forall x, x ∈ take (N.to_nat r.2) r.1 <-> x ∈ take n l /\ x <> index.
Proof.
  intros Hl Hn Hnd Hin. destruct l as [|a [|c [|]]]; try discriminate Hl.
  destruct n as [|[|[|n]]]; [set_solver| | |lia]; cbn [take dropActive] in *.
  - apply list_elem_of_singleton in Hin as ->. rewrite N.eqb_refl. cbn. split; [done|]. split; [lia|]. split; [constructor|set_solver].
  - apply NoDup_cons in Hnd as [Hac _]. rewrite list_elem_of_singleton in Hac. destruct (N.eqb_spec a index) as [->|Ha]; cbn.
    + split; [done|]. split; [lia|]. split; [apply NoDup_singleton|]. set_solver.
    + assert (c = index) as -> by set_solver. rewrite N.eqb_refl. cbn. split; [done|]. split; [lia|]. split; [apply NoDup_singleton|]. set_solver.
Qed.

Lemma contents_empty m : contentsOK m ∅ -> forall b s, shardAt m b s = None.
Proof.
  intros [Hsh Hl] b s. destruct (shardAt m b s) as [sh|] eqn:E; [|done]. exfalso. destruct (Hsh _ _ _ E) as [Hne Hof].
  apply map_choose in Hne as (id & v & Hid). specialize (Hl id). unfold shardLookup in Hl. rewrite (Hof id) in Hl by eauto.
  rewrite E, lookup_empty in Hl. cbn in Hl. congruence.
Qed.

Lemma bucketOK_clear m b s : tableOK m -> s < 256 ->
  bucketOK (mkBucket (upd (bk_values (theBucket m b)) s None) (clearWord (bk_active (theBucket m b)) s)).
Proof.
  intros Ht Hs. destruct (theBucket_OK m b Ht) as (Hl & Hw & Hbits). unfold bucketOK. cbn [bk_values bk_active].
  split; [by rewrite length_upd|]. split; [by apply wordsOK_clearWord|].
  intros s' Hs'. rewrite testWord_clear by done. destruct (N.eqb_spec s s') as [<-|Hne]; cbn [negb andb].
  - rewrite idx_upd_eq by lia. done.
  - rewrite idx_upd_ne by done. by apply Hbits.
Qed.

(** The bits of a bucket are all clear when it has no shard. *)
Lemma bucketOK_noBits (bk : shardBucket V) : bucketOK bk -> bk_active bk = noBits <-> forall s, idx (bk_values bk) s = None.
Proof.
  intros (Hl & Hw & Hbits). rewrite noBits_iff by done. split.
  - intros Hno s. destruct (idx (bk_values bk) s) as [sh|] eqn:E; [|done]. apply idx_lt_length in E as Hs.
    rewrite Hl in Hs. specialize (Hno s ltac:(lia)). rewrite Hbits, E in Hno by lia. apply bool_decide_eq_false in Hno. by destruct Hno.
  - intros Hno s Hs. rewrite Hbits, Hno by done. done.
Qed.

(** What [Delete] leaves of a bucket whose shard [s] has lost its last entry. *)
Definition leftBucket m (b s : N) : option (shardBucket V) :=
  let bk := mkBucket (upd (bk_values (theBucket m b)) s None) (clearWord (bk_active (theBucket m b)) s) in
  if bool_decide (bk_active bk = noBits) then None else Some bk.

Lemma leftBucket_at m b s s' : tableOK m -> s < 256 ->
  (leftBucket m b s ≫= fun bk => idx (bk_values bk) s') = if decide (s' = s) then None else shardAt m b s'.
Proof.
  intros Ht Hs. pose proof (bucketOK_clear m b s Ht Hs) as Hok. destruct (theBucket_OK m b Ht) as (Hl & _).
  assert (Hat : idx (upd (bk_values (theBucket m b)) s None) s' = if decide (s' = s) then None else shardAt m b s').
  { case_decide; [subst; by rewrite idx_upd_eq by lia|]. rewrite idx_upd_ne by done. apply theBucket_at. }
  unfold leftBucket. case_bool_decide as E; cbn; [|done]. rewrite <- Hat. symmetry. by apply (bucketOK_noBits _ Hok).
Qed.

Lemma leftBucket_OK m b s bk : tableOK m -> s < 256 -> leftBucket m b s = Some bk -> bucketOK bk /\ exists s', is_Some (idx (bk_values bk) s').
Proof.
  intros Ht Hs. pose proof (bucketOK_clear m b s Ht Hs) as Hok. unfold leftBucket. case_bool_decide as En; [done|]. intros [= <-].
  split; [done|]. destruct (bitLoop (clearWord (bk_active (theBucket m b)) s)) as [|s' rest] eqn:Eloop.
  - exfalso. apply En. apply noBits_iff; [apply Hok|]. intros i Hi. destruct (testWord _ i) eqn:Ei; [|done]. exfalso.
    apply (not_elem_of_nil i). rewrite <- Eloop. apply elem_of_bitLoop; [apply Hok|done].
  - assert (Hs' : s' ∈ bitLoop (clearWord (bk_active (theBucket m b)) s)) by (rewrite Eloop; left).
    apply elem_of_bitLoop in Hs' as [Hs256 Hbit]; [|apply Hok]. destruct Hok as (_ & _ & Hbits). cbn [bk_active] in Hbits.
    rewrite Hbits in Hbit by done. apply bool_decide_eq_true in Hbit. eauto.
Qed.

Lemma tableOK_left m m' b s :
  tableOK m -> b < 256 -> s < 256 -> is_Some (shardAt m b s) ->
  theRoot m' = upd (theRoot m) b (leftBucket m b s) ->
  activeBuckets m' = (if leftBucket m b s then activeBuckets m else clearWord (activeBuckets m) b) -> tableOK m'.
Proof.
  intros Ht Hb Hs Hsh Hroot Hact. eapply (tableOK_upd m m' b); [done|done|exact Hroot|..].
  - intros bk Hbk. by apply (leftBucket_OK _ _ _ _ Ht Hs Hbk).
  - rewrite Hact. destruct (leftBucket m b s); [apply Ht|]. by apply wordsOK_clearWord, Ht.
  - intros b' Hb' Hne. rewrite Hact. destruct (leftBucket m b s); [done|]. rewrite testWord_clear by (done || apply Ht).
    by destruct (N.eqb_spec b b'); [congruence|].
  - rewrite Hact. destruct (leftBucket m b s) as [bk|] eqn:El; cbn.
    + destruct (leftBucket_OK _ _ _ _ Ht Hs El) as [_ Hex]. split; [done|]. intros _. apply Ht; eauto.
    + rewrite testWord_clear, N.eqb_refl by (done || apply Ht). split; [done|]. by intros [? [? ?]].
Qed.

Definition smallAfter m (b s : N) : list N * N :=
  if smallCount m <=? 2 then
    dropActive (shardIndex b s) (sm_smallActive m) (N.to_nat (smallCount m)) 0 (take (N.to_nat (smallCount m)) (sm_smallActive m))
  else (sm_smallActive m, if (sm_length m - 1 =? 0)%Z then 0 else smallCount m).

Lemma smallOK_drop m m' b s :
  smallOK m -> tableOK m -> is_Some (shardAt m b s) -> (sm_smallActive m', smallCount m') = smallAfter m b s ->
  (forall b' s', shardAt m' b' s' = if decide ((b', s') = (b, s)) then None else shardAt m b' s') ->
  ((sm_length m - 1)%Z = 0%Z -> forall b' s', shardAt m' b' s' = None) -> smallOK m'.
Proof.
  intros [Hl Hsm] Ht Hsh Hafter Hat Hzero. unfold smallAfter in Hafter. unfold smallOK. destruct Hsm as [E|(Hle & Hnd & Hin)].
  - rewrite E in Hafter. cbn [N.leb N.compare Pos.compare Pos.compare_cont] in Hafter. injection Hafter as -> ->. split; [done|].
    destruct (Z.eqb_spec (sm_length m - 1) 0) as [Ez|]; [|by left]. right. split; [lia|]. split; [constructor|].
    intros index. cbn. split; [set_solver|]. intros (b' & s' & _ & Hsome). rewrite Hzero in Hsome by done. by destruct Hsome.
  - rewrite (proj2 (N.leb_le _ _) Hle) in Hafter. destruct Hsh as [sh Hsh]. destruct (shardAt_bound _ _ _ _ Ht Hsh) as [Hb Hs].
    destruct (dropActive_spec (shardIndex b s) (sm_smallActive m) (N.to_nat (smallCount m))) as (H1 & H2 & H3 & H4); [done|lia|done| |].
    { apply Hin. eauto. }
    rewrite <- Hafter in H1, H2, H3, H4. cbn [fst snd] in H1, H2, H3, H4. split; [done|]. right. split; [done|]. split; [done|].
    intros index. rewrite H4, Hin. setoid_rewrite Hat. split.
    + intros [(b' & s' & -> & Hsome) Hne]. exists b', s'. split; [done|]. case_decide as E; [congruence|done].
    + intros (b' & s' & -> & Hsome). case_decide as E; [by destruct Hsome|]. split; [eauto|]. intros E'. apply E.
      destruct Hsome as [sh' Hsome]. destruct (shardAt_bound _ _ _ _ Ht Hsome). by apply shardIndex_inj in E' as [-> ->].
Qed.

Lemma delete_shard m m' g id b s sh :
  srep m g -> shardsOf m id = (b, s) -> shardAt m b s = Some sh -> delete id sh = ∅ -> is_Some (sh !! id) ->
  theRoot m' = upd (theRoot m) b (leftBucket m b s) -> shardShift m' = shardShift m -> sm_length m' = (sm_length m - 1)%Z ->
  activeBuckets m' = (if leftBucket m b s then activeBuckets m else clearWord (activeBuckets m) b) ->
  (sm_smallActive m', smallCount m') = smallAfter m b s -> srep m' (delete id g).
Proof.
  intros (Ht & Hc & Hsm & Hlen) E Esh Hempty Hid Hroot Hshift Hlen' Hact Hsmall.
  destruct (shardsOf_bound _ _ _ _ E) as [Hb Hs].
  assert (Hat : forall b' s', shardAt m' b' s' = if decide ((b', s') = (b, s)) then None else shardAt m b' s').
  { intros b' s'. erewrite (shardAt_upd m m' b); [|apply Ht|done|exact Hroot]. destruct (decide (b' = b)) as [->|].
    - rewrite leftBucket_at by done. repeat case_decide; congruence.
    - by rewrite decide_False by congruence. }
  assert (Hc' : contentsOK m' (delete id g)).
  { eapply (contents_update m m' g id b s None None); [done|done|done|exact Hat| |done].
    intros id'. rewrite Esh. cbn. case_decide as En; [done|]. pose proof (lookup_delete_ne sh id id' ltac:(congruence)) as Hd.
    by rewrite Hempty, lookup_empty in Hd. }
  assert (Hsz : sm_length m' = Z.of_nat (size (delete id g))).
  { rewrite Hlen', Hlen. destruct Hid as [v Hv]. symmetry. apply size_delete_Some with v.
    destruct Hc as [_ Hl]. rewrite <- Hl. unfold shardLookup. by rewrite E, Esh. }
  split; [|split; [done|split; [|done]]].
  - apply (tableOK_left m m' b s); [done..|by rewrite Esh|done|done].
  - apply (smallOK_drop m m' b s); [done|done|by rewrite Esh|done|done|]. rewrite <- Hlen', Hsz. intros E0 b' s'. apply contents_empty.
    replace (∅ : gmap N V) with (delete id g); [done|]. apply map_size_empty_inv. lia.
Qed.

(** A shard that keeps other entries. *)
Lemma shrink_shard m g id b s sh :
  srep m g -> shardsOf m id = (b, s) -> shardAt m b s = Some sh -> is_Some (sh !! id) -> delete id sh <> ∅ ->
  srep (withRoot m (upd (theRoot m) b (Some (mkBucket (upd (bk_values (theBucket m b)) s (Some (delete id sh))) (bk_active (theBucket m b)))))
          (sm_length m - 1) (activeBuckets m)) (delete id g).
Proof.
  intros (Ht & Hc & Hsm & Hlen) E Esh Hid Hne. destruct (shardsOf_bound _ _ _ _ E) as [Hb Hs].
  set (m' := withRoot _ _ _ _). destruct (theBucket_OK m b Ht) as (Hbl & _).
  assert (Hat : forall b' s', shardAt m' b' s' = if decide ((b', s') = (b, s)) then Some (delete id sh) else shardAt m b' s').
  { intros b' s'. erewrite (shardAt_upd m m' b); [|apply Ht|done|done]. destruct (decide (b' = b)) as [->|]; cbn.
    - destruct (decide (s' = s)) as [->|].
      + rewrite decide_True by done. by rewrite idx_upd_eq by lia.
      + rewrite decide_False by congruence. rewrite idx_upd_ne by done. apply theBucket_at.
    - by rewrite decide_False by congruence. }
  assert (Hsome : forall b' s', is_Some (shardAt m' b' s') <-> is_Some (shardAt m b' s')).
  { intros b' s'. rewrite Hat. case_decide as E'; [|done]. injection E' as -> ->. rewrite Esh. split; eauto. }
  split; [|split; [|split]].
  - assert (Hset : setBits' m b s = bk_active (theBucket m b)) by (unfold setBits'; by rewrite Esh).
    pose proof (bucketOK_set m b s (delete id sh) Ht Hs) as Hbok. rewrite Hset in Hbok.
    eapply (tableOK_upd m m' b); [done|done|done|by intros ? [= <-]|apply Ht|done|].
    assert (Hb' : forall s', (Some (mkBucket (upd (bk_values (theBucket m b)) s (Some (delete id sh))) (bk_active (theBucket m b))) ≫= fun bk => idx (bk_values bk) s') = shardAt m' b s').
    { intros s'. erewrite (shardAt_upd m m' b); [by rewrite decide_True|apply Ht|done|done]. }
    setoid_rewrite Hb'. setoid_rewrite Hsome. by apply Ht.
  - eapply (contents_update m m' g id b s (Some (delete id sh)) None); [done|done|done|exact Hat| |congruence].
    intros id'. rewrite Esh. cbn. case_decide; [subst; apply lookup_delete_eq|by rewrite lookup_delete_ne].
  - by eapply smallOK_same.
  - cbn. rewrite Hlen. destruct Hid as [v Hv]. symmetry. apply size_delete_Some with v.
    destruct Hc as [_ Hl]. rewrite <- Hl. unfold shardLookup. by rewrite E, Esh.
Qed.

Lemma srep_Delete m g id : srep m g -> srep (shardDelete m id) (delete id g).
Proof.
  intros Hr. pose proof Hr as (Ht & Hc & Hsm & Hlen). destruct (shardsOf m id) as [b s] eqn:E.
  destruct (shardsOf_bound _ _ _ _ E) as [Hb Hs].
  assert (Hlk : g !! id = shardAt m b s ≫= fun sh => sh !! id).
  { destruct Hc as [_ Hl]. rewrite <- Hl. unfold shardLookup. by rewrite E. }
  unfold shardDelete. rewrite E. destruct (sm_root m) as [root|] eqn:Er.
  2:{ rewrite delete_id; [done|]. rewrite Hlk. unfold shardAt, theRoot. rewrite Er. cbn [default from_option]. by rewrite idx_replicate. }
  assert (Hroot : theRoot m = root) by (unfold theRoot; by rewrite Er).
  unfold shardAt in Hlk. rewrite Hroot in Hlk. destruct (idx root b) as [bk|] eqn:Eb; [|by rewrite delete_id].
  destruct (idx (bk_values bk) s) as [sh|] eqn:Es; [|by rewrite delete_id]. cbn in Hlk.
  case_bool_decide as Eid; [rewrite delete_id; [done|congruence]|].
  assert (Esh : shardAt m b s = Some sh) by (unfold shardAt; by rewrite Hroot, Eb).
  assert (Etb : theBucket m b = bk) by (unfold theBucket; by rewrite Hroot, Eb).
  apply not_eq_None_Some in Eid. case_bool_decide as Eempty; cbn [negb].
  - eapply (delete_shard m _ g id b s sh); [done..| | | | |].
    + unfold leftBucket. rewrite Etb, Hroot. cbn. destruct (smallCount m <=? 2); [destruct (dropActive _ _ _ _ _)|]; cbn; done.
    + destruct (if smallCount m <=? 2 then _ else _); done.
    + destruct (if smallCount m <=? 2 then _ else _); done.
    + unfold leftBucket. rewrite Etb. cbn [bk_active]. destruct (if smallCount m <=? 2 then _ else _). cbn. by case_bool_decide.
    + unfold smallAfter. by destruct (if smallCount m <=? 2 then _ else _).
  - rewrite <- Hroot, <- Etb. by apply shrink_shard.
Qed.

(** ** Forks and copies *)

Lemma srep_same m m' g :
  srep m g -> theRoot m' = theRoot m -> shardShift m' = shardShift m -> sm_length m' = sm_length m ->
  activeBuckets m' = activeBuckets m -> sm_smallActive m' = sm_smallActive m -> smallCount m' = smallCount m -> srep m' g.
Proof.
  unfold srep, tableOK, contentsOK, smallOK, shardLookup, shardsOf, shardAt. intros Hr E1 E2 E3 E4 E5 E6.
  by rewrite E1, E2, E3, E4, E5, E6.
Qed.

Lemma srep_Fork m g : srep m g -> srep (shardFork m) g.
Proof. intros Hr. by eapply srep_same. Qed.

(** An empty bucket in place of nil changes no shard. *)
Lemma srep_CloneOnce m g id : srep m g -> srep (shardCloneOnce m id) g.
Proof.
  intros Hr. unfold shardCloneOnce. destruct (shardsOf m id) as [b s] eqn:E. destruct (shardsOf_bound _ _ _ _ E) as [Hb Hs].
  case_bool_decide; [done|]. fold (theBucket m b). set (m' := mkShardMap _ _ _ _ _ _ _ _).
  destruct Hr as (Ht & Hc & Hsm & Hlen).
  assert (Hat : forall b' s', shardAt m' b' s' = shardAt m b' s').
  { intros b' s'. erewrite (shardAt_upd m m' b); [|apply Ht|done|done]. case_decide; [subst; apply theBucket_at|done]. }
  split; [|split; [|split; [|done]]].
  - eapply (tableOK_upd m m' b); [done|done|done|intros ? [= <-]; by apply theBucket_OK|apply Ht|done|].
    cbn. setoid_rewrite theBucket_at. by apply Ht.
  - split.
    + intros b' s' sh. rewrite Hat. apply Hc.
    + intros id'. destruct Hc as [_ Hl]. rewrite <- Hl. unfold shardLookup. change (shardsOf m' id') with (shardsOf m id').
      destruct (shardsOf m id'). by rewrite Hat.
  - eapply smallOK_same; [done|done|done|]. intros b' s'. by rewrite Hat.
Qed.

Lemma srep_empty m : theRoot m = replicate 256 None -> sm_length m = 0%Z -> activeBuckets m = noBits ->
  sm_smallActive m = [0; 0] -> smallCount m = 0 -> srep m ∅.
Proof.
  intros E1 E2 E3 E4 E5. assert (Hat : forall b s, shardAt m b s = None) by (intros; unfold shardAt; by rewrite E1, idx_replicate).
  split; [|split; [|split; [|by rewrite E2]]].
  - unfold tableOK. rewrite E1, E3. split; [done|]. split; [intros b bk; by rewrite idx_replicate|].
    split; [apply wordsOK_noBits|]. intros b _. rewrite testWord_noBits. split; [done|]. intros [s Hs]. rewrite Hat in Hs. by destruct Hs.
  - split; [intros b s sh; by rewrite Hat|]. intros id. unfold shardLookup. destruct (shardsOf m id). by rewrite Hat, lookup_empty.
  - unfold smallOK. rewrite E4, E5. split; [done|]. right. split; [lia|]. split; [constructor|]. intros index. cbn.
    split; [set_solver|]. intros (b & s & _ & Hs). rewrite Hat in Hs. by destruct Hs.
Qed.

(** ** All *)

Lemma rangeShard_perm (sh : gmap N V) : rangeShard (Some sh) ≡ₚ map_to_list sh.
Proof.
  apply NoDup_Permutation.
  - cbn. apply NoDup_fmap_1 with (f := fst). replace (omap _ (rangeKeys 0 sh)).*1 with (rangeKeys 0 sh); [apply rangeKeys_nodup|].
    pose proof (fun k => proj1 (elem_of_rangeKeys 0 sh k)) as Hk. induction (rangeKeys 0 sh) as [|k l IH]; [done|]. cbn.
    destruct (Hk k ltac:(left)) as [v Hv]. rewrite Hv. cbn. f_equal. apply IH. intros k' Hk'. apply Hk. by right.
  - apply NoDup_map_to_list.
  - intros [k v]. rewrite elem_of_map_to_list. cbn. rewrite list_elem_of_omap. split.
    + intros (k' & _ & Hk'). destruct (sh !! k') eqn:E; [|done]. by injection Hk' as -> ->.
    + intros Hv. exists k. rewrite elem_of_rangeKeys, Hv. eauto.
Qed.

Lemma elem_of_rangeShard m b s id v : (id, v) ∈ rangeShard (shardAt m b s) <-> exists sh, shardAt m b s = Some sh /\ sh !! id = Some v.
Proof.
  destruct (shardAt m b s) as [sh|] eqn:E.
  - rewrite rangeShard_perm, elem_of_map_to_list. naive_solver.
  - cbn. split; [by intros ?%elem_of_nil|naive_solver].
Qed.

Lemma rangeShard_nodup o : NoDup (rangeShard o).
Proof. destruct o as [sh|]; [rewrite rangeShard_perm; apply NoDup_map_to_list|constructor]. Qed.

(** The entries of every shard, each shard visited once. *)
Lemma visit_perm {A} (places : list A) (place : A -> N * N) m g :
  contentsOK m g -> NoDup places -> (forall x y, x ∈ places -> y ∈ places -> place x = place y -> x = y) ->
  (forall b s, is_Some (shardAt m b s) -> exists x, x ∈ places /\ place x = (b, s)) ->
  concat (map (fun x => rangeShard (shardAt m (place x).1 (place x).2)) places) ≡ₚ map_to_list g.
Proof.
  intros [Hsh Hl] Hnd Hinj Hall. apply NoDup_Permutation; [|apply NoDup_map_to_list|].
  - apply nodup_concat_map; [done|intros; apply rangeShard_nodup|]. intros x y [id v] Hx Hy H1 H2.
    apply elem_of_rangeShard in H1 as (sh1 & E1 & Hv1). apply elem_of_rangeShard in H2 as (sh2 & E2 & Hv2). apply Hinj; [done|done|].
    destruct (Hsh _ _ _ E1) as [_ P1], (Hsh _ _ _ E2) as [_ P2]. specialize (P1 id ltac:(eauto)). specialize (P2 id ltac:(eauto)).
    destruct (place x), (place y). cbn in *. congruence.
  - intros [id v]. rewrite elem_of_map_to_list, <- Hl, elem_of_concat_map. unfold shardLookup. split.
    + intros (x & Hx & (sh & E & Hv)%elem_of_rangeShard). destruct (Hsh _ _ _ E) as [_ P]. rewrite (P id) by eauto. by rewrite E.
    + destruct (shardsOf m id) as [b s] eqn:Eid. intros Hv. destruct (shardAt m b s) as [sh|] eqn:E; [|done].
      destruct (Hall b s) as (x & Hx & Hp); [by rewrite E|]. exists x. split; [done|]. rewrite Hp. apply elem_of_rangeShard. cbn. eauto.
Qed.

Lemma concat_nested {A B C} (f : A -> B -> list C) (l : A -> list B) (xs : list A) :
  concat (map (fun x => concat (map (f x) (l x))) xs) = concat (map (fun p => f p.1 p.2) (concat (map (fun x => pair x <$> l x) xs))).
Proof.
  induction xs as [|x xs IH]; [done|]. cbn. rewrite map_app, concat_app, IH. f_equal.
  induction (l x) as [|y ys IHy]; [done|]. cbn. by rewrite IHy.
Qed.

Lemma srep_All m g : srep m g -> shardAll m ≡ₚ map_to_list g.
Proof.
  intros (Ht & Hc & [Hl Hsm] & Hlen). unfold shardAll. destruct (sm_root m) as [root|] eqn:Er.
  2:{ replace g with (∅ : gmap N V); [by rewrite map_to_list_empty|]. symmetry. apply map_empty. intros id. destruct Hc as [_ Hlk]. rewrite <- Hlk.
      unfold shardLookup, shardAt, theRoot. rewrite Er. destruct (shardsOf m id). cbn [default from_option]. by rewrite idx_replicate. }
  destruct Hsm as [E|(Hle & Hnd & Hin)].
  - rewrite E. change (3 <=? 2) with false. cbn iota. rewrite concat_nested.
    apply (visit_perm _ (fun p : N * N => p)); [done| | |].
    + apply nodup_concat_map; [apply bitLoop_nodup, Ht|..].
      * intros b _. apply NoDup_fmap_2; [by intros ?? [= ->]|]. destruct (idx root b) as [bk|] eqn:Eb; [|constructor].
        apply bitLoop_nodup. destruct Ht as (_ & Hbk & _). apply (Hbk b). unfold theRoot. by rewrite Er.
      * intros b b' [x y] _ _ (? & [= ->] & _)%list_elem_of_fmap (? & [= ->] & _)%list_elem_of_fmap. congruence.
    + done.
    + intros b s [sh Hsh]. exists (b, s). split; [|done]. destruct (shardAt_bound _ _ _ _ Ht Hsh) as [Hb Hs].
      destruct Ht as (_ & Hbk & Hw & Hact). apply elem_of_concat_map. exists b. split.
      * apply elem_of_bitLoop; [done|]. split; [done|]. apply Hact; eauto.
      * unfold shardAt, theRoot in Hsh. rewrite Er in Hsh. cbn in Hsh. destruct (idx root b) as [bk|] eqn:Eb; [|done].
        apply list_elem_of_fmap. exists s. split; [done|].
        destruct (Hbk b bk) as (_ & Hwb & Hbits); [unfold theRoot; by rewrite Er|]. apply elem_of_bitLoop; [done|]. split; [done|].
        rewrite Hbits, Hsh by done. by apply bool_decide_eq_true_2.
  - rewrite (proj2 (N.leb_le _ _) Hle).
    assert (Hparts : forall b s, is_Some (shardAt m b s) -> (u8 (N.shiftr (shardIndex b s) 8), u8 (shardIndex b s)) = (b, s)).
    { intros b s [sh Hsh]. destruct (shardAt_bound _ _ _ _ Ht Hsh) as [Hb Hs]. by destruct (shardIndex_parts b s Hb Hs) as [-> ->]. }
    apply (visit_perm _ (fun index => (u8 (N.shiftr index 8), u8 index))); [done|done| |].
    + intros x y (b & s & -> & Hx)%Hin (b' & s' & -> & Hy)%Hin. rewrite !Hparts by done. by intros [= -> ->].
    + intros b s Hs. exists (shardIndex b s). split; [|by apply Hparts]. apply Hin. eauto.
Qed.
End spec.
