(* ===== verification/PropertyPostings.v ===== *)
(** * Postings of a property index (internal/store/property_index.go)

    The identifiers that carry one value, in ascending order: a small sorted slice, then
    sorted chunks of at most 256 when the identifiers lie far apart, or a radix table
    (a paged map) when they are close together.

    Postings are values here: the marks that tell which slices and chunks a fork may
    write in place are left out, and [forkPropertyPosting], which resets them, changes
    nothing else.

    Further down: they are ordered sets. *)
From S2P Require Import Prelude.
From S2P Require Import Bits.
From S2P Require Import PagedMap.
From S2P Require Import PagedMapSpec.
From S2P Require Import PagedMapIter.

Definition smallPostingLimit : nat := 64.
Definition propertyPostingChunkSize : nat := 256.

Record propertyPostingRadix := mkRadix { rx_ids : PagedMap unit; rx_roots : list N }.
Record propertyPostingChunks := mkChunks { ch_chunks : list (list N); ch_length : Z }.
Record propertyPosting := mkPosting {
  small : list N;
  chunks : option propertyPostingChunks;
  large : option propertyPostingRadix }.

Definition emptyPosting : propertyPosting := mkPosting [] None None.

(** The first index in [[low, high)] that is not [below], by halving; the length of the
    interval bounds the rounds. *)
Fixpoint lowerBound (fuel : nat) (below : nat -> bool) (low high : nat) : nat :=
  match fuel with
  | O => low
  | S fuel =>
      if (low <? high)%nat then
        let middle := (low + (high - low) / 2)%nat in
        if below middle then lowerBound fuel below (S middle) high else lowerBound fuel below low middle
      else low
  end.

(** [slices.BinarySearch] *)
Definition BinarySearch (l : list N) (target : N) : nat * bool :=
  let i := lowerBound (length l) (fun h => match l !! h with Some x => x <? target | None => false end) 0 (length l) in
  (i, match l !! i with Some x => x =? target | None => false end).

(** [append(l, 0); copy(l[i+1:], l[i:]); l[i] = x] and [copy(l[i:], l[i+1:]); l[:len(l)-1]] *)
Definition insertAt {A} (i : nat) (x : A) (l : list A) : list A := take i l ++ x :: drop i l.
Definition removeAt {A} (i : nat) (l : list A) : list A := take i l ++ drop (S i) l.

Section postings.
Context `{MapOrder (pageRoot unit)}.

(** ** The radix table *)

Definition orderedIDs (radix : propertyPostingRadix) : list N := (orderedRoots tt (rx_ids radix) (rx_roots radix)).*1.

Definition radixAdd (posting : propertyPostingRadix) (id : N) : propertyPostingRadix :=
  let high := N.shiftr id 20 in
  let newRoot := negb (high =? 0) && bool_decide (root (rx_ids posting) high = None) in
  let ids := Set_ tt (rx_ids posting) id tt in
  mkRadix ids (if newRoot then insertAt (BinarySearch (rx_roots posting) high).1 high (rx_roots posting) else rx_roots posting).

Definition radixRemove (posting : propertyPostingRadix) (id : N) : propertyPostingRadix :=
  let high := N.shiftr id 20 in
  let ids := Delete tt (rx_ids posting) id in
  if (high =? 0) || negb (bool_decide (root ids high = None)) then mkRadix ids (rx_roots posting)
  else
    let '(index, found) := BinarySearch (rx_roots posting) high in
    mkRadix ids (if found then removeAt index (rx_roots posting) else rx_roots posting).

Definition shouldUseChunks (posting : propertyPostingRadix) : bool :=
  (8 <=? length (rx_roots posting))%nat &&
  (Len (rx_ids posting) <? Z.of_nat (length (rx_roots posting)) * Z.of_nat propertyPostingChunkSize)%Z.

(** ** Chunks *)

(** Every round takes at least one identifier, so the length bounds the rounds. *)
Fixpoint cutChunks (fuel : nat) (ids : list N) : list (list N) :=
  match fuel, ids with
  | S fuel, _ :: _ =>
      let length := Nat.min (length ids) propertyPostingChunkSize in
      take length ids :: cutChunks fuel (drop length ids)
  | _, _ => []
  end.
Definition newPropertyPostingChunks (ids : list N) : propertyPostingChunks := mkChunks (cutChunks (length ids) ids) (Z.of_nat (length ids)).
Definition newPropertyPostingChunksFromRadix (radix : propertyPostingRadix) : propertyPostingChunks := newPropertyPostingChunks (orderedIDs radix).

(** The first chunk that ends at or behind [id]. *)
Definition chunkIndex (posting : propertyPostingChunks) (id : N) : nat :=
  lowerBound (length (ch_chunks posting)) (fun middle => match ch_chunks posting !! middle with
                                                         | Some ids => match last ids with Some x => x <? id | None => false end
                                                         | None => false
                                                         end) 0 (length (ch_chunks posting)).

Definition chunkAt (posting : propertyPostingChunks) (index : nat) : list N := default [] (ch_chunks posting !! index).

Definition chunksHas (posting : propertyPostingChunks) (id : N) : bool :=
  let index := chunkIndex posting id in
  if (index =? length (ch_chunks posting))%nat then false else (BinarySearch (chunkAt posting index) id).2.

Definition chunksAdd (posting : propertyPostingChunks) (id : N) : propertyPostingChunks :=
  match ch_chunks posting with
  | [] => mkChunks [[id]] (ch_length posting + 1)
  | _ :: _ =>
      let index := chunkIndex posting id in
      let index := if (index =? length (ch_chunks posting))%nat then pred index else index in
      let chunk := chunkAt posting index in
      let '(insert, found) := BinarySearch chunk id in
      if found then posting
      else if (length chunk <? propertyPostingChunkSize)%nat then
        mkChunks (<[index := insertAt insert id chunk]> (ch_chunks posting)) (ch_length posting + 1)
      else
        let merged := insertAt insert id chunk in
        let leftLength := (length merged / 2)%nat in
        mkChunks (insertAt (S index) (drop leftLength merged) (<[index := take leftLength merged]> (ch_chunks posting)))
          (ch_length posting + 1)
  end.

Definition chunksRemove (posting : propertyPostingChunks) (id : N) : propertyPostingChunks :=
  let index := chunkIndex posting id in
  if (index =? length (ch_chunks posting))%nat then posting
  else
    let chunk := chunkAt posting index in
    let '(remove, found) := BinarySearch chunk id in
    if negb found then posting
    else
      let chunk := removeAt remove chunk in
      match chunk with
      | [] => mkChunks (removeAt index (ch_chunks posting)) (ch_length posting - 1)
      | _ :: _ => mkChunks (<[index := chunk]> (ch_chunks posting)) (ch_length posting - 1)
      end.

(** ** Postings *)

(** [(ids[len(ids)-1]>>20)-(ids[0]>>20) < 8] *)
Definition propertyPostingShouldPromote (ids : list N) : bool :=
  sub64 (N.shiftr (default 0 (last ids)) 20) (N.shiftr (default 0 (ids !! 0%nat)) 20) <? 8.

Definition postingHas (posting : propertyPosting) (id : N) : bool :=
  match large posting, chunks posting with
  | Some radix, _ => Has (rx_ids radix) id
  | None, Some c => chunksHas c id
  | None, None => (BinarySearch (small posting) id).2
  end.

Definition postingLen (posting : propertyPosting) : Z :=
  match large posting, chunks posting with
  | Some radix, _ => Len (rx_ids radix)
  | None, Some c => ch_length c
  | None, None => Z.of_nat (length (small posting))
  end.

Definition postingAll (posting : propertyPosting) : list N :=
  match large posting, chunks posting with
  | Some radix, _ => orderedIDs radix
  | None, Some c => concat (ch_chunks c)
  | None, None => small posting
  end.

(** After a change of the table: chunks when it has become sparse. *)
Definition settleRadix (posting : propertyPosting) (radix : propertyPostingRadix) : propertyPosting :=
  if shouldUseChunks radix then mkPosting (small posting) (Some (newPropertyPostingChunksFromRadix radix)) None
  else mkPosting (small posting) (chunks posting) (Some radix).

Definition postingAdd (posting : propertyPosting) (id : N) : propertyPosting :=
  match large posting, chunks posting with
  | Some radix, _ => settleRadix posting (radixAdd radix id)
  | None, Some c => mkPosting (small posting) (Some (chunksAdd c id)) None
  | None, None =>
      let '(index, found) := BinarySearch (small posting) id in
      if found then posting
      else
        let ids := insertAt index id (small posting) in
        if (length ids <=? smallPostingLimit)%nat then mkPosting ids None None
        else if negb (propertyPostingShouldPromote ids) then mkPosting [] (Some (newPropertyPostingChunks ids)) None
        else mkPosting [] None (Some (foldl radixAdd (mkRadix NewPagedMap []) ids))
  end.

Definition postingRemove (posting : propertyPosting) (id : N) : propertyPosting :=
  match large posting, chunks posting with
  | Some radix, _ => settleRadix posting (radixRemove radix id)
  | None, Some c => mkPosting (small posting) (Some (chunksRemove c id)) None
  | None, None =>
      let '(index, found) := BinarySearch (small posting) id in
      if negb found then posting else mkPosting (removeAt index (small posting)) None None
  end.
End postings.

(** * Postings of a property index: they are ordered sets

    Sorted slices and binary search first, then the three forms of a posting; the
    relation [postingRep] ties a posting to the set it stands for, and every operation
    keeps it. *)

(** ** Binary search *)

Lemma lowerBound_spec fuel below low high :
  (forall i j, (low <= i <= j)%nat -> (j < high)%nat -> below j = true -> below i = true) ->
  (low <= high)%nat -> (high - low <= fuel)%nat ->
  (low <= lowerBound fuel below low high <= high)%nat /\
  (forall i, (low <= i < lowerBound fuel below low high)%nat -> below i = true) /\
  (forall i, (lowerBound fuel below low high <= i < high)%nat -> below i = false).
Proof.
  revert low high. induction fuel as [|fuel IH]; intros low high Hmono Hle Hf; cbn [lowerBound].
  { split; [lia|split; intros; lia]. }
  destruct (Nat.ltb_spec low high) as [Hlt|]; [|split; [lia|split; intros; lia]].
  set (mid := (low + (high - low) / 2)%nat).
  assert (Hmid : (low <= mid < high)%nat).
  { unfold mid. pose proof (Nat.div_lt_upper_bound (high - low) 2 (high - low)). lia. }
  destruct (below mid) eqn:E.
  - destruct (IH (S mid) high) as (H1 & H2 & H3); [intros; eapply Hmono; [| |done]; lia|lia|lia|].
    split; [lia|split; [|done]]. intros i Hi. destruct (le_lt_dec i mid); [|apply H2; lia].
    eapply (Hmono i mid); [lia|lia|done].
  - destruct (IH low mid) as (H1 & H2 & H3); [intros; eapply Hmono; [| |done]; lia|lia|lia|].
    split; [lia|split; [done|]]. intros i Hi. destruct (le_lt_dec mid i); [|apply H3; lia].
    destruct (below i) eqn:Ei; [|done]. rewrite <- E. symmetry. eapply (Hmono mid i); [lia|lia|done].
Qed.

Lemma sorted_lookup {A} (R : A -> A -> Prop) l i j x y :
  StronglySorted R l -> l !! i = Some x -> l !! j = Some y -> (i < j)%nat -> R x y.
Proof.
  intros Hs Hx Hy Hij. rewrite <- (take_drop_middle l i x Hx) in Hs.
  apply StronglySorted_app in Hs as (_ & _ & Hs). apply StronglySorted_inv in Hs as [_ Hs].
  rewrite Forall_forall in Hs. apply Hs. apply list_elem_of_lookup_2 with (j - S i)%nat.
  rewrite lookup_drop. by replace (S i + (j - S i))%nat with j by lia.
Qed.

Lemma sorted_impl {A} (R S : A -> A -> Prop) l : (forall x y, R x y -> S x y) -> StronglySorted R l -> StronglySorted S l.
Proof. intros HRS Hs. induction Hs; constructor; [done|]. eapply Forall_impl; eauto. Qed.

(** The cut a search finds in a list on which [P] holds first and then no longer. *)
Lemma lowerBound_cut {A} (P : A -> bool) (l : list A) :
  StronglySorted (fun x y => P y = true -> P x = true) l ->
  exists l1 l2, l = l1 ++ l2 /\
    lowerBound (length l) (fun i => match l !! i with Some x => P x | None => false end) 0 (length l) = length l1 /\
    Forall (fun x => P x = true) l1 /\ Forall (fun x => P x = false) l2.
Proof.
  intros Hs. set (below i := match l !! i with Some x => P x | None => false end).
  destruct (lowerBound_spec (length l) below 0 (length l)) as (H1 & H2 & H3); [|lia..|].
  { intros i j Hij Hj. unfold below. destruct (lookup_lt_is_Some_2 l j Hj) as [y Hy].
    destruct (lookup_lt_is_Some_2 l i) as [x Hx]; [lia|]. rewrite Hx, Hy.
    destruct (Nat.eq_dec i j) as [->|]; [by simplify_eq|].
    refine (sorted_lookup _ l i j x y Hs Hx Hy _). lia. }
  set (r := lowerBound _ _ _ _) in *. exists (take r l), (drop r l).
  rewrite take_drop, length_take. split; [done|split; [lia|split]].
  - apply Forall_lookup_2. intros i x Hi. apply lookup_take_Some in Hi as [Hi Hlt].
    specialize (H2 i). unfold below in H2. rewrite Hi in H2. apply H2. lia.
  - apply Forall_lookup_2. intros i x Hi. rewrite lookup_drop in Hi.
    specialize (H3 (r + i)%nat). unfold below in H3. rewrite Hi in H3. apply H3.
    apply lookup_lt_Some in Hi. lia.
Qed.

(** ** Sorted slices *)

Notation ascending := (StronglySorted N.lt).

Definition holds (l : list N) (X : gset N) : Prop := ascending l /\ forall x, x ∈ l <-> x ∈ X.

Lemma holds_nil : holds [] ∅.
Proof. split; [constructor|set_solver]. Qed.

Lemma holds_nodup l X : holds l X -> NoDup l.
Proof. intros [Hs _]. eapply StronglySorted_nodup; [|exact Hs]. intros x. lia. Qed.

Lemma holds_size l X : holds l X -> length l = size X.
Proof.
  intros Hl. rewrite <- (size_list_to_set (C := gset N)) by eapply holds_nodup, Hl.
  f_equal. destruct Hl as [_ Hl]. set_solver.
Qed.

Lemma ascending_cons x (l : list N) : ascending (x :: l) <-> ascending l /\ Forall (N.lt x) l.
Proof. split; [apply StronglySorted_inv|intros [? ?]; by constructor]. Qed.

Lemma BinarySearch_cut l x :
  ascending l -> exists l1 l2, l = l1 ++ l2 /\ BinarySearch l x = (length l1, bool_decide (x ∈ l)) /\
    Forall (fun y => y < x) l1 /\ Forall (N.le x) l2.
Proof.
  intros Hs. destruct (lowerBound_cut (fun y => y <? x) l) as (l1 & l2 & -> & Hi & H1 & H2).
  { eapply sorted_impl; [|exact Hs]. intros y z Hyz. cbn. rewrite !N.ltb_lt. lia. }
  exists l1, l2. split; [done|].
  assert (H1' : Forall (fun y => y < x) l1) by (eapply Forall_impl; [exact H1|]; intros y; cbn; by rewrite N.ltb_lt).
  assert (H2' : Forall (N.le x) l2) by (eapply Forall_impl; [exact H2|]; intros y; cbn; by rewrite N.ltb_ge).
  split; [|done]. unfold BinarySearch. rewrite Hi. f_equal.
  rewrite lookup_app_r, Nat.sub_diag by lia. apply eq_true_iff_eq. rewrite bool_decide_eq_true, elem_of_app.
  rewrite Forall_forall in H1'. split.
  - destruct l2; cbn; [done|]. rewrite N.eqb_eq. intros ->. right. left.
  - intros [Hx|Hx]; [apply H1' in Hx; lia|]. destruct l2 as [|y l2]; [by apply elem_of_nil in Hx|].
    cbn. apply N.eqb_eq. apply StronglySorted_app in Hs as (_ & _ & Hs). apply ascending_cons in Hs as [_ Hs].
    rewrite Forall_forall in Hs. rewrite Forall_forall in H2'. specialize (H2' y ltac:(left)).
    apply elem_of_cons in Hx as [->|Hx]; [done|]. apply Hs in Hx. lia.
Qed.

Lemma insertAt_app {A} i (x : A) l1 l2 : i = length l1 -> insertAt i x (l1 ++ l2) = l1 ++ x :: l2.
Proof. intros ->. unfold insertAt. by rewrite take_app_length, drop_app_length. Qed.

Lemma removeAt_app {A} i (x : A) l1 l2 : i = length l1 -> removeAt i (l1 ++ x :: l2) = l1 ++ l2.
Proof.
  intros ->. unfold removeAt. rewrite take_app_length. f_equal.
  rewrite drop_app_ge by lia. by replace (S (length l1) - length l1)%nat with 1%nat by lia.
Qed.

Lemma insertAt_length {A} i (x : A) l : (length (insertAt i x l) = S (length l))%nat.
Proof. unfold insertAt. rewrite length_app, length_cons, length_take, length_drop. lia. Qed.

Lemma holds_insert l1 l2 X x :
  holds (l1 ++ l2) X -> (forall y, y ∈ l1 -> y < x) -> (forall y, y ∈ l2 -> x < y) -> holds (l1 ++ x :: l2) ({[x]} ∪ X).
Proof.
  intros [Hs Hin] H1 H2. apply StronglySorted_app in Hs as (H12 & Hs1 & Hs2). split.
  - apply StronglySorted_app_2; [|done|].
    + intros a b Ha [->|Hb]%elem_of_cons; eauto.
    + constructor; [done|]. rewrite Forall_forall. eauto.
  - intros y. specialize (Hin y). set_solver.
Qed.

Lemma holds_delete l1 l2 X x : holds (l1 ++ x :: l2) X -> holds (l1 ++ l2) (X ∖ {[x]}).
Proof.
  intros [Hs Hin]. apply StronglySorted_app in Hs as (H12 & Hs1 & Hs2). apply ascending_cons in Hs2 as [Hs2 Hx].
  rewrite Forall_forall in Hx. split.
  - apply StronglySorted_app_2; [|done|done]. intros a b Ha Hb. apply H12; [done|by right].
  - intros y. assert (y ∈ l1 -> y < x) by (intros; apply H12; [done|left]).
    assert (y ∈ l2 -> x < y) by apply Hx. rewrite elem_of_difference, elem_of_singleton, <- Hin, !elem_of_app, elem_of_cons.
    assert (x < x -> False) by lia. split; [intros [?|?]; (split; [tauto|])|tauto]; intros ->; auto.
Qed.

Lemma holds_ascending pre l post X : holds (pre ++ l ++ post) X -> ascending l.
Proof. intros [Hs _]. apply StronglySorted_app in Hs as (_ & _ & Hs). by apply StronglySorted_app in Hs as (_ & Hs & _). Qed.

(** Insertion and removal inside a slice that is part of a longer one. *)
Lemma search_insert pre l post X x i :
  holds (pre ++ l ++ post) X -> (forall y, y ∈ pre -> y < x) -> (forall y, y ∈ post -> x < y) ->
  BinarySearch l x = (i, false) -> holds (pre ++ insertAt i x l ++ post) ({[x]} ∪ X).
Proof.
  intros Hh Hpre Hpost Hb. destruct (BinarySearch_cut l x) as (l1 & l2 & -> & Hc & H1 & H2); [by eapply holds_ascending|].
  rewrite Hb in Hc. injection Hc as -> Hno. symmetry in Hno. apply bool_decide_eq_false in Hno.
  rewrite insertAt_app by done. rewrite <- app_assoc, app_assoc. cbn. apply holds_insert.
  - by rewrite <- !app_assoc in *.
  - rewrite Forall_forall in H1. intros y [?|?]%elem_of_app; auto.
  - rewrite Forall_forall in H2. intros y [Hy|?]%elem_of_app; [|auto].
    pose proof (H2 _ Hy). assert (y <> x) by (intros ->; apply Hno, elem_of_app; by right). lia.
Qed.

Lemma search_remove pre l post X x i :
  holds (pre ++ l ++ post) X -> BinarySearch l x = (i, true) -> holds (pre ++ removeAt i l ++ post) (X ∖ {[x]}).
Proof.
  intros Hh Hb. pose proof (holds_ascending _ _ _ _ Hh) as Hl.
  destruct (BinarySearch_cut l x) as (l1 & l2 & -> & Hc & H1 & H2); [done|].
  rewrite Hb in Hc. injection Hc as -> Hyes. symmetry in Hyes. apply bool_decide_eq_true in Hyes.
  rewrite Forall_forall in H1. rewrite Forall_forall in H2.
  apply elem_of_app in Hyes as [Hx|Hx]; [apply H1 in Hx; lia|].
  destruct l2 as [|y l2]; [by apply elem_of_nil in Hx|].
  assert (y = x) as ->.
  { apply StronglySorted_app in Hl as (_ & _ & Hl). apply ascending_cons in Hl as [_ Hl]. rewrite Forall_forall in Hl.
    pose proof (H2 y ltac:(left)). apply elem_of_cons in Hx as [->|Hx]; [done|]. apply Hl in Hx. lia. }
  rewrite removeAt_app by done. rewrite <- app_assoc, app_assoc. apply holds_delete.
  by rewrite <- !app_assoc in *.
Qed.

Lemma search_found l X x : holds l X -> (BinarySearch l x).2 = bool_decide (x ∈ X).
Proof.
  intros [Hs Hin]. destruct (BinarySearch_cut l x) as (l1 & l2 & _ & -> & _); [done|]. cbn.
  apply bool_decide_ext, Hin.
Qed.

(** ** Chunks *)

Definition chunkSized (c : list N) : Prop := (1 <= length c <= propertyPostingChunkSize)%nat.
Definition chunksRep (c : propertyPostingChunks) (X : gset N) : Prop :=
  holds (concat (ch_chunks c)) X /\ Forall chunkSized (ch_chunks c) /\ ch_length c = Z.of_nat (length (concat (ch_chunks c))).

Lemma concat_mid {A} (cs1 : list (list A)) c cs2 : concat (cs1 ++ c :: cs2) = concat cs1 ++ c ++ concat cs2.
Proof. by rewrite concat_app. Qed.

(** Ascending chunks end in ascending order. *)
Lemma chunks_ends id (cs : list (list N)) :
  ascending (concat cs) -> Forall chunkSized cs ->
  let ends (c : list N) := match last c with Some x => x <? id | None => false end in
  StronglySorted (fun a b => ends b = true -> ends a = true) cs.
Proof.
  intros Hs Hsz. induction cs as [|c cs IH]; [constructor|]. apply Forall_cons in Hsz as [Hc Hsz].
  apply StronglySorted_app in Hs as (Hlt & _ & Hs). constructor; [by apply IH|].
  apply Forall_forall. intros b Hb. cbn. destruct (last b) as [y|] eqn:Ey; [|done].
  destruct (last c) as [x|] eqn:Ex; [|apply last_None in Ex as ->; unfold chunkSized in Hc; cbn in Hc; lia].
  assert (x < y); [|rewrite !N.ltb_lt; lia]. apply Hlt; [by apply last_Some_elem_of|].
  apply elem_of_concat. exists b. split; [done|by apply last_Some_elem_of].
Qed.

Lemma chunkIndex_cut c X id :
  chunksRep c X -> exists cs1 cs2, ch_chunks c = cs1 ++ cs2 /\ chunkIndex c id = length cs1 /\
    (forall x, x ∈ concat cs1 -> x < id) /\
    match cs2 with [] => True | d :: rest => exists y, last d = Some y /\ id <= y end.
Proof.
  intros ([Hs _] & Hsz & _). unfold chunkIndex.
  destruct (lowerBound_cut (fun ids => match last ids with Some x => x <? id | None => false end) (ch_chunks c))
    as (cs1 & cs2 & Hc & Hi & H1 & H2); [by apply chunks_ends|].
  exists cs1, cs2. split; [done|]. split; [done|]. rewrite Hc in Hs, Hsz.
  apply Forall_app in Hsz as [Hz1 Hz2]. rewrite concat_app in Hs. apply StronglySorted_app in Hs as (_ & Hs1 & _). split.
  - intros x (d & Hd & Hx)%elem_of_concat. rewrite Forall_forall in H1. specialize (H1 d Hd).
    destruct (last d) as [y|] eqn:Ey; [|done]. apply N.ltb_lt in H1.
    apply last_Some in Ey as [d' ->]. apply elem_of_app in Hx as [Hx|Hx]; [|by apply list_elem_of_singleton in Hx as ->].
    apply list_elem_of_split in Hd as (a & b & ->). rewrite concat_mid in Hs1.
    apply StronglySorted_app in Hs1 as (_ & _ & Hs1). apply StronglySorted_app in Hs1 as (_ & Hs1 & _).
    apply StronglySorted_app in Hs1 as (Hlt & _). specialize (Hlt x y Hx ltac:(left)). lia.
  - destruct cs2 as [|d rest]; [done|]. apply Forall_cons in H2 as [H2 _]. apply Forall_cons in Hz2 as [Hz2 _].
    destruct (last d) as [y|] eqn:Ey; [|apply last_None in Ey as ->; unfold chunkSized in Hz2; cbn in Hz2; lia].
    exists y. split; [done|]. by apply N.ltb_ge.
Qed.

(** What lies behind the chunk a search stops at. *)
Lemma chunk_after cs1 d cs2 X id y :
  holds (concat (cs1 ++ d :: cs2)) X -> last d = Some y -> id <= y -> forall x, x ∈ concat cs2 -> id < x.
Proof.
  intros [Hs _] Hy Hid x Hx. rewrite concat_mid in Hs. apply StronglySorted_app in Hs as (_ & _ & Hs).
  apply StronglySorted_app in Hs as (Hlt & _). specialize (Hlt y x ltac:(by apply last_Some_elem_of) Hx). lia.
Qed.

Lemma chunksHas_spec c X id : chunksRep c X -> chunksHas c id = bool_decide (id ∈ X).
Proof.
  intros Hr. destruct (chunkIndex_cut c X id Hr) as (cs1 & cs2 & Hc & Hi & H1 & H2). destruct Hr as (Hh & _ & _).
  unfold chunksHas. rewrite Hi, Hc, length_app. rewrite Hc in Hh. symmetry. destruct cs2 as [|d rest].
  - rewrite Nat.add_0_r, Nat.eqb_refl. apply bool_decide_eq_false_2. intros Hin. destruct Hh as [_ Hh]. apply Hh in Hin.
    rewrite app_nil_r in Hin. apply H1 in Hin. lia.
  - destruct H2 as (y & Hy & Hle). cbn [length]. destruct (Nat.eqb_spec (length cs1) (length cs1 + S (length rest))); [lia|].
    unfold chunkAt. rewrite Hc, list_lookup_middle by done. change (default [] (Some d)) with d.
    pose proof (chunk_after _ _ _ _ _ _ Hh Hy Hle) as H3. rewrite concat_mid in Hh.
    destruct (BinarySearch_cut d id) as (l1 & l2 & _ & -> & _); [by eapply holds_ascending|]. cbn. apply bool_decide_ext.
    destruct Hh as [_ Hh]. rewrite <- Hh, !elem_of_app.
    assert (id < id -> False) by lia. split; [|tauto]. intros [?|[?|?]]; [exfalso; auto|done|exfalso; auto].
Qed.

(** The chunk that takes a new identifier. *)
Lemma chunk_for c X id :
  chunksRep c X -> ch_chunks c <> [] ->
  let index := chunkIndex c id in
  let index := if (index =? length (ch_chunks c))%nat then pred index else index in
  exists cs1 d cs2, ch_chunks c = cs1 ++ d :: cs2 /\ index = length cs1 /\
    (forall x, x ∈ concat cs1 -> x < id) /\ (forall x, x ∈ concat cs2 -> id < x).
Proof.
  intros Hr Hne. destruct (chunkIndex_cut c X id Hr) as (cs1 & cs2 & Hc & Hi & H1 & H2). destruct Hr as (Hh & _ & _).
  cbn zeta. rewrite Hi, Hc, length_app. rewrite Hc in Hh, Hne. destruct cs2 as [|d rest].
  - rewrite Nat.add_0_r, Nat.eqb_refl. rewrite app_nil_r in *. destruct cs1 as [|d cs1 _] using rev_ind; [done|].
    exists cs1, d, []. split; [done|]. rewrite length_app. cbn. split; [lia|]. split; [|set_solver].
    intros x Hx. apply H1. rewrite concat_app. apply elem_of_app. by left.
  - destruct H2 as (y & Hy & Hle). cbn [length]. destruct (Nat.eqb_spec (length cs1) (length cs1 + S (length rest))); [lia|].
    exists cs1, d, rest. split; [done|]. split; [done|]. split; [done|]. by eapply chunk_after.
Qed.

Lemma cutChunks_spec fuel l :
  (length l <= fuel)%nat -> concat (cutChunks fuel l) = l /\ Forall chunkSized (cutChunks fuel l).
Proof.
  revert l. induction fuel as [|fuel IH]; intros l Hf; [by destruct l; [split; [|constructor]|cbn in Hf; lia]|].
  destruct l as [|x l]; [split; [done|constructor]|]. cbn [cutChunks concat].
  set (n := Nat.min (length (x :: l)) propertyPostingChunkSize).
  assert (Hn : (1 <= n <= length (x :: l))%nat /\ (n <= propertyPostingChunkSize)%nat)
    by (unfold n, propertyPostingChunkSize; cbn [length]; lia).
  destruct (IH (drop n (x :: l))) as [H1 H2]; [rewrite length_drop; lia|]. split.
  - by rewrite H1, take_drop.
  - constructor; [|done]. unfold chunkSized. rewrite length_take. lia.
Qed.

Lemma newPropertyPostingChunks_spec l X : holds l X -> chunksRep (newPropertyPostingChunks l) X.
Proof.
  intros Hh. unfold chunksRep, newPropertyPostingChunks. cbn. by destruct (cutChunks_spec (length l) l) as [-> ?].
Qed.

(** An identifier that is there already, and one that is not, added to chunks. *)
Lemma union_present (X : gset N) x : x ∈ X -> {[x]} ∪ X = X.
Proof. set_solver. Qed.
Lemma difference_absent (X : gset N) x : x ∉ X -> X ∖ {[x]} = X.
Proof. set_solver. Qed.

Lemma mid_found (X : gset N) pre d post id :
  holds (pre ++ d ++ post) X -> (forall x, x ∈ pre -> x < id) -> (forall x, x ∈ post -> id < x) ->
  exists i, BinarySearch d id = (i, bool_decide (id ∈ X)).
Proof.
  intros Hh H1 H2. destruct (BinarySearch_cut d id) as (l1 & l2 & _ & -> & _); [by eapply holds_ascending|].
  eexists. f_equal. apply bool_decide_ext. destruct Hh as [_ Hh]. rewrite <- Hh, !elem_of_app.
  assert (id < id -> False) by lia. split; [tauto|]. intros [?|[?|?]]; [exfalso; auto|done|exfalso; auto].
Qed.

Lemma chunksAdd_spec c X id : chunksRep c X -> chunksRep (chunksAdd c id) ({[id]} ∪ X).
Proof.
  intros Hr. pose proof Hr as (Hh & Hz & Hlen). unfold chunksAdd. destruct (ch_chunks c) as [|d0 ds] eqn:E.
  { cbn in Hlen. repeat split; cbn.
    - repeat constructor.
    - destruct Hh as [_ Hh]. cbn in Hh. specialize (Hh x). set_solver.
    - destruct Hh as [_ Hh]. cbn in Hh. specialize (Hh x). set_solver.
    - repeat constructor; unfold propertyPostingChunkSize; cbn; lia.
    - lia. }
  destruct (chunk_for c X id Hr) as (cs1 & d & cs2 & Hc & Hi & H1 & H2); [by rewrite E|].
  rewrite <- E in *. cbn zeta. rewrite Hi. unfold chunkAt. rewrite Hc, list_lookup_middle by done.
  change (default [] (Some d)) with d. rewrite Hc in Hh, Hz, Hlen. rewrite concat_mid in Hh, Hlen.
  apply Forall_app in Hz as [Hz1 Hz2]. apply Forall_cons in Hz2 as [Hzd Hz2].
  destruct (mid_found X _ _ _ id Hh H1 H2) as [i Hb]. rewrite Hb. case_bool_decide as Hin.
  { by rewrite union_present. }
  pose proof (search_insert _ _ _ _ _ _ Hh H1 H2 Hb) as Hins.
  pose proof (insertAt_length i id d) as Hil. unfold chunkSized in Hzd. destruct (Nat.ltb_spec (length d) propertyPostingChunkSize).
  - unfold chunksRep. cbn. rewrite insert_app_r_alt, Nat.sub_diag by lia. cbn. rewrite concat_mid. split; [done|]. split.
    + apply Forall_app. split; [done|]. constructor; [unfold chunkSized; lia|done].
    + rewrite !length_app in *. lia.
  - unfold chunksRep. cbn [ch_chunks ch_length]. rewrite insert_app_r_alt, Nat.sub_diag by lia. cbn [list_insert insert].
    set (merged := insertAt i id d) in *. set (n := (length merged / 2)%nat).
    assert (Hn : (1 <= n <= propertyPostingChunkSize)%nat /\ (1 <= length merged - n <= propertyPostingChunkSize)%nat).
    { unfold n. rewrite Hil. unfold propertyPostingChunkSize in *. replace (length d) with 256%nat by lia.
      change (257 / 2)%nat with 128%nat. lia. }
    change (cs1 ++ take n merged :: cs2) with (cs1 ++ [take n merged] ++ cs2). rewrite app_assoc.
    rewrite insertAt_app by (rewrite length_app; cbn; lia). rewrite <- app_assoc. cbn [app].
    assert (Hcat : concat (cs1 ++ take n merged :: drop n merged :: cs2) = concat cs1 ++ merged ++ concat cs2).
    { rewrite concat_mid. cbn. by rewrite (app_assoc (take n merged)), take_drop. }
    rewrite Hcat. split; [done|]. split.
    + apply Forall_app. split; [done|]. constructor; [|constructor; [|done]]; unfold chunkSized; rewrite ?length_take, ?length_drop; lia.
    + rewrite !length_app in *. lia.
Qed.

Lemma removeAt_length {A} i (l : list A) : (i < length l)%nat -> (length (removeAt i l) = length l - 1)%nat.
Proof. intros. unfold removeAt. rewrite length_app, length_take, length_drop. lia. Qed.

Lemma BinarySearch_in l x i : ascending l -> BinarySearch l x = (i, true) -> (i < length l)%nat.
Proof.
  intros Hs Hb. destruct (BinarySearch_cut l x Hs) as (l1 & l2 & -> & Hc & H1 & _). rewrite Hb in Hc.
  injection Hc as -> Hin. symmetry in Hin. apply bool_decide_eq_true in Hin. rewrite length_app.
  destruct l2; [|cbn; lia]. rewrite app_nil_r in Hin. rewrite Forall_forall in H1. apply H1 in Hin. lia.
Qed.

Lemma chunksRemove_spec c X id : chunksRep c X -> chunksRep (chunksRemove c id) (X ∖ {[id]}).
Proof.
  intros Hr. pose proof Hr as (Hh & Hz & Hlen).
  destruct (chunkIndex_cut c X id Hr) as (cs1 & cs2 & Hc & Hi & H1 & H2).
  unfold chunksRemove. rewrite Hi. rewrite Hc in Hh, Hz, Hlen. destruct cs2 as [|d cs2].
  - rewrite Hc, app_nil_r, Nat.eqb_refl. rewrite difference_absent; [done|]. intros Hin. destruct Hh as [_ Hh]. apply Hh in Hin.
    rewrite app_nil_r in Hin. apply H1 in Hin. lia.
  - destruct H2 as (y & Hy & Hle). rewrite Hc, length_app. cbn [length].
    destruct (Nat.eqb_spec (length cs1) (length cs1 + S (length cs2))); [lia|].
    unfold chunkAt. rewrite Hc, list_lookup_middle by done. change (default [] (Some d)) with d.
    pose proof (chunk_after _ _ _ _ _ _ Hh Hy Hle) as H3. rewrite concat_mid in Hh, Hlen.
    apply Forall_app in Hz as [Hz1 Hz2]. apply Forall_cons in Hz2 as [Hzd Hz2].
    destruct (mid_found X _ _ _ id Hh H1 H3) as [i Hb]. rewrite Hb. case_bool_decide as Hin; cbn [negb]; [|by rewrite difference_absent].
    pose proof (search_remove _ _ _ _ _ _ Hh Hb) as Hrem.
    pose proof (removeAt_length i d (BinarySearch_in _ _ _ (holds_ascending _ _ _ _ Hh) Hb)) as Hrl.
    unfold chunkSized in Hzd. destruct (removeAt i d) as [|z d'] eqn:Ed; unfold chunksRep; cbn [ch_chunks ch_length].
    + rewrite removeAt_app, concat_app by done. split; [done|]. split; [by apply Forall_app|].
      rewrite !length_app in *. cbn [length] in Hrl. lia.
    + rewrite insert_app_r_alt, Nat.sub_diag by lia. cbn [list_insert insert]. rewrite concat_mid. split; [done|]. split.
      * apply Forall_app. split; [done|]. constructor; [unfold chunkSized; cbn [length] in *; lia|done].
      * rewrite !length_app in *. cbn [length] in *. lia.
Qed.

(** ** The radix table *)

(** The table has a root for exactly the high parts of its identifiers. *)
Lemma root_members {V} `{MapOrder (pageRoot V)} (zero : V) (m : PagedMap V) (g : gmap N V) high :
  rep zero m g -> is_Some (root m high) <-> exists id, is_Some (g !! id) /\ N.shiftr id 20 = high.
Proof.
  intros (Hwf & Hl & _). assert (Hhigh : forall id, (pageIndexes (N.shiftr id 6)).1.1 = N.shiftr id 20).
  { intros id. rewrite pageIndexes_eq. cbn [fst]. by rewrite <- N.shiftr_div_pow2, N.shiftr_shiftr. }
  split.
  - intros [r Hr]. destruct (proj1 Hwf _ _ Hr) as (Hh & _ & Hne & Hb). apply all_nil_false in Hne as (i & b & Hi).
    destruct (Hb _ _ Hi) as (_ & Hne & Hp). apply all_nil_false in Hne as (j & p & Hj). destruct (Hp _ _ Hj) as (_ & Hocc & H0).
    assert (Hk : (pageKey high i j, p) ∈ rootPages high (root m high)).
    { rewrite Hr. apply elem_of_rootPages. by eexists i, j, b. }
    apply rootPages_root in Hk as [Hk Hhk]; [|done]. destruct (wf_pageByKey _ _ _ Hwf Hk) as [_ Hkey].
    apply exists_bit in H0 as [s Hs]. assert (Hs64 : s < 64).
    { apply N.nle_gt. intros Hle. by rewrite (testbit_above _ 64) in Hs. }
    destruct (entryID_parts _ _ Hkey Hs64) as [E1 E2]. exists (entryID (pageKey high i j) s). split.
    + rewrite <- Hl. unfold lookupID. rewrite E1, E2, Hk. cbn. by rewrite testSlot_eq, Hs.
    + by rewrite <- Hhigh, E1.
  - intros (id & Hid & <-). rewrite <- Hl in Hid. unfold lookupID in Hid.
    destruct (pageByKey m (N.shiftr id 6)) as [p|] eqn:E; [|by destruct Hid].
    destruct (pageIndexes (N.shiftr id 6)) as [[h b] s] eqn:Ei. rewrite <- Hhigh, Ei. cbn.
    destruct (pageByKey_Some m _ _ _ _ _ Ei E) as (r & ? & Hr & _). by rewrite Hr.
Qed.

Section radix.
Context `{MapOrder (pageRoot unit)}.

Definition radixRep (r : propertyPostingRadix) (X : gset N) : Prop :=
  rep tt (rx_ids r) (gset_to_gmap tt X) /\
  holds (rx_roots r) (set_map (fun id => N.shiftr id 20) X ∖ {[0]}).

Lemma radix_roots (m : PagedMap unit) X high :
  rep tt m (gset_to_gmap tt X) -> is_Some (root m high) <-> high ∈ (set_map (fun id => N.shiftr id 20) X : gset N).
Proof.
  intros Hr. rewrite (root_members tt m _ high Hr), elem_of_map. split.
  - intros (id & [[] Hid] & <-). apply lookup_gset_to_gmap_Some in Hid as [? _]. eauto.
  - intros (id & -> & Hid). exists id. split; [|done]. exists tt. by apply lookup_gset_to_gmap_Some.
Qed.

Lemma radixRep_empty : radixRep (mkRadix NewPagedMap []) ∅.
Proof. split; cbn; [rewrite gset_to_gmap_empty; apply rep_new|]. split; [constructor|set_solver]. Qed.

Lemma orderedIDs_spec r X : radixRep r X -> holds (orderedIDs r) X.
Proof.
  intros [Hrep [Hs Hin]]. unfold orderedIDs.
  destruct (orderedRoots_spec tt (rx_ids r) (gset_to_gmap tt X) Hrep (rx_roots r)) as [Ho Hp]; [done| |].
  { intros h. rewrite Hin, (radix_roots _ X h Hrep). set_solver. }
  split.
  - clear -Ho. induction Ho as [|[x []] l Hl IH Hx]; [constructor|]. cbn. constructor; [done|].
    apply Forall_fmap. exact Hx.
  - intros x. rewrite Hp. rewrite list_elem_of_fmap. split.
    + intros ([y []] & -> & Hy%elem_of_map_to_list). by apply lookup_gset_to_gmap_Some in Hy as [? _].
    + intros Hx. exists (x, tt). split; [done|]. apply elem_of_map_to_list. by apply lookup_gset_to_gmap_Some.
Qed.

Lemma radixAdd_spec r X id : radixRep r X -> id < 2 ^ 64 -> radixRep (radixAdd r id) ({[id]} ∪ X).
Proof.
  intros [Hrep Hroots] Hid. unfold radixAdd, radixRep. cbn [rx_ids rx_roots]. split.
  { rewrite gset_to_gmap_union_singleton. by apply rep_Set. }
  set (high := N.shiftr id 20). rewrite set_map_union_L, set_map_singleton_L. fold high.
  set (R := set_map _ X) in *. assert (Hroot : is_Some (root (rx_ids r) high) <-> high ∈ R) by by apply radix_roots.
  destruct (N.eqb_spec high 0) as [E0|E0]; cbn [negb andb].
  { replace (({[high]} ∪ R) ∖ {[0]}) with (R ∖ {[0]}); [done|]. set_solver. }
  case_bool_decide as E.
  - rewrite E in Hroot. assert (Hno : high ∉ R) by (rewrite <- Hroot; by intros [? ?]).
    replace (({[high]} ∪ R) ∖ {[0]}) with ({[high]} ∪ R ∖ {[0]}) by set_solver.
    destruct (BinarySearch (rx_roots r) high) as [i f] eqn:Eb.
    assert (f = false) as ->.
    { change f with (i, f).2. rewrite <- Eb, (search_found _ _ _ Hroots). apply bool_decide_eq_false_2. set_solver. }
    pose proof (search_insert [] (rx_roots r) [] (R ∖ {[0]}) high i) as Hins. rewrite !app_nil_r in Hins.
    apply Hins; [done|set_solver|set_solver|done].
  - replace (({[high]} ∪ R) ∖ {[0]}) with (R ∖ {[0]}); [done|].
    assert (high ∈ R); [|set_solver]. apply Hroot. by apply not_eq_None_Some.
Qed.

Lemma highs_delete (X : gset N) id :
  let f := fun id => N.shiftr id 20 in
  (set_map f X : gset N) ⊆ {[f id]} ∪ set_map f (X ∖ {[id]}) /\ (set_map f (X ∖ {[id]}) : gset N) ⊆ set_map f X.
Proof.
  cbn zeta. split; intros h; rewrite ?elem_of_union, !elem_of_map, ?elem_of_singleton.
  - intros (y & -> & Hy). destruct (decide (y = id)) as [->|]; [by left|right]. exists y. set_solver.
  - intros (y & -> & Hy). exists y. set_solver.
Qed.

Lemma radixRemove_spec r X id : radixRep r X -> radixRep (radixRemove r id) (X ∖ {[id]}).
Proof.
  intros [Hrep Hroots]. pose proof (rep_Delete tt _ _ id Hrep) as Hdel. rewrite <- gset_to_gmap_difference_singleton in Hdel.
  destruct (highs_delete X id) as [Hsub1 Hsub2]. set (high := N.shiftr id 20) in *. unfold radixRep in *.
  pose proof (radix_roots _ _ high Hdel) as Hroot.
  set (R' := set_map _ (X ∖ {[id]})) in *. set (R := set_map _ X) in *.
  unfold radixRemove. fold high. clearbody high R R'. destruct (N.eqb_spec high 0) as [E0|E0]; cbn [orb].
  { cbn [rx_ids rx_roots]. split; [done|]. replace (R' ∖ {[0]}) with (R ∖ {[0]}) by set_solver. done. }
  case_bool_decide as E; cbn [negb].
  2:{ cbn [rx_ids rx_roots]. split; [done|]. assert (high ∈ R') by (apply Hroot; by apply not_eq_None_Some).
      replace (R' ∖ {[0]}) with (R ∖ {[0]}) by set_solver. done. }
  assert (Hno : high ∉ R') by (rewrite <- Hroot, E; by intros [? ?]).
  destruct (BinarySearch (rx_roots r) high) as [i f] eqn:Eb. cbn [rx_ids rx_roots]. split; [by destruct f|].
  pose proof (search_found _ _ high Hroots) as Hf. rewrite Eb in Hf. cbn in Hf. destruct f; symmetry in Hf.
  - apply bool_decide_eq_true in Hf. pose proof (search_remove [] (rx_roots r) [] (R ∖ {[0]}) high i) as Hrem.
    rewrite !app_nil_r in Hrem. replace (R' ∖ {[0]}) with ((R ∖ {[0]}) ∖ {[high]}) by set_solver. by apply Hrem.
  - apply bool_decide_eq_false in Hf. replace (R' ∖ {[0]}) with (R ∖ {[0]}) by set_solver. done.
Qed.

(** ** Postings *)

(** Exactly one form is in use, and it stands for [X]. *)
Definition postingRep (p : propertyPosting) (X : gset N) : Prop :=
  match large p, chunks p with
  | Some r, None => small p = [] /\ radixRep r X
  | None, Some c => small p = [] /\ chunksRep c X
  | None, None => (length (small p) <= smallPostingLimit)%nat /\ holds (small p) X
  | Some _, Some _ => False
  end.

Lemma postingRep_empty : postingRep emptyPosting ∅.
Proof. split; [cbn; unfold smallPostingLimit; lia|apply holds_nil]. Qed.

Lemma postingAll_spec p X : postingRep p X -> holds (postingAll p) X.
Proof.
  unfold postingRep, postingAll. destruct (large p) as [r|], (chunks p) as [c|]; [done|..].
  - intros [_ Hr]. by apply orderedIDs_spec.
  - by intros [_ [Hc _]].
  - by intros [_ ?].
Qed.

Lemma postingHas_spec p X id : postingRep p X -> postingHas p id = bool_decide (id ∈ X).
Proof.
  unfold postingRep, postingHas. destruct (large p) as [r|], (chunks p) as [c|]; [done|..].
  - intros [_ [(_ & Hl & _) _]]. rewrite (Has_lookup tt), Hl. apply bool_decide_ext. rewrite <- elem_of_dom, dom_gset_to_gmap. done.
  - intros [_ Hc]. by apply chunksHas_spec.
  - intros [_ Hs]. by apply search_found.
Qed.

Lemma postingLen_spec p X : postingRep p X -> postingLen p = Z.of_nat (size X).
Proof.
  unfold postingRep, postingLen. destruct (large p) as [r|], (chunks p) as [c|]; [done|..].
  - intros [_ [(_ & _ & Hl & _) _]]. unfold Len. rewrite Hl. by rewrite <- size_dom, dom_gset_to_gmap.
  - intros [_ (Hc & _ & ->)]. by rewrite (holds_size _ _ Hc).
  - intros [_ Hs]. by rewrite (holds_size _ _ Hs).
Qed.

Lemma settleRadix_spec p r X : small p = [] -> chunks p = None -> radixRep r X -> postingRep (settleRadix p r) X.
Proof.
  intros Hs Hc Hr. unfold settleRadix. destruct (shouldUseChunks r); unfold postingRep; cbn; rewrite ?Hc.
  - split; [done|]. apply newPropertyPostingChunks_spec, orderedIDs_spec, Hr.
  - done.
Qed.

Lemma radixAdd_all ids r X :
  radixRep r X -> Forall (fun id => id < 2 ^ 64) ids -> radixRep (foldl radixAdd r ids) (X ∪ list_to_set ids).
Proof.
  revert r X. induction ids as [|id ids IH]; intros r X Hr Hids; cbn.
  - by rewrite union_empty_r_L.
  - apply Forall_cons in Hids as [Hid Hids]. rewrite (assoc_L (∪)), (comm_L (∪) X).
    apply IH; [|done]. by apply radixAdd_spec.
Qed.

Lemma postingAdd_spec p X id :
  postingRep p X -> id < 2 ^ 64 -> (forall x, x ∈ X -> x < 2 ^ 64) -> postingRep (postingAdd p id) ({[id]} ∪ X).
Proof.
  intros Hp Hid HX. unfold postingRep in Hp. unfold postingAdd. destruct (large p) as [r|] eqn:El, (chunks p) as [c|] eqn:Ec; [contradiction|..].
  - destruct Hp as [Hs Hr]. apply settleRadix_spec; [done|done|]. by apply radixAdd_spec.
  - destruct Hp as [Hs Hr]. split; [done|]. by apply chunksAdd_spec.
  - destruct Hp as [Hlen Hs]. pose proof (search_found _ _ id Hs) as Hf.
    destruct (BinarySearch (small p) id) as [i f] eqn:Eb. cbn in Hf. destruct f; symmetry in Hf.
    { apply bool_decide_eq_true in Hf. rewrite union_present by done. unfold postingRep. by rewrite El, Ec. }
    pose proof (search_insert [] (small p) [] X id i) as Hins. rewrite !app_nil_r in Hins. cbn [app] in Hins.
    specialize (Hins Hs ltac:(set_solver) ltac:(set_solver) Eb). set (ids := insertAt i id (small p)) in *.
    destruct (Nat.leb_spec (length ids) smallPostingLimit); [done|].
    destruct (propertyPostingShouldPromote ids); cbn [negb]; (split; [done|]).
    + replace ({[id]} ∪ X) with ((∅ : gset N) ∪ list_to_set ids).
      * apply radixAdd_all; [apply radixRep_empty|]. apply Forall_forall. intros x Hx. apply Hins in Hx. set_solver.
      * destruct Hins as [_ Hins]. set_solver.
    + by apply newPropertyPostingChunks_spec.
Qed.

Lemma postingRemove_spec p X id : postingRep p X -> postingRep (postingRemove p id) (X ∖ {[id]}).
Proof.
  intros Hp. unfold postingRep in Hp. unfold postingRemove. destruct (large p) as [r|] eqn:El, (chunks p) as [c|] eqn:Ec; [contradiction|..].
  - destruct Hp as [Hs Hr]. apply settleRadix_spec; [done|done|]. by apply radixRemove_spec.
  - destruct Hp as [Hs Hr]. split; [done|]. by apply chunksRemove_spec.
  - destruct Hp as [Hlen Hs]. pose proof (search_found _ _ id Hs) as Hf.
    destruct (BinarySearch (small p) id) as [i f] eqn:Eb. cbn in Hf. destruct f; symmetry in Hf; cbn [negb].
    + pose proof (search_remove [] (small p) [] X id i) as Hrem. rewrite !app_nil_r in Hrem. cbn [app] in Hrem.
      specialize (Hrem Hs Eb). split; [|done]. cbn.
      rewrite removeAt_length by (eapply BinarySearch_in; [apply Hs|exact Eb]). lia.
    + apply bool_decide_eq_false in Hf. rewrite difference_absent by done. unfold postingRep. by rewrite El, Ec.
Qed.
End radix.
