(* ===== verification/StringPostings.v ===== *)
(** * Postings in buckets

    Postings of both kinds (labels and edge types, values of a property) are kept in Go
    maps by key, the maps in a shard map by the hash of the key. [bucketsRep] says that
    buckets stand for a set of identifiers for every key; writing and deleting one entry
    changes the set of its key only.

    Further down: the postings of labels and edge types, and that they keep a set of
    identifiers for every string. *)
From S2P Require Import Prelude.
From S2P Require Import GoBytes.
From S2P Require Import GoMaps.
From S2P Require Import ShardMap.
From S2P Require Import PropertyPostings.

Section buckets.
Context {K L : Type} `{Countable K} (hash : K -> N) (rep : L -> gset N -> Prop).
Abbreviation buckets := (gmap N (gmap K L)).
Implicit Types (gb : buckets) (f : K -> gset N) (ex : K -> Prop).

Definition stored gb (key : K) : Prop := exists bk, gb !! hash key = Some bk /\ is_Some (bk !! key).

(** Every list stands for its set, and is there when the set is not empty; only the
    lists of the keys [ex] may stand for an empty one. *)
Definition bucketsRep gb f ex : Prop :=
  (forall h bk key l, gb !! h = Some bk -> bk !! key = Some l -> hash key = h /\ rep l (f key) /\ (f key = ∅ -> ex key)) /\
  (forall key, f key <> ∅ -> stored gb key) /\ (forall h bk, gb !! h = Some bk -> bk <> ∅).

Definition setFor (key : K) (X : gset N) f : K -> gset N := fun k => if decide (k = key) then X else f k.

Lemma stored_insert gb key l k : stored (<[hash key := <[key := l]> (default ∅ (gb !! hash key))]> gb) k <-> k = key \/ stored gb k.
Proof.
  unfold stored. destruct (decide (hash k = hash key)) as [Eh|Eh].
  - rewrite Eh, lookup_insert_eq. split.
    + intros (bk & [= <-] & Hk). destruct (decide (k = key)); [by left|right]. rewrite lookup_insert_ne in Hk by done.
      destruct (gb !! hash key) as [bk|]; [eauto|]. cbn in Hk. rewrite lookup_empty in Hk. by destruct Hk.
    + intros Hk. eexists. split; [done|]. destruct (decide (k = key)) as [->|]; [rewrite lookup_insert_eq; eauto|].
      rewrite lookup_insert_ne by done. destruct Hk as [|(bk & Hbk & Hk)]; [done|]. by rewrite Hbk.
  - rewrite lookup_insert_ne by done. split; [eauto|]. intros [->|]; [done|done].
Qed.

Lemma bucketsRep_insert gb f ex ex' key l X :
  bucketsRep gb f ex -> rep l X -> (X = ∅ -> ex' key) -> (forall k, ex k -> k <> key -> ex' k) ->
  bucketsRep (<[hash key := <[key := l]> (default ∅ (gb !! hash key))]> gb) (setFor key X f) ex'.
Proof.
  intros (Hall & Hst & Hne) Hl HX Hex. split; [|split].
  - intros h bk k l' Hh Hk. destruct (decide (h = hash key)) as [->|Eh].
    + rewrite lookup_insert_eq in Hh. injection Hh as <-. unfold setFor. destruct (decide (k = key)) as [->|Ek].
      * rewrite lookup_insert_eq in Hk. injection Hk as <-. done.
      * rewrite lookup_insert_ne in Hk by done. destruct (gb !! hash key) as [bk|] eqn:E; cbn in Hk.
        -- destruct (Hall _ _ _ _ E Hk) as (H1 & H2 & H3). split; [done|]. split; [done|]. intros E0. by apply Hex; [apply H3|].
        -- by rewrite lookup_empty in Hk.
    + rewrite lookup_insert_ne in Hh by done. destruct (Hall _ _ _ _ Hh Hk) as (H1 & H2 & H3). unfold setFor.
      assert (k <> key) by congruence. rewrite decide_False by done. split; [done|]. split; [done|]. intros E0. by apply Hex; [apply H3|].
  - intros k Hk. apply stored_insert. unfold setFor in Hk. destruct (decide (k = key)); [by left|]. right. by apply Hst.
  - intros h bk. destruct (decide (h = hash key)) as [->|Eh].
    + rewrite lookup_insert_eq. intros [= <-]. apply insert_non_empty.
    + rewrite lookup_insert_ne by done. apply Hne.
Qed.

Lemma insert_grows gb (h : N) (b : gmap K L) (h' : N) : is_Some (gb !! h') -> is_Some (<[h := b]> gb !! h').
Proof. rewrite lookup_insert_is_Some. intros. destruct (decide (h = h')); eauto. Qed.

Lemma bucketsRep_ext gb f f' ex : (forall k, f k = f' k) -> bucketsRep gb f ex -> bucketsRep gb f' ex.
Proof.
  intros Hf (H1 & H2 & H3). split; [|split; [|done]].
  - intros h bk k l. rewrite <- Hf. apply H1.
  - intros k. rewrite <- Hf. apply H2.
Qed.

Lemma setFor_same key f k : setFor key (f key) f k = f k.
Proof. unfold setFor. by destruct (decide (k = key)) as [->|]. Qed.

Lemma stored_bucket gb key : stored gb key -> is_Some (gb !! hash key).
Proof. intros (bk & Hbk & _). eauto. Qed.

(** A key taken out of its bucket, and the bucket with its last key. *)
Lemma bucketsRep_delete gb gb' f key bk :
  bucketsRep gb f (eq key) -> gb !! hash key = Some bk ->
  (forall h, gb' !! h = if decide (h = hash key) then (if decide (delete key bk = ∅) then None else Some (delete key bk)) else gb !! h) ->
  bucketsRep gb' (setFor key ∅ f) (fun _ => False) /\ forall k, stored gb k -> k <> key -> stored gb' k.
Proof.
  intros (Hall & Hst & Hne) Hbk Hgb.
  assert (Hstored : forall k, stored gb k -> k <> key -> stored gb' k).
  { intros k (bk' & Hbk' & [l Hk]) Hnk. unfold stored. rewrite Hgb. destruct (decide (hash k = hash key)) as [Eh|Eh]; [|eauto].
    rewrite Eh, Hbk in Hbk'. injection Hbk' as <-. pose proof (lookup_delete_ne bk key k ltac:(congruence)) as Hd. rewrite Hk in Hd.
    destruct (decide (delete key bk = ∅)) as [E0|_]; [by rewrite E0, lookup_empty in Hd|]. eexists. split; [done|]. rewrite Hd. eauto. }
  split; [|done]. split; [|split].
  - intros h b k l Hh Hk. rewrite Hgb in Hh.
    assert (Hold : k <> key /\ exists b', gb !! h = Some b' /\ b' !! k = Some l).
    { destruct (decide (h = hash key)) as [->|Eh].
      - destruct (decide (delete key bk = ∅)); [done|]. injection Hh as <-. rewrite lookup_delete in Hk. case_decide; [done|]. eauto.
      - split; [|eauto]. intros ->. by destruct (Hall _ _ _ _ Hh Hk) as [<- _]. }
    destruct Hold as (Hnk & b' & Hb' & Hk'). destruct (Hall _ _ _ _ Hb' Hk') as (H1 & H2 & H3). unfold setFor.
    rewrite decide_False by done. split; [done|]. split; [done|]. intros E0. by rewrite <- (H3 E0) in Hnk.
  - intros k Hk. unfold setFor in Hk. destruct (decide (k = key)); [done|]. apply Hstored; [by apply Hst|done].
  - intros h b. rewrite Hgb. destruct (decide (h = hash key)); [|apply Hne]. destruct (decide (delete key bk = ∅)); [done|]. by intros [= <-].
Qed.

Lemma lookup_bucket_delete gb key bk h :
  delete (hash key) gb !! h = (if decide (h = hash key) then None else gb !! h) /\
  <[hash key := bk]> gb !! h = (if decide (h = hash key) then Some bk else gb !! h).
Proof. rewrite lookup_delete, lookup_insert. repeat case_decide; congruence || done. Qed.
End buckets.

(** * Postings of labels and edge types (internal/store/store.go)

    The identifiers that carry one string: a Go map while there are at most 64, a shard
    map from then on. Postings are kept in buckets by the hash of the string.

    A Go map in a bucket is written in place through the reference that [Get] returns;
    [assignBucket] is that write. It needs the bucket to be there: a write to a nil map
    panics, which is [None] here. *)

(** FNV-1a *)
Definition hashString (value : gostring) : N :=
  foldl (fun hash b => u64 (N.lxor hash (byteN b) * 1099511628211)) 14695981039346656037 value.

Record postingList := mkList { pl_small : option (gmap N unit); pl_large : ShardMap unit }.
Definition zeroList : postingList := mkList None zeroShardMap.

Record StringPostings := mkPostings {
  sp_buckets : ShardMap (gmap gostring postingList);
  clonedHashes : option (gset N);
  clonedKeys : option (gset gostring) }.

Definition NewStringPostings : StringPostings := mkPostings NewShardMap None None.
Definition postingsFork (p : StringPostings) : StringPostings := mkPostings (shardFork (sp_buckets p)) None None.

Definition isLarge (l : postingList) : bool := match sm_root (pl_large l) with Some _ => true | None => false end.

Definition bucketOf (p : StringPostings) (hash : N) : gmap gostring postingList := shardGet ∅ (sp_buckets p) hash.
Definition listOf (p : StringPostings) (key : gostring) : postingList := default zeroList (bucketOf p (hashString key) !! key).

Section lists.
Context `{MapOrder unit}.

Definition listLen (l : postingList) : Z :=
  if isLarge l then shardLen (pl_large l) else Z.of_nat (size (default ∅ (pl_small l))).
Definition listHas (l : postingList) (id : N) : bool :=
  if isLarge l then shardHas (pl_large l) id else bool_decide (is_Some (default ∅ (pl_small l) !! id)).
Definition listAll (l : postingList) : list N :=
  if isLarge l then (shardAll (pl_large l)).*1 else rangeKeys 0 (default ∅ (pl_small l)).

Definition postingsGet (p : StringPostings) (key : gostring) : list N := merge_sort N.le (listAll (listOf p key)).
Definition postingsLen (p : StringPostings) (key : gostring) : Z := listLen (listOf p key).
Definition postingsAll (p : StringPostings) (key : gostring) : list N := listAll (listOf p key).

(** [bucket[key] = list] and [delete(bucket, key)] *)
Definition assignBucket (p : StringPostings) (hash : N) (f : gmap gostring postingList -> gmap gostring postingList) : option StringPostings :=
  if shardHas (sp_buckets p) hash then Some (mkPostings (shardSet (sp_buckets p) hash (f (bucketOf p hash))) (clonedHashes p) (clonedKeys p))
  else None.

(** The bucket of [key] and its list made the caller's own. *)
Definition writable (p : StringPostings) (key : gostring) : option (StringPostings * postingList) :=
  let hash := hashString key in
  let buckets := shardCloneOnce (sp_buckets p) hash in
  let '(hashes, keys) := match clonedHashes p with Some h => (h, default ∅ (clonedKeys p)) | None => (∅, ∅) end in
  let '(buckets, hashes) :=
    if bool_decide (hash ∈ hashes) then (buckets, hashes)
    else (shardSet buckets hash (shardGet ∅ buckets hash), {[hash]} ∪ hashes) in
  let p := mkPostings buckets (Some hashes) (Some keys) in
  if bool_decide (key ∈ keys) then Some (p, listOf p key)
  else
    let l := listOf p key in
    let l := if isLarge l then mkList (pl_small l) (shardFork (pl_large l))
             else match pl_small l with None => mkList (Some ∅) (pl_large l) | Some _ => l end in
    match assignBucket p hash <[key := l]> with
    | None => None
    | Some p => Some (mkPostings (sp_buckets p) (clonedHashes p) (Some ({[key]} ∪ keys)), l)
    end.

Definition listAdd (l : postingList) (id : N) : option postingList :=
  if isLarge l then Some (mkList (pl_small l) (shardSet (shardCloneOnce (pl_large l) id) id tt))
  else
    match pl_small l with
    | None => None
    | Some small =>
        let small := <[id := tt]> small in
        Some (if (smallPostingLimit <? size small)%nat
              then mkList None (foldl (fun m id => shardSet m id tt) newPostingShardMap (rangeKeys 0 small))
              else mkList (Some small) (pl_large l))
    end.

Definition postingsAdd (p : StringPostings) (key : gostring) (id : N) : option StringPostings :=
  match writable p key with
  | None => None
  | Some (p, l) =>
      match listAdd l id with
      | None => None
      | Some l => assignBucket p (hashString key) <[key := l]>
      end
  end.

Definition listRemove (l : postingList) (id : N) : postingList :=
  if isLarge l then mkList (pl_small l) (shardDelete (shardCloneOnce (pl_large l) id) id)
  else mkList (delete id <$> pl_small l) (pl_large l).

Definition postingsRemove (p : StringPostings) (key : gostring) (id : N) : option StringPostings :=
  let hash := hashString key in
  if negb (listHas (listOf p key) id) then Some p
  else
    match writable p key with
    | None => None
    | Some (p, l) =>
        let l := listRemove l id in
        if (listLen l =? 0)%Z then
          let bucket := delete key (bucketOf p hash) in
          let keys := (fun keys => keys ∖ {[key]}) <$> clonedKeys p in
          if bool_decide (bucket = ∅) then
            Some (mkPostings (shardDelete (sp_buckets p) hash) ((fun hashes => hashes ∖ {[hash]}) <$> clonedHashes p) keys)
          else
            match assignBucket p hash (delete key) with
            | None => None
            | Some p => Some (mkPostings (sp_buckets p) (clonedHashes p) keys)
            end
        else assignBucket p hash <[key := l]>
    end.
End lists.

(** [Keys]: every bucket, and every key of it in an order of the runtime's choosing. *)
Definition postingsKeys `{MapOrder (gmap gostring postingList)} (order : gmap gostring postingList -> list gostring) (p : StringPostings) : list gostring :=
  concat (map (fun e => order e.2) (shardAll (sp_buckets p))).

(** * Postings of labels and edge types: a set of identifiers for every string *)

(** ** One list *)

Section lists.
Context `{MapOrder unit}.

Definition listRep (l : postingList) (X : gset N) : Prop :=
  if isLarge l then srep (pl_large l) (gset_to_gmap tt X)
  else pl_small l = Some (gset_to_gmap tt X) /\ (size X <= smallPostingLimit)%nat.

Lemma size_gset_to_gmap (X : gset N) : size (gset_to_gmap tt X) = size X.
Proof. by rewrite <- size_dom, dom_gset_to_gmap. Qed.

Lemma has_gset_to_gmap (X : gset N) id : is_Some (gset_to_gmap tt X !! id) <-> id ∈ X.
Proof. by rewrite <- elem_of_dom, dom_gset_to_gmap. Qed.

Lemma listLen_spec l X : listRep l X -> listLen l = Z.of_nat (size X).
Proof.
  unfold listRep, listLen. destruct (isLarge l).
  - intros (_ & _ & _ & Hl). unfold shardLen. by rewrite Hl, size_gset_to_gmap.
  - intros [-> _]. cbn. by rewrite size_gset_to_gmap.
Qed.

Lemma listHas_spec l X id : listRep l X -> listHas l id = bool_decide (id ∈ X).
Proof.
  unfold listRep, listHas. destruct (isLarge l).
  - intros Hr. rewrite (srep_Has _ _ _ Hr). apply bool_decide_ext, has_gset_to_gmap.
  - intros [-> _]. apply bool_decide_ext, has_gset_to_gmap.
Qed.

Lemma keys_gset_to_gmap (X : gset N) : (map_to_list (gset_to_gmap tt X)).*1 ≡ₚ elements X.
Proof.
  apply NoDup_Permutation; [apply NoDup_fst_map_to_list|apply NoDup_elements|]. intros x. rewrite elem_of_elements, <- has_gset_to_gmap.
  rewrite list_elem_of_fmap. split.
  - intros ([y v] & -> & Hy%elem_of_map_to_list). eauto.
  - intros [v Hv]. exists (x, v). split; [done|]. by apply elem_of_map_to_list.
Qed.

Lemma listAll_spec l X : listRep l X -> listAll l ≡ₚ elements X.
Proof.
  unfold listRep, listAll. rewrite <- keys_gset_to_gmap. destruct (isLarge l).
  - intros Hr. by rewrite (srep_All _ _ Hr).
  - intros [-> _]. apply rangeKeys_perm.
Qed.

Lemma fill_spec ids (m : ShardMap unit) X :
  srep m (gset_to_gmap tt X) -> srep (foldl (fun m id => shardSet m id tt) m ids) (gset_to_gmap tt (X ∪ list_to_set ids)).
Proof.
  revert m X. induction ids as [|id ids IH]; intros m X Hr; cbn; [by rewrite union_empty_r_L|].
  rewrite (assoc_L (∪)), (comm_L (∪) X). apply IH. rewrite gset_to_gmap_union_singleton. by apply srep_Set.
Qed.

Lemma fill_large ids (m : ShardMap unit) : is_Some (sm_root m) -> is_Some (sm_root (foldl (fun m id => shardSet m id tt) m ids)).
Proof.
  revert m. induction ids as [|id ids IH]; intros m Hm; [done|]. cbn [foldl]. apply IH.
  destruct (shardsOf m id) as [b s] eqn:E. rewrite (shardSet_eq m id tt b s E). cbn. eauto.
Qed.

Lemma isLarge_spec l : isLarge l = true <-> is_Some (sm_root (pl_large l)).
Proof. unfold isLarge. destruct (sm_root (pl_large l)); split; [eauto|done|done|by intros []]. Qed.

Lemma clone_large (m : ShardMap unit) id : is_Some (sm_root m) -> is_Some (sm_root (shardCloneOnce m id)).
Proof. intros Hm. unfold shardCloneOnce. destruct (shardsOf m id). by case_bool_decide. Qed.

Lemma delete_large (m : ShardMap unit) id : is_Some (sm_root m) -> is_Some (sm_root (shardDelete m id)).
Proof.
  intros Hm. unfold shardDelete. destruct (shardsOf m id) as [b s]. destruct (sm_root m) as [root|] eqn:E; [|done].
  destruct (idx root b); [|by rewrite E]. destruct (idx _ s); [|by rewrite E]. case_bool_decide; [by rewrite E|].
  destruct (negb _); [done|]. by destruct (if smallCount m <=? 2 then _ else _).
Qed.

Lemma listAdd_spec l X id : listRep l X -> exists l', listAdd l id = Some l' /\ listRep l' ({[id]} ∪ X).
Proof.
  unfold listRep at 1, listAdd. destruct (isLarge l) eqn:El.
  - intros Hr. apply isLarge_spec in El. eexists. split; [done|]. unfold listRep.
    rewrite (proj2 (isLarge_spec (mkList _ (shardSet _ _ _)))).
    + cbn. rewrite gset_to_gmap_union_singleton. by apply srep_Set, srep_CloneOnce.
    + apply (fill_large [id]), clone_large, El.
  - intros [-> Hs]. rewrite <- gset_to_gmap_union_singleton, size_gset_to_gmap. eexists. split; [done|].
    destruct (Nat.ltb_spec smallPostingLimit (size ({[id]} ∪ X))) as [Hlt|Hge]; unfold listRep.
    + rewrite (proj2 (isLarge_spec (mkList _ (foldl _ _ _)))); [|apply fill_large; eauto]. cbn [pl_large].
      set (Y := {[id]} ∪ X). replace Y with (∅ ∪ list_to_set (rangeKeys 0 (gset_to_gmap tt Y)) : gset N) at 2.
      * apply fill_spec. rewrite gset_to_gmap_empty. by apply srep_empty.
      * apply set_eq. intros x. rewrite elem_of_union, elem_of_list_to_set, elem_of_rangeKeys, has_gset_to_gmap. set_solver.
    + assert (El' : isLarge (mkList (Some (gset_to_gmap tt ({[id]} ∪ X))) (pl_large l)) = false) by exact El. by rewrite El'.
Qed.

Lemma listRemove_spec l X id : listRep l X -> listRep (listRemove l id) (X ∖ {[id]}).
Proof.
  unfold listRep at 1, listRemove. destruct (isLarge l) eqn:El.
  - intros Hr. apply isLarge_spec in El. unfold listRep. rewrite (proj2 (isLarge_spec (mkList _ (shardDelete _ _)))).
    + cbn. rewrite gset_to_gmap_difference_singleton. by apply srep_Delete, srep_CloneOnce.
    + apply delete_large, clone_large, El.
  - intros [Hs Hz]. unfold listRep. assert (El' : forall sm, isLarge (mkList sm (pl_large l)) = false) by (intros; exact El). rewrite El', Hs.
    cbn. rewrite gset_to_gmap_difference_singleton. split; [done|]. etransitivity; [|exact Hz]. apply subseteq_size. set_solver.
Qed.
End lists.

(** ** Buckets *)

Section postings.
Context `{MapOrder unit} `{MapOrder (gmap gostring postingList)}.
Abbreviation buckets := (gmap N (gmap gostring postingList)).
Implicit Types (gb : buckets) (f : gostring -> gset N) (ex : gostring -> Prop).
Abbreviation stored := (stored hashString).
Abbreviation bucketsRep := (bucketsRep hashString listRep).

Definition marksOK (p : StringPostings) gb : Prop :=
  (forall hashes h, clonedHashes p = Some hashes -> h ∈ hashes -> is_Some (gb !! h)) /\
  (forall keys key, clonedHashes p <> None -> clonedKeys p = Some keys -> key ∈ keys -> stored gb key).

Definition postingsRepX (p : StringPostings) f ex : Prop :=
  exists gb, srep (sp_buckets p) gb /\ bucketsRep gb f ex /\ marksOK p gb.
Definition postingsRep p f := postingsRepX p f (fun _ => False).

Lemma bucketOf_spec p gb h : srep (sp_buckets p) gb -> bucketOf p h = default ∅ (gb !! h).
Proof. intros Hr. unfold bucketOf. by rewrite (srep_Get ∅ _ _ h Hr). Qed.

Lemma listOf_stored p gb key : srep (sp_buckets p) gb -> stored gb key -> exists bk, gb !! hashString key = Some bk /\ bk !! key = Some (listOf p key).
Proof. intros Hr (bk & Hbk & [l Hl]). exists bk. split; [done|]. unfold listOf. by rewrite (bucketOf_spec _ _ _ Hr), Hbk; cbn; rewrite Hl. Qed.

(** The list of a key, nil when it has none. *)
Lemma listOf_spec p gb f ex key :
  srep (sp_buckets p) gb -> bucketsRep gb f ex -> listRep (listOf p key) (f key) \/ listOf p key = zeroList /\ f key = ∅ /\ ~ stored gb key.
Proof.
  intros Hr (Hall & Hst & _). destruct (gb !! hashString key) as [bk|] eqn:E.
  - destruct (bk !! key) as [l|] eqn:El.
    + left. assert (Hk : stored gb key) by (exists bk; rewrite El; eauto). destruct (listOf_stored _ _ _ Hr Hk) as (bk' & E' & Hl).
      by apply (Hall _ _ _ _ E' Hl).
    + right. assert (Hno : ~ stored gb key) by (intros (bk' & E' & [l' Hl']); congruence). split; [|split; [|done]].
      * unfold listOf. by rewrite (bucketOf_spec _ _ _ Hr), E; cbn; rewrite El.
      * destruct (decide (f key = ∅)); [done|]. by destruct Hno; apply Hst.
  - right. assert (Hno : ~ stored gb key) by (intros (bk' & E' & _); congruence). split; [|split; [|done]].
    + unfold listOf. by rewrite (bucketOf_spec _ _ _ Hr), E; cbn; rewrite lookup_empty.
    + destruct (decide (f key = ∅)); [done|]. by destruct Hno; apply Hst.
Qed.

Lemma marksOK_grow p p' gb gb' :
  marksOK p gb -> clonedHashes p' = clonedHashes p -> clonedKeys p' = clonedKeys p ->
  (forall h, is_Some (gb !! h) -> is_Some (gb' !! h)) -> (forall k, stored gb k -> stored gb' k) -> marksOK p' gb'.
Proof. intros [H1 H2] E1 E2 Hh Hk. split; rewrite E1, ?E2; eauto. Qed.

(** A list written into its bucket. *)
Lemma assign_list p gb f ex ex' key l X :
  srep (sp_buckets p) gb -> bucketsRep gb f ex -> marksOK p gb -> is_Some (gb !! hashString key) -> listRep l X ->
  (X = ∅ -> ex' key) -> (forall k, ex k -> k <> key -> ex' k) ->
  exists p', assignBucket p (hashString key) <[key := l]> = Some p' /\ clonedHashes p' = clonedHashes p /\ clonedKeys p' = clonedKeys p /\
    exists gb', srep (sp_buckets p') gb' /\ bucketsRep gb' (setFor key X f) ex' /\ marksOK p' gb' /\ stored gb' key /\ is_Some (gb' !! hashString key).
Proof.
  intros Hr Hb Hm Hh Hl HX Hex. unfold assignBucket. rewrite (srep_Has _ _ _ Hr), bool_decide_eq_true_2 by done.
  eexists. split; [done|]. split; [done|]. split; [done|]. rewrite (bucketOf_spec _ _ _ Hr). eexists. split; [by apply srep_Set|].
  split; [by eapply bucketsRep_insert|]. split; [|split].
  - eapply marksOK_grow; [done|done|done|intros; by apply insert_grows|]. intros k Hk. apply stored_insert. by right.
  - apply stored_insert. by left.
  - rewrite lookup_insert_eq. eauto.
Qed.

(** The list [writable] hands out: a copy, or an empty list of its own. *)
Lemma own_list l X :
  listRep l X \/ l = zeroList /\ X = ∅ ->
  listRep (if isLarge l then mkList (pl_small l) (shardFork (pl_large l))
           else match pl_small l with None => mkList (Some ∅) (pl_large l) | Some _ => l end) X.
Proof.
  intros [Hl|[-> ->]].
  - unfold listRep in Hl. destruct (isLarge l) eqn:El.
    + unfold listRep. assert (El' : isLarge (mkList (pl_small l) (shardFork (pl_large l))) = true) by exact El. rewrite El'. cbn. by apply srep_Fork.
    + destruct Hl as [Hs Hz]. rewrite Hs. unfold listRep. by rewrite El.
  - change (pl_small (mkList (Some ∅) zeroShardMap) = Some (gset_to_gmap tt ∅) /\ (size (∅ : gset N) <= smallPostingLimit)%nat).
    rewrite gset_to_gmap_empty, size_empty. split; [done|]. unfold smallPostingLimit. lia.
Qed.

Lemma marks_now p gb :
  marksOK p gb ->
  let '(hashes, keys) := match clonedHashes p with Some h => (h, default ∅ (clonedKeys p)) | None => (∅, ∅) end in
  (forall h, h ∈ hashes -> is_Some (gb !! h)) /\ (forall key, key ∈ keys -> stored gb key).
Proof.
  intros [H1 H2]. destruct (clonedHashes p) as [hs|] eqn:E; [|split; set_solver]. split; [by eauto|].
  intros key Hk. destruct (clonedKeys p) as [ks|] eqn:Ek; [|set_solver]. by apply (H2 ks).
Qed.

Lemma writable_spec p gb f key :
  srep (sp_buckets p) gb -> bucketsRep gb f (fun _ => False) -> marksOK p gb ->
  exists p' l gb', writable p key = Some (p', l) /\ listRep l (f key) /\
    srep (sp_buckets p') gb' /\ bucketsRep gb' f (eq key) /\ marksOK p' gb' /\ stored gb' key.
Proof.
  intros Hr Hb Hm. unfold writable. pose proof (marks_now p gb Hm) as Hnow.
  destruct (match clonedHashes p with Some h => _ | None => _ end) as [hashes keys]. destruct Hnow as [Hh Hk].
  set (hash := hashString key). apply (srep_CloneOnce _ _ hash) in Hr as Hr0. set (buckets0 := shardCloneOnce _ _) in *.
  rewrite (srep_Get ∅ _ _ hash Hr0).
  assert (Hstep : exists buckets1 hashes1, (if bool_decide (hash ∈ hashes) then (buckets0, hashes) else (shardSet buckets0 hash (default ∅ (gb !! hash)), {[hash]} ∪ hashes)) = (buckets1, hashes1) /\
      srep buckets1 (<[hash := default ∅ (gb !! hash)]> gb) /\ hash ∈ hashes1 /\ forall h, h ∈ hashes1 -> h = hash \/ h ∈ hashes).
  { case_bool_decide as Ein; eexists _, _; (split; [done|]).
    - destruct (Hh _ Ein) as [bk Hbk]. rewrite Hbk. cbn. rewrite insert_id by done. eauto.
    - split; [by apply srep_Set|]. set_solver. }
  destruct Hstep as (buckets1 & hashes1 & -> & Hr1 & Hin & Hhs). set (p1 := mkPostings buckets1 (Some hashes1) (Some keys)).
  assert (Hbof : bucketOf p1 hash = default ∅ (gb !! hash)) by (rewrite (bucketOf_spec p1 _ _ Hr1), lookup_insert_eq; done).
  assert (Hlof : listOf p1 key = listOf p key) by (unfold listOf; fold hash; by rewrite Hbof, (bucketOf_spec p _ _ Hr)).
  case_bool_decide as Ekey.
  - exists p1, (listOf p1 key), gb. destruct (Hk _ Ekey) as (bk & Hbk & Hbkk). fold hash in Hbk. rewrite Hbk in Hr1. cbn in Hr1. rewrite insert_id in Hr1 by done.
    assert (Hst : stored gb key) by (exists bk; eauto). split; [done|]. split.
    { rewrite Hlof. destruct (listOf_spec p gb f _ key Hr Hb) as [?|(_ & _ & ?)]; [done|done]. }
    split; [done|]. split; [|split; [|done]].
    + destruct Hb as (B1 & B2 & B3). split; [|done]. intros h b k l E1 E2. destruct (B1 _ _ _ _ E1 E2) as (? & ? & B). split; [done|]. split; [done|]. intros E0. by destruct (B E0).
    + split; cbn; [intros ? h [= <-] [->|?]%Hhs; [by rewrite Hbk|by apply Hh]|]. intros ? k _ [= <-]. apply Hk.
  - rewrite Hlof. set (l := if isLarge (listOf p key) then _ else _).
    assert (Hl : listRep l (f key)) by (apply own_list; destruct (listOf_spec p gb f _ key Hr Hb) as [?|(? & ? & _)]; auto).
    unfold assignBucket. change (sp_buckets p1) with buckets1. rewrite (srep_Has _ _ hash Hr1), bool_decide_eq_true_2 by (rewrite lookup_insert_eq; eauto). rewrite Hbof.
    eexists _, l, (<[hash := <[key := l]> (default ∅ (gb !! hash))]> gb). split; [done|]. split; [done|]. cbn [sp_buckets clonedHashes clonedKeys].
    split; [|split; [|split]].
    + rewrite <- (insert_insert_eq gb hash _ (default ∅ (gb !! hash))). by apply srep_Set.
    + eapply bucketsRep_ext; [apply (setFor_same key f)|]. by eapply bucketsRep_insert.
    + split; cbn.
      * intros ? h [= <-] [->|Hin']%Hhs; [rewrite lookup_insert_eq; eauto|]. by apply insert_grows, Hh.
      * intros ? k _ [= <-] Hk'. apply stored_insert. apply elem_of_union in Hk' as [->%elem_of_singleton|Hk']; [by left|right; by apply Hk].
    + apply stored_insert. by left.
Qed.

Lemma postingsAdd_spec p f key id :
  postingsRep p f -> exists p', postingsAdd p key id = Some p' /\ postingsRep p' (setFor key ({[id]} ∪ f key) f).
Proof.
  intros (gb & Hr & Hb & Hm). destruct (writable_spec p gb f key Hr Hb Hm) as (p1 & l & gb1 & Hw & Hl & Hr1 & Hb1 & Hm1 & Hst).
  unfold postingsAdd. rewrite Hw. destruct (listAdd_spec l _ id Hl) as (l' & -> & Hl').
  edestruct (assign_list p1 gb1 f (eq key) (fun _ => False) key l' _ Hr1 Hb1 Hm1 (stored_bucket _ _ _ Hst) Hl') as (p2 & -> & _ & _ & gb2 & Hr2 & Hb2 & Hm2 & _).
  - set_solver.
  - intros k <-. done.
  - eexists. split; [done|]. exists gb2. done.
Qed.

Lemma marks_removed (p p' : StringPostings) gb gb' key :
  marksOK p gb -> (forall k, stored gb k -> k <> key -> stored gb' k) ->
  (forall hashes h, clonedHashes p' = Some hashes -> h ∈ hashes -> is_Some (gb' !! h)) ->
  (clonedHashes p' <> None -> clonedHashes p <> None) ->
  clonedKeys p' = (fun keys => keys ∖ {[key]}) <$> clonedKeys p -> marksOK p' gb'.
Proof.
  intros [_ M2] Hs Hhs Hnn Hks. split; [done|]. intros ks k Hc. rewrite Hks. destruct (clonedKeys p) as [ks1|] eqn:Ek; [|done].
  cbn. intros [= <-] Hk. apply Hs; [apply (M2 ks1); [by apply Hnn|done|set_solver]|set_solver].
Qed.

Lemma postingsRemove_spec p f key id :
  postingsRep p f -> exists p', postingsRemove p key id = Some p' /\ postingsRep p' (setFor key (f key ∖ {[id]}) f).
Proof.
  intros (gb & Hr & Hb & Hm). unfold postingsRemove.
  assert (Hhas : listHas (listOf p key) id = bool_decide (id ∈ f key)).
  { destruct (listOf_spec p gb f _ key Hr Hb) as [Hl|(-> & -> & _)]; [by apply listHas_spec|]. unfold listHas. cbn. rewrite lookup_empty. symmetry. by apply bool_decide_eq_false_2. }
  rewrite Hhas. case_bool_decide as Hin; cbn [negb].
  2:{ eexists. split; [done|]. exists gb. split; [done|]. split; [|done]. eapply bucketsRep_ext; [|exact Hb]. intros k. unfold setFor.
      case_decide as Ek; [subst k; set_solver|done]. }
  destruct (writable_spec p gb f key Hr Hb Hm) as (p1 & l & gb1 & Hw & Hl & Hr1 & Hb1 & Hm1 & Hst). rewrite Hw.
  apply (listRemove_spec l _ id) in Hl. rewrite (listLen_spec _ _ Hl).
  destruct (Z.eqb_spec (Z.of_nat (size (f key ∖ {[id]}))) 0) as [E0|E0].
  - assert (Hempty : f key ∖ {[id]} = ∅) by (apply leibniz_equiv, size_empty_inv; lia). rewrite Hempty.
    pose proof Hst as (bk & Hbk & _). rewrite (bucketOf_spec _ _ _ Hr1), Hbk. cbn [default from_option]. change (Datatypes.id bk) with bk.
    case_bool_decide as Ebk.
    + eexists. split; [done|]. exists (delete (hashString key) gb1). cbn [sp_buckets]. split; [by apply srep_Delete|].
      edestruct (bucketsRep_delete hashString listRep gb1 (delete (hashString key) gb1) f key bk Hb1 Hbk) as [Hb2 Hs2].
      { intros h. rewrite (proj1 (lookup_bucket_delete hashString _ _ ∅ _)). by rewrite (decide_True _ _ Ebk). }
      split; [done|]. apply (marks_removed p1 _ gb1 _ key); [done|done| | |done]; cbn.
      * intros hs h. destruct (clonedHashes p1) as [hs1|] eqn:Eh; [|done]. cbn. intros [= <-] [Hh Hnh]%elem_of_difference.
        rewrite lookup_delete_ne by set_solver. by apply (proj1 Hm1 hs1).
      * destruct (clonedHashes p1); done.
    + unfold assignBucket. rewrite (srep_Has _ _ _ Hr1), bool_decide_eq_true_2 by eauto. rewrite (bucketOf_spec _ _ _ Hr1), Hbk.
      eexists. split; [done|]. eexists. cbn [sp_buckets clonedHashes default from_option]. change (Datatypes.id bk) with bk.
      split; [by apply srep_Set|].
      edestruct (bucketsRep_delete hashString listRep gb1 (<[hashString key := delete key bk]> gb1) f key bk Hb1 Hbk) as [Hb2 Hs2].
      { intros h. rewrite (proj2 (lookup_bucket_delete hashString _ _ _ _)). by rewrite (decide_False _ _ Ebk). }
      split; [done|]. apply (marks_removed p1 _ gb1 _ key); [done|done| |done|done]; cbn. intros hs h Hhs Hh. apply insert_grows. by apply (proj1 Hm1 hs).
  - edestruct (assign_list p1 gb1 f (eq key) (fun _ => False) key _ _ Hr1 Hb1 Hm1 (stored_bucket _ _ _ Hst) Hl) as (p2 & -> & _ & _ & gb2 & Hr2 & Hb2 & Hm2 & _).
    + intros E. rewrite E, size_empty in E0. done.
    + intros k <-. done.
    + eexists. split; [done|]. exists gb2. done.
Qed.

(** ** Reading *)

Lemma postingsRep_new : postingsRep NewStringPostings (fun _ => ∅).
Proof.
  exists ∅. split; [by apply srep_empty|]. split; [|split; cbn; [done|done]]. split; [|split].
  - intros h bk key l. by rewrite lookup_empty.
  - done.
  - intros h bk. by rewrite lookup_empty.
Qed.

Lemma postingsRep_fork p f : postingsRep p f -> postingsRep (postingsFork p) f.
Proof. intros (gb & Hr & Hb & _). exists gb. split; [by apply srep_Fork|]. split; [done|]. split; cbn; done. Qed.

Lemma listOf_all p f key : postingsRep p f -> listAll (listOf p key) ≡ₚ elements (f key) /\ listLen (listOf p key) = Z.of_nat (size (f key)).
Proof.
  intros (gb & Hr & Hb & _). destruct (listOf_spec p gb f _ key Hr Hb) as [Hl|(-> & -> & _)].
  - split; [by apply listAll_spec|by apply listLen_spec].
  - unfold listAll, listLen. cbn. rewrite elements_empty, size_empty, map_size_empty. split; [|done]. rewrite rangeKeys_perm. by rewrite map_to_list_empty.
Qed.

Lemma postingsGet_spec p f key : postingsRep p f -> holds (postingsGet p key) (f key).
Proof.
  intros Hr. destruct (listOf_all p f key Hr) as [Hp _]. unfold postingsGet.
  assert (Hm : merge_sort N.le (listAll (listOf p key)) ≡ₚ elements (f key)) by (by rewrite merge_sort_Permutation). split.
  - apply sorted_le_lt; [apply (StronglySorted_merge_sort N.le)|]. rewrite Hm. apply NoDup_elements.
  - intros x. rewrite Hm. apply elem_of_elements.
Qed.

Lemma postingsKeys_spec order p f :
  (forall m, order m ≡ₚ (map_to_list m).*1) -> postingsRep p f ->
  NoDup (postingsKeys order p) /\ forall key, key ∈ postingsKeys order p <-> f key <> ∅.
Proof.
  intros Ho (gb & Hr & (Hall & Hst & _) & _). pose proof (srep_All _ _ Hr) as Hp. unfold postingsKeys.
  assert (Hin : forall e, e ∈ shardAll (sp_buckets p) <-> gb !! e.1 = Some e.2) by (intros [h b]; rewrite Hp; apply elem_of_map_to_list).
  assert (Hord : forall b k, k ∈ order b <-> is_Some (b !! k)).
  { intros b k. rewrite Ho, list_elem_of_fmap. split.
    - intros ([k' l] & -> & Hk%elem_of_map_to_list). eauto.
    - intros [l Hk]. exists (k, l). split; [done|]. by apply elem_of_map_to_list. }
  split.
  - apply nodup_concat_map.
    + rewrite Hp. apply NoDup_map_to_list.
    + intros e _. rewrite Ho. apply NoDup_fst_map_to_list.
    + intros [h b] [h' b'] k H1%Hin H2%Hin [l Hk]%Hord [l' Hk']%Hord. cbn in *.
      destruct (Hall _ _ _ _ H1 Hk) as [<- _], (Hall _ _ _ _ H2 Hk') as [<- _]. congruence.
  - intros k. rewrite elem_of_concat_map. split.
    + intros ([h b] & H1%Hin & [l Hk]%Hord). cbn in *. destruct (Hall _ _ _ _ H1 Hk) as (_ & _ & Hne). intros E0. by apply Hne.
    + intros (b & Hb & Hk)%Hst. exists (hashString k, b). split; [by apply Hin|by apply Hord].
Qed.
End postings.
