(* ===== verification/PropertyKeys.v ===== *)
(** * SHA-256 (crypto/sha256)

    The digest the property indexes use for keys of byte strings, vectors, lists and maps,
    as FIPS 180-4 defines it, on 32-bit words.

    Further down: the keys of property indexes, and that they tell values apart. *)
From S2P Require Import Prelude.
From S2P Require Import GoBytes.
From S2P Require Import BinaryCodec.
From S2P Require Import BinaryCodecSpec.
From S2P Require Import BinaryValue.
From S2P Require Import BinaryValueSpec.
From S2P Require Import GoMaps.
From S2P Require Import Values.
From S2P Require Import ValuesSpec.
From Stdlib Require Import Strings.Byte.
From Stdlib Require Strings.String.

Definition u32 (x : N) : N := x mod 2 ^ 32.
Definition rotr (x n : N) : N := N.lor (N.shiftr x n) (u32 (N.shiftl x (32 - n))).

Definition sigma0 (x : N) : N := N.lxor (N.lxor (rotr x 7) (rotr x 18)) (N.shiftr x 3).
Definition sigma1 (x : N) : N := N.lxor (N.lxor (rotr x 17) (rotr x 19)) (N.shiftr x 10).
Definition bigSigma0 (x : N) : N := N.lxor (N.lxor (rotr x 2) (rotr x 13)) (rotr x 22).
Definition bigSigma1 (x : N) : N := N.lxor (N.lxor (rotr x 6) (rotr x 11)) (rotr x 25).
Definition choose (x y z : N) : N := N.lxor (N.land x y) (N.ldiff z x).
Definition majority (x y z : N) : N := N.lxor (N.lxor (N.land x y) (N.land x z)) (N.land y z).

(** The largest [r] below [2 ^ bits], above the [r] found so far, whose [power]th power is at most [x]. *)
Fixpoint rootFloor (bits : nat) (power x r : N) : N :=
  match bits with
  | O => r
  | S bits =>
      let r' := r + 2 ^ N.of_nat bits in
      rootFloor bits power x (if r' ^ power <=? x then r' else r)
  end.

(** The first 32 bits of the fractional part of the [power]th root of [p]. *)
Definition rootFraction (power p : N) : N := u32 (rootFloor 40 power (p * 2 ^ (32 * power)) 0).

Definition isPrime (n : N) : bool :=
  forallb (fun d => negb (n mod d =? 0)) (N.of_nat <$> seq 2 (N.to_nat n - 2)).

(** The primes up to 311, the 64th. *)
Definition shaPrimes : list N := filter isPrime (N.of_nat <$> seq 2 310).

(** The round constants come from the cube roots of these primes and the initial state from the
    square roots of the first eight. *)
Definition shaConstants : list N := Eval vm_compute in rootFraction 3 <$> shaPrimes.
Definition shaInitial : list N := Eval vm_compute in rootFraction 2 <$> take 8 shaPrimes.

Example shaConstants_ends : (length shaConstants, head shaConstants, last shaConstants) = (64%nat, Some 0x428a2f98, Some 0xc67178f2).
Proof. reflexivity. Qed.

(** [n] items at a time. *)
Fixpoint groups {A} (fuel n : nat) (l : list A) : list (list A) :=
  match fuel, l with
  | S fuel, _ :: _ => take n l :: groups fuel n (drop n l)
  | _, _ => []
  end.

(** A one bit, zeros up to eight bytes short of a block, and the length in bits. *)
Definition shaPad (message : list byte) : list byte :=
  let used := ((length message + 9) mod 64)%nat in
  message ++ [x80] ++ replicate ((64 - used) mod 64) x00 ++ PutUint64 (8 * N.of_nat (length message)).

(** The message schedule, last word first. *)
Fixpoint schedule (rounds : nat) (words : list N) : list N :=
  match rounds with
  | O => words
  | S rounds =>
      let at_ i := default 0 (words !! i) in
      schedule rounds (u32 (sigma1 (at_ 1%nat) + at_ 6%nat + sigma0 (at_ 14%nat) + at_ 15%nat) :: words)
  end.

Definition shaRound (st : list N) (kw : N * N) : list N :=
  match st with
  | [a; b; c; d; e; f; g; h] =>
      let t1 := h + bigSigma1 e + choose e f g + kw.1 + kw.2 in
      let t2 := bigSigma0 a + majority a b c in
      [u32 (t1 + t2); a; b; c; u32 (d + t1); e; f; g]
  | _ => st
  end.

Definition shaBlock (st : list N) (block : list byte) : list N :=
  let words := rev (schedule 48 (rev (map getBE (groups 16 4 block)))) in
  zip_with (fun x y => u32 (x + y)) st (foldl shaRound st (zip shaConstants words)).

Definition Sum256 (message : list byte) : list byte :=
  let padded := shaPad message in
  concat (map PutUint32 (foldl shaBlock shaInitial (groups (length padded) 64 padded))).

(** The digests of the empty message, of abc, and of one of two blocks, as in FIPS 180. *)
Example Sum256_empty : getBE (Sum256 []) = 0xe3b0c44298fc1c149afbf4c8996fb92427ae41e4649b934ca495991b7852b855.
Proof. vm_compute. reflexivity. Qed.
Example Sum256_abc : getBE (Sum256 [x61; x62; x63]) = 0xba7816bf8f01cfea414140de5dae2223b00361a396177a9cb410ff61f20015ad.
Proof. vm_compute. reflexivity. Qed.
Example Sum256_two_blocks :
  getBE (Sum256 (concat (map (fun i => map (fun j => toByte (97 + i + j)) [0; 1; 2; 3]) (N.of_nat <$> seq 0 14)))) =
  0x248d6a61d20638b8e5c026930c3e6039a33ce45964ff2167f6ecedd419db06c1.
Proof. vm_compute. reflexivity. Qed.

(** * Keys of property indexes (internal/store/property_index.go)

    A value is looked up by a fixed-size key: scalars and strings by themselves, byte
    strings, vectors, lists and maps by the SHA-256 digest of an encoding. Negative zero
    is indexed as zero.

    A value that [NormalizeValue] does not return has no encoding ([None]); the code
    reports it with one error. *)

Import String.StringSyntax.

Record propertyValueKey := mkKey { pk_kind : N; pk_number : N; pk_text : gostring; pk_digest : list byte }.

Definition zeroDigest : list byte := replicate 32 x00.
Definition boolByte (b : bool) : byte := if b then x01 else x00.
Definition uint64OfInt (i : Z) : N := Z.to_N (i mod 2 ^ 64).
(** [if x == 0 { x = 0 }] on bit patterns. *)
Definition unsignedZero64 (bits : N) : N := if bits =? 2 ^ 63 then 0 else bits.
Definition unsignedZero32 (bits : N) : N := if bits =? 2 ^ 31 then 0 else bits.

Definition propertyKind (v : value) : N :=
  match v with
  | VVector _ => 7
  | VList _ => 8
  | VMap _ => 9
  | _ => 0
  end.

Definition countBytes {A} (l : list A) : list byte := PutUint64 (nlen l).

(** The writes of a loop, [None] when one of its turns fails. *)
Fixpoint writeEach {A} (f : A -> option (list byte)) (l : list A) : option (list byte) :=
  match l with
  | [] => Some []
  | x :: l =>
      match f x with
      | None => None
      | Some b => match writeEach f l with None => None | Some rest => Some (b ++ rest) end
      end
  end.

Fixpoint writePropertyValueHash (v : value) : option (list byte) :=
  match v with
  | VNil => Some [x01]
  | VBool b => Some [x02; boolByte b]
  | VInt i => Some (x03 :: PutUint64 (uint64OfInt i))
  | VFloat bits => Some (x04 :: PutUint64 (unsignedZero64 bits))
  | VString s => Some (x05 :: countBytes s ++ s)
  | VBytes b => Some (x06 :: countBytes (elems b) ++ elems b)
  | VVector l => Some (x07 :: countBytes (elems l) ++ concat (map (fun item => PutUint32 (unsignedZero32 item)) (elems l)))
  | VList l =>
      let items := match l with None => [] | Some l => map writePropertyValueHash l end in
      match writeEach (fun item => item) items with
      | None => None
      | Some rest => Some (x08 :: countBytes items ++ rest)
      end
  | VMap m =>
      let fields := match m with None => [] | Some m => map (fun kv => (kv.1, writePropertyValueHash kv.2)) m end in
      let keys := sortKeys fields.*1 in
      match writeEach (fun name => match mapLookup name fields with
                                   | Some (Some b) => Some (countBytes name ++ name ++ b)
                                   | _ => None
                                   end) keys with
      | None => None
      | Some rest => Some (x09 :: countBytes keys ++ rest)
      end
  | _ => None
  end.

Definition errNotNormalized : error := ErrNew "property index value is not normalized"%string.

Definition makePropertyValueKey (v : value) : propertyValueKey + error :=
  match v with
  | VNil => inl (mkKey 1 0 [] zeroDigest)
  | VBool b => inl (mkKey 2 (byteN (boolByte b)) [] zeroDigest)
  | VInt i => inl (mkKey 3 (uint64OfInt i) [] zeroDigest)
  | VFloat bits => inl (mkKey 4 (unsignedZero64 bits) [] zeroDigest)
  | VString s => inl (mkKey 5 0 s zeroDigest)
  | VBytes b => inl (mkKey 6 0 [] (Sum256 (elems b)))
  | VVector _ | VList _ | VMap _ =>
      match writePropertyValueHash v with
      | None => inr errNotNormalized
      | Some written => inl (mkKey (propertyKind v) 0 [] (Sum256 written))
      end
  | _ => inr errNotNormalized
  end.

(** FNV-1a over the fields. *)
Definition fnvStep (hash x : N) : N := u64 (N.lxor hash x * 1099511628211).
Definition hashPropertyValueKey (key : propertyValueKey) : N :=
  let hash := fnvStep (N.lxor 14695981039346656037 (pk_kind key)) (pk_number key) in
  let hash := foldl (fun hash b => fnvStep hash (byteN b)) hash (pk_text key) in
  foldl (fun hash b => fnvStep hash (byteN b)) hash (pk_digest key).

Definition propertyIndexValuesEqual (left right : value) : bool :=
  match writePropertyValueHash left, writePropertyValueHash right with
  | Some l, Some r => bool_decide (l = r)
  | _, _ => false
  end.

(** * Keys of property indexes: they tell values apart

    The encoding is a prefix code for values up to the sign of zero and the listing of
    maps ([canonV]), so two values share a key only when they are the same value, or when
    two different byte strings share a SHA-256 digest. *)

(** ** What an index tells apart *)

Fixpoint canonV (v : value) : value :=
  match v with
  | VFloat bits => VFloat (unsignedZero64 bits)
  | VBytes b => VBytes (Some (elems b))
  | VVector l => VVector (Some (map unsignedZero32 (elems l)))
  | VList l => VList (Some (optMap canonV l))
  | VMap m => VMap (Some (mapOf (optMap (onEntry canonV) m) []))
  | _ => v
  end.

(** The encoding, for values that have one. *)
Definition encField (kv : gostring * list byte) : list byte := countBytes kv.1 ++ kv.1 ++ kv.2.
Fixpoint encH (v : value) : list byte :=
  match v with
  | VNil => [x01]
  | VBool b => [x02; boolByte b]
  | VInt i => x03 :: PutUint64 (uint64OfInt i)
  | VFloat bits => x04 :: PutUint64 (unsignedZero64 bits)
  | VString s => x05 :: countBytes s ++ s
  | VBytes b => x06 :: countBytes (elems b) ++ elems b
  | VVector l => x07 :: countBytes (elems l) ++ concat (map (fun item => PutUint32 (unsignedZero32 item)) (elems l))
  | VList l => x08 :: countBytes (elems l) ++ concat (optMap encH l)
  | VMap m => x09 :: countBytes (elems m) ++ concat (map encField (mapOf (optMap (onEntry encH) m) []))
  | _ => []
  end.

Lemma writeEach_all {A} (f : A -> option (list byte)) g l : Forall (fun x => f x = Some (g x)) l -> writeEach f l = Some (concat (map g l)).
Proof. induction 1 as [|x l Hx _ IH]; [done|]. cbn. by rewrite Hx, IH. Qed.

Lemma countBytes_length {A B} (l : list A) (l' : list B) : length l = length l' -> countBytes l = countBytes l'.
Proof. unfold countBytes, nlen. by intros ->. Qed.

(** Sorting the names of a map and listing its entries by name. *)
Lemma sortKeys_mapOf {A} (m : list (gostring * A)) : NoDup m.*1 -> sortKeys m.*1 = (mapOf m []).*1.
Proof.
  intros Hnd. assert (Hp : mapOf m [] ≡ₚ m) by (rewrite mapOf_perm; rewrite app_nil_r; done).
  rewrite (sortKeys_perm m.*1 (mapOf m []).*1) by (by rewrite Hp). apply sortKeys_sorted. apply mapOf_sorted. constructor.
Qed.

Lemma mapOf_onEntry {A B} (f : A -> B) (m : list (gostring * A)) : mapOf (map (onEntry f) m) [] = map (onEntry f) (mapOf m []).
Proof. exact (mapOf_fmap f m []). Qed.

Lemma mapLookup_onEntry {A B} (f : A -> B) key (m : list (gostring * A)) : mapLookup key (map (onEntry f) m) = f <$> mapLookup key m.
Proof. induction m as [|[k v] m IH]; [done|]. cbn. case_bool_decide; [done|exact IH]. Qed.

Lemma writeEach_names (f : gostring -> option (list byte)) s : Forall (fun kv => f kv.1 = Some (encField kv)) s -> writeEach f s.*1 = Some (concat (map encField s)).
Proof. induction 1 as [|x l Hx _ IH]; [done|]. cbn. by rewrite Hx, IH. Qed.

Lemma write_fields (e : list (gostring * list byte)) :
  NoDup e.*1 ->
  writeEach (fun name => match mapLookup name (map (onEntry Some) e) with
                         | Some (Some b) => Some (countBytes name ++ name ++ b)
                         | _ => None
                         end) (sortKeys (map (onEntry Some) e).*1) = Some (concat (map encField (mapOf e []))).
Proof.
  intros Hnd. rewrite keys_onEntry, sortKeys_mapOf by done. apply writeEach_names. apply Forall_forall. intros [k b] Hk.
  assert (Hp : mapOf e [] ≡ₚ e) by (rewrite mapOf_perm; rewrite app_nil_r; done). rewrite Hp in Hk.
  apply elem_mapLookup in Hk; [|done]. rewrite mapLookup_onEntry. cbn. by rewrite Hk.
Qed.

Lemma writeHash_typed v : typedV v -> wfV v -> writePropertyValueHash v = Some (encH v).
Proof.
  induction v as [| | | | | | | | |l Hl|m Hm| | | |] using value_nested_ind; intros Ht Hw; inversion Ht; inversion Hw; subst; cbn [writePropertyValueHash encH]; try done.
  - assert (El : match l with None => [] | Some l => map writePropertyValueHash l end = map (fun v => Some (encH v)) (elems l)).
    { destruct l as [l|]; [|done]. cbn in *. apply map_ext_in. intros x Hx%list_elem_of_In. rewrite Forall_forall in *. auto. }
    rewrite El, (writeEach_all _ (default [])).
    + rewrite (countBytes_length _ (elems l)) by apply length_map. by rewrite map_map, optMap_elems.
    + apply Forall_map. by apply Forall_true.
  - assert (Em : match m with None => [] | Some m => map (fun kv => (kv.1, writePropertyValueHash kv.2)) m end = map (onEntry Some) (map (onEntry encH) (elems m))).
    { destruct m as [m|]; [|done]. cbn in *. rewrite map_map. apply map_ext_in. intros x Hx%list_elem_of_In. unfold onEntry. cbn. f_equal. rewrite !Forall_forall in *. auto. }
    rewrite Em, write_fields by (by rewrite keys_onEntry). rewrite optMap_elems. rewrite !keys_onEntry, (countBytes_length _ (elems m)); [done|].
    unfold sortKeys. by rewrite (Permutation_length (merge_sort_Permutation strLeR _)), length_fmap.
Qed.

(** ** The encoding is a prefix code *)

Lemma app_eq_len {A} (l1 l2 r1 r2 : list A) : length l1 = length l2 -> l1 ++ r1 = l2 ++ r2 -> l1 = l2 /\ r1 = r2.
Proof. intros Hl E. by apply app_inj_1. Qed.

Lemma putBE_cut n x y r1 r2 : x < 2 ^ (8 * N.of_nat n) -> y < 2 ^ (8 * N.of_nat n) -> putBE n x ++ r1 = putBE n y ++ r2 -> x = y /\ r1 = r2.
Proof.
  intros Hx Hy E. apply app_eq_len in E as [E ->]; [|by rewrite !putBE_length]. split; [|done].
  apply (f_equal getBE) in E. by rewrite !getBE_put in E.
Qed.

Lemma PutUint64_cut x y r1 r2 : x < 2 ^ 64 -> y < 2 ^ 64 -> PutUint64 x ++ r1 = PutUint64 y ++ r2 -> x = y /\ r1 = r2.
Proof. exact (putBE_cut 8 x y r1 r2). Qed.

Lemma PutUint32_cut x y r1 r2 : x < 2 ^ 32 -> y < 2 ^ 32 -> PutUint32 x ++ r1 = PutUint32 y ++ r2 -> x = y /\ r1 = r2.
Proof. exact (putBE_cut 4 x y r1 r2). Qed.

Lemma countBytes_cut {A B} (l : list A) (l' : list B) r1 r2 :
  nlen l < 2 ^ 64 -> nlen l' < 2 ^ 64 -> countBytes l ++ r1 = countBytes l' ++ r2 -> length l = length l' /\ r1 = r2.
Proof. intros H1 H2 E. apply (PutUint64_cut _ _ _ _ H1 H2) in E as [E ->]. unfold nlen in E. split; [lia|done]. Qed.

(** Elements and bytes that 64 bits count. *)
Definition countable (v : value) : Prop := elementsV v < 2 ^ 64 /\ bytesV v < 2 ^ 64.

Definition cuts (v : value) : Prop := forall w r1 r2,
  typedV v -> wfV v -> countable v -> typedV w -> wfV w -> countable w -> encH v ++ r1 = encH w ++ r2 -> canonV v = canonV w /\ r1 = r2.

Lemma unsignedZero64_bound bits : bits < 2 ^ 64 -> unsignedZero64 bits < 2 ^ 64.
Proof. unfold unsignedZero64. by case_cmp. Qed.
Lemma unsignedZero32_bound bits : bits < 2 ^ 32 -> unsignedZero32 bits < 2 ^ 32.
Proof. unfold unsignedZero32. by case_cmp. Qed.

Lemma uint64OfInt_inj i j : int64 i -> int64 j -> uint64OfInt i = uint64OfInt j -> i = j.
Proof.
  unfold int64, uint64OfInt. intros Hi Hj E.
  assert (Ez : (i mod 2 ^ 64 = j mod 2 ^ 64)%Z) by (pose proof (Z.mod_pos_bound i (2 ^ 64)); pose proof (Z.mod_pos_bound j (2 ^ 64)); lia).
  pose proof (Z.div_mod i (2 ^ 64)). pose proof (Z.div_mod j (2 ^ 64)). nia.
Qed.

Lemma uint64OfInt_bound i : uint64OfInt i < 2 ^ 64.
Proof. unfold uint64OfInt. pose proof (Z.mod_pos_bound i (2 ^ 64)). lia. Qed.

Lemma vector_cut l l' r1 r2 :
  length l = length l' -> Forall (fun x => x < 2 ^ 32) l -> Forall (fun x => x < 2 ^ 32) l' ->
  concat (map (fun item => PutUint32 (unsignedZero32 item)) l) ++ r1 = concat (map (fun item => PutUint32 (unsignedZero32 item)) l') ++ r2 ->
  map unsignedZero32 l = map unsignedZero32 l' /\ r1 = r2.
Proof.
  revert l'. induction l as [|x l IH]; intros [|y l'] Hlen Hl Hl' E; try discriminate Hlen; [done|].
  apply Forall_cons in Hl as [Hx Hl], Hl' as [Hy Hl']. cbn [map concat] in E. rewrite <- !app_assoc in E.
  apply (PutUint32_cut _ _ _ _ (unsignedZero32_bound _ Hx) (unsignedZero32_bound _ Hy)) in E as [Ex E].
  apply IH in E as [E ->]; [|by injection Hlen|done|done]. split; [|done]. cbn. by rewrite Ex, E.
Qed.

(** A value with all that [cuts] asks for. *)
Definition indexable (v : value) : Prop := typedV v /\ wfV v /\ countable v.

Lemma indexable_list l : indexable (VList l) -> Forall indexable (elems l) /\ nlen (elems l) < 2 ^ 64.
Proof.
  intros (Ht & Hw & He & Hb). inversion Ht as [| | | | | | |? Ht'|]; subst. inversion Hw as [| | | | | | | | |? Hw'| | | | |]; subst.
  cbn in He, Hb. rewrite slen_elems, optMap_elems in He. rewrite optMap_elems in Hb. split; [|lia].
  apply Forall_forall. intros x Hx. rewrite Forall_forall in Ht'. rewrite Forall_forall in Hw'. split; [auto|]. split; [auto|].
  pose proof (nsum_elem elementsV _ x Hx). pose proof (nsum_elem bytesV _ x Hx). split; lia.
Qed.

Lemma indexable_map m :
  indexable (VMap m) -> NoDup (elems m).*1 /\ Forall (fun kv => indexable kv.2 /\ nlen kv.1 < 2 ^ 64) (elems m) /\ nlen (elems m) < 2 ^ 64.
Proof.
  intros (Ht & Hw & He & Hb). inversion Ht as [| | | | | | | |? Ht']; subst. inversion Hw as [| | | | | | | | | |? Hnd Hw'| | | |]; subst.
  cbn in He, Hb. rewrite slen_elems, optMap_elems in He. rewrite optMap_elems in Hb. split; [done|]. split; [|lia].
  apply Forall_forall. intros x Hx. rewrite Forall_forall in Ht'. rewrite Forall_forall in Hw'.
  pose proof (nsum_elem (fun kv => elementsV kv.2) _ x Hx). pose proof (nsum_elem (fun kv => nlen kv.1 + bytesV kv.2) _ x Hx).
  cbn in *. split; [|lia]. split; [auto|]. split; [auto|]. split; lia.
Qed.

Lemma items_cut l l' r1 r2 :
  Forall cuts l -> length l = length l' -> Forall indexable l -> Forall indexable l' ->
  concat (map encH l) ++ r1 = concat (map encH l') ++ r2 -> map canonV l = map canonV l' /\ r1 = r2.
Proof.
  revert l'. induction l as [|x l IH]; intros [|y l'] Hc Hlen Hl Hl' E; try discriminate Hlen; [done|].
  apply Forall_cons in Hc as [Hcx Hc], Hl as [(? & ? & ?) Hl], Hl' as [(? & ? & ?) Hl']. cbn [map concat] in E. rewrite <- !app_assoc in E.
  apply Hcx in E as [Ex E]; [|done..]. apply IH in E as [E ->]; [|done|by injection Hlen|done|done]. split; [|done]. cbn. by rewrite Ex, E.
Qed.

Lemma fields_cut (s s' : list (gostring * value)) r1 r2 :
  Forall (fun kv => cuts kv.2) s -> length s = length s' ->
  Forall (fun kv => indexable kv.2 /\ nlen kv.1 < 2 ^ 64) s -> Forall (fun kv => indexable kv.2 /\ nlen kv.1 < 2 ^ 64) s' ->
  concat (map encField (map (onEntry encH) s)) ++ r1 = concat (map encField (map (onEntry encH) s')) ++ r2 ->
  map (onEntry canonV) s = map (onEntry canonV) s' /\ r1 = r2.
Proof.
  revert s'. induction s as [|[k x] s IH]; intros [|[k' y] s'] Hc Hlen Hl Hl' E; try discriminate Hlen; [done|].
  apply Forall_cons in Hc as [Hcx Hc], Hl as [[(? & ? & ?) Hk] Hl], Hl' as [[(? & ? & ?) Hk'] Hl'].
  cbn [map concat fst snd] in E, Hk, Hk'. change (encField (onEntry encH (k, x))) with (countBytes k ++ k ++ encH x) in E.
  change (encField (onEntry encH (k', y))) with (countBytes k' ++ k' ++ encH y) in E. rewrite <- !app_assoc in E.
  apply (countBytes_cut k k' _ _ Hk Hk') in E as [El E]. apply app_eq_len in E as [-> E]; [|done].
  apply Hcx in E as [Ex E]; [|done..]. apply IH in E as [E ->]; [|done|by injection Hlen|done|done]. split; [|done].
  cbn [map]. unfold onEntry at 1 3. cbn. cbn in Ex. by rewrite Ex, E.
Qed.

Lemma mapOf_whole {A} (m : list (gostring * A)) : NoDup m.*1 -> mapOf m [] ≡ₚ m.
Proof. intros. rewrite mapOf_perm; by rewrite app_nil_r. Qed.

Lemma tail_eq {A} (x : A) l l' : x :: l = x :: l' -> l = l'.
Proof. by injection 1. Qed.

Lemma encH_cuts v : cuts v.
Proof.
  induction v as [| | | | | | | | |l Hl|m Hm| | | |] using value_nested_ind; intros w r1 r2 Ht Hw Hc Ht' Hw' Hc' E;
    inversion Ht; subst; destruct Ht'; cbn [encH app] in E; try discriminate E; apply tail_eq in E; cbn [canonV].
  - done.
  - destruct b, b0; cbn in E; by simplify_eq.
  - apply (PutUint64_cut _ _ _ _ (uint64OfInt_bound _) (uint64OfInt_bound _)) in E as [E ->]. inversion Hw; inversion Hw'; subst.
    by rewrite (uint64OfInt_inj i i0).
  - inversion Hw; inversion Hw'; subst. apply PutUint64_cut in E as [-> ->]; [done|by apply unsignedZero64_bound..].
  - destruct Hc as [_ Hc], Hc' as [_ Hc']. cbn in Hc, Hc'. rewrite <- !app_assoc in E. apply (countBytes_cut _ _ _ _ Hc Hc') in E as [El E].
    by apply app_eq_len in E as [-> ->].
  - destruct Hc as [_ Hc], Hc' as [_ Hc']. cbn in Hc, Hc'. rewrite slen_elems in Hc, Hc'. rewrite <- !app_assoc in E.
    apply (countBytes_cut _ _ _ _ Hc Hc') in E as [El E]. apply app_eq_len in E as [-> ->]; done.
  - destruct Hc as [_ Hc], Hc' as [_ Hc']. cbn in Hc, Hc'. rewrite slen_elems in Hc, Hc'. rewrite <- !app_assoc in E.
    apply countBytes_cut in E as [El E]; [|lia..]. inversion Hw; inversion Hw'; subst. apply vector_cut in E as [-> ->]; done.
  - destruct (indexable_list _ (conj Ht (conj Hw Hc))) as [Hi Hn], (indexable_list _ (conj (ty_list _ H) (conj Hw' Hc'))) as [Hi' Hn'].
    rewrite <- !app_assoc in E. apply (countBytes_cut _ _ _ _ Hn Hn') in E as [El E]. rewrite !optMap_elems in *.
    apply items_cut in E as [-> ->]; done.
  - destruct (indexable_map _ (conj Ht (conj Hw Hc))) as (Hd & Hi & Hn), (indexable_map _ (conj (ty_map _ H) (conj Hw' Hc'))) as (Hd' & Hi' & Hn').
    rewrite <- !app_assoc in E. apply (countBytes_cut _ _ _ _ Hn Hn') in E as [El E]. rewrite !optMap_elems, !mapOf_onEntry in *.
    pose proof (mapOf_whole _ Hd) as Hp. pose proof (mapOf_whole _ Hd') as Hp'.
    apply fields_cut in E as [-> ->]; [done| | | |].
    + by rewrite Hp.
    + by rewrite Hp, Hp'.
    + by rewrite Hp.
    + by rewrite Hp'.
Qed.

(** ** Keys *)

Definition keyOf (v : value) : propertyValueKey :=
  match v with
  | VNil => mkKey 1 0 [] zeroDigest
  | VBool b => mkKey 2 (byteN (boolByte b)) [] zeroDigest
  | VInt i => mkKey 3 (uint64OfInt i) [] zeroDigest
  | VFloat bits => mkKey 4 (unsignedZero64 bits) [] zeroDigest
  | VString s => mkKey 5 0 s zeroDigest
  | VBytes b => mkKey 6 0 [] (Sum256 (elems b))
  | _ => mkKey (propertyKind v) 0 [] (Sum256 (encH v))
  end.

Lemma makeKey_typed v : typedV v -> wfV v -> makePropertyValueKey v = inl (keyOf v).
Proof.
  intros Ht Hw. pose proof (writeHash_typed v Ht Hw) as E. destruct Ht; try reflexivity; unfold makePropertyValueKey; by rewrite E.
Qed.

(** The bytes a key digests. *)
Definition digested (v : value) : option (list byte) :=
  match v with
  | VBytes b => Some (elems b)
  | VVector _ | VList _ | VMap _ => Some (encH v)
  | _ => None
  end.

(** Two values whose keys digest different bytes to one digest. *)
Definition collide (v w : value) : Prop :=
  exists a b, digested v = Some a /\ digested w = Some b /\ a <> b /\ Sum256 a = Sum256 b.

Lemma unsignedZero64_idem bits : unsignedZero64 (unsignedZero64 bits) = unsignedZero64 bits.
Proof. unfold unsignedZero64. destruct (N.eqb_spec bits (2 ^ 63)) as [|Hne]; [done|]. by destruct (N.eqb_spec bits (2 ^ 63)). Qed.
Lemma unsignedZero32_idem bits : unsignedZero32 (unsignedZero32 bits) = unsignedZero32 bits.
Proof. unfold unsignedZero32. destruct (N.eqb_spec bits (2 ^ 31)) as [|Hne]; [done|]. by destruct (N.eqb_spec bits (2 ^ 31)). Qed.

Lemma mapOf_again {A} (m : list (gostring * A)) : mapOf (mapOf m []) [] = mapOf m [].
Proof. apply mapOf_id, mapOf_sorted. constructor. Qed.

Lemma encH_canon v : wfV v -> encH (canonV v) = encH v.
Proof.
  induction v as [| | | | | | | | |l Hl|m Hm| | | |] using value_nested_ind; intros Hw; inversion Hw as [| | | | | | | |? Hv|? Hi|? Hd Hi| | | |]; subst; cbn [encH canonV]; try done.
  - by rewrite unsignedZero64_idem.
  - cbn [elems default from_option]. change (Datatypes.id (map unsignedZero32 (elems l))) with (map unsignedZero32 (elems l)).
    rewrite (countBytes_length _ (elems l)) by apply length_map. f_equal. f_equal. rewrite map_map. f_equal. apply map_ext. intros x. by rewrite unsignedZero32_idem.
  - rewrite !optMap_elems. cbn [elems default from_option]. change (Datatypes.id (map canonV (elems l))) with (map canonV (elems l)).
    rewrite (countBytes_length _ (elems l)) by apply length_map. f_equal. f_equal. f_equal. rewrite map_map. apply map_ext_Forall.
    by eapply Forall_mp; [exact Hl|].
  - rewrite !optMap_elems. cbn [elems default from_option]. change (Datatypes.id ?x) with x. rewrite !mapOf_onEntry, mapOf_again.
    pose proof (mapOf_whole _ Hd) as Hp. rewrite (countBytes_length _ (elems m)) by (rewrite length_map; by rewrite Hp). f_equal. f_equal. f_equal. f_equal.
    rewrite map_map. apply map_ext_Forall. apply (Forall_mp _ _ _ Hm) in Hi. rewrite <- Hp in Hi. eapply Forall_impl; [exact Hi|].
    intros kv E. unfold onEntry. cbn. by rewrite E.
Qed.

Lemma canonV_kind v : propertyKind (canonV v) = propertyKind v.
Proof. by destruct v. Qed.

Lemma keyOf_canon v : wfV v -> keyOf (canonV v) = keyOf v.
Proof.
  intros Hw. pose proof (encH_canon v Hw) as E. destruct v; cbn [keyOf canonV] in *; try done; try (by rewrite E).
  by rewrite unsignedZero64_idem.
Qed.

Lemma keyOf_inj v w : indexable v -> indexable w -> keyOf v = keyOf w -> canonV v = canonV w \/ collide v w.
Proof.
  intros (Ht & Hw & Hc) (Ht' & Hw' & Hc') E.
  assert (Hsame : digested v = Some (encH v) -> digested w = Some (encH w) -> Sum256 (encH v) = Sum256 (encH w) -> canonV v = canonV w \/ collide v w).
  { intros D1 D2 Es. destruct (decide (encH v = encH w)) as [Ee|Hne]; [left|right; by exists (encH v), (encH w)].
    apply (f_equal (fun l => l ++ [])) in Ee. by destruct (encH_cuts v w [] [] Ht Hw Hc Ht' Hw' Hc' Ee). }
  destruct Ht, Ht'; try discriminate E; cbn [keyOf propertyKind] in E.
  - by left.
  - left. by destruct b, b0.
  - left. inversion Hw; inversion Hw'; subst. injection E as E. by rewrite (uint64OfInt_inj i i0).
  - left. cbn. injection E as E. by rewrite E.
  - left. by injection E as ->.
  - injection E as E. destruct (decide (elems b = elems b0)) as [Ee|Hne]; [left; cbn; by rewrite Ee|]. right. by exists (elems b), (elems b0).
  - apply Hsame; [done|done|]. by injection E.
  - apply Hsame; [done|done|]. by injection E.
  - apply Hsame; [done|done|]. by injection E.
Qed.
