(* ===== verification/PropertyIndexes.v ===== *)
(** * Property indexes in memory (internal/store/property_index.go, internal/engine/db.go)

    For every definition (a label or edge type, and a property) the postings of every
    value, in buckets by the hash of the value's key; and the engine's upkeep of the
    indexes over a commit.

    Indexes of databases whose pages are on disk ([page] not nil) are not modelled, nor
    are the engine's cost counters and full-text postings, which the same loops adjust.
    A Go map in a bucket is written in place through the reference that [Get] returns; a
    write to a nil map, which panics, is [None]. *)
From S2P Require Import Prelude.
From S2P Require Import GoBytes.
From S2P Require Import BinaryCodec.
From S2P Require Import BinaryValue.
From S2P Require Import Values.
From S2P Require Import GoMaps.
From S2P Require Import Properties.
From S2P Require Import PageRecords.
From S2P Require Import Streams.
From S2P Require Import StreamTx.
From S2P Require Import PagedMap.
From S2P Require Import ShardMap.
From S2P Require Import PropertyPostings.
From S2P Require Import StringPostings.
From S2P Require Import PropertyKeys.
From Stdlib Require Strings.String.
Import String.StringSyntax.

Record PropertyIndexDefinition := mkDefinition { df_Scope : gostring; df_Property : gostring }.

#[global] Instance definition_eq_dec : EqDecision PropertyIndexDefinition.
Proof. solve_decision. Defined.
#[global] Program Instance definition_countable : Countable PropertyIndexDefinition :=
  inj_countable' (fun d => (df_Scope d, df_Property d)) (fun p => mkDefinition p.1 p.2) _.
Next Obligation. by intros []. Qed.

#[global] Instance valueKey_eq_dec : EqDecision propertyValueKey.
Proof. solve_decision. Defined.
#[global] Program Instance valueKey_countable : Countable propertyValueKey :=
  inj_countable' (fun k => (pk_kind k, pk_number k, pk_text k, pk_digest k)) (fun p => mkKey p.1.1.1 p.1.1.2 p.1.2 p.2) _.
Next Obligation. by intros []. Qed.

Abbreviation bucketMap := (gmap propertyValueKey propertyPosting).

(** [clonedHashes] and [clonedValues], which are made together. *)
Record propertyIndexData := mkData { pd_values : ShardMap bucketMap; pd_cloned : option (gset N * gset propertyValueKey) }.

Record PropertyIndexes := mkIndexes {
  px_definitions : gmap PropertyIndexDefinition propertyIndexData;
  px_rootCloned : bool;
  px_cloned : option (gset PropertyIndexDefinition) }.

Definition NewPropertyIndexes : PropertyIndexes := mkIndexes ∅ false None.
Definition indexesFork (ix : PropertyIndexes) : PropertyIndexes := mkIndexes (px_definitions ix) false None.
Definition indexesHas (ix : PropertyIndexes) (d : PropertyIndexDefinition) : bool := bool_decide (is_Some (px_definitions ix !! d)).
Definition indexesLen (ix : PropertyIndexes) : nat := size (px_definitions ix).

(** The order a range statement visits the definitions in is the runtime's choice. *)
Class DefinitionOrder := {
  rangeDefinitions : gmap PropertyIndexDefinition propertyIndexData -> list PropertyIndexDefinition;
  rangeDefinitions_perm : forall m, rangeDefinitions m ≡ₚ (map_to_list m).*1 }.

Section indexes.
Context `{MapOrder (pageRoot unit)} `{DefinitionOrder}.

Definition contains (scopes : list gostring) (scope : gostring) : bool := existsb (fun s => bool_decide (s = scope)) scopes.

Definition DefinitionsFor (ix : PropertyIndexes) (scopes : list gostring) (properties : Properties) : list PropertyIndexDefinition :=
  if (length scopes =? 0)%nat || (PLen properties =? 0)%nat then []
  else if (indexesLen ix <=? PLen properties)%nat then
    List.filter (fun d => contains scopes (df_Scope d) && match Lookup properties (df_Property d) with Some _ => true | None => false end)
      (rangeDefinitions (px_definitions ix))
  else
    concat (map (fun scope => List.filter (indexesHas ix) (map (fun kv => mkDefinition scope kv.1) (PAll properties))) scopes).

Definition cloneRoot (ix : PropertyIndexes) : PropertyIndexes :=
  if px_rootCloned ix then mkIndexes (px_definitions ix) true (Some (default ∅ (px_cloned ix)))
  else mkIndexes (px_definitions ix) true (Some ∅).

Definition Create (ix : PropertyIndexes) (d : PropertyIndexDefinition) : PropertyIndexes * bool :=
  if indexesHas ix d then (ix, false)
  else
    let ix := cloneRoot ix in
    (mkIndexes (<[d := mkData NewShardMap None]> (px_definitions ix)) (px_rootCloned ix) ((fun s => {[d]} ∪ s) <$> px_cloned ix), true).

Definition Drop (ix : PropertyIndexes) (d : PropertyIndexDefinition) : PropertyIndexes * bool :=
  if negb (indexesHas ix d) then (ix, false)
  else
    let ix := cloneRoot ix in
    (mkIndexes (delete d (px_definitions ix)) (px_rootCloned ix) ((fun s => s ∖ {[d]}) <$> px_cloned ix), true).

Definition writableDefinition (ix : PropertyIndexes) (d : PropertyIndexDefinition) : option (PropertyIndexes * propertyIndexData) :=
  match px_definitions ix !! d with
  | None => None
  | Some data =>
      let ix := cloneRoot ix in
      let cloned := default ∅ (px_cloned ix) in
      if bool_decide (d ∈ cloned) then Some (ix, data)
      else
        let data := mkData (shardFork (pd_values data)) None in
        Some (mkIndexes (<[d := data]> (px_definitions ix)) (px_rootCloned ix) (Some ({[d]} ∪ cloned)), data)
  end.

Definition dataBucket (data : propertyIndexData) (hashed : N) : bucketMap := shardGet ∅ (pd_values data) hashed.
Definition dataList (data : propertyIndexData) (key : propertyValueKey) : propertyPosting :=
  default emptyPosting (dataBucket data (hashPropertyValueKey key) !! key).

Definition writableBucket (data : propertyIndexData) (hashed : N) : propertyIndexData :=
  let values := shardCloneOnce (pd_values data) hashed in
  let '(hashes, keys) := default (∅, ∅) (pd_cloned data) in
  if bool_decide (hashed ∈ hashes) then mkData values (Some (hashes, keys))
  else mkData (shardSet values hashed (shardGet ∅ values hashed)) (Some ({[hashed]} ∪ hashes, keys)).

(** A write into the Go map of a bucket. *)
Definition assignData (data : propertyIndexData) (hashed : N) (f : bucketMap -> bucketMap) : option propertyIndexData :=
  if shardHas (pd_values data) hashed then Some (mkData (shardSet (pd_values data) hashed (f (dataBucket data hashed))) (pd_cloned data))
  else None.

Definition markValue (data : propertyIndexData) (key : propertyValueKey) : propertyIndexData :=
  mkData (pd_values data) ((fun c => (c.1, {[key]} ∪ c.2)) <$> pd_cloned data).
Definition unmarkValue (data : propertyIndexData) (key : propertyValueKey) : propertyIndexData :=
  mkData (pd_values data) ((fun c => (c.1, c.2 ∖ {[key]})) <$> pd_cloned data).
Definition unmarkHash (data : propertyIndexData) (hashed : N) : propertyIndexData :=
  mkData (pd_values data) ((fun c => (c.1 ∖ {[hashed]}, c.2)) <$> pd_cloned data).

Definition putData (ix : PropertyIndexes) (d : PropertyIndexDefinition) (data : propertyIndexData) : PropertyIndexes :=
  mkIndexes (<[d := data]> (px_definitions ix)) (px_rootCloned ix) (px_cloned ix).

(** [Add] and [Remove] behind [writableDefinition]: the posting of [key] changed in a
    bucket of its own. *)
Definition dataAdd (data : propertyIndexData) (key : propertyValueKey) (id : N) : option propertyIndexData :=
  let hashed := hashPropertyValueKey key in
  let data := writableBucket data hashed in
  let list := dataList data key in
  assignData (markValue data key) hashed <[key := postingAdd list id]>.

Definition dataRemove (data : propertyIndexData) (key : propertyValueKey) (id : N) : option propertyIndexData :=
  let hashed := hashPropertyValueKey key in
  let data := writableBucket data hashed in
  let list := postingRemove (dataList data key) id in
  let data := markValue data key in
  if (postingLen list =? 0)%Z then
    let data := unmarkValue data key in
    if bool_decide (delete key (dataBucket data hashed) = ∅) then
      Some (unmarkHash (mkData (shardDelete (pd_values data) hashed) (pd_cloned data)) hashed)
    else assignData data hashed (delete key)
  else assignData data hashed <[key := list]>.

(** Outer [None]: a write to a nil map. *)
Definition indexAdd (ix : PropertyIndexes) (d : PropertyIndexDefinition) (v : value) (id : N) : option (PropertyIndexes + error) :=
  match makePropertyValueKey v with
  | inr err => Some (inr err)
  | inl key =>
      match writableDefinition ix d with
      | None => Some (inl ix)
      | Some (ix, data) =>
          match dataAdd data key id with
          | None => None
          | Some data => Some (inl (putData ix d data))
          end
      end
  end.

Definition indexRemove (ix : PropertyIndexes) (d : PropertyIndexDefinition) (v : value) (id : N) : option (PropertyIndexes + error) :=
  match makePropertyValueKey v with
  | inr err => Some (inr err)
  | inl key =>
      match px_definitions ix !! d with
      | None => Some (inl ix)
      | Some data =>
          if negb (postingHas (dataList data key) id) then Some (inl ix)
          else
            match writableDefinition ix d with
            | None => Some (inl ix)
            | Some (ix, data) =>
                match dataRemove data key id with
                | None => None
                | Some data => Some (inl (putData ix d data))
                end
            end
      end
  end.

(** [None]: there is no such index. *)
Definition indexLookup (ix : PropertyIndexes) (d : PropertyIndexDefinition) (v : value) : option (list N + error) :=
  match px_definitions ix !! d with
  | None => None
  | Some data =>
      match makePropertyValueKey v with
      | inr err => Some (inr err)
      | inl key => Some (inl (postingAll (dataList data key)))
      end
  end.

Definition Cardinality (ix : PropertyIndexes) (d : PropertyIndexDefinition) (v : value) : option (Z + error) :=
  match px_definitions ix !! d with
  | None => None
  | Some data =>
      match makePropertyValueKey v with
      | inr err => Some (inr err)
      | inl key => Some (inl (postingLen (dataList data key)))
      end
  end.

(** [for id := range all { ids = append(ids, id); if len(ids) == limit { break } }] *)
Fixpoint limitLoop (ids : list N) (limit : N) (all : list N) : list N :=
  match all with
  | [] => ids
  | id :: all =>
      let ids := ids ++ [id] in
      if nlen ids =? limit then ids else limitLoop ids limit all
  end.

Definition LookupLimit (ix : PropertyIndexes) (d : PropertyIndexDefinition) (v : value) (limit : N) : option (list N + error) :=
  if limit =? max_uint64 then indexLookup ix d v
  else
    match px_definitions ix !! d with
    | None => None
    | Some data =>
        match makePropertyValueKey v with
        | inr err => Some (inr err)
        | inl key =>
            if limit =? 0 then Some (inl [])
            else Some (inl (limitLoop [] limit (postingAll (dataList data key))))
        end
    end.

(** ** Upkeep over a commit *)

Fixpoint eachDefinition (f : PropertyIndexes -> PropertyIndexDefinition -> option (PropertyIndexes + error)) (ix : PropertyIndexes)
    (ds : list PropertyIndexDefinition) : option (PropertyIndexes + error) :=
  match ds with
  | [] => Some (inl ix)
  | d :: ds =>
      match f ix d with
      | Some (inl ix) => eachDefinition f ix ds
      | r => r
      end
  end.

Definition propertiesGet (p : Properties) (key : gostring) : value := default VNil (Lookup p key).

Definition addNodePropertyIndexes (ix : PropertyIndexes) (node : option NodeRecord) : option (PropertyIndexes + error) :=
  match node with
  | None => Some (inl ix)
  | Some node =>
      eachDefinition (fun ix d => indexAdd ix d (propertiesGet (n_Properties node) (df_Property d)) (n_ID node)) ix
        (DefinitionsFor ix (elems (n_Labels node)) (n_Properties node))
  end.
Definition removeNodePropertyIndexes (ix : PropertyIndexes) (node : option NodeRecord) : option (PropertyIndexes + error) :=
  match node with
  | None => Some (inl ix)
  | Some node =>
      eachDefinition (fun ix d => indexRemove ix d (propertiesGet (n_Properties node) (df_Property d)) (n_ID node)) ix
        (DefinitionsFor ix (elems (n_Labels node)) (n_Properties node))
  end.
Definition addEdgePropertyIndexes (ix : PropertyIndexes) (edge : option EdgeRecord) : option (PropertyIndexes + error) :=
  match edge with
  | None => Some (inl ix)
  | Some edge =>
      eachDefinition (fun ix d => indexAdd ix d (propertiesGet (e_Properties edge) (df_Property d)) (e_ID edge)) ix
        (DefinitionsFor ix [e_Type edge] (e_Properties edge))
  end.
Definition removeEdgePropertyIndexes (ix : PropertyIndexes) (edge : option EdgeRecord) : option (PropertyIndexes + error) :=
  match edge with
  | None => Some (inl ix)
  | Some edge =>
      eachDefinition (fun ix d => indexRemove ix d (propertiesGet (e_Properties edge) (df_Property d)) (e_ID edge)) ix
        (DefinitionsFor ix [e_Type edge] (e_Properties edge))
  end.

Fixpoint eachID (f : PropertyIndexes -> N -> option (PropertyIndexes + error)) (ix : PropertyIndexes) (ids : list N) : option (PropertyIndexes + error) :=
  match ids with
  | [] => Some (inl ix)
  | id :: ids =>
      match f ix id with
      | Some (inl ix) => eachID f ix ids
      | r => r
      end
  end.

Definition andThen (r : option (PropertyIndexes + error)) (k : PropertyIndexes -> option (PropertyIndexes + error)) : option (PropertyIndexes + error) :=
  match r with Some (inl ix) => k ix | _ => r end.

Context `{MapOrder unit}.
Definition rangeIDs (ids : gset N) : list N := rangeKeys 0 (gset_to_gmap tt ids).

(** The loops over the changed nodes, and over the changed edges. *)
Definition applyNodeIndexChanges (ix : PropertyIndexes) (base graph : graphView) (ch : txChanges) : option (PropertyIndexes + error) :=
  andThen (eachID (fun ix id => removeNodePropertyIndexes ix (v_Nodes base !! id)) ix (rangeIDs (deleteNodes ch)))
    (fun ix => eachID (fun ix id => andThen (removeNodePropertyIndexes ix (v_Nodes base !! id))
                                      (fun ix => addNodePropertyIndexes ix (v_Nodes graph !! id))) ix (rangeIDs (upsertNodes ch))).
Definition applyEdgeIndexChanges (ix : PropertyIndexes) (base graph : graphView) (ch : txChanges) : option (PropertyIndexes + error) :=
  andThen (eachID (fun ix id => removeEdgePropertyIndexes ix (v_Edges base !! id)) ix (rangeIDs (deleteEdges ch)))
    (fun ix => eachID (fun ix id => andThen (removeEdgePropertyIndexes ix (v_Edges base !! id))
                                      (fun ix => addEdgePropertyIndexes ix (v_Edges graph !! id))) ix (rangeIDs (upsertEdges ch))).

(** The transaction's indexes of nodes and of edges, brought from [base] to [graph]. *)
Definition applyPropertyIndexChanges (nodes edges : PropertyIndexes) (base graph : graphView) (ch : txChanges) :
    option (PropertyIndexes * PropertyIndexes + error) :=
  match applyNodeIndexChanges nodes base graph ch with
  | None => None
  | Some (inr err) => Some (inr err)
  | Some (inl nodes) =>
      match applyEdgeIndexChanges edges base graph ch with
      | None => None
      | Some (inr err) => Some (inr err)
      | Some (inl edges) => Some (inl (nodes, edges))
      end
  end.

(** ** Building an index over an existing graph *)

(** What the graph's derived indexes cost so far, and the limits of the database. *)
Record derivedBudget := mkBudget { DerivedIndexWork : N; DerivedIndexLogicalBytes : N; derivedIndexBuildMaxWork : N; derivedIndexBuildMaxLogicalBytes : N }.

(** The subtractions do not wrap: they come behind the first two tests. *)
Definition exceedsDerivedBudget (b : derivedBudget) (work bytes : N) : bool :=
  (derivedIndexBuildMaxWork b <? work) || (derivedIndexBuildMaxLogicalBytes b <? bytes) ||
  (derivedIndexBuildMaxWork b - work <? DerivedIndexWork b) || (derivedIndexBuildMaxLogicalBytes b - bytes <? DerivedIndexLogicalBytes b).

Definition propertyIndexDefinitionCost (d : PropertyIndexDefinition) : N * N :=
  (1, addSaturated (u64 (nlen (df_Scope d) + nlen (df_Property d))) 192).

Definition errIndexExists : error := ErrNew "property index already exists"%string.
Definition errIndexBudget : error := ErrNew "property index build exceeds derived-index budget"%string.

(** One turn per identifier; [None] where the code reads a record that is not there. *)
Fixpoint buildLoop (b : derivedBudget) (d : PropertyIndexDefinition) (props : N -> option Properties) (ids : list N)
    (ix : PropertyIndexes) (work bytes : N) : option (PropertyIndexes * N * N + error) :=
  match ids with
  | [] => Some (inl (ix, work, bytes))
  | id :: ids =>
      let work := addSaturated work 1 in
      if exceedsDerivedBudget b work bytes then Some (inr errIndexBudget)
      else
        match props id with
        | None => None
        | Some p =>
            match Lookup p (df_Property d) with
            | None => buildLoop b d props ids ix work bytes
            | Some v =>
                let valueBytes := estimateValueBytes v in
                let work := addSaturated work (N.max 1 valueBytes) in
                let bytes := addSaturated bytes (addSaturated valueBytes 192) in
                if exceedsDerivedBudget b work bytes then Some (inr errIndexBudget)
                else
                  match indexAdd ix d v id with
                  | None => None
                  | Some (inr err) => Some (inr err)
                  | Some (inl ix) => buildLoop b d props ids ix work bytes
                  end
            end
        end
  end.

(** [ids] are the entities of the definition's scope, [props] their properties. *)
Definition buildIndex (b : derivedBudget) (ix : PropertyIndexes) (d : PropertyIndexDefinition) (ids : list N) (props : N -> option Properties) :
    option (PropertyIndexes * N * N + error) :=
  let '(ix, created) := Create (indexesFork ix) d in
  if negb created then Some (inr errIndexExists)
  else
    let '(work, bytes) := propertyIndexDefinitionCost d in
    if exceedsDerivedBudget b work bytes then Some (inr errIndexBudget)
    else buildLoop b d props ids ix work bytes.

Definition buildPropertyIndex (b : derivedBudget) (nodeIx edgeIx : PropertyIndexes) (labels edgeTypes : StringPostings) (graph : graphView)
    (node : bool) (d : PropertyIndexDefinition) : option (PropertyIndexes * N * N + error) :=
  if node then buildIndex b nodeIx d (postingsAll labels (df_Scope d)) (fun id => n_Properties <$> v_Nodes graph !! id)
  else buildIndex b edgeIx d (postingsAll edgeTypes (df_Scope d)) (fun id => e_Properties <$> v_Edges graph !! id).
End indexes.
