(* ===== verification/PropertyIndexesSpec.v ===== *)
(** * Property indexes: a set of identifiers for every definition and key

    First the postings of one definition, then the operations on the indexes, then their
    upkeep: an index that agrees with a scan of the graph agrees with a scan after a
    commit. *)
From S2P Require Import Prelude.
From S2P Require Import GoBytes.
From S2P Require Import BinaryCodec.
From S2P Require Import BinaryValue.
From S2P Require Import BinaryValueSpec.
From S2P Require Import Values.
From S2P Require Import ValuesSpec.
From S2P Require Import GoMaps.
From S2P Require Import Properties.
From S2P Require Import PageRecords.
From S2P Require Import StreamTx.
From S2P Require Import PagedMap.
From S2P Require Import ShardMap.
From S2P Require Import StringPostings.
From S2P Require Import PropertyPostings.
From S2P Require Import PropertyKeys.
From S2P Require Import PropertyIndexes.

Section spec.
Context `{MapOrder (pageRoot unit)} `{DefinitionOrder} `{MapOrder bucketMap}.
Abbreviation keySets := (propertyValueKey -> gset N).
Implicit Types (F : keySets) (data : propertyIndexData) (gb : gmap N bucketMap).

(** ** One definition *)

Definition idsRep (p : propertyPosting) (X : gset N) : Prop := postingRep p X /\ forall x, x ∈ X -> x < 2 ^ 64.
Abbreviation bucketsRep := (bucketsRep hashPropertyValueKey idsRep).
Abbreviation stored := (stored hashPropertyValueKey).
Definition nowhere (key : propertyValueKey) : Prop := False.

Definition hashesOK data gb : Prop := forall hashes keys h, pd_cloned data = Some (hashes, keys) -> h ∈ hashes -> is_Some (gb !! h).
Definition dataRep data F : Prop := exists gb, srep (pd_values data) gb /\ bucketsRep gb F nowhere /\ hashesOK data gb.

Lemma dataBucket_spec data gb h : srep (pd_values data) gb -> dataBucket data h = default ∅ (gb !! h).
Proof. intros Hr. unfold dataBucket. by rewrite (srep_Get ∅ _ _ h Hr). Qed.

Lemma dataList_spec data gb F ex key : srep (pd_values data) gb -> bucketsRep gb F ex -> idsRep (dataList data key) (F key) /\ (F key = ∅ \/ stored gb key).
Proof.
  intros Hr (Hall & Hst & _). unfold dataList. rewrite (dataBucket_spec _ _ _ Hr). destruct (decide (F key = ∅)) as [E|Hne].
  - split; [|by left]. destruct (gb !! hashPropertyValueKey key) as [bk|] eqn:Eb; cbn.
    + destruct (bk !! key) as [l|] eqn:El; cbn; [by apply (Hall _ _ _ _ Eb El)|]. rewrite E. split; [apply postingRep_empty|set_solver].
    + rewrite lookup_empty, E. split; [apply postingRep_empty|set_solver].
  - split; [|right; by apply Hst]. destruct (Hst _ Hne) as (bk & Eb & [l El]). rewrite Eb. cbn. rewrite El. by apply (Hall _ _ _ _ Eb El).
Qed.

Lemma dataRep_new : dataRep (mkData NewShardMap None) (fun _ => ∅).
Proof.
  exists ∅. split; [by apply srep_empty|]. split; [|by intros ???]. split; [|split].
  - intros h bk key l. by rewrite lookup_empty.
  - done.
  - intros h bk. by rewrite lookup_empty.
Qed.

Lemma dataRep_fork data F : dataRep data F -> dataRep (mkData (shardFork (pd_values data)) None) F.
Proof. intros (gb & Hr & Hb & _). exists gb. split; [by apply srep_Fork|]. split; [done|]. by intros ???. Qed.

(** The bucket is there, and holds what it held. *)
Lemma writableBucket_spec data gb hashed :
  srep (pd_values data) gb -> hashesOK data gb ->
  let gb' := <[hashed := default ∅ (gb !! hashed)]> gb in
  srep (pd_values (writableBucket data hashed)) gb' /\ hashesOK (writableBucket data hashed) gb'.
Proof.
  intros Hr Hh. cbn zeta. unfold writableBucket, hashesOK in *. destruct (pd_cloned data) as [[hashes keys]|]; cbn [default from_option].
  - change (Datatypes.id (hashes, keys)) with (hashes, keys). cbn iota. rewrite (srep_Get ∅ _ _ hashed (srep_CloneOnce _ _ hashed Hr)).
    case_bool_decide as Ein; cbn [pd_values pd_cloned].
    + destruct (Hh _ _ _ eq_refl Ein) as [bk Hbk]. rewrite Hbk. cbn. rewrite insert_id by done. split; [by apply srep_CloneOnce|].
      intros ? ? h [= <- <-]. by apply (Hh _ _ _ eq_refl).
    + split; [by apply srep_Set, srep_CloneOnce|]. intros ? ? h [= <- <-] [->%elem_of_singleton|Hin]%elem_of_union.
      * rewrite lookup_insert_eq. eauto.
      * apply insert_grows. by apply (Hh _ _ _ eq_refl).
  - rewrite (srep_Get ∅ _ _ hashed (srep_CloneOnce _ _ hashed Hr)). rewrite bool_decide_eq_false_2 by set_solver. cbn [pd_values pd_cloned].
    split; [by apply srep_Set, srep_CloneOnce|]. intros ? ? h [= <- <-] [->%elem_of_singleton|?]%elem_of_union; [|set_solver].
    rewrite lookup_insert_eq. eauto.
Qed.

(** A posting written into its bucket. *)
Lemma assign_posting data gb F key p X :
  let hashed := hashPropertyValueKey key in
  srep (pd_values data) (<[hashed := default ∅ (gb !! hashed)]> gb) -> bucketsRep gb F nowhere ->
  hashesOK data (<[hashed := default ∅ (gb !! hashed)]> gb) -> idsRep p X -> X <> ∅ ->
  exists data', assignData data hashed <[key := p]> = Some data' /\ dataRep data' (setFor key X F).
Proof.
  intros hashed Hr Hb Hh Hp HX. unfold assignData. rewrite (srep_Has _ _ _ Hr), bool_decide_eq_true_2 by (rewrite lookup_insert_eq; eauto).
  rewrite (dataBucket_spec _ _ _ Hr), lookup_insert_eq. cbn [default from_option]. change (Datatypes.id ?x) with x.
  eexists. split; [done|]. exists (<[hashed := <[key := p]> (default ∅ (gb !! hashed))]> gb). cbn [pd_values]. split; [|split].
  - rewrite <- (insert_insert_eq gb hashed _ (default ∅ (gb !! hashed))). by apply srep_Set.
  - by eapply bucketsRep_insert.
  - intros hashes keys h E Hin. cbn in E. specialize (Hh _ _ _ E Hin). rewrite lookup_insert_is_Some in *. destruct (decide (hashed = h)); tauto.
Qed.

Lemma dataList_writable data gb key :
  let hashed := hashPropertyValueKey key in
  srep (pd_values data) (<[hashed := default ∅ (gb !! hashed)]> gb) ->
  dataList data key = default emptyPosting (default ∅ (gb !! hashed) !! key).
Proof. intros hashed Hr. unfold dataList. fold hashed. by rewrite (dataBucket_spec _ _ _ Hr), lookup_insert_eq. Qed.

Lemma idsRep_add p X id : idsRep p X -> id < 2 ^ 64 -> idsRep (postingAdd p id) ({[id]} ∪ X).
Proof. intros [Hp HX] Hid. split; [by apply postingAdd_spec|]. set_solver. Qed.

Lemma idsRep_remove p X id : idsRep p X -> idsRep (postingRemove p id) (X ∖ {[id]}).
Proof. intros [Hp HX]. split; [by apply postingRemove_spec|]. set_solver. Qed.

Lemma data_add data F key id :
  dataRep data F -> id < 2 ^ 64 -> exists data', dataAdd data key id = Some data' /\ dataRep data' (setFor key ({[id]} ∪ F key) F).
Proof.
  intros (gb & Hr & Hb & Hh) Hid. unfold dataAdd. set (hashed := hashPropertyValueKey key). set (data1 := writableBucket data hashed).
  destruct (writableBucket_spec data gb hashed Hr Hh) as [Hr1 Hh1]. fold data1 in Hr1, Hh1.
  assert (El : dataList data1 key = dataList data key).
  { rewrite (dataList_writable data1 gb key Hr1). unfold dataList. by rewrite (dataBucket_spec _ _ _ Hr). }
  apply (assign_posting _ gb).
  - done.
  - done.
  - intros hashes keys h. cbn. destruct (pd_cloned data1) as [[hs ks]|] eqn:Ec; cbn; [|done]. intros [= <- <-]. by apply (Hh1 _ _ _ Ec).
  - rewrite El. apply idsRep_add; [|done]. by apply (dataList_spec data gb F nowhere key).
  - set_solver.
Qed.

Lemma bucketsRep_weaken gb F ex : bucketsRep gb F nowhere -> bucketsRep gb F ex.
Proof.
  intros [Ha Hb]. split; [|done]. intros h bk k l E1 E2. destruct (Ha _ _ _ _ E1 E2) as (? & ? & Hn). split; [done|]. split; [done|].
  intros E0. by destruct (Hn E0).
Qed.

Lemma hashesOK_marked data data' gb :
  hashesOK data gb -> (forall c', pd_cloned data' = Some c' -> exists c, pd_cloned data = Some c /\ c'.1 = c.1) -> hashesOK data' gb.
Proof. intros Hh Hc hashes keys h E Hin. destruct (Hc _ E) as ([hs ks] & E' & E1). cbn in E1. subst. by apply (Hh _ _ _ E'). Qed.

Lemma data_remove data F key id :
  dataRep data F -> id ∈ F key -> exists data', dataRemove data key id = Some data' /\ dataRep data' (setFor key (F key ∖ {[id]}) F).
Proof.
  intros (gb & Hr & Hb & Hh) Hid. unfold dataRemove. set (hashed := hashPropertyValueKey key). set (data1 := writableBucket data hashed).
  destruct (writableBucket_spec data gb hashed Hr Hh) as [Hr1 Hh1]. fold data1 in Hr1, Hh1.
  destruct (dataList_spec data gb F nowhere key Hr Hb) as [Hl [E|Hst]]; [set_solver|]. pose proof Hst as (bk & Hbk & _). fold hashed in Hbk.
  assert (El : dataList data1 key = dataList data key).
  { rewrite (dataList_writable data1 gb key Hr1). unfold dataList. by rewrite (dataBucket_spec _ _ _ Hr). }
  rewrite El. apply (idsRep_remove _ _ id) in Hl. rewrite (postingLen_spec _ _ (proj1 Hl)).
  assert (Hmark : forall c', pd_cloned (markValue data1 key) = Some c' -> exists c, pd_cloned data1 = Some c /\ c'.1 = c.1).
  { intros c'. cbn. destruct (pd_cloned data1) as [c|]; cbn; [|done]. intros [= <-]. by exists c. }
  destruct (Z.eqb_spec (Z.of_nat (size (F key ∖ {[id]}))) 0) as [E0|E0].
  2:{ apply (assign_posting _ gb); [done|done|by eapply hashesOK_marked|done|]. intros E. by rewrite E, size_empty in E0. }
  assert (Hempty : F key ∖ {[id]} = ∅) by (apply leibniz_equiv, size_empty_inv; lia). rewrite Hempty.
  rewrite Hbk in Hr1, Hh1. cbn [default from_option] in Hr1, Hh1. change (Datatypes.id bk) with bk in Hr1, Hh1. rewrite insert_id in Hr1, Hh1 by done.
  set (data3 := unmarkValue (markValue data1 key) key).
  assert (Hh3 : hashesOK data3 gb).
  { eapply hashesOK_marked; [exact Hh1|]. intros c'. cbn. destruct (pd_cloned data1) as [c|]; cbn; [|done]. intros [= <-]. by exists c. }
  rewrite (dataBucket_spec data3 gb hashed Hr1), Hbk. cbn [default from_option]. change (Datatypes.id bk) with bk.
  case_bool_decide as Ebk.
  - eexists. split; [done|]. exists (delete hashed gb). split; [by apply srep_Delete|].
    destruct (bucketsRep_delete hashPropertyValueKey idsRep gb (delete hashed gb) F key bk) as [Hb2 _]; [by apply bucketsRep_weaken|done| |].
    { intros h. unfold hashed. rewrite (proj1 (lookup_bucket_delete hashPropertyValueKey _ _ ∅ _)). by rewrite (decide_True _ _ Ebk). }
    split; [done|]. intros hashes keys h. cbn. destruct (pd_cloned data1) as [[hs ks]|] eqn:Ec; cbn; [|done].
    intros [= <- <-] [Hin Hne]%elem_of_difference. rewrite lookup_delete_ne by set_solver. by apply (Hh1 _ _ _ Ec).
  - unfold assignData. rewrite (srep_Has _ _ hashed (Hr1 : srep (pd_values data3) gb)), bool_decide_eq_true_2 by eauto.
    rewrite (dataBucket_spec data3 gb hashed Hr1), Hbk. eexists. split; [done|]. cbn [default from_option]. change (Datatypes.id bk) with bk.
    exists (<[hashed := delete key bk]> gb). split; [by apply srep_Set|].
    destruct (bucketsRep_delete hashPropertyValueKey idsRep gb (<[hashed := delete key bk]> gb) F key bk) as [Hb2 _]; [by apply bucketsRep_weaken|done| |].
    { intros h. unfold hashed. rewrite (proj2 (lookup_bucket_delete hashPropertyValueKey _ _ _ _)). by rewrite (decide_False _ _ Ebk). }
    split; [done|]. intros hashes keys h E Hin. apply insert_grows. by apply (Hh3 hashes keys).
Qed.

(** ** The indexes *)

Abbreviation indexSets := (PropertyIndexDefinition -> keySets).
Implicit Types (G : indexSets) (D : gset PropertyIndexDefinition) (ix : PropertyIndexes) (d : PropertyIndexDefinition).

(** The indexes [D], each standing for the sets [G] gives it. *)
Definition indexesRep ix D G : Prop :=
  dom (px_definitions ix) = D /\ forall d data, px_definitions ix !! d = Some data -> dataRep data (G d).

Definition changeAt d F G : indexSets := fun d' => if decide (d' = d) then F else G d'.

Lemma indexesRep_root ix ix' D G : px_definitions ix' = px_definitions ix -> indexesRep ix D G -> indexesRep ix' D G.
Proof. unfold indexesRep. by intros ->. Qed.

Lemma cloneRoot_definitions ix : px_definitions (cloneRoot ix) = px_definitions ix.
Proof. unfold cloneRoot. by destruct (px_rootCloned ix). Qed.

Lemma indexesHas_spec ix D G d : indexesRep ix D G -> indexesHas ix d = bool_decide (d ∈ D).
Proof. intros [<- _]. unfold indexesHas. apply bool_decide_ext. by rewrite elem_of_dom. Qed.

(** One definition's data replaced. *)
Lemma indexesRep_put ix D G d data F :
  indexesRep ix D G -> d ∈ D -> dataRep data F -> indexesRep (putData ix d data) D (changeAt d F G).
Proof.
  intros [HD HG] Hd Hdata. split; cbn.
  - rewrite dom_insert_L, HD. set_solver.
  - intros d' data'. unfold changeAt. destruct (decide (d' = d)) as [->|Hne].
    + rewrite lookup_insert_eq. by intros [= <-].
    + rewrite lookup_insert_ne by done. apply HG.
Qed.

Lemma indexesRep_ext ix D G G' : (forall d key, d ∈ D -> G d key = G' d key) -> indexesRep ix D G -> indexesRep ix D G'.
Proof.
  intros HG [HD Hr]. split; [done|]. intros d data Hd. assert (Hin : d ∈ D) by (rewrite <- HD; apply elem_of_dom; eauto).
  destruct (Hr d data Hd) as (gb & H1' & H2' & H3'). exists gb. split; [done|]. split; [|done]. eapply bucketsRep_ext; [|exact H2']. intros k. by apply HG.
Qed.

Lemma writableDefinition_spec ix D G d :
  indexesRep ix D G ->
  if decide (d ∈ D) then exists ix' data, writableDefinition ix d = Some (ix', data) /\ indexesRep ix' D G /\ dataRep data (G d)
  else writableDefinition ix d = None.
Proof.
  intros [HD HG]. unfold writableDefinition. destruct (px_definitions ix !! d) as [data|] eqn:E.
  - rewrite decide_True by (rewrite <- HD; apply elem_of_dom; eauto). specialize (HG d data E) as Hdata.
    assert (Hroot : indexesRep (cloneRoot ix) D G) by (eapply indexesRep_root; [apply cloneRoot_definitions|done]).
    case_bool_decide; eexists _, _; (split; [done|]); [done|]. apply dataRep_fork in Hdata. split; [|done].
    assert (Hd : d ∈ D) by (rewrite <- HD; apply elem_of_dom; eauto).
    eapply indexesRep_root; [|eapply indexesRep_ext; [|exact (indexesRep_put _ D G d _ (G d) Hroot Hd Hdata)]]; [done|].
    intros d' key _. unfold changeAt. by destruct (decide (d' = d)) as [->|].
  - rewrite decide_False; [done|]. rewrite <- HD. by apply not_elem_of_dom.
Qed.

(** What [Add] and [Remove] do to the sets. *)
Definition addTo d key (id : N) G : indexSets := changeAt d (setFor key ({[id]} ∪ G d key) (G d)) G.
Definition removeFrom d key (id : N) G : indexSets := changeAt d (setFor key (G d key ∖ {[id]}) (G d)) G.

Lemma indexAdd_spec ix D G d v id :
  indexesRep ix D G -> typedV v -> wfV v -> id < 2 ^ 64 ->
  exists ix', indexAdd ix d v id = Some (inl ix') /\ indexesRep ix' D (addTo d (keyOf v) id G).
Proof.
  intros Hr Ht Hw Hid. unfold indexAdd. rewrite makeKey_typed by done. pose proof (writableDefinition_spec ix D G d Hr) as Hd.
  destruct (decide (d ∈ D)) as [Hin|Hno].
  - destruct Hd as (ix' & data & -> & Hr' & Hdata). destruct (data_add data (G d) (keyOf v) id Hdata Hid) as (data' & -> & Hdata').
    eexists. split; [done|]. by apply indexesRep_put.
  - rewrite Hd. eexists. split; [done|]. eapply indexesRep_ext; [|exact Hr]. intros d' key Hd'. unfold addTo, changeAt.
    destruct (decide (d' = d)) as [->|]; done.
Qed.

Lemma indexRemove_spec ix D G d v id :
  indexesRep ix D G -> typedV v -> wfV v ->
  exists ix', indexRemove ix d v id = Some (inl ix') /\ indexesRep ix' D (removeFrom d (keyOf v) id G).
Proof.
  intros Hr Ht Hw. unfold indexRemove. rewrite makeKey_typed by done. pose proof Hr as [HD HG].
  assert (Hsame : (d ∈ D -> id ∉ G d (keyOf v)) -> indexesRep ix D (removeFrom d (keyOf v) id G)).
  { intros Hno. eapply indexesRep_ext; [|exact Hr]. intros d' key Hd'. unfold removeFrom, changeAt, setFor.
    destruct (decide (d' = d)) as [->|]; [|done]. destruct (decide (key = keyOf v)) as [->|]; [|done]. specialize (Hno Hd'). set_solver. }
  destruct (px_definitions ix !! d) as [data|] eqn:E.
  2:{ eexists. split; [done|]. apply Hsame. intros Hd. rewrite <- HD in Hd. by apply not_elem_of_dom in E. }
  assert (Hd : d ∈ D) by (rewrite <- HD; apply elem_of_dom; eauto).
  destruct (HG d data E) as (gb & Hgb & Hb & _). destruct (dataList_spec data gb _ nowhere (keyOf v) Hgb Hb) as [[Hl _] _].
  rewrite (postingHas_spec _ _ id Hl). case_bool_decide as Hin; cbn [negb]; [|eexists; split; [done|]; by apply Hsame].
  pose proof (writableDefinition_spec ix D G d Hr) as Hwd. rewrite decide_True in Hwd by done.
  destruct Hwd as (ix' & data' & -> & Hr' & Hdata). destruct (data_remove data' (G d) (keyOf v) id Hdata Hin) as (data2 & -> & Hdata2).
  eexists. split; [done|]. by apply indexesRep_put.
Qed.

(** ** Reading *)

Lemma indexLookup_spec ix D G d v :
  indexesRep ix D G -> typedV v -> wfV v ->
  if decide (d ∈ D) then exists ids, indexLookup ix d v = Some (inl ids) /\ holds ids (G d (keyOf v)) /\
                           Cardinality ix d v = Some (inl (Z.of_nat (length ids)))
  else indexLookup ix d v = None /\ Cardinality ix d v = None.
Proof.
  intros [HD HG] Ht Hw. unfold indexLookup, Cardinality. rewrite makeKey_typed by done. destruct (px_definitions ix !! d) as [data|] eqn:E.
  - rewrite decide_True by (rewrite <- HD; apply elem_of_dom; eauto). destruct (HG d data E) as (gb & Hgb & Hb & _).
    destruct (dataList_spec data gb _ nowhere (keyOf v) Hgb Hb) as [[Hl _] _]. eexists. split; [done|].
    pose proof (postingAll_spec _ _ Hl) as Hall. split; [done|]. by rewrite (postingLen_spec _ _ Hl), (holds_size _ _ Hall).
  - rewrite decide_False by (rewrite <- HD; by apply not_elem_of_dom). done.
Qed.

Lemma limitLoop_spec limit all ids : (length ids < limit)%nat -> limitLoop ids (N.of_nat limit) all = ids ++ take (limit - length ids) all.
Proof.
  revert ids. induction all as [|id all IH]; intros ids Hl; cbn [limitLoop]; [by rewrite take_nil, app_nil_r|].
  destruct (N.eqb_spec (nlen (ids ++ [id])) (N.of_nat limit)) as [E|E]; unfold nlen in E; rewrite length_app in E; cbn [length] in E.
  - replace (limit - length ids)%nat with 1%nat by lia. cbn. by rewrite take_0.
  - rewrite IH by (rewrite length_app; cbn; lia). rewrite length_app. cbn [length]. rewrite <- app_assoc. f_equal.
    by replace (limit - length ids)%nat with (S (limit - (length ids + 1)))%nat by lia.
Qed.

Lemma LookupLimit_spec ix d v limit :
  LookupLimit ix d v limit =
  if limit =? max_uint64 then indexLookup ix d v
  else match indexLookup ix d v with Some (inl ids) => Some (inl (take (N.to_nat limit) ids)) | r => r end.
Proof.
  unfold LookupLimit, indexLookup. destruct (limit =? max_uint64); [done|]. destruct (px_definitions ix !! d) as [data|]; [|done].
  destruct (makePropertyValueKey v) as [key|err]; [|done]. destruct (N.eqb_spec limit 0) as [->|Hne]; [done|].
  rewrite <- (N2Nat.id limit) at 1. rewrite limitLoop_spec by (cbn; lia). cbn. by rewrite Nat.sub_0_r.
Qed.
End spec.
