(* ===== verification/IndexUpkeep.v ===== *)
(** * Upkeep of property indexes: they stay a scan of the graph

    [scan] is what an index has to hold: for a definition and a key, the entities that
    carry the scope and a value with that key. Nodes and edges are treated alike, through
    the scopes and properties of a record. *)
From S2P Require Import Prelude.
From S2P Require Import GoBytes.
From S2P Require Import BinaryCodec.
From S2P Require Import BinaryValue.
From S2P Require Import BinaryValueSpec.
From S2P Require Import Values.
From S2P Require Import ValuesSpec.
From S2P Require Import GoMaps.
From S2P Require Import Properties.
From S2P Require Import PageRecords.
From S2P Require Import Streams.
From S2P Require Import StreamTx.
From S2P Require Import StringPostings.
From S2P Require Import PropertyPostings.
From S2P Require Import PagedMap.
From S2P Require Import ShardMap.
From S2P Require Import PropertyKeys.
From S2P Require Import PropertyIndexes.
From S2P Require Import PropertyIndexesSpec.

Section upkeep.
Context `{MapOrder (pageRoot unit)} `{DefinitionOrder} `{MapOrder bucketMap}.
Implicit Types (ix : PropertyIndexes) (D : gset PropertyIndexDefinition) (d : PropertyIndexDefinition) (p : Properties) (scopes : list gostring).

(** ** Create and drop *)

Lemma Create_spec ix D G d :
  indexesRep ix D G ->
  if decide (d ∈ D) then Create ix d = (ix, false)
  else exists ix', Create ix d = (ix', true) /\ indexesRep ix' ({[d]} ∪ D) (changeAt d (fun _ => ∅) G).
Proof.
  intros Hr. unfold Create. rewrite (indexesHas_spec _ _ _ d Hr). destruct (decide (d ∈ D)) as [Hin|Hno].
  - by rewrite bool_decide_eq_true_2.
  - rewrite bool_decide_eq_false_2 by done. eexists. split; [done|]. destruct Hr as [HD HG]. split; cbn; rewrite cloneRoot_definitions.
    + by rewrite dom_insert_L, HD.
    + intros d' data. unfold changeAt. destruct (decide (d' = d)) as [->|].
      * rewrite lookup_insert_eq. intros [= <-]. apply dataRep_new.
      * rewrite lookup_insert_ne by done. apply HG.
Qed.

Lemma Drop_spec ix D G d :
  indexesRep ix D G ->
  if decide (d ∈ D) then exists ix', Drop ix d = (ix', true) /\ indexesRep ix' (D ∖ {[d]}) G
  else Drop ix d = (ix, false).
Proof.
  intros Hr. unfold Drop. rewrite (indexesHas_spec _ _ _ d Hr). destruct (decide (d ∈ D)) as [Hin|Hno].
  - rewrite bool_decide_eq_true_2 by done. cbn [negb]. eexists. split; [done|]. destruct Hr as [HD HG]. split; cbn; rewrite cloneRoot_definitions.
    + by rewrite dom_delete_L, HD.
    + intros d' data Hd'. apply lookup_delete_Some in Hd' as [_ Hd']. by apply HG.
  - by rewrite bool_decide_eq_false_2.
Qed.

(** ** The definitions an entity falls under *)

Definition covers d scopes p : Prop := df_Scope d ∈ scopes /\ is_Some (Lookup p (df_Property d)).

Lemma contains_spec scopes scope : contains scopes scope = true <-> scope ∈ scopes.
Proof.
  unfold contains. rewrite existsb_exists, list_elem_of_In. split.
  - intros (s & Hs & ->%bool_decide_eq_true). done.
  - intros Hs. exists scope. split; [done|]. by apply bool_decide_eq_true.
Qed.

Lemma Lookup_PAll p key : wfProps p -> is_Some (Lookup p key) <-> exists v, (key, v) ∈ PAll p.
Proof.
  intros [Hs _]. rewrite Lookup_entries, <- PAll_lookup by done. split.
  - intros [v Hv]. exists v. by apply mapLookup_elem.
  - intros [v Hv]. exists v. apply elem_mapLookup; [|done]. by apply keysSorted_nodup, PAll_sorted.
Qed.

Lemma DefinitionsFor_spec ix D G scopes p d :
  indexesRep ix D G -> wfProps p -> d ∈ DefinitionsFor ix scopes p <-> d ∈ D /\ covers d scopes p.
Proof.
  intros Hr Hp. pose proof Hr as [HD _]. unfold DefinitionsFor, covers.
  destruct (Nat.eqb_spec (length scopes) 0) as [Es|Es]; cbn [orb].
  { apply nil_length_inv in Es as ->. split; [set_solver|]. intros (_ & Hn & _). set_solver. }
  destruct (Nat.eqb_spec (PLen p) 0) as [Ep|Ep].
  { split; [set_solver|]. intros (_ & _ & (v & Hv)%Lookup_PAll); [|done]. unfold PLen in Ep. apply nil_length_inv in Ep. unfold PAll in Hv. rewrite Ep in Hv. set_solver. }
  destruct (indexesLen ix <=? PLen p)%nat.
  - rewrite list_elem_of_In, filter_In, <- list_elem_of_In, rangeDefinitions_perm, andb_true_iff, contains_spec.
    rewrite list_elem_of_fmap. split.
    + intros [([d' data] & -> & Hd%elem_of_map_to_list) [Hsc Hlk]]. cbn in *. split; [rewrite <- HD; apply elem_of_dom; eauto|]. split; [done|].
      destruct (Lookup p (df_Property d')); [eauto|done].
    + intros (Hd & Hsc & [v Hv]). rewrite <- HD in Hd. apply elem_of_dom in Hd as [data Hd]. split; [|by rewrite Hv].
      exists (d, data). split; [done|]. by apply elem_of_map_to_list.
  - rewrite elem_of_concat_map. setoid_rewrite list_elem_of_In at 2. setoid_rewrite filter_In. setoid_rewrite in_map_iff. split.
    + intros (scope & Hsc & ([k v] & <- & Hk) & Hhas). rewrite (indexesHas_spec _ _ _ _ Hr) in Hhas. apply bool_decide_eq_true in Hhas.
      split; [done|]. split; [done|]. apply Lookup_PAll; [done|]. exists v. by apply list_elem_of_In.
    + intros (Hd & Hsc & (v & Hv)%Lookup_PAll); [|done]. exists (df_Scope d). split; [done|]. split.
      * exists (df_Property d, v). split; [by destruct d|]. by apply list_elem_of_In.
      * rewrite (indexesHas_spec _ _ _ _ Hr). by apply bool_decide_eq_true.
Qed.

(** ** One entity *)

Definition goodProps p : Prop := wfProps p /\ Forall (fun kv => typedV kv.2 /\ wfV kv.2) (PAll p).

Definition entityKey scopes p d : option propertyValueKey :=
  if bool_decide (df_Scope d ∈ scopes) then keyOf <$> Lookup p (df_Property d) else None.

Lemma entityKey_spec scopes p d key : entityKey scopes p d = Some key <-> covers d scopes p /\ keyOf (propertiesGet p (df_Property d)) = key.
Proof.
  unfold entityKey, covers, propertiesGet. case_bool_decide as Hs; [|naive_solver]. destruct (Lookup p (df_Property d)) as [v|]; cbn.
  - split; [intros [= <-]; eauto|intros [_ <-]; done].
  - split; [done|]. by intros [[_ [? ?]] _].
Qed.

Lemma goodProps_value p d scopes : goodProps p -> covers d scopes p -> typedV (propertiesGet p (df_Property d)) /\ wfV (propertiesGet p (df_Property d)).
Proof.
  intros [[Hs Hw] Hv] [_ [v Hl]]. unfold propertiesGet. rewrite Hl. cbn. rewrite Lookup_entries, <- PAll_lookup in Hl by done.
  rewrite Forall_forall in Hv. by apply (Hv (df_Property d, v)), mapLookup_elem.
Qed.

(** The sets with [id] under the keys of an entity, and without. *)
Definition withEntity scopes p (id : N) (G : PropertyIndexDefinition -> propertyValueKey -> gset N) d key : gset N :=
  if decide (entityKey scopes p d = Some key) then {[id]} ∪ G d key else G d key.
Definition withoutEntity scopes p (id : N) (G : PropertyIndexDefinition -> propertyValueKey -> gset N) d key : gset N :=
  if decide (entityKey scopes p d = Some key) then G d key ∖ {[id]} else G d key.

(** A loop over definitions, each turn of which changes the set of one key by [op]. *)
Lemma eachDefinition_spec (op : gset N -> gset N) (f : PropertyIndexes -> PropertyIndexDefinition -> option (PropertyIndexes + error))
    (keyAt : PropertyIndexDefinition -> propertyValueKey) D ds :
  (forall X, op (op X) = op X) ->
  (forall ix G d, d ∈ ds -> indexesRep ix D G ->
     exists ix', f ix d = Some (inl ix') /\ indexesRep ix' D (changeAt d (setFor (keyAt d) (op (G d (keyAt d))) (G d)) G)) ->
  forall ix G, indexesRep ix D G -> exists ix', eachDefinition f ix ds = Some (inl ix') /\
    indexesRep ix' D (fun d key => if decide (d ∈ ds /\ keyAt d = key) then op (G d key) else G d key).
Proof.
  intros Hidem. induction ds as [|d ds IH]; intros Hf ix G Hr; cbn [eachDefinition].
  - eexists. split; [done|]. eapply indexesRep_ext; [|exact Hr]. intros d key _. rewrite decide_False; [done|]. by intros [?%elem_of_nil _].
  - destruct (Hf ix G d ltac:(left) Hr) as (ix1 & -> & Hr1). destruct (IH (fun ix G d' Hd' => Hf ix G d' (list_elem_of_further _ _ _ Hd')) ix1 _ Hr1) as (ix2 & -> & Hr2).
    eexists. split; [done|]. eapply indexesRep_ext; [|exact Hr2]. intros d' key _. unfold changeAt, setFor.
    destruct (decide (d' = d)) as [->|Hne].
    + destruct (decide (key = keyAt d)) as [->|Hk].
      * rewrite (decide_True (P := d ∈ d :: ds /\ _)) by (split; [left|done]). destruct (decide (d ∈ ds /\ _)); [by rewrite Hidem|done].
      * rewrite !decide_False; [done|..]; intros [_ ?]; congruence.
    + destruct (decide (d' ∈ ds /\ keyAt d' = key)) as [[Hin Hk]|Hno].
      * rewrite decide_True; [done|]. split; [by right|done].
      * rewrite decide_False; [done|]. intros [Hin Hk]. apply Hno. apply elem_of_cons in Hin as [|]; done.
Qed.

Definition addEntity ix scopes p (id : N) : option (PropertyIndexes + error) :=
  eachDefinition (fun ix d => indexAdd ix d (propertiesGet p (df_Property d)) id) ix (DefinitionsFor ix scopes p).
Definition removeEntity ix scopes p (id : N) : option (PropertyIndexes + error) :=
  eachDefinition (fun ix d => indexRemove ix d (propertiesGet p (df_Property d)) id) ix (DefinitionsFor ix scopes p).

Lemma addEntity_spec ix D G scopes p id :
  indexesRep ix D G -> goodProps p -> id < 2 ^ 64 ->
  exists ix', addEntity ix scopes p id = Some (inl ix') /\ indexesRep ix' D (withEntity scopes p id G).
Proof.
  intros Hr Hp Hid. pose proof (fun d => DefinitionsFor_spec ix D G scopes p d Hr (proj1 Hp)) as Hds.
  destruct (eachDefinition_spec (union {[id]}) (fun ix d => indexAdd ix d (propertiesGet p (df_Property d)) id) (fun d => keyOf (propertiesGet p (df_Property d))) D
              (DefinitionsFor ix scopes p)) with (ix := ix) (G := G) as (ix' & E & Hr'); [set_solver| |done|].
  - intros ix0 G0 d [_ Hcov]%Hds Hr0. destruct (goodProps_value p d scopes Hp Hcov). by apply indexAdd_spec.
  - exists ix'. split; [done|]. eapply indexesRep_ext; [|exact Hr']. intros d key Hd. unfold withEntity. cbn.
    pose proof (entityKey_spec scopes p d key) as Hk. specialize (Hds d). repeat case_decide; tauto.
Qed.

Lemma removeEntity_spec ix D G scopes p id :
  indexesRep ix D G -> goodProps p ->
  exists ix', removeEntity ix scopes p id = Some (inl ix') /\ indexesRep ix' D (withoutEntity scopes p id G).
Proof.
  intros Hr Hp. pose proof (fun d => DefinitionsFor_spec ix D G scopes p d Hr (proj1 Hp)) as Hds.
  destruct (eachDefinition_spec (fun X => X ∖ {[id]}) (fun ix d => indexRemove ix d (propertiesGet p (df_Property d)) id) (fun d => keyOf (propertiesGet p (df_Property d))) D
              (DefinitionsFor ix scopes p)) with (ix := ix) (G := G) as (ix' & E & Hr'); [set_solver| |done|].
  - intros ix0 G0 d [_ Hcov]%Hds Hr0. destruct (goodProps_value p d scopes Hp Hcov). by apply indexRemove_spec.
  - exists ix'. split; [done|]. eapply indexesRep_ext; [|exact Hr']. intros d key Hd. unfold withoutEntity. cbn.
    pose proof (entityKey_spec scopes p d key) as Hk. specialize (Hds d). repeat case_decide; tauto.
Qed.

(** ** Building *)

Definition buildKey d (props : N -> option Properties) (id : N) : option propertyValueKey :=
  props id ≫= fun p => keyOf <$> Lookup p (df_Property d).

(** What the build charges for one identifier. *)
Definition buildCharge d (props : N -> option Properties) (cost : N * N) (id : N) : N * N :=
  let work := addSaturated cost.1 1 in
  match props id ≫= fun p => Lookup p (df_Property d) with
  | None => (work, cost.2)
  | Some v => (addSaturated work (N.max 1 (estimateValueBytes v)), addSaturated cost.2 (addSaturated (estimateValueBytes v) 192))
  end.

Lemma addSaturated_grows x y : x <= max_uint64 -> x <= addSaturated x y <= max_uint64.
Proof. unfold addSaturated, max_uint64. intros. case_cmp; lia. Qed.

Lemma exceeds_mono b w w' y y' : w <= w' -> y <= y' -> exceedsDerivedBudget b w y = true -> exceedsDerivedBudget b w' y' = true.
Proof. unfold exceedsDerivedBudget. rewrite !orb_true_iff, !N.ltb_lt. intros. lia. Qed.

Lemma buildCharge_grows d props cost id :
  cost.1 <= max_uint64 -> cost.2 <= max_uint64 ->
  cost.1 <= (buildCharge d props cost id).1 <= max_uint64 /\ cost.2 <= (buildCharge d props cost id).2 <= max_uint64 /\
  addSaturated cost.1 1 <= (buildCharge d props cost id).1.
Proof.
  intros H1' H2'. unfold buildCharge. pose proof (addSaturated_grows cost.1 1 H1') as Hw.
  destruct (props id ≫= _) as [v|]; cbn [fst snd]; [|lia].
  pose proof (addSaturated_grows (addSaturated cost.1 1) (N.max 1 (estimateValueBytes v)) (proj2 Hw)).
  pose proof (addSaturated_grows cost.2 (addSaturated (estimateValueBytes v) 192) H2'). lia.
Qed.

Lemma buildCharges_grow d props ids cost :
  cost.1 <= max_uint64 -> cost.2 <= max_uint64 ->
  cost.1 <= (foldl (buildCharge d props) cost ids).1 /\ cost.2 <= (foldl (buildCharge d props) cost ids).2.
Proof.
  revert cost. induction ids as [|id ids IH]; intros cost H1' H2'; cbn [foldl]; [done|].
  destruct (buildCharge_grows d props cost id H1' H2') as (Ha & Hb & _). destruct (IH (buildCharge d props cost id)); lia.
Qed.

Definition withKeys d props (ids : list N) (G : PropertyIndexDefinition -> propertyValueKey -> gset N) : PropertyIndexDefinition -> propertyValueKey -> gset N :=
  changeAt d (fun key => G d key ∪ list_to_set (base.filter (fun id => buildKey d props id = Some key) ids)) G.

Definition builtProps d (props : N -> option Properties) (id : N) : Prop :=
  id < 2 ^ 64 /\ exists p, props id = Some p /\ forall v, Lookup p (df_Property d) = Some v -> typedV v /\ wfV v.

Lemma withKeys_skip d props ids G id d' key : buildKey d props id = None -> withKeys d props ids G d' key = withKeys d props (id :: ids) G d' key.
Proof.
  intros E. unfold withKeys, changeAt. case_decide; [|done]. by rewrite filter_cons_False by congruence.
Qed.

Lemma withKeys_add d props ids G id k d' key :
  buildKey d props id = Some k -> withKeys d props ids (addTo d k id G) d' key = withKeys d props (id :: ids) G d' key.
Proof.
  intros E. unfold withKeys, addTo, changeAt, setFor. destruct (decide (d' = d)) as [->|]; [|done]. rewrite decide_True by done.
  destruct (decide (key = k)) as [->|Hne].
  - rewrite filter_cons_True by done. cbn [list_to_set foldr]. set_solver.
  - by rewrite filter_cons_False by congruence.
Qed.

Lemma buildLoop_spec b d props D ids :
  Forall (builtProps d props) ids -> forall ix G work bytes, indexesRep ix D G ->
  work <= max_uint64 -> bytes <= max_uint64 -> exceedsDerivedBudget b work bytes = false ->
  let cost := foldl (buildCharge d props) (work, bytes) ids in
  if exceedsDerivedBudget b cost.1 cost.2 then buildLoop b d props ids ix work bytes = Some (inr errIndexBudget)
  else exists ix', buildLoop b d props ids ix work bytes = Some (inl (ix', cost.1, cost.2)) /\ indexesRep ix' D (withKeys d props ids G).
Proof.
  induction 1 as [|id ids (Hid & p & Hp & Hv) _ IH]; intros ix G work bytes Hr Hw Hb Hx; cbn [buildLoop foldl].
  { cbn. rewrite Hx. eexists. split; [done|]. eapply indexesRep_ext; [|exact Hr]. intros d' key _. unfold withKeys, changeAt. case_decide; [subst|done]. cbn. set_solver. }
  set (cost1 := buildCharge d props (work, bytes) id).
  destruct (buildCharge_grows d props (work, bytes) id) as (Hg1 & Hg2 & Hg3); [done|done|]. fold cost1 in Hg1, Hg2, Hg3. cbn [fst snd] in Hg1, Hg2, Hg3.
  destruct (buildCharges_grow d props ids cost1) as [Hf1 Hf2]; [lia|lia|].
  assert (Hstop : forall w y, w <= cost1.1 -> y <= cost1.2 -> exceedsDerivedBudget b w y = true ->
    exceedsDerivedBudget b (foldl (buildCharge d props) cost1 ids).1 (foldl (buildCharge d props) cost1 ids).2 = true).
  { intros w y Hw' Hy'. apply exceeds_mono; eapply N.le_trans; eassumption. }
  cbn zeta. destruct (exceedsDerivedBudget b (addSaturated work 1) bytes) eqn:Ex1.
  { by rewrite (Hstop (addSaturated work 1) bytes) by (done || apply Hg2). }
  rewrite Hp. assert (Ek : buildKey d props id = keyOf <$> Lookup p (df_Property d)) by (unfold buildKey; by rewrite Hp).
  assert (Ec : cost1 = match Lookup p (df_Property d) with
                       | None => (addSaturated work 1, bytes)
                       | Some v => (addSaturated (addSaturated work 1) (N.max 1 (estimateValueBytes v)), addSaturated bytes (addSaturated (estimateValueBytes v) 192))
                       end) by (unfold cost1, buildCharge; by rewrite Hp).
  destruct (Lookup p (df_Property d)) as [v|] eqn:Ev; rewrite Ec in *; cbn [fst snd] in *.
  - match goal with |- context [if exceedsDerivedBudget b ?w ?y then Some _ else match indexAdd _ _ _ _ with _ => _ end] => destruct (exceedsDerivedBudget b w y) eqn:Ex2 end.
    { by rewrite (Hstop _ _ (N.le_refl _) (N.le_refl _) Ex2). }
    destruct (Hv v eq_refl) as [Ht Hwf]. destruct (indexAdd_spec ix D G d v id Hr Ht Hwf Hid) as (ix1 & -> & Hr1).
    specialize (IH ix1 _ _ _ Hr1 (proj2 Hg1) (proj2 Hg2) Ex2). cbn zeta in IH. destruct (exceedsDerivedBudget b (foldl _ _ ids).1 _); [done|].
    destruct IH as (ix' & E & Hr'). exists ix'. split; [done|]. eapply indexesRep_ext; [|exact Hr']. intros d' key _. by apply withKeys_add.
  - specialize (IH ix _ _ _ Hr (proj2 Hg1) (proj2 Hg2) Ex1). cbn zeta in IH. destruct (exceedsDerivedBudget b (foldl _ _ ids).1 _); [done|].
    destruct IH as (ix' & E & Hr'). exists ix'. split; [done|]. eapply indexesRep_ext; [|exact Hr']. intros d' key _. by apply withKeys_skip.
Qed.

(** ** The entities of a graph *)

Section entities.
Context {R : Type} (scopesOf : R -> list gostring) (propsOf : R -> Properties) (idOf : R -> N).
Implicit Types (M : gmap N R) (r : R).

Definition recordKey r d : option propertyValueKey := entityKey (scopesOf r) (propsOf r) d.
Definition scan M d (key : propertyValueKey) : gset N := dom (filter (fun kv => recordKey kv.2 d = Some key) M).

(** Records filed under their own identifier, with normalised properties. *)
Definition goodMap M : Prop := forall id r, M !! id = Some r -> idOf r = id /\ id < 2 ^ 64 /\ goodProps (propsOf r).

Lemma elem_of_scan M d key id : id ∈ scan M d key <-> exists r, M !! id = Some r /\ recordKey r d = Some key.
Proof. unfold scan. rewrite elem_of_dom. unfold is_Some. setoid_rewrite map_lookup_filter_Some. done. Qed.

Lemma scan_delete M id r d key :
  M !! id = Some r \/ M !! id = None -> scan (delete id M) d key = withoutEntity (scopesOf r) (propsOf r) id (scan M) d key.
Proof.
  intros HM. apply set_eq. intros x. unfold withoutEntity. fold (recordKey r d).
  assert (E : x ∈ scan (delete id M) d key <-> x ∈ scan M d key /\ x <> id).
  { rewrite !elem_of_scan. setoid_rewrite lookup_delete_Some. naive_solver. }
  rewrite E. destruct (decide (recordKey r d = Some key)) as [Ek|Ek]; [set_solver|]. split; [tauto|]. intros Hx. split; [done|].
  intros ->. apply elem_of_scan in Hx as (r' & Hr' & Hk'). destruct HM; congruence.
Qed.

Lemma scan_insert M id r d key :
  M !! id = None -> scan (<[id := r]> M) d key = withEntity (scopesOf r) (propsOf r) id (scan M) d key.
Proof.
  intros HM. apply set_eq. intros x. unfold withEntity. fold (recordKey r d).
  assert (E : x ∈ scan (<[id := r]> M) d key <-> x ∈ scan M d key \/ x = id /\ recordKey r d = Some key).
  { rewrite !elem_of_scan. setoid_rewrite lookup_insert_Some. split.
    - intros (r' & [[-> ->]|[? ?]] & ?); [tauto|]. left. eauto.
    - intros [(r' & Hr' & ?)|[-> ?]]; [|eauto]. exists r'. split; [|done]. right. split; [congruence|done]. }
  rewrite E. destruct (decide (recordKey r d = Some key)); set_solver.
Qed.

Lemma scan_absent M id d key : M !! id = None -> scan (delete id M) d key = scan M d key.
Proof. intros HM. by rewrite delete_id. Qed.

Definition addRecord ix (o : option R) : option (PropertyIndexes + error) :=
  match o with None => Some (inl ix) | Some r => addEntity ix (scopesOf r) (propsOf r) (idOf r) end.
Definition removeRecord ix (o : option R) : option (PropertyIndexes + error) :=
  match o with None => Some (inl ix) | Some r => removeEntity ix (scopesOf r) (propsOf r) (idOf r) end.

(** ** Building an index over the graph *)

Lemma definitionCost_bound d : (propertyIndexDefinitionCost d).1 <= max_uint64 /\ (propertyIndexDefinitionCost d).2 <= max_uint64.
Proof.
  split; [done|]. cbn [propertyIndexDefinitionCost snd]. apply addSaturated_grows. unfold u64, max_uint64.
  pose proof (N.mod_upper_bound (nlen (df_Scope d) + nlen (df_Property d)) (2 ^ 64)). lia.
Qed.

Definition ofScope M (scope : gostring) : gset N := dom (filter (fun kv => scope ∈ scopesOf kv.2) M).

Lemma elem_of_ofScope M scope id : id ∈ ofScope M scope <-> exists r, M !! id = Some r /\ scope ∈ scopesOf r.
Proof. unfold ofScope. rewrite elem_of_dom. unfold is_Some. setoid_rewrite map_lookup_filter_Some. done. Qed.

Lemma withKeys_scan M d ids G d' key :
  (forall id, id ∈ ids <-> id ∈ ofScope M (df_Scope d)) ->
  (d' <> d -> G d' key = scan M d' key) -> (d' = d -> G d key = ∅) ->
  withKeys d (fun id => propsOf <$> M !! id) ids G d' key = scan M d' key.
Proof.
  intros Hids Hother Hnew. unfold withKeys, changeAt. destruct (decide (d' = d)) as [->|Hne]; [|by apply Hother].
  rewrite Hnew by done. apply set_eq. intros x. rewrite elem_of_union, elem_of_list_to_set, list_elem_of_filter, Hids, elem_of_ofScope, elem_of_scan.
  unfold buildKey, recordKey, entityKey. split.
  - intros [?|[Hk (r & Hr & Hs)]]; [set_solver|]. exists r. split; [done|]. rewrite Hr in Hk. cbn in Hk. by rewrite bool_decide_eq_true_2.
  - intros (r & Hr & Hk). right. case_bool_decide as Hs; [|done]. rewrite Hr. cbn. split; [done|eauto].
Qed.

Lemma buildIndex_spec b ix D d ids M :
  indexesRep ix D (scan M) -> goodMap M -> d ∉ D -> (forall id, id ∈ ids <-> id ∈ ofScope M (df_Scope d)) ->
  let props := fun id => propsOf <$> M !! id in
  let cost := foldl (buildCharge d props) (propertyIndexDefinitionCost d) ids in
  if exceedsDerivedBudget b cost.1 cost.2 then buildIndex b ix d ids props = Some (inr errIndexBudget)
  else exists ix', buildIndex b ix d ids props = Some (inl (ix', cost.1, cost.2)) /\ indexesRep ix' ({[d]} ∪ D) (scan M).
Proof.
  intros Hr HM Hd Hids props cost. unfold buildIndex. pose proof (Create_spec (indexesFork ix) D (scan M) d) as Hcr.
  rewrite decide_False in Hcr by done. destruct Hcr as (ix1 & -> & Hr1); [by eapply indexesRep_root|]. cbn [negb].
  destruct (definitionCost_bound d) as [Hb1 Hb2]. destruct (buildCharges_grow d props ids _ Hb1 Hb2) as [Hf1 Hf2]. fold cost in Hf1, Hf2.
  destruct (propertyIndexDefinitionCost d) as [work bytes] eqn:Ec. cbn [fst snd] in *.
  destruct (exceedsDerivedBudget b work bytes) eqn:Ex; [by rewrite (exceeds_mono b work _ bytes _ Hf1 Hf2 Ex)|].
  assert (Hbuilt : Forall (builtProps d props) ids).
  { apply Forall_forall. intros id (r & Hid & _)%Hids%elem_of_ofScope. destruct (HM _ _ Hid) as (_ & Hlt & Hp). split; [done|].
    exists (propsOf r). unfold props. rewrite Hid. split; [done|]. intros v Hv. pose proof Hp as [[Hs _] Hall].
    rewrite Lookup_entries, <- PAll_lookup in Hv by done. rewrite Forall_forall in Hall. by apply (Hall (df_Property d, v)), mapLookup_elem. }
  pose proof (buildLoop_spec b d props _ ids Hbuilt ix1 _ work bytes Hr1 Hb1 Hb2 Ex) as Hloop. cbn zeta in Hloop. fold cost in Hloop.
  destruct (exceedsDerivedBudget b cost.1 cost.2); [done|]. destruct Hloop as (ix' & E & Hr'). exists ix'. split; [done|].
  eapply indexesRep_ext; [|exact Hr']. intros d' key _. apply withKeys_scan; [done|..]; unfold changeAt.
  - intros Hne. by rewrite decide_False.
  - intros ->. by rewrite decide_True.
Qed.

(** ** A commit *)

Context (base next : gmap N R) (Hbase : goodMap base) (Hnext : goodMap next).

Definition stale M (id : N) : Prop := M !! id = base !! id \/ M !! id = None.

Lemma removeRecord_spec ix D M id :
  indexesRep ix D (scan M) -> stale M id ->
  exists ix', removeRecord ix (base !! id) = Some (inl ix') /\ indexesRep ix' D (scan (delete id M)).
Proof.
  intros Hr HM. destruct (base !! id) as [r|] eqn:E; cbn [removeRecord].
  - destruct (Hbase _ _ E) as (<- & _ & Hp). destruct (removeEntity_spec ix D (scan M) (scopesOf r) (propsOf r) (idOf r) Hr Hp) as (ix' & -> & Hr').
    eexists. split; [done|]. eapply indexesRep_ext; [|exact Hr']. intros d key _. symmetry. apply scan_delete. unfold stale in HM. rewrite E in HM. done.
  - eexists. split; [done|]. rewrite delete_id; [done|]. unfold stale in HM. rewrite E in HM. tauto.
Qed.

Lemma addRecord_spec ix D M id :
  indexesRep ix D (scan (delete id M)) ->
  exists ix', addRecord ix (next !! id) = Some (inl ix') /\ indexesRep ix' D (scan (partial_alter (fun _ => next !! id) id M)).
Proof.
  intros Hr. assert (Em : partial_alter (fun _ => next !! id) id M = partial_alter (fun _ => next !! id) id (delete id M)).
  { apply map_eq. intros x. destruct (decide (x = id)) as [->|]; [by rewrite !lookup_partial_alter_eq|]. by rewrite !lookup_partial_alter_ne, lookup_delete_ne by done. }
  rewrite Em. destruct (next !! id) as [r|] eqn:E; cbn [addRecord].
  - destruct (Hnext _ _ E) as (Ei & Hid & Hp). subst id.
    destruct (addEntity_spec ix D _ (scopesOf r) (propsOf r) (idOf r) Hr Hp Hid) as (ix' & -> & Hr'). eexists. split; [done|].
    eapply indexesRep_ext; [|exact Hr']. intros d key _. symmetry. apply scan_insert. apply lookup_delete_eq.
  - eexists. split; [done|]. change (partial_alter (fun _ => None) id (delete id M)) with (delete id (delete id M)). by rewrite delete_delete_eq.
Qed.

Lemma eachID_spec (new : N -> option R) f D ids :
  NoDup ids ->
  (forall ix M id, id ∈ ids -> stale M id -> indexesRep ix D (scan M) ->
     exists ix', f ix id = Some (inl ix') /\ indexesRep ix' D (scan (partial_alter (fun _ => new id) id M))) ->
  forall ix M, (forall id, id ∈ ids -> stale M id) -> indexesRep ix D (scan M) ->
  exists ix' M', eachID f ix ids = Some (inl ix') /\ indexesRep ix' D (scan M') /\
    forall id, M' !! id = if decide (id ∈ ids) then new id else M !! id.
Proof.
  induction ids as [|id ids IH]; intros Hnd Hf ix M Hst Hr; cbn [eachID].
  - exists ix, M. split; [done|]. split; [done|]. intros x. rewrite decide_False; [done|]. apply not_elem_of_nil.
  - apply NoDup_cons in Hnd as [Hno Hnd]. destruct (Hf ix M id ltac:(left) (Hst id ltac:(left)) Hr) as (ix1 & -> & Hr1).
    destruct (IH Hnd (fun ix M x Hx => Hf ix M x (list_elem_of_further _ _ _ Hx)) ix1 (partial_alter (fun _ => new id) id M)) as (ix2 & M2 & -> & Hr2 & HM2);
      [|done|].
    { intros x Hx. unfold stale. assert (x <> id) by congruence. rewrite lookup_partial_alter_ne by done. apply Hst. by right. }
    exists ix2, M2. split; [done|]. split; [done|]. intros x. rewrite HM2. destruct (decide (x = id)) as [->|Hne].
    + rewrite decide_False by done. rewrite decide_True by left. apply lookup_partial_alter_eq.
    + rewrite lookup_partial_alter_ne by done. destruct (decide (x ∈ ids)) as [Hx|Hx].
      * rewrite decide_True; [done|by right].
      * rewrite decide_False; [done|]. by intros [|]%elem_of_cons.
Qed.

Context `{MapOrder unit}.

Lemma elem_of_rangeIDs ids id : id ∈ rangeIDs ids <-> id ∈ ids.
Proof. unfold rangeIDs. rewrite elem_of_rangeKeys. rewrite <- elem_of_dom, dom_gset_to_gmap. done. Qed.

(** The loops of a commit over the deleted and the changed identifiers. *)
Lemma commit_spec ix D (dels ups : gset N) :
  indexesRep ix D (scan base) ->
  (forall id, id ∉ ups -> next !! id = if decide (id ∈ dels) then None else base !! id) ->
  exists ix', andThen (eachID (fun ix id => removeRecord ix (base !! id)) ix (rangeIDs dels))
      (fun ix => eachID (fun ix id => andThen (removeRecord ix (base !! id)) (fun ix => addRecord ix (next !! id))) ix (rangeIDs ups)) = Some (inl ix') /\
    indexesRep ix' D (scan next).
Proof.
  intros Hr Hnx.
  destruct (eachID_spec (fun _ => None) (fun ix id => removeRecord ix (base !! id)) D (rangeIDs dels)) with (ix := ix) (M := base) as (ix1 & M1 & E1 & Hr1 & HM1);
    [apply rangeKeys_nodup| |by left|done|].
  { intros ix0 M id _ Hst Hr0. by apply removeRecord_spec. }
  rewrite E1. cbn [andThen].
  assert (HM1' : forall id, M1 !! id = if decide (id ∈ dels) then None else base !! id).
  { intros id. rewrite HM1. pose proof (elem_of_rangeIDs dels id). repeat case_decide; tauto. }
  destruct (eachID_spec (fun id => next !! id) (fun ix id => andThen (removeRecord ix (base !! id)) (fun ix => addRecord ix (next !! id))) D (rangeIDs ups))
    with (ix := ix1) (M := M1) as (ix2 & M2 & E2 & Hr2 & HM2); [apply rangeKeys_nodup| | |done|].
  { intros ix0 M id _ Hst Hr0. destruct (removeRecord_spec ix0 D M id Hr0 Hst) as (ix0' & -> & Hr0'). cbn [andThen]. by apply addRecord_spec. }
  { intros id _. unfold stale. rewrite HM1'. case_decide; tauto. }
  exists ix2. split; [done|]. replace next with M2; [done|]. apply map_eq. intros id. rewrite HM2, HM1'.
  pose proof (elem_of_rangeIDs ups id). case_decide; [done|]. symmetry. apply Hnx. tauto.
Qed.
End entities.
End upkeep.
