(* ===== verification/IndexTheorems.v ===== *)
(** * Theorems on postings and property indexes

    Postings are sets (C32), keys tell values apart (C33), the indexes stay a scan of
    the graph over builds, drops and commits (C17), and so a lookup returns exactly the
    entities that carry the value (C16). *)
From S2P Require Import Prelude.
From S2P Require Import GoBytes.
From S2P Require Import BinaryCodec.
From S2P Require Import BinaryValue.
From S2P Require Import BinaryValueSpec.
From S2P Require Import Values.
From S2P Require Import ValuesSpec.
From S2P Require Import GoMaps.
From S2P Require Import Properties.
From S2P Require Import PageRecords.
From S2P Require Import Streams.
From S2P Require Import StreamTx.
From S2P Require Import PagedMap.
From S2P Require Import ShardMap.
From S2P Require Import PropertyPostings.
From S2P Require Import StringPostings.
From S2P Require Import PropertyKeys.
From S2P Require Import PropertyIndexes.
From S2P Require Import PropertyIndexesSpec.
From S2P Require Import IndexUpkeep.
From Stdlib Require Import Strings.Byte.

(** ** Postings *)

Inductive postingOp := OpAdd (id : N) | OpRemove (id : N).

Definition opID (op : postingOp) : N := match op with OpAdd id | OpRemove id => id end.
Definition opSet (X : gset N) (op : postingOp) : gset N := match op with OpAdd id => {[id]} ∪ X | OpRemove id => X ∖ {[id]} end.

Section postings.
Context `{MapOrder (pageRoot unit)}.

Definition runOp (p : propertyPosting) (op : postingOp) : propertyPosting :=
  match op with OpAdd id => postingAdd p id | OpRemove id => postingRemove p id end.

Lemma runOps_rep ops p X :
  postingRep p X -> (forall x, x ∈ X -> x < 2 ^ 64) -> Forall (fun op => opID op < 2 ^ 64) ops -> postingRep (foldl runOp p ops) (foldl opSet X ops).
Proof.
  revert p X. induction ops as [|[id|id] ops IH]; intros p X Hp HX Hops; [done|..]; apply Forall_cons in Hops as [Hid Hops]; apply IH; cbn in *; try done.
  - by apply postingAdd_spec.
  - set_solver.
  - by apply postingRemove_spec.
  - set_solver.
Qed.

(** A posting is the set of its identifiers, listed in ascending order, in whichever
    of its three forms: after any identifiers have been added and removed it lists,
    finds and counts exactly those a set would hold. The sorted slice stays within its
    limit and no chunk is empty or too long. *)
Theorem posting_refines_set ops :
  Forall (fun op => opID op < 2 ^ 64) ops ->
  let p := foldl runOp emptyPosting ops in
  let X := foldl opSet ∅ ops in
  StronglySorted N.lt (postingAll p) /\ (forall id, id ∈ postingAll p <-> id ∈ X) /\
  (forall id, postingHas p id = bool_decide (id ∈ X)) /\ postingLen p = Z.of_nat (size X) /\
  (length (small p) <= smallPostingLimit)%nat /\
  forall c, chunks p = Some c -> Forall (fun chunk => (1 <= length chunk <= propertyPostingChunkSize)%nat) (ch_chunks c).
Proof.
  intros Hops p X. assert (Hr : postingRep p X) by (apply runOps_rep; [apply postingRep_empty|set_solver|done]).
  destruct (postingAll_spec p X Hr) as [Hs Hin]. split; [done|]. split; [done|]. split; [intros; by apply postingHas_spec|].
  split; [by apply postingLen_spec|]. unfold postingRep in Hr. destruct (large p) as [r|], (chunks p) as [c|]; [done|..].
  - destruct Hr as [-> _]. split; [cbn; lia|done].
  - destruct Hr as [-> (_ & Hc & _)]. split; [cbn; lia|]. by intros ? [= <-].
  - destruct Hr as [Hl _]. split; [exact Hl|done].
Qed.
End postings.

(** ** Labels and edge types *)

Inductive labelOp := LabelAdd (key : gostring) (id : N) | LabelRemove (key : gostring) (id : N) | LabelFork.

Definition labelSets (f : gostring -> gset N) (op : labelOp) : gostring -> gset N :=
  match op with
  | LabelAdd key id => setFor key ({[id]} ∪ f key) f
  | LabelRemove key id => setFor key (f key ∖ {[id]}) f
  | LabelFork => f
  end.

Section labels.
Context `{MapOrder unit} `{MapOrder (gmap gostring postingList)}.

Definition runLabel (p : option StringPostings) (op : labelOp) : option StringPostings :=
  match p with
  | None => None
  | Some p =>
      match op with
      | LabelAdd key id => postingsAdd p key id
      | LabelRemove key id => postingsRemove p key id
      | LabelFork => Some (postingsFork p)
      end
  end.

Lemma runLabels_rep ops p f : postingsRep p f -> exists p', foldl runLabel (Some p) ops = Some p' /\ postingsRep p' (foldl labelSets f ops).
Proof.
  revert p f. induction ops as [|[key id|key id|] ops IH]; intros p f Hp; cbn [foldl runLabel labelSets].
  - eauto.
  - destruct (postingsAdd_spec p f key id Hp) as (p' & -> & Hp'). by apply IH.
  - destruct (postingsRemove_spec p f key id Hp) as (p' & -> & Hp'). by apply IH.
  - apply IH. by apply postingsRep_fork.
Qed.

(** C32. The postings of labels and edge types keep a set of identifiers for every
    string. Whatever is added, removed and forked, in whatever order Go ranges over its
    maps and even when strings share a hash, no write meets a nil map, [Get] lists the
    set in ascending order, [Len] counts it, and [Keys] lists once each string whose set
    is not empty. *)
Theorem string_postings_refine_sets (order : gmap gostring postingList -> list gostring) ops :
  (forall m, order m ≡ₚ (map_to_list m).*1) ->
  let f := foldl labelSets (fun _ => ∅) ops in
  exists p, foldl runLabel (Some NewStringPostings) ops = Some p /\
    (forall key, StronglySorted N.lt (postingsGet p key) /\ (forall id, id ∈ postingsGet p key <-> id ∈ f key) /\
       postingsLen p key = Z.of_nat (size (f key)) /\ postingsAll p key ≡ₚ elements (f key)) /\
    NoDup (postingsKeys order p) /\ forall key, key ∈ postingsKeys order p <-> f key <> ∅.
Proof.
  intros Ho f. destruct (runLabels_rep ops _ _ postingsRep_new) as (p & E & Hp). fold f in Hp. exists p. split; [done|]. split.
  - intros key. destruct (postingsGet_spec p f key Hp) as [Hs Hin]. destruct (listOf_all p f key Hp). done.
  - by apply postingsKeys_spec.
Qed.
End labels.

(** ** Keys *)

(** C33. The key of a property value stands for the value, up to the sign of zero and
    the listing of maps: the same value has the same key, and values that share a key are
    the same, or else the key digests different bytes of theirs to one SHA-256 digest.
    Comparing the encodings decides sameness. *)
Theorem index_keys_exact v w :
  indexable v -> indexable w ->
  exists k k', makePropertyValueKey v = inl k /\ makePropertyValueKey w = inl k' /\
    (canonV v = canonV w -> k = k') /\ (k = k' -> canonV v = canonV w \/ collide v w) /\
    (propertyIndexValuesEqual v w = true <-> canonV v = canonV w).
Proof.
  intros Hv Hw. pose proof Hv as (Tv & Wv & Cv). pose proof Hw as (Tw & Ww & Cw). exists (keyOf v), (keyOf w).
  split; [by apply makeKey_typed|]. split; [by apply makeKey_typed|]. split; [|split; [by apply keyOf_inj|]].
  - intros E. by rewrite <- (keyOf_canon v), <- (keyOf_canon w), E.
  - unfold propertyIndexValuesEqual. rewrite !writeHash_typed, bool_decide_eq_true by done. split.
    + intros E. apply (f_equal (fun l => l ++ [])) in E. by destruct (encH_cuts v w [] [] Tv Wv Cv Tw Ww Cw E).
    + intros E. by rewrite <- (encH_canon v), <- (encH_canon w), E.
Qed.

(** ** The indexes of a graph *)

Definition nodeScopes (n : NodeRecord) : list gostring := elems (n_Labels n).
Definition edgeScopes (e : EdgeRecord) : list gostring := [e_Type e].
Definition scanNodes (g : graphView) := scan nodeScopes n_Properties (v_Nodes g).
Definition scanEdges (g : graphView) := scan edgeScopes e_Properties (v_Edges g).

Definition goodGraph (g : graphView) : Prop := goodMap n_Properties n_ID (v_Nodes g) /\ goodMap e_Properties e_ID (v_Edges g).

(** The changes lead from [base] to [next]: an entity that is not among the changed ones
    is gone if it was deleted, and is as it was otherwise. *)
Definition changesLead {R} (base next : gmap N R) (dels ups : gset N) : Prop :=
  forall id, id ∉ ups -> next !! id = if decide (id ∈ dels) then None else base !! id.

(** The postings of labels and of edge types, as sets. *)
Definition scopesOK `{MapOrder unit} `{MapOrder (gmap gostring postingList)} (labels edgeTypes : StringPostings) (g : graphView) : Prop :=
  postingsRep labels (ofScope nodeScopes (v_Nodes g)) /\ postingsRep edgeTypes (ofScope edgeScopes (v_Edges g)).

(** Cost of building the index [d] over the given entities, as the build charges it. *)
Definition buildCost {R} (propsOf : R -> Properties) (M : gmap N R) (d : PropertyIndexDefinition) (ids : list N) : N * N :=
  foldl (buildCharge d (fun id => propsOf <$> M !! id)) (propertyIndexDefinitionCost d) ids.

Section histories.
Context `{MapOrder (pageRoot unit)} `{DefinitionOrder} `{MapOrder bucketMap} `{MapOrder unit} `{MapOrder (gmap gostring postingList)}.
Implicit Types (nx ex : PropertyIndexes) (g : graphView) (d : PropertyIndexDefinition).

(** The indexes [Dn] of nodes and [De] of edges as the engine keeps them: made empty,
    built over the graph, dropped, and brought up to date by every commit. *)
Inductive indexHistory : gset PropertyIndexDefinition -> gset PropertyIndexDefinition -> PropertyIndexes -> PropertyIndexes -> graphView -> Prop :=
  | history_new g : goodGraph g -> indexHistory ∅ ∅ NewPropertyIndexes NewPropertyIndexes g
  | history_build_node Dn De nx ex g labels edgeTypes b d nx' work bytes :
      indexHistory Dn De nx ex g -> scopesOK labels edgeTypes g ->
      buildPropertyIndex b nx ex labels edgeTypes g true d = Some (inl (nx', work, bytes)) -> indexHistory ({[d]} ∪ Dn) De nx' ex g
  | history_build_edge Dn De nx ex g labels edgeTypes b d ex' work bytes :
      indexHistory Dn De nx ex g -> scopesOK labels edgeTypes g ->
      buildPropertyIndex b nx ex labels edgeTypes g false d = Some (inl (ex', work, bytes)) -> indexHistory Dn ({[d]} ∪ De) nx ex' g
  | history_drop_node Dn De nx ex g d nx' :
      indexHistory Dn De nx ex g -> Drop nx d = (nx', true) -> indexHistory (Dn ∖ {[d]}) De nx' ex g
  | history_drop_edge Dn De nx ex g d ex' :
      indexHistory Dn De nx ex g -> Drop ex d = (ex', true) -> indexHistory Dn (De ∖ {[d]}) nx ex' g
  | history_commit Dn De nx ex g next ch nx' ex' :
      indexHistory Dn De nx ex g -> goodGraph next ->
      changesLead (v_Nodes g) (v_Nodes next) (deleteNodes ch) (upsertNodes ch) -> changesLead (v_Edges g) (v_Edges next) (deleteEdges ch) (upsertEdges ch) ->
      applyPropertyIndexChanges (indexesFork nx) (indexesFork ex) g next ch = Some (inl (nx', ex')) -> indexHistory Dn De nx' ex' next.

Lemma applyChanges_spec Dn De nx ex g next ch :
  indexesRep nx Dn (scanNodes g) -> indexesRep ex De (scanEdges g) -> goodGraph g -> goodGraph next ->
  changesLead (v_Nodes g) (v_Nodes next) (deleteNodes ch) (upsertNodes ch) -> changesLead (v_Edges g) (v_Edges next) (deleteEdges ch) (upsertEdges ch) ->
  exists nx' ex', applyPropertyIndexChanges nx ex g next ch = Some (inl (nx', ex')) /\
    indexesRep nx' Dn (scanNodes next) /\ indexesRep ex' De (scanEdges next).
Proof.
  intros Hn He [Gn Ge] [Gn' Ge'] Cn Ce.
  destruct (commit_spec nodeScopes n_Properties n_ID (v_Nodes g) (v_Nodes next) Gn Gn' nx Dn _ _ Hn Cn) as (nx' & En & Hn').
  destruct (commit_spec edgeScopes e_Properties e_ID (v_Edges g) (v_Edges next) Ge Ge' ex De _ _ He Ce) as (ex' & Ee & He').
  exists nx', ex'. split; [|done]. unfold applyPropertyIndexChanges.
  assert (En' : applyNodeIndexChanges nx g next ch = Some (inl nx')) by exact En. assert (Ee' : applyEdgeIndexChanges ex g next ch = Some (inl ex')) by exact Ee.
  by rewrite En', Ee'.
Qed.

Lemma build_node_spec b Dn nx ex labels edgeTypes g d :
  indexesRep nx Dn (scanNodes g) -> goodGraph g -> scopesOK labels edgeTypes g -> d ∉ Dn ->
  let cost := buildCost n_Properties (v_Nodes g) d (postingsAll labels (df_Scope d)) in
  if exceedsDerivedBudget b cost.1 cost.2 then buildPropertyIndex b nx ex labels edgeTypes g true d = Some (inr errIndexBudget)
  else exists nx', buildPropertyIndex b nx ex labels edgeTypes g true d = Some (inl (nx', cost.1, cost.2)) /\ indexesRep nx' ({[d]} ∪ Dn) (scanNodes g).
Proof.
  intros Hn [Gn _] [Hl _] Hd. apply (buildIndex_spec nodeScopes n_Properties n_ID b nx Dn d (postingsAll labels (df_Scope d)) (v_Nodes g) Hn Gn Hd).
  intros id. unfold postingsAll. rewrite (proj1 (listOf_all labels _ (df_Scope d) Hl)). apply elem_of_elements.
Qed.

Lemma build_edge_spec b De nx ex labels edgeTypes g d :
  indexesRep ex De (scanEdges g) -> goodGraph g -> scopesOK labels edgeTypes g -> d ∉ De ->
  let cost := buildCost e_Properties (v_Edges g) d (postingsAll edgeTypes (df_Scope d)) in
  if exceedsDerivedBudget b cost.1 cost.2 then buildPropertyIndex b nx ex labels edgeTypes g false d = Some (inr errIndexBudget)
  else exists ex', buildPropertyIndex b nx ex labels edgeTypes g false d = Some (inl (ex', cost.1, cost.2)) /\ indexesRep ex' ({[d]} ∪ De) (scanEdges g).
Proof.
  intros He [_ Ge] [_ Hl] Hd. apply (buildIndex_spec edgeScopes e_Properties e_ID b ex De d (postingsAll edgeTypes (df_Scope d)) (v_Edges g) He Ge Hd).
  intros id. unfold postingsAll. rewrite (proj1 (listOf_all edgeTypes _ (df_Scope d) Hl)). apply elem_of_elements.
Qed.

(** A definition that is there already is refused. *)
Lemma buildIndex_exists b ix D G d ids props : indexesRep ix D G -> d ∈ D -> buildIndex b ix d ids props = Some (inr errIndexExists).
Proof.
  intros Hr Hd. unfold buildIndex. pose proof (Create_spec (indexesFork ix) D G d) as Hc. rewrite decide_True in Hc by done.
  rewrite Hc; [done|]. by eapply indexesRep_root.
Qed.

Lemma history_rep Dn De nx ex g :
  indexHistory Dn De nx ex g -> goodGraph g /\ indexesRep nx Dn (scanNodes g) /\ indexesRep ex De (scanEdges g).
Proof.
  induction 1 as [g Hg|Dn De nx ex g labels et b d nx' work bytes _ (Hg & Hn & He) Hs E|Dn De nx ex g labels et b d ex' work bytes _ (Hg & Hn & He) Hs E
                 |Dn De nx ex g d nx' _ (Hg & Hn & He) E|Dn De nx ex g d ex' _ (Hg & Hn & He) E|Dn De nx ex g next ch nx' ex' _ (Hg & Hn & He) Hg' Cn Ce E].
  - split; [done|]. split; (split; [apply dom_empty_L|]); intros d data Hd; change (px_definitions NewPropertyIndexes) with (∅ : gmap PropertyIndexDefinition propertyIndexData) in Hd; by rewrite lookup_empty in Hd.
  - split; [done|]. split; [|done]. destruct (decide (d ∈ Dn)) as [Hd|Hd].
    { unfold buildPropertyIndex in E. by rewrite (buildIndex_exists _ _ _ _ _ _ _ Hn Hd) in E. }
    pose proof (build_node_spec b Dn nx ex labels et g d Hn Hg Hs Hd) as Hb. cbn zeta in Hb. destruct (exceedsDerivedBudget b _ _); [congruence|].
    destruct Hb as (nx2 & E2 & Hr2). rewrite E in E2. by injection E2 as -> _ _.
  - split; [done|]. split; [done|]. destruct (decide (d ∈ De)) as [Hd|Hd].
    { unfold buildPropertyIndex in E. by rewrite (buildIndex_exists _ _ _ _ _ _ _ He Hd) in E. }
    pose proof (build_edge_spec b De nx ex labels et g d He Hg Hs Hd) as Hb. cbn zeta in Hb. destruct (exceedsDerivedBudget b _ _); [congruence|].
    destruct Hb as (ex2 & E2 & Hr2). rewrite E in E2. by injection E2 as -> _ _.
  - split; [done|]. split; [|done]. pose proof (Drop_spec nx Dn _ d Hn) as Hd. destruct (decide (d ∈ Dn)); [|congruence]. destruct Hd as (nx2 & E2 & Hr2). rewrite E in E2. by injection E2 as ->.
  - split; [done|]. split; [done|]. pose proof (Drop_spec ex De _ d He) as Hd. destruct (decide (d ∈ De)); [|congruence]. destruct Hd as (ex2 & E2 & Hr2). rewrite E in E2. by injection E2 as ->.
  - split; [done|]. destruct (applyChanges_spec Dn De (indexesFork nx) (indexesFork ex) g next ch) as (nx2 & ex2 & E2 & Hn2 & He2);
      [by eapply indexesRep_root|by eapply indexesRep_root|done..|]. rewrite E in E2. by injection E2 as -> ->.
Qed.

(** C17. The upkeep of the property indexes never fails. In every state the engine's
    indexes can reach, a commit whose changes lead to a graph with normalised properties
    brings them to a state reached again, with no error and no write to a nil map. A build
    of an index of nodes or of edges is refused as existing exactly when the definition is
    there; else it is refused for its budget exactly when what it charges for the
    definition and the entities of its scope exceeds it; else it reports those charges and
    leads to a state reached again. *)
Theorem index_upkeep_total Dn De nx ex g :
  indexHistory Dn De nx ex g ->
  (forall next ch, goodGraph next -> changesLead (v_Nodes g) (v_Nodes next) (deleteNodes ch) (upsertNodes ch) ->
     changesLead (v_Edges g) (v_Edges next) (deleteEdges ch) (upsertEdges ch) ->
     exists nx' ex', applyPropertyIndexChanges (indexesFork nx) (indexesFork ex) g next ch = Some (inl (nx', ex')) /\ indexHistory Dn De nx' ex' next) /\
  (forall labels edgeTypes b d, scopesOK labels edgeTypes g ->
     let built := buildPropertyIndex b nx ex labels edgeTypes g true d in
     let cost := buildCost n_Properties (v_Nodes g) d (postingsAll labels (df_Scope d)) in
     if decide (d ∈ Dn) then built = Some (inr errIndexExists)
     else if exceedsDerivedBudget b cost.1 cost.2 then built = Some (inr errIndexBudget)
     else exists nx', built = Some (inl (nx', cost.1, cost.2)) /\ indexHistory ({[d]} ∪ Dn) De nx' ex g) /\
  (forall labels edgeTypes b d, scopesOK labels edgeTypes g ->
     let built := buildPropertyIndex b nx ex labels edgeTypes g false d in
     let cost := buildCost e_Properties (v_Edges g) d (postingsAll edgeTypes (df_Scope d)) in
     if decide (d ∈ De) then built = Some (inr errIndexExists)
     else if exceedsDerivedBudget b cost.1 cost.2 then built = Some (inr errIndexBudget)
     else exists ex', built = Some (inl (ex', cost.1, cost.2)) /\ indexHistory Dn ({[d]} ∪ De) nx ex' g).
Proof.
  intros Hh. pose proof (history_rep _ _ _ _ _ Hh) as (Hg & Hn & He). split; [|split].
  - intros next ch Hg' Cn Ce. destruct (applyChanges_spec Dn De (indexesFork nx) (indexesFork ex) g next ch) as (nx' & ex' & E & _);
      [by eapply indexesRep_root|by eapply indexesRep_root|done..|]. exists nx', ex'. split; [done|]. by eapply history_commit.
  - intros labels et b d Hs built cost. destruct (decide (d ∈ Dn)) as [Hd|Hd]; [by eapply buildIndex_exists|].
    pose proof (build_node_spec b Dn nx ex labels et g d Hn Hg Hs Hd) as Hb. cbn zeta in Hb. fold cost in Hb.
    destruct (exceedsDerivedBudget b cost.1 cost.2); [done|]. destruct Hb as (nx' & E & _). exists nx'. split; [done|]. by eapply history_build_node.
  - intros labels et b d Hs built cost. destruct (decide (d ∈ De)) as [Hd|Hd]; [by eapply buildIndex_exists|].
    pose proof (build_edge_spec b De nx ex labels et g d He Hg Hs Hd) as Hb. cbn zeta in Hb. fold cost in Hb.
    destruct (exceedsDerivedBudget b cost.1 cost.2); [done|]. destruct Hb as (ex' & E & _). exists ex'. split; [done|]. by eapply history_build_edge.
Qed.

(** The entities of [M] in the scope of [d] whose property has the value [v], and no
    digest collision between [v] and what [M] holds under that property. *)
Definition carries {R} (scopesOf : R -> list gostring) (propsOf : R -> Properties) (M : gmap N R) d (v : value) (id : N) : Prop :=
  exists r w, M !! id = Some r /\ df_Scope d ∈ scopesOf r /\ Lookup (propsOf r) (df_Property d) = Some w /\ canonV w = canonV v.
Definition distinguished {R} (propsOf : R -> Properties) (M : gmap N R) d (v : value) : Prop :=
  indexable v /\ forall id r w, M !! id = Some r -> Lookup (propsOf r) (df_Property d) = Some w -> indexable w /\ ~ collide w v.

(** A lookup answers [who], in ascending order, as do the count and the bounded lookup. *)
Definition answers ix d (v : value) (who : N -> Prop) : Prop :=
  exists ids, indexLookup ix d v = Some (inl ids) /\ StronglySorted N.lt ids /\ (forall id, id ∈ ids <-> who id) /\
    Cardinality ix d v = Some (inl (Z.of_nat (length ids))) /\
    forall limit, limit < max_uint64 -> LookupLimit ix d v limit = Some (inl (take (N.to_nat limit) ids)).

Lemma scan_answers {R} (scopesOf : R -> list gostring) (propsOf : R -> Properties) (M : gmap N R) ix D d v :
  indexesRep ix D (scan scopesOf propsOf M) -> d ∈ D -> distinguished propsOf M d v -> answers ix d v (carries scopesOf propsOf M d v).
Proof.
  intros Hr Hd [Hv Hdist]. pose proof Hv as (Tv & Wv & _). pose proof (indexLookup_spec ix D _ d v Hr Tv Wv) as Hl. rewrite decide_True in Hl by done.
  destruct Hl as (ids & E & [Hs Hin] & Ec). exists ids. split; [done|]. split; [done|]. split; [|split; [done|]].
  - intros id. rewrite Hin, elem_of_scan. unfold carries, recordKey, entityKey. split.
    + intros (r & Hr' & Hk). case_bool_decide as Hsc; [|done]. destruct (Lookup (propsOf r) (df_Property d)) as [w|] eqn:El; [|done].
      injection Hk as Hk. destruct (Hdist _ _ _ Hr' El) as [Hw Hno]. exists r, w. split; [done|]. split; [done|]. split; [done|].
      by destruct (keyOf_inj w v Hw Hv Hk).
    + intros (r & w & Hr' & Hsc & El & Ecan). exists r. split; [done|]. rewrite bool_decide_eq_true_2, El by done. cbn. f_equal.
      destruct (Hdist _ _ _ Hr' El) as [(_ & Ww & _) _]. by rewrite <- (keyOf_canon w), <- (keyOf_canon v), Ecan.
  - intros limit Hlim. rewrite LookupLimit_spec, E. destruct (N.eqb_spec limit max_uint64); [lia|done].
Qed.

(** C16. A property index answers with exactly the entities a scan of the graph would
    find. In every state the engine's indexes can reach, looking up a value under an
    index of nodes, or of edges, lists in ascending order the entities in the scope of
    the index whose property has that value (up to the sign of zero), counts them, and
    bounded lists the first of them, unless SHA-256 maps the value and another one of
    the graph to the same digest. *)
Theorem index_lookup_exact Dn De nx ex g :
  indexHistory Dn De nx ex g ->
  (forall d v, d ∈ Dn -> distinguished n_Properties (v_Nodes g) d v -> answers nx d v (carries nodeScopes n_Properties (v_Nodes g) d v)) /\
  (forall d v, d ∈ De -> distinguished e_Properties (v_Edges g) d v -> answers ex d v (carries edgeScopes e_Properties (v_Edges g) d v)).
Proof.
  intros Hh. destruct (history_rep _ _ _ _ _ Hh) as (_ & Hn & He). split; intros d v Hd Hv; by eapply scan_answers.
Qed.
End histories.

(** ** Examples *)

#[local] Existing Instance canonicalOrder.
Definition canonicalDefinitions : DefinitionOrder :=
  {| rangeDefinitions := fun m => (map_to_list m).*1; rangeDefinitions_perm := fun m => reflexivity _ |}.
#[local] Existing Instance canonicalDefinitions.

(** Seventy identifiers far apart, then one of them removed: kept in chunks. *)
Definition sparseOps : list postingOp := ((fun i => OpAdd (N.of_nat i * 2 ^ 30)) <$> seq 0 70) ++ [OpRemove (2 ^ 30)].

Lemma posting_refines_set_witness :
  let p := foldl runOp emptyPosting sparseOps in
  is_Some (chunks p) /\ postingHas p (2 ^ 31) = true /\ postingLen p = 69%Z /\
  StronglySorted N.lt (postingAll p) /\ forall id, id ∈ postingAll p <-> id ∈ foldl opSet ∅ sparseOps.
Proof.
  cbv zeta. split; [vm_compute; eexists; reflexivity|]. split; [vm_compute; reflexivity|]. split; [vm_compute; reflexivity|].
  destruct (posting_refines_set sparseOps) as (H1 & H2 & _); [|exact (conj H1 H2)].
  apply Forall_app. split; [|repeat constructor]. apply Forall_fmap, Forall_seq. intros i Hi. change (N.of_nat i * 2 ^ 30 < 2 ^ 64). nia.
Defined.

Definition exampleLabels : list labelOp := [LabelAdd [x61] 3; LabelAdd [x61] 1; LabelAdd [x62] 3; LabelFork; LabelRemove [x62] 3; LabelAdd [x61] 2].

Lemma string_postings_refine_sets_witness :
  exists p, foldl runLabel (Some NewStringPostings) exampleLabels = Some p /\
    (forall key, key ∈ postingsKeys (fun m => (map_to_list m).*1) p <-> foldl labelSets (fun _ => ∅) exampleLabels key <> ∅) /\
    postingsGet p [x61] = [1; 2; 3] /\ postingsGet p [x62] = [].
Proof.
  destruct (string_postings_refine_sets (fun m => (map_to_list m).*1) exampleLabels) as (p & E & _ & _ & Hk); [reflexivity|].
  exists p. split; [exact E|]. split; [exact Hk|].
  assert (Ep : p = default NewStringPostings (foldl runLabel (Some NewStringPostings) exampleLabels)) by (rewrite E; reflexivity).
  rewrite Ep. split; vm_compute; reflexivity.
Defined.

(** A map with negative zero in it, and one with zero. *)
Definition negativeZero : value := VMap (Some [([x61], VFloat (2 ^ 63))]).
Definition positiveZero : value := VMap (Some [([x61], VFloat 0)]).

Lemma exampleMap_indexable bits : bits < 2 ^ 64 -> indexable (VMap (Some [([x61], VFloat bits)])).
Proof.
  intros Hb. split; [apply ty_map; repeat constructor|]. split; [|split; vm_compute; reflexivity].
  apply wf_map; [apply NoDup_singleton|]. constructor; [by apply wf_float|constructor].
Qed.

Lemma index_keys_exact_witness :
  negativeZero <> positiveZero /\ exists k, makePropertyValueKey negativeZero = inl k /\ makePropertyValueKey positiveZero = inl k.
Proof.
  split; [discriminate|].
  destruct (index_keys_exact negativeZero positiveZero) as (k & k' & E & E' & Hsame & _); [by apply exampleMap_indexable..|].
  exists k. split; [exact E|]. rewrite Hsame; [exact E'|]. reflexivity.
Defined.

(** An index built on the empty graph, and a commit that creates a node. *)
Definition exampleIndex : PropertyIndexDefinition := mkDefinition [x61] [x62].
Definition exampleNode : NodeRecord := mkNode 1 (Some [[x61]]) (PropertiesFromMap [([x62], VInt 5)]).
Definition emptyView : graphView := mkView ∅ ∅.
Definition exampleView : graphView := mkView {[1 := exampleNode]} ∅.
Definition exampleUpsert : txChanges := mkChanges {[1]} ∅ ∅ ∅ ∅ ∅.
Definition openBudget : derivedBudget := mkBudget 0 0 (2 ^ 20) (2 ^ 20).

Definition builtExample : PropertyIndexes :=
  match buildPropertyIndex openBudget NewPropertyIndexes NewPropertyIndexes NewStringPostings NewStringPostings emptyView true exampleIndex with
  | Some (inl (ix, _, _)) => ix
  | _ => NewPropertyIndexes
  end.
Definition committedExample : PropertyIndexes * PropertyIndexes :=
  match applyPropertyIndexChanges (indexesFork builtExample) (indexesFork NewPropertyIndexes) emptyView exampleView exampleUpsert with
  | Some (inl r) => r
  | _ => (NewPropertyIndexes, NewPropertyIndexes)
  end.

Lemma emptyView_good : goodGraph emptyView.
Proof. split; intros id r E; cbn in E; by rewrite lookup_empty in E. Qed.

Lemma emptyView_scopes : scopesOK NewStringPostings NewStringPostings emptyView.
Proof.
  destruct postingsRep_new as (gb & Hr & Hb & Hm). split; exists gb; (split; [exact Hr|]); (split; [|exact Hm]);
    (eapply bucketsRep_ext; [|exact Hb]); intros k; symmetry; apply set_eq; intros id; rewrite elem_of_ofScope; cbn;
    setoid_rewrite lookup_empty; set_solver.
Qed.

Lemma exampleView_good : goodGraph exampleView.
Proof.
  split; intros id r E; cbn in E; [|by rewrite lookup_empty in E]. apply lookup_singleton_Some in E as [<- <-].
  split; [reflexivity|]. split; [reflexivity|]. split; [split; repeat constructor|]. constructor; [|constructor]. split; constructor. done.
Qed.

Lemma example_history : indexHistory {[exampleIndex]} ∅ builtExample NewPropertyIndexes emptyView.
Proof.
  pose proof (history_new emptyView emptyView_good) as Hh. destruct (history_rep _ _ _ _ _ Hh) as (_ & Hn & _).
  pose proof (build_node_spec openBudget ∅ NewPropertyIndexes NewPropertyIndexes NewStringPostings NewStringPostings emptyView exampleIndex
                Hn emptyView_good emptyView_scopes (not_elem_of_empty _)) as Hb. cbn zeta in Hb.
  assert (Ec : buildCost n_Properties (v_Nodes emptyView) exampleIndex (postingsAll NewStringPostings (df_Scope exampleIndex)) = (1, 194)) by (vm_compute; reflexivity).
  rewrite Ec in Hb. change (exceedsDerivedBudget openBudget (1, 194).1 (1, 194).2) with false in Hb. destruct Hb as (nx' & E & _).
  assert (Ex : builtExample = nx') by (unfold builtExample; by rewrite E). rewrite Ex, <- (union_empty_r_L {[exampleIndex]}).
  by eapply (history_build_node ∅ ∅ NewPropertyIndexes NewPropertyIndexes emptyView NewStringPostings NewStringPostings); [|apply emptyView_scopes|exact E].
Qed.

Lemma example_leads : changesLead (v_Nodes emptyView) (v_Nodes exampleView) (deleteNodes exampleUpsert) (upsertNodes exampleUpsert).
Proof. intros id Hid. cbn in *. rewrite lookup_singleton_ne by set_solver. rewrite lookup_empty. by case_decide. Qed.

(** A budget that is used up but for one unit of work. *)
Definition tightBudget : derivedBudget := mkBudget 10 0 10 1000000.

Lemma index_upkeep_total_witness :
  (exists nx' ex', applyPropertyIndexChanges (indexesFork builtExample) (indexesFork NewPropertyIndexes) emptyView exampleView exampleUpsert = Some (inl (nx', ex')) /\
     indexHistory {[exampleIndex]} ∅ nx' ex' exampleView) /\
  buildPropertyIndex openBudget builtExample NewPropertyIndexes NewStringPostings NewStringPostings emptyView true exampleIndex = Some (inr errIndexExists) /\
  buildPropertyIndex tightBudget builtExample NewPropertyIndexes NewStringPostings NewStringPostings emptyView false exampleIndex = Some (inr errIndexBudget) /\
  exists ex', buildPropertyIndex openBudget builtExample NewPropertyIndexes NewStringPostings NewStringPostings emptyView false exampleIndex = Some (inl (ex', 1, 194)) /\
    indexHistory {[exampleIndex]} {[exampleIndex]} builtExample ex' emptyView.
Proof.
  destruct (index_upkeep_total {[exampleIndex]} ∅ builtExample NewPropertyIndexes emptyView example_history) as (Hc & Hbn & Hbe).
  assert (Ec : buildCost e_Properties (v_Edges emptyView) exampleIndex (postingsAll NewStringPostings (df_Scope exampleIndex)) = (1, 194)) by (vm_compute; reflexivity).
  specialize (Hbn NewStringPostings NewStringPostings openBudget exampleIndex emptyView_scopes). cbv zeta in Hbn. rewrite decide_True in Hbn by by apply elem_of_singleton.
  pose proof (Hbe NewStringPostings NewStringPostings tightBudget exampleIndex emptyView_scopes) as Ht. specialize (Hbe NewStringPostings NewStringPostings openBudget exampleIndex emptyView_scopes).
  cbv zeta in Hbe, Ht. rewrite decide_False in Hbe, Ht by apply not_elem_of_empty. rewrite Ec in Hbe, Ht. rewrite union_empty_r_L in Hbe.
  split; [|split; [exact Hbn|split; [exact Ht|exact Hbe]]].
  apply Hc; [exact exampleView_good|exact example_leads|]. intros id _. cbn. rewrite !lookup_empty. by case_decide.
Defined.

Lemma example_committed_history : indexHistory {[exampleIndex]} ∅ committedExample.1 committedExample.2 exampleView.
Proof.
  destruct (history_rep _ _ _ _ _ example_history) as (Hg & Hn & He).
  assert (Ce : changesLead (v_Edges emptyView) (v_Edges exampleView) (deleteEdges exampleUpsert) (upsertEdges exampleUpsert)).
  { intros id _. cbn. rewrite !lookup_empty. by case_decide. }
  destruct (applyChanges_spec _ _ (indexesFork builtExample) (indexesFork NewPropertyIndexes) emptyView exampleView exampleUpsert Hn He Hg exampleView_good example_leads Ce)
    as (nx' & ex' & E & _).
  assert (Ex : committedExample = (nx', ex')) by (unfold committedExample; by rewrite E). rewrite Ex.
  by eapply (history_commit _ _ builtExample NewPropertyIndexes emptyView exampleView exampleUpsert); [exact example_history|exact exampleView_good|exact example_leads|exact Ce|].
Qed.

Lemma index_lookup_exact_witness :
  answers committedExample.1 exampleIndex (VInt 5) (carries nodeScopes n_Properties (v_Nodes exampleView) exampleIndex (VInt 5)) /\
  indexLookup committedExample.1 exampleIndex (VInt 5) = Some (inl [1]).
Proof.
  split; [|vm_compute; reflexivity].
  apply (proj1 (index_lookup_exact {[exampleIndex]} ∅ committedExample.1 committedExample.2 exampleView example_committed_history)); [set_solver|].
  assert (Hi : forall i, int64 i -> indexable (VInt i)) by (intros i Hi; split; [constructor|split; [by constructor|by split]]).
  split; [by apply Hi|]. intros id r w Hr Hw. cbn [v_Nodes exampleView] in Hr. apply lookup_singleton_Some in Hr as [<- <-]. vm_compute in Hw. injection Hw as <-.
  split; [by apply Hi|]. intros (a & b & Ha & _). discriminate Ha.
Defined.
