(* ===== verification/RecoveryTheorems.v ===== *)
(** * Theorems on property patches and crash recovery

    The statements about property_delta.go and recovery.go, with an instance of each on
    a concrete log. *)
From S2P Require Import Prelude.
From S2P Require Import GoBytes.
From S2P Require Import BinaryCodec.
From S2P Require Import BinaryCodecSpec.
From S2P Require Import BinaryValue.
From S2P Require Import BinaryValueSpec.
From S2P Require Import BinaryRecords.
From S2P Require Import BinaryRecordsSpec.
From S2P Require Import BinaryTheorems.
From S2P Require Import GoMaps.
From S2P Require Import Values.
From S2P Require Import ValuesSpec.
From S2P Require Import Properties.
From S2P Require Import PageRecords.
From S2P Require Import Streams.
From S2P Require Import StreamStoreSpec.
From S2P Require Import StreamPersist.
From S2P Require Import StreamPersistSpec.
From S2P Require Import StreamTxSpec.
From S2P Require Import PropertyDelta.
From S2P Require Import PropertyPatch.
From S2P Require Import WalAccumulator.
From S2P Require Import WalInvariant.
From S2P Require Import WalSteps.
From S2P Require Import WalFrames.
From S2P Require Import WalFramesSpec.
From S2P Require Import DecoderSafety.
From Stdlib Require Strings.String.
Import String.StringSyntax.

(** ** Property patches *)

(** C28. A patch built from an entity's new properties and the changed keys, applied to
    the entity's old stored map, gives the stored map of the new properties; and the
    totals kept for the old map, adjusted by the patch, are those of the new one. *)
Theorem property_patch_roundtrip eid keys before after old totals work :
  ValidateEntityID eid = None -> storable before -> storable after -> Forall (fun k => utf8Valid k = true) keys -> NoDup keys ->
  (forall k, k ∉ keys -> Lookup before k = Lookup after k) ->
  encodePropertyStorage before = inl old -> derivePropertyTotals old = inl (totals, work) ->
  exists change updated work',
    buildPersistedPropertyChange eid keys after = inl change /\
    encodePropertyStorage after = inl (patchProperties old change) /\
    adjustPropertyTotals totals change = inl updated /\
    derivePropertyTotals (patchProperties old change) = inl (updated, work').
Proof.
  intros Hid Hb Ha Hu Hnd Hsame Henc Htot. rewrite storedOf_encode in Henc by done. injection Henc as <-.
  pose proof (storedOf_sorted _ Hb) as Hs. pose proof (storedOf_ok _ Hb) as Hp.
  rewrite derivePropertyTotals_exact in Htot by done. injection Htot as <- <-.
  pose proof (patch_exact eid keys before after Hb Ha Hnd Hsame) as Epatch.
  pose proof (adjust_exact (storedOf before) (builtChange eid keys after) Hs Hp (found_wf after keys Ha Hnd)) as Hadj.
  pose proof (storedOf_ok _ Ha) as Hpa. rewrite Epatch in Hadj.
  assert (Hset : propsOKP (elems (pc_Set (builtChange eid keys after))) = true) by (eapply propsOKP_submseteq; [by apply found_submseteq|done]).
  pose proof Hpa as Hlim. unfold propsOKP in Hlim. apply andb_true_iff in Hlim as [_ Hlim]. rewrite Hset, Hlim in Hadj. cbn [andb] in Hadj.
  destruct Hadj as [Hadj _]. do 3 eexists. split_and!; [by apply build_exact|by rewrite Epatch, storedOf_encode|exact Hadj|].
  rewrite Epatch. apply derivePropertyTotals_exact; [by apply storedOf_sorted|done].
Qed.

(** The incremental totals agree with a fresh derivation: an accepted patch yields
    exactly the totals of the patched map, which is within the limits, and a patch is
    refused exactly when its own values or the patched map are not. *)
Theorem adjusted_totals_exact m change totals work :
  keysSorted m -> propsOKP m = true -> wfStored (elems (pc_Set change)) -> derivePropertyTotals m = inl (totals, work) ->
  match adjustPropertyTotals totals change with
  | inl updated => propsOKP (patchProperties m change) = true /\ exists work', derivePropertyTotals (patchProperties m change) = inl (updated, work')
  | inr _ => propsOKP (elems (pc_Set change)) && limitsOK (patchProperties m change) = false
  end.
Proof.
  intros Hs Hp Hw E. rewrite derivePropertyTotals_exact in E by done. injection E as <- <-.
  pose proof (adjust_exact m change Hs Hp Hw) as Hadj. destruct (propsOKP (elems (pc_Set change)) && _) eqn:Ep.
  - destruct Hadj as [-> Hok]. split; [done|]. eexists. apply derivePropertyTotals_exact; [by apply patch_sorted|done].
  - by destruct Hadj as [err ->].
Qed.

(** ** Recovery *)

Section recovery.
Context (jsonPayload : list byte -> walPayload + error) (jsonState : list byte -> persistedState + error).
Context (maxCanonicalBytes : N) (base : option (N * persistedState)).

(** C14. Whatever the bytes of the log, replay ends: the loop, run without fuel, takes at
    most one turn for every twelve bytes and comes out with the result of the load, be it
    a state or an error, so the fuel never runs out and more of it changes nothing. A
    state it returns is the image of an accumulator that satisfies the recovery
    invariant: identifiers valid and below their high-water marks, endpoints and full-text
    rows present, incident counts exact, properties well formed and within the limits,
    index definitions and metadata valid; what the JSON decoders and a checkpoint base
    return is taken to be Go values. *)
Theorem load_any_bytes file b :
  let loaded := loadLatestWALV2 jsonPayload jsonState maxCanonicalBytes base file b in
  let start := (file, None, true, b) in
  (exists n, (n * walHeaderPrefixSize <= length file)%nat /\ loopEnds jsonPayload jsonState maxCanonicalBytes base n start loaded /\
     forall n' r, loopEnds jsonPayload jsonState maxCanonicalBytes base n' start r -> n' = n /\ r = loaded) /\
  (forall fuel, (length file < fuel)%nat -> replayFrames jsonPayload jsonState maxCanonicalBytes base fuel file None true b = loaded) /\
  ((forall data v, jsonPayload data = inl v -> wfPayload v) -> (forall data s, jsonState data = inl s -> wfState s) ->
   (forall address s, base = Some (address, s) -> wfState s) ->
   forall state ready, loaded = inl (state, ready) -> exists acc, accOK acc /\ accPersistedState acc = inl state).
Proof.
  cbv zeta. split; [|split].
  - destruct (loop_ends jsonPayload jsonState maxCanonicalBytes base (S (length file)) file None true b ltac:(lia)) as (n & Hn & He). exists n. split; [done|]. split; [done|].
    by apply loopEnds_unique.
  - intros fuel Hf. apply replayFrames_fuel; lia.
  - intros Hp Hs Hb state ready E. eapply replayFrames_ok; [exact Hp|exact Hs|exact Hb| |exact E]. done.
Qed.

(** C12. A log cut anywhere inside its last frame recovers what the frames before it
    recover; it is reported ready for appending when the cut leaves nothing of the frame,
    or exactly the first twelve bytes of its header. *)
Theorem torn_log_recovers entries e k b :
  maxCanonicalBytes <= max_uint64 ->
  Forall (entryOK maxCanonicalBytes) entries -> entryOK maxCanonicalBytes e -> (k < length (entryFrame e))%nat ->
  loadLatestWALV2 jsonPayload jsonState maxCanonicalBytes base (logBytes entries ++ take k (entryFrame e)) b =
  match loadLatestWALV2 jsonPayload jsonState maxCanonicalBytes base (logBytes entries) b with
  | inl (state, _) => inl (state, bool_decide (k = 0 \/ k = walHeaderPrefixSize)%nat)
  | inr err => inr err
  end.
Proof. intros Hm. by apply load_torn. Qed.

(** C13. One changed byte anywhere in a frame, in its header or its payload, makes the
    load fail. *)
Theorem damaged_log_rejected entries e i b0 c rest b :
  maxCanonicalBytes <= max_uint64 ->
  Forall (entryOK maxCanonicalBytes) entries -> entryOK maxCanonicalBytes e -> entryFrame e !! i = Some b0 -> c <> b0 ->
  exists err, loadLatestWALV2 jsonPayload jsonState maxCanonicalBytes base (logBytes entries ++ <[i := c]> (entryFrame e) ++ rest) b = inr err.
Proof. intros Hm. by apply load_damaged. Qed.

(** Whatever the file system does to an append, the log afterwards recovers the
    state before it or the state after it. A successful append leaves the frame behind the
    log; an error that does not say the outcome is unknown leaves the log and the writer
    as they were. *)
Theorem append_recovers_old_or_new w fs entries e err w' b :
  maxCanonicalBytes <= max_uint64 -> writerOK w -> ww_file w = logBytes entries ->
  Forall (entryOK maxCanonicalBytes) entries -> entryOK maxCanonicalBytes e ->
  appendBinary w fs (en_database e) (en_commit e) (en_value e) = (err, w') ->
  let load := fun file => loadLatestWALV2 jsonPayload jsonState maxCanonicalBytes base file b in
  (err = None -> ww_file w' = logBytes (entries ++ [e]) /\ writerOK w') /\
  (err <> None -> outcomeUnknown err = false -> ww_file w' = ww_file w /\ writerOK w') /\
  (load (ww_file w') = load (logBytes (entries ++ [e])) \/
   exists ready, load (ww_file w') = match load (ww_file w) with inl (state, _) => inl (state, ready) | inr err => inr err end).
Proof.
  intros Hm Hw Hf Hok He E load. destruct (append_outcome _ _ _ _ _ _ _ Hw Hf He E) as ((k & Hfile) & Hnone & Hsome). split_and!; [done|done|].
  destruct (decide (k < length (entryFrame e))%nat) as [Hlt|Hge].
  - right. exists (bool_decide (k = 0 \/ k = walHeaderPrefixSize)%nat). unfold load. rewrite Hfile, Hf. by apply load_torn.
  - left. unfold load. by rewrite Hfile, logBytes_snoc, take_ge by lia.
Qed.

(** C38. A log cut after the twelfth byte of a frame's header, whatever its frames, loads
    and is reported ready for appending, though it does not end on a frame boundary. It
    opens for appending, and a working disk takes the next frame; but once any frame is
    appended there, no load reads the log again, nor with anything behind it. *)
Theorem torn_prefix_reported_ready entries cut next b state ready :
  maxCanonicalBytes <= max_uint64 ->
  Forall (entryOK maxCanonicalBytes) entries -> entryOK maxCanonicalBytes cut -> entryOK maxCanonicalBytes next ->
  loadLatestWALV2 jsonPayload jsonState maxCanonicalBytes base (logBytes entries) b = inl (state, ready) ->
  let torn := logBytes entries ++ take walHeaderPrefixSize (entryFrame cut) in
  loadLatestWALV2 jsonPayload jsonState maxCanonicalBytes base torn b = inl (state, true) /\
  walFramesComplete torn = false /\
  exists w, OpenWALWriter torn = inl w /\
    (exists w', appendBinary w (noFaults next) (en_database next) (en_commit next) (en_value next) = (None, w')) /\
    forall faults w' rest b', appendBinary w faults (en_database next) (en_commit next) (en_value next) = (None, w') ->
      exists err, loadLatestWALV2 jsonPayload jsonState maxCanonicalBytes base (ww_file w' ++ rest) b' = inr err.
Proof.
  intros Hm Hok Hcut Hnext E torn. assert (Hk : (0 < walHeaderPrefixSize < length (entryFrame cut))%nat) by (rewrite (entryFrame_length _ _ Hcut); unfold walHeaderPrefixSize, walHeaderSize; lia).
  split; [|split].
  - unfold torn. rewrite (load_torn _ _ _ _ Hm _ _ _ _ Hok Hcut) by apply Hk. by rewrite E.
  - by eapply walFramesComplete_cut.
  - destruct (OpenWALWriter_log _ entries (take walHeaderPrefixSize (entryFrame cut)) Hok) as (w & Ew & Hw & Hf); [by intros ->|]. exists w. split; [done|]. split; [by eapply append_healthy|].
    intros faults w' rest b' Ha. rewrite (append_done _ _ _ _ _ Hw Hnext Ha), Hf, <- !app_assoc. by apply load_mixed.
Qed.
End recovery.

(** A delta does to the recovered graph what its lists say: nodes upserted then
    deleted, edges and full-text rows deleted then upserted; a property delta besides
    replaces the properties of each entity it names by the patched ones and leaves every
    other entity alone. *)
Theorem deltas_patch_maps acc delta acc' :
  (apply acc delta = inl acc' ->
   acc_nodes acc' = deltaNodes acc delta /\ acc_edges acc' = deltaEdges acc delta /\ acc_fts acc' = deltaFTS acc delta) /\
  (accOK acc -> wfDelta delta -> applyPropertyDelta acc delta = inl acc' ->
   patchedMap withNodeProps pn_Properties (deltaNodes acc delta) (acc_nodes acc') (elems (dl_NodePropertyChanges delta)) /\
   patchedMap withEdgeProps pe_Properties (deltaEdges acc delta) (acc_edges acc') (elems (dl_EdgePropertyChanges delta))).
Proof. split; [apply apply_maps|]. intros Hok [_ _ Hn He]. by apply applyPropertyDelta_maps. Qed.

(** C15. Writing an accumulator back and loading it again succeeds and changes nothing:
    the same nodes, edges, text, metadata, indexes, high-water marks, commit and streams. *)
Theorem recovered_state_reloads acc a : accOK acc -> storeOK (acc_streams acc) a -> storableStore a -> st_CommitID (acc_state acc) <> max_uint64 ->
  exists state acc', accPersistedState acc = inl state /\ newWALAccumulator state = inl acc' /\ sameAcc acc acc' /\ storeOK (acc_streams acc') a.
Proof. apply reload_ok. Qed.

(** C27. Whatever bytes it reads, and whether it fails or not, a decoder reserves at most
    twice its byte limit, and what it builds weighs at most what it reserved. *)
Theorem decoder_allocation_bounded input length maxBytes :
  let d := newBinaryDecoder input length maxBytes in
  (nsum (reserved (dec_state d).1) <= nsum (d_log (dec_state d).2) <= multiplySaturated maxBytes 2) /\
  (nsum (reserved (dec_delta d).1) <= nsum (d_log (dec_delta d).2) <= multiplySaturated maxBytes 2) /\
  match decodeBinaryWALPayload input length maxBytes with inl v => payloadReserved v <= multiplySaturated maxBytes 2 | inr _ => True end.
Proof.
  intros d. pose proof (multiplySaturated_le maxBytes 2) as Hm. assert (Hd : allocationLeft d <= max_uint64) by exact Hm.
  destruct (state_reads d Hd) as (_ & Hs & _ & Hsc). destruct (delta_reads d Hd) as (_ & He & _ & Hec).
  unfold spent in *. cbn [d d_log allocationLeft newBinaryDecoder nsum foldr] in Hs, He, Hsc, Hec. split_and!; [lia..|].
  destruct (decodeBinaryWALPayload _ _ _) eqn:E; [|done]. by apply decoded_payload in E as [_ E].
Qed.

(** ** A concrete log *)

Definition exampleDatabase : gostring := replicate 32 x61.
Definition exampleSnapshot : persistedState :=
  mkPState exampleDatabase 0 1 2 1 (Some []) (Some [mkPNode 1 (Some [[x50]]) (Some [([x61], PVInt 3)])]) None None None None (mkPStreams (Some []) None).
Definition emptyDelta (commit : N) : persistedDelta :=
  mkPDelta exampleDatabase commit 2 1 None None None None None None None None None None None None None None None.
Definition exampleBaseEntry : walEntry := mkEntry exampleDatabase 1 (WALSnapshot (Some exampleSnapshot)).
Definition exampleNextEntry (commit : N) : walEntry := mkEntry exampleDatabase commit (WALDelta (Some (emptyDelta commit))).
Definition noLimits : recoveryBudget := mkBudget (mkLimits 0 0 0) 0 0 0 [].
Definition noJSON {A} (_ : list byte) : A + error := inr ErrEOF.

(** ** Instances *)

Lemma example_wfSnapshot : wfState exampleSnapshot.
Proof. split; repeat constructor. Qed.

Lemma exampleProps_valid n : validMap (validV (S n)) (Some [([x61], PVInt 3)]).
Proof. concrete_valid. Qed.

Lemma exampleNodes_valid : valid (Some [mkPNode 1 (Some [[x50]]) (Some [([x61], PVInt 3)])]).
Proof.
  split; [vm_compute; reflexivity|]. apply Forall_singleton.
  assert (Hl : valid (Some [[x50 : byte]])) by concrete_valid.
  exact (conj (eq_refl : (1 ?= 2 ^ 64) = Lt) (conj Hl (exampleProps_valid 65))).
Qed.

Lemma exampleSnapshot_valid : payloadValid (WALSnapshot (Some exampleSnapshot)).
Proof.
  pose proof exampleNodes_valid as Hn. unfold payloadValid, exampleSnapshot. revert Hn. generalize (Some [mkPNode 1 (Some [[x50]]) (Some [([x61], PVInt 3)])]).
  intros nodes Hn. cbn [valid codec_state st_DatabaseID st_VectorDimensions st_CommitID st_NextNodeID st_NextEdgeID st_AppMetadata st_Nodes st_Edges st_FTS
    st_NodeIndexes st_EdgeIndexes st_Streams]. unfold exampleDatabase.
  repeat match goal with |- _ /\ _ => split end; try exact Hn; try done; concrete_valid.
Qed.

Lemma emptyDelta_valid commit : commit < 2 ^ 64 -> payloadValid (WALDelta (Some (emptyDelta commit))).
Proof.
  intros Hc. unfold payloadValid, emptyDelta. cbn [valid codec_delta dl_DatabaseID dl_CommitID dl_NextNodeID dl_NextEdgeID dl_UpsertNodes dl_DeleteNodes dl_UpsertEdges
       dl_DeleteEdges dl_UpsertFTS dl_DeleteFTS dl_AppMetadata dl_Streams dl_StreamOperations dl_CreateNodeIndexes dl_DropNodeIndexes dl_CreateEdgeIndexes dl_DropEdgeIndexes
       dl_NodePropertyChanges dl_EdgePropertyChanges]. unfold exampleDatabase.
  repeat match goal with |- _ /\ _ => split end; try exact Hc; try done; concrete_valid.
Qed.

Lemma exampleBase_ok : entryOK 4096 exampleBaseEntry.
Proof. split; [vm_compute; reflexivity|vm_compute; reflexivity|exact exampleSnapshot_valid|vm_compute; discriminate..]. Qed.
Lemma exampleNext_ok : entryOK 4096 (exampleNextEntry 2).
Proof. split; [vm_compute; reflexivity|vm_compute; reflexivity|by apply emptyDelta_valid|vm_compute; discriminate..]. Qed.
Lemma exampleLog_ok : Forall (entryOK 4096) [exampleBaseEntry].
Proof. apply Forall_singleton. exact exampleBase_ok. Qed.

(** A property changed and another added. *)
Definition propsBefore : Properties := PropertiesFromMap [([x61], VInt 3); ([x62], VBool true)].
Definition propsAfter : Properties := PropertiesFromMap [([x61], VInt 4); ([x63], VString [x78])].
Definition propsKeys : list gostring := [[x63]; [x61]; [x62]].

Lemma small_storable l : NoDup l.*1 -> Forall (fun kv => normalAt 0 kv.2) (PAll (PropertiesFromMap l)) -> propsOK (PAll (PropertiesFromMap l)) = true ->
  storable (PropertiesFromMap l).
Proof. intros Hnd Hn Hp. split; [|done]. by apply represents_from. Qed.

Lemma int_normal i : int64 i -> normalAt 0 (VInt i).
Proof. intros Hi. split; [by apply wf_int|apply ty_int|done|done]. Qed.
Lemma bool_normal b : normalAt 0 (VBool b).
Proof. split; [by constructor|by constructor|done|done]. Qed.
Lemma string_normal : normalAt 0 (VString [x78]).
Proof. split; [by constructor|by constructor|done|done]. Qed.

Lemma propsBefore_ok : storable propsBefore.
Proof.
  apply small_storable; [apply (bool_decide_unpack _); vm_compute; exact I| |vm_compute; reflexivity].
  constructor; [apply int_normal; unfold int64; cbn; lia|]. constructor; [apply bool_normal|constructor].
Qed.
Lemma propsAfter_ok : storable propsAfter.
Proof.
  apply small_storable; [apply (bool_decide_unpack _); vm_compute; exact I| |vm_compute; reflexivity].
  constructor; [apply int_normal; unfold int64; cbn; lia|]. constructor; [apply string_normal|constructor].
Qed.

Lemma from_map_lookup l k : NoDup l.*1 -> Lookup (PropertiesFromMap l) k = mapLookup k l.
Proof.
  intros Hnd. pose proof (represents_from l Hnd) as Hr. rewrite Lookup_entries by (by destruct Hr as [[Hs _] _]).
  by rewrite (represents_lookup _ _ _ Hr), toMap_lookup.
Qed.

Lemma props_elsewhere k : k ∉ propsKeys -> Lookup propsBefore k = Lookup propsAfter k.
Proof.
  intros Hk. unfold propsBefore, propsAfter. rewrite !from_map_lookup by (apply (bool_decide_unpack _); vm_compute; exact I). cbn [mapLookup].
  assert (Hne : forall x, x ∈ propsKeys -> x <> k) by (intros x Hx ->; done).
  rewrite !bool_decide_false by (apply Hne; unfold propsKeys; set_solver). done.
Qed.

Lemma property_patch_roundtrip_witness :
  exists change updated work',
    buildPersistedPropertyChange 7 propsKeys propsAfter = inl change /\
    encodePropertyStorage propsAfter = inl (patchProperties [([x61], PVInt 3); ([x62], PVBool true)] change) /\
    adjustPropertyTotals (mkTotals 2 2 {[ [x61] := mkValueTotals 0 0; [x62] := mkValueTotals 0 0 ]}) change = inl updated /\
    derivePropertyTotals (patchProperties [([x61], PVInt 3); ([x62], PVBool true)] change) = inl (updated, work').
Proof.
  apply (property_patch_roundtrip 7 propsKeys propsBefore propsAfter _ _ 2).
  - vm_compute. reflexivity.
  - exact propsBefore_ok.
  - exact propsAfter_ok.
  - repeat constructor.
  - apply (bool_decide_unpack _). vm_compute. exact I.
  - exact props_elsewhere.
  - vm_compute. reflexivity.
  - vm_compute. reflexivity.
Defined.

Definition smallChange : persistedPropertyChange := mkPChange 7 (Some [([x61], PVInt 4)]) (Some [[x62]]).

Definition smallMap : storedMap := [([x61], PVInt 3); ([x62], PVBool true)].
Definition smallTotals : propertyTotals := mkTotals 2 2 {[ [x61] := mkValueTotals 0 0; [x62] := mkValueTotals 0 0 ]}.

Lemma adjusted_totals_exact_witness :
  match adjustPropertyTotals smallTotals smallChange with
  | inl updated => propsOKP (patchProperties smallMap smallChange) = true /\ exists work', derivePropertyTotals (patchProperties smallMap smallChange) = inl (updated, work')
  | inr _ => propsOKP (elems (pc_Set smallChange)) && limitsOK (patchProperties smallMap smallChange) = false
  end.
Proof.
  apply (adjusted_totals_exact smallMap smallChange smallTotals 2).
  - repeat constructor; discriminate.
  - vm_compute. reflexivity.
  - split; repeat constructor.
  - vm_compute. reflexivity.
Defined.

(** A log of one snapshot; and bytes that are no log, where the load ends with an error
    at its first turn. *)
Definition noLog : list byte := replicate 200 xff.

Lemma load_any_bytes_witness :
  (exists acc, accOK acc /\ accPersistedState acc = inl exampleSnapshot) /\
  loopEnds noJSON noJSON 4096 None 0 (noLog, None, true, noLimits) (inr (ErrNew "invalid WAL frame header"%string)).
Proof.
  destruct (load_any_bytes noJSON noJSON 4096 None (entryFrame exampleBaseEntry) noLimits) as (_ & _ & Hok).
  destruct (load_any_bytes noJSON noJSON 4096 None noLog noLimits) as ((n & _ & He & Hu) & _ & _). split.
  - apply (Hok ltac:(done) ltac:(done) ltac:(done) exampleSnapshot true). vm_compute. reflexivity.
  - assert (E : loadLatestWALV2 noJSON noJSON 4096 None noLog noLimits = inr (ErrNew "invalid WAL frame header"%string)) by (vm_compute; reflexivity). rewrite E in He, Hu.
    assert (E0 : loopEnds noJSON noJSON 4096 None 0 (noLog, None, true, noLimits) (inr (ErrNew "invalid WAL frame header"%string))) by (apply ends_out; vm_compute; reflexivity).
    destruct (Hu _ _ E0) as [En _]. rewrite En. exact He.
Defined.

Lemma torn_prefix_reported_ready_witness :
  let load := loadLatestWALV2 noJSON noJSON 4096 None in
  let torn := logBytes [exampleBaseEntry] ++ take walHeaderPrefixSize (entryFrame (exampleNextEntry 2)) in
  load torn noLimits = inl (exampleSnapshot, true) /\ walFramesComplete torn = false /\
  exists w w' err, OpenWALWriter torn = inl w /\
    appendBinary w (noFaults (exampleNextEntry 2)) exampleDatabase 2 (en_value (exampleNextEntry 2)) = (None, w') /\ load (ww_file w' ++ []) noLimits = inr err.
Proof.
  cbv zeta. destruct (torn_prefix_reported_ready noJSON noJSON 4096 None [exampleBaseEntry] (exampleNextEntry 2) (exampleNextEntry 2) noLimits exampleSnapshot true) as (H1 & H2 & w & H3 & [w' H4] & H5).
  - vm_compute. discriminate.
  - exact exampleLog_ok.
  - exact exampleNext_ok.
  - exact exampleNext_ok.
  - vm_compute. reflexivity.
  - split; [exact H1|]. split; [exact H2|]. destruct (H5 _ w' [] noLimits H4) as [err H6]. exists w, w', err. split; [exact H3|]. split; [exact H4|exact H6].
Defined.

Lemma torn_log_recovers_witness :
  loadLatestWALV2 noJSON noJSON 4096 None (logBytes [exampleBaseEntry] ++ take 30 (entryFrame (exampleNextEntry 2))) noLimits = inl (exampleSnapshot, false).
Proof.
  rewrite (torn_log_recovers noJSON noJSON 4096 None [exampleBaseEntry] (exampleNextEntry 2) 30 noLimits).
  - vm_compute. reflexivity.
  - vm_compute. discriminate.
  - exact exampleLog_ok.
  - exact exampleNext_ok.
  - vm_compute. lia.
Defined.

Lemma damaged_log_rejected_witness :
  exists err, loadLatestWALV2 noJSON noJSON 4096 None (logBytes [exampleBaseEntry] ++ <[40%nat := x62]> (entryFrame (exampleNextEntry 2)) ++ []) noLimits = inr err.
Proof.
  apply (damaged_log_rejected noJSON noJSON 4096 None [exampleBaseEntry] (exampleNextEntry 2) 40 x61 x62 [] noLimits).
  - vm_compute. discriminate.
  - exact exampleLog_ok.
  - exact exampleNext_ok.
  - vm_compute. reflexivity.
  - discriminate.
Defined.

(** A writer at the end of the log, and an append whose payload write stops after five
    bytes and is taken back. *)
Definition exampleWriter : WALWriter := mkWALWriter true (logBytes [exampleBaseEntry]) (length (logBytes [exampleBaseEntry])) 0.
Definition shortWrite : appendFaults := mkFaults None (walHeaderSize, None) (5%nat, None) None None None None.

Lemma append_recovers_old_or_new_witness :
  let w' := (appendBinary exampleWriter shortWrite exampleDatabase 2 (en_value (exampleNextEntry 2))).2 in
  ww_file w' = logBytes [exampleBaseEntry] /\ writerOK w'.
Proof.
  destruct (appendBinary exampleWriter shortWrite exampleDatabase 2 (en_value (exampleNextEntry 2))) as [err w'] eqn:E.
  apply (append_recovers_old_or_new noJSON noJSON 4096 None exampleWriter shortWrite [exampleBaseEntry] (exampleNextEntry 2) err w' noLimits).
  - vm_compute. discriminate.
  - split; reflexivity.
  - reflexivity.
  - exact exampleLog_ok.
  - exact exampleNext_ok.
  - exact E.
  - apply (f_equal fst) in E. vm_compute in E. rewrite <- E. discriminate.
  - apply (f_equal fst) in E. vm_compute in E. rewrite <- E. vm_compute. reflexivity.
Defined.

(** The accumulator of the example snapshot, which holds no streams. *)
Lemma example_accumulator : exists acc, newWALAccumulator exampleSnapshot = inl acc /\ accOK acc /\ acc_streams acc = NewStreamStore /\ st_CommitID (acc_state acc) = 1.
Proof.
  destruct (newWALAccumulator exampleSnapshot) as [acc|] eqn:E; [|vm_compute in E; discriminate]. exists acc. split; [done|].
  split; [destruct example_wfSnapshot; by eapply newWALAccumulator_ok|]. vm_compute in E. injection E as <-. split; vm_compute; reflexivity.
Qed.

Lemma recovered_state_reloads_witness :
  exists acc state acc', newWALAccumulator exampleSnapshot = inl acc /\ accPersistedState acc = inl state /\ newWALAccumulator state = inl acc' /\ sameAcc acc acc'.
Proof.
  destruct example_accumulator as (acc & E & Hok & Hst & Hc). exists acc.
  destruct (recovered_state_reloads acc absEmpty) as (state & acc' & H1 & H2 & H3 & _).
  - exact Hok.
  - rewrite Hst. apply empty_ok.
  - exact empty_storable.
  - rewrite Hc. discriminate.
  - exists state, acc'. split_and!; assumption.
Defined.

(** A property delta that changes the only node's only property. *)
Definition exampleChangeDelta : persistedDelta :=
  mkPDelta exampleDatabase 2 2 1 None None None None None None None None None None None None None
    (Some [mkPChange 1 (Some [([x61], PVInt 4)]) None]) None.

Lemma deltas_patch_maps_witness :
  exists acc acc', newWALAccumulator exampleSnapshot = inl acc /\ applyPropertyDelta acc exampleChangeDelta = inl acc' /\
    patchedMap withNodeProps pn_Properties (deltaNodes acc exampleChangeDelta) (acc_nodes acc') (elems (dl_NodePropertyChanges exampleChangeDelta)).
Proof.
  destruct example_accumulator as (acc & E & Hok & _ & _). exists acc.
  destruct (applyPropertyDelta acc exampleChangeDelta) as [acc'|] eqn:Ea.
  - exists acc'. split; [exact E|]. split; [reflexivity|].
    apply (proj2 (deltas_patch_maps acc exampleChangeDelta acc')); [exact Hok| |exact Ea]. split; repeat constructor.
  - exfalso. vm_compute in E. injection E as <-. vm_compute in Ea. discriminate.
Defined.
