(* ===== verification/GraphTheorems.v ===== *)
(** * Theorems on commits, crashes and recovery

    The graph as it is snapshotted, logged commit by commit, and recovered. *)
From S2P Require Import Prelude.
From S2P Require Import GoBytes.
From S2P Require Import BinaryCodec.
From S2P Require Import BinaryCodecSpec.
From S2P Require Import BinaryValue.
From S2P Require Import BinaryValueSpec.
From S2P Require Import BinaryRecords.
From S2P Require Import BinaryRecordsSpec.
From S2P Require Import BinaryTheorems.
From S2P Require Import GoMaps.
From S2P Require Import Values.
From S2P Require Import ValuesSpec.
From S2P Require Import Properties.
From S2P Require Import PageRecords.
From S2P Require Import Streams.
From S2P Require Import StreamStoreSpec.
From S2P Require Import StreamPersist.
From S2P Require Import StreamPersistSpec.
From S2P Require Import StreamTx.
From S2P Require Import StreamTxSpec.
From S2P Require Import PropertyDelta.
From S2P Require Import PropertyPatch.
From S2P Require Import WalAccumulator.
From S2P Require Import WalInvariant.
From S2P Require Import WalSteps.
From S2P Require Import WalFrames.
From S2P Require Import WalFramesSpec.
From S2P Require Import DecoderSafety.
From S2P Require Import RecoveryTheorems.
From S2P Require Import WalApply.
From S2P Require Import GraphPersist.
From S2P Require Import GraphChanges.
From S2P Require Import GraphCommit.

Section history.
Context (generateID : gostring + error) (jsonPayload : list byte -> walPayload + error) (jsonState : list byte -> persistedState + error).
Context (maxCanonicalBytes : N) (checkpoint : option (N * persistedState)).

(** A log file that loads as the snapshot of a graph, whatever the checkpoint. *)
Definition recovers (file : list byte) (g : graphState) (nextNodeID nextEdgeID commitID : N) (ready : bool) : Prop :=
  forall b, unlimited b -> exists snapshot state, buildPersistedState generateID g nextNodeID nextEdgeID commitID = inl (snapshot, g) /\
    loadLatestWALV2 jsonPayload jsonState maxCanonicalBytes checkpoint file b = inl (state, ready) /\ sameState snapshot state.

Definition snapshotEntry (g : graphState) (commitID : N) (snapshot : persistedState) : walEntry := mkEntry (g_DatabaseID g) commitID (WALSnapshot (Some snapshot)).
Definition commitEntry (g : graphState) (commitID : N) (delta : persistedDelta) : walEntry := mkEntry (g_DatabaseID g) commitID (deltaPayload delta).

(** One commit: from a graph to the next, its frame within the limits. *)
Record commitOK (base : graphState) (bn be : N) (g : graphState) (nn ne commit : N) (changes : GraphDelta) (delta : persistedDelta) : Prop := mkCommitOK {
  co_graph : wfGraph g nn ne;
  co_changes : changesOK base g changes;
  co_grow : bn <= nn /\ be <= ne;
  co_room : commit < max_uint64;
  co_delta : buildPersistedDelta generateID g nn ne (commit + 1) changes = inl (delta, g);
  co_frame : entryOK maxCanonicalBytes (commitEntry g (commit + 1) delta) }.

(** How a log comes about: a snapshot in an empty file, then commits that succeed and
    attempts that are known to have failed, whatever the file system does. *)
Inductive logged : graphState -> N -> N -> N -> list walEntry -> WALWriter -> Prop :=
  | logged_snapshot w fs g nn ne commit snapshot w' :
      writerOK w -> ww_file w = [] -> wfGraph g nn ne -> commit < max_uint64 ->
      buildPersistedState generateID g nn ne commit = inl (snapshot, g) -> entryOK maxCanonicalBytes (snapshotEntry g commit snapshot) ->
      AppendSnapshot generateID w fs g nn ne commit = (None, w') -> logged g nn ne commit [snapshotEntry g commit snapshot] w'
  | logged_commit base bn be commit entries w fs g nn ne changes delta w' :
      logged base bn be commit entries w -> commitOK base bn be g nn ne commit changes delta ->
      AppendDelta generateID w fs g nn ne (commit + 1) changes = (None, w') ->
      logged g nn ne (commit + 1) (entries ++ [commitEntry g (commit + 1) delta]) w'
  | logged_failed g nn ne commit entries w fs g' nn' ne' commit' changes err w' :
      logged g nn ne commit entries w -> AppendDelta generateID w fs g' nn' ne' commit' changes = (Some err, w') -> outcomeUnknown (Some err) = false ->
      logged g nn ne commit entries w'.

Abbreviation step := (entryStep checkpoint).

Lemma step_unlimited e acc b acc' : unlimited b ->
  (forall b, unlimited b -> exists b', replayPayload checkpoint acc b (en_database e) (en_commit e) (en_value e) = inl (acc', b') /\ unlimited b') ->
  exists b', step (acc, b) e = inl (Some acc', b') /\ unlimited b'.
Proof.
  intros Hb Hr. unfold entryStep, frame, decodedBytes, charge. cbn [fst snd]. rewrite Hb. cbn [MaxFrames MaxDecodedBytes N.eqb negb andb rb_limits rb_bytes rb_frames rb_work rb_states].
  match goal with |- context [replayPayload _ _ ?b0 _ _ _] => destruct (Hr b0) as (b' & -> & Hb') end; [done|]. by exists b'.
Qed.

Lemma foldError_snoc {A B} (f : A -> B -> A + error) l x : forall a a', foldError f a l = inl a' -> foldError f a (l ++ [x]) = f a' x.
Proof.
  induction l as [|y l IH]; intros a a'; cbn [foldError app]; [intros [= <-]; by destruct (f a x)|]. destruct (f a y); [apply IH|done].
Qed.

(** What a log holds, at every point of its history. *)
Lemma logged_inv g nn ne commit entries w : logged g nn ne commit entries w ->
  writerOK w /\ ww_file w = logBytes entries /\ Forall (entryOK maxCanonicalBytes) entries /\ entries <> [] /\ wfGraph g nn ne /\
  exists acc, imageOf g nn ne commit acc /\ forall b, unlimited b -> exists b', foldError step (None, b) entries = inl (Some acc, b') /\ unlimited b'.
Proof.
  induction 1 as [w fs g nn ne commit snapshot w' Hw Hf Hg Hc Hb He Ha|base bn be commit entries w fs g nn ne changes delta w' _ IH Hco Ha|g nn ne commit entries w fs g' nn' ne' commit' changes err w' _ IH Ha Hu].
  - destruct (snapshot_loads generateID g nn ne commit Hg ltac:(lia)) as (snapshot' & acc & Hb' & Hl & Him & Ed & Ec). rewrite Hb in Hb'. injection Hb' as <-.
    unfold AppendSnapshot in Ha. rewrite Hb, Ed, Ec in Ha. destruct (append_outcome maxCanonicalBytes w fs [] (snapshotEntry g commit snapshot) None w' Hw Hf He Ha) as (_ & Hok & _).
    destruct (Hok eq_refl) as [Hf' Hw']. split_and!; try done; [by apply Forall_singleton|]. exists acc. split; [done|]. intros b Hun.
    destruct (step_unlimited (snapshotEntry g commit snapshot) None b acc Hun) as (b' & Es & Hb').
    + intros b0 Hb0. destruct (replayWork_unlimited b0 (persistedStateWork snapshot) Hb0) as (b1 & Eb & Hb1). exists b1. split; [|done].
      cbn [replayPayload snapshotEntry en_database en_commit en_value replaySnapshot]. rewrite Ec, Ed, N.eqb_refl, bool_decide_true by done. cbn [negb orb]. by rewrite Eb, Hl.
    + exists b'. cbn [foldError]. by rewrite Es.
  - destruct IH as (Hw & Hf & Hok & Hne & Hbase & acc & Him & Hrun). destruct Hco as [Hg Hch Hgrow Hroom Hb He].
    destruct (commit_replays generateID checkpoint base g bn be nn ne commit changes acc Hbase Hg Hch Hgrow Hroom Him) as (delta' & acc' & Hb' & Ed & Ec & Him' & Hstep).
    rewrite Hb in Hb'. injection Hb' as <-. unfold AppendDelta in Ha. rewrite Hb, (wo_open _ Hw), Ed, Ec in Ha. cbn [negb] in Ha.
    destruct (append_outcome maxCanonicalBytes w fs entries (commitEntry g (commit + 1) delta) None w' Hw Hf He Ha) as (_ & Hdone & _).
    destruct (Hdone eq_refl) as [Hf' Hw']. split_and!; try done; [apply Forall_app; split; [done|by apply Forall_singleton]|destruct entries; discriminate|].
    exists acc'. split; [done|]. intros b Hun. destruct (Hrun b Hun) as (b1 & Er & Hb1).
    destruct (step_unlimited (commitEntry g (commit + 1) delta) (Some acc) b1 acc' Hb1 Hstep) as (b2 & Es & Hb2). exists b2. by rewrite (foldError_snoc _ _ _ _ _ Er).
  - destruct IH as (Hw & Hf & Hrest). unfold AppendDelta in Ha. destruct (buildPersistedDelta _ _ _ _ _ _) as [[delta' g1]|berr]; [|injection Ha as <- <-; exact (conj Hw (conj Hf Hrest))].
    rewrite (wo_open _ Hw) in Ha. cbn [negb] in Ha. destruct (append_failed w fs _ _ _ _ _ Hw Ha ltac:(done) Hu) as [Hf' Hw']. split; [done|]. rewrite Hf'. by split.
Qed.

Context (Hmax : maxCanonicalBytes <= max_uint64).

(** A log, and some of a next frame, against the graph its frames hold. *)
Lemma log_recovers g nn ne commit entries acc e k : wfGraph g nn ne -> imageOf g nn ne commit acc -> Forall (entryOK maxCanonicalBytes) entries ->
  (forall b, unlimited b -> exists b', foldError step (None, b) entries = inl (Some acc, b') /\ unlimited b') ->
  entryOK maxCanonicalBytes e -> (k < length (entryFrame e))%nat ->
  recovers (logBytes entries ++ take k (entryFrame e)) g nn ne commit (bool_decide (k = 0 \/ k = walHeaderPrefixSize)%nat).
Proof.
  intros Hg Him Hok Hrun He Hk b Hb. destruct (image_writes generateID g nn ne commit acc Hg Him) as (snapshot & state & Hs & Hp & Hsame).
  exists snapshot, state. split; [done|]. split; [|done]. rewrite load_cut by done. destruct (Hrun b Hb) as (b' & -> & _).
  unfold finishReplay. by rewrite Hp.
Qed.

Lemma entryFrame_nonempty e : entryOK maxCanonicalBytes e -> (0 < length (entryFrame e))%nat.
Proof. intros He. rewrite (entryFrame_length _ _ He). unfold walHeaderSize. lia. Qed.

Lemma whole_log_recovers g nn ne commit entries w : logged g nn ne commit entries w -> recovers (ww_file w) g nn ne commit true.
Proof.
  intros Hl. destruct (logged_inv _ _ _ _ _ _ Hl) as (_ & -> & Hok & Hne & Hg & acc & Him & Hrun). destruct entries as [|e entries]; [done|].
  pose proof Hok as Hall. apply Forall_cons in Hall as [He _]. rewrite <- (app_nil_r (logBytes _)). rewrite <- (take_0 (entryFrame e)).
  apply (log_recovers g nn ne commit (e :: entries) acc e 0 Hg Him Hok Hrun He). by apply entryFrame_nonempty.
Qed.

(** C9. Recovery implements the commit: when the changes describe the step from one
    well-formed graph to the next, the delta is built and replay accepts it, and from an
    accumulator that holds the first graph it gives one that holds the second: records,
    text, metadata, indexes, identifiers and streams. *)
Theorem commit_refines base g bn be nn ne commit changes acc b :
  wfGraph base bn be -> wfGraph g nn ne -> changesOK base g changes -> bn <= nn /\ be <= ne -> commit < max_uint64 -> imageOf base bn be commit acc -> unlimited b ->
  exists delta acc' b', buildPersistedDelta generateID g nn ne (commit + 1) changes = inl (delta, g) /\
    replayPayload checkpoint (Some acc) b (g_DatabaseID g) (commit + 1) (deltaPayload delta) = inl (acc', b') /\ imageOf g nn ne (commit + 1) acc'.
Proof.
  intros Hbase Hg Hch Hgrow Hroom Him Hb. destruct (commit_replays generateID checkpoint base g bn be nn ne commit changes acc Hbase Hg Hch Hgrow Hroom Him)
    as (delta & acc' & Hd & _ & _ & Him' & Hstep). destruct (Hstep b Hb) as (b' & Hr & _). by exists delta, acc', b'.
Qed.

(** Durability: a log that took a snapshot and any number of commits, with failed
    attempts between them, loads as the snapshot of the last committed graph; and so it
    does with any part of an unfinished frame behind it. *)
Theorem committed_graph_recovered g nn ne commit entries w : logged g nn ne commit entries w ->
  recovers (ww_file w) g nn ne commit true /\
  forall e k, entryOK maxCanonicalBytes e -> (k < length (entryFrame e))%nat -> exists ready, recovers (ww_file w ++ take k (entryFrame e)) g nn ne commit ready.
Proof.
  intros Hl. split; [by eapply whole_log_recovers|]. intros e k He Hk. destruct (logged_inv _ _ _ _ _ _ Hl) as (_ & -> & Hok & _ & Hg & acc & Him & Hrun).
  eexists. by eapply log_recovers.
Qed.

(** A commit's append, however it ends, leaves a log that holds the commit or does not. *)
Lemma append_recovers base bn be commit entries w fs g nn ne changes delta err w' :
  logged base bn be commit entries w -> commitOK base bn be g nn ne commit changes delta ->
  AppendDelta generateID w fs g nn ne (commit + 1) changes = (err, w') ->
  recovers (ww_file w') g nn ne (commit + 1) true \/ exists ready, recovers (ww_file w') base bn be commit ready.
Proof.
  intros Hl Hco Ha. destruct (logged_inv _ _ _ _ _ _ Hl) as (Hw & Hf & Hok & _ & Hg & acc & Him & Hrun). pose proof Hco as [Hgw Hch Hgrow Hroom Hb He].
  destruct (commit_replays generateID checkpoint base g bn be nn ne commit changes acc Hg Hgw Hch Hgrow Hroom Him) as (delta' & acc' & Hb' & Ed & Ec & Him' & Hstep).
  rewrite Hb in Hb'. injection Hb' as <-. unfold AppendDelta in Ha. rewrite Hb, (wo_open _ Hw), Ed, Ec in Ha. cbn [negb] in Ha.
  destruct (append_outcome maxCanonicalBytes w fs entries (commitEntry g (commit + 1) delta) err w' Hw Hf He Ha) as ((k & Hfile) & _ & _).
  destruct (decide (k < length (entryFrame (commitEntry g (commit + 1) delta)))%nat) as [Hk|Hk].
  - right. eexists. rewrite Hfile. by eapply log_recovers.
  - left. rewrite Hfile, take_ge, <- logBytes_snoc, <- (app_nil_r (logBytes _)), <- (take_0 (entryFrame (commitEntry g (commit + 1) delta))) by lia.
    apply (log_recovers g nn ne (commit + 1) _ acc' (commitEntry g (commit + 1) delta) 0 Hgw Him'); [apply Forall_app; split; [done|by apply Forall_singleton]| |done|by apply entryFrame_nonempty].
    intros b Hun. destruct (Hrun b Hun) as (b1 & Er & Hb1). destruct (step_unlimited (commitEntry g (commit + 1) delta) (Some acc) b1 acc' Hb1 Hstep) as (b2 & Es & Hb2).
    exists b2. by rewrite (foldError_snoc _ _ _ _ _ Er).
Qed.

(** C8. Atomicity: whatever the file system does to a commit's append, the file
    afterwards loads as the snapshot of the graph before or of the graph after; of the
    graph after when the append succeeds, of the graph before when it is known to have
    failed. *)
Theorem commit_atomic base bn be commit entries w fs g nn ne changes delta err w' :
  logged base bn be commit entries w -> commitOK base bn be g nn ne commit changes delta ->
  AppendDelta generateID w fs g nn ne (commit + 1) changes = (err, w') ->
  (err = None -> recovers (ww_file w') g nn ne (commit + 1) true) /\
  (err <> None -> outcomeUnknown err = false -> recovers (ww_file w') base bn be commit true) /\
  (recovers (ww_file w') g nn ne (commit + 1) true \/ exists ready, recovers (ww_file w') base bn be commit ready).
Proof.
  intros Hl Hco Ha. split_and!; [| |by eapply append_recovers].
  - intros ->. eapply whole_log_recovers. by eapply logged_commit.
  - intros Hne Hu. destruct err as [err|]; [|done]. eapply whole_log_recovers. by eapply logged_failed.
Qed.
End history.

(** ** A concrete history *)

Definition graphBefore : graphState :=
  mkGraph exampleDatabase 0 ∅ {[ 1 := mkNode 1 (Some [[x50]]) propsBefore ]} ∅ {[ 1 := [x78] ]} ∅ ∅ NewStreamStore.
Definition nodesAfter : gmap N NodeRecord := {[ 1 := mkNode 1 (Some [[x50]]) propsAfter; 2 := mkNode 2 (Some [[x50]]) (PropertiesFromMap []) ]}.
Definition edgesAfter : gmap N EdgeRecord := {[ 1 := mkEdge 1 1 2 [x52] (PropertiesFromMap []) ]}.
Definition graphAfter : graphState :=
  mkGraph exampleDatabase 0 {[ [x6b] := Some [x76] ]} nodesAfter edgesAfter {[ 2 := [x79] ]} {[ ([x50], [x61]) ]} ∅ NewStreamStore.

(** Node 1 patched, node 2 and the edge written, the text moved, a key and an index
    added. *)
Definition exampleChanges : GraphDelta :=
  mkGraphDelta (Some [2; 1]) None (Some [1]) None (Some [2]) (Some [1]) [mkMetaChange (Some [x6b]) (Some [x76]) false] false []
    [([x50], [x61])] [] [] [] {[ 1 := propsKeys ]} ∅.

Definition noID : gostring + error := inr ErrEOF.

Definition snapshotBefore : persistedState :=
  mkPState exampleDatabase 0 1 2 1 (Some []) (Some [mkPNode 1 (Some [[x50]]) (Some [([x61], PVInt 3); ([x62], PVBool true)])]) (Some [])
    (Some [mkPFTS 1 [x78]]) (Some []) (Some []) (mkPStreams (Some []) None).
Definition deltaAfter : persistedDelta :=
  mkPDelta exampleDatabase 2 3 2 (Some [mkPNode 2 (Some [[x50]]) (Some [])]) None (Some [mkPEdge 1 1 2 [x52] (Some [])]) None
    (Some [mkPFTS 2 [x79]]) (Some [1]) (Some [mkPMetaChange (Some [x6b]) (Some [x76]) false]) None None (Some [mkPIndex [x50] [x61]]) (Some []) (Some []) (Some [])
    (Some [mkPChange 1 (Some [([x61], PVInt 4); ([x63], PVString [x78])]) (Some [[x62]])]) None.

Lemma emptyProps_ok : storable (PropertiesFromMap []).
Proof. apply small_storable; [constructor|constructor|vm_compute; reflexivity]. Qed.

Lemma no_streams : exists a, storeOK NewStreamStore a /\ storableStore a.
Proof. exists absEmpty. split; [apply empty_ok|apply empty_storable]. Qed.

Lemma graphBefore_wf : wfGraph graphBefore 2 1.
Proof.
  split; cbn [graphBefore g_Nodes g_Edges g_FTS g_AppMetadata g_NodeIndexes g_EdgeIndexes g_DatabaseID g_Streams].
  - apply map_Forall_singleton. split_and!; [done|done|done|exact propsBefore_ok|done].
  - apply map_Forall_empty.
  - apply map_Forall_empty.
  - apply map_Forall_singleton. split; [by eexists|done].
  - apply map_Forall_empty.
  - apply set_Forall_empty.
  - apply set_Forall_empty.
  - vm_compute. reflexivity.
  - vm_compute. reflexivity.
  - vm_compute. reflexivity.
  - exact no_streams.
Qed.

Lemma graphAfter_wf : wfGraph graphAfter 3 2.
Proof.
  split; cbn [graphAfter g_Nodes g_Edges g_FTS g_AppMetadata g_NodeIndexes g_EdgeIndexes g_DatabaseID g_Streams].
  - apply map_Forall_insert_2; [|apply map_Forall_singleton]; (split_and!; [done|done|done| |done]); [exact propsAfter_ok|exact emptyProps_ok].
  - apply map_Forall_singleton. split_and!; [done|done|done|exact emptyProps_ok|done].
  - apply map_Forall_singleton. split; by eexists.
  - apply map_Forall_singleton. split; [by eexists|done].
  - apply map_Forall_singleton. done.
  - apply set_Forall_singleton. done.
  - apply set_Forall_empty.
  - vm_compute. reflexivity.
  - vm_compute. reflexivity.
  - vm_compute. reflexivity.
  - exact no_streams.
Qed.

Lemma exampleChanges_ok : changesOK graphBefore graphAfter exampleChanges.
Proof.
  split; cbn [graphBefore graphAfter exampleChanges g_Nodes g_Edges g_FTS g_AppMetadata g_NodeIndexes g_EdgeIndexes g_DatabaseID g_VectorDimensions g_Streams gd_UpsertNodes
    gd_DeleteNodes gd_UpsertEdges gd_DeleteEdges gd_UpsertFTS gd_DeleteFTS gd_AppMetadata gd_StreamsChanged gd_StreamOperations gd_CreateNodeIndexes gd_DropNodeIndexes
    gd_CreateEdgeIndexes gd_DropEdgeIndexes gd_NodePropertyKeys gd_EdgePropertyKeys elems default from_option id].
  - split; [apply (bool_decide_unpack _); vm_compute; exact I| | |].
    + intros id Hid. apply elem_of_cons in Hid as [->|Hid]; [by eexists|]. apply list_elem_of_singleton in Hid as ->. by eexists.
    + by intros id Hid%elem_of_nil.
    + intros id _ Hn. unfold nodesAfter. assert (id <> 1 /\ id <> 2) as [? ?] by set_solver. by rewrite lookup_insert_ne, !lookup_singleton_ne by congruence.
  - split; [apply (bool_decide_unpack _); vm_compute; exact I| | |].
    + intros id Hid. apply list_elem_of_singleton in Hid as ->. by eexists.
    + by intros id Hid%elem_of_nil.
    + intros id _ Hn. assert (id <> 1) by set_solver. unfold edgesAfter. by rewrite lookup_singleton_ne by congruence.
  - split; [apply (bool_decide_unpack _); vm_compute; exact I| | |].
    + intros id Hid. apply list_elem_of_singleton in Hid as ->. by eexists.
    + intros id Hid. apply list_elem_of_singleton in Hid as ->. split; [by eexists|done].
    + intros id H1 H2. assert (id <> 1 /\ id <> 2) as [? ?] by set_solver. by rewrite !lookup_singleton_ne by congruence.
  - intros id ks Hk Hne. destruct (decide (id = 1)) as [->|Hn]; [|by rewrite lookup_singleton_ne in Hk by congruence]. rewrite lookup_singleton_eq in Hk. injection Hk as <-.
    split; [set_solver|]. split; [apply (bool_decide_unpack _); vm_compute; exact I|]. split; [repeat constructor|].
    eexists _, _. split; [reflexivity|]. split; [reflexivity|]. split; [done|]. exact props_elsewhere.
  - intros id ks Hk. by rewrite lookup_empty in Hk.
  - split; [apply (bool_decide_unpack _); vm_compute; exact I|repeat constructor| |].
    + intros c Hc. apply list_elem_of_singleton in Hc as ->. done.
    + intros key Hk. cbn in Hk. rewrite lookup_singleton_ne; [done|]. set_solver.
  - split; [apply (bool_decide_unpack _); vm_compute; exact I|constructor|set_solver|set_solver|set_solver].
  - split; [constructor|constructor|set_solver|set_solver|set_solver].
  - by left.
  - reflexivity.
  - reflexivity.
Qed.

Lemma snapshotBefore_built : buildPersistedState noID graphBefore 2 1 1 = inl (snapshotBefore, graphBefore).
Proof. vm_compute. reflexivity. Qed.
Lemma deltaAfter_built : buildPersistedDelta noID graphAfter 3 2 2 exampleChanges = inl (deltaAfter, graphAfter).
Proof. vm_compute. reflexivity. Qed.

Lemma nodesBefore_valid : valid (st_Nodes snapshotBefore).
Proof.
  split; [vm_compute; reflexivity|]. apply Forall_singleton. assert (Hl : valid (Some [[x50 : byte]])) by concrete_valid.
  assert (Hp : forall n, validMap (validV (S n)) (Some [([x61], PVInt 3); ([x62], PVBool true)])) by (intros n; concrete_valid).
  exact (conj (eq_refl : (1 ?= 2 ^ 64) = Lt) (conj Hl (Hp 65%nat))).
Qed.

Lemma snapshotBefore_valid : payloadValid (WALSnapshot (Some snapshotBefore)).
Proof.
  pose proof nodesBefore_valid as Hn. unfold payloadValid, snapshotBefore in *. cbn [st_Nodes] in Hn. revert Hn. generalize (Some [mkPNode 1 (Some [[x50]]) (Some [([x61], PVInt 3); ([x62], PVBool true)])]).
  intros nodes Hn. cbn [valid codec_state st_DatabaseID st_VectorDimensions st_CommitID st_NextNodeID st_NextEdgeID st_AppMetadata st_Nodes st_Edges st_FTS
    st_NodeIndexes st_EdgeIndexes st_Streams]. unfold exampleDatabase.
  repeat match goal with |- _ /\ _ => split end; try exact Hn; try done; concrete_valid.
Qed.

Lemma nodesAfter_valid : valid (dl_UpsertNodes deltaAfter).
Proof.
  split; [vm_compute; reflexivity|]. apply Forall_singleton. assert (Hl : valid (Some [[x50 : byte]])) by concrete_valid.
  assert (Hp : forall n, validMap (validV (S n)) (Some [])) by (intros n; concrete_valid).
  exact (conj (eq_refl : (2 ?= 2 ^ 64) = Lt) (conj Hl (Hp 65%nat))).
Qed.
Lemma edgesAfter_valid : valid (dl_UpsertEdges deltaAfter).
Proof.
  split; [vm_compute; reflexivity|]. apply Forall_singleton. assert (Hl : valid [x52 : byte]) by concrete_valid.
  assert (Hp : forall n, validMap (validV (S n)) (Some [])) by (intros n; concrete_valid).
  exact (conj (eq_refl : (1 ?= 2 ^ 64) = Lt) (conj (eq_refl : (1 ?= 2 ^ 64) = Lt) (conj (eq_refl : (2 ?= 2 ^ 64) = Lt) (conj Hl (Hp 65%nat))))).
Qed.
Lemma changesAfter_valid : valid (dl_NodePropertyChanges deltaAfter).
Proof.
  split; [vm_compute; reflexivity|]. apply Forall_singleton. assert (Hl : valid (Some [[x62 : byte]])) by concrete_valid.
  assert (Hp : forall n, validMap (validV (S n)) (Some [([x61], PVInt 4); ([x63], PVString [x78])])) by (intros n; concrete_valid).
  exact (conj (eq_refl : (1 ?= 2 ^ 64) = Lt) (conj (Hp 65%nat) Hl)).
Qed.

Lemma deltaAfter_valid : payloadValid (WALPropertyDelta (Some deltaAfter)).
Proof.
  pose proof nodesAfter_valid as Hn. pose proof edgesAfter_valid as He. pose proof changesAfter_valid as Hc. unfold payloadValid, deltaAfter in *.
  cbn [dl_UpsertNodes dl_UpsertEdges dl_NodePropertyChanges] in Hn, He, Hc. revert Hn He Hc. generalize (Some [mkPNode 2 (Some [[x50]]) (Some [])]). generalize (Some [mkPEdge 1 1 2 [x52] (Some [])]).
  generalize (Some [mkPChange 1 (Some [([x61], PVInt 4); ([x63], PVString [x78])]) (Some [[x62]])]).
  intros patches edges nodes Hn He Hc. cbn [valid codec_delta dl_DatabaseID dl_CommitID dl_NextNodeID dl_NextEdgeID dl_UpsertNodes dl_DeleteNodes dl_UpsertEdges
       dl_DeleteEdges dl_UpsertFTS dl_DeleteFTS dl_AppMetadata dl_Streams dl_StreamOperations dl_CreateNodeIndexes dl_DropNodeIndexes dl_CreateEdgeIndexes dl_DropEdgeIndexes
       dl_NodePropertyChanges dl_EdgePropertyChanges]. unfold exampleDatabase.
  repeat match goal with |- _ /\ _ => split end; try exact Hn; try exact He; try exact Hc; try done; concrete_valid.
Qed.

Definition entryBefore : walEntry := snapshotEntry graphBefore 1 snapshotBefore.
Definition entryAfter : walEntry := commitEntry graphAfter 2 deltaAfter.

Lemma entryBefore_ok : entryOK 4096 entryBefore.
Proof. split; [vm_compute; reflexivity|vm_compute; reflexivity|exact snapshotBefore_valid|vm_compute; discriminate..]. Qed.
Lemma entryAfter_ok : entryOK 4096 entryAfter.
Proof. split; [vm_compute; reflexivity|vm_compute; reflexivity|exact deltaAfter_valid|vm_compute; discriminate..]. Qed.

Definition emptyWriter : WALWriter := mkWALWriter true [] 0 0.
Definition startedWriter : WALWriter := (AppendSnapshot noID emptyWriter (noFaults entryBefore) graphBefore 2 1 1).2.
Definition committedWriter : WALWriter := (AppendDelta noID startedWriter (noFaults entryAfter) graphAfter 3 2 2 exampleChanges).2.

Lemma example_started : logged noID 4096 graphBefore 2 1 1 [entryBefore] startedWriter.
Proof.
  eapply (logged_snapshot noID 4096 emptyWriter (noFaults entryBefore)); [by split|done|exact graphBefore_wf|done|exact snapshotBefore_built|exact entryBefore_ok|].
  unfold startedWriter. destruct (AppendSnapshot _ _ _ _ _ _ _) as [err w] eqn:E. apply (f_equal fst) in E. vm_compute in E. by rewrite <- E.
Qed.

Lemma example_commit : commitOK noID 4096 graphBefore 2 1 graphAfter 3 2 1 exampleChanges deltaAfter.
Proof. split; [exact graphAfter_wf|exact exampleChanges_ok|by split|done|exact deltaAfter_built|exact entryAfter_ok]. Qed.

Lemma example_committed : logged noID 4096 graphAfter 3 2 2 [entryBefore; entryAfter] committedWriter.
Proof.
  apply (logged_commit noID 4096 graphBefore 2 1 1 [entryBefore] startedWriter (noFaults entryAfter) graphAfter 3 2 exampleChanges deltaAfter);
    [exact example_started|exact example_commit|].
  unfold committedWriter. change (1 + 1) with 2. destruct (AppendDelta _ _ _ _ _ _ _ _) as [err w] eqn:E. apply (f_equal fst) in E. vm_compute in E. by rewrite <- E.
Qed.

Lemma commit_refines_witness :
  exists acc delta acc' b', newWALAccumulator snapshotBefore = inl acc /\ buildPersistedDelta noID graphAfter 3 2 2 exampleChanges = inl (delta, graphAfter) /\
    replayPayload None (Some acc) noLimits exampleDatabase 2 (deltaPayload delta) = inl (acc', b') /\ imageOf graphAfter 3 2 2 acc'.
Proof.
  destruct (snapshot_loads noID graphBefore 2 1 1 graphBefore_wf ltac:(discriminate)) as (snapshot & acc & Hb & Hl & Him & _).
  rewrite snapshotBefore_built in Hb. injection Hb as <-. exists acc.
  destruct (commit_refines noID None graphBefore graphAfter 2 1 3 2 1 exampleChanges acc noLimits) as (delta & acc' & b' & H1 & H2 & H3).
  - exact graphBefore_wf.
  - exact graphAfter_wf.
  - exact exampleChanges_ok.
  - split; discriminate.
  - reflexivity.
  - exact Him.
  - reflexivity.
  - exists delta, acc', b'. exact (conj Hl (conj H1 (conj H2 H3))).
Defined.

Lemma committed_graph_recovered_witness :
  recovers noID noJSON noJSON 4096 None (ww_file committedWriter) graphAfter 3 2 2 true /\
  exists ready, recovers noID noJSON noJSON 4096 None (ww_file committedWriter ++ take 30 (entryFrame entryAfter)) graphAfter 3 2 2 ready.
Proof.
  destruct (committed_graph_recovered noID noJSON noJSON 4096 None ltac:(discriminate) graphAfter 3 2 2 [entryBefore; entryAfter] committedWriter example_committed) as [H1 H2].
  split; [exact H1|]. apply H2; [exact entryAfter_ok|vm_compute; lia].
Defined.

(** The payload is cut short, and the truncation that should undo it fails. *)
Definition tornWrite : appendFaults := mkFaults None (walHeaderSize, None) (5%nat, None) (Some ErrEOF) None None None.

Lemma commit_atomic_witness :
  let r := AppendDelta noID startedWriter tornWrite graphAfter 3 2 2 exampleChanges in
  outcomeUnknown r.1 = true /\ ww_file r.2 <> ww_file startedWriter /\
  (recovers noID noJSON noJSON 4096 None (ww_file r.2) graphAfter 3 2 2 true \/ exists ready, recovers noID noJSON noJSON 4096 None (ww_file r.2) graphBefore 2 1 1 ready).
Proof.
  cbv zeta. split; [vm_compute; reflexivity|]. split; [intros E; apply (f_equal (@length byte)) in E; vm_compute in E; discriminate|].
  eapply (commit_atomic noID noJSON noJSON 4096 None ltac:(discriminate) graphBefore 2 1 1 [entryBefore] startedWriter tornWrite graphAfter 3 2 exampleChanges deltaAfter).
  - exact example_started.
  - exact example_commit.
  - apply surjective_pairing.
Defined.
