(* ===== verification/ChangefeedReplay.v ===== *)
(** * The change stream replays

    What a commit publishes to the change stream is stored and read back as it is, as
    long as labels, edge types and property keys are not longer than a stored string may
    be; so the records of a commit are among those that replay on any store with the
    contents it started from. *)
From S2P Require Import Prelude.
From S2P Require Import GoBytes.
From S2P Require Import BinaryCodec.
From S2P Require Import BinaryCodecSpec.
From S2P Require Import BinaryValue.
From S2P Require Import BinaryValueSpec.
From S2P Require Import BinaryRecords.
From S2P Require Import GoMaps.
From S2P Require Import Values.
From S2P Require Import ValuesSpec.
From S2P Require Import Properties.
From S2P Require Import PageRecords.
From S2P Require Import Streams.
From S2P Require Import StreamsSpec.
From S2P Require Import StreamLogs.
From S2P Require Import StreamStoreSpec.
From S2P Require Import StreamPersist.
From S2P Require Import StreamPersistSpec.
From S2P Require Import StreamTx.
From S2P Require Import ChangefeedSpec.
From S2P Require Import StreamTxSpec.
From S2P Require Import PropertyPatch.
From Stdlib Require Strings.String.
Import String.StringSyntax.

(** ** Payloads *)

(** A value as it is held, whatever its depth. *)
Definition held (v : value) : Prop := wfV v /\ typedV v /\ normV v = v.

Lemma normal_held depth v : normalAt depth v -> held v.
Proof. by intros [H1 H2 _ H3]. Qed.

Lemma held_stored v : held v -> CloneValue v = v /\ encodeValue v = inl (toP v) /\ decodeValue (toP v) = inl v.
Proof.
  intros (Hw & Ht & Hn). split; [by rewrite <- Hn, CloneValue_norm|]. split; [by apply encodeValue_typed|]. rewrite decodeValue_toP by done. by rewrite Hn.
Qed.

Lemma held_map m : keysSorted m -> Forall (fun kv => held kv.2) m -> held (VMap (Some m)).
Proof.
  intros Hs Hm. split_and!.
  - constructor; [by apply keysSorted_nodup|]. eapply Forall_impl; [exact Hm|]. by intros kv (? & _).
  - constructor. eapply Forall_impl; [exact Hm|]. by intros kv (_ & ? & _).
  - cbn [normV optMap]. do 2 f_equal. assert (E : map (onEntry normV) m = m); [|by rewrite E, mapOf_id].
    rewrite <- (map_id m) at 2. apply map_ext_Forall. eapply Forall_impl; [exact Hm|]. intros [k v] (_ & _ & E). cbn in *. unfold onEntry. cbn. by rewrite E.
Qed.

(** What the change stream stores: a small map, or a property event. *)
Lemma fields_storable m : keysSorted m -> Forall (fun kv => utf8Valid kv.1 = true) m -> Forall (fun kv => normalAt 1 kv.2) m ->
  nlen m + nsum (map (fun kv => elementsV kv.2) m) <= maxValueElements -> nsum (map (fun kv => nlen kv.1 + bytesV kv.2) m) <= maxValueBytes ->
  StreamPersistSpec.storable changeStreamName (VMap (Some m)).
Proof. intros Hs Hu Hn He Hb. apply normal_storable; [apply normal_map; try done; unfold maxValueDepth; lia|exact He|exact Hb]. Qed.

(** A value of a property event, counted with the key of the property. *)
Definition fitsEvent (key : gostring) (v : value) : Prop :=
  held v /\ okV 0 v = true /\ 1 + elementsV v <= maxValueElements /\ nlen key + bytesV v <= maxValueBytes.

(** A field that is neither the key nor a value. *)
Definition plainField (v : value) : Prop := held v /\ okV 0 v = true /\ elementsV v = 0 /\ bytesV v = 0.

Lemma toP_fits key v : fitsEvent key v -> runWalk (validatePropertyValue key (toP v)) = None.
Proof.
  intros ((Hw & Ht & _) & Ho & He & Hb). destruct (toP_totals v Ht Hw) as (E1 & E2 & E3).
  assert (Hper : performs (validatePropertyValue key (toP v)) (okP 0 (toP v)) (1 + elementsP (toP v)) (nlen key + bytesP (toP v)) tt).
  { unfold validatePropertyValue. eapply performs_eq;
      [eapply performs_bind; [apply performs_add|eapply performs_bind; [apply performs_addBytes|apply validateStreamValue_performs]]|..]; rewrite ?N.add_0_l; done. }
  apply (runWalk_spec _ _ _ _ Hper). rewrite E1, E2, E3. done.
Qed.

Lemma event_storable m key values : keysSorted m -> propertyEvent (map (onEntry toP) m) = Some (key, map toP values) -> utf8Valid key = true ->
  Forall (fun kv => utf8Valid kv.1 = true /\ held kv.2 /\ (envelopeField kv.1 = true \/ plainField kv.2)) m -> Forall (fitsEvent key) values ->
  nlen m <= maxValueElements -> nsum (map (fun kv => nlen kv.1) m) <= maxValueBytes -> StreamPersistSpec.storable changeStreamName (VMap (Some m)).
Proof.
  intros Hs Hev Hu Hm Hv Hn Hb. assert (Hh : held (VMap (Some m))) by (apply held_map; [done|]; eapply Forall_impl; [exact Hm|]; by intros kv (_ & ? & _)).
  destruct (held_stored _ Hh) as (H1 & H2 & H3). split; [done|]. split; [done|].
  assert (Es : mapOf (map (onEntry toP) m) [] = map (onEntry toP) m) by (apply mapOf_id; unfold keysSorted; by rewrite keys_onEntry).
  cbn [toP optMap] in H3 |- *. rewrite Es in H3 |- *. unfold decodeStreamValue. rewrite bool_decide_true by done. unfold validateChangefeedEnvelope. cbn [elems default from_option id].
  rewrite Hev, Hu. cbn [negb]. assert (Hmeta : runWalk (validateMetadata (map (onEntry toP) m)) = None).
  { apply (runWalk_spec _ _ _ _ (metadata_performs _)). rewrite !map_map, nlen_map. rewrite Forall_forall in Hm.
    assert (Hz : forall kv, kv ∈ m -> (if envelopeField (onEntry toP kv).1 then 0 else elementsP (onEntry toP kv).2) = 0 /\ (if envelopeField (onEntry toP kv).1 then 0 else bytesP (onEntry toP kv).2) = 0).
    { intros kv Hkv. destruct (Hm kv Hkv) as (_ & _ & [Hf|((Hw & Ht & _) & _ & He & Hby)]); cbn [onEntry fst snd].
      - by rewrite Hf.
      - destruct (toP_totals kv.2 Ht Hw) as (E1 & E2 & _). rewrite E1, E2, He, Hby. by destruct (envelopeField kv.1). }
    split_and!.
    - apply forallb_map, Forall_forall. intros kv Hkv. destruct (Hm kv Hkv) as (Hk & _ & [Hf|((Hw & Ht & _) & Ho & _)]); cbn [onEntry fst snd]; rewrite Hk; [by rewrite Hf|].
      destruct (toP_totals kv.2 Ht Hw) as (_ & _ & E3). rewrite E3, Ho. apply orb_true_r.
    - etrans; [|exact Hn]. rewrite (map_ext_in _ (fun _ => 0) m); [|intros kv Hkv%list_elem_of_In; by apply Hz]. clear. induction m as [|kv m IH]; [done|]. unfold nlen, nsum in *. cbn in *. lia.
    - etrans; [|exact Hb]. apply N.eq_le_incl. f_equal. apply map_ext_in. intros kv Hkv%list_elem_of_In. destruct (Hz kv Hkv) as [_ ->]. cbn [onEntry fst]. lia. }
  rewrite Hmeta, firstError_none; [done|]. apply List.Forall_map. eapply Forall_impl; [exact Hv|]. apply toP_fits.
Qed.

(** ** Records that fit *)

(** Labels, edge types and property keys that leave room for the rest of a change record
    in a stored value. *)
Definition maxNameBytes : N := maxValueBytes - 256.
Definition nameFits (s : gostring) : Prop := utf8Valid s = true /\ nlen s <= maxNameBytes.

Definition propertiesFit (p : Properties) : Prop := PropertyPatch.storable p /\ Forall (fun kv => nameFits kv.1) (PAll p).
Definition nodeFits (n : NodeRecord) : Prop := n_ID n < 2 ^ 64 /\ Forall nameFits (elems (n_Labels n)) /\ propertiesFit (n_Properties n).
Definition edgeFits (e : EdgeRecord) : Prop :=
  e_ID e < 2 ^ 64 /\ e_SourceID e < 2 ^ 64 /\ e_TargetID e < 2 ^ 64 /\ nameFits (e_Type e) /\ propertiesFit (e_Properties e).

Definition eventOK (e : gostring * value) : Prop := ValidateStreamKind e.1 = None /\ StreamPersistSpec.storable changeStreamName e.2.

Lemma scalar_normal v : held v -> okV 1 v = true -> normalAt 1 v.
Proof. by intros (? & ? & ?) ?. Qed.
Lemma int_held id : id < 2 ^ 64 -> held (int64Of id).
Proof.
  intros Hid. split_and!; [|constructor|done]. constructor. unfold int64, int64Of. destruct (N.ltb_spec id (2 ^ 63)) as [H|H]; [|assert (2 ^ 63 <= id) by done]; lia.
Qed.
Lemma bool_held b : held (VBool b).
Proof. split_and!; [constructor|constructor|done]. Qed.
Lemma string_held s : held (VString s).
Proof. split_and!; [constructor|constructor|done]. Qed.
Lemma id_normal id : id < 2 ^ 64 -> normalAt 1 (int64Of id).
Proof. intros Hid. apply scalar_normal; [by apply int_held|done]. Qed.
Lemma name_normal s : utf8Valid s = true -> normalAt 1 (VString s).
Proof. intros Hs. apply scalar_normal; [apply string_held|exact Hs]. Qed.
Lemma int_plain id : id < 2 ^ 64 -> plainField (int64Of id).
Proof. intros Hid. split; [by apply int_held|done]. Qed.
Lemma bool_plain b : plainField (VBool b).
Proof. split; [apply bool_held|done]. Qed.

Ltac sorted_keys := unfold keysSorted; cbn [fmap list_fmap fst]; repeat first [apply SSorted_nil | apply SSorted_cons | apply Forall_nil_2 | apply Forall_cons_2]; (split; [vm_compute; reflexivity|vm_compute; discriminate]).
Ltac each_field := repeat first [apply Forall_nil_2 | apply Forall_cons_2].

Lemma nodeID_event kind id : ValidateStreamKind (str kind) = None -> id < 2 ^ 64 -> eventOK (str kind, payloadMap [("node_id", int64Of id)]%string).
Proof.
  intros Hk Hid. split; [done|]. apply (fields_storable [(str "node_id"%string, int64Of id)]).
  - sorted_keys.
  - each_field. done.
  - each_field. by apply id_normal.
  - vm_compute. discriminate.
  - vm_compute. discriminate.
Qed.

Lemma label_event kind id label : ValidateStreamKind (str kind) = None -> id < 2 ^ 64 -> nameFits label ->
  eventOK (str kind, payloadMap [("node_id", int64Of id); ("label", VString label)]%string).
Proof.
  intros Hk Hid [Hu Hl]. split; [done|]. apply (fields_storable [(str "label"%string, VString label); (str "node_id"%string, int64Of id)]).
  - sorted_keys.
  - each_field; done.
  - each_field; [by apply name_normal|by apply id_normal].
  - vm_compute. discriminate.
  - change (nsum (map _ _)) with (5 + nlen label + (7 + 0 + 0)). unfold maxNameBytes in Hl. assert (256 <= maxValueBytes) by (vm_compute; discriminate). lia.
Qed.

Lemma edge_event kind id e : ValidateStreamKind (str kind) = None -> id < 2 ^ 64 -> edgeFits e -> eventOK (str kind, payloadMap (edgeFields id e)).
Proof.
  intros Hk Hid (_ & Hs & Ht & [Hu Hl] & _). split; [done|].
  apply (fields_storable [(str "edge_id"%string, int64Of id); (str "source_id"%string, int64Of (e_SourceID e)); (str "target_id"%string, int64Of (e_TargetID e)); (str "type"%string, VString (e_Type e))]).
  - sorted_keys.
  - each_field; done.
  - each_field; [by apply id_normal..|by apply name_normal].
  - vm_compute. discriminate.
  - change (nsum (map _ _)) with (7 + 0 + (9 + 0 + (9 + 0 + (4 + nlen (e_Type e) + 0)))). unfold maxNameBytes in Hl. assert (256 <= maxValueBytes) by (vm_compute; discriminate). lia.
Qed.

(** ** Property events *)

Lemma listed_property p key v : propertiesFit p -> Lookup p key = Some v -> (key, v) ∈ PAll p /\ nameFits key.
Proof.
  intros [((Hs & _) & _) Hk] El. rewrite Lookup_entries in El by done. rewrite <- PAll_lookup in El. apply mapLookup_elem in El. split; [done|].
  rewrite Forall_forall in Hk. exact (Hk _ El).
Qed.

Lemma property_fits p key v : propertiesFit p -> Lookup p key = Some v -> fitsEvent key v.
Proof.
  intros Hp El. destruct (listed_property p key v Hp El) as [Hin _]. destruct Hp as [Hst _]. pose proof (normal_of_lookup p key v Hst El) as Hn.
  destruct Hst as (_ & _ & Hok). unfold propsOK in Hok. apply andb_true_iff in Hok as [[_ He%N.leb_le]%andb_true_iff Hb%N.leb_le].
  pose proof (nsum_elem (fun kv => elementsV kv.2) _ _ Hin) as E1. pose proof (nsum_elem (fun kv => nlen kv.1 + bytesV kv.2) _ _ Hin) as E2. cbn [fst snd] in E1, E2.
  assert (1 <= nlen (PAll p)) by (destruct (PAll p); [by apply elem_of_nil in Hin|]; unfold nlen; cbn; lia).
  split; [by eapply normal_held|]. split; [apply Hn|]. split; lia.
Qed.

(** What stands for a value that is too long to be shown. *)
Definition omission (type : string) (encodedBytes : N) : value :=
  VMap (Some [(str "__lattice_value_omitted"%string, VBool true); (str "encoded_bytes"%string, VInt (Z.of_N (N.min encodedBytes (2 ^ 63 - 1)))); (str "type"%string, VString (str type))]).

Lemma omission_fits key v n : nlen key <= maxNameBytes -> fitsEvent key (omission (changefeedValueType v) n).
Proof.
  intros Hk. split.
  - apply held_map; [sorted_keys|]. each_field; cbn [snd]; [apply bool_held| |apply string_held]. split_and!; [|constructor|done]. constructor. unfold int64. lia.
  - split; [by destruct v|]. split; [by destruct v|]. assert (Hb : bytesV (omission (changefeedValueType v) n) <= 64) by (by destruct v).
    unfold maxNameBytes in Hk. assert (256 <= maxValueBytes) by (vm_compute; discriminate). lia.
Qed.

Lemma shown_fits maxBytes p key v : propertiesFit p -> Lookup p key = Some v -> fitsEvent key (changefeedValue maxBytes v).1.
Proof.
  intros Hp El. pose proof (property_fits p key v Hp El) as Hv. destruct (listed_property p key v Hp El) as [_ [_ Hk]]. unfold changefeedValue.
  destruct (_ <=? _); cbn [fst]; [destruct Hv as [Hh Hv]; rewrite (proj1 (held_stored v Hh)); by split|].
  exact (omission_fits key v _ Hk).
Qed.

(** The three property events, of a node and of an edge. *)
Definition valuesOf (new old : option value) : list value := match new with Some v => [v] | None => [] end ++ match old with Some v => [v] | None => [] end.

Lemma event_fields m key values : keysSorted m -> propertyEvent (map (onEntry toP) m) = Some (key, map toP values) -> nameFits key -> Forall (fitsEvent key) values ->
  Forall (fun kv => utf8Valid kv.1 = true /\ (kv = (str "key"%string, VString key) \/ (envelopeField kv.1 = true /\ kv.2 ∈ values) \/ plainField kv.2)) m ->
  (length m <= 6)%nat -> nsum (map (fun kv => nlen kv.1) m) <= 100 -> StreamPersistSpec.storable changeStreamName (VMap (Some m)).
Proof.
  intros Hs Hev [Hu _] Hv Hm Hlen Hb. rewrite Forall_forall in Hv. eapply event_storable; [done|exact Hev|done| |by apply Forall_forall| |].
  - eapply Forall_impl; [exact Hm|]. intros kv (Hk & Hkv). split; [done|]. destruct Hkv as [->|[[Hf Hin]|Hp]].
    + split; [apply string_held|by left].
    + split; [apply (Hv _ Hin)|by left].
    + split; [apply Hp|by right].
  - unfold nlen. assert (6 <= maxValueElements) by (vm_compute; discriminate). lia.
  - etrans; [exact Hb|]. vm_compute. discriminate.
Qed.

Ltac event_field :=
  split; [vm_compute; reflexivity|]; cbn [snd];
  first [left; reflexivity
        |right; left; split; [vm_compute; reflexivity|first [apply list_elem_of_here|apply list_elem_of_further, list_elem_of_here]]
        |right; right; first [assumption|apply bool_plain]].
Ltac event_of m key values :=
  apply (event_fields m key values);
  [sorted_keys|reflexivity|assumption|each_field; assumption|each_field; event_field|cbn; lia|vm_compute; discriminate].

Lemma property_event maxBytes e id before after tx key : id < 2 ^ 64 -> propertiesFit before -> propertiesFit after ->
  propertyEventFor maxBytes e id before after tx key = tx \/
  exists event, eventOK event /\ propertyEventFor maxBytes e id before after tx key = appendChange tx event.1 event.2.
Proof.
  intros Hid Hb Ha. unfold propertyEventFor. pose proof (int_plain id Hid) as Hi. unfold valueFields, entityID.
  assert (Hx : forall x, Lookup before key = Some x -> fitsEvent key (changefeedValue maxBytes x).1 /\ nameFits key) by (intros x Ex; split; [exact (shown_fits maxBytes before key x ltac:(assumption) ltac:(assumption))|exact (proj2 (listed_property before key x ltac:(assumption) ltac:(assumption)))]).
  assert (Hy : forall y, Lookup after key = Some y -> fitsEvent key (changefeedValue maxBytes y).1 /\ nameFits key) by (intros y Ey; split; [exact (shown_fits maxBytes after key y ltac:(assumption) ltac:(assumption))|exact (proj2 (listed_property after key y ltac:(assumption) ltac:(assumption)))]).
  destruct (Lookup before key) as [x|], (Lookup after key) as [y|]; [destruct (deepEqual x y); [by left|]|..|by left]; right; eexists (_, _); (split; [|reflexivity]); (split; [by destruct e|]); cbn [snd].
  - destruct (Hx x eq_refl) as [Fx Hk], (Hy y eq_refl) as [Fy _]. destruct (changefeedValue maxBytes x) as [sx ox], (changefeedValue maxBytes y) as [sy oy]. cbn [fst] in Fx, Fy. destruct e.
    + event_of [(str "key"%string, VString key); (str "new_value"%string, sy); (str "new_value_omitted"%string, VBool oy); (str "node_id"%string, int64Of id); (str "old_value"%string, sx); (str "old_value_omitted"%string, VBool ox)] key [sy; sx].
    + event_of [(str "edge_id"%string, int64Of id); (str "key"%string, VString key); (str "new_value"%string, sy); (str "new_value_omitted"%string, VBool oy); (str "old_value"%string, sx); (str "old_value_omitted"%string, VBool ox)] key [sy; sx].
  - destruct (Hx x eq_refl) as [Fx Hk]. destruct (changefeedValue maxBytes x) as [sx ox]. cbn [fst] in Fx. destruct e.
    + event_of [(str "key"%string, VString key); (str "node_id"%string, int64Of id); (str "old_value"%string, sx); (str "old_value_omitted"%string, VBool ox)] key [sx].
    + event_of [(str "edge_id"%string, int64Of id); (str "key"%string, VString key); (str "old_value"%string, sx); (str "old_value_omitted"%string, VBool ox)] key [sx].
  - destruct (Hy y eq_refl) as [Fy Hk]. destruct (changefeedValue maxBytes y) as [sy oy]. cbn [fst] in Fy. destruct e.
    + event_of [(str "key"%string, VString key); (str "new_value"%string, sy); (str "new_value_omitted"%string, VBool oy); (str "node_id"%string, int64Of id)] key [sy].
    + event_of [(str "edge_id"%string, int64Of id); (str "key"%string, VString key); (str "new_value"%string, sy); (str "new_value_omitted"%string, VBool oy)] key [sy].
Qed.

(** ** The events of a commit *)

Definition emits (tx tx' : Tx) : Prop := exists events, Forall eventOK events /\ tx' = publishAll tx events.

Lemma emits_none tx : emits tx tx.
Proof. by exists []. Qed.
Lemma emits_one tx kind payload : eventOK (kind, payload) -> emits tx (appendChange tx kind payload).
Proof. intros He. exists [(kind, payload)]. split; [by apply Forall_singleton|done]. Qed.
Lemma emits_trans tx tx' tx'' : emits tx tx' -> emits tx' tx'' -> emits tx tx''.
Proof. intros (ev & H1 & ->) (ev' & H2 & ->). exists (ev ++ ev'). split; [by apply Forall_app|]. unfold publishAll. by rewrite foldl_app. Qed.
Lemma emits_fold {A} (f : Tx -> A -> Tx) l : (forall tx x, x ∈ l -> emits tx (f tx x)) -> forall tx, emits tx (foldl f tx l).
Proof.
  induction l as [|x l IH]; intros Hf tx; [apply emits_none|]. cbn [foldl]. eapply emits_trans; [apply Hf, list_elem_of_here|]. apply IH. intros tx' y Hy. by apply Hf, list_elem_of_further.
Qed.

Lemma labels_emit kind id skip names tx : ValidateStreamKind (str kind) = None -> id < 2 ^ 64 -> set_Forall nameFits names -> emits tx (foldl (labelEvent kind id skip) tx (sortedStringSet names)).
Proof.
  intros Hk Hid Hn. apply emits_fold. intros tx' label Hl. unfold labelEvent. case_bool_decide; [apply emits_none|]. apply emits_one, label_event; try done.
  apply Hn, elem_of_elements. unfold sortedStringSet, sortKeys in Hl. by rewrite (merge_sort_Permutation strLeR) in Hl.
Qed.

Lemma properties_emit ch maxBytes tx e id before after : id < 2 ^ 64 -> propertiesFit before -> propertiesFit after -> emits tx (appendPropertyChanges ch maxBytes tx e id before after).
Proof.
  intros Hid Hb Ha. apply emits_fold. intros tx' key _. destruct (property_event maxBytes e id before after tx' key Hid Hb Ha) as [->|([kind payload] & He & ->)]; [apply emits_none|by apply emits_one].
Qed.

Lemma noProperties_fit : propertiesFit (mkProperties []).
Proof. split; [|apply Forall_nil_2]. split; [split; [apply SSorted_nil|apply Forall_nil_2]|]. split; [apply Forall_nil_2|vm_compute; reflexivity]. Qed.
Lemma labelSet_fits labels : Forall nameFits (elems labels) -> set_Forall nameFits (labelSet labels).
Proof. intros Hl x Hx. unfold labelSet in Hx. apply elem_of_list_to_set in Hx. rewrite Forall_forall in Hl. by apply Hl. Qed.

Definition viewFits (v : graphView) : Prop := map_Forall (fun _ => nodeFits) (v_Nodes v) /\ map_Forall (fun _ => edgeFits) (v_Edges v).

Lemma node_emits ch maxBytes tx before after : (forall n, before = Some n -> nodeFits n) -> (forall n, after = Some n -> nodeFits n) -> emits tx (appendNodeChanges ch maxBytes tx before after).
Proof.
  intros Hb Ha. unfold appendNodeChanges. destruct after as [n|]; [|apply emits_none]. destruct (Ha n eq_refl) as (Hid & Hl & Hp).
  assert (Hold : set_Forall nameFits (oldLabels before)) by (destruct before as [b|]; [apply labelSet_fits, (Hb b eq_refl)|by apply set_Forall_empty]).
  eapply emits_trans; [|apply properties_emit; [done| |done]; destruct before as [b|]; [apply (Hb b eq_refl)|apply noProperties_fit]].
  unfold appendLabelChanges. eapply emits_trans; [|by apply labels_emit]. eapply emits_trans; [|apply labels_emit; [done|done|by apply labelSet_fits]].
  destruct before; [apply emits_none|]. by apply emits_one, nodeID_event.
Qed.

Lemma edge_emits ch maxBytes tx before after : (forall e, before = Some e -> edgeFits e) -> (forall e, after = Some e -> edgeFits e) -> emits tx (appendEdgeChanges ch maxBytes tx before after).
Proof.
  intros Hb Ha. unfold appendEdgeChanges. destruct after as [e|]; [|apply emits_none]. pose proof (Ha e eq_refl) as He. pose proof He as (Hid & _ & _ & _ & Hp).
  eapply emits_trans; [|apply properties_emit; [done| |done]; destruct before as [b|]; [apply (Hb b eq_refl)|apply noProperties_fit]].
  destruct before; [apply emits_none|]. by apply emits_one, edge_event.
Qed.

Section commit.
Context (ch : txChanges) (base graph : graphView) (maxBytes : N).
Context (Hbase : viewFits base) (Hgraph : viewFits graph) (Hdeleted : forall id, id ∈ deleteNodes ch \/ id ∈ deleteEdges ch -> id < 2 ^ 64).

Lemma deletedEdges_emit ids : (forall id, id ∈ ids -> id < 2 ^ 64) -> forall tx tx', appendDeletedEdges base tx ids = (None, tx') -> emits tx tx'.
Proof.
  intros Hids. induction ids as [|id ids IH]; intros tx tx'; cbn [appendDeletedEdges]; [intros [= <-]; apply emits_none|].
  assert (Hrest : forall i, i ∈ ids -> i < 2 ^ 64) by (intros i Hi; by apply Hids, list_elem_of_further). specialize (IH Hrest).
  destruct (v_Edges base !! id) as [e|] eqn:Ee; [|apply IH]. destruct (validateEndpoints e); [done|]. intros Ht. eapply emits_trans; [|by eapply IH].
  apply emits_one, edge_event; [done|by apply Hids, list_elem_of_here|by apply (proj2 Hbase id)].
Qed.

Lemma elem_of_mapKeys ids id : id ∈ mapKeys ids <-> id ∈ ids.
Proof. unfold mapKeys. by rewrite (merge_sort_Permutation N.le), elem_of_elements. Qed.

Lemma appendEvents_emit tx tx' : appendEvents ch base graph maxBytes tx = (None, tx') -> emits tx tx'.
Proof.
  unfold appendEvents. destruct (appendDeletedEdges base tx (mapKeys (deleteEdges ch))) as [[err|] tx1] eqn:E1; [done|]. intros [= <-].
  apply deletedEdges_emit in E1; [|intros id Hid%elem_of_mapKeys; apply Hdeleted; by right]. destruct Hbase as [Bn Be], Hgraph as [Gn Ge].
  eapply emits_trans; [|apply emits_fold; intros tx' id _; apply edge_emits; intros e He; [by apply (Be id)|by apply (Ge id)]].
  eapply emits_trans; [|apply emits_fold; intros tx' id _; apply node_emits; intros n Hn; [by apply (Bn id)|by apply (Gn id)]].
  eapply emits_trans; [exact E1|]. apply emits_fold. intros tx' id Hid%elem_of_mapKeys. apply emits_one, nodeID_event; [done|]. apply Hdeleted. by left.
Qed.

Lemma publishAll_records s0 events : forall tx, records s0 tx -> Forall eventOK events -> NextSequence (tx_Streams tx) changeStreamName + nlen events <= max_uint64 -> records s0 (publishAll tx events).
Proof.
  induction events as [|[kind payload] events IH]; intros tx Hr He Hn; [done|]. apply Forall_cons in He as [[Hk Hp] He]. cbn [fst snd] in *.
  assert (Hlen : nlen ((kind, payload) :: events) = 1 + nlen events) by (unfold nlen; cbn [length]; lia). rewrite Hlen in Hn.
  cbn [publishAll foldl fst snd]. fold (publishAll (appendChange tx kind payload) events). apply IH; [|done|].
  - apply records_change; [done|done|done|lia].
  - destruct (Publish_next (tx_Streams tx) changeStreamName kind payload) as [_ En]; [unfold max_uint64 in *; lia|].
    assert (Et : tx_Streams (appendChange tx kind payload) = (Publish (tx_Streams tx) changeStreamName kind payload).2) by (unfold appendChange, publishRecorded; by destruct (Publish _ _ _ _)).
    rewrite Et, En. lia.
Qed.

(** Everything a commit publishes is among the records that replay. *)
Lemma appendChangefeed_records s0 tx tx' : sortedView base -> sortedView graph -> records s0 tx -> NextSequence (tx_Streams tx) changeStreamName <= max_uint64 ->
  appendChangefeed ch base graph maxBytes tx = (None, tx') -> nlen (streamOperations tx') < 2 ^ 64 -> records s0 tx'.
Proof.
  intros Sb Sg Hr Hmax. unfold appendChangefeed. destruct (nothingChanged ch); [by intros [= <-]|]. destruct (validateChangedIDs _ _); [done|].
  destruct (preflightChangefeedSequence _ _) eqn:Hpre; [done|]. destruct (appendEvents ch base graph maxBytes tx) as [[err|] tx1] eqn:Ee; [done|]. intros [= <-] Hops.
  destruct (appendEvents_emit tx tx1 Ee) as (events & Hev & E1). destruct (appendEvents_appends ch base graph maxBytes Sb Sg tx tx1 Ee) as (events' & En & E2).
  assert (Hsame : nlen events = nlen events') by (pose proof (publishAll_operations events tx) as O1; pose proof (publishAll_operations events' tx) as O2; rewrite <- E1 in O1; rewrite <- E2 in O2; lia).
  assert (Hle : nlen (streamOperations tx1) <= nlen (streamOperations (trimChangefeed tx1 maxBytes))).
  { unfold trimChangefeed. destruct (TrimToBytes _ _ _) as [[through [|]] s]; cbn; [rewrite nlen_app|]; lia. }
  pose proof (publishAll_operations events tx) as Ho. rewrite <- E1 in Ho.
  assert (Hroom : NextSequence (tx_Streams tx) changeStreamName + nlen events <= max_uint64).
  { rewrite countChangefeedEvents_of, <- En, <- Hsame, u64_id in Hpre by lia. unfold preflightChangefeedSequence in Hpre. destruct (negb _ && _) eqn:E; [done|]. apply andb_false_iff in E as [E|E].
    - apply negb_false_iff, N.eqb_eq in E. lia.
    - apply orb_false_iff in E as [_ E%N.ltb_ge]. lia. }
  assert (Hr1 : records s0 tx1) by (rewrite E1; by apply publishAll_records).
  destruct (trimChangefeed_call tx1 maxBytes (records_writable _ _ Hr1)) as [->|[through ->]]; [done|by apply records_call].
Qed.
End commit.

(** ** Names without a limit *)

(** The map of a label event, stored. *)
Definition labelFields (id : N) (label : gostring) : list (gostring * value) := [(str "label"%string, VString label); (str "node_id"%string, int64Of id)].

Lemma labelFields_held id label : id < 2 ^ 64 -> held (VMap (Some (labelFields id label))).
Proof. intros Hid. apply held_map; [sorted_keys|]. each_field; [apply string_held|by apply int_held]. Qed.

Lemma long_label_rejected id label : id < 2 ^ 64 -> maxValueBytes < nlen label -> exists err, decodeStreamValue changeStreamName (toP (VMap (Some (labelFields id label)))) = inr err.
Proof.
  intros Hid Hl. destruct (labelFields_held id label Hid) as (Hw & Ht & _). destruct (toP_totals _ Ht Hw) as (_ & Eb & _). revert Eb. cbn [toP optMap].
  assert (Es : mapOf (map (onEntry toP) (labelFields id label)) [] = map (onEntry toP) (labelFields id label)) by (apply mapOf_id; unfold keysSorted; rewrite keys_onEntry; sorted_keys).
  rewrite Es. intros Eb. unfold decodeStreamValue. rewrite bool_decide_true by done. unfold validateChangefeedEnvelope.
  change (propertyEvent _) with (@None (gostring * list persistedValue)). cbv iota.
  destruct (runWalk _) as [err|] eqn:Ew; [by exists err|]. exfalso.
  apply (runWalk_spec _ _ _ _ (validateStreamValue_performs _ 0)) in Ew as (_ & _ & Hb). rewrite Eb in Hb.
  change (bytesV _) with (5 + nlen label + (7 + 0 + 0)) in Hb. lia.
Qed.

(** C40. A label longer than a stored value may be is valid for a node, and the change
    record of its commit is encoded into the log; but no database, whatever its streams,
    takes the record back when the log is replayed. *)
Theorem long_label_unreadable tx nodeID label : nodeID < 2 ^ 64 -> label <> [] -> utf8Valid label = true -> maxValueBytes < nlen label ->
  ValidateCreateLabels (Some [label]) = None /\
  exists op p, streamOperations (labelEvent "node.label_add"%string nodeID ∅ tx label) = streamOperations tx ++ [op] /\ buildOperation op = inl p /\
    forall s, exists err, applyOperation s p = inr err.
Proof.
  intros Hid Hne Hu Hl. split; [cbn; by rewrite bool_decide_false, Hu|]. unfold labelEvent. rewrite bool_decide_false by set_solver. unfold appendChange, publishRecorded.
  assert (Hs : 0 < (Publish (tx_Streams tx) changeStreamName (str "node.label_add"%string) (payloadMap [("node_id", int64Of nodeID); ("label", VString label)]%string)).1).
  { unfold Publish. cbn [fst]. destruct (N.eqb_spec (getNext (tx_Streams tx) changeStreamName) 0); cbn [fst]; lia. }
  destruct (Publish _ _ _ _) as [sequence s']. cbn [fst snd] in *. do 2 eexists. split; [done|].
  change (payloadMap _) with (VMap (Some (labelFields nodeID label))). destruct (held_stored _ (labelFields_held nodeID label Hid)) as (_ & Ee & _).
  destruct (long_label_rejected nodeID label Hid Hl) as [err He]. split.
  - unfold buildOperation. cbn [so_Type so_Stream so_Sequence so_Kind so_Payload so_Consumer]. destruct (N.eqb_spec sequence 0); [lia|]. rewrite Ee. reflexivity.
  - intros s. unfold applyOperation. cbn [op_Type op_Stream op_Sequence op_Kind op_Payload]. change (ValidateStreamName changeStreamName true) with (@None error).
    change (ValidateStreamKind _) with (@None error). rewrite bool_decide_true by done. destruct (_ || _); [by eexists|]. rewrite He. by eexists.
Qed.

Definition longLabel : gostring := replicate (N.to_nat (maxValueBytes + 1)) x61.

Lemma longLabel_long : maxValueBytes < nlen longLabel.
Proof. unfold longLabel, nlen. rewrite length_replicate, N2Nat.id. lia. Qed.
Lemma longLabel_utf8 : utf8Valid longLabel = true.
Proof. unfold longLabel. generalize (N.to_nat (maxValueBytes + 1)). intros n. induction n as [|n IH]; [done|exact IH]. Qed.

Lemma long_label_unreadable_witness : ValidateCreateLabels (Some [longLabel]) = None /\
  exists op p, streamOperations (labelEvent "node.label_add"%string 1 ∅ (mkTx false false false NewStreamStore false []) longLabel) = [op] /\ buildOperation op = inl p /\ forall s, exists err, applyOperation s p = inr err.
Proof.
  assert (Hne : longLabel <> []) by (intros E; pose proof longLabel_long as Hl; rewrite E in Hl; by vm_compute in Hl).
  pose proof longLabel_long as Hl. pose proof longLabel_utf8 as Hu. revert Hne Hl Hu. generalize longLabel. intros label Hne Hl Hu.
  exact (long_label_unreadable (mkTx false false false NewStreamStore false []) 1 label ltac:(lia) Hne Hu Hl).
Defined.
