(* ===== verification/SnapshotSize.v ===== *)
(** * The size of a snapshot (internal/store/recovery.go)

    A commit is refused when a snapshot of its graph would be larger than the database
    allows. The engine keeps the size with the graph and adjusts it by what the commit
    changed; recovery counts it from the whole graph.

    Further down: both ways of counting agree. *)
From S2P Require Import Prelude.
From S2P Require Import GoBytes.
From S2P Require Import BinaryCodec.
From S2P Require Import BinaryCodecSpec.
From S2P Require Import BinaryRecords.
From S2P Require Import GoMaps.
From S2P Require Import Values.
From S2P Require Import Properties.
From S2P Require Import PageRecords.
From S2P Require Import Streams.
From S2P Require Import StreamsSpec.
From S2P Require Import StreamStoreSpec.
From S2P Require Import StreamPersist.
From S2P Require Import WalAccumulator.
From S2P Require Import GraphPersist.
From S2P Require Import GraphChanges.
From Stdlib Require Strings.String.
From Stdlib Require Import Decimal DecimalN.

Import String.StringSyntax.

(** ** Sizes of the parts *)

Definition base64SnapshotBytes (length : N) : N := snapshotMul (snapshotAdd length 2 / 3) 4.
Definition appMetadataSnapshotBytes (key : gostring) (value : slice byte) : N :=
  snapshotAdd 64 (snapshotAdd (base64SnapshotBytes (nlen key)) (base64SnapshotBytes (slen value))).
Definition propertyIndexSnapshotBytes (definition : indexName) : N :=
  snapshotAdd 64 (snapshotAdd (snapshotMul (nlen definition.1) 6) (snapshotMul (nlen definition.2) 6)).

Definition estimatePropertyStorageBytes (properties : Properties) : N :=
  foldl (fun size kv => snapshotAdd size (snapshotAdd (snapshotAdd (snapshotMul (nlen kv.1) 6) 64) (estimateValueBytes kv.2))) 64 (PAll properties).
Definition nodeSnapshotBytes (node : NodeRecord) : N :=
  foldl (fun size label => snapshotAdd size (snapshotAdd (snapshotMul (nlen label) 6) 8)) (snapshotAdd 128 (estimatePropertyStorageBytes (n_Properties node))) (elems (n_Labels node)).
Definition edgeSnapshotBytes (edge : EdgeRecord) : N :=
  snapshotAdd (snapshotAdd 192 (snapshotMul (nlen (e_Type edge)) 6)) (estimatePropertyStorageBytes (e_Properties edge)).

(** [len(strconv.FormatUint(n, 10))] *)
Definition decimalLength (n : N) : N := N.of_nat (nb_digits (N.to_uint n)).
Definition ftsSnapshotBytes (nodeID : N) (text : gostring) : N := snapshotAdd (snapshotAdd (snapshotMul (nlen text) 6) 64) (decimalLength nodeID).

(** ** The whole graph *)

Definition EstimateSnapshotBytes (g : graphState) : N :=
  let size := foldl (fun size kv => snapshotAdd size (appMetadataSnapshotBytes kv.1 kv.2)) 4096 (map_to_list (g_AppMetadata g)) in
  let size := foldl (fun size kv => snapshotAdd size (nodeSnapshotBytes kv.2)) size (map_to_list (g_Nodes g)) in
  let size := foldl (fun size kv => snapshotAdd size (edgeSnapshotBytes kv.2)) size (map_to_list (g_Edges g)) in
  let size := foldl (fun size kv => snapshotAdd size (ftsSnapshotBytes kv.1 kv.2)) size (map_to_list (g_FTS g)) in
  let size := foldl (fun size d => snapshotAdd size (propertyIndexSnapshotBytes d)) size (elements (g_NodeIndexes g)) in
  let size := foldl (fun size d => snapshotAdd size (propertyIndexSnapshotBytes d)) size (elements (g_EdgeIndexes g)) in
  snapshotAdd size (storeSnapshotBytes (g_Streams g)).

(** ** By what changed *)

(** A record that must exist and does not is a nil dereference. *)
Inductive sizing := Sized (size : N) | SizeError (err : error) | SizeNil.

Definition adjust (size oldSize newSize : N) : sizing :=
  if size <? oldSize then SizeError (ErrNew "snapshot size accounting underflow"%string) else Sized (snapshotAdd (size - oldSize) newSize).

Fixpoint sizeEach {A} (step : N -> A -> sizing) (size : N) (l : list A) : sizing :=
  match l with
  | [] => Sized size
  | x :: l => match step size x with Sized size => sizeEach step size l | other => other end
  end.

Definition thenSize (m : sizing) (k : N -> sizing) : sizing := match m with Sized size => k size | other => other end.

Section delta.
Context (base g : graphState).

Definition sizeMetadata (size : N) (change : AppMetadataChange) : sizing :=
  let key := elems (mc_Key change) in
  let oldSize := match g_AppMetadata base !! key with Some old => appMetadataSnapshotBytes key old | None => 0 end in
  if mc_Delete change then adjust size oldSize 0
  else match g_AppMetadata g !! key with
       | None => SizeError (ErrNew "application metadata delta value is missing"%string)
       | Some value => adjust size oldSize (appMetadataSnapshotBytes key value)
       end.

(** Written and removed records of one kind; [sizeOf] of a record under its identifier. *)
Definition sizeUpsert {A} (sizeOf : N -> A -> N) (old new : gmap N A) (size : N) (id : N) : sizing :=
  match new !! id with
  | None => SizeNil
  | Some record => adjust size (match old !! id with Some record => sizeOf id record | None => 0 end) (sizeOf id record)
  end.
Definition sizeDelete {A} (sizeOf : N -> A -> N) (old : gmap N A) (size : N) (id : N) : sizing :=
  match old !! id with Some record => adjust size (sizeOf id record) 0 | None => Sized size end.
Definition sizeText (size : N) (id : N) : sizing :=
  adjust size (match g_FTS base !! id with Some text => ftsSnapshotBytes id text | None => 0 end)
    (match g_FTS g !! id with Some text => ftsSnapshotBytes id text | None => 0 end).

(** [base.SnapshotBytes] is [size]. *)
Definition ApplyDeltaSnapshotBytes (size : N) (changes : GraphDelta) : sizing :=
  thenSize (sizeEach sizeMetadata size (gd_AppMetadata changes)) (fun size =>
  thenSize (sizeEach (sizeUpsert (fun _ => nodeSnapshotBytes) (g_Nodes base) (g_Nodes g)) size (elems (gd_UpsertNodes changes))) (fun size =>
  thenSize (sizeEach (sizeDelete (fun _ => nodeSnapshotBytes) (g_Nodes base)) size (elems (gd_DeleteNodes changes))) (fun size =>
  thenSize (sizeEach (sizeUpsert (fun _ => edgeSnapshotBytes) (g_Edges base) (g_Edges g)) size (elems (gd_UpsertEdges changes))) (fun size =>
  thenSize (sizeEach (sizeDelete (fun _ => edgeSnapshotBytes) (g_Edges base)) size (elems (gd_DeleteEdges changes))) (fun size =>
  thenSize (sizeEach sizeText size (elems (gd_UpsertFTS changes))) (fun size =>
  thenSize (sizeEach (sizeDelete ftsSnapshotBytes (g_FTS base)) size (elems (gd_DeleteFTS changes))) (fun size =>
  thenSize (sizeEach (fun size d => adjust size 0 (propertyIndexSnapshotBytes d)) size (gd_CreateNodeIndexes changes)) (fun size =>
  thenSize (sizeEach (fun size d => adjust size (propertyIndexSnapshotBytes d) 0) size (gd_DropNodeIndexes changes)) (fun size =>
  thenSize (sizeEach (fun size d => adjust size 0 (propertyIndexSnapshotBytes d)) size (gd_CreateEdgeIndexes changes)) (fun size =>
  thenSize (sizeEach (fun size d => adjust size (propertyIndexSnapshotBytes d) 0) size (gd_DropEdgeIndexes changes)) (fun size =>
  if gd_StreamsChanged changes then adjust size (storeSnapshotBytes (g_Streams base)) (storeSnapshotBytes (g_Streams g)) else Sized size))))))))))).
End delta.

(** * The kept size of a snapshot is the counted one

    Adjusting the size by the changes of a commit gives what counting the whole graph
    gives, and never underflows, as long as the sizes fit in 64 bits. *)

(** ** Sums over maps and sets *)

Section sums.
Context {K : Type} `{Countable K} {A : Type} (f : K -> A -> N).

Definition weightAt (m : gmap K A) (k : K) : N := match m !! k with Some x => f k x | None => 0 end.
Definition weigh (m : gmap K A) : N := nsum (map (fun kv => f kv.1 kv.2) (map_to_list m)).

Lemma weigh_delete m k : weigh m = weigh (delete k m) + weightAt m k.
Proof.
  unfold weightAt. destruct (m !! k) as [x|] eqn:E; [|by rewrite delete_id, N.add_0_r].
  rewrite <- (insert_delete_id m k x E) at 1. unfold weigh. rewrite (nsum_perm _ (map (fun kv => f kv.1 kv.2) ((k, x) :: map_to_list (delete k m)))).
  - cbn [map nsum foldr fst snd]. fold (nsum (map (fun kv => f kv.1 kv.2) (map_to_list (delete k m)))). lia.
  - apply Permutation_map, map_to_list_insert, lookup_delete_eq.
Qed.

Lemma weigh_remove ids m : NoDup ids -> weigh m = weigh (foldr delete m ids) + nsum (map (weightAt m) ids).
Proof.
  induction 1 as [|k ids Hk _ IH]; cbn [foldr map nsum]; [lia|]. rewrite IH, (weigh_delete (foldr delete m ids) k).
  assert (E : weightAt (foldr delete m ids) k = weightAt m k) by (unfold weightAt; by rewrite lookup_foldr_delete_not_elem_of). rewrite E. unfold nsum. lia.
Qed.

Lemma remove_same ids (m m' : gmap K A) : (forall k, k ∉ ids -> m !! k = m' !! k) -> foldr delete m ids = foldr delete m' ids.
Proof.
  intros Hs. apply map_eq. intros k. destruct (decide (k ∈ ids)) as [Hk|Hk]; [by rewrite !lookup_foldr_delete|]. rewrite !lookup_foldr_delete_not_elem_of by done. by apply Hs.
Qed.
End sums.

(** Two maps that differ under some keys share the rest. *)
Lemma weigh_changes {K} `{Countable K} {A} (f : K -> A -> N) ids (old new : gmap K A) : NoDup ids -> (forall k, k ∉ ids -> old !! k = new !! k) ->
  exists kept, weigh f old = kept + nsum (map (weightAt f old) ids) /\ weigh f new = kept + nsum (map (weightAt f new) ids).
Proof. intros Hn Hs. exists (weigh f (foldr delete old ids)). split; [by apply weigh_remove|]. rewrite (remove_same ids old new Hs). by apply weigh_remove. Qed.

Lemma entity_weights {A} (f : N -> A -> N) (old new : gmap N A) upserts deletes : entityChanges old new upserts deletes ->
  exists kept, weigh f old = kept + (nsum (map (weightAt f old) upserts) + nsum (map (weightAt f old) deletes)) /\ weigh f new = kept + nsum (map (weightAt f new) upserts).
Proof.
  intros [Hn Hu Hd Hs]. destruct (weigh_changes f (deletes ++ upserts) old new Hn) as (kept & E1 & E2); [intros id Hid; apply Hs; set_solver|].
  rewrite map_app, nsum_app in E1, E2. assert (Ez : nsum (map (weightAt f new) deletes) = 0).
  { clear -Hd. induction deletes as [|id deletes IH]; [done|]. cbn [map nsum foldr]. fold (nsum (map (weightAt f new) deletes)). rewrite IH by (intros; apply Hd; set_solver).
    unfold weightAt. by rewrite (proj2 (Hd id ltac:(set_solver))). }
  exists kept. split; lia.
Qed.

Definition weighSet {A} `{Countable A} (f : A -> N) (X : gset A) : N := nsum (map f (elements X)).

Lemma weighSet_union {A} `{Countable A} (f : A -> N) (X Y : gset A) : X ## Y -> weighSet f (X ∪ Y) = weighSet f X + weighSet f Y.
Proof. intros Hd. unfold weighSet. rewrite (nsum_perm _ (map f (elements X ++ elements Y))) by (apply Permutation_map; by rewrite elements_disj_union). by rewrite map_app, nsum_app. Qed.
Lemma weighSet_list {A} `{Countable A} (f : A -> N) l : NoDup l -> weighSet f (list_to_set l) = nsum (map f l).
Proof. intros Hl. apply nsum_perm, Permutation_map. by apply elements_list_to_set. Qed.

Lemma index_weights (f : indexName -> N) old new creates drops : indexChanges old new creates drops ->
  exists kept, weighSet f old = kept + nsum (map f drops) /\ weighSet f new = kept + nsum (map f creates).
Proof.
  intros [Hc Hd Ho Hf Hn]. exists (weighSet f (old ∖ list_to_set drops)). rewrite <- (weighSet_list f drops), <- (weighSet_list f creates) by done. split; rewrite <- weighSet_union.
  - f_equal. apply set_eq. intros k. rewrite elem_of_union, elem_of_difference, elem_of_list_to_set. split; [|intros [[? _]|?]; [done|by apply Ho]]. intros Hk. destruct (decide (k ∈ drops)); [by right|left; by split].
  - set_solver.
  - f_equal. apply set_eq. intros k. rewrite Hn, elem_of_union, elem_of_difference, !elem_of_list_to_set. tauto.
  - intros k. rewrite elem_of_difference, !elem_of_list_to_set. intros [Hk Hnd] Hcr. apply Hnd. by apply Hf.
Qed.

(** ** Counting the graph *)

Definition weighGraph (g : graphState) : N :=
  4096 + (weigh appMetadataSnapshotBytes (g_AppMetadata g) + (weigh (fun _ => nodeSnapshotBytes) (g_Nodes g) + (weigh (fun _ => edgeSnapshotBytes) (g_Edges g) +
  (weigh ftsSnapshotBytes (g_FTS g) + (weighSet propertyIndexSnapshotBytes (g_NodeIndexes g) + (weighSet propertyIndexSnapshotBytes (g_EdgeIndexes g) + storeSnapshotBytes (g_Streams g))))))).

Lemma Estimate_weighs g : EstimateSnapshotBytes g = sat (weighGraph g).
Proof.
  unfold EstimateSnapshotBytes. change (foldl _ 4096 (map_to_list (g_AppMetadata g))) with (foldl (fun size kv => snapshotAdd size (appMetadataSnapshotBytes kv.1 kv.2)) (sat 4096) (map_to_list (g_AppMetadata g))).
  rewrite (foldl_sat (fun kv => appMetadataSnapshotBytes kv.1 kv.2)), (foldl_sat (fun kv : N * NodeRecord => nodeSnapshotBytes kv.2)), (foldl_sat (fun kv : N * EdgeRecord => edgeSnapshotBytes kv.2)),
    (foldl_sat (fun kv => ftsSnapshotBytes kv.1 kv.2)), !(foldl_sat propertyIndexSnapshotBytes), snapshotAdd_sat.
  f_equal. unfold weighGraph, weigh, weighSet. lia.
Qed.

(** ** Adjusting *)

(** A step that takes [olds] off and puts [news] on. *)
Definition moves (m : N -> sizing) (olds news : N) : Prop := forall size, olds <= size -> size + news <= max_uint64 -> m size = Sized (size + news - olds).

Lemma moves_eq m olds news olds' news' : moves m olds news -> olds = olds' -> news = news' -> moves m olds' news'.
Proof. by intros ? -> ->. Qed.
Lemma moves_adjust olds news : moves (fun size => adjust size olds news) olds news.
Proof.
  intros size Ho Hn. unfold adjust. destruct (N.ltb_spec size olds); [lia|]. f_equal. rewrite snapshotAdd_le by lia. unfold sat. lia.
Qed.
Lemma moves_stay : moves Sized 0 0.
Proof. intros size _ _. f_equal. lia. Qed.
Lemma moves_then m k o1 n1 o2 n2 : moves m o1 n1 -> moves k o2 n2 -> moves (fun size => thenSize (m size) k) (o1 + o2) (n1 + n2).
Proof. intros Hm Hk size Ho Hn. rewrite Hm by lia. cbn [thenSize]. rewrite Hk by lia. f_equal. lia. Qed.

Lemma moves_each {A} (step : N -> A -> sizing) (o n : A -> N) l : (forall x, x ∈ l -> moves (fun size => step size x) (o x) (n x)) ->
  moves (fun size => sizeEach step size l) (nsum (map o l)) (nsum (map n l)).
Proof.
  induction l as [|x l IH]; intros Hl; [exact moves_stay|]. pose proof (moves_then _ _ _ _ _ _ (Hl x ltac:(left)) (IH ltac:(intros; apply Hl; by right))) as Hm.
  intros size Ho Hn. specialize (Hm size Ho Hn). cbn [sizeEach]. unfold thenSize in Hm. destruct (step size x); exact Hm.
Qed.

Lemma moves_upserts {A} (f : N -> A -> N) (old new : gmap N A) ids : (forall id, id ∈ ids -> is_Some (new !! id)) ->
  moves (fun size => sizeEach (sizeUpsert f old new) size ids) (nsum (map (weightAt f old) ids)) (nsum (map (weightAt f new) ids)).
Proof.
  intros Hi. apply moves_each. intros id Hid. destruct (Hi id Hid) as [x Hx]. unfold sizeUpsert, weightAt. rewrite Hx. apply moves_adjust.
Qed.
Lemma moves_deletes {A} (f : N -> A -> N) (old : gmap N A) ids : moves (fun size => sizeEach (sizeDelete f old) size ids) (nsum (map (weightAt f old) ids)) 0.
Proof.
  eapply moves_eq; [apply (moves_each _ (weightAt f old) (fun _ => 0)); intros id _; unfold sizeDelete, weightAt; destruct (old !! id); [apply moves_adjust|apply moves_stay]|done|].
  induction ids as [|id ids IH]; [done|exact IH].
Qed.
Lemma moves_in {A} (f : A -> N) l : moves (fun size => sizeEach (fun size d => adjust size 0 (f d)) size l) 0 (nsum (map f l)).
Proof. eapply moves_eq; [apply (moves_each _ (fun _ => 0) f); intros x _; apply moves_adjust| |done]. induction l as [|x l IH]; [done|exact IH]. Qed.
Lemma moves_out {A} (f : A -> N) l : moves (fun size => sizeEach (fun size d => adjust size (f d) 0) size l) (nsum (map f l)) 0.
Proof. eapply moves_eq; [apply (moves_each _ f (fun _ => 0)); intros x _; apply moves_adjust|done|]. induction l as [|x l IH]; [done|exact IH]. Qed.

(** Metadata, by the keys of the changes. *)
Lemma moves_metadata base g changes : metadataChanges (g_AppMetadata base) (g_AppMetadata g) changes ->
  let keys := map (fun c => elems (mc_Key c)) changes in
  moves (fun size => sizeEach (sizeMetadata base g) size changes) (nsum (map (weightAt appMetadataSnapshotBytes (g_AppMetadata base)) keys)) (nsum (map (weightAt appMetadataSnapshotBytes (g_AppMetadata g)) keys)).
Proof.
  intros Hc keys. unfold keys. rewrite !map_map. apply moves_each. intros c Hin. pose proof (mt_set _ _ _ Hc c Hin) as Hs. unfold sizeMetadata, weightAt. destruct (mc_Delete c).
  - destruct Hs as [_ ->]. apply moves_adjust.
  - rewrite Hs. apply moves_adjust.
Qed.

(** Everything together, against the sums of both graphs. *)
Lemma apply_moves base g changes : changesOK base g changes -> (gd_StreamsChanged changes = false -> g_Streams g = g_Streams base) ->
  exists olds news kept, moves (fun size => ApplyDeltaSnapshotBytes base g size changes) olds news /\ weighGraph base = kept + olds /\ weighGraph g = kept + news.
Proof.
  intros [Cn Ce Cf _ _ Cm Ci Cj _ _ _] Hs. set (keys := map (fun c => elems (mc_Key c)) (gd_AppMetadata changes)).
  destruct (weigh_changes appMetadataSnapshotBytes keys _ _ (mt_keys _ _ _ Cm) (mt_same _ _ _ Cm)) as (k1 & A1 & B1).
  destruct (entity_weights (fun _ => nodeSnapshotBytes) _ _ _ _ Cn) as (k2 & A2 & B2). destruct (entity_weights (fun _ => edgeSnapshotBytes) _ _ _ _ Ce) as (k3 & A3 & B3).
  destruct (entity_weights ftsSnapshotBytes _ _ _ _ Cf) as (k4 & A4 & B4). destruct (index_weights propertyIndexSnapshotBytes _ _ _ _ Ci) as (k5 & A5 & B5).
  destruct (index_weights propertyIndexSnapshotBytes _ _ _ _ Cj) as (k6 & A6 & B6).
  set (so := storeSnapshotBytes (g_Streams base)). set (sn := storeSnapshotBytes (g_Streams g)).
  assert (Hstreams : exists k7 o n, moves (fun size => if gd_StreamsChanged changes then adjust size so sn else Sized size) o n /\ so = k7 + o /\ sn = k7 + n).
  { destruct (gd_StreamsChanged changes); [exists 0, so, sn; split_and!; [apply moves_adjust|lia|lia]|]. exists so, 0, 0. unfold sn, so. rewrite (Hs eq_refl). split_and!; [apply moves_stay|lia|lia]. }
  destruct Hstreams as (k7 & o7 & n7 & M7 & A7 & B7). do 2 eexists. exists (4096 + (k1 + (k2 + (k3 + (k4 + (k5 + (k6 + k7))))))). split; [|split].
  - unfold ApplyDeltaSnapshotBytes. apply moves_then; [exact (moves_metadata base g _ Cm)|]. apply moves_then; [exact (moves_upserts _ _ _ _ (ec_upserts _ _ _ _ Cn))|]. apply moves_then; [apply moves_deletes|].
    apply moves_then; [exact (moves_upserts _ _ _ _ (ec_upserts _ _ _ _ Ce))|]. apply moves_then; [apply moves_deletes|].
    apply moves_then; [apply (moves_each (sizeText base g) (weightAt ftsSnapshotBytes (g_FTS base)) (weightAt ftsSnapshotBytes (g_FTS g))); intros id _; apply moves_adjust|].
    apply moves_then; [apply moves_deletes|]. apply moves_then; [apply moves_in|]. apply moves_then; [apply moves_out|]. apply moves_then; [apply moves_in|]. apply moves_then; [apply moves_out|]. exact M7.
  - unfold weighGraph. fold so. unfold keys in A1. lia.
  - unfold weighGraph. fold sn. unfold keys in B1. lia.
Qed.

Lemma apply_exact base g changes : changesOK base g changes -> (gd_StreamsChanged changes = false -> g_Streams g = g_Streams base) -> weighGraph base + weighGraph g <= max_uint64 ->
  ApplyDeltaSnapshotBytes base g (EstimateSnapshotBytes base) changes = Sized (EstimateSnapshotBytes g).
Proof.
  intros Hc Hs Hfit. destruct (apply_moves base g changes Hc Hs) as (olds & news & kept & Hm & E1 & E2). rewrite !Estimate_weighs. unfold sat. rewrite !N.min_l by lia. rewrite Hm by lia. f_equal. lia.
Qed.
