(* ===== verification/Search.v ===== *)
(** * Tokens and fuzzy matching (internal/search/search.go)

    The tokenizers of full text, their count of bytes before anything is allocated, and
    the edit distance behind fuzzy matching. Contexts are never cancelled. The tables of
    package unicode are a parameter. *)
From S2P Require Import Prelude.
From S2P Require Import GoBytes.
From S2P Require Import BinaryCodec.
From S2P Require Import BinaryRecords.
From Stdlib Require Strings.String.
Import String.StringSyntax.

(** ** Runes *)

Definition runeError : N := 65533.

(** The first rune of a string and its width; an invalid byte is [runeError] of width 1. *)
Definition decodeRune (l : list byte) : N * nat :=
  let bits b n := byteN b mod n in
  match l with
  | [] => (runeError, 0%nat)
  | b :: l =>
      if byteN b <? 128 then (byteN b, 1%nat)
      else match l with
      | [] => (runeError, 1%nat)
      | c1 :: l =>
          if inRange 194 223 b then if continuation c1 then (bits b 32 * 64 + bits c1 64, 2%nat) else (runeError, 1%nat)
          else match l with
          | [] => (runeError, 1%nat)
          | c2 :: l =>
              let three := if continuation c2 then (bits b 16 * 4096 + bits c1 64 * 64 + bits c2 64, 3%nat) else (runeError, 1%nat) in
              if inRange 224 224 b then if inRange 160 191 c1 then three else (runeError, 1%nat)
              else if inRange 237 237 b then if inRange 128 159 c1 then three else (runeError, 1%nat)
              else if inRange 225 239 b then if continuation c1 then three else (runeError, 1%nat)
              else match l with
              | [] => (runeError, 1%nat)
              | c3 :: l =>
                  if (if inRange 240 240 b then inRange 144 191 c1
                      else if inRange 241 243 b then continuation c1
                      else if inRange 244 244 b then inRange 128 143 c1
                      else false) && continuation c2 && continuation c3
                  then (bits b 8 * 262144 + bits c1 64 * 4096 + bits c2 64 * 64 + bits c3 64, 4%nat) else (runeError, 1%nat)
              end
          end
      end
  end.

(** [for _, r := range s], each rune with its bytes; every step takes a byte or more. *)
Fixpoint rangeRunes (fuel : nat) (l : list byte) : list (N * list byte) :=
  match fuel, l with
  | O, _ | _, [] => []
  | S fuel, l => let '(r, width) := decodeRune l in (r, take width l) :: rangeRunes fuel (drop width l)
  end.
Definition runeChunks (s : gostring) : list (N * list byte) := rangeRunes (length s) s.
Definition runes (s : gostring) : list N := map fst (runeChunks s).

Definition surrogate (r : N) : bool := (55296 <=? r) && (r <=? 57343).
Definition validRune (r : N) : bool := (r <=? 1114111) && negb (surrogate r).

(** [Builder.WriteRune] *)
Definition encodeRune (r : N) : list byte :=
  let r := if validRune r then r else runeError in
  if r <? 128 then [toByte r]
  else if r <? 2048 then [toByte (192 + r / 64); toByte (128 + r mod 64)]
  else if r <? 65536 then [toByte (224 + r / 4096); toByte (128 + r / 64 mod 64); toByte (128 + r mod 64)]
  else [toByte (240 + r / 262144); toByte (128 + r / 4096 mod 64); toByte (128 + r / 64 mod 64); toByte (128 + r mod 64)].

(** [utf8.RuneLen] *)
Definition RuneLen (r : N) : Z :=
  if r <? 128 then 1 else if r <? 2048 then 2 else if surrogate r then -1 else if r <? 65536 then 3 else if r <=? 1114111 then 4 else -1.
(** [uint64(n)] of an [int] *)
Definition uint64Of (n : Z) : N := Z.to_N (n mod 2 ^ 64).

(** ** Tokens *)

Record unicodeTables := mkUnicode { IsLetter : N -> bool; IsDigit : N -> bool; ToLower : N -> N }.

Definition ErrTokenizationLimit : error := ErrNew "tokenization logical byte limit exceeded"%string.

Section tokens.
Context (unicode : unicodeTables).

Definition wordRune (r : N) : bool := IsLetter unicode r || IsDigit unicode r.

(** [strings.ToLower] and [strings.FieldsFunc] *)
Definition stringsToLower (s : gostring) : gostring := concat (map (fun r => encodeRune (ToLower unicode r)) (runes s)).
Definition fieldsStep (separator : N -> bool) (st : list gostring * option gostring) (rb : N * list byte) : list gostring * option gostring :=
  let '(fields, start) := st in
  if separator rb.1 then (match start with Some field => (fields ++ [field], None) | None => (fields, None) end)
  else (fields, Some (default [] start ++ rb.2)).
Definition FieldsFunc (s : gostring) (separator : N -> bool) : list gostring :=
  let '(fields, start) := foldl (fieldsStep separator) ([], None) (runeChunks s) in
  match start with Some field => fields ++ [field] | None => fields end.

Definition Tokenize (text : gostring) : list gostring :=
  List.filter (fun part => negb (bool_decide (part = []))) (FieldsFunc (stringsToLower text) (fun r => negb (IsLetter unicode r) && negb (IsDigit unicode r))).

Definition tokenStep (st : list gostring * gostring) (value : N) : list gostring * gostring :=
  let '(tokens, token) := st in
  if wordRune value then (tokens, token ++ encodeRune (ToLower unicode value))
  else if bool_decide (token <> []) then (tokens ++ [token], []) else (tokens, token).
Definition TokenizeContext (text : gostring) : list gostring :=
  let '(tokens, token) := foldl tokenStep ([], []) (runes text) in
  if bool_decide (token <> []) then tokens ++ [token] else tokens.

(** Token headers and lowercase storage. *)
Definition countStep (st : N * N * bool) (value : N) : N * N * bool :=
  let '(tokens, lowercaseBytes, inToken) := st in
  if wordRune value then (if inToken then tokens else u64 (tokens + 1), addSaturated lowercaseBytes (uint64Of (RuneLen (ToLower unicode value))), true)
  else (tokens, lowercaseBytes, false).
Definition tokenizationLogicalBytes (text : gostring) : N :=
  let '(tokens, lowercaseBytes, _) := foldl countStep (0, 0, false) (runes text) in
  if tokens =? 0 then 0
  else addSaturated (addSaturated 256 (multiplySaturated tokens 64)) (multiplySaturated lowercaseBytes 4).

Definition TokenizeContextWithLimit (maxLogicalBytes : N) (text : gostring) : list gostring + error :=
  if maxLogicalBytes <? tokenizationLogicalBytes text then inr ErrTokenizationLimit else inl (TokenizeContext text).

(** ** Edit distance *)

Fixpoint minInt (best : Z) (values : list Z) : Z :=
  match values with
  | [] => best
  | value :: values => minInt (if (value <? best)%Z then value else best) values
  end.

(** The inner loop: [curr[j+1]] from the row before and what [curr] has so far. Reads are
    within the rows, which have a cell more than [right] has runes. *)
Definition cellAt (row : list Z) (j : nat) : Z := default 0%Z (row !! j).
Fixpoint fillRow (leftRune : N) (prev : list Z) (j : nat) (rights : list N) (curr : list Z) : list Z :=
  match rights with
  | [] => curr
  | rightRune :: rights =>
      let cost := if leftRune =? rightRune then 0%Z else 1%Z in
      let deletion := (cellAt prev (S j) + 1)%Z in
      let insertion := (cellAt curr j + 1)%Z in
      let substitution := (cellAt prev j + cost)%Z in
      fillRow leftRune prev (S j) rights (<[S j := minInt deletion [insertion; substitution]]> curr)
  end.
(** The outer loop; the rows change places after each rune of [left]. *)
Fixpoint fillRows (i : nat) (lefts rights : list N) (prev curr : list Z) : list Z :=
  match lefts with
  | [] => prev
  | leftRune :: lefts => fillRows (S i) lefts rights (fillRow leftRune prev 0 rights (<[0%nat := Z.of_nat (S i)]> curr)) prev
  end.
Definition levenshteinDistance (left right : gostring) : Z :=
  let leftRunes := runes left in
  let rightRunes := runes right in
  match leftRunes, rightRunes with
  | [], _ => Z.of_nat (length rightRunes)
  | _, [] => Z.of_nat (length leftRunes)
  | _, _ =>
      let cells := S (length rightRunes) in
      cellAt (fillRows 0 leftRunes rightRunes (map Z.of_nat (seq 0 cells)) (replicate cells 0%Z)) (length rightRunes)
  end.

Definition uint32Of (n : nat) : N := N.of_nat n mod 2 ^ 32.
Definition FuzzyTokenMatch (term token : gostring) (maxDistance minTermLength : N) : bool :=
  let term := stringsToLower term in
  if bool_decide (token = term) then true
  else (0 <? maxDistance) && (minTermLength <=? uint32Of (length (runes term))) && (levenshteinDistance term token <=? Z.of_N maxDistance)%Z.
End tokens.
