(* ===== verification/SearchSpec.v ===== *)
(** * Tokens and edit distances, specified

    The runes of a string, the words a tokenizer finds in them, and the least number of
    edits between two strings. *)
From S2P Require Import Prelude.
From S2P Require Import GoBytes.
From S2P Require Import BinaryCodec.
From S2P Require Import BinaryCodecSpec.
From S2P Require Import BinaryRecords.
From S2P Require Import Search.
From Stdlib Require Import ZifyN ZifyNat.
Ltac Zify.zify_post_hook ::= Z.to_euclidean_division_equations.

(** ** Runes *)

Ltac ranges := repeat match goal with
  | Hr : inRange _ _ _ = true |- _ => unfold inRange in Hr; apply andb_true_iff in Hr as [?%N.leb_le ?%N.leb_le]
  | Hr : continuation _ = true |- _ => unfold continuation in Hr
  | Hr : inRange _ _ _ = false |- _ => unfold inRange in Hr; apply andb_false_iff in Hr as [?%N.leb_gt|?%N.leb_gt]
  | Hr : (_ <? _) = true |- _ => apply N.ltb_lt in Hr
  | Hr : (_ <? _) = false |- _ => apply N.ltb_ge in Hr
  | Hr : _ && _ = true |- _ => apply andb_true_iff in Hr as [? ?]
  end.

Lemma validRune_iff r : validRune r = true <-> r <= 1114111 /\ (r < 55296 \/ 57343 < r).
Proof. unfold validRune, surrogate. rewrite andb_true_iff, negb_true_iff, andb_false_iff, N.leb_le, !N.leb_gt. lia. Qed.

Lemma decodeRune_width l : l <> [] -> (0 < (decodeRune l).2 <= length l)%nat.
Proof.
  unfold decodeRune. destruct l as [|b l]; [done|]. intros _. destruct (byteN b <? 128); [cbn; lia|]. destruct l as [|c1 l]; [cbn; lia|]. destruct (inRange 194 223 b); [destruct (continuation c1); cbn; lia|].
  destruct l as [|c2 l]; [cbn; lia|]. destruct (inRange 224 224 b); [destruct (inRange 160 191 c1), (continuation c2); cbn; lia|].
  destruct (inRange 237 237 b); [destruct (inRange 128 159 c1), (continuation c2); cbn; lia|]. destruct (inRange 225 239 b); [destruct (continuation c1), (continuation c2); cbn; lia|].
  destruct l as [|c3 l]; [cbn; lia|]. destruct (_ && _ && _); cbn; lia.
Qed.

Ltac right_here := cbn [fst]; unfold runeError; lia.

Lemma decodeRune_valid l : validRune (decodeRune l).1 = true.
Proof.
  apply validRune_iff. unfold decodeRune. destruct l as [|b l]; [by right_here|]. destruct (byteN b <? 128) eqn:Eb; [ranges; cbn [fst]; lia|]. destruct l as [|c1 l]; [by right_here|].
  destruct (inRange 194 223 b) eqn:E2; [destruct (continuation c1) eqn:E3; ranges; cbn [fst]; unfold runeError; lia|]. destruct l as [|c2 l]; [by right_here|].
  destruct (inRange 224 224 b) eqn:E4; [destruct (inRange 160 191 c1) eqn:E5, (continuation c2) eqn:E6; cbn [fst]; unfold runeError; clear E2; ranges; lia|].
  destruct (inRange 237 237 b) eqn:E7; [destruct (inRange 128 159 c1) eqn:E5, (continuation c2) eqn:E6; cbn [fst]; unfold runeError; clear E2 E4; ranges; lia|].
  destruct (inRange 225 239 b) eqn:E8; [destruct (continuation c1) eqn:E5, (continuation c2) eqn:E6; cbn [fst]; unfold runeError; clear E2 E4; ranges; lia|].
  destruct l as [|c3 l]; [by right_here|]. destruct (_ && _ && _) eqn:E9; cbn [fst]; [|unfold runeError; lia]. clear E2 E4 E7 E8.
  apply andb_true_iff in E9 as [[E9 H2]%andb_true_iff H3]. destruct (inRange 240 240 b) eqn:A; [ranges; lia|clear A]. destruct (inRange 241 243 b) eqn:A; [ranges; lia|clear A]. destruct (inRange 244 244 b) eqn:A; [ranges; lia|done].
Qed.

Lemma byteN_small n : n < 256 -> byteN (toByte n) = n.
Proof. intros Hn. rewrite byteN_toByte. by apply N.mod_small. Qed.
Lemma inRange_byte lo hi n : n < 256 -> inRange lo hi (toByte n) = (lo <=? n) && (n <=? hi).
Proof. intros Hn. unfold inRange. by rewrite byteN_small. Qed.

Lemma range_true lo hi n : lo <= n <= hi -> (lo <=? n) && (n <=? hi) = true.
Proof. intros [? ?]. by rewrite (proj2 (N.leb_le _ _)), (proj2 (N.leb_le _ _)). Qed.
Lemma range_false lo hi n : n < lo \/ hi < n -> (lo <=? n) && (n <=? hi) = false.
Proof. intros Hn. apply andb_false_iff. rewrite !N.leb_gt. lia. Qed.

Lemma decode_encode r l : validRune r = true -> decodeRune (encodeRune r ++ l) = (r, length (encodeRune r)).
Proof.
  intros Hr. unfold encodeRune. rewrite Hr. apply validRune_iff in Hr. destruct (N.ltb_spec r 128); [|destruct (N.ltb_spec r 2048); [|destruct (N.ltb_spec r 65536)]]; cbn [app decodeRune length];
    unfold continuation; rewrite !inRange_byte, !byteN_small by lia.
  - by rewrite (proj2 (N.ltb_lt _ _)).
  - rewrite (proj2 (N.ltb_ge _ _)) by lia. rewrite !range_true by lia. f_equal. lia.
  - rewrite (proj2 (N.ltb_ge _ _)) by lia. rewrite (range_false 194), (range_true 128 191 (128 + r mod 64)), (range_true 128 191 (128 + r / 64 mod 64)) by lia.
    assert (E : (224 + r / 4096) mod 16 * 4096 + (128 + r / 64 mod 64) mod 64 * 64 + (128 + r mod 64) mod 64 = r) by lia. rewrite E.
    destruct (decide (224 + r / 4096 = 224)); [rewrite (range_true 224 224), (range_true 160 191) by lia; done|rewrite (range_false 224 224) by lia].
    destruct (decide (224 + r / 4096 = 237)); [rewrite (range_true 237 237), (range_true 128 159) by lia; done|rewrite (range_false 237 237) by lia]. by rewrite (range_true 225 239) by lia.
  - rewrite (proj2 (N.ltb_ge _ _)) by lia. rewrite (range_false 194), (range_false 224 224), (range_false 237 237), (range_false 225 239) by lia.
    rewrite (range_true 128 191 (128 + r mod 64)), (range_true 128 191 (128 + r / 64 mod 64)), (range_true 128 191 (128 + r / 4096 mod 64)) by lia.
    assert (E : (240 + r / 262144) mod 8 * 262144 + (128 + r / 4096 mod 64) mod 64 * 4096 + (128 + r / 64 mod 64) mod 64 * 64 + (128 + r mod 64) mod 64 = r) by lia. rewrite E.
    destruct (decide (240 + r / 262144 = 240)); [rewrite (range_true 240 240), (range_true 144 191) by lia; done|rewrite (range_false 240 240) by lia].
    destruct (decide (240 + r / 262144 = 244)); [rewrite (range_false 241 243), (range_true 244 244), (range_true 128 143) by lia; done|rewrite (range_true 241 243) by lia; done].
Qed.

Lemma encodeRune_nonempty r : encodeRune r <> [].
Proof. unfold encodeRune. destruct (_ <? 128); [done|]. destruct (_ <? 2048); [done|]. by destruct (_ <? 65536). Qed.

Lemma runeChunks_encoded rs : Forall (fun r => validRune r = true) rs -> runeChunks (concat (map encodeRune rs)) = map (fun r => (r, encodeRune r)) rs.
Proof.
  intros Hrs. unfold runeChunks. assert (Hf : (length (concat (map encodeRune rs)) <= length (concat (map encodeRune rs)))%nat) by lia. revert Hf.
  generalize (length (concat (map encodeRune rs))) at 2 3. induction Hrs as [|r rs Hr _ IH]; intros fuel Hf; [by destruct fuel|]. cbn [map concat] in *. rewrite length_app in Hf.
  pose proof (encodeRune_nonempty r) as Hne. destruct (encodeRune r) as [|b bs] eqn:Eb; [done|]. cbn [length] in Hf. destruct fuel as [|fuel]; [lia|].
  cbn [rangeRunes app]. change (b :: bs ++ concat (map encodeRune rs)) with ((b :: bs) ++ concat (map encodeRune rs)). rewrite <- Eb, decode_encode by done.
  rewrite take_app_length, drop_app_length, Eb. f_equal. apply IH. lia.
Qed.

Lemma runes_valid s : Forall (fun r => validRune r = true) (runes s).
Proof.
  unfold runes, runeChunks. generalize (length s) at 1. intros fuel. revert s. induction fuel as [|fuel IH]; intros [|b s]; try apply Forall_nil_2. cbn [rangeRunes].
  pose proof (decodeRune_valid (b :: s)) as Hv. destruct (decodeRune (b :: s)) as [r width]. constructor; [exact Hv|apply IH].
Qed.

(** ** Words *)

(** The maximal runs of runes of words, [current] being the one that is being read. *)
Fixpoint words (P : N -> bool) (current rs : list N) : list (list N) :=
  match rs with
  | [] => match current with [] => [] | _ => [current] end
  | r :: rs => if P r then words P (current ++ [r]) rs else match current with [] => [] | _ => [current] end ++ words P [] rs
  end.

Lemma words_all P rs : forall current, concat (words P current rs) = current ++ List.filter P rs.
Proof.
  induction rs as [|r rs IH]; intros current; cbn [words List.filter]; [destruct current; cbn [concat]; by rewrite ?app_nil_r|].
  destruct (P r); [rewrite IH, <- app_assoc; done|]. rewrite concat_app, IH. cbn [app]. f_equal. destruct current; cbn [concat]; by rewrite ?app_nil_r.
Qed.
Lemma words_nonempty P rs : forall current, Forall (fun w => w <> []) (words P current rs).
Proof.
  assert (Hc : forall current : list N, Forall (fun w => w <> []) (match current with [] => [] | _ => [current] end)) by (intros []; [constructor|by apply Forall_singleton]).
  induction rs as [|r rs IH]; intros current; cbn [words]; [apply Hc|]. destruct (P r); [apply IH|]. apply Forall_app. split; [apply Hc|apply IH].
Qed.

Section words.
Context (unicode : unicodeTables).

(** A word as a token. *)
Definition lowered (w : list N) : gostring := concat (map (fun r => encodeRune (ToLower unicode r)) w).

Lemma lowered_snoc w r : lowered (w ++ [r]) = lowered w ++ encodeRune (ToLower unicode r).
Proof. unfold lowered. rewrite map_app, concat_app. cbn [map concat]. by rewrite app_nil_r. Qed.
Lemma lowered_nil w : lowered w = [] <-> w = [].
Proof.
  split; [|by intros ->]. destruct w as [|r w]; [done|]. unfold lowered. cbn [map concat]. intros [E _]%app_eq_nil. by apply encodeRune_nonempty in E.
Qed.

Lemma tokens_words rs : forall tokens current,
  (let '(tokens, token) := foldl (tokenStep unicode) (tokens, lowered current) rs in if bool_decide (token <> []) then tokens ++ [token] else tokens) =
  tokens ++ map lowered (words (wordRune unicode) current rs).
Proof.
  assert (Hc : forall tokens current, (if bool_decide (lowered current <> []) then tokens ++ [lowered current] else tokens) = tokens ++ map lowered (match current with [] => [] | _ => [current] end)).
  { intros tokens [|r w]; [by rewrite bool_decide_false, app_nil_r by (rewrite lowered_nil; tauto)|by rewrite bool_decide_true by (rewrite lowered_nil; done)]. }
  induction rs as [|r rs IH]; intros tokens current; cbn [foldl words]; [apply Hc|]. cbn [tokenStep]. destruct (wordRune unicode r); [rewrite <- lowered_snoc; apply IH|].
  rewrite map_app, app_assoc, <- Hc, <- IH. change (lowered []) with (@nil byte). case_bool_decide as Hb; [done|]. by rewrite (proj1 (lowered_nil current)) by (destruct (decide (lowered current = [])); tauto).
Qed.

Lemma TokenizeContext_words text : TokenizeContext unicode text = map lowered (words (wordRune unicode) [] (runes text)).
Proof. unfold TokenizeContext. exact (tokens_words (runes text) [] []). Qed.

(** ** The same words after lowering the text *)

(** Lower case of a letter is a letter, of a digit a digit, and of a rune a rune. *)
Definition casesAgree : Prop := forall r, validRune r = true -> validRune (ToLower unicode r) = true /\ wordRune unicode (ToLower unicode r) = wordRune unicode r.
Context (Hcase : casesAgree).

Lemma lowered_chunks rs : Forall (fun r => validRune r = true) rs -> runeChunks (lowered rs) = map (fun r => (ToLower unicode r, encodeRune (ToLower unicode r))) rs.
Proof.
  intros Hrs. unfold lowered. rewrite <- (map_map (ToLower unicode) encodeRune), runeChunks_encoded, map_map; [done|]. apply List.Forall_map. eapply Forall_impl; [exact Hrs|]. intros r Hr. by apply Hcase.
Qed.

Lemma fields_words rs : Forall (fun r => validRune r = true) rs -> forall fields current start, lowered current = default [] start -> (start = None <-> current = []) ->
  (let '(fields, start) := foldl (fieldsStep (fun r => negb (IsLetter unicode r) && negb (IsDigit unicode r))) (fields, start) (map (fun r => (ToLower unicode r, encodeRune (ToLower unicode r))) rs) in
   match start with Some field => fields ++ [field] | None => fields end) = fields ++ map lowered (words (wordRune unicode) current rs).
Proof.
  induction 1 as [|r rs Hr _ IH]; intros fields current start Hl Hs; cbn [map foldl words].
  - destruct start as [field|]; destruct current as [|r w]; cbn [map] in *; [by apply proj2 in Hs; specialize (Hs eq_refl)|cbn [default] in Hl; by rewrite Hl|by rewrite app_nil_r|by apply proj1 in Hs; specialize (Hs eq_refl)].
  - cbn [fieldsStep fst snd]. destruct (Hcase r Hr) as [_ Ew]. unfold wordRune in Ew at 1. rewrite <- negb_orb, Ew. destruct (wordRune unicode r) eqn:Er; cbn [negb].
    + apply IH; [by rewrite lowered_snoc, Hl|]. split; [done|]. by destruct current.
    + rewrite map_app, app_assoc. destruct start as [field|].
      * destruct current as [|x w]; [by apply proj2 in Hs; specialize (Hs eq_refl)|]. cbn [map default] in *. rewrite Hl. by apply IH.
      * rewrite (proj1 Hs eq_refl). cbn [map]. rewrite app_nil_r. by apply IH.
Qed.

Lemma Tokenize_words text : Tokenize unicode text = map lowered (words (wordRune unicode) [] (runes text)).
Proof.
  unfold Tokenize, FieldsFunc, stringsToLower. fold (lowered (runes text)). rewrite lowered_chunks by apply runes_valid. rewrite (fields_words _ (runes_valid text) [] [] None) by done.
  pose proof (words_nonempty (wordRune unicode) (runes text) []) as Hn. cbn [app]. induction Hn as [|w ws Hw _ IH]; [done|]. cbn [map List.filter].
  rewrite bool_decide_false by (by rewrite lowered_nil). cbn [negb]. by rewrite IH.
Qed.
End words.

(** ** Counting before allocating *)

Definition bounded (n : N) : N := N.min n max_uint64.
Lemma addSaturated_bounded a b : addSaturated (bounded a) b = bounded (a + b).
Proof. unfold addSaturated, bounded. destruct (N.ltb_spec (max_uint64 - N.min a max_uint64) b); lia. Qed.
Lemma multiplySaturated_bounded a k : 0 < k <= max_uint64 -> multiplySaturated (bounded a) k = bounded (a * k).
Proof. intros Hk. rewrite multiplySaturated_spec by (unfold bounded; lia). unfold bounded. nia. Qed.

Lemma encodeRune_length r : validRune r = true -> nlen (encodeRune r) = uint64Of (RuneLen r).
Proof.
  intros Hr. unfold encodeRune, RuneLen. rewrite Hr. apply validRune_iff in Hr. destruct (N.ltb_spec r 128); [done|]. destruct (N.ltb_spec r 2048); [done|].
  assert (Es : surrogate r = false) by (unfold surrogate; apply range_false; lia). rewrite Es. destruct (N.ltb_spec r 65536); [done|]. by rewrite (proj2 (N.leb_le _ _)) by lia.
Qed.

Section counting.
Context (unicode : unicodeTables) (Hcase : casesAgree unicode).

Definition loweredBytes (rs : list N) : N := nsum (map (fun r => nlen (encodeRune (ToLower unicode r))) rs).

Lemma lowered_bytes w : nlen (lowered unicode w) = loweredBytes w.
Proof. unfold lowered, loweredBytes. induction w as [|r w IH]; [done|]. cbn [map concat nsum foldr]. rewrite nlen_app, IH. done. Qed.
Lemma loweredBytes_app w w' : loweredBytes (w ++ w') = loweredBytes w + loweredBytes w'.
Proof. unfold loweredBytes. by rewrite map_app, nsum_app. Qed.
Lemma tokens_bytes ws : nsum (map nlen (map (lowered unicode) ws)) = loweredBytes (concat ws).
Proof. induction ws as [|w ws IH]; [done|]. cbn [map concat nsum foldr]. rewrite loweredBytes_app, lowered_bytes. unfold nsum in IH. by rewrite IH. Qed.

Definition open (current : list N) : N := match current with [] => 0 | _ => 1 end.
Definition isOpen (current : list N) : bool := match current with [] => false | _ => true end.

Lemma count_words rs : Forall (fun r => validRune r = true) rs -> forall n b current, n + nlen (words (wordRune unicode) current rs) < 2 ^ 64 ->
  exists last, foldl (countStep unicode) (n + open current, bounded b, isOpen current) rs =
    (n + nlen (words (wordRune unicode) current rs), bounded (b + loweredBytes (List.filter (wordRune unicode) rs)), last).
Proof.
  induction 1 as [|r rs Hr _ IH]; intros n b current Hn; cbn [foldl words List.filter] in *.
  - exists (isOpen current). rewrite N.add_0_r. by destruct current.
  - destruct (Hcase r Hr) as [Hv _]. unfold countStep at 2. destruct (wordRune unicode r) eqn:Er.
    + destruct (IH n (b + nlen (encodeRune (ToLower unicode r))) (current ++ [r]) Hn) as [last E]. exists last.
      rewrite addSaturated_bounded, <- (encodeRune_length _ Hv). assert (Hle : 1 <= nlen (words (wordRune unicode) (current ++ [r]) rs)).
      { clear. assert (Hc : current ++ [r] <> []) by (by destruct current). revert Hc. generalize (current ++ [r]). clear. induction rs as [|x rs IH]; intros c Hc; cbn [words]; [by destruct c|].
        destruct (wordRune unicode x); [apply IH; by destruct c|]. rewrite nlen_app. destruct c; [done|]. unfold nlen. cbn [length]. lia. }
      assert (Eo : open (current ++ [r]) = 1 /\ isOpen (current ++ [r]) = true) by (by destruct current). destruct Eo as [Eo1 Eo2]. rewrite Eo1, Eo2 in E.
      assert (En : (if isOpen current then n + open current else u64 (n + open current + 1)) = n + 1) by (unfold u64; destruct current; cbn [isOpen open]; [rewrite N.mod_small|]; lia).
      rewrite En, E. cbn [loweredBytes map nsum foldr]. f_equal. f_equal. f_equal. unfold loweredBytes, nsum. lia.
    + rewrite nlen_app in Hn |- *. assert (Ec : nlen (match current with [] => [] | _ => [current] end) = open current) by (by destruct current). rewrite Ec in Hn |- *.
      destruct (IH (n + open current) b [] ltac:(lia)) as [last E]. cbn [open isOpen] in E. rewrite N.add_0_r in E. exists last. rewrite E. f_equal. f_equal. lia.
Qed.

Lemma headers_and_bytes n b : n < 2 ^ 64 -> addSaturated (addSaturated 256 (multiplySaturated n 64)) (multiplySaturated (bounded b) 4) = bounded (256 + 64 * n + 4 * b).
Proof.
  intros Hn. rewrite multiplySaturated_bounded, (multiplySaturated_spec n 64) by (unfold max_uint64; lia). unfold bounded. rewrite !addSaturated_spec by (try apply addSaturated_le; unfold max_uint64; lia). lia.
Qed.

Lemma logicalBytes_exact text : nlen (TokenizeContext unicode text) < 2 ^ 64 ->
  tokenizationLogicalBytes unicode text = match TokenizeContext unicode text with [] => 0 | tokens => bounded (256 + 64 * nlen tokens + 4 * nsum (map nlen tokens)) end.
Proof.
  rewrite TokenizeContext_words. pose proof (words_all (wordRune unicode) (runes text) []) as Ha. pose proof (count_words (runes text) (runes_valid text) 0 0 []) as Hc. unfold tokenizationLogicalBytes.
  cbn [open isOpen app] in Ha, Hc. revert Ha Hc. generalize (words (wordRune unicode) [] (runes text)). intros ws Ha Hc Hn.
  assert (El : nlen (map (lowered unicode) ws) = nlen ws) by (unfold nlen; by rewrite length_map). rewrite El in Hn.
  destruct (Hc Hn) as [last E]. assert (B0 : bounded 0 = 0) by (unfold bounded; lia). rewrite B0, !N.add_0_l in E. rewrite E. rewrite <- Ha, <- tokens_bytes.
  destruct (N.eqb_spec (nlen ws) 0) as [Ez|Ez]; [destruct ws; [done|unfold nlen in Ez; cbn [length] in Ez; lia]|].
  rewrite headers_and_bytes by done. destruct ws as [|w ws]; [done|]. cbn [map]. cbn [map] in El. by rewrite El.
Qed.
End counting.

(** ** Edits *)

(** [n] single-rune edits turn one list of runes into another. *)
Inductive edits : list N -> list N -> nat -> Prop :=
  | edits_nil : edits [] [] 0
  | edits_keep x l r n : edits l r n -> edits (x :: l) (x :: r) n
  | edits_change x y l r n : edits l r n -> edits (x :: l) (y :: r) (S n)
  | edits_insert y l r n : edits l r n -> edits l (y :: r) (S n)
  | edits_delete x l r n : edits l r n -> edits (x :: l) r (S n).

Lemma edits_app l r n l' r' n' m : edits l r n -> edits l' r' n' -> m = (n + n')%nat -> edits (l ++ l') (r ++ r') m.
Proof. intros Hl Hr ->. induction Hl; cbn [app Nat.add]; eauto using edits. Qed.
Lemma edits_rev l r n : edits l r n -> edits (rev l) (rev r) n.
Proof.
  induction 1 as [|x l r n _ IH|x y l r n _ IH|y l r n _ IH|x l r n _ IH]; cbn [rev]; [constructor|..].
  - eapply edits_app; [exact IH|apply edits_keep, edits_nil|lia].
  - eapply edits_app; [exact IH|apply edits_change, edits_nil|lia].
  - rewrite <- (app_nil_r (rev l)). eapply edits_app; [exact IH|apply edits_insert, edits_nil|lia].
  - rewrite <- (app_nil_r (rev r)). eapply edits_app; [exact IH|apply edits_delete, edits_nil|lia].
Qed.
Lemma edits_all_inserted r : edits [] r (length r).
Proof. induction r; cbn [length]; by constructor. Qed.
Lemma edits_all_deleted l : edits l [] (length l).
Proof. induction l; cbn [length]; by constructor. Qed.

(** The least number of edits, by the first runes. *)
Fixpoint least (l r : list N) {struct l} : nat :=
  match l with
  | [] => length r
  | x :: l' => (fix against (r : list N) : nat :=
      match r with
      | [] => length l
      | y :: r' => Nat.min (S (least l' r)) (Nat.min (S (against r')) ((if (x =? y)%N then 0 else 1) + least l' r'))
      end) r
  end%nat.
Lemma least_cons x l y r : least (x :: l) (y :: r) = (Nat.min (S (least l (y :: r))) (Nat.min (S (least (x :: l) r)) ((if (x =? y)%N then 0 else 1) + least l r)))%nat.
Proof. reflexivity. Qed.
Lemma least_nil_r l : least l [] = length l.
Proof. by destruct l. Qed.

Lemma least_reached l : forall r, edits l r (least l r).
Proof.
  induction l as [|x l IH]; intros r; [apply edits_all_inserted|]. induction r as [|y r IHr]; [apply edits_all_deleted|]. rewrite least_cons.
  destruct (Nat.min_dec (S (least l (y :: r))) (Nat.min (S (least (x :: l) r)) ((if (x =? y)%N then 0 else 1) + least l r))) as [->| ->]; [apply edits_delete, IH|].
  destruct (Nat.min_dec (S (least (x :: l) r)) ((if (x =? y)%N then 0 else 1) + least l r)) as [->| ->]; [apply edits_insert, IHr|].
  destruct (N.eqb_spec x y) as [->|_]; [apply edits_keep, IH|apply edits_change, IH].
Qed.
Lemma least_least l r n : edits l r n -> (least l r <= n)%nat.
Proof.
  induction 1 as [|x l r n _ IH|x y l r n _ IH|y l r n _ IH|x l r n _ IH]; [done| | | |].
  - rewrite least_cons, N.eqb_refl. lia.
  - rewrite least_cons. destruct (x =? y); lia.
  - destruct l as [|x l]; [cbn [least length] in *; lia|]. rewrite least_cons. lia.
  - destruct r as [|y r]; [rewrite !least_nil_r in *; cbn [length]; lia|]. rewrite least_cons. lia.
Qed.

(** ** The rows *)

(** Cell [j] of the row after some runes of the left string: the distance between the
    runes read and the first [j] of the right string. *)
Definition cell (left right : list N) (j : nat) : Z := Z.of_nat (least (rev left) (rev (take j right))).

Lemma minInt_three a b c : minInt a [b; c] = Z.min a (Z.min b c).
Proof. cbn [minInt]. destruct (Z.ltb_spec b a); [destruct (Z.ltb_spec c b)|destruct (Z.ltb_spec c a)]; lia. Qed.

Lemma cell_step left x right j y : right !! j = Some y ->
  cell (left ++ [x]) right (S j) = minInt (cell left right (S j) + 1) [(cell (left ++ [x]) right j + 1)%Z; (cell left right j + (if (x =? y)%N then 0 else 1))%Z].
Proof.
  intros Hy. unfold cell. rewrite (take_S_r right j y Hy), !rev_app_distr. cbn [rev app]. rewrite least_cons, minInt_three. destruct (x =? y); lia.
Qed.
Lemma cell_first left right : cell left right 0 = Z.of_nat (length left).
Proof. unfold cell. rewrite take_0. cbn [rev]. by rewrite least_nil_r, length_rev. Qed.
Lemma cell_start right j : (j <= length right)%nat -> cell [] right j = Z.of_nat j.
Proof. intros Hj. unfold cell. cbn [rev least]. rewrite length_rev, length_take. lia. Qed.

Definition rowOf (left right : list N) (row : list Z) (upto : nat) : Prop :=
  length row = S (length right) /\ forall j, (j <= upto)%nat -> row !! j = Some (cell left right j).

Lemma fillRow_ok left x right prev : rowOf left right prev (length right) -> forall rights j curr, drop j right = rights -> (j <= length right)%nat -> rowOf (left ++ [x]) right curr j ->
  rowOf (left ++ [x]) right (fillRow x prev j rights curr) (length right).
Proof.
  intros [Lp Hp]. induction rights as [|y rights IH]; intros j curr Hd Hj [Lc Hc]; cbn [fillRow].
  - assert (j = length right) by (apply (f_equal length) in Hd; rewrite length_drop in Hd; cbn [length] in Hd; lia). subst j. by split.
  - assert (Hy : right !! j = Some y) by (by rewrite <- (Nat.add_0_r j), <- lookup_drop, Hd). assert (Hlt : (j < length right)%nat) by (by apply lookup_lt_Some in Hy).
    apply IH; [by rewrite <- Nat.add_1_r, <- drop_drop, Hd|lia|]. split; [by rewrite length_insert|]. intros i Hi. destruct (decide (i = S j)) as [->|Hne].
    + rewrite list_lookup_insert_eq by lia. f_equal. unfold cellAt. rewrite !Hp, Hc by lia. rewrite (cell_step left x right j y Hy). reflexivity.
    + rewrite list_lookup_insert_ne by lia. apply Hc. lia.
Qed.

Lemma fillRows_ok right lefts : forall left prev curr, rowOf left right prev (length right) -> length curr = S (length right) ->
  rowOf (left ++ lefts) right (fillRows (length left) lefts right prev curr) (length right).
Proof.
  induction lefts as [|x lefts IH]; intros left prev curr Hp Hc; cbn [fillRows]; [by rewrite app_nil_r|].
  replace (left ++ x :: lefts) with ((left ++ [x]) ++ lefts) by (by rewrite <- app_assoc). replace (S (length left)) with (length (left ++ [x])) at 1 by (rewrite length_app; cbn [length]; lia).
  apply IH; [|apply Hp]. apply (fillRow_ok left); [done|by rewrite drop_0|lia|]. split; [by rewrite length_insert|]. intros j Hj. assert (j = 0%nat) by lia. subst j.
  rewrite list_lookup_insert_eq by lia. f_equal. rewrite cell_first, length_app. cbn [length]. lia.
Qed.

Lemma levenshtein_least left right : levenshteinDistance left right = Z.of_nat (least (rev (runes left)) (rev (runes right))).
Proof.
  unfold levenshteinDistance. generalize (runes left), (runes right). intros l r. destruct l as [|x l]; [cbn [rev least]; by rewrite length_rev|].
  destruct r as [|y r]; [cbn [rev]; by rewrite least_nil_r, length_app, length_rev, Nat.add_comm|]. set (right' := y :: r). set (left' := x :: l).
  destruct (fillRows_ok right' left' [] (map Z.of_nat (seq 0 (S (length right')))) (replicate (S (length right')) 0%Z)) as [_ Hc].
  - split; [by rewrite length_map, length_seq|]. intros j Hj. rewrite list_lookup_fmap, lookup_seq_lt by lia. cbn [fmap option_fmap option_map]. by rewrite cell_start.
  - apply length_replicate.
  - cbn [app length] in Hc. unfold cellAt. cbn [length] in *. rewrite Hc by lia. cbn [default from_option]. unfold cell. by rewrite take_ge by (unfold right'; cbn [length]; lia).
Qed.
