(* ===== verification/Porter.v ===== *)
(** * The English stemmer (internal/search/porter.go)

    Porter's rules on words of lowercase ASCII letters, and the analyzer that applies them
    to the tokens of a text. A slice or index out of range is [None].

    Further down: no step goes out of range, and a stem is a word no longer than its
    token. *)
From S2P Require Import Prelude.
From S2P Require Import GoBytes.
From S2P Require Import BinaryCodec.
From S2P Require Import BinaryRecords.
From S2P Require Import StreamPersist.
From S2P Require Import Search.
From Stdlib Require Strings.String.
Import String.StringSyntax.

Abbreviation word := (list byte).

(** [flags[:n]] *)
Definition sliceTo {A} (l : list A) (n : nat) : option (list A) := if (n <=? length l)%nat then Some (take n l) else None.

Definition porterASCIIWord (w : gostring) : bool := forallb (fun b => negb ((byteN b <? 97) || (122 <? byteN b))) w.

Definition isByte (b c : byte) : bool := byteN b =? byteN c.

(** A letter is a consonant; [y] is one after a vowel or at the start. *)
Fixpoint flagsFrom (before : option bool) (w : word) : list bool :=
  match w with
  | [] => []
  | letter :: w =>
      let flag := if existsb (isByte letter) (str "aeiou"%string) then false
                  else if isByte letter x79 then match before with None => true | Some flag => negb flag end
                  else true in
      flag :: flagsFrom (Some flag) w
  end.
Definition porterFlags (w : word) : list bool := flagsFrom None w.

Definition measureStep (st : nat * bool) (consonant : bool) : nat * bool :=
  let '(measure, vowel) := st in
  if consonant then (if vowel then (S measure, false) else (measure, vowel)) else (measure, true).
Definition porterMeasure (flags : list bool) : nat := (foldl measureStep (0%nat, false) flags).1.
Definition porterHasVowel (flags : list bool) : bool := existsb negb flags.

Definition porterCVC (w : word) (flags : list bool) : option bool :=
  if (length w <? 3)%nat then Some false
  else
    let i := pred (length w) in
    f0 ← flags !! i; if negb f0 then Some false else
    f1 ← flags !! pred i; if (f1 : bool) then Some false else
    f2 ← flags !! pred (pred i); if negb f2 then Some false else
    b ← w !! i; Some (negb (isByte b x77) && negb (isByte b x78) && negb (isByte b x79)).

Definition porterSuffix (w : word) (suffix : gostring) : option word :=
  let at_ := (length w - length suffix)%nat in
  if (length w <? length suffix)%nat || negb (bool_decide (drop at_ w = suffix)) then None else Some (take at_ w).
Definition hasSuffix (w : word) (suffix : gostring) : bool := match porterSuffix w suffix with Some _ => true | None => false end.

Record porterRule := mkRule { ru_suffix : gostring; ru_replacement : gostring }.
Definition rules (l : list (String.string * String.string)) : list porterRule := map (fun r => mkRule (str r.1) (str r.2)) l.

Definition step1aRules : list porterRule := rules [("sses", "ss"); ("ies", "i"); ("ss", "ss"); ("s", "")]%string.
Fixpoint firstRule (l : list porterRule) (w : word) : option (porterRule * word) :=
  match l with
  | [] => None
  | rule :: l => match porterSuffix w (ru_suffix rule) with Some stem => Some (rule, stem) | None => firstRule l w end
  end.
Definition porterStep1a (w : word) : word := match firstRule step1aRules w with Some (rule, stem) => stem ++ ru_replacement rule | None => w end.

(** After [ed] or [ing] was taken off. *)
Definition repair (w : word) (flags : list bool) : option word :=
  if hasSuffix w (str "at"%string) || hasSuffix w (str "bl"%string) || hasSuffix w (str "iz"%string) then Some (w ++ [x65])
  else
    doubled ← (if (length w <? 2)%nat then Some false
               else
                 a ← w !! pred (length w); b ← w !! pred (pred (length w)); if negb (isByte a b) then Some false else
                 f ← flags !! pred (length w); Some (f && negb (isByte a x6c) && negb (isByte a x73) && negb (isByte a x7a)));
    if (doubled : bool) then Some (take (pred (length w)) w)
    else
      prefix ← sliceTo flags (length w);
      short ← (if (porterMeasure prefix =? 1)%nat then porterCVC w prefix else Some false);
      Some (if (short : bool) then w ++ [x65] else w).

Definition porterStep1b (w : word) (flags : list bool) : option word :=
  match porterSuffix w (str "eed"%string) with
  | Some stem => prefix ← sliceTo flags (length stem); Some (if (0 <? porterMeasure prefix)%nat then stem ++ str "ee"%string else w)
  | None =>
      let try_ suffix (otherwise : option word) :=
        match porterSuffix w suffix with
        | Some stem => prefix ← sliceTo flags (length stem); if porterHasVowel prefix then repair stem flags else otherwise
        | None => otherwise
        end in
      try_ (str "ed"%string) (try_ (str "ing"%string) (Some w))
  end.

Definition porterStep1c (w : word) (flags : list bool) : option word :=
  if (1 <? length w)%nat then
    b ← w !! pred (length w);
    if isByte b x79 then
      prefix ← sliceTo flags (pred (length w));
      Some (if porterHasVowel prefix then <[pred (length w) := x69]> w else w)
    else Some w
  else Some w.

Definition porterStep2 : list porterRule := rules
  [("ational", "ate"); ("tional", "tion"); ("enci", "ence"); ("anci", "ance"); ("izer", "ize"); ("abli", "able"); ("alli", "al"); ("entli", "ent"); ("eli", "e"); ("ousli", "ous");
   ("ization", "ize"); ("ation", "ate"); ("ator", "ate"); ("alism", "al"); ("iveness", "ive"); ("fulness", "ful"); ("ousness", "ous"); ("aliti", "al"); ("iviti", "ive"); ("biliti", "ble")]%string.
Definition porterStep3 : list porterRule := rules
  [("icate", "ic"); ("ative", ""); ("alize", "al"); ("iciti", "ic"); ("ical", "ic"); ("ful", ""); ("ness", "")]%string.
Definition porterStep4 : list gostring := map str
  ["al"; "ance"; "ence"; "er"; "ic"; "able"; "ible"; "ant"; "ement"; "ment"; "ent"; "ion"; "ou"; "ism"; "ate"; "iti"; "ous"; "ive"; "ize"]%string.

Definition porterReplace (w : word) (flags : list bool) (l : list porterRule) : option word :=
  match firstRule l w with
  | None => Some w
  | Some (rule, stem) => prefix ← sliceTo flags (length stem); Some (if (0 <? porterMeasure prefix)%nat then stem ++ ru_replacement rule else w)
  end.

Fixpoint step4From (l : list gostring) (w : word) (flags : list bool) : option word :=
  match l with
  | [] => Some w
  | suffix :: l =>
      match porterSuffix w suffix with
      | None => step4From l w flags
      | Some stem =>
          if bool_decide (suffix = str "ion"%string) && match last stem with None => true | Some b => negb (isByte b x73) && negb (isByte b x74) end then Some w
          else prefix ← sliceTo flags (length stem); Some (if (1 <? porterMeasure prefix)%nat then stem else w)
      end
  end.
Definition porterStep4Apply (w : word) (flags : list bool) : option word := step4From porterStep4 w flags.

Definition porterStep5 (w : word) (flags : list bool) : option word :=
  w ← (match porterSuffix w (str "e"%string) with
       | None => Some w
       | Some stem =>
           prefix ← sliceTo flags (length stem);
           let measure := porterMeasure prefix in
           short ← (if (1 <? measure)%nat then Some true else if (measure =? 1)%nat then negb <$> porterCVC stem prefix else Some false);
           Some (if (short : bool) then stem else w)
       end);
  if (1 <? length w)%nat && hasSuffix w (str "ll"%string) then
    prefix ← sliceTo flags (length w); Some (if (1 <? porterMeasure prefix)%nat then take (pred (length w)) w else w)
  else Some w.

Definition StemEnglishPorter (token : gostring) : option gostring :=
  if (length token <? 3)%nat || negb (porterASCIIWord token) then Some token
  else
    let w := porterStep1a token in
    w ← porterStep1b w (porterFlags w);
    w ← porterStep1c w (porterFlags w);
    w ← porterReplace w (porterFlags w) porterStep2;
    w ← porterReplace w (porterFlags w) porterStep3;
    w ← porterStep4Apply w (porterFlags w);
    porterStep5 w (porterFlags w).

(** ** The analyzer *)

Definition saturatingTokenStemBytes (token : gostring) : N := multiplySaturated (nlen token) 3.

Section analyzer.
Context (unicode : unicodeTables).

(** The loop over the tokens: scratch space of the longest one so far, then its stem. *)
Fixpoint stemTokens (baseBytes maxLogicalBytes scratchBytes : N) (tokens : list gostring) : option (list gostring + error) :=
  match tokens with
  | [] => Some (inl [])
  | token :: tokens =>
      let scratchBytes := N.max scratchBytes (saturatingTokenStemBytes token) in
      if (maxLogicalBytes <? baseBytes) || (maxLogicalBytes - baseBytes <? scratchBytes) then Some (inr ErrTokenizationLimit)
      else
        stem ← StemEnglishPorter token;
        rest ← stemTokens baseBytes maxLogicalBytes scratchBytes tokens;
        Some (match rest with inl stems => inl (stem :: stems) | inr err => inr err end)
  end.
Definition AnalyzeEnglishPorterWithLimit (maxLogicalBytes : N) (text : gostring) : option (list gostring + error) :=
  match TokenizeContextWithLimit unicode maxLogicalBytes text with
  | inr err => Some (inr err)
  | inl tokens => stemTokens (tokenizationLogicalBytes unicode text) maxLogicalBytes 0 tokens
  end.
End analyzer.

(** The published examples of the rules. *)
Lemma porter_examples : map (fun s => StemEnglishPorter (str s)) ["caresses"; "ponies"; "cats"; "feed"; "agreed"; "plastered"; "motoring"; "conflated"; "hopping"; "falling"; "filing";
    "happy"; "sky"; "relational"; "vietnamization"; "triplicate"; "hopeful"; "revival"; "adoption"; "rate"; "controll"; "roll"]%string =
  map (fun s => Some (str s)) ["caress"; "poni"; "cat"; "feed"; "agre"; "plaster"; "motor"; "conflat"; "hop"; "fall"; "file";
    "happi"; "sky"; "relat"; "vietnam"; "triplic"; "hope"; "reviv"; "adopt"; "rate"; "control"; "roll"]%string.
Proof. vm_compute. reflexivity. Qed.

(** * Stems

    Every step keeps a word of letters a word of letters, does not make it longer or
    empty, and stays within its slices. *)

Definition letters (w : word) : Prop := Forall (fun b => 97 <= byteN b <= 122) w.
(** A word of at most [n] letters. *)
Definition fine (n : nat) (w : word) : Prop := letters w /\ w <> [] /\ (length w <= n)%nat.
Definition steps (m : option word) (n : nat) : Prop := exists w, m = Some w /\ fine n w.

Lemma ascii_letters w : porterASCIIWord w = true <-> letters w.
Proof.
  unfold porterASCIIWord, letters. rewrite forallb_forall, Forall_forall. setoid_rewrite list_elem_of_In. setoid_rewrite negb_true_iff. setoid_rewrite orb_false_iff. setoid_rewrite N.ltb_ge. tauto.
Qed.
Lemma letters_str s : porterASCIIWord (str s) = true -> letters (str s).
Proof. apply ascii_letters. Qed.

Lemma suffix_split w suffix stem : porterSuffix w suffix = Some stem -> w = stem ++ suffix.
Proof.
  unfold porterSuffix. destruct (length w <? length suffix)%nat; [done|]. case_bool_decide as E; [|done]. cbn [orb negb]. intros [= <-]. rewrite <- E at 2. by rewrite take_drop.
Qed.
Lemma stem_of w suffix stem : porterSuffix w suffix = Some stem -> letters w -> letters stem /\ length w = (length stem + length suffix)%nat.
Proof. intros ->%suffix_split Hl. split; [by apply Forall_app in Hl as [? _]|apply length_app]. Qed.

Lemma flags_length w : length (porterFlags w) = length w.
Proof. unfold porterFlags. generalize (@None bool). induction w as [|b w IH]; intros before; [done|]. cbn [flagsFrom length]. by rewrite IH. Qed.
Lemma slice_ok {A} (l : list A) n : (n <= length l)%nat -> sliceTo l n = Some (take n l).
Proof. intros Hn. unfold sliceTo. by rewrite (proj2 (Nat.leb_le _ _)). Qed.
Lemma measured flags (stem : word) n : (n <? porterMeasure (take (length stem) flags))%nat = true -> stem <> [].
Proof. intros Hm ->. cbn in Hm. by destruct n. Qed.
Lemma voweled flags (stem : word) : porterHasVowel (take (length stem) flags) = true -> stem <> [].
Proof. by intros Hv ->. Qed.

Lemma stays w : letters w -> w <> [] -> steps (Some w) (length w).
Proof. intros ? ?. exists w. split; [done|]. by split_and!. Qed.
Lemma steps_weaken m n n' : steps m n -> (n <= n')%nat -> steps m n'.
Proof. intros (w & E & H1 & H2 & H3) Hn. exists w. split; [done|]. split_and!; [done|done|lia]. Qed.

Lemma cvc_ok w flags : (length w <= length flags)%nat -> exists b, porterCVC w flags = Some b.
Proof.
  intros Hl. unfold porterCVC. destruct (Nat.ltb_spec (length w) 3); [by eexists|].
  assert (Hf : forall i, (i < length w)%nat -> is_Some (flags !! i)) by (intros i Hi; apply lookup_lt_is_Some; lia).
  destruct (Hf (pred (length w)) ltac:(lia)) as [f0 ->]. cbn [mbind option_bind]. destruct (negb f0); [by eexists|]. destruct (Hf (pred (pred (length w))) ltac:(lia)) as [f1 ->]. cbn [mbind option_bind].
  destruct f1; [by eexists|]. destruct (Hf (pred (pred (pred (length w)))) ltac:(lia)) as [f2 ->]. cbn [mbind option_bind]. destruct (negb f2); [by eexists|].
  destruct (lookup_lt_is_Some_2 w (pred (length w)) ltac:(lia)) as [b ->]. by eexists.
Qed.

Lemma step1a_ok w : letters w -> (2 <= length w)%nat -> fine (length w) (porterStep1a w).
Proof.
  intros Hl Hn. unfold porterStep1a, step1aRules. cbn [rules map firstRule fst snd ru_suffix].
  repeat match goal with |- context [porterSuffix w ?s] => let E := fresh "E" in destruct (porterSuffix w s) as [stem|] eqn:E; [destruct (stem_of _ _ _ E Hl) as [Hs Es]|] end; cbn [ru_replacement].
  5: { split_and!; [done|intros ->; cbn in Hn; lia|done]. }
  all: cbn in Es; split_and!; [apply Forall_app; split; [done|apply letters_str; reflexivity]| |rewrite length_app; cbn; lia]; destruct stem; [cbn in *; try done; lia|done].
Qed.

Lemma repair_ok w flags : letters w -> w <> [] -> (length w <= length flags)%nat -> steps (repair w flags) (S (length w)).
Proof.
  intros Hl Hne Hf. assert (He : steps (Some (w ++ [x65])) (S (length w))).
  { eexists. split; [done|]. split_and!; [apply Forall_app; split; [done|apply Forall_singleton; cbn; lia]|by destruct w|rewrite length_app; cbn; lia]. }
  unfold repair. destruct (_ || _); [done|]. destruct (Nat.ltb_spec (length w) 2).
  - cbn [mbind option_bind]. rewrite slice_ok by done. cbn [mbind option_bind]. assert (Hc : exists b, porterCVC w (take (length w) flags) = Some b) by (apply cvc_ok; rewrite length_take; lia).
    destruct Hc as [b Hc]. destruct (_ =? 1)%nat; [rewrite Hc; destruct b|]; cbn [mbind option_bind]; [done|eapply steps_weaken; [by apply stays|lia]..].
  - destruct (lookup_lt_is_Some_2 w (pred (length w)) ltac:(lia)) as [a Ea]. destruct (lookup_lt_is_Some_2 w (pred (pred (length w))) ltac:(lia)) as [b Eb].
    destruct (lookup_lt_is_Some_2 flags (pred (length w)) ltac:(lia)) as [f Ef]. rewrite Ea, Eb. cbn [mbind option_bind]. rewrite Ef. cbn [mbind option_bind].
    assert (Hd : exists d : bool, (if negb (isByte a b) then Some false else Some (f && negb (isByte a x6c) && negb (isByte a x73) && negb (isByte a x7a))) = Some d) by (destruct (negb _); by eexists).
    destruct Hd as [d Hd]. rewrite Hd. cbn [mbind option_bind]. destruct d.
    + eexists. split; [done|]. split_and!; [by apply Forall_take| |rewrite length_take; lia]. intros E. apply (f_equal length) in E. rewrite length_take in E. cbn in E. lia.
    + rewrite slice_ok by done. cbn [mbind option_bind]. assert (Hc : exists b, porterCVC w (take (length w) flags) = Some b) by (apply cvc_ok; rewrite length_take; lia).
      destruct Hc as [c Hc]. destruct (_ =? 1)%nat; [rewrite Hc; destruct c|]; cbn [mbind option_bind]; [done|eapply steps_weaken; [by apply stays|lia]..].
Qed.

Section one_step.
Context (w : word) (Hl : letters w) (Hne : w <> []).
Abbreviation flags := (porterFlags w).

Lemma stem_slice suffix stem : porterSuffix w suffix = Some stem -> sliceTo flags (length stem) = Some (take (length stem) flags).
Proof. intros Hs. destruct (stem_of _ _ _ Hs Hl) as [_ E]. apply slice_ok. rewrite flags_length. lia. Qed.

Lemma step1b_ok : steps (porterStep1b w flags) (length w).
Proof.
  unfold porterStep1b. destruct (porterSuffix w (str "eed"%string)) as [stem|] eqn:E.
  - destruct (stem_of _ _ _ E Hl) as [Hs En]. rewrite (stem_slice _ _ E). cbn [mbind option_bind]. destruct (_ <? _)%nat eqn:Em; [|by apply stays].
    eexists. split; [done|]. split_and!; [apply Forall_app; split; [done|apply letters_str; reflexivity]|apply measured in Em; by destruct stem|rewrite length_app; cbn in *; lia].
  - clear E. assert (Htry : forall suffix otherwise, (1 <= length suffix)%nat -> steps otherwise (length w) -> steps (match porterSuffix w suffix with
        | Some stem => prefix ← sliceTo flags (length stem); if porterHasVowel prefix then repair stem flags else otherwise
        | None => otherwise end) (length w)).
    { intros suffix otherwise Hsuf Ho. destruct (porterSuffix w suffix) as [stem|] eqn:E; [|done]. destruct (stem_of _ _ _ E Hl) as [Hs En]. rewrite (stem_slice _ _ E). cbn [mbind option_bind].
      destruct (porterHasVowel _) eqn:Ev; [|done]. eapply steps_weaken; [apply repair_ok; [done|by eapply voweled|rewrite flags_length; lia]|lia]. }
    apply Htry; [cbn; lia|]. apply Htry; [cbn; lia|]. by apply stays.
Qed.

Lemma step1c_ok : steps (porterStep1c w flags) (length w).
Proof.
  unfold porterStep1c. destruct (Nat.ltb_spec 1 (length w)); [|by apply stays]. destruct (lookup_lt_is_Some_2 w (pred (length w)) ltac:(lia)) as [b ->]. cbn [mbind option_bind].
  destruct (isByte b x79); [|by apply stays]. rewrite slice_ok by (rewrite flags_length; lia). cbn [mbind option_bind]. destruct (porterHasVowel _); [|by apply stays].
  eexists. split; [done|]. split_and!; [apply Forall_insert; [done|cbn; lia]| |by rewrite length_insert]. intros E. apply (f_equal length) in E. rewrite length_insert in E. cbn in E. lia.
Qed.

Definition ruleOK (rule : porterRule) : bool := porterASCIIWord (ru_replacement rule) && (length (ru_replacement rule) <=? length (ru_suffix rule))%nat.

Lemma firstRule_some l rule stem : firstRule l w = Some (rule, stem) -> rule ∈ l /\ porterSuffix w (ru_suffix rule) = Some stem.
Proof.
  induction l as [|r l IH]; [done|]. cbn [firstRule]. destruct (porterSuffix w (ru_suffix r)) as [s|] eqn:E; [|intros ?%IH; set_solver]. intros [= <- <-]. split; [left|done].
Qed.

Lemma replace_ok l : forallb ruleOK l = true -> steps (porterReplace w flags l) (length w).
Proof.
  intros Hok. unfold porterReplace. destruct (firstRule l w) as [[rule stem]|] eqn:E; [|by apply stays]. apply firstRule_some in E as [Hin E]. destruct (stem_of _ _ _ E Hl) as [Hs En].
  rewrite forallb_forall in Hok. apply list_elem_of_In, Hok, andb_true_iff in Hin as [Ha%ascii_letters Hlen%Nat.leb_le].
  rewrite (stem_slice _ _ E). cbn [mbind option_bind]. destruct (_ <? _)%nat eqn:Em; [|by apply stays].
  eexists. split; [done|]. split_and!; [by apply Forall_app|apply measured in Em; by destruct stem|rewrite length_app; lia].
Qed.

Lemma step4_ok : steps (porterStep4Apply w flags) (length w).
Proof.
  unfold porterStep4Apply. induction porterStep4 as [|suffix l IH]; cbn [step4From]; [by apply stays|]. destruct (porterSuffix w suffix) as [stem|] eqn:E; [|done].
  destruct (stem_of _ _ _ E Hl) as [Hs En]. destruct (_ && _); [by apply stays|]. rewrite (stem_slice _ _ E). cbn [mbind option_bind]. destruct (_ <? _)%nat eqn:Em; [|by apply stays].
  eexists. split; [done|]. split_and!; [done|by eapply measured|lia].
Qed.

(** The end of step 5, on what is left of the word. *)
Lemma step5_tail w' : fine (length w) w' ->
  steps (if (1 <? length w')%nat && hasSuffix w' (str "ll"%string) then prefix ← sliceTo flags (length w'); Some (if (1 <? porterMeasure prefix)%nat then take (pred (length w')) w' else w') else Some w') (length w).
Proof.
  intros (H1 & H2 & H3). assert (Hs : steps (Some w') (length w)) by (exists w'; by split). destruct (Nat.ltb_spec 1 (length w')); [|done]. destruct (hasSuffix _ _); [|done]. cbn [andb].
  rewrite slice_ok by (rewrite flags_length; lia). cbn [mbind option_bind]. destruct (_ <? _)%nat; [|done].
  eexists. split; [done|]. split_and!; [by apply Forall_take| |rewrite length_take; lia]. intros E. apply (f_equal length) in E. rewrite length_take in E. cbn in E. lia.
Qed.

Lemma step5_ok : steps (porterStep5 w flags) (length w).
Proof.
  unfold porterStep5. assert (Hw : fine (length w) w) by (by split_and!). destruct (porterSuffix w (str "e"%string)) as [stem|] eqn:E; [|cbn [mbind option_bind]; by apply step5_tail].
  destruct (stem_of _ _ _ E Hl) as [Hs En]. rewrite (stem_slice _ _ E). cbn [mbind option_bind]. destruct (_ <? _)%nat eqn:Em.
  - cbn [mbind option_bind]. apply step5_tail. split_and!; [done|by eapply measured|lia].
  - destruct (_ =? 1)%nat eqn:E1; [|cbn [mbind option_bind]; by apply step5_tail].
    destruct (cvc_ok stem (take (length stem) flags)) as [b ->]; [rewrite length_take, flags_length; lia|]. cbn [fmap option_fmap option_map mbind option_bind]. destruct b; cbn [negb]; [by apply step5_tail|].
    apply step5_tail. split_and!; [done| |lia]. intros ->. by cbn in E1.
Qed.
End one_step.

Lemma steps_bind m k n : steps m n -> (forall w, fine n w -> steps (k w) (length w)) -> steps (m ≫= k) n.
Proof. intros (w & -> & Hf) Hk. cbn [mbind option_bind]. eapply steps_weaken; [by apply Hk|apply Hf]. Qed.

Lemma stem_ok token : exists stem, StemEnglishPorter token = Some stem /\ (length stem <= length token)%nat /\ (token <> [] -> stem <> []) /\
  (if (length token <? 3)%nat || negb (porterASCIIWord token) then stem = token else letters stem).
Proof.
  unfold StemEnglishPorter. destruct (Nat.ltb_spec (length token) 3); [by exists token|]. destruct (porterASCIIWord token) eqn:Ea; [|by exists token]. cbn [orb negb]. apply ascii_letters in Ea.
  pose proof (step1a_ok token Ea ltac:(lia)) as (A1 & A2 & A3).
  assert (Hs : steps (w ← porterStep1b (porterStep1a token) (porterFlags (porterStep1a token)); w ← porterStep1c w (porterFlags w); w ← porterReplace w (porterFlags w) porterStep2;
    w ← porterReplace w (porterFlags w) porterStep3; w ← porterStep4Apply w (porterFlags w); porterStep5 w (porterFlags w)) (length (porterStep1a token))).
  { apply steps_bind; [by apply step1b_ok|]. intros w1 (? & ? & _). apply steps_bind; [by apply step1c_ok|]. intros w2 (? & ? & _). apply steps_bind; [by apply replace_ok|]. intros w3 (? & ? & _).
    apply steps_bind; [by apply replace_ok|]. intros w4 (? & ? & _). apply steps_bind; [by apply step4_ok|]. intros w5 (? & ? & _). by apply step5_ok. }
  destruct Hs as (stem & E & S1 & S2 & S3). exists stem. split; [exact E|]. split; [lia|]. by split.
Qed.

(** ** The analyzer *)

(** Scratch space for the longest token. *)
Definition scratchFor (tokens : list gostring) : N := foldr N.max 0 (map saturatingTokenStemBytes tokens).

Lemma stemTokens_exact base limit tokens : forall scratch, exists stems, Forall2 (fun token stem => StemEnglishPorter token = Some stem) tokens stems /\
  stemTokens base limit scratch tokens =
    Some (match tokens with [] => inl [] | _ => if base + N.max scratch (scratchFor tokens) <=? limit then inl stems else inr ErrTokenizationLimit end).
Proof.
  induction tokens as [|token tokens IH]; intros scratch; [exists []; by split|]. destruct (stem_ok token) as (stem & Es & _). destruct (IH (N.max scratch (saturatingTokenStemBytes token))) as (stems & Hst & E).
  exists (stem :: stems). split; [by constructor|]. cbn [stemTokens]. unfold scratchFor. cbn [map foldr]. fold (scratchFor tokens).
  replace (N.max scratch (N.max (saturatingTokenStemBytes token) (scratchFor tokens))) with (N.max (N.max scratch (saturatingTokenStemBytes token)) (scratchFor tokens)) by lia.
  set (s := N.max scratch (saturatingTokenStemBytes token)) in *. destruct (_ || _) eqn:Eo.
  - rewrite (proj2 (N.leb_gt _ _)); [done|]. apply orb_true_iff in Eo as [Hb%N.ltb_lt|Hb%N.ltb_lt]; lia.
  - apply orb_false_iff in Eo as [H1%N.ltb_ge H2%N.ltb_ge]. rewrite Es, E. cbn [mbind option_bind]. destruct tokens as [|t tokens].
    + cbn [scratchFor map foldr]. rewrite (proj2 (N.leb_le _ _)) by (cbn; lia). by apply Forall2_nil_inv_l in Hst as ->.
    + by destruct (_ <=? limit).
Qed.
