(* ===== verification/SearchTheorems.v ===== *)
(** * Theorems on search

    The tokenizers agree and are charged what they make; fuzzy matching is by the least
    number of edits; stems are words no longer than their tokens. *)
From S2P Require Import Prelude.
From S2P Require Import GoBytes.
From S2P Require Import BinaryCodec.
From S2P Require Import BinaryCodecSpec.
From S2P Require Import BinaryRecords.
From S2P Require Import StreamPersist.
From S2P Require Import Search.
From S2P Require Import SearchSpec.
From S2P Require Import Porter.
From Stdlib Require Strings.String.
Import String.StringSyntax.

(** ** Tokens *)

(** What a text is charged for its tokens. *)
Definition chargeFor (tokens : list gostring) : N := match tokens with [] => 0 | _ => bounded (256 + 64 * nlen tokens + 4 * nsum (map nlen tokens)) end.

(** C34. The tokens of a text are its words, the maximal runs of letters and digits, in
    lower case; lowering the text before splitting it gives the same. The count made before
    anything is allocated is exactly the charge for these tokens, so a text is refused
    exactly when its tokens are over the limit. *)
Theorem tokenizers_exact unicode text : casesAgree unicode -> nlen (TokenizeContext unicode text) < 2 ^ 64 ->
  TokenizeContext unicode text = map (lowered unicode) (words (wordRune unicode) [] (runes text)) /\ Tokenize unicode text = TokenizeContext unicode text /\
  forall limit, TokenizeContextWithLimit unicode limit text = if limit <? chargeFor (TokenizeContext unicode text) then inr ErrTokenizationLimit else inl (TokenizeContext unicode text).
Proof.
  intros Hc Hn. split; [apply TokenizeContext_words|]. split; [by rewrite Tokenize_words, TokenizeContext_words|]. intros limit. unfold TokenizeContextWithLimit. rewrite (logicalBytes_exact unicode Hc text Hn). unfold chargeFor. by destruct (TokenizeContext unicode text).
Qed.

(** The tables on ASCII. *)
Definition asciiUnicode : unicodeTables :=
  mkUnicode (fun r => (65 <=? r) && (r <=? 90) || (97 <=? r) && (r <=? 122)) (fun r => (48 <=? r) && (r <=? 57)) (fun r => if (65 <=? r) && (r <=? 90) then r + 32 else r).

Lemma ascii_cases : casesAgree asciiUnicode.
Proof.
  intros r Hr. cbn [asciiUnicode ToLower]. unfold wordRune. cbn [asciiUnicode IsLetter IsDigit]. destruct ((65 <=? r) && (r <=? 90)) eqn:E; [|by rewrite E].
  apply andb_true_iff in E as [H1%N.leb_le H2%N.leb_le]. split; [apply validRune_iff; lia|]. rewrite (range_true 97 122) by lia. by rewrite orb_true_r.
Qed.

Definition exampleText : gostring := str "The Cats, hopping: 2 relational DBs"%string.

Lemma tokenizers_exact_witness : Tokenize asciiUnicode exampleText = map str ["the"; "cats"; "hopping"; "2"; "relational"; "dbs"]%string /\
  TokenizeContextWithLimit asciiUnicode 751 exampleText = inr ErrTokenizationLimit /\ TokenizeContextWithLimit asciiUnicode 752 exampleText = inl (Tokenize asciiUnicode exampleText).
Proof.
  destruct (tokenizers_exact asciiUnicode exampleText ascii_cases ltac:(vm_compute; reflexivity)) as (_ & E & Hl). rewrite E, !Hl. repeat split; vm_compute; reflexivity.
Defined.

(** ** Fuzzy matching *)

(** C35. The distance is the least number of runes to insert, delete or change: it is
    reached and nothing less does; so a token matches a term exactly when it is the term in
    lower case or, for a term long enough, within the allowed number of edits. *)
Theorem fuzzy_match_least unicode term token maxDistance minTermLength :
  (exists n, levenshteinDistance term token = Z.of_nat n /\ edits (runes term) (runes token) n /\ forall m, edits (runes term) (runes token) m -> (n <= m)%nat) /\
  (FuzzyTokenMatch unicode term token maxDistance minTermLength = true <->
   token = stringsToLower unicode term \/ 0 < maxDistance /\ minTermLength <= uint32Of (length (runes (stringsToLower unicode term))) /\
     exists n, edits (runes (stringsToLower unicode term)) (runes token) n /\ N.of_nat n <= maxDistance).
Proof.
  assert (Hl : forall left right, exists n, levenshteinDistance left right = Z.of_nat n /\ edits (runes left) (runes right) n /\ forall m, edits (runes left) (runes right) m -> (n <= m)%nat).
  { intros left right. exists (least (rev (runes left)) (rev (runes right))). split; [apply levenshtein_least|]. split.
    - pose proof (edits_rev _ _ _ (least_reached (rev (runes left)) (rev (runes right)))) as He. by rewrite !rev_involutive in He.
    - intros m Hm. by apply least_least, edits_rev. }
  split; [apply Hl|]. unfold FuzzyTokenMatch. destruct (Hl (stringsToLower unicode term) token) as (n & E & Hn & Hmin). case_bool_decide as Ht; [by split; [left|]|].
  rewrite !andb_true_iff, N.ltb_lt, N.leb_le, Z.leb_le, E. split.
  - intros [[H1 H2] H3]. right. split; [done|]. split; [done|]. exists n. split; [done|lia].
  - intros [?|(H1 & H2 & m & Hm & H3)]; [done|]. specialize (Hmin m Hm). split; [done|lia].
Qed.

(** ** Stems *)

(** C36. The English analyzer never goes out of range of a word, whatever the text: every
    token has one stem, not empty, no longer than the token, and the token itself unless
    it is three or more lowercase ASCII letters, when the stem is letters too. The analyzer
    returns the stems exactly when the tokens and the scratch space of the longest one are
    within the limit. *)
Theorem stems_in_range unicode limit text : exists stems,
  Forall2 (fun token stem => StemEnglishPorter token = Some stem /\ stem <> [] /\ (length stem <= length token)%nat /\
    (if (length token <? 3)%nat || negb (porterASCIIWord token) then stem = token else porterASCIIWord stem = true)) (TokenizeContext unicode text) stems /\
  AnalyzeEnglishPorterWithLimit unicode limit text =
    Some (if tokenizationLogicalBytes unicode text + scratchFor (TokenizeContext unicode text) <=? limit then inl stems else inr ErrTokenizationLimit).
Proof.
  destruct (stemTokens_exact (tokenizationLogicalBytes unicode text) limit (TokenizeContext unicode text) 0) as (stems & Hs & E). exists stems. split.
  - assert (Hne : Forall (fun token => token <> []) (TokenizeContext unicode text)).
    { rewrite TokenizeContext_words. apply List.Forall_map. eapply Forall_impl; [apply words_nonempty|]. intros w Hw. cbn. by rewrite lowered_nil. }
    revert Hne. generalize (TokenizeContext unicode text), Hs. clear. intros tokens. induction 1 as [|token stem tokens stems Hst _ IH]; intros Hne; [constructor|]. apply Forall_cons in Hne as [Hn Hne]. constructor; [|by apply IH].
    destruct (stem_ok token) as (stem' & E & H1 & H2 & H3). rewrite Hst in E. injection E as <-. split_and!; [done|by apply H2|done|]. destruct (_ || _); [done|by apply ascii_letters].
  - unfold AnalyzeEnglishPorterWithLimit, TokenizeContextWithLimit. destruct (N.ltb_spec limit (tokenizationLogicalBytes unicode text)) as [Hlt|Hge]; [by rewrite (proj2 (N.leb_gt _ _)) by lia|].
    rewrite N.max_0_l in E. rewrite E. destruct (TokenizeContext unicode text) as [|t ts]; [|done]. apply Forall2_nil_inv_l in Hs as ->. cbn [scratchFor map foldr]. by rewrite (proj2 (N.leb_le _ _)) by (cbn; lia).
Qed.
