(* ===== verification/GraphTx.v ===== *)
(** * Write transactions on the graph (internal/engine/db.go, app_metadata.go, compat.go)

    The calls of a write transaction: nodes, edges, properties, labels of new nodes,
    full-text records, metadata and streams, with the set of changes the commit will log.

    Records are shared: the graph a transaction forked and its own graph hold pointers to
    them, and a transaction copies a record before its first write to it. So a record is
    a location in a heap, and the tables of a graph map identifiers to locations; whether
    a record is the transaction's own is the comparison of locations the code makes. The
    paged maps themselves are the finite maps they stand for.

    [deleted] is the overlay of removed identifiers that graphs over pages on disk need
    and graphs in memory keep as well. The base graph of a write transaction is never
    nil; contexts are never cancelled; a write to a nil map is [Panicked]. *)
From S2P Require Import Prelude.
From S2P Require Import GoBytes.
From S2P Require Import BinaryCodec.
From S2P Require Import BinaryValue.
From S2P Require Import BinaryRecords.
From S2P Require Import GoMaps.
From S2P Require Import Values.
From S2P Require Import Properties.
From S2P Require Import PageRecords.
From S2P Require Import Streams.
From S2P Require Import StreamPersist.
From S2P Require Import StreamTx.
From S2P Require Import PropertyDelta.
From S2P Require Import WalAccumulator.
From S2P Require Import Adjacency.
From S2P Require Import StringPostings.
From S2P Require Import Search.
From Stdlib Require Strings.String.
Import String.StringSyntax.

(** ** The database behind the transaction *)

(** The fields of [DB] the calls read and write; [db_diskNodeID] and [db_diskEdgeID] are
    the marks of the identifier file. *)
Record Database := mkDatabase {
  db_memory : bool;
  db_enableVector : bool;
  db_vectorDimensions : N;
  db_derivedIndexBuildMaxWork : N;
  db_derivedIndexBuildMaxLogicalBytes : N;
  db_nextNodeID : N; db_reservedNodeID : N;
  db_nextEdgeID : N; db_reservedEdgeID : N;
  db_recoveryRequired : bool;
  db_diskNodeID : N; db_diskEdgeID : N }.

Definition idReservationBlock : N := 1024.
Definition reserveIDBlock (next : N) : N := if MaxEntityID - idReservationBlock <=? next then EntityIDExhausted else next + idReservationBlock.

(** What writing the identifier file does when it is asked to: nothing goes wrong, or an
    error with the file written or not. *)
Definition reserveFault : Type := option (error * bool).

Definition withDisk (db : Database) (node edge : N) : Database :=
  mkDatabase (db_memory db) (db_enableVector db) (db_vectorDimensions db) (db_derivedIndexBuildMaxWork db) (db_derivedIndexBuildMaxLogicalBytes db)
    (db_nextNodeID db) (db_reservedNodeID db) (db_nextEdgeID db) (db_reservedEdgeID db) (db_recoveryRequired db) node edge.
Definition withNodeIDs (db : Database) (next reserved : N) : Database :=
  mkDatabase (db_memory db) (db_enableVector db) (db_vectorDimensions db) (db_derivedIndexBuildMaxWork db) (db_derivedIndexBuildMaxLogicalBytes db)
    next reserved (db_nextEdgeID db) (db_reservedEdgeID db) (db_recoveryRequired db) (db_diskNodeID db) (db_diskEdgeID db).
Definition withEdgeIDs (db : Database) (next reserved : N) : Database :=
  mkDatabase (db_memory db) (db_enableVector db) (db_vectorDimensions db) (db_derivedIndexBuildMaxWork db) (db_derivedIndexBuildMaxLogicalBytes db)
    (db_nextNodeID db) (db_reservedNodeID db) next reserved (db_recoveryRequired db) (db_diskNodeID db) (db_diskEdgeID db).
Definition needRecovery (db : Database) : Database :=
  mkDatabase (db_memory db) (db_enableVector db) (db_vectorDimensions db) (db_derivedIndexBuildMaxWork db) (db_derivedIndexBuildMaxLogicalBytes db)
    (db_nextNodeID db) (db_reservedNodeID db) (db_nextEdgeID db) (db_reservedEdgeID db) true (db_diskNodeID db) (db_diskEdgeID db).

Definition reserveIDsToDisk (db : Database) (fault : reserveFault) (node edge : N) : option error * Database :=
  if db_memory db then (None, db)
  else match fault with
       | None => (None, withDisk db node edge)
       | Some (err, written) => (Some err, if written then withDisk db node edge else db)
       end.

Definition allocateNodeID (fault : reserveFault) (db : Database) : (N + error) * Database :=
  if EntityIDExhausted <=? db_nextNodeID db then (inr (ErrNew "node id space exhausted"%string), db)
  else if db_nextNodeID db <? db_reservedNodeID db then (inl (db_nextNodeID db), withNodeIDs db (db_nextNodeID db + 1) (db_reservedNodeID db))
  else
    let reserved := reserveIDBlock (db_nextNodeID db) in
    match reserveIDsToDisk db fault reserved (db_reservedEdgeID db) with
    | (Some err, db) => (inr err, needRecovery db)
    | (None, db) => (inl (db_nextNodeID db), withNodeIDs db (db_nextNodeID db + 1) reserved)
    end.

Definition allocateEdgeID (fault : reserveFault) (db : Database) : (N + error) * Database :=
  if EntityIDExhausted <=? db_nextEdgeID db then (inr (ErrNew "edge id space exhausted"%string), db)
  else if db_nextEdgeID db <? db_reservedEdgeID db then (inl (db_nextEdgeID db), withEdgeIDs db (db_nextEdgeID db + 1) (db_reservedEdgeID db))
  else
    let reserved := reserveIDBlock (db_nextEdgeID db) in
    match reserveIDsToDisk db fault (db_reservedNodeID db) reserved with
    | (Some err, db) => (inr err, needRecovery db)
    | (None, db) => (inl (db_nextEdgeID db), withEdgeIDs db (db_nextEdgeID db + 1) reserved)
    end.

(** ** Tables of records, and what a transaction keeps for each of them *)

Record table := mkTable { refs : gmap N nat; deleted : gset N }.
#[global] Instance table_inhabited : Inhabited table := populate (mkTable ∅ ∅).

(** Nodes, or edges: the records, the table of the base graph and of the transaction's
    graph, and the three fields of the change set. *)
Record side (A : Type) := mkSide {
  sd_heap : list A;
  sd_base : table; sd_live : table;
  sd_upserts : gset N; sd_deletes : gset N;
  sd_keys : gmap N (slice gostring) }.
Arguments mkSide {A}. Arguments sd_heap {A}. Arguments sd_base {A}. Arguments sd_live {A}.
Arguments sd_upserts {A}. Arguments sd_deletes {A}. Arguments sd_keys {A}.

Section sides.
Context {A : Type}.
Implicit Types s : side A.

(** [ReadNode] and [ReadEdge] of a graph in memory, with the location. *)
Definition readRef (t : table) (id : N) : option nat := if bool_decide (id ∈ deleted t) then None else refs t !! id.
Definition readRecord s (id : N) : option A := readRef (sd_live s) id ≫= fun l => sd_heap s !! l.
(** [HasRecord] *)
Definition hasRecord (t : table) (id : N) : bool := bool_decide (is_Some (readRef t id)).

Definition markUpsert s (id : N) : side A :=
  mkSide (sd_heap s) (sd_base s) (sd_live s) ({[id]} ∪ sd_upserts s) (sd_deletes s ∖ {[id]}) (sd_keys s).
Definition markDelete s (existed : bool) (id : N) : side A :=
  mkSide (sd_heap s) (sd_base s) (sd_live s) (sd_upserts s ∖ {[id]})
    (if existed then {[id]} ∪ sd_deletes s else sd_deletes s) (sd_keys s).

(** [Nodes.Set(id, record)] with a new record. *)
Definition setRecord s (id : N) (r : A) : side A :=
  mkSide (sd_heap s ++ [r]) (sd_base s) (mkTable (<[id := length (sd_heap s)]> (refs (sd_live s))) (deleted (sd_live s)))
    (sd_upserts s) (sd_deletes s) (sd_keys s).
(** [Nodes.Delete(id)] and the mark in the overlay. *)
Definition dropRecord s (id : N) : side A :=
  mkSide (sd_heap s) (sd_base s) (mkTable (delete id (refs (sd_live s))) ({[id]} ∪ deleted (sd_live s)))
    (sd_upserts s) (sd_deletes s) (sd_keys s).
(** A write through the pointer at [l]. *)
Definition writeThrough s (l : nat) (f : A -> A) : side A :=
  mkSide (alter f l (sd_heap s)) (sd_base s) (sd_live s) (sd_upserts s) (sd_deletes s) (sd_keys s).

Definition setKeys s (keys : gmap N (slice gostring)) : side A :=
  mkSide (sd_heap s) (sd_base s) (sd_live s) (sd_upserts s) (sd_deletes s) keys.

Definition maxTrackedPropertyKeys : nat := 64.

(** [trackNodeProperty] and [trackEdgeProperty]; the keys of an entity are nil once they
    are no longer known. *)
Definition trackProperty s (id : N) (key : gostring) : side A :=
  if negb (bool_decide (is_Some (refs (sd_base s) !! id))) then s
  else
    let tracked := match sd_keys s !! id with Some keys => keys | None => Some [] end in
    let stored := match sd_keys s !! id with Some _ => sd_keys s | None => <[id := Some []]> (sd_keys s) end in
    match tracked with
    | Some keys =>
        if bool_decide (key ∈ keys) then setKeys s stored
        else if (maxTrackedPropertyKeys <=? length keys)%nat then setKeys s (<[id := None]> stored)
        else setKeys s (<[id := Some (keys ++ [key])]> stored)
    | None => setKeys s stored
    end.

Definition markPropertyFallback s (id : N) : side A :=
  if negb (bool_decide (is_Some (refs (sd_base s) !! id))) then s else setKeys s (<[id := None]> (sd_keys s)).

(** [writableNode] and [writableEdge] behind [requireNode] and [requireEdge]: the record
    at [l] is copied when it is still the record of the base graph. *)
Definition writableRecord s (id : N) (l : nat) (propertiesOnly : bool) : nat * side A :=
  let live := refs (sd_live s) !! id in
  let '(l, s) :=
    if bool_decide (live = None) || bool_decide (live = refs (sd_base s) !! id) then
      match sd_heap s !! l with
      | Some r => (length (sd_heap s), markUpsert (setRecord s id r) id)
      | None => (l, s)
      end
    else (l, s) in
  (l, if propertiesOnly then s else markPropertyFallback s id).

(** [propertyKeyDeltas], after [mapKeys] of the upserts. *)
Definition propertyKeyDeltas (upserts : gset N) (tracked : gmap N (slice gostring)) : gmap N (list gostring) :=
  if bool_decide (upserts = ∅) || bool_decide (tracked = ∅) then ∅
  else
    let kept := filter (fun kv : N * slice gostring => elems kv.2 = [] \/ kv.1 ∈ upserts) tracked in
    sortKeys ∘ elems <$> kept.
End sides.

(** ** The transaction *)

Record FTSRecord := mkFTS { fts_Text : gostring; fts_Tokens : list gostring }.

Record ftsTable := mkFTSTable { fts_rows : gmap N FTSRecord; fts_deleted : gset N }.

Record appMetadataChange := mkAppChange { ac_value : slice byte; ac_delete : bool }.

(** [tx.queryBudget] of a call made for a query. *)
Record queryBudget := mkQueryBudget { qb_maxWork : N; qb_work : N; qb_maxBytes : N; qb_bytes : N }.

Record WriteTx := mkWriteTx {
  w_call : Tx;
  w_db : Database;
  w_nodes : side NodeRecord;
  w_edges : side EdgeRecord;
  w_ftsBase : ftsTable; w_fts : ftsTable;
  w_upsertFTS : gset N; w_deleteFTS : gset N;
  w_Labels : StringPostings; w_EdgeTypes : StringPostings; w_FTSTokens : StringPostings;
  w_Outgoing : gmap N EdgeList; w_Incoming : gmap N EdgeList;
  w_AppMetadata : gmap gostring (slice byte);
  w_appMetadata : option (gmap gostring appMetadataChange);
  w_budget : option queryBudget }.

Definition withCall (tx : WriteTx) (c : Tx) : WriteTx :=
  mkWriteTx c (w_db tx) (w_nodes tx) (w_edges tx) (w_ftsBase tx) (w_fts tx) (w_upsertFTS tx) (w_deleteFTS tx) (w_Labels tx) (w_EdgeTypes tx)
    (w_FTSTokens tx) (w_Outgoing tx) (w_Incoming tx) (w_AppMetadata tx) (w_appMetadata tx) (w_budget tx).
Definition withDB (tx : WriteTx) (db : Database) : WriteTx :=
  mkWriteTx (w_call tx) db (w_nodes tx) (w_edges tx) (w_ftsBase tx) (w_fts tx) (w_upsertFTS tx) (w_deleteFTS tx) (w_Labels tx) (w_EdgeTypes tx)
    (w_FTSTokens tx) (w_Outgoing tx) (w_Incoming tx) (w_AppMetadata tx) (w_appMetadata tx) (w_budget tx).
Definition withNodes (tx : WriteTx) (nodes : side NodeRecord) : WriteTx :=
  mkWriteTx (w_call tx) (w_db tx) nodes (w_edges tx) (w_ftsBase tx) (w_fts tx) (w_upsertFTS tx) (w_deleteFTS tx) (w_Labels tx) (w_EdgeTypes tx)
    (w_FTSTokens tx) (w_Outgoing tx) (w_Incoming tx) (w_AppMetadata tx) (w_appMetadata tx) (w_budget tx).
Definition withEdges (tx : WriteTx) (edges : side EdgeRecord) : WriteTx :=
  mkWriteTx (w_call tx) (w_db tx) (w_nodes tx) edges (w_ftsBase tx) (w_fts tx) (w_upsertFTS tx) (w_deleteFTS tx) (w_Labels tx) (w_EdgeTypes tx)
    (w_FTSTokens tx) (w_Outgoing tx) (w_Incoming tx) (w_AppMetadata tx) (w_appMetadata tx) (w_budget tx).
Definition withFTS (tx : WriteTx) (fts : ftsTable) (upserts deletes : gset N) : WriteTx :=
  mkWriteTx (w_call tx) (w_db tx) (w_nodes tx) (w_edges tx) (w_ftsBase tx) fts upserts deletes (w_Labels tx) (w_EdgeTypes tx)
    (w_FTSTokens tx) (w_Outgoing tx) (w_Incoming tx) (w_AppMetadata tx) (w_appMetadata tx) (w_budget tx).
Definition withLabels (tx : WriteTx) (p : StringPostings) : WriteTx :=
  mkWriteTx (w_call tx) (w_db tx) (w_nodes tx) (w_edges tx) (w_ftsBase tx) (w_fts tx) (w_upsertFTS tx) (w_deleteFTS tx) p (w_EdgeTypes tx)
    (w_FTSTokens tx) (w_Outgoing tx) (w_Incoming tx) (w_AppMetadata tx) (w_appMetadata tx) (w_budget tx).
Definition withEdgeTypes (tx : WriteTx) (p : StringPostings) : WriteTx :=
  mkWriteTx (w_call tx) (w_db tx) (w_nodes tx) (w_edges tx) (w_ftsBase tx) (w_fts tx) (w_upsertFTS tx) (w_deleteFTS tx) (w_Labels tx) p
    (w_FTSTokens tx) (w_Outgoing tx) (w_Incoming tx) (w_AppMetadata tx) (w_appMetadata tx) (w_budget tx).
Definition withFTSTokens (tx : WriteTx) (p : StringPostings) : WriteTx :=
  mkWriteTx (w_call tx) (w_db tx) (w_nodes tx) (w_edges tx) (w_ftsBase tx) (w_fts tx) (w_upsertFTS tx) (w_deleteFTS tx) (w_Labels tx) (w_EdgeTypes tx)
    p (w_Outgoing tx) (w_Incoming tx) (w_AppMetadata tx) (w_appMetadata tx) (w_budget tx).
Definition withOutgoing (tx : WriteTx) (m : gmap N EdgeList) : WriteTx :=
  mkWriteTx (w_call tx) (w_db tx) (w_nodes tx) (w_edges tx) (w_ftsBase tx) (w_fts tx) (w_upsertFTS tx) (w_deleteFTS tx) (w_Labels tx) (w_EdgeTypes tx)
    (w_FTSTokens tx) m (w_Incoming tx) (w_AppMetadata tx) (w_appMetadata tx) (w_budget tx).
Definition withIncoming (tx : WriteTx) (m : gmap N EdgeList) : WriteTx :=
  mkWriteTx (w_call tx) (w_db tx) (w_nodes tx) (w_edges tx) (w_ftsBase tx) (w_fts tx) (w_upsertFTS tx) (w_deleteFTS tx) (w_Labels tx) (w_EdgeTypes tx)
    (w_FTSTokens tx) (w_Outgoing tx) m (w_AppMetadata tx) (w_appMetadata tx) (w_budget tx).
Definition withMetadata (tx : WriteTx) (m : gmap gostring (slice byte)) (changes : option (gmap gostring appMetadataChange)) : WriteTx :=
  mkWriteTx (w_call tx) (w_db tx) (w_nodes tx) (w_edges tx) (w_ftsBase tx) (w_fts tx) (w_upsertFTS tx) (w_deleteFTS tx) (w_Labels tx) (w_EdgeTypes tx)
    (w_FTSTokens tx) (w_Outgoing tx) (w_Incoming tx) m changes (w_budget tx).
Definition withBudget (tx : WriteTx) (b : option queryBudget) : WriteTx :=
  mkWriteTx (w_call tx) (w_db tx) (w_nodes tx) (w_edges tx) (w_ftsBase tx) (w_fts tx) (w_upsertFTS tx) (w_deleteFTS tx) (w_Labels tx) (w_EdgeTypes tx)
    (w_FTSTokens tx) (w_Outgoing tx) (w_Incoming tx) (w_AppMetadata tx) (w_appMetadata tx) b.

(** ** Calls that change the transaction, and may fail half way *)

Inductive outcome (A : Type) := Done (x : A) | Failed (err : error) | Panicked.
Arguments Done {A}. Arguments Failed {A}. Arguments Panicked {A}.

Definition act (A : Type) : Type := WriteTx -> outcome A * WriteTx.
Definition aret {A} (x : A) : act A := fun tx => (Done x, tx).
Definition afail {A} (err : error) : act A := fun tx => (Failed err, tx).
Definition abind {A B} (m : act A) (k : A -> act B) : act B := fun tx =>
  match m tx with
  | (Done x, tx) => k x tx
  | (Failed err, tx) => (Failed err, tx)
  | (Panicked, tx) => (Panicked, tx)
  end.
Notation "'let*' x := m 'in' k" := (abind m (fun x => k)) (at level 200, x binder, m at level 100, k at level 200) : go_scope.
Notation "m ;* k" := (abind m (fun _ => k)) (at level 199, right associativity) : go_scope.
#[local] Open Scope go_scope.

Definition gets {A} (f : WriteTx -> A) : act A := fun tx => (Done (f tx), tx).
Definition modify (f : WriteTx -> WriteTx) : act unit := fun tx => (Done tt, f tx).
Definition guard (check : option error) : act unit := match check with Some err => afail err | None => aret tt end.
Definition ofSum {A} (r : A + error) : act A := match r with inl x => aret x | inr err => afail err end.
(** A call that updates part of the transaction, or panics on a nil map. *)
Definition updating {B} (get : WriteTx -> B) (put : WriteTx -> B -> WriteTx) (f : B -> option B) : act unit := fun tx =>
  match f (get tx) with Some b => (Done tt, put tx b) | None => (Panicked, tx) end.
Fixpoint forEach {A} (f : A -> act unit) (l : list A) : act unit :=
  match l with [] => aret tt | x :: l => f x ;* forEach f l end.

Definition errResourceLimit (what : string) : error := ErrWrap (str "resource limit exceeded"%string) (ErrNew what).
Arguments errResourceLimit what%_string.

(** [budget.check(work, 0)], and the byte counters; [None] is a nil budget. *)
Definition budgetCheck (work : N) : act unit := fun tx =>
  match w_budget tx with
  | None => (Done tt, tx)
  | Some b =>
      if qb_maxWork b - qb_work b <? work then (Failed (errResourceLimit "query work"), tx)
      else (Done tt, withBudget tx (Some (mkQueryBudget (qb_maxWork b) (qb_work b + work) (qb_maxBytes b) (qb_bytes b))))
  end.
Definition chargeTemporary (bytes : N) : act unit := fun tx =>
  match w_budget tx with
  | None => (Done tt, tx)
  | Some b =>
      if qb_maxBytes b - N.min (qb_bytes b) (qb_maxBytes b) <? bytes then (Failed (errResourceLimit "query temporary bytes"), tx)
      else (Done tt, withBudget tx (Some (mkQueryBudget (qb_maxWork b) (qb_work b) (qb_maxBytes b) (qb_bytes b + bytes))))
  end.

Section transaction.
Context `{MapOrder unit} `{MapOrder (list N)}.

Definition addLabel (label : gostring) (id : N) : act unit := updating w_Labels withLabels (fun p => postingsAdd p label id).
Definition removeLabelPosting (label : gostring) (id : N) : act unit := updating w_Labels withLabels (fun p => postingsRemove p label id).
Definition addEdgeType (edgeType : gostring) (id : N) : act unit := updating w_EdgeTypes withEdgeTypes (fun p => postingsAdd p edgeType id).
Definition removeEdgeType (edgeType : gostring) (id : N) : act unit := updating w_EdgeTypes withEdgeTypes (fun p => postingsRemove p edgeType id).
Definition addToken (token : gostring) (id : N) : act unit := updating w_FTSTokens withFTSTokens (fun p => postingsAdd p token id).
Definition removeToken (token : gostring) (id : N) : act unit := updating w_FTSTokens withFTSTokens (fun p => postingsRemove p token id).

Definition onNodes (f : side NodeRecord -> side NodeRecord) : act unit := modify (fun tx => withNodes tx (f (w_nodes tx))).
Definition onEdges (f : side EdgeRecord -> side EdgeRecord) : act unit := modify (fun tx => withEdges tx (f (w_edges tx))).

Definition writableTx : act unit := fun tx => guard (ensureWritable (w_call tx)) tx.
Definition activeTx : act unit := fun tx => guard (if tx_closed (w_call tx) then Some ErrInactiveTx else None) tx.

Definition validateEntityID (id : N) : option error :=
  match ValidateEntityID id with Some err => Some (invalidArgument err) | None => None end.

Definition readLocated {A} (s : side A) (id : N) : option (nat * A) := readRef (sd_live s) id ≫= fun l => pair l <$> sd_heap s !! l.

Definition requireNode (nodeID : N) : act (nat * NodeRecord) :=
  activeTx ;*
  guard (validateEntityID nodeID) ;*
  let* nodes := gets w_nodes in
  match readLocated nodes nodeID with
  | None => afail (ErrNew "node not found"%string)
  | Some found => aret found
  end.

Definition requireEdge (edgeID : N) : act (nat * EdgeRecord) :=
  activeTx ;*
  guard (validateEntityID edgeID) ;*
  let* edges := gets w_edges in
  match readLocated edges edgeID with
  | None => afail (ErrNew "edge not found"%string)
  | Some found => aret found
  end.

(** The location the caller may write through. *)
Definition writableNode (nodeID : N) (propertiesOnly : bool) : act nat :=
  let* found := requireNode nodeID in
  let* nodes := gets w_nodes in
  let '(l, nodes) := writableRecord nodes nodeID found.1 propertiesOnly in
  modify (fun tx => withNodes tx nodes) ;*
  aret l.
Definition writableEdge (edgeID : N) (propertiesOnly : bool) : act nat :=
  let* found := requireEdge edgeID in
  let* edges := gets w_edges in
  let '(l, edges) := writableRecord edges edgeID found.1 propertiesOnly in
  modify (fun tx => withEdges tx edges) ;*
  aret l.

Definition setNodeProperties (f : Properties -> Properties) (n : NodeRecord) : NodeRecord := mkNode (n_ID n) (n_Labels n) (f (n_Properties n)).
Definition setNodeLabels (labels : slice gostring) (n : NodeRecord) : NodeRecord := mkNode (n_ID n) labels (n_Properties n).
Definition setEdgeProperties (f : Properties -> Properties) (e : EdgeRecord) : EdgeRecord :=
  mkEdge (e_ID e) (e_SourceID e) (e_TargetID e) (e_Type e) (f (e_Properties e)).

(** ** Nodes *)

Definition isVector (v : value) : bool := match v with VVector _ => true | _ => false end.
Definition vectorLength (v : value) : N := match v with VVector (Some l) => nlen l | _ => 0 end.
Definition errDimensions : error := ErrNew "vector length does not match configured dimensions"%string.

(** At most one vector property. *)
Definition validateVectorProperties (props : Properties) : option error :=
  if (1 <? length (List.filter (fun kv => isVector kv.2) (PAll props)))%nat then Some (ErrNew "multiple vector properties"%string) else None.
Definition validateVectorPropertyUpdate (node : NodeRecord) (key : gostring) (v : value) : option error :=
  validateVectorProperties (PSet (n_Properties node) key v).

(** [vectorDimensions > 0 && len(vector) != vectorDimensions] *)
Definition wrongDimensions (db : Database) (v : value) : bool :=
  isVector v && (0 <? db_vectorDimensions db) && negb (vectorLength v =? db_vectorDimensions db).

Record CreateNodeOptions := mkNodeOptions { no_Labels : slice gostring; no_Properties : list (gostring * value) }.

Record publicNodeView := mkPublicNode { pub_ID : N; pub_Labels : slice gostring; pub_Properties : list (gostring * value) }.
Definition publicNode (n : NodeRecord) : publicNodeView := mkPublicNode (n_ID n) (n_Labels n) (CloneMap (n_Properties n)).
Record publicEdgeView := mkPublicEdge { pube_ID : N; pube_SourceID : N; pube_TargetID : N; pube_Type : gostring; pube_Properties : list (gostring * value) }.
Definition publicEdge (e : EdgeRecord) : publicEdgeView := mkPublicEdge (e_ID e) (e_SourceID e) (e_TargetID e) (e_Type e) (CloneMap (e_Properties e)).

Definition InternStrings (values : slice gostring) : slice gostring := map InternString <$> values.

Definition checkNewVectors (props : Properties) : act unit :=
  let* db := gets w_db in
  if db_enableVector db then
    guard (validateVectorProperties props) ;*
    guard (if existsb (fun kv => wrongDimensions db kv.2) (PAll props) then Some errDimensions else None)
  else aret tt.

Definition allocatingNode (fault : reserveFault) : act N := fun tx =>
  let '(r, db) := allocateNodeID fault (w_db tx) in ofSum r (withDB tx db).
Definition allocatingEdge (fault : reserveFault) : act N := fun tx =>
  let '(r, db) := allocateEdgeID fault (w_db tx) in ofSum r (withDB tx db).

Definition CreateNode (fault : reserveFault) (opts : CreateNodeOptions) : act publicNodeView :=
  writableTx ;*
  guard (ValidateCreateLabels (no_Labels opts)) ;*
  let* props := ofSum (NormalizePropertyStorage (no_Properties opts)) in
  checkNewVectors props ;*
  let* id := allocatingNode fault in
  let record := mkNode id (InternStrings (no_Labels opts)) props in
  onNodes (fun s => setRecord s id record) ;*
  forEach (fun label => addLabel label id) (elems (n_Labels record)) ;*
  onNodes (fun s => markUpsert s id) ;*
  aret (publicNode record).

Definition NodeExists (nodeID : N) : act bool :=
  activeTx ;*
  guard (validateEntityID nodeID) ;*
  gets (fun tx => bool_decide (is_Some (readRecord (w_nodes tx) nodeID))).

Definition GetNodeValue (nodeID : N) : act (option publicNodeView) :=
  activeTx ;*
  guard (validateEntityID nodeID) ;*
  gets (fun tx => publicNode <$> readRecord (w_nodes tx) nodeID).

Definition SetProperty (nodeID : N) (key : gostring) (v : value) : act unit :=
  writableTx ;*
  guard (ValidatePropertyKey key) ;*
  let* l := writableNode nodeID true in
  let* normalized := ofSum (NormalizeValue v) in
  let* db := gets w_db in
  guard (if db_enableVector db && wrongDimensions db normalized then Some errDimensions else None) ;*
  let* nodes := gets w_nodes in
  guard (match sd_heap nodes !! l with
         | Some node => if db_enableVector db then validateVectorPropertyUpdate node key normalized else None
         | None => None
         end) ;*
  onNodes (fun s => trackProperty (writeThrough s l (setNodeProperties (fun p => PSet p key normalized))) nodeID key).

Definition GetProperty (nodeID : N) (key : gostring) : act (option value) :=
  let* found := requireNode nodeID in
  aret (CloneValue <$> Lookup (n_Properties found.2) key).

Definition SetVector (nodeID : N) (key : gostring) (vector : slice N) : act unit :=
  writableTx ;*
  let* db := gets w_db in
  guard (if db_enableVector db then None else Some (ErrNew "vector support is disabled"%string)) ;*
  guard (ValidatePropertyKey key) ;*
  guard (if (0 <? db_vectorDimensions db) && negb (slen vector =? db_vectorDimensions db) then Some errDimensions else None) ;*
  let* l := writableNode nodeID true in
  let* normalized := ofSum (NormalizeValue (VVector vector)) in
  let* nodes := gets w_nodes in
  guard (match sd_heap nodes !! l with Some node => validateVectorPropertyUpdate node key normalized | None => None end) ;*
  onNodes (fun s => trackProperty (writeThrough s l (setNodeProperties (fun p => PSet p key normalized))) nodeID key).

(** One node for each vector. *)
Fixpoint insertVectors (faults : list reserveFault) (label : gostring) (ids : list N) (i : nat) (vectors : list (slice N)) : act (list N) :=
  match vectors with
  | [] => aret ids
  | vector :: vectors =>
      let* node := CreateNode (default None (faults !! i)) (mkNodeOptions (Some [label]) []) in
      SetVector (pub_ID node) (str "vector"%string) vector ;*
      insertVectors faults label (ids ++ [pub_ID node]) (S i) vectors
  end.

Definition BatchInsertVectors (faults : list reserveFault) (label : gostring) (vectors : list (slice N)) : act (list N) :=
  writableTx ;*
  guard (ValidateCreateLabels (Some [label])) ;*
  let* db := gets w_db in
  guard (if db_enableVector db then None else Some (ErrNew "vector support is disabled"%string)) ;*
  forEach (fun vector =>
    guard (if (0 <? db_vectorDimensions db) && negb (slen vector =? db_vectorDimensions db) then Some errDimensions else None) ;*
    ofSum (NormalizeValue (VVector vector)) ;*
    aret tt) vectors ;*
  insertVectors faults label [] 0 vectors.

(** ** Edges *)

Definition CreateEdge (fault : reserveFault) (sourceID targetID : N) (edgeType : gostring) (properties : list (gostring * value)) : act publicEdgeView :=
  writableTx ;*
  guard (ValidateEdgeType edgeType) ;*
  requireNode sourceID ;*
  requireNode targetID ;*
  let* props := ofSum (NormalizePropertyStorage properties) in
  let* id := allocatingEdge fault in
  let record := mkEdge id sourceID targetID (InternString edgeType) props in
  onEdges (fun s => setRecord s id record) ;*
  addEdgeType edgeType id ;*
  onEdges (fun s => markUpsert s id) ;*
  modify (fun tx => withOutgoing tx (<[sourceID := Append (w_Outgoing tx !! sourceID) id]> (w_Outgoing tx))) ;*
  modify (fun tx => withIncoming tx (<[targetID := Append (w_Incoming tx !! targetID) id]> (w_Incoming tx))) ;*
  aret (publicEdge record).

Definition GetEdgeProperty (edgeID : N) (key : gostring) : act (option value) :=
  let* found := requireEdge edgeID in
  aret (CloneValue <$> Lookup (e_Properties found.2) key).

Definition SetEdgeProperty (edgeID : N) (key : gostring) (v : value) : act unit :=
  writableTx ;*
  guard (ValidatePropertyKey key) ;*
  let* l := writableEdge edgeID true in
  let* normalized := ofSum (NormalizeValue v) in
  onEdges (fun s => trackProperty (writeThrough s l (setEdgeProperties (fun p => PSet p key normalized))) edgeID key).

Definition RemoveEdgeProperty (edgeID : N) (key : gostring) : act unit :=
  writableTx ;*
  guard (ValidatePropertyKey key) ;*
  let* l := writableEdge edgeID true in
  onEdges (fun s => trackProperty (writeThrough s l (setEdgeProperties (fun p => PDelete p key))) edgeID key).

(** The edges a visit of a list yields; an edge that is gone is skipped. *)
Definition listedEdges (tx : WriteTx) (el : option EdgeList) : list EdgeRecord := omap (readRecord (w_edges tx)) (EdgeAll el).

Definition GetOutgoingEdges (nodeID : N) : act (list publicEdgeView) :=
  requireNode nodeID ;*
  gets (fun tx => publicEdge <$> listedEdges tx (w_Outgoing tx !! nodeID)).
Definition GetIncomingEdges (nodeID : N) : act (list publicEdgeView) :=
  requireNode nodeID ;*
  gets (fun tx => publicEdge <$> listedEdges tx (w_Incoming tx !! nodeID)).

(** [edgesByTypeView]: the visit ends once [limit] edges are found; no limit is zero. *)
Fixpoint edgesByTypeView (edgeType : gostring) (limit : N) (results : list publicEdgeView) (edges : list EdgeRecord) : list publicEdgeView :=
  match edges with
  | [] => results
  | e :: edges =>
      if bool_decide (e_Type e = edgeType) then
        let results := results ++ [publicEdge e] in
        if negb (limit =? 0) && (nlen results =? limit) then results else edgesByTypeView edgeType limit results edges
      else edgesByTypeView edgeType limit results edges
  end.
Definition GetOutgoingEdgesByType (nodeID : N) (edgeType : gostring) (limit : N) : act (list publicEdgeView) :=
  requireNode nodeID ;*
  gets (fun tx => edgesByTypeView edgeType limit [] (listedEdges tx (w_Outgoing tx !! nodeID))).
Definition GetIncomingEdgesByType (nodeID : N) (edgeType : gostring) (limit : N) : act (list publicEdgeView) :=
  requireNode nodeID ;*
  gets (fun tx => edgesByTypeView edgeType limit [] (listedEdges tx (w_Incoming tx !! nodeID))).

(** A list that lost its last edge is removed from the map. *)
Definition storeList (m : gmap N EdgeList) (nodeID : N) (list : option EdgeList) : gmap N EdgeList :=
  if (EdgeLen list =? 0)%Z then delete nodeID m else match list with Some l => <[nodeID := l]> m | None => delete nodeID m end.

(** [Edges.Delete], the overlay, the type posting and the mark, for an edge that exists. *)
Definition dropEdge (edge : EdgeRecord) (edgeID : N) : act unit :=
  let* existed := gets (fun tx => hasRecord (sd_base (w_edges tx)) edgeID) in
  onEdges (fun s => dropRecord s edgeID) ;*
  removeEdgeType (e_Type edge) edgeID ;*
  onEdges (fun s => markDelete s existed edgeID).

Definition deleteEdgeTx (edgeID : N) : act unit :=
  let* found := gets (fun tx => readRecord (w_edges tx) edgeID) in
  match found with
  | None => aret tt
  | Some edge =>
      dropEdge edge edgeID ;*
      modify (fun tx => withOutgoing tx (storeList (w_Outgoing tx) (e_SourceID edge) (RemoveKnown (w_Outgoing tx !! e_SourceID edge) edgeID))) ;*
      modify (fun tx => withIncoming tx (storeList (w_Incoming tx) (e_TargetID edge) (RemoveKnown (w_Incoming tx !! e_TargetID edge) edgeID)))
  end.

(** The first edge of the source with the target and type. *)
Definition matchingEdge (targetID : N) (edgeType : gostring) (e : EdgeRecord) : bool :=
  (e_TargetID e =? targetID) && bool_decide (e_Type e = edgeType).
Definition DeleteEdge (sourceID targetID : N) (edgeType : gostring) : act unit :=
  writableTx ;*
  requireNode sourceID ;*
  requireNode targetID ;*
  let* match_ := gets (fun tx => List.find (fun id => match readRecord (w_edges tx) id with Some e => matchingEdge targetID edgeType e | None => false end)
                                   (EdgeAll (w_Outgoing tx !! sourceID))) in
  match match_ with
  | Some edgeID => if edgeID =? 0 then afail (ErrNew "edge not found"%string) else deleteEdgeTx edgeID
  | None => afail (ErrNew "edge not found"%string)
  end.

(** ** Removing a node with its edges *)

Definition rangeSet (ids : gset N) : list N := rangeKeys 0 (gset_to_gmap tt ids).

(** [m[key] = append(m[key], id)] *)
Definition pushID (m : gmap N (list N)) (key id : N) : gmap N (list N) := <[key := default [] (m !! key) ++ [id]]> m.

(** The loop of [remove] over the edges: the identifiers removed, by source and by
    target. *)
Fixpoint removeEach (outgoing incoming : gmap N (list N)) (edgeIDs : list N) : act (gmap N (list N) * gmap N (list N)) :=
  match edgeIDs with
  | [] => aret (outgoing, incoming)
  | edgeID :: edgeIDs =>
      budgetCheck 1 ;*
      let* found := gets (fun tx => readRecord (w_edges tx) edgeID) in
      match found with
      | None => removeEach outgoing incoming edgeIDs
      | Some edge =>
          dropEdge edge edgeID ;*
          removeEach (pushID outgoing (e_SourceID edge) edgeID) (pushID incoming (e_TargetID edge) edgeID) edgeIDs
      end
  end.

Definition deleteEdgesBatchWithBudget (edgeIDs : gset N) : act unit :=
  let* lists := removeEach ∅ ∅ (rangeSet edgeIDs) in
  forEach (fun nodeID =>
    budgetCheck 1 ;*
    modify (fun tx => withOutgoing tx (storeList (w_Outgoing tx) nodeID (RemoveKnownBatch (w_Outgoing tx !! nodeID) (default [] (lists.1 !! nodeID)))))) (rangeKeys 0 lists.1) ;*
  forEach (fun nodeID =>
    budgetCheck 1 ;*
    modify (fun tx => withIncoming tx (storeList (w_Incoming tx) nodeID (RemoveKnownBatch (w_Incoming tx !! nodeID) (default [] (lists.2 !! nodeID)))))) (rangeKeys 0 lists.2).

(** [HasFTS] and [ReadFTS]: text of a node that is neither removed nor cleared. *)
Definition readFTS (nodes : table) (t : ftsTable) (id : N) : option FTSRecord :=
  if bool_decide (id ∈ deleted nodes) || bool_decide (id ∈ fts_deleted t) then None else fts_rows t !! id.

(** The full-text record of a node taken out with the node. *)
Definition dropFTS (nodeID : N) (baseFTS : bool) (old : option FTSRecord) : act unit :=
  match old with
  | None => aret tt
  | Some record =>
      forEach (fun token => budgetCheck 1 ;* removeToken token nodeID) (fts_Tokens record) ;*
      modify (fun tx => withFTS tx (mkFTSTable (delete nodeID (fts_rows (w_fts tx))) ({[nodeID]} ∪ fts_deleted (w_fts tx)))
                          (w_upsertFTS tx ∖ {[nodeID]}) (if baseFTS then {[nodeID]} ∪ w_deleteFTS tx else w_deleteFTS tx))
  end.

Definition collectEdges (edgeIDs : list N) : act unit := forEach (fun _ => budgetCheck 1) edgeIDs.

Definition deleteNodeWithBudget (nodeID : N) : act unit :=
  writableTx ;*
  guard (validateEntityID nodeID) ;*
  let* node := gets (fun tx => readRecord (w_nodes tx) nodeID) in
  let* existed := gets (fun tx => hasRecord (sd_base (w_nodes tx)) nodeID) in
  let* baseFTS := gets (fun tx => bool_decide (is_Some (readFTS (sd_base (w_nodes tx)) (w_ftsBase tx) nodeID))) in
  let* old := gets (fun tx => readFTS (sd_live (w_nodes tx)) (w_fts tx) nodeID) in
  dropFTS nodeID baseFTS old ;*
  match node with
  | Some node => forEach (fun label => removeLabelPosting label nodeID) (elems (n_Labels node))
  | None => aret tt
  end ;*
  onNodes (fun s => markDelete (dropRecord s nodeID) existed nodeID) ;*
  let* outgoing := gets (fun tx => EdgeAll (w_Outgoing tx !! nodeID)) in
  collectEdges outgoing ;*
  let* incoming := gets (fun tx => EdgeAll (w_Incoming tx !! nodeID)) in
  collectEdges incoming ;*
  deleteEdgesBatchWithBudget (list_to_set (outgoing ++ incoming)) ;*
  modify (fun tx => withIncoming (withOutgoing tx (delete nodeID (w_Outgoing tx))) (delete nodeID (w_Incoming tx))).

(** The call of the application: no budget. *)
Definition DeleteNode (nodeID : N) : act unit := fun tx =>
  let '(r, tx') := deleteNodeWithBudget nodeID (withBudget tx None) in (r, withBudget tx' (w_budget tx)).
End transaction.

(** ** Full text *)

Section text.
Context `{MapOrder unit}.
(** [search.TokenizeContextWithLimit] *)
Context (tokenize : N -> gostring -> list gostring + error).

Definition saturatingAdd (left right : N) : N := N.min (left + right) max_uint64.
Definition saturatingMul (left right : N) : N := N.min (left * right) max_uint64.

#[local] Instance error_eq_dec : EqDecision error.
Proof. solve_decision. Defined.
Fixpoint errorIs (err target : error) : bool :=
  bool_decide (err = target) || match err with ErrWrap _ err => errorIs err target | _ => false end.
Definition tokenized (limit : N) (text : gostring) : list gostring + error :=
  match tokenize limit text with
  | inl tokens => inl tokens
  | inr err => inr (if errorIs err ErrTokenizationLimit then errResourceLimit "FTS text exceeds derived-index or page record budget" else err)
  end.

Definition tokensBytes (tokens : list gostring) : N := foldl (fun bytes token => saturatingAdd bytes (nlen token + 144)) 0 tokens.

Definition FTSIndex (nodeID : N) (text : gostring) : act unit :=
  writableTx ;*
  guard (ValidateFTSText text) ;*
  let* db := gets w_db in
  guard (if db_derivedIndexBuildMaxWork db <? saturatingMul (nlen text) 2
         then Some (errResourceLimit "FTS text exceeds derived-index build budget") else None) ;*
  requireNode nodeID ;*
  let* tokens := ofSum (tokenized (db_derivedIndexBuildMaxLogicalBytes db) text) in
  guard (if (sub64 (db_derivedIndexBuildMaxWork db) (nlen text) <? nlen tokens) || (db_derivedIndexBuildMaxLogicalBytes db <? tokensBytes tokens)
         then Some (errResourceLimit "FTS postings exceed derived-index build budget") else None) ;*
  let* old := gets (fun tx => readFTS (sd_live (w_nodes tx)) (w_fts tx) nodeID) in
  forEach (fun token => removeToken token nodeID) (match old with Some record => fts_Tokens record | None => [] end) ;*
  modify (fun tx => withFTS tx (mkFTSTable (<[nodeID := mkFTS text tokens]> (fts_rows (w_fts tx))) (fts_deleted (w_fts tx) ∖ {[nodeID]}))
                      (w_upsertFTS tx) (w_deleteFTS tx)) ;*
  forEach (fun token => addToken token nodeID) tokens ;*
  modify (fun tx => withFTS tx (w_fts tx) ({[nodeID]} ∪ w_upsertFTS tx) (w_deleteFTS tx ∖ {[nodeID]})).
End text.

(** ** Application metadata *)

Definition validateAppMetadataKey (key : gostring) : option error :=
  if (nlen key =? 0) || (65535 <? nlen key) then Some (invalidArgument (ErrNew "application metadata key length"%string)) else None.

(** The map of changes is made with the first write. *)
Definition appChanges (tx : WriteTx) : gmap gostring appMetadataChange := default ∅ (w_appMetadata tx).

Definition GetAppMetadata (key : gostring) : act (option (slice byte)) :=
  activeTx ;*
  guard (validateAppMetadataKey key) ;*
  gets (fun tx => w_AppMetadata tx !! key).
Definition PutAppMetadata (key : gostring) (v : slice byte) : act unit :=
  writableTx ;*
  guard (validateAppMetadataKey key) ;*
  modify (fun tx => withMetadata tx (<[key := v]> (w_AppMetadata tx)) (Some (<[key := mkAppChange v false]> (appChanges tx)))).
Definition DeleteAppMetadata (key : gostring) : act unit :=
  writableTx ;*
  guard (validateAppMetadataKey key) ;*
  modify (fun tx => withMetadata tx (delete key (w_AppMetadata tx)) (Some (<[key := mkAppChange None true]> (appChanges tx)))).
