(* ===== verification/GraphStatement.v ===== *)
(** * Statements that change the graph (internal/engine/query.go, compat.go)

    The clauses of a query that write: SET, REMOVE, DELETE, the CREATE of a node and that
    of an edge, over rows of bindings; and the statement around them. A statement that
    changes the graph runs on a fork of the transaction. When it fails the fork is thrown
    away; when it succeeds its changes are merged into those of the transaction.

    Expressions are parameters: [evaluate] gives the normalised value of a row, [refresh]
    reads the bindings of a row again and [readBack] the entity that was created for it;
    they move the counters of the budget and write nothing else. *)
From S2P Require Import Prelude.
From S2P Require Import GoBytes.
From S2P Require Import BinaryCodec.
From S2P Require Import BinaryValue.
From S2P Require Import BinaryRecords.
From S2P Require Import GoMaps.
From S2P Require Import Values.
From S2P Require Import Properties.
From S2P Require Import PageRecords.
From S2P Require Import Streams.
From S2P Require Import StreamPersist.
From S2P Require Import StreamTx.
From S2P Require Import PropertyDelta.
From S2P Require Import WalAccumulator.
From S2P Require Import Adjacency.
From S2P Require Import StringPostings.
From S2P Require Import GraphTx.
From Stdlib Require Strings.String.
Import String.StringSyntax.
#[local] Open Scope go_scope.

(** ** Clauses *)

(** What a row binds to the variable of a clause; [Unbound] when it has no such
    variable. *)
Inductive binding := BoundNode (id : N) | BoundEdge (id : N) | BoundValue | Unbound.

Inductive setKind := setProperty (property : gostring) | setReplace | setMerge | setLabel (label : gostring).

Definition errNeither : error := ErrNew "binding is neither node nor edge"%string.
Definition errNotNode : error := ErrNew "binding is not a node"%string.
Definition errUnknownBinding : error := ErrNew "unknown binding"%string.
Definition errUnknownSource : error := ErrNew "unknown source binding"%string.
Definition errUnknownTarget : error := ErrNew "unknown target binding"%string.
Definition errNotMap : error := ErrNew "property-map mutation requires map value"%string.

Definition isNil (v : value) : bool := match v with VNil => true | _ => false end.

(** A nil value removes the property. *)
Definition assignProperty (key : gostring) (v : value) (p : Properties) : Properties := if isNil v then PDelete p key else PSet p key v.

Definition mapEntries (v : value) : list (gostring * value) + error :=
  match v with VMap m => inl (elems m) | _ => inr errNotMap end.

Definition replacementPropertyMap (v : value) : act (list (gostring * value)) :=
  let* props := ofSum (mapEntries v) in
  forEach (fun _ => budgetCheck 1) props ;*
  aret (List.filter (fun kv => negb (isNil kv.2)) props).

Section clauses.
Context `{MapOrder unit} `{MapOrder (list N)}.

Definition writeNode (l : nat) (f : NodeRecord -> NodeRecord) : act unit := onNodes (fun s => writeThrough s l f).
Definition writeEdge (l : nat) (f : EdgeRecord -> EdgeRecord) : act unit := onEdges (fun s => writeThrough s l f).
Definition trackNodeProperty (id : N) (key : gostring) : act unit := onNodes (fun s => trackProperty s id key).
Definition trackEdgeProperty (id : N) (key : gostring) : act unit := onEdges (fun s => trackProperty s id key).

(** [mergeMutationProperties] through the pointer. *)
Definition mergeNodeProperties (l : nat) (props : list (gostring * value)) : act unit :=
  forEach (fun kv => budgetCheck 1 ;* writeNode l (setNodeProperties (assignProperty kv.1 kv.2))) props.
Definition mergeEdgeProperties (l : nat) (props : list (gostring * value)) : act unit :=
  forEach (fun kv => budgetCheck 1 ;* writeEdge l (setEdgeProperties (assignProperty kv.1 kv.2))) props.

(** One row of SET. *)
Definition setRow (kind : setKind) (b : binding) (normalized : value) : act unit :=
  match kind with
  | setProperty property =>
      match b with
      | BoundNode id =>
          let* l := writableNode id true in
          writeNode l (setNodeProperties (assignProperty property normalized)) ;*
          trackNodeProperty id property
      | BoundEdge id =>
          let* l := writableEdge id true in
          writeEdge l (setEdgeProperties (assignProperty property normalized)) ;*
          trackEdgeProperty id property
      | _ => afail errNeither
      end
  | setReplace =>
      let* props := replacementPropertyMap normalized in
      chargeTemporary (nlen props * 64) ;*
      let compact := PropertiesFromMap props in
      match b with
      | BoundNode id => let* l := writableNode id false in writeNode l (setNodeProperties (fun _ => compact))
      | BoundEdge id => let* l := writableEdge id false in writeEdge l (setEdgeProperties (fun _ => compact))
      | _ => afail errNeither
      end
  | setMerge =>
      let* props := ofSum (mapEntries normalized) in
      match b with
      | BoundNode id =>
          let* l := writableNode id true in
          mergeNodeProperties l props ;*
          forEach (fun kv => trackNodeProperty id kv.1) props
      | BoundEdge id =>
          let* l := writableEdge id true in
          mergeEdgeProperties l props ;*
          forEach (fun kv => trackEdgeProperty id kv.1) props
      | _ => afail errNeither
      end
  | setLabel label =>
      match b with
      | BoundNode id =>
          let* l := writableNode id false in
          let* nodes := gets w_nodes in
          match sd_heap nodes !! l with
          | Some node =>
              if bool_decide (label ∈ elems (n_Labels node)) then aret tt
              else writeNode l (setNodeLabels (Some (elems (n_Labels node) ++ [InternString label]))) ;* addLabel label id
          | None => aret tt
          end
      | _ => afail errNotNode
      end
  end.

(** The checks of [removeLabel]: one for the copy, one for every 64 labels. *)
Definition removeLabel (labels : slice gostring) (target : gostring) : act (slice gostring) :=
  if slen labels =? 0 then aret None
  else
    budgetCheck 1 ;*
    chargeTemporary (slen labels * 16) ;*
    forEach (fun index => if (index mod 64 =? 0)%nat then budgetCheck 1 else aret tt) (seq 0 (length (elems labels))) ;*
    aret (Some (List.filter (fun label => negb (bool_decide (label = target))) (elems labels))).

Inductive removeItem := removeProperty (property : gostring) | removeNodeLabel (label : gostring) | removeNothing.

(** One item of REMOVE on one row. *)
Definition removeRow (item : removeItem) (b : binding) : act unit :=
  budgetCheck 1 ;*
  guard (match b with Unbound => Some errUnknownBinding | _ => None end) ;*
  match item with
  | removeProperty property =>
      match b with
      | BoundNode id =>
          let* l := writableNode id true in
          writeNode l (setNodeProperties (fun p => PDelete p property)) ;*
          trackNodeProperty id property
      | BoundEdge id =>
          let* l := writableEdge id true in
          writeEdge l (setEdgeProperties (fun p => PDelete p property)) ;*
          trackEdgeProperty id property
      | _ => afail errNeither
      end
  | removeNodeLabel label =>
      match b with
      | BoundNode id =>
          let* l := writableNode id false in
          let* nodes := gets w_nodes in
          match sd_heap nodes !! l with
          | Some node =>
              (if bool_decide (label ∈ elems (n_Labels node)) then removeLabelPosting label id else aret tt) ;*
              let* labels := removeLabel (n_Labels node) label in
              writeNode l (setNodeLabels labels)
          | None => aret tt
          end
      | _ => afail errNotNode
      end
  | removeNothing => afail (ErrNew "invalid REMOVE item"%string)
  end.

(** What a clause charges for temporaries is given back when it ends, however it ends. *)
Definition scopedBytes {A} (m : act A) : act A := fun tx =>
  let '(r, tx') := m tx in
  (r, match w_budget tx, w_budget tx' with
      | Some b, Some b' => withBudget tx' (Some (mkQueryBudget (qb_maxWork b') (qb_work b') (qb_maxBytes b') (qb_bytes b)))
      | _, _ => tx'
      end).

Definition isLabelKind (kind : setKind) : bool := match kind with setLabel _ => true | _ => false end.

(** SET and REMOVE over the rows; a row of SET where the variable is not bound is
    skipped. *)
Definition setClause (refresh : nat -> act unit) (evaluate : nat -> act value) (kind : setKind) (rows : list binding) : act unit :=
  scopedBytes (forEach (fun '(index, row) =>
    budgetCheck 1 ;*
    refresh index ;*
    match row with
    | Unbound => aret tt
    | b => let* normalized := if isLabelKind kind then aret VNil else evaluate index in setRow kind b normalized
    end) (imap pair rows)).

Definition removeClause (rows : list (list (removeItem * binding))) : act unit :=
  scopedBytes (forEach (fun row => forEach (fun ib => removeRow ib.1 ib.2) row) rows).

(** The properties of an entity to create; [keys] in the order the map is ranged in. *)
Fixpoint evaluateProps (evaluate : gostring -> act value) (keys : list gostring) (props : list (gostring * value)) : act (list (gostring * value)) :=
  match keys with
  | [] => aret props
  | key :: keys =>
      budgetCheck 1 ;*
      let* normalized := evaluate key in
      evaluateProps evaluate keys (props ++ [(key, normalized)])
  end.

(** CREATE of one node, or of one edge, for each row. *)
Definition createNodeClause (faults : list reserveFault) (labels : slice gostring) (keys : list gostring) (evaluate : nat -> gostring -> act value) (readBack : nat -> N -> act unit)
    (rows : nat) : act unit :=
  scopedBytes (forEach (fun index =>
    budgetCheck 1 ;*
    let* props := evaluateProps (evaluate index) keys [] in
    let* node := CreateNode (default None (faults !! index)) (mkNodeOptions labels props) in
    readBack index (pub_ID node)) (seq 0 rows)).

Definition createClause (faults : list reserveFault) (edgeType : gostring) (keys : list gostring) (evaluate : nat -> gostring -> act value) (readBack : nat -> N -> act unit)
    (rows : list (binding * binding)) : act unit :=
  scopedBytes (forEach (fun '(index, (source, target)) =>
    budgetCheck 1 ;*
    match source with
    | BoundNode sourceID =>
        match target with
        | BoundNode targetID =>
            let* props := evaluateProps (evaluate index) keys [] in
            let* edge := CreateEdge (default None (faults !! index)) sourceID targetID edgeType props in
            readBack index (pube_ID edge)
        | _ => afail errUnknownTarget
        end
    | _ => afail errUnknownSource
    end) (imap pair rows)).

(** DELETE: the bound entities are collected first. Without DETACH a node must have no
    edge that is not deleted with it. *)
Definition deletedNodes (bs : list binding) : gset N := list_to_set (omap (fun b => match b with BoundNode id => Some id | _ => None end) bs).
Definition deletedEdges (bs : list binding) : gset N := list_to_set (omap (fun b => match b with BoundEdge id => Some id | _ => None end) bs).

Definition checkIncident (edgeIDs : gset N) (edgeID : N) : act unit :=
  budgetCheck 1 ;*
  guard (if bool_decide (edgeID ∈ edgeIDs) then None else Some (ErrNew "delete node with incident edges"%string)).

Definition deleteClause (detach : bool) (bs : list binding) : act unit :=
  forEach (fun b => budgetCheck 1 ;* guard (match b with BoundValue => Some errNeither | Unbound => Some errUnknownBinding | _ => None end)) bs ;*
  let nodeIDs := deletedNodes bs in
  let edgeIDs := deletedEdges bs in
  (if detach then aret tt
   else forEach (fun nodeID =>
          let* outgoing := gets (fun tx => EdgeAll (w_Outgoing tx !! nodeID)) in
          forEach (checkIncident edgeIDs) outgoing ;*
          let* incoming := gets (fun tx => EdgeAll (w_Incoming tx !! nodeID)) in
          forEach (checkIncident edgeIDs) incoming) (rangeSet nodeIDs)) ;*
  forEach (fun edgeID => budgetCheck 1 ;* deleteEdgeTx edgeID) (rangeSet edgeIDs) ;*
  forEach deleteNodeWithBudget (rangeSet nodeIDs).
End clauses.

(** ** Statements *)

(** [fork := *tx] with the transaction's graph as its base. *)
Definition forkSide {A} (s : side A) : side A := mkSide (sd_heap s) (sd_live s) (sd_live s) ∅ ∅ ∅.
Definition forkStatement (tx : WriteTx) (budget : queryBudget) : WriteTx :=
  mkWriteTx (mkTx (tx_closed (w_call tx)) (tx_readOnly (w_call tx)) (tx_dbReadOnly (w_call tx)) (tx_Streams (w_call tx)) false [])
    (w_db tx) (forkSide (w_nodes tx)) (forkSide (w_edges tx)) (w_fts tx) (w_fts tx) ∅ ∅
    (postingsFork (w_Labels tx)) (postingsFork (w_EdgeTypes tx)) (postingsFork (w_FTSTokens tx)) (w_Outgoing tx) (w_Incoming tx)
    (w_AppMetadata tx) None (Some budget).

(** What is left of a fork that is thrown away: the records it allocated, which nothing
    reaches, and the identifiers it took from the database. *)
Definition discardSide {A} (s child : side A) : side A :=
  mkSide (sd_heap child) (sd_base s) (sd_live s) (sd_upserts s) (sd_deletes s) (sd_keys s).
Definition discardStatement (tx fork : WriteTx) : WriteTx :=
  withDB (withEdges (withNodes tx (discardSide (w_nodes tx) (w_nodes fork))) (discardSide (w_edges tx) (w_edges fork))) (w_db fork).

(** [mergePropertyTracking] for one identifier. *)
Definition mergeKeys (current : list gostring) (keys : list gostring) : slice gostring :=
  foldl (fun acc key => match acc with
                        | None => None
                        | Some current =>
                            if bool_decide (key ∈ current) then Some current
                            else if (maxTrackedPropertyKeys <=? length current)%nat then None
                            else Some (current ++ [key])
                        end) (Some current) keys.
Definition mergeTracking (parent child : gmap N (slice gostring)) (id : N) : gmap N (slice gostring) :=
  match mjoin (child !! id) with
  | None => <[id := None]> parent
  | Some keys =>
      match parent !! id with
      | None => <[id := Some keys]> parent
      | Some None => parent
      | Some (Some current) => <[id := mergeKeys current keys]> parent
      end
  end.

Section statements.
Context `{MapOrder unit} `{MapOrder (list N)}.

(** [merge]: each identifier the statement touched, by whether its record exists in the
    final graph and in the transaction's base. *)
Definition mergeMarks {A} (s child : side A) : side A :=
  foldl (fun s id => if hasRecord (sd_live child) id then markUpsert s id else markDelete s (hasRecord (sd_base s) id) id)
    s (rangeSet (sd_upserts child ∪ sd_deletes child)).
Definition mergePropertyTracking {A} (s child : side A) : side A :=
  setKeys s (foldl (fun keys id => if hasRecord (sd_base s) id then mergeTracking keys (sd_keys child) id else keys)
               (sd_keys s) (rangeSet (sd_upserts child))).
(** The graph of the statement becomes that of the transaction. *)
Definition mergeSide {A} (s child : side A) : side A :=
  let merged := mergePropertyTracking (mergeMarks s child) child in
  mkSide (sd_heap child) (sd_base s) (sd_live child) (sd_upserts merged) (sd_deletes merged) (sd_keys merged).

Definition mergeFTSMarks (tx fork : WriteTx) : gset N * gset N :=
  foldl (fun marks id =>
    let '(upserts, deletes) := marks in
    if bool_decide (is_Some (readFTS (sd_live (w_nodes fork)) (w_fts fork) id)) then ({[id]} ∪ upserts, deletes ∖ {[id]})
    else (upserts ∖ {[id]}, if bool_decide (is_Some (readFTS (sd_base (w_nodes tx)) (w_ftsBase tx) id)) then {[id]} ∪ deletes else deletes))
    (w_upsertFTS tx, w_deleteFTS tx) (rangeSet (w_upsertFTS fork ∪ w_deleteFTS fork)).

(** [mergeStatementChanges] and [tx.graph = executionTx.graph]. *)
Definition mergeStatement (tx fork : WriteTx) : WriteTx :=
  let '(upserts, deletes) := mergeFTSMarks tx fork in
  mkWriteTx (w_call tx) (w_db fork) (mergeSide (w_nodes tx) (w_nodes fork)) (mergeSide (w_edges tx) (w_edges fork))
    (w_ftsBase tx) (w_fts fork) upserts deletes (w_Labels fork) (w_EdgeTypes fork) (w_FTSTokens fork) (w_Outgoing fork) (w_Incoming fork)
    (w_AppMetadata fork) (w_appMetadata tx) (w_budget tx).

(** The part of [QueryContext] for a plan that mutates; [execute] is the plan. *)
Definition runStatement {R} (execute : act R) (budget : queryBudget) : act R := fun tx =>
  match ensureWritable (w_call tx) with
  | Some err => (Failed err, tx)
  | None =>
      match execute (forkStatement tx budget) with
      | (Done r, fork) => (Done r, mergeStatement tx fork)
      | (Failed err, fork) => (Failed err, discardStatement tx fork)
      | (Panicked, fork) => (Panicked, discardStatement tx fork)
      end
  end.
End statements.
