(* ===== verification/GraphSides.v ===== *)
(** * The records of a transaction

    What holds of the nodes, and of the edges, at every point of a transaction: the base
    graph keeps its records, the marks say which identifiers differ from it, and the
    tracked keys say how. Stated once for both kinds of entity.

    Further down: the edge lists and postings of a graph. *)
From S2P Require Import Prelude.
From S2P Require Import PagedMap.
From S2P Require Import Adjacency.
From S2P Require Import AdjacencySpec.
From S2P Require Import GoBytes.
From S2P Require Import BinaryCodec.
From S2P Require Import BinaryValue.
From S2P Require Import BinaryRecords.
From S2P Require Import GoMaps.
From S2P Require Import Values.
From S2P Require Import ValuesSpec.
From S2P Require Import Properties.
From S2P Require Import PageRecords.
From S2P Require Import ShardMap.
From S2P Require Import PropertyPostings.
From S2P Require Import StringPostings.
From S2P Require Import IndexUpkeep.
From S2P Require Import GraphTx.
From S2P Require Import GraphStatement.

(** An entity: its identifier, its properties, and the rest of it. *)
Class Entity (A : Type) := {
  entID : A -> N;
  entProps : A -> Properties;
  entRest : A -> A -> Prop;
  entShape : A -> Prop;
  entRest_equiv : Equivalence entRest }.
#[global] Existing Instance entRest_equiv.

Definition propertiesOK (p : Properties) : Prop := wfProps p /\ Forall (fun kv => normalAt 0 kv.2) (PAll p).
Definition recordOK `{Entity A} (r : A) : Prop := propertiesOK (entProps r) /\ entShape r.
Definition sameProps (p q : Properties) (except : list gostring) : Prop := forall k, k ∉ except -> Lookup p k = Lookup q k.

Section sides.
Context `{Entity A}.
Implicit Types (s : side A) (t : table) (h : list A).

Definition contents h (m : gmap N nat) : gmap N A := omap (fun l => h !! l) m.
Definition liveOf s : gmap N A := contents (sd_heap s) (refs (sd_live s)).
Definition baseOf s : gmap N A := contents (sd_heap s) (refs (sd_base s)).

Record tableOK h t (next : N) : Prop := mkTableOK {
  tk_refs : forall id l, refs t !! id = Some l -> exists r, h !! l = Some r /\ entID r = id /\ recordOK r;
  tk_ids : forall id, is_Some (refs t !! id) -> 0 < id < next;
  tk_deleted : forall id, id ∈ deleted t -> id < next /\ refs t !! id = None }.

(** How the tracked keys relate the base record and the current one. *)
Definition tracked (keys : option (slice gostring)) (x y : A) : Prop :=
  match keys with
  | None => entRest x y /\ sameProps (entProps x) (entProps y) []
  | Some None => True
  | Some (Some ks) => NoDup ks /\ entRest x y /\ sameProps (entProps x) (entProps y) ks
  end.

(** Records from location [start] on are the transaction's own. *)
Record sideOK (start : nat) s (bn n : N) : Prop := mkSideOK {
  so_base : tableOK (sd_heap s) (sd_base s) bn;
  so_live : tableOK (sd_heap s) (sd_live s) n;
  so_grow : bn <= n;
  so_low : forall id l, refs (sd_base s) !! id = Some l -> (l < start)%nat;
  so_start : (start <= length (sd_heap s))%nat;
  so_own : forall id l, refs (sd_live s) !! id = Some l -> refs (sd_base s) !! id = Some l \/ (start <= l)%nat;
  so_disjoint : sd_upserts s ## sd_deletes s;
  so_upserts : forall id, id ∈ sd_upserts s -> is_Some (refs (sd_live s) !! id);
  so_deletes : forall id, id ∈ sd_deletes s -> is_Some (refs (sd_base s) !! id) /\ refs (sd_live s) !! id = None;
  so_same : forall id, id ∉ sd_upserts s -> id ∉ sd_deletes s -> refs (sd_live s) !! id = refs (sd_base s) !! id;
  so_keysIn : forall id, is_Some (sd_keys s !! id) -> is_Some (refs (sd_base s) !! id);
  so_keys : forall id x y, baseOf s !! id = Some x -> liveOf s !! id = Some y -> tracked (sd_keys s !! id) x y }.

(** What no step of a transaction touches: the records before [start], and the base. *)
Definition frozen (start : nat) s s' : Prop :=
  take start (sd_heap s') = take start (sd_heap s) /\ sd_base s' = sd_base s /\ (length (sd_heap s) <= length (sd_heap s'))%nat.

#[global] Instance frozen_preorder start : PreOrder (frozen start).
Proof. split; [done|]. intros a b c (H1 & H2 & H3) (H4 & H5 & H6). split; [congruence|]. split; [congruence|lia]. Qed.

Lemma frozen_lookup start s s' l : frozen start s s' -> (l < start)%nat -> sd_heap s' !! l = sd_heap s !! l.
Proof. intros (E & _) Hl. rewrite <- (lookup_take_lt _ start) by done. rewrite E. by apply lookup_take_lt. Qed.

(** ** Reading *)

Lemma contents_lookup h m id : contents h m !! id = m !! id ≫= fun l => h !! l.
Proof. unfold contents. by rewrite lookup_omap. Qed.

Lemma table_contents h t n id l : tableOK h t n -> refs t !! id = Some l -> exists r, contents h (refs t) !! id = Some r /\ h !! l = Some r /\ entID r = id /\ recordOK r.
Proof. intros Ht Hl. destruct (tk_refs _ _ _ Ht id l Hl) as (r & Hr & E & Hok). exists r. by rewrite contents_lookup, Hl. Qed.

Lemma table_dom h t n id : tableOK h t n -> is_Some (contents h (refs t) !! id) <-> is_Some (refs t !! id).
Proof.
  intros Ht. rewrite contents_lookup. destruct (refs t !! id) as [l|] eqn:E; cbn; [|done].
  destruct (tk_refs _ _ _ Ht id l E) as (r & -> & _). split; eauto.
Qed.

Lemma readRef_refs h t n id : tableOK h t n -> readRef t id = refs t !! id.
Proof. intros Ht. unfold readRef. case_bool_decide as Hd; [|done]. symmetry. by apply (tk_deleted _ _ _ Ht). Qed.

Lemma hasRecord_refs h t n id : tableOK h t n -> hasRecord t id = bool_decide (is_Some (refs t !! id)).
Proof. intros Ht. unfold hasRecord. by rewrite (readRef_refs _ _ _ _ Ht). Qed.

Section one.
Context (start : nat) s (bn n : N) (Hs : sideOK start s bn n).

Lemma readRecord_live id : readRecord s id = liveOf s !! id.
Proof. unfold readRecord, liveOf. rewrite (readRef_refs _ _ _ _ (so_live _ _ _ _ Hs)), contents_lookup. done. Qed.

Lemma readLocated_live id : readLocated s id = refs (sd_live s) !! id ≫= fun l => pair l <$> sd_heap s !! l.
Proof. unfold readLocated. by rewrite (readRef_refs _ _ _ _ (so_live _ _ _ _ Hs)). Qed.

Lemma live_record id r : liveOf s !! id = Some r -> entID r = id /\ recordOK r /\ 0 < id < n.
Proof.
  unfold liveOf. rewrite contents_lookup. intros (l & Hl & Hr)%bind_Some. destruct (tk_refs _ _ _ (so_live _ _ _ _ Hs) id l Hl) as (r' & Hr' & E & Hok).
  simplify_eq. split; [done|]. split; [done|]. apply (tk_ids _ _ _ (so_live _ _ _ _ Hs)). eauto.
Qed.

Lemma live_location id r : liveOf s !! id = Some r -> exists l, refs (sd_live s) !! id = Some l /\ sd_heap s !! l = Some r.
Proof. unfold liveOf. rewrite contents_lookup. intros (l & Hl & Hr)%bind_Some. eauto. Qed.

Lemma live_injective id1 id2 l : refs (sd_live s) !! id1 = Some l -> refs (sd_live s) !! id2 = Some l -> id1 = id2.
Proof.
  intros H1 H2. destruct (tk_refs _ _ _ (so_live _ _ _ _ Hs) id1 l H1) as (r1 & Hr1 & E1 & _).
  destruct (tk_refs _ _ _ (so_live _ _ _ _ Hs) id2 l H2) as (r2 & Hr2 & E2 & _). congruence.
Qed.

Lemma fresh_absent id : n <= id -> refs (sd_live s) !! id = None /\ refs (sd_base s) !! id = None /\ id ∉ deleted (sd_live s) /\ id ∉ sd_deletes s.
Proof.
  intros Hid. assert (Hb : refs (sd_base s) !! id = None).
  { destruct (refs (sd_base s) !! id) eqn:E; [|done]. pose proof (tk_ids _ _ _ (so_base _ _ _ _ Hs) id ltac:(eauto)). pose proof (so_grow _ _ _ _ Hs). lia. }
  split_and!; [|done| |].
  - destruct (refs (sd_live s) !! id) eqn:E; [|done]. pose proof (tk_ids _ _ _ (so_live _ _ _ _ Hs) id ltac:(eauto)). lia.
  - intros Hd%(tk_deleted _ _ _ (so_live _ _ _ _ Hs)). lia.
  - intros [[l Hl] _]%(so_deletes _ _ _ _ Hs). congruence.
Qed.
End one.

(** ** Writing *)

Lemma tableOK_heap h h' t n : tableOK h t n -> (forall id l, refs t !! id = Some l -> h' !! l = h !! l) -> tableOK h' t n.
Proof. intros [H1 H2 H3] Hh. split; [|done|done]. intros id l Hl. rewrite (Hh _ _ Hl). by apply H1. Qed.

Lemma tableOK_weaken h t n n' : tableOK h t n -> n <= n' -> tableOK h t n'.
Proof. intros [H1 H2 H3] Hn. split; [done| |]. - intros id Hid%H2. lia. - intros id [Hd E]%H3. split; [lia|done]. Qed.

Lemma contents_heap h h' t : (forall id l, refs t !! id = Some l -> h' !! l = h !! l) -> contents h' (refs t) = contents h (refs t).
Proof. intros Hh. apply map_eq. intros id. rewrite !contents_lookup. destruct (refs t !! id) as [l|] eqn:E; [|done]. cbn. by apply (Hh id). Qed.

Lemma app_heap h r l : (l < length h)%nat -> (h ++ [r]) !! l = h !! l.
Proof. intros Hl. by apply lookup_app_l. Qed.

Lemma table_lt h t n id l : tableOK h t n -> refs t !! id = Some l -> (l < length h)%nat.
Proof. intros Ht Hl. destruct (tk_refs _ _ _ Ht id l Hl) as (r & Hr & _). by apply lookup_lt_Some in Hr. Qed.

(** A record put at [id], new or a copy. *)
Lemma put_record start s bn n n' id r :
  sideOK start s bn n -> n <= n' -> 0 < id < n' -> id ∉ deleted (sd_live s) -> entID r = id -> recordOK r ->
  (forall x, baseOf s !! id = Some x -> tracked (sd_keys s !! id) x r) ->
  sideOK start (markUpsert (setRecord s id r) id) bn n' /\ liveOf (markUpsert (setRecord s id r) id) = <[id := r]> (liveOf s) /\
  frozen start s (markUpsert (setRecord s id r) id).
Proof.
  intros Hs Hn Hid Hdel Er Hr Htr. pose proof Hs as [Hb Hl Hg Hlow Hst Hown Hdisj Hup Hde Hsame Hkin Hk].
  assert (Hhb : forall i l, refs (sd_base s) !! i = Some l -> (sd_heap s ++ [r]) !! l = sd_heap s !! l) by (intros i l Hi; apply app_heap, (table_lt _ _ _ _ _ Hb Hi)).
  assert (Hhl : forall i l, refs (sd_live s) !! i = Some l -> (sd_heap s ++ [r]) !! l = sd_heap s !! l) by (intros i l Hi; apply app_heap, (table_lt _ _ _ _ _ Hl Hi)).
  assert (Elive : liveOf (markUpsert (setRecord s id r) id) = <[id := r]> (liveOf s)).
  { apply map_eq. intros i. unfold liveOf. cbn [markUpsert setRecord sd_heap sd_live refs]. rewrite contents_lookup. destruct (decide (i = id)) as [->|Hne].
    - rewrite !lookup_insert_eq. cbn. rewrite lookup_app_r, Nat.sub_diag by lia. done.
    - rewrite !lookup_insert_ne by done. rewrite contents_lookup. destruct (refs (sd_live s) !! i) as [l|] eqn:E; [|done]. cbn. by apply (Hhl i). }
  assert (Ebase : baseOf (markUpsert (setRecord s id r) id) = baseOf s) by (unfold baseOf; cbn [markUpsert setRecord sd_heap sd_base]; by apply contents_heap).
  split; [|split; [done|]].
  2:{ split_and!; cbn; [|done|rewrite length_app; lia]. by rewrite take_app_le. }
  split; cbn [markUpsert setRecord sd_heap sd_base sd_live sd_upserts sd_deletes sd_keys refs deleted]; try done.
  - by eapply tableOK_heap.
  - split.
    + intros i l. cbn [refs]. destruct (decide (i = id)) as [->|Hne].
      * rewrite lookup_insert_eq. intros [= <-]. exists r. rewrite lookup_app_r, Nat.sub_diag by lia. done.
      * rewrite lookup_insert_ne by done. intros Hi. rewrite (Hhl i l Hi). by apply (tk_refs _ _ _ Hl).
    + intros i Hi. cbn [refs] in Hi. destruct (decide (i = id)) as [->|Hne]; [lia|]. rewrite lookup_insert_ne in Hi by done. apply (tk_ids _ _ _ Hl) in Hi. lia.
    + intros i Hi. cbn [deleted refs] in *. assert (i <> id) by congruence. rewrite lookup_insert_ne by done. apply (tk_deleted _ _ _ Hl) in Hi as [? ?]. split; [lia|done].
  - lia.
  - rewrite length_app. lia.
  - intros i l. destruct (decide (i = id)) as [->|Hne]; [rewrite lookup_insert_eq; intros [= <-]; right; lia|]. rewrite lookup_insert_ne by done. apply Hown.
  - set_solver.
  - intros i Hi. destruct (decide (i = id)) as [->|Hne]; [rewrite lookup_insert_eq; eauto|]. rewrite lookup_insert_ne by done. apply Hup. set_solver.
  - intros i Hi. destruct (Hde i ltac:(set_solver)) as [? ?]. split; [done|]. rewrite lookup_insert_ne by set_solver. done.
  - intros i Hi1 Hi2. assert (i <> id) by set_solver. rewrite lookup_insert_ne by done. apply Hsame; set_solver.
  - intros i x y Hx Hy. change (markUpsert (setRecord s id r) id) with (markUpsert (setRecord s id r) id) in Hx.
    assert (Hx' : baseOf s !! i = Some x) by (rewrite <- Ebase; exact Hx). assert (Hy' : (<[id := r]> (liveOf s)) !! i = Some y) by (rewrite <- Elive; exact Hy).
    destruct (decide (i = id)) as [->|Hne]; [rewrite lookup_insert_eq in Hy'; injection Hy' as <-; by apply Htr|]. rewrite lookup_insert_ne in Hy' by done. by eapply Hk.
Qed.
(** The location a caller may write through: a record of the transaction's own that
    holds what the graph holds. *)
Definition writableAt start s (id : N) (l : nat) (r : A) : Prop :=
  refs (sd_live s) !! id = Some l /\ sd_heap s !! l = Some r /\ (start <= l)%nat.

Lemma base_contents start s bn n id : sideOK start s bn n -> is_Some (baseOf s !! id) <-> is_Some (refs (sd_base s) !! id).
Proof. intros Hs. unfold baseOf. eapply table_dom, (so_base _ _ _ _ Hs). Qed.

Lemma setKeys_eta s : setKeys s (sd_keys s) = s.
Proof. by destruct s. Qed.

(** Keys replaced by others that still describe every record. *)
Lemma setKeys_ok start s bn n keys : sideOK start s bn n -> (forall i, is_Some (keys !! i) -> is_Some (refs (sd_base s) !! i)) ->
  (forall i x y, baseOf s !! i = Some x -> liveOf s !! i = Some y -> tracked (keys !! i) x y) -> sideOK start (setKeys s keys) bn n.
Proof. intros [] ? ?. by split. Qed.

Lemma fallback_ok start s bn n id : sideOK start s bn n -> sideOK start (markPropertyFallback s id) bn n.
Proof.
  intros Hs. unfold markPropertyFallback. case_bool_decide as Hb; cbn [negb]; [|done]. apply setKeys_ok; [done|..].
  - intros i Hi. destruct (decide (i = id)) as [->|Hne]; [done|]. rewrite lookup_insert_ne in Hi by done. by apply (so_keysIn _ _ _ _ Hs).
  - intros i x y Hx Hy. destruct (decide (i = id)) as [->|Hne]; [by rewrite lookup_insert_eq|]. rewrite lookup_insert_ne by done. by eapply (so_keys _ _ _ _ Hs).
Qed.

Lemma fallback_same s id : sd_heap (markPropertyFallback s id) = sd_heap s /\ sd_base (markPropertyFallback s id) = sd_base s /\
  sd_live (markPropertyFallback s id) = sd_live s /\ (is_Some (refs (sd_base s) !! id) -> sd_keys (markPropertyFallback s id) !! id = Some None).
Proof. unfold markPropertyFallback. case_bool_decide; cbn [negb]; [|done]. split_and!; try done. intros _. cbn. by rewrite lookup_insert_eq. Qed.

(** The copy [writableRecord] makes, or not. *)
Definition ownRecord s (id : N) (l : nat) : nat * side A :=
  match sd_heap s !! l with
  | Some r => if bool_decide (Some l = refs (sd_base s) !! id) then (length (sd_heap s), markUpsert (setRecord s id r) id) else (l, s)
  | None => (l, s)
  end.

Lemma writable_own s id l only : refs (sd_live s) !! id = Some l ->
  writableRecord s id l only = ((ownRecord s id l).1, if only then (ownRecord s id l).2 else markPropertyFallback (ownRecord s id l).2 id).
Proof.
  intros Hl. unfold writableRecord, ownRecord. rewrite Hl, (bool_decide_false (Some l = None)) by done. cbn [orb].
  destruct (sd_heap s !! l), (bool_decide (Some l = refs (sd_base s) !! id)); reflexivity.
Qed.

Lemma own_record start s bn n id l r : sideOK start s bn n -> refs (sd_live s) !! id = Some l -> sd_heap s !! l = Some r ->
  let s' := (ownRecord s id l).2 in
  sideOK start s' bn n /\ liveOf s' = liveOf s /\ writableAt start s' id (ownRecord s id l).1 r /\ frozen start s s' /\ sd_keys s' = sd_keys s.
Proof.
  intros Hs Hl Hr. unfold ownRecord. rewrite Hr. assert (Hlive : liveOf s !! id = Some r) by (unfold liveOf; by rewrite contents_lookup, Hl).
  destruct (live_record _ _ _ _ Hs id r Hlive) as (Er & Hok & Hid). case_bool_decide as Hb; cbn [fst snd].
  - destruct (put_record start s bn n n id r Hs ltac:(lia) Hid) as (H1 & H2 & H3); try done.
    + intros Hd%(tk_deleted _ _ _ (so_live _ _ _ _ Hs)). destruct Hd as [_ Hd]. congruence.
    + intros x Hx. by eapply (so_keys _ _ _ _ Hs).
    + split; [done|]. split; [rewrite H2; by apply insert_id|]. split; [|done]. split_and!; cbn; [by rewrite lookup_insert_eq| |apply (so_start _ _ _ _ Hs)].
      rewrite lookup_app_r, Nat.sub_diag by lia. done.
  - split_and!; try done. destruct (so_own _ _ _ _ Hs id l Hl) as [E|E]; [by rewrite E in Hb|done].
Qed.

Lemma writable_record start s bn n id l r only : sideOK start s bn n -> refs (sd_live s) !! id = Some l -> sd_heap s !! l = Some r ->
  let ls := writableRecord s id l only in
  sideOK start ls.2 bn n /\ liveOf ls.2 = liveOf s /\ writableAt start ls.2 id ls.1 r /\ frozen start s ls.2 /\
  (only = false -> is_Some (refs (sd_base s) !! id) -> sd_keys ls.2 !! id = Some None).
Proof.
  intros Hs Hl Hr. destruct (own_record start s bn n id l r Hs Hl Hr) as (H1 & H2 & H3 & H4 & H5). rewrite (writable_own _ _ _ _ Hl). cbn [fst snd].
  destruct only; [done|]. destruct (fallback_same (ownRecord s id l).2 id) as (E1 & E2 & E3 & E4). split; [by apply fallback_ok|].
  split; [unfold liveOf; by rewrite E1, E3|]. split; [unfold writableAt; by rewrite E1, E3|]. split.
  - unfold frozen. rewrite E1, E2. apply H4.
  - intros _ Hb. apply E4. destruct H4 as (_ & -> & _). done.
Qed.

(** A write through such a location, with the keys it is recorded under. *)
Lemma write_record start s bn n id l r f keys :
  sideOK start s bn n -> writableAt start s id l r -> entID (f r) = id -> recordOK (f r) ->
  (forall i, i <> id -> keys !! i = sd_keys s !! i) -> (is_Some (keys !! id) -> is_Some (refs (sd_base s) !! id)) ->
  (forall x, baseOf s !! id = Some x -> tracked (keys !! id) x (f r)) ->
  let s' := setKeys (writeThrough s l f) keys in
  sideOK start s' bn n /\ liveOf s' = <[id := f r]> (liveOf s) /\ writableAt start s' id l (f r) /\ frozen start s s'.
Proof.
  intros Hs (Hl & Hr & Hst) Ef Hok Hks Hkid Htr. cbv zeta. pose proof Hs as [Hb Hlv Hg Hlow Hs0 Hown Hdisj Hup Hde Hsame Hkin Hk].
  assert (Hhb : forall i l', refs (sd_base s) !! i = Some l' -> alter f l (sd_heap s) !! l' = sd_heap s !! l').
  { intros i l' Hi. apply Hlow in Hi. rewrite list_lookup_alter_ne by lia. done. }
  assert (Hhl : forall i l', i <> id -> refs (sd_live s) !! i = Some l' -> alter f l (sd_heap s) !! l' = sd_heap s !! l').
  { intros i l' Hi Hi'. apply list_lookup_alter_ne. intros ->. apply Hi. by eapply live_injective. }
  assert (Hhr : alter f l (sd_heap s) !! l = Some (f r)) by (by rewrite list_lookup_alter_eq, Hr).
  assert (Elive : liveOf (setKeys (writeThrough s l f) keys) = <[id := f r]> (liveOf s)).
  { apply map_eq. intros i. unfold liveOf. cbn [setKeys writeThrough sd_heap sd_live]. rewrite contents_lookup. destruct (decide (i = id)) as [->|Hne].
    - rewrite Hl, lookup_insert_eq. cbn. done.
    - rewrite lookup_insert_ne, contents_lookup by done. destruct (refs (sd_live s) !! i) as [l'|] eqn:E; [|done]. cbn. by eapply Hhl. }
  assert (Ebase : baseOf (setKeys (writeThrough s l f) keys) = baseOf s) by (unfold baseOf; cbn [setKeys writeThrough sd_heap sd_base]; by apply contents_heap).
  split; [|split; [done|split]].
  - split; cbn [setKeys writeThrough sd_heap sd_base sd_live sd_upserts sd_deletes sd_keys]; try done.
    + by eapply tableOK_heap.
    + split; [|apply (tk_ids _ _ _ Hlv)|apply (tk_deleted _ _ _ Hlv)]. intros i l' Hi. destruct (decide (i = id)) as [->|Hne].
      * rewrite Hl in Hi. injection Hi as <-. exists (f r). done.
      * rewrite (Hhl i l' Hne Hi). by apply (tk_refs _ _ _ Hlv).
    + by rewrite length_alter.
    + intros i Hi. destruct (decide (i = id)) as [->|Hne]; [by apply Hkid|]. rewrite Hks in Hi by done. by apply Hkin.
    + intros i x y Hx Hy. assert (Hx' : baseOf s !! i = Some x) by (rewrite <- Ebase; exact Hx).
      assert (Hy' : (<[id := f r]> (liveOf s)) !! i = Some y) by (rewrite <- Elive; exact Hy).
      destruct (decide (i = id)) as [->|Hne]; [rewrite lookup_insert_eq in Hy'; injection Hy' as <-; by apply Htr|].
      rewrite lookup_insert_ne in Hy' by done. rewrite Hks by done. by eapply Hk.
  - split_and!; [done|exact Hhr|done].
  - split_and!; cbn; [|done|by rewrite length_alter]. apply list_eq. intros i. destruct (decide (i < start)%nat) as [Hi|Hi].
    + rewrite !lookup_take_lt by done. rewrite list_lookup_alter_ne by lia. done.
    + by rewrite !lookup_take_ge by lia.
Qed.

(** A record removed; [id] may have none. *)
Lemma drop_record start s bn n id : sideOK start s bn n -> id < n ->
  let s' := markDelete (dropRecord s id) (hasRecord (sd_base s) id) id in
  sideOK start s' bn n /\ liveOf s' = delete id (liveOf s) /\ frozen start s s'.
Proof.
  intros Hs Hid. cbv zeta. pose proof Hs as [Hb Hlv Hg Hlow Hs0 Hown Hdisj Hup Hde Hsame Hkin Hk]. rewrite (hasRecord_refs _ _ _ _ Hb).
  set (s' := markDelete (dropRecord s id) (bool_decide (is_Some (refs (sd_base s) !! id))) id).
  assert (Elive : liveOf s' = delete id (liveOf s)).
  { apply map_eq. intros i. unfold liveOf, s'. cbn [markDelete dropRecord sd_heap sd_live refs]. rewrite contents_lookup. destruct (decide (i = id)) as [->|Hne].
    - by rewrite !lookup_delete_eq.
    - by rewrite !lookup_delete_ne, contents_lookup. }
  split; [|split; [done|split_and!; done]]. subst s'.
  split; cbn [markDelete dropRecord sd_heap sd_base sd_live sd_upserts sd_deletes sd_keys refs deleted]; try done.
  - split; cbn [refs deleted].
    + intros i l. rewrite lookup_delete_Some. intros [_ Hi]. by apply (tk_refs _ _ _ Hlv).
    + intros i [l Hi]. rewrite lookup_delete_Some in Hi. apply (tk_ids _ _ _ Hlv). destruct Hi. eauto.
    + intros i Hi. destruct (decide (i = id)) as [->|Hne]; [split; [done|by rewrite lookup_delete_eq]|]. rewrite lookup_delete_ne by done. apply (tk_deleted _ _ _ Hlv). set_solver.
  - intros i l. rewrite lookup_delete_Some. intros [_ Hi]. by apply Hown.
  - case_bool_decide; set_solver.
  - intros i Hi. rewrite lookup_delete_ne by set_solver. apply Hup. set_solver.
  - intros i Hi. destruct (decide (i = id)) as [->|Hne].
    + rewrite lookup_delete_eq. split; [|done]. case_bool_decide as Hc; [done|]. by apply Hde in Hi as [? _].
    + rewrite lookup_delete_ne by done. apply Hde. case_bool_decide; set_solver.
  - intros i Hi1 Hi2. destruct (decide (i = id)) as [->|Hne].
    + rewrite lookup_delete_eq. case_bool_decide as Hc; [set_solver|]. symmetry. by apply eq_None_not_Some.
    + rewrite lookup_delete_ne by done. apply Hsame; [set_solver|]. case_bool_decide; set_solver.
  - intros i x y Hx Hy. assert (Hy' : delete id (liveOf s) !! i = Some y) by (rewrite <- Elive; exact Hy). apply lookup_delete_Some in Hy' as [_ Hy']. by eapply Hk.
Qed.
(** ** Tracked keys *)

(** The same, while the keys [ex] are still to be recorded. *)
Definition trackedBut (keys : option (slice gostring)) (ex : list gostring) (x y : A) : Prop :=
  match keys with
  | None => entRest x y /\ sameProps (entProps x) (entProps y) ex
  | Some None => True
  | Some (Some ks) => NoDup ks /\ entRest x y /\ sameProps (entProps x) (entProps y) (ks ++ ex)
  end.

Lemma tracked_nil keys x y : trackedBut keys [] x y <-> tracked keys x y.
Proof. destruct keys as [[ks|]|]; cbn; rewrite ?app_nil_r; done. Qed.

Lemma tracked_write keys ex x y y' : tracked keys x y -> entRest y y' -> sameProps (entProps y) (entProps y') ex -> trackedBut keys ex x y'.
Proof.
  intros Ht Hr Hp. destruct keys as [[ks|]|]; cbn in *; [|done|].
  - destruct Ht as (Hn & Hr' & Hp'). split; [done|]. split; [by etransitivity|]. intros k Hk. rewrite Hp', Hp by set_solver. done.
  - destruct Ht as [Hr' Hp']. split; [by etransitivity|]. intros k Hk. rewrite Hp', Hp by set_solver. done.
Qed.

Lemma track_keys s id key : exists keys, trackProperty s id key = setKeys s keys /\ (forall i, i <> id -> keys !! i = sd_keys s !! i) /\
  (is_Some (keys !! id) -> is_Some (refs (sd_base s) !! id) \/ is_Some (sd_keys s !! id)) /\
  (forall ex x y, is_Some (refs (sd_base s) !! id) -> trackedBut (sd_keys s !! id) (key :: ex) x y -> trackedBut (keys !! id) ex x y).
Proof.
  unfold trackProperty. case_bool_decide as Hb; cbn [negb].
  2:{ exists (sd_keys s). split; [by rewrite setKeys_eta|]. split; [done|]. split; [by right|]. intros ex x y Hb'. done. }
  destruct (sd_keys s !! id) as [[ks|]|] eqn:E.
  - case_bool_decide as Hk.
    + exists (sd_keys s). split; [done|]. split; [done|]. split; [by left|]. intros ex x y _ (Hn & Hr & Hp). rewrite E. cbn. split; [done|]. split; [done|].
      intros k Hk'. apply Hp. set_solver.
    + destruct (maxTrackedPropertyKeys <=? length ks)%nat.
      * eexists. split; [done|]. split; [intros i Hi; by rewrite lookup_insert_ne|]. split; [by left|]. intros ex x y _ _. by rewrite lookup_insert_eq.
      * eexists. split; [done|]. split; [intros i Hi; by rewrite lookup_insert_ne|]. split; [by left|]. intros ex x y _ (Hn & Hr & Hp). rewrite lookup_insert_eq. cbn.
        split; [apply NoDup_app; split_and!; [done|set_solver|apply NoDup_singleton]|]. split; [done|]. intros k Hk'. apply Hp. set_solver.
  - exists (sd_keys s). split; [done|]. split; [done|]. split; [by left|]. intros ex x y _ _. by rewrite E.
  - rewrite bool_decide_false by set_solver. cbn [length Nat.leb maxTrackedPropertyKeys].
    eexists. split; [done|]. split; [intros i Hi; by rewrite insert_insert_eq, lookup_insert_ne|]. split; [by left|].
    intros ex x y _ [Hr Hp]. rewrite insert_insert_eq, lookup_insert_eq. cbn. split; [apply NoDup_singleton|]. split; [done|]. intros k Hk. apply Hp. set_solver.
Qed.

Lemma setKeys_setKeys s k1 k2 : setKeys (setKeys s k1) k2 = setKeys s k2.
Proof. done. Qed.

Lemma track_all s id ks : exists keys, foldl (fun s k => trackProperty s id k) s ks = setKeys s keys /\ (forall i, i <> id -> keys !! i = sd_keys s !! i) /\
  (is_Some (keys !! id) -> is_Some (refs (sd_base s) !! id) \/ is_Some (sd_keys s !! id)) /\
  (forall x y, is_Some (refs (sd_base s) !! id) -> trackedBut (sd_keys s !! id) ks x y -> tracked (keys !! id) x y).
Proof.
  revert s. induction ks as [|k ks IH]; intros s; cbn [foldl].
  - exists (sd_keys s). split; [by rewrite setKeys_eta|]. split; [done|]. split; [by right|]. intros x y _. by rewrite tracked_nil.
  - destruct (track_keys s id k) as (keys1 & E1 & H1 & H2 & H3). destruct (IH (trackProperty s id k)) as (keys2 & E2 & H4 & H5 & H6).
    rewrite E1 in *. exists keys2. rewrite E2. split; [done|]. cbn [setKeys sd_keys sd_base] in *. split; [intros i Hi; rewrite H4, H1 by done; done|]. split.
    + intros Hk%H5. naive_solver.
    + intros x y Hb Ht. apply H6; [done|]. by apply H3.
Qed.

(** A write that changes the properties [ks], recorded key by key. *)
Lemma write_tracked start s bn n id l r f ks :
  sideOK start s bn n -> writableAt start s id l r -> entID (f r) = id -> recordOK (f r) -> entRest r (f r) -> sameProps (entProps r) (entProps (f r)) ks ->
  let s' := foldl (fun s k => trackProperty s id k) (writeThrough s l f) ks in
  sideOK start s' bn n /\ liveOf s' = <[id := f r]> (liveOf s) /\ frozen start s s'.
Proof.
  intros Hs Hw Ef Hok Hr Hp. cbv zeta. destruct (track_all (writeThrough s l f) id ks) as (keys & E & H1 & H2 & H3). rewrite E. cbn [writeThrough sd_keys sd_base] in H1, H2, H3.
  destruct (write_record start s bn n id l r f keys Hs Hw Ef Hok H1) as (H4 & H5 & _ & H6); [| |done].
  - intros Hk%H2. destruct Hk as [?|Hk]; [done|]. by apply (so_keysIn _ _ _ _ Hs).
  - intros x Hx. apply H3; [eapply base_contents; eauto|]. eapply tracked_write; [|done|done]. eapply (so_keys _ _ _ _ Hs); [done|].
    destruct Hw as (Hl & Hr' & _). unfold liveOf. by rewrite contents_lookup, Hl.
Qed.

(** A write behind the fallback mark, of any part of the record. *)
Lemma write_untracked start s bn n id l r f :
  sideOK start s bn n -> writableAt start s id l r -> entID (f r) = id -> recordOK (f r) -> (is_Some (refs (sd_base s) !! id) -> sd_keys s !! id = Some None) ->
  sideOK start (writeThrough s l f) bn n /\ liveOf (writeThrough s l f) = <[id := f r]> (liveOf s) /\ frozen start s (writeThrough s l f).
Proof.
  intros Hs Hw Ef Hok Hk. assert (E : writeThrough s l f = setKeys (writeThrough s l f) (sd_keys s)) by (by destruct s).
  destruct (write_record start s bn n id l r f (sd_keys s) Hs Hw Ef Hok) as (H1 & H2 & _ & H3); [done|apply (so_keysIn _ _ _ _ Hs)| |by rewrite E].
  intros x Hx. rewrite Hk; [done|]. eapply base_contents; eauto.
Qed.

(** A new entity. *)
Lemma create_record start s bn n r : sideOK start s bn n -> 0 < n -> entID r = n -> recordOK r ->
  let s' := markUpsert (setRecord s n r) n in sideOK start s' bn (n + 1) /\ liveOf s' = <[n := r]> (liveOf s) /\ liveOf s !! n = None /\ frozen start s s'.
Proof.
  intros Hs Hn Er Hok. cbv zeta. destruct (fresh_absent _ _ _ _ Hs n ltac:(lia)) as (H1 & H2 & H3 & H4).
  destruct (put_record start s bn n (n + 1) n r Hs ltac:(lia) ltac:(lia) H3 Er Hok) as (H5 & H6 & H7).
  - intros x Hx. assert (is_Some (refs (sd_base s) !! n)) as [? ?] by (eapply base_contents; eauto). congruence.
  - split_and!; try done. unfold liveOf. by rewrite contents_lookup, H1.
Qed.

(** ** Statements *)

(** Nothing changed yet. *)
Lemma fresh_side h t n : tableOK h t n -> sideOK (length h) (mkSide h t t ∅ ∅ ∅) n n.
Proof.
  intros Ht. split; cbn [sd_heap sd_base sd_live sd_upserts sd_deletes sd_keys].
  - done.
  - done.
  - done.
  - intros id l Hl. by eapply table_lt.
  - done.
  - intros id l Hl. by left.
  - set_solver.
  - set_solver.
  - set_solver.
  - done.
  - intros id. rewrite lookup_empty. by intros [? ?].
  - intros id x y Hx Hy. rewrite lookup_empty. unfold baseOf, liveOf in *. cbn in *. simplify_eq. split; [reflexivity|done].
Qed.

Lemma fork_side start s bn n : sideOK start s bn n -> sideOK (length (sd_heap s)) (forkSide s) n n.
Proof. intros Hs. apply fresh_side, (so_live _ _ _ _ Hs). Qed.

(** Thrown away: the transaction is as before. *)
Lemma discard_side start s bn n child m : sideOK start s bn n -> n <= m -> frozen (length (sd_heap s)) (forkSide s) child ->
  sideOK start (discardSide s child) bn m /\ liveOf (discardSide s child) = liveOf s /\ frozen start s (discardSide s child).
Proof.
  intros Hs Hm Hf. pose proof Hs as [Hb Hlv Hg Hlow Hs0 Hown Hdisj Hup Hde Hsame Hkin Hk].
  assert (Hh : forall l, (l < length (sd_heap s))%nat -> sd_heap child !! l = sd_heap s !! l) by (intros l Hl; exact (frozen_lookup _ _ _ _ Hf Hl)).
  assert (Hhb : forall i l, refs (sd_base s) !! i = Some l -> sd_heap child !! l = sd_heap s !! l) by (intros i l Hi; apply Hh, (table_lt _ _ _ _ _ Hb Hi)).
  assert (Hhl : forall i l, refs (sd_live s) !! i = Some l -> sd_heap child !! l = sd_heap s !! l) by (intros i l Hi; apply Hh, (table_lt _ _ _ _ _ Hlv Hi)).
  destruct Hf as (Ht & _ & Hlen). cbn [forkSide sd_heap] in Ht, Hlen. split; [|split].
  - split; cbn [discardSide sd_heap sd_base sd_live sd_upserts sd_deletes sd_keys]; try done; [by apply (tableOK_heap (sd_heap s))|by apply (tableOK_weaken _ _ n); [apply (tableOK_heap (sd_heap s))|]|lia|lia|].
    intros i x y. unfold baseOf, liveOf. cbn [discardSide sd_heap sd_base sd_live]. rewrite (contents_heap (sd_heap s) (sd_heap child) (sd_base s)), (contents_heap (sd_heap s) (sd_heap child) (sd_live s)) by done. apply Hk.
  - unfold liveOf. cbn. by apply contents_heap.
  - split_and!; cbn; [|done|done]. transitivity (take start (take (length (sd_heap s)) (sd_heap child))); [by rewrite take_take, Nat.min_l|]. by rewrite Ht, take_take, Nat.min_l.
Qed.
Section merging.
Context `{MapOrder unit} `{MapOrder (list N)}.

Lemma elem_of_rangeSet ids id : id ∈ rangeSet ids <-> id ∈ ids.
Proof. unfold rangeSet. rewrite elem_of_rangeKeys, <- elem_of_dom, dom_gset_to_gmap. done. Qed.
Lemma rangeSet_nodup ids : NoDup (rangeSet ids).
Proof. apply rangeKeys_nodup. Qed.

Definition markStep (child s : side A) (id : N) : side A := if hasRecord (sd_live child) id then markUpsert s id else markDelete s (hasRecord (sd_base s) id) id.

Lemma marks_merged (child : side A) L : forall s : side A, NoDup L ->
  let s' := foldl (markStep child) s L in
  sd_heap s' = sd_heap s /\ sd_base s' = sd_base s /\ sd_live s' = sd_live s /\ sd_keys s' = sd_keys s /\
  (forall id, id ∈ sd_upserts s' <-> (id ∈ L /\ hasRecord (sd_live child) id = true) \/ (id ∉ L /\ id ∈ sd_upserts s)) /\
  (forall id, id ∈ sd_deletes s' <-> (id ∈ L /\ hasRecord (sd_live child) id = false /\ (hasRecord (sd_base s) id = true \/ id ∈ sd_deletes s)) \/ (id ∉ L /\ id ∈ sd_deletes s)).
Proof.
  induction L as [|i L IH]; intros s Hnd; cbn [foldl]; [set_solver|]. apply NoDup_cons in Hnd as [Hi Hnd].
  destruct (IH (markStep child s i) Hnd) as (E1 & E2 & E3 & E4 & E5 & E6).
  assert (Hstep : sd_heap (markStep child s i) = sd_heap s /\ sd_base (markStep child s i) = sd_base s /\ sd_live (markStep child s i) = sd_live s /\
    sd_keys (markStep child s i) = sd_keys s) by (unfold markStep; by destruct (hasRecord (sd_live child) i)). destruct Hstep as (F1 & F2 & F3 & F4).
  rewrite E1, E2, E3, E4. split_and!; try done.
  - intros id. rewrite E5, elem_of_cons. unfold markStep. destruct (hasRecord (sd_live child) i) eqn:Eh; cbn [markUpsert markDelete sd_upserts];
      rewrite ?elem_of_union, ?elem_of_difference, elem_of_singleton; destruct (decide (id = i)) as [->|Hne]; rewrite ?Eh; intuition congruence.
  - intros id. rewrite E6, F2, elem_of_cons. unfold markStep. destruct (hasRecord (sd_live child) i) eqn:Eh; cbn [markUpsert markDelete sd_deletes];
      [|destruct (hasRecord (sd_base s) i) eqn:Eb]; rewrite ?elem_of_union, ?elem_of_difference, ?elem_of_singleton; destruct (decide (id = i)) as [->|Hne]; rewrite ?Eh, ?Eb; intuition congruence.
Qed.

Definition trackStep (t : table) (child : gmap N (slice gostring)) keys id := if hasRecord t id then mergeTracking keys child id else keys.

Lemma mergeTracking_other parent child i id : i <> id -> mergeTracking parent child i !! id = parent !! id.
Proof. intros Hne. unfold mergeTracking. destruct (mjoin (child !! i)), (parent !! i) as [[?|]|]; rewrite ?lookup_insert_ne by done; done. Qed.

Lemma mergeTracking_local parent parent' child id : parent !! id = parent' !! id -> mergeTracking parent child id !! id = mergeTracking parent' child id !! id.
Proof. intros E. unfold mergeTracking. rewrite E. destruct (mjoin (child !! id)), (parent' !! id) as [[?|]|] eqn:E'; rewrite ?lookup_insert_eq; congruence. Qed.

Lemma keys_merged t child L : forall keys, NoDup L ->
  let keys' := foldl (trackStep t child) keys L in
  forall id, keys' !! id = if bool_decide (id ∈ L) && hasRecord t id then mergeTracking keys child id !! id else keys !! id.
Proof.
  induction L as [|i L IH]; intros keys Hnd; cbn [foldl]; intros id; [by rewrite bool_decide_false by set_solver|]. apply NoDup_cons in Hnd as [Hi Hnd].
  rewrite (IH _ Hnd). unfold trackStep. destruct (decide (id = i)) as [->|Hne].
  - rewrite (bool_decide_false (i ∈ L)), bool_decide_true by set_solver. cbn [andb]. by destruct (hasRecord t i).
  - rewrite (bool_decide_ext (id ∈ i :: L) (id ∈ L)) by set_solver. destruct (hasRecord t i); [|done].
    destruct (bool_decide (id ∈ L) && hasRecord t id); [|by apply mergeTracking_other]. apply mergeTracking_local. by apply mergeTracking_other.
Qed.

Definition mergeStep (acc : slice gostring) (key : gostring) : slice gostring :=
  match acc with
  | None => None
  | Some current =>
      if bool_decide (key ∈ current) then Some current
      else if (maxTrackedPropertyKeys <=? length current)%nat then None else Some (current ++ [key])
  end.

Lemma mergeKeys_spec keys : forall current result, NoDup current -> mergeKeys current keys = Some result -> NoDup result /\ forall k, k ∈ result <-> k ∈ current \/ k ∈ keys.
Proof.
  unfold mergeKeys. change (forall current result, NoDup current -> foldl mergeStep (Some current) keys = Some result -> NoDup result /\ forall k, k ∈ result <-> k ∈ current \/ k ∈ keys).
  assert (Hnone : foldl mergeStep None keys = None) by (induction keys; done). clear Hnone.
  induction keys as [|k keys IH]; intros current result Hnd; cbn [foldl mergeStep]; [intros [= <-]; set_solver|].
  assert (Hnone : foldl mergeStep None keys = None) by (clear; induction keys; done).
  case_bool_decide as Hk; [intros E; apply IH in E as [? ?]; [set_solver|done]|].
  destruct (maxTrackedPropertyKeys <=? length current)%nat; [by rewrite Hnone|].
  intros E. apply IH in E as [? ?]; [set_solver|]. apply NoDup_app. split_and!; [done|set_solver|apply NoDup_singleton].
Qed.

Lemma tracked_compose parent child id x z y : tracked (parent !! id) x z -> tracked (child !! id) z y -> tracked (mergeTracking parent child id !! id) x y.
Proof.
  unfold mergeTracking. intros Hp Hc. destruct (child !! id) as [[ks|]|] eqn:Ec; cbn [mjoin option_join]; [|by rewrite lookup_insert_eq..].
  destruct Hc as (Hn & Hr & Hsame). destruct (parent !! id) as [[cur|]|] eqn:Ep.
  - rewrite lookup_insert_eq. destruct (mergeKeys cur ks) as [res|] eqn:E; [|done]. destruct Hp as (Hn' & Hr' & Hs').
    destruct (mergeKeys_spec _ _ _ Hn' E) as [Hnd Hin]. split; [done|]. split; [by etransitivity|]. intros k Hk. rewrite Hs', Hsame by set_solver. done.
  - by rewrite Ep.
  - rewrite lookup_insert_eq. destruct Hp as [Hr' Hs']. split; [done|]. split; [by etransitivity|]. intros k Hk. rewrite Hs', Hsame by set_solver. done.
Qed.

Lemma merge_side start s bn n child m : sideOK start s bn n -> sideOK (length (sd_heap s)) child n m -> frozen (length (sd_heap s)) (forkSide s) child ->
  sideOK start (mergeSide s child) bn m /\ liveOf (mergeSide s child) = liveOf child /\ frozen start s (mergeSide s child).
Proof.
  intros Hs Hc Hf. pose proof Hs as [Hb Hlv Hg Hlow Hs0 Hown Hdisj Hup Hde Hsame Hkin Hk]. pose proof Hc as [Cb Cl Cg Clow Cs0 Cown Cdisj Cup Cde Csame Ckin Ck].
  assert (Hh : forall l, (l < length (sd_heap s))%nat -> sd_heap child !! l = sd_heap s !! l) by (intros l Hl; exact (frozen_lookup _ _ _ _ Hf Hl)).
  destruct Hf as (Ht & Ebase & Hlen). cbn [forkSide sd_heap sd_base] in Ht, Hlen, Ebase.
  assert (Hhb : forall i l, refs (sd_base s) !! i = Some l -> sd_heap child !! l = sd_heap s !! l) by (intros i l Hi; apply Hh, (table_lt _ _ _ _ _ Hb Hi)).
  assert (Hhl : forall i l, refs (sd_live s) !! i = Some l -> sd_heap child !! l = sd_heap s !! l) by (intros i l Hi; apply Hh, (table_lt _ _ _ _ _ Hlv Hi)).
  set (T := sd_upserts child ∪ sd_deletes child).
  destruct (marks_merged child (rangeSet T) s (rangeSet_nodup T)) as (_ & E2 & _ & E4 & E5 & E6). fold (mergeMarks s child) in *.
  pose proof (keys_merged (sd_base s) (sd_keys child) (rangeSet (sd_upserts child)) (sd_keys s) (rangeSet_nodup _)) as E7. cbv zeta in E7.
  assert (EK : sd_keys (mergeSide s child) = foldl (trackStep (sd_base s) (sd_keys child)) (sd_keys s) (rangeSet (sd_upserts child))).
  { unfold mergeSide. cbn [sd_keys]. unfold mergePropertyTracking. cbn [setKeys sd_keys]. change (foldl (markStep child) s (rangeSet T)) with (mergeMarks s child) in *. by rewrite E2, E4. }
  assert (EU : forall id, id ∈ sd_upserts (mergeSide s child) <-> (id ∈ T /\ is_Some (refs (sd_live child) !! id)) \/ (id ∉ T /\ id ∈ sd_upserts s)).
  { intros id. change (sd_upserts (mergeSide s child)) with (sd_upserts (foldl (markStep child) s (rangeSet T))). rewrite E5, elem_of_rangeSet, (hasRecord_refs _ _ _ _ Cl), bool_decide_eq_true. done. }
  assert (ED : forall id, id ∈ sd_deletes (mergeSide s child) <-> (id ∈ T /\ refs (sd_live child) !! id = None /\ is_Some (refs (sd_base s) !! id)) \/ (id ∉ T /\ id ∈ sd_deletes s)).
  { intros id. change (sd_deletes (mergeSide s child)) with (sd_deletes (foldl (markStep child) s (rangeSet T))).
    rewrite E6, elem_of_rangeSet, (hasRecord_refs _ _ _ _ Cl), (hasRecord_refs _ _ _ _ Hb), bool_decide_eq_true, bool_decide_eq_false, <- eq_None_not_Some.
    split; [|naive_solver]. intros [(H1' & H2' & [H3'|H3'])|?]; [left; done| |by right]. left. apply Hde in H3' as [? _]. done. }
  assert (Elive : liveOf (mergeSide s child) = liveOf child) by done.
  assert (Hcomp : forall id, id ∉ T -> refs (sd_live child) !! id = refs (sd_live s) !! id) by (intros id Hid; rewrite Csame by set_solver; by rewrite Ebase).
  split; [|split; [done|]].
  2:{ split_and!; cbn; [|done|done]. transitivity (take start (take (length (sd_heap s)) (sd_heap child))); [by rewrite take_take, Nat.min_l|]. by rewrite Ht, take_take, Nat.min_l. }
  split; cbn [mergeSide sd_heap sd_base sd_live].
  - by apply (tableOK_heap (sd_heap s)).
  - done.
  - lia.
  - done.
  - lia.
  - intros id l Hl. destruct (Cown id l Hl) as [Hl'|Hl']; [rewrite Ebase in Hl'; by apply Hown|right; lia].
  - apply elem_of_disjoint. intros id [[Hu [l Hl]]|[Hu1 Hu2]]%EU [(Hd0 & Hd & _)|[Hd1 Hd2]]%ED; [congruence|contradiction|contradiction|]. by apply (Hdisj id).
  - intros id [[_ ?]|[Hu1 Hu2]]%EU; [done|]. rewrite Hcomp by done. by apply Hup.
  - intros id [(_ & ? & ?)|[Hd1 Hd2]]%ED; [done|]. rewrite Hcomp by done. by apply Hde.
  - intros id Hu Hd. destruct (decide (id ∈ T)) as [HT|HT].
    + destruct (refs (sd_live child) !! id) as [l|] eqn:El; [destruct Hu; apply EU; left; eauto|]. symmetry. apply eq_None_not_Some. intros Hb'. apply Hd, ED. by left.
    + rewrite Hcomp by done. apply Hsame; [contradict Hu; apply EU; by right|contradict Hd; apply ED; by right].
  - intros id Hid. rewrite EK, E7 in Hid. destruct (bool_decide (id ∈ rangeSet (sd_upserts child)) && hasRecord (sd_base s) id) eqn:Eb; [|by apply Hkin].
    apply andb_true_iff in Eb as [_ Eb]. rewrite (hasRecord_refs _ _ _ _ Hb) in Eb. by apply bool_decide_eq_true in Eb.
  - intros id x y Hx Hy. assert (Hx' : baseOf s !! id = Some x) by (rewrite <- Hx; unfold baseOf; cbn; rewrite (contents_heap (sd_heap s) (sd_heap child) (sd_base s)) by exact Hhb; done).
    assert (Hy' : liveOf child !! id = Some y) by exact Hy. assert (Hbid : is_Some (refs (sd_base s) !! id)) by (eapply base_contents; eauto).
    rewrite EK, E7, (hasRecord_refs _ _ _ _ Hb), (bool_decide_true (is_Some _)), andb_true_r by done. case_bool_decide as Hin.
    + assert (Hz : forall z, liveOf s !! id = Some z -> baseOf child !! id = Some z).
      { intros z Hz. rewrite <- Hz. unfold baseOf, liveOf. rewrite Ebase, (contents_heap (sd_heap s) (sd_heap child) (sd_live s)) by exact Hhl. done. }
      destruct (liveOf s !! id) as [z|] eqn:Ez; [eapply tracked_compose; [by eapply Hk|]; eapply Ck; eauto|].
      assert (Eck : sd_keys child !! id = None).
      { apply eq_None_not_Some. intros Hck%Ckin. rewrite Ebase in Hck. apply (table_dom _ _ _ _ Hlv) in Hck as [z Hz']. unfold liveOf in Ez. congruence. }
      unfold mergeTracking. rewrite Eck. cbn. by rewrite lookup_insert_eq.
    + rewrite elem_of_rangeSet in Hin. eapply Hk; [done|]. rewrite <- Hy'. unfold liveOf. rewrite !contents_lookup.
      assert (Hdl : id ∉ sd_deletes child). { intros [_ Hd]%Cde. unfold liveOf in Hy'. rewrite contents_lookup, Hd in Hy'. done. }
      rewrite (Hcomp id) by set_solver. destruct (refs (sd_live s) !! id) as [l|] eqn:El; [|done]. cbn. symmetry. by eapply Hhl.
Qed.
End merging.
End sides.

(** * Edge lists and postings of a graph

    The adjacency lists hold the edges of every node in increasing order, and the postings
    the entities that carry a string; how each changes with the records. *)

(** ** Adjacency *)

(** Every identifier handed out so far. *)
Definition usedIDs (next : N) : list N := N.of_nat <$> seq 1 (N.to_nat (next - 1)).

Lemma elem_of_usedIDs next id : id ∈ usedIDs next <-> 0 < id < next.
Proof.
  unfold usedIDs. rewrite list_elem_of_fmap. setoid_rewrite elem_of_seq. split; [intros (k & -> & Hk); lia|]. intros Hid. exists (N.to_nat id). lia.
Qed.
Lemma usedIDs_length next : 0 < next -> zlen (usedIDs next) = (Z.of_N next - 1)%Z.
Proof. intros Hn. unfold usedIDs, zlen. rewrite length_fmap, length_seq. lia. Qed.

Lemma stands_grow el l next next' : stands el l (usedIDs next) -> 0 < next -> next <= next' -> stands el l (usedIDs next').
Proof.
  intros (all & R & H1 & H2 & H3 & H4 & H5 & H6) H0 Hle. exists all, R. split_and!; try done.
  - intros x Hx. apply H4 in Hx. rewrite elem_of_usedIDs in *. lia.
  - rewrite usedIDs_length in * by lia. lia.
Qed.

Section adjacency.
Context (endOf : EdgeRecord -> N).
Implicit Types (edges : gmap N EdgeRecord) (m : gmap N EdgeList).

(** A list that holds the edges with the end [id]. *)
Definition listed (next : N) (el : option EdgeList) edges (id : N) : Prop :=
  exists l, stands el l (usedIDs next) /\ StronglySorted N.lt l /\ forall e, e ∈ l <-> exists r, edges !! e = Some r /\ endOf r = id.
Definition adjacency (next : N) m edges : Prop := forall id, listed next (m !! id) edges id.

Lemma listed_reads next el edges id : listed next el edges id ->
  StronglySorted N.lt (EdgeAll el) /\ EdgeLen el = zlen (EdgeAll el) /\ forall e, e ∈ EdgeAll el <-> exists r, edges !! e = Some r /\ endOf r = id.
Proof. intros (l & Hst & Hs & Hin). destruct (stands_reads _ _ _ Hst) as (E1 & E2 & _). unfold IDs in E1. by rewrite E1. Qed.

Lemma listed_ext next el edges edges' id : (forall e, (exists r, edges !! e = Some r /\ endOf r = id) <-> (exists r, edges' !! e = Some r /\ endOf r = id)) ->
  listed next el edges id -> listed next el edges' id.
Proof. intros Heq (l & H1 & H2 & H3). exists l. split; [done|]. split; [done|]. intros e. by rewrite H3. Qed.

Lemma sorted_snoc (l : list N) x : StronglySorted N.lt l -> Forall (fun y => y < x) l -> StronglySorted N.lt (l ++ [x]).
Proof.
  induction l as [|y l IH]; intros Hs Hf; [repeat constructor|]. apply StronglySorted_inv in Hs as [Hs Hy]. apply Forall_cons in Hf as [Hyx Hf].
  cbn. constructor; [by apply IH|]. apply Forall_app. split; [done|]. by apply Forall_singleton.
Qed.

Lemma sorted_filter (P : N -> Prop) `{forall x, Decision (P x)} (l : list N) : StronglySorted N.lt l -> StronglySorted N.lt (filter P l).
Proof.
  induction l as [|y l IH]; intros Hs; [done|]. apply StronglySorted_inv in Hs as [Hs Hy]. rewrite filter_cons. destruct (decide (P y)); [|by apply IH].
  constructor; [by apply IH|]. rewrite Forall_forall in *. intros x Hx. apply Hy. apply list_elem_of_filter in Hx. tauto.
Qed.

Lemma listed_append next el edges r : listed next el edges (endOf r) -> 0 < next -> next < 2 ^ 63 -> edges !! next = None ->
  listed (next + 1) (Some (Append el next)) (<[next := r]> edges) (endOf r).
Proof.
  intros (l & Hst & Hs & Hin) H0 Hn Hnew. exists (l ++ [next]).
  assert (Hl : forall x, x ∈ l -> 0 < x < next).
  { destruct Hst as (all & R & _ & -> & _ & Hsub & _). intros x Hx%live_sub%Hsub. by apply elem_of_usedIDs. }
  split_and!.
  - pose proof (stands_step el l (usedIDs next) (EAppend next) [] Hst) as Hstep. cbn [applyEdgeOp specEdgeOp validEdgeOps] in Hstep.
    destruct Hstep as (all & R & H1 & H2 & H3 & H4 & H5 & H6).
    + split; [split; [lia|rewrite elem_of_usedIDs; lia]|]. unfold zlen in *. cbn [length]. pose proof (usedIDs_length next H0) as E. unfold zlen in E. lia.
    + exists all, R. split_and!; try done.
      * intros x Hx%H4. apply elem_of_cons in Hx as [->|Hx]; rewrite elem_of_usedIDs in *; lia.
      * unfold zlen in *. cbn [length] in H6. pose proof (usedIDs_length next H0) as E. pose proof (usedIDs_length (next + 1) ltac:(lia)) as E'. unfold zlen in E, E'. lia.
  - apply sorted_snoc; [done|]. apply Forall_forall. intros x Hx%Hl. lia.
  - intros e. rewrite elem_of_app, list_elem_of_singleton, Hin. split.
    + intros [(r' & Hr' & Er')| ->]; [|exists r; by rewrite lookup_insert_eq]. exists r'. rewrite lookup_insert_ne; [done|]. congruence.
    + intros (r' & Hr' & Er'). apply lookup_insert_Some in Hr' as [[<- _]|[_ Hr']]; [by right|]. left. eauto.
Qed.

Lemma listed_grow next next' el edges id : listed next el edges id -> 0 < next -> next <= next' -> listed next' el edges id.
Proof. intros (l & H1 & H2 & H3) H0 Hle. exists l. split; [by eapply stands_grow|done]. Qed.

Lemma adjacency_append next m edges r : adjacency next m edges -> 0 < next -> next < 2 ^ 63 -> edges !! next = None ->
  adjacency (next + 1) (<[endOf r := Append (m !! endOf r) next]> m) (<[next := r]> edges).
Proof.
  intros Ha H0 Hn Hnew id. destruct (decide (id = endOf r)) as [->|Hne].
  - rewrite lookup_insert_eq. by apply listed_append.
  - rewrite lookup_insert_ne by done. eapply (listed_grow next); [|done|lia]. eapply listed_ext; [|apply Ha]. intros e. split.
    + intros (r' & Hr' & Er'). exists r'. rewrite lookup_insert_ne; [done|]. congruence.
    + intros (r' & Hr' & Er'). apply lookup_insert_Some in Hr' as [[_ <-]|[_ Hr']]; [done|]. eauto.
Qed.

(** The edges [X] taken out of a list that knows them. *)
Lemma listed_without next el el' edges id (X : gset N) : 0 < next -> next <= 2 ^ 63 -> listed next el edges id ->
  (forall l, stands el l (usedIDs next) -> EdgeAll el = l -> stands el' (filter (fun x => x ∉ X) l) (usedIDs next)) ->
  listed next el' (filter (fun kv => kv.1 ∉ X) edges) id.
Proof.
  intros H0 Hn (l & Hst & Hs & Hin) Hw. destruct (stands_reads _ _ _ Hst) as (E1 & _ & _). exists (filter (fun x => x ∉ X) l). split_and!.
  - by apply Hw.
  - by apply sorted_filter.
  - intros e. rewrite list_elem_of_filter, Hin. split.
    + intros [HX (r & Hr & Er)]. exists r. split; [|done]. by apply map_lookup_filter_Some.
    + intros (r & [Hr HX]%map_lookup_filter_Some & Er). split; [done|]. eauto.
Qed.

Lemma used_room next : 0 < next -> next <= 2 ^ 63 -> (zlen (usedIDs next) < 2 ^ 63)%Z.
Proof. intros H0 Hn. rewrite usedIDs_length by done. lia. Qed.

Lemma listed_batch next el edges id ids : 0 < next -> next <= 2 ^ 63 -> listed next el edges id -> ids ⊆ EdgeAll el ->
  listed next (RemoveKnownBatch el ids) (filter (fun kv => kv.1 ∉ (list_to_set ids : gset N)) edges) id.
Proof.
  intros H0 Hn Hl Hsub. eapply listed_without; [done|done|done|]. intros l Hst E.
  pose proof (stands_step el l (usedIDs next) (ERemoveBatch ids) [] Hst) as Hstep. cbn [applyEdgeOp specEdgeOp validEdgeOps] in Hstep.
  rewrite (list_filter_iff _ (fun x => x ∉ ids)) by set_solver. apply Hstep. split; [by rewrite E in Hsub|by apply used_room].
Qed.

Lemma listed_known next el edges id e : 0 < next -> next <= 2 ^ 63 -> listed next el edges id -> e ∈ EdgeAll el ->
  listed next (RemoveKnown el e) (delete e edges) id.
Proof.
  intros H0 Hn Hl He. assert (Hw : listed next (RemoveKnown el e) (filter (fun kv => kv.1 ∉ ({[e]} : gset N)) edges) id).
  { eapply listed_without; [done|done|done|]. intros l Hst E. pose proof (stands_step el l (usedIDs next) (ERemoveKnown e) [] Hst) as Hstep.
    cbn [applyEdgeOp specEdgeOp validEdgeOps] in Hstep. rewrite (list_filter_iff _ (fun x => x <> e)) by set_solver. apply Hstep. split; [by rewrite E in He|by apply used_room]. }
  eapply listed_ext; [|exact Hw]. intros x. split; intros (r & Hr & Er); exists r; (split; [|done]).
  - apply map_lookup_filter_Some in Hr as [Hr Hx]. rewrite lookup_delete_ne; [done|set_solver].
  - apply lookup_delete_Some in Hr as [Hx Hr]. apply map_lookup_filter_Some. split; [done|]. cbn. set_solver.
Qed.

(** What [storeList] leaves at its node. *)
Lemma storeList_at next m el edges id : listed next el edges id -> listed next (storeList m id el !! id) edges id.
Proof.
  intros Hl. unfold storeList. destruct (Z.eqb_spec (EdgeLen el) 0) as [E|E].
  - rewrite lookup_delete_eq. destruct (listed_reads _ _ _ _ Hl) as (Hs & Hlen & Hin). assert (Enil : EdgeAll el = []) by (destruct (EdgeAll el); [done|unfold zlen in *; cbn in *; lia]).
    destruct Hl as (l & Hst & _ & Hin'). destruct (stands_reads _ _ _ Hst) as (El & _ & _). unfold IDs in El. rewrite Enil in El. subst l. exists []. split_and!; [|constructor|done].
    exists [], ∅. split_and!; [done|done|apply NoDup_nil_2|set_solver|apply Forall_nil_2|unfold zlen; cbn; lia].
  - destruct el; [by rewrite lookup_insert_eq|by cbn in E].
Qed.
Lemma storeList_ne m id el id' : id' <> id -> storeList m id el !! id' = m !! id'.
Proof. intros Hne. unfold storeList. destruct (_ =? _)%Z; [|destruct el]; rewrite ?lookup_insert_ne, ?lookup_delete_ne by done; done. Qed.

Lemma adjacency_known next m edges e r : 0 < next -> next <= 2 ^ 63 -> adjacency next m edges -> edges !! e = Some r ->
  adjacency next (storeList m (endOf r) (RemoveKnown (m !! endOf r) e)) (delete e edges).
Proof.
  intros H0 Hn Ha He id. destruct (decide (id = endOf r)) as [->|Hne].
  - apply storeList_at, listed_known; [done|done|apply Ha|]. apply (listed_reads _ _ _ _ (Ha (endOf r))). eauto.
  - rewrite storeList_ne by done. eapply listed_ext; [|apply Ha]. intros x. split; intros (r' & Hr' & Er').
    + exists r'. split; [|done]. rewrite lookup_delete_ne; [done|]. congruence.
    + apply lookup_delete_Some in Hr' as [_ Hr']. eauto.
Qed.
End adjacency.

(** ** Postings *)

Section postings.
Context `{MapOrder unit} `{MapOrder (gmap gostring postingList)}.

Lemma postingsRep_ext p f g : (forall k, f k = g k) -> postingsRep p f -> postingsRep p g.
Proof. intros E (gb & Hr & Hb & Hm). exists gb. split; [done|]. split; [|done]. eapply bucketsRep_ext; [|exact Hb]. intros k. by rewrite E. Qed.
End postings.
