(* ===== verification/GraphTxSpec.v ===== *)
(** * The invariant of a write transaction

    At every point of a transaction its graph is well formed: records under their own
    identifiers, edges between nodes that exist, text of nodes that exist, adjacency
    lists and postings that agree with the records; and its change set describes how it
    differs from the graph the transaction started from. Every call keeps that, whether
    it succeeds or fails, and none writes to a nil map.

    Further down: the steps the calls share. *)
From S2P Require Import Prelude.
From S2P Require Import Adjacency.
From S2P Require Import AdjacencySpec.
From S2P Require Import GoBytes.
From S2P Require Import BinaryCodec.
From S2P Require Import BinaryCodecSpec.
From S2P Require Import BinaryValue.
From S2P Require Import BinaryValueSpec.
From S2P Require Import BinaryRecords.
From S2P Require Import GoMaps.
From S2P Require Import Values.
From S2P Require Import ValuesSpec.
From S2P Require Import Properties.
From S2P Require Import PageRecords.
From S2P Require Import Streams.
From S2P Require Import StreamStoreSpec.
From S2P Require Import StreamPersist.
From S2P Require Import StreamPersistSpec.
From S2P Require Import StreamTx.
From S2P Require Import StreamTxSpec.
From S2P Require Import PropertyDelta.
From S2P Require Import WalAccumulator.
From S2P Require Import WalInvariant.
From S2P Require Import GraphPersist.
From S2P Require Import GraphChanges.
From S2P Require Import StringPostings.
From S2P Require Import IndexUpkeep.
From S2P Require Import IndexTheorems.
From S2P Require Import GraphTx.
From S2P Require Import GraphStatement.
From S2P Require Import GraphSides.

#[local] Open Scope go_scope.

(** ** Nodes and edges as entities *)

#[global] Instance sameNode_equiv : Equivalence sameNode.
Proof. unfold sameNode. split; [done|by intros x y|by intros x y z -> ->]. Qed.
#[global] Instance sameEdge_equiv : Equivalence sameEdge.
Proof. unfold sameEdge. split; [done|by intros x y (-> & -> & ->)|]. intros x y z (-> & -> & ->) (-> & -> & ->). done. Qed.

#[global] Instance node_entity : Entity NodeRecord :=
  {| entID := n_ID; entProps := n_Properties; entRest := sameNode; entShape := fun n => NoDup (elems (n_Labels n)); entRest_equiv := sameNode_equiv |}.
#[global] Instance edge_entity : Entity EdgeRecord :=
  {| entID := e_ID; entProps := e_Properties; entRest := sameEdge; entShape := fun _ => True; entRest_equiv := sameEdge_equiv |}.

(** ** Properties *)

Definition wfProperties (values : list (gostring * value)) : Prop := NoDup values.*1 /\ Forall (fun kv => wfV kv.2) values.

Lemma PAll_Forall p (P : value -> Prop) : Forall (fun kv => P kv.2) (PAll p) <-> Forall (fun e : gostring * propertyValue => P (raw e.2)) (entries p).
Proof. unfold PAll. by rewrite List.Forall_map. Qed.

Lemma set_property p key v : propertiesOK p -> normalAt 0 v -> propertiesOK (PSet p key v) /\ sameProps p (PSet p key v) [key].
Proof.
  intros [Hw Hn] Hv. pose proof Hw as [Hs Hk]. pose proof (PSet_entries p key v Hs) as E.
  assert (Hs' : keysSorted (entries (PSet p key v))) by (rewrite E; by apply mapInsert_sorted). split; [split; [split|]|].
  - done.
  - rewrite E. by apply mapInsert_Forall.
  - apply (PAll_Forall _ (normalAt 0)). rewrite E. apply mapInsert_Forall; [done|]. by apply (PAll_Forall p (normalAt 0)).
  - intros k Hne. rewrite !Lookup_entries, E by done. rewrite mapLookup_insert_ne; [done|set_solver].
Qed.

Lemma delete_property p key : propertiesOK p -> propertiesOK (PDelete p key) /\ sameProps p (PDelete p key) [key].
Proof.
  intros [Hw Hn]. pose proof Hw as [Hs Hk]. pose proof (PDelete_entries p key Hs) as E.
  assert (Hs' : keysSorted (entries (PDelete p key))) by (rewrite E; by apply mapDelete_sorted).
  assert (Hsub : forall P : gostring * propertyValue -> Prop, Forall P (entries p) -> Forall P (entries (PDelete p key))).
  { intros P HP. rewrite E. rewrite Forall_forall in HP |- *. intros e [_ He]%list_elem_of_filter. by apply HP. }
  split; [split; [split|]|].
  - done.
  - by apply Hsub.
  - apply (PAll_Forall _ (normalAt 0)). apply Hsub. by apply (PAll_Forall p (normalAt 0)).
  - intros k Hne. rewrite !Lookup_entries, E, mapDelete_lookup by done. rewrite bool_decide_false; [done|set_solver].
Qed.

Lemma from_map m : NoDup m.*1 -> Forall (fun kv => normalAt 0 kv.2) m -> propertiesOK (PropertiesFromMap m).
Proof.
  intros Hnd Hn. split; [apply (represents_from m Hnd)|]. apply (PAll_Forall _ (normalAt 0)). unfold PropertiesFromMap, sortEntries. cbn [entries].
  rewrite merge_sort_Permutation, List.Forall_map. exact Hn.
Qed.

Lemma normalized_storage values p : wfProperties values -> NormalizePropertyStorage values = inl p -> propertiesOK p.
Proof.
  intros [Hnd Hw] E. pose (entry := fun kv : gostring * value => (InternString kv.1, typedPropertyValue (normV kv.2))).
  assert (Hp : performs (walk_add (nlen values) ;;; walkEach (fun kv => normalized <~ normalizeProperty kv.1 kv.2 ;; wret (InternString kv.1, typedPropertyValue normalized)) values)%walk
    (forallb Datatypes.id (map (fun kv => utf8Valid kv.1 && okV 0 kv.2) values)) (nlen values + nsum (map (fun kv => elementsV kv.2) values))
    (nsum (map (fun kv => nlen kv.1 + bytesV kv.2) values)) (map entry values)).
  { eapply performs_eq; [eapply performs_bind; [apply performs_add|]|..].
    - rewrite <- (map_id values) at 1. apply (performs_each_map _ (fun kv => kv) (fun kv => utf8Valid kv.1 && okV 0 kv.2) (fun kv => elementsV kv.2) (fun kv => nlen kv.1 + bytesV kv.2) entry).
      apply Forall_true. intros kv. eapply performs_eq; [eapply performs_bind; [apply performs_property|apply performs_ret]|..]; rewrite ?N.add_0_r, ?andb_true_r; done.
    - done.
    - done.
    - by rewrite N.add_0_l.
    - done. }
  apply performs_new in Hp. unfold NormalizePropertyStorage in E. destruct values as [|kv values]; [injection E as <-; split; [split; [apply (SSorted_nil _)|constructor]|constructor]|].
  destruct (forallb _ _ && _ && _) eqn:Hok.
  2:{ destruct Hp as (err & w & Hp). rewrite Hp in E. done. }
  rewrite Hp in E. injection E as <-. apply andb_true_iff in Hok as [[Hok _]%andb_true_iff _]. rewrite forallb_forall in Hok.
  assert (Hall : forall x, x ∈ kv :: values -> normalAt 0 (normV x.2)).
  { intros x Hx. apply norm_normal; [by apply (proj1 (Forall_forall _ _) Hw)|]. specialize (Hok (utf8Valid x.1 && okV 0 x.2)). rewrite in_map_iff in Hok.
    assert (Hx' : (utf8Valid x.1 && okV 0 x.2) = true) by (apply Hok; exists x; split; [done|by apply list_elem_of_In]). by apply andb_true_iff in Hx' as [_ ?]. }
  change (propertiesOK (mkProperties (sortEntries (map entry (kv :: values))))).
  assert (Em : map entry (kv :: values) = map (fun x => (x.1, typedPropertyValue x.2)) (map (fun x => (x.1, normV x.2)) (kv :: values))) by (by rewrite map_map).
  rewrite Em. change (propertiesOK (PropertiesFromMap (map (fun x => (x.1, normV x.2)) (kv :: values)))).
  apply from_map.
  - rewrite <- list_fmap_compose. exact Hnd.
  - apply List.Forall_map, Forall_forall. intros x Hx. by apply Hall.
Qed.

Lemma normalized_value v r : wfV v -> NormalizeValue v = inl r -> normalAt 0 r.
Proof. intros Hw E. by destruct (NormalizeValue_normal v r Hw E) as [? _]. Qed.

(** ** Runs of calls *)

(** A run from [tx] does not panic, ends in [Q] when it succeeds and in [E] when it fails. *)
Definition runs {A} (m : act A) (tx : WriteTx) (Q : A -> WriteTx -> Prop) (E : WriteTx -> Prop) : Prop :=
  match m tx with (Done x, tx') => Q x tx' | (Failed _, tx') => E tx' | (Panicked, _) => False end.

Section rules.
Context {A B : Type}.
Implicit Types (tx : WriteTx) (E : WriteTx -> Prop).

Lemma runs_bind (m : act A) (k : A -> act B) tx Q E : runs m tx (fun x tx' => runs (k x) tx' Q E) E -> runs (abind m k) tx Q E.
Proof. unfold runs, abind. destruct (m tx) as [[x|err|] tx']; done. Qed.
Lemma runs_ret (x : A) tx Q E : Q x tx -> runs (aret x) tx Q E.
Proof. done. Qed.
Lemma runs_fail err tx (Q : A -> WriteTx -> Prop) E : E tx -> runs (afail err) tx Q E.
Proof. done. Qed.
Lemma runs_gets (f : WriteTx -> A) tx Q E : Q (f tx) tx -> runs (gets f) tx Q E.
Proof. done. Qed.
Lemma runs_modify f tx Q E : Q tt (f tx) -> runs (modify f) tx Q E.
Proof. done. Qed.
Lemma runs_guard check tx Q E : (check = None -> Q tt tx) -> (check <> None -> E tx) -> runs (guard check) tx Q E.
Proof. unfold runs, guard. destruct check; cbn; auto. Qed.
Lemma runs_ofSum (r : A + error) tx Q E : (forall x, r = inl x -> Q x tx) -> E tx -> runs (ofSum r) tx Q E.
Proof. unfold runs, ofSum. destruct r; cbn; auto. Qed.
Lemma runs_weaken (m : act A) tx (Q Q' : A -> WriteTx -> Prop) E E' :
  runs m tx Q E -> (forall x tx', Q x tx' -> Q' x tx') -> (forall tx', E tx' -> E' tx') -> runs m tx Q' E'.
Proof. unfold runs. destruct (m tx) as [[x|err|] tx']; auto. Qed.
End rules.

Lemma runs_forEach {A} (f : A -> act unit) (I : list A -> WriteTx -> Prop) E l : forall tx,
  I l tx -> (forall x l' tx', I (x :: l') tx' -> runs (f x) tx' (fun _ tx'' => I l' tx'') E) -> runs (forEach f l) tx (fun _ tx' => I [] tx') E.
Proof.
  induction l as [|x l IH]; intros tx HI Hf; [done|]. cbn [forEach]. apply runs_bind. eapply runs_weaken; [by apply (Hf x l tx)| |done]. intros u tx' HI'. by apply IH.
Qed.

(** Checks change the counters only, and cannot fail without a budget. *)
Lemma runs_check n tx (Q : unit -> WriteTx -> Prop) E :
  (forall b, (b = None <-> w_budget tx = None) -> Q tt (withBudget tx b)) -> (w_budget tx <> None -> E tx) -> runs (budgetCheck n) tx Q E.
Proof.
  intros HQ HE. unfold runs, budgetCheck. destruct (w_budget tx) as [b|] eqn:Eb.
  - destruct (_ <? _); [by apply HE|]. by apply HQ.
  - assert (Etx : withBudget tx None = tx) by (rewrite <- Eb; by destruct tx). rewrite <- Etx. by apply HQ.
Qed.
Lemma runs_charge n tx (Q : unit -> WriteTx -> Prop) E :
  (forall b, (b = None <-> w_budget tx = None) -> Q tt (withBudget tx b)) -> (w_budget tx <> None -> E tx) -> runs (chargeTemporary n) tx Q E.
Proof.
  intros HQ HE. unfold runs, chargeTemporary. destruct (w_budget tx) as [b|] eqn:Eb.
  - destruct (_ <? _); [by apply HE|]. by apply HQ.
  - assert (Etx : withBudget tx None = tx) by (rewrite <- Eb; by destruct tx). rewrite <- Etx. by apply HQ.
Qed.

(** ** The invariant *)

(** Where a transaction came from: the first location of its own records, the marks and
    the metadata of the base graph, and the stream store it forked. *)
Record origin := mkOrigin {
  o_nodes : nat; o_edges : nat;
  o_nextNode : N; o_nextEdge : N;
  o_metadata : gmap gostring (slice byte);
  o_streams : StreamStore }.

Definition nodesOf (tx : WriteTx) : gmap N NodeRecord := liveOf (w_nodes tx).
Definition edgesOf (tx : WriteTx) : gmap N EdgeRecord := liveOf (w_edges tx).

Record idsOK (db : Database) : Prop := mkIDsOK {
  id_node : 0 < db_nextNodeID db <= EntityIDExhausted;
  id_edge : 0 < db_nextEdgeID db <= EntityIDExhausted;
  id_reserved : db_reservedNodeID db <= EntityIDExhausted /\ db_reservedEdgeID db <= EntityIDExhausted }.

(** Text belongs to nodes that exist. *)
Record textOK (nodes : gmap N NodeRecord) (t : ftsTable) : Prop := mkTextOK {
  tx_rows : forall id r, fts_rows t !! id = Some r -> is_Some (nodes !! id) /\ ValidateFTSText (fts_Text r) = None;
  tx_deleted : forall id, id ∈ fts_deleted t -> fts_rows t !! id = None }.

Definition texts (t : ftsTable) : gmap N gostring := fts_Text <$> fts_rows t.

Record metadataOK (base live : gmap gostring (slice byte)) (changes : gmap gostring appMetadataChange) : Prop := mkMetadataOK {
  me_changed : forall key c, changes !! key = Some c -> validMetadataKey key = true /\ if ac_delete c then ac_value c = None /\ live !! key = None else live !! key = Some (ac_value c);
  me_same : forall key, changes !! key = None -> live !! key = base !! key;
  me_valid : map_Forall (fun key _ => validMetadataKey key = true) live }.

Section invariant.
Context `{MapOrder unit} `{MapOrder (gmap gostring postingList)} `{MapOrder (list N)}.
Context (o : origin).

Record derivedOK (tx : WriteTx) : Prop := mkDerivedOK {
  dv_ends : map_Forall (fun _ e => is_Some (nodesOf tx !! e_SourceID e) /\ is_Some (nodesOf tx !! e_TargetID e)) (edgesOf tx);
  dv_labels : postingsRep (w_Labels tx) (ofScope nodeScopes (nodesOf tx));
  dv_types : postingsRep (w_EdgeTypes tx) (ofScope edgeScopes (edgesOf tx));
  dv_tokens : postingsRep (w_FTSTokens tx) (ofScope fts_Tokens (fts_rows (w_fts tx)));
  dv_outgoing : adjacency e_SourceID (db_nextEdgeID (w_db tx)) (w_Outgoing tx) (edgesOf tx);
  dv_incoming : adjacency e_TargetID (db_nextEdgeID (w_db tx)) (w_Incoming tx) (edgesOf tx) }.

Record txInv (tx : WriteTx) : Prop := mkTxInv {
  ti_open : ensureWritable (w_call tx) = None;
  ti_streams : records (o_streams o) (w_call tx);
  ti_ids : idsOK (w_db tx);
  ti_nodes : sideOK (o_nodes o) (w_nodes tx) (o_nextNode o) (db_nextNodeID (w_db tx));
  ti_edges : sideOK (o_edges o) (w_edges tx) (o_nextEdge o) (db_nextEdgeID (w_db tx));
  ti_text : textOK (nodesOf tx) (w_fts tx);
  ti_textBase : textOK (baseOf (w_nodes tx)) (w_ftsBase tx);
  ti_textChanges : entityChanges (texts (w_ftsBase tx)) (texts (w_fts tx)) (elements (w_upsertFTS tx)) (elements (w_deleteFTS tx));
  ti_metadata : metadataOK (o_metadata o) (w_AppMetadata tx) (appChanges tx);
  ti_derived : derivedOK tx }.

(** The graph of a transaction, as its reads show it. *)
Record visible := mkVisible {
  gv_nodes : gmap N NodeRecord; gv_edges : gmap N EdgeRecord; gv_text : gmap N FTSRecord;
  gv_metadata : gmap gostring (slice byte); gv_streams : StreamStore }.
Definition graphOf (tx : WriteTx) : visible := mkVisible (nodesOf tx) (edgesOf tx) (fts_rows (w_fts tx)) (w_AppMetadata tx) (tx_Streams (w_call tx)).

Definition viewNodes (g : visible) (m : gmap N NodeRecord) : visible := mkVisible m (gv_edges g) (gv_text g) (gv_metadata g) (gv_streams g).
Definition viewEdges (g : visible) (m : gmap N EdgeRecord) : visible := mkVisible (gv_nodes g) m (gv_text g) (gv_metadata g) (gv_streams g).
Definition viewText (g : visible) (m : gmap N FTSRecord) : visible := mkVisible (gv_nodes g) (gv_edges g) m (gv_metadata g) (gv_streams g).
Definition viewMetadata (g : visible) (m : gmap gostring (slice byte)) : visible := mkVisible (gv_nodes g) (gv_edges g) (gv_text g) m (gv_streams g).

(** What no call touches: the records of earlier graphs and the base of the transaction.
    Identifiers only grow, and where the database lives is settled. *)
Record stepOK (tx tx' : WriteTx) : Prop := mkStepOK {
  sk_nodes : frozen (o_nodes o) (w_nodes tx) (w_nodes tx');
  sk_edges : frozen (o_edges o) (w_edges tx) (w_edges tx');
  sk_ids : idsOK (w_db tx) -> idsOK (w_db tx');
  sk_grow : db_nextNodeID (w_db tx) <= db_nextNodeID (w_db tx') /\ db_nextEdgeID (w_db tx) <= db_nextEdgeID (w_db tx');
  sk_base : w_ftsBase tx' = w_ftsBase tx;
  sk_budget : w_budget tx' = None <-> w_budget tx = None;
  sk_memory : db_memory (w_db tx') = db_memory (w_db tx) }.

#[global] Instance stepOK_preorder : PreOrder stepOK.
Proof.
  split.
  - intros tx. split; done.
  - intros a b c [] []. split; first [by etransitivity|tauto|lia|congruence].
Qed.

Lemma inv_withBudget tx b : txInv tx -> txInv (withBudget tx b).
Proof. intros [? ? ? ? ? ? ? ? ? []]. by split. Qed.
Lemma step_withBudget tx b : (b = None <-> w_budget tx = None) -> stepOK tx (withBudget tx b).
Proof. intros Hb. split; done. Qed.
End invariant.

(** * The calls of a transaction keep its invariant: nodes, properties, edges *)

#[local] Open Scope go_scope.

(** ** Postings held in the transaction *)

Class PostingField (get : WriteTx -> StringPostings) (put : WriteTx -> StringPostings -> WriteTx) : Prop := {
  get_put : forall tx p, get (put tx p) = p;
  put_put : forall tx p q, put (put tx p) q = put tx q;
  put_get : forall tx, put tx (get tx) = tx;
  put_budget : forall tx p b, withBudget (put tx p) b = put (withBudget tx b) p;
  get_budget : forall tx b, get (withBudget tx b) = get tx;
  budget_put : forall tx p, w_budget (put tx p) = w_budget tx }.
#[global] Instance labels_field : PostingField w_Labels withLabels.
Proof. split; try done. by intros []. Qed.
#[global] Instance types_field : PostingField w_EdgeTypes withEdgeTypes.
Proof. split; try done. by intros []. Qed.
#[global] Instance tokens_field : PostingField w_FTSTokens withFTSTokens.
Proof. split; try done. by intros []. Qed.

Lemma withBudget_twice tx b c : withBudget (withBudget tx b) c = withBudget tx c.
Proof. done. Qed.
Lemma withBudget_same tx : withBudget tx (w_budget tx) = tx.
Proof. by destruct tx. Qed.

Section postings.
Context `{MapOrder unit} `{MapOrder (gmap gostring postingList)} `{PostingField get put}.

Definition added (ks : list gostring) (id : N) (f : gostring -> gset N) (k : gostring) : gset N := if bool_decide (k ∈ ks) then {[id]} ∪ f k else f k.
Definition taken (ks : list gostring) (id : N) (f : gostring -> gset N) (k : gostring) : gset N := if bool_decide (k ∈ ks) then f k ∖ {[id]} else f k.

Lemma runs_add k id f tx (Q : unit -> WriteTx -> Prop) E : postingsRep (get tx) f ->
  (forall p, postingsRep p (setFor k ({[id]} ∪ f k) f) -> Q tt (put tx p)) -> runs (updating get put (fun p => postingsAdd p k id)) tx Q E.
Proof. intros Hr HQ. destruct (postingsAdd_spec (get tx) f k id Hr) as (p & Ep & Hp). unfold runs, updating. rewrite Ep. by apply HQ. Qed.
Lemma runs_take k id f tx (Q : unit -> WriteTx -> Prop) E : postingsRep (get tx) f ->
  (forall p, postingsRep p (setFor k (f k ∖ {[id]}) f) -> Q tt (put tx p)) -> runs (updating get put (fun p => postingsRemove p k id)) tx Q E.
Proof. intros Hr HQ. destruct (postingsRemove_spec (get tx) f k id Hr) as (p & Ep & Hp). unfold runs, updating. rewrite Ep. by apply HQ. Qed.

Lemma runs_addAll ks id (Q : unit -> WriteTx -> Prop) E : forall f tx, postingsRep (get tx) f ->
  (forall p, postingsRep p (added ks id f) -> Q tt (put tx p)) -> runs (forEach (fun k => updating get put (fun p => postingsAdd p k id)) ks) tx Q E.
Proof.
  induction ks as [|k ks IH]; intros f tx Hr HQ; cbn [forEach].
  - apply runs_ret. rewrite <- (put_get tx). apply HQ. eapply postingsRep_ext; [|exact Hr]. intros k. unfold added. by rewrite bool_decide_false by set_solver.
  - apply runs_bind. eapply runs_add; [exact Hr|]. intros p Hp. eapply (IH (setFor k ({[id]} ∪ f k) f)); [by rewrite get_put|]. intros q Hq. rewrite put_put.
    apply HQ. eapply postingsRep_ext; [|exact Hq]. intros k'. unfold added, setFor. destruct (decide (k' = k)) as [->|Hne].
    + rewrite (bool_decide_true (k ∈ k :: ks)) by set_solver. case_bool_decide; set_solver.
    + by rewrite (bool_decide_ext (k' ∈ k :: ks) (k' ∈ ks)) by set_solver.
Qed.

Lemma put_same tx : put (withBudget tx (w_budget tx)) (get tx) = tx.
Proof. rewrite withBudget_same. apply put_get. Qed.

(** With a check before every removal. *)
Lemma runs_takeAll ks id (Q : unit -> WriteTx -> Prop) (E : WriteTx -> Prop) : forall f tx, postingsRep (get tx) f ->
  (forall p b, (b = None <-> w_budget tx = None) -> postingsRep p (taken ks id f) -> Q tt (put (withBudget tx b) p)) ->
  (forall p b, (b = None <-> w_budget tx = None) -> w_budget tx <> None -> E (put (withBudget tx b) p)) ->
  runs (forEach (fun k => budgetCheck 1 ;* updating get put (fun p => postingsRemove p k id)) ks) tx Q E.
Proof.
  induction ks as [|k ks IH]; intros f tx Hr HQ HE; cbn [forEach].
  - apply runs_ret. rewrite <- (put_same tx). apply HQ; [done|]. eapply postingsRep_ext; [|exact Hr].
    intros k. unfold taken. by rewrite bool_decide_false by set_solver.
  - assert (Hrest : forall b, (b = None <-> w_budget tx = None) ->
      runs (updating get put (fun p => postingsRemove p k id)) (withBudget tx b) (fun _ tx' => runs (forEach (fun k => budgetCheck 1 ;*
        updating get put (fun p => postingsRemove p k id)) ks) tx' Q E) E).
    { intros b Hb. eapply runs_take; [rewrite get_budget; exact Hr|]. intros p Hp. eapply (IH (setFor k (f k ∖ {[id]}) f)); [by rewrite get_put|..].
      - intros q c Hc Hq. rewrite budget_put in Hc. rewrite put_budget, put_put, withBudget_twice. apply HQ; [rewrite Hc; exact Hb|]. eapply postingsRep_ext; [|exact Hq].
        intros k'. unfold taken, setFor. destruct (decide (k' = k)) as [->|Hne].
        + rewrite (bool_decide_true (k ∈ k :: ks)) by set_solver. case_bool_decide; set_solver.
        + by rewrite (bool_decide_ext (k' ∈ k :: ks) (k' ∈ ks)) by set_solver.
      - intros q c Hc Hne. rewrite budget_put in Hc, Hne. rewrite put_budget, put_put, withBudget_twice. apply HE; [rewrite Hc; exact Hb|]. intros En. apply Hne. by apply Hb. }
    apply runs_bind, runs_bind, runs_check; [done|]. intros Hne. rewrite <- (put_same tx). by apply HE.
Qed.

Lemma runs_takeAllExact ks id f tx (Q : unit -> WriteTx -> Prop) E : postingsRep (get tx) f -> (forall p, postingsRep p (taken ks id f) -> Q tt (put tx p)) ->
  runs (forEach (fun k => updating get put (fun p => postingsRemove p k id)) ks) tx Q E.
Proof.
  revert f tx. induction ks as [|k ks IH]; intros f tx Hr HQ; cbn [forEach].
  - apply runs_ret. rewrite <- (put_get tx). apply HQ. eapply postingsRep_ext; [|exact Hr]. intros k. unfold taken. by rewrite bool_decide_false by set_solver.
  - apply runs_bind. eapply runs_take; [exact Hr|]. intros p Hp. eapply (IH (setFor k (f k ∖ {[id]}) f)); [by rewrite get_put|]. intros q Hq. rewrite put_put.
    apply HQ. eapply postingsRep_ext; [|exact Hq]. intros k'. unfold taken, setFor. destruct (decide (k' = k)) as [->|Hne].
    + rewrite (bool_decide_true (k ∈ k :: ks)) by set_solver. case_bool_decide; set_solver.
    + by rewrite (bool_decide_ext (k' ∈ k :: ks) (k' ∈ ks)) by set_solver.
Qed.
End postings.

Section calls.
Context `{MapOrder unit} `{MapOrder (gmap gostring postingList)} `{MapOrder (list N)}.
Context (o : origin).
Implicit Types tx : WriteTx.

(** What a failed call leaves: nothing of the base is touched, and without a budget the
    transaction is in order and its graph as before. *)
Definition rest tx tx' : Prop := stepOK o tx tx' /\ (w_budget tx = None -> txInv o tx' /\ graphOf tx' = graphOf tx).
(** What a call leaves that makes the graph [g]. *)
Definition becomes tx (g : visible) tx' : Prop := txInv o tx' /\ stepOK o tx tx' /\ graphOf tx' = g.

Lemma rest_refl tx : txInv o tx -> rest tx tx.
Proof. intros Hi. by split. Qed.

Lemma rest_same tx tx' : txInv o tx' -> stepOK o tx tx' -> graphOf tx' = graphOf tx -> rest tx tx'.
Proof. by split. Qed.

Lemma rest_trans tx1 tx2 tx3 : stepOK o tx1 tx2 -> graphOf tx2 = graphOf tx1 -> rest tx2 tx3 -> rest tx1 tx3.
Proof. intros Hs Hg [Hs' Hr]. split; [by etransitivity|]. rewrite <- Hg. intros Hb. apply Hr. by apply (sk_budget _ _ _ Hs). Qed.

Lemma runs_writableTx tx (Q : unit -> WriteTx -> Prop) E : txInv o tx -> Q tt tx -> runs writableTx tx Q E.
Proof. intros Hi HQ. unfold runs, writableTx. by rewrite (ti_open _ _ Hi). Qed.

Lemma inv_open tx : txInv o tx -> tx_closed (w_call tx) = false.
Proof. intros Hi. pose proof (ti_open _ _ Hi) as Ho. unfold ensureWritable in Ho. by destruct (tx_closed (w_call tx)). Qed.

Lemma runs_activeTx tx (Q : unit -> WriteTx -> Prop) E : txInv o tx -> Q tt tx -> runs activeTx tx Q E.
Proof. intros Hi HQ. unfold runs, activeTx. by rewrite (inv_open _ Hi). Qed.

Lemma validID id : validateEntityID id = None -> ValidateEntityID id = None.
Proof. unfold validateEntityID. by destruct (ValidateEntityID id). Qed.

Lemma runs_requireNode tx id (Q : nat * NodeRecord -> WriteTx -> Prop) (E : WriteTx -> Prop) : txInv o tx -> E tx ->
  (forall l r, refs (sd_live (w_nodes tx)) !! id = Some l -> sd_heap (w_nodes tx) !! l = Some r -> nodesOf tx !! id = Some r -> Q (l, r) tx) ->
  runs (requireNode id) tx Q E.
Proof.
  intros Hi HE HQ. unfold requireNode. apply runs_bind, runs_activeTx; [done|]. apply runs_bind, runs_guard; [|done]. intros _. apply runs_bind, runs_gets.
  rewrite (readLocated_live _ _ _ _ (ti_nodes _ _ Hi)). destruct (refs (sd_live (w_nodes tx)) !! id) as [l|] eqn:El; [|done]. cbn.
  destruct (sd_heap (w_nodes tx) !! l) as [r|] eqn:Er; [|done]. apply HQ; [done|done|]. unfold nodesOf, liveOf. by rewrite contents_lookup, El.
Qed.

Lemma runs_requireEdge tx id (Q : nat * EdgeRecord -> WriteTx -> Prop) (E : WriteTx -> Prop) : txInv o tx -> E tx ->
  (forall l r, refs (sd_live (w_edges tx)) !! id = Some l -> sd_heap (w_edges tx) !! l = Some r -> edgesOf tx !! id = Some r -> Q (l, r) tx) ->
  runs (requireEdge id) tx Q E.
Proof.
  intros Hi HE HQ. unfold requireEdge. apply runs_bind, runs_activeTx; [done|]. apply runs_bind, runs_guard; [|done]. intros _. apply runs_bind, runs_gets.
  rewrite (readLocated_live _ _ _ _ (ti_edges _ _ Hi)). destruct (refs (sd_live (w_edges tx)) !! id) as [l|] eqn:El; [|done]. cbn.
  destruct (sd_heap (w_edges tx) !! l) as [r|] eqn:Er; [|done]. apply HQ; [done|done|]. unfold edgesOf, liveOf. by rewrite contents_lookup, El.
Qed.

Lemma frozen_baseOf {A} `{Entity A} start (s s' : side A) bn n : sideOK start s bn n -> frozen start s s' -> baseOf s' = baseOf s.
Proof.
  intros Hs Hf. unfold baseOf. pose proof Hf as (_ & -> & _). apply contents_heap. intros id l Hl. eapply frozen_lookup; [done|]. by apply (so_low _ _ _ _ Hs id).
Qed.

Lemma withDB_same tx : withDB tx (w_db tx) = tx.
Proof. by destruct tx. Qed.
Lemma withLabels_same tx : withLabels tx (w_Labels tx) = tx.
Proof. by destruct tx. Qed.

(** The nodes replaced by others that keep every node, with their labels. *)
Lemma inv_nodes tx nodes labels db : txInv o tx -> idsOK db -> db_nextEdgeID db = db_nextEdgeID (w_db tx) ->
  sideOK (o_nodes o) nodes (o_nextNode o) (db_nextNodeID db) -> frozen (o_nodes o) (w_nodes tx) nodes ->
  (forall id, is_Some (nodesOf tx !! id) -> is_Some (liveOf nodes !! id)) -> postingsRep labels (ofScope nodeScopes (liveOf nodes)) ->
  txInv o (withLabels (withNodes (withDB tx db) nodes) labels).
Proof.
  intros Hi Hdb Hedge Hn Hf Hgrow Hl. pose proof Hi as [I1 I2 I3 I4 I5 [T1 T2] [B1 B2] I8 I9 [D1 D2 D3 D4 D5 D6]].
  split; try done; cbn [withLabels withNodes withDB w_db w_edges].
  - by rewrite Hedge.
  - split; [|done]. intros id r Hr. destruct (T1 id r Hr) as [? ?]. split; [by apply Hgrow|done].
  - split; [|done]. intros id r Hr. destruct (B1 id r Hr) as [? ?]. split; [|done]. cbn [withLabels withNodes withDB w_nodes]. by rewrite (frozen_baseOf _ _ _ _ _ I4 Hf).
  - split; try done; cbn [withLabels withNodes withDB w_db w_Outgoing w_Incoming]; rewrite ?Hedge; try done.
    intros e r Hr. destruct (D1 e r Hr) as [? ?]. split; by apply Hgrow.
Qed.

Lemma step_nodes tx nodes : frozen (o_nodes o) (w_nodes tx) nodes -> stepOK o tx (withNodes tx nodes).
Proof. intros Hf. by split. Qed.
Lemma step_edges tx edges : frozen (o_edges o) (w_edges tx) edges -> stepOK o tx (withEdges tx edges).
Proof. intros Hf. by split. Qed.

Lemma ofScope_insert_same {R} (scopes : R -> list gostring) (M : gmap N R) id r r' k : M !! id = Some r -> scopes r' = scopes r ->
  ofScope scopes (<[id := r']> M) k = ofScope scopes M k.
Proof.
  intros Hr Hs. apply set_eq. intros i. rewrite !elem_of_ofScope. destruct (decide (i = id)) as [->|Hne].
  - rewrite lookup_insert_eq, Hr. split; intros (x & [= <-] & Hx); eexists; (split; [done|]); by rewrite ?Hs in *.
  - by rewrite lookup_insert_ne.
Qed.

(** A node rewritten with the same labels. *)
Lemma inv_node_update tx nodes id r r' : txInv o tx -> sideOK (o_nodes o) nodes (o_nextNode o) (db_nextNodeID (w_db tx)) ->
  frozen (o_nodes o) (w_nodes tx) nodes -> liveOf nodes = <[id := r']> (nodesOf tx) -> nodesOf tx !! id = Some r -> n_Labels r' = n_Labels r ->
  txInv o (withNodes tx nodes).
Proof.
  intros Hi Hn Hf El Hr Hl. rewrite <- (withLabels_same tx), <- (withDB_same tx). change (withNodes (withLabels (withDB tx (w_db tx)) (w_Labels (withDB tx (w_db tx)))) nodes)
    with (withLabels (withNodes (withDB tx (w_db tx)) nodes) (w_Labels tx)). apply inv_nodes; try done; [apply (ti_ids _ _ Hi)| |].
  - intros i Hi'. rewrite El. destruct (decide (i = id)) as [->|Hne]; [rewrite lookup_insert_eq; eauto|by rewrite lookup_insert_ne].
  - eapply postingsRep_ext; [|apply (dv_labels _ (ti_derived _ _ Hi))]. intros k. rewrite El. symmetry. eapply ofScope_insert_same; [done|]. unfold nodeScopes. by rewrite Hl.
Qed.

Lemma inv_nodes_same tx nodes : txInv o tx -> sideOK (o_nodes o) nodes (o_nextNode o) (db_nextNodeID (w_db tx)) ->
  frozen (o_nodes o) (w_nodes tx) nodes -> liveOf nodes = nodesOf tx -> txInv o (withNodes tx nodes).
Proof.
  intros Hi Hn Hf El. rewrite <- (withLabels_same tx), <- (withDB_same tx). change (withNodes (withLabels (withDB tx (w_db tx)) (w_Labels (withDB tx (w_db tx)))) nodes)
    with (withLabels (withNodes (withDB tx (w_db tx)) nodes) (w_Labels tx)). apply inv_nodes; try done; [apply (ti_ids _ _ Hi)|by rewrite El|].
  rewrite El. apply (dv_labels _ (ti_derived _ _ Hi)).
Qed.

(** [writableNode]: the caller continues with a record of its own. *)
Lemma runs_writableNode tx id only (Q : nat -> WriteTx -> Prop) (E : WriteTx -> Prop) : txInv o tx -> E tx ->
  (forall l r nodes, nodesOf tx !! id = Some r -> sideOK (o_nodes o) nodes (o_nextNode o) (db_nextNodeID (w_db tx)) -> frozen (o_nodes o) (w_nodes tx) nodes ->
     liveOf nodes = nodesOf tx -> writableAt (o_nodes o) nodes id l r -> (only = false -> is_Some (refs (sd_base nodes) !! id) -> sd_keys nodes !! id = Some None) ->
     txInv o (withNodes tx nodes) -> Q l (withNodes tx nodes)) ->
  runs (writableNode id only) tx Q E.
Proof.
  intros Hi HE HQ. unfold writableNode. apply runs_bind, runs_requireNode; [done|done|]. intros l r Hl Hr Hn. apply runs_bind, runs_gets. cbn [fst].
  destruct (writable_record _ _ _ _ _ _ _ only (ti_nodes _ _ Hi) Hl Hr) as (H1' & H2' & H3' & H4' & H5').
  destruct (writableRecord (w_nodes tx) id l only) as [l' nodes]. cbn [fst snd] in *. apply runs_bind, runs_modify, runs_ret.
  apply (HQ l' r); try done; [|by apply inv_nodes_same]. destruct H4' as (_ & -> & _). done.
Qed.

(** ** Identifiers *)

Lemma inv_db tx db : txInv o tx -> idsOK db -> db_nextNodeID db = db_nextNodeID (w_db tx) -> db_nextEdgeID db = db_nextEdgeID (w_db tx) -> txInv o (withDB tx db).
Proof.
  intros Hi Hdb En Ee. pose proof Hi as [I1 I2 I3 I4 I5 I6 I7 I8 I9 [D1 D2 D3 D4 D5 D6]].
  split; try done; [by cbn [withDB w_db]; rewrite En|by cbn [withDB w_db]; rewrite Ee|]. split; try done; cbn [withDB w_db]; by rewrite Ee.
Qed.
Lemma step_db tx db : idsOK db -> db_nextNodeID (w_db tx) <= db_nextNodeID db -> db_nextEdgeID (w_db tx) <= db_nextEdgeID db -> db_memory db = db_memory (w_db tx) -> stepOK o tx (withDB tx db).
Proof. intros Hdb En Ee Hm. by split. Qed.

Lemma reserveIDBlock_bound next : reserveIDBlock next <= EntityIDExhausted.
Proof. unfold reserveIDBlock, EntityIDExhausted. destruct (N.leb_spec (MaxEntityID - idReservationBlock) next); unfold idReservationBlock in *; lia. Qed.

Lemma reserved_disk db fault n e db' err : reserveIDsToDisk db fault n e = (err, db') ->
  db_nextNodeID db' = db_nextNodeID db /\ db_nextEdgeID db' = db_nextEdgeID db /\ db_reservedNodeID db' = db_reservedNodeID db /\ db_reservedEdgeID db' = db_reservedEdgeID db /\
  db_memory db' = db_memory db.
Proof. unfold reserveIDsToDisk. destruct (db_memory db) eqn:Em; [intros [= _ <-]; by rewrite Em|]. destruct fault as [[? []]|]; intros [= _ <-]; by rewrite ?Em. Qed.

Lemma allocateNodeID_spec fault db r db' : idsOK db -> allocateNodeID fault db = (r, db') ->
  idsOK db' /\ db_memory db' = db_memory db /\ db_nextEdgeID db' = db_nextEdgeID db /\
  match r with
  | inl id => id = db_nextNodeID db /\ db_nextNodeID db' = id + 1 /\ 0 < id <= MaxEntityID
  | inr _ => db_nextNodeID db' = db_nextNodeID db
  end.
Proof.
  intros [Hn He Hr]. unfold allocateNodeID. destruct (N.leb_spec EntityIDExhausted (db_nextNodeID db)) as [Hx|Hx]; [by intros [= <- <-]|].
  destruct (N.ltb_spec (db_nextNodeID db) (db_reservedNodeID db)) as [Hlt|Hge]; [intros [= <- <-]; cbn; split_and!; try done; [split; cbn; lia|unfold EntityIDExhausted in Hx; lia..]|].
  destruct (reserveIDsToDisk _ _ _ _) as [err db1] eqn:E. destruct (reserved_disk _ _ _ _ _ _ E) as (E1 & E2 & E3 & E4 & E5).
  pose proof (reserveIDBlock_bound (db_nextNodeID db)).
  destruct err; intros [= <- <-]; cbn; rewrite ?E1, ?E2, ?E3, ?E4; split_and!; try done; try (split; cbn; rewrite ?E1, ?E2, ?E3, ?E4; lia); unfold EntityIDExhausted in Hx; lia.
Qed.

Lemma allocateEdgeID_spec fault db r db' : idsOK db -> allocateEdgeID fault db = (r, db') ->
  idsOK db' /\ db_memory db' = db_memory db /\ db_nextNodeID db' = db_nextNodeID db /\
  match r with
  | inl id => id = db_nextEdgeID db /\ db_nextEdgeID db' = id + 1 /\ 0 < id <= MaxEntityID
  | inr _ => db_nextEdgeID db' = db_nextEdgeID db
  end.
Proof.
  intros [Hn He Hr]. unfold allocateEdgeID. destruct (N.leb_spec EntityIDExhausted (db_nextEdgeID db)) as [Hx|Hx]; [by intros [= <- <-]|].
  destruct (N.ltb_spec (db_nextEdgeID db) (db_reservedEdgeID db)) as [Hlt|Hge]; [intros [= <- <-]; cbn; split_and!; try done; [split; cbn; lia|unfold EntityIDExhausted in Hx; lia..]|].
  destruct (reserveIDsToDisk _ _ _ _) as [err db1] eqn:E. destruct (reserved_disk _ _ _ _ _ _ E) as (E1 & E2 & E3 & E4 & E5).
  pose proof (reserveIDBlock_bound (db_nextEdgeID db)).
  destruct err; intros [= <- <-]; cbn; rewrite ?E1, ?E2, ?E3, ?E4; split_and!; try done; try (split; cbn; rewrite ?E1, ?E2, ?E3, ?E4; lia); unfold EntityIDExhausted in Hx; lia.
Qed.

Lemma runs_allocatingNode fault tx (Q : N -> WriteTx -> Prop) (E : WriteTx -> Prop) : txInv o tx ->
  (forall db, idsOK db -> db_memory db = db_memory (w_db tx) -> db_nextEdgeID db = db_nextEdgeID (w_db tx) -> db_nextNodeID db = db_nextNodeID (w_db tx) + 1 -> Q (db_nextNodeID (w_db tx)) (withDB tx db)) ->
  (forall tx', rest tx tx' -> E tx') -> runs (allocatingNode fault) tx Q E.
Proof.
  intros Hi HQ HE. unfold runs, allocatingNode. destruct (allocateNodeID fault (w_db tx)) as [r db] eqn:Er.
  destruct (allocateNodeID_spec _ _ _ _ (ti_ids _ _ Hi) Er) as (Hdb & Hm & Ee & Hr). destruct r as [id|err]; cbn.
  - destruct Hr as (-> & En & _). by apply HQ.
  - apply HE, rest_same; [by apply inv_db|apply step_db; [done|lia|lia|done]|done].
Qed.
Lemma runs_allocatingEdge fault tx (Q : N -> WriteTx -> Prop) (E : WriteTx -> Prop) : txInv o tx ->
  (forall db, idsOK db -> db_memory db = db_memory (w_db tx) -> db_nextNodeID db = db_nextNodeID (w_db tx) -> db_nextEdgeID db = db_nextEdgeID (w_db tx) + 1 -> db_nextEdgeID (w_db tx) < 2 ^ 63 ->
     Q (db_nextEdgeID (w_db tx)) (withDB tx db)) ->
  (forall tx', rest tx tx' -> E tx') -> runs (allocatingEdge fault) tx Q E.
Proof.
  intros Hi HQ HE. unfold runs, allocatingEdge. destruct (allocateEdgeID fault (w_db tx)) as [r db] eqn:Er.
  destruct (allocateEdgeID_spec _ _ _ _ (ti_ids _ _ Hi) Er) as (Hdb & Hm & Ee & Hr). destruct r as [id|err]; cbn.
  - destruct Hr as (-> & En & Hb). apply HQ; try done. unfold MaxEntityID in Hb. lia.
  - apply HE, rest_same; [by apply inv_db|apply step_db; [done|lia|lia|done]|done].
Qed.
End calls.

(** The checks at the start of a call: [Hi] is the invariant, and what a failure leaves
    is among the hypotheses. *)
Ltac checks Hi := repeat (apply runs_bind; first [apply (runs_writableTx _ _ _ _ Hi) | apply (runs_activeTx _ _ _ _ Hi) | apply runs_gets | apply runs_guard; [intros ?|intros _; assumption]]).
