(* ===== verification/GraphTxNodes.v ===== *)
(** * The calls on nodes

    Creating nodes and setting their properties; further down, the calls on edges. *)
From S2P Require Import Prelude.
From S2P Require Import Adjacency.
From S2P Require Import AdjacencySpec.
From S2P Require Import GoBytes.
From S2P Require Import BinaryCodec.
From S2P Require Import BinaryValue.
From S2P Require Import BinaryRecords.
From S2P Require Import GoMaps.
From S2P Require Import Values.
From S2P Require Import ValuesSpec.
From S2P Require Import Properties.
From S2P Require Import PageRecords.
From S2P Require Import Streams.
From S2P Require Import StreamPersist.
From S2P Require Import StreamTx.
From S2P Require Import StreamTxSpec.
From S2P Require Import PropertyDelta.
From S2P Require Import WalAccumulator.
From S2P Require Import WalInvariant.
From S2P Require Import GraphPersist.
From S2P Require Import GraphChanges.
From S2P Require Import StringPostings.
From S2P Require Import IndexUpkeep.
From S2P Require Import IndexTheorems.
From S2P Require Import GraphTx.
From S2P Require Import GraphStatement.
From S2P Require Import GraphSides.
From S2P Require Import GraphTxSpec.
From Stdlib Require Strings.String.

Import String.StringSyntax.
#[local] Open Scope go_scope.

Section nodes.
Context `{MapOrder unit} `{MapOrder (gmap gostring postingList)} `{MapOrder (list N)}.
Context (o : origin).
Implicit Types tx : WriteTx.

Lemma step_same_nodes tx nodes : frozen (o_nodes o) (w_nodes tx) nodes -> liveOf nodes = nodesOf tx -> txInv o (withNodes tx nodes) -> rest o tx (withNodes tx nodes).
Proof. intros Hf El Hi. apply rest_same; [done|by apply step_nodes|]. unfold graphOf. by rewrite <- El. Qed.

(** A node's properties written through the pointer, and the keys tracked. *)
Lemma node_written tx nodes id l r g ks : txInv o tx -> sideOK (o_nodes o) nodes (o_nextNode o) (db_nextNodeID (w_db tx)) -> frozen (o_nodes o) (w_nodes tx) nodes ->
  liveOf nodes = nodesOf tx -> nodesOf tx !! id = Some r -> writableAt (o_nodes o) nodes id l r ->
  propertiesOK (g (n_Properties r)) -> sameProps (n_Properties r) (g (n_Properties r)) ks ->
  becomes o tx (viewNodes (graphOf tx) (<[id := setNodeProperties g r]> (nodesOf tx)))
    (withNodes tx (foldl (fun s k => trackProperty s id k) (writeThrough nodes l (setNodeProperties g)) ks)).
Proof.
  intros Hi Hn Hf El Hr Hw Hok Hsame. assert (Hr' : liveOf nodes !! id = Some r) by (by rewrite El). destruct (live_record _ _ _ _ Hn id r Hr') as (Eid & [_ Hsh] & _).
  destruct (write_tracked _ _ _ _ id l r (setNodeProperties g) ks Hn Hw) as (W1 & W2 & W3); [done|split; done|done|done|].
  rewrite El in W2. assert (Hf' : frozen (o_nodes o) (w_nodes tx) (foldl (fun s k => trackProperty s id k) (writeThrough nodes l (setNodeProperties g)) ks)) by (by etransitivity).
  split; [by eapply inv_node_update|]. split; [by apply step_nodes|]. unfold graphOf, viewNodes, nodesOf. cbn [withNodes w_nodes]. by rewrite W2.
Qed.

(** The same behind the fallback mark. *)
Lemma node_replaced tx nodes id l r g : txInv o tx -> sideOK (o_nodes o) nodes (o_nextNode o) (db_nextNodeID (w_db tx)) -> frozen (o_nodes o) (w_nodes tx) nodes ->
  liveOf nodes = nodesOf tx -> nodesOf tx !! id = Some r -> writableAt (o_nodes o) nodes id l r -> (is_Some (refs (sd_base nodes) !! id) -> sd_keys nodes !! id = Some None) ->
  propertiesOK (g (n_Properties r)) ->
  becomes o tx (viewNodes (graphOf tx) (<[id := setNodeProperties g r]> (nodesOf tx))) (withNodes tx (writeThrough nodes l (setNodeProperties g))).
Proof.
  intros Hi Hn Hf El Hr Hw Hk Hok. assert (Hr' : liveOf nodes !! id = Some r) by (by rewrite El). destruct (live_record _ _ _ _ Hn id r Hr') as (Eid & [_ Hsh] & _).
  destruct (write_untracked _ _ _ _ id l r (setNodeProperties g) Hn Hw) as (W1 & W2 & W3); [done|split; done|done|].
  rewrite El in W2. assert (Hf' : frozen (o_nodes o) (w_nodes tx) (writeThrough nodes l (setNodeProperties g))) by (by etransitivity).
  split; [by eapply inv_node_update|]. split; [by apply step_nodes|]. unfold graphOf, viewNodes, nodesOf. cbn [withNodes w_nodes]. by rewrite W2.
Qed.

Definition setNode (g : visible) (id : N) (key : gostring) (v : value) : visible :=
  match gv_nodes g !! id with Some r => viewNodes g (<[id := setNodeProperties (fun p => PSet p key v) r]> (gv_nodes g)) | None => g end.

Lemma setNode_some tx id key v r : nodesOf tx !! id = Some r ->
  setNode (graphOf tx) id key v = viewNodes (graphOf tx) (<[id := setNodeProperties (fun p => PSet p key v) r]> (nodesOf tx)).
Proof. intros Hr. unfold setNode. cbn [graphOf gv_nodes]. by rewrite Hr. Qed.

Lemma SetProperty_ok tx id key v : txInv o tx -> wfV v ->
  runs (SetProperty id key v) tx (fun _ tx' => exists r n, nodesOf tx !! id = Some r /\ NormalizeValue v = inl n /\ becomes o tx (setNode (graphOf tx) id key n) tx') (rest o tx).
Proof.
  intros Hi Hv. unfold SetProperty. pose proof (rest_refl o _ Hi) as Hrest. checks Hi. apply runs_bind, (runs_writableNode o); [done|done|]. intros l r nodes Hr Hn Hf El Hw _ Hi'.
  pose proof (step_same_nodes _ _ Hf El Hi') as Hrest'.
  apply runs_bind, runs_ofSum; [|done]. intros n En. checks Hi'. apply runs_modify. exists r, n. split; [done|]. split; [done|].
  destruct (live_record _ _ _ _ (ti_nodes _ _ Hi) id r Hr) as (_ & [Hok _] & _). destruct (set_property (n_Properties r) key n Hok) as [P1 P2]; [by eapply normalized_value|].
  rewrite (setNode_some _ _ _ _ _ Hr). exact (node_written tx nodes id l r (fun p => PSet p key n) [key] Hi Hn Hf El Hr Hw P1 P2).
Qed.

Lemma SetVector_ok tx id key v : txInv o tx -> wfV (VVector v) ->
  runs (SetVector id key v) tx (fun _ tx' => exists r n, nodesOf tx !! id = Some r /\ NormalizeValue (VVector v) = inl n /\ becomes o tx (setNode (graphOf tx) id key n) tx') (rest o tx).
Proof.
  intros Hi Hv. unfold SetVector. pose proof (rest_refl o _ Hi) as Hrest. checks Hi. apply runs_bind, (runs_writableNode o); [done|done|]. intros l r nodes Hr Hn Hf El Hw _ Hi'. pose proof (step_same_nodes _ _ Hf El Hi') as Hrest'.
  apply runs_bind, runs_ofSum; [|done]. intros n En. checks Hi'. apply runs_modify.
  exists r, n. split; [done|]. split; [done|].
  destruct (live_record _ _ _ _ (ti_nodes _ _ Hi) id r Hr) as (_ & [Hok _] & _). destruct (set_property (n_Properties r) key n Hok) as [P1 P2]; [by eapply normalized_value|].
  rewrite (setNode_some _ _ _ _ _ Hr). exact (node_written tx nodes id l r (fun p => PSet p key n) [key] Hi Hn Hf El Hr Hw P1 P2).
Qed.

(** ** New nodes *)

Lemma labels_nodup labels : ValidateCreateLabels labels = None -> NoDup (elems labels).
Proof.
  unfold ValidateCreateLabels. assert (Hgen : forall l seen, validateLabels seen l = None -> NoDup l /\ forall x, x ∈ l -> x ∉ seen).
  { induction l as [|x l IH]; intros seen; cbn [validateLabels]; [split; [apply NoDup_nil_2|set_solver]|]. case_bool_decide; [done|]. destruct (negb _); [done|].
    case_bool_decide as Hx; [done|]. intros [Hnd Hin]%IH. split; [apply NoDup_cons; split; [|done]; intros Hxl%Hin; set_solver|]. intros y [->|Hy]%elem_of_cons; [done|].
    apply Hin in Hy. set_solver. }
  intros Hl. by apply (Hgen _ []).
Qed.

Lemma intern_elems labels : elems (InternStrings labels) = elems labels.
Proof. destruct labels as [l|]; [|done]. cbn. unfold InternString. by rewrite map_id. Qed.

Lemma ofScope_insert_new {R} (scopes : R -> list gostring) (M : gmap N R) id r k : M !! id = None ->
  ofScope scopes (<[id := r]> M) k = added (scopes r) id (ofScope scopes M) k.
Proof.
  intros Hnew. apply set_eq. intros i. unfold added. rewrite elem_of_ofScope. case_bool_decide as Hk.
  - rewrite elem_of_union, elem_of_singleton, elem_of_ofScope. destruct (decide (i = id)) as [->|Hne]; [rewrite lookup_insert_eq; split; [by left|]; intros _; eauto|].
    rewrite lookup_insert_ne by done. split; [by right|]. by intros [?|?].
  - rewrite elem_of_ofScope. destruct (decide (i = id)) as [->|Hne]; [rewrite lookup_insert_eq, Hnew; split; [by intros (? & [= <-] & ?)|by intros (? & ? & ?)]|].
    by rewrite lookup_insert_ne.
Qed.

Lemma ofScope_delete {R} (scopes : R -> list gostring) (M : gmap N R) id r k : M !! id = Some r ->
  ofScope scopes (delete id M) k = taken (scopes r) id (ofScope scopes M) k.
Proof.
  intros Hr. apply set_eq. intros i. unfold taken. rewrite elem_of_ofScope. case_bool_decide as Hk.
  - rewrite elem_of_difference, elem_of_singleton, elem_of_ofScope. destruct (decide (i = id)) as [->|Hne]; [rewrite lookup_delete_eq; split; [by intros (? & ? & ?)|tauto]|].
    rewrite lookup_delete_ne by done. tauto.
  - rewrite elem_of_ofScope. destruct (decide (i = id)) as [->|Hne]; [rewrite lookup_delete_eq, Hr; split; [by intros (? & ? & ?)|by intros (? & [= <-] & ?)]|].
    by rewrite lookup_delete_ne.
Qed.

Lemma runs_checkNewVectors tx props (Q : unit -> WriteTx -> Prop) (E : WriteTx -> Prop) : Q tt tx -> E tx -> runs (checkNewVectors props) tx Q E.
Proof.
  intros HQ HE. unfold checkNewVectors. apply runs_bind, runs_gets. destruct (db_enableVector (w_db tx)); [|by apply runs_ret].
  apply runs_bind, runs_guard; [intros _|done]. by apply runs_guard.
Qed.

Lemma node_created tx db record : txInv o tx -> idsOK db -> db_memory db = db_memory (w_db tx) -> db_nextEdgeID db = db_nextEdgeID (w_db tx) -> db_nextNodeID db = db_nextNodeID (w_db tx) + 1 ->
  n_ID record = db_nextNodeID (w_db tx) -> recordOK record -> let id := n_ID record in
  runs (forEach (fun label => addLabel label id) (elems (n_Labels record)) ;* onNodes (fun s => markUpsert s id) ;* aret (publicNode record))
    (withNodes (withDB tx db) (setRecord (w_nodes tx) id record))
    (fun v tx' => v = publicNode record /\ nodesOf tx !! id = None /\ becomes o tx (viewNodes (graphOf tx) (<[id := record]> (nodesOf tx))) tx') (rest o tx).
Proof.
  intros Hi Hdb Hm Ee En Eid Hok. cbv zeta. rewrite Eid. set (id := db_nextNodeID (w_db tx)) in *.
  destruct (create_record _ _ _ _ record (ti_nodes _ _ Hi)) as (C1 & C2 & C3 & C4); [apply (id_node _ (ti_ids _ _ Hi))|done|done|]. fold id in C1, C2, C3, C4.
  apply runs_bind. eapply (runs_addAll _ _ _ _ (ofScope nodeScopes (nodesOf tx))); [apply (dv_labels _ (ti_derived _ _ Hi))|]. intros p Hp.
  apply runs_bind, runs_modify, runs_ret. split; [done|]. split; [done|].
  change (withNodes _ _) with (withLabels (withNodes (withDB tx db) (markUpsert (setRecord (w_nodes tx) id record) id)) p).
  split; [|split].
  - apply inv_nodes; try done; [by rewrite En| |].
    + intros i Hs. rewrite C2. destruct (decide (i = id)) as [->|Hne]; [rewrite lookup_insert_eq; eauto|by rewrite lookup_insert_ne].
    + eapply postingsRep_ext; [|exact Hp]. intros k. rewrite C2. symmetry. by apply (ofScope_insert_new nodeScopes).
  - split; try done. cbn [withLabels withNodes withDB w_db]. lia.
  - unfold graphOf, viewNodes, nodesOf. cbn [withLabels withNodes withDB w_nodes]. by rewrite C2.
Qed.

Lemma CreateNode_ok tx fault opts : txInv o tx -> wfProperties (no_Properties opts) ->
  runs (CreateNode fault opts) tx (fun v tx' => exists record, v = publicNode record /\ n_ID record = db_nextNodeID (w_db tx) /\ elems (n_Labels record) = elems (no_Labels opts) /\
      NormalizePropertyStorage (no_Properties opts) = inl (n_Properties record) /\ nodesOf tx !! n_ID record = None /\
      becomes o tx (viewNodes (graphOf tx) (<[n_ID record := record]> (nodesOf tx))) tx') (rest o tx).
Proof.
  intros Hi Hp. unfold CreateNode. pose proof (rest_refl o _ Hi) as Hrest. checks Hi. apply runs_bind, runs_ofSum; [|done]. intros props Eprops.
  apply runs_bind, runs_checkNewVectors; [|done]. apply runs_bind, (runs_allocatingNode o); [done| |done]. intros db Hdb Hm Ee En.
  apply runs_bind, runs_modify. set (record := mkNode (db_nextNodeID (w_db tx)) (InternStrings (no_Labels opts)) props).
  eapply runs_weaken; [apply (node_created tx db record); try done| |done].
  - split; [by eapply normalized_storage|]. change (NoDup (elems (InternStrings (no_Labels opts)))). rewrite intern_elems. by apply labels_nodup.
  - intros v tx' (-> & Hnew & Hb). exists record. split_and!; try done. apply intern_elems.
Qed.
(** ** Many vectors *)

(** What a batch leaves however it ends: a batch that fails keeps the nodes it made. *)
Definition grows tx tx' : Prop := stepOK o tx tx' /\ (w_budget tx = None -> txInv o tx').

Lemma rest_grows tx1 tx2 tx3 : stepOK o tx1 tx2 -> rest o tx2 tx3 -> grows tx1 tx3.
Proof. intros Hs [Hs' Hr]. split; [by etransitivity|]. intros Hb. apply Hr. by apply (sk_budget _ _ _ Hs). Qed.

(** The node a batch makes of a vector: the label of the batch, and the vector as its only
    property. *)
Definition vectorNode (label : gostring) (v : slice N) (r : NodeRecord) : Prop :=
  elems (n_Labels r) = [label] /\ exists n, NormalizeValue (VVector v) = inl n /\ n_Properties r = PSet (PropertiesFromMap []) (str "vector"%string) n.

Definition addNodes (m : gmap N NodeRecord) (new : list NodeRecord) : gmap N NodeRecord := foldl (fun m r => <[n_ID r := r]> m) m new.

(** New nodes, one for each vector and in their order, under identifiers not handed out
    before. *)
Record vectorNodes (label : gostring) (vectors : list (slice N)) (next : N) (m : gmap N NodeRecord) (new : list NodeRecord) : Prop := mkVectorNodes {
  vn_nodes : Forall2 (vectorNode label) vectors new;
  vn_sorted : StronglySorted N.lt (map n_ID new);
  vn_fresh : Forall (fun r => next <= n_ID r /\ m !! n_ID r = None) new }.

Lemma vectorNodes_nil label next m : vectorNodes label [] next m [].
Proof. split; constructor. Qed.

Lemma vectorNodes_cons label v vectors next next' m r r' new : vectorNode label v r -> next <= n_ID r -> m !! n_ID r = None -> n_ID r < next' ->
  vectorNodes label vectors next' (<[n_ID r := r']> m) new -> vectorNodes label (v :: vectors) next m (r :: new).
Proof.
  intros Hv Hn Hm Hlt [V1 V2 V3]. split; [by constructor| |].
  - cbn [map]. constructor; [done|]. apply Forall_map. eapply Forall_impl; [exact V3|]. cbn. lia.
  - constructor; [done|]. eapply Forall_impl; [exact V3|]. cbn. intros x [Hx Hf]. split; [lia|]. by apply lookup_insert_None in Hf as [Hf _].
Qed.

Lemma insertVectors_ok faults label vectors : Forall (fun v => wfV (VVector v)) vectors -> forall tx ids i, txInv o tx ->
  runs (insertVectors faults label ids i vectors) tx (fun all tx' => exists new, all = ids ++ map n_ID new /\ vectorNodes label vectors (db_nextNodeID (w_db tx)) (nodesOf tx) new /\
      becomes o tx (viewNodes (graphOf tx) (addNodes (nodesOf tx) new)) tx') (grows tx).
Proof.
  induction 1 as [|v vectors Hv _ IH]; intros tx ids i Hi; cbn [insertVectors].
  - apply runs_ret. exists []. rewrite app_nil_r. split; [done|]. split; [apply vectorNodes_nil|]. split; [done|]. by split.
  - apply runs_bind. eapply runs_weaken; [apply CreateNode_ok; [done|]| |]; [by split; [apply NoDup_nil_2|apply Forall_nil_2]| |intros tx' Hr; by eapply rest_grows].
    intros node tx1 (record & -> & Eid & Elab & Eprops & Hnew & Hi1 & Hs1 & Hg1). cbn [publicNode pub_ID no_Labels no_Properties] in *.
    assert (En1 : nodesOf tx1 = <[n_ID record := record]> (nodesOf tx)) by (change (nodesOf tx1) with (gv_nodes (graphOf tx1)); by rewrite Hg1).
    apply runs_bind. eapply runs_weaken; [by apply SetVector_ok| |intros tx' Hr; by eapply rest_grows].
    intros _ tx2 (r & n & Hr & En & Hi2 & Hs2 & Hg2). rewrite (setNode_some _ _ _ _ _ Hr) in Hg2. rewrite En1, lookup_insert_eq in Hr. injection Hr as <-.
    set (r2 := setNodeProperties (fun p => PSet p (str "vector"%string) n) record) in *. rewrite Hg1, En1, insert_insert_eq in Hg2. 
    assert (En2 : nodesOf tx2 = <[n_ID record := r2]> (nodesOf tx)) by (change (nodesOf tx2) with (gv_nodes (graphOf tx2)); by rewrite Hg2).
    assert (Hlt : n_ID record < db_nextNodeID (w_db tx2)) by (apply (live_record _ _ _ _ (ti_nodes _ _ Hi2) _ r2); fold (nodesOf tx2); by rewrite En2, lookup_insert_eq).
    eapply runs_weaken; [by apply (IH tx2)| |].
    + intros all tx3 (new & -> & Hvs & Hi3 & Hs3 & Hg3). exists (r2 :: new). rewrite <- app_assoc. split; [done|]. split.
      * eapply (vectorNodes_cons _ _ _ _ _ _ r2 r2); [|cbn; by rewrite Eid| |exact Hlt|rewrite En2 in Hvs; exact Hvs]; [|done]. split; [done|]. exists n. split; [done|]. injection Eprops as Ep. cbn. by rewrite <- Ep.
      * split; [done|]. split; [by do 2 (etransitivity; [eassumption|])|]. rewrite Hg3, Hg2, En2. done.
    + intros tx3 [Hs3 Hi3]. split; [by do 2 (etransitivity; [eassumption|])|]. intros Hb. apply Hi3. by apply (sk_budget _ _ _ Hs2), (sk_budget _ _ _ Hs1).
Qed.

Lemma BatchInsertVectors_ok tx faults label vectors : txInv o tx -> Forall (fun v => wfV (VVector v)) vectors ->
  runs (BatchInsertVectors faults label vectors) tx (fun ids tx' => exists new, ids = map n_ID new /\ vectorNodes label vectors (db_nextNodeID (w_db tx)) (nodesOf tx) new /\
      becomes o tx (viewNodes (graphOf tx) (addNodes (nodesOf tx) new)) tx') (grows tx).
Proof.
  intros Hi Hv. unfold BatchInsertVectors. assert (Hrest : grows tx tx) by (by split). checks Hi.
  apply runs_bind. eapply (runs_weaken _ _ (fun _ tx' => tx' = tx)); [|intros _ tx' ->|intros tx' HE; exact HE].
  - apply (runs_forEach _ (fun _ tx' => tx' = tx)); [done|]. intros v l' tx' ->. apply runs_bind, runs_guard; [intros _|done]. apply runs_bind, runs_ofSum; [|done]. done.
  - by apply insertVectors_ok.
Qed.
End nodes.

(** * The calls on edges *)

#[local] Open Scope go_scope.

Lemma adjacency_update endOf next m (edges : gmap N EdgeRecord) id r r' : adjacency endOf next m edges -> edges !! id = Some r -> endOf r' = endOf r ->
  adjacency endOf next m (<[id := r']> edges).
Proof.
  intros Ha Hr Ee i. eapply listed_ext; [|apply Ha]. intros e. destruct (decide (e = id)) as [->|Hne]; [|by rewrite lookup_insert_ne].
  rewrite lookup_insert_eq, Hr. split; intros (x & [= <-] & Hx); eexists; (split; [done|congruence]).
Qed.

Section edges.
Context `{MapOrder unit} `{MapOrder (gmap gostring postingList)} `{MapOrder (list N)}.
Context (o : origin).
Implicit Types tx : WriteTx.

(** The edges of a graph with what is derived from them, without their ends. *)
Record edgesOK (next : N) (edges : side EdgeRecord) (types : StringPostings) (out inc : gmap N EdgeList) : Prop := mkEdgesOK {
  eg_side : sideOK (o_edges o) edges (o_nextEdge o) next;
  eg_types : postingsRep types (ofScope edgeScopes (liveOf edges));
  eg_out : adjacency e_SourceID next out (liveOf edges);
  eg_in : adjacency e_TargetID next inc (liveOf edges) }.

Lemma inv_edgesOK tx : txInv o tx -> edgesOK (db_nextEdgeID (w_db tx)) (w_edges tx) (w_EdgeTypes tx) (w_Outgoing tx) (w_Incoming tx).
Proof. intros [I1 I2 I3 I4 I5 I6 I7 I8 I9 [D1 D2 D3 D4 D5 D6]]. by split. Qed.

Definition withEdgeGraph tx (edges : side EdgeRecord) (types : StringPostings) (out inc : gmap N EdgeList) : WriteTx :=
  withIncoming (withOutgoing (withEdgeTypes (withEdges tx edges) types) out) inc.

Lemma inv_edges tx edges types out inc db : txInv o tx -> idsOK db -> db_nextNodeID db = db_nextNodeID (w_db tx) ->
  edgesOK (db_nextEdgeID db) edges types out inc ->
  map_Forall (fun _ e => is_Some (nodesOf tx !! e_SourceID e) /\ is_Some (nodesOf tx !! e_TargetID e)) (liveOf edges) ->
  txInv o (withEdgeGraph (withDB tx db) edges types out inc).
Proof.
  intros Hi Hdb En [G1 G2 G3 G4] Hends. pose proof Hi as [I1 I2 I3 I4 I5 I6 I7 I8 I9 [D1 D2 D3 D4 D5 D6]].
  split; try done. cbn. by rewrite En.
Qed.

Lemma inv_edges_only tx edges types out inc : txInv o tx -> edgesOK (db_nextEdgeID (w_db tx)) edges types out inc ->
  map_Forall (fun _ e => is_Some (nodesOf tx !! e_SourceID e) /\ is_Some (nodesOf tx !! e_TargetID e)) (liveOf edges) ->
  txInv o (withEdgeGraph tx edges types out inc).
Proof. intros Hi He Hends. rewrite <- (withDB_same tx). apply inv_edges; try done. apply (ti_ids _ _ Hi). Qed.

(** The edges rewritten with their ends and types. *)
Lemma inv_edge_update tx edges id r r' : txInv o tx -> sideOK (o_edges o) edges (o_nextEdge o) (db_nextEdgeID (w_db tx)) ->
  liveOf edges = <[id := r']> (edgesOf tx) -> edgesOf tx !! id = Some r -> sameEdge r r' -> txInv o (withEdges tx edges).
Proof.
  intros Hi Hs El Hr (E1 & E2 & E3). pose proof (ti_derived _ _ Hi) as [D1 D2 D3 D4 D5 D6].
  change (withEdges tx edges) with (withEdgeGraph tx edges (w_EdgeTypes tx) (w_Outgoing tx) (w_Incoming tx)). apply inv_edges_only; [done| |].
  - split; [done|rewrite El..].
    + eapply postingsRep_ext; [|exact D3]. intros k. symmetry. eapply ofScope_insert_same; [exact Hr|]. unfold edgeScopes. by rewrite E3.
    + by eapply adjacency_update.
    + by eapply adjacency_update.
  - rewrite El. intros i e He. apply lookup_insert_Some in He as [[<- <-]|[_ He]]; [|by apply (D1 i)]. rewrite <- E1, <- E2. by apply (D1 id).
Qed.

Lemma inv_edges_same tx edges : txInv o tx -> sideOK (o_edges o) edges (o_nextEdge o) (db_nextEdgeID (w_db tx)) -> liveOf edges = edgesOf tx -> txInv o (withEdges tx edges).
Proof.
  intros Hi Hs El. pose proof (ti_derived _ _ Hi) as [D1 D2 D3 D4 D5 D6].
  change (withEdges tx edges) with (withEdgeGraph tx edges (w_EdgeTypes tx) (w_Outgoing tx) (w_Incoming tx)). apply inv_edges_only; [done| |by rewrite El].
  split; [done|by rewrite El..].
Qed.

Lemma runs_writableEdge tx id only (Q : nat -> WriteTx -> Prop) (E : WriteTx -> Prop) : txInv o tx -> E tx ->
  (forall l r edges, edgesOf tx !! id = Some r -> sideOK (o_edges o) edges (o_nextEdge o) (db_nextEdgeID (w_db tx)) -> frozen (o_edges o) (w_edges tx) edges ->
     liveOf edges = edgesOf tx -> writableAt (o_edges o) edges id l r -> (only = false -> is_Some (refs (sd_base edges) !! id) -> sd_keys edges !! id = Some None) ->
     rest o tx (withEdges tx edges) -> Q l (withEdges tx edges)) ->
  runs (writableEdge id only) tx Q E.
Proof.
  intros Hi HE HQ. unfold writableEdge. apply runs_bind, (runs_requireEdge o); [done|done|]. intros l r Hl Hr Hn. apply runs_bind, runs_gets. cbn [fst].
  destruct (writable_record _ _ _ _ _ _ _ only (ti_edges _ _ Hi) Hl Hr) as (W1 & W2 & W3 & W4 & W5).
  destruct (writableRecord (w_edges tx) id l only) as [l' edges]. cbn [fst snd] in *. apply runs_bind, runs_modify, runs_ret.
  apply (HQ l' r); try done; [destruct W4 as (_ & -> & _); done|]. apply rest_same; [by apply inv_edges_same|by apply step_edges|]. unfold graphOf, edgesOf. cbn [withEdges w_edges]. by rewrite W2.
Qed.

Lemma edge_written tx edges id l r g ks : txInv o tx -> sideOK (o_edges o) edges (o_nextEdge o) (db_nextEdgeID (w_db tx)) -> frozen (o_edges o) (w_edges tx) edges ->
  liveOf edges = edgesOf tx -> edgesOf tx !! id = Some r -> writableAt (o_edges o) edges id l r ->
  propertiesOK (g (e_Properties r)) -> sameProps (e_Properties r) (g (e_Properties r)) ks ->
  becomes o tx (viewEdges (graphOf tx) (<[id := setEdgeProperties g r]> (edgesOf tx)))
    (withEdges tx (foldl (fun s k => trackProperty s id k) (writeThrough edges l (setEdgeProperties g)) ks)).
Proof.
  intros Hi Hn Hf El Hr Hw Hok Hsame. assert (Hr' : liveOf edges !! id = Some r) by (by rewrite El). destruct (live_record _ _ _ _ Hn id r Hr') as (Eid & _ & _).
  destruct (write_tracked _ _ _ _ id l r (setEdgeProperties g) ks Hn Hw) as (W1 & W2 & W3); [done|split; done|done|done|].
  rewrite El in W2. assert (Hf' : frozen (o_edges o) (w_edges tx) (foldl (fun s k => trackProperty s id k) (writeThrough edges l (setEdgeProperties g)) ks)) by (by etransitivity).
  split; [by eapply inv_edge_update|]. split; [by apply step_edges|]. unfold graphOf, viewEdges, edgesOf. cbn [withEdges w_edges]. by rewrite W2.
Qed.

Lemma edge_replaced tx edges id l r g : txInv o tx -> sideOK (o_edges o) edges (o_nextEdge o) (db_nextEdgeID (w_db tx)) -> frozen (o_edges o) (w_edges tx) edges ->
  liveOf edges = edgesOf tx -> edgesOf tx !! id = Some r -> writableAt (o_edges o) edges id l r -> (is_Some (refs (sd_base edges) !! id) -> sd_keys edges !! id = Some None) ->
  propertiesOK (g (e_Properties r)) ->
  becomes o tx (viewEdges (graphOf tx) (<[id := setEdgeProperties g r]> (edgesOf tx))) (withEdges tx (writeThrough edges l (setEdgeProperties g))).
Proof.
  intros Hi Hn Hf El Hr Hw Hk Hok. assert (Hr' : liveOf edges !! id = Some r) by (by rewrite El). destruct (live_record _ _ _ _ Hn id r Hr') as (Eid & _ & _).
  destruct (write_untracked _ _ _ _ id l r (setEdgeProperties g) Hn Hw) as (W1 & W2 & W3); [done|split; done|done|].
  rewrite El in W2. assert (Hf' : frozen (o_edges o) (w_edges tx) (writeThrough edges l (setEdgeProperties g))) by (by etransitivity).
  split; [by eapply inv_edge_update|]. split; [by apply step_edges|]. unfold graphOf, viewEdges, edgesOf. cbn [withEdges w_edges]. by rewrite W2.
Qed.

Lemma SetEdgeProperty_ok tx id key v : txInv o tx -> wfV v ->
  runs (SetEdgeProperty id key v) tx (fun _ tx' => exists r n, edgesOf tx !! id = Some r /\ NormalizeValue v = inl n /\
    becomes o tx (viewEdges (graphOf tx) (<[id := setEdgeProperties (fun p => PSet p key n) r]> (edgesOf tx))) tx') (rest o tx).
Proof.
  intros Hi Hv. unfold SetEdgeProperty. pose proof (rest_refl o _ Hi) as Hrest. checks Hi. apply runs_bind, runs_writableEdge; [done|done|].
  intros l r edges Hr Hn Hf El Hw _ Hrest'. apply runs_bind, runs_ofSum; [|done]. intros n En. apply runs_modify. exists r, n. split; [done|]. split; [done|].
  destruct (live_record _ _ _ _ (ti_edges _ _ Hi) id r Hr) as (_ & [Hok _] & _). destruct (set_property (e_Properties r) key n Hok) as [P1 P2]; [by eapply normalized_value|].
  exact (edge_written tx edges id l r (fun p => PSet p key n) [key] Hi Hn Hf El Hr Hw P1 P2).
Qed.

Lemma RemoveEdgeProperty_ok tx id key : txInv o tx ->
  runs (RemoveEdgeProperty id key) tx (fun _ tx' => exists r, edgesOf tx !! id = Some r /\
    becomes o tx (viewEdges (graphOf tx) (<[id := setEdgeProperties (fun p => PDelete p key) r]> (edgesOf tx))) tx') (rest o tx).
Proof.
  intros Hi. unfold RemoveEdgeProperty. pose proof (rest_refl o _ Hi) as Hrest. checks Hi. apply runs_bind, runs_writableEdge; [done|done|].
  intros l r edges Hr Hn Hf El Hw _ Hrest'. apply runs_modify. exists r. split; [done|].
  destruct (live_record _ _ _ _ (ti_edges _ _ Hi) id r Hr) as (_ & [Hok _] & _). destruct (delete_property (e_Properties r) key Hok) as [P1 P2].
  exact (edge_written tx edges id l r (fun p => PDelete p key) [key] Hi Hn Hf El Hr Hw P1 P2).
Qed.

(** ** New edges *)

Lemma CreateEdge_ok tx fault source target ty props : txInv o tx -> wfProperties props ->
  runs (CreateEdge fault source target ty props) tx (fun v tx' => exists record, v = publicEdge record /\ e_ID record = db_nextEdgeID (w_db tx) /\
      e_SourceID record = source /\ e_TargetID record = target /\ e_Type record = ty /\ is_Some (nodesOf tx !! source) /\ is_Some (nodesOf tx !! target) /\
      NormalizePropertyStorage props = inl (e_Properties record) /\ edgesOf tx !! e_ID record = None /\
      becomes o tx (viewEdges (graphOf tx) (<[e_ID record := record]> (edgesOf tx))) tx') (rest o tx).
Proof.
  intros Hi Hp. unfold CreateEdge. pose proof (rest_refl o _ Hi) as Hrest. checks Hi.
  apply runs_bind, (runs_requireNode o); [done|done|]. intros l1 r1 _ _ Hs. apply runs_bind, (runs_requireNode o); [done|done|]. intros l2 r2 _ _ Ht.
  apply runs_bind, runs_ofSum; [|done]. intros p Ep. apply runs_bind, (runs_allocatingEdge o); [done| |done]. intros db Hdb Hm En Ee Hbound.
  set (id := db_nextEdgeID (w_db tx)) in *. set (record := mkEdge id source target (InternString ty) p).
  destruct (create_record _ _ _ _ record (ti_edges _ _ Hi)) as (C1 & C2 & C3 & C4); [apply (id_edge _ (ti_ids _ _ Hi))|done|split; [by eapply normalized_storage|done]|].
  fold id in C1, C2, C3, C4. pose proof (ti_derived _ _ Hi) as [D1 D2 D3 D4 D5 D6]. pose proof (id_edge _ (ti_ids _ _ Hi)) as [Hpos _].
  apply runs_bind, runs_modify, runs_bind. eapply (runs_add _ _ (ofScope edgeScopes (edgesOf tx))); [exact D3|]. intros types Htypes.
  apply runs_bind, runs_modify, runs_bind, runs_modify, runs_bind, runs_modify, runs_ret. exists record. split_and!; try done.
  set (out := <[source := Append (w_Outgoing tx !! source) id]> (w_Outgoing tx)). set (inc := <[target := Append (w_Incoming tx !! target) id]> (w_Incoming tx)).
  set (edges := markUpsert (setRecord (w_edges tx) id record) id) in *.
  change (becomes o tx (viewEdges (graphOf tx) (<[id := record]> (edgesOf tx))) (withEdgeGraph (withDB tx db) edges types out inc)).
  split; [|split].
  - apply inv_edges; try done; [split; [by rewrite Ee|..]|]; rewrite C2, ?Ee.
    + eapply postingsRep_ext; [|exact Htypes]. intros k. rewrite (ofScope_insert_new edgeScopes _ _ _ k C3). unfold setFor, added, edgeScopes. cbn [e_Type record]. unfold InternString.
      destruct (decide (k = ty)) as [->|Hne]; [by rewrite bool_decide_true by set_solver|by rewrite bool_decide_false by set_solver].
    + exact (adjacency_append e_SourceID id (w_Outgoing tx) (edgesOf tx) record D5 Hpos Hbound C3).
    + exact (adjacency_append e_TargetID id (w_Incoming tx) (edgesOf tx) record D6 Hpos Hbound C3).
    + intros i e He. apply lookup_insert_Some in He as [[<- <-]|[_ He]]; [by split; eexists|by apply (D1 i)].
  - split; try done. cbn. lia.
  - unfold graphOf, viewEdges, edgesOf. cbn [withEdgeGraph withIncoming withOutgoing withEdgeTypes withEdges withDB w_edges]. by rewrite C2.
Qed.

(** ** Removed edges *)

Lemma runs_dropEdge tx id r (Q : unit -> WriteTx -> Prop) E next :
  sideOK (o_edges o) (w_edges tx) (o_nextEdge o) next -> postingsRep (w_EdgeTypes tx) (ofScope edgeScopes (edgesOf tx)) -> edgesOf tx !! id = Some r ->
  (forall edges types, sideOK (o_edges o) edges (o_nextEdge o) next -> postingsRep types (ofScope edgeScopes (liveOf edges)) -> liveOf edges = delete id (edgesOf tx) ->
     frozen (o_edges o) (w_edges tx) edges -> Q tt (withEdgeTypes (withEdges tx edges) types)) -> runs (dropEdge r id) tx Q E.
Proof.
  intros Hs Htypes Hr HQ. destruct (live_record _ _ _ _ Hs id r Hr) as (_ & _ & Hid). unfold dropEdge. apply runs_bind, runs_gets, runs_bind, runs_modify, runs_bind.
  destruct (drop_record _ _ _ _ id Hs ltac:(lia)) as (S1 & S2 & S3). fold (edgesOf tx) in S2. eapply (runs_take _ _ (ofScope edgeScopes (edgesOf tx))); [exact Htypes|]. intros types Hp. apply runs_modify.
  apply (HQ (markDelete (dropRecord (w_edges tx) id) (hasRecord (sd_base (w_edges tx)) id) id) types); try done.
  eapply postingsRep_ext; [|exact Hp]. intros k. rewrite S2, (ofScope_delete edgeScopes _ _ _ k Hr). unfold setFor, taken, edgeScopes.
  destruct (decide (k = e_Type r)) as [->|Hne]; [by rewrite bool_decide_true by set_solver|by rewrite bool_decide_false by set_solver].
Qed.

Lemma edge_bound tx : idsOK (w_db tx) -> 0 < db_nextEdgeID (w_db tx) /\ db_nextEdgeID (w_db tx) <= 2 ^ 63.
Proof. intros [_ [H0' H1'] _]. unfold EntityIDExhausted, MaxEntityID in H1'. lia. Qed.

Lemma deleteEdgeTx_ok tx id : txInv o tx ->
  runs (deleteEdgeTx id) tx (fun _ tx' => becomes o tx (viewEdges (graphOf tx) (delete id (edgesOf tx))) tx' /\ w_budget tx' = w_budget tx /\ db_nextNodeID (w_db tx') = db_nextNodeID (w_db tx)) (fun _ => False).
Proof.
  intros Hi. unfold deleteEdgeTx. apply runs_bind, runs_gets. rewrite (readRecord_live _ _ _ _ (ti_edges _ _ Hi)). fold (edgesOf tx).
  destruct (edgesOf tx !! id) as [r|] eqn:Hr.
  2:{ apply runs_ret. rewrite delete_id by done. split; [|done]. split_and!; done. }
  pose proof (ti_derived _ _ Hi) as [D1 D2 D3 D4 D5 D6]. destruct (edge_bound tx (ti_ids _ _ Hi)) as [B0 B1].
  apply runs_bind. eapply (runs_dropEdge tx id r); [apply (ti_edges _ _ Hi)|done|done|]. intros edges types Hs Htypes El Hf.
  apply runs_bind, runs_modify, runs_modify.
  set (out := storeList (w_Outgoing tx) (e_SourceID r) (RemoveKnown (w_Outgoing tx !! e_SourceID r) id)).
  set (inc := storeList (w_Incoming tx) (e_TargetID r) (RemoveKnown (w_Incoming tx !! e_TargetID r) id)).
  change (withIncoming _ _) with (withEdgeGraph tx edges types out inc). split; [|done]. split; [|split].
  - apply inv_edges_only; [done|split; [done|done|rewrite El..]|rewrite El].
    + by apply (adjacency_known e_SourceID).
    + by apply (adjacency_known e_TargetID).
    + intros i e He. apply lookup_delete_Some in He as [_ He]. by apply (D1 i).
  - by split.
  - unfold graphOf, viewEdges, edgesOf. cbn [withEdgeGraph withIncoming withOutgoing withEdgeTypes withEdges w_edges]. by rewrite El.
Qed.

Lemma DeleteEdge_ok tx source target ty : txInv o tx ->
  runs (DeleteEdge source target ty) tx (fun _ tx' => exists id r, edgesOf tx !! id = Some r /\ e_SourceID r = source /\ e_TargetID r = target /\ e_Type r = ty /\
    (forall id' r', edgesOf tx !! id' = Some r' -> e_SourceID r' = source -> e_TargetID r' = target -> e_Type r' = ty -> id <= id') /\
    becomes o tx (viewEdges (graphOf tx) (delete id (edgesOf tx))) tx') (rest o tx).
Proof.
  intros Hi. unfold DeleteEdge. pose proof (rest_refl o _ Hi) as Hrest. checks Hi.
  apply runs_bind, (runs_requireNode o); [done|done|]. intros l1 r1 _ _ Hs. apply runs_bind, (runs_requireNode o); [done|done|]. intros l2 r2 _ _ Ht.
  apply runs_bind, runs_gets. destruct (List.find _ _) as [id|] eqn:Ef; [|by apply runs_fail]. destruct (listed_reads _ _ _ _ _ (dv_outgoing _ (ti_derived _ _ Hi) source)) as (Hsort & _ & Hin).
  assert (Hread : forall i, readRecord (w_edges tx) i = edgesOf tx !! i) by (intros i; by rewrite (readRecord_live _ _ _ _ (ti_edges _ _ Hi))).
  pose proof (List.find_some _ _ Ef) as [Hid%list_elem_of_In Hm]. rewrite Hread in Hm. apply Hin in Hid as (r & Hr & Es). rewrite Hr in Hm.
  unfold matchingEdge in Hm. apply andb_true_iff in Hm as [Em%N.eqb_eq Et%bool_decide_eq_true]. destruct (live_record _ _ _ _ (ti_edges _ _ Hi) id r Hr) as (_ & _ & Hpos).
  rewrite (proj2 (N.eqb_neq id 0)) by lia. eapply runs_weaken; [by apply deleteEdgeTx_ok| |done]. intros u tx' [Hb _]. exists id, r. split_and!; try done.
  intros id' r' Hr' Es' Em' Et'. assert (Hin' : id' ∈ EdgeAll (w_Outgoing tx !! source)) by (apply Hin; eauto).
  clear -Ef Hsort Hin' Hr' Em' Et' Hread. revert Ef Hsort Hin'. generalize (EdgeAll (w_Outgoing tx !! source)) as l. induction l as [|x l IH]; [done|]. cbn [List.find].
  intros Ef Hsort Hin'. apply StronglySorted_inv in Hsort as [Hsort Hx]. destruct (match readRecord (w_edges tx) x with Some e => matchingEdge target ty e | None => false end) eqn:Ex.
  - injection Ef as <-. apply elem_of_cons in Hin' as [->|Hin']; [done|]. rewrite Forall_forall in Hx. apply N.lt_le_incl. by apply Hx.
  - apply elem_of_cons in Hin' as [->|Hin']; [|by apply IH]. rewrite Hread, Hr' in Ex. unfold matchingEdge in Ex. rewrite Em', Et', N.eqb_refl, bool_decide_true in Ex by done. done.
Qed.
End edges.
