(* ===== verification/GraphTxRemove.v ===== *)
(** * Nodes removed with their edges and text

    Further down: the calls on text, metadata and streams. *)
From S2P Require Import Prelude.
From S2P Require Import Adjacency.
From S2P Require Import AdjacencySpec.
From S2P Require Import GoBytes.
From S2P Require Import BinaryCodec.
From S2P Require Import BinaryValue.
From S2P Require Import BinaryRecords.
From S2P Require Import GoMaps.
From S2P Require Import Values.
From S2P Require Import ValuesSpec.
From S2P Require Import Properties.
From S2P Require Import PageRecords.
From S2P Require Import Streams.
From S2P Require Import StreamTx.
From S2P Require Import StreamTxSpec.
From S2P Require Import PropertyDelta.
From S2P Require Import WalAccumulator.
From S2P Require Import WalInvariant.
From S2P Require Import GraphPersist.
From S2P Require Import GraphChanges.
From S2P Require Import StringPostings.
From S2P Require Import IndexUpkeep.
From S2P Require Import IndexTheorems.
From S2P Require Import GraphTx.
From S2P Require Import GraphStatement.
From S2P Require Import GraphSides.
From S2P Require Import GraphTxSpec.
From S2P Require Import GraphTxNodes.

#[local] Open Scope go_scope.

(** ** Edges taken out of the lists of many nodes *)

Class AdjacencyField (get : WriteTx -> gmap N EdgeList) (put : WriteTx -> gmap N EdgeList -> WriteTx) : Prop := {
  adj_get_put : forall tx m, get (put tx m) = m;
  adj_put_put : forall tx m m', put (put tx m) m' = put tx m';
  adj_put_get : forall tx, put tx (get tx) = tx;
  adj_put_budget : forall tx m b, withBudget (put tx m) b = put (withBudget tx b) m;
  adj_get_budget : forall tx b, get (withBudget tx b) = get tx;
  adj_budget_put : forall tx m, w_budget (put tx m) = w_budget tx }.
#[global] Instance outgoing_field : AdjacencyField w_Outgoing withOutgoing.
Proof. split; try done. by intros []. Qed.
#[global] Instance incoming_field : AdjacencyField w_Incoming withIncoming.
Proof. split; try done. by intros []. Qed.

(** The list of one node without the edges removed. *)
Definition unlink (lists : gmap N (list N)) (m : gmap N EdgeList) (id : N) : gmap N EdgeList := storeList m id (RemoveKnownBatch (m !! id) (default [] (lists !! id))).

Lemma unlink_ne lists m id id' : id' <> id -> unlink lists m id !! id' = m !! id'.
Proof. intros Hne. by apply storeList_ne. Qed.
Lemma unlink_local lists m m' id : m !! id = m' !! id -> unlink lists m id !! id = unlink lists m' id !! id.
Proof. intros E. unfold unlink, storeList. rewrite E. destruct (_ =? _)%Z; [by rewrite !lookup_delete_eq|]. destruct (RemoveKnownBatch _ _); by rewrite ?lookup_insert_eq, ?lookup_delete_eq. Qed.

Lemma unlink_all lists L : forall m id, NoDup L -> foldl (unlink lists) m L !! id = if bool_decide (id ∈ L) then unlink lists m id !! id else m !! id.
Proof.
  induction L as [|x L IH]; intros m id Hnd; cbn [foldl]; [by rewrite bool_decide_false by set_solver|]. apply NoDup_cons in Hnd as [Hx Hnd]. rewrite (IH _ _ Hnd).
  destruct (decide (id = x)) as [->|Hne].
  - by rewrite (bool_decide_false (x ∈ L)), bool_decide_true by set_solver.
  - rewrite (bool_decide_ext (id ∈ x :: L) (id ∈ L)) by set_solver. case_bool_decide; [|by apply unlink_ne]. apply unlink_local. by apply unlink_ne.
Qed.

(** The lists say which edges [X] took from every node. *)
Definition collected (endOf : EdgeRecord -> N) (lists : gmap N (list N)) (edges : gmap N EdgeRecord) (X : gset N) : Prop :=
  forall id e, e ∈ default [] (lists !! id) <-> e ∈ X /\ exists r, edges !! e = Some r /\ endOf r = id.

Lemma collected_empty endOf edges : collected endOf ∅ edges ∅.
Proof. intros id e. rewrite lookup_empty. cbn. set_solver. Qed.

Lemma collected_push endOf lists edges X id r : collected endOf lists edges X -> edges !! id = Some r -> collected endOf (pushID lists (endOf r) id) edges ({[id]} ∪ X).
Proof.
  unfold collected. intros Hc Hr i e. unfold pushID. destruct (decide (i = endOf r)) as [->|Hne].
  - rewrite lookup_insert_eq. cbn [from_option Datatypes.id]. rewrite elem_of_app, list_elem_of_singleton, Hc, elem_of_union, elem_of_singleton. split; [|tauto].
    intros [[? ?]| ->]; [tauto|]. eauto.
  - rewrite lookup_insert_ne, Hc, elem_of_union, elem_of_singleton by done. split; [tauto|]. intros [[->|?] (r' & Hr' & Er)]; [congruence|eauto].
Qed.

Lemma collected_skip endOf lists edges X id : collected endOf lists edges X -> edges !! id = None -> collected endOf lists edges ({[id]} ∪ X).
Proof. unfold collected. intros Hc Hr i e. rewrite Hc, elem_of_union, elem_of_singleton. split; [tauto|]. intros [[->|?] (r & Hr' & Er)]; [congruence|eauto]. Qed.

Section lists.
Context `{MapOrder (list N)}.

Lemma adjacency_unlink endOf next m edges lists X : 0 < next -> next <= 2 ^ 63 -> adjacency endOf next m edges -> collected endOf lists edges X ->
  adjacency endOf next (foldl (unlink lists) m (rangeKeys 0 lists)) (filter (fun kv => kv.1 ∉ X) edges).
Proof.
  intros H0 Hn Ha Hc id. rewrite unlink_all by apply rangeKeys_nodup. pose proof (Hc id) as Hid. case_bool_decide as Hin.
  - unfold unlink. apply storeList_at. set (ids := default [] (lists !! id)) in *. eapply listed_ext; [|apply (listed_batch endOf next (m !! id) edges id ids H0 Hn (Ha id))].
    + intros e. split; intros (r & [Hr Hx]%map_lookup_filter_Some & Er); exists r; (split; [apply map_lookup_filter_Some; split; [done|]|done]); cbn in *.
      * intros HX. apply Hx. apply elem_of_list_to_set, Hid. eauto.
      * intros Hi%elem_of_list_to_set%Hid. tauto.
    + intros e He. apply Hid in He as [_ He]. by apply (listed_reads _ _ _ _ _ (Ha id)).
  - eapply listed_ext; [|apply Ha]. intros e. split; intros (r & Hr & Er).
    + exists r. split; [|done]. apply map_lookup_filter_Some. split; [done|]. cbn. intros HX. apply Hin, elem_of_rangeKeys. assert (He : e ∈ default [] (lists !! id)) by (apply Hid; eauto).
      destruct (lists !! id); [by eexists|by apply elem_of_nil in He].
    + apply map_lookup_filter_Some in Hr as [Hr _]. eauto.
Qed.

Lemma runs_unlink `{AdjacencyField get put} lists L (Q : unit -> WriteTx -> Prop) (E : WriteTx -> Prop) : forall tx,
  (forall b, (b = None <-> w_budget tx = None) -> Q tt (put (withBudget tx b) (foldl (unlink lists) (get tx) L))) ->
  (forall m b, (b = None <-> w_budget tx = None) -> w_budget tx <> None -> E (put (withBudget tx b) m)) ->
  runs (forEach (fun id => budgetCheck 1 ;* modify (fun tx => put tx (storeList (get tx) id (RemoveKnownBatch (get tx !! id) (default [] (lists !! id)))))) L) tx Q E.
Proof.
  induction L as [|x L IH]; intros tx HQ HE; cbn [forEach].
  - apply runs_ret. specialize (HQ (w_budget tx) ltac:(done)). cbn [foldl] in HQ. by rewrite withBudget_same, adj_put_get in HQ.
  - apply runs_bind, runs_bind, runs_check; [|intros Hb; specialize (HE (get tx) (w_budget tx) ltac:(done) Hb); by rewrite withBudget_same, adj_put_get in HE].
    intros b Hb. apply runs_modify, IH.
    + intros c Hc. rewrite adj_budget_put in Hc. rewrite adj_put_budget, adj_put_put, withBudget_twice, adj_get_put, adj_get_budget. apply HQ. by rewrite Hc.
    + intros m c Hc Hne. rewrite adj_budget_put in Hc, Hne. rewrite adj_put_budget, adj_put_put, withBudget_twice. apply HE; [by rewrite Hc|]. intros En. by apply Hne, Hb.
Qed.
End lists.

Section removal.
Context `{MapOrder unit} `{MapOrder (gmap gostring postingList)} `{MapOrder (list N)}.
Context (o : origin).
Implicit Types tx : WriteTx.

Definition without (X : gset N) (edges : gmap N EdgeRecord) : gmap N EdgeRecord := filter (fun kv => kv.1 ∉ X) edges.

Lemma without_delete X id edges : delete id (without X edges) = without ({[id]} ∪ X) edges.
Proof.
  apply map_eq. intros i. apply option_eq. intros r. unfold without. rewrite lookup_delete_Some, !map_lookup_filter_Some, elem_of_union, elem_of_singleton. naive_solver.
Qed.
Lemma without_absent X id edges : without X edges !! id = None -> without ({[id]} ∪ X) edges = without X edges.
Proof. intros Hn. rewrite <- without_delete. by apply delete_id. Qed.
Lemma without_nothing edges : without ∅ edges = edges.
Proof. unfold without. apply map_filter_id. intros. set_solver. Qed.

Definition typesOK (next : N) tx : Prop := sideOK (o_edges o) (w_edges tx) (o_nextEdge o) next /\ postingsRep (w_EdgeTypes tx) (ofScope edgeScopes (edgesOf tx)).
Definition edgesRemoved tx (edges : side EdgeRecord) (types : StringPostings) b : WriteTx := withBudget (withEdgeTypes (withEdges tx edges) types) b.

Lemma runs_removeEach next edges0 ids (Q : gmap N (list N) * gmap N (list N) -> WriteTx -> Prop) (E : WriteTx -> Prop) : forall tx X out inc,
  typesOK next tx -> edgesOf tx = without X edges0 -> collected e_SourceID out edges0 X -> collected e_TargetID inc edges0 X ->
  (forall edges types out inc b, (b = None <-> w_budget tx = None) -> sideOK (o_edges o) edges (o_nextEdge o) next -> postingsRep types (ofScope edgeScopes (liveOf edges)) ->
     liveOf edges = without (list_to_set ids ∪ X) edges0 -> frozen (o_edges o) (w_edges tx) edges ->
     collected e_SourceID out edges0 (list_to_set ids ∪ X) -> collected e_TargetID inc edges0 (list_to_set ids ∪ X) -> Q (out, inc) (edgesRemoved tx edges types b)) ->
  (forall edges types b, (b = None <-> w_budget tx = None) -> w_budget tx <> None -> frozen (o_edges o) (w_edges tx) edges -> E (edgesRemoved tx edges types b)) ->
  runs (removeEach out inc ids) tx Q E.
Proof.
  induction ids as [|id ids IH]; intros tx X out inc [Hs Ht] El Ho Hc HQ HE; cbn [removeEach].
  - apply runs_ret. specialize (HQ (w_edges tx) (w_EdgeTypes tx) out inc (w_budget tx)). rewrite list_to_set_nil, union_empty_l_L in HQ.
    unfold edgesRemoved in HQ. change (withBudget _ _) with (withBudget tx (w_budget tx)) in HQ. rewrite withBudget_same in HQ. by apply HQ.
  - apply runs_bind, runs_check.
    2:{ intros Hb. specialize (HE (w_edges tx) (w_EdgeTypes tx) (w_budget tx) ltac:(done) Hb ltac:(done)). unfold edgesRemoved in HE.
        change (withBudget _ _) with (withBudget tx (w_budget tx)) in HE. by rewrite withBudget_same in HE. }
    intros b Hb. apply runs_bind, runs_gets. cbn [withBudget w_edges]. rewrite (readRecord_live _ _ _ _ Hs). change (liveOf (w_edges tx)) with (edgesOf tx).
    assert (EX : list_to_set (id :: ids) ∪ X = list_to_set ids ∪ ({[id]} ∪ X)) by set_solver. rewrite EX in HQ. destruct (edgesOf tx !! id) as [r|] eqn:Er.
    + assert (Hr : edges0 !! id = Some r) by (rewrite El in Er; by apply map_lookup_filter_Some in Er as [? _]).
      apply runs_bind. eapply (runs_dropEdge o (withBudget tx b) id r); [exact Hs|exact Ht|exact Er|]. intros edges types Hs' Ht' El' Hf.
      eapply (IH _ ({[id]} ∪ X)); [by split| |by apply collected_push|by apply collected_push| |].
      * etransitivity; [exact El'|]. change (edgesOf (withBudget tx b)) with (edgesOf tx). by rewrite El, without_delete.
      * intros edges' types' out' inc' c Hc' H1' H2' H3' H4' H5' H6'. apply HQ; try done; [by rewrite Hc'|by etransitivity].
      * intros edges' types' c Hc' Hne Hf'. apply HE; [by rewrite Hc'|intros En; by apply Hne, Hb|by etransitivity].
    + assert (Hskip : forall endOf lists, collected endOf lists edges0 X -> collected endOf lists edges0 ({[id]} ∪ X)).
      { intros endOf lists Hl. destruct (decide (id ∈ X)) as [HX|HX]; [by replace ({[id]} ∪ X) with X by set_solver|]. apply collected_skip; [done|].
        destruct (edges0 !! id) as [r|] eqn:E0; [|done]. assert (Hx : without X edges0 !! id = Some r) by (by apply map_lookup_filter_Some). congruence. }
      eapply (IH _ ({[id]} ∪ X)); [by split| |by apply Hskip|by apply Hskip| |].
      * change (edgesOf (withBudget tx b)) with (edgesOf tx). rewrite without_absent by congruence. done.
      * intros edges' types' out' inc' c Hc' H1' H2' H3' H4' H5' H6'. apply HQ; try done. by rewrite Hc'.
      * intros edges' types' c Hc' Hne Hf'. apply HE; [by rewrite Hc'|intros En; by apply Hne, Hb|done].
Qed.

Definition graphRemoved tx edges types out inc b : WriteTx := withBudget (withEdgeGraph tx edges types out inc) b.

Lemma runs_deleteEdgesBatch next ids tx (Q : unit -> WriteTx -> Prop) (E : WriteTx -> Prop) : 0 < next -> next <= 2 ^ 63 ->
  edgesOK o next (w_edges tx) (w_EdgeTypes tx) (w_Outgoing tx) (w_Incoming tx) ->
  (forall edges types out inc b, (b = None <-> w_budget tx = None) -> edgesOK o next edges types out inc -> liveOf edges = without ids (edgesOf tx) ->
     frozen (o_edges o) (w_edges tx) edges -> Q tt (graphRemoved tx edges types out inc b)) ->
  (forall edges types out inc b, (b = None <-> w_budget tx = None) -> w_budget tx <> None -> frozen (o_edges o) (w_edges tx) edges -> E (graphRemoved tx edges types out inc b)) ->
  runs (deleteEdgesBatchWithBudget ids) tx Q E.
Proof.
  intros H0' Hn [G1 G2 G3 G4] HQ HE. unfold deleteEdgesBatchWithBudget. apply runs_bind.
  eapply (runs_removeEach next (edgesOf tx) _ _ _ tx ∅); [by split|by rewrite without_nothing|apply collected_empty|apply collected_empty| |].
  2:{ intros edges types b Hb Hne Hf. by apply (HE edges types (w_Outgoing tx) (w_Incoming tx) b). }
  intros edges types out inc b Hb Hs Ht El Hf Ho Hc. assert (EX : list_to_set (rangeSet ids) ∪ ∅ = ids).
  { apply set_eq. intros x. rewrite elem_of_union, elem_of_list_to_set, elem_of_rangeSet. set_solver. }
  rewrite EX in El, Ho, Hc. cbn [fst snd]. apply runs_bind, (runs_unlink out).
  - intros c Hc'. apply (runs_unlink inc).
    + intros d Hd. apply (HQ edges types (foldl (unlink out) (w_Outgoing tx) (rangeKeys 0 out)) (foldl (unlink inc) (w_Incoming tx) (rangeKeys 0 inc)) d); try done.
      * rewrite Hd. etransitivity; [exact Hc'|done].
      * split; [done|done|rewrite El..]; by apply adjacency_unlink.
    + intros m d Hd Hne. apply (HE edges types (foldl (unlink out) (w_Outgoing tx) (rangeKeys 0 out)) m d); [rewrite Hd; etransitivity; [exact Hc'|done]| |done].
      intros En. apply Hne. apply Hc'. by apply Hb.
  - intros m c Hc' Hne. apply (HE edges types m (w_Incoming tx) c); [by etransitivity| |done]. intros En. apply Hne. by apply Hb.
Qed.
End removal.

(** ** Changes of sets of identifiers *)

Section changes.
Context {A : Type}.
Implicit Types (old new : gmap N A) (U D : gset N).

Lemma changes_sets old new U D : entityChanges old new (elements U) (elements D) <->
  U ## D /\ (forall id, id ∈ U -> is_Some (new !! id)) /\ (forall id, id ∈ D -> is_Some (old !! id) /\ new !! id = None) /\ (forall id, id ∉ D -> id ∉ U -> old !! id = new !! id).
Proof.
  split.
  - intros [C1 C2 C3 C4]. setoid_rewrite elem_of_elements in C2. setoid_rewrite elem_of_elements in C3. setoid_rewrite elem_of_elements in C4.
    split_and!; try done. apply NoDup_app in C1 as (_ & C1 & _). apply elem_of_disjoint. intros id Hu Hd. by apply (C1 id); apply elem_of_elements.
  - intros (C1 & C2 & C3 & C4). split; try (setoid_rewrite elem_of_elements; done). apply NoDup_app. split_and!; [apply NoDup_elements| |apply NoDup_elements].
    intros id. rewrite !elem_of_elements. set_solver.
Qed.

Lemma changes_delete old new U D id : entityChanges old new (elements U) (elements D) ->
  entityChanges old (delete id new) (elements (U ∖ {[id]})) (elements (if bool_decide (is_Some (old !! id)) then {[id]} ∪ D else D)).
Proof.
  rewrite !changes_sets. intros (C1 & C2 & C3 & C4). split_and!.
  - case_bool_decide; set_solver.
  - intros i [Hi Hne]%elem_of_difference. rewrite lookup_delete_ne by set_solver. by apply C2.
  - intros i Hi. destruct (decide (i = id)) as [->|Hne]; [rewrite lookup_delete_eq; split; [|done]; case_bool_decide as Ho; [done|by apply C3]|].
    rewrite lookup_delete_ne by done. apply C3. case_bool_decide; set_solver.
  - intros i Hd Hu. destruct (decide (i = id)) as [->|Hne].
    + rewrite lookup_delete_eq. case_bool_decide as Ho; [set_solver|]. by apply eq_None_not_Some.
    + rewrite lookup_delete_ne by done. apply C4; [case_bool_decide; set_solver|set_solver].
Qed.

Lemma changes_insert old new U D id x : entityChanges old new (elements U) (elements D) ->
  entityChanges old (<[id := x]> new) (elements ({[id]} ∪ U)) (elements (D ∖ {[id]})).
Proof.
  rewrite !changes_sets. intros (C1 & C2 & C3 & C4). split_and!.
  - set_solver.
  - intros i Hi. destruct (decide (i = id)) as [->|Hne]; [rewrite lookup_insert_eq; eauto|]. rewrite lookup_insert_ne by done. apply C2. set_solver.
  - intros i [Hi Hne]%elem_of_difference. rewrite lookup_insert_ne by set_solver. by apply C3.
  - intros i Hd Hu. rewrite lookup_insert_ne by set_solver. apply C4; set_solver.
Qed.
End changes.

Lemma readFTS_rows h t n fts id : tableOK h t n -> textOK (contents h (refs t)) fts -> readFTS t fts id = fts_rows fts !! id.
Proof.
  intros Ht [T1 T2]. unfold readFTS. case_bool_decide as Hd; cbn [orb].
  - destruct (fts_rows fts !! id) as [r|] eqn:E; [|done]. destruct (T1 id r E) as [Hs _]. apply (table_dom _ _ _ _ Ht) in Hs as [l Hl]. apply (tk_deleted _ _ _ Ht) in Hd as [_ Hd]. congruence.
  - case_bool_decide as Hf; [|done]. by rewrite (T2 id Hf).
Qed.

Section nodes.
Context `{MapOrder unit} `{MapOrder (gmap gostring postingList)} `{MapOrder (list N)}.
Context (o : origin).
Implicit Types tx : WriteTx.

Lemma live_text tx id : txInv o tx -> readFTS (sd_live (w_nodes tx)) (w_fts tx) id = fts_rows (w_fts tx) !! id.
Proof. intros Hi. eapply readFTS_rows; [apply (so_live _ _ _ _ (ti_nodes _ _ Hi))|apply (ti_text _ _ Hi)]. Qed.
Lemma base_text tx id : txInv o tx -> readFTS (sd_base (w_nodes tx)) (w_ftsBase tx) id = fts_rows (w_ftsBase tx) !! id.
Proof. intros Hi. eapply readFTS_rows; [apply (so_base _ _ _ _ (ti_nodes _ _ Hi))|apply (ti_textBase _ _ Hi)]. Qed.

Definition textRemoved tx fts up del tokens b : WriteTx := withBudget (withFTSTokens (withFTS tx fts up del) tokens) b.

Lemma textRemoved_same tx : textRemoved tx (w_fts tx) (w_upsertFTS tx) (w_deleteFTS tx) (w_FTSTokens tx) (w_budget tx) = tx.
Proof. by destruct tx. Qed.

Lemma runs_dropFTS tx id (Q : unit -> WriteTx -> Prop) (E : WriteTx -> Prop) : txInv o tx ->
  (forall fts up del tokens b, (b = None <-> w_budget tx = None) -> fts_rows fts = delete id (fts_rows (w_fts tx)) -> (forall i, i ∈ fts_deleted fts -> fts_rows fts !! i = None) ->
     postingsRep tokens (ofScope fts_Tokens (fts_rows fts)) -> entityChanges (texts (w_ftsBase tx)) (texts fts) (elements up) (elements del) -> Q tt (textRemoved tx fts up del tokens b)) ->
  (forall tokens b, (b = None <-> w_budget tx = None) -> w_budget tx <> None -> E (textRemoved tx (w_fts tx) (w_upsertFTS tx) (w_deleteFTS tx) tokens b)) ->
  runs (dropFTS id (bool_decide (is_Some (fts_rows (w_ftsBase tx) !! id))) (fts_rows (w_fts tx) !! id)) tx Q E.
Proof.
  intros Hi HQ HE. unfold dropFTS. pose proof (dv_tokens _ (ti_derived _ _ Hi)) as Dt. pose proof (ti_text _ _ Hi) as [T1 T2].
  destruct (fts_rows (w_fts tx) !! id) as [r|] eqn:Er.
  2:{ apply runs_ret. rewrite <- (textRemoved_same tx). apply HQ; try done; [by rewrite delete_id|apply (ti_textChanges _ _ Hi)]. }
  apply runs_bind. eapply (runs_takeAll _ _ _ _ (ofScope fts_Tokens (fts_rows (w_fts tx)))); [exact Dt| |].
  2:{ intros p b Hb Hne. by apply (HE p b). }
  intros p b Hb Hp. apply runs_modify.
  change (Q tt (textRemoved tx (mkFTSTable (delete id (fts_rows (w_fts tx))) ({[id]} ∪ fts_deleted (w_fts tx))) (w_upsertFTS tx ∖ {[id]})
    (if bool_decide (is_Some (fts_rows (w_ftsBase tx) !! id)) then {[id]} ∪ w_deleteFTS tx else w_deleteFTS tx) p b)). apply HQ; try done.
  - intros i Hd. cbn [fts_rows fts_deleted] in *. apply elem_of_union in Hd as [->%elem_of_singleton|Hd]; [by rewrite lookup_delete_eq|]. apply lookup_delete_None. right. by apply T2.
  - eapply postingsRep_ext; [|exact Hp]. intros k. symmetry. by apply (ofScope_delete fts_Tokens).
  - unfold texts at 2. cbn [fts_rows]. rewrite fmap_delete. rewrite (bool_decide_ext (is_Some (fts_rows (w_ftsBase tx) !! id)) (is_Some (texts (w_ftsBase tx) !! id))).
    + apply changes_delete, (ti_textChanges _ _ Hi).
    + unfold texts. by rewrite lookup_fmap, fmap_is_Some.
Qed.

Lemma runs_collect L (Q : unit -> WriteTx -> Prop) (E : WriteTx -> Prop) : forall tx, (forall b, (b = None <-> w_budget tx = None) -> Q tt (withBudget tx b)) ->
  (forall b, (b = None <-> w_budget tx = None) -> w_budget tx <> None -> E (withBudget tx b)) -> runs (collectEdges L) tx Q E.
Proof.
  unfold collectEdges. induction L as [|x L IH]; intros tx HQ HE; cbn [forEach]; [apply runs_ret; rewrite <- (withBudget_same tx); by apply HQ|].
  apply runs_bind, runs_check; [|intros Hb; rewrite <- (withBudget_same tx); by apply HE]. intros b Hb. apply IH.
  - intros c Hc. rewrite withBudget_twice. apply HQ. by rewrite Hc.
  - intros c Hc Hne. rewrite withBudget_twice. apply HE; [by rewrite Hc|]. intros En. by apply Hne, Hb.
Qed.

(** ** A node with everything about it *)

Definition apart (id : N) (edges : gmap N EdgeRecord) : gmap N EdgeRecord := filter (fun kv => e_SourceID kv.2 <> id /\ e_TargetID kv.2 <> id) edges.
Definition removeNode (g : visible) (id : N) : visible :=
  mkVisible (delete id (gv_nodes g)) (apart id (gv_edges g)) (delete id (gv_text g)) (gv_metadata g) (gv_streams g).

Lemma incident_apart tx id : derivedOK tx -> without (list_to_set (EdgeAll (w_Outgoing tx !! id) ++ EdgeAll (w_Incoming tx !! id))) (edgesOf tx) = apart id (edgesOf tx).
Proof.
  intros D. destruct (listed_reads _ _ _ _ _ (dv_outgoing _ D id)) as (_ & _ & Hout). destruct (listed_reads _ _ _ _ _ (dv_incoming _ D id)) as (_ & _ & Hinc).
  apply map_eq. intros e. apply option_eq. intros r. unfold without, apart. rewrite !map_lookup_filter_Some. cbn [fst snd]. rewrite elem_of_list_to_set, elem_of_app, Hout, Hinc. naive_solver.
Qed.

Lemma adjacency_apart endOf next m edges id : (forall r, r ∈ (map_to_list edges).*2 -> endOf r <> id) -> 0 < next -> adjacency endOf next m edges -> adjacency endOf next (delete id m) edges.
Proof.
  intros Hno Hnext Ha i. destruct (decide (i = id)) as [->|Hne]; [|rewrite lookup_delete_ne by done; apply Ha]. rewrite lookup_delete_eq. exists []. split_and!; [|constructor|].
  - exists [], ∅. split_and!; [done|done|apply NoDup_nil_2|set_solver|apply Forall_nil_2|unfold zlen; cbn; lia].
  - intros e. split; [by intros ?%elem_of_nil|]. intros (r & Hr & Er). exfalso. apply (Hno r); [|done]. apply list_elem_of_fmap. exists (e, r). split; [done|]. by apply elem_of_map_to_list.
Qed.

Lemma apart_ends endOf id edges : (forall r, endOf r = e_SourceID r) \/ (forall r, endOf r = e_TargetID r) -> forall r, r ∈ (map_to_list (apart id edges)).*2 -> endOf r <> id.
Proof. intros He r Hr. apply list_elem_of_fmap in Hr as ([e r'] & -> & Hin%elem_of_map_to_list%map_lookup_filter_Some). cbn in *. destruct He as [-> | ->]; tauto. Qed.

(** The parts of a transaction after a removal, put together. *)
Lemma node_removed tx id nodes fts up del labels edges types tokens out inc b :
  txInv o tx -> sideOK (o_nodes o) nodes (o_nextNode o) (db_nextNodeID (w_db tx)) -> liveOf nodes = delete id (nodesOf tx) -> frozen (o_nodes o) (w_nodes tx) nodes ->
  fts_rows fts = delete id (fts_rows (w_fts tx)) -> (forall i, i ∈ fts_deleted fts -> fts_rows fts !! i = None) -> postingsRep tokens (ofScope fts_Tokens (fts_rows fts)) ->
  entityChanges (texts (w_ftsBase tx)) (texts fts) (elements up) (elements del) -> postingsRep labels (ofScope nodeScopes (delete id (nodesOf tx))) ->
  edgesOK o (db_nextEdgeID (w_db tx)) edges types out inc -> liveOf edges = apart id (edgesOf tx) ->
  txInv o (mkWriteTx (w_call tx) (w_db tx) nodes edges (w_ftsBase tx) fts up del labels types tokens (delete id out) (delete id inc) (w_AppMetadata tx) (w_appMetadata tx) b).
Proof.
  intros Hi Hn En Hf Ef Hd Ht Hc Hl [G1 G2 G3 G4] Ee. pose proof Hi as [I1 I2 I3 I4 I5 [T1 T2] [B1 B2] I8 I9 [D1 D2 D3 D4 D5 D6]]. destruct (edge_bound tx I3) as [P0 P1].
  split; try done.
  - split; [|done]. intros i r. cbn [w_fts]. rewrite Ef. intros [Hne Hr]%lookup_delete_Some. destruct (T1 i r Hr) as [? ?]. split; [|done]. unfold nodesOf. cbn [w_nodes]. by rewrite En, lookup_delete_ne.
  - split; [|done]. intros i r Hr. destruct (B1 i r Hr) as [? ?]. split; [|done]. cbn [w_nodes]. by rewrite (frozen_baseOf _ _ _ _ _ I4 Hf).
  - split; cbn [w_Labels w_EdgeTypes w_FTSTokens w_Outgoing w_Incoming w_db]; try done.
    + intros i e He. unfold edgesOf in He. cbn [w_edges] in He. rewrite Ee in He. apply map_lookup_filter_Some in He as [He [Hsrc Htgt]]. cbn [fst snd] in *.
      destruct (D1 i e He) as [? ?]. unfold nodesOf. cbn [w_nodes]. rewrite En, !lookup_delete_ne by done. done.
    + unfold nodesOf. cbn [w_nodes]. by rewrite En.
    + unfold edgesOf. cbn [w_edges]. apply adjacency_apart; [|done|done]. rewrite Ee. apply apart_ends. by left.
    + unfold edgesOf. cbn [w_edges]. apply adjacency_apart; [|done|done]. rewrite Ee. apply apart_ends. by right.
Qed.

Lemma runs_removeLabels tx id (node : option NodeRecord) (Q : unit -> WriteTx -> Prop) E : postingsRep (w_Labels tx) (ofScope nodeScopes (nodesOf tx)) -> node = nodesOf tx !! id ->
  (forall p, postingsRep p (ofScope nodeScopes (delete id (nodesOf tx))) -> Q tt (withLabels tx p)) ->
  runs (match node with Some node => forEach (fun label => removeLabelPosting label id) (elems (n_Labels node)) | None => aret tt end) tx Q E.
Proof.
  intros Hp -> HQ. destruct (nodesOf tx !! id) as [r|] eqn:Er.
  - eapply (runs_takeAllExact (elems (n_Labels r)) id (ofScope nodeScopes (nodesOf tx))); [exact Hp|]. intros p Hq. apply HQ. eapply postingsRep_ext; [|exact Hq].
    intros k. symmetry. by apply (ofScope_delete nodeScopes).
  - apply runs_ret. specialize (HQ (w_Labels tx)). rewrite withLabels_same in HQ. apply HQ. by rewrite delete_id.
Qed.

Lemma rest_spent tx tx' : w_budget tx <> None -> stepOK o tx tx' -> rest o tx tx'.
Proof. intros Hb Hs. split; [done|]. by intros Hn. Qed.

Lemma deleteNodeWithBudget_ok tx id : txInv o tx -> id < db_nextNodeID (w_db tx) ->
  runs (deleteNodeWithBudget id) tx (fun _ tx' => becomes o tx (removeNode (graphOf tx) id) tx' /\ w_db tx' = w_db tx) (rest o tx).
Proof.
  intros Hi Hid. unfold deleteNodeWithBudget. pose proof (rest_refl o _ Hi) as Hrest. checks Hi. destruct (edge_bound tx (ti_ids _ _ Hi)) as [P0 P1].
  rewrite (base_text _ _ Hi), (live_text _ _ Hi). destruct (drop_record _ _ _ _ id (ti_nodes _ _ Hi) Hid) as (S1 & S2 & S3). fold (nodesOf tx) in S2.
  set (nodes := markDelete (dropRecord (w_nodes tx) id) (hasRecord (sd_base (w_nodes tx)) id) id) in *.
  apply runs_bind, runs_dropFTS; [done| |intros tokens b Hb Hne; apply rest_spent; [done|by split]]. intros fts up del tokens b Hb Ef Hd Ht Hc.
  apply runs_bind. eapply (runs_removeLabels (textRemoved tx fts up del tokens b) id); [apply (dv_labels _ (ti_derived _ _ Hi))|apply (readRecord_live _ _ _ _ (ti_nodes _ _ Hi))|].
  intros labels Hl. apply runs_bind, runs_modify, runs_bind, runs_gets, runs_bind, runs_collect; [|intros c Hb' Hne; apply rest_spent; [by rewrite <- Hb|split; try done; by rewrite Hb']].
  intros b2 Hb2. apply runs_bind, runs_gets, runs_bind, runs_collect; [|intros c Hb' Hne; apply rest_spent; [rewrite <- Hb; by rewrite <- Hb2|split; try done; by rewrite Hb', Hb2]].
  intros b3 Hb3. apply runs_bind. apply (runs_deleteEdgesBatch o (db_nextEdgeID (w_db tx))); [done|done|by apply (inv_edgesOK o tx)| |].
  2:{ intros edges types out inc c Hb' Hne Hf. apply rest_spent; [rewrite <- Hb, <- Hb2; by rewrite <- Hb3|split; try done; by rewrite Hb', Hb3, Hb2]. }
  intros edges types out inc b4 Hb4 He El Hf. apply runs_modify. split; [|done].
  change (liveOf edges = without (list_to_set (EdgeAll (w_Outgoing tx !! id) ++ EdgeAll (w_Incoming tx !! id))) (edgesOf tx)) in El. rewrite (incident_apart _ _ (ti_derived _ _ Hi)) in El.
  match goal with |- becomes _ _ _ ?t => change t with (mkWriteTx (w_call tx) (w_db tx) nodes edges (w_ftsBase tx) fts up del labels types tokens (delete id out) (delete id inc) (w_AppMetadata tx) (w_appMetadata tx) b4) end.
  split; [by apply node_removed|]. split.
  - split; try done. etransitivity; [exact Hb4|]. etransitivity; [exact Hb3|]. by etransitivity; [exact Hb2|].
  - unfold graphOf, removeNode, nodesOf, edgesOf. cbn [w_nodes w_edges w_fts w_AppMetadata w_call gv_nodes gv_edges gv_text gv_metadata gv_streams]. by rewrite S2, El, Ef.
Qed.

Lemma DeleteNode_ok tx id : txInv o tx -> id < db_nextNodeID (w_db tx) ->
  runs (DeleteNode id) tx (fun _ tx' => becomes o tx (removeNode (graphOf tx) id) tx') (rest o tx).
Proof.
  intros Hi Hid. pose proof (deleteNodeWithBudget_ok (withBudget tx None) id (inv_withBudget o _ _ Hi) Hid) as Hr. unfold runs, DeleteNode in *.
  destruct (deleteNodeWithBudget id (withBudget tx None)) as [[u|err|] tx']; [| |done].
  - destruct Hr as [(Hi' & [K1 K2 K3 K4 K5 K6 K7] & Hg) _]. split; [by apply inv_withBudget|]. split; [by split|done].
  - destruct Hr as [[K1 K2 K3 K4 K5 K6 K7] Hr]. destruct (Hr eq_refl) as [Hi' Hg]. split; [by split|]. intros _. split; [by apply inv_withBudget|done].
Qed.
End nodes.

(** * The calls on text, metadata and streams *)

#[local] Open Scope go_scope.

Lemma ofScope_replace {R} (scopes : R -> list gostring) (M : gmap N R) id r k :
  ofScope scopes (<[id := r]> M) k = added (scopes r) id (taken (match M !! id with Some old => scopes old | None => [] end) id (ofScope scopes M)) k.
Proof.
  rewrite <- insert_delete_eq, (ofScope_insert_new scopes) by apply lookup_delete_eq. unfold added. assert (E : ofScope scopes (delete id M) k =
    taken (match M !! id with Some old => scopes old | None => [] end) id (ofScope scopes M) k); [|by rewrite E].
  destruct (M !! id) as [old|] eqn:Ho; [by apply ofScope_delete|]. rewrite delete_id by done. unfold taken. by rewrite bool_decide_false by set_solver.
Qed.

Section text.
Context `{MapOrder unit} `{MapOrder (gmap gostring postingList)} `{MapOrder (list N)}.
Context (o : origin) (tokenize : N -> gostring -> list gostring + error).
Implicit Types tx : WriteTx.

Lemma inv_text tx id text tokens p : txInv o tx -> is_Some (nodesOf tx !! id) -> ValidateFTSText text = None ->
  postingsRep p (ofScope fts_Tokens (<[id := mkFTS text tokens]> (fts_rows (w_fts tx)))) ->
  txInv o (withFTSTokens (withFTS tx (mkFTSTable (<[id := mkFTS text tokens]> (fts_rows (w_fts tx))) (fts_deleted (w_fts tx) ∖ {[id]})) ({[id]} ∪ w_upsertFTS tx) (w_deleteFTS tx ∖ {[id]})) p).
Proof.
  intros Hi Hn Hv Hp. pose proof Hi as [I1 I2 I3 I4 I5 [T1 T2] I7 I8 I9 [D1 D2 D3 D4 D5 D6]]. split; try done.
  - split; cbn [withFTSTokens withFTS w_fts fts_rows fts_deleted].
    + intros i r Hr. apply lookup_insert_Some in Hr as [[<- <-]|[_ Hr]]; [done|by apply T1].
    + intros i [Hd Hne]%elem_of_difference. rewrite lookup_insert_ne by set_solver. by apply T2.
  - cbn [withFTSTokens withFTS w_fts w_ftsBase w_upsertFTS w_deleteFTS]. unfold texts at 2. cbn [fts_rows]. rewrite fmap_insert. by apply changes_insert.
Qed.

Lemma FTSIndex_ok tx id text : txInv o tx ->
  runs (FTSIndex tokenize id text) tx (fun _ tx' => exists tokens, is_Some (nodesOf tx !! id) /\ ValidateFTSText text = None /\
    tokenized tokenize (db_derivedIndexBuildMaxLogicalBytes (w_db tx)) text = inl tokens /\
    becomes o tx (viewText (graphOf tx) (<[id := mkFTS text tokens]> (fts_rows (w_fts tx)))) tx') (rest o tx).
Proof.
  intros Hi. unfold FTSIndex. pose proof (rest_refl o _ Hi) as Hrest. checks Hi. apply runs_bind, (runs_requireNode o); [done|done|]. intros l r _ _ Hn.
  apply runs_bind, runs_ofSum; [|done]. intros tokens Et. checks Hi. rewrite (live_text o _ _ Hi). pose proof (dv_tokens _ (ti_derived _ _ Hi)) as Dt.
  apply runs_bind. eapply (runs_takeAllExact _ _ (ofScope fts_Tokens (fts_rows (w_fts tx)))); [exact Dt|]. intros p Hp. apply runs_bind, runs_modify, runs_bind.
  eapply (runs_addAll _ _ _ _ _); [exact Hp|]. intros q Hq. apply runs_modify. exists tokens. split_and!; [by eexists|done|done|].
  change (withFTS _ _ _ _) with (withFTSTokens (withFTS tx (mkFTSTable (<[id := mkFTS text tokens]> (fts_rows (w_fts tx))) (fts_deleted (w_fts tx) ∖ {[id]})) ({[id]} ∪ w_upsertFTS tx) (w_deleteFTS tx ∖ {[id]})) q).
  split; [|split; [by split|done]]. apply inv_text; [done|by eexists|done|]. eapply postingsRep_ext; [|exact Hq]. intros k. symmetry. apply (ofScope_replace fts_Tokens).
Qed.

(** ** Metadata *)

Lemma metadata_key key : validateAppMetadataKey key = None -> validMetadataKey key = true.
Proof.
  unfold validateAppMetadataKey, validMetadataKey, maxAppMetadataKeyBytes. destruct (N.eqb_spec (nlen key) 0), (N.ltb_spec 65535 (nlen key)); try done. intros _.
  apply andb_true_iff. split; [apply N.ltb_lt|apply N.leb_le]; lia.
Qed.

Lemma inv_metadata tx m changes : txInv o tx -> metadataOK (o_metadata o) m (default ∅ changes) -> txInv o (withMetadata tx m changes).
Proof. intros [I1 I2 I3 I4 I5 I6 I7 I8 I9 [D1 D2 D3 D4 D5 D6]] Hm. by split. Qed.

Lemma PutAppMetadata_ok tx key v : txInv o tx ->
  runs (PutAppMetadata key v) tx (fun _ tx' => becomes o tx (viewMetadata (graphOf tx) (<[key := v]> (w_AppMetadata tx))) tx') (rest o tx).
Proof.
  intros Hi. unfold PutAppMetadata. pose proof (rest_refl o _ Hi) as Hrest. apply runs_bind, (runs_writableTx o); [done|].
  apply runs_bind, runs_guard; [intros Hk%metadata_key|done]. apply runs_modify. split; [|split; [by split|done]]. apply inv_metadata; [done|].
  destruct (ti_metadata _ _ Hi) as [M1 M2 M3]. split; cbn [from_option Datatypes.id].
  - intros k c Hc. apply lookup_insert_Some in Hc as [[<- <-]|[Hne Hc]]; [cbn; by rewrite lookup_insert_eq|]. destruct (M1 k c Hc) as [? Hx]. split; [done|]. by rewrite lookup_insert_ne.
  - intros k Hk'. apply lookup_insert_None in Hk' as [Hk' Hne]. rewrite lookup_insert_ne by done. by apply M2.
  - intros k x Hx. apply lookup_insert_Some in Hx as [[<- _]|[_ Hx]]; [done|by eapply M3].
Qed.

Lemma DeleteAppMetadata_ok tx key : txInv o tx ->
  runs (DeleteAppMetadata key) tx (fun _ tx' => becomes o tx (viewMetadata (graphOf tx) (delete key (w_AppMetadata tx))) tx') (rest o tx).
Proof.
  intros Hi. unfold DeleteAppMetadata. pose proof (rest_refl o _ Hi) as Hrest. apply runs_bind, (runs_writableTx o); [done|].
  apply runs_bind, runs_guard; [intros Hk%metadata_key|done]. apply runs_modify. split; [|split; [by split|done]]. apply inv_metadata; [done|].
  destruct (ti_metadata _ _ Hi) as [M1 M2 M3]. split; cbn [from_option Datatypes.id].
  - intros k c Hc. apply lookup_insert_Some in Hc as [[<- <-]|[Hne Hc]]; [cbn; by rewrite lookup_delete_eq|]. destruct (M1 k c Hc) as [? Hx]. split; [done|]. by rewrite lookup_delete_ne.
  - intros k Hk'. apply lookup_insert_None in Hk' as [Hk' Hne]. rewrite lookup_delete_ne by done. by apply M2.
  - intros k x Hx. apply lookup_delete_Some in Hx as [_ Hx]. by eapply M3.
Qed.

(** ** Streams *)

(** A call on the streams, which reports its error. *)
Definition streamCall (op : txOp) : act unit := fun tx =>
  let '(err, call) := match op with
                      | TxPublish stream kind payload => PublishStream (w_call tx) stream kind payload
                      | TxOffset stream consumer sequence => SetStreamOffset (w_call tx) stream consumer sequence
                      | TxTrim stream beforeSequence => TrimStream (w_call tx) stream beforeSequence
                      end in
  (match err with Some err => Failed err | None => Done tt end, withCall tx call).

Lemma failed_stream op call : match op with
    | TxPublish stream kind payload => (PublishStream call stream kind payload).1
    | TxOffset stream consumer sequence => (SetStreamOffset call stream consumer sequence).1
    | TxTrim stream beforeSequence => (TrimStream call stream beforeSequence).1
    end <> None -> txStep call op = call.
Proof.
  destruct op as [stream kind payload|stream consumer sequence|stream before]; cbn [txStep].
  - unfold PublishStream, PublishStreamGetSequence. destruct (ensureWritable _); [done|]. destruct (validateStreamName _ _); [done|]. destruct (validateStreamKind _); [done|].
    destruct (NormalizeValue _); [|done]. destruct (_ =? _); [done|]. by destruct (publishRecorded _ _ _ _).
  - unfold SetStreamOffset. destruct (ensureWritable _); [done|]. destruct (validateStreamName _ _); [done|]. by destruct (validateConsumer _).
  - unfold TrimStream. destruct (ensureWritable _); [done|]. by destruct (validateStreamName _ _).
Qed.

Lemma streamCall_step op tx : exists r, streamCall op tx = (r, withCall tx (txStep (w_call tx) op)) /\ r <> Panicked /\ (forall err, r = Failed err -> txStep (w_call tx) op = w_call tx).
Proof.
  pose proof (failed_stream op (w_call tx)) as Hf. destruct op as [stream kind payload|stream consumer sequence|stream before]; cbn [txStep] in *; unfold streamCall.
  - destruct (PublishStream _ _ _ _) as [[err|] call]; cbn [fst snd] in *; eexists; (split; [done|]); (split; [done|]); intros ? ?; by apply Hf.
  - destruct (SetStreamOffset _ _ _ _) as [[err|] call]; cbn [fst snd] in *; eexists; (split; [done|]); (split; [done|]); intros ? ?; by apply Hf.
  - destruct (TrimStream _ _ _) as [[err|] call]; cbn [fst snd] in *; eexists; (split; [done|]); (split; [done|]); intros ? ?; by apply Hf.
Qed.

Lemma txStep_open op call : ensureWritable (txStep call op) = ensureWritable call.
Proof.
  destruct op as [stream kind payload|stream consumer sequence|stream before]; cbn [txStep]; unfold PublishStream, PublishStreamGetSequence, SetStreamOffset, TrimStream;
    destruct (ensureWritable call) eqn:E; cbn [snd]; try done; destruct (validateStreamName _ _); cbn [snd]; try done.
  - destruct (validateStreamKind _); [done|]. destruct (NormalizeValue _); [|done]. destruct (_ =? _); [done|]. unfold publishRecorded. by destruct (Publish _ _ _ _).
  - by destruct (validateConsumer _).
Qed.

Lemma streamCall_ok tx op : txInv o tx -> wfTxOp op ->
  runs (streamCall op) tx (fun _ tx' => becomes o tx (mkVisible (nodesOf tx) (edgesOf tx) (fts_rows (w_fts tx)) (w_AppMetadata tx) (tx_Streams (txStep (w_call tx) op))) tx') (rest o tx).
Proof.
  intros Hi Hop. destruct (streamCall_step op tx) as (r & E & Hr & Herr). unfold runs. rewrite E.
  assert (Hi' : txInv o (withCall tx (txStep (w_call tx) op))).
  { pose proof Hi as [I1 I2 I3 I4 I5 I6 I7 I8 I9 [D1 D2 D3 D4 D5 D6]]. split; try done; [cbn; by rewrite txStep_open|].
    exact (records_call _ _ _ I2 Hop). }
  destruct r as [[]|err|]; [|apply rest_same; [done|by split|]|done].
  - split; [done|]. split; [by split|done].
  - rewrite (Herr err eq_refl). by destruct tx.
Qed.
End text.
