(* ===== verification/GraphStatementSpec.v ===== *)
(** * The clauses that write keep the invariant

    Further down: how a statement is forked, thrown away or merged. *)
From S2P Require Import Prelude.
From S2P Require Import Adjacency.
From S2P Require Import AdjacencySpec.
From S2P Require Import GoBytes.
From S2P Require Import BinaryCodec.
From S2P Require Import BinaryValue.
From S2P Require Import BinaryRecords.
From S2P Require Import GoMaps.
From S2P Require Import Values.
From S2P Require Import ValuesSpec.
From S2P Require Import Properties.
From S2P Require Import PageRecords.
From S2P Require Import Streams.
From S2P Require Import StreamTx.
From S2P Require Import StreamTxSpec.
From S2P Require Import PropertyDelta.
From S2P Require Import WalAccumulator.
From S2P Require Import WalInvariant.
From S2P Require Import GraphPersist.
From S2P Require Import GraphChanges.
From S2P Require Import StringPostings.
From S2P Require Import IndexUpkeep.
From S2P Require Import IndexTheorems.
From S2P Require Import GraphTx.
From S2P Require Import GraphStatement.
From S2P Require Import GraphSides.
From S2P Require Import GraphTxSpec.
From S2P Require Import GraphTxNodes.
From S2P Require Import GraphTxRemove.

#[local] Open Scope go_scope.

(** ** Maps of properties *)

Lemma forallb_weaken {A} (f g : A -> bool) l : Forall (fun x => f x = true -> g x = true) l -> forallb id (map f l) = true -> forallb id (map g l) = true.
Proof. induction 1 as [|x l Hx _ IH]; [done|]. cbn. rewrite !andb_true_iff. intros [? ?]. split; auto. Qed.

Lemma okV_shallow v : forall d d', (d' <= d)%nat -> okV d v = true -> okV d' v = true.
Proof.
  induction v as [| |i|t i|bits|bits|s|b|l|l Hl|m Hm|l Hl|m Hm| |] using value_nested_ind; intros d d' Hle; cbn [okV]; rewrite !andb_true_iff; intros [Hd Ho];
    (split; [apply Nat.leb_le in Hd; apply Nat.leb_le; lia|]); try done.
  - destruct l as [l|]; [|done]. revert Ho. apply forallb_weaken. eapply Forall_impl; [exact Hl|]. intros x Hx. apply Hx. lia.
  - destruct m as [m|]; [|done]. revert Ho. apply forallb_weaken. eapply Forall_impl; [exact Hm|]. intros x Hx. rewrite !andb_true_iff. intros [? ?]. split; [done|]. eapply Hx; [|done]. lia.
  - revert Ho. apply forallb_weaken. eapply Forall_impl; [exact Hl|]. intros x Hx. apply Hx. lia.
  - revert Ho. apply forallb_weaken. eapply Forall_impl; [exact Hm|]. intros x Hx. rewrite !andb_true_iff. intros [? ?]. split; [done|]. eapply Hx; [|done]. lia.
Qed.

(** The entries of a normalised map are normalised values under distinct keys. *)
Lemma normal_entries v props : normalAt 0 v -> mapEntries v = inl props -> NoDup props.*1 /\ Forall (fun kv => normalAt 0 kv.2) props.
Proof.
  intros [Hw Ht Ho Hn]. destruct Hw as [| | | | | | | | | |m Hnd Hws| | | |]; try done. intros [= <-]. inversion Ht as [| | | | | | | |? Hts]; subst.
  destruct m as [m|]; [|split; [apply NoDup_nil_2|apply Forall_nil_2]]. cbn [elems default from_option id] in *.
  cbn [okV optMap] in Ho. apply andb_true_iff in Ho as [_ Ho]. apply okV_entries in Ho as [_ Ho].
  split; [done|]. cbn [normV optMap] in Hn. injection Hn as Hn. pose proof (mapOf_entries normV m Hnd) as Hp. rewrite Hn in Hp. rewrite Forall_forall in Hws, Hts, Ho |- *.
  intros kv Hkv. split; [by apply Hws|by apply Hts|eapply okV_shallow; [|by apply Ho]; lia|].
  assert (Hin : kv ∈ map (onEntry normV) m) by (by rewrite <- Hp). apply list_elem_of_In, in_map_iff in Hin as (kv' & E & Hkv'%list_elem_of_In).
  assert (Eq : kv' = kv); [|subst kv'; by apply (f_equal snd) in E]. destruct kv as [k v], kv' as [k' v']. unfold onEntry in E. cbn in E. injection E as -> E. f_equal.
  apply list_elem_of_lookup in Hkv as [i Hi], Hkv' as [j Hj]. assert (Ei : i = j); [|congruence].
  eapply (NoDup_lookup m.*1); [done|rewrite list_lookup_fmap, Hi; done|rewrite list_lookup_fmap, Hj; done].
Qed.

Definition assigned (p : Properties) (props : list (gostring * value)) : Properties := foldl (fun p kv => assignProperty kv.1 kv.2 p) p props.

Lemma assign_property p key v : propertiesOK p -> normalAt 0 v -> propertiesOK (assignProperty key v p) /\ sameProps p (assignProperty key v p) [key].
Proof. intros Hp Hv. unfold assignProperty. destruct (isNil v); [by apply delete_property|by apply set_property]. Qed.

Lemma assigned_ok props : forall p, propertiesOK p -> Forall (fun kv => normalAt 0 kv.2) props -> propertiesOK (assigned p props) /\ sameProps p (assigned p props) props.*1.
Proof.
  induction props as [|[k v] props IH]; intros p Hp Hn; [done|]. apply Forall_cons in Hn as [Hv Hn]. cbn in Hv. destruct (assign_property p k v Hp Hv) as [P1 P2].
  destruct (IH _ P1 Hn) as [P3 P4]. split; [done|]. intros k' Hk'. cbn [fmap list_fmap fst] in Hk'. rewrite P2, P4 by set_solver. done.
Qed.

(** ** Records written again and again *)

Lemma writeAt_twice {A} (s : side A) l f g : writeThrough (writeThrough s l f) l g = writeThrough s l (g ∘ f).
Proof. unfold writeThrough. cbn. f_equal. apply list_alter_alter_eq. Qed.
Lemma writeAt_same {A} (s : side A) l f : (forall r, f r = r) -> writeThrough s l f = s.
Proof. intros Hf. destruct s. unfold writeThrough. cbn. f_equal. by apply list_alter_id. Qed.

Class SideField (A : Type) (get : WriteTx -> side A) (put : WriteTx -> side A -> WriteTx) (onProps : (Properties -> Properties) -> A -> A) : Prop := {
  side_get_put : forall tx s, get (put tx s) = s;
  side_put_put : forall tx s s', put (put tx s) s' = put tx s';
  side_put_get : forall tx, put tx (get tx) = tx;
  side_put_budget : forall tx s b, withBudget (put tx s) b = put (withBudget tx b) s;
  side_get_budget : forall tx b, get (withBudget tx b) = get tx;
  side_budget_put : forall tx s, w_budget (put tx s) = w_budget tx;
  upd_comp : forall f g, onProps f ∘ onProps g = onProps (f ∘ g);
  upd_id : forall r, onProps (fun p => p) r = r }.
#[global] Instance nodes_field : SideField NodeRecord w_nodes withNodes setNodeProperties.
Proof. split; try done; by intros []. Qed.
#[global] Instance edges_field : SideField EdgeRecord w_edges withEdges setEdgeProperties.
Proof. split; try done; by intros []. Qed.

Section writes.
Context `{SideField A get put onProps}.

Lemma runs_mergeProperties l props (Q : unit -> WriteTx -> Prop) (E : WriteTx -> Prop) : forall tx,
  (forall b, (b = None <-> w_budget tx = None) -> Q tt (put (withBudget tx b) (writeThrough (get tx) l (onProps (fun p => assigned p props))))) ->
  (forall f b, (b = None <-> w_budget tx = None) -> w_budget tx <> None -> E (put (withBudget tx b) (writeThrough (get tx) l (onProps f)))) ->
  runs (forEach (fun kv => budgetCheck 1 ;* modify (fun tx => put tx (writeThrough (get tx) l (onProps (assignProperty kv.1 kv.2))))) props) tx Q E.
Proof.
  induction props as [|kv props IH]; intros tx HQ HE; cbn [forEach].
  - apply runs_ret. specialize (HQ (w_budget tx) ltac:(done)). rewrite withBudget_same, writeAt_same, side_put_get in HQ; [done|]. apply upd_id.
  - apply runs_bind, runs_bind, runs_check.
    2:{ intros Hb. specialize (HE (fun p => p) (w_budget tx) ltac:(done) Hb). rewrite withBudget_same, writeAt_same, side_put_get in HE; [done|]. apply upd_id. }
    intros b Hb. apply runs_modify, IH.
    + intros c Hc. rewrite side_budget_put in Hc. rewrite side_put_budget, side_put_put, withBudget_twice, side_get_put, side_get_budget, writeAt_twice, upd_comp. apply HQ. by rewrite Hc.
    + intros f c Hc Hne. rewrite side_budget_put in Hc, Hne. rewrite side_put_budget, side_put_put, withBudget_twice, side_get_put, side_get_budget, writeAt_twice, upd_comp.
      apply HE; [by rewrite Hc|]. intros En. by apply Hne, Hb.
Qed.

Lemma runs_trackAll id props (Q : unit -> WriteTx -> Prop) (E : WriteTx -> Prop) : forall tx,
  Q tt (put tx (foldl (fun s k => trackProperty s id k) (get tx) props.*1)) ->
  runs (forEach (fun kv : gostring * value => modify (fun tx => put tx (trackProperty (get tx) id kv.1))) props) tx Q E.
Proof.
  induction props as [|kv props IH]; intros tx HQ; cbn [forEach].
  - apply runs_ret. cbn [fmap list_fmap foldl] in HQ. by rewrite side_put_get in HQ.
  - apply runs_bind, runs_modify, IH. by rewrite side_get_put, side_put_put.
Qed.
End writes.

Section clauses.
Context `{MapOrder unit} `{MapOrder (gmap gostring postingList)} `{MapOrder (list N)}.
Context (o : origin).
Implicit Types tx : WriteTx.

(** What a statement leaves alone. *)
Definition quiet tx tx' : Prop := w_AppMetadata tx' = w_AppMetadata tx /\ tx_Streams (w_call tx') = tx_Streams (w_call tx).
Definition ran tx tx' : Prop := txInv o tx' /\ stepOK o tx tx' /\ quiet tx tx'.
(** A part of a statement keeps the invariant when it succeeds, and the graphs before it
    in any case. *)
Definition keeps {A} (m : act A) tx : Prop := runs m tx (fun _ tx' => ran tx tx') (stepOK o tx).

Lemma ran_refl tx : txInv o tx -> ran tx tx.
Proof. intros Hi. by split_and!. Qed.
Lemma ran_trans tx1 tx2 tx3 : ran tx1 tx2 -> ran tx2 tx3 -> ran tx1 tx3.
Proof. intros (_ & Hs1 & Hq1 & Hq2) (Hi & Hs2 & Hq3 & Hq4). split; [done|]. split; [by etransitivity|]. split; congruence. Qed.
Lemma ran_budget tx b : txInv o tx -> (b = None <-> w_budget tx = None) -> ran tx (withBudget tx b).
Proof. intros Hi Hb. split; [by apply inv_withBudget|]. split; [by apply step_withBudget|done]. Qed.
Lemma becomes_ran tx g tx' : becomes o tx g tx' -> gv_metadata g = w_AppMetadata tx -> gv_streams g = tx_Streams (w_call tx) -> ran tx tx'.
Proof. intros (Hi & Hs & Hg) Hm Hst. split; [done|]. split; [done|]. split; [change (w_AppMetadata tx') with (gv_metadata (graphOf tx'))|change (tx_Streams (w_call tx')) with (gv_streams (graphOf tx'))]; by rewrite Hg. Qed.

Lemma runs_keeps {A B} (m : act A) (k : A -> act B) tx : keeps m tx -> (forall x tx', ran tx tx' -> keeps (k x) tx') -> keeps (abind m k) tx.
Proof.
  intros Hm Hk. apply runs_bind. eapply runs_weaken; [exact Hm| |done]. intros x tx' Hr. pose proof Hr as (_ & Hs & _).
  eapply runs_weaken; [by apply (Hk x)| |]; [intros y tx2 Hr2; exact (ran_trans _ _ _ Hr Hr2)|intros tx2 Hs2; by etransitivity].
Qed.
Lemma keeps_forEach {A} (f : A -> act unit) l (I : WriteTx -> Prop) : (forall x tx, x ∈ l -> txInv o tx -> I tx -> runs (f x) tx (fun _ tx' => ran tx tx' /\ I tx') (stepOK o tx)) ->
  forall tx, txInv o tx -> I tx -> runs (forEach f l) tx (fun _ tx' => ran tx tx' /\ I tx') (stepOK o tx).
Proof.
  induction l as [|x l IH]; intros Hf tx Hi HI; cbn [forEach]; [apply runs_ret; by split; [apply ran_refl|]|].
  apply runs_bind. eapply runs_weaken; [apply Hf; [left|done|done]| |done]. intros u tx' [Hr HI']. pose proof Hr as (Hi' & Hs & _).
  eapply runs_weaken; [apply IH; [|done|done]; intros; apply Hf; [by right|done|done]| |]; [intros [] tx2 [Hr2 ?]; split; [exact (ran_trans _ _ _ Hr Hr2)|done]|intros tx2 Hs2; by etransitivity].
Qed.
Lemma keeps_check n tx : txInv o tx -> keeps (budgetCheck n) tx.
Proof. intros Hi. apply runs_check; [intros b Hb; by apply ran_budget|done]. Qed.
Lemma keeps_charge n tx : txInv o tx -> keeps (chargeTemporary n) tx.
Proof. intros Hi. apply runs_charge; [intros b Hb; by apply ran_budget|done]. Qed.
Lemma keeps_fail {A} err tx : keeps (afail err : act A) tx.
Proof. by apply runs_fail. Qed.
Lemma keeps_ret {A} (x : A) tx : txInv o tx -> keeps (aret x) tx.
Proof. intros Hi. apply runs_ret. by apply ran_refl. Qed.
Lemma keeps_guard check tx : txInv o tx -> keeps (guard check) tx.
Proof. intros Hi. apply runs_guard; [intros _; by apply ran_refl|done]. Qed.

Lemma step_rest tx tx' : rest o tx tx' -> stepOK o tx tx'.
Proof. by intros [? _]. Qed.

Lemma frozen_write {A} `{Entity A} start (s s' : side A) l f id r : frozen start s s' -> writableAt start s' id l r -> frozen start s (writeThrough s' l f).
Proof.
  intros (F1 & F2 & F3) (_ & _ & Hl). split_and!; cbn; [|done|by rewrite length_alter]. rewrite <- F1. apply list_eq. intros i. destruct (decide (i < start)%nat).
  - rewrite !lookup_take_lt by done. rewrite list_lookup_alter_ne by lia. done.
  - by rewrite !lookup_take_ge by lia.
Qed.

(** ** SET *)

Lemma setNodeValue_keeps tx id g ks : txInv o tx -> (forall r, nodesOf tx !! id = Some r -> propertiesOK (g (n_Properties r)) /\ sameProps (n_Properties r) (g (n_Properties r)) [ks]) ->
  keeps (let* l := writableNode id true in writeNode l (setNodeProperties g) ;* trackNodeProperty id ks) tx.
Proof.
  intros Hi Hg. apply runs_bind, (runs_writableNode o); [done|done|]. intros l r nodes Hr Hn Hf El Hw _ Hi'. destruct (Hg r Hr) as [P1 P2]. apply runs_bind, runs_modify, runs_modify.
  eapply becomes_ran; [exact (node_written o tx nodes id l r g [ks] Hi Hn Hf El Hr Hw P1 P2)|done|done].
Qed.
Lemma setEdgeValue_keeps tx id g ks : txInv o tx -> (forall r, edgesOf tx !! id = Some r -> propertiesOK (g (e_Properties r)) /\ sameProps (e_Properties r) (g (e_Properties r)) [ks]) ->
  keeps (let* l := writableEdge id true in writeEdge l (setEdgeProperties g) ;* trackEdgeProperty id ks) tx.
Proof.
  intros Hi Hg. apply runs_bind, (runs_writableEdge o); [done|done|]. intros l r edges Hr Hn Hf El Hw _ Hi'. destruct (Hg r Hr) as [P1 P2]. apply runs_bind, runs_modify, runs_modify.
  eapply becomes_ran; [exact (edge_written o tx edges id l r g [ks] Hi Hn Hf El Hr Hw P1 P2)|done|done].
Qed.

Lemma replaceNode_keeps tx id p : txInv o tx -> propertiesOK p -> keeps (let* l := writableNode id false in writeNode l (setNodeProperties (fun _ => p))) tx.
Proof.
  intros Hi Hp. apply runs_bind, (runs_writableNode o); [done|done|]. intros l r nodes Hr Hn Hf El Hw Hk Hi'. apply runs_modify.
  eapply becomes_ran; [exact (node_replaced o tx nodes id l r (fun _ => p) Hi Hn Hf El Hr Hw (Hk eq_refl) Hp)|done|done].
Qed.
Lemma replaceEdge_keeps tx id p : txInv o tx -> propertiesOK p -> keeps (let* l := writableEdge id false in writeEdge l (setEdgeProperties (fun _ => p))) tx.
Proof.
  intros Hi Hp. apply runs_bind, (runs_writableEdge o); [done|done|]. intros l r edges Hr Hn Hf El Hw Hk Hi'. apply runs_modify.
  eapply becomes_ran; [exact (edge_replaced o tx edges id l r (fun _ => p) Hi Hn Hf El Hr Hw (Hk eq_refl) Hp)|done|done].
Qed.

Lemma mergeNode_keeps tx id props : txInv o tx -> Forall (fun kv => normalAt 0 kv.2) props ->
  keeps (let* l := writableNode id true in mergeNodeProperties l props ;* forEach (fun kv => trackNodeProperty id kv.1) props) tx.
Proof.
  intros Hi Hp. apply runs_bind, (runs_writableNode o); [done|done|]. intros l r nodes Hr Hn Hf El Hw _ Hi'. apply runs_bind.
  apply (runs_mergeProperties (get := w_nodes) (put := withNodes) (onProps := setNodeProperties)).
  2:{ intros f b Hb Hne. split; try done. by eapply frozen_write. }
  intros b Hb. apply (runs_trackAll (get := w_nodes) (put := withNodes) (onProps := setNodeProperties)).
  destruct (live_record _ _ _ _ (ti_nodes _ _ Hi) id r Hr) as (_ & [Hok _] & _). destruct (assigned_ok props (n_Properties r) Hok Hp) as [P1 P2].
  pose proof (node_written o tx nodes id l r (fun p => assigned p props) props.*1 Hi Hn Hf El Hr Hw P1 P2) as Hb'. exact (ran_trans _ _ _ (becomes_ran _ _ _ Hb' eq_refl eq_refl) (ran_budget _ b (proj1 Hb') Hb)).
Qed.
Lemma mergeEdge_keeps tx id props : txInv o tx -> Forall (fun kv => normalAt 0 kv.2) props ->
  keeps (let* l := writableEdge id true in mergeEdgeProperties l props ;* forEach (fun kv => trackEdgeProperty id kv.1) props) tx.
Proof.
  intros Hi Hp. apply runs_bind, (runs_writableEdge o); [done|done|]. intros l r edges Hr Hn Hf El Hw _ Hi'. apply runs_bind.
  apply (runs_mergeProperties (get := w_edges) (put := withEdges) (onProps := setEdgeProperties)).
  2:{ intros f b Hb Hne. split; try done. by eapply frozen_write. }
  intros b Hb. apply (runs_trackAll (get := w_edges) (put := withEdges) (onProps := setEdgeProperties)).
  destruct (live_record _ _ _ _ (ti_edges _ _ Hi) id r Hr) as (_ & [Hok _] & _). destruct (assigned_ok props (e_Properties r) Hok Hp) as [P1 P2].
  pose proof (edge_written o tx edges id l r (fun p => assigned p props) props.*1 Hi Hn Hf El Hr Hw P1 P2) as Hb'. exact (ran_trans _ _ _ (becomes_ran _ _ _ Hb' eq_refl eq_refl) (ran_budget _ b (proj1 Hb') Hb)).
Qed.

Lemma node_relabeled tx nodes id l r labels p : txInv o tx -> sideOK (o_nodes o) nodes (o_nextNode o) (db_nextNodeID (w_db tx)) -> frozen (o_nodes o) (w_nodes tx) nodes ->
  liveOf nodes = nodesOf tx -> nodesOf tx !! id = Some r -> writableAt (o_nodes o) nodes id l r -> (is_Some (refs (sd_base nodes) !! id) -> sd_keys nodes !! id = Some None) ->
  NoDup (elems labels) -> postingsRep p (ofScope nodeScopes (<[id := setNodeLabels labels r]> (nodesOf tx))) ->
  becomes o tx (viewNodes (graphOf tx) (<[id := setNodeLabels labels r]> (nodesOf tx))) (withLabels (withNodes tx (writeThrough nodes l (setNodeLabels labels))) p).
Proof.
  intros Hi Hn Hf El Hr Hw Hk Hnd Hp. assert (Hr' : liveOf nodes !! id = Some r) by (by rewrite El). destruct (live_record _ _ _ _ Hn id r Hr') as (Eid & [Hok _] & _).
  destruct (write_untracked _ _ _ _ id l r (setNodeLabels labels) Hn Hw) as (W1 & W2 & W3); [done|split; done|done|]. rewrite El in W2.
  assert (Hf' : frozen (o_nodes o) (w_nodes tx) (writeThrough nodes l (setNodeLabels labels))) by (by etransitivity). split; [|split; [by split|]].
  - pose proof (inv_nodes o tx (writeThrough nodes l (setNodeLabels labels)) p (w_db tx) Hi (ti_ids _ _ Hi) eq_refl W1 Hf') as Hinv. rewrite withDB_same in Hinv. apply Hinv; [|by rewrite W2].
    intros i Hs. rewrite W2. destruct (decide (i = id)) as [->|Hne]; [rewrite lookup_insert_eq; eauto|by rewrite lookup_insert_ne].
  - unfold graphOf, viewNodes, nodesOf. cbn [withLabels withNodes w_nodes]. by rewrite W2.
Qed.

(** The label posting of a node whose labels change by [label] only. *)
Lemma relabel_add (M : gmap N NodeRecord) id r labels label k : M !! id = Some r -> (forall x, x ∈ elems labels <-> x ∈ elems (n_Labels r) \/ x = label) ->
  setFor label ({[id]} ∪ ofScope nodeScopes M label) (ofScope nodeScopes M) k = ofScope nodeScopes (<[id := setNodeLabels labels r]> M) k.
Proof.
  intros Hr Hl. apply set_eq. intros i. rewrite elem_of_ofScope. unfold setFor. destruct (decide (i = id)) as [->|Hne].
  - rewrite lookup_insert_eq. destruct (decide (k = label)) as [->|Hk]; [|rewrite elem_of_ofScope, Hr].
    + split; [|set_solver]. intros _. eexists. split; [done|]. unfold nodeScopes. cbn [setNodeLabels n_Labels]. rewrite Hl. by right.
    + unfold nodeScopes. split; intros (x & [= <-] & Hx); eexists; (split; [done|]); cbn [setNodeLabels n_Labels] in *; rewrite Hl in *; naive_solver.
  - rewrite lookup_insert_ne by done. destruct (decide (k = label)) as [->|Hk]; [rewrite elem_of_union, elem_of_singleton, elem_of_ofScope; naive_solver|by rewrite elem_of_ofScope].
Qed.
Lemma relabel_remove (M : gmap N NodeRecord) id r labels label k : M !! id = Some r -> (forall x, x ∈ elems labels <-> x ∈ elems (n_Labels r) /\ x <> label) ->
  setFor label (ofScope nodeScopes M label ∖ {[id]}) (ofScope nodeScopes M) k = ofScope nodeScopes (<[id := setNodeLabels labels r]> M) k.
Proof.
  intros Hr Hl. apply set_eq. intros i. rewrite elem_of_ofScope. unfold setFor. destruct (decide (i = id)) as [->|Hne].
  - rewrite lookup_insert_eq. destruct (decide (k = label)) as [->|Hk]; [|rewrite elem_of_ofScope, Hr].
    + split; [set_solver|]. intros (x & [= <-] & Hx). unfold nodeScopes in Hx. cbn [setNodeLabels n_Labels] in Hx. rewrite Hl in Hx. naive_solver.
    + unfold nodeScopes. split; intros (x & [= <-] & Hx); eexists; (split; [done|]); cbn [setNodeLabels n_Labels] in *; rewrite Hl in *; naive_solver.
  - rewrite lookup_insert_ne by done. destruct (decide (k = label)) as [->|Hk]; [rewrite elem_of_difference, elem_of_singleton, elem_of_ofScope; naive_solver|by rewrite elem_of_ofScope].
Qed.

Lemma replacement_keeps tx v (k : list (gostring * value) -> act unit) : txInv o tx -> normalAt 0 v ->
  (forall props tx', txInv o tx' -> NoDup props.*1 -> Forall (fun kv => normalAt 0 kv.2) props -> keeps (k props) tx') -> keeps (let* props := replacementPropertyMap v in k props) tx.
Proof.
  intros Hi Hv Hk. unfold replacementPropertyMap. apply runs_bind, runs_bind, runs_ofSum; [|done]. intros props Ep. destruct (normal_entries v props Hv Ep) as [Hnd Hn].
  apply runs_bind. eapply runs_weaken; [apply (keeps_forEach _ props (fun _ => True)); [|done|done]| |done].
  - intros x tx' _ Hi' _. eapply runs_weaken; [by apply keeps_check|done|done].
  - intros [] tx' [Hr _]. pose proof Hr as (Hi' & Hs' & _). apply runs_ret. eapply runs_weaken; [apply (Hk _ tx' Hi')| |].
    + apply (sublist_NoDup (List.filter (fun kv => negb (isNil kv.2)) props).*1 props.*1); [done|]. apply fmap_sublist. clear. induction props as [|x l IH]; [constructor|]. cbn.
      destruct (negb _); by constructor.
    + rewrite Forall_forall in Hn |- *. intros x Hx%list_elem_of_In%filter_In. apply Hn, list_elem_of_In. tauto.
    + intros u tx2 Hr2. exact (ran_trans _ _ _ Hr Hr2).
    + intros tx2 Hs2. by etransitivity.
Qed.

Lemma setRow_keeps tx kind b v : txInv o tx -> (isLabelKind kind = false -> normalAt 0 v) -> keeps (setRow kind b v) tx.
Proof.
  intros Hi Hv. destruct kind as [property| | |label]; cbn [setRow].
  - specialize (Hv eq_refl). destruct b as [id|id| |]; [| |apply keeps_fail..].
    + apply setNodeValue_keeps; [done|]. intros r Hr. destruct (live_record _ _ _ _ (ti_nodes _ _ Hi) id r Hr) as (_ & [Hok _] & _). by apply assign_property.
    + apply setEdgeValue_keeps; [done|]. intros r Hr. destruct (live_record _ _ _ _ (ti_edges _ _ Hi) id r Hr) as (_ & [Hok _] & _). by apply assign_property.
  - specialize (Hv eq_refl). apply replacement_keeps; [done|done|]. intros props tx' Hi' Hnd Hn. apply runs_keeps; [by apply keeps_charge|]. intros _ tx2 (Hi2 & _).
    pose proof (from_map props Hnd Hn) as Hp. destruct b as [id|id| |]; [by apply replaceNode_keeps|by apply replaceEdge_keeps|apply keeps_fail..].
  - specialize (Hv eq_refl). apply runs_bind, runs_ofSum; [|done]. intros props Ep. destruct (normal_entries v props Hv Ep) as [_ Hn].
    destruct b as [id|id| |]; [by apply mergeNode_keeps|by apply mergeEdge_keeps|by apply runs_fail..].
  - destruct b as [id|id| |]; [|apply keeps_fail..]. apply runs_bind, (runs_writableNode o); [done|done|]. intros l r nodes Hr Hn Hf El Hw Hk Hi'. apply runs_bind, runs_gets.
    pose proof Hw as (_ & Hl & _). change (w_nodes (withNodes tx nodes)) with nodes. rewrite Hl. pose proof (step_same_nodes o _ _ Hf El Hi') as Hrest.
    destruct (live_record _ _ _ _ (ti_nodes _ _ Hi) id r Hr) as (_ & [_ Hnd] & _). case_bool_decide as Hin.
    + apply runs_ret. split; [done|]. split; [by apply step_rest|done].
    + apply runs_bind, runs_modify. eapply (runs_add _ _ (ofScope nodeScopes (nodesOf tx))); [apply (dv_labels _ (ti_derived _ _ Hi))|]. intros p Hp.
      eapply becomes_ran; [apply (node_relabeled tx nodes id l r (Some (elems (n_Labels r) ++ [InternString label])) p); try done; [by apply Hk| |]|done|done].
      * cbn [elems default from_option Datatypes.id]. apply NoDup_app. split_and!; [done|set_solver|apply NoDup_singleton].
      * eapply postingsRep_ext; [|exact Hp]. intros k. apply relabel_add; [done|]. intros x. cbn [elems default from_option Datatypes.id]. rewrite elem_of_app, list_elem_of_singleton. done.
Qed.

(** ** REMOVE *)

(** A part that changes the counters at most. *)
Definition readsOnly {A} (P : A -> Prop) (m : act A) : Prop :=
  forall tx, runs m tx (fun v tx' => P v /\ exists b, (b = None <-> w_budget tx = None) /\ tx' = withBudget tx b) (fun tx' => exists b, (b = None <-> w_budget tx = None) /\ tx' = withBudget tx b).

Lemma readsOnly_ret {A} (P : A -> Prop) x : P x -> readsOnly P (aret x).
Proof. intros HP tx. apply runs_ret. split; [done|]. exists (w_budget tx). by rewrite withBudget_same. Qed.
Lemma readsOnly_bind {A B} (P : A -> Prop) (P' : B -> Prop) m (k : A -> act B) : readsOnly P m -> (forall x, P x -> readsOnly P' (k x)) -> readsOnly P' (abind m k).
Proof.
  intros Hm Hk tx. apply runs_bind. eapply runs_weaken; [apply Hm| |done]. intros x tx' [Hx (b & Hb & ->)]. eapply runs_weaken; [by apply (Hk x)| |].
  - intros y tx2 [Hy (c & Hc & ->)]. split; [done|]. exists c. split; [by rewrite Hc|done].
  - intros tx2 (c & Hc & ->). exists c. split; [by rewrite Hc|done].
Qed.
Lemma readsOnly_check n : readsOnly (fun _ => True) (budgetCheck n).
Proof. intros tx. apply runs_check; [intros b Hb; split; [done|by exists b]|]. intros _. exists (w_budget tx). by rewrite withBudget_same. Qed.
Lemma readsOnly_charge n : readsOnly (fun _ => True) (chargeTemporary n).
Proof. intros tx. apply runs_charge; [intros b Hb; split; [done|by exists b]|]. intros _. exists (w_budget tx). by rewrite withBudget_same. Qed.
Lemma readsOnly_forEach {A} (f : A -> act unit) l : (forall x, readsOnly (fun _ => True) (f x)) -> readsOnly (fun _ => True) (forEach f l).
Proof. intros Hf. induction l as [|x l IH]; cbn [forEach]; [by apply readsOnly_ret|]. eapply readsOnly_bind; [apply Hf|]. by intros []. Qed.

Lemma removeLabel_reads labels target : NoDup (elems labels) ->
  readsOnly (fun kept => NoDup (elems kept) /\ forall x, x ∈ elems kept <-> x ∈ elems labels /\ x <> target) (removeLabel labels target).
Proof.
  intros Hnd. unfold removeLabel. destruct (N.eqb_spec (slen labels) 0) as [E|E].
  - apply readsOnly_ret. assert (En : elems labels = []) by (destruct labels as [[|x l]|]; [done|by cbn in E|done]). rewrite En. split; [apply NoDup_nil_2|]. set_solver.
  - eapply readsOnly_bind; [apply readsOnly_check|]. intros _ _. eapply readsOnly_bind; [apply readsOnly_charge|]. intros _ _.
    eapply readsOnly_bind; [apply readsOnly_forEach; intros i; case_match; [apply readsOnly_check|by apply readsOnly_ret]|]. intros _ _. apply readsOnly_ret.
    cbn [elems default from_option Datatypes.id]. split.
    + revert Hnd. generalize (elems labels) as l. induction l as [|x l IH]; cbn; [done|]. intros [Hx Hl]%NoDup_cons. destruct (negb _); [|by apply IH].
      apply NoDup_cons. split; [|by apply IH]. intros Hin%list_elem_of_In%filter_In. apply Hx, list_elem_of_In. tauto.
    + intros x. rewrite !list_elem_of_In, filter_In, negb_true_iff, bool_decide_eq_false. done.
Qed.

Lemma keeps_reads {A B} (P : A -> Prop) (m : act A) (k : A -> act B) tx (Q : B -> WriteTx -> Prop) : readsOnly P m -> stepOK o tx tx ->
  (forall x b, P x -> (b = None <-> w_budget tx = None) -> runs (k x) (withBudget tx b) Q (stepOK o tx)) -> runs (abind m k) tx Q (stepOK o tx).
Proof. intros Hm _ Hk. apply runs_bind. eapply runs_weaken; [apply Hm| |intros tx' (b & Hb & ->); by apply step_withBudget]. intros x tx' [Hx (b & Hb & ->)]. by apply Hk. Qed.

Lemma removeNodeLabel_keeps tx id label : txInv o tx ->
  keeps (let* l := writableNode id false in let* nodes := gets w_nodes in
    match sd_heap nodes !! l with
    | Some node => (if bool_decide (label ∈ elems (n_Labels node)) then removeLabelPosting label id else aret tt) ;*
                   let* labels := removeLabel (n_Labels node) label in writeNode l (setNodeLabels labels)
    | None => aret tt
    end) tx.
Proof.
  intros Hi. apply runs_bind, (runs_writableNode o); [done|done|]. intros l r nodes Hr Hn Hf El Hw Hk Hi'. apply runs_bind, runs_gets.
  pose proof Hw as (_ & Hl & _). change (w_nodes (withNodes tx nodes)) with nodes. rewrite Hl. destruct (live_record _ _ _ _ (ti_nodes _ _ Hi) id r Hr) as (_ & [_ Hnd] & _).
  set (posting := if bool_decide (label ∈ elems (n_Labels r)) then removeLabelPosting label id else aret tt).
  assert (Hpost : runs posting (withNodes tx nodes) (fun _ tx' => exists p, tx' = withLabels (withNodes tx nodes) p /\
    forall labels, (forall x, x ∈ elems labels <-> x ∈ elems (n_Labels r) /\ x <> label) -> postingsRep p (ofScope nodeScopes (<[id := setNodeLabels labels r]> (nodesOf tx)))) (stepOK o tx)).
  { unfold posting. pose proof (dv_labels _ (ti_derived _ _ Hi)) as Dl. case_bool_decide as Hin.
    - eapply (runs_take _ _ (ofScope nodeScopes (nodesOf tx))); [exact Dl|]. intros p Hp. exists p. split; [done|]. intros labels Hlab. eapply postingsRep_ext; [|exact Hp]. intros k. by apply relabel_remove.
    - apply runs_ret. exists (w_Labels tx). split; [by destruct tx|]. intros labels Hlab. eapply postingsRep_ext; [|exact Dl]. intros k. rewrite <- (relabel_remove (nodesOf tx) id r labels label k Hr Hlab).
      unfold setFor. destruct (decide (k = label)) as [->|Hne]; [|done]. apply set_eq. intros i. rewrite elem_of_difference, elem_of_singleton. split; [|tauto]. intros Hi2. split; [done|]. intros ->.
      apply elem_of_ofScope in Hi2 as (r' & Hr' & Hx). rewrite Hr in Hr'. injection Hr' as <-. done. }
  apply runs_bind. eapply runs_weaken; [exact Hpost| |done]. intros _ tx' (p & -> & Hp). assert (Hs : stepOK o tx (withLabels (withNodes tx nodes) p)) by (by split).
  eapply runs_weaken; [apply (keeps_reads _ _ _ (withLabels (withNodes tx nodes) p) (fun _ tx' => ran tx tx') (removeLabel_reads (n_Labels r) label Hnd) ltac:(done))|done|intros tx' Hs'; by etransitivity].
  intros labels b [Hkept Hin] Hb. apply runs_modify.
  pose proof (node_relabeled tx nodes id l r labels p Hi Hn Hf El Hr Hw (Hk eq_refl) Hkept (Hp labels Hin)) as Hbec.
  exact (ran_trans _ _ _ (becomes_ran _ _ _ Hbec eq_refl eq_refl) (ran_budget _ b (proj1 Hbec) Hb)).
Qed.

Lemma removeRow_keeps tx item b : txInv o tx -> keeps (removeRow item b) tx.
Proof.
  intros Hi. unfold removeRow. apply runs_keeps; [by apply keeps_check|]. intros _ tx1 (Hi1 & _). apply runs_keeps; [by apply keeps_guard|]. intros _ tx' (Hi' & _). destruct item as [property|label|]; [| |apply keeps_fail].
  - destruct b as [id|id| |]; [| |apply keeps_fail..].
    + apply setNodeValue_keeps; [done|]. intros r Hr. destruct (live_record _ _ _ _ (ti_nodes _ _ Hi') id r Hr) as (_ & [Hok _] & _). by apply delete_property.
    + apply setEdgeValue_keeps; [done|]. intros r Hr. destruct (live_record _ _ _ _ (ti_edges _ _ Hi') id r Hr) as (_ & [Hok _] & _). by apply delete_property.
  - destruct b as [id|id| |]; [|apply keeps_fail..]. by apply removeNodeLabel_keeps.
Qed.

(** ** Clauses over rows *)

Lemma scopedBytes_keeps {A} (m : act A) tx : keeps m tx -> keeps (scopedBytes m) tx.
Proof.
  unfold keeps, runs, scopedBytes. destruct (m tx) as [r tx'] eqn:E. intros Hr. set (tx2 := match w_budget tx with Some b => match w_budget tx' with Some b' => _ | None => tx' end | None => tx' end).
  assert (H2 : stepOK o tx tx' -> exists b, (b = None <-> w_budget tx' = None) /\ tx2 = withBudget tx' b).
  { intros Hs. unfold tx2. destruct (w_budget tx) as [b|]; [destruct (w_budget tx') as [b'|] eqn:Eb'|]; [eexists; split; [|reflexivity]; done|exists (w_budget tx'); by rewrite withBudget_same, Eb'|exists (w_budget tx'); by rewrite withBudget_same]. }
  destruct r as [x|err|]; [| |done].
  - destruct (H2 (proj1 (proj2 Hr))) as (b & Hb & ->). exact (ran_trans _ _ _ Hr (ran_budget _ b (proj1 Hr) Hb)).
  - destruct (H2 Hr) as (b & Hb & ->). etransitivity; [exact Hr|by apply step_withBudget].
Qed.

Lemma keeps_each {A} (f : A -> act unit) l : (forall x tx, x ∈ l -> txInv o tx -> keeps (f x) tx) -> forall tx, txInv o tx -> keeps (forEach f l) tx.
Proof.
  intros Hf tx Hi. eapply runs_weaken; [apply (keeps_forEach f l (fun _ => True)); [|done|done]|by intros [] tx' [? _]|done]. intros x tx' Hx Hi' _.
  eapply runs_weaken; [by apply Hf|intros u tx2 Hr; split; [exact Hr|done]|done].
Qed.

Lemma readsOnly_keeps {A} (P : A -> Prop) (m : act A) tx : readsOnly P m -> txInv o tx -> runs m tx (fun v tx' => P v /\ ran tx tx') (stepOK o tx).
Proof.
  intros Hm Hi. eapply runs_weaken; [apply Hm| |intros tx' (b & Hb & ->); by apply step_withBudget]. intros x tx' [Hx (b & Hb & ->)]. split; [done|]. by apply ran_budget.
Qed.

(** SET, where reading a row again and evaluating an expression only read, and values
    come out normalised. *)
Lemma setBound_keeps tx (evaluate : act value) kind b : txInv o tx -> readsOnly (normalAt 0) evaluate ->
  keeps (let* normalized := if isLabelKind kind then aret VNil else evaluate in setRow kind b normalized) tx.
Proof.
  intros Hi Hev. assert (Hval : runs (if isLabelKind kind then aret VNil else evaluate) tx (fun v tx' => (isLabelKind kind = false -> normalAt 0 v) /\ ran tx tx') (stepOK o tx)).
  { destruct (isLabelKind kind); [apply runs_ret; split; [done|by apply ran_refl]|]. eapply runs_weaken; [by eapply readsOnly_keeps|intros v tx4 [Hn Hr4]; split; [done|exact Hr4]|done]. }
  apply runs_bind. eapply runs_weaken; [exact Hval| |done]. intros v tx4 [Hv Hr4]. eapply runs_weaken; [apply setRow_keeps; [apply Hr4|done]| |].
  - intros u tx5 Hr5. exact (ran_trans _ _ _ Hr4 Hr5).
  - intros tx5 Hs5. etransitivity; [apply Hr4|done].
Qed.

Lemma setClause_keeps tx refresh evaluate kind rows : txInv o tx -> (forall i, readsOnly (fun _ => True) (refresh i)) -> (forall i, readsOnly (normalAt 0) (evaluate i)) ->
  keeps (setClause refresh evaluate kind rows) tx.
Proof.
  intros Hi Href Hev. apply scopedBytes_keeps, keeps_each; [|done]. intros [i row] tx' _ Hi'. apply runs_keeps; [by apply keeps_check|]. intros _ tx2 (Hi2 & _).
  apply runs_keeps; [eapply runs_weaken; [by eapply readsOnly_keeps|by intros ? ? [_ ?]|done]|]. intros _ tx3 (Hi3 & _).
  destruct row as [id|id| |]; [by apply setBound_keeps..|by apply keeps_ret].
Qed.

Lemma removeClause_keeps tx rows : txInv o tx -> keeps (removeClause rows) tx.
Proof. intros Hi. apply scopedBytes_keeps, keeps_each; [|done]. intros row tx' _ Hi'. apply keeps_each; [|done]. intros ib tx2 _ Hi2. by apply removeRow_keeps. Qed.

(** CREATE: the properties are evaluated, then the entity is made and read back. *)
Lemma evaluateProps_reads evaluate : (forall key, readsOnly (normalAt 0) (evaluate key)) -> forall keys props, NoDup (props.*1 ++ keys) -> Forall (fun kv => wfV kv.2) props ->
  readsOnly wfProperties (evaluateProps evaluate keys props).
Proof.
  intros Hev keys. induction keys as [|key keys IH]; intros props Hnd Hw; cbn [evaluateProps].
  - apply readsOnly_ret. rewrite app_nil_r in Hnd. by split.
  - eapply readsOnly_bind; [apply readsOnly_check|]. intros _ _. eapply readsOnly_bind; [apply Hev|]. intros v Hv. apply IH.
    + rewrite fmap_app, <- app_assoc. exact Hnd.
    + apply Forall_app. split; [done|]. apply Forall_singleton. by apply (normal_wf 0 v).
Qed.

Lemma props_keeps {A} evaluate keys (k : list (gostring * value) -> act A) tx : (forall key, readsOnly (normalAt 0) (evaluate key)) -> NoDup keys -> txInv o tx ->
  (forall props tx', wfProperties props -> txInv o tx' -> keeps (k props) tx') -> keeps (let* props := evaluateProps evaluate keys [] in k props) tx.
Proof.
  intros Hev Hk Hi Hprops. apply runs_bind. eapply runs_weaken; [eapply readsOnly_keeps; [by apply evaluateProps_reads|done]| |done]. intros props tx' [Hw Hr]. pose proof (proj1 Hr) as Hi'.
  eapply runs_weaken; [by apply Hprops| |].
  - intros x tx2 Hr2. exact (ran_trans _ _ _ Hr Hr2).
  - intros tx2 Hs2. etransitivity; [apply Hr|done].
Qed.

Lemma createNode_keeps tx fault opts : txInv o tx -> wfProperties (no_Properties opts) -> keeps (CreateNode fault opts) tx.
Proof.
  intros Hi Hp. eapply runs_weaken; [by apply CreateNode_ok| |by intros tx' [? _]]. intros v tx' (record & _ & _ & _ & _ & _ & Hb). exact (becomes_ran _ _ _ Hb eq_refl eq_refl).
Qed.
Lemma createEdge_keeps tx fault source target ty props : txInv o tx -> wfProperties props -> keeps (CreateEdge fault source target ty props) tx.
Proof.
  intros Hi Hp. eapply runs_weaken; [by apply CreateEdge_ok| |by intros tx' [? _]]. intros v tx' (record & _ & _ & _ & _ & _ & _ & _ & _ & _ & Hb). exact (becomes_ran _ _ _ Hb eq_refl eq_refl).
Qed.

Lemma reads_keeps (m : act unit) tx : readsOnly (fun _ => True) m -> txInv o tx -> keeps m tx.
Proof. intros Hm Hi. eapply runs_weaken; [by eapply readsOnly_keeps|by intros ? ? [_ ?]|done]. Qed.

Lemma createNodeClause_keeps tx faults labels keys evaluate readBack rows : txInv o tx -> NoDup keys -> (forall i key, readsOnly (normalAt 0) (evaluate i key)) ->
  (forall i id, readsOnly (fun _ => True) (readBack i id)) -> keeps (createNodeClause faults labels keys evaluate readBack rows) tx.
Proof.
  intros Hi Hk Hev Hrb. apply scopedBytes_keeps, keeps_each; [|done]. intros i tx' _ Hi'. apply runs_keeps; [by apply keeps_check|]. intros _ tx2 (Hi2 & _).
  apply props_keeps; [by apply Hev|done|done|]. intros props tx3 Hw Hi3. apply runs_keeps; [by apply createNode_keeps|]. intros v tx4 (Hi4 & _). by apply reads_keeps.
Qed.

Lemma createClause_keeps tx faults edgeType keys evaluate readBack rows : txInv o tx -> NoDup keys -> (forall i key, readsOnly (normalAt 0) (evaluate i key)) ->
  (forall i id, readsOnly (fun _ => True) (readBack i id)) -> keeps (createClause faults edgeType keys evaluate readBack rows) tx.
Proof.
  intros Hi Hk Hev Hrb. apply scopedBytes_keeps, keeps_each; [|done]. intros [i [source target]] tx' _ Hi'. apply runs_keeps; [by apply keeps_check|]. intros _ tx2 (Hi2 & _).
  destruct source as [s| | |]; [|apply keeps_fail..]. destruct target as [t| | |]; [|apply keeps_fail..].
  apply props_keeps; [by apply Hev|done|done|]. intros props tx3 Hw Hi3. apply runs_keeps; [by apply createEdge_keeps|]. intros v tx4 (Hi4 & _). by apply reads_keeps.
Qed.

(** DELETE of nodes that were allocated at some time. *)
Definition allocated tx (b : binding) : Prop := match b with BoundNode id => id < db_nextNodeID (w_db tx) | _ => True end.

Lemma deleteClause_keeps tx detach bs : txInv o tx -> Forall (allocated tx) bs -> keeps (deleteClause detach bs) tx.
Proof.
  intros Hi Hb. unfold deleteClause. set (next := db_nextNodeID (w_db tx)). assert (Hnodes : forall id, id ∈ rangeSet (deletedNodes bs) -> id < next).
  { intros id. rewrite elem_of_rangeSet. unfold deletedNodes. rewrite elem_of_list_to_set, list_elem_of_omap. intros (b & Hin & Eb). rewrite Forall_forall in Hb. apply Hb in Hin.
    destruct b; simplify_eq. done. }
  set (I := fun tx' => next <= db_nextNodeID (w_db tx')). assert (HI : forall tx1 tx2, ran tx1 tx2 -> I tx1 -> I tx2) by (intros tx1 tx2 (_ & Hs & _); pose proof (sk_grow _ _ _ Hs); unfold I; lia).
  assert (Hlift : forall {A} (m : act A), (forall tx', txInv o tx' -> I tx' -> keeps m tx') -> forall tx', txInv o tx' -> I tx' -> runs m tx' (fun _ tx2 => ran tx' tx2 /\ I tx2) (stepOK o tx')).
  { intros A m Hm tx' Hi' HI'. eapply runs_weaken; [by apply Hm| |done]. intros x tx2 Hr. split; [exact Hr|exact (HI _ _ Hr HI')]. }
  assert (Hseq : forall (m k : act unit), (forall tx', txInv o tx' -> I tx' -> keeps m tx') -> (forall tx', txInv o tx' -> I tx' -> keeps k tx') -> forall tx', txInv o tx' -> I tx' -> keeps (m ;* k) tx').
  { intros m k Hm Hk tx' Hi' HI'. apply runs_keeps; [by apply Hm|]. intros _ tx2 Hr. apply Hk; [apply Hr|exact (HI _ _ Hr HI')]. }
  assert (Hloop : forall {A} (f : A -> act unit) l, (forall x tx', x ∈ l -> txInv o tx' -> I tx' -> keeps (f x) tx') -> forall tx', txInv o tx' -> I tx' -> keeps (forEach f l) tx').
  { intros A f l Hf tx' Hi' HI'. eapply runs_weaken; [apply (keeps_forEach f l I); [|done|done]|by intros [] tx2 [? _]|done]. intros x tx2 Hx Hi2 HI2. apply Hlift; [|done|done]. intros; by apply Hf. }
  assert (HI0 : I tx) by (unfold I, next; lia).
  apply Hseq; [apply Hloop; intros b tx' _ Hi' _; apply runs_keeps; [by apply keeps_check|]; intros _ tx2 (Hi2 & _); by apply keeps_guard| |done|done].
  apply Hseq.
  - destruct detach; [intros; by apply keeps_ret|]. apply Hloop. intros id tx' _ Hi' _.
    assert (Hinc : forall x tx2, txInv o tx2 -> keeps (checkIncident (deletedEdges bs) x) tx2) by (intros x tx2 Hi2; apply runs_keeps; [by apply keeps_check|]; intros _ tx3 (Hi3 & _); by apply keeps_guard).
    apply runs_bind, runs_gets. apply runs_keeps; [apply keeps_each; [|done]; intros; by apply Hinc|]. intros _ tx2 (Hi2 & _). apply runs_bind, runs_gets. apply keeps_each; [|done]. intros; by apply Hinc.
  - apply Hseq.
    + apply Hloop. intros id tx' _ Hi' _. apply runs_keeps; [by apply keeps_check|]. intros _ tx2 (Hi2 & _).
      eapply runs_weaken; [by apply deleteEdgeTx_ok|intros u tx3 [Hbec _]; exact (becomes_ran _ _ _ Hbec eq_refl eq_refl)|done].
    + apply Hloop. intros id tx' Hid Hi' HI'. eapply runs_weaken; [apply deleteNodeWithBudget_ok; [done|]|intros u tx3 [Hbec _]; exact (becomes_ran _ _ _ Hbec eq_refl eq_refl)|by intros tx3 [? _]].
      apply Hnodes in Hid. unfold I in HI'. lia.
Qed.
End clauses.

(** * Statements: forked, thrown away, merged *)

#[local] Open Scope go_scope.

(** ** Marks of two steps put together *)

Definition markSets (has base : N -> bool) (acc : gset N * gset N) (id : N) : gset N * gset N :=
  let '(upserts, deletes) := acc in
  if has id then ({[id]} ∪ upserts, deletes ∖ {[id]}) else (upserts ∖ {[id]}, if base id then {[id]} ∪ deletes else deletes).

Lemma markSets_spec has base L : forall U D, NoDup L ->
  let '(U', D') := foldl (markSets has base) (U, D) L in
  (forall id, id ∈ U' <-> id ∈ L /\ has id = true \/ id ∉ L /\ id ∈ U) /\
  (forall id, id ∈ D' <-> id ∈ L /\ has id = false /\ (base id = true \/ id ∈ D) \/ id ∉ L /\ id ∈ D).
Proof.
  induction L as [|i L IH]; intros U D Hnd; cbn [foldl]; [split; intros id; set_solver|]. apply NoDup_cons in Hnd as [Hi Hnd].
  specialize (IH (markSets has base (U, D) i).1 (markSets has base (U, D) i).2 Hnd). rewrite <- surjective_pairing in IH.
  destruct (foldl _ (markSets has base (U, D) i) L) as [U' D']. destruct IH as [IH1 IH2]. unfold markSets in IH1, IH2. split; intros id; rewrite ?IH1, ?IH2, elem_of_cons.
  - destruct (has i) eqn:Eh; cbn [fst snd]; rewrite ?elem_of_union, ?elem_of_difference, elem_of_singleton; destruct (decide (id = i)) as [->|Hne]; rewrite ?Eh; intuition congruence.
  - destruct (has i) eqn:Eh, (base i) eqn:Eb; cbn [fst snd]; rewrite ?elem_of_union, ?elem_of_difference, ?elem_of_singleton; destruct (decide (id = i)) as [->|Hne]; rewrite ?Eh, ?Eb; intuition congruence.
Qed.

Lemma changes_compose {A} `{MapOrder unit} (base mid new : gmap N A) U D u d (has hasBase : N -> bool) :
  entityChanges base mid (elements U) (elements D) -> entityChanges mid new (elements u) (elements d) ->
  (forall id, has id = true <-> is_Some (new !! id)) -> (forall id, hasBase id = true <-> is_Some (base !! id)) ->
  let '(U', D') := foldl (markSets has hasBase) (U, D) (rangeSet (u ∪ d)) in entityChanges base new (elements U') (elements D').
Proof.
  rewrite !changes_sets. intros (A1 & A2 & A3 & A4) (B1 & B2 & B3 & B4) Hh Hb. pose proof (markSets_spec has hasBase (rangeSet (u ∪ d)) U D (rangeSet_nodup _)) as Hm.
  destruct (foldl _ _ _) as [U' D']. destruct Hm as [M1 M2]. setoid_rewrite elem_of_rangeSet in M1. setoid_rewrite elem_of_rangeSet in M2.
  assert (Hnone : forall id, has id = false -> new !! id = None) by (intros id Hf; apply eq_None_not_Some; rewrite <- Hh; congruence).
  apply changes_sets. split_and!.
  - apply elem_of_disjoint. intros id [[H1' H2']|[H1' H2']]%M1 [(H3' & H4' & _)|[H3' H4']]%M2; [congruence|contradiction|contradiction|]. by apply (A1 id).
  - intros id [[_ Hid]|[Hout Hid]]%M1; [by apply Hh|]. rewrite <- B4 by set_solver. by apply A2.
  - intros id [(_ & Hf & Ho)|[Hout Hid]]%M2.
    + split; [|by apply Hnone]. destruct Ho as [Ho|Ho]; [by apply Hb|by apply A3].
    + rewrite <- B4 by set_solver. by apply A3.
  - intros id Hd Hu. destruct (decide (id ∈ u ∪ d)) as [Hin|Hin].
    + assert (Hf : has id = false) by (destruct (has id) eqn:E; [destruct Hu; apply M1; tauto|done]). rewrite (Hnone _ Hf). apply eq_None_not_Some. rewrite <- Hb. intros Hbt. apply Hd, M2. tauto.
    + rewrite <- B4 by set_solver. apply A4; [intros Hx; apply Hd, M2; tauto|intros Hx; apply Hu, M1; tauto].
Qed.

Section statements.
Context `{MapOrder unit} `{MapOrder (gmap gostring postingList)} `{MapOrder (list N)}.
Context (o : origin).
Implicit Types tx fork : WriteTx.

(** The transaction as the origin of a statement. *)
Definition forkOrigin tx : origin :=
  mkOrigin (length (sd_heap (w_nodes tx))) (length (sd_heap (w_edges tx))) (db_nextNodeID (w_db tx)) (db_nextEdgeID (w_db tx)) (w_AppMetadata tx) (tx_Streams (w_call tx)).

Lemma statement_fork_inv tx budget : txInv o tx -> txInv (forkOrigin tx) (forkStatement tx budget).
Proof.
  intros [I1 I2 I3 I4 I5 I6 I7 I8 I9 [D1 D2 D3 D4 D5 D6]]. split; try done.
  - replace (w_call (forkStatement tx budget)) with (beginTx (o_streams (forkOrigin tx))); [apply records_begin|]. unfold ensureWritable in I1. cbn [forkStatement w_call]. unfold beginTx.
    cbn [forkOrigin o_streams]. destruct (tx_closed _); [done|]. destruct (tx_readOnly _); [done|]. by destruct (tx_dbReadOnly _).
  - by eapply fork_side.
  - by eapply fork_side.
  - apply changes_sets. split_and!; set_solver.
  - destruct I9 as [M1 M2 M3]. split; [|done|done]. intros key c. unfold appChanges. cbn [forkStatement w_appMetadata from_option]. by rewrite lookup_empty.
  - split; cbn [forkStatement w_Labels w_EdgeTypes w_FTSTokens w_Outgoing w_Incoming w_db]; try done; by apply postingsRep_fork.
Qed.

Section run.
Context tx fork budget (Hi : txInv o tx) (Hs : stepOK (forkOrigin tx) (forkStatement tx budget) fork).

Lemma adjacency_grow endOf next next' m edges : adjacency endOf next m edges -> 0 < next -> next <= next' -> adjacency endOf next' m edges.
Proof. intros Ha Hn Hle id. eapply listed_grow; eauto. Qed.

(** A statement that failed leaves the transaction with its graph and its changes. *)
Lemma discard_inv : txInv o (discardStatement tx fork) /\ stepOK o tx (discardStatement tx fork) /\ graphOf (discardStatement tx fork) = graphOf tx.
Proof.
  destruct Hs as [K1 K2 K3 [K4 K5] K6 _ K8]. pose proof Hi as [I1 I2 I3 I4 I5 I6 I7 I8 I9 [D1 D2 D3 D4 D5 D6]]. specialize (K3 I3). destruct (edge_bound tx I3) as [P0 _].
  destruct (discard_side _ _ _ _ (w_nodes fork) (db_nextNodeID (w_db fork)) I4 K4 K1) as (N1 & N2 & N3).
  destruct (discard_side _ _ _ _ (w_edges fork) (db_nextEdgeID (w_db fork)) I5 K5 K2) as (E1 & E2 & E3).
  assert (En : nodesOf (discardStatement tx fork) = nodesOf tx) by exact N2. assert (Ee : edgesOf (discardStatement tx fork) = edgesOf tx) by exact E2.
  split; [|split].
  - split; try done; rewrite ?En; try done.
    + destruct I7 as [B1 B2]. split; [|done]. intros i r Hr. destruct (B1 i r Hr) as [? ?]. split; [|done]. cbn [discardStatement withDB withEdges withNodes w_nodes]. by rewrite (frozen_baseOf _ _ _ _ _ I4 N3).
    + split; rewrite ?En, ?Ee; try done; by eapply adjacency_grow.
  - by split.
  - unfold graphOf. rewrite En, Ee. done.
Qed.

Context (Hf : txInv (forkOrigin tx) fork) (Hq : quiet (forkStatement tx budget) fork).

Lemma merge_text : let '(upserts, deletes) := mergeFTSMarks tx fork in entityChanges (texts (w_ftsBase tx)) (texts (w_fts fork)) (elements upserts) (elements deletes).
Proof.
  pose proof (ti_textChanges _ _ Hf) as Hc. rewrite (sk_base _ _ _ Hs) in Hc. cbn [forkStatement w_ftsBase] in Hc.
  set (has := fun id => bool_decide (is_Some (readFTS (sd_live (w_nodes fork)) (w_fts fork) id))).
  set (hasBase := fun id => bool_decide (is_Some (readFTS (sd_base (w_nodes tx)) (w_ftsBase tx) id))).
  change (mergeFTSMarks tx fork) with (foldl (markSets has hasBase) (w_upsertFTS tx, w_deleteFTS tx) (rangeSet (w_upsertFTS fork ∪ w_deleteFTS fork))).
  apply (changes_compose _ _ _ _ _ _ _ has hasBase (ti_textChanges _ _ Hi) Hc); unfold has, hasBase.
  - intros id. rewrite bool_decide_eq_true, (live_text _ _ _ Hf). unfold texts. by rewrite lookup_fmap, fmap_is_Some.
  - intros id. rewrite bool_decide_eq_true, (base_text _ _ _ Hi). unfold texts. by rewrite lookup_fmap, fmap_is_Some.
Qed.

(** One that succeeded gives it its own graph, and the changes of both. *)
Lemma merge_inv : txInv o (mergeStatement tx fork) /\ stepOK o tx (mergeStatement tx fork) /\ graphOf (mergeStatement tx fork) = graphOf fork.
Proof.
  destruct Hs as [K1 K2 K3 [K4 K5] K6 _ K8]. pose proof Hi as [I1 I2 I3 I4 I5 I6 I7 I8 I9 _]. pose proof Hf as [J1 J2 J3 J4 J5 J6 J7 J8 J9 [D1 D2 D3 D4 D5 D6]]. pose proof merge_text as Ht.
  destruct (merge_side _ _ _ _ (w_nodes fork) _ I4 J4 K1) as (N1 & N2 & N3). destruct (merge_side _ _ _ _ (w_edges fork) _ I5 J5 K2) as (E1 & E2 & E3).
  unfold mergeStatement. destruct (mergeFTSMarks tx fork) as [upserts deletes]. destruct Hq as [Q1 Q2]. cbn [forkStatement w_AppMetadata w_call tx_Streams] in Q1, Q2. split; [|split].
  - split; try done.
    + destruct I7 as [B1 B2]. split; [|done]. intros i r Hr. destruct (B1 i r Hr) as [? ?]. split; [|done]. cbn [w_nodes]. by rewrite (frozen_baseOf _ _ _ _ _ I4 N3).
    + unfold appChanges. cbn [w_AppMetadata w_appMetadata]. by rewrite Q1.
  - by split.
  - unfold graphOf, nodesOf, edgesOf. cbn [w_nodes w_edges w_fts w_AppMetadata w_call]. by rewrite N2, E2, Q2.
Qed.
End run.

(** A plan: keeps the invariant of whatever transaction it runs in. *)
Definition plan {R} (execute : act R) : Prop := forall o tx, txInv o tx -> keeps o execute tx.

Lemma runStatement_ok {R} (execute : act R) budget tx : txInv o tx -> plan execute ->
  runs (runStatement execute budget) tx
    (fun x tx' => exists fork, execute (forkStatement tx budget) = (Done x, fork) /\ becomes o tx (graphOf fork) tx')
    (fun tx' => becomes o tx (graphOf tx) tx').
Proof.
  intros Hi Hp. pose proof (Hp _ _ (statement_fork_inv tx budget Hi)) as Hk. unfold keeps, runs in Hk. unfold runs, runStatement. rewrite (ti_open _ _ Hi).
  destruct (execute (forkStatement tx budget)) as [[x|err|] fork]; [| |done].
  - destruct Hk as (Hf & Hs & Hq). exists fork. split; [done|]. exact (merge_inv tx fork budget Hi Hs Hf Hq).
  - exact (discard_inv tx fork budget Hi Hk).
Qed.
End statements.
