(* ===== verification/GraphMarks.v ===== *)
(** * The marks of removed nodes

    A table of nodes keeps the identifiers that were removed. No call of a write
    transaction takes such a mark off, nor does a commit; and an identifier that is marked
    before it is handed out hides the node that gets it. *)
From S2P Require Import Prelude.
From S2P Require Import GoBytes.
From S2P Require Import BinaryCodec.
From S2P Require Import BinaryValue.
From S2P Require Import GoMaps.
From S2P Require Import Values.
From S2P Require Import Properties.
From S2P Require Import PageRecords.
From S2P Require Import Streams.
From S2P Require Import PropertyDelta.
From S2P Require Import StreamTx.
From S2P Require Import Adjacency.
From S2P Require Import StringPostings.
From S2P Require Import GraphTx.
From S2P Require Import GraphStatement.
From S2P Require Import GraphSides.
From S2P Require Import GraphTxSpec.
From S2P Require Import GraphTxRemove.
From S2P Require Import GraphStatementSpec.
From Stdlib Require Strings.String.
Import String.StringSyntax.
#[local] Open Scope go_scope.

Definition marked (id : N) (tx : WriteTx) : Prop := id ∈ deleted (sd_live (w_nodes tx)).
Definition keepsMarks {A} (m : act A) : Prop := forall id tx, marked id tx -> marked id (m tx).2.

(** ** Steps *)

Lemma marks_ret {A} (x : A) : keepsMarks (aret x).
Proof. by intros id tx. Qed.
Lemma marks_fail {A} err : keepsMarks (afail (A := A) err).
Proof. by intros id tx. Qed.
Lemma marks_gets {A} (f : WriteTx -> A) : keepsMarks (gets f).
Proof. by intros id tx. Qed.
Lemma marks_modify f : (forall id tx, marked id tx -> marked id (f tx)) -> keepsMarks (modify f).
Proof. by intros Hf id tx; apply Hf. Qed.
Lemma marks_guard check : keepsMarks (guard check).
Proof. by destruct check; intros id tx. Qed.
Lemma marks_ofSum {A} (r : A + error) : keepsMarks (ofSum r).
Proof. by destruct r; intros id tx. Qed.
Lemma marks_bind {A B} (m : act A) (k : A -> act B) : keepsMarks m -> (forall x, keepsMarks (k x)) -> keepsMarks (abind m k).
Proof. intros Hm Hk id tx Hid. apply Hm in Hid. unfold abind. destruct (m tx) as [[x|err|] tx']; cbn [snd] in *; [by apply Hk|done|done]. Qed.
Lemma marks_forEach {A} (f : A -> act unit) l : (forall x, keepsMarks (f x)) -> keepsMarks (forEach f l).
Proof. intros Hf. induction l as [|x l IH]; cbn [forEach]; [apply marks_ret|]. by apply marks_bind. Qed.
Lemma marks_updating {B} (get : WriteTx -> B) put f : (forall tx b, w_nodes (put tx b) = w_nodes tx) -> keepsMarks (updating get put f).
Proof. intros Hp id tx Hid. unfold updating. destruct (f (get tx)); [|done]. unfold marked. cbn [snd]. by rewrite Hp. Qed.
Lemma marks_writable : keepsMarks writableTx.
Proof. intros id tx Hid. unfold writableTx. by apply marks_guard. Qed.
Lemma marks_active : keepsMarks activeTx.
Proof. intros id tx Hid. unfold activeTx. by apply marks_guard. Qed.
Lemma marks_budgetCheck work : keepsMarks (budgetCheck work).
Proof. intros id tx Hid. unfold budgetCheck. by repeat case_match. Qed.
Lemma marks_chargeTemporary bytes : keepsMarks (chargeTemporary bytes).
Proof. intros id tx Hid. unfold chargeTemporary. by repeat case_match. Qed.
Lemma marks_readsOnly {A} P (m : act A) : readsOnly P m -> keepsMarks m.
Proof.
  intros Hr id tx Hid. specialize (Hr tx). unfold runs in Hr. destruct (m tx) as [[x|err|] tx']; [destruct Hr as (_ & b & _ & ->)|destruct Hr as (b & _ & ->)|]; done.
Qed.
Lemma marks_other f : (forall tx, w_nodes (f tx) = w_nodes tx) -> keepsMarks (modify f).
Proof. intros Hf. apply marks_modify. intros id tx. unfold marked. by rewrite Hf. Qed.
Lemma marks_onEdges f : keepsMarks (onEdges f).
Proof. by apply marks_other. Qed.
Lemma marks_onNodes f : (forall s, deleted (sd_live s) ⊆ deleted (sd_live (f s))) -> keepsMarks (onNodes f).
Proof. intros Hf. apply marks_modify. intros id tx Hid. unfold marked. cbn [withNodes w_nodes]. by apply Hf. Qed.

Section sides.
Context {A : Type}.
Implicit Types s : side A.

Lemma track_live s id key : sd_live (trackProperty s id key) = sd_live s.
Proof. unfold trackProperty. by repeat case_match. Qed.
Lemma fallback_live s id : sd_live (markPropertyFallback s id) = sd_live s.
Proof. unfold markPropertyFallback. by case_match. Qed.
Lemma writable_deleted s id l only : deleted (sd_live (writableRecord s id l only).2) = deleted (sd_live s).
Proof. unfold writableRecord. repeat case_match; cbn [snd]; simplify_eq; by rewrite ?fallback_live. Qed.
End sides.

(** ** The parts of the calls *)

#[local] Hint Resolve marks_ret marks_fail marks_gets marks_guard marks_ofSum marks_bind marks_forEach marks_writable marks_active marks_budgetCheck marks_chargeTemporary marks_onEdges : marks.

(** Through binds, loops and case distinctions, to the steps of the database above. *)
Ltac keep_marks := repeat (intros; first [assumption | solve [auto 2 with marks nocore] | apply marks_bind | apply marks_forEach | apply marks_updating; reflexivity
  | apply marks_onNodes; intros s; rewrite ?track_live; set_solver | apply marks_other; reflexivity | case_match | progress cbn beta]).

Section calls.
Context `{MapOrder unit} `{MapOrder (gmap gostring postingList)} `{MapOrder (list N)}.

Lemma marks_allocatingNode fault : keepsMarks (allocatingNode fault).
Proof. intros id tx Hid. unfold allocatingNode. destruct (allocateNodeID _ _) as [[n|err] db]; done. Qed.
Lemma marks_allocatingEdge fault : keepsMarks (allocatingEdge fault).
Proof. intros id tx Hid. unfold allocatingEdge. destruct (allocateEdgeID _ _) as [[n|err] db]; done. Qed.
Lemma marks_requireNode id : keepsMarks (requireNode id).
Proof. unfold requireNode. keep_marks. Qed.
Lemma marks_requireEdge id : keepsMarks (requireEdge id).
Proof. unfold requireEdge. keep_marks. Qed.
Lemma marks_writableNode id only : keepsMarks (writableNode id only).
Proof.
  unfold writableNode. apply marks_bind; [apply marks_requireNode|]. intros found i tx Hid. unfold abind, gets, modify, aret, marked. cbn [fst snd].
  pose proof (writable_deleted (w_nodes tx) id found.1 only) as Hd. destruct (writableRecord _ _ _ _) as [l nodes]. cbn [fst snd] in *. cbn [withNodes w_nodes]. by rewrite Hd.
Qed.
Lemma marks_writableEdge id only : keepsMarks (writableEdge id only).
Proof. unfold writableEdge. apply marks_bind; [apply marks_requireEdge|]. intros found. apply marks_bind; [apply marks_gets|]. intros edges. destruct (writableRecord _ _ _ _). keep_marks. Qed.

#[local] Hint Resolve marks_allocatingNode marks_allocatingEdge marks_requireNode marks_requireEdge marks_writableNode marks_writableEdge : marks.

Lemma marks_CreateNode fault opts : keepsMarks (CreateNode fault opts).
Proof. unfold CreateNode, checkNewVectors, addLabel. keep_marks. Qed.
Lemma marks_SetProperty id key v : keepsMarks (SetProperty id key v).
Proof. unfold SetProperty. keep_marks. Qed.
Lemma marks_SetVector id key v : keepsMarks (SetVector id key v).
Proof. unfold SetVector. keep_marks. Qed.
Lemma marks_CreateEdge fault source target ty props : keepsMarks (CreateEdge fault source target ty props).
Proof. unfold CreateEdge, addEdgeType. keep_marks. Qed.
Lemma marks_dropEdge e id : keepsMarks (dropEdge e id).
Proof. unfold dropEdge, removeEdgeType. keep_marks. Qed.
#[local] Hint Resolve marks_CreateNode marks_SetProperty marks_SetVector marks_CreateEdge marks_dropEdge : marks.

Lemma marks_insertVectors faults label vectors : forall ids i, keepsMarks (insertVectors faults label ids i vectors).
Proof. induction vectors as [|v vectors IH]; intros ids i; cbn [insertVectors]; keep_marks. Qed.
Lemma marks_BatchInsertVectors faults label vectors : keepsMarks (BatchInsertVectors faults label vectors).
Proof. pose proof marks_insertVectors. unfold BatchInsertVectors. keep_marks. Qed.
Lemma marks_removeEach ids : forall outgoing incoming, keepsMarks (removeEach outgoing incoming ids).
Proof. induction ids as [|id ids IH]; intros outgoing incoming; cbn [removeEach]; keep_marks. Qed.
Lemma marks_deleteEdges ids : keepsMarks (deleteEdgesBatchWithBudget ids).
Proof. pose proof marks_removeEach. unfold deleteEdgesBatchWithBudget. keep_marks. Qed.
Lemma marks_deleteEdgeTx id : keepsMarks (deleteEdgeTx id).
Proof. unfold deleteEdgeTx. keep_marks. Qed.
Lemma marks_deleteNode id : keepsMarks (deleteNodeWithBudget id).
Proof. pose proof marks_deleteEdges. unfold deleteNodeWithBudget, dropFTS, collectEdges, removeToken, removeLabelPosting. keep_marks. Qed.
#[local] Hint Resolve marks_deleteEdgeTx marks_deleteNode : marks.
Lemma marks_DeleteNode id : keepsMarks (DeleteNode id).
Proof.
  intros i tx Hid. unfold DeleteNode. pose proof (marks_deleteNode id i (withBudget tx None) Hid) as Hr. by destruct (deleteNodeWithBudget id (withBudget tx None)) as [r tx'].
Qed.
Lemma marks_DeleteEdge source target ty : keepsMarks (DeleteEdge source target ty).
Proof. unfold DeleteEdge. keep_marks. Qed.
Lemma marks_SetEdgeProperty id key v : keepsMarks (SetEdgeProperty id key v).
Proof. unfold SetEdgeProperty. keep_marks. Qed.
Lemma marks_RemoveEdgeProperty id key : keepsMarks (RemoveEdgeProperty id key).
Proof. unfold RemoveEdgeProperty. keep_marks. Qed.
Lemma marks_FTSIndex tokenize id text : keepsMarks (FTSIndex tokenize id text).
Proof. unfold FTSIndex, removeToken, addToken. keep_marks. Qed.
Lemma marks_PutAppMetadata key v : keepsMarks (PutAppMetadata key v).
Proof. unfold PutAppMetadata. keep_marks. Qed.
Lemma marks_DeleteAppMetadata key : keepsMarks (DeleteAppMetadata key).
Proof. unfold DeleteAppMetadata. keep_marks. Qed.
Lemma marks_streamCall op : keepsMarks (streamCall op).
Proof. intros id tx Hid. unfold streamCall. by destruct op; repeat case_match. Qed.

(** ** The clauses of a query, and the statement *)

Lemma marks_scopedBytes {A} (m : act A) : keepsMarks m -> keepsMarks (scopedBytes m).
Proof. intros Hm id tx Hid. apply Hm in Hid. unfold scopedBytes. destruct (m tx) as [r tx']. cbn [snd] in *. by repeat case_match. Qed.
Lemma marks_evaluateProps evaluate keys : (forall key, keepsMarks (evaluate key)) -> forall props, keepsMarks (evaluateProps evaluate keys props).
Proof. intros He. induction keys as [|key keys IH]; intros props; cbn [evaluateProps]; keep_marks. Qed.
Lemma marks_setRow kind b v : keepsMarks (setRow kind b v).
Proof. unfold setRow, replacementPropertyMap, mergeNodeProperties, mergeEdgeProperties, writeNode, writeEdge, trackNodeProperty, trackEdgeProperty, addLabel. keep_marks. Qed.
Lemma marks_removeRow item b : keepsMarks (removeRow item b).
Proof. unfold removeRow, writeNode, writeEdge, trackNodeProperty, trackEdgeProperty, removeLabelPosting, removeLabel. keep_marks. Qed.
#[local] Hint Resolve marks_scopedBytes marks_evaluateProps marks_setRow marks_removeRow : marks.

Lemma marks_createNodeClause faults labels keys evaluate readBack rows : (forall i key, keepsMarks (evaluate i key)) -> (forall i id, keepsMarks (readBack i id)) ->
  keepsMarks (createNodeClause faults labels keys evaluate readBack rows).
Proof. intros He Hr. apply marks_scopedBytes. keep_marks. Qed.
Lemma marks_createClause faults ty keys evaluate readBack rows : (forall i key, keepsMarks (evaluate i key)) -> (forall i id, keepsMarks (readBack i id)) ->
  keepsMarks (createClause faults ty keys evaluate readBack rows).
Proof. intros He Hr. apply marks_scopedBytes. keep_marks. Qed.
Lemma marks_setClause refresh evaluate kind rows : (forall i, keepsMarks (refresh i)) -> (forall i, keepsMarks (evaluate i)) -> keepsMarks (setClause refresh evaluate kind rows).
Proof. intros Hr He. apply marks_scopedBytes. keep_marks. Qed.
Lemma marks_removeClause rows : keepsMarks (removeClause rows).
Proof. apply marks_scopedBytes. keep_marks. Qed.
Lemma marks_deleteClause detach rows : keepsMarks (deleteClause detach rows).
Proof. unfold deleteClause, checkIncident. keep_marks. Qed.

Lemma marks_runStatement {R} (execute : act R) budget : keepsMarks execute -> keepsMarks (runStatement execute budget).
Proof.
  intros He id tx Hid. unfold runStatement. destruct (ensureWritable (w_call tx)); [done|]. assert (Hf : marked id (forkStatement tx budget)) by exact Hid. apply He in Hf.
  destruct (execute (forkStatement tx budget)) as [[r|err|] fork]; cbn [snd] in *; [|done|done]. unfold mergeStatement. by destruct (mergeFTSMarks tx fork).
Qed.
End calls.

(** ** Removing an identifier that was not handed out *)

Section ahead.
Context `{MapOrder unit} `{MapOrder (gmap gostring postingList)} `{MapOrder (list N)}.
Context (o : origin).

Lemma listed_none endOf next el edges id : listed endOf next el edges id -> (forall e r, edges !! e = Some r -> endOf r <> id) -> EdgeAll el = [].
Proof.
  intros Hl Hno. destruct (listed_reads _ _ _ _ _ Hl) as (_ & _ & Hin). destruct (EdgeAll el) as [|e l]; [done|].
  destruct (proj1 (Hin e) (list_elem_of_here _ _)) as (r & Hr & He). by apply Hno in Hr.
Qed.

Lemma range_empty {V} `{MapOrder V} time : rangeKeys time (∅ : gmap N V) = [].
Proof. apply elem_of_nil_inv. intros id [v Hv]%elem_of_rangeKeys. by rewrite lookup_empty in Hv. Qed.

Lemma delete_no_edges tx (Q : unit -> WriteTx -> Prop) E : Q tt tx -> runs (deleteEdgesBatchWithBudget (list_to_set ([] ++ []))) tx Q E.
Proof.
  intros HQ. unfold deleteEdgesBatchWithBudget, rangeSet. cbn [app list_to_set]. rewrite gset_to_gmap_empty, range_empty. apply runs_bind, runs_ret. cbn [fst snd]. rewrite !range_empty.
  apply runs_bind, runs_ret, runs_ret. exact HQ.
Qed.

Lemma delete_ahead tx id : txInv o tx -> w_budget tx = None -> validateEntityID id = None -> db_nextNodeID (w_db tx) <= id ->
  exists tx', DeleteNode id tx = (Done tt, tx') /\ marked id tx' /\ graphOf tx' = graphOf tx.
Proof.
  intros Hi Hb Hv Hid. pose proof (ti_derived _ _ Hi) as [D1 D2 D3 D4 D5 D6]. destruct (fresh_absent _ _ _ _ (ti_nodes _ _ Hi) id Hid) as (F1 & F2 & _ & _).
  assert (Hnode : nodesOf tx !! id = None) by (unfold nodesOf, liveOf; by rewrite contents_lookup, F1).
  assert (Hread : readRecord (w_nodes tx) id = None) by (by rewrite (readRecord_live _ _ _ _ (ti_nodes _ _ Hi))).
  assert (Htext : readFTS (sd_live (w_nodes tx)) (w_fts tx) id = None).
  { unfold readFTS. case_match; [done|]. destruct (fts_rows (w_fts tx) !! id) as [r|] eqn:Er; [|done]. apply (tx_rows _ _ (ti_text _ _ Hi)) in Er as [[n Hn] _]. congruence. }
  assert (Eout : EdgeAll (w_Outgoing tx !! id) = []) by (eapply listed_none; [exact (D5 id)|]; intros e r Hr <-; destruct (D1 e r Hr) as [[n Hn] _]; congruence).
  assert (Einc : EdgeAll (w_Incoming tx !! id) = []) by (eapply listed_none; [exact (D6 id)|]; intros e r Hr <-; destruct (D1 e r Hr) as [_ [n Hn]]; congruence).
  assert (Hsame : withBudget tx None = tx) by (rewrite <- Hb; apply withBudget_same).
  assert (Hr : runs (deleteNodeWithBudget id) tx (fun _ tx' => marked id tx' /\ graphOf tx' = graphOf tx /\ w_budget tx' = w_budget tx) (fun _ => False)).
  { unfold deleteNodeWithBudget. apply runs_bind. unfold writableTx, runs. rewrite (ti_open _ _ Hi). cbn [guard aret]. apply runs_bind. rewrite Hv. apply runs_ret.
    apply runs_bind, runs_gets, runs_bind, runs_gets, runs_bind, runs_gets, runs_bind, runs_gets. rewrite Hread, Htext. apply runs_bind, runs_ret, runs_bind, runs_ret, runs_bind, runs_modify.
    apply runs_bind, runs_gets. cbn [withNodes w_Outgoing]. rewrite Eout. apply runs_bind, runs_ret, runs_bind, runs_gets. cbn [withNodes w_Incoming]. rewrite Einc. apply runs_bind, runs_ret, runs_bind.
    apply delete_no_edges, runs_modify. split; [|split; [|done]].
    - unfold marked. cbn. set_solver.
    - unfold graphOf, nodesOf, liveOf. cbn. by rewrite delete_id. }
  unfold DeleteNode. rewrite Hsame. unfold runs in Hr. destruct (deleteNodeWithBudget id tx) as [[[]|err|] tx']; [|done|done]. destruct Hr as (Hm & Hg & Eb).
  exists tx'. rewrite <- Eb, withBudget_same. done.
Qed.
End ahead.

(** ** The node that gets a marked identifier *)

Lemma bind_done {A B} (m : act A) (k : A -> act B) tx y tx' : abind m k tx = (Done y, tx') -> exists x tx1, m tx = (Done x, tx1) /\ k x tx1 = (Done y, tx').
Proof. unfold abind. destruct (m tx) as [[x|err|] tx1]; [|done|done]. by exists x, tx1. Qed.
Lemma guard_done check tx x tx' : guard check tx = (Done x, tx') -> check = None /\ tx' = tx.
Proof. destruct check; [done|]. by intros [= _ <-]. Qed.

Section hidden.
Context `{MapOrder unit} `{MapOrder (list N)}.

Lemma addLabels_done id l : forall tx x tx', forEach (fun label => addLabel label id) l tx = (Done x, tx') -> w_nodes tx' = w_nodes tx /\ w_call tx' = w_call tx.
Proof.
  induction l as [|label l IH]; intros tx x tx'; cbn [forEach]; [by intros [= _ <-]|]. intros (y & tx1 & E1 & [-> ->]%IH)%bind_done. unfold addLabel, updating in E1.
  destruct (postingsAdd _ _ _); [|done]. by injection E1 as _ <-.
Qed.

Lemma checkNewVectors_done props tx x tx' : checkNewVectors props tx = (Done x, tx') -> tx' = tx.
Proof.
  unfold checkNewVectors. intros (db & tx1 & [= <- <-] & E)%bind_done. destruct (db_enableVector _); [|by injection E as _ <-].
  apply bind_done in E as (y & tx1 & [_ ->]%guard_done & [_ ->]%guard_done). done.
Qed.

(** A call that created a node left its record in the table and its identifier among the
    changed ones; the marks are as they were. *)
Lemma CreateNode_done fault opts tx v tx' : CreateNode fault opts tx = (Done v, tx') ->
  is_Some (nodesOf tx' !! pub_ID v) /\ pub_ID v ∈ sd_upserts (w_nodes tx') /\ ensureWritable (w_call tx') = None.
Proof.
  unfold CreateNode. intros (? & tx1 & [Ho ->]%guard_done & E)%bind_done. apply bind_done in E as (? & ? & [_ ->]%guard_done & E). apply bind_done in E as (props & tx2 & Ep & E).
  assert (tx2 = tx) as -> by (destruct (NormalizePropertyStorage _); [by injection Ep|done]). apply bind_done in E as (? & ? & ->%checkNewVectors_done & E). apply bind_done in E as (id & tx3 & Ea & E).
  assert (Ha : w_call tx3 = w_call tx /\ w_nodes tx3 = w_nodes tx) by (unfold allocatingNode in Ea; destruct (allocateNodeID _ _) as [[n|err] db]; [by injection Ea as _ <-|done]).
  apply bind_done in E as (? & tx4 & [= _ <-] & E). apply bind_done in E as (? & tx5 & [En Ec]%addLabels_done & E). apply bind_done in E as (? & tx6 & [= _ <-] & E). injection E as <- <-.
  destruct Ha as [Hc _]. cbn [publicNode pub_ID n_ID withNodes w_nodes w_call markUpsert sd_upserts] in *. split; [|split; [set_solver|by rewrite Ec, Hc]].
  unfold nodesOf, liveOf. cbn [withNodes w_nodes markUpsert sd_heap sd_live]. rewrite En, contents_lookup. cbn [setRecord sd_live sd_heap refs]. rewrite lookup_insert_eq. cbn [mbind option_bind].
  rewrite lookup_app_r, Nat.sub_diag by done. by eexists.
Qed.

Lemma marked_reads tx id : marked id tx -> readRecord (w_nodes tx) id = None /\ readLocated (w_nodes tx) id = None.
Proof. intros Hm. unfold readRecord, readLocated, readRef. by rewrite bool_decide_true. Qed.

Lemma open_active call : ensureWritable call = None -> tx_closed call = false.
Proof. unfold ensureWritable. by destruct (tx_closed call). Qed.

Lemma marked_calls tx id : marked id tx -> ensureWritable (w_call tx) = None -> validateEntityID id = None ->
  NodeExists id tx = (Done false, tx) /\ forall key x, ValidatePropertyKey key = None -> SetProperty id key x tx = (Failed (ErrNew "node not found"%string), tx).
Proof.
  intros Hm Ho Hv. destruct (marked_reads tx id Hm) as [Hr Hl]. pose proof (open_active _ Ho) as Hc. split.
  - unfold NodeExists, abind, activeTx. rewrite Hc. cbn [guard aret]. rewrite Hv. cbn [guard aret]. unfold gets. by rewrite Hr.
  - intros key x Hk. assert (Ew : writableTx tx = (Done tt, tx)) by (unfold writableTx; by rewrite Ho).
    assert (En : requireNode id tx = (Failed (ErrNew "node not found"%string), tx)) by (unfold requireNode, abind, activeTx; rewrite Hc; cbn [guard aret]; rewrite Hv; cbn [guard aret]; unfold gets; by rewrite Hl).
    unfold SetProperty, writableNode, abind. rewrite Ew, Hk. cbn [guard aret]. by rewrite En.
Qed.
End hidden.
