(* ===== verification/GraphEngine.v ===== *)
(** * The database around a write transaction (internal/engine/db.go, internal/store/store.go)

    How a write transaction starts from the graph of the database, what its commit hands
    to the write-ahead log, and what a commit or a rollback leaves in the database.

    The graph is in memory, with no page store and no backup archive. What the parts of a
    commit modelled elsewhere report, the upkeep of the derived indexes and the pressure of
    a running checkpoint, is given with the commit. *)
From S2P Require Import Prelude.
From S2P Require Import GoBytes.
From S2P Require Import BinaryCodec.
From S2P Require Import BinaryValue.
From S2P Require Import BinaryRecords.
From S2P Require Import GoMaps.
From S2P Require Import Values.
From S2P Require Import Properties.
From S2P Require Import PageRecords.
From S2P Require Import Streams.
From S2P Require Import StreamPersist.
From S2P Require Import StreamTx.
From S2P Require Import PropertyDelta.
From S2P Require Import WalAccumulator.
From S2P Require Import WalFrames.
From S2P Require Import GraphPersist.
From S2P Require Import SnapshotSize.
From S2P Require Import Adjacency.
From S2P Require Import StringPostings.
From S2P Require Import GraphTx.
From S2P Require Import GraphStatement.
From Stdlib Require Strings.String.
Import String.StringSyntax.

Record engine := mkEngine {
  en_db : Database;
  en_closed : bool; en_readOnly : bool;
  en_commitID : N;
  en_DatabaseID : gostring; en_VectorDimensions : N;
  en_nodeHeap : list NodeRecord; en_Nodes : table;
  en_edgeHeap : list EdgeRecord; en_Edges : table;
  en_FTS : ftsTable;
  en_Labels : StringPostings; en_EdgeTypes : StringPostings; en_FTSTokens : StringPostings;
  en_Outgoing : gmap N EdgeList; en_Incoming : gmap N EdgeList;
  en_AppMetadata : gmap gostring (slice byte);
  en_NodeIndexes : gset indexName; en_EdgeIndexes : gset indexName;
  en_Streams : StreamStore;
  en_SnapshotBytes : N;
  en_maxDatabaseSnapshotBytes : N;
  en_changefeedMaxBytes : N;
  en_wal : WALWriter }.

Definition ErrDatabaseClosed : error := ErrNew "database is closed"%string.
Definition ErrRecoveryRequired : error := ErrNew "database requires close and recovery"%string.
Definition ErrWriteConflict : error := ErrNew "write transaction conflicts with current commit"%string.

(** [CloneGraphStateShallow]: the maps are shared until they are written. *)
Definition CloneGraphStateShallow (e : engine) : WriteTx :=
  mkWriteTx (mkTx false false (en_readOnly e) (en_Streams e) false [])
    (en_db e) (mkSide (en_nodeHeap e) (en_Nodes e) (en_Nodes e) ∅ ∅ ∅) (mkSide (en_edgeHeap e) (en_Edges e) (en_Edges e) ∅ ∅ ∅)
    (en_FTS e) (en_FTS e) ∅ ∅ (postingsFork (en_Labels e)) (postingsFork (en_EdgeTypes e)) (postingsFork (en_FTSTokens e))
    (en_Outgoing e) (en_Incoming e) (en_AppMetadata e) None None.

(** A write transaction, once it holds the writer's lock. *)
Definition beginAfterWriteLock (e : engine) : WriteTx + error :=
  if en_closed e then inr ErrDatabaseClosed
  else if db_recoveryRequired (en_db e) then inr ErrRecoveryRequired
  else if en_readOnly e then inr ErrReadOnly
  else inl (CloneGraphStateShallow e).

(** The identifiers of a database that is opened: behind those of the recovered graph and
    behind what the identifier file reserves. *)
Definition openIDs (db : Database) (nextNodeID nextEdgeID : N) : Database :=
  mkDatabase (db_memory db) (db_enableVector db) (db_vectorDimensions db) (db_derivedIndexBuildMaxWork db) (db_derivedIndexBuildMaxLogicalBytes db)
    (N.max nextNodeID (db_diskNodeID db)) (db_diskNodeID db) (N.max nextEdgeID (db_diskEdgeID db)) (db_diskEdgeID db) false (db_diskNodeID db) (db_diskEdgeID db).

(** ** What a commit logs *)

Definition loggedIDs (values : gset N) : slice N := Some (mapKeys values).

Definition persistedAppMetadataChanges (changes : gmap gostring appMetadataChange) : list AppMetadataChange :=
  omap (fun key => (fun c => mkMetaChange (Some key) (ac_value c) (ac_delete c)) <$> changes !! key) (sortKeys (map fst (map_to_list changes))).

Definition commitDelta (tx : WriteTx) : GraphDelta :=
  mkGraphDelta (loggedIDs (sd_upserts (w_nodes tx))) (loggedIDs (sd_deletes (w_nodes tx)))
    (loggedIDs (sd_upserts (w_edges tx))) (loggedIDs (sd_deletes (w_edges tx)))
    (loggedIDs (w_upsertFTS tx)) (loggedIDs (w_deleteFTS tx))
    (persistedAppMetadataChanges (appChanges tx))
    (streamsChanged (w_call tx)) (streamOperations (w_call tx)) [] [] [] []
    (propertyKeyDeltas (sd_upserts (w_nodes tx)) (sd_keys (w_nodes tx)))
    (propertyKeyDeltas (sd_upserts (w_edges tx)) (sd_keys (w_edges tx))).

(** [validateNodeVectors] of a node of the graph. *)
Definition validateNodeVectors (dimensions : N) (node : option NodeRecord) : option error :=
  match node with
  | None => None
  | Some node =>
      match validateVectorProperties (n_Properties node) with
      | Some err => Some (ErrWrap (str "node"%string) err)
      | None =>
          let vectors := List.filter (fun kv => isVector kv.2) (PAll (n_Properties node)) in
          if dimensions =? 0 then match vectors with [] => None | _ => Some (ErrNew "vector property requires configured dimensions"%string) end
          else if existsb (fun kv => negb (vectorLength kv.2 =? dimensions)) vectors then Some errDimensions else None
      end
  end.

(** ** Commit and rollback *)

(** The graph of the transaction as the log's encoder reads it. *)
Definition persistedGraph (e : engine) (tx : WriteTx) : graphState :=
  mkGraph (en_DatabaseID e) (en_VectorDimensions e) (w_AppMetadata tx)
    (omap (fun l => sd_heap (w_nodes tx) !! l) (refs (sd_live (w_nodes tx)))) (omap (fun l => sd_heap (w_edges tx) !! l) (refs (sd_live (w_edges tx))))
    (fts_Text <$> fts_rows (w_fts tx)) (en_NodeIndexes e) (en_EdgeIndexes e) (tx_Streams (w_call tx)).

(** What a transaction leaves of itself in any case: the identifiers it took, and records
    that nothing reaches. *)
Definition abandon (e : engine) (tx : WriteTx) : engine :=
  mkEngine (w_db tx) (en_closed e) (en_readOnly e) (en_commitID e) (en_DatabaseID e) (en_VectorDimensions e)
    (sd_heap (w_nodes tx)) (en_Nodes e) (sd_heap (w_edges tx)) (en_Edges e) (en_FTS e) (en_Labels e) (en_EdgeTypes e) (en_FTSTokens e)
    (en_Outgoing e) (en_Incoming e) (en_AppMetadata e) (en_NodeIndexes e) (en_EdgeIndexes e) (en_Streams e) (en_SnapshotBytes e) (en_maxDatabaseSnapshotBytes e) (en_changefeedMaxBytes e) (en_wal e).
Definition withWAL (e : engine) (db : Database) (w : WALWriter) : engine :=
  mkEngine db (en_closed e) (en_readOnly e) (en_commitID e) (en_DatabaseID e) (en_VectorDimensions e)
    (en_nodeHeap e) (en_Nodes e) (en_edgeHeap e) (en_Edges e) (en_FTS e) (en_Labels e) (en_EdgeTypes e) (en_FTSTokens e)
    (en_Outgoing e) (en_Incoming e) (en_AppMetadata e) (en_NodeIndexes e) (en_EdgeIndexes e) (en_Streams e) (en_SnapshotBytes e) (en_maxDatabaseSnapshotBytes e) (en_changefeedMaxBytes e) w.
(** [tx.graph.SnapshotBytes = snapshotBytes], [tx.db.graph = tx.graph], [tx.db.commitID = nextCommitID] *)
Definition install (e : engine) (tx : WriteTx) (commitID snapshotBytes : N) (w : WALWriter) : engine :=
  mkEngine (w_db tx) (en_closed e) (en_readOnly e) commitID (en_DatabaseID e) (en_VectorDimensions e)
    (sd_heap (w_nodes tx)) (sd_live (w_nodes tx)) (sd_heap (w_edges tx)) (sd_live (w_edges tx)) (w_fts tx) (w_Labels tx) (w_EdgeTypes tx) (w_FTSTokens tx)
    (w_Outgoing tx) (w_Incoming tx) (w_AppMetadata tx) (en_NodeIndexes e) (en_EdgeIndexes e) (tx_Streams (w_call tx)) snapshotBytes (en_maxDatabaseSnapshotBytes e) (en_changefeedMaxBytes e) w.

(** What other parts report to a commit: the upkeep of the derived indexes, and a
    checkpoint that is behind. *)
Record commitReports := mkReports { cr_derived : option error; cr_busy : bool }.

Section commit.
Context `{MapOrder unit} (generateID : gostring + error).

Definition checkVectors (e : engine) (tx : WriteTx) : option error :=
  if db_enableVector (w_db tx) then
    firstError (fun id => validateNodeVectors (en_VectorDimensions e) (refs (sd_live (w_nodes tx)) !! id ≫= fun l => sd_heap (w_nodes tx) !! l)) (rangeSet (sd_upserts (w_nodes tx)))
  else None.

(** The checks before anything is written; [baseCommitID] is the commit the transaction
    started from. *)
Definition commitChecks (r : commitReports) (e : engine) (baseCommitID : N) (tx : WriteTx) : option error :=
  match checkVectors e tx with
  | Some err => Some err
  | None =>
  match cr_derived r with
  | Some err => Some err
  | None =>
      if en_closed e then Some ErrDatabaseClosed
      else if en_readOnly e then Some ErrReadOnly
      else if db_recoveryRequired (w_db tx) then Some ErrRecoveryRequired
      else if negb (en_commitID e =? baseCommitID) then Some ErrWriteConflict
      else if en_commitID e =? max_uint64 then Some (ErrNew "commit id space exhausted"%string)
      else if negb (db_memory (w_db tx)) && cr_busy r then Some (errResourceLimit "WAL checkpoint is in progress")
      else None
  end
  end.

(** The transaction with its changes published to the change stream. *)
Definition changesOf (tx : WriteTx) : txChanges :=
  mkChanges (sd_upserts (w_nodes tx)) (sd_deletes (w_nodes tx)) (sd_upserts (w_edges tx)) (sd_deletes (w_edges tx)) (sd_keys (w_nodes tx)) (sd_keys (w_edges tx)).
Definition baseView (tx : WriteTx) : graphView :=
  mkView (omap (fun l => sd_heap (w_nodes tx) !! l) (refs (sd_base (w_nodes tx)))) (omap (fun l => sd_heap (w_edges tx) !! l) (refs (sd_base (w_edges tx)))).
Definition liveView (tx : WriteTx) : graphView :=
  mkView (omap (fun l => sd_heap (w_nodes tx) !! l) (refs (sd_live (w_nodes tx)))) (omap (fun l => sd_heap (w_edges tx) !! l) (refs (sd_live (w_edges tx)))).
Definition withChangefeed (e : engine) (tx : WriteTx) : option error * WriteTx :=
  let '(err, call) := appendChangefeed (changesOf tx) (baseView tx) (liveView tx) (en_changefeedMaxBytes e) (w_call tx) in (err, withCall tx call).

(** The size of a snapshot after the commit, from the size before it. A nil dereference
    panics; it is the error of this name here. *)
Definition nilDereference : error := ErrNew "invalid memory address or nil pointer dereference"%string.
Definition checkSize (e : engine) (tx : WriteTx) : N + error :=
  match ApplyDeltaSnapshotBytes (persistedGraph e (CloneGraphStateShallow e)) (persistedGraph e tx) (en_SnapshotBytes e) (commitDelta tx) with
  | SizeError err => inr err
  | SizeNil => inr nilDereference
  | Sized size => if en_maxDatabaseSnapshotBytes e <? size then inr (errResourceLimit "database snapshot") else inl size
  end.

Definition commitInternal (r : commitReports) (fs : appendFaults) (e : engine) (baseCommitID : N) (tx : WriteTx) : option error * engine :=
  if tx_closed (w_call tx) then (Some ErrInactiveTx, abandon e tx)
  else if tx_readOnly (w_call tx) then (None, abandon e tx)
  else
    match commitChecks r e baseCommitID tx with
    | Some err => (Some err, abandon e tx)
    | None =>
    match withChangefeed e tx with
    | (Some err, tx) => (Some err, abandon e tx)
    | (None, tx) =>
    match checkSize e tx with
    | inr err => (Some err, abandon e tx)
    | inl snapshotBytes =>
        let next := en_commitID e + 1 in
        if db_memory (w_db tx) then (None, install e tx next snapshotBytes (en_wal e))
        else
          match AppendDelta generateID (en_wal e) fs (persistedGraph e tx) (db_nextNodeID (w_db tx)) (db_nextEdgeID (w_db tx)) next (commitDelta tx) with
          | (None, w) => (None, install e tx next snapshotBytes w)
          | (Some err, w) =>
              (Some err, withWAL (abandon e tx) (if outcomeUnknown (Some err) then needRecovery (w_db tx) else w_db tx) w)
          end
    end
    end
    end.

Definition rollbackInternal (e : engine) (tx : WriteTx) : option error * engine :=
  if tx_closed (w_call tx) then (Some ErrInactiveTx, e) else (None, abandon e tx).
End commit.
