(* ===== verification/GraphEngineSpec.v ===== *)
(** * What a commit hands to the log describes the step of its transaction *)
From S2P Require Import Prelude.
From S2P Require Import GoBytes.
From S2P Require Import BinaryCodec.
From S2P Require Import BinaryValue.
From S2P Require Import BinaryRecords.
From S2P Require Import GoMaps.
From S2P Require Import Values.
From S2P Require Import ValuesSpec.
From S2P Require Import Properties.
From S2P Require Import PageRecords.
From S2P Require Import Streams.
From S2P Require Import StreamStoreSpec.
From S2P Require Import StreamPersist.
From S2P Require Import StreamPersistSpec.
From S2P Require Import StreamTx.
From S2P Require Import StreamTxSpec.
From S2P Require Import PropertyDelta.
From S2P Require Import PropertyPatch.
From S2P Require Import WalAccumulator.
From S2P Require Import WalInvariant.
From S2P Require Import WalSteps.
From S2P Require Import WalFrames.
From S2P Require Import GraphPersist.
From S2P Require Import GraphChanges.
From S2P Require Import SnapshotSize.
From S2P Require Import Adjacency.
From S2P Require Import AdjacencySpec.
From S2P Require Import StringPostings.
From S2P Require Import IndexUpkeep.
From S2P Require Import IndexTheorems.
From S2P Require Import ChangefeedSpec.
From S2P Require Import ChangefeedReplay.
From S2P Require Import GraphTx.
From S2P Require Import GraphStatement.
From S2P Require Import GraphSides.
From S2P Require Import GraphTxSpec.
From S2P Require Import GraphTxNodes.
From S2P Require Import GraphTxRemove.
From S2P Require Import GraphStatementSpec.
From S2P Require Import GraphEngine.
From Stdlib Require Strings.String.
Import String.StringSyntax.
#[local] Open Scope go_scope.

(** ** What a delta that was built has checked *)

Definition storableNode (keys : gmap N (list gostring)) (nodes : gmap N NodeRecord) (id : N) : Prop :=
  exists n, nodes !! id = Some n /\ n_ID n = id /\ ValidateEntityID id = None /\ ValidateCreateLabels (n_Labels n) = None /\
    (propertiesOK (n_Properties n) -> PropertyPatch.storable (n_Properties n)) /\ Forall (fun k => utf8Valid k = true) (patchKeys keys id).
Definition storableEdge (keys : gmap N (list gostring)) (edges : gmap N EdgeRecord) (id : N) : Prop :=
  exists e, edges !! id = Some e /\ e_ID e = id /\ ValidateEntityID id = None /\ ValidateEdgeType (e_Type e) = None /\
    (propertiesOK (e_Properties e) -> PropertyPatch.storable (e_Properties e)) /\ Forall (fun k => utf8Valid k = true) (patchKeys keys id).

Lemma encoded_storable p stored : encodePropertyStorage p = inl stored -> propertiesOK p -> PropertyPatch.storable p.
Proof.
  intros E [Hw Hn]. split; [done|]. split; [done|]. assert (Hv : Forall (fun kv => wfV kv.2) (PAll p)) by (eapply Forall_impl; [exact Hn|]; by intros kv []).
  pose proof (encodePropertyStorage_exact p Hv) as Hx. destruct (propsOK (PAll p)); [done|]. destruct Hx as [err Hx]. congruence.
Qed.

Lemma changes_utf8 p keys : forall seen set remove out, buildChanges p keys seen set remove = inl out -> Forall (fun k => utf8Valid k = true) keys.
Proof.
  induction keys as [|k keys IH]; intros seen set remove out; cbn [buildChanges]; [done|]. unfold ValidatePropertyKey. destruct (utf8Valid k) eqn:Eu; [|done]. cbn [negb].
  case_bool_decide; [done|]. destruct (Lookup p k) as [v|]; [destruct (encodeValue v); [|done]|]; intros Hb; constructor; try done; by eapply IH.
Qed.

Lemma patched_storable id keys p change : buildPersistedPropertyChange id keys p = inl change -> (propertiesOK p -> PropertyPatch.storable p) /\ Forall (fun k => utf8Valid k = true) keys.
Proof.
  unfold buildPersistedPropertyChange. destruct (ValidateEntityID id); [done|]. destruct (validateNormalizedPropertyMapLimits p) eqn:El; [done|].
  destruct (buildChanges p keys ∅ [] []) as [[set remove]|] eqn:Eb; [|done]. intros _. split; [|by eapply changes_utf8]. intros [Hw Hn]. split; [done|]. split; [done|].
  apply mapLimits_exact; [|done]. eapply Forall_impl; [exact Hn|]. by intros kv [].
Qed.

Lemma built_each {S} (step : S -> N -> S + error) (P : N -> Prop) ids : (forall st id st', step st id = inl st' -> P id) ->
  forall st st', foldError step st ids = inl st' -> Forall P ids.
Proof.
  intros Hs. induction ids as [|id ids IH]; intros st st'; cbn [foldError]; [done|]. destruct (step st id) as [st1|] eqn:E; [|done]. intros Hf. constructor; [by eapply Hs|by eapply IH].
Qed.

Lemma wrapErr_passes what check : wrapErr what check = None -> check = None.
Proof. by destruct check. Qed.

Lemma builtNode_storable g keys st id st' : buildNode g keys st id = inl st' -> storableNode keys (g_Nodes g) id.
Proof.
  destruct st as [u p]. unfold buildNode, persistNode. destruct (g_Nodes g !! id) as [n|] eqn:En; [|done]. destruct (N.eqb_spec (n_ID n) id) as [Ei|]; [|done]. cbn [negb].
  destruct (ValidateEntityID (n_ID n)) eqn:Ev; [done|]. destruct (wrapErr _ (ValidateCreateLabels (n_Labels n))) eqn:El; [done|]. apply wrapErr_passes in El. intros Hb. exists n.
  rewrite Ei in Ev. split_and!; try done; destruct (patchKeys keys id) as [|k ks] eqn:Ek; try done.
  - unfold persistedNodeOf in Hb. destruct (wrapped _ (encodePropertyStorage _)) as [stored|] eqn:Es; [|done]. apply wrapped_inl in Es. by eapply encoded_storable.
  - destruct (wrapped _ (buildPersistedPropertyChange _ _ _)) as [c|] eqn:Es; [|done]. apply wrapped_inl in Es. by eapply patched_storable.
  - destruct (wrapped _ (buildPersistedPropertyChange _ _ _)) as [c|] eqn:Es; [|done]. apply wrapped_inl in Es. by eapply patched_storable.
Qed.

Lemma builtEdge_storable g keys st id st' : buildEdge g keys st id = inl st' -> storableEdge keys (g_Edges g) id.
Proof.
  destruct st as [u p]. unfold buildEdge, persistEdge. destruct (g_Edges g !! id) as [n|] eqn:En; [|done]. destruct (N.eqb_spec (e_ID n) id) as [Ei|]; [|done]. cbn [negb].
  destruct (ValidateEntityID (e_ID n)) eqn:Ev; [done|]. destruct (ValidateEntityID (e_SourceID n)); [done|]. destruct (ValidateEntityID (e_TargetID n)); [done|].
  destruct (wrapErr _ (ValidateEdgeType (e_Type n))) eqn:El; [done|]. apply wrapErr_passes in El. intros Hb. exists n.
  rewrite Ei in Ev. split_and!; try done; destruct (patchKeys keys id) as [|k ks] eqn:Ek; try done.
  - unfold persistedEdgeOf in Hb. destruct (wrapped _ (encodePropertyStorage _)) as [stored|] eqn:Es; [|done]. apply wrapped_inl in Es. by eapply encoded_storable.
  - destruct (wrapped _ (buildPersistedPropertyChange _ _ _)) as [c|] eqn:Es; [|done]. apply wrapped_inl in Es. by eapply patched_storable.
  - destruct (wrapped _ (buildPersistedPropertyChange _ _ _)) as [c|] eqn:Es; [|done]. apply wrapped_inl in Es. by eapply patched_storable.
Qed.

(** A delta that was built has found every upserted record fit to be stored, and the
    marks in range. *)
Lemma built_checks generateID g nn ne commit changes delta g' : buildPersistedDelta generateID g nn ne commit changes = inl (delta, g') -> validateDatabaseID (g_DatabaseID g) = None -> g_DatabaseID g <> [] ->
  g' = g /\ Forall (storableNode (gd_NodePropertyKeys changes) (g_Nodes g)) (elems (gd_UpsertNodes changes)) /\
  Forall (storableEdge (gd_EdgePropertyKeys changes) (g_Edges g)) (elems (gd_UpsertEdges changes)).
Proof.
  unfold buildPersistedDelta. intros Hb Hid Hne. destruct (ValidateIDHighWater (orOne nn)); [done|]. destruct (ValidateIDHighWater (orOne ne)); [done|].
  destruct (firstError _ _); [done|]. unfold ensureDatabaseID in Hb. rewrite bool_decide_false in Hb by done. cbn [negb] in Hb. rewrite Hid in Hb.
  destruct (checkPropertyKeys changes); [done|]. destruct (foldError buildMetadataChange _ _) as [[seen metadata]|]; [|done]. destruct (buildStreams g changes) as [[streams ops]|]; [|done].
  destruct (foldError (buildNode g _) _ _) as [[nodes np]|] eqn:En; [|done]. destruct (foldError (buildEdge g _) _ _) as [[edges ep]|] eqn:Ee; [|done].
  destruct (sumEach _ _); [|done]. injection Hb as _ <-. split; [done|].
  rewrite <- (sortedIDs_perm (gd_UpsertNodes changes)), <- (sortedIDs_perm (gd_UpsertEdges changes)). split.
  - eapply built_each; [|exact En]. intros st id st'. apply builtNode_storable.
  - eapply built_each; [|exact Ee]. intros st id st'. apply builtEdge_storable.
Qed.

(** ** The engine *)

Lemma loggedIDs_perm ids : elems (loggedIDs ids) ≡ₚ elements ids.
Proof. apply merge_sort_Permutation. Qed.
Lemma elem_of_loggedIDs ids id : id ∈ elems (loggedIDs ids) <-> id ∈ ids.
Proof. by rewrite loggedIDs_perm, elem_of_elements. Qed.

Lemma changes_perm {A} (old new : gmap N A) u u' d d' : u ≡ₚ u' -> d ≡ₚ d' -> entityChanges old new u' d' -> entityChanges old new u d.
Proof. intros Hu Hd [C1 C2 C3 C4]. split; [by rewrite Hu, Hd|setoid_rewrite Hu; done|setoid_rewrite Hd; done|setoid_rewrite Hu; setoid_rewrite Hd; done]. Qed.

Lemma sorted_keys l : sortKeys l ≡ₚ l.
Proof. apply merge_sort_Permutation. Qed.

(** What the marks of a side say. *)
Lemma side_changes {A} `{Entity A} start (s : side A) bn n : sideOK start s bn n ->
  entityChanges (baseOf s) (liveOf s) (elems (loggedIDs (sd_upserts s))) (elems (loggedIDs (sd_deletes s))).
Proof.
  intros Hs. eapply changes_perm; [apply loggedIDs_perm|apply loggedIDs_perm|]. apply changes_sets. split_and!.
  - apply (so_disjoint _ _ _ _ Hs).
  - intros id Hid. unfold liveOf. rewrite (table_dom _ _ _ _ (so_live _ _ _ _ Hs)). by apply (so_upserts _ _ _ _ Hs).
  - intros id Hid. destruct (so_deletes _ _ _ _ Hs id Hid) as [Hb Hl]. split; [by eapply base_contents|]. unfold liveOf. by rewrite contents_lookup, Hl.
  - intros id Hd Hu. unfold baseOf, liveOf. rewrite !contents_lookup. by rewrite (so_same _ _ _ _ Hs id Hu Hd).
Qed.

Lemma side_patches {A} `{Entity A} (rest : A -> A -> Prop) (props : A -> Properties) start (s : side A) bn n : sideOK start s bn n ->
  (forall x y, entRest x y -> rest x y) -> (forall x, entProps x = props x) ->
  (forall id, id ∈ sd_upserts s -> Forall (fun k => utf8Valid k = true) (patchKeys (propertyKeyDeltas (sd_upserts s) (sd_keys s)) id)) ->
  patchChanges rest props (baseOf s) (liveOf s) (elems (loggedIDs (sd_upserts s))) (propertyKeyDeltas (sd_upserts s) (sd_keys s)).
Proof.
  intros Hs Hrest Hprops Hutf id ks Hk Hne. assert (Hin : exists keys, sd_keys s !! id = Some keys /\ ks = sortKeys (elems keys) /\ id ∈ sd_upserts s).
  { revert Hk. unfold propertyKeyDeltas. destruct (_ || _); [by rewrite lookup_empty|]. rewrite lookup_fmap. intros (keys & Hf & ->)%fmap_Some. apply map_lookup_filter_Some in Hf as [Hf Hc].
    exists keys. split; [done|]. split; [done|]. cbn [fst snd] in Hc. destruct Hc as [Hc|Hc]; [|done]. destruct Hne. unfold compose. by rewrite Hc. }
  destruct Hin as (keys & Hkeys & Eks & Hu). destruct keys as [ks0|]; [|done]. cbn [elems default from_option Datatypes.id] in Eks. split; [by apply elem_of_loggedIDs|].
  assert (Hb : is_Some (refs (sd_base s) !! id)) by (apply (so_keysIn _ _ _ _ Hs); eauto). destruct (so_upserts _ _ _ _ Hs id Hu) as [l Hl].
  apply (base_contents _ _ _ _ _ Hs) in Hb as [x Hx]. destruct (table_contents _ _ _ _ _ (so_live _ _ _ _ Hs) Hl) as (y & Hy & _).
  pose proof (so_keys _ _ _ _ Hs id x y Hx Hy) as Ht. rewrite Hkeys in Ht. destruct Ht as (Hnd & Hr & Hp). split; [by rewrite Eks, sorted_keys|].
  split; [specialize (Hutf id Hu); unfold patchKeys in Hutf; by rewrite Hk in Hutf|]. exists x, y. split_and!; [done|done|by apply Hrest|].
  intros k Hnk. rewrite <- !Hprops. apply Hp. by rewrite Eks, sorted_keys in Hnk.
Qed.

Lemma metadata_changes base live changes : metadataOK base live changes -> metadataChanges base live (persistedAppMetadataChanges changes).
Proof.
  intros [M1 M2 M3]. assert (Ek : map (fun c => elems (mc_Key c)) (persistedAppMetadataChanges changes) ≡ₚ map fst (map_to_list changes)).
  { unfold persistedAppMetadataChanges. etransitivity; [|apply (sorted_keys (map fst (map_to_list changes)))].
    assert (Hall : Forall (fun k => is_Some (changes !! k)) (sortKeys (map fst (map_to_list changes)))).
    { rewrite sorted_keys. apply Forall_forall. intros k Hk%list_elem_of_In%in_map_iff. destruct Hk as ([k' c] & <- & Hin%list_elem_of_In%elem_of_map_to_list). eauto. }
    induction Hall as [|k l [c Hc] _ IH]; [done|]. cbn [omap list_omap]. rewrite Hc. cbn. by rewrite IH. }
  assert (Hin : forall c, c ∈ persistedAppMetadataChanges changes -> exists key ch, changes !! key = Some ch /\ c = mkMetaChange (Some key) (ac_value ch) (ac_delete ch)).
  { intros c Hc. unfold persistedAppMetadataChanges in Hc. apply list_elem_of_omap in Hc as (key & _ & Hc). apply fmap_Some in Hc as (ch & Hch & ->). eauto. }
  split.
  - rewrite Ek. apply NoDup_fst_map_to_list.
  - apply Forall_forall. intros c (key & ch & Hch & ->)%Hin. cbn. by apply (M1 key ch).
  - intros c (key & ch & Hch & ->)%Hin. cbn. destruct (M1 key ch Hch) as [_ Hx]. destruct (ac_delete ch); [destruct Hx as [-> ?]; done|done].
  - intros key Hk. symmetry. apply M2. rewrite Ek in Hk. destruct (changes !! key) as [ch|] eqn:E; [|done]. destruct Hk. apply list_elem_of_In, in_map_iff. exists (key, ch). split; [done|].
    by apply list_elem_of_In, elem_of_map_to_list.
Qed.

(** A call on the streams fails and changes nothing, or records what it did. *)
Lemma txStep_records op call : txStep call op = call \/ exists r, streamOperations (txStep call op) = streamOperations call ++ [r] /\ streamsChanged (txStep call op) = true.
Proof.
  destruct op as [stream kind payload|stream consumer sequence|stream before]; cbn [txStep].
  - unfold PublishStream, PublishStreamGetSequence. destruct (ensureWritable _); [by left|]. destruct (validateStreamName _ _); [by left|]. destruct (validateStreamKind _); [by left|].
    destruct (NormalizeValue _); [|by left]. destruct (_ =? _); [by left|]. right. unfold publishRecorded. destruct (Publish _ _ _ _). by eexists.
  - unfold SetStreamOffset. destruct (ensureWritable _); [by left|]. destruct (validateStreamName _ _); [by left|]. destruct (validateConsumer _); [by left|]. right. by eexists.
  - unfold TrimStream. destruct (ensureWritable _); [by left|]. destruct (validateStreamName _ _); [by left|]. right. by eexists.
Qed.

Lemma records_silent s call : records s call -> streamOperations call = [] -> call = beginTx s.
Proof.
  induction 1 as [|call op Hr IH _|call kind payload Hr IH _ _ _]; [done| |].
  - destruct (txStep_records op call) as [->|(r & -> & _)]; [done|]. by destruct (streamOperations call).
  - unfold appendChange, publishRecorded. destruct (Publish _ _ _ _). cbn. by destruct (streamOperations call).
Qed.

Lemma records_flag s call : records s call -> streamsChanged call = false -> streamOperations call = [].
Proof.
  induction 1 as [|call op Hr IH _|call kind payload Hr IH _ _ _]; [done| |].
  - destruct (txStep_records op call) as [->|(r & _ & ->)]; done.
  - unfold appendChange, publishRecorded. by destruct (Publish _ _ _ _).
Qed.

Lemma stream_changes s call : records s call -> streamChanges s (tx_Streams call) (streamsChanged call) (streamOperations call).
Proof.
  intros Hr. destruct (streamOperations call) as [|r l] eqn:E.
  - left. by rewrite (records_silent s call Hr E).
  - right. right. split; [done|]. exists call. by rewrite <- E.
Qed.

Section engine.
Context `{MapOrder unit} `{MapOrder (gmap gostring postingList)} `{MapOrder (list N)}.
Implicit Types (e : engine) (tx : WriteTx).

Definition engineOrigin e : origin :=
  mkOrigin (length (en_nodeHeap e)) (length (en_edgeHeap e)) (db_nextNodeID (en_db e)) (db_nextEdgeID (en_db e)) (en_AppMetadata e) (en_Streams e).
(** An engine on which a transaction that starts is in order. *)
Definition engineOK e : Prop := txInv (engineOrigin e) (CloneGraphStateShallow e).
(** The graph of the engine. *)
Definition graphOfEngine e : graphState := persistedGraph e (CloneGraphStateShallow e).

(** A transaction somewhere after its start. *)
Definition started e tx : Prop := txInv (engineOrigin e) tx /\ stepOK (engineOrigin e) (CloneGraphStateShallow e) tx.

Lemma started_base e tx : engineOK e -> started e tx -> baseOf (w_nodes tx) = g_Nodes (graphOfEngine e) /\ baseOf (w_edges tx) = g_Edges (graphOfEngine e) /\
  sd_base (w_nodes tx) = en_Nodes e /\ sd_base (w_edges tx) = en_Edges e /\ w_ftsBase tx = en_FTS e.
Proof.
  intros He [Hi [K1 K2 _ _ K5 _ _]]. pose proof (frozen_baseOf _ _ _ _ _ (ti_nodes _ _ He) K1) as E1. pose proof (frozen_baseOf _ _ _ _ _ (ti_edges _ _ He) K2) as E2.
  destruct K1 as (_ & B1 & _), K2 as (_ & B2 & _). split_and!; done.
Qed.

(** ** Commit *)

(** The nodes of the new graph: those that were written were checked, the others are
    those of the old one. *)
Lemma nodes_wf_after e tx bn keys : engineOK e -> started e tx ->
  map_Forall (fun id n => n_ID n = id /\ ValidateEntityID id = None /\ ValidateCreateLabels (n_Labels n) = None /\ PropertyPatch.storable (n_Properties n) /\ id < bn) (g_Nodes (graphOfEngine e)) ->
  Forall (storableNode keys (nodesOf tx)) (elems (loggedIDs (sd_upserts (w_nodes tx)))) ->
  map_Forall (fun id n => n_ID n = id /\ ValidateEntityID id = None /\ ValidateCreateLabels (n_Labels n) = None /\ PropertyPatch.storable (n_Properties n) /\ id < db_nextNodeID (w_db tx)) (nodesOf tx).
Proof.
  intros He Hst Hbase Hup id n Hn. destruct (started_base e tx He Hst) as (Bn & _). destruct Hst as [Hi _].
  destruct (live_record _ _ _ _ (ti_nodes _ _ Hi) id n Hn) as (Eid & [Hok _] & Hlt). rewrite Forall_forall in Hup.
  destruct (decide (id ∈ sd_upserts (w_nodes tx))) as [Hu|Hu].
  - destruct (Hup id) as (n' & Hn' & E & Hv & Hl & Hs & _); [by apply elem_of_loggedIDs|]. rewrite Hn in Hn'. injection Hn' as <-. split_and!; try done; [by apply Hs|lia].
  - assert (Hb : g_Nodes (graphOfEngine e) !! id = Some n).
    { rewrite <- Bn, (ec_same _ _ _ _ (side_changes _ _ _ _ (ti_nodes _ _ Hi))); [done| |by rewrite elem_of_loggedIDs].
      rewrite elem_of_loggedIDs. intros [_ Hd]%(so_deletes _ _ _ _ (ti_nodes _ _ Hi)). unfold nodesOf, liveOf in Hn. by rewrite contents_lookup, Hd in Hn. }
    destruct (Hbase id n Hb) as (? & ? & ? & ? & ?). split_and!; try done. lia.
Qed.
Lemma edges_wf_after e tx be keys : engineOK e -> started e tx ->
  map_Forall (fun id n => e_ID n = id /\ ValidateEntityID id = None /\ ValidateEdgeType (e_Type n) = None /\ PropertyPatch.storable (e_Properties n) /\ id < be) (g_Edges (graphOfEngine e)) ->
  Forall (storableEdge keys (edgesOf tx)) (elems (loggedIDs (sd_upserts (w_edges tx)))) ->
  map_Forall (fun id n => e_ID n = id /\ ValidateEntityID id = None /\ ValidateEdgeType (e_Type n) = None /\ PropertyPatch.storable (e_Properties n) /\ id < db_nextEdgeID (w_db tx)) (edgesOf tx).
Proof.
  intros He Hst Hbase Hup id n Hn. destruct (started_base e tx He Hst) as (_ & Be & _). destruct Hst as [Hi _].
  destruct (live_record _ _ _ _ (ti_edges _ _ Hi) id n Hn) as (Eid & [Hok _] & Hlt). rewrite Forall_forall in Hup.
  destruct (decide (id ∈ sd_upserts (w_edges tx))) as [Hu|Hu].
  - destruct (Hup id) as (n' & Hn' & E & Hv & Hl & Hs & _); [by apply elem_of_loggedIDs|]. rewrite Hn in Hn'. injection Hn' as <-. split_and!; try done; [by apply Hs|lia].
  - assert (Hb : g_Edges (graphOfEngine e) !! id = Some n).
    { rewrite <- Be, (ec_same _ _ _ _ (side_changes _ _ _ _ (ti_edges _ _ Hi))); [done| |by rewrite elem_of_loggedIDs].
      rewrite elem_of_loggedIDs. intros [_ Hd]%(so_deletes _ _ _ _ (ti_edges _ _ Hi)). unfold edgesOf, liveOf in Hn. by rewrite contents_lookup, Hd in Hn. }
    destruct (Hbase id n Hb) as (? & ? & ? & ? & ?). split_and!; try done. lia.
Qed.

Lemma highWater_ok n : 0 < n <= EntityIDExhausted -> ValidateIDHighWater n = None.
Proof. intros Hn. unfold ValidateIDHighWater. destruct (N.eqb_spec n 0), (N.ltb_spec EntityIDExhausted n); try done; lia. Qed.

Lemma commit_wf_graph e tx bn be : engineOK e -> started e tx -> wfGraph (graphOfEngine e) bn be ->
  Forall (storableNode (gd_NodePropertyKeys (commitDelta tx)) (nodesOf tx)) (elems (loggedIDs (sd_upserts (w_nodes tx)))) ->
  Forall (storableEdge (gd_EdgePropertyKeys (commitDelta tx)) (edgesOf tx)) (elems (loggedIDs (sd_upserts (w_edges tx)))) ->
  wfGraph (persistedGraph e tx) (db_nextNodeID (w_db tx)) (db_nextEdgeID (w_db tx)).
Proof.
  intros He Hst [W1 W2 W3 W4 W5 W6 W7 W8 W9 W10 W11] Sn Se. pose proof (nodes_wf_after e tx bn _ He Hst W1 Sn) as Wn. pose proof (edges_wf_after e tx be _ He Hst W2 Se) as We.
  destruct Hst as [Hi _]. pose proof Hi as [I1 I2 I3 I4 I5 I6 I7 I8 I9 [D1 _ _ _ _ _]]. split; try done.
  - intros id text. unfold persistedGraph. cbn [g_FTS]. rewrite lookup_fmap. intros (r & Hr & ->)%fmap_Some. by apply (tx_rows _ _ I6 id r Hr).
  - apply (me_valid _ _ _ I9).
  - apply highWater_ok, I3.
  - apply highWater_ok, I3.
  - destruct W11 as (a & Hs & Hst). exact (records_ok _ a _ Hs Hst I2).
Qed.

Lemma no_index_changes X : indexChanges X X [] [].
Proof. split; try apply NoDup_nil_2; set_solver. Qed.

Lemma commit_changes e tx : engineOK e -> started e tx ->
  Forall (storableNode (gd_NodePropertyKeys (commitDelta tx)) (nodesOf tx)) (elems (loggedIDs (sd_upserts (w_nodes tx)))) ->
  Forall (storableEdge (gd_EdgePropertyKeys (commitDelta tx)) (edgesOf tx)) (elems (loggedIDs (sd_upserts (w_edges tx)))) ->
  changesOK (graphOfEngine e) (persistedGraph e tx) (commitDelta tx).
Proof.
  intros He Hst Sn Se. destruct (started_base e tx He Hst) as (Bn & Be & _ & _ & Bf). destruct Hst as [Hi _].
  pose proof Hi as [I1 I2 I3 I4 I5 I6 I7 I8 I9 _]. rewrite Forall_forall in Sn, Se. split; try done.
  - rewrite <- Bn. exact (side_changes _ _ _ _ I4).
  - rewrite <- Be. exact (side_changes _ _ _ _ I5).
  - rewrite Bf in I8. exact (changes_perm _ _ _ _ _ _ (loggedIDs_perm _) (loggedIDs_perm _) I8).
  - rewrite <- Bn. apply (side_patches sameNode n_Properties _ _ _ _ I4); [done|done|]. intros id Hu. destruct (Sn id) as (n & _ & _ & _ & _ & _ & Hk); [by apply elem_of_loggedIDs|done].
  - rewrite <- Be. apply (side_patches sameEdge e_Properties _ _ _ _ I5); [done|done|]. intros id Hu. destruct (Se id) as (n & _ & _ & _ & _ & _ & Hk); [by apply elem_of_loggedIDs|done].
  - by apply metadata_changes.
  - apply no_index_changes.
  - apply no_index_changes.
  - exact (stream_changes _ _ I2).
Qed.

(** The size of a snapshot after the commit is what counting its graph gives. *)
Lemma commit_sized e tx : engineOK e -> started e tx ->
  Forall (storableNode (gd_NodePropertyKeys (commitDelta tx)) (nodesOf tx)) (elems (loggedIDs (sd_upserts (w_nodes tx)))) ->
  Forall (storableEdge (gd_EdgePropertyKeys (commitDelta tx)) (edgesOf tx)) (elems (loggedIDs (sd_upserts (w_edges tx)))) ->
  en_SnapshotBytes e = EstimateSnapshotBytes (graphOfEngine e) -> weighGraph (graphOfEngine e) + weighGraph (persistedGraph e tx) <= max_uint64 ->
  checkSize e tx = if en_maxDatabaseSnapshotBytes e <? EstimateSnapshotBytes (persistedGraph e tx) then inr (errResourceLimit "database snapshot"%string) else inl (EstimateSnapshotBytes (persistedGraph e tx)).
Proof.
  intros He Hst Sn Se Hsize Hfit. pose proof (ti_streams _ _ (proj1 Hst)) as Hr. unfold checkSize. rewrite Hsize, (apply_exact (graphOfEngine e)); [done|by apply commit_changes| |done].
  intros Hf. pose proof (records_silent _ _ Hr (records_flag _ _ Hr Hf)) as Ec. change (g_Streams (persistedGraph e tx)) with (tx_Streams (w_call tx)). by rewrite Ec.
Qed.

(** ** The change stream *)

(** Labels, edge types and property keys that fit in a change record. *)
Definition namesFit (g : graphState) : Prop :=
  map_Forall (fun _ n => Forall (fun label => nlen label <= maxNameBytes) (elems (n_Labels n)) /\ Forall (fun kv => nlen kv.1 <= maxNameBytes) (PAll (n_Properties n))) (g_Nodes g) /\
  map_Forall (fun _ r => nlen (e_Type r) <= maxNameBytes /\ Forall (fun kv => nlen kv.1 <= maxNameBytes) (PAll (e_Properties r))) (g_Edges g).

Lemma entity_small id : ValidateEntityID id = None -> id < 2 ^ 64.
Proof. unfold ValidateEntityID. destruct (_ || _) eqn:E; [done|]. intros _. apply orb_false_iff in E as [_ E%N.ltb_ge]. unfold MaxEntityID in E. lia. Qed.

Lemma labels_utf8 labels : forall seen, validateLabels seen labels = None -> Forall (fun label => utf8Valid label = true) labels.
Proof.
  induction labels as [|label labels IH]; intros seen; cbn [validateLabels]; [done|]. case_bool_decide; [done|]. destruct (utf8Valid label) eqn:E; [|done]. cbn [negb].
  case_bool_decide; [done|]. intros Hl. constructor; [done|by eapply IH].
Qed.

Lemma properties_fit p : PropertyPatch.storable p -> Forall (fun kv => nlen kv.1 <= maxNameBytes) (PAll p) -> propertiesFit p.
Proof.
  intros Hs Hk. split; [done|]. destruct Hs as (_ & _ & Hok). unfold propsOK in Hok. apply andb_true_iff in Hok as [[Hu _]%andb_true_iff _]. apply okV_entries in Hu as [Hu _].
  rewrite Forall_forall in Hk, Hu |- *. intros kv Hkv. split; [by apply Hu|by apply Hk].
Qed.

Lemma graph_fits g nn ne : wfGraph g nn ne -> namesFit g -> viewFits (mkView (g_Nodes g) (g_Edges g)) /\ sortedView (mkView (g_Nodes g) (g_Edges g)).
Proof.
  intros [W1 W2 W3 _ _ _ _ _ _ _ _] [Fn Fe]. split; split; cbn [v_Nodes v_Edges].
  - intros id n Hn. destruct (W1 id n Hn) as (Eid & Hv & Hl & Hs & _), (Fn id n Hn) as [F1 F2]. split_and!; [rewrite Eid; by apply entity_small| |by apply properties_fit].
    apply labels_utf8 in Hl. rewrite Forall_forall in F1, Hl |- *. intros label Hin. split; [by apply Hl|by apply F1].
  - intros id r Hr. destruct (W2 id r Hr) as (Eid & Hv & Ht & Hs & _), (Fe id r Hr) as [F1 F2], (W3 id r Hr) as [[n1 E1] [n2 E2]]. split_and!.
    + rewrite Eid. by apply entity_small.
    + apply entity_small, (W1 _ n1 E1).
    + apply entity_small, (W1 _ n2 E2).
    + split; [|done]. unfold ValidateEdgeType in Ht. case_bool_decide; [done|]. by destruct (utf8Valid (e_Type r)).
    + by apply properties_fit.
  - intros id. destruct (g_Nodes g !! id) as [n|] eqn:En; [|done]. destruct (W1 id n En) as (_ & _ & _ & ((Hs & _) & _) & _). exact Hs.
  - intros id. destruct (g_Edges g !! id) as [r|] eqn:Er; [|done]. destruct (W2 id r Er) as (_ & _ & _ & ((Hs & _) & _) & _). exact Hs.
Qed.

(** A transaction that has published its changes is where it was, but for the streams. *)
Lemma changefeed_shape e tx tx' err : withChangefeed e tx = (err, tx') -> exists call, tx' = withCall tx call.
Proof. unfold withChangefeed. destruct (appendChangefeed _ _ _ _ _) as [err' call]. intros [= _ <-]. by eexists. Qed.

Lemma changefeed_started e tx tx' bn be : engineOK e -> started e tx -> wfGraph (graphOfEngine e) bn be -> wfGraph (persistedGraph e tx) (db_nextNodeID (w_db tx)) (db_nextEdgeID (w_db tx)) ->
  namesFit (graphOfEngine e) -> namesFit (persistedGraph e tx) -> withChangefeed e tx = (None, tx') -> nlen (streamOperations (w_call tx')) < 2 ^ 64 -> started e tx'.
Proof.
  intros He Hst Wb Wg Nb Ng. unfold withChangefeed. destruct (appendChangefeed _ _ _ _ _) as [[err|] call] eqn:Ea; [done|]. intros [= <-] Hops.
  destruct (started_base e tx He Hst) as (Bn & Be & _). destruct Hst as [Hi Hs].
  assert (Ev : baseView tx = mkView (g_Nodes (graphOfEngine e)) (g_Edges (graphOfEngine e))) by (rewrite <- Bn, <- Be; done).
  rewrite Ev in Ea. destruct (graph_fits _ _ _ Wb Nb) as [Fb Sb], (graph_fits _ _ _ Wg Ng) as [Fg Sg].
  pose proof Hi as [I1 I2 I3 I4 I5 I6 I7 I8 I9 I10]. destruct (wg_streams _ _ _ Wb) as (a & Ha & Hsa). destruct (records_both _ _ a _ Ha Ha Hsa I2) as (a' & _ & [T1 T2 _] & _).
  assert (Hr : records (en_Streams e) call).
  { eapply (appendChangefeed_records (changesOf tx) _ (liveView tx) (en_changefeedMaxBytes e)); [exact Fb|exact Fg| |exact Sb|exact Sg|exact I2| |exact Ea|exact Hops].
    - cbn [changesOf deleteNodes deleteEdges]. intros id [Hid|Hid].
      + destruct (so_deletes _ _ _ _ I4 id Hid) as [Hb _]. apply (base_contents _ _ _ _ _ I4) in Hb as [n Hn]. rewrite Bn in Hn. apply entity_small, (wg_nodes _ _ _ Wb id n Hn).
      + destruct (so_deletes _ _ _ _ I5 id Hid) as [Hb _]. apply (base_contents _ _ _ _ _ I5) in Hb as [r Hrr]. rewrite Be in Hrr. apply entity_small, (wg_edges _ _ _ Wb id r Hrr).
    - rewrite (NextSequence_abs _ a' _ T1). pose proof (anext_bounded a' changeStreamName T2). unfold max_uint64. lia. }
  split; [|by destruct Hs]. destruct I10. split; try done. cbn. by apply (records_writable (en_Streams e)).
Qed.

(** ** What is left in the engine *)

Lemma install_ok e tx commitID size w o : txInv o tx -> en_readOnly e = false -> engineOK (install e tx commitID size w) /\ graphOfEngine (install e tx commitID size w) = persistedGraph e tx.
Proof.
  intros Hi Hro. split; [|done]. pose proof (inv_withBudget _ _ None (statement_fork_inv o tx (mkQueryBudget 0 0 0 0) Hi)) as Hf. unfold engineOK.
  replace (CloneGraphStateShallow (install e tx commitID size w)) with (withBudget (forkStatement tx (mkQueryBudget 0 0 0 0)) None); [exact Hf|].
  pose proof (ti_open _ _ Hi) as Ho. unfold ensureWritable in Ho. unfold CloneGraphStateShallow, install, forkStatement, withBudget. cbn. rewrite Hro.
  destruct (tx_closed _); [done|]. destruct (tx_readOnly _); [done|]. by destruct (tx_dbReadOnly _).
Qed.

Lemma kept_contents {A} `{Entity A} h t n start (s s' : side A) : tableOK h t n -> start = length h -> sd_heap s = h -> frozen start s s' -> contents (sd_heap s') (refs t) = contents h (refs t).
Proof. intros Ht -> Eh Hf. apply contents_heap. intros id l Hl. rewrite (frozen_lookup _ _ _ _ Hf); [by rewrite Eh|]. by eapply table_lt. Qed.

Lemma abandon_ok e tx : engineOK e -> started e tx -> engineOK (abandon e tx) /\ graphOfEngine (abandon e tx) = graphOfEngine e.
Proof.
  intros He Hst. destruct (started_base e tx He Hst) as (_ & _ & Tn & Te & Tf). destruct Hst as [Hi [K1 K2 K3 [K4 K5] _ _ _]].
  pose proof He as [I1 I2 I3 I4 I5 I6 I7 I8 I9 [D1 D2 D3 D4 D5 D6]]. pose proof Hi as [J1 J2 J3 J4 J5 J6 J7 J8 J9 _]. destruct (edge_bound (CloneGraphStateShallow e) I3) as [P0 _].
  assert (Cn : contents (sd_heap (w_nodes tx)) (refs (en_Nodes e)) = contents (en_nodeHeap e) (refs (en_Nodes e))) by (exact (kept_contents _ _ _ _ _ _ (so_live _ _ _ _ I4) eq_refl eq_refl K1)).
  assert (Ce : contents (sd_heap (w_edges tx)) (refs (en_Edges e)) = contents (en_edgeHeap e) (refs (en_Edges e))) by (exact (kept_contents _ _ _ _ _ _ (so_live _ _ _ _ I5) eq_refl eq_refl K2)).
  assert (Sn : sideOK (length (sd_heap (w_nodes tx))) (mkSide (sd_heap (w_nodes tx)) (en_Nodes e) (en_Nodes e) ∅ ∅ ∅) (db_nextNodeID (w_db tx)) (db_nextNodeID (w_db tx))).
  { apply fresh_side. eapply tableOK_weaken; [rewrite <- Tn; apply (so_base _ _ _ _ J4)|apply (so_grow _ _ _ _ J4)]. }
  assert (Se : sideOK (length (sd_heap (w_edges tx))) (mkSide (sd_heap (w_edges tx)) (en_Edges e) (en_Edges e) ∅ ∅ ∅) (db_nextEdgeID (w_db tx)) (db_nextEdgeID (w_db tx))).
  { apply fresh_side. eapply tableOK_weaken; [rewrite <- Te; apply (so_base _ _ _ _ J5)|apply (so_grow _ _ _ _ J5)]. }
  assert (En : nodesOf (CloneGraphStateShallow (abandon e tx)) = nodesOf (CloneGraphStateShallow e)) by exact Cn.
  assert (Ee : edgesOf (CloneGraphStateShallow (abandon e tx)) = edgesOf (CloneGraphStateShallow e)) by exact Ce.
  split; [|unfold graphOfEngine, persistedGraph; f_equal; [exact Cn|exact Ce]].
  split; try done; rewrite ?En; try done.
  - change (baseOf (w_nodes (CloneGraphStateShallow (abandon e tx)))) with (nodesOf (CloneGraphStateShallow (abandon e tx))). rewrite En. exact I7.
  - split; rewrite ?En, ?Ee; try done; by eapply adjacency_grow.
Qed.
End engine.
