(* ===== verification/IDTheorems.v ===== *)
(** * Identifiers are handed out once

    Across transactions that are lost, reservations that fail with the file written or
    not, and databases that are closed or crash and are opened again. *)
From S2P Require Import Prelude.
From S2P Require Import GoBytes.
From S2P Require Import BinaryCodec.
From S2P Require Import PageRecords.
From S2P Require Import GraphTx.
From S2P Require Import GraphEngine.

(** What happens to the identifiers: one is asked for, or the database is opened again
    on a graph with some marks. *)
Inductive idEvent := AllocateNode (fault : reserveFault) | AllocateEdge (fault : reserveFault) | Open (nextNodeID nextEdgeID : N).

Record idHistory := mkIDs { ih_db : Database; ih_nodes : list N; ih_edges : list N }.

Definition handedOut (ids : list N) (r : N + error) : list N := match r with inl id => ids ++ [id] | inr _ => ids end.

Definition idStep (h : idHistory) (ev : idEvent) : idHistory :=
  match ev with
  | AllocateNode fault => let '(r, db) := allocateNodeID fault (ih_db h) in mkIDs db (handedOut (ih_nodes h) r) (ih_edges h)
  | AllocateEdge fault => let '(r, db) := allocateEdgeID fault (ih_db h) in mkIDs db (ih_nodes h) (handedOut (ih_edges h) r)
  | Open nextNodeID nextEdgeID => mkIDs (openIDs (ih_db h) nextNodeID nextEdgeID) (ih_nodes h) (ih_edges h)
  end.

(** One kind of identifier: those handed out increase, and all are behind the next one and
    behind the reservation, which the disk holds. *)
Record idsBehind (ids : list N) (next reserved disk : N) : Prop := mkBehind {
  ib_sorted : StronglySorted N.lt ids;
  ib_next : Forall (fun id => id < next) ids;
  ib_reserved : Forall (fun id => id < reserved) ids;
  ib_disk : reserved <= disk }.

Lemma sorted_last (l : list N) x : StronglySorted N.lt l -> Forall (fun y => y < x) l -> StronglySorted N.lt (l ++ [x]).
Proof.
  induction l as [|y l IH]; intros Hs Hf; [repeat constructor|]. apply StronglySorted_inv in Hs as [Hs Hy]. apply Forall_cons in Hf as [Hyx Hf].
  cbn. constructor; [by apply IH|]. apply Forall_app. split; [done|]. by apply Forall_singleton.
Qed.

Lemma behind_next ids next reserved disk reserved' disk' : idsBehind ids next reserved disk -> next < reserved' -> reserved' <= disk' -> idsBehind (ids ++ [next]) (next + 1) reserved' disk'.
Proof.
  intros [S1 S2 S3 S4] Hr Hd. split; [by apply sorted_last| | |done]; (apply Forall_app; split; [eapply Forall_impl; [exact S2|]; intros id Hid; cbn in *; lia|apply Forall_singleton; lia]).
Qed.
Lemma behind_disk ids next reserved disk disk' : idsBehind ids next reserved disk -> reserved <= disk' -> idsBehind ids next reserved disk'.
Proof. intros [S1 S2 S3 S4] Hd. by split. Qed.
Lemma behind_open ids next reserved disk n : idsBehind ids next reserved disk -> idsBehind ids (N.max n disk) disk disk.
Proof. intros [S1 S2 S3 S4]. split; [done| | |done]; (eapply Forall_impl; [exact S3|]; intros id Hid; cbn in *; lia). Qed.

Lemma block_beyond next : next < EntityIDExhausted -> next < reserveIDBlock next.
Proof. unfold reserveIDBlock, idReservationBlock. intros Hn. destruct (N.leb_spec (MaxEntityID - 1024) next); lia. Qed.

Record historyOK (h : idHistory) : Prop := mkHistoryOK {
  ho_memory : db_memory (ih_db h) = false;
  ho_nodes : idsBehind (ih_nodes h) (db_nextNodeID (ih_db h)) (db_reservedNodeID (ih_db h)) (db_diskNodeID (ih_db h));
  ho_edges : idsBehind (ih_edges h) (db_nextEdgeID (ih_db h)) (db_reservedEdgeID (ih_db h)) (db_diskEdgeID (ih_db h)) }.

Lemma node_step h fault : historyOK h -> historyOK (idStep h (AllocateNode fault)).
Proof.
  intros [Hm Hn He]. cbn [idStep]. unfold allocateNodeID. destruct (N.leb_spec EntityIDExhausted (db_nextNodeID (ih_db h))) as [Hx|Hx]; [by split|].
  destruct (N.ltb_spec (db_nextNodeID (ih_db h)) (db_reservedNodeID (ih_db h))) as [Hlt|Hge].
  - split; cbn [ih_db ih_nodes ih_edges handedOut withNodeIDs db_memory db_nextNodeID db_reservedNodeID db_diskNodeID]; [done| |done]. eapply behind_next; [exact Hn|done|apply (ib_disk _ _ _ _ Hn)].
  - pose proof (block_beyond _ Hx) as Hb. unfold reserveIDsToDisk. rewrite Hm. destruct fault as [[err [|]]|]; (split; [done| |]); cbn in *; try done.
    + eapply behind_disk; [exact Hn|lia].
    + eapply behind_disk; [exact He|lia].
    + by eapply behind_next.
    + eapply behind_disk; [exact He|lia].
Qed.

Lemma edge_step h fault : historyOK h -> historyOK (idStep h (AllocateEdge fault)).
Proof.
  intros [Hm Hn He]. cbn [idStep]. unfold allocateEdgeID. destruct (N.leb_spec EntityIDExhausted (db_nextEdgeID (ih_db h))) as [Hx|Hx]; [by split|].
  destruct (N.ltb_spec (db_nextEdgeID (ih_db h)) (db_reservedEdgeID (ih_db h))) as [Hlt|Hge].
  - split; cbn [ih_db ih_nodes ih_edges handedOut withEdgeIDs db_memory db_nextEdgeID db_reservedEdgeID db_diskEdgeID]; [done|done|]. eapply behind_next; [exact He|done|apply (ib_disk _ _ _ _ He)].
  - pose proof (block_beyond _ Hx) as Hb. unfold reserveIDsToDisk. rewrite Hm. destruct fault as [[err [|]]|]; (split; [done| |]); cbn in *; try done.
    + eapply behind_disk; [exact Hn|lia].
    + eapply behind_disk; [exact He|lia].
    + eapply behind_disk; [exact Hn|lia].
    + by eapply behind_next.
Qed.

Lemma id_step h ev : historyOK h -> historyOK (idStep h ev).
Proof.
  intros Hh. destruct ev as [fault|fault|n e]; [by apply node_step|by apply edge_step|]. destruct Hh as [Hm Hn He]. split; [done| |]; cbn; by eapply behind_open.
Qed.

Lemma id_steps evs : forall h, historyOK h -> historyOK (foldl idStep h evs).
Proof. induction evs as [|ev evs IH]; intros h Hh; [done|]. by apply IH, id_step. Qed.

(** C11. No identifier is handed out twice: over any sequence of allocations, reservations
    that fail with the file written or not, and openings of a database on disk on whatever
    graph was recovered, the identifiers of nodes, and those of edges, only increase. *)
Theorem ids_handed_out_once db evs : db_memory db = false -> db_reservedNodeID db <= db_diskNodeID db -> db_reservedEdgeID db <= db_diskEdgeID db ->
  let h := foldl idStep (mkIDs db [] []) evs in StronglySorted N.lt (ih_nodes h) /\ StronglySorted N.lt (ih_edges h).
Proof.
  intros Hm Hn He h. assert (Hh : historyOK h) by (apply id_steps; by split; [|split; [constructor|apply Forall_nil_2|apply Forall_nil_2|]..]).
  split; [apply (ib_sorted _ _ _ _ (ho_nodes _ Hh))|apply (ib_sorted _ _ _ _ (ho_edges _ Hh))].
Qed.

Definition freshDatabase : Database := mkDatabase false false 0 1000 1000 1 0 1 0 false 0 0.
Definition someFault : reserveFault := Some (ErrEOF, true).

Lemma ids_handed_out_once_witness :
  let h := foldl idStep (mkIDs freshDatabase [] []) [AllocateNode None; AllocateNode None; AllocateEdge someFault; Open 1 1; AllocateNode None; AllocateEdge None] in
  ih_nodes h = [1; 2; 1025] /\ ih_edges h = [1025] /\ StronglySorted N.lt (ih_nodes h) /\ StronglySorted N.lt (ih_edges h).
Proof.
  split; [vm_compute; reflexivity|]. split; [vm_compute; reflexivity|].
  apply (ids_handed_out_once freshDatabase [AllocateNode None; AllocateNode None; AllocateEdge someFault; Open 1 1; AllocateNode None; AllocateEdge None]); vm_compute; congruence.
Defined.
