(* ===== verification/TransactionTheorems.v ===== *)
(** * Theorems on write transactions

    A transaction is started on an engine and makes calls, in any order, some of which
    fail; then it commits, or not. What every call does to the graph, that calls and
    statements are atomic, and that the log of a session recovers its last commit. *)
From S2P Require Import Prelude.
From S2P Require Import GoBytes.
From S2P Require Import BinaryCodec.
From S2P Require Import BinaryValue.
From S2P Require Import BinaryRecords.
From S2P Require Import GoMaps.
From S2P Require Import Values.
From S2P Require Import ValuesSpec.
From S2P Require Import Properties.
From S2P Require Import PageRecords.
From S2P Require Import Streams.
From S2P Require Import StreamStoreSpec.
From S2P Require Import StreamPersist.
From S2P Require Import StreamPersistSpec.
From S2P Require Import StreamTx.
From S2P Require Import StreamTxSpec.
From S2P Require Import PropertyDelta.
From S2P Require Import WalAccumulator.
From S2P Require Import WalInvariant.
From S2P Require Import WalFrames.
From S2P Require Import WalFramesSpec.
From S2P Require Import GraphPersist.
From S2P Require Import GraphChanges.
From S2P Require Import SnapshotSize.
From S2P Require Import Adjacency.
From S2P Require Import AdjacencySpec.
From S2P Require Import StringPostings.
From S2P Require Import IndexUpkeep.
From S2P Require Import IndexTheorems.
From S2P Require Import GraphTx.
From S2P Require Import GraphStatement.
From S2P Require Import GraphSides.
From S2P Require Import GraphTxSpec.
From S2P Require Import GraphTxNodes.
From S2P Require Import GraphTxRemove.
From S2P Require Import GraphStatementSpec.
From S2P Require Import GraphMarks.
From S2P Require Import GraphEngine.
From S2P Require Import GraphEngineSpec.
From S2P Require Import BinaryTheorems.
From S2P Require Import GraphCommit.
From S2P Require Import RecoveryTheorems.
From S2P Require Import GraphTheorems.
From Stdlib Require Strings.String.
Import String.StringSyntax.
#[local] Open Scope go_scope.

(** ** The calls of an application *)

Inductive call :=
  | CallCreateNode (fault : reserveFault) (opts : CreateNodeOptions)
  | CallSetProperty (nodeID : N) (key : gostring) (v : value)
  | CallSetVector (nodeID : N) (key : gostring) (vector : slice N)
  | CallBatchInsertVectors (faults : list reserveFault) (label : gostring) (vectors : list (slice N))
  | CallDeleteNode (nodeID : N)
  | CallCreateEdge (fault : reserveFault) (sourceID targetID : N) (edgeType : gostring) (properties : list (gostring * value))
  | CallSetEdgeProperty (edgeID : N) (key : gostring) (v : value)
  | CallRemoveEdgeProperty (edgeID : N) (key : gostring)
  | CallDeleteEdge (sourceID targetID : N) (edgeType : gostring)
  | CallFTSIndex (nodeID : N) (text : gostring)
  | CallPutAppMetadata (key : gostring) (v : slice byte)
  | CallDeleteAppMetadata (key : gostring)
  | CallStream (op : txOp)
  | CallQuery (execute : act unit) (budget : queryBudget).

(** The clauses of a query that writes; the rows are those that match when the clause
    runs. *)
Inductive clause :=
  | ClauseCreateNode (faults : list reserveFault) (labels : slice gostring) (keys : list gostring) (evaluate : nat -> gostring -> act value) (readBack : nat -> N -> act unit)
      (rows : WriteTx -> nat)
  | ClauseCreate (faults : list reserveFault) (edgeType : gostring) (keys : list gostring) (evaluate : nat -> gostring -> act value) (readBack : nat -> N -> act unit)
      (rows : WriteTx -> list (binding * binding))
  | ClauseSet (refresh : nat -> act unit) (evaluate : nat -> act value) (kind : setKind) (rows : WriteTx -> list binding)
  | ClauseRemove (rows : WriteTx -> list (list (removeItem * binding)))
  | ClauseDelete (detach : bool) (rows : WriteTx -> list binding).

Section transactions.
Context `{MapOrder unit} `{MapOrder (gmap gostring postingList)} `{MapOrder (list N)}.
Context (tokenize : N -> gostring -> list gostring + error).
Implicit Types (e : engine) (tx : WriteTx) (c : call).

Definition runClause (c : clause) : act unit :=
  match c with
  | ClauseCreateNode faults labels keys evaluate readBack rows => let* rows := gets rows in createNodeClause faults labels keys evaluate readBack rows
  | ClauseCreate faults edgeType keys evaluate readBack rows => let* rows := gets rows in createClause faults edgeType keys evaluate readBack rows
  | ClauseSet refresh evaluate kind rows => let* rows := gets rows in setClause refresh evaluate kind rows
  | ClauseRemove rows => let* rows := gets rows in removeClause rows
  | ClauseDelete detach rows => let* rows := gets rows in deleteClause detach rows
  end.

(** Expressions only read and give normalised values, a map has each key once, and the
    nodes bound to a row come from the graph. *)
Definition clauseOK (c : clause) : Prop :=
  match c with
  | ClauseCreateNode _ _ keys evaluate readBack _ | ClauseCreate _ _ keys evaluate readBack _ =>
      NoDup keys /\ (forall i key, readsOnly (normalAt 0) (evaluate i key)) /\ (forall i id, readsOnly (fun _ => True) (readBack i id))
  | ClauseSet refresh evaluate _ _ => (forall i, readsOnly (fun _ => True) (refresh i)) /\ (forall i, readsOnly (normalAt 0) (evaluate i))
  | ClauseRemove _ => True
  | ClauseDelete _ rows => forall o tx, txInv o tx -> Forall (allocated tx) (rows tx)
  end.

Lemma clause_plan (c : clause) : clauseOK c -> plan (runClause c).
Proof.
  intros Hc o tx Hi. destruct c as [faults labels keys evaluate readBack rows|faults ty keys evaluate readBack rows|refresh evaluate kind rows|rows|detach rows]; cbn [runClause clauseOK] in *.
  - apply runs_bind, runs_gets. destruct Hc as (Hk & He & Hr). by apply createNodeClause_keeps.
  - apply runs_bind, runs_gets. destruct Hc as (Hk & He & Hr). by apply createClause_keeps.
  - apply runs_bind, runs_gets. destruct Hc as [Hr He]. by apply setClause_keeps.
  - apply runs_bind, runs_gets. by apply removeClause_keeps.
  - apply runs_bind, runs_gets. apply deleteClause_keeps; [done|by eapply Hc].
Qed.

Lemma clauses_plan cs : Forall clauseOK cs -> plan (forEach runClause cs).
Proof. intros Hcs o tx Hi. apply keeps_each; [|done]. intros c tx' Hc Hi'. apply clause_plan; [|done]. rewrite Forall_forall in Hcs. by apply Hcs. Qed.

Definition runCall c : act unit :=
  match c with
  | CallCreateNode fault opts => CreateNode fault opts ;* aret tt
  | CallSetProperty nodeID key v => SetProperty nodeID key v
  | CallSetVector nodeID key vector => SetVector nodeID key vector
  | CallBatchInsertVectors faults label vectors => BatchInsertVectors faults label vectors ;* aret tt
  | CallDeleteNode nodeID => DeleteNode nodeID
  | CallCreateEdge fault sourceID targetID edgeType properties => CreateEdge fault sourceID targetID edgeType properties ;* aret tt
  | CallSetEdgeProperty edgeID key v => SetEdgeProperty edgeID key v
  | CallRemoveEdgeProperty edgeID key => RemoveEdgeProperty edgeID key
  | CallDeleteEdge sourceID targetID edgeType => DeleteEdge sourceID targetID edgeType
  | CallFTSIndex nodeID text => FTSIndex tokenize nodeID text
  | CallPutAppMetadata key v => PutAppMetadata key v
  | CallDeleteAppMetadata key => DeleteAppMetadata key
  | CallStream op => streamCall op
  | CallQuery execute budget => runStatement execute budget
  end.

(** Arguments that are Go values; a node to remove was allocated at some time; a query is
    a plan. *)
Definition callOK tx c : Prop :=
  match c with
  | CallCreateNode _ opts => wfProperties (no_Properties opts)
  | CallSetProperty _ _ v | CallSetEdgeProperty _ _ v => wfV v
  | CallSetVector _ _ vector => wfV (VVector vector)
  | CallBatchInsertVectors _ _ vectors => Forall (fun v => wfV (VVector v)) vectors
  | CallDeleteNode nodeID => nodeID < db_nextNodeID (w_db tx)
  | CallCreateEdge _ _ _ _ properties => wfProperties properties
  | CallStream op => wfTxOp op
  | CallQuery execute _ => plan execute
  | _ => True
  end.

(** What a call that succeeds makes of the graph. *)
Definition effect tx c (g' : visible) : Prop :=
  let g := graphOf tx in
  match c with
  | CallCreateNode _ opts => exists record, n_ID record = db_nextNodeID (w_db tx) /\ elems (n_Labels record) = elems (no_Labels opts) /\
      NormalizePropertyStorage (no_Properties opts) = inl (n_Properties record) /\ gv_nodes g !! n_ID record = None /\
      g' = viewNodes g (<[n_ID record := record]> (gv_nodes g))
  | CallSetProperty id key v => exists n, is_Some (gv_nodes g !! id) /\ NormalizeValue v = inl n /\ g' = setNode g id key n
  | CallSetVector id key v => exists n, is_Some (gv_nodes g !! id) /\ NormalizeValue (VVector v) = inl n /\ g' = setNode g id key n
  | CallBatchInsertVectors _ label vectors => exists new, vectorNodes label vectors (db_nextNodeID (w_db tx)) (gv_nodes g) new /\
      g' = viewNodes g (addNodes (gv_nodes g) new)
  | CallDeleteNode id => g' = removeNode g id
  | CallCreateEdge _ source target ty props => exists record, e_ID record = db_nextEdgeID (w_db tx) /\ e_SourceID record = source /\ e_TargetID record = target /\ e_Type record = ty /\
      is_Some (gv_nodes g !! source) /\ is_Some (gv_nodes g !! target) /\ NormalizePropertyStorage props = inl (e_Properties record) /\ gv_edges g !! e_ID record = None /\
      g' = viewEdges g (<[e_ID record := record]> (gv_edges g))
  | CallSetEdgeProperty id key v => exists r n, gv_edges g !! id = Some r /\ NormalizeValue v = inl n /\ g' = viewEdges g (<[id := setEdgeProperties (fun p => PSet p key n) r]> (gv_edges g))
  | CallRemoveEdgeProperty id key => exists r, gv_edges g !! id = Some r /\ g' = viewEdges g (<[id := setEdgeProperties (fun p => PDelete p key) r]> (gv_edges g))
  | CallDeleteEdge source target ty => exists id r, gv_edges g !! id = Some r /\ e_SourceID r = source /\ e_TargetID r = target /\ e_Type r = ty /\
      (forall id' r', gv_edges g !! id' = Some r' -> e_SourceID r' = source -> e_TargetID r' = target -> e_Type r' = ty -> id <= id') /\ g' = viewEdges g (delete id (gv_edges g))
  | CallFTSIndex id text => exists tokens, is_Some (gv_nodes g !! id) /\ ValidateFTSText text = None /\
      tokenized tokenize (db_derivedIndexBuildMaxLogicalBytes (w_db tx)) text = inl tokens /\ g' = viewText g (<[id := mkFTS text tokens]> (gv_text g))
  | CallPutAppMetadata key v => g' = viewMetadata g (<[key := v]> (gv_metadata g))
  | CallDeleteAppMetadata key => g' = viewMetadata g (delete key (gv_metadata g))
  | CallStream op => g' = mkVisible (gv_nodes g) (gv_edges g) (gv_text g) (gv_metadata g) (tx_Streams (txStep (w_call tx) op))
  | CallQuery execute budget => exists fork, execute (forkStatement tx budget) = (Done tt, fork) /\ g' = graphOf fork
  end.

Definition isBatch c : bool := match c with CallBatchInsertVectors _ _ _ => true | _ => false end.

(** A point of a transaction: in order, after its start, and outside of any query. *)
Definition at_point e tx : Prop := started e tx /\ w_budget tx = None.

Lemma point_becomes e tx g tx' : at_point e tx -> becomes (engineOrigin e) tx g tx' -> at_point e tx' /\ graphOf tx' = g.
Proof.
  intros [[Hi Hs] Hb] (Hi' & Hs' & Hg). split; [|done]. split; [split; [done|by etransitivity]|]. by apply (sk_budget _ _ _ Hs').
Qed.
Lemma point_rest e tx tx' : at_point e tx -> rest (engineOrigin e) tx tx' -> at_point e tx' /\ graphOf tx' = graphOf tx.
Proof. intros Hp [Hs Hr]. destruct (Hr (proj2 Hp)) as [Hi Hg]. exact (point_becomes e tx _ tx' Hp (conj Hi (conj Hs Hg))). Qed.
Lemma point_grows e tx tx' : at_point e tx -> grows (engineOrigin e) tx tx' -> at_point e tx'.
Proof. intros [[Hi Hs] Hb] [Hs' Hr]. split; [split; [by apply Hr|by etransitivity]|]. by apply (sk_budget _ _ _ Hs'). Qed.

(** A call by what it is known to do. *)
Lemma call_becomes {A} e tx (m : act A) (P : visible -> Prop) : at_point e tx ->
  runs m tx (fun _ tx' => exists g, becomes (engineOrigin e) tx g tx' /\ P g) (rest (engineOrigin e) tx) ->
  runs (m ;* aret tt) tx (fun _ tx' => at_point e tx' /\ P (graphOf tx')) (fun tx' => at_point e tx' /\ graphOf tx' = graphOf tx).
Proof.
  intros Hp Hm. apply runs_bind. eapply runs_weaken; [exact Hm| |intros tx' Hr; by apply point_rest].
  intros x tx' (g & Hb & HP). apply runs_ret. by destruct (point_becomes _ _ _ _ Hp Hb) as [Hp' ->].
Qed.
Lemma call_done e tx (m : act unit) (P : visible -> Prop) : at_point e tx ->
  runs m tx (fun _ tx' => exists g, becomes (engineOrigin e) tx g tx' /\ P g) (rest (engineOrigin e) tx) ->
  runs m tx (fun _ tx' => at_point e tx' /\ P (graphOf tx')) (fun tx' => at_point e tx' /\ graphOf tx' = graphOf tx).
Proof.
  intros Hp Hm. eapply runs_weaken; [exact Hm| |intros tx' Hr; by apply point_rest]. intros x tx' (g & Hb & HP). by destruct (point_becomes _ _ _ _ Hp Hb) as [Hp' ->].
Qed.

Definition unchanged e tx c tx' : Prop := at_point e tx' /\ (isBatch c = false -> graphOf tx' = graphOf tx).

Ltac call_step lemma := eapply runs_weaken; [apply call_done; [eassumption|eapply runs_weaken; [apply lemma; eassumption| |done]]|intros ? ? Hx; exact Hx|by intros ? [? ?]].
Ltac value_step lemma := eapply runs_weaken; [apply call_becomes; [eassumption|eapply runs_weaken; [apply lemma; eassumption| |done]]|intros ? ? Hx; exact Hx|by intros ? [? ?]].

Lemma runCall_ok e tx c : at_point e tx -> callOK tx c -> runs (runCall c) tx (fun _ tx' => at_point e tx' /\ effect tx c (graphOf tx')) (unchanged e tx c).
Proof.
  intros Hp Hc. pose proof Hp as [[Hi Hs] Hb]. unfold unchanged. destruct c as [fault opts|id key v|id key v|faults label vectors|id|fault source target ty props|id key v|id key|source target ty|id text|key v|key|op|execute budget];
    cbn [runCall callOK isBatch] in *.
  - value_step CreateNode_ok. intros v tx' (record & _ & E1 & E2 & E3 & E4 & Hbec). eexists. split; [exact Hbec|]. by exists record.
  - call_step SetProperty_ok. intros u tx' (r & n & Hr & En & Hbec). eexists. split; [exact Hbec|]. exists n. split_and!; [by eexists|done|done].
  - call_step SetVector_ok. intros u tx' (r & n & Hr & En & Hbec). eexists. split; [exact Hbec|]. exists n. split_and!; [by eexists|done|done].
  - apply runs_bind. eapply runs_weaken; [by apply BatchInsertVectors_ok| |intros tx' Hg; split; [by eapply point_grows|done]].
    intros ids tx' (new & _ & Hnew & Hbec). apply runs_ret. destruct (point_becomes _ _ _ _ Hp Hbec) as [Hp' ->]. split; [done|]. by exists new.
  - call_step DeleteNode_ok. intros u tx' Hbec. eexists. split; [exact Hbec|done].
  - value_step CreateEdge_ok. intros v tx' (record & _ & E1 & E2 & E3 & E4 & E5 & E6 & E7 & E8 & Hbec). eexists. split; [exact Hbec|]. by exists record.
  - call_step SetEdgeProperty_ok. intros u tx' (r & n & Hr & En & Hbec). eexists. split; [exact Hbec|]. by exists r, n.
  - call_step RemoveEdgeProperty_ok. intros u tx' (r & Hr & Hbec). eexists. split; [exact Hbec|]. by exists r.
  - call_step DeleteEdge_ok. intros u tx' (id & r & H1' & H2' & H3' & H4' & H5' & Hbec). eexists. split; [exact Hbec|]. exists id, r. by split_and!.
  - call_step FTSIndex_ok. intros u tx' (tokens & H1' & H2' & H3' & Hbec). eexists. split; [exact Hbec|]. by exists tokens.
  - call_step PutAppMetadata_ok. intros u tx' Hbec. eexists. split; [exact Hbec|done].
  - call_step DeleteAppMetadata_ok. intros u tx' Hbec. eexists. split; [exact Hbec|done].
  - call_step streamCall_ok. intros u tx' Hbec. eexists. split; [exact Hbec|done].
  - eapply runs_weaken; [by apply (runStatement_ok (engineOrigin e))| |].
    + intros [] tx' (fork & Ef & Hbec). destruct (point_becomes _ _ _ _ Hp Hbec) as [Hp' ->]. split; [done|]. by exists fork.
    + intros tx' Hbec. destruct (point_becomes _ _ _ _ Hp Hbec) as [Hp' ->]. done.
Qed.

(** ** Transactions *)

(** The points of a transaction: it starts, and makes calls, whether they succeed or not. *)
Inductive reached e : WriteTx -> Prop :=
  | reached_start : reached e (CloneGraphStateShallow e)
  | reached_call tx c : reached e tx -> callOK tx c -> reached e (runCall c tx).2.

Lemma reached_point e tx : engineOK e -> reached e tx -> at_point e tx.
Proof.
  intros He. induction 1 as [|tx c _ IH Hc]; [by split|]. pose proof (runCall_ok e tx c IH Hc) as Hr. unfold runs in Hr. destruct (runCall c tx) as [[u|err|] tx']; [apply Hr|apply Hr|done].
Qed.

(** C3. At every point of a transaction the graph is in order: records under their own
    identifiers with sorted, normalised properties, edges and text of nodes that exist,
    adjacency lists and postings that agree with the records, and marks and tracked keys
    that say exactly how it differs from the graph it started from. No call panics. The
    calls are those of [callOK]: their arguments are Go values and a query is a plan, and
    a node that is removed has an identifier that was handed out at some time; removing
    one that was not hides the node that gets the identifier later. *)
Theorem transaction_in_order e tx c : engineOK e -> reached e tx -> callOK tx c -> txInv (engineOrigin e) tx /\ (runCall c tx).1 <> Panicked.
Proof.
  intros He Hr Hc. pose proof (reached_point e tx He Hr) as Hp. split; [apply Hp|]. pose proof (runCall_ok e tx c Hp Hc) as Ho. unfold runs in Ho. by destruct (runCall c tx) as [[] ?].
Qed.

(** C2. A call that succeeds does to the graph what it says and nothing else: [effect]
    gives the whole graph after each of the fourteen calls. The calls are those of
    [callOK]. *)
Theorem call_refines e tx c tx' : engineOK e -> reached e tx -> callOK tx c -> runCall c tx = (Done tt, tx') -> effect tx c (graphOf tx').
Proof. intros He Hr Hc Ec. pose proof (runCall_ok e tx c (reached_point e tx He Hr) Hc) as Ho. unfold runs in Ho. rewrite Ec in Ho. apply Ho. Qed.

(** C4. A call that fails leaves the graph as it was, whatever the step it failed at:
    nothing is half written. A batch of vectors is the exception, and keeps the nodes it
    made before the failure. *)
Theorem failed_call_unchanged e tx c err tx' : engineOK e -> reached e tx -> callOK tx c -> isBatch c = false -> runCall c tx = (Failed err, tx') -> graphOf tx' = graphOf tx.
Proof. intros He Hr Hc Hb Ec. pose proof (runCall_ok e tx c (reached_point e tx He Hr) Hc) as Ho. unfold runs in Ho. rewrite Ec in Ho. by apply Ho. Qed.

(** C6. Isolation: whatever a transaction does, the records, tables and text of the graph
    it started from, which readers hold, are not touched. *)
Theorem readers_isolated e tx : engineOK e -> reached e tx ->
  take (length (en_nodeHeap e)) (sd_heap (w_nodes tx)) = en_nodeHeap e /\ take (length (en_edgeHeap e)) (sd_heap (w_edges tx)) = en_edgeHeap e /\
  sd_base (w_nodes tx) = en_Nodes e /\ sd_base (w_edges tx) = en_Edges e /\ w_ftsBase tx = en_FTS e /\ graphOfEngine (abandon e tx) = graphOfEngine e.
Proof.
  intros He Hr. destruct (reached_point e tx He Hr) as [Hst _]. destruct (started_base e tx He Hst) as (_ & _ & B1 & B2 & B3). destruct (abandon_ok e tx He Hst) as [_ Eg].
  destruct Hst as [_ [(F1 & _ & _) (F2 & _ & _) _ _ _ _ _]]. cbn [engineOrigin o_nodes o_edges CloneGraphStateShallow w_nodes w_edges sd_heap] in F1, F2. rewrite firstn_all in F1, F2. done.
Qed.

(** C5. A query is atomic: its clauses work on a fork, and the transaction gets all of
    the fork's graph or, when one of them fails, nothing: neither its graph nor what it
    would log changes. *)
Theorem query_atomic e tx cs budget : engineOK e -> reached e tx -> Forall clauseOK cs ->
  match runStatement (forEach runClause cs) budget tx with
  | (Done x, tx') => exists fork, forEach runClause cs (forkStatement tx budget) = (Done x, fork) /\ graphOf tx' = graphOf fork
  | (Failed _, tx') => graphOf tx' = graphOf tx /\ commitDelta tx' = commitDelta tx
  | (Panicked, _) => False
  end.
Proof.
  intros He Hr Hcs. destruct (reached_point e tx He Hr) as [[Hi _] _]. pose proof (runStatement_ok (engineOrigin e) (forEach runClause cs) budget tx Hi (clauses_plan cs Hcs)) as Ho. unfold runs in Ho.
  destruct (runStatement (forEach runClause cs) budget tx) as [[x|err|] tx'] eqn:Es; [|split; [apply Ho|]|done].
  - destruct Ho as (fork & Ef & _ & _ & Hg). eauto.
  - unfold runStatement in Es. rewrite (ti_open _ _ Hi) in Es. destruct (forEach runClause cs (forkStatement tx budget)) as [[x|err'|] fork]; simplify_eq. done.
Qed.

Context (generateID : gostring + error) (maxCanonicalBytes : N).

(** ** Deleting ahead of the allocation *)

(** A query made of clauses. *)
Definition ofClauses c : Prop := match c with CallQuery execute _ => exists cs, Forall clauseOK cs /\ execute = forEach runClause cs | _ => True end.

Lemma marks_clause (c : clause) : clauseOK c -> keepsMarks (runClause c).
Proof.
  destruct c as [faults labels keys evaluate readBack rows|faults ty keys evaluate readBack rows|refresh evaluate kind rows|rows|detach rows]; cbn [runClause clauseOK]; intros Hc;
    (apply marks_bind; [apply marks_gets|]); intros r.
  - destruct Hc as (_ & He & Hr). apply marks_createNodeClause; intros; by eapply marks_readsOnly.
  - destruct Hc as (_ & He & Hr). apply marks_createClause; intros; by eapply marks_readsOnly.
  - destruct Hc as [Hr He]. apply marks_setClause; intros; by eapply marks_readsOnly.
  - apply marks_removeClause.
  - apply marks_deleteClause.
Qed.

Lemma marks_clauses cs : Forall clauseOK cs -> keepsMarks (forEach runClause cs).
Proof. induction 1 as [|c cs Hc _ IH]; cbn [forEach]; [apply marks_ret|]. apply marks_bind; [by apply marks_clause|done]. Qed.

Lemma marks_call c : ofClauses c -> keepsMarks (runCall c).
Proof.
  destruct c; cbn [runCall ofClauses]; intros Hc; try (apply marks_bind; [|intros ?; apply marks_ret]).
  all: try first [apply marks_CreateNode|apply marks_SetProperty|apply marks_SetVector|apply marks_BatchInsertVectors|apply marks_DeleteNode|apply marks_CreateEdge|apply marks_SetEdgeProperty
    |apply marks_RemoveEdgeProperty|apply marks_DeleteEdge|apply marks_FTSIndex|apply marks_PutAppMetadata|apply marks_DeleteAppMetadata|apply marks_streamCall].
  destruct Hc as (cs & Hcs & ->). apply marks_runStatement. by apply marks_clauses.
Qed.

(** What comes after a point of a transaction: its other calls, its commit, and the
    transactions that are started on what it committed. *)
Inductive later tx : WriteTx -> Prop :=
  | later_here : later tx tx
  | later_call tx' c : later tx tx' -> ofClauses c -> later tx (runCall c tx').2
  | later_commit tx' r fs e base e' : later tx tx' -> tx_readOnly (w_call tx') = false -> commitInternal generateID r fs e base tx' = (None, e') -> later tx (CloneGraphStateShallow e').

Lemma commit_marks r fs e base tx e' id : tx_readOnly (w_call tx) = false -> commitInternal generateID r fs e base tx = (None, e') -> marked id tx -> marked id (CloneGraphStateShallow e').
Proof.
  intros Hro Hc Hm. unfold commitInternal in Hc. destruct (tx_closed _); [done|]. rewrite Hro in Hc. destruct (commitChecks _ _ _ _); [done|]. destruct (withChangefeed e tx) as [[err|] tx'] eqn:Ef; [done|].
  destruct (changefeed_shape e tx tx' None Ef) as [call ->]. destruct (checkSize _ _); [|done]. destruct (db_memory _); [by injection Hc as <-|].
  destruct (AppendDelta _ _ _ _ _ _ _ _) as [[err|] w]; [done|]. by injection Hc as <-.
Qed.

Lemma later_marked tx tx' id : later tx tx' -> marked id tx -> marked id tx'.
Proof. induction 1 as [|tx' c _ IH Hc|tx' r fs e base e' _ IH Hro Hc]; intros Hm; [done|by apply marks_call, IH|by eapply commit_marks, IH]. Qed.

(** C39. Deleting a node with any identifier that was not handed out yet succeeds at any
    point of a transaction: the graph stays as it was, but a mark is left that no later
    call, query of clauses or commit takes off. When [CreateNode] hands the identifier
    out, then or in a later transaction, the record of the node is in the table and will
    be logged, but the node does not exist for the calls: it reads as deleted, and its
    properties cannot be set. *)
Theorem deleted_ahead_hides_node e tx id : engineOK e -> reached e tx -> validateEntityID id = None -> db_nextNodeID (w_db tx) <= id ->
  exists tx1, runCall (CallDeleteNode id) tx = (Done tt, tx1) /\ graphOf tx1 = graphOf tx /\
  forall tx2 fault opts v tx3, later tx1 tx2 -> CreateNode fault opts tx2 = (Done v, tx3) -> pub_ID v = id ->
    is_Some (gv_nodes (graphOf tx3) !! id) /\ id ∈ elems (gd_UpsertNodes (commitDelta tx3)) /\ NodeExists id tx3 = (Done false, tx3) /\
    forall key x, ValidatePropertyKey key = None -> SetProperty id key x tx3 = (Failed (ErrNew "node not found"%string), tx3).
Proof.
  intros He Hr Hv Hid. destruct (reached_point e tx He Hr) as [[Hi _] Hb]. destruct (delete_ahead (engineOrigin e) tx id Hi Hb Hv Hid) as (tx1 & Ed & Hm & Hg).
  exists tx1. split; [done|]. split; [done|]. intros tx2 fault opts v tx3 Hl Ec <-. pose proof (later_marked _ _ _ Hl Hm) as Hm2. pose proof (marks_CreateNode fault opts _ _ Hm2) as Hm3.
  rewrite Ec in Hm3. destruct (CreateNode_done _ _ _ _ _ Ec) as (Hn & Hu & Ho). destruct (marked_calls tx3 _ Hm3 Ho Hv) as [Hx Hs]. split; [exact Hn|]. split; [|by split].
  cbn [commitDelta gd_UpsertNodes]. by apply elem_of_loggedIDs.
Qed.

(** ** Sessions *)

(** The log takes a frame: it is what a commit writes once the changes are published. *)
Definition commitBuilt e tx delta : Prop :=
  buildPersistedDelta generateID (persistedGraph e tx) (db_nextNodeID (w_db tx)) (db_nextEdgeID (w_db tx)) (en_commitID e + 1) (commitDelta tx) = inl (delta, persistedGraph e tx).

(** A commit within the limits of the formats: its frame fits in the log, its names in
    change records, and the operations on streams and the sizes of snapshots can be
    counted in 64 bits. *)
Record commitFits e tx : Prop := mkCommitFits {
  cf_names : namesFit (persistedGraph e tx);
  cf_counted : forall tx', withChangefeed e tx = (None, tx') -> nlen (streamOperations (w_call tx')) < 2 ^ 64;
  cf_sizes : forall tx', withChangefeed e tx = (None, tx') -> weighGraph (graphOfEngine e) + weighGraph (persistedGraph e tx') <= max_uint64;
  cf_frame : forall tx' delta, withChangefeed e tx = (None, tx') -> commitBuilt e tx' delta -> entryOK maxCanonicalBytes (commitEntry (persistedGraph e tx') (en_commitID e + 1) delta) }.

(** What a database on disk goes through: it is opened on a log that holds its graph;
    then transactions commit, fail to commit with the outcome known, or roll back. *)
Inductive session : engine -> Prop :=
  | session_open e nn ne entries : engineOK e -> en_readOnly e = false -> db_memory (en_db e) = false -> namesFit (graphOfEngine e) -> en_SnapshotBytes e = EstimateSnapshotBytes (graphOfEngine e) ->
      logged generateID maxCanonicalBytes (graphOfEngine e) nn ne (en_commitID e) entries (en_wal e) ->
      nn <= db_nextNodeID (en_db e) -> ne <= db_nextEdgeID (en_db e) -> session e
  | session_commit e tx r fs e' : session e -> reached e tx -> commitFits e tx ->
      commitInternal generateID r fs e (en_commitID e) tx = (None, e') -> session e'
  | session_failed e tx r fs err e' : session e -> reached e tx -> commitInternal generateID r fs e (en_commitID e) tx = (Some err, e') ->
      outcomeUnknown (Some err) = false -> session e'
  | session_rollback e tx e' : session e -> reached e tx -> rollbackInternal e tx = (None, e') -> session e'.

(** What holds of it at any time. *)
Definition durable e : Prop := engineOK e /\ en_readOnly e = false /\ db_memory (en_db e) = false /\ (namesFit (graphOfEngine e) /\ en_SnapshotBytes e = EstimateSnapshotBytes (graphOfEngine e)) /\
  exists nn ne entries, nn <= db_nextNodeID (en_db e) /\ ne <= db_nextEdgeID (en_db e) /\ logged generateID maxCanonicalBytes (graphOfEngine e) nn ne (en_commitID e) entries (en_wal e).

Lemma durable_wal e w entries nn ne : durable e -> nn <= db_nextNodeID (en_db e) -> ne <= db_nextEdgeID (en_db e) ->
  logged generateID maxCanonicalBytes (graphOfEngine e) nn ne (en_commitID e) entries w -> durable (withWAL e (en_db e) w).
Proof. intros (D1 & D2 & D3 & D4 & _) Hn He Hl. split_and!; try done; try apply D4. by exists nn, ne, entries. Qed.

Lemma durable_abandon e tx : durable e -> reached e tx -> durable (abandon e tx).
Proof.
  intros (D1 & D2 & D3 & D4 & nn & ne & entries & Hn & He & Hl) Hr. destruct (reached_point e tx D1 Hr) as [Hst _]. destruct (abandon_ok e tx D1 Hst) as [A1 A2]. destruct Hst as [_ [_ _ _ [K4 K5] _ _ K7]].
  split_and!; [done|done|by rewrite <- D3|rewrite A2; apply D4..|]. exists nn, ne, entries. rewrite A2. cbn [abandon en_db en_commitID en_wal CloneGraphStateShallow w_db] in *. split_and!; [lia|lia|done].
Qed.

(** What the transaction wrote can be stored: identifiers, labels and types are valid, and
    properties and the names of changed ones are within the limits of values. *)
Definition writtenStorable tx : Prop :=
  Forall (storableNode (gd_NodePropertyKeys (commitDelta tx)) (nodesOf tx)) (elems (loggedIDs (sd_upserts (w_nodes tx)))) /\
  Forall (storableEdge (gd_EdgePropertyKeys (commitDelta tx)) (edgesOf tx)) (elems (loggedIDs (sd_upserts (w_edges tx)))).

(** A transaction that can be stored is in order once its changes are published. *)
Lemma feed_started e tx tx' : durable e -> reached e tx -> commitFits e tx -> writtenStorable tx -> withChangefeed e tx = (None, tx') -> started e tx' /\ writtenStorable tx'.
Proof.
  intros (D1 & D2 & D3 & [D4 D5] & nn & ne & entries & Hn & He & Hl) Hr [Cn Cc _ _] [Sn Se] Hfeed. destruct (reached_point e tx D1 Hr) as [Hst0 _].
  destruct (logged_inv _ _ None _ _ _ _ _ _ Hl) as (_ & _ & _ & _ & Hwf & _). pose proof (commit_wf_graph e tx nn ne D1 Hst0 Hwf Sn Se) as Wg.
  split; [exact (changefeed_started e tx tx' nn ne D1 Hst0 Hwf Wg D4 Cn Hfeed (Cc tx' Hfeed))|]. destruct (changefeed_shape e tx tx' None Hfeed) as [call ->]. by split.
Qed.

Lemma durable_install e tx tx' size w delta fs : durable e -> reached e tx -> commitFits e tx -> en_commitID e < max_uint64 -> withChangefeed e tx = (None, tx') -> checkSize e tx' = inl size ->
  buildPersistedDelta generateID (persistedGraph e tx') (db_nextNodeID (w_db tx')) (db_nextEdgeID (w_db tx')) (en_commitID e + 1) (commitDelta tx') = inl delta ->
  AppendDelta generateID (en_wal e) fs (persistedGraph e tx') (db_nextNodeID (w_db tx')) (db_nextEdgeID (w_db tx')) (en_commitID e + 1) (commitDelta tx') = (None, w) ->
  durable (install e tx' (en_commitID e + 1) size w).
Proof.
  intros Hd Hr Hfit Hroom Hfeed Hsize Hb Ha. pose proof Hd as (D1 & D2 & D3 & [D4 D5] & nn & ne & entries & Hn & He & Hl). pose proof Hfit as [Cn Cc Cs Cf].
  destruct (logged_inv _ _ None _ _ _ _ _ _ Hl) as (_ & _ & _ & _ & Hwf & _). destruct delta as [delta g'].
  destruct (built_checks _ _ _ _ _ _ _ _ Hb (wg_database _ _ _ Hwf)) as (-> & Sn & Se); [by eapply database_nonempty, (wg_database _ _ _ Hwf)|].
  destruct (changefeed_shape e tx tx' None Hfeed) as [call Etx]. assert (Hw : writtenStorable tx) by (rewrite Etx in Sn, Se; by split).
  destruct (feed_started e tx tx' Hd Hr Hfit Hw Hfeed) as [Hst _]. pose proof Hst as [Hi [_ _ _ [K4 K5] _ _ K7]].
  destruct (install_ok e tx' (en_commitID e + 1) size w (engineOrigin e) Hi D2) as [I1 I2].
  rewrite (commit_sized e tx' D1 Hst Sn Se D5 (Cs tx' Hfeed)) in Hsize. destruct (_ <? _); [done|]. injection Hsize as <-.
  cbn [CloneGraphStateShallow w_db] in K4, K5, K7. split_and!; [done|done|by rewrite <- D3|rewrite I2, Etx; apply Cn..|by rewrite I2|].
  exists (db_nextNodeID (w_db tx')), (db_nextEdgeID (w_db tx')), (entries ++ [commitEntry (persistedGraph e tx') (en_commitID e + 1) delta]).
  split; [done|]. split; [done|]. rewrite I2. eapply logged_commit; [exact Hl| |exact Ha]. split; try done; [by eapply commit_wf_graph|by eapply commit_changes|lia|by apply Cf].
Qed.

Lemma checks_room r e tx : commitChecks r e (en_commitID e) tx = None -> en_commitID e <> max_uint64.
Proof.
  unfold commitChecks. destruct (checkVectors e tx); [done|]. destruct (cr_derived r); [done|]. destruct (en_closed e); [done|]. destruct (en_readOnly e); [done|].
  destruct (db_recoveryRequired _); [done|]. destruct (negb (en_commitID e =? en_commitID e)); [done|]. by destruct (N.eqb_spec (en_commitID e) max_uint64).
Qed.

Lemma committed_checks r fs e tx e' : commitInternal generateID r fs e (en_commitID e) tx = (None, e') -> ensureWritable (w_call tx) = None -> db_memory (w_db tx) = false ->
  en_commitID e <> max_uint64 /\ exists tx' size w, withChangefeed e tx = (None, tx') /\ checkSize e tx' = inl size /\
    AppendDelta generateID (en_wal e) fs (persistedGraph e tx') (db_nextNodeID (w_db tx')) (db_nextEdgeID (w_db tx')) (en_commitID e + 1) (commitDelta tx') = (None, w) /\
    e' = install e tx' (en_commitID e + 1) size w.
Proof.
  unfold commitInternal. intros Hc Ho Hm. unfold ensureWritable in Ho. destruct (tx_closed _); [done|]. destruct (tx_readOnly _); [done|]. destruct (commitChecks _ _ _ _) eqn:Ech; [done|].
  destruct (withChangefeed e tx) as [[err|] tx'] eqn:Ef; [done|]. destruct (changefeed_shape e tx tx' None Ef) as [call Etx]. destruct (checkSize e tx') as [size|] eqn:Es; [|done].
  assert (Hm' : db_memory (w_db tx') = false) by (by rewrite Etx). rewrite Hm' in Hc. destruct (AppendDelta _ _ _ _ _ _ _ _) as [[err|] w] eqn:Ea; [done|]. injection Hc as <-. split; [by eapply checks_room|by exists tx', size, w].
Qed.

Lemma logged_bound g nn ne commit entries w : logged generateID maxCanonicalBytes g nn ne commit entries w -> commit <= max_uint64.
Proof. induction 1 as [| |]; [lia| |done]. match goal with Hco : commitOK _ _ _ _ _ _ _ _ _ _ _ |- _ => pose proof (co_room _ _ _ _ _ _ _ _ _ _ _ Hco) end. lia. Qed.

Lemma point_open e tx : engineOK e -> reached e tx -> durable e -> ensureWritable (w_call tx) = None /\ db_memory (w_db tx) = false.
Proof. intros He Hr (_ & _ & D3 & _). destruct (reached_point e tx He Hr) as [[Hi [_ _ _ _ _ _ K7]] _]. split; [apply (ti_open _ _ Hi)|by rewrite K7]. Qed.

Lemma append_built w fs g nn ne commit changes w' : AppendDelta generateID w fs g nn ne commit changes = (None, w') -> exists delta, buildPersistedDelta generateID g nn ne commit changes = inl delta.
Proof. unfold AppendDelta. destruct (buildPersistedDelta _ _ _ _ _ _) as [[delta g']|]; [by eexists|done]. Qed.

(** A commit that fails leaves what a rollback would, and what the log made of it. *)
Lemma durable_failed r fs e tx err e' : durable e -> reached e tx -> commitInternal generateID r fs e (en_commitID e) tx = (Some err, e') -> outcomeUnknown (Some err) = false -> durable e'.
Proof.
  intros Hd Hr Hc Hu. pose proof (durable_abandon e tx Hd Hr) as Ha. destruct (point_open e tx (proj1 Hd) Hr Hd) as [Ho Hm]. unfold commitInternal in Hc. unfold ensureWritable in Ho.
  destruct (tx_closed _); [done|]. destruct (tx_readOnly _); [done|]. destruct (commitChecks _ _ _ _) eqn:Ech; [by injection Hc as _ <-|].
  destruct (withChangefeed e tx) as [err1 tx'] eqn:Ef. destruct (changefeed_shape e tx tx' err1 Ef) as [call Etx]. assert (Eab : abandon e tx' = abandon e tx) by (by rewrite Etx).
  assert (Edb : w_db tx' = w_db tx) by (by rewrite Etx). rewrite Eab, Edb, Hm in Hc. destruct err1 as [err1|]; [by injection Hc as _ <-|]. destruct (checkSize e tx'); [|by injection Hc as _ <-].
  destruct (AppendDelta _ _ _ _ _ _ _ _) as [[err'|] w] eqn:Ea; [|done]. assert (Eu : err' = err) by congruence. subst err'. rewrite Hu in Hc. injection Hc as <-. pose proof Ha as (_ & _ & _ & _ & nn & ne & entries & Hn & He & Hl).
  eapply (durable_wal (abandon e tx) w entries nn ne Ha Hn He). eapply logged_failed; [exact Hl|exact Ea|exact Hu].
Qed.

Lemma session_durable e : session e -> durable e.
Proof.
  induction 1 as [e nn ne entries He Hro Hm Hf Hsz Hl Hn Hne|e tx r fs e' _ IH Hr Hfit Hc|e tx r fs err e' _ IH Hr Hc Hu|e tx e' _ IH Hr Hc].
  - split_and!; try done; try apply Hf. by exists nn, ne, entries.
  - destruct (point_open e tx (proj1 IH) Hr IH) as [Ho Hm]. destruct (committed_checks r fs e tx e' Hc Ho Hm) as (Hne & tx' & size & w & Hf & Hsz & Ha & ->).
    destruct (append_built _ _ _ _ _ _ _ _ Ha) as [delta Hb]. eapply (durable_install e tx tx'); try done. destruct IH as (_ & _ & _ & _ & nn & ne & entries & _ & _ & Hl). apply logged_bound in Hl. lia.
  - by eapply durable_failed.
  - unfold rollbackInternal in Hc. destruct (tx_closed _); [done|]. injection Hc as <-. by apply durable_abandon.
Qed.

Lemma commit_builds e tx tx' : durable e -> reached e tx -> commitFits e tx -> writtenStorable tx -> en_commitID e < max_uint64 -> withChangefeed e tx = (None, tx') ->
  writerOK (en_wal e) /\ txInv (engineOrigin e) tx' /\
  checkSize e tx' = (if en_maxDatabaseSnapshotBytes e <? EstimateSnapshotBytes (persistedGraph e tx') then inr (errResourceLimit "database snapshot"%string) else inl (EstimateSnapshotBytes (persistedGraph e tx'))) /\
  exists delta, commitBuilt e tx' delta /\ dl_DatabaseID delta = g_DatabaseID (persistedGraph e tx') /\ dl_CommitID delta = en_commitID e + 1.
Proof.
  intros Hd Hr Hfit Hst Hroom Hfeed. destruct (feed_started e tx tx' Hd Hr Hfit Hst Hfeed) as [Hst' [Sn' Se']]. destruct Hd as (D1 & D2 & D3 & [D4 D5] & nn & ne & entries & Hn & He & Hl).
  destruct (logged_inv _ _ None _ _ _ _ _ _ Hl) as (Hw & _ & _ & _ & Hwf & acc & Him & _). pose proof Hst' as [Hi [_ _ _ [K4 K5] _ _ _]]. cbn [CloneGraphStateShallow w_db] in K4, K5.
  split; [done|]. split; [done|]. split; [by apply commit_sized; [..|apply (cf_sizes _ _ Hfit)]|].
  destruct (commit_replays generateID None _ _ nn ne _ _ _ _ acc Hwf (commit_wf_graph e tx' nn ne D1 Hst' Hwf Sn' Se') (commit_changes e tx' D1 Hst' Sn' Se') ltac:(lia) Hroom Him) as (delta & _ & Hb & Ed & Ec & _).
  by exists delta.
Qed.

(** C7. Progress: after any session, failed commits and rollbacks included, a transaction
    whose records can be stored, which no guard of the commit refuses and whose frame the
    disk takes, commits; the graph of the database is then its graph with its changes in
    the change stream, one commit later, and the session goes on. *)
Theorem commit_succeeds e tx tx' r : session e -> reached e tx -> commitFits e tx -> writtenStorable tx ->
  commitChecks r e (en_commitID e) tx = None -> withChangefeed e tx = (None, tx') -> EstimateSnapshotBytes (persistedGraph e tx') <= en_maxDatabaseSnapshotBytes e ->
  exists delta e', commitBuilt e tx' delta /\ commitInternal generateID r (noFaults (commitEntry (persistedGraph e tx') (en_commitID e + 1) delta)) e (en_commitID e) tx = (None, e') /\
    graphOfEngine e' = persistedGraph e tx' /\ en_commitID e' = en_commitID e + 1 /\ session e'.
Proof.
  intros Hs Hr Hfit Hst Hch Hfeed Hsize. pose proof (session_durable e Hs) as Hd. pose proof (checks_room r e tx Hch) as Hne.
  assert (Hroom : en_commitID e < max_uint64) by (destruct Hd as (_ & _ & _ & _ & nn & ne & entries & _ & _ & Hl); apply logged_bound in Hl; lia).
  destruct (commit_builds e tx tx' Hd Hr Hfit Hst Hroom Hfeed) as (Hw & Hi & Hcs & delta & Hb & Ed & Ec). exists delta. rewrite (proj2 (N.ltb_ge _ _) Hsize) in Hcs.
  destruct (append_healthy _ _ _ Hw (cf_frame _ _ Hfit tx' delta Hfeed Hb)) as [w' Ha]. destruct (point_open e tx (proj1 Hd) Hr Hd) as [Ho Hm]. destruct (changefeed_shape e tx tx' None Hfeed) as [call Etx].
  assert (Hm' : db_memory (w_db tx') = false) by (by rewrite Etx).
  assert (Hc : commitInternal generateID r (noFaults (commitEntry (persistedGraph e tx') (en_commitID e + 1) delta)) e (en_commitID e) tx = (None, install e tx' (en_commitID e + 1) (EstimateSnapshotBytes (persistedGraph e tx')) w')).
  { unfold commitInternal. unfold ensureWritable in Ho. destruct (tx_closed _); [done|]. destruct (tx_readOnly _); [done|]. rewrite Hch, Hfeed, Hcs, Hm'. unfold AppendDelta. unfold commitBuilt in Hb.
    rewrite Hb, (wo_open _ Hw), Ed, Ec. cbn [negb]. cbn [commitEntry en_database en_commit en_value] in Ha. by rewrite Ha. }
  exists (install e tx' (en_commitID e + 1) (EstimateSnapshotBytes (persistedGraph e tx')) w'). split; [done|]. split; [done|]. split; [by apply (install_ok e tx' _ _ w' (engineOrigin e) Hi), Hd|]. split; [done|]. by eapply session_commit.
Qed.

(** C10. The size of a snapshot the engine keeps, and adjusts at every commit by what the
    commit changed, is after any session what counting the whole graph gives; so a commit
    is refused for its size exactly when a snapshot of its graph is over the limit, and
    the accounting neither underflows nor meets a record that is missing. *)
Theorem snapshot_size_exact e : session e -> en_SnapshotBytes e = EstimateSnapshotBytes (graphOfEngine e) /\
  forall tx tx', reached e tx -> commitFits e tx -> writtenStorable tx -> withChangefeed e tx = (None, tx') ->
    checkSize e tx' = if en_maxDatabaseSnapshotBytes e <? EstimateSnapshotBytes (persistedGraph e tx') then inr (errResourceLimit "database snapshot"%string)
                      else inl (EstimateSnapshotBytes (persistedGraph e tx')).
Proof.
  intros Hs. pose proof (session_durable e Hs) as Hd. pose proof Hd as (D1 & _ & _ & [_ D5] & _). split; [done|]. intros tx tx' Hr Hfit Hw Hfeed.
  destruct (feed_started e tx tx' Hd Hr Hfit Hw Hfeed) as [Hst [Sn Se]]. apply commit_sized; try done. by apply (cf_sizes _ _ Hfit).
Qed.

Context (jsonPayload : list byte -> walPayload + error) (jsonState : list byte -> persistedState + error) (checkpoint : option (N * persistedState)).
Context (Hmax : maxCanonicalBytes <= max_uint64).

Abbreviation recovered file g nn ne commit ready := (recovers generateID jsonPayload jsonState maxCanonicalBytes checkpoint file g nn ne commit ready).

Lemma durable_recovers e : durable e -> exists nn ne,
  nn <= db_nextNodeID (en_db e) /\ ne <= db_nextEdgeID (en_db e) /\ recovered (ww_file (en_wal e)) (graphOfEngine e) nn ne (en_commitID e) true.
Proof. intros (_ & _ & _ & _ & nn & ne & entries & Hn & He & Hl). exists nn, ne. split; [done|]. split; [done|]. by eapply whole_log_recovers. Qed.

(** A commit that was built is a step of the log. *)
Lemma commit_step e tx tx' delta g' : durable e -> reached e tx -> commitFits e tx -> en_commitID e < max_uint64 -> withChangefeed e tx = (None, tx') ->
  buildPersistedDelta generateID (persistedGraph e tx') (db_nextNodeID (w_db tx')) (db_nextEdgeID (w_db tx')) (en_commitID e + 1) (commitDelta tx') = inl (delta, g') ->
  exists nn ne entries, nn <= db_nextNodeID (en_db e) /\ ne <= db_nextEdgeID (en_db e) /\ logged generateID maxCanonicalBytes (graphOfEngine e) nn ne (en_commitID e) entries (en_wal e) /\
    commitOK generateID maxCanonicalBytes (graphOfEngine e) nn ne (persistedGraph e tx') (db_nextNodeID (w_db tx')) (db_nextEdgeID (w_db tx')) (en_commitID e) (commitDelta tx') delta.
Proof.
  intros Hd Hr Hfit Hroom Hfeed Hb. pose proof Hd as (D1 & D2 & D3 & [D4 D5] & nn & ne & entries & Hn & He & Hl). pose proof Hfit as [Cn Cc Cs Cf].
  destruct (logged_inv _ _ None _ _ _ _ _ _ Hl) as (_ & _ & _ & _ & Hwf & _).
  destruct (built_checks _ _ _ _ _ _ _ _ Hb (wg_database _ _ _ Hwf)) as (-> & Sn & Se); [by eapply database_nonempty, (wg_database _ _ _ Hwf)|].
  destruct (changefeed_shape e tx tx' None Hfeed) as [call Etx]. assert (Hw : writtenStorable tx) by (rewrite Etx in Sn, Se; by split).
  destruct (feed_started e tx tx' Hd Hr Hfit Hw Hfeed) as [Hst _]. pose proof Hst as [_ [_ _ _ [K4 K5] _ _ _]]. cbn [CloneGraphStateShallow w_db] in K4, K5.
  exists nn, ne, entries. split; [done|]. split; [done|]. split; [done|]. split; try done; [by eapply commit_wf_graph|by eapply commit_changes|lia|by apply Cf].
Qed.

(** However a commit ends, the log holds it or what there was before. *)
Definition beforeOrAfter e tx e' : Prop :=
  (exists tx', withChangefeed e tx = (None, tx') /\
     recovered (ww_file (en_wal e')) (persistedGraph e tx') (db_nextNodeID (w_db tx')) (db_nextEdgeID (w_db tx')) (en_commitID e + 1) true) \/
  exists nn ne ready, nn <= db_nextNodeID (en_db e) /\ ne <= db_nextEdgeID (en_db e) /\ recovered (ww_file (en_wal e')) (graphOfEngine e) nn ne (en_commitID e) ready.

Lemma same_log e tx e' : durable e -> ww_file (en_wal e') = ww_file (en_wal e) -> beforeOrAfter e tx e'.
Proof. intros Hd E. right. destruct (durable_recovers e Hd) as (nn & ne & Hn & He & Hl). exists nn, ne, true. by rewrite E. Qed.

Lemma commit_outcome r fs e tx err e' : durable e -> reached e tx -> commitFits e tx -> commitInternal generateID r fs e (en_commitID e) tx = (err, e') -> beforeOrAfter e tx e'.
Proof.
  intros Hd Hr Hfit Hc. destruct (point_open e tx (proj1 Hd) Hr Hd) as [Ho Hm]. unfold commitInternal in Hc. unfold ensureWritable in Ho.
  destruct (tx_closed _); [done|]. destruct (tx_readOnly _); [done|]. destruct (commitChecks _ _ _ _) eqn:Ech; [injection Hc as _ <-; by apply same_log|].
  pose proof (checks_room r e tx Ech) as Hne. destruct (withChangefeed e tx) as [[err1|] tx'] eqn:Ef; [injection Hc as _ <-; by apply same_log|].
  destruct (changefeed_shape e tx tx' None Ef) as [call Etx]. assert (Edb : w_db tx' = w_db tx) by (by rewrite Etx). rewrite Edb, Hm in Hc.
  destruct (checkSize e tx') as [size|]; [|injection Hc as _ <-; by apply same_log]. rewrite <- Edb in Hc.
  destruct (AppendDelta _ _ _ _ _ _ _ _) as [err2 w] eqn:Ea. assert (Ew : en_wal e' = w) by (destruct err2; by injection Hc as _ <-).
  destruct (buildPersistedDelta generateID (persistedGraph e tx') (db_nextNodeID (w_db tx')) (db_nextEdgeID (w_db tx')) (en_commitID e + 1) (commitDelta tx')) as [[delta g']|berr] eqn:Hb.
  - assert (Hroom : en_commitID e < max_uint64) by (destruct Hd as (_ & _ & _ & _ & nn & ne & entries & _ & _ & Hl); apply logged_bound in Hl; lia).
    destruct (commit_step e tx tx' delta g' Hd Hr Hfit Hroom Ef Hb) as (nn & ne & entries & Hn & He & Hl & Hco). unfold beforeOrAfter. rewrite Ew.
    destruct (append_recovers _ jsonPayload jsonState _ checkpoint Hmax _ _ _ _ _ _ _ _ _ _ _ _ _ _ Hl Hco Ea) as [Hn'|[ready Ho']]; [left; by exists tx'|right; by exists nn, ne, ready].
  - apply same_log; [done|]. rewrite Ew. unfold AppendDelta in Ea. rewrite Hb in Ea. by injection Ea as _ <-.
Qed.

(** C1. Durability from the calls to the file. A session opens a database on disk and runs
    transactions of any calls and queries, successful or not; each then commits with its
    changes published to the change stream, fails to commit with the outcome known, or
    rolls back. After any session the log loads as a snapshot of the graph of the last
    commit, streams included. And when one more commit ends in any way, with any short
    write, failed rollback or failed sync, the log loads as the graph before it or as the
    graph after it. What is assumed: calls satisfy [callOK], that is, arguments are Go
    values and a removed node was allocated at some time; a commit is within the limits of
    the formats ([commitFits]: names, frame, counts and sizes); and after a commit whose
    outcome is unknown the session is over, since the database has to be opened again. *)
Theorem session_recovers e : session e ->
  (exists nn ne, nn <= db_nextNodeID (en_db e) /\ ne <= db_nextEdgeID (en_db e) /\
     recovers generateID jsonPayload jsonState maxCanonicalBytes checkpoint (ww_file (en_wal e)) (graphOfEngine e) nn ne (en_commitID e) true) /\
  forall tx r fs err e', reached e tx -> commitFits e tx -> commitInternal generateID r fs e (en_commitID e) tx = (err, e') -> beforeOrAfter e tx e'.
Proof.
  intros Hs. pose proof (session_durable e Hs) as Hd. split; [by apply durable_recovers|]. intros tx r fs err e' Hr Hfit Hc. by eapply commit_outcome.
Qed.
End transactions.
