(* ===== verification/TransactionExamples.v ===== *)
(** * A concrete session

    The graph of the recovery example in an engine, with transactions on it. *)
From S2P Require Import Prelude.
From S2P Require Import GoBytes.
From S2P Require Import BinaryCodec.
From S2P Require Import BinaryCodecSpec.
From S2P Require Import BinaryValue.
From S2P Require Import BinaryValueSpec.
From S2P Require Import BinaryRecords.
From S2P Require Import BinaryRecordsSpec.
From S2P Require Import BinaryTheorems.
From S2P Require Import GoMaps.
From S2P Require Import Values.
From S2P Require Import ValuesSpec.
From S2P Require Import Properties.
From S2P Require Import PageRecords.
From S2P Require Import Streams.
From S2P Require Import StreamStoreSpec.
From S2P Require Import StreamPersist.
From S2P Require Import StreamPersistSpec.
From S2P Require Import StreamTx.
From S2P Require Import StreamTxSpec.
From S2P Require Import PropertyDelta.
From S2P Require Import PropertyPatch.
From S2P Require Import WalAccumulator.
From S2P Require Import WalInvariant.
From S2P Require Import WalFrames.
From S2P Require Import WalFramesSpec.
From S2P Require Import GraphPersist.
From S2P Require Import GraphChanges.
From S2P Require Import SnapshotSize.
From S2P Require Import Adjacency.
From S2P Require Import AdjacencySpec.
From S2P Require Import StringPostings.
From S2P Require Import IndexUpkeep.
From S2P Require Import IndexTheorems.
From S2P Require Import ChangefeedReplay.
From S2P Require Import Search.
From S2P Require Import SearchTheorems.
From S2P Require Import GraphTx.
From S2P Require Import GraphStatement.
From S2P Require Import GraphSides.
From S2P Require Import GraphTxSpec.
From S2P Require Import GraphTxNodes.
From S2P Require Import GraphTxRemove.
From S2P Require Import GraphStatementSpec.
From S2P Require Import GraphEngine.
From S2P Require Import GraphEngineSpec.
From S2P Require Import RecoveryTheorems.
From S2P Require Import GraphTheorems.
From S2P Require Import TransactionTheorems.
From Stdlib Require Strings.String.
Import String.StringSyntax.
#[local] Open Scope go_scope.

#[local] Instance unitOrder : MapOrder unit := canonicalOrder.
#[local] Instance bucketOrder : MapOrder (gmap gostring postingList) := canonicalOrder.
#[local] Instance listOrder : MapOrder (list N) := canonicalOrder.

(** ** The engine *)

Definition databaseBefore : Database := mkDatabase false true 0 100000 100000 2 2 1 1 false 2 1.
Definition nodeBefore : NodeRecord := mkNode 1 (Some [[x50]]) propsBefore.
Definition labelsBefore : StringPostings := default NewStringPostings (postingsAdd NewStringPostings [x50] 1).

Definition engineBefore : engine :=
  mkEngine databaseBefore false false 1 exampleDatabase 0 [nodeBefore] (mkTable {[ 1 := 0%nat ]} ∅) [] (mkTable ∅ ∅)
    (mkFTSTable {[ 1 := mkFTS [x78] [] ]} ∅) labelsBefore NewStringPostings NewStringPostings ∅ ∅ ∅ ∅ ∅ NewStreamStore (EstimateSnapshotBytes graphBefore) 1000000 100000 startedWriter.

Lemma engineBefore_graph : graphOfEngine engineBefore = graphBefore.
Proof. vm_compute. reflexivity. Qed.

Lemma nothing_listed endOf id : listed endOf 1 None ∅ id.
Proof.
  exists []. split_and!; [|constructor|].
  - exists [], ∅. split_and!; [done|done|apply NoDup_nil_2|set_solver|apply Forall_nil_2|unfold zlen; cbn; lia].
  - intros e. rewrite lookup_empty. split; [by intros ?%elem_of_nil|]. by intros (r & ? & _).
Qed.

Lemma nothing_posted {R} (scopes : R -> list gostring) (M : gmap N R) : map_Forall (fun _ r => scopes r = []) M -> postingsRep NewStringPostings (ofScope scopes M).
Proof.
  intros HM. eapply postingsRep_ext; [|exact postingsRep_new]. intros k. apply set_eq. intros id. rewrite elem_of_ofScope. split; [set_solver|].
  intros (r & Hr & Hk). rewrite (HM id r Hr) in Hk. by apply elem_of_nil in Hk.
Qed.

Lemma engineBefore_ok : engineOK engineBefore.
Proof.
  split; try done.
  - apply records_begin.
  - apply fresh_side. split; cbn [CloneGraphStateShallow engineBefore en_Nodes refs deleted].
    + intros id l [<- <-]%lookup_singleton_Some. exists nodeBefore. split; [done|]. split; [done|]. destruct propsBefore_ok as (P1 & P2 & _). split; [by split|]. apply NoDup_singleton.
    + intros id [l [<- _]%lookup_singleton_Some]. by split.
    + set_solver.
  - apply fresh_side. split; cbn; [by intros id l ?%lookup_empty_Some|by intros id [l ?%lookup_empty_Some]|set_solver].
  - split; cbn; [|set_solver]. intros id r [<- <-]%lookup_singleton_Some. split; [by eexists|done].
  - split; cbn; [|set_solver]. intros id r [<- <-]%lookup_singleton_Some. split; [by eexists|done].
  - apply changes_sets. split_and!; set_solver.
  - split; cbn [CloneGraphStateShallow engineBefore w_Labels w_EdgeTypes w_FTSTokens w_Outgoing w_Incoming w_db w_fts en_Labels en_EdgeTypes en_FTSTokens en_Outgoing en_Incoming en_FTS fts_rows].
    + change (edgesOf _) with (∅ : gmap N EdgeRecord). apply map_Forall_empty.
    + apply postingsRep_fork. destruct (postingsAdd_spec NewStringPostings _ [x50] 1 postingsRep_new) as (p & Ep & Hp). unfold labelsBefore. rewrite Ep. cbn [from_option Datatypes.id].
      eapply postingsRep_ext; [|exact Hp]. clear p Ep Hp. intros k. apply set_eq. intros id. rewrite elem_of_ofScope. unfold setFor.
      change (nodesOf _) with ({[ 1 := nodeBefore ]} : gmap N NodeRecord). change (nodeScopes nodeBefore) with [[x50 : byte]] in *. case_decide as Hk.
      * subst k. rewrite union_empty_r_L, elem_of_singleton. split; [intros ->; exists nodeBefore; split; [done|apply list_elem_of_here]|].
        by intros (r & [<- <-]%lookup_singleton_Some & _).
      * split; [by intros ?%elem_of_empty|]. intros (r & [<- <-]%lookup_singleton_Some & Hin). by apply list_elem_of_singleton in Hin.
    + apply postingsRep_fork, nothing_posted. change (edgesOf _) with (∅ : gmap N EdgeRecord). apply map_Forall_empty.
    + apply postingsRep_fork, nothing_posted. by apply map_Forall_singleton.
    + intros id. change (edgesOf _) with (∅ : gmap N EdgeRecord). apply nothing_listed.
    + intros id. change (edgesOf _) with (∅ : gmap N EdgeRecord). apply nothing_listed.
Qed.

(** ** Transactions *)

Definition asciiTokens : N -> gostring -> list gostring + error := TokenizeContextWithLimit asciiUnicode.
Definition makeNode : call := CallCreateNode None (mkNodeOptions (Some [[x50]]) [([x61], VInt 5)]).
Definition putKey : call := CallPutAppMetadata [x6b] (Some [x76]).
Definition missingNode : call := CallSetProperty 9 [x61] (VInt 5).
Definition nodeMissing : error := ErrNew "node not found"%string.
Definition txStart : WriteTx := CloneGraphStateShallow engineBefore.
Definition txNode : WriteTx := (runCall asciiTokens makeNode txStart).2.
Definition txKey : WriteTx := (runCall asciiTokens putKey txNode).2.

Lemma five_ok : wfV (VInt 5).
Proof. constructor. by vm_compute. Qed.
Lemma makeNode_ok : callOK txStart makeNode.
Proof. split; [apply NoDup_singleton|]. apply Forall_singleton. exact five_ok. Qed.
Lemma txNode_reached : reached asciiTokens engineBefore txNode.
Proof. exact (reached_call asciiTokens engineBefore txStart makeNode (reached_start _ _) makeNode_ok). Qed.
Lemma txKey_reached : reached asciiTokens engineBefore txKey.
Proof. exact (reached_call asciiTokens engineBefore txNode putKey txNode_reached I). Qed.

Lemma transaction_in_order_witness : txInv (engineOrigin engineBefore) txKey /\ (runCall asciiTokens (CallDeleteNode 1) txKey).1 <> Panicked.
Proof. apply (transaction_in_order asciiTokens engineBefore txKey (CallDeleteNode 1)); [exact engineBefore_ok|exact txKey_reached|vm_compute; reflexivity]. Defined.

(** Two vectors in a batch. *)
Definition twoVectors : call := CallBatchInsertVectors [] [x56] [Some [1; 2]; Some [3]].
Lemma twoVectors_ok : callOK txKey twoVectors.
Proof. repeat constructor. Qed.

Lemma call_refines_witness : effect asciiTokens txStart makeNode (graphOf txNode) /\ effect asciiTokens txKey twoVectors (graphOf (runCall asciiTokens twoVectors txKey).2) /\
  effect asciiTokens txKey (CallDeleteNode 1) (graphOf (runCall asciiTokens (CallDeleteNode 1) txKey).2).
Proof.
  split; [|split].
  - apply (call_refines asciiTokens engineBefore txStart makeNode txNode); [exact engineBefore_ok|apply reached_start|exact makeNode_ok|vm_compute; reflexivity].
  - apply (call_refines asciiTokens engineBefore txKey twoVectors (runCall asciiTokens twoVectors txKey).2); [exact engineBefore_ok|exact txKey_reached|exact twoVectors_ok|vm_compute; reflexivity].
  - apply (call_refines asciiTokens engineBefore txKey (CallDeleteNode 1) (runCall asciiTokens (CallDeleteNode 1) txKey).2); [exact engineBefore_ok|exact txKey_reached|vm_compute; reflexivity|vm_compute; reflexivity].
Defined.

Lemma failed_call_unchanged_witness : (runCall asciiTokens missingNode txKey).1 = Failed nodeMissing /\ graphOf (runCall asciiTokens missingNode txKey).2 = graphOf txKey.
Proof.
  split; [vm_compute; reflexivity|].
  apply (failed_call_unchanged asciiTokens engineBefore txKey missingNode nodeMissing); [exact engineBefore_ok|exact txKey_reached|exact five_ok|reflexivity|vm_compute; reflexivity].
Defined.

Lemma readers_isolated_witness : take 1 (sd_heap (w_nodes txKey)) = [nodeBefore] /\ length (sd_heap (w_nodes txKey)) = 2%nat /\ sd_base (w_nodes txKey) = en_Nodes engineBefore /\
  sd_live (w_nodes txKey) <> en_Nodes engineBefore /\ graphOfEngine (abandon engineBefore txKey) = graphBefore.
Proof.
  destruct (readers_isolated asciiTokens engineBefore txKey engineBefore_ok txKey_reached) as (H1 & _ & H2 & _ & _ & H3).
  split; [exact H1|]. split; [vm_compute; reflexivity|]. split; [exact H2|]. split; [intros E; apply (f_equal (fun t => refs t !! 2)) in E; vm_compute in E; discriminate|].
  rewrite H3. exact engineBefore_graph.
Defined.

(** A query that creates a node and then an edge to a node that is not there; and one
    that creates a node and deletes another. *)
Definition exampleBudget : queryBudget := mkQueryBudget 1000 0 100000 0.
Definition sevenOf : nat -> gostring -> act value := fun _ _ => aret (VInt 7).
Definition noReadBack : nat -> N -> act unit := fun _ _ => aret tt.
Definition createOne : clause := ClauseCreateNode [] (Some [[x50]]) [[x61]] sevenOf noReadBack (fun _ => 1%nat).
Definition connect (target : N) : clause := ClauseCreate [] [x52] [] sevenOf noReadBack (fun _ => [(BoundNode 1, BoundNode target)]).
Definition failingQuery : list clause := [createOne; connect 9].
Definition goodQuery : list clause := [createOne; connect 2].

Lemma seven_normal : normalAt 0 (VInt 7).
Proof. apply (norm_normal (VInt 7) 0); [constructor; by vm_compute|by vm_compute]. Qed.
Lemma createOne_ok : clauseOK createOne.
Proof. split; [apply NoDup_singleton|]. split; [intros i key; apply readsOnly_ret, seven_normal|intros i id; by apply readsOnly_ret]. Qed.
Lemma connect_ok target : clauseOK (connect target).
Proof. split; [apply NoDup_nil_2|]. split; [intros i key; apply readsOnly_ret, seven_normal|intros i id; by apply readsOnly_ret]. Qed.
Lemma failingQuery_ok : Forall clauseOK failingQuery.
Proof. apply Forall_cons. split; [exact createOne_ok|]. apply Forall_singleton, connect_ok. Qed.
Lemma goodQuery_ok : Forall clauseOK goodQuery.
Proof. apply Forall_cons. split; [exact createOne_ok|]. apply Forall_singleton, connect_ok. Qed.

Lemma query_atomic_witness : 
  (exists err, (runStatement (forEach runClause failingQuery) exampleBudget txKey).1 = Failed err) /\
  graphOf (runStatement (forEach runClause failingQuery) exampleBudget txKey).2 = graphOf txKey /\
  exists fork, forEach runClause goodQuery (forkStatement txKey exampleBudget) = (Done tt, fork) /\
    graphOf (runStatement (forEach runClause goodQuery) exampleBudget txKey).2 = graphOf fork.
Proof.
  pose proof (query_atomic asciiTokens engineBefore txKey failingQuery exampleBudget engineBefore_ok txKey_reached failingQuery_ok) as H1.
  pose proof (query_atomic asciiTokens engineBefore txKey goodQuery exampleBudget engineBefore_ok txKey_reached goodQuery_ok) as H2.
  assert (E1 : exists err, (runStatement (forEach runClause failingQuery) exampleBudget txKey).1 = Failed err) by (eexists; vm_compute; reflexivity).
  assert (E2 : (runStatement (forEach runClause goodQuery) exampleBudget txKey).1 = Done tt) by (vm_compute; reflexivity).
  split; [exact E1|]. destruct E1 as [err E1]. destruct (runStatement (forEach runClause failingQuery) exampleBudget txKey) as [r1 tx1], (runStatement (forEach runClause goodQuery) exampleBudget txKey) as [r2 tx2].
  cbn [fst snd] in E1, E2 |- *. subst r1 r2. split; [exact (proj1 H1)|exact H2].
Defined.

(** ** A session *)

(** The transaction with its changes in the change stream: a node, its label and its
    property. *)
Definition txFeed : WriteTx := (withChangefeed engineBefore txKey).2.

Definition eventOp (sequence : N) (kind : gostring) (fields : list (gostring * persistedValue)) : persistedStreamOperation :=
  mkPSOp (str "publish"%string) (str "__lattice_changes"%string) [] sequence kind (PVMap (Some fields)).
Definition eventsKey : list persistedStreamOperation :=
  [eventOp 1 (str "node.insert"%string) [(str "node_id"%string, PVInt 2)];
   eventOp 2 (str "node.label_add"%string) [(str "label"%string, PVString [x50]); (str "node_id"%string, PVInt 2)];
   eventOp 3 (str "node.property_set"%string)
     [(str "key"%string, PVString [x61]); (str "new_value"%string, PVInt 5); (str "new_value_omitted"%string, PVBool false); (str "node_id"%string, PVInt 2)]].

Definition deltaKey : persistedDelta :=
  mkPDelta exampleDatabase 2 3 1 (Some [mkPNode 2 (Some [[x50]]) (Some [([x61], PVInt 5)])]) (Some []) None (Some [])
    None (Some []) (Some [mkPMetaChange (Some [x6b]) (Some [x76]) false]) None (Some eventsKey) (Some []) (Some []) (Some []) (Some []) None None.

Lemma txFeed_published : withChangefeed engineBefore txKey = (None, txFeed).
Proof. vm_compute. reflexivity. Qed.

Lemma deltaKey_built : buildPersistedDelta noID (persistedGraph engineBefore txFeed) (db_nextNodeID (w_db txFeed)) (db_nextEdgeID (w_db txFeed)) (en_commitID engineBefore + 1) (commitDelta txFeed) =
  inl (deltaKey, persistedGraph engineBefore txFeed).
Proof. vm_compute. reflexivity. Qed.

Lemma nodesKey_valid : valid (dl_UpsertNodes deltaKey).
Proof.
  split; [vm_compute; reflexivity|]. apply Forall_singleton. assert (Hl : valid (Some [[x50 : byte]])) by concrete_valid.
  assert (Hp : forall n, validMap (validV (S n)) (Some [([x61], PVInt 5)])) by (intros n; concrete_valid).
  exact (conj (eq_refl : (2 ?= 2 ^ 64) = Lt) (conj Hl (Hp 65%nat))).
Qed.

(** A change record is valid when its fields are. *)
Lemma event_valid sequence kind fields : sequence < 2 ^ 64 -> valid kind -> (forall n, validMap (validV (S n)) (Some fields)) -> valid (eventOp sequence kind fields).
Proof.
  intros Hs Hk Hf. assert (Hp : valid (PVMap (Some fields))) by exact (validV_map 64%nat (Some fields) (Hf 64%nat)). revert Hp. unfold eventOp. generalize (PVMap (Some fields)). intros p Hp.
  cbn [valid codec_streamOperation codec_str codec_u op_Type op_Stream op_Consumer op_Sequence op_Kind op_Payload]. split_and!; first [exact Hp|exact Hs|exact (proj1 Hk)|exact (proj2 Hk)|vm_compute; reflexivity].
Qed.

Lemma eventsKey_valid : valid (Some eventsKey).
Proof.
  split; [vm_compute; reflexivity|]. unfold eventsKey. repeat apply Forall_cons_2; [..|apply Forall_nil_2].
  all: apply event_valid; [vm_compute; reflexivity|by vm_compute|intros n; concrete_valid].
Qed.

Lemma deltaKey_valid : payloadValid (deltaPayload deltaKey).
Proof.
  pose proof nodesKey_valid as Hn. pose proof eventsKey_valid as Ho. change (deltaPayload deltaKey) with (WALDelta (Some deltaKey)). unfold payloadValid, deltaKey in *. cbn [dl_UpsertNodes] in Hn. revert Hn Ho.
  generalize (Some [mkPNode 2 (Some [[x50]]) (Some [([x61], PVInt 5)])]), (Some eventsKey). intros nodes events Hn Ho.
  cbn [valid codec_delta dl_DatabaseID dl_CommitID dl_NextNodeID dl_NextEdgeID dl_UpsertNodes dl_DeleteNodes dl_UpsertEdges dl_DeleteEdges dl_UpsertFTS dl_DeleteFTS dl_AppMetadata
    dl_Streams dl_StreamOperations dl_CreateNodeIndexes dl_DropNodeIndexes dl_CreateEdgeIndexes dl_DropEdgeIndexes dl_NodePropertyChanges dl_EdgePropertyChanges]. unfold exampleDatabase.
  repeat match goal with |- _ /\ _ => split end; try exact Hn; try exact Ho; try done; concrete_valid.
Qed.

Definition entryKey : walEntry := commitEntry (persistedGraph engineBefore txFeed) (en_commitID engineBefore + 1) deltaKey.
Lemma entryKey_ok : entryOK 4096 entryKey.
Proof. split; [vm_compute; reflexivity|vm_compute; reflexivity|exact deltaKey_valid|vm_compute; discriminate..]. Qed.

Lemma before_names : namesFit graphBefore.
Proof. split; [|apply map_Forall_empty]. apply map_Forall_singleton. split; repeat apply Forall_cons_2; first [apply Forall_nil_2|vm_compute; discriminate]. Qed.
Definition shortNames (names : list gostring) : bool := forallb (fun s => nlen s <=? maxNameBytes) names.
Lemma short_fits {A} (f : A -> gostring) l : shortNames (map f l) = true -> Forall (fun x => nlen (f x) <= maxNameBytes) l.
Proof. induction l as [|x l IH]; [done|]. intros [Hx Hl]%andb_true_iff. apply N.leb_le in Hx. constructor; [exact Hx|by apply IH]. Qed.
Lemma key_names : namesFit (persistedGraph engineBefore txKey).
Proof.
  assert (En : forallb (fun kv => shortNames (map id (elems (n_Labels kv.2))) && shortNames (map fst (PAll (n_Properties kv.2)))) (map_to_list (g_Nodes (persistedGraph engineBefore txKey))) = true) by (vm_compute; reflexivity).
  split.
  - intros i n Hn%elem_of_map_to_list. rewrite forallb_forall in En. apply list_elem_of_In, En, andb_true_iff in Hn as [Hl Hp]. split; [by apply (short_fits id)|by apply (short_fits fst)].
  - assert (Ee : g_Edges (persistedGraph engineBefore txKey) = ∅) by (vm_compute; reflexivity). rewrite Ee. apply map_Forall_empty.
Qed.
Lemma key_fits : commitFits noID 4096 engineBefore txKey.
Proof.
  split; [exact key_names|..].
  - intros tx' Ht. rewrite txFeed_published in Ht. apply (f_equal snd) in Ht. cbn [snd] in Ht. rewrite <- Ht. vm_compute. reflexivity.
  - intros tx' Ht. rewrite txFeed_published in Ht. apply (f_equal snd) in Ht. cbn [snd] in Ht. rewrite <- Ht, engineBefore_graph. vm_compute. discriminate.
  - intros tx' delta Ht Hb. rewrite txFeed_published in Ht. apply (f_equal snd) in Ht. cbn [snd] in Ht. rewrite <- Ht in Hb |- *. unfold commitBuilt in Hb. rewrite deltaKey_built in Hb.
    apply (inj inl), (f_equal fst) in Hb. cbn [fst] in Hb. rewrite <- Hb. exact entryKey_ok.
Qed.

Definition noReports : commitReports := mkReports None false.
Definition engineKey : engine := (commitInternal noID noReports (noFaults entryKey) engineBefore 1 txKey).2.

Lemma open_session : session asciiTokens noID 4096 engineBefore.
Proof.
  eapply (session_open asciiTokens noID 4096 engineBefore 2 1 [entryBefore]); [exact engineBefore_ok|done|done|rewrite engineBefore_graph; exact before_names|rewrite engineBefore_graph; reflexivity|rewrite engineBefore_graph; exact example_started|vm_compute; discriminate..].
Qed.
Lemma key_session : session asciiTokens noID 4096 engineKey.
Proof.
  eapply (session_commit asciiTokens noID 4096 engineBefore txKey noReports (noFaults entryKey)); [exact open_session|exact txKey_reached|exact key_fits|].
  unfold engineKey. change (en_commitID engineBefore) with 1. destruct (commitInternal _ _ _ _ _ _) as [err e] eqn:E. apply (f_equal fst) in E. vm_compute in E. by rewrite <- E.
Qed.

(** After the commit of the example; and when that commit tears on a disk that also fails
    to take the torn frame back. *)
Definition tornCommit : option error * engine := commitInternal noID noReports tornWrite engineBefore 1 txKey.

Lemma session_recovers_witness : gv_metadata (graphOf (CloneGraphStateShallow engineKey)) !! [x6b] = Some (Some [x76]) /\
  NextSequence (en_Streams engineKey) (str "__lattice_changes"%string) = 4 /\
  (exists nn ne, recovers noID noJSON noJSON 4096 None (ww_file (en_wal engineKey)) (graphOfEngine engineKey) nn ne 2 true) /\
  outcomeUnknown tornCommit.1 = true /\ ww_file (en_wal tornCommit.2) <> ww_file (en_wal engineBefore) /\ beforeOrAfter noID 4096 noJSON noJSON None engineBefore txKey tornCommit.2.
Proof.
  destruct (session_recovers asciiTokens noID 4096 noJSON noJSON None ltac:(discriminate) engineKey key_session) as [(nn & ne & _ & _ & Hr) _].
  destruct (session_recovers asciiTokens noID 4096 noJSON noJSON None ltac:(discriminate) engineBefore open_session) as [_ Ht].
  split; [vm_compute; reflexivity|]. split; [vm_compute; reflexivity|]. split; [exists nn, ne; exact Hr|]. split; [vm_compute; reflexivity|].
  split; [intros E; apply (f_equal (@length byte)) in E; vm_compute in E; discriminate|].
  apply (Ht txKey noReports tornWrite tornCommit.1); [exact txKey_reached|exact key_fits|apply surjective_pairing].
Defined.

(** The transaction of the example commits on a disk that works. *)
Definition nodeTwo : NodeRecord := mkNode 2 (Some [[x50]]) (PropertiesFromMap [([x61], VInt 5)]).

Lemma nodeTwo_props : PropertyPatch.storable (n_Properties nodeTwo).
Proof.
  apply small_storable; [apply (bool_decide_unpack _); vm_compute; exact I| |vm_compute; reflexivity].
  assert (E : PAll (PropertiesFromMap [([x61 : byte], VInt 5)]) = [([x61 : byte], VInt 5)]) by (vm_compute; reflexivity). rewrite E. apply Forall_singleton, int_normal. unfold int64. cbn. lia.
Qed.

Lemma txKey_storable : writtenStorable txKey.
Proof.
  assert (En : elems (loggedIDs (sd_upserts (w_nodes txKey))) = [2]) by (vm_compute; reflexivity). assert (Ee : elems (loggedIDs (sd_upserts (w_edges txKey))) = []) by (vm_compute; reflexivity).
  assert (Ek : patchKeys (gd_NodePropertyKeys (commitDelta txKey)) 2 = []) by (vm_compute; reflexivity). assert (E2 : nodesOf txKey !! 2 = Some nodeTwo) by (vm_compute; reflexivity).
  unfold writtenStorable. rewrite En, Ee. split; [|apply Forall_nil_2]. apply Forall_singleton. unfold storableNode. rewrite Ek. exists nodeTwo. split; [exact E2|]. split; [reflexivity|].
  split; [vm_compute; reflexivity|]. split; [vm_compute; reflexivity|]. split; [intros _; exact nodeTwo_props|apply Forall_nil_2].
Qed.

Lemma commit_succeeds_witness : exists delta e',
  commitInternal noID noReports (noFaults (commitEntry (persistedGraph engineBefore txFeed) 2 delta)) engineBefore 1 txKey = (None, e') /\ graphOfEngine e' = persistedGraph engineBefore txFeed /\
  en_commitID e' = 2 /\ session asciiTokens noID 4096 e'.
Proof.
  destruct (commit_succeeds asciiTokens noID 4096 engineBefore txKey txFeed noReports open_session txKey_reached key_fits txKey_storable) as (delta & e' & _ & Hc & Hg & Hi & Hs).
  - vm_compute. reflexivity.
  - exact txFeed_published.
  - vm_compute. discriminate.
  - exists delta, e'. split; [exact Hc|]. split; [exact Hg|]. split; [exact Hi|exact Hs].
Defined.

Lemma snapshot_size_exact_witness : en_SnapshotBytes engineKey = 7045 /\ EstimateSnapshotBytes (graphOfEngine engineKey) = 7045 /\ checkSize engineBefore txFeed = inl 7045.
Proof.
  destruct (snapshot_size_exact asciiTokens noID 4096 engineKey key_session) as [E _].
  destruct (snapshot_size_exact asciiTokens noID 4096 engineBefore open_session) as [_ Hc]. specialize (Hc txKey txFeed txKey_reached key_fits txKey_storable txFeed_published).
  assert (E' : en_SnapshotBytes engineKey = 7045) by (vm_compute; reflexivity). split; [exact E'|]. rewrite <- E. split; [exact E'|]. rewrite Hc. vm_compute. reflexivity.
Defined.

(** ** Deleting ahead of the allocation *)

(** A disk that takes the whole frame of a commit. *)
Definition noCommitFaults (e : engine) (tx : WriteTx) : appendFaults :=
  let tx := (withChangefeed e tx).2 in
  match buildPersistedDelta noID (persistedGraph e tx) (db_nextNodeID (w_db tx)) (db_nextEdgeID (w_db tx)) (en_commitID e + 1) (commitDelta tx) with
  | inl (delta, g) => noFaults (commitEntry g (en_commitID e + 1) delta)
  | inr _ => noFaults entryKey
  end.

(** Node 2 is deleted before it is there, and the transaction commits; the next one
    creates a node, which gets identifier 2. *)
Definition aheadTx : WriteTx := (runCall asciiTokens (CallDeleteNode 2) txStart).2.
Definition aheadEngine : engine := (commitInternal noID noReports (noCommitFaults engineBefore aheadTx) engineBefore 1 aheadTx).2.
Definition aheadNode : CreateNodeOptions := mkNodeOptions (Some [[x50]]) [([x61], VInt 5)].
Definition aheadCreated : outcome publicNodeView * WriteTx := CreateNode None aheadNode (CloneGraphStateShallow aheadEngine).

Lemma aheadTx_later : later asciiTokens noID aheadTx (CloneGraphStateShallow aheadEngine).
Proof.
  eapply (later_commit asciiTokens noID aheadTx aheadTx noReports (noCommitFaults engineBefore aheadTx) engineBefore 1); [apply later_here|vm_compute; reflexivity|].
  assert (E : (commitInternal noID noReports (noCommitFaults engineBefore aheadTx) engineBefore 1 aheadTx).1 = None) by (vm_compute; reflexivity).
  unfold aheadEngine. destruct (commitInternal _ _ _ _ _ _) as [err e']. cbn [fst snd] in *. by rewrite E.
Qed.

Lemma deleted_ahead_hides_node_witness : graphOf aheadTx = graphOf txStart /\
  exists v, aheadCreated.1 = Done v /\ pub_ID v = 2 /\ is_Some (gv_nodes (graphOf aheadCreated.2) !! 2) /\ 2 ∈ elems (gd_UpsertNodes (commitDelta aheadCreated.2)) /\
    NodeExists 2 aheadCreated.2 = (Done false, aheadCreated.2) /\ SetProperty 2 [x61] (VInt 5) aheadCreated.2 = (Failed nodeMissing, aheadCreated.2).
Proof.
  destruct (deleted_ahead_hides_node asciiTokens noID engineBefore txStart 2) as (tx1 & E1 & Hg & Hl).
  - exact engineBefore_ok.
  - apply reached_start.
  - vm_compute. reflexivity.
  - vm_compute. discriminate.
  - assert (Et : aheadTx = tx1) by (unfold aheadTx; rewrite E1; reflexivity). rewrite <- Et in Hg, Hl. split; [exact Hg|].
    assert (Ev : exists v, aheadCreated.1 = Done v /\ pub_ID v = 2) by (eexists; split; vm_compute; reflexivity). destruct Ev as (v & Ev & Ei). exists v.
    assert (Ec : aheadCreated = (Done v, aheadCreated.2)) by (rewrite <- Ev; apply surjective_pairing). unfold aheadCreated at 1 in Ec.
    destruct (Hl (CloneGraphStateShallow aheadEngine) None aheadNode v aheadCreated.2 aheadTx_later Ec Ei) as (H1 & H2 & H3 & H4). split; [exact Ev|]. split; [exact Ei|]. split; [exact H1|]. split; [exact H2|]. split; [exact H3|].
    apply H4. vm_compute. reflexivity.
Defined.
